(* ===== verification/_CoqProject ===== *)
-Q . S2P
Prelude.v
Float64.v
RoutingTypes.v
RuntimeTypes.v
RuntimeTypesProps.v
Policy.v
PolicyOrder.v
PolicyRules.v
PolicyFits.v
PolicyDecision.v
PolicyProps.v
Manager.v
ManagerAdmit.v
ManagerTurns.v
ManagerSteps.v
ManagerMoves.v
ManagerAdmitSteps.v
ManagerLedger.v
ManagerTurnSteps.v
ManagerEventSteps.v
ManagerExitSteps.v
ManagerApplySteps.v
ManagerPush.v
ManagerRuns.v
ManagerRecursion.v
ManagerProps.v
TtlCache.v
GroupFlatten.v
GatewayInstances.v
GatewayInstancesProps.v
Scaler.v
Calendar.v
Limiter.v
LimiterProps.v
AdmissionQueue.v
ActiveRequests.v
Scorer.v
Reservation.v
Selection.v
SelectionProps.v
Filters.v
FiltersProps.v
Targets.v
TargetsProps.v
Parking.v
ParkingProps.v
Groups.v
GroupWalk.v
GroupsProps.v
Resolving.v
ResolvingProps.v
Vendors.v
VendorsProps.v
Samples.v
LogBuffer.v
MemoryStore.v
MemoryStoreIntegrity.v
MemoryStoreProps.v
InstanceSource.v
ScaleUp.v
ScaleUpProps.v
AccessStore.v
AccessStoreProps.v
Provisioning.v
ProvisioningProps.v
Directory.v
DirectoryProps.v
