(* ===== verification/Prelude.v ===== *)
(** * A verification of the on-premises AI gateway

    The program is a gateway that routes inference requests to model servers, and an
    agent that runs the model processes on each server.  Their own logic -- which
    process may start, who may use which server, which instance serves a request, who
    may still send requests, what a cached setting may show -- is modelled here and
    proved correct.  Paths are relative to the repository root.

    ** The parts and how they interact

    - The agent's _runtime_ ([server-agent/internal/runtime]) parses the runtime-config
      document ([types.go]), addresses the instances of a replicable spec
      ([instance.go]) and decides every start with the admission policy
      ([policy.go]): a pure function of a snapshot of the host that answers OK, evict
      these, wait, or refuse.  The manager ([manager.go], [stop.go]) owns the table of
      instances: one goroutine handles requests, pushed configurations, exits, timers
      and measurements one at a time, takes the snapshot, acts on the answer, queues
      and answers requests, drains, backs off and shuts down.
    - The gateway's _routing_ ([gateway/backend/internal/routing]) resolves a request to
      a target ([resolver.go]): a server override, a vendor account, or the self-hosted
      path -- a session's pin, a model group, or a fresh selection -- over the mappings
      the filters leave, expanded into instances ([instances.go]), scored ([scorer.go])
      and capped; a request that finds every candidate full waits.
    - The _store_ keeps what routing reads; its memory driver
      ([routing/memory_store.go], [portal/memory_directory.go]) is the implementation
      that is modelled.  The _portal_ answers the resolver's two questions about grants:
      which servers a principal may use and which vendor accounts it may route to
      ([portal/service_resource_group_provisions.go],
      [portal/service_vendor_sharing_grant.go]).
    - The _gateway_ package ([gateway/backend/internal/gateway]) counts requests in
      flight, parks and wakes waiting ones ([active_requests.go], [admission_queue.go]),
      tells routing which instances run ([instance_source.go]), and starts further
      instances on demand: the scaler and the portal's manual start share the claim set
      and index rule ([instance_claims.go], [runtime_actions.go],
      [instance_scaler.go]).  Every request passes the per-principal limits
      ([principal_limits.go]) over calendar periods ([routing/limit_period.go]).
    - Settings on the request path are read through the TTL cache
      ([ttlcache/cache.go]).

    ** Files

    Shared:
    - [Prelude]: machine integers, instants, Go maps and sorting, strings; tactics, the
      hint database [go], lemmas the components share.
    - [Float64]: Go's [float64] on [SpecFloat]; [RoutingTypes]: the store's rows.

    The agent:
    - [RuntimeTypes], [RuntimeTypesProps]: [types.go] and [instance.go].  A [Spec] is a
      record with the source's fields, [ParseConfig] takes the decoded document
      ([json.Unmarshal] is an argument) to an error code or a repaired document.
    - [Policy]: [policy.go] in full.  The struct [admission] is a record, each rule
      method a function from it to it, [Admit] the composition in the code's order.
    - [PolicyOrder]: the comparison functions are strict weak orders that separate
      processes, so the unstable [sort.Slice] and the unordered map iterations have
      one possible result; the sibling reordering is a permutation within a base.
    - [PolicyRules]: every rule is a sequence of elementary steps (queue a victim that
      may leave, block, note a message) of the relation [astep]; the invariant of
      those steps; the accounting of the two budget rules on 64-bit integers.
    - [PolicyFits]: the declarative rule [fits] and, rule by rule, that the pipeline
      leaves a set that fits when it does not block and changes nothing when the set
      fits already; what each terminal refusal means.
    - [PolicyDecision]: fuel of the grace re-run, the drain order, and that the pipeline
      depends on the snapshot only through what it reads.
    - [PolicyProps]: the theorems about [Admit].
    - [Manager], [ManagerAdmit], [ManagerTurns]: the owner goroutine of [manager.go] and
      [stop.go] as functions on its state.  [Manager] has the data, the environment
      (class [World]) and the operations on one instance; [ManagerAdmit] the snapshot,
      the start of a process and [admitAndStart]; [ManagerTurns] every handler,
      [applyConfig], the dispatch and the event loop: [turn] is one round of
      [owner.run], [run] a list of events.  Replies, timers, signals and starts are
      recorded in [o_effects].
    - [ManagerSteps], [ManagerMoves]: what the properties see of a row, and the relation
      [move] (nothing, a local change, a start, a row added or removed) with the
      invariant [Inv] every move keeps.
    - [ManagerAdmitSteps], [ManagerTurnSteps], [ManagerEventSteps], [ManagerExitSteps],
      [ManagerApplySteps], [ManagerPush]: every operation is a sequence of moves.
    - [ManagerLedger]: the books kept along moves -- requests, live processes, in-flight
      counts, starts -- together [Sound].
    - [ManagerRuns]: runs; [promises] is what the outside promises, a boolean function
      of the events, and [protocol] asks besides that every push is calm.
    - [ManagerRecursion]: termination of [admitAndStart]; burst instances.
    - [ManagerProps]: the theorems about the manager, and a concrete run.

    Routing ([gateway/backend/internal/routing]):
    - [GroupFlatten]: [group_flatten.go], walks in the group graph.
    - [GatewayInstances], [GatewayInstancesProps]: [instances.go] and
      [gateway/instance_claims.go].  The class [ClaimLaws] states what a claim set
      promises; the exclusion theorem is proved against it and the implementation is an
      instance.
    - [Scorer], [Reservation]: [scorer.go] and the reservations of recent sessions.
    - [Selection], [SelectionProps]: [selectCandidate] and everything below it.  A
      [Resolver] is the installed sources and what they answer.
    - [Filters], [FiltersProps]: which mappings may serve a request (provisioning,
      endpoint, capability, real-time, voice) over a [StoreView].
    - [Targets], [TargetsProps]: [targetFrom] and the serving contract of a row.
    - [Parking], [ParkingProps]: the turns of a request that waits.
    - [Groups], [GroupWalk], [GroupsProps]: the group path, its ladder of relaxed
      attempts, its pins.
    - [Resolving], [ResolvingProps]: pins, the override and [resolveStandard].
    - [Vendors], [VendorsProps]: the vendor branch and [Resolve], which composes all.
    - [Samples]: [sample_reduce.go].
    - [Calendar]: the Gregorian calendar and [PeriodStart].

    The store and the portal:
    - [MemoryStore], [MemoryStoreIntegrity], [MemoryStoreProps]: the routing half of
      [memory_store.go]; every method is the body of its critical section.
    - [AccessStore], [AccessStoreProps]: services, resource groups, vendor accounts,
      provisions and limits, the other half, carrying the first.
    - [Provisioning], [ProvisioningProps]: the grants the portal answers.
    - [Directory], [DirectoryProps]: user groups and projects.

    The gateway package:
    - [Limiter], [LimiterProps]: the limiter's state and methods; costs are floats.
    - [AdmissionQueue], [ActiveRequests]: the queue of parked requests as an
      interleaving machine, and the registry whose removals wake it.
    - [InstanceSource]: the instances routing sees, with the spec cache.
    - [Scaler]: the scaler's signals and passes as a sequence of atomic events;
      [ScaleUp], [ScaleUpProps]: what one pass does.
    - [LogBuffer]: the ring of recent log records and its subscribers.
    - [TtlCache]: the cache and an interleaving machine whose steps are the atomic
      sections of [get]; executions are lists of events.

    ** What the theorems show

    - The manager over any run (C1, C2, C7, C8, C12 to C15): the table is consistent;
      every request is answered exactly once or is queued; no turn exceeds the process
      limit or starts a process beside one the matrix forbids; in-flight counts are
      exact; shutdown answers everything, starts nothing and ends with the last exit;
      the recursion of an admission ends.  All but the last assume [promises]: a start
      is reported once, a drain grace expires only after it was scheduled, a release
      follows the request it ends (and fewer than 2^63 are handed to one process), and a
      push holds named base specs.  The books of requests (C2, C13) assume [protocol]: no
      push demotes an instance to a burst instance while its failed start is still torn
      down, requests wait for it and no retry is noted for its exit ([torn_pushes] shows
      such a run, in which nothing is lost).  C1 lets a further instance rest at [draining]
      without a process: [demoted_instance_rests_draining] is a run that leaves one there,
      where the comments promise that it is retired.
    - Admission (C3, C6, C16 to C18): OK exactly when the rule holds; an eviction is
      enough for the retry; victims are idle; terminal refusals happen exactly in the
      documented situations; the answer does not depend on the order of the snapshot.
      Sums of demands are 64-bit: C3 and C6 assume amounts of at most 2^40 MB and at
      most 2^20 processes ([amounts_ok]), under which no sum wraps, and distinct process
      keys ([unique_running]), which the manager's map guarantees.
    - Resolution (C4, C10, C19, C24 to C27, C32): whatever serves a request was permitted
      to; the selection is the best candidate of one lexicographic preference; flattening
      lists exactly the reachable models; a bounded wait ends; what happens to a session's
      pin; a session stays on its member, climbs when it may and warms what is cold; a
      group fails for a read, the queue, the real-time bar or because no attempt of its
      ladder can serve; a target says faithfully what is addressed, where and how.
    - Grants (C5, C9, C20, C21): over an intact store the portal grants exactly what
      links and provisions say, a failed read never grants more than it should, and the
      resolver run against that store and that portal serves only what was granted, or
      what an override names.
    - The store (C11, C22, C23, C30, C31): the tables stay intact under every write of
      either half, as far as the code checks references, and a refused write changes
      nothing; the pool the filters leave over this store; exactly what deleting a server
      removes; machine writers yield to the operator; a saved spec is found again with its
      measurements.
    - Directory (C28, C29): deleting a group deletes exactly what is below it, and revokes
      exactly what it granted.
    - Scale-ups (C33 to C36): a host is asked only for an instance worth starting, best
      routing score first; a pass ends; no demand is lost; a changed spec reaches routing within seven seconds.
    - Cache (C37): no value older than an [Invalidate] survives it in any interleaving;
      the generation counter is 64 bits wide, so fewer than 2^64 invalidations are
      assumed.
    - Limits and waiting (C38, C39): a request's verdict is what its limits, in order, say
      of the configuration and usage it is judged by, whatever the caches held; freed slots
      wake distinct waiters in the order in which they came.
    - Config documents (C40): an accepted document satisfies what its readers rely on.

    Further theorems of the same kind stand beside these in their files: keys and
    addresses, claims and the index rule, vendor accounts, calendar periods, quotas in a burst,
    voice filtering, sample reduction, the log ring, the instance view.

    ** Fuel and bounds

    [admitStepsFuel] re-runs the pipeline once with the grace window off, which never
    recurses: one unit is enough ([admitStepsFuel_enough]).  [flattenFuel] needs one
    unit per group on a path, of which there are at most [size graph]
    ([flattenFuel_enough]).  [admitAndStart] grants one level more than the table has
    rows; a level climbs the instance indexes of one spec, so that is enough on every
    table (C15).  [floorFrom] and [backoffLoop] leave by their own conditions within the
    rounds given (at most [MaxInstanceIndex], and six doublings).  The cascade of a
    group's deletion has one unit per group, and each call deletes one (C28).  Decimation
    computes its indexes in 64 bits; histories of fewer than 2^31 samples are assumed.
    All other loops are structural, or run over a computed list.

    ** What is assumed of what is outside

    - What one turn, round or call reads is one snapshot ([Turn], [GroupTurn], [Env],
      [VendorView], [PortalView], [ScaleView]); successive turns read afresh, and nothing
      relates one reading to the next.
    - A store answers a batch of identifiers row by row ([rowwise], [FiltersProps]): an
      assumption of the resolver's theorems that the in-memory store and the portal's gate
      are shown to meet (C22, C5).
    - Text that depends on Unicode tables is a parameter (class [Unicode]); on ASCII it is
      computed.  The hash that names a pin, the decoding of JSON, random identifiers and
      the clock are parameters.
    - Methods guarded by a mutex are atomic state transformers; where a method gives the
      lock up, it is split there, but for the limiter, whose methods release the lock
      around a store read and are one transition.
    - Products and sums of floats are rounded separately, as on amd64.

    ** What is not modelled

    Log output, error texts of wrapped errors, the distinction of nil and empty slices,
    and the monotonic clock reading are left out.  Of the manager, the callers' side of
    each command (posting, contexts) and the goroutines that probe health and wait for
    exits are not modelled: their messages are the events of a run, in any order
    [promises] admits.  The local policy, placeholder expansion, config files and the log
    store are parameters of [World].  Of the portal, the management operations (validation of
    requests, authorisation of administrators, shaping of responses) beyond the grants and
    the directory; of the gateway, the HTTP handlers, streaming, benchmarks, voice sessions
    and energy accounting.  The SQL store and its migrations, vendor protocols and wire
    formats, accounts, cryptographic and operating-system layers and the TypeScript
    frontend are I/O around libraries.

    What would come next: placeholder expansion and the validation rules the portal
    shares with the agent, the management operations on resource groups, and a refinement
    of the SQL store to the tables of [MemoryStore]. *)

From Stdlib Require Import ZArith Lia Ascii.
From stdpp Require Import base tactics option list numbers strings pretty gmap sorting.

(** ** Notation scope of the development *)

Declare Scope go_scope.
Delimit Scope go_scope with go.

(** ** Machine integers

    A Go [int] is 64 bits wide on every platform the program is built for.
    [int64 z] is the value that a 64-bit register holds after an operation
    whose mathematical result is [z]: two's complement wrap-around. *)

Definition int64_min : Z := - 2 ^ 63.
Definition int64_max : Z := 2 ^ 63 - 1.

Definition int64 (z : Z) : Z := (z + 2 ^ 63) mod 2 ^ 64 - 2 ^ 63.

Definition in_int64 (z : Z) : Prop := (int64_min <= z <= int64_max)%Z.

Definition uint64 (z : Z) : Z := z mod 2 ^ 64.

Notation "x '+!' y" := (int64 (x + y)%Z) (at level 50, left associativity) : go_scope.
Notation "x '-!' y" := (int64 (x - y)%Z) (at level 50, left associativity) : go_scope.

(** ** Time

    A [time.Time] is the number of nanoseconds since Go's zero time
    (January 1, year 1, 00:00 UTC), so [time_zero] is [0]; the monotonic
    reading is not modelled.  A [time.Duration] is a 64-bit number of
    nanoseconds, and [Time.Sub] saturates instead of wrapping. *)

Definition time := Z.
Definition duration := Z.
Definition time_zero : time := 0%Z.

Definition time_Sub (t u : time) : duration :=
  Z.max int64_min (Z.min int64_max (t - u)).

Definition time_Add (t : time) (d : duration) : time := (t + d)%Z.
Definition time_IsZero (t : time) : bool := (t =? time_zero)%Z.

(** ** Maps

    Indexing a Go map with an absent key yields the zero value. *)

Definition map_get `{Countable K} {V} (zero : V) (m : gmap K V) (k : K) : V :=
  default zero (m !! k).

Definition has_key `{Countable K} {V} (m : gmap K V) (k : K) : bool :=
  bool_decide (is_Some (m !! k)).

(** ** Sorting

    [sort.Slice] orders a slice by a [less] function and is not stable.  For a
    strict weak order its result is a permutation in which no element is less
    than one before it; [sort_Slice] computes one such permutation, and
    [sort_Slice_unique] shows it is the only one whenever [less] separates the
    elements. *)

Definition less_le {A} (less : A -> A -> bool) (x y : A) : Prop := less y x = false.

Global Instance less_le_dec {A} (less : A -> A -> bool) (x y : A) :
  Decision (less_le less x y).
Proof. unfold less_le. apply _. Defined.

Definition sort_Slice {A} (less : A -> A -> bool) (l : list A) : list A :=
  merge_sort (less_le less) l.

(** The less functions of the program compare one key after the other. *)

Class StrictWeak {A} (less : A -> A -> bool) : Prop := {
  sw_asym x y : less x y = true -> less y x = false;
  sw_trans x y z : less y x = false -> less z y = false -> less z x = false
}.

Definition less_lex {A} (l1 l2 : A -> A -> bool) (x y : A) : bool :=
  if l1 x y then true else if l1 y x then false else l2 x y.

Definition less_Z {A} (f : A -> Z) (x y : A) : bool := (f x <? f y)%Z.
Definition less_string {A} (f : A -> string) (x y : A) : bool :=
  String.ltb (f x) (f y).

(** ** Strings *)

Definition is_ascii (s : string) : bool :=
  forallb (fun c => (Ascii.nat_of_ascii c <? 128)%nat) (String.list_ascii_of_string s).

Definition ascii_lower (c : Ascii.ascii) : Ascii.ascii :=
  let n := Ascii.nat_of_ascii c in
  if ((65 <=? n)%nat && (n <=? 90)%nat)%bool then Ascii.ascii_of_nat (n + 32) else c.

Definition ascii_is_space (c : Ascii.ascii) : bool :=
  let n := Ascii.nat_of_ascii c in
  (((9 <=? n)%nat && (n <=? 13)%nat) || (n =? 32)%nat)%bool.

Definition string_map (f : Ascii.ascii -> Ascii.ascii) (s : string) : string :=
  String.string_of_list_ascii (f <$> String.list_ascii_of_string s).

Fixpoint drop_while {A} (p : A -> bool) (l : list A) : list A :=
  match l with
  | [] => []
  | x :: l' => if p x then drop_while p l' else l
  end.

Definition ascii_trim (s : string) : string :=
  let l := drop_while ascii_is_space (String.list_ascii_of_string s) in
  String.string_of_list_ascii (reverse (drop_while ascii_is_space (reverse l))).

(** The number of maximal runs of characters that are not white space. *)
Fixpoint ascii_words (inWord : bool) (l : list Ascii.ascii) : nat :=
  match l with
  | [] => 0
  | c :: l' =>
      if ascii_is_space c then ascii_words false l'
      else if inWord then ascii_words true l' else S (ascii_words true l')
  end.

(** The parts of package [strings] whose result depends on the Unicode tables:
    on ASCII input they are computed here; on other input they are what the
    tables say, which is a parameter of everything that calls them. *)
Class Unicode := {
  unicode_lower : string -> string;
  unicode_trim : string -> string;
  unicode_words : string -> nat;
  unicode_has_control : string -> bool
}.

Definition strings_ToLower `{Unicode} (s : string) : string :=
  if is_ascii s then string_map ascii_lower s else unicode_lower s.

Definition strings_TrimSpace `{Unicode} (s : string) : string :=
  if is_ascii s then ascii_trim s else unicode_trim s.

(** [len(strings.Fields(s))] *)
Definition strings_FieldCount `{Unicode} (s : string) : Z :=
  Z.of_nat (if is_ascii s then ascii_words false (String.list_ascii_of_string s) else unicode_words s).

Definition string_contains (c : Ascii.ascii) (s : string) : bool :=
  existsb (Ascii.eqb c) (String.list_ascii_of_string s).

(** A table for concrete runs: leaves non-ASCII text unchanged. *)
Definition ascii_tables : Unicode := {|
  unicode_lower s := s;
  unicode_trim s := s;
  unicode_words s := ascii_words false (String.list_ascii_of_string s);
  unicode_has_control _ := false
|}.

(** ** Record update

    [r <| f := v |>] is the record [r] with field [f] set to [v], and
    [r <| f ::= g |>] the one with [g] applied to it.  A record type declares how
    it is put together from its fields ([Fields]); the update of one field is
    found by abstracting that field in it. *)

Class Fields (R : Type) := fields : R -> R.
Class Update {R T : Type} (proj : R -> T) := update : (T -> T) -> R -> R.
Global Arguments update {R T} proj {_} _ _.

Ltac derive_update :=
  lazymatch goal with
  | |- @Update ?R ?T ?proj =>
      let whole := constr:(_ : Fields R) in
      let whole := eval hnf in whole in
      lazymatch eval pattern proj in whole with
      | ?abstracted _ =>
          let u := eval cbv beta in (fun g : T -> T => abstracted (fun r : R => g (proj r))) in
          exact u
      end
  end.

Global Hint Extern 1 (Update _) => derive_update : typeclass_instances.

Notation "r <| proj := v |>" := (update proj (fun _ => v) r)
  (at level 1, left associativity, proj at level 9, v at level 200) : go_scope.
Notation "r <| proj ::= g |>" := (update proj g r)
  (at level 1, left associativity, proj at level 9, g at level 200) : go_scope.

(** ** Tactics *)

(** Splits a boolean conjunction, reflects the comparisons it contains. *)
Ltac bool_hyps :=
  repeat match goal with
  | H : (_ && _)%bool = true |- _ => apply andb_true_iff in H as [? ?]
  | H : (_ || _)%bool = false |- _ => apply orb_false_iff in H as [? ?]
  | H : negb _ = true |- _ => apply negb_true_iff in H
  | H : negb _ = false |- _ => apply negb_false_iff in H
  | H : (_ <=? _)%Z = true |- _ => apply Z.leb_le in H
  | H : (_ <=? _)%Z = false |- _ => apply Z.leb_gt in H
  | H : (_ <? _)%Z = true |- _ => apply Z.ltb_lt in H
  | H : (_ <? _)%Z = false |- _ => apply Z.ltb_ge in H
  | H : (_ =? _)%Z = true |- _ => apply Z.eqb_eq in H
  | H : (_ =? _)%Z = false |- _ => apply Z.eqb_neq in H
  | H : String.eqb _ _ = true |- _ => apply String.eqb_eq in H
  | H : String.eqb _ _ = false |- _ => apply String.eqb_neq in H
  | H : bool_decide _ = true |- _ => apply bool_decide_eq_true in H
  | H : bool_decide _ = false |- _ => apply bool_decide_eq_false in H
  end.

(** Case analysis on the scrutinee of an [if] or [match] of the goal. *)
Ltac case_scrut :=
  match goal with
  | |- context [match ?x with _ => _ end] => destruct x eqn:?
  end.

Create HintDb go discriminated.
#[export] Hint Constants Opaque : go.

(** ** Integers *)

Lemma int64_id (z : Z) : in_int64 z -> int64 z = z.
Proof.
  unfold in_int64, int64, int64_min, int64_max. intros H.
  rewrite Z.mod_small; lia.
Qed.

Lemma int64_in_int64 (z : Z) : in_int64 (int64 z).
Proof.
  unfold in_int64, int64, int64_min, int64_max.
  pose proof (Z.mod_pos_bound (z + 2 ^ 63) (2 ^ 64)) as H. lia.
Qed.

(** ** Maps *)

Lemma has_key_true `{Countable K} {V} (m : gmap K V) (k : K) :
  has_key m k = true <-> is_Some (m !! k).
Proof. unfold has_key. by rewrite bool_decide_eq_true. Qed.

Lemma has_key_dom `{Countable K} {V} (m : gmap K V) (k : K) :
  has_key m k = true <-> k ∈ dom m.
Proof. by rewrite has_key_true, elem_of_dom. Qed.

Lemma has_key_false `{Countable K} {V} (m : gmap K V) (k : K) :
  has_key m k = false <-> k ∉ dom m.
Proof. rewrite <- has_key_dom. by destruct (has_key m k). Qed.

(** ** Less functions *)

Section string_order.

Lemma string_ltb_leb (s1 s2 : string) :
  String.ltb s1 s2 = negb (String.leb s2 s1).
Proof.
  unfold String.ltb, String.leb. rewrite (String.compare_antisym s1 s2).
  by destruct (String.compare s2 s1).
Qed.

Lemma string_ltb_false (s1 s2 : string) :
  String.ltb s1 s2 = false <-> String.le s2 s1.
Proof.
  rewrite string_ltb_leb. unfold String.le.
  destruct (String.leb s2 s1); simpl; split; done || tauto.
Qed.

Lemma string_ltb_eq (s1 s2 : string) :
  String.ltb s1 s2 = false -> String.ltb s2 s1 = false -> s1 = s2.
Proof.
  rewrite !string_ltb_false. intros H1 H2. by apply (anti_symm String.le).
Qed.

Lemma string_ltb_irrefl (s : string) : String.ltb s s = false.
Proof. by apply string_ltb_false. Qed.

End string_order.

#[export] Hint Resolve string_ltb_irrefl : go.

Global Instance less_Z_sw {A} (f : A -> Z) : StrictWeak (less_Z f).
Proof. unfold less_Z. split; intros; bool_hyps; apply Z.ltb_ge; lia. Qed.

Global Instance less_string_sw {A} (f : A -> string) : StrictWeak (less_string f).
Proof.
  unfold less_string. split.
  - intros x y H. destruct (String.ltb (f y) (f x)) eqn:E; [|done].
    rewrite string_ltb_leb, negb_true_iff in H, E.
    destruct (String.leb_total (f x) (f y)); congruence.
  - intros x y z. rewrite !string_ltb_false. by etrans.
Qed.

Global Instance less_lex_sw {A} (l1 l2 : A -> A -> bool) :
  StrictWeak l1 -> StrictWeak l2 -> StrictWeak (less_lex l1 l2).
Proof.
  intros S1 S2. unfold less_lex. split.
  - intros x y. destruct (l1 x y) eqn:E1.
    + by rewrite (sw_asym _ _ E1).
    + destruct (l1 y x) eqn:E2; [done|]. apply sw_asym.
  - intros x y z.
    destruct (l1 y x) eqn:E1; [done|]. destruct (l1 z y) eqn:E2; [done|].
    pose proof (sw_trans _ _ _ E1 E2) as E3. rewrite E3.
    destruct (l1 x z) eqn:E5; [by auto|].
    pose proof (sw_trans _ _ _ E5 E1) as E6. pose proof (sw_trans _ _ _ E2 E5) as E7.
    rewrite E6, E7. apply sw_trans.
Qed.

Section sorting_facts.
Context {A : Type} (less : A -> A -> bool) `{!StrictWeak less}.

Global Instance less_le_total : Total (less_le less).
Proof.
  intros x y. unfold less_le. destruct (less y x) eqn:E; [|by left].
  right. by apply sw_asym.
Qed.

Global Instance less_le_trans : Transitive (less_le less).
Proof. intros x y z. unfold less_le. eauto using sw_trans. Qed.

Lemma sort_Slice_perm (l : list A) : sort_Slice less l ≡ₚ l.
Proof. apply merge_sort_Permutation. Qed.

Lemma sort_Slice_sorted (l : list A) : StronglySorted (less_le less) (sort_Slice less l).
Proof. apply (StronglySorted_merge_sort _). Qed.

Lemma sort_Slice_elem (l : list A) (x : A) : x ∈ sort_Slice less l <-> x ∈ l.
Proof. by rewrite sort_Slice_perm. Qed.

(** Any result of [sort.Slice] on any arrangement of the same elements is this
    one, when two elements neither of which is less than the other are equal. *)
Lemma sort_Slice_unique (l l' : list A) :
  (forall x y, x ∈ l -> y ∈ l -> less x y = false -> less y x = false -> x = y) ->
  l ≡ₚ l' ->
  forall l'', l'' ≡ₚ l' -> StronglySorted (less_le less) l'' -> l'' = sort_Slice less l.
Proof.
  intros Hsep Hp l'' Hp' Hs.
  apply (StronglySorted_unique_strong (less_le less)); [|done|apply sort_Slice_sorted|].
  - intros x y Hx Hy. rewrite sort_Slice_perm in Hy.
    rewrite Hp', <- Hp in Hx. unfold less_le. eauto.
  - by rewrite sort_Slice_perm, Hp', Hp.
Qed.

Lemma sort_Slice_perm_eq (l l' : list A) :
  (forall x y, x ∈ l -> y ∈ l -> less x y = false -> less y x = false -> x = y) ->
  l ≡ₚ l' -> sort_Slice less l = sort_Slice less l'.
Proof.
  intros Hsep Hp. symmetry. eapply sort_Slice_unique; [done|done| |apply sort_Slice_sorted].
  by rewrite sort_Slice_perm.
Qed.

End sorting_facts.

(** ** Filters *)

Global Instance filter_bool_perm {A} (p : A -> bool) :
  Proper ((≡ₚ) ==> (≡ₚ)) (List.filter p).
Proof.
  intros l l' Hp. induction Hp; simpl; repeat case_match; eauto using Permutation.
Qed.

Lemma elem_of_filter_bool {A} (p : A -> bool) (l : list A) (x : A) :
  x ∈ List.filter p l <-> x ∈ l /\ p x = true.
Proof. by rewrite !list_elem_of_In, filter_In. Qed.

Lemma filter_ext_elem {A} (p q : A -> bool) (l : list A) :
  (forall x, x ∈ l -> p x = q x) -> List.filter p l = List.filter q l.
Proof. intros H. apply List.filter_ext_in. intros x Hx. by apply H, list_elem_of_In. Qed.

Lemma foldl_id {A B} (f : A -> B -> A) (a : A) (l : list B) :
  (forall x, x ∈ l -> f a x = a) -> foldl f a l = a.
Proof.
  induction l as [|x l IH]; intros Hf; [done|]. simpl.
  rewrite (Hf x) by left. apply IH. intros. apply Hf. by right.
Qed.
