(* ===== verification/Float64.v ===== *)
(** * Go's [float64]

    A [float64] is an IEEE 754 binary64 number; every operation rounds to nearest,
    ties to even ([SpecFloat]).  Products and sums are rounded separately: the
    compiler is allowed to fuse them on some architectures and does not on amd64,
    which is what is modelled.

    The second half bounds magnitudes: an operation on small numbers gives a small
    number, in particular neither an infinity nor a NaN. *)

From Stdlib Require Import ZArith Lia SpecFloat.
From stdpp Require Import base tactics numbers.
From S2P Require Import Prelude.
Local Open Scope Z_scope.

(** ** Operations *)

Definition float64 : Type := spec_float.

Definition f64_zero : float64 := S754_zero false.
Definition f64_add (x y : float64) : float64 := SFadd 53 1024 x y.
Definition f64_sub (x y : float64) : float64 := SFsub 53 1024 x y.
Definition f64_mul (x y : float64) : float64 := SFmul 53 1024 x y.
Definition f64_div (x y : float64) : float64 := SFdiv 53 1024 x y.
Definition f64_ltb (x y : float64) : bool := SFltb x y.
Definition f64_leb (x y : float64) : bool := SFleb x y.
Definition f64_geb (x y : float64) : bool := SFleb y x.
Definition f64_eqb (x y : float64) : bool := SFeqb x y.

(** The conversion [float64(n)] of an integer. *)
Definition f64_of_int (n : Z) : float64 := binary_normalize 53 1024 n 0 false.

(** A constant such as 0.25, the number nearest to the quotient of two integers. *)
Definition f64_ratio (p q : Z) : float64 := f64_div (f64_of_int p) (f64_of_int q).

(** The conversion [int(x)]: truncation towards zero.  The result of converting a NaN,
    an infinity or a number out of range is left to the implementation by the
    language; no caller modelled here can produce one. *)
Definition f64_to_int (x : float64) : Z :=
  match x with
  | S754_finite s m e =>
      let magnitude := if 0 <=? e then Zpos m * 2 ^ e else Zpos m / 2 ^ (- e) in
      if s then - magnitude else magnitude
  | _ => 0
  end.

Definition math_IsNaN (x : float64) : bool :=
  match x with S754_nan => true | _ => false end.

Definition math_IsInf (x : float64) : bool :=
  match x with S754_infinity _ => true | _ => false end.

(** What the hardware holds: mantissas of at most 53 bits, exponents in range. *)
Definition f64_valid (x : float64) : bool := valid_binary 53 1024 x.

(** ** Order *)

Definition f64_number (x : float64) : Prop := x <> S754_nan.

(** Comparison of two finite numbers of one sign: exponents, then mantissas. *)
Definition mantissa_key (s : bool) (m : positive) (e : Z) : Z * Z :=
  if s then (- e, - Zpos m) else (e, Zpos m).

Definition f64_key (x : float64) : Z * (Z * Z) :=
  match x with
  | S754_infinity true => (-2, (0, 0))
  | S754_finite true m e => (-1, mantissa_key true m e)
  | S754_zero _ | S754_nan => (0, (0, 0))
  | S754_finite false m e => (1, mantissa_key false m e)
  | S754_infinity false => (2, (0, 0))
  end.

Definition key_lt (a b : Z * (Z * Z)) : Prop :=
  a.1 < b.1 \/ (a.1 = b.1 /\ (a.2.1 < b.2.1 \/ (a.2.1 = b.2.1 /\ a.2.2 < b.2.2))).

Lemma f64_ltb_key x y : f64_number x -> f64_number y -> f64_ltb x y = true <-> key_lt (f64_key x) (f64_key y).
Proof.
  unfold f64_number, f64_ltb, SFltb, key_lt. intros Hx Hy.
  destruct x as [sx|[]| |[] mx ex], y as [sy|[]| |[] my ey]; simpl; try congruence;
    try (split; [congruence|lia]); try (split; [lia|congruence]); unfold Pos.compare_cont; fold Pos.compare_cont;
    change (Pos.compare_cont Eq mx my) with (Pos.compare mx my);
    destruct (Z.compare_spec ex ey), (Pos.compare_spec mx my); simpl; split; (lia || congruence).
Qed.

Lemma f64_ltb_irrefl x : f64_ltb x x = false.
Proof.
  destruct x as [s|[]| |s m e] eqn:E; try done. apply not_true_is_false.
  rewrite f64_ltb_key by done. unfold key_lt. lia.
Qed.

Lemma f64_ltb_trans x y z :
  f64_number x -> f64_number y -> f64_number z ->
  f64_ltb x y = true -> f64_ltb z y = false -> f64_ltb x z = true.
Proof.
  intros Hx Hy Hz H1 H2. apply not_true_iff_false in H2. revert H1 H2.
  rewrite !f64_ltb_key by done. unfold key_lt. lia.
Qed.

Lemma f64_not_ltb_trans x y z :
  f64_number x -> f64_number y -> f64_number z ->
  f64_ltb y x = false -> f64_ltb z y = false -> f64_ltb z x = false.
Proof.
  intros Hx Hy Hz H1 H2. apply not_true_iff_false in H1, H2. apply not_true_iff_false. revert H1 H2.
  rewrite !f64_ltb_key by done. unfold key_lt. lia.
Qed.

(** ** Magnitude

    [small k x]: a finite number below [2^k] in absolute value. *)
Definition small (k : Z) (x : float64) : Prop :=
  match x with
  | S754_zero _ => True
  | S754_finite _ m e => Zpos (digits2_pos m) + e <= k
  | _ => False
  end.

Lemma small_number k x : small k x -> f64_number x.
Proof. by destruct x. Qed.

Lemma small_le k1 k2 x : small k1 x -> k1 <= k2 -> small k2 x.
Proof. destruct x; simpl; [done..|lia]. Qed.

Lemma digits2_log2 p : Zpos (digits2_pos p) = Z.log2 (Zpos p) + 1.
Proof.
  induction p as [p IH|p IH|]; simpl digits2_pos; [..|done]; rewrite Pos2Z.inj_succ, IH.
  - rewrite (Pos2Z.inj_xI p), Z.log2_succ_double by lia. lia.
  - rewrite (Pos2Z.inj_xO p), Z.log2_double by lia. lia.
Qed.

(** [digits m] is the least width that holds [m]. *)
Lemma digits_lt p : Zpos p < 2 ^ Zpos (digits2_pos p).
Proof. rewrite digits2_log2. by apply Z.log2_spec. Qed.

Lemma digits_le p k : 0 <= k -> Zpos p < 2 ^ k -> Zpos (digits2_pos p) <= k.
Proof. intros Hk H. rewrite digits2_log2. apply Z.log2_lt_pow2 in H; lia. Qed.

(** Shifting right drops the low bits. *)
Lemma shr_1_m mrs : 0 <= shr_m mrs -> shr_m (shr_1 mrs) = shr_m mrs / 2.
Proof.
  destruct mrs as [m r s]; simpl. intros Hm. destruct m as [|[p|p|]|p]; simpl; try done; [|].
  - apply Z.div_unique with 1; lia.
  - apply Z.div_unique with 0; lia.
Qed.

Lemma iter_shr_m p mrs : 0 <= shr_m mrs -> shr_m (SpecFloat.iter_pos shr_1 p mrs) = shr_m mrs / 2 ^ Zpos p.
Proof.
  revert mrs. induction p as [p IH|p IH|]; intros mrs Hm; simpl SpecFloat.iter_pos.
  - assert (0 <= shr_m mrs / 2) by (apply Z.div_pos; lia).
    assert (0 <= shr_m mrs / 2 / 2 ^ Zpos p) by (apply Z.div_pos; lia).
    rewrite !IH; rewrite ?IH, ?shr_1_m by (rewrite ?shr_1_m; lia); try lia.
    rewrite !Z.div_div by lia. f_equal.
    rewrite <- Z.pow_add_r, <- Z.pow_succ_r by lia. f_equal. lia.
  - assert (0 <= shr_m mrs / 2 ^ Zpos p) by (apply Z.div_pos; lia).
    rewrite !IH; rewrite ?IH by lia; try lia. rewrite Z.div_div by lia. f_equal.
    rewrite <- Z.pow_add_r by lia. f_equal. lia.
  - by apply shr_1_m.
Qed.

(** The mantissa and exponent after the alignment of a rounding step: still the same
    magnitude, and aligned to the format. *)
Lemma shr_fexp_small m e l k d :
  0 < m -> m < 2 ^ d -> 0 <= d -> d + e <= k -> -1074 <= k ->
  let '(mrs, e') := shr_fexp 53 1024 m e l in
  exists d', 0 <= d' /\ 0 <= shr_m mrs < 2 ^ d' /\ d' + e' <= k /\ (0 < shr_m mrs -> e' <= k - 1) /\
    (e' = e \/ e' <= Z.max (k - 53) (-1074)).
Proof.
  intros Hm Hd Hd0 Hk Hmin. unfold shr_fexp, shr.
  assert (Hr : shr_m (shr_record_of_loc m l) = m) by (by destruct l as [|[]]).
  destruct m as [|p|p]; [lia| |lia]. simpl Zdigits2.
  pose proof (digits_le p d Hd0 Hd) as Hdig. pose proof (digits_lt p) as Hlt.
  set (dig := Zpos (digits2_pos p)) in *. assert (0 < dig) by (unfold dig; lia).
  destruct (fexp 53 1024 (dig + e) - e) as [|n|n] eqn:En.
  1, 3: exists dig; rewrite Hr; repeat split; (lia || auto || by left).
  unfold fexp, emin in En. rewrite iter_shr_m, Hr by (rewrite Hr; lia).
  assert (Hpos : 0 <= Zpos p / 2 ^ Zpos n) by (apply Z.div_pos; lia).
  exists (Z.max 0 (dig - Zpos n)). split_and!; [lia|done| |lia| |right; lia].
  - destruct (Z.le_gt_cases dig (Zpos n)) as [Hle|Hgt].
    + rewrite Z.max_l by lia. change (2 ^ 0) with 1.
      apply Z.div_lt_upper_bound; [lia|]. rewrite Z.mul_1_r.
      eapply Z.lt_le_trans; [exact Hlt|]. apply Z.pow_le_mono_r; lia.
    + rewrite Z.max_r by lia. apply Z.div_lt_upper_bound; [lia|].
      rewrite <- Z.pow_add_r by lia. by replace (Zpos n + (dig - Zpos n)) with dig by lia.
  - intros Hq. destruct (Z.le_gt_cases dig (Zpos n)) as [Hle|Hgt]; [|lia].
    assert (Zpos p / 2 ^ Zpos n = 0); [|lia]. apply Z.div_small. split; [lia|].
    eapply Z.lt_le_trans; [exact Hlt|]. apply Z.pow_le_mono_r; lia.
Qed.

Lemma round_nearest_even_le m l : m <= round_nearest_even m l <= m + 1.
Proof. destruct l as [|[]]; simpl; try case_match; lia. Qed.

(** Rounding at most doubles. *)
Lemma binary_round_aux_small s m e l k d :
  0 < m -> m < 2 ^ d -> 0 <= d -> d + e <= k -> -1074 <= k <= 970 ->
  small (k + 1) (binary_round_aux 53 1024 s m e l).
Proof.
  intros Hm Hd Hd0 Hk Hr. unfold binary_round_aux.
  pose proof (shr_fexp_small m e l k d Hm Hd Hd0 Hk ltac:(lia)) as H1.
  destruct (shr_fexp 53 1024 m e l) as [mrs1 e1]. destruct H1 as (d1 & Hd1 & Hm1 & Hk1 & He1 & _).
  pose proof (round_nearest_even_le (shr_m mrs1) (loc_of_shr_record mrs1)) as Hne.
  set (m1 := round_nearest_even _ _) in *. clearbody m1.
  destruct (Z.eq_dec m1 0) as [->|Hnz].
  { unfold shr_fexp, shr. destruct (_ - e1); [done| |done]. by rewrite iter_shr_m, Zdiv_0_l by done. }
  assert (Hm1' : m1 < 2 ^ (d1 + 1)).
  { rewrite Z.pow_add_r by lia. change (2 ^ 1) with 2. assert (0 < 2 ^ d1) by (by apply Z.pow_pos_nonneg). lia. }
  pose proof (shr_fexp_small m1 e1 loc_Exact (k + 1) (d1 + 1) ltac:(lia) Hm1' ltac:(lia) ltac:(lia) ltac:(lia)) as H2.
  destruct (shr_fexp 53 1024 m1 e1 loc_Exact) as [mrs2 e2]. destruct H2 as (d2 & Hd2 & Hm2 & Hk2 & He2 & _).
  destruct (shr_m mrs2) as [|p|p]; [done| |lia].
  rewrite (proj2 (Z.leb_le e2 _)) by lia. simpl.
  pose proof (digits_le p d2 Hd2 ltac:(lia)). lia.
Qed.

Lemma shl_align_value m e e' :
  let '(m', e'') := shl_align m e e' in
  e'' = Z.min e e' /\ Zpos m' = Zpos m * 2 ^ (e - e'').
Proof.
  unfold shl_align. destruct (e' - e) as [|n|n] eqn:E.
  1, 2: split; [lia|rewrite Z.sub_diag; lia].
  split; [lia|]. replace (e - e') with (Zpos n) by lia. clear E.
  induction n as [|n IH] using Pos.peano_ind.
  - simpl. lia.
  - rewrite Pos.iter_succ, Pos2Z.inj_succ, Z.pow_succ_r, Pos2Z.inj_xO, IH by lia. lia.
Qed.

Lemma binary_round_small s m e k d :
  Zpos m < 2 ^ d -> 0 <= d -> d + e <= k -> -1074 <= k <= 970 ->
  small (k + 1) (binary_round 53 1024 s m e).
Proof.
  intros Hm Hd Hk Hr. unfold binary_round.
  pose proof (shl_align_value m e (fexp 53 1024 (Zpos (digits2_pos m) + e))) as H.
  destruct (shl_align _ _ _) as [mz ez]. destruct H as [-> Hv].
  set (e' := Z.min e _) in *. assert (e' <= e) by (unfold e'; lia).
  apply (binary_round_aux_small _ _ _ _ k (d + (e - e'))); try lia.
  rewrite Hv, Z.pow_add_r by lia. apply Z.mul_lt_mono_pos_r; [|done]. apply Z.pow_pos_nonneg; lia.
Qed.

Lemma binary_normalize_small z e s k d :
  Z.abs z < 2 ^ d -> 0 <= d -> d + e <= k -> -1074 <= k <= 970 ->
  small (k + 1) (binary_normalize 53 1024 z e s).
Proof.
  intros Hz Hd Hk Hr. destruct z as [|p|p]; simpl; [done|..]; eapply binary_round_small; eauto; lia.
Qed.

Lemma f64_of_int_small n : in_int64 n -> small 65 (f64_of_int n).
Proof.
  intros H. apply (binary_normalize_small n 0 false 64 64); try lia.
  unfold in_int64, int64_min, int64_max in H. assert (2 ^ 64 = 2 * 2 ^ 63) by reflexivity. lia.
Qed.

Lemma f64_mul_small k1 k2 x y :
  small k1 x -> small k2 y -> -1074 <= k1 + k2 <= 970 -> small (k1 + k2 + 1) (f64_mul x y).
Proof.
  intros Hx Hy Hr. destruct x as [s1| | |s1 m1 e1], y as [s2| | |s2 m2 e2]; try done. simpl in *.
  pose proof (digits_lt m1) as L1. pose proof (digits_lt m2) as L2.
  apply (binary_round_aux_small _ _ _ _ (k1 + k2) (Zpos (digits2_pos m1) + Zpos (digits2_pos m2))); try lia.
  rewrite Pos2Z.inj_mul, Z.pow_add_r by lia. apply Z.mul_lt_mono_nonneg; lia.
Qed.

(** The aligned mantissas of a sum. *)
Lemma aligned_lt m e ez k :
  Zpos (digits2_pos m) + e <= k -> ez <= e -> Zpos (shl_align m e ez).1 < 2 ^ (k - ez).
Proof.
  intros Hk He. pose proof (shl_align_value m e ez) as H. destruct (shl_align m e ez) as [m' e'].
  destruct H as [-> Hv]. simpl. rewrite Hv, Z.min_r by lia.
  replace (k - ez) with ((k - e) + (e - ez)) by lia. rewrite Z.pow_add_r by lia.
  apply Z.mul_lt_mono_pos_r; [apply Z.pow_pos_nonneg; lia|].
  eapply Z.lt_le_trans; [apply digits_lt|]. apply Z.pow_le_mono_r; lia.
Qed.

Lemma sum_small k sx mx ex sy my ey (f : Z -> Z -> Z) b :
  (forall a b, Z.abs (f a b) <= Z.abs a + Z.abs b) ->
  Zpos (digits2_pos mx) + ex <= k -> Zpos (digits2_pos my) + ey <= k -> -1075 <= k <= 969 ->
  let ez := Z.min ex ey in
  small (k + 2) (binary_normalize 53 1024
    (f (cond_Zopp sx (Zpos (shl_align mx ex ez).1)) (cond_Zopp sy (Zpos (shl_align my ey ez).1))) ez b).
Proof.
  intros Hf Hx Hy Hr ez. replace (k + 2) with (k + 1 + 1) by lia.
  pose proof (aligned_lt mx ex ez k Hx ltac:(lia)) as L1. pose proof (aligned_lt my ey ez k Hy ltac:(lia)) as L2.
  apply (binary_normalize_small _ _ _ (k + 1) (k - ez + 1)); try lia.
  rewrite Z.pow_add_r by lia. change (2 ^ 1) with 2.
  assert (forall s z, Z.abs (cond_Zopp s z) = Z.abs z) as Ha by (intros [] ?; simpl; lia).
  eapply Z.le_lt_trans; [apply Hf|]. rewrite !Ha. lia.
Qed.

Lemma f64_add_small k x y : small k x -> small k y -> -1075 <= k <= 969 -> small (k + 2) (f64_add x y).
Proof.
  intros Hx Hy Hr. destruct x as [[]| | |sx mx ex], y as [[]| | |sy my ey]; try done; simpl in *; try lia.
  apply (sum_small k sx mx ex sy my ey Z.add false); intros; lia.
Qed.

Lemma f64_sub_small k x y : small k x -> small k y -> -1075 <= k <= 969 -> small (k + 2) (f64_sub x y).
Proof.
  intros Hx Hy Hr. destruct x as [[]| | |sx mx ex], y as [[]| | |sy my ey]; try done; simpl in *; try lia.
  apply (sum_small k sx mx ex sy my ey Z.sub false); intros; lia.
Qed.

(** ** Points

    [points c x]: a nonnegative number of at most [c], with a mantissa the format
    holds.  Values are compared as integers, in units of [2^-1074]. *)
Definition points (c : Z) (x : float64) : Prop :=
  match x with
  | S754_zero _ => True
  | S754_finite false m e =>
      -1074 <= e /\ Zpos m < 2 ^ 53 /\ Zpos m * 2 ^ (e + 1074) <= c * 2 ^ 1074
  | _ => False
  end.

(** What a rounding can give: a zero, an infinity, or a number of the format. *)
Definition rounded (s : bool) (x : float64) : Prop :=
  match x with
  | S754_zero s' | S754_infinity s' => s' = s
  | S754_finite s' m e => s' = s /\ -1074 <= e /\ Zpos m < 2 ^ 53
  | S754_nan => False
  end.

Lemma shr_fexp_width m e l :
  0 < m ->
  let '(mrs, e') := shr_fexp 53 1024 m e l in 0 <= shr_m mrs < 2 ^ 53 /\ -1074 <= e'.
Proof.
  intros Hm. destruct m as [|p|p]; [lia| |lia]. unfold shr_fexp, shr. simpl Zdigits2.
  assert (Hr : shr_m (shr_record_of_loc (Zpos p) l) = Zpos p) by (by destruct l as [|[]]).
  pose proof (digits_lt p) as Hlt. set (dig := Zpos (digits2_pos p)) in *.
  assert (0 < dig) by (unfold dig; lia). destruct (fexp 53 1024 (dig + e) - e) as [|n|n] eqn:En;
    unfold fexp, emin in En; (split; [|lia]); rewrite ?iter_shr_m, Hr by (rewrite Hr; lia).
  1, 3: split; [lia|]; eapply Z.lt_le_trans; [exact Hlt|]; apply Z.pow_le_mono_r; lia.
  split; [apply Z.div_pos; lia|]. apply Z.div_lt_upper_bound; [lia|]. rewrite <- Z.pow_add_r by lia.
  eapply Z.lt_le_trans; [exact Hlt|]. apply Z.pow_le_mono_r; lia.
Qed.

Lemma shr_fexp_zero e l : shr_m (shr_fexp 53 1024 0 e l).1 = 0.
Proof.
  unfold shr_fexp, shr. destruct (_ - e); destruct l as [|[]]; simpl; try done; by rewrite iter_shr_m, Zdiv_0_l.
Qed.

Lemma binary_round_aux_rounded s m e l : 0 < m -> rounded s (binary_round_aux 53 1024 s m e l).
Proof.
  intros Hm. unfold binary_round_aux. pose proof (shr_fexp_width m e l Hm) as H1.
  destruct (shr_fexp 53 1024 m e l) as [mrs1 e1]. destruct H1 as [H1 _].
  pose proof (round_nearest_even_le (shr_m mrs1) (loc_of_shr_record mrs1)) as Hne.
  set (m1 := round_nearest_even _ _) in *. clearbody m1.
  destruct (Z.eq_dec m1 0) as [->|Hnz].
  { pose proof (shr_fexp_zero e1 loc_Exact) as Hz. destruct (shr_fexp _ _ 0 _ _). simpl in Hz. by rewrite Hz. }
  pose proof (shr_fexp_width m1 e1 loc_Exact ltac:(lia)) as H2.
  destruct (shr_fexp 53 1024 m1 e1 loc_Exact) as [mrs2 e2]. destruct H2 as [H2 He].
  destruct (shr_m mrs2) as [|p|p]; [done| |lia]. destruct (_ <=? _); simpl; [split_and!; (done || lia)|done].
Qed.

(** An exact shift leaves no rest. *)
Lemma iter_shr_exact p m :
  0 <= m -> (2 ^ Zpos p | m) ->
  SpecFloat.iter_pos shr_1 p (Build_shr_record m false false) = Build_shr_record (m / 2 ^ Zpos p) false false.
Proof.
  revert m. assert (Hone : forall m, 0 <= m -> (2 | m) ->
    shr_1 (Build_shr_record m false false) = Build_shr_record (m / 2) false false).
  { intros m Hm [q ->]. rewrite Z.div_mul by lia. destruct q as [|q|q]; [done| |lia]. by rewrite Z.mul_comm. }
  assert (Hdiv : forall a b m, 0 <= a -> 0 <= b -> (2 ^ (a + b) | m) -> (2 ^ a | m) /\ (2 ^ b | m / 2 ^ a)).
  { intros a b m Ha Hb [q ->]. rewrite Z.pow_add_r by lia. split; [exists (q * 2 ^ b); lia|].
    exists q. replace (q * (2 ^ a * 2 ^ b)) with (q * 2 ^ b * 2 ^ a) by lia. apply Z.div_mul. lia. }
  induction p as [p IH|p IH|]; intros m Hm Hd; cbn [SpecFloat.iter_pos].
  - destruct (Hdiv 1 (Zpos p + Zpos p) m) as [D1 D2]; [lia|lia|by replace (1 + _) with (Zpos p~1) by lia|].
    destruct (Hdiv (Zpos p) (Zpos p) (m / 2)) as [D3 D4]; [lia|lia|exact D2|].
    assert (0 <= m / 2) by (apply Z.div_pos; lia). assert (0 <= m / 2 / 2 ^ Zpos p) by (apply Z.div_pos; lia).
    rewrite Hone, IH, IH by done. f_equal. rewrite !Z.div_div by lia. f_equal.
    rewrite <- Z.pow_add_r, <- Z.pow_succ_r by lia. f_equal. lia.
  - destruct (Hdiv (Zpos p) (Zpos p) m) as [D1 D2]; [lia|lia|by replace (Zpos p + _) with (Zpos p~0) by lia|].
    assert (0 <= m / 2 ^ Zpos p) by (apply Z.div_pos; lia).
    rewrite IH, IH by done. f_equal. rewrite Z.div_div, <- Z.pow_add_r by lia. f_equal. f_equal. lia.
  - by apply Hone.
Qed.

(** The nearest number lies between the ones the value lies between. *)
Lemma round_le m n (q : Z) :
  0 < m -> m <= q * 2 ^ Zpos n ->
  let mrs := SpecFloat.iter_pos shr_1 n (Build_shr_record m false false) in
  round_nearest_even (shr_m mrs) (loc_of_shr_record mrs) <= q.
Proof.
  intros Hm Hq mrs. assert (H2 : 0 < 2 ^ Zpos n) by (by apply Z.pow_pos_nonneg).
  destruct (Z.eq_dec (m mod 2 ^ Zpos n) 0) as [Hd|Hd]; [apply Z.mod_divide in Hd; [|lia]|].
  - subst mrs. rewrite iter_shr_exact by (done || lia). simpl. apply Z.div_le_upper_bound; lia.
  - pose proof (round_nearest_even_le (shr_m mrs) (loc_of_shr_record mrs)) as Hr.
    assert (Hs : shr_m mrs = m / 2 ^ Zpos n) by (by apply (iter_shr_m n (Build_shr_record m false false)); simpl; lia).
    assert (m / 2 ^ Zpos n < q); [|lia]. apply Z.div_lt_upper_bound; [lia|].
    assert (m <> q * 2 ^ Zpos n) by (intros ->; apply Hd, Z.mod_mul; lia). lia.
Qed.

(** Truncation does not increase a value. *)
Lemma shr_fexp_value m e l :
  0 < m -> -1074 <= e ->
  let '(mrs, e') := shr_fexp 53 1024 m e l in shr_m mrs * 2 ^ (e' + 1074) <= m * 2 ^ (e + 1074).
Proof.
  intros Hm He. unfold shr_fexp, shr.
  assert (Hr : shr_m (shr_record_of_loc m l) = m) by (by destruct l as [|[]]).
  destruct (_ - e) as [|n|n]; rewrite ?iter_shr_m, ?Hr by (rewrite Hr; lia); try lia.
  replace (e + Zpos n + 1074) with (Zpos n + (e + 1074)) by lia. rewrite Z.pow_add_r, Z.mul_assoc by lia.
  apply Z.mul_le_mono_nonneg_r; [lia|]. rewrite Z.mul_comm. apply Z.mul_div_le. lia.
Qed.

(** The first half of a rounding, to the format's grid at the value's magnitude. *)
Lemma shr_fexp_round m e c :
  -1074 <= e -> Zpos (digits2_pos m) + e <= 53 -> Zpos m * 2 ^ (e + 1074) <= c * 2 ^ 1074 ->
  let '(mrs, e1) := shr_fexp 53 1024 (Zpos m) e loc_Exact in
  let m1 := round_nearest_even (shr_m mrs) (loc_of_shr_record mrs) in
  0 <= m1 /\ -1074 <= e1 /\ m1 * 2 ^ (e1 + 1074) <= c * 2 ^ 1074.
Proof.
  intros He Hmag Hv. unfold shr_fexp, shr. simpl shr_record_of_loc. simpl Zdigits2.
  set (dig := Zpos (digits2_pos m)) in *. assert (0 < dig) by (unfold dig; lia).
  destruct (fexp 53 1024 (dig + e) - e) as [|n|n] eqn:En; unfold fexp, emin in En; cbv zeta.
  1, 3: simpl; split_and!; lia.
  set (mrs := SpecFloat.iter_pos shr_1 n (Build_shr_record (Zpos m) false false)).
  assert (Hs : shr_m mrs = Zpos m / 2 ^ Zpos n) by (by apply (iter_shr_m n (Build_shr_record (Zpos m) false false)); simpl; lia).
  pose proof (round_nearest_even_le (shr_m mrs) (loc_of_shr_record mrs)) as [Hr _].
  assert (0 <= shr_m mrs) by (rewrite Hs; apply Z.div_pos; lia). split_and!; [lia|lia|].
  replace (c * 2 ^ 1074) with (c * 2 ^ (- (e + Zpos n)) * 2 ^ (e + Zpos n + 1074))
    by (rewrite <- Z.mul_assoc, <- Z.pow_add_r by lia; do 2 f_equal; lia).
  apply Z.mul_le_mono_nonneg_r; [lia|]. apply round_le; [lia|].
  apply (Z.mul_le_mono_pos_r _ _ (2 ^ (e + 1074))); [apply Z.pow_pos_nonneg; lia|].
  rewrite <- !Z.mul_assoc, <- !Z.pow_add_r by lia. by replace (_ + (_ + (e + 1074))) with 1074 by lia.
Qed.

Lemma magnitude_le m e c :
  -1074 <= e -> 0 <= c < 2 ^ 53 -> Zpos m * 2 ^ (e + 1074) <= c * 2 ^ 1074 ->
  Zpos (digits2_pos m) + e <= 53.
Proof.
  intros He Hc Hv. destruct (Z.le_gt_cases (Zpos (digits2_pos m) + e) 53) as [|Hgt]; [done|]. exfalso.
  assert (Hge : 2 ^ (Zpos (digits2_pos m) - 1) <= Zpos m).
  { rewrite digits2_log2, Z.add_simpl_r. by apply Z.log2_spec. }
  assert (2 ^ 53 * 2 ^ 1074 <= Zpos m * 2 ^ (e + 1074)); [|nia].
  rewrite <- Z.pow_add_r by lia. transitivity (2 ^ (Zpos (digits2_pos m) - 1) * 2 ^ (e + 1074)).
  - rewrite <- Z.pow_add_r by lia. apply Z.pow_le_mono_r; lia.
  - apply Z.mul_le_mono_nonneg_r; lia.
Qed.

(** Rounding does not carry a value past an integer it does not exceed. *)
Lemma binary_round_aux_points m e c :
  -1074 <= e -> 0 <= c < 2 ^ 53 -> Zpos m * 2 ^ (e + 1074) <= c * 2 ^ 1074 ->
  points c (binary_round_aux 53 1024 false (Zpos m) e loc_Exact).
Proof.
  intros He Hc Hv. pose proof (binary_round_aux_rounded false (Zpos m) e loc_Exact ltac:(lia)) as Hsh.
  pose proof (magnitude_le m e c He Hc Hv) as Hmag.
  pose proof (binary_round_aux_small false (Zpos m) e loc_Exact 53 (Zpos (digits2_pos m))
    ltac:(lia) (digits_lt m) ltac:(lia) Hmag ltac:(lia)) as Hsm.
  assert (Hval : match binary_round_aux 53 1024 false (Zpos m) e loc_Exact with
    S754_finite _ m' e' => Zpos m' * 2 ^ (e' + 1074) <= c * 2 ^ 1074 | _ => True end).
  2: { destruct (binary_round_aux _ _ _ _ _ _) as [| | |s' m' e']; try done. by destruct Hsh as (-> & ? & ?). }
  clear Hsh Hsm. unfold binary_round_aux. pose proof (shr_fexp_round m e c He Hmag Hv) as H1.
  destruct (shr_fexp 53 1024 (Zpos m) e loc_Exact) as [mrs1 e1]. cbv zeta in H1.
  set (m1 := round_nearest_even _ _) in *. clearbody m1. destruct H1 as (Hp & He1 & Hv1).
  destruct (Z.eq_dec m1 0) as [->|Hnz].
  { pose proof (shr_fexp_zero e1 loc_Exact) as Hz. destruct (shr_fexp _ _ 0 _ _). simpl in Hz. by rewrite Hz. }
  pose proof (shr_fexp_value m1 e1 loc_Exact ltac:(lia) He1) as H2.
  destruct (shr_fexp 53 1024 m1 e1 loc_Exact) as [mrs2 e2].
  destruct (shr_m mrs2); try done. destruct (_ <=? _); [lia|done].
Qed.

(** A shift moves bits between mantissa and exponent. *)
Lemma scale_pow m e1 e2 : -1074 <= e2 <= e1 -> m * 2 ^ (e1 - e2) * 2 ^ (e2 + 1074) = m * 2 ^ (e1 + 1074).
Proof. intros H. rewrite <- Z.mul_assoc, <- Z.pow_add_r by lia. do 2 f_equal. lia. Qed.

Lemma binary_round_points m e c :
  -1074 <= e -> 0 <= c < 2 ^ 53 -> Zpos m * 2 ^ (e + 1074) <= c * 2 ^ 1074 ->
  points c (binary_round 53 1024 false m e).
Proof.
  intros He Hc Hv. unfold binary_round.
  pose proof (shl_align_value m e (fexp 53 1024 (Zpos (digits2_pos m) + e))) as A.
  destruct (shl_align m e (fexp 53 1024 (Zpos (digits2_pos m) + e))) as [mz e']. destruct A as [-> A].
  set (e' := Z.min e _) in *. assert (-1074 <= e' <= e) by (unfold e', fexp, emin; lia).
  apply binary_round_aux_points; [lia|done|]. by rewrite A, scale_pow by lia.
Qed.

Lemma f64_add_points a b x y :
  0 <= a -> 0 <= b -> a + b < 2 ^ 53 -> points a x -> points b y -> points (a + b) (f64_add x y).
Proof.
  intros Ha Hb Hab Hx Hy. assert (H2 : 0 < 2 ^ 1074) by (by apply Z.pow_pos_nonneg).
  destruct x as [sx|?| |[] mx ex], y as [sy|?| |[] my ey]; try done.
  - by destruct sx, sy.
  - destruct Hy as (? & ? & ?). simpl. split_and!; [done..|]. nia.
  - destruct Hx as (? & ? & ?). simpl. split_and!; [done..|]. nia.
  - destruct Hx as (Ex & Mx & Vx), Hy as (Ey & My & Vy). unfold f64_add, SFadd, cond_Zopp.
    set (ez := Z.min ex ey).
    pose proof (shl_align_value mx ex ez) as A1. pose proof (shl_align_value my ey ez) as A2.
    destruct (shl_align mx ex ez) as [mx' ex'], (shl_align my ey ez) as [my' ey']. destruct A1 as [-> A1], A2 as [-> A2].
    rewrite Z.min_r in A1 by lia. rewrite Z.min_r in A2 by lia.
    change (binary_normalize 53 1024 _ ez false) with (binary_round 53 1024 false (mx' + my') ez).
    apply binary_round_points; [lia|lia|]. rewrite Pos2Z.inj_add, A1, A2, Z.mul_add_distr_r, !scale_pow by lia. lia.
Qed.

Lemma points_small c x : 0 <= c < 2 ^ 53 -> points c x -> small 53 x.
Proof.
  intros Hc. destruct x as [| | |[] m e]; try done. intros (He & Hm & Hv). by apply (magnitude_le m e c).
Qed.
