(* ===== verification/RoutingTypes.v ===== *)
(** * The routing store's records

    Models the configuration rows of [gateway/backend/internal/routing/store.go]
    (servers, applications, mappings, candidates, telemetry) and the signal routing sends ([instances.go], [DemandSignal]).  A record carries the fields the
    modelled operations read or write. *)

From Stdlib Require Import ZArith.
From stdpp Require Import base tactics option list numbers strings.
From S2P Require Import Prelude Float64.
Local Open Scope Z_scope.
Local Open Scope go_scope.

Definition ProviderServerAgent : string := "server_agent".
Definition ServerStatusActive : string := "active".
Definition AudioLimitPerformance : string := "performance".
Definition HealthUnhealthy : string := "unhealthy".
Definition CapabilitySpeech : string := "speech".
Definition CapabilityTranscription : string := "transcription".

Record AIServer := mkAIServer {
  srv_ID : string;
  srv_Status : string;
  srv_HealthStatus : string;
  srv_Domain : string;
  srv_ServerPathSuffix : string;
  srv_NetbirdEnabled : bool;
  srv_NetbirdSetupKeyID : string;
  srv_NetbirdGroupID : string;
  srv_NetbirdPeerID : string;
  srv_NetbirdConnected : bool;
  srv_NetbirdGroupIDs : string;
  srv_NetbirdPeerManaged : bool;
  srv_NetbirdPolicyOverride : string;
  srv_NetbirdAllowPing : bool;
  srv_NetbirdPingExclude : bool;
  srv_EstimatedWatts : float64;
  srv_IdleWatts : float64;
  srv_PricePerKwh : float64;
  srv_Pue : float64;
  srv_PriceUnit : string;
  srv_SystemGroupID : string;
  srv_CertificateOverride : string;
  srv_HTTPSSwitchOverride : string;
  srv_UpdatedAt : time
}.

Global Instance AIServer_fields : Fields AIServer := fun h =>
  mkAIServer (srv_ID h) (srv_Status h) (srv_HealthStatus h) (srv_Domain h) (srv_ServerPathSuffix h) (srv_NetbirdEnabled h)
    (srv_NetbirdSetupKeyID h) (srv_NetbirdGroupID h) (srv_NetbirdPeerID h) (srv_NetbirdConnected h)
    (srv_NetbirdGroupIDs h) (srv_NetbirdPeerManaged h) (srv_NetbirdPolicyOverride h) (srv_NetbirdAllowPing h)
    (srv_NetbirdPingExclude h) (srv_EstimatedWatts h) (srv_IdleWatts h) (srv_PricePerKwh h) (srv_Pue h)
    (srv_PriceUnit h) (srv_SystemGroupID h) (srv_CertificateOverride h) (srv_HTTPSSwitchOverride h) (srv_UpdatedAt
    h).

Record Application := mkApplication {
  app_ID : string;
  app_Type : string;
  app_Priority : Z;
  app_Weight : Z;
  app_AffinityTTLSeconds : Z;
  app_AdmissionQueueTimeoutSeconds : Z;
  app_ServerID : string;
  app_Status : string;
  app_APIFlavors : list string;
  app_ResponsesMode : string;
  app_MessagesMode : string;
  app_ResponsesLiveTimingsEnabled : bool;
  app_OpportunisticMetricsEnabled : bool;
  app_Port : Z;
  app_Scheme : string;
  app_ProxyListenPort : Z;
  app_AppPathSuffix : string;
  app_TimeoutMS : Z;
  app_APIToken : string;                  (* sealed *)
  app_APITokenHeader : string
}.

(** 0 is an unknown metric. *)
Record ModelMapping := mkModelMapping {
  mm_ID : string;
  mm_GatewayModelName : string;
  mm_AppModelName : string;
  mm_GenTokensPerSecond : float64;
  mm_PromptTokensPerSecond : float64;
  mm_ContextSize : Z;
  mm_MaxConcurrency : Z;
  mm_RecommendedConcurrency : Z;
  mm_GenTokensPerSecondAtCapacity : float64;
  mm_AudioRateX : float64;
  mm_Status : string;
  mm_ApplicationID : string;
  mm_LoadTimeMS : Z;
  mm_EnergyWhPerToken : float64;
  mm_MetricsLocked : bool;
  mm_MetricsUpdatedAt : option time;
  mm_MetricsSource : string;
  mm_AudioTTFAMS : Z;
  mm_AudioRealtimeConcurrency : Z;
  mm_AudioConcurrencyLimit : string;
  mm_AudioMetricsUpdatedAt : option time;
  mm_UpdatedAt : time
}.

Global Instance ModelMapping_fields : Fields ModelMapping := fun m =>
  mkModelMapping (mm_ID m) (mm_GatewayModelName m) (mm_AppModelName m) (mm_GenTokensPerSecond m)
    (mm_PromptTokensPerSecond m) (mm_ContextSize m) (mm_MaxConcurrency m) (mm_RecommendedConcurrency m)
    (mm_GenTokensPerSecondAtCapacity m) (mm_AudioRateX m) (mm_Status m) (mm_ApplicationID m) (mm_LoadTimeMS m)
    (mm_EnergyWhPerToken m) (mm_MetricsLocked m) (mm_MetricsUpdatedAt m) (mm_MetricsSource m) (mm_AudioTTFAMS m)
    (mm_AudioRealtimeConcurrency m) (mm_AudioConcurrencyLimit m) (mm_AudioMetricsUpdatedAt m) (mm_UpdatedAt m).

Record MappingCandidate := mkMappingCandidate {
  mc_Server : AIServer;
  mc_Application : Application;
  mc_Mapping : ModelMapping;
  mc_Instance : Z;
  mc_InstanceCapable : bool;
  mc_InstanceParallelism : Z;
  mc_InstancePool : bool;
  mc_LiveProgressSupport : string
}.

Global Instance MappingCandidate_fields : Fields MappingCandidate := fun c =>
  mkMappingCandidate (mc_Server c) (mc_Application c) (mc_Mapping c) (mc_Instance c)
    (mc_InstanceCapable c) (mc_InstanceParallelism c) (mc_InstancePool c) (mc_LiveProgressSupport c).

Record ServerTelemetry := mkServerTelemetry {
  tel_ServerID : string;
  tel_ReportedAt : time;
  tel_ActiveRequests : Z;
  tel_QueueDepth : Z;
  tel_LatencyMS : Z;
  tel_ErrorRate : float64
}.

Global Instance ServerTelemetry_fields : Fields ServerTelemetry := fun t =>
  mkServerTelemetry (tel_ServerID t) (tel_ReportedAt t) (tel_ActiveRequests t) (tel_QueueDepth t)
    (tel_LatencyMS t) (tel_ErrorRate t).

Definition zeroTelemetry : ServerTelemetry := mkServerTelemetry "" time_zero 0 0 0 f64_zero.

Record DemandSignal := mkSignal {
  ds_Model : string;
  ds_APIFlavor : string;
  ds_ServerID : string;
  ds_Live : bool;
  ds_MappingIDs : list string
}.

Global Instance DemandSignal_fields : Fields DemandSignal := fun d =>
  mkSignal (ds_Model d) (ds_APIFlavor d) (ds_ServerID d) (ds_Live d) (ds_MappingIDs d).

(** A session's pin: the row stored under an [AffinityKey]. *)
Record AffinityKey := mkAffinityKey {
  ak_APITokenID : string;
  ak_Model : string;
  ak_APIFlavor : string;
  ak_SessionID : string
}.

Record RouteAffinity := mkRouteAffinity {
  aff_ID : string;
  aff_APITokenID : string;
  aff_UserID : string;
  aff_Model : string;
  aff_ResolvedModel : string;
  aff_APIFlavor : string;
  aff_SessionID : string;
  aff_ApplicationID : string;
  aff_ServerID : string;
  aff_Instance : Z;
  aff_ExpiresAt : time;
  aff_LastUsedAt : time;
  aff_CreatedAt : time;
  aff_UpdatedAt : time
}.

Global Instance RouteAffinity_fields : Fields RouteAffinity := fun a =>
  mkRouteAffinity (aff_ID a) (aff_APITokenID a) (aff_UserID a) (aff_Model a) (aff_ResolvedModel a)
    (aff_APIFlavor a) (aff_SessionID a) (aff_ApplicationID a) (aff_ServerID a) (aff_Instance a)
    (aff_ExpiresAt a) (aff_LastUsedAt a) (aff_CreatedAt a) (aff_UpdatedAt a).

(** A mapping's launch spec on its agent. *)
Record RuntimeSpec := mkRuntimeSpec {
  sp_ID : string;
  sp_Replicable : bool;
  sp_MaxInstances : Z;
  sp_Type : string;
  sp_Binary : string;
  sp_APIFlavors : list string;
  sp_ResponsesMode : string;
  sp_MessagesMode : string;
  sp_ResponsesLiveTimingsEnabled : bool;
  sp_APITokenMode : string;
  sp_APIToken : string;                   (* sealed *)
  sp_APITokenHeaderSource : string;
  sp_APITokenHeader : string;
  sp_MappingID : string;
  sp_StartupTimeoutSeconds : Z;
  sp_InstanceParallelism : Z;
  sp_RAMMeasuredMB : Z;
  sp_StartupMeasuredMS : Z;
  sp_CreatedAt : time
}.

Global Instance RuntimeSpec_fields : Fields RuntimeSpec := fun s =>
  mkRuntimeSpec (sp_ID s) (sp_Replicable s) (sp_MaxInstances s) (sp_Type s) (sp_Binary s) (sp_APIFlavors s)
    (sp_ResponsesMode s) (sp_MessagesMode s) (sp_ResponsesLiveTimingsEnabled s) (sp_APITokenMode s) (sp_APIToken s)
    (sp_APITokenHeaderSource s) (sp_APITokenHeader s) (sp_MappingID s) (sp_StartupTimeoutSeconds s)
    (sp_InstanceParallelism s) (sp_RAMMeasuredMB s) (sp_StartupMeasuredMS s) (sp_CreatedAt s).

Definition zeroRuntimeSpec : RuntimeSpec := mkRuntimeSpec "" false 0 "" "" [] "" "" false "" "" "" "" "" 0 0 0 0 time_zero.

Definition replicableSpec (id : string) (maxInstances : Z) : RuntimeSpec :=
  zeroRuntimeSpec <| sp_ID := id |> <| sp_Replicable := true |> <| sp_MaxInstances := maxInstances |>.

Definition plainServer (id status health : string) : AIServer :=
  mkAIServer id status health (id +:+ ".local") "" false "" "" "" false "" false "" false false f64_zero f64_zero f64_zero f64_zero "" "" "" "" time_zero.

Definition plainApplication (id type : string) (priority weight ttl queueTimeout : Z) (server : string) : Application :=
  mkApplication id type priority weight ttl queueTimeout server ServerStatusActive ["openai"] "" "" false false
    8000 "http" 0 "" 60000 "" "".

Definition zeroMapping : ModelMapping :=
  mkModelMapping "" "" "" f64_zero f64_zero 0 0 0 f64_zero f64_zero "" "" 0 f64_zero false None "" 0 0 "" None time_zero.

(** A mapping without any measurement, on an application without settings. *)
Definition plainMapping (id gatewayModel appModel : string) : ModelMapping :=
  zeroMapping <| mm_ID := id |> <| mm_GatewayModelName := gatewayModel |> <| mm_AppModelName := appModel |>
    <| mm_Status := ServerStatusActive |>.

Definition plainCandidate (server type : string) (m : ModelMapping) : MappingCandidate :=
  mkMappingCandidate (plainServer server ServerStatusActive "healthy")
    (plainApplication (server +:+ "/app") type 0 0 0 0 server) m 0 false 0 false "".
