(* ===== verification/RuntimeTypes.v ===== *)
(** * The agent runtime's vocabulary

    Models [server-agent/internal/runtime/types.go] and [instance.go]: the launch
    spec and its runtime-config document, the load-lifecycle states, instance
    addressing ("m#2") and the protected-floor arithmetic of a replicable spec,
    and the validation and repair [ParseConfig] applies to a decoded document.

    Slices are lists and maps are finite maps: a nil slice or map and an empty one
    are the same value here, as they are to every reader of these types ([len],
    [range], indexing), so the nil-to-empty normalisation is the identity.
    [json.Unmarshal] is an argument of [ParseConfig]. *)

From Stdlib Require Import ZArith Lia Ascii.
From stdpp Require Import base tactics option list numbers strings pretty gmap.
From S2P Require Import Prelude.
Local Open Scope Z_scope.

(** ** Data *)

Record SpecGPU := mkSpecGPU {
  gpu_Index : Z;
  gpu_VRAMMB : Z   (* 0 = unknown demand *)
}.

Record ConfigFile := mkConfigFile {
  cf_Name : string;
  cf_Content : string
}.

Record Spec := mkSpec {
  spec_ID : string;
  spec_Model : string;
  spec_UpstreamModel : string;
  spec_Binary : string;
  spec_Args : list string;
  spec_Env : gmap string string;
  spec_ConfigFiles : list ConfigFile;
  spec_WorkDir : string;
  spec_GPUs : list SpecGPU;
  spec_RAMMB : Z;
  spec_ListenPort : Z;
  spec_HealthPath : string;
  spec_HealthTimeoutSeconds : Z;
  spec_StartupTimeoutSeconds : Z;
  spec_IdleTimeoutSeconds : Z;
  spec_AdmissionWaitTimeoutSeconds : Z;
  spec_Pinned : bool;
  spec_SetVisibleDevices : bool;
  spec_VisibleDevicesMode : string;
  spec_AdminState : string;
  spec_APIToken : string;
  spec_Type : string;
  spec_MetricsPath : string;
  spec_ContextProbePath : string;
  spec_Role : string;
  spec_Replicable : bool;
  spec_MinInstances : Z;
  spec_MaxInstances : Z;
  spec_InstanceOf : string;
  spec_Instance : Z
}.

(** The struct literal [Spec{}] with the fields the admission policy and the
    instance arithmetic read. *)
Definition zeroSpec : Spec := {|
  spec_ID := ""; spec_Model := ""; spec_UpstreamModel := ""; spec_Binary := "";
  spec_Args := []; spec_Env := ∅; spec_ConfigFiles := []; spec_WorkDir := "";
  spec_GPUs := []; spec_RAMMB := 0; spec_ListenPort := 0; spec_HealthPath := "";
  spec_HealthTimeoutSeconds := 0; spec_StartupTimeoutSeconds := 0;
  spec_IdleTimeoutSeconds := 0; spec_AdmissionWaitTimeoutSeconds := 0;
  spec_Pinned := false; spec_SetVisibleDevices := false;
  spec_VisibleDevicesMode := ""; spec_AdminState := ""; spec_APIToken := "";
  spec_Type := ""; spec_MetricsPath := ""; spec_ContextProbePath := "";
  spec_Role := ""; spec_Replicable := false; spec_MinInstances := 0;
  spec_MaxInstances := 0; spec_InstanceOf := ""; spec_Instance := 0
|}.

Definition RoleOther : string := "other".

Record GPUBudget := mkGPUBudget {
  gb_Index : Z;
  gb_BudgetMB : Z
}.

Record Config := mkConfig {
  cfg_RouterListen : Z;
  cfg_MaxProcesses : Z;
  cfg_GPUBudgets : list GPUBudget;
  cfg_Specs : list Spec;
  cfg_Coresident : list (string * string);
  cfg_ETag : string
}.

Inductive ParseErrorCode :=
| ParseErrorJSONSyntax
| ParseErrorDuplicateSpecID
| ParseErrorInvalidConfigFileName
| ParseErrorFileMissing
| ParseErrorReadFailed
| ParseErrorUnclassified.

Inductive State :=
| StateStopped
| StateStarting
| StateRunning
| StateDraining
| StateBackoff
| StateStartFailed
| StateCrashed
| StatePendingVRAMUnknown
| StateNotPermitted.

Global Instance State_eq_dec : EqDecision State.
Proof. solve_decision. Defined.

(** The wire spelling of a state. *)
Definition State_string (s : State) : string :=
  match s with
  | StateStopped => "stopped"
  | StateStarting => "starting"
  | StateRunning => "running"
  | StateDraining => "draining"
  | StateBackoff => "backoff"
  | StateStartFailed => "start_failed"
  | StateCrashed => "crashed"
  | StatePendingVRAMUnknown => "pending_vram_unknown"
  | StateNotPermitted => "not_permitted"
  end.

(** ** Roles *)

Definition roleOf `{Unicode} (role : string) : string :=
  let role := strings_ToLower (strings_TrimSpace role) in
  if String.eqb role "" then RoleOther else role.

(** ** Instance addressing ([instance.go]) *)

Definition MaxInstanceIndex : Z := 63.
Definition instanceSeparator : string := "#".
Definition separator_byte : Ascii.ascii := "#"%char.

Definition strconv_Itoa (k : Z) : string := pretty k.

Definition is_digit (c : Ascii.ascii) : bool :=
  (48 <=? Ascii.nat_of_ascii c)%nat && (Ascii.nat_of_ascii c <=? 57)%nat.

Definition digit_value (c : Ascii.ascii) : Z := Z.of_nat (Ascii.nat_of_ascii c) - 48.

Fixpoint digits_value (acc : Z) (l : list Ascii.ascii) : option Z :=
  match l with
  | [] => Some acc
  | c :: l' => if is_digit c then digits_value (acc * 10 + digit_value c) l' else None
  end.

(** [strconv.Atoi]: an optional sign, then at least one decimal digit, the value
    within the range of a 64-bit [int]; [None] is its error. *)
Definition strconv_Atoi (s : string) : option Z :=
  let unsigned (l : list Ascii.ascii) : option Z :=
    match l with [] => None | _ => digits_value 0 l end in
  let ranged (o : option Z) : option Z :=
    match o with
    | Some v => if (int64_min <=? v) && (v <=? int64_max) then Some v else None
    | None => None
    end in
  match String.list_ascii_of_string s with
  | ("-"%char) :: l => ranged (Z.opp <$> unsigned l)
  | ("+"%char) :: l => ranged (unsigned l)
  | l => ranged (unsigned l)
  end.

(** [strings.LastIndex] for a one-byte separator. *)
Fixpoint last_index (c : Ascii.ascii) (s : string) : option nat :=
  match s with
  | EmptyString => None
  | String a s' =>
      match last_index c s' with
      | Some i => Some (S i)
      | None => if Ascii.eqb a c then Some O else None
      end
  end.

(** [s[i:]] and [s[:i]]. *)
Fixpoint string_drop (n : nat) (s : string) : string :=
  match n, s with
  | O, _ => s
  | S n', String _ s' => string_drop n' s'
  | S _, EmptyString => EmptyString
  end.

Fixpoint string_take (n : nat) (s : string) : string :=
  match n, s with
  | S n', String a s' => String a (string_take n' s')
  | _, _ => EmptyString
  end.

(** [strings.TrimSuffix]. *)
Definition strings_TrimSuffix (s suffix : string) : string :=
  let n := (String.length s - String.length suffix)%nat in
  if (String.length suffix <=? String.length s)%nat && String.eqb (string_drop n s) suffix
  then string_take n s else s.

Definition InstanceAddress (base : string) (k : Z) : string :=
  if k =? 0 then base else base +:+ instanceSeparator +:+ strconv_Itoa k.

Definition plainInstanceIndex (s : string) : bool :=
  match String.list_ascii_of_string s with
  | [] => false
  | c :: l =>
      if (2 <? S (length l))%nat || Ascii.eqb c "0"%char then false
      else forallb is_digit (c :: l)
  end.

Definition ParseInstanceAddress (model : string) : string * Z :=
  match last_index separator_byte model with
  | None => (model, 0)
  | Some i =>
      let suffix := string_drop (i + String.length instanceSeparator) model in
      if negb (plainInstanceIndex suffix) then (model, 0)
      else match strconv_Atoi suffix with
           | None => (model, 0)
           | Some n =>
               if (n <? 1) || (MaxInstanceIndex <? n) then (model, 0)
               else (string_take i model, n)
           end
  end.

Definition InstanceBase (address : string) (k : Z) : string :=
  if k =? 0 then address
  else strings_TrimSuffix address (instanceSeparator +:+ strconv_Itoa k).

Definition InstanceKey (specID : string) (k : Z) : string := InstanceAddress specID k.

Definition ProtectedCount (spec : Spec) : Z :=
  let floor := if spec_Replicable spec then spec_MinInstances spec else 0 in
  let baseline :=
    if spec_Pinned spec || String.eqb (spec_AdminState spec) "force_running" then 1 else 0 in
  Z.max floor baseline.

Definition InstanceAllowed (spec : Spec) (k : Z) : bool :=
  if k =? 0 then true
  else if (k <? 0) || negb (spec_Replicable spec) || (MaxInstanceIndex <? k) then false
  else (spec_MaxInstances spec =? 0) || (k <? spec_MaxInstances spec).

Definition IsBurst (spec : Spec) (k : Z) : bool := Z.max (ProtectedCount spec) 1 <=? k.

(** ** Validation and repair of a decoded document *)

Definition reservedSpecID (id : string) : bool := string_contains separator_byte id.

(** The two passes of the source: detect, then copy what is kept. *)
Definition withoutReservedSpecIDs (specs : list Spec) : list Spec :=
  let dropped := existsb (fun spec => reservedSpecID (spec_ID spec)) specs in
  if negb dropped then specs
  else List.filter (fun spec => negb (reservedSpecID (spec_ID spec))) specs.

Definition set_Replicable (b : bool) (s : Spec) : Spec :=
  mkSpec (spec_ID s) (spec_Model s) (spec_UpstreamModel s) (spec_Binary s) (spec_Args s)
    (spec_Env s) (spec_ConfigFiles s) (spec_WorkDir s) (spec_GPUs s) (spec_RAMMB s)
    (spec_ListenPort s) (spec_HealthPath s) (spec_HealthTimeoutSeconds s)
    (spec_StartupTimeoutSeconds s) (spec_IdleTimeoutSeconds s)
    (spec_AdmissionWaitTimeoutSeconds s) (spec_Pinned s) (spec_SetVisibleDevices s)
    (spec_VisibleDevicesMode s) (spec_AdminState s) (spec_APIToken s) (spec_Type s)
    (spec_MetricsPath s) (spec_ContextProbePath s) (spec_Role s) b
    (spec_MinInstances s) (spec_MaxInstances s) (spec_InstanceOf s) (spec_Instance s).

Definition set_Instances (lo hi : Z) (s : Spec) : Spec :=
  mkSpec (spec_ID s) (spec_Model s) (spec_UpstreamModel s) (spec_Binary s) (spec_Args s)
    (spec_Env s) (spec_ConfigFiles s) (spec_WorkDir s) (spec_GPUs s) (spec_RAMMB s)
    (spec_ListenPort s) (spec_HealthPath s) (spec_HealthTimeoutSeconds s)
    (spec_StartupTimeoutSeconds s) (spec_IdleTimeoutSeconds s)
    (spec_AdmissionWaitTimeoutSeconds s) (spec_Pinned s) (spec_SetVisibleDevices s)
    (spec_VisibleDevicesMode s) (spec_AdminState s) (spec_APIToken s) (spec_Type s)
    (spec_MetricsPath s) (spec_ContextProbePath s) (spec_Role s) (spec_Replicable s)
    lo hi (spec_InstanceOf s) (spec_Instance s).

Definition sanitizeInstanceFields (spec : Spec) : Spec :=
  let spec :=
    if spec_Replicable spec && negb (spec_ListenPort spec =? 0)
    then set_Replicable false spec else spec in
  let spec :=
    if (spec_MinInstances spec <? 0) || (spec_MaxInstances spec <? 0)
    then set_Instances (Z.max (spec_MinInstances spec) 0) (Z.max (spec_MaxInstances spec) 0) spec
    else spec in
  let spec :=
    if (0 <? spec_MaxInstances spec) && (spec_MaxInstances spec <? spec_MinInstances spec)
    then set_Instances (spec_MaxInstances spec) (spec_MaxInstances spec) spec else spec in
  let limit := MaxInstanceIndex + 1 in
  if limit <? spec_MinInstances spec
  then set_Instances limit (spec_MaxInstances spec) spec else spec.

(** [filepath.Base] and [filepath.IsAbs] as built for a Unix host. *)
Definition slash : Ascii.ascii := "/"%char.

Definition filepath_Base (path : string) : string :=
  if String.eqb path "" then "."
  else
    let stripped := drop_while (Ascii.eqb slash) (reverse (String.list_ascii_of_string path)) in
    let fix until_slash (l : list Ascii.ascii) : list Ascii.ascii :=
      match l with
      | [] => []
      | c :: l' => if Ascii.eqb slash c then [] else c :: until_slash l'
      end in
    let last := String.string_of_list_ascii (reverse (until_slash stripped)) in
    if String.eqb last "" then "/" else last.

Definition filepath_IsAbs (path : string) : bool :=
  match path with String c _ => Ascii.eqb c slash | EmptyString => false end.

(** [strings.IndexFunc(name, unicode.IsControl) >= 0]. *)
Definition has_control `{Unicode} (s : string) : bool :=
  if is_ascii s
  then existsb (fun c => (Ascii.nat_of_ascii c <? 32)%nat || (Ascii.nat_of_ascii c =? 127)%nat)
         (String.list_ascii_of_string s)
  else unicode_has_control s.

Definition validConfigFileName `{Unicode} (name : string) : bool :=
  if String.eqb (strings_TrimSpace name) "" || String.eqb name "." || String.eqb name ".."
  then false
  else if (string_contains "/"%char name || string_contains "\"%char name
           || string_contains ":"%char name) || has_control name
  then false
  else String.eqb (filepath_Base name) name && negb (filepath_IsAbs name).

(** The loop of [checkConfigFileNames]; [None] is the nil error. *)
Fixpoint checkNames `{Unicode} (seen : gset string) (fs : list ConfigFile)
  : option ParseErrorCode :=
  match fs with
  | [] => None
  | f :: fs' =>
      if negb (validConfigFileName (cf_Name f)) then Some ParseErrorInvalidConfigFileName
      else
        let key := strings_ToLower (cf_Name f) in
        if bool_decide (key ∈ seen) then Some ParseErrorInvalidConfigFileName
        else checkNames ({[key]} ∪ seen) fs'
  end.

Definition checkConfigFileNames `{Unicode} (spec : Spec) : option ParseErrorCode :=
  checkNames ∅ (spec_ConfigFiles spec).

(** The duplicate scan over [cfg.Specs]: the set of their IDs, or the error. *)
Fixpoint collectSpecIDs (seen : gset string) (specs : list Spec) : ParseErrorCode + gset string :=
  match specs with
  | [] => inr seen
  | spec :: specs' =>
      if bool_decide (spec_ID spec ∈ seen) then inl ParseErrorDuplicateSpecID
      else collectSpecIDs ({[spec_ID spec]} ∪ seen) specs'
  end.

(** The per-spec loop: check the file names, then repair the instance fields. *)
Fixpoint finishSpecs `{Unicode} (specs : list Spec) : ParseErrorCode + list Spec :=
  match specs with
  | [] => inr []
  | spec :: specs' =>
      match checkConfigFileNames spec with
      | Some e => inl e
      | None =>
          match finishSpecs specs' with
          | inl e => inl e
          | inr rest => inr (sanitizeInstanceFields spec :: rest)
          end
      end
  end.

Definition ParseConfig `{Unicode} {Raw : Type} (unmarshal : Raw -> option Config) (raw : Raw)
  : ParseErrorCode + Config :=
  match unmarshal raw with
  | None => inl ParseErrorJSONSyntax
  | Some cfg =>
      match collectSpecIDs ∅ (cfg_Specs cfg) with
      | inl e => inl e
      | inr specIDs =>
          let specs := withoutReservedSpecIDs (cfg_Specs cfg) in
          let specIDs := filter (fun id => reservedSpecID id = false) specIDs in
          let filteredPairs :=
            List.filter (fun pair : string * string =>
                      bool_decide (pair.1 ∈ specIDs) && bool_decide (pair.2 ∈ specIDs))
              (cfg_Coresident cfg) in
          match finishSpecs specs with
          | inl e => inl e
          | inr specs =>
              inr {| cfg_RouterListen := cfg_RouterListen cfg;
                     cfg_MaxProcesses := cfg_MaxProcesses cfg;
                     cfg_GPUBudgets := cfg_GPUBudgets cfg;
                     cfg_Specs := specs;
                     cfg_Coresident := filteredPairs;
                     cfg_ETag := cfg_ETag cfg |}
          end
      end
  end.

(** ** The co-residency matrix *)

Definition PairKey (a b : string) : string * string :=
  if String.leb a b then (a, b) else (b, a).

Definition AllowedPairs (c : Config) : gmap (string * string) bool :=
  foldl (fun allowed pair => <[PairKey pair.1 pair.2 := true]> allowed) ∅ (cfg_Coresident c).
