(* ===== verification/RuntimeTypesProps.v ===== *)
(** * Properties of the runtime vocabulary

    Instance addressing ([instance.go]) is a round trip in both directions and its
    keys are collision free; a document [ParseConfig] ([types.go]) accepts satisfies
    the invariants every reader of it relies on, whatever was decoded. *)

From Stdlib Require Import ZArith Lia Ascii.
From stdpp Require Import base tactics option list numbers strings pretty gmap.
From S2P Require Import Prelude RuntimeTypes.
Local Open Scope Z_scope.

(** ** Strings cut at a byte *)

Lemma string_drop_app (s1 s2 : string) : string_drop (String.length s1) (s1 +:+ s2) = s2.
Proof. induction s1 as [|a s1 IH]; [by destruct s2|done]. Qed.

Lemma string_take_app (s1 s2 : string) : string_take (String.length s1) (s1 +:+ s2) = s1.
Proof. induction s1 as [|a s1 IH]; [by destruct s2|]. simpl. by rewrite IH. Qed.

Lemma string_length_app (s1 s2 : string) :
  String.length (s1 +:+ s2) = (String.length s1 + String.length s2)%nat.
Proof. induction s1 as [|a s1 IH]; [done|]. simpl. by rewrite <- IH. Qed.

Lemma string_append_assoc (s1 s2 s3 : string) : (s1 +:+ s2) +:+ s3 = s1 +:+ (s2 +:+ s3).
Proof. induction s1 as [|a s1 IH]; [done|]. exact (f_equal (String a) IH). Qed.

Lemma last_index_app (c : ascii) (s1 s2 : string) :
  last_index c s2 = None -> last_index c (s1 +:+ String c s2) = Some (String.length s1).
Proof.
  intros E. induction s1 as [|a s1 IH]; simpl; [|by rewrite IH].
  by rewrite E, Ascii.eqb_refl.
Qed.

Lemma last_index_split (c : ascii) (s : string) (i : nat) :
  last_index c s = Some i -> s = string_take i s +:+ String c (string_drop (S i) s).
Proof.
  revert i. induction s as [|a s IH]; intros i; simpl; [done|].
  destruct (last_index c s) as [j|] eqn:E.
  - intros [= <-]. rewrite (IH j eq_refl) at 1. done.
  - destruct (Ascii.eqb_spec a c) as [->|]; [|done]. intros [= <-]. simpl.
    by destruct s.
Qed.

Lemma string_contains_app (c : ascii) (s1 s2 : string) :
  string_contains c (s1 +:+ s2) = string_contains c s1 || string_contains c s2.
Proof.
  unfold string_contains. induction s1 as [|a s1 IH]; simpl; [done|].
  by rewrite IH, orb_assoc.
Qed.

Lemma string_drop_suffix (s1 s2 : string) :
  string_drop (String.length (s1 +:+ s2) - String.length s2) (s1 +:+ s2) = s2 /\
  string_take (String.length (s1 +:+ s2) - String.length s2) (s1 +:+ s2) = s1.
Proof.
  assert (String.length (s1 +:+ s2) - String.length s2 = String.length s1)%nat as ->.
  { rewrite string_length_app. lia. }
  by rewrite string_drop_app, string_take_app.
Qed.

(** ** Index numerals *)

Definition indexNumeral (k : Z) : bool :=
  plainInstanceIndex (strconv_Itoa k)
  && bool_decide (strconv_Atoi (strconv_Itoa k) = Some k)
  && bool_decide (last_index separator_byte (strconv_Itoa k) = None).

Lemma indexNumeral_ok (k : Z) :
  1 <= k <= MaxInstanceIndex ->
  plainInstanceIndex (strconv_Itoa k) = true /\
  strconv_Atoi (strconv_Itoa k) = Some k /\
  last_index separator_byte (strconv_Itoa k) = None.
Proof.
  intros Hk. assert (forallb indexNumeral (seqZ 1 63) = true) as Hall by (vm_compute; reflexivity).
  rewrite forallb_forall in Hall. specialize (Hall k). rewrite <- list_elem_of_In, elem_of_seqZ in Hall.
  unfold MaxInstanceIndex in Hk. specialize (Hall ltac:(lia)).
  unfold indexNumeral in Hall. bool_hyps. done.
Qed.

Lemma is_digit_cases (c : ascii) :
  is_digit c = true -> exists n, (n < 10)%nat /\ c = Ascii.ascii_of_nat (48 + n).
Proof.
  unfold is_digit. intros E. apply andb_true_iff in E as [E1%Nat.leb_le E2%Nat.leb_le].
  exists (Ascii.nat_of_ascii c - 48)%nat. split; [lia|].
  replace (48 + _)%nat with (Ascii.nat_of_ascii c) by lia. by rewrite Ascii.ascii_nat_embedding.
Qed.

Definition numeralOf (s : string) : bool :=
  match strconv_Atoi s with
  | Some n => negb (plainInstanceIndex s) || String.eqb (strconv_Itoa n) s
  | None => true
  end.

Definition digit (n : nat) : ascii := Ascii.ascii_of_nat (48 + n).

Lemma numeralOf_short :
  forallb (fun d1 => numeralOf (String (digit d1) "") &&
    forallb (fun d2 => numeralOf (String (digit d1) (String (digit d2) ""))) (seq 0 10))
    (seq 0 10) = true.
Proof. vm_compute. reflexivity. Qed.

Lemma numeralOf_plain (s : string) : plainInstanceIndex s = true -> numeralOf s = true.
Proof.
  intros Hp. pose proof numeralOf_short as Hall. rewrite forallb_forall in Hall.
  assert (forall n, (n < 10)%nat -> List.In n (seq 0 10)) as Hin by (intros; apply in_seq; lia).
  destruct s as [|c1 [|c2 [|c3 s]]]; [done|..].
  - unfold plainInstanceIndex in Hp. simpl in Hp. destruct (Ascii.eqb c1 "0"); [done|]. bool_hyps.
    destruct (is_digit_cases c1) as (d & Hd & ->); [done|].
    specialize (Hall d (Hin _ Hd)). bool_hyps. done.
  - unfold plainInstanceIndex in Hp. simpl in Hp. destruct (Ascii.eqb c1 "0"); [done|]. bool_hyps.
    destruct (is_digit_cases c1) as (d & Hd & ->); [done|].
    destruct (is_digit_cases c2) as (e & He & ->); [done|].
    specialize (Hall d (Hin _ Hd)). bool_hyps. rewrite forallb_forall in *. eauto.
  - done.
Qed.

Lemma plainInstanceIndex_Itoa (s : string) (n : Z) :
  plainInstanceIndex s = true -> strconv_Atoi s = Some n -> strconv_Itoa n = s.
Proof.
  intros Hp E. pose proof (numeralOf_plain s Hp) as Hn. unfold numeralOf in Hn.
  rewrite E, Hp in Hn. simpl in Hn. by apply String.eqb_eq.
Qed.

(** ** Instance addresses *)

Lemma parse_address (base : string) (k : Z) :
  1 <= k <= MaxInstanceIndex -> ParseInstanceAddress (InstanceAddress base k) = (base, k).
Proof.
  intros Hk. destruct (indexNumeral_ok k Hk) as (Hp & Ha & Hl).
  unfold ParseInstanceAddress, InstanceAddress, instanceSeparator.
  destruct (Z.eqb_spec k 0); [lia|].
  change ("#" +:+ strconv_Itoa k) with (String separator_byte (strconv_Itoa k)).
  rewrite (last_index_app _ _ _ Hl). cbv zeta.
  replace (string_drop _ _) with (strconv_Itoa k).
  - rewrite Hp, Ha. simpl. rewrite string_take_app. unfold MaxInstanceIndex in *.
    destruct (Z.ltb_spec k 1), (Z.ltb_spec 63 k); (done || lia).
  - change (String separator_byte (strconv_Itoa k)) with ("#" +:+ strconv_Itoa k).
    rewrite <- string_append_assoc.
    replace (String.length base + String.length "#")%nat with (String.length (base +:+ "#")).
    + by rewrite string_drop_app.
    + apply string_length_app.
Qed.

(** Nothing is lost in parsing: whatever the model name, the base and index
    it is split into address exactly that name again, and the index is within the
    addressable range. *)
Theorem InstanceAddress_ParseInstanceAddress (model : string) :
  let '(base, k) := ParseInstanceAddress model in
  InstanceAddress base k = model /\ 0 <= k <= MaxInstanceIndex.
Proof.
  unfold ParseInstanceAddress.
  destruct (last_index separator_byte model) as [i|] eqn:Ei; [|by vm_compute].
  change (String.length instanceSeparator) with 1%nat. rewrite Nat.add_1_r. cbv zeta.
  destruct (plainInstanceIndex _) eqn:Ep; simpl negb; cbn [negb]; [|by vm_compute].
  destruct (strconv_Atoi _) as [n|] eqn:En; [|by vm_compute].
  destruct ((n <? 1) || (MaxInstanceIndex <? n)) eqn:Er; [by vm_compute|]. bool_hyps.
  split; [|lia]. unfold InstanceAddress. destruct (Z.eqb_spec n 0); [lia|].
  rewrite (plainInstanceIndex_Itoa _ _ Ep En). symmetry. by apply last_index_split.
Qed.

Lemma InstanceAddress_contains (base : string) (k : Z) :
  k <> 0 -> string_contains separator_byte (InstanceAddress base k) = true.
Proof.
  intros Hk. unfold InstanceAddress. destruct (Z.eqb_spec k 0); [done|].
  rewrite string_contains_app. apply orb_true_iff. by right.
Qed.

(** The keys of the agent's process table do not collide: two instance keys
    of specs whose IDs are not reserved are equal only for the same spec and the
    same index. *)
Theorem InstanceKey_inj (a b : string) (j k : Z) :
  reservedSpecID a = false -> reservedSpecID b = false ->
  0 <= j <= MaxInstanceIndex -> 0 <= k <= MaxInstanceIndex ->
  InstanceKey a j = InstanceKey b k -> a = b /\ j = k.
Proof.
  unfold reservedSpecID, InstanceKey. intros Ha Hb Hj Hk E.
  pose proof (InstanceAddress_contains a j) as Ca. pose proof (InstanceAddress_contains b k) as Cb.
  destruct (decide (j = 0)) as [->|Nj], (decide (k = 0)) as [->|Nk]; [done|..].
  - rewrite <- E in Cb. specialize (Cb Nk). change (InstanceAddress a 0) with a in Cb. congruence.
  - rewrite E in Ca. specialize (Ca Nj). change (InstanceAddress b 0) with b in Ca. congruence.
  - pose proof (parse_address a j ltac:(lia)) as P1.
    pose proof (parse_address b k ltac:(lia)) as P2.
    rewrite E, P2 in P1. by simplify_eq.
Qed.

Lemma InstanceKey_inj_witness : InstanceKey "a" 1 <> InstanceKey "a1" 0.
Proof.
  intros E. assert ("a" = "a1" /\ 1 = 0) as [[=] _].
  apply (InstanceKey_inj "a" "a1" 1 0); try done; unfold MaxInstanceIndex; lia.
Defined.

Lemma base_of_address (base : string) (k : Z) :
  InstanceBase (InstanceAddress base k) k = base.
Proof.
  unfold InstanceBase, InstanceAddress. destruct (Z.eqb_spec k 0); [done|].
  unfold strings_TrimSuffix. cbv zeta. destruct (string_drop_suffix base (instanceSeparator +:+ strconv_Itoa k)) as [-> ->].
  rewrite String.eqb_refl, (proj2 (Nat.leb_le _ _)); [done|].
  rewrite (string_length_app base). lia.
Qed.

(** ** Accepted documents *)

Lemma collectSpecIDs_spec (specs : list Spec) (seen : gset string) :
  match collectSpecIDs seen specs with
  | inr ids => NoDup (spec_ID <$> specs) /\ (forall s, s ∈ specs -> spec_ID s ∉ seen) /\
      ids = seen ∪ list_to_set (spec_ID <$> specs)
  | inl e => e = ParseErrorDuplicateSpecID /\
      ~ (NoDup (spec_ID <$> specs) /\ forall s, s ∈ specs -> spec_ID s ∉ seen)
  end.
Proof.
  revert seen. induction specs as [|s specs IH]; intros seen; cbn [collectSpecIDs].
  { split_and!; [constructor|by intros ? ?%elem_of_nil|set_solver]. }
  case_bool_decide as Hin.
  { split; [done|]. intros [_ Hs]. eapply Hs; [left|done]. }
  specialize (IH ({[spec_ID s]} ∪ seen)). destruct (collectSpecIDs _ specs) as [e|ids].
  - destruct IH as [-> IH]. split; [done|]. intros [Hnd Hs]. apply IH. clear IH.
    rewrite fmap_cons, NoDup_cons in Hnd. destruct Hnd as [Hn Hnd]. split; [done|].
    intros s' Hs' [?%elem_of_singleton|?]%elem_of_union.
    + destruct Hn. apply list_elem_of_fmap. eauto.
    + eapply Hs; [right; done|done].
  - destruct IH as (Hnd & Hs & ->). split_and!.
    + rewrite fmap_cons. constructor; [|done]. intros (s' & E & Hs')%list_elem_of_fmap.
      apply (Hs s' Hs'). set_solver.
    + intros s' [->|Hs']%elem_of_cons; [done|]. specialize (Hs s' Hs'). set_solver.
    + rewrite fmap_cons, list_to_set_cons. set_solver.
Qed.

Lemma withoutReservedSpecIDs_filter (specs : list Spec) :
  withoutReservedSpecIDs specs =
  List.filter (fun spec => negb (reservedSpecID (spec_ID spec))) specs.
Proof.
  unfold withoutReservedSpecIDs. destruct (existsb _ specs) eqn:E; [done|]. simpl.
  induction specs as [|s specs IH]; [done|]. simpl in *. bool_hyps.
  match goal with Hs : reservedSpecID _ = false |- _ => rewrite Hs end. simpl. by rewrite <- IH.
Qed.

(** What a repaired spec promises. *)
Record spec_ok (s : Spec) : Prop := {
  ok_reserved : reservedSpecID (spec_ID s) = false;
  ok_min : 0 <= spec_MinInstances s <= MaxInstanceIndex + 1;
  ok_max : 0 <= spec_MaxInstances s;
  ok_range : spec_MaxInstances s = 0 \/ spec_MinInstances s <= spec_MaxInstances s;
  ok_port : spec_Replicable s = true -> spec_ListenPort s = 0
}.

Lemma sanitizeInstanceFields_ok (s : Spec) :
  reservedSpecID (spec_ID s) = false -> spec_ok (sanitizeInstanceFields s).
Proof.
  intros Hr. unfold sanitizeInstanceFields, MaxInstanceIndex.
  destruct (spec_Replicable s) eqn:E1, (Z.eqb_spec (spec_ListenPort s) 0) as [E2|E2]; simpl;
  repeat (case_match; bool_hyps; simpl in *);
  repeat match goal with Ho : (_ || _) = true |- _ => apply orb_true_iff in Ho as [Ho|Ho]; bool_hyps
         | Ha : (_ && _) = false |- _ => apply andb_false_iff in Ha as [Ha|Ha]; bool_hyps end;
  split; simpl; unfold MaxInstanceIndex; try done; try lia; congruence.
Qed.

Section documents.
Context `{Unicode} {Raw : Type} (unmarshal : Raw -> option Config).
Implicit Types (raw : Raw) (cfg : Config) (s : Spec).

Definition fileKey (f : ConfigFile) : string := strings_ToLower (cf_Name f).

Lemma checkNames_spec (fs : list ConfigFile) (seen : gset string) :
  let ok := (Forall (fun f => validConfigFileName (cf_Name f) = true) fs /\ NoDup (fileKey <$> fs))
            /\ forall f, f ∈ fs -> fileKey f ∉ seen in
  match checkNames seen fs with
  | None => ok
  | Some e => e = ParseErrorInvalidConfigFileName /\ ~ ok
  end.
Proof.
  cbv zeta. revert seen. induction fs as [|f fs IH]; intros seen; cbn [checkNames].
  { split; [split; constructor|by intros ? ?%elem_of_nil]. }
  destruct (validConfigFileName (cf_Name f)) eqn:Ev; cbn [negb].
  2:{ split; [done|]. rewrite Forall_cons, Ev. by intros [[[? ?] ?] ?]. }
  fold (fileKey f). case_bool_decide as Hin.
  { split; [done|]. intros [_ Hs]. eapply Hs; [left|done]. }
  specialize (IH ({[fileKey f]} ∪ seen)). destruct (checkNames _ fs).
  - destruct IH as [-> IH]. split; [done|]. rewrite Forall_cons, fmap_cons, NoDup_cons.
    intros [[[_ ?] [Hn ?]] Hs]. apply IH. split; [done|].
    intros f' Hf' [E%elem_of_singleton|?]%elem_of_union.
    + apply Hn. rewrite <- E. by apply list_elem_of_fmap_2.
    + eapply Hs; [right; done|done].
  - destruct IH as [[? ?] Hs]. rewrite Forall_cons, fmap_cons, NoDup_cons. split_and!; try done.
    + intros (f' & E & Hf')%list_elem_of_fmap. apply (Hs f' Hf'). set_solver.
    + intros f' [->|Hf']%elem_of_cons; [done|]. specialize (Hs f' Hf'). set_solver.
Qed.

(** Names that can be written into the spec's own directory, no two of which are
    the same file on a case-insensitive file system. *)
Definition files_ok s : Prop :=
  Forall (fun f => validConfigFileName (cf_Name f) = true) (spec_ConfigFiles s) /\
  NoDup (fileKey <$> spec_ConfigFiles s).

Lemma checkConfigFileNames_spec s :
  match checkConfigFileNames s with
  | None => files_ok s
  | Some e => e = ParseErrorInvalidConfigFileName /\ ~ files_ok s
  end.
Proof.
  pose proof (checkNames_spec (spec_ConfigFiles s) ∅) as Hc. cbv zeta in Hc.
  unfold checkConfigFileNames, files_ok. destruct (checkNames ∅ _); [|by destruct Hc].
  destruct Hc as [-> Hn]. split; [done|]. intros ?. apply Hn. split; [done|set_solver].
Qed.

Lemma finishSpecs_spec (specs : list Spec) :
  match finishSpecs specs with
  | inr out => out = sanitizeInstanceFields <$> specs /\ Forall files_ok specs
  | inl e => e = ParseErrorInvalidConfigFileName /\ ~ Forall files_ok specs
  end.
Proof.
  induction specs as [|s specs IH]; cbn [finishSpecs]; [done|].
  pose proof (checkConfigFileNames_spec s) as Hc. destruct (checkConfigFileNames s) as [e|].
  - destruct Hc as [-> Hc]. split; [done|]. by intros [? _]%Forall_cons.
  - destruct (finishSpecs specs) as [e|out].
    + destruct IH as [-> IH]. split; [done|]. by intros [_ ?]%Forall_cons.
    + destruct IH as [-> IH]. by rewrite Forall_cons.
Qed.

(** The specs of a decoded document that are kept. *)
Definition keptSpecs cfg : list Spec :=
  List.filter (fun s => negb (reservedSpecID (spec_ID s))) (cfg_Specs cfg).

Lemma ParseConfig_spec raw :
  match ParseConfig unmarshal raw with
  | inl e =>
      (e = ParseErrorJSONSyntax /\ unmarshal raw = None) \/
      exists cfg, unmarshal raw = Some cfg /\
        ((e = ParseErrorDuplicateSpecID /\ ~ NoDup (spec_ID <$> cfg_Specs cfg)) \/
         (e = ParseErrorInvalidConfigFileName /\ NoDup (spec_ID <$> cfg_Specs cfg) /\
          ~ Forall files_ok (keptSpecs cfg)))
  | inr out =>
      exists cfg, unmarshal raw = Some cfg /\ NoDup (spec_ID <$> cfg_Specs cfg) /\
        Forall files_ok (keptSpecs cfg) /\
        cfg_Specs out = sanitizeInstanceFields <$> keptSpecs cfg /\
        forall pair, pair ∈ cfg_Coresident out <-> pair ∈ cfg_Coresident cfg /\
          pair.1 ∈ spec_ID <$> keptSpecs cfg /\ pair.2 ∈ spec_ID <$> keptSpecs cfg
  end.
Proof.
  unfold ParseConfig. destruct (unmarshal raw) as [cfg|] eqn:Eu; [|by left].
  pose proof (collectSpecIDs_spec (cfg_Specs cfg) ∅) as Hc.
  destruct (collectSpecIDs ∅ (cfg_Specs cfg)) as [e|ids].
  { right. exists cfg. destruct Hc as [-> Hc]. split; [done|]. left. split; [done|].
    intros ?. apply Hc. split; [done|set_solver]. }
  destruct Hc as (Hnd & _ & ->). rewrite withoutReservedSpecIDs_filter. fold (keptSpecs cfg).
  pose proof (finishSpecs_spec (keptSpecs cfg)) as Hf. destruct (finishSpecs (keptSpecs cfg)) as [e|out].
  { right. exists cfg. destruct Hf as [-> Hf]. split; [done|]. by right. }
  destruct Hf as [-> Hf]. exists cfg. split_and!; try done.
  intros [a b]. cbn [cfg_Coresident]. rewrite elem_of_filter_bool, andb_true_iff, !bool_decide_eq_true.
  assert (forall id, id ∈ filter (fun id => reservedSpecID id = false)
      (∅ ∪ list_to_set (spec_ID <$> cfg_Specs cfg) : gset string) <-> id ∈ spec_ID <$> keptSpecs cfg) as Hid.
  { intros id. rewrite elem_of_filter, elem_of_union, elem_of_list_to_set, !list_elem_of_fmap.
    unfold keptSpecs. setoid_rewrite elem_of_filter_bool. setoid_rewrite negb_true_iff. set_solver. }
  by rewrite !Hid.
Qed.

(** Which documents are refused, and why: a document that does not decode, one
    with two specs of the same ID (reserved IDs included), one whose kept specs
    carry an unusable or case-colliding file name -- checked in this order -- and
    nothing else. *)
Theorem ParseConfig_refusals raw :
  match ParseConfig unmarshal raw with
  | inl e =>
      (e = ParseErrorJSONSyntax /\ unmarshal raw = None) \/
      exists cfg, unmarshal raw = Some cfg /\
        ((e = ParseErrorDuplicateSpecID /\ ~ NoDup (spec_ID <$> cfg_Specs cfg)) \/
         (e = ParseErrorInvalidConfigFileName /\ NoDup (spec_ID <$> cfg_Specs cfg) /\
          ~ Forall files_ok (keptSpecs cfg)))
  | inr _ =>
      exists cfg, unmarshal raw = Some cfg /\ NoDup (spec_ID <$> cfg_Specs cfg) /\
        Forall files_ok (keptSpecs cfg)
  end.
Proof.
  pose proof (ParseConfig_spec raw) as Hp. destruct (ParseConfig unmarshal raw); [done|].
  destruct Hp as (cfg & ? & ? & ? & _). eauto.
Qed.

Lemma sanitizeInstanceFields_ID s : spec_ID (sanitizeInstanceFields s) = spec_ID s.
Proof. unfold sanitizeInstanceFields. cbv zeta. by repeat case_match. Qed.

Lemma sanitizeInstanceFields_files s :
  spec_ConfigFiles (sanitizeInstanceFields s) = spec_ConfigFiles s.
Proof. unfold sanitizeInstanceFields. cbv zeta. by repeat case_match. Qed.

Lemma fmap_sanitize_ID (l : list Spec) :
  spec_ID <$> (sanitizeInstanceFields <$> l) = spec_ID <$> l.
Proof.
  rewrite <- list_fmap_compose. apply list_fmap_ext. intros i s _. apply sanitizeInstanceFields_ID.
Qed.

(** The type invariant of an accepted document. *)
Record config_ok cfg : Prop := {
  cfg_ids : NoDup (spec_ID <$> cfg_Specs cfg);
  cfg_specs : Forall spec_ok (cfg_Specs cfg);
  cfg_files : Forall files_ok (cfg_Specs cfg);
  cfg_pairs pair : pair ∈ cfg_Coresident cfg ->
    pair.1 ∈ spec_ID <$> cfg_Specs cfg /\ pair.2 ∈ spec_ID <$> cfg_Specs cfg
}.

Lemma ParseConfig_ok raw out : ParseConfig unmarshal raw = inr out -> config_ok out.
Proof.
  intros E. pose proof (ParseConfig_spec raw) as Hp. rewrite E in Hp.
  destruct Hp as (cfg & _ & Hnd & Hf & Es & Hpair). split; rewrite ?Es, ?fmap_sanitize_ID.
  - unfold keptSpecs. clear -Hnd. induction (cfg_Specs cfg) as [|s l IH]; [done|].
    rewrite fmap_cons, NoDup_cons in Hnd. destruct Hnd as [Hn Hnd]. simpl.
    destruct (reservedSpecID (spec_ID s)); simpl; [auto|]. constructor; [|auto].
    intros (s' & E & [Hs' _]%elem_of_filter_bool)%list_elem_of_fmap. apply Hn.
    rewrite E. by apply list_elem_of_fmap_2.
  - apply Forall_fmap, Forall_forall. intros s [_ Hs]%elem_of_filter_bool. bool_hyps.
    by apply sanitizeInstanceFields_ok.
  - apply Forall_fmap. eapply Forall_impl; [exact Hf|]. intros s. unfold files_ok. simpl.
    by rewrite sanitizeInstanceFields_files.
  - intros pair Hpr. apply Hpair in Hpr as (_ & ? & ?). done.
Qed.

(** C40.  Every accepted document satisfies the invariant its readers rely on:
    distinct unreserved IDs, instance fields within range, a replicable spec has no
    fixed port, usable file names, and co-residency pairs between known specs. *)
Theorem ParseConfig_invariant raw out : ParseConfig unmarshal raw = inr out -> config_ok out.
Proof. apply ParseConfig_ok. Qed.

(** In an accepted document the protected instances can all run: every index
    below the protected count of a spec is allowed, addressable, and not a burst. *)
Theorem protected_instances_allowed raw out s k :
  ParseConfig unmarshal raw = inr out -> s ∈ cfg_Specs out -> 0 <= k < ProtectedCount s ->
  InstanceAllowed s k = true /\ k <= MaxInstanceIndex /\ IsBurst s k = false.
Proof.
  intros E Hs. apply ParseConfig_ok, cfg_specs in E. rewrite Forall_forall in E.
  destruct (E s Hs) as [_ Hmin _ Hrange _].
  unfold ProtectedCount, InstanceAllowed, IsBurst, ProtectedCount, MaxInstanceIndex in *.
  intros Hk. destruct (spec_Replicable s) eqn:Er, (spec_Pinned s || _);
    destruct (Z.eqb_spec k 0), (Z.ltb_spec k 0), (Z.ltb_spec 63 k); simpl; try lia;
    (split_and!; [|lia|apply Z.leb_gt; lia]); try done;
    apply orb_true_iff; rewrite Z.eqb_eq, Z.ltb_lt; lia.
Qed.

Lemma PairKey_comm (a b : string) : PairKey a b = PairKey b a.
Proof.
  unfold PairKey. destruct (String.leb a b) eqn:E1, (String.leb b a) eqn:E2; try done.
  - f_equal; apply (anti_symm String.le); unfold String.le; by rewrite ?E1, ?E2.
  - destruct (String.leb_total a b); congruence.
Qed.

Lemma PairKey_eq (x y a b : string) :
  PairKey x y = PairKey a b <-> (x = a /\ y = b) \/ (x = b /\ y = a).
Proof.
  split; [|intros [[-> ->]|[-> ->]]; [done|apply PairKey_comm]].
  unfold PairKey. repeat case_match; intros [=]; auto.
Qed.

(** The co-residency matrix is symmetric and complete: a pair looked up in
    either order is open exactly when the document lists it in one of the orders. *)
Theorem AllowedPairs_lookup cfg (a b : string) :
  map_get false (AllowedPairs cfg) (PairKey a b) = true <->
  (a, b) ∈ cfg_Coresident cfg \/ (b, a) ∈ cfg_Coresident cfg.
Proof.
  enough (forall l acc, map_get false (foldl (fun allowed (pair : string * string) =>
    <[PairKey pair.1 pair.2 := true]> allowed) acc l) (PairKey a b) = true <->
    map_get false acc (PairKey a b) = true \/ (a, b) ∈ l \/ (b, a) ∈ l) as Hf.
  { unfold AllowedPairs. rewrite Hf. unfold map_get. rewrite lookup_empty. naive_solver. }
  induction l as [|[x y] l IH]; intros acc; simpl.
  { rewrite !elem_of_nil. naive_solver. }
  rewrite IH, !elem_of_cons. unfold map_get.
  destruct (decide (PairKey x y = PairKey a b)) as [E|E].
  - rewrite E, lookup_insert_eq. simpl. apply PairKey_eq in E. naive_solver.
  - rewrite lookup_insert_ne by done. rewrite PairKey_eq in E. naive_solver.
Qed.

End documents.

(** ** A concrete document *)

Definition sampleSpec (id : string) (port lo hi : Z) : Spec :=
  mkSpec id id "" "" [] ∅ [mkConfigFile "a.json" "{}"] "" [] 0 port "" 0 0 0 0 true false "" "" "" ""
    "" "" "" true lo hi "" 0.

Definition sampleConfig : Config :=
  mkConfig 8080 4 [] [sampleSpec "a" 0 3 2; sampleSpec "b#1" 0 1 1; sampleSpec "c" 9000 70 0]
    [("c", "a"); ("a", "b#1")] "".

Definition sampleParsed : ParseErrorCode + Config :=
  @ParseConfig ascii_tables Config Some sampleConfig.

Lemma ParseConfig_invariant_witness :
  exists out, sampleParsed = inr out /\ cfg_Coresident out = [("c", "a")] /\
    @config_ok ascii_tables out.
Proof.
  eexists. split; [vm_compute; reflexivity|]. split; [reflexivity|].
  apply (@ParseConfig_invariant ascii_tables Config Some sampleConfig). vm_compute. reflexivity.
Defined.

Lemma protected_instances_allowed_witness :
  exists out s, sampleParsed = inr out /\ s ∈ cfg_Specs out /\ ProtectedCount s = 2 /\
    InstanceAllowed s 1 = true /\ 1 <= MaxInstanceIndex /\ IsBurst s 1 = false.
Proof.
  do 2 eexists. split; [vm_compute; reflexivity|]. split; [left|]. split; [reflexivity|].
  eapply (@protected_instances_allowed ascii_tables Config Some sampleConfig);
    [vm_compute; reflexivity|left|vm_compute; split; [discriminate|reflexivity]].
Defined.
