(* ===== verification/Policy.v ===== *)
(** * The admission policy

    Models [server-agent/internal/runtime/policy.go] in full: the snapshot a
    decision is taken on, the decision, every predicate and ordering the rules
    use, the six rules as operations on the accumulating [admission] state, the
    pipeline that runs them, and the no-evict gate.

    A Go method with a pointer receiver is a function from the state to the new
    state.  Iteration over a Go map has no defined order; it is modelled as the
    order of [map_to_list], and the order-independence theorems show that no
    result depends on it.  The only recursion, [blockedSolelyByGrace] re-running
    the pipeline with the grace window off, is modelled with fuel; one unit is
    enough because the re-run never recurses. *)

From Stdlib Require Import ZArith Lia Ascii.
From stdpp Require Import base tactics option list numbers strings pretty gmap.
From S2P Require Import Prelude RuntimeTypes.
Local Open Scope Z_scope.
Local Open Scope go_scope.

(** ** Data *)

Record RunningProc := mkRunningProc {
  rp_SpecID : string;
  rp_Spec : string;
  rp_Instance : Z;
  rp_Surplus : bool;
  rp_GPUs : gmap Z Z;
  rp_RAMMB : Z;
  rp_InFlight : Z;
  rp_Pinned : bool;
  rp_Role : string;
  rp_LastUsed : time;
  rp_Starting : bool
}.

Record PolicySnapshot := mkPolicySnapshot {
  ps_Running : list RunningProc;
  ps_MaxProcesses : Z;
  ps_Now : time;
  ps_EvictionGrace : duration;
  ps_Budgets : gmap Z Z;
  ps_HostRAMBudgetMB : Z;
  ps_HostRAMCeilingMB : Z;
  ps_RAMBootstrapInFlight : bool;
  ps_RAMBootstrapGuessMB : Z;
  ps_VRAMBootstrapEligible : bool;
  ps_NoEvict : bool;
  ps_Allowed : gmap (string * string) bool
}.

Record Decision := mkDecision {
  dec_OK : bool;
  dec_Reason : option State;   (* [None] is the empty state *)
  dec_Message : string;
  dec_Evict : list string;
  dec_Wait : bool;
  dec_WaitOnRAM : bool;
  dec_WaitOnGrace : bool;
  dec_VRAMBootstrap : bool;
  dec_NoCapacity : bool
}.

(** A terminal refusal: [Decision{Reason: ..., Message: ..., Evict: []string{}}]. *)
Definition refusal (reason : State) (message : string) : Decision :=
  mkDecision false (Some reason) message [] false false false false false.

(** ** Bases, pairs and the eviction gate *)

Definition baseOf (r : RunningProc) : string :=
  if String.eqb (rp_Spec r) "" then rp_SpecID r else rp_Spec r.

Definition specBase (spec : Spec) : string :=
  if String.eqb (spec_InstanceOf spec) "" then spec_ID spec else spec_InstanceOf spec.

Definition withinGrace (lastUsed now : time) (grace : duration) : bool :=
  (0 <? grace) && (time_Sub now lastUsed <=? grace).

Definition isEvictable (r : RunningProc) (now : time) (grace : duration) : bool :=
  negb (rp_Pinned r) && negb (rp_Starting r) && (rp_InFlight r =? 0)
  && negb (withinGrace (rp_LastUsed r) now grace).

Fixpoint firstSharedGPU (r : RunningProc) (idx : list Z) : option Z :=
  match idx with
  | [] => None
  | i :: idx' => if has_key (rp_GPUs r) i then Some i else firstSharedGPU r idx'
  end.

Definition touchesAnyGPU (r : RunningProc) (idx : list Z) : bool :=
  match firstSharedGPU r idx with Some _ => true | None => false end.

Definition specGPUIndexes (spec : Spec) : list Z := gpu_Index <$> spec_GPUs spec.

Definition specHasUnknownVRAM (spec : Spec) : bool :=
  existsb (fun g => gpu_VRAMMB g =? 0) (spec_GPUs spec).

Definition specHasUnknownRAM (spec : Spec) : bool := spec_RAMMB spec =? 0.

Definition needsRAMBootstrap (spec : Spec) (measuredRAMMB : Z) : bool :=
  specHasUnknownRAM spec && (measuredRAMMB <=? 0).

(** The loop body of [firstUnknownGPU], over the entries of [r.GPUs]. *)
Definition lowestUnknown (acc : option Z) (entry : Z * Z) : option Z :=
  if negb (entry.2 =? 0) then acc
  else match acc with
       | None => Some entry.1
       | Some lowest => if entry.1 <? lowest then Some entry.1 else Some lowest
       end.

Definition firstUnknownGPU (r : RunningProc) : option Z :=
  foldl lowestUnknown None (map_to_list (rp_GPUs r)).

Definition procHasUnknownVRAM (r : RunningProc) : bool :=
  match firstUnknownGPU r with Some _ => true | None => false end.

(** ** The terminal refusals that read no running process *)

Definition ownDemandMessage (spec : Spec) (g : SpecGPU) (budget : Z) : string :=
  "spec " +:+ spec_ID spec +:+ ": gpu " +:+ pretty (gpu_Index g) +:+ " demand "
  +:+ pretty (gpu_VRAMMB g) +:+ " MB exceeds budget " +:+ pretty budget +:+ " MB on its own".

Definition ownDemandRefusal (snap : PolicySnapshot) (spec : Spec) : option Decision :=
  let fix go (gpus : list SpecGPU) : option Decision :=
    match gpus with
    | [] => None
    | g :: gpus' =>
        if gpu_VRAMMB g =? 0 then go gpus'
        else
          let budget := map_get 0 (ps_Budgets snap) (gpu_Index g) in
          if budget <=? 0 then go gpus'
          else if budget <? gpu_VRAMMB g
          then Some (refusal StateNotPermitted (ownDemandMessage spec g budget))
          else go gpus'
    end in
  go (spec_GPUs spec).

Definition ramOwnDemandRefusal (snap : PolicySnapshot) (spec : Spec) : option Decision :=
  if (ps_HostRAMBudgetMB snap <=? 0) || (spec_RAMMB spec <=? 0) then None
  else
    let limit := Z.max (ps_HostRAMCeilingMB snap) (ps_HostRAMBudgetMB snap) in
    if spec_RAMMB spec <=? limit then None
    else Some (refusal StateNotPermitted
      ("spec " +:+ spec_ID spec +:+ ": RAM demand " +:+ pretty (spec_RAMMB spec)
       +:+ " MB exceeds the host RAM budget " +:+ pretty limit +:+ " MB on its own")).

(** ** The terminal refusals against a pinned occupant *)

Definition pairAllowed (allowed : gmap (string * string) bool) (candidateBase : string)
    (r : RunningProc) : bool :=
  let occupantBase := baseOf r in
  String.eqb occupantBase candidateBase
  || map_get false allowed (PairKey candidateBase occupantBase).

Definition outranksAsBlocker (closed : bool) (id : string) (bestClosed : bool) (bestID : string)
  : bool :=
  if negb (Bool.eqb closed bestClosed) then closed else String.ltb id bestID.

(** The loop body of [pinnedUnknownOccupantRefusal]; the accumulator is the
    blocker found so far with the shared GPU and whether the pair is closed. *)
Definition pinnedBlockerStep (snap : PolicySnapshot) (base : string) (gpuIdx : list Z)
    (best : option (RunningProc * Z * bool)) (r : RunningProc)
  : option (RunningProc * Z * bool) :=
  if negb (rp_Pinned r) || negb (procHasUnknownVRAM r) then best
  else match firstSharedGPU r gpuIdx with
       | None => best
       | Some gpu =>
           let closed := negb (pairAllowed (ps_Allowed snap) base r) in
           match best with
           | Some (blocker, _, pairClosed) =>
               if negb (outranksAsBlocker closed (rp_SpecID r) pairClosed (rp_SpecID blocker))
               then best
               else Some (r, gpu, closed)
           | None => Some (r, gpu, closed)
           end
       end.

Definition pinnedUnknownOccupantRefusal (snap : PolicySnapshot) (spec : Spec)
    (running : list RunningProc) (gpuIdx : list Z) : option Decision :=
  match foldl (pinnedBlockerStep snap (specBase spec) gpuIdx) None running with
  | None => None
  | Some (blocker, sharedGPU, true) =>
      Some (refusal StateNotPermitted
        ("spec " +:+ spec_ID spec +:+ ": gpu " +:+ pretty sharedGPU +:+ " is held by pinned spec "
         +:+ rp_SpecID blocker
         +:+ ", and that pair is not permitted by the co-residency matrix"))
  | Some (blocker, sharedGPU, false) =>
      let unknownGPU := default 0 (firstUnknownGPU blocker) in
      Some (refusal StatePendingVRAMUnknown
        ("spec " +:+ spec_ID spec +:+ ": gpu " +:+ pretty sharedGPU +:+ " is held by pinned spec "
         +:+ rp_SpecID blocker +:+ ", whose own demand on gpu " +:+ pretty unknownGPU
         +:+ " is unknown"))
  end.

Definition pinnedUnknownCandidateRefusal (running : list RunningProc) (gpuIdx : list Z)
  : option Decision :=
  if existsb (fun r => rp_Pinned r && touchesAnyGPU r gpuIdx) running
  then Some (refusal StatePendingVRAMUnknown "") else None.

(** ** Victim orders *)

Definition lessOldest (x y : RunningProc) : bool :=
  if negb (rp_LastUsed x =? rp_LastUsed y) then rp_LastUsed x <? rp_LastUsed y
  else String.ltb (rp_SpecID x) (rp_SpecID y).

Definition sortOldestFirst (procs : list RunningProc) : list RunningProc :=
  sort_Slice lessOldest procs.

Definition lessSibling (x y : RunningProc) : bool :=
  if negb (rp_Instance x =? rp_Instance y) then rp_Instance y <? rp_Instance x
  else String.ltb (rp_SpecID x) (rp_SpecID y).

(** [slots[base] = append(slots[base], i)] for every entry. *)
Definition siblingSlots (procs : list RunningProc) : gmap string (list nat) :=
  foldl (fun slots (entry : nat * RunningProc) =>
           let base := baseOf entry.2 in
           <[base := map_get [] slots base ++ [entry.1]]> slots)
    ∅ (imap pair procs).

(** One iteration of the second loop: sort the members held at [idx] in place. *)
Definition reorderSlots (procs : list RunningProc) (idx : list nat) : list RunningProc :=
  if (length idx <? 2)%nat then procs
  else
    let members := sort_Slice lessSibling (omap (fun i => procs !! i) idx) in
    foldl (fun procs (entry : nat * RunningProc) => <[entry.1 := entry.2]> procs)
      procs (zip idx members).

Definition siblingsHighestFirst (procs : list RunningProc) : list RunningProc :=
  foldl reorderSlots procs (snd <$> map_to_list (siblingSlots procs)).

(** ** The accumulating state *)

Record admission := mkAdmission {
  adm_snap : PolicySnapshot;
  adm_spec : Spec;
  adm_running : list RunningProc;
  adm_unknownVRAM : bool;
  adm_gpuIdx : list Z;
  adm_base : string;
  adm_candidateRole : string;
  adm_toEvict : gmap string RunningProc;
  adm_blocked : bool;
  adm_ramBlocked : bool;
  adm_waitMessage : string;
  adm_bootstrapEvicted : bool
}.

(** The five field writes the rules perform. *)
Definition queue (r : RunningProc) (a : admission) : admission :=
  mkAdmission (adm_snap a) (adm_spec a) (adm_running a) (adm_unknownVRAM a) (adm_gpuIdx a)
    (adm_base a) (adm_candidateRole a) (<[rp_SpecID r := r]> (adm_toEvict a)) (adm_blocked a)
    (adm_ramBlocked a) (adm_waitMessage a) (adm_bootstrapEvicted a).

Definition block (a : admission) : admission :=
  mkAdmission (adm_snap a) (adm_spec a) (adm_running a) (adm_unknownVRAM a) (adm_gpuIdx a)
    (adm_base a) (adm_candidateRole a) (adm_toEvict a) true
    (adm_ramBlocked a) (adm_waitMessage a) (adm_bootstrapEvicted a).

Definition blockOnRAM (a : admission) : admission :=
  mkAdmission (adm_snap a) (adm_spec a) (adm_running a) (adm_unknownVRAM a) (adm_gpuIdx a)
    (adm_base a) (adm_candidateRole a) (adm_toEvict a) true
    true (adm_waitMessage a) (adm_bootstrapEvicted a).

Definition setWaitMessage (m : string) (a : admission) : admission :=
  mkAdmission (adm_snap a) (adm_spec a) (adm_running a) (adm_unknownVRAM a) (adm_gpuIdx a)
    (adm_base a) (adm_candidateRole a) (adm_toEvict a) (adm_blocked a)
    (adm_ramBlocked a) m (adm_bootstrapEvicted a).

Definition setBootstrapEvicted (a : admission) : admission :=
  mkAdmission (adm_snap a) (adm_spec a) (adm_running a) (adm_unknownVRAM a) (adm_gpuIdx a)
    (adm_base a) (adm_candidateRole a) (adm_toEvict a) (adm_blocked a)
    (adm_ramBlocked a) (adm_waitMessage a) true.

Definition queued (a : admission) (r : RunningProc) : bool :=
  has_key (adm_toEvict a) (rp_SpecID r).

Definition mayEvict (a : admission) (r : RunningProc) : bool :=
  isEvictable r (ps_Now (adm_snap a)) (ps_EvictionGrace (adm_snap a))
  && negb (String.eqb (baseOf r) (adm_base a)).

Definition higherSiblingStays (a : admission) (r : RunningProc) : bool :=
  let base := baseOf r in
  existsb (fun o =>
    if (rp_Instance o <=? rp_Instance r) || negb (String.eqb (baseOf o) base) then false
    else negb (queued a o)) (adm_running a).

Definition evictable (a : admission) (r : RunningProc) : bool :=
  mayEvict a r && negb (higherSiblingStays a r).

Definition evictableOf (a : admission) (procs : list RunningProc) : list RunningProc :=
  List.filter (mayEvict a) procs.

Definition lessVictim (candidateRole : string) (x y : RunningProc) : bool :=
  if negb (Bool.eqb (rp_Surplus x) (rp_Surplus y)) then rp_Surplus x
  else
    let iSame := String.eqb (rp_Role x) candidateRole in
    let jSame := String.eqb (rp_Role y) candidateRole in
    if negb (Bool.eqb iSame jSame) then iSame
    else if negb (rp_LastUsed x =? rp_LastUsed y) then rp_LastUsed x <? rp_LastUsed y
    else String.ltb (rp_SpecID x) (rp_SpecID y).

Definition orderVictims (a : admission) (procs : list RunningProc) : list RunningProc :=
  siblingsHighestFirst (sort_Slice (lessVictim (adm_candidateRole a)) procs).

Definition lessRunning (x y : RunningProc) : bool :=
  let bi := baseOf x in
  let bj := baseOf y in
  if negb (String.eqb bi bj) then String.ltb bi bj
  else if negb (rp_Instance x =? rp_Instance y) then rp_Instance y <? rp_Instance x
  else String.ltb (rp_SpecID x) (rp_SpecID y).

Definition newAdmission `{Unicode} (snap : PolicySnapshot) (spec : Spec) : admission :=
  let running :=
    sort_Slice lessRunning
      (List.filter (fun r => negb (String.eqb (rp_SpecID r) (spec_ID spec))) (ps_Running snap)) in
  {| adm_snap := snap;
     adm_spec := spec;
     adm_running := running;
     adm_unknownVRAM := specHasUnknownVRAM spec;
     adm_gpuIdx := specGPUIndexes spec;
     adm_base := specBase spec;
     adm_candidateRole := roleOf (spec_Role spec);
     adm_toEvict := ∅;
     adm_blocked := false;
     adm_ramBlocked := false;
     adm_waitMessage := "";
     adm_bootstrapEvicted := false |}.

(** ** The rules *)

(** [if a.evictable(r) { a.toEvict[r.SpecID] = r } else { a.blocked = true }]. *)
Definition evictOrBlock (a : admission) (r : RunningProc) : admission :=
  if evictable a r then queue r a else block a.

(** Rule 1. *)
Definition ruleMatrix (a : admission) : admission :=
  foldl (fun a r =>
    if pairAllowed (ps_Allowed (adm_snap a)) (adm_base a) r then a else evictOrBlock a r)
    a (adm_running a).

(** Rule 4, the guarded one-shot arm. *)
Definition bootstrapEvictTouchers (a : admission) : admission :=
  foldl (fun a r =>
    if negb (touchesAnyGPU r (adm_gpuIdx a)) || procHasUnknownVRAM r then a
    else if evictable a r then setBootstrapEvicted (queue r a)
    else block a) a (adm_running a).

Fixpoint firstUnknownIndex (gpus : list SpecGPU) : Z :=
  match gpus with
  | [] => 0
  | g :: gpus' => if gpu_VRAMMB g =? 0 then gpu_Index g else firstUnknownIndex gpus'
  end.

Definition firstSpecUnknownGPU (spec : Spec) : Z := firstUnknownIndex (spec_GPUs spec).

Definition precedenceMessage (spec : Spec) (blocker : string) (gpu : Z) : string :=
  "spec " +:+ spec_ID spec +:+ ": its own demand on gpu " +:+ pretty (firstSpecUnknownGPU spec)
  +:+ " is unknown, so it waits for spec " +:+ blocker +:+ " to leave gpu " +:+ pretty gpu
  +:+ " rather than evicting it".

(** Rule 4, the steady-state arm.  The accumulator pairs the state with the
    blocker and GPU the message names. *)
Definition precedenceStep (acc : admission * option (string * Z)) (r : RunningProc)
  : admission * option (string * Z) :=
  let '(a, best) := acc in
  match firstSharedGPU r (adm_gpuIdx a) with
  | None => acc
  | Some gpu =>
      if procHasUnknownVRAM r then acc
      else
        let a := block a in
        match best with
        | Some (blocker, _) =>
            if String.ltb (rp_SpecID r) blocker then (a, Some (rp_SpecID r, gpu)) else (a, best)
        | None => (a, Some (rp_SpecID r, gpu))
        end
  end.

Definition blockOnKnownTouchers (a : admission) : admission :=
  let '(a, best) := foldl precedenceStep (a, None) (adm_running a) in
  match best with
  | None => a
  | Some (precedenceBlocker, precedenceGPU) =>
      setWaitMessage (precedenceMessage (adm_spec a) precedenceBlocker precedenceGPU) a
  end.

Definition ruleUnknownVRAMCandidate (a : admission) : admission :=
  if negb (adm_unknownVRAM a) then a
  else if ps_VRAMBootstrapEligible (adm_snap a) then bootstrapEvictTouchers a
  else blockOnKnownTouchers a.

(** Rule 5. *)
Definition ruleUnknownVRAMOccupant (a : admission) : admission :=
  foldl (fun a r =>
    if negb (procHasUnknownVRAM r) || negb (touchesAnyGPU r (adm_gpuIdx a)) then a
    else evictOrBlock a r) a (adm_running a).

(** The accounting loop rules 3 and 6 share: add up [amount] over the running
    processes that are not queued, and list them. *)
Definition collectHolders (amount : RunningProc -> option Z) (a : admission) (own : Z)
  : Z * list RunningProc :=
  foldl (fun (acc : Z * list RunningProc) r =>
    if queued a r then acc
    else match amount r with
         | None => acc
         | Some v => (acc.1 +! v, acc.2 ++ [r])
         end) (own, []) (adm_running a).

(** The drawing loop rules 3 and 6 share. *)
Fixpoint drawUntilFits (freed : RunningProc -> Z) (budget : Z) (procs : list RunningProc)
    (a : admission) (sum : Z) : admission * Z :=
  match procs with
  | [] => (a, sum)
  | r :: procs' =>
      if sum <=? budget then (a, sum)
      else if negb (evictable a r) then drawUntilFits freed budget procs' a sum
      else drawUntilFits freed budget procs' (queue r a) (sum -! freed r)
  end.

(** Rule 3, one GPU. *)
Definition chargeGPUBudget (a : admission) (g : SpecGPU) : admission :=
  if gpu_VRAMMB g =? 0 then a
  else
    let budget := map_get 0 (ps_Budgets (adm_snap a)) (gpu_Index g) in
    if budget <=? 0 then a
    else
      let '(sum, touchers) :=
        collectHolders (fun r => rp_GPUs r !! gpu_Index g) a (gpu_VRAMMB g) in
      if sum <=? budget then a
      else
        let idleTouchers := orderVictims a (evictableOf a touchers) in
        let '(a, sum) :=
          drawUntilFits (fun r => map_get 0 (rp_GPUs r) (gpu_Index g)) budget idleTouchers a sum in
        if budget <? sum then block a else a.

Definition rulePerGPUVRAM (a : admission) : admission :=
  foldl chargeGPUBudget a (spec_GPUs (adm_spec a)).

(** Rule 6. *)
Definition ramHolder (r : RunningProc) : option Z :=
  if rp_RAMMB r <=? 0 then None else Some (rp_RAMMB r).

Definition ruleHostRAM (a : admission) : admission :=
  let budget := ps_HostRAMBudgetMB (adm_snap a) in
  if budget <=? 0 then a
  else if ps_RAMBootstrapInFlight (adm_snap a) then blockOnRAM a
  else
    let candidateRAM :=
      if specHasUnknownRAM (adm_spec a) then ps_RAMBootstrapGuessMB (adm_snap a)
      else spec_RAMMB (adm_spec a) in
    if candidateRAM <=? 0 then a
    else
      let '(sum, holders) := collectHolders ramHolder a candidateRAM in
      if sum <=? budget then a
      else
        let idleHolders := orderVictims a (evictableOf a holders) in
        let '(a, sum) := drawUntilFits rp_RAMMB budget idleHolders a sum in
        if budget <? sum then blockOnRAM a else a.

(** Rule 2. *)
Fixpoint drawCount (deficit : Z) (procs : list RunningProc) (a : admission) (drawn : Z)
  : admission * Z :=
  match procs with
  | [] => (a, drawn)
  | r :: procs' =>
      if drawn =? deficit then (a, drawn)
      else if negb (evictable a r) then drawCount deficit procs' a drawn
      else drawCount deficit procs' (queue r a) (drawn + 1)
  end.

Definition ruleProcessCount (a : admission) : admission :=
  if ps_MaxProcesses (adm_snap a) <=? 0 then a
  else
    let remaining := Z.of_nat (length (adm_running a)) - Z.of_nat (size (adm_toEvict a)) in
    let deficit := remaining + 1 - ps_MaxProcesses (adm_snap a) in
    if deficit <=? 0 then a
    else
      let candidates :=
        orderVictims a
          (List.filter (fun r => negb (queued a r) && mayEvict a r) (adm_running a)) in
      let '(a, drawn) := drawCount deficit candidates a 0 in
      if drawn <? deficit then block a else a.

(** ** The decision *)

Definition withoutGrace (snap : PolicySnapshot) : PolicySnapshot :=
  mkPolicySnapshot (ps_Running snap) (ps_MaxProcesses snap) (ps_Now snap) 0 (ps_Budgets snap)
    (ps_HostRAMBudgetMB snap) (ps_HostRAMCeilingMB snap) (ps_RAMBootstrapInFlight snap)
    (ps_RAMBootstrapGuessMB snap) (ps_VRAMBootstrapEligible snap) (ps_NoEvict snap)
    (ps_Allowed snap).

Definition evictList (a : admission) : list string :=
  rp_SpecID <$> siblingsHighestFirst (sortOldestFirst (snd <$> map_to_list (adm_toEvict a))).

(** [waitOnGrace] is the answer of [blockedSolelyByGrace]. *)
Definition decide_with (waitOnGrace : bool) (a : admission) : Decision :=
  if adm_blocked a then
    {| dec_OK := false; dec_Reason := None; dec_Message := adm_waitMessage a;
       dec_Evict := []; dec_Wait := true; dec_WaitOnRAM := adm_ramBlocked a;
       dec_WaitOnGrace := waitOnGrace; dec_VRAMBootstrap := false; dec_NoCapacity := false |}
  else if (size (adm_toEvict a) =? 0)%nat then
    {| dec_OK := true; dec_Reason := None; dec_Message := ""; dec_Evict := [];
       dec_Wait := false; dec_WaitOnRAM := false; dec_WaitOnGrace := false;
       dec_VRAMBootstrap := false; dec_NoCapacity := false |}
  else
    {| dec_OK := false; dec_Reason := None; dec_Message := ""; dec_Evict := evictList a;
       dec_Wait := false; dec_WaitOnRAM := false; dec_WaitOnGrace := false;
       dec_VRAMBootstrap := adm_bootstrapEvicted a; dec_NoCapacity := false |}.

(** Steps 3 to 6. *)
Definition runRules (a : admission) : admission :=
  ruleProcessCount (ruleHostRAM (rulePerGPUVRAM
    (ruleUnknownVRAMOccupant (ruleUnknownVRAMCandidate (ruleMatrix a))))).

(** Steps 1 and 2: the first terminal refusal, if any. *)
Definition terminalRefusal (snap : PolicySnapshot) (spec : Spec) (a : admission)
  : option Decision :=
  match ownDemandRefusal snap spec with
  | Some dec => Some dec
  | None =>
  match ramOwnDemandRefusal snap spec with
  | Some dec => Some dec
  | None =>
  match (if adm_unknownVRAM a
         then pinnedUnknownCandidateRefusal (adm_running a) (adm_gpuIdx a) else None) with
  | Some dec => Some dec
  | None => pinnedUnknownOccupantRefusal snap spec (adm_running a) (adm_gpuIdx a)
  end end end.

(** [admitSteps] and, inlined where [decide] calls it, [blockedSolelyByGrace].
    The fuel bounds the depth of the grace re-run. *)
Fixpoint admitStepsFuel `{Unicode} (fuel : nat) (snap : PolicySnapshot) (spec : Spec) : Decision :=
  let a := newAdmission snap spec in
  match terminalRefusal snap spec a with
  | Some dec => dec
  | None =>
      let blockedSolelyByGrace :=
        if ps_EvictionGrace snap <=? 0 then false
        else match fuel with
             | O => false
             | S fuel' =>
                 let alt := admitStepsFuel fuel' (withoutGrace snap) spec in
                 negb (dec_Wait alt) && match dec_Reason alt with None => true | _ => false end
             end in
      decide_with blockedSolelyByGrace (runRules a)
  end.

Definition admitSteps `{Unicode} (snap : PolicySnapshot) (spec : Spec) : Decision :=
  admitStepsFuel 1 snap spec.

(** The method itself, calling [admitSteps] as the source does. *)
Definition blockedSolelyByGrace `{Unicode} (snap : PolicySnapshot) (spec : Spec) : bool :=
  if ps_EvictionGrace snap <=? 0 then false
  else
    let alt := admitSteps (withoutGrace snap) spec in
    negb (dec_Wait alt) && match dec_Reason alt with None => true | _ => false end.

(** ** The no-evict gate and [Admit] *)

Definition noCapacityCause (dec : Decision) : string :=
  match dec_Reason dec with
  | Some reason =>
      if negb (String.eqb (dec_Message dec) "")
      then State_string reason +:+ " (" +:+ dec_Message dec +:+ ")"
      else State_string reason
  | None =>
      if (0 <? length (dec_Evict dec))%nat
      then "it would evict " +:+ String.concat ", " (dec_Evict dec)
      else if negb (String.eqb (dec_Message dec) "") then "it would wait: " +:+ dec_Message dec
      else if dec_WaitOnRAM dec then "it would wait for host RAM"
      else if dec_WaitOnGrace dec
      then "it would wait for an occupant's eviction grace to expire"
      else "it would wait for an occupant that cannot be evicted now"
  end.

Definition noEvictGate (spec : Spec) (dec : Decision) : Decision :=
  if dec_OK dec then dec
  else mkDecision false None
    ("spec " +:+ spec_ID spec
     +:+ ": no free capacity to start without evicting or waiting: " +:+ noCapacityCause dec)
    [] false false false false true.

Definition Admit `{Unicode} (snap : PolicySnapshot) (spec : Spec) : Decision :=
  let dec := admitSteps snap spec in
  if ps_NoEvict snap then noEvictGate spec dec else dec.
