(* ===== verification/PolicyOrder.v ===== *)
(** * Victim orders of the admission policy

    The less functions of [policy.go] are strict weak orders that separate
    processes with different keys, and [siblingsHighestFirst] permutes each
    spec's instances among the places they hold, highest index first. *)

From Stdlib Require Import ZArith Lia Ascii.
From stdpp Require Import base tactics option list numbers strings pretty gmap sorting.
From S2P Require Import Prelude RuntimeTypes Policy.
Local Open Scope Z_scope.

(** ** The less functions *)

Lemma lessOldest_lex (x y : RunningProc) :
  lessOldest x y = less_lex (less_Z rp_LastUsed) (less_string rp_SpecID) x y.
Proof.
  unfold lessOldest, less_lex, less_Z, less_string.
  destruct (rp_LastUsed x =? rp_LastUsed y) eqn:?, (rp_LastUsed x <? rp_LastUsed y) eqn:?,
    (rp_LastUsed y <? rp_LastUsed x) eqn:?; bool_hyps; simpl; try done; lia.
Qed.

Lemma lessSibling_lex (x y : RunningProc) :
  lessSibling x y = less_lex (less_Z (fun r => - rp_Instance r)) (less_string rp_SpecID) x y.
Proof.
  unfold lessSibling, less_lex, less_Z, less_string.
  destruct (rp_Instance x =? rp_Instance y) eqn:?, (rp_Instance y <? rp_Instance x) eqn:?,
    (- rp_Instance x <? - rp_Instance y) eqn:?, (- rp_Instance y <? - rp_Instance x) eqn:?;
    bool_hyps; simpl; try done; lia.
Qed.

(** [true] sorts first. *)
Definition less_bool {A} (f : A -> bool) : A -> A -> bool :=
  less_Z (fun x => if f x then 0 else 1).

Lemma lessVictim_lex (role : string) (x y : RunningProc) :
  lessVictim role x y =
    less_lex (less_bool rp_Surplus)
      (less_lex (less_bool (fun r => String.eqb (rp_Role r) role)) lessOldest) x y.
Proof.
  unfold lessVictim, less_lex, less_bool, less_Z, lessOldest.
  by destruct (rp_Surplus x), (rp_Surplus y), (String.eqb (rp_Role x) role),
    (String.eqb (rp_Role y) role).
Qed.

Lemma string_ltb_neq (s t : string) :
  String.eqb s t = false -> String.ltb s t = negb (String.ltb t s).
Proof.
  intros Hne. bool_hyps. destruct (String.ltb s t) eqn:E1, (String.ltb t s) eqn:E2; try done.
  - pose proof (sw_asym (less:=less_string id) s t E1). unfold less_string in *. simpl in *.
    congruence.
  - by destruct Hne; apply string_ltb_eq.
Qed.

Lemma lessRunning_lex (x y : RunningProc) :
  lessRunning x y = less_lex (less_string baseOf) lessSibling x y.
Proof.
  unfold lessRunning, less_lex, less_string, lessSibling.
  destruct (String.eqb (baseOf x) (baseOf y)) eqn:E; simpl.
  - apply String.eqb_eq in E as ->. by rewrite string_ltb_irrefl.
  - rewrite (string_ltb_neq _ _ E). by destruct (String.ltb (baseOf y) (baseOf x)).
Qed.

Lemma sw_ext {A} (l1 l2 : A -> A -> bool) :
  (forall x y, l1 x y = l2 x y) -> StrictWeak l2 -> StrictWeak l1.
Proof. intros E [H1 H2]. split; intros *; rewrite !E; eauto. Qed.

Global Instance lessOldest_sw : StrictWeak lessOldest.
Proof. eapply sw_ext; [apply lessOldest_lex|apply _]. Qed.
Global Instance lessSibling_sw : StrictWeak lessSibling.
Proof. eapply sw_ext; [apply lessSibling_lex|apply _]. Qed.
Global Instance less_bool_sw {A} (f : A -> bool) : StrictWeak (less_bool f).
Proof. unfold less_bool. apply _. Qed.
Global Instance lessVictim_sw (role : string) : StrictWeak (lessVictim role).
Proof. eapply sw_ext; [apply lessVictim_lex|apply _]. Qed.
Global Instance lessRunning_sw : StrictWeak lessRunning.
Proof. eapply sw_ext; [apply lessRunning_lex|apply _]. Qed.

(** Every order falls back on the process key, so it separates two processes
    with different keys. *)

Lemma lex_string_sep {A} (l1 : A -> A -> bool) (f : A -> string) (x y : A) :
  less_lex l1 (less_string f) x y = false -> less_lex l1 (less_string f) y x = false ->
  f x = f y.
Proof.
  unfold less_lex, less_string.
  destruct (l1 x y); [done|]. destruct (l1 y x); [done|]. apply string_ltb_eq.
Qed.

Lemma lessOldest_sep (x y : RunningProc) :
  lessOldest x y = false -> lessOldest y x = false -> rp_SpecID x = rp_SpecID y.
Proof. rewrite !lessOldest_lex. apply lex_string_sep. Qed.

Lemma lessSibling_sep (x y : RunningProc) :
  lessSibling x y = false -> lessSibling y x = false -> rp_SpecID x = rp_SpecID y.
Proof. rewrite !lessSibling_lex. apply lex_string_sep. Qed.

Lemma lessRunning_sep (x y : RunningProc) :
  lessRunning x y = false -> lessRunning y x = false -> rp_SpecID x = rp_SpecID y.
Proof.
  rewrite !lessRunning_lex. unfold less_lex.
  destruct (less_string baseOf x y); [done|]. destruct (less_string baseOf y x); [done|].
  apply lessSibling_sep.
Qed.

(** Processes with pairwise different keys are determined by their keys. *)
Definition unique_ids (l : list RunningProc) : Prop := NoDup (rp_SpecID <$> l).

Lemma unique_ids_inj (l : list RunningProc) (x y : RunningProc) :
  unique_ids l -> x ∈ l -> y ∈ l -> rp_SpecID x = rp_SpecID y -> x = y.
Proof.
  unfold unique_ids. induction l as [|z l IH]; simpl; [by intros _ ?%elem_of_nil|].
  intros [Hz Hnd]%NoDup_cons Hx Hy E.
  rewrite elem_of_cons in Hx, Hy. destruct Hx as [->|Hx], Hy as [->|Hy]; auto.
  - destruct Hz. rewrite E. by apply list_elem_of_fmap_2.
  - destruct Hz. rewrite <- E. by apply list_elem_of_fmap_2.
Qed.

Lemma unique_ids_perm (l l' : list RunningProc) :
  l ≡ₚ l' -> unique_ids l -> unique_ids l'.
Proof. unfold unique_ids. intros ->. done. Qed.

Lemma unique_ids_filter (p : RunningProc -> bool) (l : list RunningProc) :
  unique_ids l -> unique_ids (List.filter p l).
Proof.
  unfold unique_ids. induction l as [|x l IH]; [done|].
  rewrite fmap_cons, NoDup_cons. intros [Hx Hu]. simpl. destruct (p x); [|auto].
  rewrite fmap_cons, NoDup_cons. split; [|auto].
  intros (y & E & [Hy _]%elem_of_filter_bool)%list_elem_of_fmap. destruct Hx. rewrite E.
  by apply list_elem_of_fmap_2.
Qed.

(** ** Writing a list of values at a list of positions *)

Definition read_at {A} (l : list A) (idx : list nat) : list A := omap (fun i => l !! i) idx.

Definition write_at {A} (l : list A) (idx : list nat) (vs : list A) : list A :=
  foldl (fun l (entry : nat * A) => <[entry.1 := entry.2]> l) l (zip idx vs).

Section write_at_facts.
Context {A : Type}.
Implicit Types (l vs : list A) (idx : list nat).

Lemma read_at_cons l i idx :
  read_at l (i :: idx) = match l !! i with Some x => x :: read_at l idx | None => read_at l idx end.
Proof. done. Qed.

Lemma write_at_cons l i idx v vs :
  write_at l (i :: idx) (v :: vs) = write_at (<[i := v]> l) idx vs.
Proof. done. Qed.

Lemma read_at_insert_ne l idx i x : i ∉ idx -> read_at (<[i := x]> l) idx = read_at l idx.
Proof.
  induction idx as [|j idx IH]; [done|]. rewrite not_elem_of_cons. intros [Hne Hi].
  rewrite !read_at_cons, IH by done. by rewrite list_lookup_insert_ne.
Qed.

Lemma length_write_at l idx vs : length (write_at l idx vs) = length l.
Proof.
  revert l vs. induction idx as [|i idx IH]; intros l [|v vs]; try done.
  by rewrite write_at_cons, IH, length_insert.
Qed.

Lemma write_at_lookup_ne l idx vs i : i ∉ idx -> write_at l idx vs !! i = l !! i.
Proof.
  revert l vs. induction idx as [|j idx IH]; intros l [|v vs]; try done.
  rewrite not_elem_of_cons. intros [Hne Hi].
  rewrite write_at_cons, IH by done. by rewrite list_lookup_insert_ne.
Qed.

Lemma read_at_write_ne l idx vs idx' :
  (forall i, i ∈ idx' -> i ∉ idx) -> read_at (write_at l idx vs) idx' = read_at l idx'.
Proof.
  induction idx' as [|i idx' IH]; intros Hd; [done|]. rewrite !read_at_cons.
  rewrite write_at_lookup_ne by (apply Hd; left). rewrite IH; [done|].
  intros j Hj. apply Hd. by right.
Qed.

Definition in_range l idx : Prop := forall i, i ∈ idx -> (i < length l)%nat.

Lemma in_range_cons l i idx :
  in_range l (i :: idx) <-> (i < length l)%nat /\ in_range l idx.
Proof.
  unfold in_range. split.
  - intros Hi. split; [|intros j Hj]; apply Hi; [left|by right].
  - intros [Hi Hr] j [->|Hj]%elem_of_cons; auto.
Qed.

Lemma in_range_insert l i x idx : in_range l idx -> in_range (<[i := x]> l) idx.
Proof. unfold in_range. by rewrite length_insert. Qed.

Lemma length_read_at l idx : in_range l idx -> length (read_at l idx) = length idx.
Proof.
  induction idx as [|i idx IH]; [done|]. rewrite in_range_cons. intros [Hi Hr].
  rewrite read_at_cons. destruct (lookup_lt_is_Some_2 l i Hi) as [x ->].
  simpl. by rewrite IH.
Qed.

Lemma read_at_write l idx vs :
  NoDup idx -> in_range l idx -> length vs = length idx -> read_at (write_at l idx vs) idx = vs.
Proof.
  revert l vs. induction idx as [|i idx IH]; intros l [|v vs]; try done.
  rewrite in_range_cons. intros [Hi Hnd]%NoDup_cons [Hlt Hr] [= Hlen].
  rewrite write_at_cons, read_at_cons, write_at_lookup_ne by done.
  rewrite list_lookup_insert_eq by done. f_equal.
  apply IH; auto using in_range_insert.
Qed.

Lemma insert_perm l i x y : l !! i = Some y -> x :: l ≡ₚ y :: <[i := x]> l.
Proof.
  intros Hi. pose proof (lookup_lt_Some _ _ _ Hi) as Hlt.
  rewrite (delete_Permutation l i y) at 1 by done.
  rewrite (delete_Permutation (<[i:=x]> l) i x) by (by apply list_lookup_insert_eq).
  assert (delete i (<[i:=x]> l) = delete i l) as ->.
  { apply list_eq. intros j. destruct (decide (j < i)%nat).
    - rewrite !list_lookup_delete_lt by done. by rewrite list_lookup_insert_ne by lia.
    - rewrite !list_lookup_delete_ge by lia. by rewrite list_lookup_insert_ne by lia. }
  apply Permutation_swap.
Qed.

Lemma write_at_perm_app l idx vs :
  NoDup idx -> in_range l idx -> length vs = length idx ->
  vs ++ l ≡ₚ read_at l idx ++ write_at l idx vs.
Proof.
  revert l vs. induction idx as [|i idx IH]; intros l [|v vs]; try done.
  rewrite in_range_cons. intros [Hi Hnd]%NoDup_cons [Hlt Hr] [= Hlen].
  destruct (lookup_lt_is_Some_2 l i Hlt) as [y Hy].
  specialize (IH (<[i:=v]> l) vs Hnd (in_range_insert _ _ _ _ Hr) Hlen).
  rewrite read_at_insert_ne in IH by done.
  rewrite read_at_cons, write_at_cons, Hy. simpl. rewrite <- IH.
  rewrite (Permutation_middle vs l v), (insert_perm l i v y Hy). by rewrite Permutation_middle.
Qed.

Lemma write_at_perm l idx vs :
  NoDup idx -> in_range l idx -> vs ≡ₚ read_at l idx -> write_at l idx vs ≡ₚ l.
Proof.
  intros Hnd Hr Hp. apply (Permutation_app_inv_l (read_at l idx)).
  rewrite <- write_at_perm_app; [by rewrite Hp|done|done|].
  rewrite Hp. by apply length_read_at.
Qed.

End write_at_facts.

(** ** Positions of the entries that satisfy a test *)

Definition positions {A} (p : A -> bool) (l : list A) : list nat :=
  fst <$> List.filter (fun e : nat * A => p e.2) (imap pair l).

Section positions_facts.
Context {A : Type} (p : A -> bool).
Implicit Types l : list A.

Lemma filter_fmap_comm {B C} (q : C -> bool) (f : B -> C) (l : list B) :
  List.filter q (f <$> l) = f <$> List.filter (fun x => q (f x)) l.
Proof. induction l as [|x l IH]; [done|]. csimpl. destruct (q (f x)); csimpl; by rewrite IH. Qed.

Lemma positions_cons x l :
  positions p (x :: l) = (if p x then [0%nat] else []) ++ (S <$> positions p l).
Proof.
  unfold positions. rewrite imap_cons.
  assert (imap (pair ∘ S) l = (fun e : nat * A => (S e.1, e.2)) <$> imap pair l) as ->.
  { by rewrite fmap_imap. }
  csimpl. rewrite filter_fmap_comm. csimpl.
  destruct (p x); csimpl; [f_equal|]; by rewrite <- !list_fmap_compose.
Qed.

Lemma positions_spec l (i : nat) :
  i ∈ positions p l <-> exists x, l !! i = Some x /\ p x = true.
Proof.
  revert i. induction l as [|x l IH]; intros i.
  - split; [by intros ?%elem_of_nil|]. by intros (y & Hy & _).
  - rewrite positions_cons, elem_of_app, list_elem_of_fmap. setoid_rewrite IH. split.
    + intros [Hi|(j & -> & y & Hy)]; [|by eauto].
      destruct (p x) eqn:?; [|by apply elem_of_nil in Hi].
      apply list_elem_of_singleton in Hi as ->. eauto.
    + intros (y & Hy & Hp). destruct i as [|i]; simpl in Hy.
      * injection Hy as ->. rewrite Hp. left. by apply list_elem_of_singleton.
      * right. eauto.
Qed.

Lemma positions_NoDup l : NoDup (positions p l).
Proof.
  induction l as [|x l IH]; [constructor|]. rewrite positions_cons. apply NoDup_app. split_and!.
  - destruct (p x); repeat constructor. by intros ?%elem_of_nil.
  - intros i Hi (j & -> & _)%list_elem_of_fmap. destruct (p x).
    + by apply list_elem_of_singleton in Hi.
    + by apply elem_of_nil in Hi.
  - by apply NoDup_fmap_2; [apply _|].
Qed.

Lemma positions_in_range l : in_range l (positions p l).
Proof. intros i (x & Hx & _)%positions_spec. by eapply lookup_lt_Some. Qed.

Lemma filter_read_at l : List.filter p l = read_at l (positions p l).
Proof.
  induction l as [|x l IH]; [done|]. rewrite positions_cons. simpl.
  assert (forall idx, read_at (x :: l) (S <$> idx) = read_at l idx) as Hs.
  { induction idx as [|j idx IHi]; [done|]. rewrite fmap_cons, !read_at_cons. simpl. by rewrite IHi. }
  destruct (p x).
  - change (read_at (x :: l) ([0%nat] ++ (S <$> positions p l)))
      with (x :: read_at (x :: l) (S <$> positions p l)). by rewrite Hs, IH.
  - change ([] ++ (S <$> positions p l)) with (S <$> positions p l). by rewrite Hs.
Qed.

Lemma positions_ext l l' : p <$> l = p <$> l' -> positions p l = positions p l'.
Proof.
  revert l'. induction l as [|x l IH]; intros [|y l'] E; try done.
  csimpl in E. injection E as E1 E2. rewrite !positions_cons, E1. by rewrite (IH l' E2).
Qed.

End positions_facts.

(** ** Slots *)

Definition of_base (b : string) (r : RunningProc) : bool := String.eqb (baseOf r) b.

Lemma siblingSlots_gen (es : list (nat * RunningProc)) (m : gmap string (list nat)) (b : string) :
  map_get [] (foldl (fun slots (entry : nat * RunningProc) =>
           let base := baseOf entry.2 in
           <[base := map_get [] slots base ++ [entry.1]]> slots) m es) b
  = map_get [] m b ++ (fst <$> List.filter (fun e : nat * RunningProc => of_base b e.2) es).
Proof.
  revert m. induction es as [|[i r] es IH]; intros m; simpl; [by rewrite app_nil_r|].
  rewrite IH. unfold of_base at 2. unfold map_get at 1. simpl.
  destruct (String.eqb (baseOf r) b) eqn:E; bool_hyps.
  - subst b. rewrite lookup_insert_eq. simpl. by rewrite <- app_assoc.
  - rewrite lookup_insert_ne by done. done.
Qed.

Lemma siblingSlots_get (l : list RunningProc) (b : string) :
  map_get [] (siblingSlots l) b = positions (of_base b) l.
Proof. unfold siblingSlots. by rewrite siblingSlots_gen. Qed.

Lemma siblingSlots_lookup (l : list RunningProc) (b : string) (idx : list nat) :
  siblingSlots l !! b = Some idx -> idx = positions (of_base b) l.
Proof. intros H. rewrite <- siblingSlots_get. unfold map_get. by rewrite H. Qed.

(** [reorderSlots] on the positions of one base. *)

Lemma sort_Slice_short {A} (less : A -> A -> bool) (l : list A) :
  (length l < 2)%nat -> sort_Slice less l = l.
Proof. destruct l as [|x [|y l]]; simpl; [done..|lia]. Qed.

Lemma reorderSlots_write (l : list RunningProc) (b : string) :
  reorderSlots l (positions (of_base b) l) =
    write_at l (positions (of_base b) l)
      (sort_Slice lessSibling (read_at l (positions (of_base b) l))).
Proof.
  unfold reorderSlots. case_match eqn:E; [|done].
  apply Nat.ltb_lt in E. pose proof (positions_in_range (of_base b) l) as Hr.
  rewrite sort_Slice_short by (by rewrite length_read_at).
  destruct (positions (of_base b) l) as [|i [|j idx]]; [done| |simpl in E; lia].
  rewrite read_at_cons. apply in_range_cons in Hr as [Hi _].
  destruct (lookup_lt_is_Some_2 l i Hi) as [x Hx]. rewrite Hx, write_at_cons.
  unfold write_at. simpl. by rewrite list_insert_id.
Qed.

Lemma reorderSlots_perm (l : list RunningProc) (b : string) :
  reorderSlots l (positions (of_base b) l) ≡ₚ l.
Proof.
  rewrite reorderSlots_write. apply write_at_perm.
  - apply positions_NoDup.
  - apply positions_in_range.
  - apply sort_Slice_perm.
Qed.

(** What stands where: the bases at each position are unchanged, the instances of
    the reordered base come highest first, those of any other base as before. *)

Lemma read_at_lookup {A} (l : list A) (idx : list nat) (x : A) :
  x ∈ read_at l idx -> exists i, i ∈ idx /\ l !! i = Some x.
Proof. unfold read_at. rewrite list_elem_of_omap. intros (i & Hi & Hx). eauto. Qed.

Lemma write_at_elem {A} (l : list A) (idx : list nat) (vs : list A) (i : nat) (x : A) :
  write_at l idx vs !! i = Some x -> l !! i = Some x \/ x ∈ vs.
Proof.
  revert l vs. induction idx as [|j idx IH]; intros l [|v vs] Hx; auto.
  rewrite write_at_cons in Hx. destruct (IH _ _ Hx) as [Hl|Hl]; [|right; by right].
  apply list_lookup_insert_Some in Hl as [(_ & -> & _)|[_ ?]]; [right; left|by left].
Qed.

Lemma reorderSlots_bases (l : list RunningProc) (b : string) :
  baseOf <$> reorderSlots l (positions (of_base b) l) = baseOf <$> l.
Proof.
  rewrite reorderSlots_write. apply list_eq. intros i. rewrite !list_lookup_fmap.
  destruct (decide (i ∈ positions (of_base b) l)) as [Hi|Hi];
    [|by rewrite write_at_lookup_ne].
  destruct (proj1 (positions_spec _ _ _) Hi) as (x & Hx & Hb). rewrite Hx.
  destruct (lookup_lt_is_Some_2 (write_at l (positions (of_base b) l)
      (sort_Slice lessSibling (read_at l (positions (of_base b) l)))) i) as [y Hy].
  { rewrite length_write_at. by eapply lookup_lt_Some. }
  rewrite Hy. simpl. f_equal.
  destruct (write_at_elem _ _ _ _ _ Hy) as [Hl|Hin]; [by simplify_eq|].
  rewrite (sort_Slice_elem lessSibling) in Hin.
  apply read_at_lookup in Hin as (j & (z & Hz & Hbz)%positions_spec & Hj). simplify_eq.
  unfold of_base in *. bool_hyps. congruence.
Qed.

Lemma of_base_fmap (l l' : list RunningProc) (b : string) :
  baseOf <$> l = baseOf <$> l' -> of_base b <$> l = of_base b <$> l'.
Proof.
  intros E. unfold of_base.
  assert (forall l : list RunningProc, (fun r => String.eqb (baseOf r) b) <$> l
          = (fun s => String.eqb s b) <$> (baseOf <$> l)) as H.
  { intros l0. by rewrite <- list_fmap_compose. }
  by rewrite !H, E.
Qed.

Lemma reorderSlots_filter (l : list RunningProc) (b b' : string) :
  List.filter (of_base b') (reorderSlots l (positions (of_base b) l)) =
    if String.eqb b b' then sort_Slice lessSibling (List.filter (of_base b') l)
    else List.filter (of_base b') l.
Proof.
  rewrite !filter_read_at.
  rewrite (positions_ext _ (reorderSlots _ _) l) by (apply of_base_fmap, reorderSlots_bases).
  rewrite reorderSlots_write. destruct (String.eqb b b') eqn:E; bool_hyps.
  - subst b'. apply read_at_write; [apply positions_NoDup|apply positions_in_range|].
    rewrite (sort_Slice_perm lessSibling). apply length_read_at, positions_in_range.
  - apply read_at_write_ne. intros i (x & Hx & Hb)%positions_spec (y & Hy & Hb')%positions_spec.
    unfold of_base in *. simplify_eq. bool_hyps. congruence.
Qed.

(** The second loop of [siblingsHighestFirst], over the slots in any order. *)

Lemma reorder_all (l l0 : list RunningProc) (bs : list string) :
  baseOf <$> l = baseOf <$> l0 ->
  let l' := foldl reorderSlots l ((fun b => positions (of_base b) l0) <$> bs) in
  l' ≡ₚ l /\ baseOf <$> l' = baseOf <$> l0 /\
  (NoDup bs -> forall b, List.filter (of_base b) l' =
     if decide (b ∈ bs) then sort_Slice lessSibling (List.filter (of_base b) l)
     else List.filter (of_base b) l).
Proof.
  revert l. induction bs as [|b0 bs IH]; intros l E l'; subst l'; [done|].
  rewrite fmap_cons. cbn [foldl].
  assert (positions (of_base b0) l0 = positions (of_base b0) l) as ->.
  { apply positions_ext, of_base_fmap. done. }
  destruct (IH (reorderSlots l (positions (of_base b0) l))) as (Hp & Hb & Hf).
  { by rewrite reorderSlots_bases. }
  split_and!; [by rewrite Hp, reorderSlots_perm|done|].
  intros [Hb0 Hnd]%NoDup_cons b. rewrite (Hf Hnd), !reorderSlots_filter.
  destruct (String.eqb b0 b) eqn:Eb; bool_hyps.
  - subst b. destruct (decide (b0 ∈ bs)); [done|].
    destruct (decide (b0 ∈ b0 :: bs)) as [|Hn]; [done|]. destruct Hn. left.
  - destruct (decide (b ∈ bs)) as [Hin|Hin].
    + destruct (decide (b ∈ b0 :: bs)) as [|Hn]; [done|]. destruct Hn. by right.
    + destruct (decide (b ∈ b0 :: bs)) as [Hn|]; [|done].
      apply elem_of_cons in Hn as [->|?]; done.
Qed.

Lemma siblingSlots_values (l : list RunningProc) :
  snd <$> map_to_list (siblingSlots l)
  = (fun b => positions (of_base b) l) <$> (fst <$> map_to_list (siblingSlots l)).
Proof.
  rewrite <- list_fmap_compose. apply list_fmap_ext. intros i [b idx] Hi. simpl.
  apply list_elem_of_lookup_2, elem_of_map_to_list in Hi. by apply siblingSlots_lookup.
Qed.

Lemma siblingsHighestFirst_perm (l : list RunningProc) : siblingsHighestFirst l ≡ₚ l.
Proof.
  unfold siblingsHighestFirst. rewrite siblingSlots_values.
  by destruct (reorder_all l l (fst <$> map_to_list (siblingSlots l)) eq_refl).
Qed.

(** The instances of one spec stand in the order of [lessSibling]. *)
Lemma siblingsHighestFirst_filter (l : list RunningProc) (b : string) :
  List.filter (of_base b) (siblingsHighestFirst l)
  = sort_Slice lessSibling (List.filter (of_base b) l).
Proof.
  unfold siblingsHighestFirst. rewrite siblingSlots_values.
  destruct (reorder_all l l (fst <$> map_to_list (siblingSlots l)) eq_refl) as (_ & _ & Hf).
  rewrite Hf by apply NoDup_fst_map_to_list. case_decide as Hb; [done|].
  assert (List.filter (of_base b) l = []) as ->; [|done].
  rewrite filter_read_at, <- siblingSlots_get. unfold map_get.
  destruct (siblingSlots l !! b) eqn:E; [|done].
  destruct Hb. apply list_elem_of_fmap. eexists (b, _). split; [done|].
  by apply elem_of_map_to_list.
Qed.

Lemma siblingsHighestFirst_elem (l : list RunningProc) (r : RunningProc) :
  r ∈ siblingsHighestFirst l <-> r ∈ l.
Proof. by rewrite siblingsHighestFirst_perm. Qed.

Lemma orderVictims_perm (a : admission) (l : list RunningProc) : orderVictims a l ≡ₚ l.
Proof. unfold orderVictims. by rewrite siblingsHighestFirst_perm, sort_Slice_perm. Qed.

(** A list is determined by the bases at its positions and, for each base, the
    processes of that base in order. *)
Lemma bases_filters_determine (l l' : list RunningProc) :
  baseOf <$> l = baseOf <$> l' ->
  (forall b, List.filter (of_base b) l = List.filter (of_base b) l') -> l = l'.
Proof.
  revert l'. induction l as [|x l IH]; intros [|y l'] E Hf; try done.
  rewrite !fmap_cons in E. injection E as E1 E2.
  assert (of_base (baseOf x) x = true /\ of_base (baseOf x) y = true) as [Hx Hy].
  { unfold of_base. rewrite E1, String.eqb_refl. done. }
  pose proof (Hf (baseOf x)) as H. simpl in H. rewrite Hx, Hy in H. injection H as -> _.
  f_equal. apply IH; [done|]. intros b. specialize (Hf b). simpl in Hf.
  destruct (of_base b y); [by injection Hf|done].
Qed.

(** [siblingsHighestFirst] ranges over a Go map: any iteration order of the slots
    gives the same list. *)
Lemma siblingsHighestFirst_any_order (l : list RunningProc) (slots : list (string * list nat)) :
  slots ≡ₚ map_to_list (siblingSlots l) ->
  foldl reorderSlots l (snd <$> slots) = siblingsHighestFirst l.
Proof.
  intros Hp.
  assert (snd <$> slots = (fun b => positions (of_base b) l) <$> (fst <$> slots)) as ->.
  { rewrite <- list_fmap_compose. apply list_fmap_ext. intros i [b idx] Hi. simpl.
    apply list_elem_of_lookup_2 in Hi. rewrite Hp in Hi.
    by apply siblingSlots_lookup, elem_of_map_to_list. }
  unfold siblingsHighestFirst. rewrite siblingSlots_values.
  destruct (reorder_all l l (fst <$> slots) eq_refl) as (_ & B1 & F1).
  destruct (reorder_all l l (fst <$> map_to_list (siblingSlots l)) eq_refl) as (_ & B2 & F2).
  assert (NoDup (fst <$> slots)) as Hnd by (rewrite Hp; apply NoDup_fst_map_to_list).
  apply bases_filters_determine; [congruence|]. intros b.
  rewrite F1 by done. rewrite F2 by apply NoDup_fst_map_to_list.
  destruct (decide (b ∈ fst <$> slots)) as [H|H];
    destruct (decide (b ∈ fst <$> map_to_list (siblingSlots l))) as [H'|H']; try done;
    [destruct H'|destruct H]; by rewrite <- Hp || rewrite Hp.
Qed.

(** The drain order of a victim set does not depend on the order the set is
    iterated in. *)
Lemma drain_order_any_order (victims victims' : list RunningProc) :
  unique_ids victims -> victims ≡ₚ victims' ->
  siblingsHighestFirst (sortOldestFirst victims) = siblingsHighestFirst (sortOldestFirst victims').
Proof.
  intros Hu Hp. unfold sortOldestFirst. f_equal. apply sort_Slice_perm_eq; [apply _| |done].
  intros x y Hx Hy H1 H2. eapply unique_ids_inj; eauto using lessOldest_sep.
Qed.

(** ** The lowest GPU of unknown demand *)

Lemma lowestUnknown_spec (es : list (Z * Z)) (acc : option Z) :
  foldl lowestUnknown acc es = None <-> acc = None /\ (forall i, (i, 0) ∉ es).
Proof.
  revert acc. induction es as [|[i v] es IH]; intros acc; simpl.
  - split; [|by intros [-> _]]. intros ->. split; [done|]. intros i ?%elem_of_nil. done.
  - rewrite IH. unfold lowestUnknown. simpl.
    destruct (v =? 0) eqn:Ev; bool_hyps; simpl.
    + subst v. split; [by repeat case_match; intros []|].
      intros [_ H]. destruct (H i). left.
    + split; intros [-> H]; split; [done| |done|]; intros j Hj.
      * apply elem_of_cons in Hj as [?|Hj]; [congruence|]. by apply (H j).
      * apply (H j). by right.
Qed.

Lemma lowestUnknown_min (es : list (Z * Z)) (acc : option Z) (lo : Z) :
  foldl lowestUnknown acc es = Some lo ->
  (acc = Some lo \/ (lo, 0) ∈ es) /\
  (forall i, acc = Some i \/ (i, 0) ∈ es -> lo <= i).
Proof.
  revert acc. induction es as [|[i v] es IH]; intros acc H; simpl in H.
  { subst acc. split; [by left|]. intros i [[= ->]|?%elem_of_nil]; [lia|done]. }
  destruct (IH _ H) as [H1 H2]. clear IH H. unfold lowestUnknown in H1, H2. simpl in *.
  setoid_rewrite elem_of_cons.
  destruct (v =? 0) eqn:Ev; bool_hyps; simpl in *; [subst v|].
  - destruct acc as [k|]; [destruct (i <? k) eqn:Ek; bool_hyps|]; (split;
      [destruct H1 as [[= ->]|?]; auto|]);
      intros j [E|[[= ->]|Hj]]; simplify_eq; eauto; try (apply H2; by eauto);
      match goal with |- ?a <= ?b => first [specialize (H2 i (or_introl eq_refl)); lia
                                           |specialize (H2 k (or_introl eq_refl)); lia] end.
  - split; [destruct H1; auto|]. intros j [E|[E|Hj]]; [auto|congruence|auto].
Qed.

Lemma procHasUnknownVRAM_spec (r : RunningProc) :
  procHasUnknownVRAM r = true <-> exists i, rp_GPUs r !! i = Some 0.
Proof.
  unfold procHasUnknownVRAM, firstUnknownGPU.
  destruct (foldl lowestUnknown None _) as [lo|] eqn:E.
  - split; [|done]. intros _. apply lowestUnknown_min in E as [[?|Hin] _]; [done|].
    exists lo. by apply elem_of_map_to_list.
  - apply lowestUnknown_spec in E as [_ H]. split; [done|].
    intros [i Hi]. destruct (H i). by apply elem_of_map_to_list.
Qed.

(** The GPU an operator-facing message names is the lowest one. *)
Lemma firstUnknownGPU_lowest (r : RunningProc) (lo : Z) :
  firstUnknownGPU r = Some lo ->
  rp_GPUs r !! lo = Some 0 /\ (forall i, rp_GPUs r !! i = Some 0 -> lo <= i).
Proof.
  intros [[?|Hin] Hm]%lowestUnknown_min; [done|].
  apply elem_of_map_to_list in Hin. split; [done|].
  intros i Hi. apply Hm. right. by apply elem_of_map_to_list.
Qed.

Lemma touchesAnyGPU_spec (r : RunningProc) (idx : list Z) :
  touchesAnyGPU r idx = true <-> exists i, i ∈ idx /\ is_Some (rp_GPUs r !! i).
Proof.
  unfold touchesAnyGPU. induction idx as [|i idx IH]; simpl.
  { split; [done|]. by intros (i & ?%elem_of_nil & _). }
  destruct (has_key (rp_GPUs r) i) eqn:E.
  - apply has_key_true in E. split; [|done]. intros _. exists i. split; [left|done].
  - rewrite IH. setoid_rewrite elem_of_cons. split; [naive_solver|].
    intros (j & [->|Hj] & Hs); [|by eauto]. apply has_key_true in Hs. congruence.
Qed.
