(* ===== verification/PolicyRules.v ===== *)
(** * The admission pipeline as a step relation

    Every write a rule of [policy.go] performs on the shared [admission] state is
    one of five steps; the invariant of the state and the monotonicity facts are
    proved once per step and hold for any sequence of rules.  The second half
    says what each rule leaves behind: which processes it queued, and that a
    rule that neither queued nor blocked found its condition satisfied. *)

From Stdlib Require Import ZArith Lia Ascii.
From stdpp Require Import base tactics option list numbers strings pretty gmap relations.
From S2P Require Import Prelude RuntimeTypes Policy PolicyOrder.
Local Open Scope Z_scope.

(** ** Steps *)

Definition knownToucher (gpuIdx : list Z) (r : RunningProc) : bool :=
  touchesAnyGPU r gpuIdx && negb (procHasUnknownVRAM r).

Definition unknownToucher (gpuIdx : list Z) (r : RunningProc) : bool :=
  touchesAnyGPU r gpuIdx && procHasUnknownVRAM r.

Inductive astep (a : admission) : admission -> Prop :=
| astep_queue r : r ∈ adm_running a -> evictable a r = true -> astep a (queue r a)
| astep_block : astep a (block a)
| astep_blockOnRAM : astep a (blockOnRAM a)
| astep_setWaitMessage m : astep a (setWaitMessage m a)
| astep_setBootstrapEvicted r :
    r ∈ adm_running a -> knownToucher (adm_gpuIdx a) r = true -> queued a r = true ->
    adm_unknownVRAM a = true -> ps_VRAMBootstrapEligible (adm_snap a) = true ->
    astep a (setBootstrapEvicted a).

(** The fields no rule writes. *)
Definition same_static (a b : admission) : Prop :=
  adm_snap b = adm_snap a /\ adm_spec b = adm_spec a /\ adm_running b = adm_running a /\
  adm_unknownVRAM b = adm_unknownVRAM a /\ adm_gpuIdx b = adm_gpuIdx a /\
  adm_base b = adm_base a /\ adm_candidateRole b = adm_candidateRole a.

Global Instance same_static_preorder : PreOrder same_static.
Proof.
  split; [by intros a; repeat split|]. unfold same_static. intros a b c ? ?.
  repeat match goal with H : _ /\ _ |- _ => destruct H end. repeat split; congruence.
Qed.

Definition evict_le (a b : admission) : Prop :=
  dom (adm_toEvict a) ⊆ dom (adm_toEvict b) /\ (adm_blocked a = true -> adm_blocked b = true).

Global Instance evict_le_preorder : PreOrder evict_le.
Proof.
  split; [by intros a; split|]. unfold evict_le. intros a b c [H1 H2] [H3 H4].
  split; [by etrans|auto].
Qed.

Lemma astep_static a b : astep a b -> same_static a b.
Proof. destruct 1; repeat split. Qed.

Lemma astep_evict_le a b : astep a b -> evict_le a b.
Proof. destruct 1; split; simpl; try done. rewrite dom_insert. set_solver. Qed.

Lemma rtc_static a b : rtc astep a b -> same_static a b.
Proof. induction 1; [done|]. etrans; eauto using astep_static. Qed.

Lemma rtc_evict_le a b : rtc astep a b -> evict_le a b.
Proof. induction 1; [done|]. etrans; eauto using astep_evict_le. Qed.

Lemma queued_dom a r : queued a r = true <-> rp_SpecID r ∈ dom (adm_toEvict a).
Proof. apply has_key_dom. Qed.

Lemma queued_mono a b r : evict_le a b -> queued a r = true -> queued b r = true.
Proof. rewrite !queued_dom. intros [? _]. set_solver. Qed.

Lemma queued_queue a r r' : queued (queue r a) r' = bool_decide (rp_SpecID r = rp_SpecID r') || queued a r'.
Proof.
  unfold queued, has_key. simpl. rewrite lookup_insert. case_decide as E.
  - rewrite (bool_decide_eq_true_2 (_ = _)) by done. by rewrite bool_decide_eq_true_2.
  - by rewrite (bool_decide_eq_false_2 (_ = _)).
Qed.

Lemma not_blocked_mono a b : evict_le a b -> adm_blocked b = false -> adm_blocked a = false.
Proof. intros [_ H] Hb. destruct (adm_blocked a); [by rewrite H in Hb|done]. Qed.

#[export] Hint Resolve rtc_static rtc_evict_le : go.

(** ** The invariant of the state *)

Lemma higherSiblingStays_false a r :
  higherSiblingStays a r = false <->
  forall o, o ∈ adm_running a -> rp_Instance r < rp_Instance o -> baseOf o = baseOf r ->
            queued a o = true.
Proof.
  unfold higherSiblingStays. split.
  - intros H o Ho Hi Hb.
    destruct (queued a o) eqn:E; [done|]. rewrite <- not_true_iff_false in H.
    destruct H. apply existsb_exists. exists o. split; [by apply list_elem_of_In|].
    rewrite Hb, String.eqb_refl, E. assert ((rp_Instance o <=? rp_Instance r) = false) as ->; [|done].
    apply Z.leb_gt. lia.
  - intros H. apply not_true_iff_false. intros (o & Ho & E)%existsb_exists.
    apply list_elem_of_In in Ho.
    destruct (rp_Instance o <=? rp_Instance r) eqn:E1; simpl in E; [done|].
    destruct (String.eqb (baseOf o) (baseOf r)) eqn:E2; simpl in E; [|done].
    bool_hyps. rewrite H in E; auto. done.
Qed.

Definition may_go (a : admission) (r : RunningProc) : Prop :=
  r ∈ adm_running a /\ mayEvict a r = true /\ higherSiblingStays a r = false.

Record adm_inv (a : admission) : Prop := {
  inv_victims k r : adm_toEvict a !! k = Some r -> k = rp_SpecID r /\ may_go a r;
  inv_bootstrap : adm_bootstrapEvicted a = true ->
    adm_unknownVRAM a = true /\ ps_VRAMBootstrapEligible (adm_snap a) = true /\
    exists r, r ∈ adm_running a /\ knownToucher (adm_gpuIdx a) r = true /\ queued a r = true
}.

Lemma mayEvict_static a b r : same_static a b -> mayEvict b r = mayEvict a r.
Proof. intros (H1 & _ & _ & _ & _ & H2 & _). unfold mayEvict. by rewrite H1, H2. Qed.

Lemma may_go_mono a b r :
  same_static a b -> evict_le a b -> may_go a r -> may_go b r.
Proof.
  intros Hs He (Hr & Hm & Hh). pose proof Hs as (_ & _ & Hrun & _).
  unfold may_go. rewrite Hrun, (mayEvict_static a b) by done. split_and!; [done..|].
  rewrite higherSiblingStays_false in Hh |- *. rewrite Hrun.
  intros o Ho Hi Hb. eapply queued_mono; eauto.
Qed.

Lemma evictable_may_go a r :
  r ∈ adm_running a -> evictable a r = true -> may_go a r.
Proof. unfold evictable, may_go. intros Hr H. bool_hyps. auto. Qed.

Lemma astep_inv a b : astep a b -> adm_inv a -> adm_inv b.
Proof.
  intros Hab [HV HB]. pose proof (astep_static _ _ Hab) as Hs.
  pose proof (astep_evict_le _ _ Hab) as He. split.
  - assert (forall k r, adm_toEvict a !! k = Some r -> k = rp_SpecID r /\ may_go b r) as HV'.
    { intros k r Hk. destruct (HV k r Hk). eauto using may_go_mono. }
    destruct Hab as [r Hr Hev| | | |]; simpl; try exact HV'.
    intros k r'. rewrite lookup_insert. case_decide as E; [|by apply HV'].
    intros [= <-]. split; [done|].
    eapply may_go_mono; eauto using evictable_may_go.
  - destruct Hs as (H1 & _ & H3 & H4 & H5 & _). rewrite H1, H3, H4, H5.
    destruct Hab; simpl; try (intros Hb; destruct (HB Hb) as (? & ? & r' & ? & ? & ?);
      split_and!; [done..|]; exists r'; split_and!; [done..|]; by eapply queued_mono).
    intros _. split_and!; [done..|]. eauto.
Qed.

Lemma rtc_inv a b : rtc astep a b -> adm_inv a -> adm_inv b.
Proof. induction 1; eauto using astep_inv. Qed.

Lemma newAdmission_inv `{Unicode} snap spec : adm_inv (newAdmission snap spec).
Proof. split; simpl; [|done]. intros k r. by rewrite lookup_empty. Qed.

(** ** Every rule is a sequence of steps *)

Lemma foldl_rtc {B} (f : admission -> B -> admission) (l : list B) (a : admission) :
  (forall a' x, x ∈ l -> same_static a a' -> rtc astep a' (f a' x)) ->
  rtc astep a (foldl f a l).
Proof.
  revert a. induction l as [|x l IH]; intros a Hf; simpl; [done|].
  assert (rtc astep a (f a x)) as H by (apply Hf; [left|done]).
  etrans; [exact H|]. apply IH. intros a' y Hy Hs. apply Hf; [by right|].
  etrans; [|exact Hs]. auto with go.
Qed.

Lemma running_static a b r : same_static a b -> r ∈ adm_running a -> r ∈ adm_running b.
Proof. intros (_ & _ & -> & _). done. Qed.

Lemma evictOrBlock_rtc a r : r ∈ adm_running a -> rtc astep a (evictOrBlock a r).
Proof.
  intros Hr. unfold evictOrBlock. destruct (evictable a r) eqn:E; apply rtc_once; by constructor.
Qed.

Lemma ruleMatrix_rtc a : rtc astep a (ruleMatrix a).
Proof.
  apply foldl_rtc. intros a' r Hr Hs. case_match; [done|].
  eauto using evictOrBlock_rtc, running_static.
Qed.

Lemma bootstrapEvictTouchers_rtc a :
  adm_unknownVRAM a = true -> ps_VRAMBootstrapEligible (adm_snap a) = true ->
  rtc astep a (bootstrapEvictTouchers a).
Proof.
  intros HU HE. apply foldl_rtc. intros a' r Hr Hs.
  pose proof (running_static _ _ _ Hs Hr) as Hr'.
  destruct Hs as (Hsn & _ & _ & HU' & Hg & _). rewrite <- Hsn in HE. rewrite <- HU' in HU.
  destruct (negb (touchesAnyGPU r (adm_gpuIdx a')) || procHasUnknownVRAM r) eqn:E; [done|].
  destruct (evictable a' r) eqn:Ev; [|apply rtc_once; constructor].
  eapply rtc_l; [by apply (astep_queue a' r)|]. apply rtc_once.
  apply (astep_setBootstrapEvicted _ r); simpl; [done| | |done|done].
  - unfold knownToucher. bool_hyps. by rewrite H, H0.
  - rewrite queued_queue. by rewrite bool_decide_eq_true_2.
Qed.

Lemma precedence_rtc l a best :
  rtc astep a (foldl precedenceStep (a, best) l).1.
Proof.
  revert a best. induction l as [|r l IH]; intros a best; simpl; [done|].
  destruct (firstSharedGPU r (adm_gpuIdx a)); [|apply IH].
  destruct (procHasUnknownVRAM r); [apply IH|].
  eapply rtc_l; [apply astep_block|]. repeat case_match; apply IH.
Qed.

Lemma blockOnKnownTouchers_rtc a : rtc astep a (blockOnKnownTouchers a).
Proof.
  unfold blockOnKnownTouchers. pose proof (precedence_rtc (adm_running a) a None) as H.
  destruct (foldl _ _ _) as [a' [[b g]|]]; simpl in H; [|done].
  eapply rtc_r; [done|]. constructor.
Qed.

Lemma ruleUnknownVRAMCandidate_rtc a : rtc astep a (ruleUnknownVRAMCandidate a).
Proof.
  unfold ruleUnknownVRAMCandidate.
  destruct (adm_unknownVRAM a) eqn:?; simpl; [|done].
  case_match; auto using bootstrapEvictTouchers_rtc, blockOnKnownTouchers_rtc.
Qed.

Lemma ruleUnknownVRAMOccupant_rtc a : rtc astep a (ruleUnknownVRAMOccupant a).
Proof.
  apply foldl_rtc. intros a' r Hr Hs. case_match; [done|].
  eauto using evictOrBlock_rtc, running_static.
Qed.

Lemma drawUntilFits_rtc freed budget l a sum :
  (forall r, r ∈ l -> r ∈ adm_running a) -> rtc astep a (drawUntilFits freed budget l a sum).1.
Proof.
  revert a sum. induction l as [|r l IH]; intros a sum Hl; simpl; [done|].
  destruct (sum <=? budget); [done|].
  destruct (evictable a r) eqn:E; simpl.
  - eapply rtc_l; [apply (astep_queue a r); [apply Hl; left|done]|].
    apply IH. intros r' Hr'. apply Hl. by right.
  - apply IH. intros r' Hr'. apply Hl. by right.
Qed.

Lemma drawCount_rtc deficit l a n :
  (forall r, r ∈ l -> r ∈ adm_running a) -> rtc astep a (drawCount deficit l a n).1.
Proof.
  revert a n. induction l as [|r l IH]; intros a n Hl; simpl; [done|].
  destruct (n =? deficit); [done|].
  destruct (evictable a r) eqn:E; simpl.
  - eapply rtc_l; [apply (astep_queue a r); [apply Hl; left|done]|].
    apply IH. intros r' Hr'. apply Hl. by right.
  - apply IH. intros r' Hr'. apply Hl. by right.
Qed.


(** ** Accounting *)

(** The amount of one resource held by a list of processes. *)
Definition total (amount : RunningProc -> option Z) (l : list RunningProc) : Z :=
  foldr (fun r s => default 0 (amount r) + s) 0 l.

Definition unqueued (a : admission) : list RunningProc :=
  List.filter (fun r => negb (queued a r)) (adm_running a).

Section accounting.
Context (amount : RunningProc -> option Z).

Lemma total_app l1 l2 : total amount (l1 ++ l2) = total amount l1 + total amount l2.
Proof. induction l1 as [|r l1 IH]; [done|]. simpl. rewrite IH. lia. Qed.

Lemma total_perm l1 l2 : l1 ≡ₚ l2 -> total amount l1 = total amount l2.
Proof. induction 1; simpl; lia. Qed.

Lemma total_nonneg l :
  (forall r, r ∈ l -> 0 <= default 0 (amount r)) -> 0 <= total amount l.
Proof.
  induction l as [|r l IH]; intros H; simpl; [lia|].
  assert (0 <= default 0 (amount r)) by (apply H; left).
  assert (0 <= total amount l) by (apply IH; intros; apply H; by right). lia.
Qed.

Lemma total_bound l (m : Z) :
  (forall r, r ∈ l -> default 0 (amount r) <= m) ->
  total amount l <= Z.of_nat (length l) * m.
Proof.
  induction l as [|r l IH]; intros H; [simpl; lia|].
  change (total amount (r :: l)) with (default 0 (amount r) + total amount l).
  change (length (r :: l)) with (S (length l)). rewrite Nat2Z.inj_succ.
  assert (default 0 (amount r) <= m) by (apply H; left).
  assert (total amount l <= Z.of_nat (length l) * m) by (apply IH; intros; apply H; by right). nia.
Qed.

Lemma total_filter_le (p : RunningProc -> bool) l :
  (forall r, r ∈ l -> 0 <= default 0 (amount r)) ->
  total amount (List.filter p l) <= total amount l.
Proof.
  induction l as [|r l IH]; intros H; simpl; [lia|].
  assert (0 <= default 0 (amount r)) by (apply H; left).
  assert (total amount (List.filter p l) <= total amount l) by (apply IH; intros; apply H; by right).
  destruct (p r); simpl; lia.
Qed.

(** Dropping one process of a list with unique keys. *)
Lemma total_remove l r :
  unique_ids l -> r ∈ l ->
  total amount (List.filter (fun x => negb (bool_decide (rp_SpecID r = rp_SpecID x))) l)
  = total amount l - default 0 (amount r).
Proof.
  unfold unique_ids. induction l as [|x l IH]; [by intros _ ?%elem_of_nil|].
  rewrite fmap_cons, NoDup_cons. intros [Hx Hnd] Hr. simpl.
  destruct (decide (rp_SpecID r = rp_SpecID x)) as [E|E].
  - rewrite (bool_decide_eq_true_2 _ E). simpl.
    assert (r = x) as ->.
    { apply elem_of_cons in Hr as [->|Hr]; [done|]. destruct Hx. rewrite <- E.
      by apply list_elem_of_fmap_2. }
    assert (List.filter (fun y => negb (bool_decide (rp_SpecID x = rp_SpecID y))) l = l) as ->; [|lia].
    clear -Hx. induction l as [|y l IH]; [done|]. rewrite fmap_cons, not_elem_of_cons in Hx.
    destruct Hx as [Hxy Hx]. simpl. rewrite bool_decide_eq_false_2 by done. simpl. f_equal. auto.
  - rewrite (bool_decide_eq_false_2 _ E). simpl.
    apply elem_of_cons in Hr as [->|Hr]; [done|]. rewrite IH by done. lia.
Qed.

Lemma unqueued_queue a r :
  unqueued (queue r a) =
    List.filter (fun x => negb (bool_decide (rp_SpecID r = rp_SpecID x))) (unqueued a).
Proof.
  unfold unqueued. simpl. induction (adm_running a) as [|x l IH]; [done|]. simpl.
  rewrite queued_queue, negb_orb.
  destruct (queued a x); simpl; [by rewrite andb_false_r|]. rewrite andb_true_r.
  destruct (negb (bool_decide (rp_SpecID r = rp_SpecID x))); simpl; by rewrite IH.
Qed.

Lemma unqueued_elem a r : r ∈ unqueued a <-> r ∈ adm_running a /\ queued a r = false.
Proof. unfold unqueued. by rewrite elem_of_filter_bool, negb_true_iff. Qed.

End accounting.

(** ** The pools: rules 3 and 6 *)

(** Amounts in MB stay below 2^40 (a million terabytes) and a host runs fewer
    than 2^20 processes, so no sum leaves the range of an [int]. *)
Definition MB_bound : Z := 2 ^ 40.
Definition procs_bound : Z := 2 ^ 20.

Definition bounded (amount : RunningProc -> option Z) (l : list RunningProc) : Prop :=
  forall r, r ∈ l -> 0 <= default 0 (amount r) <= MB_bound.

Section pool.
Context (amount : RunningProc -> option Z) (own : Z) (a0 : admission).
Context (Hb : bounded amount (adm_running a0)) (Hown : 0 <= own <= MB_bound).
Context (Hlen : Z.of_nat (length (adm_running a0)) <= procs_bound).

Lemma total_in_range l :
  (forall r, r ∈ l -> r ∈ adm_running a0) -> Z.of_nat (length l) <= procs_bound ->
  0 <= total amount l /\ in_int64 (own + total amount l).
Proof.
  intros Hl Hn.
  assert (0 <= total amount l) as H0.
  { apply total_nonneg. intros r Hr. by apply Hb, Hl. }
  assert (total amount l <= Z.of_nat (length l) * MB_bound) as H1.
  { apply total_bound. intros r Hr. by apply Hb, Hl. }
  split; [done|]. unfold in_int64, int64_min, int64_max, MB_bound, procs_bound in *. nia.
Qed.

Lemma collectHolders_spec a :
  same_static a0 a ->
  collectHolders amount a own =
    (own + total amount (unqueued a),
     List.filter (fun r => negb (queued a r) && bool_decide (is_Some (amount r))) (adm_running a)).
Proof.
  intros (_ & _ & Hrun & _). unfold collectHolders, unqueued. rewrite Hrun.
  pose proof (fun r (H : r ∈ adm_running a0) => H) as Hsub. revert Hsub Hlen.
  generalize (adm_running a0) at 1 3 4 5 6 as l.
  induction l as [|r l IH] using rev_ind; intros Hsub Hn; simpl.
  { f_equal. unfold total. simpl. lia. }
  rewrite length_app in Hn. simpl in Hn.
  rewrite foldl_snoc, IH; [|intros x Hx; apply Hsub, elem_of_app; by left|lia].
  rewrite !List.filter_app. simpl. destruct (queued a r); simpl; [by rewrite !app_nil_r|].
  rewrite total_app. simpl. destruct (amount r) as [v|] eqn:Ev; simpl.
  - f_equal. rewrite int64_id; [lia|].
    assert (own + total amount (List.filter (fun r => negb (queued a r)) l) + v
            = own + total amount (List.filter (fun r => negb (queued a r)) l ++ [r])) as ->.
    { rewrite total_app. simpl. rewrite Ev. simpl. lia. }
    apply total_in_range.
    + intros x [Hx|Hx]%elem_of_app; apply Hsub, elem_of_app; [left|by right].
      by apply elem_of_filter_bool in Hx as [].
    + rewrite length_app. simpl. pose proof (List.filter_length_le (fun r => negb (queued a r)) l).
      lia.
  - rewrite app_nil_r. f_equal. lia.
Qed.

Lemma unqueued_length a : same_static a0 a -> Z.of_nat (length (unqueued a)) <= procs_bound.
Proof.
  intros (_ & _ & Hrun & _). unfold unqueued. rewrite Hrun.
  pose proof (List.filter_length_le (fun r => negb (queued a r)) (adm_running a0)). lia.
Qed.

Lemma unqueued_sub a r : same_static a0 a -> r ∈ unqueued a -> r ∈ adm_running a0.
Proof. intros (_ & _ & Hrun & _). rewrite unqueued_elem, Hrun. by intros []. Qed.

Lemma queue_static a b r : same_static a b -> same_static a (queue r b).
Proof. done. Qed.

(** The drawing loop keeps its sum equal to what the unqueued processes hold. *)
Lemma drawUntilFits_sum freed budget l a :
  same_static a0 a -> unique_ids (adm_running a0) -> unique_ids l ->
  (forall r, r ∈ l -> r ∈ unqueued a /\ amount r = Some (freed r)) ->
  let res := drawUntilFits freed budget l a (own + total amount (unqueued a)) in
  res.2 = own + total amount (unqueued res.1).
Proof.
  intros Hs Hu. revert a Hs. induction l as [|r l IH]; intros a Hs Hul Hl; simpl; [done|].
  unfold unique_ids in Hul. rewrite fmap_cons, NoDup_cons in Hul. destruct Hul as [Hr Hul].
  destruct (_ <=? budget); [done|].
  destruct (evictable a r); simpl; [|apply IH; auto; intros; apply Hl; by right].
  destruct (Hl r ltac:(left)) as [Hrq Hra].
  assert (unique_ids (unqueued a)) as Huq.
  { apply unique_ids_filter. by destruct Hs as (_ & _ & -> & _). }
  assert (int64 (own + total amount (unqueued a) - freed r)
          = own + total amount (unqueued (queue r a))) as ->.
  { rewrite unqueued_queue, total_remove by done. rewrite Hra. simpl.
    assert (freed r <= total amount (unqueued a)) as Hle.
    { pose proof (total_remove amount _ _ Huq Hrq) as E. rewrite Hra in E. simpl in E.
      assert (0 <= total amount (List.filter
        (fun x => negb (bool_decide (rp_SpecID r = rp_SpecID x))) (unqueued a))); [|lia].
      apply total_nonneg. intros x Hx. apply elem_of_filter_bool in Hx as [Hx _].
      by eapply Hb, unqueued_sub. }
    rewrite int64_id; [lia|].
    destruct (total_in_range (unqueued a)) as [? Hi];
      eauto using unqueued_sub, unqueued_length.
    assert (0 <= freed r) as Hf0.
    { specialize (Hb r). rewrite Hra in Hb. simpl in Hb. eapply Hb, unqueued_sub; eauto. }
    unfold in_int64 in *. unfold int64_min in *. lia. }
  apply IH; auto. intros x Hx. destruct (Hl x ltac:(by right)) as [Hxq ?]. split; [|done].
  rewrite unqueued_elem in Hxq |- *. rewrite queued_queue. destruct Hxq as [? ->].
  split; [done|]. rewrite bool_decide_eq_false_2; [done|]. intros E. destruct Hr. rewrite E.
  by apply list_elem_of_fmap_2.
Qed.

End pool.

Lemma orderVictims_elem a l r : r ∈ orderVictims a l <-> r ∈ l.
Proof. by rewrite orderVictims_perm. Qed.

Lemma evictableOf_elem a l r : r ∈ evictableOf a l <-> r ∈ l /\ mayEvict a r = true.
Proof. apply elem_of_filter_bool. Qed.

(** The victims a pool draws on: running, unqueued, holding the resource. *)
Lemma pool_victims (amount : RunningProc -> option Z) a r :
  r ∈ orderVictims a (evictableOf a
        (List.filter (fun r => negb (queued a r) && bool_decide (is_Some (amount r)))
           (adm_running a))) ->
  r ∈ unqueued a /\ is_Some (amount r).
Proof.
  rewrite orderVictims_elem, evictableOf_elem, elem_of_filter_bool, unqueued_elem.
  intros [[Hr H] _]. bool_hyps. auto.
Qed.

Lemma pool_victims_unique p a :
  unique_ids (adm_running a) ->
  unique_ids (orderVictims a (evictableOf a (List.filter p (adm_running a)))).
Proof.
  intros Hu. eapply unique_ids_perm; [symmetry; apply orderVictims_perm|].
  unfold evictableOf. by do 2 apply unique_ids_filter.
Qed.

(** *** The pool rules are sequences of steps, whatever the amounts *)

Lemma collectHolders_running amount a own r :
  r ∈ (collectHolders amount a own).2 -> r ∈ adm_running a.
Proof.
  unfold collectHolders.
  enough (forall l acc, (forall x, x ∈ acc.2 -> x ∈ adm_running a) ->
    (forall x, x ∈ l -> x ∈ adm_running a) ->
    r ∈ (foldl (fun (acc : Z * list RunningProc) r =>
      if queued a r then acc
      else match amount r with None => acc | Some v => (int64 (acc.1 + v), acc.2 ++ [r]) end)
      acc l).2 -> r ∈ adm_running a) as H.
  { apply H; [|done]. intros x ?%elem_of_nil. done. }
  induction l as [|x l IH]; intros acc Hacc Hl; simpl; [apply Hacc|].
  apply IH; [|intros y Hy; apply Hl; by right].
  destruct (queued a x); [done|]. destruct (amount x); [|done]. simpl.
  intros y [Hy|Hy]%elem_of_app; [auto|]. apply list_elem_of_singleton in Hy as ->. apply Hl. left.
Qed.

Lemma pool_draw_rtc amount freed budget a own :
  let col := collectHolders amount a own in
  rtc astep a (drawUntilFits freed budget (orderVictims a (evictableOf a col.2)) a col.1).1.
Proof.
  apply drawUntilFits_rtc. intros r. rewrite orderVictims_elem, evictableOf_elem.
  intros [Hr _]. by eapply collectHolders_running.
Qed.

Lemma chargeGPUBudget_rtc a g : rtc astep a (chargeGPUBudget a g).
Proof.
  unfold chargeGPUBudget. do 2 (case_match; [done|]).
  pose proof (pool_draw_rtc (fun r => rp_GPUs r !! gpu_Index g)
    (fun r => map_get 0 (rp_GPUs r) (gpu_Index g))
    (map_get 0 (ps_Budgets (adm_snap a)) (gpu_Index g)) a (gpu_VRAMMB g)) as Hd. cbv zeta in Hd.
  destruct (collectHolders _ _ _) as [sum touchers]. case_match; [done|]. simpl in Hd.
  destruct (drawUntilFits _ _ _ _ _) as [b sum']. simpl in Hd.
  case_match; [|done]. eapply rtc_r; [done|constructor].
Qed.

Lemma rulePerGPUVRAM_rtc a : rtc astep a (rulePerGPUVRAM a).
Proof. apply foldl_rtc. auto using chargeGPUBudget_rtc. Qed.

Lemma ruleHostRAM_rtc a : rtc astep a (ruleHostRAM a).
Proof.
  unfold ruleHostRAM. case_match; [done|]. case_match; [apply rtc_once; constructor|].
  set (own := if specHasUnknownRAM _ then _ else _). case_match; [done|].
  pose proof (pool_draw_rtc ramHolder rp_RAMMB (ps_HostRAMBudgetMB (adm_snap a)) a own) as Hd.
  cbv zeta in Hd. destruct (collectHolders _ _ _) as [sum holders]. case_match; [done|].
  simpl in Hd. destruct (drawUntilFits _ _ _ _ _) as [b sum']. simpl in Hd.
  case_match; [|done]. eapply rtc_r; [done|constructor].
Qed.

Lemma ruleProcessCount_rtc a : rtc astep a (ruleProcessCount a).
Proof.
  unfold ruleProcessCount. do 2 (case_match; [done|]).
  match goal with |- context [drawCount ?d ?l ?x ?n] =>
    assert (rtc astep a (drawCount d l x n).1) as Hd end.
  { apply drawCount_rtc. intros r. rewrite orderVictims_elem, elem_of_filter_bool. by intros []. }
  destruct (drawCount _ _ _ _) as [b drawn]. simpl in Hd.
  case_match; [|done]. eapply rtc_r; [done|constructor].
Qed.

Lemma runRules_rtc a : rtc astep a (runRules a).
Proof.
  unfold runRules. etrans; [|apply ruleProcessCount_rtc].
  etrans; [|apply ruleHostRAM_rtc].
  etrans; [|apply rulePerGPUVRAM_rtc].
  etrans; [|apply ruleUnknownVRAMOccupant_rtc].
  etrans; [apply ruleMatrix_rtc|apply ruleUnknownVRAMCandidate_rtc].
Qed.

Definition gpuAmount (i : Z) (r : RunningProc) : option Z := rp_GPUs r !! i.

Section pool_rules.
Context (a0 : admission) (Hu : unique_ids (adm_running a0)).
Context (Hlen : Z.of_nat (length (adm_running a0)) <= procs_bound).

(** One pass over a pool: what is drawn makes the rest fit, or the sum says it
    does not. *)
Lemma pool_pass amount own freed budget a :
  bounded amount (adm_running a0) -> 0 <= own <= MB_bound ->
  (forall r, is_Some (amount r) -> amount r = Some (freed r)) -> same_static a0 a ->
  let col := collectHolders amount a own in
  let res := drawUntilFits freed budget (orderVictims a (evictableOf a col.2)) a col.1 in
  col.1 = own + total amount (unqueued a) /\
  res.2 = own + total amount (unqueued res.1).
Proof.
  intros Hb Hown Hf Hs. rewrite (collectHolders_spec amount own a0 Hb Hown Hlen a Hs).
  cbv zeta. cbn [fst snd]. split; [done|]. pose proof Hs as (_ & _ & Hrun & _).
  eapply drawUntilFits_sum; eauto.
  - apply pool_victims_unique. by rewrite Hrun.
  - intros r Hr. apply pool_victims in Hr as [? ?]. auto.
Qed.

Lemma chargeGPUBudget_post a g :
  (forall i, bounded (gpuAmount i) (adm_running a0)) -> 0 <= gpu_VRAMMB g <= MB_bound ->
  same_static a0 a ->
  adm_blocked (chargeGPUBudget a g) = false -> gpu_VRAMMB g <> 0 ->
  0 < map_get 0 (ps_Budgets (adm_snap a0)) (gpu_Index g) ->
  gpu_VRAMMB g + total (gpuAmount (gpu_Index g)) (unqueued (chargeGPUBudget a g))
    <= map_get 0 (ps_Budgets (adm_snap a0)) (gpu_Index g).
Proof.
  intros Hb Hown Hs. unfold chargeGPUBudget.
  assert (adm_snap a = adm_snap a0) as -> by apply Hs.
  set (budget := map_get 0 (ps_Budgets (adm_snap a0)) (gpu_Index g)).
  destruct (gpu_VRAMMB g =? 0) eqn:E0; bool_hyps; [done|].
  destruct (budget <=? 0) eqn:E1; bool_hyps; [intros; lia|].
  pose proof (pool_pass (gpuAmount (gpu_Index g)) (gpu_VRAMMB g)
    (fun r => map_get 0 (rp_GPUs r) (gpu_Index g)) budget a (Hb _) Hown) as H.
  change (fun r => rp_GPUs r !! gpu_Index g) with (gpuAmount (gpu_Index g)).
  cbv zeta in H. destruct H as (H1 & H2); [|done|].
  { intros r [v Hv]. unfold gpuAmount, map_get in *. by rewrite Hv. }
  destruct (collectHolders _ a _) as [sum touchers]. simpl in *.
  destruct (sum <=? budget) eqn:E2; bool_hyps; [intros; lia|].
  destruct (drawUntilFits _ _ _ _ _) as [b sum']. simpl in *.
  destruct (budget <? sum') eqn:E3; bool_hyps; simpl; [done|intros; lia].
Qed.

Definition ramDemand (snap : PolicySnapshot) (spec : Spec) : Z :=
  if specHasUnknownRAM spec then ps_RAMBootstrapGuessMB snap else spec_RAMMB spec.

Lemma ruleHostRAM_post a :
  bounded ramHolder (adm_running a0) -> ramDemand (adm_snap a0) (adm_spec a0) <= MB_bound ->
  same_static a0 a ->
  adm_blocked (ruleHostRAM a) = false -> 0 < ps_HostRAMBudgetMB (adm_snap a0) ->
  ps_RAMBootstrapInFlight (adm_snap a0) = false /\
  (0 < ramDemand (adm_snap a0) (adm_spec a0) ->
   ramDemand (adm_snap a0) (adm_spec a0) + total ramHolder (unqueued (ruleHostRAM a))
     <= ps_HostRAMBudgetMB (adm_snap a0)).
Proof.
  intros Hb Hd Hs. unfold ruleHostRAM.
  assert (adm_snap a = adm_snap a0) as -> by apply Hs.
  assert (adm_spec a = adm_spec a0) as -> by apply Hs.
  fold (ramDemand (adm_snap a0) (adm_spec a0)).
  set (own := ramDemand (adm_snap a0) (adm_spec a0)) in *.
  set (budget := ps_HostRAMBudgetMB (adm_snap a0)).
  destruct (budget <=? 0) eqn:E0; bool_hyps; [intros; lia|].
  destruct (ps_RAMBootstrapInFlight (adm_snap a0)); [done|].
  destruct (own <=? 0) eqn:E1; bool_hyps; [intros; split; [done|lia]|].
  pose proof (pool_pass ramHolder own rp_RAMMB budget a Hb ltac:(lia)) as H.
  cbv zeta in H. destruct H as (H1 & H2); [|done|].
  { intros r. unfold ramHolder. by destruct (rp_RAMMB r <=? 0); intros []. }
  destruct (collectHolders _ a _) as [sum holders]. simpl in *.
  destruct (sum <=? budget) eqn:E2; bool_hyps; [intros; split; [done|lia]|].
  destruct (drawUntilFits _ _ _ _ _) as [b sum']. simpl in *.
  destruct (budget <? sum') eqn:E3; bool_hyps; simpl; [done|]. intros; split; [done|lia].
Qed.

End pool_rules.
