(* ===== verification/PolicyFits.v ===== *)
(** * What an admission decision promises about resources

    [fits] is the declarative reading of the admission rule: the candidate and the
    processes it would run beside satisfy the co-residency matrix, the
    unknown-VRAM-alone rule from both sides, every GPU budget, the host-RAM pool
    and the process limit.  The pipeline of [policy.go] is shown to leave a set
    that fits whenever it does not block, and to change nothing when the running
    set fits already. *)

From Stdlib Require Import ZArith Lia Ascii.
From stdpp Require Import base tactics option list numbers strings pretty gmap relations.
From S2P Require Import Prelude RuntimeTypes Policy PolicyOrder PolicyRules.
Local Open Scope Z_scope.

(** ** The declarative rule *)

Record fits (snap : PolicySnapshot) (spec : Spec) (R : list RunningProc) : Prop := {
  fits_matrix r : r ∈ R -> pairAllowed (ps_Allowed snap) (specBase spec) r = true;
  fits_alone r : specHasUnknownVRAM spec = true -> r ∈ R ->
    touchesAnyGPU r (specGPUIndexes spec) = false;
  fits_occupant r : r ∈ R -> unknownToucher (specGPUIndexes spec) r = false;
  fits_vram g : g ∈ spec_GPUs spec -> gpu_VRAMMB g <> 0 ->
    0 < map_get 0 (ps_Budgets snap) (gpu_Index g) ->
    gpu_VRAMMB g + total (gpuAmount (gpu_Index g)) R <= map_get 0 (ps_Budgets snap) (gpu_Index g);
  fits_ram : 0 < ps_HostRAMBudgetMB snap ->
    ps_RAMBootstrapInFlight snap = false /\
    (0 < ramDemand snap spec ->
     ramDemand snap spec + total ramHolder R <= ps_HostRAMBudgetMB snap);
  fits_count : 0 < ps_MaxProcesses snap -> Z.of_nat (length R) + 1 <= ps_MaxProcesses snap
}.

(** The processes the candidate is weighed against: all but its own. *)
Definition others (snap : PolicySnapshot) (spec : Spec) : list RunningProc :=
  List.filter (fun r => negb (String.eqb (rp_SpecID r) (spec_ID spec))) (ps_Running snap).

(** Amounts are non-negative, no sum can overflow. *)
Record amounts_ok (snap : PolicySnapshot) (spec : Spec) : Prop := {
  ao_gpu i : bounded (gpuAmount i) (ps_Running snap);
  ao_ram : bounded ramHolder (ps_Running snap);
  ao_spec g : g ∈ spec_GPUs spec -> 0 <= gpu_VRAMMB g <= MB_bound;
  ao_demand : 0 <= ramDemand snap spec <= MB_bound;
  ao_len : Z.of_nat (length (ps_Running snap)) <= procs_bound
}.

Definition unique_running (snap : PolicySnapshot) : Prop := unique_ids (ps_Running snap).

Lemma newAdmission_running `{Unicode} snap spec :
  adm_running (newAdmission snap spec) ≡ₚ others snap spec.
Proof. apply sort_Slice_perm. Qed.

Lemma others_sub snap spec r : r ∈ others snap spec -> r ∈ ps_Running snap.
Proof. by intros []%elem_of_filter_bool. Qed.

Lemma bounded_sub amount l l' :
  (forall r, r ∈ l' -> r ∈ l) -> bounded amount l -> bounded amount l'.
Proof. unfold bounded. eauto. Qed.

(** ** What each rule leaves behind *)

Lemma foldl_covers (cond : RunningProc -> bool) (f : admission -> RunningProc -> admission) l a :
  (forall a' r, r ∈ l -> same_static a a' -> rtc astep a' (f a' r)) ->
  (forall a' r, r ∈ l -> same_static a a' -> cond r = true ->
     adm_blocked (f a' r) = false -> queued (f a' r) r = true) ->
  adm_blocked (foldl f a l) = false ->
  forall r, r ∈ l -> cond r = true -> queued (foldl f a l) r = true.
Proof.
  revert a. induction l as [|x l IH]; intros a Hf Hc Hnb r Hr Hcr; [by apply elem_of_nil in Hr|].
  simpl in *. assert (rtc astep a (f a x)) as Hstep by (apply Hf; [left|done]).
  assert (forall a', same_static (f a x) a' -> same_static a a') as Hst.
  { intros a' ?. etrans; [by apply rtc_static|done]. }
  assert (rtc astep (f a x) (foldl f (f a x) l)) as Hrest.
  { apply foldl_rtc. intros. apply Hf; [by right|auto]. }
  apply elem_of_cons in Hr as [->|Hr].
  - eapply queued_mono; [by apply rtc_evict_le|].
    apply Hc; [left|done|done|]. eapply not_blocked_mono; [by apply rtc_evict_le|done].
  - apply IH; auto; intros; [apply Hf|apply Hc]; auto; by right.
Qed.

Lemma evictOrBlock_queued a r : adm_blocked (evictOrBlock a r) = false -> queued (evictOrBlock a r) r = true.
Proof.
  unfold evictOrBlock. case_match; [|done]. intros _. rewrite queued_queue.
  by rewrite bool_decide_eq_true_2.
Qed.

Lemma ruleMatrix_post a r :
  adm_blocked (ruleMatrix a) = false -> r ∈ adm_running a ->
  pairAllowed (ps_Allowed (adm_snap a)) (adm_base a) r = false -> queued (ruleMatrix a) r = true.
Proof.
  intros Hnb Hr Hp.
  apply (foldl_covers (fun r => negb (pairAllowed (ps_Allowed (adm_snap a)) (adm_base a) r)));
    [| |done|done|by rewrite Hp].
  - intros a' x Hx Hs. case_match; [done|]. eauto using evictOrBlock_rtc, running_static.
  - intros a' x Hx (Hsn & _ & _ & _ & _ & Hb & _) Hc. rewrite Hsn, Hb. bool_hyps.
    rewrite Hc. apply evictOrBlock_queued.
Qed.

Lemma ruleUnknownVRAMOccupant_post a r :
  adm_blocked (ruleUnknownVRAMOccupant a) = false -> r ∈ adm_running a ->
  unknownToucher (adm_gpuIdx a) r = true -> queued (ruleUnknownVRAMOccupant a) r = true.
Proof.
  intros Hnb Hr Hp.
  apply (foldl_covers (unknownToucher (adm_gpuIdx a))); [| |done|done|done].
  - intros a' x Hx Hs. case_match; [done|]. eauto using evictOrBlock_rtc, running_static.
  - intros a' x Hx (_ & _ & _ & _ & Hg & _) Hc. rewrite Hg. unfold unknownToucher in Hc. bool_hyps.
    rewrite H, H0. simpl. apply evictOrBlock_queued.
Qed.

Lemma bootstrapEvictTouchers_post a r :
  adm_unknownVRAM a = true -> ps_VRAMBootstrapEligible (adm_snap a) = true ->
  adm_blocked (bootstrapEvictTouchers a) = false -> r ∈ adm_running a ->
  knownToucher (adm_gpuIdx a) r = true -> queued (bootstrapEvictTouchers a) r = true.
Proof.
  intros HU HE Hnb Hr Hp.
  apply (foldl_covers (knownToucher (adm_gpuIdx a))); [| |done|done|done].
  - intros a' x Hx Hs. pose proof (running_static _ _ _ Hs Hx) as Hx'.
    destruct Hs as (Hsn & _ & _ & HU' & Hg & _).
    destruct (negb _ || _) eqn:E; [done|]. destruct (evictable a' x) eqn:Ev.
    + eapply rtc_l; [by apply (astep_queue a' x)|]. apply rtc_once.
      apply (astep_setBootstrapEvicted _ x); simpl; [done| | |congruence|congruence].
      * unfold knownToucher. bool_hyps. by rewrite H, H0.
      * rewrite queued_queue. by rewrite bool_decide_eq_true_2.
    + apply rtc_once. constructor.
  - intros a' x Hx (_ & _ & _ & _ & Hg & _) Hc. rewrite Hg. unfold knownToucher in Hc. bool_hyps.
    rewrite H, H0. simpl. case_match; [|done]. intros _.
    change (queued (setBootstrapEvicted (queue x a')) x) with (queued (queue x a') x).
    rewrite queued_queue. by rewrite bool_decide_eq_true_2.
Qed.

Lemma precedence_blocked l a best :
  (adm_blocked (foldl precedenceStep (a, best) l).1 = false ->
   forall r, r ∈ l -> knownToucher (adm_gpuIdx a) r = false).
Proof.
  revert a best. induction l as [|x l IH]; intros a best Hnb r Hr; [by apply elem_of_nil in Hr|].
  simpl in Hnb.
  unfold knownToucher, touchesAnyGPU.
  destruct (firstSharedGPU x (adm_gpuIdx a)) as [gpu|] eqn:Eg; [destruct (procHasUnknownVRAM x) eqn:Eu|].
  - apply elem_of_cons in Hr as [->|Hr]; [by rewrite Eg, Eu|]. by eapply (IH a best).
  - exfalso. assert (forall best', adm_blocked (foldl precedenceStep (block a, best') l).1 = true) as Hb.
    { intros best'. by apply (rtc_evict_le _ _ (precedence_rtc l (block a) best')). }
    destruct best as [[b g]|]; [destruct (String.ltb _ _)|]; by rewrite Hb in Hnb.
  - apply elem_of_cons in Hr as [->|Hr]; [by rewrite Eg|]. by eapply (IH a best).
Qed.

Lemma blockOnKnownTouchers_post a r :
  adm_blocked (blockOnKnownTouchers a) = false -> r ∈ adm_running a ->
  knownToucher (adm_gpuIdx a) r = false.
Proof.
  unfold blockOnKnownTouchers. pose proof (precedence_blocked (adm_running a) a None) as H.
  destruct (foldl _ _ _) as [b [[x g]|]]; simpl in *; auto.
Qed.

(** Rule 4, either arm: a known-demand toucher that is left is queued, and in the
    steady-state arm there is none. *)
Lemma ruleUnknownVRAMCandidate_post a r :
  adm_blocked (ruleUnknownVRAMCandidate a) = false -> adm_unknownVRAM a = true ->
  r ∈ adm_running a -> knownToucher (adm_gpuIdx a) r = true ->
  ps_VRAMBootstrapEligible (adm_snap a) = true /\ queued (ruleUnknownVRAMCandidate a) r = true.
Proof.
  unfold ruleUnknownVRAMCandidate. intros Hnb HU Hr Hk. rewrite HU in *. simpl in *.
  destruct (ps_VRAMBootstrapEligible (adm_snap a)) eqn:HE.
  - auto using bootstrapEvictTouchers_post.
  - pose proof (blockOnKnownTouchers_post a r Hnb Hr). congruence.
Qed.

(** ** Rule 2: counting *)

Lemma queue_count a :
  adm_inv a -> unique_ids (adm_running a) ->
  (length (unqueued a) + size (adm_toEvict a) = length (adm_running a))%nat.
Proof.
  intros [HV _] Hu. unfold unqueued.
  rewrite <- (List.filter_length (queued a) (adm_running a)).
  assert (size (adm_toEvict a) = length (List.filter (queued a) (adm_running a))) as ->; [|lia].
  rewrite <- size_dom.
  assert (dom (adm_toEvict a) = list_to_set (rp_SpecID <$> List.filter (queued a) (adm_running a)))
    as ->.
  { apply set_eq. intros k. rewrite elem_of_list_to_set, list_elem_of_fmap.
    setoid_rewrite elem_of_filter_bool. split.
    - intros [r Hr]%elem_of_dom. destruct (HV k r Hr) as [-> (Hin & _)]. exists r.
      rewrite queued_dom. split_and!; [done..|]. by apply elem_of_dom_2 in Hr.
    - intros (r & -> & _ & Hq). by apply queued_dom. }
  rewrite size_list_to_set; [by rewrite length_fmap|]. by apply unique_ids_filter.
Qed.

Lemma drawCount_size deficit l a n :
  unique_ids l -> (forall r, r ∈ l -> queued a r = false) ->
  let res := drawCount deficit l a n in
  Z.of_nat (size (adm_toEvict res.1)) = Z.of_nat (size (adm_toEvict a)) + (res.2 - n).
Proof.
  revert a n. induction l as [|r l IH]; intros a n Hul Hl; simpl; [lia|].
  unfold unique_ids in Hul. rewrite fmap_cons, NoDup_cons in Hul. destruct Hul as [Hr Hul].
  destruct (n =? deficit); simpl; [lia|].
  destruct (evictable a r); simpl; [|apply IH; auto; intros; apply Hl; by right].
  rewrite IH; [|done|].
  - simpl. rewrite map_size_insert_None; [lia|].
    specialize (Hl r ltac:(left)). apply has_key_false in Hl. by apply not_elem_of_dom.
  - intros x Hx. rewrite queued_queue, Hl by (by right).
    rewrite bool_decide_eq_false_2; [done|]. intros E. destruct Hr. rewrite E.
    by apply list_elem_of_fmap_2.
Qed.

Lemma ruleProcessCount_post a :
  adm_inv a -> unique_ids (adm_running a) ->
  adm_blocked (ruleProcessCount a) = false -> 0 < ps_MaxProcesses (adm_snap a) ->
  Z.of_nat (length (unqueued (ruleProcessCount a))) + 1 <= ps_MaxProcesses (adm_snap a).
Proof.
  intros Hinv Hu Hnb Hmax.
  assert (adm_inv (ruleProcessCount a)) as Hinv' by (eapply rtc_inv; eauto using ruleProcessCount_rtc).
  pose proof (rtc_static _ _ (ruleProcessCount_rtc a)) as (_ & _ & Hrun & _).
  pose proof (queue_count _ Hinv' ltac:(by rewrite Hrun)) as Hc. rewrite Hrun in Hc.
  pose proof (queue_count _ Hinv Hu) as Hc0. revert Hnb Hc.
  unfold ruleProcessCount. destruct (ps_MaxProcesses (adm_snap a) <=? 0) eqn:E0; bool_hyps; [lia|].
  destruct (_ <=? 0) eqn:E1; bool_hyps; [lia|].
  set (deficit := Z.of_nat (length (adm_running a)) - _ + 1 - _) in *.
  set (cands := orderVictims _ _).
  pose proof (drawCount_size deficit cands a 0) as Hsz. cbv zeta in Hsz.
  assert (unique_ids cands) as Hcu.
  { eapply unique_ids_perm; [symmetry; apply orderVictims_perm|]. by apply unique_ids_filter. }
  assert (forall r, r ∈ cands -> queued a r = false) as Hcq.
  { intros r. unfold cands. rewrite orderVictims_elem, elem_of_filter_bool.
    intros [_ ?]. by bool_hyps. }
  specialize (Hsz Hcu Hcq).
  destruct (drawCount _ _ _ _) as [b drawn]. simpl in Hsz.
  destruct (drawn <? deficit) eqn:E2; bool_hyps; simpl; [done|]. lia.
Qed.

(** ** The whole pipeline *)

Lemma unqueued_mono a b r :
  same_static a b -> evict_le a b -> r ∈ unqueued b -> r ∈ unqueued a.
Proof.
  intros (_ & _ & Hrun & _) He. rewrite !unqueued_elem, Hrun. intros [? Hq]. split; [done|].
  destruct (queued a r) eqn:E; [|done]. rewrite (queued_mono a b r) in Hq; done.
Qed.

Lemma total_unqueued_mono amount a b :
  same_static a b -> evict_le a b -> bounded amount (adm_running a) ->
  total amount (unqueued b) <= total amount (unqueued a).
Proof.
  intros Hs He Hb. pose proof Hs as (_ & _ & Hrun & _).
  assert (unqueued b = List.filter (fun r => negb (queued b r)) (unqueued a)) as ->.
  { unfold unqueued. rewrite Hrun. clear Hb Hrun Hs. induction (adm_running a) as [|r l IH]; [done|].
    simpl. rewrite IH.
    destruct (queued a r) eqn:E; simpl; [|done]. by rewrite (queued_mono a b r He E). }
  apply total_filter_le. intros r [Hr _]%unqueued_elem. by apply Hb.
Qed.

Section pipeline.
Context `{Unicode} (snap : PolicySnapshot) (spec : Spec).
Let a0 := newAdmission snap spec.

Lemma a0_running r : r ∈ adm_running a0 <-> r ∈ others snap spec.
Proof. unfold a0. by rewrite newAdmission_running. Qed.

Lemma a0_bounded amount : bounded amount (ps_Running snap) -> bounded amount (adm_running a0).
Proof. apply bounded_sub. intros r ?%a0_running. by eapply others_sub. Qed.

Lemma a0_unique : unique_running snap -> unique_ids (adm_running a0).
Proof.
  intros Hu. eapply unique_ids_perm; [symmetry; apply newAdmission_running|].
  by apply unique_ids_filter.
Qed.

Lemma a0_length :
  Z.of_nat (length (ps_Running snap)) <= procs_bound ->
  Z.of_nat (length (adm_running a0)) <= procs_bound.
Proof.
  unfold a0. rewrite newAdmission_running. unfold others.
  pose proof (List.filter_length_le (fun r => negb (String.eqb (rp_SpecID r) (spec_ID spec)))
    (ps_Running snap)). lia.
Qed.

(** The states between the rules. *)
Let a1 := ruleMatrix a0.
Let a2 := ruleUnknownVRAMCandidate a1.
Let a3 := ruleUnknownVRAMOccupant a2.
Let a4 := rulePerGPUVRAM a3.
Let a5 := ruleHostRAM a4.
Let a6 := ruleProcessCount a5.

Lemma runRules_stages : runRules a0 = a6.
Proof. done. Qed.

Lemma stages :
  rtc astep a0 a1 /\ rtc astep a1 a2 /\ rtc astep a2 a3 /\ rtc astep a3 a4 /\
  rtc astep a4 a5 /\ rtc astep a5 a6.
Proof.
  split_and!; auto using ruleMatrix_rtc, ruleUnknownVRAMCandidate_rtc,
    ruleUnknownVRAMOccupant_rtc, rulePerGPUVRAM_rtc, ruleHostRAM_rtc, ruleProcessCount_rtc.
Qed.

Lemma perGPU_post g :
  unique_running snap -> amounts_ok snap spec -> adm_blocked a4 = false -> g ∈ spec_GPUs spec ->
  gpu_VRAMMB g <> 0 -> 0 < map_get 0 (ps_Budgets snap) (gpu_Index g) ->
  gpu_VRAMMB g + total (gpuAmount (gpu_Index g)) (unqueued a4)
    <= map_get 0 (ps_Budgets snap) (gpu_Index g).
Proof.
  intros Hu Ha Hnb Hg Hg0 Hbud.
  assert (same_static a0 a3) as Hs3.
  { apply rtc_static. destruct stages as (? & ? & ? & _). by do 2 (etrans; [done|]). }
  unfold a4, rulePerGPUVRAM in *.
  assert (spec_GPUs (adm_spec a3) = spec_GPUs spec) as Egs by by destruct Hs3 as (_ & -> & _).
  rewrite Egs in *. clear Egs. revert Hnb.
  assert (forall g, g ∈ spec_GPUs spec -> 0 <= gpu_VRAMMB g <= MB_bound) as Hsp by apply Ha.
  revert Hg Hsp. generalize (spec_GPUs spec) as gs. clear -Hu Ha Hs3 Hg0 Hbud.
  generalize dependent a3. intros a3' Hs3 gs.
  revert a3' Hs3. induction gs as [|x gs IH]; intros a Hs Hg Hsp Hnb; [by apply elem_of_nil in Hg|].
  simpl in *.
  assert (rtc astep (chargeGPUBudget a x) (foldl chargeGPUBudget (chargeGPUBudget a x) gs)) as Hrest.
  { apply foldl_rtc. auto using chargeGPUBudget_rtc. }
  assert (same_static a0 (chargeGPUBudget a x)) as Hs'.
  { etrans; [done|]. apply rtc_static, chargeGPUBudget_rtc. }
  apply elem_of_cons in Hg as [->|Hg].
  - pose proof (chargeGPUBudget_post a0 (a0_unique Hu) (a0_length (ao_len _ _ Ha)) a x) as Hp.
    assert (total (gpuAmount (gpu_Index x)) (unqueued (foldl chargeGPUBudget (chargeGPUBudget a x) gs))
            <= total (gpuAmount (gpu_Index x)) (unqueued (chargeGPUBudget a x))) as Hle.
    { apply total_unqueued_mono; auto with go.
      pose proof Hs' as (_ & _ & -> & _). apply a0_bounded, Ha. }
    assert (gpu_VRAMMB x + total (gpuAmount (gpu_Index x)) (unqueued (chargeGPUBudget a x))
            <= map_get 0 (ps_Budgets snap) (gpu_Index x)); [|lia].
    apply Hp; auto.
    + intros i. apply a0_bounded, Ha.
    + apply Hsp. left.
    + eapply not_blocked_mono; [by apply rtc_evict_le|done].
  - apply IH; auto. intros. apply Hsp. by right.
Qed.

(** Every stage is reached from the start, and the end from every stage. *)
Lemma reach :
  (rtc astep a0 a2 /\ rtc astep a0 a4 /\ rtc astep a0 a5 /\ rtc astep a0 a6) /\
  (rtc astep a1 a6 /\ rtc astep a2 a6 /\ rtc astep a3 a6 /\ rtc astep a4 a6).
Proof.
  destruct stages as (S1 & S2 & S3 & S4 & S5 & S6).
  assert (rtc astep a0 a2) as S02 by (by etrans).
  assert (rtc astep a0 a4) as S04 by (do 2 (etrans; [|done]); done).
  assert (rtc astep a4 a6) as S46 by (by etrans).
  assert (rtc astep a3 a6) as S36 by (by etrans).
  assert (rtc astep a2 a6) as S26 by (by etrans).
  split_and!; try done; by etrans.
Qed.

(** A pipeline that does not block has not blocked at any stage. *)
Lemma unblocked :
  adm_blocked a6 = false ->
  adm_blocked a1 = false /\ adm_blocked a2 = false /\ adm_blocked a3 = false /\
  adm_blocked a4 = false /\ adm_blocked a5 = false.
Proof.
  destruct stages as (_ & _ & _ & _ & _ & S6). destruct reach as (_ & R1 & R2 & R3 & R4).
  intros H6. split_and!; eauto using not_blocked_mono, rtc_evict_le.
Qed.

(** A process that is kept was running, and no stage has queued it. *)
Lemma kept r :
  r ∈ unqueued a6 ->
  r ∈ adm_running a0 /\ forall a, rtc astep a a6 -> queued a r = true -> False.
Proof.
  intros [Hr Hq]%unqueued_elem. destruct reach as ((_ & _ & _ & S06) & _). split.
  - by destruct (rtc_static _ _ S06) as (_ & _ & <- & _).
  - intros a Ha Hqa. by rewrite (queued_mono a a6 r (rtc_evict_le _ _ Ha) Hqa) in Hq.
Qed.

(** The count and the matrix hold whatever the amounts are. *)
Lemma runRules_count :
  unique_running snap -> adm_blocked (runRules a0) = false -> 0 < ps_MaxProcesses snap ->
  Z.of_nat (length (unqueued (runRules a0))) + 1 <= ps_MaxProcesses snap.
Proof.
  rewrite runRules_stages. intros Hu H6 Hmax. destruct stages as (S1 & _ & _ & _ & _ & S6).
  destruct reach as ((S02 & S04 & S05 & S06) & S16 & S26 & S36 & S46).
  destruct (rtc_static _ _ S05) as (Hsn & _ & Hr5 & _).
  assert (ps_MaxProcesses (adm_snap a5) = ps_MaxProcesses snap) as E by by rewrite Hsn.
  rewrite <- E in *. apply ruleProcessCount_post; auto.
  - eapply rtc_inv; [done|]. apply newAdmission_inv.
  - rewrite Hr5. by apply a0_unique.
Qed.

Lemma runRules_matrix r :
  adm_blocked (runRules a0) = false -> r ∈ unqueued (runRules a0) ->
  pairAllowed (ps_Allowed snap) (specBase spec) r = true.
Proof.
  rewrite runRules_stages. intros H6 Hr. destruct reach as (_ & S16 & _).
  destruct (pairAllowed _ _ r) eqn:E; [done|]. exfalso.
  apply (proj2 (kept r Hr) a1); [done|]. apply ruleMatrix_post; [apply (unblocked H6)|apply kept, Hr|done].
Qed.

(** Whatever the pipeline does not queue fits, unless it blocked. *)
Lemma runRules_fits :
  unique_running snap -> amounts_ok snap spec -> adm_blocked (runRules a0) = false ->
  fits snap spec (unqueued (runRules a0)).
Proof.
  intros Hu Ha H6'. pose proof H6' as H6. pose proof (runRules_count Hu H6') as Hcount.
  pose proof (fun r => runRules_matrix r H6') as Hmatrix.
  rewrite runRules_stages in *. destruct stages as (S1 & _ & _ & _ & _ & S6).
  destruct reach as ((S02 & S04 & S05 & S06) & S16 & S26 & S36 & S46).
  destruct (unblocked H6) as (H1 & H2 & H3 & H4 & H5).
  assert (forall r, r ∈ unqueued a6 -> r ∈ adm_running a0) as Hrun by apply kept.
  assert (forall a r, rtc astep a a6 -> r ∈ unqueued a6 -> queued a r = true -> False) as Hno
    by (intros a r ? Hr; by apply (proj2 (kept r Hr))).
  split; [exact Hmatrix|..|exact Hcount].
  - intros r HU Hr. destruct (touchesAnyGPU r (specGPUIndexes spec)) eqn:E; [|done]. exfalso.
    destruct (rtc_static _ _ S1) as (_ & _ & R1 & U1 & G1 & _).
    destruct (rtc_static _ _ S02) as (_ & _ & R2 & U2 & G2 & _).
    destruct (procHasUnknownVRAM r) eqn:Eu.
    + eapply (Hno a3); eauto. apply ruleUnknownVRAMOccupant_post; [done|rewrite R2; auto|].
      rewrite G2. unfold unknownToucher. change (adm_gpuIdx a0) with (specGPUIndexes spec).
      by rewrite E, Eu.
    + eapply (Hno a2); eauto. apply ruleUnknownVRAMCandidate_post; [done|by rewrite U1|rewrite R1; auto|].
      rewrite G1. unfold knownToucher. change (adm_gpuIdx a0) with (specGPUIndexes spec).
      by rewrite E, Eu.
  - intros r Hr. destruct (unknownToucher (specGPUIndexes spec) r) eqn:E; [|done]. exfalso.
    destruct (rtc_static _ _ S02) as (_ & _ & R2 & U2 & G2 & _).
    eapply (Hno a3); eauto. apply ruleUnknownVRAMOccupant_post; [done|rewrite R2; auto|].
    by rewrite G2.
  - intros g Hg Hg0 Hbud. pose proof (perGPU_post g Hu Ha H4 Hg Hg0 Hbud) as Hp.
    assert (total (gpuAmount (gpu_Index g)) (unqueued a6)
      <= total (gpuAmount (gpu_Index g)) (unqueued a4)); [|lia].
    apply total_unqueued_mono; auto with go.
    destruct (rtc_static _ _ S04) as (_ & _ & -> & _). apply a0_bounded, Ha.
  - intros Hbud. pose proof (ruleHostRAM_post a0 (a0_unique Hu) (a0_length (ao_len _ _ Ha)) a4
      (a0_bounded _ (ao_ram _ _ Ha)) (proj2 (ao_demand _ _ Ha)) (rtc_static _ _ S04) H5 Hbud) as [? Hp].
    split; [done|]. intros Hd. specialize (Hp Hd). fold a5 in Hp.
    change (ramDemand (adm_snap a0) (adm_spec a0)) with (ramDemand snap spec) in Hp.
    change (ps_HostRAMBudgetMB (adm_snap a0)) with (ps_HostRAMBudgetMB snap) in Hp.
    assert (total ramHolder (unqueued a6) <= total ramHolder (unqueued a5)); [|lia].
    apply total_unqueued_mono; auto with go.
    destruct (rtc_static _ _ S05) as (_ & _ & -> & _). apply a0_bounded, Ha.
Qed.

End pipeline.

(** ** A running set that fits is left alone *)

Lemma total_ext amount l l' : l ≡ₚ l' -> total amount l = total amount l'.
Proof. apply total_perm. Qed.

Section fitting.
Context `{Unicode} (snap : PolicySnapshot) (spec : Spec).
Context (Ha : amounts_ok snap spec) (Hf : fits snap spec (others snap spec)).
Let a0 := newAdmission snap spec.

Lemma a0_unqueued : unqueued a0 ≡ₚ others snap spec.
Proof.
  unfold unqueued. rewrite <- (newAdmission_running snap spec). fold a0.
  assert (forall l, List.filter (fun r => negb (queued a0 r)) l = l) as ->; [|done].
  induction l as [|r l IH]; [done|]. simpl.
  assert (queued a0 r = false) as -> by (apply has_key_false; simpl; set_solver).
  simpl. by rewrite IH.
Qed.

Lemma fits_ruleMatrix : ruleMatrix a0 = a0.
Proof.
  apply foldl_id. intros r Hr%a0_running.
  assert (pairAllowed (ps_Allowed (adm_snap a0)) (adm_base a0) r = true) as ->; [|done].
  by apply (fits_matrix _ _ _ Hf).
Qed.

Lemma fits_ruleUnknownVRAMCandidate : ruleUnknownVRAMCandidate a0 = a0.
Proof.
  unfold ruleUnknownVRAMCandidate. change (adm_unknownVRAM a0) with (specHasUnknownVRAM spec).
  destruct (specHasUnknownVRAM spec) eqn:HU; simpl; [|done].
  assert (forall r, r ∈ adm_running a0 -> touchesAnyGPU r (adm_gpuIdx a0) = false) as Hno.
  { intros r Hr%a0_running. by apply (fits_alone _ _ _ Hf). }
  case_match.
  - apply foldl_id. intros r Hr. by rewrite (Hno r Hr).
  - unfold blockOnKnownTouchers.
    assert (foldl precedenceStep (a0, None) (adm_running a0) = (a0, None)) as ->; [|done].
    apply foldl_id. intros r Hr. specialize (Hno r Hr). unfold touchesAnyGPU in Hno. simpl.
    by destruct (firstSharedGPU r _).
Qed.

Lemma fits_ruleUnknownVRAMOccupant : ruleUnknownVRAMOccupant a0 = a0.
Proof.
  apply foldl_id. intros r Hr%a0_running. pose proof (fits_occupant _ _ _ Hf r Hr) as Hn.
  unfold unknownToucher in Hn. change (adm_gpuIdx a0) with (specGPUIndexes spec).
  by destruct (procHasUnknownVRAM r), (touchesAnyGPU r _).
Qed.

Lemma fits_collect amount own :
  bounded amount (ps_Running snap) -> 0 <= own <= MB_bound ->
  (collectHolders amount a0 own).1 = own + total amount (others snap spec).
Proof.
  intros Hb Hown.
  rewrite (collectHolders_spec amount own a0 (a0_bounded snap spec amount Hb) Hown
    (a0_length snap spec (ao_len _ _ Ha)) a0 ltac:(done)).
  simpl. by rewrite (total_ext _ _ _ a0_unqueued).
Qed.

Lemma fits_rulePerGPUVRAM : rulePerGPUVRAM a0 = a0.
Proof.
  apply foldl_id. intros g Hg. change (spec_GPUs (adm_spec a0)) with (spec_GPUs spec) in Hg.
  unfold chargeGPUBudget. change (ps_Budgets (adm_snap a0)) with (ps_Budgets snap).
  destruct (gpu_VRAMMB g =? 0) eqn:E0; [done|]. destruct (_ <=? 0) eqn:E1; [done|]. bool_hyps.
  pose proof (fits_collect (gpuAmount (gpu_Index g)) (gpu_VRAMMB g) (ao_gpu _ _ Ha _)
    (ao_spec _ _ Ha g Hg)) as Hc.
  change (fun r => rp_GPUs r !! gpu_Index g) with (gpuAmount (gpu_Index g)).
  destruct (collectHolders _ a0 _) as [sum touchers]. simpl in Hc.
  pose proof (fits_vram _ _ _ Hf g Hg E0 E1).
  destruct (sum <=? _) eqn:E2; [done|]. bool_hyps. lia.
Qed.

Lemma fits_ruleHostRAM : ruleHostRAM a0 = a0.
Proof.
  unfold ruleHostRAM. change (adm_snap a0) with snap. change (adm_spec a0) with spec.
  fold (ramDemand snap spec). destruct (_ <=? 0) eqn:E0; [done|]. bool_hyps.
  destruct (fits_ram _ _ _ Hf E0) as [-> Hr].
  destruct (ramDemand snap spec <=? 0) eqn:E1; [done|]. bool_hyps.
  pose proof (fits_collect ramHolder (ramDemand snap spec) (ao_ram _ _ Ha) (ao_demand _ _ Ha)) as Hc.
  destruct (collectHolders _ a0 _) as [sum holders]. simpl in Hc. specialize (Hr E1).
  destruct (sum <=? _) eqn:E2; [done|]. bool_hyps. lia.
Qed.

Lemma fits_ruleProcessCount : ruleProcessCount a0 = a0.
Proof.
  unfold ruleProcessCount. change (adm_snap a0) with snap.
  destruct (_ <=? 0) eqn:E0; [done|]. bool_hyps. pose proof (fits_count _ _ _ Hf E0) as Hc.
  rewrite <- newAdmission_running in Hc. fold a0 in Hc.
  change (size (adm_toEvict a0)) with 0%nat.
  destruct (_ <=? 0) eqn:E1; [done|]. bool_hyps. lia.
Qed.

Lemma fits_runRules : runRules a0 = a0.
Proof.
  unfold runRules. rewrite fits_ruleMatrix, fits_ruleUnknownVRAMCandidate,
    fits_ruleUnknownVRAMOccupant, fits_rulePerGPUVRAM, fits_ruleHostRAM. apply fits_ruleProcessCount.
Qed.

End fitting.

(** ** Terminal refusals *)

Lemma ownDemandRefusal_some snap spec :
  is_Some (ownDemandRefusal snap spec) <->
  exists g, g ∈ spec_GPUs spec /\ gpu_VRAMMB g <> 0 /\
    0 < map_get 0 (ps_Budgets snap) (gpu_Index g) < gpu_VRAMMB g.
Proof.
  unfold ownDemandRefusal. induction (spec_GPUs spec) as [|g gs IH].
  { split; [by intros []|]. by intros (g & ?%elem_of_nil & _). }
  assert ((exists x, x ∈ g :: gs /\ gpu_VRAMMB x <> 0 /\
      0 < map_get 0 (ps_Budgets snap) (gpu_Index x) < gpu_VRAMMB x) <->
    (gpu_VRAMMB g <> 0 /\ 0 < map_get 0 (ps_Budgets snap) (gpu_Index g) < gpu_VRAMMB g) \/
    (exists x, x ∈ gs /\ gpu_VRAMMB x <> 0 /\
      0 < map_get 0 (ps_Budgets snap) (gpu_Index x) < gpu_VRAMMB x)) as ->.
  { setoid_rewrite elem_of_cons. split; [intros (x & [->|Hx] & ?)|intros [?|(x & ? & ?)]]; eauto. }
  rewrite <- IH. destruct (gpu_VRAMMB g =? 0) eqn:E0; bool_hyps; [split; [auto|intros [[]|]; done]|].
  destruct (_ <=? 0) eqn:E1; bool_hyps; [split; [auto|intros [[]|]; [lia|done]]|].
  destruct (_ <? _) eqn:E2; bool_hyps.
  - split; [|by eauto]. intros _. left. lia.
  - split; [auto|intros [[]|]; [lia|done]].
Qed.

Lemma ramOwnDemandRefusal_some snap spec :
  is_Some (ramOwnDemandRefusal snap spec) <->
  0 < ps_HostRAMBudgetMB snap /\ 0 < spec_RAMMB spec /\
  Z.max (ps_HostRAMCeilingMB snap) (ps_HostRAMBudgetMB snap) < spec_RAMMB spec.
Proof.
  unfold ramOwnDemandRefusal.
  destruct (ps_HostRAMBudgetMB snap <=? 0) eqn:E0, (spec_RAMMB spec <=? 0) eqn:E1; simpl; bool_hyps;
    try (split; [by intros []|lia]).
  destruct (_ <=? _) eqn:E2; bool_hyps; [split; [by intros []|lia]|]. split; [lia|by eauto].
Qed.

Lemma pinnedUnknownCandidateRefusal_some running gpuIdx :
  is_Some (pinnedUnknownCandidateRefusal running gpuIdx) <->
  exists r, r ∈ running /\ rp_Pinned r = true /\ touchesAnyGPU r gpuIdx = true.
Proof.
  unfold pinnedUnknownCandidateRefusal. destruct (existsb _ running) eqn:E.
  - apply existsb_exists in E as (r & Hr & E). apply list_elem_of_In in Hr. bool_hyps.
    split; [|by eauto]. intros _. exists r. auto.
  - split; [by intros []|]. intros (r & Hr & Hp & Ht). rewrite <- not_true_iff_false in E.
    destruct E. apply existsb_exists. exists r. rewrite Hp, Ht. split; [|done].
    by apply list_elem_of_In.
Qed.

Definition pinnedBlocker (gpuIdx : list Z) (r : RunningProc) : bool :=
  rp_Pinned r && unknownToucher gpuIdx r.

Lemma pinnedBlockerStep_skip snap base gpuIdx best r :
  pinnedBlocker gpuIdx r = false -> pinnedBlockerStep snap base gpuIdx best r = best.
Proof.
  unfold pinnedBlocker, pinnedBlockerStep, unknownToucher, touchesAnyGPU.
  destruct (rp_Pinned r), (procHasUnknownVRAM r); simpl; try done.
  by destruct (firstSharedGPU r gpuIdx).
Qed.

Lemma pinnedBlockerStep_some snap base gpuIdx best r :
  is_Some best \/ pinnedBlocker gpuIdx r = true ->
  is_Some (pinnedBlockerStep snap base gpuIdx best r).
Proof.
  unfold pinnedBlocker, pinnedBlockerStep, unknownToucher, touchesAnyGPU.
  destruct (rp_Pinned r), (procHasUnknownVRAM r); simpl; try (by intros [|]);
    destruct (firstSharedGPU r gpuIdx); simpl; try (by intros [|]).
  intros _. destruct best as [[[b g] c]|]; [case_match|]; by eauto.
Qed.

Lemma pinnedBlocker_foldl snap base gpuIdx running best :
  is_Some (foldl (pinnedBlockerStep snap base gpuIdx) best running) <->
  is_Some best \/ exists r, r ∈ running /\ pinnedBlocker gpuIdx r = true.
Proof.
  revert best. induction running as [|x l IH]; intros best; simpl.
  { split; [by left|]. by intros [?|(r & ?%elem_of_nil & _)]. }
  rewrite IH. setoid_rewrite elem_of_cons. destruct (pinnedBlocker gpuIdx x) eqn:E.
  - split; [intros _; right; eauto|]. intros _. left. apply pinnedBlockerStep_some. auto.
  - rewrite pinnedBlockerStep_skip by done. split; [naive_solver|].
    intros [?|(r & [->|Hr] & Hb)]; [auto|congruence|right; eauto].
Qed.

Lemma pinnedUnknownOccupantRefusal_some snap spec running gpuIdx :
  is_Some (pinnedUnknownOccupantRefusal snap spec running gpuIdx) <->
  exists r, r ∈ running /\ pinnedBlocker gpuIdx r = true.
Proof.
  unfold pinnedUnknownOccupantRefusal.
  pose proof (pinnedBlocker_foldl snap (specBase spec) gpuIdx running None) as H.
  destruct (foldl _ None running) as [[[b g] []]|].
  - split; [|by eauto]. intros _. destruct H as [H _]. destruct H as [[]|]; [by eauto|done|done].
  - split; [|by eauto]. intros _. destruct H as [H _]. destruct H as [[]|]; [by eauto|done|done].
  - split; [by intros []|]. intros Hr. destruct H as [_ H]. destruct H as [? [=]]. by right.
Qed.
