(* ===== verification/PolicyDecision.v ===== *)
(** * From the pipeline state to the decision

    The recursion through the grace window, the shape of the answer, the victim
    list, and the independence of the answer from the order of the running set
    and from the clock once no process is within its grace window. *)

From Stdlib Require Import ZArith Lia Ascii.
From stdpp Require Import base tactics option list numbers strings pretty gmap relations sorting.
From S2P Require Import Prelude RuntimeTypes Policy PolicyOrder PolicyRules PolicyFits.
Local Open Scope Z_scope.

(** ** The grace re-run *)

Lemma admitStepsFuel_no_grace `{Unicode} n m snap spec :
  ps_EvictionGrace snap <= 0 -> admitStepsFuel n snap spec = admitStepsFuel m snap spec.
Proof.
  intros Hg. apply Z.leb_le in Hg. destruct n, m; simpl; by rewrite Hg.
Qed.

Definition proceeds (alt : Decision) : bool :=
  negb (dec_Wait alt) && match dec_Reason alt with None => true | _ => false end.

Lemma admitStepsFuel_S `{Unicode} n snap spec :
  admitStepsFuel (S n) snap spec =
    match terminalRefusal snap spec (newAdmission snap spec) with
    | Some dec => dec
    | None =>
        decide_with
          (if ps_EvictionGrace snap <=? 0 then false
           else proceeds (admitStepsFuel n (withoutGrace snap) spec))
          (runRules (newAdmission snap spec))
    end.
Proof. reflexivity. Qed.

Lemma admitStepsFuel_enough `{Unicode} n snap spec :
  admitStepsFuel (S n) snap spec = admitSteps snap spec.
Proof.
  unfold admitSteps. rewrite !admitStepsFuel_S.
  by rewrite (admitStepsFuel_no_grace n 0 (withoutGrace snap) spec) by (simpl; lia).
Qed.

Lemma admitSteps_unfold `{Unicode} snap spec :
  admitSteps snap spec =
    match terminalRefusal snap spec (newAdmission snap spec) with
    | Some dec => dec
    | None => decide_with (blockedSolelyByGrace snap spec) (runRules (newAdmission snap spec))
    end.
Proof.
  unfold admitSteps at 1. rewrite admitStepsFuel_S.
  by rewrite (admitStepsFuel_no_grace 0 1 (withoutGrace snap) spec) by (simpl; lia).
Qed.

(** ** Shapes *)

Definition terminal_reason (reason : State) : Prop :=
  reason = StateNotPermitted \/ reason = StatePendingVRAMUnknown.

Lemma terminalRefusal_reason snap spec a dec :
  terminalRefusal snap spec a = Some dec ->
  exists reason message, dec = refusal reason message /\ terminal_reason reason.
Proof.
  unfold terminal_reason.
  assert (forall gs, (fix go (gpus : list SpecGPU) : option Decision :=
    match gpus with [] => None | g :: gpus' =>
      if gpu_VRAMMB g =? 0 then go gpus'
      else if map_get 0 (ps_Budgets snap) (gpu_Index g) <=? 0 then go gpus'
      else if map_get 0 (ps_Budgets snap) (gpu_Index g) <? gpu_VRAMMB g
      then Some (refusal StateNotPermitted
             (ownDemandMessage spec g (map_get 0 (ps_Budgets snap) (gpu_Index g))))
      else go gpus' end) gs = Some dec ->
    exists reason message, dec = refusal reason message /\
      (reason = StateNotPermitted \/ reason = StatePendingVRAMUnknown)) as H1.
  { induction gs as [|g gs IH]; [done|]. repeat case_match; auto. intros [= <-]. eauto. }
  unfold terminalRefusal. destruct (ownDemandRefusal snap spec) eqn:E1.
  { intros [= ->]. by eapply H1. }
  unfold ramOwnDemandRefusal, pinnedUnknownCandidateRefusal, pinnedUnknownOccupantRefusal.
  repeat case_match; intros; simplify_eq; eauto 6.
Qed.

Lemma terminalRefusal_shape snap spec a dec :
  terminalRefusal snap spec a = Some dec -> exists reason message, dec = refusal reason message.
Proof. intros (? & ? & -> & _)%terminalRefusal_reason. eauto. Qed.

Lemma toEvict_empty (m : gmap string RunningProc) : (size m =? 0)%nat = true <-> m = ∅.
Proof. by rewrite Nat.eqb_eq, map_size_empty_iff. Qed.

(** ** The victim list *)

Lemma evictList_elem a id :
  adm_inv a ->
  id ∈ evictList a <-> exists r, adm_toEvict a !! id = Some r /\ rp_SpecID r = id.
Proof.
  intros [HV _]. unfold evictList. rewrite list_elem_of_fmap.
  setoid_rewrite siblingsHighestFirst_elem. unfold sortOldestFirst.
  setoid_rewrite (sort_Slice_elem lessOldest). split.
  - intros (r & -> & ([k r'] & -> & Hk)%list_elem_of_fmap). simpl.
    apply elem_of_map_to_list in Hk. destruct (HV _ _ Hk) as [-> _]. eauto.
  - intros (r & Hr & E). exists r. split; [done|]. apply list_elem_of_fmap.
    exists (id, r). split; [done|]. by apply elem_of_map_to_list.
Qed.

Lemma evictList_dom a id : adm_inv a -> id ∈ evictList a <-> id ∈ dom (adm_toEvict a).
Proof.
  intros Hi. rewrite evictList_elem, elem_of_dom by done. split; [intros (r & ? & _); eauto|].
  intros [r Hr]. exists r. destruct (inv_victims _ Hi _ _ Hr) as [-> _]. done.
Qed.

Lemma victims_unique a : adm_inv a -> unique_ids (snd <$> map_to_list (adm_toEvict a)).
Proof.
  intros [HV _]. unfold unique_ids.
  assert (rp_SpecID <$> (snd <$> map_to_list (adm_toEvict a)) = fst <$> map_to_list (adm_toEvict a))
    as ->; [|apply NoDup_fst_map_to_list].
  rewrite <- list_fmap_compose. apply list_fmap_ext. intros i [k r] Hi. simpl.
  apply list_elem_of_lookup_2, elem_of_map_to_list in Hi. by destruct (HV _ _ Hi) as [-> _].
Qed.

Lemma evictList_NoDup a : adm_inv a -> NoDup (evictList a).
Proof.
  intros Hi. unfold evictList. rewrite siblingsHighestFirst_perm. unfold sortOldestFirst.
  rewrite (sort_Slice_perm lessOldest). by apply victims_unique.
Qed.

(** Of two victims of one spec, the one with the higher index comes first. *)
Definition before {A} (x y : A) (l : list A) : Prop :=
  exists l1 l2 l3, l = l1 ++ x :: l2 ++ y :: l3.

Lemma filter_split {A} (p : A -> bool) (l l1 l2 : list A) (x : A) :
  List.filter p l = l1 ++ x :: l2 ->
  exists k1 k2, l = k1 ++ x :: k2 /\ List.filter p k1 = l1 /\ List.filter p k2 = l2.
Proof.
  revert l1. induction l as [|z l IH]; intros l1 E; simpl in E; [by destruct l1|].
  destruct (p z) eqn:Ez.
  - destruct l1 as [|y l1]; simpl in E; injection E as -> E.
    + exists [], l. done.
    + destruct (IH l1 E) as (k1 & k2 & -> & <- & <-). exists (y :: k1), k2. simpl. by rewrite Ez.
  - destruct (IH l1 E) as (k1 & k2 & -> & <- & <-). exists (z :: k1), k2. simpl. by rewrite Ez.
Qed.

Lemma before_filter {A} (p : A -> bool) (l : list A) (x y : A) :
  before x y (List.filter p l) -> before x y l.
Proof.
  intros (l1 & l2 & l3 & E). apply filter_split in E as (k1 & k2 & -> & _ & E).
  apply filter_split in E as (k3 & k4 & -> & _). exists k1, k3, k4. done.
Qed.

Lemma before_fmap {A B} (f : A -> B) (l : list A) (x y : A) :
  before x y l -> before (f x) (f y) (f <$> l).
Proof.
  intros (l1 & l2 & l3 & ->). exists (f <$> l1), (f <$> l2), (f <$> l3).
  by rewrite !fmap_app, !fmap_cons, fmap_app, fmap_cons.
Qed.

Lemma before_sorted {A} (less : A -> A -> bool) (l : list A) (x y : A) :
  StronglySorted (less_le less) l -> less x y = true -> x ∈ l -> y ∈ l -> x <> y -> before x y l.
Proof.
  intros Hs Hl Hx Hy Hne. apply list_elem_of_split in Hx as (l1 & l2 & ->).
  apply elem_of_app in Hy as [Hy|Hy].
  - exfalso. apply StronglySorted_app in Hs as (Hs & _).
    specialize (Hs y x Hy ltac:(left)). unfold less_le in Hs. congruence.
  - apply elem_of_cons in Hy as [->|Hy]; [done|].
    apply list_elem_of_split in Hy as (l3 & l4 & ->). exists l1, l3, l4. done.
Qed.

Lemma evictList_before a x y :
  adm_inv a -> queued a x = true -> queued a y = true ->
  x ∈ adm_running a -> y ∈ adm_running a -> unique_ids (adm_running a) ->
  baseOf x = baseOf y -> rp_Instance y < rp_Instance x ->
  before (rp_SpecID x) (rp_SpecID y) (evictList a).
Proof.
  intros Hi Hqx Hqy Hx Hy Hu Hb Hlt.
  assert (forall z, queued a z = true -> z ∈ adm_running a ->
    z ∈ snd <$> map_to_list (adm_toEvict a)) as Hin.
  { intros z Hq Hz. apply queued_dom, elem_of_dom in Hq as [r Hr].
    destruct (inv_victims _ Hi _ _ Hr) as [E (Hrun & _)].
    assert (z = r) as -> by (by eapply unique_ids_inj).
    apply list_elem_of_fmap. exists (rp_SpecID r, r). split; [done|]. by apply elem_of_map_to_list. }
  unfold evictList. apply before_fmap, (before_filter (of_base (baseOf x))).
  rewrite siblingsHighestFirst_filter. apply (before_sorted lessSibling).
  - apply (sort_Slice_sorted lessSibling).
  - unfold lessSibling. assert ((rp_Instance x =? rp_Instance y) = false) as -> by (apply Z.eqb_neq; lia).
    simpl. apply Z.ltb_lt. lia.
  - rewrite (sort_Slice_elem lessSibling), elem_of_filter_bool. unfold sortOldestFirst.
    rewrite (sort_Slice_elem lessOldest). unfold of_base. rewrite String.eqb_refl. auto.
  - rewrite (sort_Slice_elem lessSibling), elem_of_filter_bool. unfold sortOldestFirst.
    rewrite (sort_Slice_elem lessOldest). unfold of_base. rewrite Hb, String.eqb_refl. auto.
  - intros ->. lia.
Qed.

(** ** Changing the snapshot under the pipeline

    Two snapshots that differ only in the order of the running set, or only in
    clock and grace window without changing which processes may be evicted, drive
    the pipeline through the same states. *)

Definition resnap (s : PolicySnapshot) (a : admission) : admission :=
  mkAdmission s (adm_spec a) (adm_running a) (adm_unknownVRAM a) (adm_gpuIdx a)
    (adm_base a) (adm_candidateRole a) (adm_toEvict a) (adm_blocked a)
    (adm_ramBlocked a) (adm_waitMessage a) (adm_bootstrapEvicted a).

Record snap_agree (s s' : PolicySnapshot) : Prop := {
  sa_max : ps_MaxProcesses s' = ps_MaxProcesses s;
  sa_budgets : ps_Budgets s' = ps_Budgets s;
  sa_ram : ps_HostRAMBudgetMB s' = ps_HostRAMBudgetMB s;
  sa_ceiling : ps_HostRAMCeilingMB s' = ps_HostRAMCeilingMB s;
  sa_inflight : ps_RAMBootstrapInFlight s' = ps_RAMBootstrapInFlight s;
  sa_guess : ps_RAMBootstrapGuessMB s' = ps_RAMBootstrapGuessMB s;
  sa_eligible : ps_VRAMBootstrapEligible s' = ps_VRAMBootstrapEligible s;
  sa_allowed : ps_Allowed s' = ps_Allowed s
}.

Section resnap.
Context (s s' : PolicySnapshot) (R : list RunningProc) (Hag : snap_agree s s').
Context (Hev : forall r, r ∈ R ->
  isEvictable r (ps_Now s') (ps_EvictionGrace s') = isEvictable r (ps_Now s) (ps_EvictionGrace s)).

Definition on_snap (a : admission) : Prop := adm_snap a = s /\ adm_running a = R.

Lemma on_snap_rtc a b : rtc astep a b -> on_snap a -> on_snap b.
Proof. intros (H1 & _ & H2 & _)%rtc_static [? ?]. split; congruence. Qed.

Lemma mayEvict_resnap a r : on_snap a -> r ∈ R -> mayEvict (resnap s' a) r = mayEvict a r.
Proof. intros [Es _] Hr. unfold mayEvict. simpl. by rewrite Es, Hev. Qed.

Lemma evictable_resnap a r : on_snap a -> r ∈ R -> evictable (resnap s' a) r = evictable a r.
Proof. intros Ho Hr. unfold evictable. by rewrite mayEvict_resnap. Qed.

Lemma foldl_resnap {B} (f : admission -> B -> admission) (l : list B) a :
  on_snap a -> (forall a x, on_snap a -> x ∈ l ->
    f (resnap s' a) x = resnap s' (f a x) /\ on_snap (f a x)) ->
  foldl f (resnap s' a) l = resnap s' (foldl f a l).
Proof.
  revert a. induction l as [|x l IH]; intros a Ho Hf; [done|]. simpl.
  destruct (Hf a x Ho ltac:(left)) as [-> Ho']. apply IH; [done|].
  intros a' y Ho'' Hy. apply Hf; [done|by right].
Qed.

Lemma evictOrBlock_resnap a r : on_snap a -> r ∈ R ->
  evictOrBlock (resnap s' a) r = resnap s' (evictOrBlock a r) /\ on_snap (evictOrBlock a r).
Proof.
  intros Ho Hr. unfold evictOrBlock. rewrite evictable_resnap by done. by case_match.
Qed.

Lemma ruleMatrix_resnap a : on_snap a -> ruleMatrix (resnap s' a) = resnap s' (ruleMatrix a).
Proof.
  intros Ho. unfold ruleMatrix. apply foldl_resnap; [done|]. intros b r Hb Hr.
  destruct Ho as [_ ER], Hb as [Es ER']. simpl in Hr. rewrite ER in Hr.
  rewrite Es. simpl. rewrite (sa_allowed _ _ Hag). case_match; [done|].
  by apply evictOrBlock_resnap.
Qed.

Lemma bootstrap_resnap a :
  on_snap a -> bootstrapEvictTouchers (resnap s' a) = resnap s' (bootstrapEvictTouchers a).
Proof.
  intros Ho. unfold bootstrapEvictTouchers. apply foldl_resnap; [done|]. intros b r Hb Hr.
  destruct Ho as [_ ER]. simpl in Hr. rewrite ER in Hr. simpl.
  case_match; [done|]. rewrite evictable_resnap by done. by case_match.
Qed.

Lemma precedence_resnap l a best :
  foldl precedenceStep (resnap s' a, best) l =
    let res := foldl precedenceStep (a, best) l in (resnap s' res.1, res.2).
Proof.
  revert a best. induction l as [|r l IH]; intros a best; [done|]. simpl.
  destruct (firstSharedGPU r (adm_gpuIdx a)); [|apply IH].
  destruct (procHasUnknownVRAM r); [apply IH|].
  change (block (resnap s' a)) with (resnap s' (block a)). repeat case_match; apply IH.
Qed.

Lemma blockOnKnownTouchers_resnap a :
  blockOnKnownTouchers (resnap s' a) = resnap s' (blockOnKnownTouchers a).
Proof.
  unfold blockOnKnownTouchers. simpl. rewrite precedence_resnap. cbv zeta.
  destruct (foldl precedenceStep (a, None) (adm_running a)) as [b [[x g]|]]; done.
Qed.

Lemma ruleUnknownVRAMCandidate_resnap a :
  on_snap a -> ruleUnknownVRAMCandidate (resnap s' a) = resnap s' (ruleUnknownVRAMCandidate a).
Proof.
  intros Ho. unfold ruleUnknownVRAMCandidate. simpl. destruct (adm_unknownVRAM a); simpl; [|done].
  destruct Ho as [Es ER] eqn:E. rewrite Es, (sa_eligible _ _ Hag).
  case_match; auto using bootstrap_resnap, blockOnKnownTouchers_resnap.
Qed.

Lemma ruleUnknownVRAMOccupant_resnap a :
  on_snap a -> ruleUnknownVRAMOccupant (resnap s' a) = resnap s' (ruleUnknownVRAMOccupant a).
Proof.
  intros Ho. unfold ruleUnknownVRAMOccupant. apply foldl_resnap; [done|]. intros b r Hb Hr.
  destruct Ho as [_ ER]. simpl in Hr. rewrite ER in Hr. simpl. case_match; [done|].
  by apply evictOrBlock_resnap.
Qed.

Lemma orderVictims_resnap a l : orderVictims (resnap s' a) l = orderVictims a l.
Proof. done. Qed.

Lemma evictableOf_resnap a l :
  on_snap a -> (forall r, r ∈ l -> r ∈ R) -> evictableOf (resnap s' a) l = evictableOf a l.
Proof. intros Ho Hl. apply filter_ext_elem. auto using mayEvict_resnap. Qed.

Lemma drawUntilFits_resnap freed budget l a sum :
  on_snap a -> (forall r, r ∈ l -> r ∈ R) ->
  drawUntilFits freed budget l (resnap s' a) sum =
    let res := drawUntilFits freed budget l a sum in (resnap s' res.1, res.2).
Proof.
  revert a sum. induction l as [|r l IH]; intros a sum Ho Hl; [done|]. simpl.
  case_match; [done|]. rewrite evictable_resnap by (done || apply Hl; left).
  case_match; [|change (queue r (resnap s' a)) with (resnap s' (queue r a))];
    apply IH; auto; intros x Hx; apply Hl; by right.
Qed.

Lemma drawCount_resnap deficit l a n :
  on_snap a -> (forall r, r ∈ l -> r ∈ R) ->
  drawCount deficit l (resnap s' a) n =
    let res := drawCount deficit l a n in (resnap s' res.1, res.2).
Proof.
  revert a n. induction l as [|r l IH]; intros a n Ho Hl; [done|]. simpl.
  case_match; [done|]. rewrite evictable_resnap by (done || apply Hl; left).
  case_match; [|change (queue r (resnap s' a)) with (resnap s' (queue r a))];
    apply IH; auto; intros x Hx; apply Hl; by right.
Qed.

Lemma pool_resnap amount freed budget a own (blk : admission -> admission) :
  on_snap a -> (forall a, blk (resnap s' a) = resnap s' (blk a)) ->
  (let '(sum, holders) := collectHolders amount (resnap s' a) own in
   if sum <=? budget then resnap s' a
   else let '(b, sum) := drawUntilFits freed budget
          (orderVictims (resnap s' a) (evictableOf (resnap s' a) holders)) (resnap s' a) sum in
        if budget <? sum then blk b else b)
  = resnap s'
      (let '(sum, holders) := collectHolders amount a own in
       if sum <=? budget then a
       else let '(b, sum) := drawUntilFits freed budget
              (orderVictims a (evictableOf a holders)) a sum in
            if budget <? sum then blk b else b).
Proof.
  intros Ho Hblk. change (collectHolders amount (resnap s' a) own) with (collectHolders amount a own).
  pose proof (collectHolders_running amount a own) as Hrun.
  destruct (collectHolders amount a own) as [sum holders]. simpl in Hrun.
  assert (forall r, r ∈ holders -> r ∈ R) as Hh.
  { destruct Ho as [_ <-]. auto. }
  case_match; [done|]. rewrite orderVictims_resnap, evictableOf_resnap by done.
  rewrite drawUntilFits_resnap; [|done|].
  - cbv zeta. destruct (drawUntilFits _ _ _ a sum) as [b sum']. simpl. by case_match.
  - intros r. rewrite orderVictims_elem, evictableOf_elem. intros []. auto.
Qed.

Lemma chargeGPUBudget_resnap a g :
  on_snap a -> chargeGPUBudget (resnap s' a) g = resnap s' (chargeGPUBudget a g).
Proof.
  intros Ho. unfold chargeGPUBudget. case_match; [done|].
  change (adm_snap (resnap s' a)) with s'. rewrite (proj1 Ho), (sa_budgets _ _ Hag).
  case_match; [done|]. by apply pool_resnap.
Qed.

Lemma ruleHostRAM_resnap a : on_snap a -> ruleHostRAM (resnap s' a) = resnap s' (ruleHostRAM a).
Proof.
  intros Ho. unfold ruleHostRAM. change (adm_snap (resnap s' a)) with s'.
  rewrite (proj1 Ho), (sa_ram _ _ Hag), (sa_inflight _ _ Hag), (sa_guess _ _ Hag).
  change (adm_spec (resnap s' a)) with (adm_spec a).
  do 3 (case_match; [done|]). by apply pool_resnap.
Qed.

Lemma ruleProcessCount_resnap a :
  on_snap a -> ruleProcessCount (resnap s' a) = resnap s' (ruleProcessCount a).
Proof.
  intros Ho. unfold ruleProcessCount. change (adm_snap (resnap s' a)) with s'.
  rewrite (proj1 Ho), (sa_max _ _ Hag). case_match; [done|].
  change (adm_running (resnap s' a)) with (adm_running a).
  change (adm_toEvict (resnap s' a)) with (adm_toEvict a). case_match; [done|].
  rewrite orderVictims_resnap.
  rewrite (filter_ext_elem _ (fun r => negb (queued a r) && mayEvict a r)).
  - rewrite drawCount_resnap; [|done|].
    + cbv zeta. destruct (drawCount _ _ a 0) as [b drawn]. simpl. by case_match.
    + intros r. rewrite orderVictims_elem, elem_of_filter_bool. by destruct Ho as [_ ->]; intros [].
  - intros r Hr. change (queued (resnap s' a) r) with (queued a r).
    rewrite mayEvict_resnap; [done|done|]. by destruct Ho as [_ <-].
Qed.

Lemma runRules_resnap a : on_snap a -> runRules (resnap s' a) = resnap s' (runRules a).
Proof.
  intros Ho. unfold runRules.
  rewrite ruleMatrix_resnap by done.
  pose proof (on_snap_rtc _ _ (ruleMatrix_rtc a) Ho) as H1.
  rewrite ruleUnknownVRAMCandidate_resnap by done.
  pose proof (on_snap_rtc _ _ (ruleUnknownVRAMCandidate_rtc _) H1) as H2.
  rewrite ruleUnknownVRAMOccupant_resnap by done.
  pose proof (on_snap_rtc _ _ (ruleUnknownVRAMOccupant_rtc _) H2) as H3.
  assert (forall b, on_snap b -> rulePerGPUVRAM (resnap s' b) = resnap s' (rulePerGPUVRAM b)) as E.
  { intros b Hb. apply foldl_resnap; [done|]. intros c g Hc _.
    split; [by apply chargeGPUBudget_resnap|]. eapply on_snap_rtc; [apply chargeGPUBudget_rtc|done]. }
  rewrite E by done. pose proof (on_snap_rtc _ _ (rulePerGPUVRAM_rtc _) H3) as H4.
  rewrite ruleHostRAM_resnap by done.
  pose proof (on_snap_rtc _ _ (ruleHostRAM_rtc _) H4) as H5.
  by apply ruleProcessCount_resnap.
Qed.

End resnap.

Lemma terminalRefusal_agree s s' spec a :
  snap_agree s s' -> terminalRefusal s' spec (resnap s' a) = terminalRefusal s spec a.
Proof.
  intros Hag. unfold terminalRefusal, ownDemandRefusal, ramOwnDemandRefusal.
  rewrite (sa_budgets _ _ Hag), (sa_ram _ _ Hag), (sa_ceiling _ _ Hag). simpl.
  assert (pinnedUnknownOccupantRefusal s' spec (adm_running a) (adm_gpuIdx a)
          = pinnedUnknownOccupantRefusal s spec (adm_running a) (adm_gpuIdx a)) as ->; [|done].
  unfold pinnedUnknownOccupantRefusal, pinnedBlockerStep. by rewrite (sa_allowed _ _ Hag).
Qed.

(** Two snapshots with the same sorted competitors, the same limits and the same
    evictable processes give the same pipeline result. *)
Lemma pipeline_agree `{Unicode} s s' spec :
  snap_agree s s' -> adm_running (newAdmission s' spec) = adm_running (newAdmission s spec) ->
  (forall r, r ∈ adm_running (newAdmission s spec) ->
    isEvictable r (ps_Now s') (ps_EvictionGrace s') =
    isEvictable r (ps_Now s) (ps_EvictionGrace s)) ->
  terminalRefusal s' spec (newAdmission s' spec) = terminalRefusal s spec (newAdmission s spec) /\
  runRules (newAdmission s' spec) = resnap s' (runRules (newAdmission s spec)).
Proof.
  intros Hag HR Hev.
  assert (newAdmission s' spec = resnap s' (newAdmission s spec)) as E.
  { unfold newAdmission, resnap in *. simpl in *. by rewrite HR. }
  rewrite E. split; [by apply terminalRefusal_agree|].
  by apply (runRules_resnap s s' (adm_running (newAdmission s spec))).
Qed.

Lemma decide_with_resnap s b a : decide_with b (resnap s a) = decide_with b a.
Proof. done. Qed.
