(* ===== verification/PolicyProps.v ===== *)
(** * Properties of the admission policy

    The theorems about [Admit] of [policy.go]: the answer is right (OK exactly when
    the declarative rule holds, an eviction is enough for the retry), safe (who may
    be a victim, in which order), well formed, deterministic, and live once a grace
    window has passed. *)

From Stdlib Require Import ZArith Lia Ascii.
From stdpp Require Import base tactics option list numbers strings pretty gmap relations sorting.
From S2P Require Import Prelude RuntimeTypes Policy PolicyOrder PolicyRules PolicyFits PolicyDecision.
Local Open Scope Z_scope.

(** ** Vocabulary of the statements *)

Definition okDecision : Decision := mkDecision true None "" [] false false false false false.
Definition evictDecision (ids : list string) (bootstrap : bool) : Decision :=
  mkDecision false None "" ids false false false bootstrap false.
Definition waitDecision (message : string) (onRAM onGrace : bool) : Decision :=
  mkDecision false None message [] true onRAM onGrace false false.
Definition noCapacityDecision (message : string) : Decision :=
  mkDecision false None message [] false false false false true.

(** The same host with another running set, or another clock. *)
Definition setRunning (l : list RunningProc) (s : PolicySnapshot) : PolicySnapshot :=
  mkPolicySnapshot l (ps_MaxProcesses s) (ps_Now s) (ps_EvictionGrace s) (ps_Budgets s)
    (ps_HostRAMBudgetMB s) (ps_HostRAMCeilingMB s) (ps_RAMBootstrapInFlight s)
    (ps_RAMBootstrapGuessMB s) (ps_VRAMBootstrapEligible s) (ps_NoEvict s) (ps_Allowed s).

Definition setNow (t : time) (s : PolicySnapshot) : PolicySnapshot :=
  mkPolicySnapshot (ps_Running s) (ps_MaxProcesses s) t (ps_EvictionGrace s) (ps_Budgets s)
    (ps_HostRAMBudgetMB s) (ps_HostRAMCeilingMB s) (ps_RAMBootstrapInFlight s)
    (ps_RAMBootstrapGuessMB s) (ps_VRAMBootstrapEligible s) (ps_NoEvict s) (ps_Allowed s).

(** The host once the processes named in [ids] have drained. *)
Definition drained (ids : list string) (s : PolicySnapshot) : PolicySnapshot :=
  setRunning (List.filter (fun r => negb (bool_decide (rp_SpecID r ∈ ids))) (ps_Running s)) s.

(** ** Shared lemmas *)

Section outcomes.
Context `{Unicode}.
Implicit Types (snap : PolicySnapshot) (spec : Spec).

(** The pipeline state a decision is built from. *)
Definition finalState snap spec : admission := runRules (newAdmission snap spec).

Lemma finalState_inv snap spec : adm_inv (finalState snap spec).
Proof. eapply rtc_inv; [apply runRules_rtc|]. apply newAdmission_inv. Qed.

Lemma finalState_static snap spec : same_static (newAdmission snap spec) (finalState snap spec).
Proof. apply rtc_static, runRules_rtc. Qed.

Lemma finalState_running snap spec r :
  r ∈ adm_running (finalState snap spec) <-> r ∈ others snap spec.
Proof. destruct (finalState_static snap spec) as (_ & _ & -> & _). apply a0_running. Qed.

Lemma finalState_unique snap spec :
  unique_running snap -> unique_ids (adm_running (finalState snap spec)).
Proof. destruct (finalState_static snap spec) as (_ & _ & -> & _). apply a0_unique. Qed.

Inductive outcome snap spec : Decision -> Prop :=
| outcome_terminal reason message :
    terminalRefusal snap spec (newAdmission snap spec) = Some (refusal reason message) ->
    outcome snap spec (refusal reason message)
| outcome_wait :
    terminalRefusal snap spec (newAdmission snap spec) = None ->
    adm_blocked (finalState snap spec) = true ->
    outcome snap spec
      (waitDecision (adm_waitMessage (finalState snap spec))
         (adm_ramBlocked (finalState snap spec)) (blockedSolelyByGrace snap spec))
| outcome_ok :
    terminalRefusal snap spec (newAdmission snap spec) = None ->
    adm_blocked (finalState snap spec) = false -> adm_toEvict (finalState snap spec) = ∅ ->
    outcome snap spec okDecision
| outcome_evict :
    terminalRefusal snap spec (newAdmission snap spec) = None ->
    adm_blocked (finalState snap spec) = false -> adm_toEvict (finalState snap spec) <> ∅ ->
    outcome snap spec
      (evictDecision (evictList (finalState snap spec))
         (adm_bootstrapEvicted (finalState snap spec))).

Lemma admitSteps_outcome snap spec : outcome snap spec (admitSteps snap spec).
Proof.
  rewrite admitSteps_unfold.
  destruct (terminalRefusal snap spec (newAdmission snap spec)) as [dec|] eqn:Et.
  { destruct (terminalRefusal_shape _ _ _ _ Et) as (reason & message & ->). by constructor. }
  fold (finalState snap spec). unfold decide_with.
  destruct (adm_blocked (finalState snap spec)) eqn:Eb; [by constructor|].
  destruct (_ =? 0)%nat eqn:Es.
  - apply outcome_ok; [done..|]. by apply toEvict_empty.
  - apply outcome_evict; [done..|]. intros E. apply toEvict_empty in E. congruence.
Qed.

Lemma evictList_nonempty snap spec :
  adm_toEvict (finalState snap spec) <> ∅ -> evictList (finalState snap spec) <> [].
Proof.
  intros Hne E. destruct (map_choose _ Hne) as (id & r & Hr).
  assert (id ∈ evictList (finalState snap spec)) as Hin.
  { apply evictList_dom; [apply finalState_inv|]. by apply elem_of_dom_2 in Hr. }
  rewrite E in Hin. by apply elem_of_nil in Hin.
Qed.

Lemma Admit_gate snap spec :
  Admit snap spec =
    if ps_NoEvict snap then noEvictGate spec (admitSteps snap spec) else admitSteps snap spec.
Proof. done. Qed.

Lemma Admit_ok_steps snap spec : dec_OK (Admit snap spec) = dec_OK (admitSteps snap spec).
Proof.
  rewrite Admit_gate. unfold noEvictGate. destruct (ps_NoEvict snap); [|done].
  generalize (admitSteps snap spec) as d. intros d. by destruct (dec_OK d) eqn:E; rewrite ?E.
Qed.

(** An eviction can only come from the ungated pipeline. *)
Lemma Admit_evict_inv snap spec id :
  id ∈ dec_Evict (Admit snap spec) ->
  ps_NoEvict snap = false /\ adm_blocked (finalState snap spec) = false /\
  dec_Evict (Admit snap spec) = evictList (finalState snap spec) /\
  exists r, adm_toEvict (finalState snap spec) !! id = Some r /\ rp_SpecID r = id.
Proof.
  rewrite Admit_gate. pose proof (admitSteps_outcome snap spec) as Ho. revert Ho.
  generalize (admitSteps snap spec) as d. intros d Ho Hid.
  assert (ps_NoEvict snap = false) as E.
  { destruct (ps_NoEvict snap); [|done]. unfold noEvictGate in Hid.
    destruct Ho; by apply elem_of_nil in Hid. }
  rewrite E in *.
  destruct Ho; try (by apply elem_of_nil in Hid). split_and!; [done..|].
  apply evictList_elem; [apply finalState_inv|done].
Qed.

Lemma ok_iff_quiet snap spec :
  dec_OK (Admit snap spec) = true <->
  terminalRefusal snap spec (newAdmission snap spec) = None /\
  adm_blocked (finalState snap spec) = false /\ adm_toEvict (finalState snap spec) = ∅.
Proof.
  rewrite Admit_ok_steps. destruct (admitSteps_outcome snap spec); simpl; split; try done;
    intros (? & ? & ?); congruence.
Qed.

Lemma fits_perm snap spec R R' : R ≡ₚ R' -> fits snap spec R -> fits snap spec R'.
Proof.
  intros Hp [H1 H2 H3 H4 H5 H6]. split.
  - intros r. rewrite <- Hp. auto.
  - intros r. rewrite <- Hp. auto.
  - intros r. rewrite <- Hp. auto.
  - intros g. rewrite <- (total_perm _ _ _ Hp). auto.
  - rewrite <- (total_perm _ _ _ Hp). auto.
  - rewrite <- Hp. auto.
Qed.

Lemma unqueued_all a : adm_toEvict a = ∅ -> unqueued a = adm_running a.
Proof.
  intros E. unfold unqueued. induction (adm_running a) as [|r l IH]; [done|]. simpl.
  assert (queued a r = false) as -> by (apply has_key_false; rewrite E; set_solver).
  simpl. by rewrite IH.
Qed.

Lemma fits_no_terminal snap spec :
  amounts_ok snap spec -> fits snap spec (others snap spec) ->
  terminalRefusal snap spec (newAdmission snap spec) = None.
Proof.
  intros Ha Hf. unfold terminalRefusal.
  destruct (ownDemandRefusal snap spec) eqn:E1.
  { destruct (proj1 (ownDemandRefusal_some snap spec) ltac:(by eauto)) as (g & Hg & H0 & Hb).
    pose proof (fits_vram _ _ _ Hf g Hg H0 ltac:(lia)) as Hv.
    assert (0 <= total (gpuAmount (gpu_Index g)) (others snap spec)); [|lia].
    apply total_nonneg. intros r Hr. eapply ao_gpu, others_sub; eauto. }
  destruct (ramOwnDemandRefusal snap spec) eqn:E2.
  { destruct (proj1 (ramOwnDemandRefusal_some snap spec) ltac:(by eauto)) as (Hb & Hr & Hm).
    destruct (fits_ram _ _ _ Hf Hb) as [_ Hfit].
    assert (ramDemand snap spec = spec_RAMMB spec) as E.
    { unfold ramDemand, specHasUnknownRAM. by rewrite (proj2 (Z.eqb_neq _ _)) by lia. }
    rewrite E in Hfit. specialize (Hfit Hr).
    assert (0 <= total ramHolder (others snap spec)); [|lia].
    apply total_nonneg. intros r Hr'. eapply ao_ram, others_sub; eauto. }
  change (adm_unknownVRAM (newAdmission snap spec)) with (specHasUnknownVRAM spec).
  change (adm_gpuIdx (newAdmission snap spec)) with (specGPUIndexes spec).
  destruct (if specHasUnknownVRAM spec then _ else None) eqn:E3.
  { destruct (specHasUnknownVRAM spec) eqn:HU; [|done].
    destruct (proj1 (pinnedUnknownCandidateRefusal_some _ _) ltac:(by eauto)) as (r & Hr & _ & Ht).
    apply a0_running in Hr. rewrite (fits_alone _ _ _ Hf r HU Hr) in Ht. done. }
  destruct (pinnedUnknownOccupantRefusal _ _ _ _) eqn:E4; [|done].
  destruct (proj1 (pinnedUnknownOccupantRefusal_some _ _ _ _) ltac:(by eauto)) as (r & Hr & Hp).
  apply a0_running in Hr. unfold pinnedBlocker in Hp. bool_hyps.
  rewrite (fits_occupant _ _ _ Hf r Hr) in *. done.
Qed.

Lemma fits_ok snap spec :
  amounts_ok snap spec -> fits snap spec (others snap spec) -> admitSteps snap spec = okDecision.
Proof.
  intros Ha Hf. pose proof (fits_no_terminal _ _ Ha Hf) as Ht.
  rewrite admitSteps_unfold, Ht, (fits_runRules snap spec Ha Hf). done.
Qed.

End outcomes.

(** ** Deciding the side conditions on concrete hosts *)

Definition amounts_okb (snap : PolicySnapshot) (spec : Spec) : bool :=
  let ok v := (0 <=? v) && (v <=? MB_bound) in
  forallb (fun r => forallb (fun e : Z * Z => ok e.2) (map_to_list (rp_GPUs r))) (ps_Running snap)
  && forallb (fun r => ok (default 0 (ramHolder r))) (ps_Running snap)
  && forallb (fun g => ok (gpu_VRAMMB g)) (spec_GPUs spec)
  && ok (ramDemand snap spec)
  && (Z.of_nat (length (ps_Running snap)) <=? procs_bound).

Lemma amounts_okb_sound snap spec : amounts_okb snap spec = true -> amounts_ok snap spec.
Proof.
  unfold amounts_okb. intros E. bool_hyps. rewrite !forallb_forall in *. split; [| | |lia|lia].
  - intros i r Hr. apply list_elem_of_In in Hr. unfold gpuAmount.
    destruct (rp_GPUs r !! i) as [v|] eqn:Ev; simpl; [|unfold MB_bound; lia].
    specialize (H r Hr). rewrite forallb_forall in H.
    apply elem_of_map_to_list, list_elem_of_In in Ev. specialize (H _ Ev). simpl in H. bool_hyps. lia.
  - intros r Hr. apply list_elem_of_In in Hr. specialize (H4 r Hr). bool_hyps. lia.
  - intros g Hg. apply list_elem_of_In in Hg. specialize (H3 g Hg). bool_hyps. lia.
Qed.

(** Discharges a hypothesis about a concrete host by evaluating it. *)
Ltac concrete :=
  match goal with
  | |- amounts_ok _ _ => apply amounts_okb_sound; vm_compute; reflexivity
  | |- unique_running _ => unfold unique_running, unique_ids; refine (bool_decide_unpack _ _); vm_compute; exact I
  | |- _ ∈ _ => repeat (apply list_elem_of_here || apply list_elem_of_further)
  | |- _ = _ => vm_compute; reflexivity
  | |- _ <> _ => vm_compute; discriminate
  | |- _ < _ => vm_compute; reflexivity
  end.

Section claims.
Context `{Unicode}.
Implicit Types (snap : PolicySnapshot) (spec : Spec).

Lemma drained_others snap spec :
  unique_running snap ->
  let ids := evictList (finalState snap spec) in
  others (drained ids snap) spec ≡ₚ unqueued (finalState snap spec).
Proof.
  intros Hu ids.
  assert (unqueued (finalState snap spec) =
    List.filter (fun r => negb (bool_decide (rp_SpecID r ∈ ids))) (adm_running (finalState snap spec)))
    as ->.
  { apply List.filter_ext. intros r. f_equal. apply eq_true_iff_eq.
    rewrite bool_decide_eq_true, queued_dom. symmetry. apply evictList_dom, finalState_inv. }
  destruct (finalState_static snap spec) as (_ & _ & -> & _).
  rewrite (newAdmission_running snap spec). clearbody ids. unfold others, drained. simpl.
  clear. induction (ps_Running snap) as [|r l IH]; [done|]. simpl.
  destruct (negb (bool_decide _)) eqn:E1; simpl; destruct (negb (String.eqb _ _)) eqn:E2; simpl;
    rewrite ?E1; auto.
Qed.

Lemma amounts_ok_shrink snap spec (p : RunningProc -> bool) :
  amounts_ok snap spec -> amounts_ok (setRunning (List.filter p (ps_Running snap)) snap) spec.
Proof.
  intros [H1 H2 H3 H4 H5]. split; simpl; [| |done|done|].
  - intros i. eapply bounded_sub; [|apply H1]. by intros r []%elem_of_filter_bool.
  - eapply bounded_sub; [|apply H2]. by intros r []%elem_of_filter_bool.
  - pose proof (List.filter_length_le p (ps_Running snap)). lia.
Qed.

Lemma fits_setRunning snap spec l R : fits snap spec R <-> fits (setRunning l snap) spec R.
Proof. split; intros [H1 H2 H3 H4 H5 H6]; split; done. Qed.

Lemma fits_filter snap spec (p : RunningProc -> bool) :
  amounts_ok snap spec -> fits snap spec (others snap spec) ->
  fits snap spec (List.filter p (others snap spec)).
Proof.
  intros Ha [H1 H2 H3 H4 H5 H6]. split.
  - intros r []%elem_of_filter_bool. auto.
  - intros r HU []%elem_of_filter_bool. auto.
  - intros r []%elem_of_filter_bool. auto.
  - intros g Hg H0 Hb. specialize (H4 g Hg H0 Hb).
    assert (total (gpuAmount (gpu_Index g)) (List.filter p (others snap spec))
            <= total (gpuAmount (gpu_Index g)) (others snap spec)); [|lia].
    apply total_filter_le. intros r Hr. eapply ao_gpu, others_sub; eauto.
  - intros Hb. destruct (H5 Hb) as [? Hd]. split; [done|]. intros Hd0. specialize (Hd Hd0).
    assert (total ramHolder (List.filter p (others snap spec))
            <= total ramHolder (others snap spec)); [|lia].
    apply total_filter_le. intros r Hr. eapply ao_ram, others_sub; eauto.
  - intros Hm. specialize (H6 Hm). pose proof (List.filter_length_le p (others snap spec)). lia.
Qed.

(** An OK answer leaves every other process in place. *)
Lemma Admit_ok_unqueued snap spec :
  dec_OK (Admit snap spec) = true ->
  adm_blocked (runRules (newAdmission snap spec)) = false
  /\ unqueued (runRules (newAdmission snap spec)) ≡ₚ others snap spec.
Proof.
  intros (Ht & Hb & He)%ok_iff_quiet. split; [done|].
  fold (finalState snap spec). rewrite unqueued_all by done.
  destruct (finalState_static snap spec) as (_ & _ & -> & _). apply newAdmission_running.
Qed.

Lemma Admit_ok_fits snap spec :
  unique_running snap -> amounts_ok snap spec -> dec_OK (Admit snap spec) = true ->
  fits snap spec (others snap spec).
Proof.
  intros Hu Ha [Hb Hp]%Admit_ok_unqueued.
  eapply fits_perm; [done|apply (runRules_fits snap spec Hu Ha Hb)].
Qed.

(** The process count and the coresidency matrix hold whatever the amounts are. *)
Lemma Admit_ok_count snap spec :
  unique_running snap -> dec_OK (Admit snap spec) = true -> 0 < ps_MaxProcesses snap ->
  Z.of_nat (length (others snap spec)) + 1 <= ps_MaxProcesses snap.
Proof. intros Hu [Hb <-]%Admit_ok_unqueued. by apply runRules_count. Qed.

Lemma Admit_ok_matrix snap spec r :
  dec_OK (Admit snap spec) = true -> r ∈ others snap spec ->
  pairAllowed (ps_Allowed snap) (specBase spec) r = true.
Proof. intros [Hb Hp]%Admit_ok_unqueued. rewrite <- Hp. by apply runRules_matrix. Qed.

(** What is left when an answer is no refusal, no wait and no eviction. *)
Lemma Admit_otherwise_ok snap spec :
  dec_NoCapacity (Admit snap spec) = false ->
  dec_Reason (Admit snap spec) <> Some StateNotPermitted ->
  dec_Reason (Admit snap spec) <> Some StatePendingVRAMUnknown ->
  dec_Wait (Admit snap spec) = false -> dec_Evict (Admit snap spec) = [] ->
  dec_OK (Admit snap spec) = true.
Proof.
  rewrite Admit_gate. pose proof (admitSteps_outcome snap spec) as Ho. revert Ho.
  generalize (admitSteps snap spec) as dec. intros dec Ho.
  destruct (ps_NoEvict snap).
  { unfold noEvictGate. destruct (dec_OK dec) eqn:E; [by rewrite E|done]. }
  destruct Ho as [reason message Ht| | |Ht Hb Hne]; try done.
  - destruct (terminalRefusal_reason _ _ _ _ Ht) as (? & ? & [= <- <-] & [->| ->]); done.
  - intros _ _ _ _ E. by apply evictList_nonempty in Hne.
Qed.

(** A no-evict admission never waits and never evicts. *)
Lemma Admit_noEvict snap spec :
  ps_NoEvict snap = true ->
  dec_Wait (Admit snap spec) = false /\ dec_Evict (Admit snap spec) = [].
Proof.
  intros HN. rewrite Admit_gate, HN. pose proof (admitSteps_outcome snap spec) as Ho. revert Ho.
  generalize (admitSteps snap spec) as dec. intros dec Ho. unfold noEvictGate.
  destruct (dec_OK dec) eqn:E; [|done]. destruct Ho; done.
Qed.

(** C3.  [Admit] answers OK exactly when the candidate and the processes it would
    run beside satisfy the declarative admission rule [fits]: every pair open in
    the matrix, unknown VRAM demands alone on their cards from both sides, every
    GPU budget and the host-RAM pool not exceeded, the process limit kept. *)
Theorem Admit_ok_iff_fits snap spec :
  unique_running snap -> amounts_ok snap spec ->
  dec_OK (Admit snap spec) = true <-> fits snap spec (others snap spec).
Proof.
  intros Hu Ha. split; [by apply Admit_ok_fits|].
  intros Hf. by rewrite Admit_ok_steps, fits_ok.
Qed.

(** C6.  An eviction is enough: once the processes an Evict answer names are gone,
    the same admission answers OK, with no further victim and no wait. *)
Theorem Admit_evict_then_ok snap spec :
  unique_running snap -> amounts_ok snap spec -> dec_Evict (Admit snap spec) <> [] ->
  Admit (drained (dec_Evict (Admit snap spec)) snap) spec = okDecision.
Proof.
  intros Hu Ha Hne. destruct (dec_Evict (Admit snap spec)) as [|id ids] eqn:E; [done|].
  rewrite <- E. assert (id ∈ dec_Evict (Admit snap spec)) as Hid by (rewrite E; left).
  destruct (Admit_evict_inv snap spec id Hid) as (HN & Hb & -> & _).
  set (snap' := drained _ snap).
  rewrite Admit_gate. change (ps_NoEvict snap') with (ps_NoEvict snap). rewrite HN.
  apply fits_ok; [by apply amounts_ok_shrink|]. unfold snap', drained. apply fits_setRunning.
  eapply fits_perm; [symmetry; by apply drained_others|]. by apply runRules_fits.
Qed.

(** C16.  Who may be evicted: a victim is a running process other than the
    candidate and its siblings, idle, past loading, not pinned and out of its
    grace window; and no process is named twice. *)
Theorem Admit_victims_idle snap spec :
  NoDup (dec_Evict (Admit snap spec)) /\
  forall id, id ∈ dec_Evict (Admit snap spec) ->
  exists r, r ∈ ps_Running snap /\ rp_SpecID r = id /\ id <> spec_ID spec /\
    baseOf r <> specBase spec /\ rp_Pinned r = false /\ rp_Starting r = false /\
    rp_InFlight r = 0 /\
    (0 < ps_EvictionGrace snap ->
     ps_EvictionGrace snap < time_Sub (ps_Now snap) (rp_LastUsed r)).
Proof.
  split.
  { destruct (dec_Evict (Admit snap spec)) as [|id ids] eqn:E; [constructor|].
    destruct (Admit_evict_inv snap spec id) as (_ & _ & E' & _); [rewrite E; left|].
    rewrite <- E, E'. apply evictList_NoDup, finalState_inv. }
  intros id Hid. destruct (Admit_evict_inv snap spec id Hid) as (_ & _ & _ & r & Hr & <-).
  destruct (inv_victims _ (finalState_inv snap spec) _ _ Hr) as [_ (Hrun & Hm & _)].
  apply finalState_running, elem_of_filter_bool in Hrun as [Hin Hne].
  rewrite (mayEvict_static _ _ _ (finalState_static snap spec)) in Hm.
  unfold mayEvict, isEvictable, withinGrace in Hm. simpl in Hm. bool_hyps.
  exists r. split_and!; try done. intros Hg.
  match goal with Hw : (_ && _) = false |- _ => apply andb_false_iff in Hw as [|] end; bool_hyps; lia.
Qed.

(** Highest index leaves first: if an instance of a spec is a victim, every
    running instance of that spec with a higher index is one too, and is named
    before it. *)
Theorem Admit_siblings_leave_highest_first snap spec x y :
  unique_running snap -> x ∈ others snap spec -> y ∈ ps_Running snap ->
  rp_SpecID y ∈ dec_Evict (Admit snap spec) ->
  baseOf x = baseOf y -> rp_Instance y < rp_Instance x ->
  before (rp_SpecID x) (rp_SpecID y) (dec_Evict (Admit snap spec)).
Proof.
  intros Hu Hx Hy Hid Hb Hlt.
  destruct (Admit_evict_inv snap spec _ Hid) as (_ & _ & -> & r & Hr & E).
  pose proof (finalState_inv snap spec) as Hi.
  destruct (inv_victims _ Hi _ _ Hr) as [_ (Hrun & _ & Hh)].
  assert (y = r) as ->.
  { eapply unique_ids_inj; [exact Hu|done| |done].
    by apply finalState_running, others_sub in Hrun. }
  apply finalState_running in Hx. rewrite higherSiblingStays_false in Hh.
  apply evictList_before; auto using finalState_unique.
  apply queued_dom. by apply elem_of_dom_2 in Hr.
Qed.

(** C18.  The answer does not depend on the order in which the running processes
    are listed: the manager ranges over a map, whose order is arbitrary. *)
Theorem Admit_order_independent snap spec l :
  unique_running snap -> l ≡ₚ ps_Running snap ->
  Admit (setRunning l snap) spec = Admit snap spec.
Proof.
  intros Hu Hp.
  assert (forall s, ps_Running s = ps_Running snap ->
    adm_running (newAdmission (setRunning l s) spec) = adm_running (newAdmission s spec)) as HR.
  { intros s Es. simpl. rewrite Es. apply sort_Slice_perm_eq; [apply _| |].
    - intros x y Hx Hy H1 H2. apply elem_of_filter_bool in Hx as [Hx _], Hy as [Hy _].
      rewrite Hp in Hx, Hy. eapply unique_ids_inj; eauto using lessRunning_sep.
    - by rewrite Hp. }
  assert (forall n s, ps_Running s = ps_Running snap ->
    admitStepsFuel n (setRunning l s) spec = admitStepsFuel n s spec) as HF.
  { induction n as [|n IH]; intros s Es;
      (destruct (pipeline_agree s (setRunning l s) spec) as [Ht Hr]; [done|by apply HR|done|]).
    - simpl. by rewrite Ht, Hr.
    - rewrite !admitStepsFuel_S, Ht, Hr, decide_with_resnap.
      change (withoutGrace (setRunning l s)) with (setRunning l (withoutGrace s)).
      by rewrite IH. }
  unfold Admit, admitSteps. by rewrite HF.
Qed.

(** The answer has exactly one of the five documented shapes; the fifth,
    NoCapacity, is the only refusal a no-evict admission gives and is given by no
    other admission. *)
Theorem Admit_shape snap spec :
  let dec := Admit snap spec in
  dec = okDecision \/
  if ps_NoEvict snap then exists message, dec = noCapacityDecision message
  else (exists ids bootstrap, ids <> [] /\ dec = evictDecision ids bootstrap) \/
       (exists message onRAM onGrace, dec = waitDecision message onRAM onGrace) \/
       (exists reason message, dec = refusal reason message).
Proof.
  cbv zeta. rewrite Admit_gate. pose proof (admitSteps_outcome snap spec) as Ho. revert Ho.
  generalize (admitSteps snap spec) as dec. intros dec Ho. destruct (ps_NoEvict snap).
  - destruct Ho; [right|right|by left|right]; eexists; reflexivity.
  - destruct Ho; [|by eauto 8|by left|].
    + right. do 2 right. eauto.
    + right. left. do 2 eexists. split; [by apply evictList_nonempty|done].
Qed.

(** Known demand beats unknown demand: a candidate whose own VRAM demand is
    unknown and that holds no bootstrap grant never evicts, and never starts
    beside, a process of known demand on one of its cards. *)
Theorem Admit_known_beats_unknown snap spec r :
  specHasUnknownVRAM spec = true -> ps_VRAMBootstrapEligible snap = false ->
  r ∈ others snap spec -> knownToucher (specGPUIndexes spec) r = true ->
  dec_OK (Admit snap spec) = false /\ dec_Evict (Admit snap spec) = [].
Proof.
  intros HU HE Hr Hk.
  assert (adm_blocked (finalState snap spec) = true) as Hb.
  { destruct (adm_blocked (finalState snap spec)) eqn:Hb; [done|]. exfalso.
    destruct (stages snap spec) as (S1 & S2 & S3 & S4 & S5 & S6).
    assert (adm_blocked (ruleUnknownVRAMCandidate (ruleMatrix (newAdmission snap spec))) = false) as H2.
    { eapply not_blocked_mono; [|exact Hb]. apply rtc_evict_le.
      etrans; [exact S3|]. etrans; [exact S4|]. by etrans. }
    destruct (rtc_static _ _ S1) as (Hsn & _ & R1 & U1 & G1 & _).
    destruct (ruleUnknownVRAMCandidate_post _ r H2) as [He _].
    - by rewrite U1.
    - rewrite R1. by apply a0_running.
    - by rewrite G1.
    - rewrite Hsn in He. simpl in He. congruence. }
  split.
  - destruct (dec_OK (Admit snap spec)) eqn:E; [|done].
    apply ok_iff_quiet in E as (_ & E & _). congruence.
  - destruct (dec_Evict (Admit snap spec)) as [|id ids] eqn:E; [done|].
    destruct (Admit_evict_inv snap spec id) as (_ & Hb' & _); [rewrite E; left|]. congruence.
Qed.

(** A Wait flagged as blocked only by the grace window ends by the mere
    passing of time: at any later instant at which no process is within its grace
    window any more, the same admission proceeds -- it answers OK or Evict. *)
Theorem Admit_grace_wait_ends snap spec t :
  dec_WaitOnGrace (Admit snap spec) = true ->
  (forall r, r ∈ ps_Running snap -> withinGrace (rp_LastUsed r) t (ps_EvictionGrace snap) = false) ->
  let dec := Admit (setNow t snap) spec in
  dec_OK dec = true \/ dec_Evict dec <> [].
Proof.
  intros Hw Hout. cbv zeta.
  assert (ps_NoEvict snap = false /\ blockedSolelyByGrace snap spec = true) as [HN Hs].
  { revert Hw. rewrite Admit_gate. pose proof (admitSteps_outcome snap spec) as Ho. revert Ho.
    generalize (admitSteps snap spec) as d. intros d Ho.
    destruct (ps_NoEvict snap); destruct Ho; try done. }
  rewrite Admit_gate. change (ps_NoEvict (setNow t snap)) with (ps_NoEvict snap). rewrite HN.
  unfold blockedSolelyByGrace in Hs. destruct (ps_EvictionGrace snap <=? 0); [done|].
  destruct (pipeline_agree (withoutGrace snap) (setNow t snap) spec) as [Ht Hr]; [done|done| |].
  { intros r Hr. change (adm_running (newAdmission (withoutGrace snap) spec))
      with (adm_running (newAdmission snap spec)) in Hr. apply a0_running, others_sub in Hr.
    unfold isEvictable. simpl. rewrite (Hout r Hr). done. }
  assert (adm_blocked (finalState (setNow t snap) spec)
          = adm_blocked (finalState (withoutGrace snap) spec)) as Eb.
  { unfold finalState. by rewrite Hr. }
  assert (terminalRefusal (withoutGrace snap) spec (newAdmission (withoutGrace snap) spec) = None /\
          adm_blocked (finalState (withoutGrace snap) spec) = false) as [Hn Hb].
  { revert Hs. destruct (admitSteps_outcome (withoutGrace snap) spec); done. }
  rewrite Hn in Ht. rewrite Hb in Eb.
  destruct (admitSteps_outcome (setNow t snap) spec); [congruence|congruence|by left|].
  right. by apply evictList_nonempty.
Qed.

(** The durable refusals of a decision that may evict. *)
Lemma terminal_iff snap spec :
  ps_NoEvict snap = false ->
  is_Some (dec_Reason (Admit snap spec)) <->
  (exists g, g ∈ spec_GPUs spec /\ gpu_VRAMMB g <> 0 /\
     0 < map_get 0 (ps_Budgets snap) (gpu_Index g) < gpu_VRAMMB g) \/
  (0 < ps_HostRAMBudgetMB snap /\ 0 < spec_RAMMB spec /\
     Z.max (ps_HostRAMCeilingMB snap) (ps_HostRAMBudgetMB snap) < spec_RAMMB spec) \/
  (specHasUnknownVRAM spec = true /\ exists r, r ∈ others snap spec /\ rp_Pinned r = true /\
     touchesAnyGPU r (specGPUIndexes spec) = true) \/
  (exists r, r ∈ others snap spec /\ rp_Pinned r = true /\
     unknownToucher (specGPUIndexes spec) r = true).
Proof.
  intros HN. rewrite Admit_gate, HN.
  assert (is_Some (dec_Reason (admitSteps snap spec)) <->
          is_Some (terminalRefusal snap spec (newAdmission snap spec))) as ->.
  { destruct (admitSteps_outcome snap spec) as [reason message Et|Et ?|Et ? ?|Et ? ?];
      rewrite Et; simpl; split; by eauto || intros []. }
  rewrite <- ownDemandRefusal_some, <- ramOwnDemandRefusal_some. unfold terminalRefusal.
  change (adm_unknownVRAM (newAdmission snap spec)) with (specHasUnknownVRAM spec).
  change (adm_gpuIdx (newAdmission snap spec)) with (specGPUIndexes spec).
  assert ((exists r, r ∈ others snap spec /\ rp_Pinned r = true /\
     touchesAnyGPU r (specGPUIndexes spec) = true) <->
     is_Some (pinnedUnknownCandidateRefusal (adm_running (newAdmission snap spec))
       (specGPUIndexes spec))) as ->.
  { rewrite pinnedUnknownCandidateRefusal_some. by setoid_rewrite a0_running. }
  assert ((exists r, r ∈ others snap spec /\ rp_Pinned r = true /\
     unknownToucher (specGPUIndexes spec) r = true) <->
     is_Some (pinnedUnknownOccupantRefusal snap spec (adm_running (newAdmission snap spec))
       (specGPUIndexes spec))) as ->.
  { rewrite pinnedUnknownOccupantRefusal_some. setoid_rewrite a0_running.
    f_equiv. intros r. unfold pinnedBlocker. by rewrite andb_true_iff. }
  assert (forall A : Type, is_Some (@None A) <-> False) as HNone by (split; [by intros []|done]).
  assert (forall (A : Type) (x : A), is_Some (Some x) <-> True) as HSome by (split; eauto).
  destruct (ownDemandRefusal snap spec), (ramOwnDemandRefusal snap spec), (specHasUnknownVRAM spec),
    (pinnedUnknownCandidateRefusal _ _), (pinnedUnknownOccupantRefusal _ _ _ _);
    rewrite ?HNone, ?HSome; intuition congruence.
Qed.

(** C17.  A terminal refusal is reported exactly when the admission may evict and one of the
    four durable situations the policy documents holds, none of which reads the clock or an
    idle state: a known demand above its GPU's budget, a known RAM demand above the most the
    pool could offer, an unknown own demand contested with a pinned process, or a pinned
    process of unknown demand on one of the candidate's cards.  An admission that may not evict
    never reports one: whatever it does not admit it answers with no capacity, and that answer
    is given in no other case. *)
Theorem Admit_terminal_iff snap spec :
  (is_Some (dec_Reason (Admit snap spec)) <->
   ps_NoEvict snap = false /\
   ((exists g, g ∈ spec_GPUs spec /\ gpu_VRAMMB g <> 0 /\
       0 < map_get 0 (ps_Budgets snap) (gpu_Index g) < gpu_VRAMMB g) \/
    (0 < ps_HostRAMBudgetMB snap /\ 0 < spec_RAMMB spec /\
       Z.max (ps_HostRAMCeilingMB snap) (ps_HostRAMBudgetMB snap) < spec_RAMMB spec) \/
    (specHasUnknownVRAM spec = true /\ exists r, r ∈ others snap spec /\ rp_Pinned r = true /\
       touchesAnyGPU r (specGPUIndexes spec) = true) \/
    (exists r, r ∈ others snap spec /\ rp_Pinned r = true /\
       unknownToucher (specGPUIndexes spec) r = true))) /\
  (dec_NoCapacity (Admit snap spec) = true <-> ps_NoEvict snap = true /\ dec_OK (Admit snap spec) = false).
Proof.
  split.
  - destruct (ps_NoEvict snap) eqn:HN; [|by rewrite (terminal_iff _ _ HN); intuition].
    split; [|by intros [? _]]. rewrite Admit_gate, HN. unfold noEvictGate.
    destruct (admitSteps_outcome snap spec); by intros [].
  - rewrite Admit_gate. unfold noEvictGate.
    destruct (admitSteps_outcome snap spec), (ps_NoEvict snap); simpl; intuition congruence.
Qed.

(** The one-shot VRAM bootstrap is reported only on an eviction, only under
    the owner's grant to a candidate of unknown demand, and only when it evicts a
    process of known demand from one of the candidate's cards. *)
Theorem Admit_bootstrap_reported snap spec :
  dec_VRAMBootstrap (Admit snap spec) = true ->
  ps_VRAMBootstrapEligible snap = true /\ specHasUnknownVRAM spec = true /\
  exists r, r ∈ others snap spec /\ knownToucher (specGPUIndexes spec) r = true /\
    rp_SpecID r ∈ dec_Evict (Admit snap spec).
Proof.
  rewrite Admit_gate. pose proof (admitSteps_outcome snap spec) as Ho. revert Ho.
  generalize (admitSteps snap spec) as d. intros d Ho.
  destruct (ps_NoEvict snap); destruct Ho as [| | |Ht Hb He]; try done.
  simpl. intros Hboot. pose proof (finalState_inv snap spec) as Hi.
  destruct (inv_bootstrap _ Hi Hboot) as (HU & HE & r & Hr & Hk & Hq).
  destruct (finalState_static snap spec) as (Es & _ & _ & Eu & Eg & _).
  rewrite Eu in HU. rewrite Es in HE. rewrite Eg in Hk. split_and!; [done..|].
  exists r. split_and!; [by apply finalState_running|done|].
  apply evictList_dom; [done|]. by apply queued_dom.
Qed.

(** Room is monotone: an admission that answers OK still does when any of
    the running processes have left. *)
Theorem Admit_ok_when_fewer_run snap spec (p : RunningProc -> bool) :
  unique_running snap -> amounts_ok snap spec -> dec_OK (Admit snap spec) = true ->
  dec_OK (Admit (setRunning (List.filter p (ps_Running snap)) snap) spec) = true.
Proof.
  intros Hu Ha (Ht & Hb & He)%ok_iff_quiet. pose proof (runRules_fits snap spec Hu Ha Hb) as Hf.
  fold (finalState snap spec) in Hf. rewrite unqueued_all in Hf by done.
  destruct (finalState_static snap spec) as (_ & _ & ER & _). rewrite ER in Hf.
  apply (fits_perm _ _ _ _ (newAdmission_running snap spec)) in Hf.
  rewrite Admit_ok_steps, fits_ok; [done|by apply amounts_ok_shrink|].
  apply fits_setRunning. unfold others. simpl.
  assert (forall q, List.filter q (List.filter p (ps_Running snap))
    = List.filter p (List.filter q (ps_Running snap))) as ->.
  { intros q. induction (ps_Running snap) as [|r l IH]; [done|]. simpl.
    destruct (p r) eqn:E1, (q r) eqn:E2; simpl; rewrite ?E1, ?E2, ?IH; done. }
  by apply fits_filter.
Qed.

End claims.

(** ** Concrete hosts *)

Module Examples.

Definition proc (id base : string) (k : Z) (gpus : gmap Z Z) (ram : Z) (lastUsed : time)
  : RunningProc :=
  mkRunningProc id base k false gpus ram 0 false "chat" lastUsed false.

(** Two instances of "chat" and a "rerank" process on one 24 GB card. *)
Definition running : list RunningProc :=
  [proc "chat" "chat" 0 {[0 := 8000]} 4000 100;
   proc "rerank" "rerank" 0 {[0 := 3000]} 1000 50;
   proc "chat#1" "chat" 1 {[0 := 8000]} 4000 300].

Definition host (now : time) (grace : duration) (eligible noEvict : bool) : PolicySnapshot :=
  mkPolicySnapshot running 8 now grace {[0 := 24000]} 16000 32000 false 2000 eligible noEvict
    {[PairKey "chat" "embed" := true; PairKey "embed" "rerank" := true;
      PairKey "chat" "rerank" := true]}.

Definition candidate (id : string) (vram ram : Z) : Spec :=
  mkSpec id id "" "" [] ∅ [] "" [mkSpecGPU 0 vram] ram 0 "" 0 0 0 0 false false "" "" "" "" "" ""
    "embedding" false 0 0 "" 0.

Definition calm : PolicySnapshot := host 1000 0 false false.

End Examples.
Import Examples.

Lemma Admit_ok_iff_fits_witness :
  dec_OK (@Admit ascii_tables calm (candidate "embed" 5000 1000)) = true /\
  fits calm (candidate "embed" 5000 1000) (others calm (candidate "embed" 5000 1000)).
Proof.
  split; [concrete|].
  apply (@Admit_ok_iff_fits ascii_tables calm (candidate "embed" 5000 1000)); concrete.
Defined.

Lemma Admit_evict_then_ok_witness :
  dec_Evict (@Admit ascii_tables calm (candidate "embed" 10000 1000)) = ["rerank"; "chat#1"] /\
  @Admit ascii_tables (drained (dec_Evict (@Admit ascii_tables calm (candidate "embed" 10000 1000)))
    calm) (candidate "embed" 10000 1000) = okDecision.
Proof.
  split; [concrete|].
  apply (@Admit_evict_then_ok ascii_tables calm (candidate "embed" 10000 1000)); concrete.
Defined.

Lemma Admit_siblings_leave_highest_first_witness :
  dec_Evict (@Admit ascii_tables calm (candidate "embed" 18000 1000))
    = ["rerank"; "chat#1"; "chat"] /\
  before "chat#1" "chat" (dec_Evict (@Admit ascii_tables calm (candidate "embed" 18000 1000))).
Proof.
  split; [concrete|].
  apply (@Admit_siblings_leave_highest_first ascii_tables calm (candidate "embed" 18000 1000)
    (proc "chat#1" "chat" 1 {[0 := 8000]} 4000 300) (proc "chat" "chat" 0 {[0 := 8000]} 4000 100));
    [concrete..| |concrete|concrete].
  change (rp_SpecID _) with "chat".
  replace (dec_Evict _) with ["rerank"; "chat#1"; "chat"] by concrete. concrete.
Defined.

Lemma Admit_order_independent_witness :
  @Admit ascii_tables (setRunning (reverse running) calm) (candidate "embed" 18000 1000)
  = @Admit ascii_tables calm (candidate "embed" 18000 1000).
Proof.
  apply (@Admit_order_independent ascii_tables calm (candidate "embed" 18000 1000)); [concrete|].
  apply reverse_Permutation.
Defined.

Lemma Admit_known_beats_unknown_witness :
  dec_OK (@Admit ascii_tables calm (candidate "embed" 0 1000)) = false /\
  dec_Evict (@Admit ascii_tables calm (candidate "embed" 0 1000)) = [].
Proof.
  apply (@Admit_known_beats_unknown ascii_tables calm (candidate "embed" 0 1000)
    (proc "rerank" "rerank" 0 {[0 := 3000]} 1000 50)); concrete.
Defined.

(** At 310 ns every process is within its 500 ns grace; at 1000 ns none is. *)
Lemma Admit_grace_wait_ends_witness :
  dec_WaitOnGrace (@Admit ascii_tables (host 310 500 false false) (candidate "embed" 10000 1000)) = true /\
  let dec := @Admit ascii_tables (setNow 1000 (host 310 500 false false)) (candidate "embed" 10000 1000) in
  dec_OK dec = true \/ dec_Evict dec <> [].
Proof.
  split; [concrete|].
  apply (@Admit_grace_wait_ends ascii_tables (host 310 500 false false)
    (candidate "embed" 10000 1000) 1000); [concrete|].
  intros r Hr. repeat (apply elem_of_cons in Hr as [->|Hr]; [concrete|]). by apply elem_of_nil in Hr.
Defined.

Lemma Admit_terminal_iff_witness :
  is_Some (dec_Reason (@Admit ascii_tables calm (candidate "embed" 30000 1000))).
Proof.
  apply (@Admit_terminal_iff ascii_tables calm (candidate "embed" 30000 1000)). split; [concrete|].
  left. exists (mkSpecGPU 0 30000). split_and!; concrete.
Defined.

Lemma Admit_bootstrap_reported_witness :
  exists r, r ∈ others (host 1000 0 true false) (candidate "embed" 0 1000) /\
    knownToucher [0] r = true /\
    rp_SpecID r ∈ dec_Evict (@Admit ascii_tables (host 1000 0 true false) (candidate "embed" 0 1000)).
Proof.
  apply (@Admit_bootstrap_reported ascii_tables (host 1000 0 true false) (candidate "embed" 0 1000)).
  concrete.
Defined.

Lemma Admit_ok_when_fewer_run_witness :
  dec_OK (@Admit ascii_tables
    (setRunning (List.filter (fun r => rp_Instance r =? 0) (ps_Running calm)) calm)
    (candidate "embed" 5000 1000)) = true.
Proof.
  apply (@Admit_ok_when_fewer_run ascii_tables calm (candidate "embed" 5000 1000)); concrete.
Defined.
