(* ===== verification/Manager.v ===== *)
(** * The runtime manager: state, environment and local operations

    Models the owner goroutine of [server-agent/internal/runtime/manager.go].  One
    goroutine owns all state and handles one command at a time, so a handler is a
    function from the owner's state to the owner's state.  This file holds the data
    (commands, effects, the instance table), what a turn reads from outside, and the
    operations that concern one instance; [ManagerAdmit] and [ManagerTurns] build
    the admission path and the handlers from them.

    - A pointer to a [specState] is the key it is stored under in [o.specs]: every
      state is reached through the table, and no handler uses one after deleting it.
    - A pointer to a [runningProc] is its generation, a number handed out once; a
      timer and a reply channel are numbers too.
    - What a handler does to the outside -- replies, timers, signals, processes --
      is appended to [o_effects], newest first.
    - What it reads from outside -- the clock, the hardware sample, the measurers,
      whether a process has exited, what the operating system answers, the order in
      which a Go map is iterated -- comes from the class [World], indexed by the
      number of reads so far: two reads in one turn may differ, and nothing is
      assumed about them but that an iteration visits every key once.  [World] also
      carries the parts of the agent this model does not open: the local policy,
      placeholder expansion and config files, the log store.

    Log output is left out.  A nil map or slice and an empty one are the same. *)

From Stdlib Require Import ZArith Lia Ascii.
From stdpp Require Import base tactics option list numbers strings pretty gmap.
From S2P Require Import Prelude RuntimeTypes Policy.
Local Open Scope Z_scope.
Local Open Scope go_scope.

(** ** Constants *)

Definition second : duration := 1000000000.
Definition millisecond : duration := 1000000.

Definition drainGrace : duration := 10 * second.
Definition killGrace : duration := 5 * second.
Definition backoffBase : duration := 1 * second.
Definition backoffCap : duration := 60 * second.
Definition stableRunThreshold : duration := 60 * second.
Definition notPermittedRetryInterval : duration := 5 * second.
Definition ramBootstrapMaxRetries : Z := 1.
Definition ramBootstrapMeasureBeats : Z := 10.
Definition ramPressureBudgetNum : Z := 9.
Definition ramPressureBudgetDen : Z := 10.
Definition ramFreedSettlePushes : Z := 2.
Definition graceWakeSlack : duration := 5 * millisecond.

Definition bootstrapDiedOfMemoryPressure (oomSignaled : bool)
    (measuredRAMMB hostRAMBudgetMB : Z) : bool :=
  if oomSignaled then true
  else if (0 <? hostRAMBudgetMB) && (0 <? measuredRAMMB)
  then int64 (hostRAMBudgetMB * ramPressureBudgetNum)
       <=? int64 (measuredRAMMB * ramPressureBudgetDen)
  else false.

(** ** Data *)

Definition timer := nat.
Definition channel := nat.
Definition generation := nat.

Inductive error :=
| ErrModelNotManaged
| ErrStartFailed
| ErrStartTimeout
| ErrAdmissionBlocked
| ErrNotPermitted
| ErrManagerClosed
| ErrInstanceNoCapacity
| ErrInstanceDemandUnknown
| ErrInstanceProtected
| ErrInstanceNotHighest
| ErrContext (text : string)
| ErrWrap (cause : error) (text : string).

Definition context_Canceled : error := ErrContext "context canceled".

Inductive GPUVendor := GPUVendorNone | GPUVendorNVIDIA | GPUVendorAMD | GPUVendorApple.

Global Instance GPUVendor_eq_dec : EqDecision GPUVendor.
Proof. solve_decision. Defined.

Record LastError := mkLastError {
  le_Message : string;
  le_At : time;
  le_ExitCode : Z;
  le_Failures : Z;
  le_StderrTail : string
}.

Record HostInfo := mkHostInfo {
  hi_GPUTotalsMB : gmap Z Z;
  hi_MemAvailableMB : Z
}.

Record ensureWaiter := mkWaiter {
  w_reply : channel;
  w_timer : option timer;
  w_queuedAt : time
}.

Record ensureOutcome := mkOutcome {
  eo_endpoint : string;
  eo_specID : string;
  eo_proc : option generation;
  eo_err : option error
}.

Record runningProc := mkProc {
  proc_gen : generation;
  proc_specID : string;
  proc_pid : Z;
  proc_port : Z;
  proc_startedAt : time;
  proc_everHealthy : bool;
  proc_drainTimer : option timer;
  proc_killTimer : option timer;
  proc_stableTimer : option timer
}.

Record specState := mkSpecState {
  st_spec : Spec;
  st_instance : Z;
  st_startupMS : Z;
  st_waitingOnDemand : bool;
  st_waitingOnSibling : bool;
  st_decidedTurn : Z;
  st_state : State;
  st_since : time;
  st_proc : option runningProc;
  st_inFlight : Z;
  st_lastUsed : time;
  st_lastError : option LastError;
  st_failures : Z;
  st_hasRunBefore : bool;
  st_restarts : Z;
  st_backoffTimer : option timer;
  st_backoffOnExit : bool;
  st_intentionalStop : bool;
  st_removed : bool;
  st_measuredVRAM : gmap Z Z;
  st_measuredRAM : Z;
  st_readyVRAM : gmap Z Z;
  st_readyRAM : Z;
  st_vramBootstrapDone : bool;
  st_ramBootstrapRetries : Z;
  st_ramBootstrapBeats : Z;
  st_waitingOnRAM : bool;
  st_waitingOnGrace : bool;
  st_notPermittedAt : time;
  st_drainedFor : list string;
  st_pending : list ensureWaiter
}.

Record measureTarget := mkTarget {
  mt_specID : string;
  mt_proc : generation;
  mt_pid : Z;
  mt_ready : bool
}.

(** What [cmd.Wait] reports: [None] when it is no [*exec.ExitError]. *)
Record ExitError := mkExitError {
  ee_code : Z;
  ee_sigkill : bool
}.

Definition extractExitCode (err : option ExitError) : Z :=
  match err with Some e => ee_code e | None => -1 end.

Definition killedBySIGKILL (err : option ExitError) : bool :=
  match err with Some e => ee_sigkill e | None => false end.

Inductive command :=
| cmdApply (cfg : Config) (done : channel)
| cmdEnsure (model : string) (reply : channel) (serving : bool)
| cmdCancelEnsure (reply : channel) (err : option error)
| cmdWaiterTimeout (specID : string) (reply : channel)
| cmdRelease (specID : string) (proc : generation)
| cmdChildExited (specID : string) (proc : generation) (exitErr : option ExitError)
| cmdStartResult (specID : string) (proc : generation) (ok : bool)
| cmdBackoffFire (specID : string)
| cmdGraceExpiry
| cmdStableRun (specID : string) (proc : generation)
| cmdDrainGraceExpired (specID : string) (proc : generation)
| cmdKillGraceExpired (specID : string) (proc : generation)
| cmdMeasured (targets : list measureTarget) (byPID : gmap Z (gmap Z Z)) (ramByPID : gmap Z Z)
| cmdStatus (reply : channel)
| cmdLoadedModels (reply : channel)
| cmdStop (model : string) (reply : channel)
| cmdResolve (model : string) (reply : channel)
| cmdAppliedETag (reply : channel)
| cmdClose.

Inductive StopState := StopStopping | StopStopped.

Record Status := mkStatus {
  status_SpecID : string;
  status_Model : string;
  status_State : State;
  status_Since : time;
  status_PID : Z;
  status_Port : Z;
  status_InFlight : Z;
  status_Restarts : Z;
  status_MeasuredVRAM : gmap Z Z;
  status_MeasuredRAMMB : Z;
  status_LastError : option LastError;
  status_Instance : Z;
  status_StartupMS : Z;
  status_Type : string;
  status_MetricsPath : string;
  status_ContextProbePath : string
}.

Inductive effect :=
| Reply (reply : channel) (out : ensureOutcome)
| Schedule (t : timer) (d : duration) (c : command)
| StopTimer (t : timer)
| Exec (proc : generation) (specID : string) (pid : Z)
| SignalTerminate (proc : generation)
| SignalKill (proc : generation)
| Measure (targets : list measureTarget) (vram ram : bool)
| Transition
| RetainLogs (specIDs : list string)
| Applied (done : channel)
| StatusReply (reply : channel) (rows : list Status)
| LoadedReply (reply : channel) (models : list string)
| StopReply (reply : channel) (out : error + StopState)
| ResolveReply (reply : channel) (out : option (string * Z))
| ETagReply (reply : channel) (etag : string).

(** The fields of [ManagerOptions] the owner keeps, as [NewManager] stores them. *)
Record options := mkOptions {
  opt_gpuVendor : GPUVendor;
  opt_vramHeadroomMB : Z;
  opt_hostRAMReserveMB : Z;
  opt_ramBootstrapGuessMB : Z;
  opt_evictionGrace : duration
}.

Record owner := mkOwner {
  o_opts : options;
  o_ramFreedMB : Z;
  o_ramFreedUntilSeq : Z;
  o_cfg : Config;
  o_allowedPairs : gmap (string * string) bool;
  o_specs : gmap string specState;
  o_byUpstream : gmap string string;
  o_graceTimer : option timer;
  o_graceTimerAt : time;
  o_closing : bool;
  o_stopped : bool;
  o_measuring : bool;
  o_remeasure : bool;
  o_turn : Z;
  o_reads : nat;        (* reads of the environment so far *)
  o_nextTimer : timer;
  o_nextProc : generation;
  o_effects : list effect
}.

Global Instance Spec_fields : Fields Spec := fun s =>
  mkSpec (spec_ID s) (spec_Model s) (spec_UpstreamModel s) (spec_Binary s) (spec_Args s)
    (spec_Env s) (spec_ConfigFiles s) (spec_WorkDir s) (spec_GPUs s) (spec_RAMMB s)
    (spec_ListenPort s) (spec_HealthPath s) (spec_HealthTimeoutSeconds s)
    (spec_StartupTimeoutSeconds s) (spec_IdleTimeoutSeconds s)
    (spec_AdmissionWaitTimeoutSeconds s) (spec_Pinned s) (spec_SetVisibleDevices s)
    (spec_VisibleDevicesMode s) (spec_AdminState s) (spec_APIToken s) (spec_Type s)
    (spec_MetricsPath s) (spec_ContextProbePath s) (spec_Role s) (spec_Replicable s)
    (spec_MinInstances s) (spec_MaxInstances s) (spec_InstanceOf s) (spec_Instance s).

Global Instance SpecGPU_fields : Fields SpecGPU := fun g =>
  mkSpecGPU (gpu_Index g) (gpu_VRAMMB g).

Global Instance snapshot_fields : Fields PolicySnapshot := fun s =>
  mkPolicySnapshot (ps_Running s) (ps_MaxProcesses s) (ps_Now s) (ps_EvictionGrace s)
    (ps_Budgets s) (ps_HostRAMBudgetMB s) (ps_HostRAMCeilingMB s)
    (ps_RAMBootstrapInFlight s) (ps_RAMBootstrapGuessMB s) (ps_VRAMBootstrapEligible s)
    (ps_NoEvict s) (ps_Allowed s).

Global Instance proc_fields : Fields runningProc := fun p =>
  mkProc (proc_gen p) (proc_specID p) (proc_pid p) (proc_port p) (proc_startedAt p)
    (proc_everHealthy p) (proc_drainTimer p) (proc_killTimer p) (proc_stableTimer p).

Global Instance specState_fields : Fields specState := fun s =>
  mkSpecState (st_spec s) (st_instance s) (st_startupMS s) (st_waitingOnDemand s)
    (st_waitingOnSibling s) (st_decidedTurn s) (st_state s) (st_since s) (st_proc s)
    (st_inFlight s) (st_lastUsed s) (st_lastError s) (st_failures s) (st_hasRunBefore s)
    (st_restarts s) (st_backoffTimer s) (st_backoffOnExit s) (st_intentionalStop s)
    (st_removed s) (st_measuredVRAM s) (st_measuredRAM s) (st_readyVRAM s) (st_readyRAM s)
    (st_vramBootstrapDone s) (st_ramBootstrapRetries s) (st_ramBootstrapBeats s)
    (st_waitingOnRAM s) (st_waitingOnGrace s) (st_notPermittedAt s) (st_drainedFor s)
    (st_pending s).

Global Instance owner_fields : Fields owner := fun o =>
  mkOwner (o_opts o) (o_ramFreedMB o) (o_ramFreedUntilSeq o) (o_cfg o) (o_allowedPairs o)
    (o_specs o) (o_byUpstream o) (o_graceTimer o) (o_graceTimerAt o) (o_closing o)
    (o_stopped o) (o_measuring o) (o_remeasure o) (o_turn o) (o_reads o) (o_nextTimer o)
    (o_nextProc o) (o_effects o).

(** ** The environment *)

Class World := {
  world_now : nat -> time;
  world_measurer : nat -> option (list Z -> gmap Z (gmap Z Z));
  world_ramMeasurer : nat -> bool;
  world_hostInfo : nat -> option HostInfo;
  world_hostSeq : nat -> Z;
  world_exited : nat -> generation -> bool;
  world_ephemeralPort : nat -> string + Z;
  world_writeConfigFiles : nat -> Spec -> Z -> option string;
  world_startCommand : nat -> Spec -> Z -> string + Z;
  world_logTail : nat -> generation -> string;
  world_range : nat -> list string -> list string;
  world_range_perm : forall n l, world_range n l ≡ₚ l;
  world_permit : Spec -> option string;
  world_expand : Spec -> Z -> option string;
  world_planConfigFiles : Spec -> option string
}.

Section operations.
Context `{Unicode} `{World}.

(** One read of the environment. *)
Definition read {A} (f : nat -> A) (o : owner) : A * owner :=
  (f (o_reads o), o <| o_reads ::= S |>).

Definition emit (e : effect) (o : owner) : owner := o <| o_effects ::= cons e |>.

(** Assigning to fields of the state stored under [id]. *)
Definition upd (id : string) (f : specState -> specState) (o : owner) : owner :=
  o <| o_specs ::= alter f id |>.

Definition upd_proc (id : string) (f : runningProc -> runningProc) : owner -> owner :=
  upd id (fun st => st <| st_proc ::= fmap f |>).

(** [range o.specs]: the keys, in some order. *)
Definition range_specs (o : owner) : list string * owner :=
  read (fun n => world_range n (map_to_list (o_specs o)).*1) o.

(** A loop over instance keys, its body reading the current state of each. *)
Definition for_each (ids : list string) (body : string -> owner -> owner) (o : owner) : owner :=
  foldl (fun o id => body id o) o ids.

(** ** Timers and the doorbell *)

Definition scheduleAfter (d : duration) (c : command) (o : owner) : timer * owner :=
  let t := o_nextTimer o in
  (t, emit (Schedule t d c) (o <| o_nextTimer ::= S |>)).

(** [cancelTimer] on a timer value; the caller clears the field that held it. *)
Definition cancelTimer (t : option timer) (o : owner) : owner :=
  match t with None => o | Some t => emit (StopTimer t) o end.

Definition signalTransition (o : owner) : owner := emit Transition o.

Definition setState (id : string) (s : State) (o : owner) : owner :=
  match o_specs o !! id with
  | None => o
  | Some st =>
      if decide (st_state st = s) then o
      else
        let '(now, o) := read world_now o in
        signalTransition (upd id (fun st => st <| st_state := s |> <| st_since := now |>) o)
  end.

Definition deleteState (id : string) (o : owner) : owner :=
  signalTransition (o <| o_specs ::= delete id |>).

(** ** Queued requests *)

Definition refused (err : error) : ensureOutcome := mkOutcome "" "" None (Some err).

Definition endpointFor (port : Z) : string := "http://127.0.0.1:" +:+ strconv_Itoa port.

Definition failPending (id : string) (err : error) (o : owner) : owner :=
  match o_specs o !! id with
  | None => o
  | Some st =>
      let o := foldl (fun o w => emit (Reply (w_reply w) (refused err)) (cancelTimer (w_timer w) o))
                 o (st_pending st) in
      upd id (fun st => st <| st_pending := [] |>) o
  end.

Definition served (id : string) (p : runningProc) : ensureOutcome :=
  mkOutcome (endpointFor (proc_port p)) id (Some (proc_gen p)) None.

Definition succeedPending (id : string) (o : owner) : owner :=
  match o_specs o !! id with
  | Some st =>
      match st_proc st with
      | Some p =>
          let o := foldl (fun o w =>
                       emit (Reply (w_reply w) (served id p))
                         (upd id (fun st => st <| st_inFlight ::= fun n => n +! 1 |>)
                            (cancelTimer (w_timer w) o)))
                     o (st_pending st) in
          let o := upd id (fun st => st <| st_pending := [] |>) o in
          let '(now, o) := read world_now o in
          upd id (fun st => st <| st_lastUsed := now |>) o
      | None => o
      end
  | None => o
  end.

(** ** Failures *)

Definition setLastError (id : string) (message : string) (o : owner) : owner :=
  let '(now, o) := read world_now o in
  upd id (fun st => st <| st_lastError := Some (mkLastError message now 0 0 "") |>) o.

Definition noteAdmissionWait (id : string) (message : string) (o : owner) : owner :=
  if String.eqb message "" then o
  else
    match o_specs o !! id with
    | None => o
    | Some st =>
        match st_lastError st with
        | Some e => if String.eqb (le_Message e) message then o else setLastError id message o
        | None => setLastError id message o
        end
    end.

Definition recordFailure (id : string) (message : string) (exitCode : Z) (stderrTail : string)
    (o : owner) : owner :=
  let '(now, o) := read world_now o in
  upd id (fun st =>
      let failures := st_failures st +! 1 in
      st <| st_failures := failures |>
         <| st_lastError := Some (mkLastError message now exitCode failures stderrTail) |>) o.

(** ** Predicates of one instance *)

Definition protected (st : specState) : bool := st_instance st <? ProtectedCount (st_spec st).

Definition pinnedForAdmission (st : specState) : bool :=
  if negb (spec_Replicable (st_spec st)) then spec_Pinned (st_spec st) else protected st.

Definition burst (st : specState) : bool := IsBurst (st_spec st) (st_instance st).

Definition has_proc (st : specState) : bool :=
  match st_proc st with Some _ => true | None => false end.

Definition has_pending (st : specState) : bool :=
  match st_pending st with [] => false | _ => true end.

Definition wantsUp (st : specState) : bool := has_pending st || protected st.

Definition burstLeftNothing (st : specState) : bool :=
  burst st && negb (st_removed st) && negb (has_proc st) && negb (has_pending st).

Definition restsAtFailure (s : State) : bool :=
  match s with StateCrashed | StateStartFailed | StateNotPermitted => true | _ => false end.

Definition spentBurst (st : specState) : bool :=
  burstLeftNothing st && restsAtFailure (st_state st).

Definition specForInstance (base : Spec) (k : Z) : Spec :=
  if k =? 0 then base
  else base <| spec_ID := InstanceKey (spec_ID base) k |>
            <| spec_InstanceOf := spec_ID base |>
            <| spec_Instance := k |>.

(** [&specState{spec: ..., instance: k, state: StateStopped, since: now}]. *)
Definition newState (spec : Spec) (k : Z) (now : time) : specState := {|
  st_spec := spec; st_instance := k; st_startupMS := 0; st_waitingOnDemand := false;
  st_waitingOnSibling := false; st_decidedTurn := 0; st_state := StateStopped;
  st_since := now; st_proc := None; st_inFlight := 0; st_lastUsed := time_zero;
  st_lastError := None; st_failures := 0; st_hasRunBefore := false; st_restarts := 0;
  st_backoffTimer := None; st_backoffOnExit := false; st_intentionalStop := false;
  st_removed := false; st_measuredVRAM := ∅; st_measuredRAM := 0; st_readyVRAM := ∅;
  st_readyRAM := 0; st_vramBootstrapDone := false; st_ramBootstrapRetries := 0;
  st_ramBootstrapBeats := 0; st_waitingOnRAM := false; st_waitingOnGrace := false;
  st_notPermittedAt := time_zero; st_drainedFor := []; st_pending := []
|}.

(** ** Siblings and inherited demand *)

Definition entries (o : owner) : list (string * specState) := map_to_list (o_specs o).

Definition higherSiblingRuns (st : specState) (o : owner) : bool :=
  existsb (fun e => has_proc e.2 && (st_instance st <? st_instance e.2)
                    && String.eqb (specBase (st_spec e.2)) (specBase (st_spec st)))
    (entries o).

Definition realMeasurement (byGPU : gmap Z Z) : gmap Z Z := filter (fun e => 0 < e.2) byGPU.

Definition realRAM (v : Z) : Z := if v <=? 0 then 0 else v.

(** The inner loop of [siblingPeak] over one sibling's ready readings. *)
Definition raisePeak (vram : gmap Z Z) (e : Z * Z) : gmap Z Z :=
  if e.2 <=? map_get 0 vram e.1 then vram else <[e.1 := e.2]> vram.

Definition siblingPeak (id : string) (st : specState) (o : owner) : gmap Z Z * Z :=
  foldl (fun acc e =>
      if String.eqb e.1 id || negb (has_proc e.2)
         || negb (String.eqb (specBase (st_spec e.2)) (specBase (st_spec st)))
      then acc
      else (foldl raisePeak acc.1 (map_to_list (st_readyVRAM e.2)),
            Z.max acc.2 (realRAM (st_readyRAM e.2))))
    (∅, 0) (entries o).

Definition raisedDemand (spec : Spec) (vram : gmap Z Z) (ram : Z) : Spec :=
  let spec :=
    if bool_decide (vram = ∅) || bool_decide (spec_GPUs spec = []) then spec
    else spec <| spec_GPUs ::= fmap (fun g =>
           let v := map_get 0 vram (gpu_Index g) in
           if gpu_VRAMMB g <? v then g <| gpu_VRAMMB := v |> else g) |> in
  spec <| spec_RAMMB ::= fun r => Z.max r ram |>.

Definition demandSpec (id : string) (st : specState) (o : owner) : Spec :=
  if negb (spec_Replicable (st_spec st)) then st_spec st
  else let '(vram, ram) := siblingPeak id st o in raisedDemand (st_spec st) vram ram.

Definition chargeSpec (id : string) (st : specState) (o : owner) : Spec :=
  if negb (spec_Replicable (st_spec st)) then st_spec st
  else
    let '(vram, ram) := siblingPeak id st o in
    let vram := st_readyVRAM st ∪ vram in
    let own := realRAM (st_readyRAM st) in
    raisedDemand (st_spec st) vram (if 0 <? own then own else ram).

Definition demandUnknown (spec : Spec) : bool :=
  specHasUnknownVRAM spec || specHasUnknownRAM spec.

(** ** Order *)

Definition instanceLess (aBase : string) (aK : Z) (bBase : string) (bK : Z) : bool :=
  if negb (String.eqb aBase bBase) then String.ltb aBase bBase else aK <? bK.

Definition instance_of (o : owner) (id : string) : string * Z :=
  match o_specs o !! id with
  | Some st => (specBase (st_spec st), st_instance st)
  | None => ("", 0)
  end.

Definition sortInstanceOrder (o : owner) (ids : list string) : list string :=
  sort_Slice (fun i j =>
      let a := instance_of o i in let b := instance_of o j in
      instanceLess a.1 a.2 b.1 b.2) ids.

Record wakeCandidate := mkCandidate {
  wc_id : string;
  wc_base : string;
  wc_instance : Z;
  wc_queuedAt : time
}.

Definition lessByQueueAge (a b : wakeCandidate) : bool :=
  if negb (Bool.eqb (time_IsZero (wc_queuedAt a)) (time_IsZero (wc_queuedAt b)))
  then time_IsZero (wc_queuedAt b)
  else if negb (wc_queuedAt a =? wc_queuedAt b) then wc_queuedAt a <? wc_queuedAt b
  else if negb (String.eqb (wc_base a) (wc_base b)) || negb (wc_instance a =? wc_instance b)
  then instanceLess (wc_base a) (wc_instance a) (wc_base b) (wc_instance b)
  else String.ltb (wc_id a) (wc_id b).

Definition appendUnique (l : list string) (v : string) : list string :=
  if existsb (String.eqb v) l then l else l ++ [v].

(** ** Addresses *)

Definition resolveAddress (model : string) (o : owner) : option (string * string * Z) :=
  match o_byUpstream o !! model with
  | Some id =>
      match o_specs o !! id with
      | None => None
      | Some _ => Some (id, model, 0)
      end
  | None =>
      let '(b, n) := ParseInstanceAddress model in
      if n =? 0 then None
      else
        match o_byUpstream o !! b with
        | None => None
        | Some id =>
            match o_specs o !! id with
            | None => None
            | Some st =>
                if st_removed st || negb (InstanceAllowed (st_spec st) n) then None
                else Some (id, b, n)
            end
        end
  end.

Definition instanceAddressHolder (spec : Spec) (k : Z) (o : owner) : option string :=
  match o_byUpstream o !! InstanceAddress (spec_UpstreamModel spec) k with
  | Some holder => if String.eqb holder (spec_ID spec) then None else Some holder
  | None => None
  end.

Definition plainRequestRefused (base : specState) (k : Z) (o : owner) : bool :=
  if negb (IsBurst (st_spec base) k) then false
  else
    match o_specs o !! InstanceKey (spec_ID (st_spec base)) k with
    | None => true
    | Some st =>
        if decide (st_state st = StateStarting) then false
        else negb (bool_decide (st_state st = StateRunning)) || negb (has_proc st)
    end.

Definition rebuildUpstreamIndex (o : owner) : owner :=
  let '(ids, o) := range_specs o in
  let index := foldl (fun index id =>
      match o_specs o !! id with
      | Some st =>
          if negb (st_instance st =? 0) then index
          else <[spec_UpstreamModel (st_spec st) := id]> index
      | None => index
      end) ∅ ids in
  o <| o_byUpstream := index |>.

(** ** Retiring burst rows *)

Definition retire (id : string) (o : owner) : owner :=
  match o_specs o !! id with
  | None => o
  | Some st => deleteState id (cancelTimer (st_backoffTimer st) o)
  end.

Definition retireIfSpent (id : string) (o : owner) : owner :=
  match o_specs o !! id with
  | None => o
  | Some st =>
      if negb (burstLeftNothing st) || restsAtFailure (st_state st) then o else retire id o
  end.

(** ** Draining and backing off *)

Definition terminateNow (id : string) (o : owner) : owner :=
  match o_specs o !! id with
  | None => o
  | Some st =>
      match st_proc st with
      | None => o
      | Some p =>
          let '(exited, o) := read (fun n => world_exited n (proc_gen p)) o in
          if exited then o
          else
            match proc_killTimer p with
            | Some _ => o
            | None =>
                let o := upd id (fun st => st <| st_intentionalStop := true |>) o in
                let o := cancelTimer (proc_drainTimer p) o in
                let o := upd_proc id (fun p => p <| proc_drainTimer := None |>) o in
                let o := emit (SignalTerminate (proc_gen p)) o in
                let '(t, o) := scheduleAfter killGrace (cmdKillGraceExpired id (proc_gen p)) o in
                upd_proc id (fun p => p <| proc_killTimer := Some t |>) o
            end
      end
  end.

Definition beginDrain (id : string) (o : owner) : owner :=
  match o_specs o !! id with
  | None => o
  | Some st =>
      match st_proc st with
      | None => o
      | Some p =>
          if decide (st_state st = StateDraining) then o
          else
            let o := setState id StateDraining o in
            if st_inFlight st =? 0 then terminateNow id o
            else
              let '(t, o) := scheduleAfter drainGrace (cmdDrainGraceExpired id (proc_gen p)) o in
              upd_proc id (fun p => p <| proc_drainTimer := Some t |>) o
      end
  end.

(** The doubling loop; it leaves by its own condition within [fuel] rounds. *)
Fixpoint backoffLoop (fuel : nat) (i failures : Z) (d : duration) : duration :=
  match fuel with
  | O => d
  | S fuel =>
      if (i <? failures) && (d <? backoffCap)
      then backoffLoop fuel (i + 1) failures (int64 (d * 2)) else d
  end.

Definition backoffDelayFor (failures : Z) : duration :=
  let d := backoffLoop 64 1 failures backoffBase in
  if backoffCap <? d then backoffCap else d.

Definition enterBackoff (id : string) (o : owner) : owner :=
  match o_specs o !! id with
  | None => o
  | Some st =>
      if o_closing o then setState id StateStopped o
      else if burst st then failPending id ErrStartFailed o
      else if has_proc st then upd id (fun st => st <| st_backoffOnExit := true |>) o
      else
        let o := setState id StateBackoff o in
        let '(t, o) := scheduleAfter (backoffDelayFor (st_failures st)) (cmdBackoffFire id) o in
        upd id (fun st => st <| st_backoffTimer := Some t |>) o
  end.

End operations.
