(* ===== verification/ManagerAdmit.v ===== *)
(** * The runtime manager: admission and wakes

    Models the part of [manager.go] that decides whether an instance moves toward
    running: the snapshot handed to the policy ([buildSnapshot]), the start of a
    process, [admitAndStart] with the start-order rule of protected instances, the
    single grace timer, and the wakes that re-ask waiting instances.

    [admitAndStart] and [wakeSiblingsWaitingFor] call each other.  The recursion
    climbs the instance indexes of one spec, so [admitAndStartFuel] takes a number
    of levels, and [admitAndStart] gives it one more than the table has rows. *)

From Stdlib Require Import ZArith Lia Ascii.
From stdpp Require Import base tactics option list numbers strings pretty gmap.
From S2P Require Import Prelude RuntimeTypes Policy Manager.
Local Open Scope Z_scope.
Local Open Scope go_scope.

Section admission.
Context `{Unicode} `{World}.

(** ** The host-RAM pool and the detected budgets *)

Definition hostInfo (o : owner) : HostInfo * owner :=
  let '(hi, o) := read world_hostInfo o in
  (default (mkHostInfo ∅ 0) hi, o).

Definition hostRAMBudgetMB (hi : HostInfo) (residentMB reserveMB : Z) : Z :=
  if hi_MemAvailableMB hi <=? 0 then 0
  else Z.max 1 (hi_MemAvailableMB hi +! residentMB -! reserveMB).

Definition noteRAMFreed (id : string) (o : owner) : owner :=
  match o_specs o !! id with
  | None => o
  | Some st =>
      let '(hi, o) := read world_hostInfo o in
      match hi with
      | None => o
      | Some _ =>
          let mb := realRAM (st_measuredRAM st) in
          let mb := if mb =? 0 then spec_RAMMB (chargeSpec id st o) else mb in
          if mb <=? 0 then o
          else
            let '(seq, o) := read world_hostSeq o in
            let o := if o_ramFreedUntilSeq o <=? seq then o <| o_ramFreedMB := 0 |> else o in
            o <| o_ramFreedMB ::= fun n => n +! mb |>
              <| o_ramFreedUntilSeq := uint64 (seq + ramFreedSettlePushes) |>
      end
  end.

Definition pendingRAMFreedMB (o : owner) : Z * owner :=
  if 0 <? o_ramFreedMB o then
    let '(seq, o) := read world_hostSeq o in
    let o := if o_ramFreedUntilSeq o <=? seq then o <| o_ramFreedMB := 0 |> else o in
    (o_ramFreedMB o, o)
  else (o_ramFreedMB o, o).

Definition fillDetectedBudgets (opts : options) (budgets : gmap Z Z) (hi : HostInfo) : gmap Z Z :=
  if decide (opt_gpuVendor opts = GPUVendorApple) then budgets
  else
    foldl (fun budgets e =>
        if (e.2 <=? 0) || (0 <? map_get 0 budgets e.1) then budgets
        else <[e.1 := Z.max 1 (e.2 -! opt_vramHeadroomMB opts)]> budgets)
      budgets (map_to_list (hi_GPUTotalsMB hi)).

Definition hostRAMBudgetSnapshot (o : owner) : Z * owner :=
  let resident := foldl (fun n e => if has_proc e.2 then n +! realRAM (st_measuredRAM e.2) else n)
                    0 (entries o) in
  let '(hi, o) := hostInfo o in
  (hostRAMBudgetMB hi resident (opt_hostRAMReserveMB (o_opts o)), o).

(** ** The snapshot *)

(** The first pass of [buildSnapshot] over one live process: record its reading. *)
Definition recordReading (measured : gmap Z (gmap Z Z)) (id : string) (o : owner) : owner :=
  match o_specs o !! id with
  | None => o
  | Some st =>
      match st_proc st with
      | None => o
      | Some p =>
          let byGPU := realMeasurement (map_get ∅ measured (proc_pid p)) in
          if bool_decide (byGPU = ∅) then o
          else
            let o := upd id (fun st => st <| st_measuredVRAM := byGPU |>
                                          <| st_vramBootstrapDone := true |>) o in
            if proc_everHealthy p then upd id (fun st => st <| st_readyVRAM := byGPU |>) o else o
      end
  end.

(** The charge of one live process on its GPUs: the larger of what was just
    measured and its demand. *)
Definition chargedGPUs (demand : Spec) (byGPU : gmap Z Z) : gmap Z Z :=
  foldl (fun gpus g =>
      let charge :=
        match byGPU !! gpu_Index g with
        | Some v => if gpu_VRAMMB g <? v then v else gpu_VRAMMB g
        | None => gpu_VRAMMB g
        end in
      <[gpu_Index g := charge]> gpus) ∅ (spec_GPUs demand).

Definition runningRow (id : string) (st : specState) (byGPU : gmap Z Z) (o : owner)
  : RunningProc :=
  let demand := chargeSpec id st o in
  {| rp_SpecID := id;
     rp_Spec := specBase (st_spec st);
     rp_Instance := st_instance st;
     rp_Surplus := burst st;
     rp_GPUs := chargedGPUs demand byGPU;
     rp_RAMMB := Z.max (realRAM (st_measuredRAM st)) (spec_RAMMB demand);
     rp_InFlight := st_inFlight st;
     rp_Pinned := pinnedForAdmission st;
     rp_Role := roleOf (spec_Role (st_spec st));
     rp_LastUsed := st_lastUsed st;
     rp_Starting := bool_decide (st_state st = StateStarting) |}.

(** The second pass accumulates the rows, the two RAM sums and the interlock. *)
Record charges := mkCharges {
  ch_running : list RunningProc;
  ch_resident : Z;
  ch_bound : Z;
  ch_bootstrapInFlight : bool
}.

Definition chargeProcess (measured : gmap Z (gmap Z Z)) (ramMeasurerInstalled : bool)
    (o : owner) (c : charges) (id : string) : charges :=
  match o_specs o !! id with
  | None => c
  | Some st =>
      match st_proc st with
      | None => c
      | Some p =>
          let demand := chargeSpec id st o in
          let byGPU := realMeasurement (map_get ∅ measured (proc_pid p)) in
          let liveRAM := realRAM (st_measuredRAM st) in
          {| ch_running := ch_running c ++ [runningRow id st byGPU o];
             ch_resident := ch_resident c +! liveRAM;
             ch_bound := ch_bound c +! (if 0 <? liveRAM then liveRAM else spec_RAMMB demand);
             ch_bootstrapInFlight :=
               ch_bootstrapInFlight c
               || (needsRAMBootstrap demand (st_measuredRAM st)
                   && (bool_decide (st_state st = StateStarting) || ramMeasurerInstalled)) |}
      end
  end.

Definition live_pids (o : owner) (ids : list string) : list Z :=
  omap (fun id => st ← o_specs o !! id; proc_pid <$> st_proc st) ids.

Definition buildSnapshot (o : owner) : PolicySnapshot * owner :=
  let '(hi, o) := hostInfo o in
  let '(ids, o) := range_specs o in
  let pids := live_pids o ids in
  let '(measurer, o) := read world_measurer o in
  let measured := match measurer with Some f => f pids | None => ∅ end in
  let '(ramMeasurerInstalled, o) := read world_ramMeasurer o in
  let '(ids, o) := range_specs o in
  let o := for_each ids (recordReading measured) o in
  let '(ids, o) := range_specs o in
  let c := foldl (chargeProcess measured ramMeasurerInstalled o) (mkCharges [] 0 0 false) ids in
  let budgets := foldl (fun m b => <[gb_Index b := gb_BudgetMB b]> m) ∅ (cfg_GPUBudgets (o_cfg o)) in
  let budgets := fillDetectedBudgets (o_opts o) budgets hi in
  let '(now, o) := read world_now o in
  let '(freed, o) := pendingRAMFreedMB o in
  let reserve := opt_hostRAMReserveMB (o_opts o) in
  ({| ps_Running := ch_running c;
      ps_MaxProcesses := cfg_MaxProcesses (o_cfg o);
      ps_Now := now;
      ps_EvictionGrace := opt_evictionGrace (o_opts o);
      ps_Budgets := budgets;
      ps_HostRAMBudgetMB := hostRAMBudgetMB hi (ch_resident c) reserve;
      ps_HostRAMCeilingMB := hostRAMBudgetMB hi (ch_bound c +! freed) reserve;
      ps_RAMBootstrapInFlight := ch_bootstrapInFlight c;
      ps_RAMBootstrapGuessMB := opt_ramBootstrapGuessMB (o_opts o);
      ps_VRAMBootstrapEligible := false;
      ps_NoEvict := false;
      ps_Allowed := o_allowedPairs o |}, o).

Definition vramBootstrapEligible (id : string) (st : specState) (o : owner) : bool * owner :=
  let '(measurer, o) := read world_measurer o in
  (bool_decide (is_Some measurer) && negb (st_vramBootstrapDone st)
   && specHasUnknownVRAM (demandSpec id st o), o).

(** ** The start-order rule of protected instances *)

Definition waitsToStart (sib : specState) : bool :=
  negb (has_proc sib)
  && (bool_decide (st_state sib = StateStopped) || bool_decide (st_state sib = StateBackoff))
  && wantsUp sib.

(** The lowest instance below [st] that still waits to start, if any. *)
Definition lowerSiblingWaiting (st : specState) (o : owner) : option Z :=
  if (st_instance st =? 0) || negb (protected st) then None
  else
    foldl (fun lower e =>
        if (default (st_instance st) lower <=? st_instance e.2) || has_proc e.2
           || negb (String.eqb (specBase (st_spec e.2)) (specBase (st_spec st)))
        then lower
        else if waitsToStart e.2 then Some (st_instance e.2) else lower)
      None (entries o).

(** ** Refusals *)

(** Both refusals re-ask the held-back siblings; how is the argument [wake]. *)
Definition setNotPermitted (wake : string -> owner -> owner) (id : string) (message : string)
    (o : owner) : owner :=
  let o := setState id StateNotPermitted o in
  let '(now, o) := read world_now o in
  let o := upd id (fun st => st <| st_notPermittedAt := now |>) o in
  let o := setLastError id message o in
  let o := failPending id ErrNotPermitted o in
  wake id o.

Definition setPendingVRAMUnknown (wake : string -> owner -> owner) (id : string)
    (message : string) (o : owner) : owner :=
  let o := setState id StatePendingVRAMUnknown o in
  let '(now, o) := read world_now o in
  let o := upd id (fun st => st <| st_notPermittedAt := now |>) o in
  let o := if String.eqb message "" then o else setLastError id message o in
  let o := failPending id ErrAdmissionBlocked o in
  wake id o.

(** ** Starting a process *)

(** A start that failed before there was a process. *)
Definition failStart (id : string) (message : string) (o : owner) : owner :=
  let o := setState id StateStartFailed o in
  let o := recordFailure id message 0 "" o in
  let o := failPending id ErrStartFailed o in
  enterBackoff id o.

(** The new generation: the state gets its process, and the queued requests are
    no longer bounded by their admission timers. *)
Definition installProcess (id : string) (pid port : Z) (o : owner) : owner :=
  let g := o_nextProc o in
  let '(now, o) := read world_now (o <| o_nextProc ::= S |>) in
  let o := upd id (fun st => st <| st_proc :=
             Some (mkProc g id pid port now false None None None) |>) o in
  let o := setState id StateStarting o in
  match o_specs o !! id with
  | None => o
  | Some st =>
      let o := foldl (fun o w => cancelTimer (w_timer w) o) o (st_pending st) in
      let o := upd id (fun st => st <| st_pending ::=
                 fmap (fun w => mkWaiter (w_reply w) None (w_queuedAt w)) |>) o in
      emit (Exec g id pid) o
  end.

Definition startProcess (wake : string -> owner -> owner) (id : string) (o : owner) : owner :=
  match o_specs o !! id with
  | None => o
  | Some st =>
      let spec := st_spec st in
      match world_expand spec 0 with
      | Some err => setNotPermitted wake id err o
      | None =>
      match world_planConfigFiles spec with
      | Some err => setNotPermitted wake id err o
      | None =>
      let '(port, o) :=
        if spec_ListenPort spec =? 0 then read world_ephemeralPort o
        else (inr (spec_ListenPort spec), o) in
      match port with
      | inl err => failStart id ("runtime: grab ephemeral port: " +:+ err) o
      | inr port =>
      match world_expand spec port with
      | Some err => setNotPermitted wake id err o
      | None =>
      let '(written, o) := read (fun n => world_writeConfigFiles n spec port) o in
      match written with
      | Some err => failStart id err o
      | None =>
      let '(started, o) := read (fun n => world_startCommand n spec port) o in
      match started with
      | inl err => failStart id ("runtime: exec " +:+ spec_Binary spec +:+ ": " +:+ err) o
      | inr pid => installProcess id pid port o
      end end end end end end
  end.

(** ** The grace timer *)

Definition wantsWake (st : specState) : bool :=
  if has_proc st || bool_decide (st_state st = StateBackoff) then false
  else has_pending st || protected st.

Definition wantsWakeAfterStart (st : specState) : bool :=
  wantsWake st && (has_pending st || pinnedForAdmission st).

Definition wantsDemandWake (st : specState) : bool :=
  st_waitingOnDemand st && wantsWakeAfterStart st.

Definition wantsHostSampleWake (st : specState) : bool :=
  st_waitingOnRAM st && wantsWakeAfterStart st.

Definition wantsGraceWake (st : specState) : bool :=
  st_waitingOnGrace st && wantsWakeAfterStart st.

Definition earliestGraceExpiry (now : time) (o : owner) : option time :=
  let grace := opt_evictionGrace (o_opts o) in
  if grace <=? 0 then None
  else
    foldl (fun earliest e =>
        let st := e.2 in
        if negb (has_proc st) || pinnedForAdmission st
           || bool_decide (st_state st = StateStarting) || negb (st_inFlight st =? 0)
        then earliest
        else if time_IsZero (st_lastUsed st) then earliest
        else
          let expiry := time_Add (st_lastUsed st) grace in
          if expiry <=? now then earliest
          else match earliest with
               | None => Some expiry
               | Some first => if expiry <? first then Some expiry else Some first
               end)
      None (entries o).

Definition clearGraceTimer (o : owner) : owner :=
  (cancelTimer (o_graceTimer o) o) <| o_graceTimer := None |>.

Definition rescheduleGraceWake (o : owner) : owner :=
  if opt_evictionGrace (o_opts o) <=? 0 then (clearGraceTimer o) <| o_graceTimerAt := time_zero |>
  else if negb (existsb (fun e => wantsGraceWake e.2) (entries o))
  then (clearGraceTimer o) <| o_graceTimerAt := time_zero |>
  else
    let '(now, o) := read world_now o in
    let expiry := earliestGraceExpiry now o in
    let armed := bool_decide (is_Some (o_graceTimer o)) in
    match expiry with
    | Some e =>
        if armed && (o_graceTimerAt o =? e) then o
        else
          let o := (clearGraceTimer o) <| o_graceTimerAt := e |> in
          let '(now, o) := read world_now o in
          let delay := time_Sub e now +! graceWakeSlack in
          let delay := if delay <? 0 then 0 else delay in
          let '(t, o) := scheduleAfter delay cmdGraceExpiry o in
          o <| o_graceTimer := Some t |>
    | None =>
        let o := (clearGraceTimer o) <| o_graceTimerAt := time_zero |> in
        let '(t, o) := scheduleAfter graceWakeSlack cmdGraceExpiry o in
        o <| o_graceTimer := Some t |>
    end.

(** ** The decision *)

Definition siblingWaitMessage (id : string) : string :=
  "spec " +:+ id +:+ ": its demand is unknown (no declared estimate, and no sibling measured since it became ready), so it waits for a ready sibling to be measured instead of starting blind".

(** Acting on the policy's answer; the cases in the order of the code. *)
Definition actOnDecision (wake : string -> owner -> owner) (id : string) (dec : Decision)
    (o : owner) : owner :=
  let o := upd id (fun st => st <| st_waitingOnRAM := dec_Wait dec && dec_WaitOnRAM dec |>
                                <| st_waitingOnGrace := dec_Wait dec && dec_WaitOnGrace dec |>) o in
  if dec_NoCapacity dec then failPending id ErrInstanceNoCapacity o
  else if decide (dec_Reason dec = Some StateNotPermitted)
  then setNotPermitted wake id (dec_Message dec) o
  else if decide (dec_Reason dec = Some StatePendingVRAMUnknown)
  then setPendingVRAMUnknown wake id (dec_Message dec) o
  else if dec_Wait dec then noteAdmissionWait id (dec_Message dec) o
  else
    match dec_Evict dec with
    | _ :: _ =>
        let o := if dec_VRAMBootstrap dec
                 then upd id (fun st => st <| st_vramBootstrapDone := true |>) o else o in
        for_each (dec_Evict dec) (fun victim o =>
            let o := if String.eqb victim id then o
                     else upd victim (fun st => st <| st_drainedFor ::= fun l => appendUnique l id |>) o in
            beginDrain victim o) o
    | [] =>
        let o := startProcess wake id o in
        match o_specs o !! id with
        | Some st => if has_proc st then wake id o else o
        | None => o
        end
    end.

(** The full decision on an instance that wants up and is permitted. *)
Definition decideAdmission (wake : string -> owner -> owner) (id : string) (o : owner) : owner :=
  let o := upd id (fun st => st <| st_decidedTurn := o_turn o |>) o in
  let '(snap, o) := buildSnapshot o in
  match o_specs o !! id with
  | None => o
  | Some st =>
      let demand := demandSpec id st o in
      if (0 <? st_instance st) && demandUnknown demand then
        if burst st then failPending id ErrInstanceDemandUnknown o
        else noteAdmissionWait id (siblingWaitMessage id)
               (upd id (fun st => st <| st_waitingOnDemand := true |>) o)
      else
        let '(eligible, o) := vramBootstrapEligible id st o in
        let snap := snap <| ps_NoEvict := burst st |> <| ps_VRAMBootstrapEligible := eligible |> in
        actOnDecision wake id (Admit snap demand) o
  end.

Definition clearWaits (st : specState) : specState :=
  st <| st_waitingOnRAM := false |> <| st_waitingOnGrace := false |>
     <| st_waitingOnDemand := false |> <| st_waitingOnSibling := false |>.

Definition admitBody (wake : string -> owner -> owner) (id : string) (o : owner) : owner :=
  match o_specs o !! id with
  | None => o
  | Some st =>
      if has_proc st || bool_decide (st_state st = StateBackoff) then o
      else
        let o := upd id clearWaits o in
        if negb (wantsUp st) then o
        else if String.eqb (spec_AdminState (st_spec st)) "force_stopped"
        then failPending id ErrAdmissionBlocked o
        else
          match world_permit (st_spec st) with
          | Some err => setNotPermitted wake id err o
          | None =>
              match lowerSiblingWaiting st o with
              | Some _ => upd id (fun st => st <| st_waitingOnSibling := true |>
                                               <| st_decidedTurn := 0 |>) o
              | None => decideAdmission wake id o
              end
          end
  end.

Definition wakeSiblingsWaitingFor (ask : string -> owner -> owner) (id : string) (o : owner)
  : owner :=
  match o_specs o !! id with
  | None => o
  | Some st =>
      let '(ids, o) := range_specs o in
      let ids := List.filter (fun i =>
          match o_specs o !! i with
          | Some sib => st_waitingOnSibling sib && (st_instance st <? st_instance sib)
                        && String.eqb (specBase (st_spec sib)) (specBase (st_spec st))
          | None => false
          end) ids in
      for_each (sortInstanceOrder o ids) (fun i o =>
          match o_specs o !! i with
          | Some sib => if st_waitingOnSibling sib && negb (has_proc sib) then ask i o else o
          | None => o
          end) o
  end.

Fixpoint admitAndStartFuel (fuel : nat) (id : string) (o : owner) : owner :=
  match fuel with
  | O => o
  | S fuel =>
      if o_closing o then o
      else
        let o := admitBody (wakeSiblingsWaitingFor (admitAndStartFuel fuel)) id o in
        rescheduleGraceWake (retireIfSpent id o)
  end.

Definition admitAndStart (id : string) (o : owner) : owner :=
  admitAndStartFuel (S (size (o_specs o))) id o.

(** ** Wakes *)

Definition decidedThisTurn (st : specState) (o : owner) : bool :=
  negb (o_turn o =? 0) && (st_decidedTurn st =? o_turn o).

Definition reask (id : string) (o : owner) : owner :=
  match o_specs o !! id with
  | Some st => if decidedThisTurn st o then o else admitAndStart id o
  | None => admitAndStart id o
  end.

Definition oldestQueued (st : specState) : time :=
  foldl (fun q w => if time_IsZero q || (w_queuedAt w <? q) then w_queuedAt w else q)
    time_zero (st_pending st).

Definition wakeAdmission (want : specState -> bool) (o : owner) : owner :=
  let '(ids, o) := range_specs o in
  let candidates := omap (fun id =>
      st ← o_specs o !! id;
      if want st
      then Some (mkCandidate id (specBase (st_spec st)) (st_instance st) (oldestQueued st))
      else None) ids in
  for_each (wc_id <$> sort_Slice lessByQueueAge candidates) reask o.

Definition wakeAdmissionCandidates : owner -> owner := wakeAdmission wantsWake.
Definition wakeAfterStart : owner -> owner := wakeAdmission wantsWakeAfterStart.
Definition wakeOnHostSample : owner -> owner := wakeAdmission wantsHostSampleWake.
Definition wakeOnGraceExpiry : owner -> owner := wakeAdmission wantsGraceWake.

Definition handleGraceExpiry (o : owner) : owner :=
  let o := (clearGraceTimer o) <| o_graceTimerAt := time_zero |> in
  if o_closing o then o else rescheduleGraceWake (wakeOnGraceExpiry o).

End admission.
