(* ===== verification/ManagerTurns.v ===== *)
(** * The runtime manager: handlers and the event loop

    Models the handlers of [manager.go] and [stop.go]: every command the owner
    handles, the housekeeping beat and the wake of a hardware sample.  [handle] is
    the dispatch and [turn] one round of [owner.run]; a run of the manager is a
    list of events. *)

From Stdlib Require Import ZArith Lia Ascii.
From stdpp Require Import base tactics option list numbers strings pretty gmap.
From S2P Require Import Prelude RuntimeTypes Policy Manager ManagerAdmit.
Local Open Scope Z_scope.
Local Open Scope go_scope.

Global Instance SpecGPU_eq_dec : EqDecision SpecGPU.
Proof. solve_decision. Defined.

Global Instance ConfigFile_eq_dec : EqDecision ConfigFile.
Proof. solve_decision. Defined.

(** [reflect.DeepEqual] on specs. *)
Global Instance Spec_eq_dec : EqDecision Spec.
Proof. solve_decision. Defined.

Section turns.
Context `{Unicode} `{World}.

(** The state under [id] when its live process is generation [g]: the check every
    handler makes before it believes a message about a process. *)
Definition live_generation (id : string) (g : generation) (o : owner)
  : option (specState * runningProc) :=
  st ← o_specs o !! id;
  p ← st_proc st;
  if decide (proc_gen p = g) then Some (st, p) else None.

(** ** Measurements *)

Definition insert_target (l : list measureTarget) : list measureTarget :=
  sort_Slice (less_string mt_specID) l.

Definition measurementTargets (o : owner) : list measureTarget * bool :=
  (insert_target (omap (fun e =>
       p ← st_proc e.2;
       Some (mkTarget e.1 (proc_gen p) (proc_pid p) (proc_everHealthy p))) (entries o)),
   existsb (fun e => has_proc e.2 && negb (bool_decide (spec_GPUs (st_spec e.2) = []))) (entries o)).

Definition dispatchMeasurement (o : owner) : owner :=
  if o_closing o || o_measuring o then o
  else
    let '(mp, o) := read world_measurer o in
    let '(rp, o) := read world_ramMeasurer o in
    let mp := bool_decide (is_Some mp) in
    if negb mp && negb rp then o
    else
      let '(targets, declaresGPU) := measurementTargets o in
      match targets with
      | [] => o
      | _ =>
          let vram := mp && declaresGPU in
          if negb vram && negb rp then o
          else emit (Measure targets vram rp) (o <| o_measuring := true |>)
      end.

Definition measureSoon (o : owner) : owner :=
  if o_measuring o then o <| o_remeasure := true |> else dispatchMeasurement o.

Definition healthyBootstrapAwaitingMeasurement (id : string) (o : owner) : bool * owner :=
  match o_specs o !! id with
  | None => (false, o)
  | Some st =>
      let '(rp, o) := read world_ramMeasurer o in
      (rp && match st_proc st with Some p => proc_everHealthy p | None => false end
       && bool_decide (st_state st = StateRunning)
       && needsRAMBootstrap (chargeSpec id st o) (st_measuredRAM st), o)
  end.

Definition failBootstrapUnmeasured (id : string) (o : owner) : owner :=
  match o_specs o !! id with
  | None => o
  | Some st =>
      match st_proc st with
      | None => o
      | Some p =>
          let o := upd id (fun st => st <| st_ramBootstrapBeats := 0 |>) o in
          let o := setState id StateStartFailed o in
          let '(tail, o) := read (fun n => world_logTail n (proc_gen p)) o in
          let o := recordFailure id "runtime: RAM cold-start bootstrap never produced a measurement within the bootstrap deadline" (-1) tail o in
          let o := failPending id ErrStartFailed o in
          let o := terminateNow id o in
          enterBackoff id o
      end
  end.

(** The VRAM half of the loop body of [applyMeasurement]; the flag says a ready reading
    landed. *)
Definition applyVRAM (t : measureTarget) (byGPU : gmap Z Z) (landed : bool) (o : owner)
  : bool * owner :=
  if bool_decide (byGPU = ∅) then (landed, o)
  else
    let o := upd (mt_specID t) (fun st => st <| st_measuredVRAM := byGPU |>
                                             <| st_vramBootstrapDone := true |>) o in
    if mt_ready t then (true, upd (mt_specID t) (fun st => st <| st_readyVRAM := byGPU |>) o)
    else (landed, o).

(** The loop body. *)
Definition applyTarget (byPID : gmap Z (gmap Z Z)) (ramByPID : gmap Z Z)
    (acc : bool * owner) (t : measureTarget) : bool * owner :=
  let '(landed, o) := acc in
  match live_generation (mt_specID t) (mt_proc t) o with
  | None => (landed, o)
  | Some _ =>
      let id := mt_specID t in
      let byGPU := realMeasurement (map_get ∅ byPID (mt_pid t)) in
      let '(landed, o) := applyVRAM t byGPU landed o in
      let mb := realRAM (map_get 0 ramByPID (mt_pid t)) in
      if 0 <? mb then
        let o := upd id (fun st => st <| st_measuredRAM := mb |>
                                      <| st_ramBootstrapRetries := 0 |>
                                      <| st_ramBootstrapBeats := 0 |>) o in
        if mt_ready t then (true, upd id (fun st => st <| st_readyRAM := mb |>) o)
        else (landed, o)
      else
        let '(waits, o) := healthyBootstrapAwaitingMeasurement id o in
        if waits then
          let o := upd id (fun st => st <| st_ramBootstrapBeats ::= fun n => n +! 1 |>) o in
          match o_specs o !! id with
          | Some st =>
              (landed, if ramBootstrapMeasureBeats <=? st_ramBootstrapBeats st
                       then failBootstrapUnmeasured id o else o)
          | None => (landed, o)
          end
        else (landed, o)
  end.

Definition applyMeasurement (targets : list measureTarget) (byPID : gmap Z (gmap Z Z))
    (ramByPID : gmap Z Z) (o : owner) : owner :=
  let '(landed, o) := foldl (applyTarget byPID ramByPID) (false, o <| o_measuring := false |>) targets in
  let o := if landed then wakeAdmission wantsDemandWake o else o in
  if o_remeasure o then dispatchMeasurement (o <| o_remeasure := false |>) else o.

(** ** Requests *)

Definition instanceForRequest (base : specState) (k : Z) (o : owner) : string * owner :=
  let key := InstanceKey (spec_ID (st_spec base)) k in
  let o :=
    match o_specs o !! key with
    | Some st =>
        if burst st && negb (has_proc st)
           && (bool_decide (st_state st = StateCrashed) || bool_decide (st_state st = StateStartFailed))
        then retire key o else o
    | None => o
    end in
  match o_specs o !! key with
  | Some _ => (key, o)
  | None =>
      let '(now, o) := read world_now o in
      (key, o <| o_specs ::= insert key (newState (specForInstance (st_spec base) k) k now) |>)
  end.

(** A request for an instance that is not running: refused at once, or queued. *)
Definition queueRequest (id : string) (reply : channel) (st : specState) (o : owner) : owner :=
  let '(now, o) := read world_now o in
  let limited := time_Sub now (st_notPermittedAt st) <? notPermittedRetryInterval in
  if bool_decide (st_state st = StateNotPermitted) && limited
  then emit (Reply reply (refused ErrNotPermitted)) o
  else if bool_decide (st_state st = StatePendingVRAMUnknown) && limited
  then emit (Reply reply (refused ErrAdmissionBlocked)) o
  else if burst st && has_proc st && negb (bool_decide (st_state st = StateStarting))
  then emit (Reply reply (refused ErrInstanceNoCapacity)) o
  else
    let '(now, o) := read world_now o in
    let secs := spec_AdmissionWaitTimeoutSeconds (st_spec st) in
    let '(t, o) :=
      if 0 <? secs then
        let '(t, o) := scheduleAfter (int64 (secs * second)) (cmdWaiterTimeout id reply) o in
        (Some t, o)
      else (None, o) in
    let o := upd id (fun st => st <| st_pending ::= fun l => l ++ [mkWaiter reply t now] |>) o in
    admitAndStart id o.

(** Answering a request for, or queueing it on, the instance [id]. *)
Definition ensureInstance (id : string) (reply : channel) (o : owner) : owner :=
  match o_specs o !! id with
  | None => o
  | Some st =>
      match bool_decide (st_state st = StateRunning), st_proc st with
      | true, Some p =>
          let o := upd id (fun st => st <| st_inFlight ::= fun n => n +! 1 |>) o in
          let '(now, o) := read world_now o in
          emit (Reply reply (served id p)) (upd id (fun st => st <| st_lastUsed := now |>) o)
      | _, _ => queueRequest id reply st o
      end
  end.

Definition handleEnsure (model : string) (reply : channel) (serving : bool) (o : owner) : owner :=
  if o_closing o then emit (Reply reply (refused ErrManagerClosed)) o
  else
    match resolveAddress model o with
    | None => emit (Reply reply (refused ErrModelNotManaged)) o
    | Some (specID, _, k) =>
        match o_specs o !! specID with
        | None => o
        | Some st =>
            if String.eqb (spec_AdminState (st_spec st)) "force_stopped"
            then emit (Reply reply (refused ErrAdmissionBlocked)) o
            else if 0 <? k then
              if serving && plainRequestRefused st k o then
                let key := InstanceKey (spec_ID (st_spec st)) k in
                let o := match o_specs o !! key with
                         | Some failed => if spentBurst failed then retire key o else o
                         | None => o
                         end in
                emit (Reply reply (refused ErrInstanceNoCapacity)) o
              else
                let '(key, o) := instanceForRequest st k o in
                ensureInstance key reply o
            else ensureInstance specID reply o
        end
    end.

(** The position of the waiter that holds a reply channel, and the queue without it. *)
Definition find_waiter (reply : channel) (l : list ensureWaiter) : option (nat * ensureWaiter) :=
  list_find (fun w => w_reply w = reply) l.

Definition remove_waiter (i : nat) (l : list ensureWaiter) : list ensureWaiter :=
  take i l ++ drop (S i) l.

(** The loop of [handleCancelEnsure] over the instances: the first one that holds
    the waiter answers it. *)
Fixpoint cancelIn (reply : channel) (err : error) (ids : list string) (o : owner) : owner :=
  match ids with
  | [] => o
  | id :: ids =>
      match o_specs o !! id with
      | None => cancelIn reply err ids o
      | Some st =>
          match find_waiter reply (st_pending st) with
          | None => cancelIn reply err ids o
          | Some (i, w) =>
              let o := cancelTimer (w_timer w) o in
              let o := upd id (fun st => st <| st_pending ::= remove_waiter i |>) o in
              emit (Reply reply (refused err)) o
          end
      end
  end.

Definition handleCancelEnsure (reply : channel) (err : option error) (o : owner) : owner :=
  let '(ids, o) := range_specs o in
  cancelIn reply (default context_Canceled err) ids o.

Definition handleWaiterTimeout (id : string) (reply : channel) (o : owner) : owner :=
  match o_specs o !! id with
  | None => o
  | Some st =>
      if decide (st_state st = StateStarting) then o
      else
        match find_waiter reply (st_pending st) with
        | None => o
        | Some (i, _) =>
            let o := upd id (fun st => st <| st_pending ::= remove_waiter i |>) o in
            emit (Reply reply (refused ErrAdmissionBlocked)) o
        end
  end.

Definition handleRelease (id : string) (g : generation) (o : owner) : owner :=
  match live_generation id g o with
  | None => o
  | Some (st, _) =>
      let left := if 0 <? st_inFlight st then st_inFlight st -! 1 else st_inFlight st in
      let o := upd id (fun st => st <| st_inFlight := left |>) o in
      let '(now, o) := read world_now o in
      let o := upd id (fun st => st <| st_lastUsed := now |>) o in
      let o := if bool_decide (st_state st = StateDraining) && (left =? 0)
               then terminateNow id o else o in
      wakeAdmissionCandidates o
  end.

(** ** The life of a process *)

Definition handleStartResult (id : string) (g : generation) (ok : bool) (o : owner) : owner :=
  match live_generation id g o with
  | None => o
  | Some (st, p) =>
      let o := if ok then upd_proc id (fun p => p <| proc_everHealthy := true |>) o else o in
      if decide (st_state st = StateDraining) then o
      else if ok then
        let o := upd id (fun st =>
            (if st_hasRunBefore st then st <| st_restarts ::= fun n => n +! 1 |> else st)
              <| st_hasRunBefore := true |>) o in
        let '(now, o) := read world_now o in
        let o := upd id (fun st => st <| st_startupMS :=
                   Z.max 1 (Z.quot (time_Sub now (proc_startedAt p)) millisecond) |>) o in
        let o := setState id StateRunning o in
        let o := upd id (fun st => st <| st_lastError := None |>) o in
        let '(t, o) := scheduleAfter stableRunThreshold (cmdStableRun id g) o in
        let o := upd_proc id (fun p => p <| proc_stableTimer := Some t |>) o in
        let o := succeedPending id o in
        wakeAfterStart (measureSoon o)
      else
        let '(tail, o) := read (fun n => world_logTail n g) o in
        let o := setState id StateStartFailed o in
        let o := recordFailure id "runtime: startup timed out waiting for health" 0 tail o in
        let o := failPending id ErrStartTimeout o in
        let o := terminateNow id o in
        enterBackoff id o
  end.

Definition handleStableRun (id : string) (g : generation) (o : owner) : owner :=
  match live_generation id g o with
  | None => o
  | Some (st, _) =>
      let o := upd_proc id (fun p => p <| proc_stableTimer := None |>) o in
      if decide (st_state st = StateRunning)
      then upd id (fun st => st <| st_failures := 0 |>) o else o
  end.

Definition handleDrainGraceExpired (id : string) (g : generation) (o : owner) : owner :=
  match live_generation id g o with
  | None => o
  | Some _ => terminateNow id (upd_proc id (fun p => p <| proc_drainTimer := None |>) o)
  end.

Definition handleKillGraceExpired (id : string) (g : generation) (o : owner) : owner :=
  match live_generation id g o with
  | None => o
  | Some _ => emit (SignalKill g) (upd_proc id (fun p => p <| proc_killTimer := None |>) o)
  end.

Definition handleBackoffFire (id : string) (o : owner) : owner :=
  match o_specs o !! id with
  | None => o
  | Some st =>
      let o := upd id (fun st => st <| st_backoffTimer := None |>) o in
      let o := if decide (st_state st = StateBackoff) then setState id StateStopped o else o in
      admitAndStart id o
  end.

(** ** Memory pressure during a RAM bootstrap *)

Definition betterBootstrapVictim (a b : specState) : bool :=
  if negb (Bool.eqb (burst a) (burst b)) then burst a
  else if negb (st_lastUsed a =? st_lastUsed b) then st_lastUsed a <? st_lastUsed b
  else String.ltb (spec_ID (st_spec a)) (spec_ID (st_spec b)).

(** Whether the bootstrap escalation may take this process. *)
Definition bootstrapVictim (now : time) (beneficiaryID beneficiaryBase : string)
    (id : string) (st : specState) (o : owner) : bool :=
  negb (String.eqb id beneficiaryID) && has_proc st
  && bool_decide (st_state st = StateRunning)
  && negb (String.eqb (specBase (st_spec st)) beneficiaryBase)
  && negb (higherSiblingRuns st o)
  && isEvictable {| rp_SpecID := ""; rp_Spec := ""; rp_Instance := 0; rp_Surplus := false;
                    rp_GPUs := ∅; rp_RAMMB := 0; rp_InFlight := st_inFlight st;
                    rp_Pinned := pinnedForAdmission st; rp_Role := "";
                    rp_LastUsed := st_lastUsed st;
                    rp_Starting := bool_decide (st_state st = StateStarting) |}
       now (opt_evictionGrace (o_opts o)).

Definition pickBootstrapVictim (now : time) (beneficiaryID : string) (ids : list string)
    (o : owner) : option (string * specState) :=
  let beneficiaryBase :=
    match o_specs o !! beneficiaryID with
    | Some b => specBase (st_spec b)
    | None => beneficiaryID
    end in
  foldl (fun victim id =>
      match o_specs o !! id with
      | None => victim
      | Some st =>
          if negb (bootstrapVictim now beneficiaryID beneficiaryBase id st o) then victim
          else match victim with
               | None => Some (id, st)
               | Some (_, v) => if betterBootstrapVictim st v then Some (id, st) else victim
               end
      end) None ids.

Definition evictOneIdleForBootstrap (beneficiaryID : string) (o : owner) : bool * owner :=
  let '(now, o) := read world_now o in
  let '(ids, o) := range_specs o in
  match pickBootstrapVictim now beneficiaryID ids o with
  | None => (false, o)
  | Some (id, _) =>
      let o := upd id (fun st => st <| st_drainedFor ::= fun l => appendUnique l beneficiaryID |>) o in
      (true, beginDrain id o)
  end.

Definition handleBootstrapMemoryPressure (id : string) (exitCode : Z) (tail : string) (o : owner)
  : owner :=
  match o_specs o !! id with
  | None => o
  | Some st =>
      if ramBootstrapMaxRetries <=? st_ramBootstrapRetries st then
        let o := setState id StateStartFailed o in
        let o := recordFailure id ("runtime: RAM cold-start bootstrap died of memory pressure again (exit code " +:+ pretty exitCode +:+ "); escalation already spent, backing off") exitCode tail o in
        let o := failPending id ErrStartFailed o in
        enterBackoff id o
      else
        let o := upd id (fun st => st <| st_ramBootstrapRetries ::= fun n => n +! 1 |>) o in
        let '(evicted, o) := evictOneIdleForBootstrap id o in
        let o := setState id StateStartFailed o in
        let msg := if evicted
          then "runtime: RAM cold-start bootstrap died of memory pressure (exit code " +:+ pretty exitCode +:+ "); evicting an idle process and retrying once"
          else "runtime: RAM cold-start bootstrap died of memory pressure (exit code " +:+ pretty exitCode +:+ "); no idle process to evict, retrying once" in
        let o := recordFailure id msg exitCode tail o in
        enterBackoff id o
  end.

(** ** Exits *)

(** The loop of [ensureProtectedFloor] over the instances of one spec. *)
Fixpoint floorFrom (n : nat) (spec : Spec) (k : Z) (o : owner) : owner :=
  match n with
  | O => o
  | S n =>
      if (k <? ProtectedCount spec) && InstanceAllowed spec k then
        let key := InstanceKey (spec_ID spec) k in
        let o :=
          match o_specs o !! key with
          | Some _ => o
          | None =>
              match instanceAddressHolder spec k o with
              | Some _ => o
              | None =>
                  let '(now, o) := read world_now o in
                  o <| o_specs ::= insert key (newState (specForInstance spec k) k now) |>
              end
          end in
        floorFrom n spec (k + 1) o
      else o
  end.

(** No index above [MaxInstanceIndex] is allowed, so one round more than that ends it. *)
Definition ensureProtectedFloor (o : owner) : owner :=
  foldl (fun o spec => floorFrom (S (Z.to_nat MaxInstanceIndex)) spec 1 o) o
    (cfg_Specs (o_cfg o)).

(** What [onProcExited] clears of the generation that is gone. *)
Definition clearExited (st : specState) : specState :=
  st <| st_proc := None |> <| st_inFlight := 0 |> <| st_measuredVRAM := ∅ |>.

Definition clearReadings (st : specState) : specState :=
  st <| st_measuredRAM := 0 |> <| st_readyVRAM := ∅ |> <| st_readyRAM := 0 |>
     <| st_intentionalStop := false |> <| st_backoffOnExit := false |>
     <| st_drainedFor := [] |>.

(** A generation the owner meant to stop. *)
Definition onIntentionalExit (id : string) (deferredBackoff : bool) (drainedFor : list string)
    (o : owner) : owner :=
  match o_specs o !! id with
  | None => o
  | Some st =>
      if deferredBackoff && negb (String.eqb (spec_AdminState (st_spec st)) "force_stopped")
      then wakeAdmissionCandidates (enterBackoff id o)
      else
        let o := if decide (st_state st = StateDraining) then setState id StateStopped o else o in
        let o :=
          match o_specs o !! id with
          | Some st =>
              if decide (st_state st = StateStopped)
              then admitAndStart id (for_each drainedFor reask o) else o
          | None => o
          end in
        wakeAdmissionCandidates o
  end.

Definition crashMessage (exitCode : Z) : string :=
  "runtime: process exited unexpectedly (exit code " +:+ pretty exitCode +:+ ")".
Definition unhealthyExitMessage (exitCode : Z) : string :=
  "runtime: process exited before becoming healthy (exit code " +:+ pretty exitCode +:+ ")".

(** A generation that died on its own. *)
Definition onUnexpectedExit (id : string) (memoryPressure wasHealthy : bool) (exitCode : Z)
    (tail : string) (o : owner) : owner :=
  let o :=
    if memoryPressure then handleBootstrapMemoryPressure id exitCode tail o
    else if wasHealthy then
      let o := setState id StateCrashed o in
      let o := recordFailure id (crashMessage exitCode) exitCode tail o in
      enterBackoff id o
    else
      let o := setState id StateStartFailed o in
      let o := recordFailure id (unhealthyExitMessage exitCode) exitCode tail o in
      let o := failPending id ErrStartFailed o in
      enterBackoff id o in
  wakeAdmissionCandidates o.

Definition onRemovedExit (id : string) (o : owner) : owner :=
  let o := failPending id ErrModelNotManaged o in
  let o := deleteState id o in
  let o := rebuildUpstreamIndex o in
  let o := if o_closing o then o else ensureProtectedFloor o in
  wakeAdmissionCandidates o.

Definition onProcExited (id : string) (exitErr : option ExitError) (o : owner) : owner :=
  match o_specs o !! id with
  | None => o
  | Some st =>
      match st_proc st with
      | None => o
      | Some p =>
          let bootstrapSpec := negb (burst st) && specHasUnknownRAM (demandSpec id st o) in
          let oomSignaled := killedBySIGKILL exitErr in
          let '(ramBudgetAtDeath, o) :=
            if bootstrapSpec then hostRAMBudgetSnapshot o else (0, o) in
          let o := cancelTimer (proc_killTimer p) o in
          let o := cancelTimer (proc_drainTimer p) o in
          let o := cancelTimer (proc_stableTimer p) o in
          let o := upd id clearExited o in
          let o := noteRAMFreed id o in
          let o := upd id clearReadings o in
          if st_removed st then onRemovedExit id o
          else if st_intentionalStop st
          then onIntentionalExit id (st_backoffOnExit st) (st_drainedFor st) o
          else
            let exitCode := extractExitCode exitErr in
            let '(tail, o) := read (fun n => world_logTail n (proc_gen p)) o in
            onUnexpectedExit id
              (bootstrapSpec && wantsUp st
               && bootstrapDiedOfMemoryPressure oomSignaled (st_measuredRAM st) ramBudgetAtDeath)
              (proc_everHealthy p) exitCode tail o
      end
  end.

Definition handleChildExited (id : string) (g : generation) (exitErr : option ExitError)
    (o : owner) : owner :=
  match live_generation id g o with
  | None => o
  | Some _ => onProcExited id exitErr o
  end.

(** ** Applying a configuration *)

Definition replicableIDs (specs : list Spec) : gset string :=
  list_to_set (spec_ID <$> List.filter spec_Replicable specs).

(** The counting loop of [sameReplicableOptIn]. *)
Definition sameReplicableOptIn (a b : list Spec) : bool :=
  let replicable := replicableIDs a in
  let wanted := List.filter spec_Replicable b in
  forallb (fun spec => bool_decide (spec_ID spec ∈ replicable)) wanted
  && (length wanted =? size replicable)%nat.

Definition stripMetadata (s : Spec) : Spec :=
  s <| spec_Model := "" |> <| spec_HealthPath := "" |> <| spec_HealthTimeoutSeconds := 0 |>
    <| spec_StartupTimeoutSeconds := 0 |> <| spec_IdleTimeoutSeconds := 0 |>
    <| spec_AdmissionWaitTimeoutSeconds := 0 |> <| spec_Pinned := false |>
    <| spec_AdminState := "" |> <| spec_Type := "" |> <| spec_MetricsPath := "" |>
    <| spec_ContextProbePath := "" |> <| spec_RAMMB := 0 |> <| spec_Role := "" |>
    <| spec_Replicable := false |> <| spec_MinInstances := 0 |> <| spec_MaxInstances := 0 |>
    <| spec_GPUs ::= fmap (fun g => g <| gpu_VRAMMB := 0 |>) |>.

Definition sameLaunchShape (a b : Spec) : bool :=
  bool_decide (stripMetadata a = stripMetadata b).

Definition reconcileSpec (id : string) (spec : Spec) (o : owner) : owner :=
  match o_specs o !! id with
  | None => o
  | Some st =>
      let changed := negb (bool_decide (st_spec st = spec)) in
      let o := upd id (fun st => st <| st_spec := spec |>) o in
      if changed && negb (has_proc st) then
        match st_state st with
        | StateStartFailed | StateCrashed => setState id StateStopped o
        | StateBackoff =>
            let o := cancelTimer (st_backoffTimer st) o in
            let o := upd id (fun st => st <| st_backoffTimer := None |>) o in
            setState id StateStopped o
        | _ => o
        end
      else if changed && has_proc st && negb (String.eqb (spec_AdminState spec) "force_stopped")
              && negb (sameLaunchShape (st_spec st) spec)
      then beginDrain (spec_ID spec) o
      else o
  end.

Definition removeState (id : string) (o : owner) : owner :=
  match o_specs o !! id with
  | None => o
  | Some st =>
      if has_proc st then beginDrain id (upd id (fun st => st <| st_removed := true |>) o)
      else
        let o := cancelTimer (st_backoffTimer st) o in
        let o := failPending id ErrModelNotManaged o in
        deleteState id o
  end.

(** Instance 0 of a pushed spec. *)
Definition applySpec (o : owner) (spec : Spec) : owner :=
  match o_specs o !! spec_ID spec with
  | None =>
      let '(now, o) := read world_now o in
      o <| o_specs ::= insert (spec_ID spec) (newState spec 0 now) |>
  | Some _ =>
      let o := upd (spec_ID spec) (fun st => st <| st_removed := false |>) o in
      reconcileSpec (spec_ID spec) spec o
  end.

(** A further instance that exists already. *)
Definition applyInstance (bases : gmap string Spec) (id : string) (o : owner) : owner :=
  match o_specs o !! id with
  | None => o
  | Some st =>
      if st_instance st =? 0 then o
      else
        match bases !! spec_InstanceOf (st_spec st) with
        | None => o
        | Some base =>
            if negb (InstanceAllowed base (st_instance st)) then removeState id o
            else
              match instanceAddressHolder base (st_instance st) o with
              | Some _ => removeState id o
              | None =>
                  let o := upd id (fun st => st <| st_removed := false |>) o in
                  if IsBurst base (st_instance st) && negb (has_proc st) then
                    let o := cancelTimer (st_backoffTimer st) o in
                    let o := upd id (fun st => st <| st_backoffTimer := None |>) o in
                    let o := if decide (st_state st = StateBackoff)
                             then setState id StateStopped o else o in
                    if negb (has_pending st) then retire id o
                    else reconcileSpec id (specForInstance base (st_instance st)) o
                  else reconcileSpec id (specForInstance base (st_instance st)) o
              end
        end
  end.

(** The last loop: drain what is force-stopped, collect what must come up. *)
Definition collectStart (bases : gmap string Spec) (acc : list string * owner) (id : string)
  : list string * owner :=
  let '(start, o) := acc in
  match o_specs o !! id with
  | None => acc
  | Some st =>
      if st_removed st || negb (has_key bases (specBase (st_spec st))) then acc
      else if String.eqb (spec_AdminState (st_spec st)) "force_stopped"
      then (start, if has_proc st then beginDrain id o else o)
      else if protected st && negb (has_proc st) && negb (bool_decide (st_state st = StateBackoff))
      then (start ++ [id], o)
      else acc
  end.

Definition applyConfig (cfg : Config) (o : owner) : owner :=
  let specs := withoutReservedSpecIDs (cfg_Specs cfg) in
  let cfg := mkConfig (cfg_RouterListen cfg) (cfg_MaxProcesses cfg) (cfg_GPUBudgets cfg) specs
               (cfg_Coresident cfg) (cfg_ETag cfg) in
  if negb (String.eqb (cfg_ETag cfg) "") && String.eqb (cfg_ETag cfg) (cfg_ETag (o_cfg o))
     && sameReplicableOptIn specs (cfg_Specs (o_cfg o))
  then o
  else
    let o := o <| o_cfg := cfg |> <| o_allowedPairs := AllowedPairs cfg |> in
    let bases : gmap string Spec := foldl (fun m spec => <[spec_ID spec := spec]> m) ∅ specs in
    let o := foldl applySpec o specs in
    let '(ids, o) := range_specs o in
    let o := for_each ids (fun id o =>
        match o_specs o !! id with
        | Some st => if has_key bases (specBase (st_spec st)) then o else removeState id o
        | None => o
        end) o in
    let o := rebuildUpstreamIndex o in
    let '(ids, o) := range_specs o in
    let o := for_each ids (applyInstance bases) o in
    let o := ensureProtectedFloor o in
    let o := emit (RetainLogs (map_to_list bases).*1) o in
    let '(ids, o) := range_specs o in
    let '(start, o) := foldl (collectStart bases) ([], o) ids in
    let o := for_each (sortInstanceOrder o start) reask o in
    wakeAdmissionCandidates o.

(** ** Stopping one instance *)

Definition stopQueuedError (st : specState) : error :=
  let text := "instance " +:+ spec_ID (st_spec st) +:+ " was stopped" in
  if burst st then ErrWrap ErrInstanceNoCapacity text else ErrWrap ErrAdmissionBlocked text.

Definition stopInstance (model : string) (o : owner) : (error + StopState) * owner :=
  if o_closing o then (inl ErrManagerClosed, o)
  else
    match resolveAddress model o with
    | None => (inl ErrModelNotManaged, o)
    | Some (specID, _, k) =>
        match o_specs o !! specID with
        | None => (inl ErrModelNotManaged, o)
        | Some base =>
            if st_removed base then (inl ErrModelNotManaged, o)
            else
              let key := InstanceKey (spec_ID (st_spec base)) k in
              let st := o_specs o !! key in
              let hasProc := match st with Some st => has_proc st | None => false end in
              if String.eqb (spec_AdminState (st_spec base)) "force_stopped" then
                if negb hasProc then (inr StopStopped, o)
                else (inr StopStopping, beginDrain key o)
              else if k <? ProtectedCount (st_spec base) then (inl ErrInstanceProtected, o)
              else
                match st with
                | None => (inr StopStopped, o)
                | Some st =>
                    if negb hasProc
                    then (inr StopStopped, failPending key (stopQueuedError st) o)
                    else if negb (bool_decide (st_state st = StateDraining))
                            && higherSiblingRuns st o
                    then (inl ErrInstanceNotHighest, o)
                    else (inr StopStopping,
                          beginDrain key (failPending key (stopQueuedError st) o))
                end
        end
    end.

(** ** Housekeeping, status and shutdown *)

Definition scanIdle (o : owner) : owner :=
  let '(now, o) := read world_now o in
  let '(ids, o) := range_specs o in
  for_each ids (fun id o =>
      match o_specs o !! id with
      | None => o
      | Some st =>
          if negb (has_proc st) || negb (bool_decide (st_state st = StateRunning)) then o
          else if protected st then o
          else if (spec_IdleTimeoutSeconds (st_spec st) <=? 0) || negb (st_inFlight st =? 0) then o
          else if higherSiblingRuns st o then o
          else
            let idle := int64 (spec_IdleTimeoutSeconds (st_spec st) * second) in
            if idle <=? time_Sub now (st_lastUsed st) then beginDrain id o else o
      end) o.

Definition statusOf (st : specState) : Status :=
  {| status_SpecID := specBase (st_spec st);
     status_Model := InstanceAddress (spec_UpstreamModel (st_spec st)) (st_instance st);
     status_State := st_state st;
     status_Since := st_since st;
     status_PID := match st_proc st with Some p => proc_pid p | None => 0 end;
     status_Port := match st_proc st with Some p => proc_port p | None => 0 end;
     status_InFlight := st_inFlight st;
     status_Restarts := st_restarts st;
     status_MeasuredVRAM := st_measuredVRAM st;
     status_MeasuredRAMMB := st_measuredRAM st;
     status_LastError := st_lastError st;
     status_Instance := st_instance st;
     status_StartupMS := st_startupMS st;
     status_Type := spec_Type (st_spec st);
     status_MetricsPath := spec_MetricsPath (st_spec st);
     status_ContextProbePath := spec_ContextProbePath (st_spec st) |}.

Definition snapshotStatus (o : owner) : list Status * owner :=
  let '(ids, o) := range_specs o in
  (omap (fun id => statusOf <$> o_specs o !! id) ids, o).

Definition loadedModels (o : owner) : list string * owner :=
  let '(ids, o) := range_specs o in
  (omap (fun id =>
       st ← o_specs o !! id;
       if decide (st_state st = StateRunning)
       then Some (InstanceAddress (spec_UpstreamModel (st_spec st)) (st_instance st))
       else None) ids, o).

Definition handleClose (o : owner) : owner :=
  let o := (clearGraceTimer (o <| o_closing := true |>)) <| o_graceTimerAt := time_zero |> in
  let '(ids, o) := range_specs o in
  for_each ids (fun id o =>
      match o_specs o !! id with
      | None => o
      | Some st =>
          let o :=
            if decide (st_state st = StateBackoff) then
              let o := cancelTimer (st_backoffTimer st) o in
              let o := upd id (fun st => st <| st_backoffTimer := None |>) o in
              setState id StateStopped o
            else o in
          let o := failPending id ErrManagerClosed o in
          if has_proc st then beginDrain id o else o
      end) o.

Definition maybeFinishClose (o : owner) : owner :=
  if negb (o_closing o) || o_stopped o then o
  else if existsb (fun e => has_proc e.2) (entries o) then o
  else o <| o_stopped := true |>.

(** ** The event loop *)

Definition dispatch (c : command) (o : owner) : owner :=
  match c with
  | cmdApply cfg done => emit (Applied done) (applyConfig cfg o)
  | cmdEnsure model reply serving => handleEnsure model reply serving o
  | cmdCancelEnsure reply err => handleCancelEnsure reply err o
  | cmdWaiterTimeout id reply => handleWaiterTimeout id reply o
  | cmdRelease id g => handleRelease id g o
  | cmdChildExited id g exitErr => handleChildExited id g exitErr o
  | cmdStartResult id g ok => handleStartResult id g ok o
  | cmdBackoffFire id => handleBackoffFire id o
  | cmdGraceExpiry => handleGraceExpiry o
  | cmdStableRun id g => handleStableRun id g o
  | cmdDrainGraceExpired id g => handleDrainGraceExpired id g o
  | cmdKillGraceExpired id g => handleKillGraceExpired id g o
  | cmdMeasured targets byPID ramByPID => applyMeasurement targets byPID ramByPID o
  | cmdStatus reply => let '(rows, o) := snapshotStatus o in emit (StatusReply reply rows) o
  | cmdLoadedModels reply => let '(ms, o) := loadedModels o in emit (LoadedReply reply ms) o
  | cmdStop model reply => let '(out, o) := stopInstance model o in emit (StopReply reply out) o
  | cmdResolve model reply =>
      emit (ResolveReply reply ((fun r => (r.1.2, r.2)) <$> resolveAddress model o)) o
  | cmdAppliedETag reply => emit (ETagReply reply (cfg_ETag (o_cfg o))) o
  | cmdClose => handleClose o
  end.

Definition nextTurn (o : owner) : owner := o <| o_turn ::= fun t => uint64 (t + 1) |>.

Definition handle (c : command) (o : owner) : owner :=
  let o := dispatch c (nextTurn o) in
  if o_closing o then maybeFinishClose o else o.

(** What can happen to the owner: a command, the housekeeping beat, a fresh sample. *)
Inductive event := Command (c : command) | IdleTick | HostWake.

(** One round of [run]; a stopped owner reads nothing more. *)
Definition turn (o : owner) (ev : event) : owner :=
  if o_stopped o then o
  else
    match ev with
    | Command c => handle c o
    | IdleTick =>
        let o := nextTurn o in
        if o_closing o then o else dispatchMeasurement (scanIdle o)
    | HostWake =>
        let o := nextTurn o in
        if o_closing o then o else wakeOnHostSample o
    end.

Definition run (o : owner) (evs : list event) : owner := foldl turn o evs.

Definition zeroConfig : Config := mkConfig 0 0 [] [] [] "".

Definition NewManager (opts : options) : owner :=
  {| o_opts := mkOptions (opt_gpuVendor opts) (Z.max 0 (opt_vramHeadroomMB opts))
                 (Z.max 0 (opt_hostRAMReserveMB opts)) (Z.max 0 (opt_ramBootstrapGuessMB opts))
                 (Z.max 0 (opt_evictionGrace opts));
     o_ramFreedMB := 0; o_ramFreedUntilSeq := 0; o_cfg := zeroConfig; o_allowedPairs := ∅;
     o_specs := ∅; o_byUpstream := ∅; o_graceTimer := None; o_graceTimerAt := time_zero;
     o_closing := false; o_stopped := false; o_measuring := false; o_remeasure := false;
     o_turn := 0; o_reads := 0%nat; o_nextTimer := 0%nat; o_nextProc := 0%nat; o_effects := [] |}.

End turns.
