(* ===== verification/ManagerSteps.v ===== *)
(** * The runtime manager: moves

    Every handler of the manager is a sequence of _moves_: a change of one row of
    the instance table with the answers it sends, a start, a new row, a row that
    leaves, the beginning of shutdown, or something no property looks at.  This file
    defines the moves and what the primitive operations do to one row; the later
    files show which moves each handler makes and what every move preserves. *)

From Stdlib Require Import ZArith Lia Ascii.
From stdpp Require Import base tactics option list numbers strings pretty gmap relations.
From S2P Require Import Prelude RuntimeTypes Policy Manager ManagerAdmit ManagerTurns.
Local Open Scope Z_scope.
Local Open Scope go_scope.

(** ** What the properties observe of the effects *)

Definition observed (e : effect) : bool :=
  match e with
  | Reply _ _ | Exec _ _ _ | Schedule _ _ (cmdDrainGraceExpired _ _) => true
  | _ => false
  end.

Definition observe (o : owner) : list effect := List.filter observed (o_effects o).

Definition reply_channel (e : effect) : option channel :=
  match e with Reply r _ => Some r | _ => None end.

(** The channels answered in a list of effects. *)
Definition answered (es : list effect) : list channel := omap reply_channel es.

(** ** Rows

    What the properties see of one instance: the abstraction of a [specState]. *)
Record row := mkRow {
  r_spec : Spec;
  r_instance : Z;
  r_state : State;
  r_proc : option (generation * bool);   (* the live generation, and whether it was ever healthy *)
  r_inFlight : Z;
  r_queue : list channel;
  r_backoff : bool;                      (* a retry timer is set *)
  r_backoffOnExit : bool;
  r_intentional : bool;
  r_removed : bool;
  r_measured : bool                      (* some measurement is recorded *)
}.

Global Instance row_fields : Fields row := fun r =>
  mkRow (r_spec r) (r_instance r) (r_state r) (r_proc r) (r_inFlight r) (r_queue r)
    (r_backoff r) (r_backoffOnExit r) (r_intentional r) (r_removed r) (r_measured r).

Definition abs (st : specState) : row := {|
  r_spec := st_spec st;
  r_instance := st_instance st;
  r_state := st_state st;
  r_proc := (fun p => (proc_gen p, proc_everHealthy p)) <$> st_proc st;
  r_inFlight := st_inFlight st;
  r_queue := w_reply <$> st_pending st;
  r_backoff := bool_decide (is_Some (st_backoffTimer st));
  r_backoffOnExit := st_backoffOnExit st;
  r_intentional := st_intentionalStop st;
  r_removed := st_removed st;
  r_measured := negb (bool_decide (st_measuredVRAM st = ∅) && (st_measuredRAM st =? 0)
                      && bool_decide (st_readyVRAM st = ∅) && (st_readyRAM st =? 0))
|}.

Definition has_row (o : owner) (id : string) (r : row) : Prop :=
  exists st, o_specs o !! id = Some st /\ abs st = r.

(** The fields a local operation leaves alone. *)
Record same_globals (o o' : owner) : Prop := {
  sg_opts : o_opts o' = o_opts o;
  sg_closing : o_closing o' = o_closing o;
  sg_stopped : o_stopped o' = o_stopped o;
  sg_turn : o_turn o' = o_turn o;
  sg_cfg : o_cfg o' = o_cfg o;
  sg_allowed : o_allowedPairs o' = o_allowedPairs o;
  sg_byUpstream : o_byUpstream o' = o_byUpstream o;
  sg_nextProc : o_nextProc o' = o_nextProc o
}.

Global Instance same_globals_preorder : PreOrder same_globals.
Proof. split; [by split|]. intros o1 o2 o3 [] []. split; congruence. Qed.

(** Nothing observable happened: the table is untouched. *)
Record quiet (o o' : owner) : Prop := {
  quiet_specs : o_specs o' = o_specs o;
  quiet_globals : same_globals o o';
  quiet_observe : observe o' = observe o
}.

Global Instance quiet_preorder : PreOrder quiet.
Proof.
  split; [by split|]. intros o1 o2 o3 [] []. split; [congruence|by etrans|congruence].
Qed.

(** [lc id r es o o']: [o'] is [o] with row [id] turned into [r], after the observed
    effects [es] (newest first). *)
Record lc (id : string) (r : row) (es : list effect) (o o' : owner) : Prop := {
  lc_specs : exists st, abs st = r /\ o_specs o' = <[id := st]> (o_specs o);
  lc_globals : same_globals o o';
  lc_observe : observe o' = es ++ observe o
}.

Global Arguments read : simpl never.
Global Arguments emit : simpl never.
Global Arguments upd : simpl never.
Global Arguments scheduleAfter : simpl never.

Lemma quiet_read {A} (f : nat -> A) o : quiet o (read f o).2.
Proof. by split. Qed.

Lemma quiet_read_eq {A} (f : nat -> A) o a o' : read f o = (a, o') -> quiet o o'.
Proof. intros [= _ <-]. apply (quiet_read f). Qed.

(** Names the results of the reads of the goal and records that they are quiet. *)
Ltac reads :=
  repeat match goal with
  | |- context [read ?f ?o] =>
      let E := fresh "E" in
      destruct (read f o) as [? ?] eqn:E; apply quiet_read_eq in E
  end.

Section local_steps.
Context `{Unicode} `{World}.

Lemma lc_trans id r1 r2 es1 es2 o o1 o2 :
  lc id r1 es1 o o1 -> lc id r2 es2 o1 o2 -> lc id r2 (es2 ++ es1) o o2.
Proof.
  intros [(st1 & A1 & S1) G1 O1] [(st2 & A2 & S2) G2 O2]. split; [|by etrans|].
  - exists st2. by rewrite S2, S1, insert_insert_eq.
  - by rewrite O2, O1, app_assoc.
Qed.

Lemma lc_has_row id r es o o' : lc id r es o o' -> has_row o' id r.
Proof. intros [(st & A & S) _ _]. exists st. by rewrite S, lookup_insert_eq. Qed.

Lemma lc_refl id r o : has_row o id r -> lc id r [] o o.
Proof. intros (st & Hst & A). split; [|done|done]. exists st. by rewrite insert_id. Qed.

Lemma lc_quiet_r id r es o o1 o2 : quiet o1 o2 -> lc id r es o o1 -> lc id r es o o2.
Proof. intros [S' G' O'] [S G O]. split; [by rewrite S'|by etrans|congruence]. Qed.

Lemma lc_quiet_l id r es o o1 o2 : quiet o o1 -> lc id r es o1 o2 -> lc id r es o o2.
Proof. intros [S' G' O'] [S G O]. split; [by rewrite <- S'|by etrans|congruence]. Qed.

Lemma lc_quiet id r o o' : has_row o id r -> quiet o o' -> lc id r [] o o'.
Proof. intros. eapply lc_quiet_r; [done|by apply lc_refl]. Qed.

Lemma lc_lookup id r es o o' : lc id r es o o' -> exists st, o_specs o' !! id = Some st /\ abs st = r.
Proof. apply lc_has_row. Qed.

Lemma quiet_has_row o o' id r : quiet o o' -> has_row o id r -> has_row o' id r.
Proof. intros [S _ _]. unfold has_row. by rewrite S. Qed.

(** ** Primitive operations *)

Lemma quiet_emit e o : observed e = false -> quiet o (emit e o).
Proof. intros He. split; [done|by split|]. unfold observe, emit. simpl. by rewrite He. Qed.

Lemma quiet_cancelTimer t o : quiet o (cancelTimer t o).
Proof. destruct t; [by apply quiet_emit|done]. Qed.

Lemma quiet_scheduleAfter d c o :
  observed (Schedule 0%nat d c) = false -> quiet o (scheduleAfter d c o).2.
Proof.
  intros Hc. split; [done|by split|]. unfold observe, scheduleAfter, emit. simpl in *. by rewrite Hc.
Qed.

Lemma quiet_scheduleAfter_eq d c o t o' :
  scheduleAfter d c o = (t, o') -> observed (Schedule 0%nat d c) = false -> quiet o o'.
Proof. intros E Hc. change o' with (t, o').2. rewrite <- E. by apply quiet_scheduleAfter. Qed.

Lemma specs_upd id f o st :
  o_specs o !! id = Some st -> o_specs (upd id f o) = <[id := f st]> (o_specs o).
Proof.
  intros Hst. unfold upd. simpl. apply map_eq. intros k. destruct (decide (k = id)) as [->|Hne].
  - by rewrite lookup_alter_eq, Hst, lookup_insert_eq.
  - by rewrite lookup_alter_ne, lookup_insert_ne.
Qed.

(** An assignment acts on the row as [g] when it commutes with the abstraction. *)
Lemma lc_upd id f g r o :
  (forall st, abs (f st) = g (abs st)) -> has_row o id r -> lc id (g r) [] o (upd id f o).
Proof.
  intros Hf (st & Hst & <-). split; [|by split|done].
  exists (f st). split; [apply Hf|by apply specs_upd].
Qed.

(** An assignment to fields no row shows. *)
Lemma lc_upd_hidden id f r o :
  (forall st, abs (f st) = abs st) -> has_row o id r -> lc id r [] o (upd id f o).
Proof. intros Hf Hr. by apply (lc_upd id f (fun r => r)). Qed.

Lemma lc_emit id r e o : observed e = true -> has_row o id r -> lc id r [e] o (emit e o).
Proof.
  intros He (st & Hst & A). split; [|by split|].
  - exists st. by rewrite insert_id.
  - unfold observe, emit. simpl. by rewrite He.
Qed.

(** A process field other than its identity and health. *)
Lemma lc_upd_proc_hidden id f r o :
  (forall p, proc_gen (f p) = proc_gen p /\ proc_everHealthy (f p) = proc_everHealthy p) ->
  has_row o id r -> lc id r [] o (upd_proc id f o).
Proof.
  intros Hf. apply lc_upd_hidden. intros st. unfold abs. simpl.
  destruct (st_proc st) as [p|]; simpl; [|done]. destruct (Hf p) as [-> ->]. done.
Qed.

Lemma lc_setState id s r o :
  has_row o id r -> lc id (r <| r_state := s |>) [] o (setState id s o).
Proof.
  intros (st & Hst & <-). unfold setState. rewrite Hst. case_decide as Hs.
  - apply lc_refl. exists st. split; [done|]. unfold abs. by subst.
  - reads. unfold signalTransition. eapply lc_quiet_r; [by apply quiet_emit|].
    eapply lc_quiet_l; [done|].
    apply (lc_upd id _ (fun r => r <| r_state := s |>)); [done|].
    eapply quiet_has_row; [done|]. by exists st.
Qed.

Definition refusals (q : list channel) (err : error) : list effect :=
  (fun r => Reply r (refused err)) <$> reverse q.

Lemma answered_refusals q err : answered (refusals q err) = reverse q.
Proof.
  unfold answered, refusals. induction (reverse q) as [|x l IH]; [done|]. csimpl. by rewrite IH.
Qed.

Lemma lc_failPending id err r o :
  has_row o id r -> lc id (r <| r_queue := [] |>) (refusals (r_queue r) err) o (failPending id err o).
Proof.
  intros (st & Hst & <-). unfold failPending. rewrite Hst.
  set (f := fun (o : owner) w => _).
  assert (Hf : forall l o1 r, has_row o1 id r ->
            lc id r (refusals (w_reply <$> l) err) o1 (foldl f o1 l)).
  { induction l as [|w l IH]; intros o1 r Hr; [by apply lc_refl|].
    unfold refusals. rewrite fmap_cons, reverse_cons, fmap_app. simpl.
    eapply lc_trans; [|apply IH].
    - unfold f. eapply lc_quiet_l; [apply quiet_cancelTimer|]. apply lc_emit; [done|].
      by eapply quiet_has_row, Hr; apply quiet_cancelTimer.
    - eapply lc_has_row. unfold f. apply lc_emit; [done|].
      by eapply quiet_has_row, Hr; apply quiet_cancelTimer. }
  specialize (Hf (st_pending st) o (abs st)).
  eapply (lc_trans _ _ _ _ []); [apply Hf; by exists st|].
  apply (lc_upd id _ (fun r => r <| r_queue := [] |>)); [done|].
  eapply lc_has_row, Hf. by exists st.
Qed.

Lemma lc_setLastError id m r o : has_row o id r -> lc id r [] o (setLastError id m o).
Proof.
  intros Hr. unfold setLastError. reads.
  eapply lc_quiet_l; [done|]. apply lc_upd_hidden; [done|]. by eapply quiet_has_row.
Qed.

Lemma lc_noteAdmissionWait id m r o : has_row o id r -> lc id r [] o (noteAdmissionWait id m o).
Proof.
  intros Hr. unfold noteAdmissionWait. case_match; [by apply lc_refl|].
  destruct Hr as (st & Hst & <-). rewrite Hst.
  repeat case_match; first [by apply lc_refl; exists st|by apply lc_setLastError; exists st].
Qed.

Lemma lc_recordFailure id m c t r o : has_row o id r -> lc id r [] o (recordFailure id m c t o).
Proof.
  intros Hr. unfold recordFailure. reads.
  eapply lc_quiet_l; [done|]. apply lc_upd_hidden; [done|]. by eapply quiet_has_row.
Qed.

(** Continuing on the same row. *)
Lemma lc_then id r1 r2 es1 es2 o o1 o2 :
  lc id r1 es1 o o1 -> (has_row o1 id r1 -> lc id r2 es2 o1 o2) -> lc id r2 (es2 ++ es1) o o2.
Proof. intros H1 H2. eapply lc_trans; [done|]. by eapply H2, lc_has_row. Qed.

Lemma lc_then_nil id r1 r2 es o o1 o2 :
  lc id r1 es o o1 -> (has_row o1 id r1 -> lc id r2 [] o1 o2) -> lc id r2 es o o2.
Proof. apply lc_then. Qed.

Lemma lc_nil_then id r1 r2 es o o1 o2 :
  lc id r1 [] o o1 -> (has_row o1 id r1 -> lc id r2 es o1 o2) -> lc id r2 es o o2.
Proof. intros H1 H2. rewrite <- (app_nil_r es). by eapply lc_then. Qed.

Lemma lc_after_quiet id r1 r es o o1 o2 :
  quiet o o1 -> has_row o id r1 -> (has_row o1 id r1 -> lc id r es o1 o2) -> lc id r es o o2.
Proof. intros Hq Hr H1. eapply lc_quiet_l; [done|]. by eapply H1, quiet_has_row. Qed.

(** ** Terminating and draining *)

Lemma lc_terminateNow id r o :
  has_row o id r ->
  exists b, (b = r_intentional r \/ b = true /\ is_Some (r_proc r))
    /\ lc id (r <| r_intentional := b |>) [] o (terminateNow id o).
Proof.
  intros Hr. pose proof Hr as (st & Hst & <-). unfold terminateNow. rewrite Hst.
  assert (Hsame : abs st = (abs st) <| r_intentional := st_intentionalStop st |>) by done.
  destruct (st_proc st) as [p|] eqn:Hp.
  2:{ exists (st_intentionalStop st). split; [by left|]. rewrite <- Hsame. by apply lc_refl. }
  reads. case_match.
  { exists (st_intentionalStop st). split; [by left|]. rewrite <- Hsame. by apply lc_quiet. }
  destruct (proc_killTimer p).
  { exists (st_intentionalStop st). split; [by left|]. rewrite <- Hsame. by apply lc_quiet. }
  exists true. split; [right; split; [done|by simpl; rewrite Hp]|].
  eapply lc_after_quiet; [done|done|intros Hr1].
  destruct (scheduleAfter _ _ _) as [t o2] eqn:Et. apply quiet_scheduleAfter_eq in Et; [|done].
  eapply lc_then_nil; [|apply lc_upd_proc_hidden; by intros []].
  eapply lc_quiet_r; [done|]. eapply lc_quiet_r; [by apply quiet_emit|].
  eapply lc_then_nil; [|apply lc_upd_proc_hidden; by intros []].
  eapply lc_quiet_r; [apply quiet_cancelTimer|].
  by apply (lc_upd id _ (fun r => r <| r_intentional := true |>)).
Qed.

(** What [beginDrain] can make of a row. *)
Inductive drained (id : string) (r : row) : row -> list effect -> Prop :=
| drained_not : r_proc r = None \/ r_state r = StateDraining -> drained id r r []
| drained_now b : is_Some (r_proc r) -> b = r_intentional r \/ b = true ->
    drained id r (r <| r_state := StateDraining |> <| r_intentional := b |>) []
| drained_grace g h t : r_proc r = Some (g, h) ->
    drained id r (r <| r_state := StateDraining |>)
      [Schedule t drainGrace (cmdDrainGraceExpired id g)].

Lemma lc_beginDrain id r o :
  has_row o id r -> exists r' es, drained id r r' es /\ lc id r' es o (beginDrain id o).
Proof.
  intros Hr. pose proof Hr as (st & Hst & <-). unfold beginDrain. rewrite Hst.
  destruct (st_proc st) as [p|] eqn:Hp.
  2:{ exists (abs st), []. split; [apply drained_not; left; simpl; by rewrite Hp|by apply lc_refl]. }
  assert (Hlive : r_proc (abs st) = Some (proc_gen p, proc_everHealthy p)) by (simpl; by rewrite Hp).
  case_decide as Hs.
  { exists (abs st), []. split; [by apply drained_not; right|by apply lc_refl]. }
  pose proof (lc_setState id StateDraining _ _ Hr) as HD.
  case_match.
  - destruct (lc_terminateNow id _ _ (lc_has_row _ _ _ _ _ HD)) as (b & Hb & HT).
    eexists _, []. split; [|exact (lc_trans _ _ _ _ _ _ _ _ HD HT)].
    apply drained_now; [by rewrite Hlive|]. destruct Hb as [->|[-> _]]; auto.
  - destruct (scheduleAfter _ _ _) as [t o2] eqn:Et.
    eexists _, _. split; [by eapply drained_grace|].
    eapply (lc_then_nil _ _ _ [_]); [|apply lc_upd_proc_hidden; by intros []].
    eapply (lc_trans _ _ _ [] [_]); [exact HD|].
    change o2 with (t, o2).2. rewrite <- Et.
    destruct (lc_has_row _ _ _ _ _ HD) as (st2 & Hst2 & A2).
    injection Et as <- <-. split; [|by split|done].
    exists st2. split; [done|]. simpl. by rewrite insert_id.
Qed.

(** ** Backing off *)

Definition burst_row (r : row) : bool := IsBurst (r_spec r) (r_instance r).

Definition live_row (r : row) : bool := match r_proc r with Some _ => true | None => false end.

Lemma live_abs st : live_row (abs st) = has_proc st.
Proof. unfold live_row, has_proc. simpl. by destruct (st_proc st). Qed.

Definition backed_off (closing : bool) (r : row) : row * list effect :=
  if closing then (r <| r_state := StateStopped |>, [])
  else if burst_row r then (r <| r_queue := [] |>, refusals (r_queue r) ErrStartFailed)
  else if live_row r then (r <| r_backoffOnExit := true |>, [])
  else (r <| r_state := StateBackoff |> <| r_backoff := true |>, []).

Lemma lc_enterBackoff id r o :
  has_row o id r ->
  lc id (backed_off (o_closing o) r).1 (backed_off (o_closing o) r).2 o (enterBackoff id o).
Proof.
  intros Hr. pose proof Hr as (st & Hst & <-). unfold enterBackoff, backed_off. rewrite Hst.
  rewrite live_abs. change (burst_row (abs st)) with (burst st).
  destruct (o_closing o); cbn [fst snd]; [by apply lc_setState|].
  destruct (burst st); cbn [fst snd]; [by apply lc_failPending|].
  destruct (has_proc st); cbn [fst snd];
    [by apply (lc_upd id _ (fun r => r <| r_backoffOnExit := true |>))|].
  pose proof (lc_setState id StateBackoff _ _ Hr) as HB.
  destruct (scheduleAfter _ _ _) as [t o2] eqn:Et. apply quiet_scheduleAfter_eq in Et; [|done].
  eapply (lc_then_nil _ _ _ []); [by eapply lc_quiet_r|].
  by apply (lc_upd id _ (fun r => r <| r_backoff := true |>)).
Qed.

End local_steps.
