(* ===== verification/ManagerMoves.v ===== *)
(** * The runtime manager: moves and what they preserve

    [row_ok] is the invariant of one instance and [Inv] that of the whole owner.
    [move] lists the ways a handler changes the owner; every handler is shown to be a
    sequence of moves in [ManagerAdmitSteps] and [ManagerTurnSteps].  Here: every move
    keeps [Inv], and answers exactly the requests it takes out of a queue. *)

From Stdlib Require Import ZArith Lia Ascii.
From stdpp Require Import base tactics option list numbers strings pretty gmap relations.
From S2P Require Import Prelude RuntimeTypes Policy Manager ManagerAdmit ManagerTurns ManagerSteps.
Local Open Scope Z_scope.
Local Open Scope go_scope.

(** ** The invariant *)

Definition live_state (s : State) : bool :=
  match s with
  | StateStarting | StateRunning | StateDraining | StateStartFailed => true
  | _ => false
  end.

Definition failed_state (s : State) : bool :=
  match s with StateCrashed | StateStartFailed => true | _ => false end.

(** The identity of an instance: instance 0 is a pushed spec, a further one is keyed
    by its spec and index. *)
Definition instance_ok (id : string) (spec : Spec) (k : Z) : Prop :=
  spec_ID spec = id /\
  if decide (k = 0) then spec_InstanceOf spec = "" /\ id <> "" /\ reservedSpecID id = false
  else 0 < k /\ spec_InstanceOf spec <> "" /\ id = InstanceKey (spec_InstanceOf spec) k.

(** Whether every push is calm ([calm], ManagerApplySteps).  What is proved only of runs
    whose pushes are is stated under it: the queue of a failed burst instance, and with it
    the books of requests. *)
Class Calm := calm_pushes : bool.

(** [B] is the set of specs whose admin state is being changed by a push in progress
    (empty between turns), [c] whether shutdown has reached every row, [n] the next
    generation. *)
Record row_ok {CP : Calm} (B : gset string) (c : bool) (n : generation) (id : string) (r : row) : Prop := {
  ok_id : instance_ok id (r_spec r) (r_instance r);
  ok_idle : r_proc r = None ->
    r_state r <> StateStarting /\ r_state r <> StateRunning /\ r_inFlight r = 0
    /\ r_intentional r = false /\ r_backoffOnExit r = false /\ r_measured r = false;
  ok_resting : r_proc r = None -> r_state r = StateDraining -> r_instance r <> 0;
  ok_failed : calm_pushes = true -> r_proc r = None -> failed_state (r_state r) = true -> burst_row r = true ->
    r_queue r = [];
  ok_live g h : r_proc r = Some (g, h) ->
    (g < n)%nat /\ live_state (r_state r) = true /\ (r_state r = StateRunning -> h = true)
    /\ (r_state r = StateStarting -> h = false);
  ok_torn : calm_pushes = true -> is_Some (r_proc r) -> r_state r = StateStartFailed -> burst_row r = true ->
    r_backoffOnExit r = true \/ r_queue r = [];
  ok_forced : is_Some (r_proc r) -> spec_AdminState (r_spec r) = "force_stopped" ->
    specBase (r_spec r) ∉ B -> r_state r = StateDraining;
  ok_intent : is_Some (r_proc r) -> r_intentional r = true ->
    r_state r = StateDraining \/ r_state r = StateStartFailed;
  ok_removed : r_removed r = true -> is_Some (r_proc r) /\ r_state r = StateDraining;
  ok_backoff : r_backoff r = true <-> r_state r = StateBackoff;
  ok_burst : burst_row r = true -> r_state r <> StateBackoff;
  ok_closing : c = true ->
    r_queue r = [] /\ (is_Some (r_proc r) -> r_state r = StateDraining)
    /\ r_state r <> StateBackoff
}.

(** A pushed spec is an instance 0, and its ID is not reserved for instance keys. *)
Definition pushed_ok (spec : Spec) : Prop :=
  spec_InstanceOf spec = "" /\ spec_ID spec <> "" /\ reservedSpecID (spec_ID spec) = false.

(** The states a process is in only after its start has been reported. *)
Definition reported_state (s : State) : Prop := s = StateRunning \/ s = StateStartFailed.

(** [R] is the set of generations whose start has been reported. *)
Record Inv {CP : Calm} (B : gset string) (c : bool) (R : generation -> Prop) (o : owner) : Prop := {
  inv_rows id st : o_specs o !! id = Some st -> row_ok B c (o_nextProc o) id (abs st);
  inv_drain t d id g : Schedule t d (cmdDrainGraceExpired id g) ∈ observe o ->
    (g < o_nextProc o)%nat /\
    forall st h, o_specs o !! id = Some st -> r_proc (abs st) = Some (g, h) ->
      st_state st = StateDraining;
  inv_gens id1 id2 st1 st2 g h1 h2 :
    o_specs o !! id1 = Some st1 -> o_specs o !! id2 = Some st2 ->
    r_proc (abs st1) = Some (g, h1) -> r_proc (abs st2) = Some (g, h2) -> id1 = id2;
  inv_closing : c = true -> o_closing o = true;
  inv_cfg : Forall pushed_ok (cfg_Specs (o_cfg o));
  inv_index m id : o_byUpstream o !! m = Some id -> reservedSpecID id = false;
  inv_reported id st g h : o_specs o !! id = Some st -> r_proc (abs st) = Some (g, h) ->
    reported_state (st_state st) -> R g
}.

(** ** Moves *)

(** A request answered without an error. *)
Definition handed (e : effect) : bool :=
  match e with Reply _ out => match eo_err out with None => true | Some _ => false end | _ => false end.

Definition count_handed (es : list effect) : nat := length (List.filter handed es).

(** What a local change of row [r] of [id] into [r'] may do to the outside. *)
Definition effect_ok (id : string) (r r' : row) (e : effect) : Prop :=
  match e with
  | Reply _ out => is_Some (eo_err out)
      \/ eo_specID out = id /\ eo_proc out = fst <$> r_proc r' /\ is_Some (r_proc r')
         /\ r_state r' = StateRunning
  | Schedule _ _ (cmdDrainGraceExpired id' g) =>
      id' = id /\ fst <$> r_proc r = Some g /\ r_state r' = StateDraining
  | Exec _ _ _ => False
  | _ => True
  end.

(** [G] are the generations whose start the change reports. *)
Record local_base (G : generation -> Prop) (id : string) (r r' : row) (es : list effect) : Prop := {
  lok_effects : Forall (effect_ok id r r') es;
  lok_gen : r_proc r' = None \/ fst <$> r_proc r' = fst <$> r_proc r;
  lok_draining : r_state r = StateDraining -> is_Some (r_proc r') -> r_state r' = StateDraining;
  lok_reported : is_Some (r_proc r') -> reported_state (r_state r') ->
    reported_state (r_state r) \/ forall g h, r_proc r' = Some (g, h) -> G g;
  lok_spec : specBase (r_spec r') = specBase (r_spec r)
}.

(** [q] are the requests that arrive with the change; every request handed on is counted
    in flight. *)
Record local_step (q : list channel) (G : generation -> Prop) (id : string) (r r' : row)
    (es : list effect) : Prop := {
  lok_base : local_base G id r r' es;
  lok_answers : answered es ++ r_queue r' ≡ₚ q ++ r_queue r;
  lok_inFlight : is_Some (r_proc r') ->
    r_inFlight r' = Nat.iter (count_handed es) (fun n => n +! 1) (r_inFlight r)
}.

(** A change on the manager's own account. *)
Definition local_ok : string -> row -> row -> list effect -> Prop := local_step [] (fun _ => False).

(** The table, the configuration, the next generation and the observed effects stay, and
    whether the manager shuts down. *)
Record still (o o' : owner) : Prop := {
  still_specs : o_specs o' = o_specs o;
  still_opts : o_opts o' = o_opts o;
  still_nextProc : o_nextProc o' = o_nextProc o;
  still_observe : observe o' = observe o;
  still_closing : o_closing o' = o_closing o;
  still_stopped : o_stopped o' = o_stopped o;
  still_cfg : o_cfg o' = o_cfg o;
  still_allowed : o_allowedPairs o' = o_allowedPairs o;
  still_index : (forall m id, o_byUpstream o !! m = Some id -> reservedSpecID id = false) ->
    forall m id, o_byUpstream o' !! m = Some id -> reservedSpecID id = false
}.

Section moves.
Context `{Unicode} `{World} {CP : Calm}.

(** The snapshot lists every live process, charged as it stands in the table. *)
Definition describes (snap : PolicySnapshot) (o : owner) : Prop :=
  exists fresh : string -> gmap Z Z,
    ps_Running snap ≡ₚ
      omap (fun e => if has_proc e.2 then Some (runningRow e.1 e.2 (fresh e.1) o) else None)
        (entries o).

(** A row without the notes an admission keeps for itself. *)
Definition without_notes (st : specState) : specState :=
  st <| st_waitingOnRAM := false |> <| st_waitingOnGrace := false |>
     <| st_waitingOnDemand := false |> <| st_waitingOnSibling := false |>
     <| st_decidedTurn := 0 |>.

(** The instance was permitted, and admitted against a snapshot of the table as it is
    ([o0] is the owner at the decision). *)
Definition admitted (id : string) (o : owner) : Prop :=
  exists o0 st snap,
    without_notes <$> o_specs o0 = without_notes <$> o_specs o /\ o_cfg o0 = o_cfg o
    /\ ps_Allowed snap = o_allowedPairs o
    /\ o_specs o0 !! id = Some st /\ describes snap o0
    /\ ps_MaxProcesses snap = cfg_MaxProcesses (o_cfg o)
    /\ ps_NoEvict snap = burst st
    /\ world_permit (st_spec st) = None
    /\ dec_OK (Admit snap (demandSpec id st o0)) = true.

Inductive move (B : gset string) (c : bool) (o o' : owner) : Prop :=
| move_still : still o o' -> move B c o o'
| move_local id r r' es :
    has_row o id r -> lc id r' es o o' -> local_ok id r r' es ->
    (row_ok B c (o_nextProc o) id r -> row_ok B c (o_nextProc o) id r') -> move B c o o'
| move_start id r pid :
    has_row o id r -> r_proc r = None -> r_state r <> StateBackoff ->
    spec_AdminState (r_spec r) <> "force_stopped" ->
    o_closing o = false -> admitted id o ->
    (exists st, abs st = r <| r_proc := Some (o_nextProc o, false) |> <| r_state := StateStarting |>
       /\ o_specs o' = <[id := st]> (o_specs o)) ->
    o_opts o' = o_opts o -> o_cfg o' = o_cfg o -> o_allowedPairs o' = o_allowedPairs o ->
    o_byUpstream o' = o_byUpstream o -> o_closing o' = false -> o_stopped o' = o_stopped o ->
    o_nextProc o' = S (o_nextProc o) ->
    observe o' = Exec (o_nextProc o) id pid :: observe o -> move B c o o'
| move_insert id r :
    o_specs o !! id = None -> (exists st, abs st = r /\ o_specs o' = <[id := st]> (o_specs o)) ->
    same_globals o o' -> observe o' = observe o -> r_proc r = None -> r_queue r = [] ->
    row_ok B c (o_nextProc o) id r -> move B c o o'
| move_delete id r es :
    has_row o id r -> o_specs o' = delete id (o_specs o) -> same_globals o o' ->
    observe o' = es ++ observe o -> Forall (effect_ok id r (r <| r_proc := None |>)) es ->
    (calm_pushes = true -> answered es ≡ₚ r_queue r) -> move B c o o'.

Definition moves (B : gset string) (c : bool) : owner -> owner -> Prop := rtc (move B c).

(** ** Every move keeps the invariant *)

Lemma has_row_lookup o id r st : has_row o id r -> o_specs o !! id = Some st -> abs st = r.
Proof. intros (st' & Hst & <-) Hst'. by simplify_eq. Qed.

Lemma still_inv B c R o o' : still o o' -> Inv B c R o -> Inv B c R o'.
Proof.
  intros [S _ N O C _ CF _ IX] [IR ID IG IC ICF IIX IRP].
  split; rewrite ?S, ?N, ?O, ?CF, ?C; [done|done|done|eauto..].
Qed.

Lemma local_effects_drain id r r' es t d id' g :
  Forall (effect_ok id r r') es ->
  Schedule t d (cmdDrainGraceExpired id' g) ∈ es ->
  id' = id /\ fst <$> r_proc r = Some g /\ r_state r' = StateDraining.
Proof. intros HF Hin. rewrite Forall_forall in HF. exact (HF _ Hin). Qed.

Lemma fst_fmap {A B'} (x : option (A * B')) a : fst <$> x = Some a -> exists b, x = Some (a, b).
Proof. destruct x as [[? b]|]; [|done]. intros [= ->]. by exists b. Qed.

(** A local change keeps the invariant, with the reported generations added. *)
Lemma local_inv B c R G o o' id r r' es :
  has_row o id r -> lc id r' es o o' -> local_base G id r r' es ->
  row_ok B c (o_nextProc o) id r' -> Inv B c R o -> Inv B c (fun g => R g \/ G g) o'.
Proof.
  intros (st & Hst & Ar) [(st' & A & S) HG O] [LE LG LD LR _] Hok [IR ID IG IC ICF IIX IRP].
  assert (Hg : forall g h, r_proc r' = Some (g, h) -> exists h', r_proc r = Some (g, h')).
  { intros g h Hp. destruct LG as [LG|LG]; [congruence|]. rewrite Hp in LG.
    symmetry in LG. by apply fst_fmap. }
  split; rewrite ?S, ?(sg_nextProc _ _ HG), ?(sg_cfg _ _ HG), ?(sg_byUpstream _ _ HG);
    [| | | |done|done|].
  - intros id2 st2. destruct (decide (id2 = id)) as [->|Hne].
    + rewrite lookup_insert_eq. intros [= <-]. by rewrite A.
    + rewrite lookup_insert_ne by done. apply IR.
  - intros t d id2 g. rewrite O, elem_of_app. intros [Hin|Hin].
    + destruct (local_effects_drain _ _ _ _ _ _ _ _ LE Hin) as (-> & Hg' & Hs).
      destruct (fst_fmap _ _ Hg') as (h & Hp). rewrite <- Ar in Hp. split.
      * by eapply (ok_live _ _ _ _ _ (IR _ _ Hst)).
      * intros st2 h2. rewrite lookup_insert_eq. intros [= <-] _.
        change (st_state st') with (r_state (abs st')). by rewrite A.
    + destruct (ID _ _ _ _ Hin) as [Hlt Hd]. split; [done|]. intros st2 h2.
      destruct (decide (id2 = id)) as [->|Hne]; [|rewrite lookup_insert_ne by done; apply Hd].
      rewrite lookup_insert_eq. intros [= <-] Hp. rewrite A in Hp.
      destruct (Hg _ _ Hp) as (h' & Hp').
      change (st_state st') with (r_state (abs st')). rewrite A. apply LD; [|by rewrite Hp].
      rewrite <- Ar. apply (Hd st h'); [done|by rewrite Ar].
  - intros id1 id2 st1 st2 g h1 h2.
    destruct (decide (id1 = id)) as [->|H1], (decide (id2 = id)) as [->|H2];
      rewrite ?lookup_insert_eq, ?lookup_insert_ne by done; try done; intros E1 E2 P1 P2; simplify_eq.
    + destruct (Hg _ _ P1) as (h' & P'). by eapply (IG id id2).
    + destruct (Hg _ _ P2) as (h' & P'). by eapply (IG id1 id).
    + by eapply (IG id1 id2).
  - rewrite (sg_closing _ _ HG). done.
  - intros id2 st2 g h. destruct (decide (id2 = id)) as [->|Hne].
    + rewrite lookup_insert_eq. intros [= <-] Hp Hrep.
      change (st_state st') with (r_state (abs st')) in Hrep. rewrite A in *.
      destruct LR as [LR|LR]; [by rewrite Hp|done|left|right; by eapply LR].
      destruct (Hg _ _ Hp) as (h' & Hp'). rewrite <- Ar in *. by eapply IRP.
    + rewrite lookup_insert_ne by done. intros. left. by eapply IRP.
Qed.

Lemma inv_reported_mono B c (R R' : generation -> Prop) o :
  (forall g, R g -> R' g) -> Inv B c R o -> Inv B c R' o.
Proof. intros HR [IR ID IG IC ICF IIX IRP]. split; try done. eauto. Qed.

Lemma row_ok_mono B c n n' id r : (n <= n')%nat -> row_ok B c n id r -> row_ok B c n' id r.
Proof.
  intros Hn [? ? ? ? OL ? ? ? ? ? ? ?]. split; try done.
  intros g h Hp. destruct (OL g h Hp) as (? & ?). split; [lia|done].
Qed.

Lemma start_row_ok B c n id r :
  r_proc r = None -> spec_AdminState (r_spec r) <> "force_stopped" -> r_state r <> StateBackoff ->
  c = false -> row_ok B c n id r ->
  row_ok B c (S n) id (r <| r_proc := Some (n, false) |> <| r_state := StateStarting |>).
Proof.
  intros Hp Ha Hb -> [OI OD ORe OF OL OT OFo ON OR OB OBu OC]. split; simpl; try done.
  - intros g h [= <- <-]. split; [lia|]. repeat split; done.
  - intros _. by destruct (OD Hp) as (_ & _ & _ & -> & _).
  - intros Hr. destruct (OR Hr) as [Hs _]. by rewrite Hp in Hs; apply is_Some_None in Hs.
  - rewrite OB. by split; [intros ?|].
Qed.

Lemma start_inv B c R o o' id r pid :
  has_row o id r -> r_proc r = None -> r_state r <> StateBackoff ->
  spec_AdminState (r_spec r) <> "force_stopped" -> o_closing o = false ->
  (exists st, abs st = r <| r_proc := Some (o_nextProc o, false) |> <| r_state := StateStarting |>
     /\ o_specs o' = <[id := st]> (o_specs o)) ->
  o_cfg o' = o_cfg o -> o_byUpstream o' = o_byUpstream o ->
  o_nextProc o' = S (o_nextProc o) -> observe o' = Exec (o_nextProc o) id pid :: observe o ->
  Inv B c R o -> Inv B c R o'.
Proof.
  intros (st & Hst & Ar) Hp Hb Ha Hc (st' & A & S) HF HX HN HE [IR ID IG IC ICF IIX IRP].
  assert (c = false) as -> by (destruct c; [|done]; by rewrite IC in Hc).
  assert (Hnew : forall id2 st2 g h, o_specs o' !! id2 = Some st2 -> r_proc (abs st2) = Some (g, h) ->
      id2 = id /\ g = o_nextProc o \/ (g < o_nextProc o)%nat /\ id2 <> id /\ o_specs o !! id2 = Some st2).
  { intros id2 st2 g h. rewrite S. destruct (decide (id2 = id)) as [->|Hne].
    - rewrite lookup_insert_eq. intros [= <-]. rewrite A. simpl. intros [= <- <-]. by left.
    - rewrite lookup_insert_ne by done. intros Hst2 Hp2. right. split_and!; [|done..].
      by eapply (ok_live _ _ _ _ _ (IR _ _ Hst2)). }
  split.
  - intros id2 st2. rewrite HN, S. destruct (decide (id2 = id)) as [->|Hne].
    + rewrite lookup_insert_eq. intros [= <-]. rewrite A. apply start_row_ok; try done.
      rewrite <- Ar. by apply IR.
    + rewrite lookup_insert_ne by done. intros Hst2. eapply row_ok_mono; [|by apply IR]. lia.
  - intros t d id2 g. rewrite HE, elem_of_cons. intros [?|Hin]; [done|].
    destruct (ID _ _ _ _ Hin) as [Hlt Hd]. rewrite HN. split; [lia|]. intros st2 h2 H2 P2.
    destruct (Hnew _ _ _ _ H2 P2) as [[_ ->]|(_ & _ & H2')]; [lia|by eapply Hd].
  - intros id1 id2 st1 st2 g h1 h2 H1 H2 P1 P2.
    destruct (Hnew _ _ _ _ H1 P1) as [[-> ->]|(L1 & N1 & H1')],
      (Hnew _ _ _ _ H2 P2) as [[-> E2]|(L2 & N2 & H2')]; try done; [lia|lia|by eapply (IG id1 id2)].
  - done.
  - by rewrite HF.
  - by rewrite HX.
  - intros id2 st2 g h H2 P2 Hrep. destruct (Hnew _ _ _ _ H2 P2) as [[-> ->]|(_ & _ & H2')];
      [|by eapply IRP]. rewrite S, lookup_insert_eq in H2. injection H2 as <-.
    change (st_state st') with (r_state (abs st')) in Hrep. rewrite A in Hrep. by destruct Hrep.
Qed.

Lemma insert_inv B c R o o' id r :
  o_specs o !! id = None -> (exists st, abs st = r /\ o_specs o' = <[id := st]> (o_specs o)) ->
  same_globals o o' -> observe o' = observe o -> r_proc r = None ->
  row_ok B c (o_nextProc o) id r -> Inv B c R o -> Inv B c R o'.
Proof.
  intros Hnone (st & A & S) G HE Hp Hok [IR ID IG IC ICF IIX IRP].
  assert (Hold : forall id2 st2 g h, o_specs o' !! id2 = Some st2 -> r_proc (abs st2) = Some (g, h) ->
      o_specs o !! id2 = Some st2).
  { intros id2 st2 g h. rewrite S. destruct (decide (id2 = id)) as [->|Hne].
    - rewrite lookup_insert_eq. intros [= <-]. rewrite A. congruence.
    - by rewrite lookup_insert_ne. }
  split; rewrite ?(sg_nextProc _ _ G), ?(sg_closing _ _ G), ?(sg_cfg _ _ G), ?(sg_byUpstream _ _ G);
    [| | |done|done|done|].
  - intros id2 st2. rewrite S. destruct (decide (id2 = id)) as [->|Hne].
    + rewrite lookup_insert_eq. intros [= <-]. by rewrite A.
    + rewrite lookup_insert_ne by done. apply IR.
  - intros t d id2 g. rewrite HE. intros Hin. destruct (ID _ _ _ _ Hin) as [Hlt Hd]. eauto.
  - eauto.
  - eauto.
Qed.

Lemma delete_inv B c R o o' id es r :
  o_specs o' = delete id (o_specs o) -> same_globals o o' -> observe o' = es ++ observe o ->
  has_row o id r -> Forall (effect_ok id r (r <| r_proc := None |>)) es -> Inv B c R o -> Inv B c R o'.
Proof.
  intros S G HE (st & Hst & Ar) HF [IR ID IG IC ICF IIX IRP].
  assert (Hold : forall id2 st2, o_specs o' !! id2 = Some st2 -> o_specs o !! id2 = Some st2 /\ id2 <> id).
  { intros id2 st2. rewrite S, lookup_delete_Some. naive_solver. }
  split; rewrite ?(sg_nextProc _ _ G), ?(sg_closing _ _ G), ?(sg_cfg _ _ G), ?(sg_byUpstream _ _ G);
    [| | |done|done|done|].
  - intros id2 st2 H2. by apply IR, Hold.
  - intros t d id2 g. rewrite HE, elem_of_app. intros [Hin|Hin].
    + destruct (local_effects_drain _ _ _ _ _ _ _ _ HF Hin) as (-> & Hg & _).
      destruct (fst_fmap _ _ Hg) as (h & Hp). rewrite <- Ar in Hp. split.
      * by eapply (ok_live _ _ _ _ _ (IR _ _ Hst)).
      * intros st2 h2 H2. by destruct (Hold _ _ H2).
    + destruct (ID _ _ _ _ Hin) as [Hlt Hd]. split; [done|]. intros st2 h2 H2. by apply Hd, Hold.
  - intros id1 id2 st1 st2 g h1 h2 H1 H2. apply (IG id1 id2); by apply Hold.
  - intros id2 st2 g h H2. by eapply IRP, Hold.
Qed.

Lemma release_row_ok B c n id r k :
  is_Some (r_proc r) -> row_ok B c n id r -> row_ok B c n id (r <| r_inFlight := k |>).
Proof.
  intros [[g h] Hp] [OI OD ORe OF OL OT OFo ON OR OB OBu OC]. split; simpl; try done. by rewrite Hp.
Qed.

(** A request a process was serving is over. *)
Lemma release_base id r n : local_base (fun _ => False) id r (r <| r_inFlight := n |>) [].
Proof. split; [done|by right|done|by left|done]. Qed.

Lemma release_inv B c R o o' id r n :
  has_row o id r -> is_Some (r_proc r) -> lc id (r <| r_inFlight := n |>) [] o o' ->
  Inv B c R o -> Inv B c R o'.
Proof.
  intros Hr Hp HL HI. eapply (inv_reported_mono _ _ (fun g => R g \/ False)); [naive_solver|].
  eapply local_inv; [done|done|apply release_base| |done].
  apply release_row_ok; [done|]. destruct Hr as (st & Hst & <-). by apply (inv_rows _ _ _ _ HI).
Qed.

Lemma move_inv B c R o o' : move B c o o' -> Inv B c R o -> Inv B c R o'.
Proof.
  intros Hm HI.
  destruct Hm as [Hs|id r r' es Hr HL Hl Hok|id r pid Hr Hp Hb Ha Hc _ HS HO HF HAl HX HC _ HN HE
                 |id r Hnone HS HG HE Hp Hq Hok|id r es Hr HS HG HE HF Hq].
  - by eapply still_inv.
  - eapply (inv_reported_mono _ _ (fun g => R g \/ False)); [naive_solver|].
    eapply local_inv; [done|done|apply Hl| |done]. apply Hok. destruct Hr as (st & Hst & <-).
    by apply (inv_rows _ _ _ _ HI).
  - by eapply start_inv.
  - by eapply insert_inv.
  - by eapply delete_inv.
Qed.

Lemma moves_inv B c R o o' : moves B c o o' -> Inv B c R o -> Inv B c R o'.
Proof. induction 1; eauto using move_inv. Qed.

(** ** Composing moves *)

Lemma moves_refl B c o : moves B c o o.
Proof. apply rtc_refl. Qed.

Lemma moves_trans B c o1 o2 o3 : moves B c o1 o2 -> moves B c o2 o3 -> moves B c o1 o3.
Proof. unfold moves. apply transitivity. Qed.

Lemma moves_one B c o o' : move B c o o' -> moves B c o o'.
Proof. apply rtc_once. Qed.

Lemma quiet_still o o' : quiet o o' -> still o o'.
Proof.
  intros [S G O]. split; [done|apply G|apply G|done|..]; rewrite ?(sg_closing _ _ G), ?(sg_stopped _ _ G), ?(sg_cfg _ _ G), ?(sg_allowed _ _ G);
    try done. intros Hi m id. rewrite (sg_byUpstream _ _ G). apply Hi.
Qed.

Lemma moves_quiet B c o o' : quiet o o' -> moves B c o o'.
Proof. intros Hq. by apply moves_one, move_still, quiet_still. Qed.

Lemma moves_still B c o o' : still o o' -> moves B c o o'.
Proof. intros Hs. by apply moves_one, move_still. Qed.

Lemma moves_local B c id r r' es o o' :
  has_row o id r -> lc id r' es o o' -> local_ok id r r' es ->
  (row_ok B c (o_nextProc o) id r -> row_ok B c (o_nextProc o) id r') -> moves B c o o'.
Proof. intros. by eapply moves_one, move_local. Qed.

(** The row does not change as far as rows show. *)
Lemma moves_same_row B c id r o o' : has_row o id r -> lc id r [] o o' -> moves B c o o'.
Proof. intros Hr HL. eapply moves_local; [done|done| |done]. split; [split|..]; simpl; auto. Qed.

End moves.
