(* ===== verification/ManagerAdmitSteps.v ===== *)
(** * The runtime manager: the admission path as moves

    Every operation of [ManagerAdmit] is a sequence of moves; a process is started
    only through [move_start], that is, after the policy admitted it against a
    snapshot of the current table. *)

From Stdlib Require Import ZArith Lia Ascii.
From stdpp Require Import base tactics option list numbers strings pretty gmap relations.
From S2P Require Import Prelude RuntimeTypes Policy PolicyProps.
From S2P Require Import Manager ManagerAdmit ManagerTurns ManagerSteps ManagerMoves.
Local Open Scope Z_scope.
Local Open Scope go_scope.

(** ** Row changes that keep [row_ok] *)

Lemma row_ok_queue_nil {CP : Calm} B c n id r : row_ok B c n id r -> row_ok B c n id (r <| r_queue := [] |>).
Proof.
  intros [OI OD ORe OF OL OT OFo ON OR OB OBu OC]. split; simpl; try done.
  - by right.
  - intros Hc. by destruct (OC Hc) as (_ & ? & ?).
Qed.

(** A row without a process moves to a state that is neither live, failed nor backoff. *)
Definition resting_state (s : State) : bool :=
  match s with
  | StateStopped | StatePendingVRAMUnknown | StateNotPermitted => true
  | _ => false
  end.

Lemma row_ok_rest {CP : Calm} B c n id r s :
  resting_state s = true -> r_proc r = None -> r_state r <> StateBackoff ->
  row_ok B c n id r -> row_ok B c n id (r <| r_state := s |>).
Proof.
  intros Hs Hp Hb [OI OD ORe OF OL OT OFo ON OR OB OBu OC].
  assert (s <> StateBackoff /\ s <> StateStarting /\ s <> StateRunning /\ s <> StateDraining /\ failed_state s = false)
    as (N1 & N2 & N3 & N5 & N4) by (by destruct s).
  split; simpl; rewrite ?Hp; try done.
  - intros _. by destruct (OD Hp) as (_ & _ & ?).
  - intros _. by rewrite N4.
  - intros Hr. destruct (OR Hr) as [Hs' _]. rewrite Hp in Hs'. by apply is_Some_None in Hs'.
  - rewrite OB. done.
  - intros Hc. destruct (OC Hc) as (? & ? & ?). split_and!; [done|by intros []|done].
Qed.

Lemma drained_row_ok {CP : Calm} B c n id r r' es :
  drained id r r' es -> row_ok B c n id r -> row_ok B c n id r'.
Proof.
  intros HD HR. pose proof HR as [OI OD ORe OF OL OT OFo ON OR OB OBu OC].
  destruct HD as [|b Hl Hb|g h t Hl]; [done| |].
  - destruct Hl as [[g h] Hp].
    assert (Hnb : r_state r <> StateBackoff)
      by (destruct (OL g h Hp) as (_ & Hs & _); by destruct (r_state r)).
    split; simpl; rewrite ?Hp; try done; try (by left).
    + intros g' h' [= <- <-]. destruct (OL g h Hp) as (? & _). by split_and!.
    + split; [|done]. intros E. apply OB in E. done.
    + intros Hc. by destruct (OC Hc).
  - assert (Hnb : r_state r <> StateBackoff)
      by (destruct (OL g h Hl) as (_ & Hs & _); by destruct (r_state r)).
    split; simpl; rewrite ?Hl; try done; try (by left).
    + intros g' h' [= <- <-]. destruct (OL g h Hl) as (? & _). by split_and!.
    + split; [|done]. intros E. apply OB in E. done.
    + intros Hc. by destruct (OC Hc).
Qed.

Lemma local_ok_drained id r r' es : drained id r r' es -> local_ok id r r' es.
Proof.
  destruct 1 as [|b [[g h] Hp] Hb|g h t Hp]; (split; [split|..]); simpl; auto; try (by intros _ [?|?]).
  constructor; [|done]. simpl. by rewrite Hp.
Qed.

(** A row without a process enters the crash-loop wait, or rests at its failure. *)
Lemma row_ok_backed_off {CP : Calm} B n id r :
  instance_ok id (r_spec r) (r_instance r) -> r_proc r = None -> failed_state (r_state r) = true ->
  r_inFlight r = 0 -> r_intentional r = false -> r_backoffOnExit r = false ->
  r_measured r = false -> r_removed r = false -> r_backoff r = false ->
  row_ok B false n id (backed_off false r).1.
Proof.
  intros OI Hp Hs Hf Hi Hb Hm Hr Hbk.
  assert (r_state r <> StateStarting /\ r_state r <> StateRunning /\ r_state r <> StateBackoff
    /\ r_state r <> StateDraining) as (N1 & N2 & N3 & N4) by (by destruct (r_state r)).
  unfold backed_off. destruct (burst_row r) eqn:Hbu; simpl.
  - split; simpl; rewrite ?Hp, ?Hr, ?Hbk; try done; by split.
  - unfold live_row. rewrite Hp. simpl. split; simpl; rewrite ?Hp, ?Hr; try done.
    intros Hbu'. unfold burst_row in *. simpl in *. congruence.
Qed.

Lemma count_handed_refusals q err : count_handed (refusals q err) = 0%nat.
Proof. unfold count_handed, refusals. by induction (reverse q). Qed.

Lemma effect_ok_refusals id r r' q err : Forall (effect_ok id r r') (refusals q err).
Proof.
  unfold refusals. rewrite Forall_fmap. apply Forall_forall. intros x _. left. by exists err.
Qed.

(** Failing the whole queue, with a change of state. *)
Lemma local_ok_refuse id r r' err :
  r_queue r' = [] -> r_proc r' = None \/ fst <$> r_proc r' = fst <$> r_proc r ->
  (r_state r = StateDraining -> is_Some (r_proc r') -> r_state r' = StateDraining) ->
  (is_Some (r_proc r') -> r_inFlight r' = r_inFlight r) ->
  (is_Some (r_proc r') -> reported_state (r_state r') -> reported_state (r_state r)) ->
  specBase (r_spec r') = specBase (r_spec r) ->
  local_ok id r r' (refusals (r_queue r) err).
Proof.
  intros Hq Hg Hd Hi Hrep Hs. split; [split; [apply effect_ok_refusals|done|done|by left; auto|done]|..].
  - by rewrite answered_refusals, Hq, app_nil_r, reverse_Permutation.
  - intros Hl. rewrite count_handed_refusals. simpl. auto.
Qed.

(** A change that answers nobody. *)
Lemma local_ok_silent id r r' :
  r_queue r' = r_queue r -> r_proc r' = None \/ fst <$> r_proc r' = fst <$> r_proc r ->
  (r_state r = StateDraining -> is_Some (r_proc r') -> r_state r' = StateDraining) ->
  (is_Some (r_proc r') -> r_inFlight r' = r_inFlight r) ->
  (is_Some (r_proc r') -> reported_state (r_state r') -> reported_state (r_state r)) ->
  specBase (r_spec r') = specBase (r_spec r) ->
  local_ok id r r' [].
Proof. intros Hq Hg Hd Hi Hrep Hs. split; [split|..]; simpl; auto; by rewrite Hq. Qed.

Section admission_steps.
Context `{Unicode} `{World} {CP : Calm} (B : gset string) (c : bool) (R : generation -> Prop).

Notation moves := (moves B c).
Notation Inv := (Inv B c R).

Lemma moves_for_each ids body o :
  (forall id o, Inv o -> moves o (body id o)) -> Inv o -> moves o (for_each ids body o).
Proof.
  intros Hb. unfold for_each. revert o.
  induction ids as [|id ids IH]; intros o HI; [apply moves_refl|]. simpl.
  eapply moves_trans; [by apply Hb|]. apply IH. eapply moves_inv; [by apply Hb|done].
Qed.

Lemma moves_then o o1 o2 : Inv o -> moves o o1 -> (Inv o1 -> moves o1 o2) -> moves o o2.
Proof. intros HI H1 H2. eapply moves_trans; [done|]. eapply H2, moves_inv; done. Qed.

Lemma inv_not_closing o : Inv o -> o_closing o = false -> c = false.
Proof. intros HI Hc. destruct c; [|done]. by rewrite (inv_closing _ _ _ _ HI) in Hc. Qed.

Lemma moves_beginDrain id o : moves o (beginDrain id o).
Proof.
  destruct (o_specs o !! id) as [st|] eqn:Hst.
  - assert (Hr : has_row o id (abs st)) by (by exists st).
    destruct (lc_beginDrain id _ _ Hr) as (r' & es & HD & HL).
    eapply moves_local; [done|done|by apply local_ok_drained|by eapply drained_row_ok].
  - unfold beginDrain. rewrite Hst. apply moves_refl.
Qed.

Lemma moves_failPending id err o : moves o (failPending id err o).
Proof.
  destruct (o_specs o !! id) as [st|] eqn:Hst.
  - assert (Hr : has_row o id (abs st)) by (by exists st).
    eapply moves_local; [done|by apply lc_failPending| |apply row_ok_queue_nil].
    by apply local_ok_refuse; [|right| | | |].
  - unfold failPending. rewrite Hst. apply moves_refl.
Qed.

(** Notes on a row that no property shows. *)
Lemma moves_upd_hidden id f o : (forall st, abs (f st) = abs st) -> moves o (upd id f o).
Proof.
  intros Hf. destruct (o_specs o !! id) as [st|] eqn:Hst.
  - eapply moves_same_row; [|apply lc_upd_hidden; [done|]]; by exists st.
  - apply moves_quiet. split; [|by split|done]. unfold upd. simpl. apply map_eq. intros k.
    destruct (decide (k = id)) as [->|?]; [by rewrite lookup_alter_eq, Hst|by rewrite lookup_alter_ne].
Qed.

Lemma moves_noteAdmissionWait id m o : moves o (noteAdmissionWait id m o).
Proof.
  destruct (o_specs o !! id) as [st|] eqn:Hst.
  - eapply moves_same_row; [|apply lc_noteAdmissionWait]; by exists st.
  - unfold noteAdmissionWait. rewrite Hst. case_match; apply moves_refl.
Qed.

(** ** The snapshot *)

Lemma omap_lookup_entries {A} (m : gmap string specState) (F : string -> specState -> option A) :
  omap (fun id => st ← m !! id; F id st) (map_to_list m).*1
  = omap (fun e => F e.1 e.2) (map_to_list m).
Proof.
  assert (Hm : Forall (fun e => m !! e.1 = Some e.2) (map_to_list m)).
  { apply Forall_forall. intros [k st] Hin. by apply elem_of_map_to_list. }
  induction Hm as [|e l He _ IH]; [done|]. csimpl. rewrite He. simpl. by rewrite IH.
Qed.

Lemma runningRow_specs id st g o o' :
  o_specs o' = o_specs o -> runningRow id st g o' = runningRow id st g o.
Proof. intros HS. unfold runningRow, chargeSpec, siblingPeak, entries. by rewrite HS. Qed.

Lemma ch_running_foldl measured ram o ch ids :
  ch_running (foldl (chargeProcess measured ram o) ch ids)
  = ch_running ch ++ omap (fun id => st ← o_specs o !! id; p ← st_proc st;
      Some (runningRow id st (realMeasurement (map_get ∅ measured (proc_pid p))) o)) ids.
Proof.
  revert ch. induction ids as [|id ids IH]; intros ch; [by rewrite app_nil_r|]. csimpl.
  rewrite IH. unfold chargeProcess. destruct (o_specs o !! id) as [st|]; [|done]. simpl.
  destruct (st_proc st) as [p|]; [|done]. simpl. by rewrite <- app_assoc.
Qed.

Lemma moves_recordReading measured id o : moves o (recordReading measured id o).
Proof.
  unfold recordReading. destruct (o_specs o !! id) as [st|] eqn:Hst; [|apply moves_refl].
  destruct (st_proc st) as [p|] eqn:Hp; [|apply moves_refl].
  case_bool_decide as Hm; [apply moves_refl|].
  assert (Hr : has_row o id (abs st)) by (by exists st).
  set (r' := (abs st) <| r_measured := true |>).
  assert (HL : lc id r' [] o (upd id (fun st => st
      <| st_measuredVRAM := realMeasurement (map_get ∅ measured (proc_pid p)) |>
      <| st_vramBootstrapDone := true |>) o)).
  { apply (lc_upd id _ (fun r => r <| r_measured := true |>)); [|done].
    intros st1. unfold abs. simpl. by rewrite (bool_decide_eq_false_2 _ Hm). }
  assert (Hgo : forall o1, lc id r' [] o o1 -> moves o o1).
  { intros o1 HL1. eapply moves_local; [exact Hr|exact HL1|apply local_ok_silent; simpl; auto|].
    intros [OI OD ORe OF OL OT OFo ON OR OB OBu OC]. split; simpl in *; rewrite ?Hp in *; done. }
  case_match; [|by apply Hgo]. apply Hgo. eapply lc_then_nil; [exact HL|]. intros Hr1.
  change r' with (r' <| r_measured := true |>) at 1.
  apply (lc_upd id _ (fun r => r <| r_measured := true |>)); [|done].
  intros st1. unfold abs. simpl. by rewrite (bool_decide_eq_false_2 _ Hm), andb_false_r.
Qed.

Lemma recordReadings_idle measured ids id st o :
  o_specs o !! id = Some st -> st_proc st = None ->
  o_specs (for_each ids (recordReading measured) o) !! id = Some st.
Proof.
  intros Hst Hp. unfold for_each. revert o Hst. induction ids as [|i ids IH]; intros o Hst; [done|].
  simpl. apply IH. unfold recordReading. destruct (decide (i = id)) as [->|Hne].
  - by rewrite Hst, Hp.
  - destruct (o_specs o !! i) as [sti|]; [|done]. destruct (st_proc sti); [|done].
    repeat case_match; try done; unfold upd; simpl; by rewrite !lookup_alter_ne.
Qed.

Lemma globals_recordReadings measured ids o :
  same_globals o (for_each ids (recordReading measured) o).
Proof.
  unfold for_each. revert o. induction ids as [|i ids IH]; intros o; [done|]. simpl.
  etrans; [|apply IH]. unfold recordReading. repeat case_match; by split.
Qed.

Lemma pendingRAMFreedMB_quiet o : quiet o (pendingRAMFreedMB o).2.
Proof.
  unfold pendingRAMFreedMB. case_match; [|done]. reads. simpl. case_match; [|done].
  etrans; [done|by split].
Qed.

Lemma range_specs_eq o ids o' :
  range_specs o = (ids, o') -> ids ≡ₚ (map_to_list (o_specs o)).*1 /\ quiet o o'.
Proof.
  intros E. split; [|by eapply quiet_read_eq].
  unfold range_specs, read in E. simplify_eq. apply world_range_perm.
Qed.

Lemma hostInfo_eq o hi o' : hostInfo o = (hi, o') -> quiet o o'.
Proof.
  unfold hostInfo. destruct (read _ o) as [? o1] eqn:E. intros [= _ <-]. by eapply quiet_read_eq.
Qed.

Lemma buildSnapshot_spec o snap o' :
  Inv o -> buildSnapshot o = (snap, o') ->
  moves o o' /\ same_globals o o' /\ describes snap o'
  /\ ps_MaxProcesses snap = cfg_MaxProcesses (o_cfg o') /\ ps_Allowed snap = o_allowedPairs o'
  /\ (forall id st, o_specs o !! id = Some st -> st_proc st = None -> o_specs o' !! id = Some st).
Proof.
  intros HI. unfold buildSnapshot.
  destruct (hostInfo o) as [hi o1] eqn:E1. apply hostInfo_eq in E1.
  destruct (range_specs o1) as [ids2 o2] eqn:E2. apply range_specs_eq in E2 as [_ E2].
  destruct (read world_measurer o2) as [ms o3] eqn:E3. apply quiet_read_eq in E3.
  destruct (read world_ramMeasurer o3) as [rp o4] eqn:E4. apply quiet_read_eq in E4.
  destruct (range_specs o4) as [ids5 o5] eqn:E5. apply range_specs_eq in E5 as [_ E5].
  set (measured := match ms with Some f => _ | None => _ end).
  set (o6 := for_each ids5 _ o5).
  destruct (range_specs o6) as [ids7 o7] eqn:E7. apply range_specs_eq in E7 as [P7 E7].
  destruct (read world_now o7) as [now o8] eqn:E8. apply quiet_read_eq in E8.
  destruct (pendingRAMFreedMB o8) as [freed o9] eqn:E9.
  assert (Q9 : quiet o8 o9)
    by (change o9 with (freed, o9).2; rewrite <- E9; apply pendingRAMFreedMB_quiet).
  intros [= <- <-].
  assert (Q5 : quiet o o5) by (repeat (etrans; [eassumption|]); done).
  assert (Q79 : quiet o6 o9) by (etrans; [done|]; by etrans).
  assert (M6 : moves o o6).
  { eapply moves_trans; [by apply moves_quiet|]. apply moves_for_each.
    - intros. apply moves_recordReading.
    - by eapply still_inv, HI; apply quiet_still. }
  assert (S7 : o_specs o7 = o_specs o6) by apply E7.
  assert (S9 : o_specs o9 = o_specs o6) by apply Q79.
  split_and!.
  - eapply moves_trans; [done|]. by apply moves_quiet.
  - etrans; [apply Q5|]. etrans; [apply globals_recordReadings|apply Q79].
  - exists (fun id => default ∅ (st ← o_specs o6 !! id; p ← st_proc st;
      Some (realMeasurement (map_get ∅ measured (proc_pid p))))).
    simpl. rewrite ch_running_foldl. simpl. unfold entries. rewrite S9, S7, P7.
    rewrite (omap_lookup_entries _ (fun id st => p ← st_proc st; Some (runningRow id st
      (realMeasurement (map_get ∅ measured (proc_pid p))) o7))).
    erewrite list_omap_ext; [reflexivity|]. apply Forall2_same_length_lookup_2; [done|].
    intros i e e' He He'. simplify_eq. destruct e as [id st].
    apply list_elem_of_lookup_2, elem_of_map_to_list in He. simpl. rewrite He. simpl.
    unfold has_proc. destruct (st_proc st) as [p|]; [|done]. simpl.
    f_equal. apply runningRow_specs. congruence.
  - done.
  - done.
  - intros id st Hst Hp. rewrite S9. apply recordReadings_idle; [|done].
    by rewrite (quiet_specs _ _ Q5).
Qed.

(** ** Refusals and failed starts *)

Section with_wake.
Context (wake : string -> owner -> owner) (Hwake : forall id o, Inv o -> moves o (wake id o)).

Lemma moves_refuse id s err o o1 r :
  Inv o -> has_row o id r -> r_proc r = None -> r_state r <> StateBackoff -> resting_state s = true ->
  lc id (r <| r_state := s |> <| r_queue := [] |>) (refusals (r_queue r) err) o o1 ->
  moves o (wake id o1).
Proof.
  intros HI Hr Hp Hb Hs HL.
  assert (HM : moves o o1).
  { eapply moves_local; [done|done| |].
    - apply local_ok_refuse; simpl; rewrite ?Hp; [done|by left|by intros _ ?%is_Some_None|by intros ?%is_Some_None|by intros ?%is_Some_None|done].
    - intros Hok. by apply row_ok_queue_nil, row_ok_rest. }
  eapply moves_trans; [done|]. apply Hwake. by eapply moves_inv.
Qed.

Lemma moves_setNotPermitted id m o r :
  Inv o -> has_row o id r -> r_proc r = None -> r_state r <> StateBackoff ->
  moves o (setNotPermitted wake id m o).
Proof.
  intros HI Hr Hp Hb. unfold setNotPermitted. reads.
  eapply (moves_refuse id StateNotPermitted ErrNotPermitted); try done.
  eapply lc_nil_then; [|intros Hr1; exact (lc_failPending id ErrNotPermitted _ _ Hr1)].
  eapply lc_then_nil; [|apply lc_setLastError].
  eapply lc_then_nil; [|by apply lc_upd_hidden].
  eapply lc_quiet_r; [done|]. by apply lc_setState.
Qed.

Lemma moves_setPendingVRAMUnknown id m o r :
  Inv o -> has_row o id r -> r_proc r = None -> r_state r <> StateBackoff ->
  moves o (setPendingVRAMUnknown wake id m o).
Proof.
  intros HI Hr Hp Hb. unfold setPendingVRAMUnknown. reads.
  eapply (moves_refuse id StatePendingVRAMUnknown ErrAdmissionBlocked); try done.
  eapply lc_nil_then; [|intros Hr1; exact (lc_failPending id ErrAdmissionBlocked _ _ Hr1)].
  assert (HL : lc id (r <| r_state := StatePendingVRAMUnknown |>) [] o
    (upd id (fun st => st <| st_notPermittedAt := t |>) o0)).
  { eapply lc_then_nil; [|by apply lc_upd_hidden].
    eapply lc_quiet_r; [done|]. by apply lc_setState. }
  case_match; [done|]. eapply lc_then_nil; [done|]. apply lc_setLastError.
Qed.

Lemma idle_fields n id r :
  row_ok B c n id r -> r_proc r = None -> r_state r <> StateBackoff ->
  r_inFlight r = 0 /\ r_intentional r = false /\ r_backoffOnExit r = false
  /\ r_measured r = false /\ r_removed r = false /\ r_backoff r = false.
Proof.
  intros [OI OD ORe OF OL OT OFo ON OR OB OBu OC] Hp Hb. destruct (OD Hp) as (_ & _ & ? & ? & ? & ?).
  split_and!; try done.
  - destruct (r_removed r); [|done]. destruct OR as [Hs _]; [done|].
    rewrite Hp in Hs. by apply is_Some_None in Hs.
  - destruct (r_backoff r); [|done]. destruct Hb. by apply OB.
Qed.

Lemma moves_failStart id m o r :
  Inv o -> o_closing o = false -> has_row o id r -> r_proc r = None -> r_state r <> StateBackoff ->
  moves o (failStart id m o).
Proof.
  intros HI Hc Hr Hp Hb. unfold failStart.
  set (r1 := r <| r_state := StateStartFailed |> <| r_queue := [] |>).
  set (o1 := failPending _ _ _).
  assert (HL : lc id r1 (refusals (r_queue r) ErrStartFailed) o o1).
  { eapply lc_nil_then; [|intros Hr1; exact (lc_failPending id ErrStartFailed _ _ Hr1)].
    eapply lc_then_nil; [|apply lc_recordFailure]. by apply lc_setState. }
  pose proof (lc_enterBackoff id r1 o1 (lc_has_row _ _ _ _ _ HL)) as HB.
  rewrite (sg_closing _ _ (lc_globals _ _ _ _ _ HL)), Hc in HB.
  assert (He : (backed_off false r1).2 = []) by (unfold backed_off; repeat case_match; done).
  rewrite He in HB. eapply moves_local; [done|by eapply (lc_trans _ _ _ _ [])| |].
  - apply local_ok_refuse; unfold backed_off, live_row; simpl; rewrite Hp; case_match; simpl;
      rewrite ?Hp; try done; try (by left); try (by intros _ ?%is_Some_None);
      by intros ?%is_Some_None.
  - intros Hok. destruct (idle_fields _ _ _ Hok Hp Hb) as (? & ? & ? & ? & ? & ?).
    rewrite (inv_not_closing _ HI Hc).
    apply row_ok_backed_off; try done. apply Hok.
Qed.

(** ** Starting *)

Lemma foldl_cancelTimers l o : quiet o (foldl (fun o w => cancelTimer (w_timer w) o) o l).
Proof.
  revert o. induction l as [|w l IH]; intros o; [done|]. simpl.
  etrans; [apply quiet_cancelTimer|apply IH].
Qed.

Lemma moves_installProcess id pid port o r :
  Inv o -> o_closing o = false -> has_row o id r -> r_proc r = None -> r_state r <> StateBackoff ->
  spec_AdminState (r_spec r) <> "force_stopped" -> admitted id o ->
  moves o (installProcess id pid port o).
Proof.
  intros HI Hc Hr Hp Hb Ha Had. unfold installProcess.
  set (o1 := o <| o_nextProc ::= S |>). reads.
  assert (Hr1 : has_row o0 id r) by (by eapply (quiet_has_row o1)).
  set (r' := r <| r_proc := Some (o_nextProc o, false) |> <| r_state := StateStarting |>).
  set (o2 := setState _ _ _).
  assert (HL : lc id r' [] o1 o2).
  { eapply lc_quiet_l; [done|]. eapply lc_then_nil; [|apply lc_setState].
    by apply (lc_upd id _ (fun r => r <| r_proc := Some (o_nextProc o, false) |>)). }
  destruct (lc_has_row _ _ _ _ _ HL) as (st2 & Hst2 & A2). rewrite Hst2.
  assert (HL2 : lc id r' [Exec (o_nextProc o) id pid] o1
    (emit (Exec (o_nextProc o) id pid)
      (upd id (fun st => st <| st_pending ::= fmap (fun w => mkWaiter (w_reply w) None (w_queuedAt w)) |>)
         (foldl (fun o w => cancelTimer (w_timer w) o) o2 (st_pending st2))))).
  { eapply (lc_then _ _ _ [] [_]); [|by apply lc_emit].
    eapply lc_then_nil; [by eapply lc_quiet_r, HL; apply foldl_cancelTimers|].
    apply lc_upd_hidden. intros st. unfold abs. simpl. f_equal. rewrite <- list_fmap_compose.
    by apply list_fmap_ext. }
  destruct HL2 as [(st3 & A3 & S3) G3 O3].
  eapply moves_one, (move_start _ _ _ _ id r pid); try done.
  - by exists st3.
  - by rewrite (sg_opts _ _ G3).
  - by rewrite (sg_cfg _ _ G3).
  - by rewrite (sg_allowed _ _ G3).
  - by rewrite (sg_byUpstream _ _ G3).
  - by rewrite (sg_closing _ _ G3).
  - by rewrite (sg_stopped _ _ G3).
  - by rewrite (sg_nextProc _ _ G3).
Qed.

(** [admitted] looks only at the table without the notes. *)
Lemma admitted_quiet id o o' : quiet o o' -> admitted id o -> admitted id o'.
Proof.
  intros [S G _] (o0 & st & snap & HT & HC & HL & HR). exists o0, st, snap.
  by rewrite S, (sg_cfg _ _ G), (sg_allowed _ _ G).
Qed.

Lemma moves_startProcess id o r :
  Inv o -> o_closing o = false -> has_row o id r -> r_proc r = None -> r_state r <> StateBackoff ->
  spec_AdminState (r_spec r) <> "force_stopped" -> admitted id o ->
  moves o (startProcess wake id o).
Proof.
  intros HI Hc Hr Hp Hb Ha Had. unfold startProcess.
  destruct Hr as (st & Hst & <-). rewrite Hst.
  assert (Hr : has_row o id (abs st)) by (by exists st).
  assert (Hq : forall o1, quiet o o1 -> Inv o1 /\ o_closing o1 = false /\ has_row o1 id (abs st)
    /\ admitted id o1 /\ moves o o1).
  { intros o1 Hq. split_and!; [by eapply still_inv, HI; apply quiet_still| |by eapply quiet_has_row
    |by eapply admitted_quiet|by apply moves_quiet].
    by rewrite (sg_closing _ _ (quiet_globals _ _ Hq)). }
  destruct (world_expand (st_spec st) 0); [by eapply moves_setNotPermitted|].
  destruct (world_planConfigFiles (st_spec st)); [by eapply moves_setNotPermitted|].
  assert (exists port o1, (if spec_ListenPort (st_spec st) =? 0 then read world_ephemeralPort o
    else (inr (spec_ListenPort (st_spec st)), o)) = (port, o1) /\ quiet o o1) as (port & o1 & -> & Q1).
  { case_match; [|by eexists _, _]. eexists _, _. split; [apply surjective_pairing|apply quiet_read]. }
  destruct (Hq _ Q1) as (I1 & C1 & R1 & A1 & M1).
  destruct port as [err|port]; [eapply moves_trans; [done|by eapply moves_failStart]|].
  destruct (world_expand (st_spec st) port);
    [eapply moves_trans; [done|by eapply moves_setNotPermitted]|].
  destruct (read (fun n => world_writeConfigFiles n _ _) o1) as [written o2] eqn:E2.
  apply quiet_read_eq in E2. assert (Q2 : quiet o o2) by (by etrans).
  destruct (Hq _ Q2) as (I2 & C2 & R2 & A2 & M2).
  destruct written; [eapply moves_trans; [done|by eapply moves_failStart]|].
  destruct (read (fun n => world_startCommand n _ _) o2) as [started o3] eqn:E3.
  apply quiet_read_eq in E3. assert (Q3 : quiet o o3) by (by etrans).
  destruct (Hq _ Q3) as (I3 & C3 & R3 & A3 & M3).
  destruct started; (eapply moves_trans; [done|]); [by eapply moves_failStart|].
  by eapply moves_installProcess.
Qed.

(** ** The decision *)

Lemma admitted_notes id k f o :
  (forall st, without_notes (f st) = without_notes st) -> admitted id o -> admitted id (upd k f o).
Proof.
  intros Hf (o0 & st & snap & HT & HC & HR). exists o0, st, snap. split; [|by split].
  rewrite HT. unfold upd. simpl. apply map_eq. intros j. rewrite !lookup_fmap.
  destruct (decide (j = k)) as [->|Hne]; [|by rewrite lookup_alter_ne].
  rewrite lookup_alter_eq. destruct (o_specs o !! k); simpl; by rewrite ?Hf.
Qed.

Lemma has_row_upd_hidden id k f o r :
  (forall st, abs (f st) = abs st) -> has_row o id r -> has_row (upd k f o) id r.
Proof.
  intros Hf (st & Hst & A). unfold has_row, upd. simpl. destruct (decide (id = k)) as [->|Hne].
  - exists (f st). by rewrite lookup_alter_eq, Hst, Hf.
  - exists st. by rewrite lookup_alter_ne.
Qed.

Lemma moves_evict id victims o :
  Inv o ->
  moves o (for_each victims (fun victim o =>
    beginDrain victim (if String.eqb victim id then o
      else upd victim (fun st => st <| st_drainedFor ::= fun l => appendUnique l id |>) o)) o).
Proof.
  apply moves_for_each. intros victim o1 _. eapply moves_trans; [|apply moves_beginDrain].
  case_match; [apply moves_refl|by apply moves_upd_hidden].
Qed.

Lemma moves_actOnDecision id dec o r :
  Inv o -> o_closing o = false -> has_row o id r -> r_proc r = None -> r_state r <> StateBackoff ->
  spec_AdminState (r_spec r) <> "force_stopped" ->
  (dec_NoCapacity dec = false -> dec_Reason dec <> Some StateNotPermitted ->
   dec_Reason dec <> Some StatePendingVRAMUnknown -> dec_Wait dec = false -> dec_Evict dec = [] ->
   admitted id o) ->
  moves o (actOnDecision wake id dec o).
Proof.
  intros HI Hc Hr Hp Hb Ha Had. unfold actOnDecision.
  set (o1 := upd id _ o).
  assert (M1 : moves o o1) by (by apply moves_upd_hidden).
  assert (I1 : Inv o1) by (by eapply moves_inv).
  assert (R1 : has_row o1 id r) by (by apply has_row_upd_hidden).
  assert (A1 : admitted id o -> admitted id o1) by (by apply admitted_notes).
  eapply moves_trans; [done|].
  destruct (dec_NoCapacity dec) eqn:E1; [apply moves_failPending|].
  case_decide as E2; [by eapply moves_setNotPermitted|].
  case_decide as E3; [by eapply moves_setPendingVRAMUnknown|].
  destruct (dec_Wait dec) eqn:E4; [apply moves_noteAdmissionWait|].
  destruct (dec_Evict dec) as [|v vs] eqn:E5.
  - assert (MS : moves o1 (startProcess wake id o1)) by (eapply moves_startProcess; eauto).
    destruct (o_specs (startProcess wake id o1) !! id) as [st|]; [|done].
    case_match; [|done]. eapply moves_trans; [done|]. apply Hwake. by eapply moves_inv.
  - assert (M2 : moves o1 (if dec_VRAMBootstrap dec
      then upd id (fun st => st <| st_vramBootstrapDone := true |>) o1 else o1))
      by (case_match; [by apply moves_upd_hidden|apply moves_refl]).
    eapply moves_trans; [done|]. apply moves_evict. by eapply moves_inv.
Qed.

Lemma vramBootstrapEligible_eq id st o e o' : vramBootstrapEligible id st o = (e, o') -> quiet o o'.
Proof.
  unfold vramBootstrapEligible. destruct (read _ o) as [? o1] eqn:E. intros [= _ <-].
  by eapply quiet_read_eq.
Qed.

Lemma demandSpec_specs id st o o' :
  o_specs o' = o_specs o -> demandSpec id st o' = demandSpec id st o.
Proof. intros HS. unfold demandSpec, siblingPeak, entries. by rewrite HS. Qed.

Lemma moves_decideAdmission id o r :
  Inv o -> o_closing o = false -> has_row o id r -> r_proc r = None -> r_state r <> StateBackoff ->
  spec_AdminState (r_spec r) <> "force_stopped" -> world_permit (r_spec r) = None ->
  moves o (decideAdmission wake id o).
Proof.
  intros HI Hc Hr Hp Hb Ha Hperm. unfold decideAdmission.
  set (o1 := upd id _ o).
  assert (M1 : moves o o1) by (by apply moves_upd_hidden).
  assert (I1 : Inv o1) by (by eapply moves_inv).
  assert (R1 : has_row o1 id r) by (by apply has_row_upd_hidden).
  destruct (buildSnapshot o1) as [snap o2] eqn:E2.
  destruct (buildSnapshot_spec _ _ _ I1 E2) as (M2 & G2 & D2 & X2 & L2 & K2).
  destruct R1 as (st & Hst & <-).
  assert (Hnp : st_proc st = None) by (simpl in Hp; by destruct (st_proc st)).
  assert (Hst2 : o_specs o2 !! id = Some st) by (by apply K2).
  assert (M12 : moves o o2) by (by eapply moves_trans).
  assert (I2 : Inv o2) by (by eapply moves_inv).
  rewrite Hst2. eapply moves_trans; [done|].
  assert (R2 : has_row o2 id (abs st)) by (by exists st).
  destruct (_ && _).
  { case_match; [apply moves_failPending|].
    eapply moves_trans; [|apply moves_noteAdmissionWait]. by apply moves_upd_hidden. }
  destruct (vramBootstrapEligible id st o2) as [e o3] eqn:E3.
  apply vramBootstrapEligible_eq in E3.
  eapply moves_trans; [by apply moves_quiet|].
  eapply moves_actOnDecision; [| | | | |done|].
  - by eapply still_inv, I2; apply quiet_still.
  - rewrite (sg_closing _ _ (quiet_globals _ _ E3)), (sg_closing _ _ G2). done.
  - by eapply quiet_has_row.
  - done.
  - done.
  - intros N1 N2 N3 N4 N5.
    eexists o2, st, _. rewrite (quiet_specs _ _ E3), (sg_cfg _ _ (quiet_globals _ _ E3)).
    rewrite (sg_allowed _ _ (quiet_globals _ _ E3)).
    split_and!; [done|done| |done| | | |done|by apply Admit_otherwise_ok]; [done| |done|done].
    destruct D2 as (fresh & D2). by exists fresh.
Qed.

Lemma moves_admitBody id o :
  Inv o -> o_closing o = false -> moves o (admitBody wake id o).
Proof.
  intros HI Hc. unfold admitBody.
  destruct (o_specs o !! id) as [st|] eqn:Hst; [|apply moves_refl].
  destruct (has_proc st) eqn:Hp; [apply moves_refl|].
  case_bool_decide as Hb; [apply moves_refl|]. simpl.
  set (o1 := upd id clearWaits o).
  assert (M1 : moves o o1) by (by apply moves_upd_hidden).
  assert (I1 : Inv o1) by (by eapply moves_inv).
  assert (R1 : has_row o1 id (abs st)) by (apply has_row_upd_hidden; [done|by exists st]).
  assert (Hnp : r_proc (abs st) = None)
    by (unfold has_proc in Hp; simpl; by destruct (st_proc st)).
  eapply moves_trans; [done|].
  destruct (wantsUp st); [|apply moves_refl]. simpl.
  destruct (String.eqb _ _) eqn:Ha; [apply moves_failPending|]. apply String.eqb_neq in Ha.
  destruct (world_permit (st_spec st)) eqn:Hperm; [by eapply moves_setNotPermitted|].
  destruct (lowerSiblingWaiting st o1); [by apply moves_upd_hidden|].
  by eapply moves_decideAdmission.
Qed.

End with_wake.

(** ** The recursion *)

Lemma moves_retire id o st :
  o_specs o !! id = Some st -> (calm_pushes = true -> st_pending st = []) -> moves o (retire id o).
Proof.
  intros Hst Hp. unfold retire. rewrite Hst.
  eapply moves_trans; [apply moves_quiet, quiet_cancelTimer|].
  pose proof (quiet_cancelTimer (st_backoffTimer st) o) as Q.
  eapply moves_one, (move_delete _ _ _ _ id (abs st) []).
  - exists st. by rewrite (quiet_specs _ _ Q).
  - done.
  - by split.
  - done.
  - done.
  - simpl. intros Hcalm. by rewrite (Hp Hcalm).
Qed.

Lemma moves_retireIfSpent id o : moves o (retireIfSpent id o).
Proof.
  unfold retireIfSpent. destruct (o_specs o !! id) as [st|] eqn:Hst; [|apply moves_refl].
  case_match eqn:Hs; [apply moves_refl|]. eapply moves_retire; [done|]. intros _.
  apply orb_false_iff in Hs as [Hs _]. apply negb_false_iff in Hs. unfold burstLeftNothing in Hs.
  apply andb_true_iff in Hs as [_ Hs]. unfold has_pending in Hs. by destruct (st_pending st).
Qed.

Lemma still_clearGraceTimer o : still o (clearGraceTimer o).
Proof. unfold clearGraceTimer. destruct (o_graceTimer o); by split. Qed.

Lemma still_trans o1 o2 o3 : still o1 o2 -> still o2 o3 -> still o1 o3.
Proof.
  intros [S1 P1 N1 E1 C1 T1 F1 A1 I1] [S2 P2 N2 E2 C2 T2 F2 A2 I2].
  split; [congruence..|]. intros HX. apply I2, I1, HX.
Qed.

Lemma still_rescheduleGraceWake o : still o (rescheduleGraceWake o).
Proof.
  assert (HC : forall o1 a, still o1 ((clearGraceTimer o1) <| o_graceTimerAt := a |>)).
  { intros o1 a. eapply still_trans; [apply still_clearGraceTimer|by split]. }
  unfold rescheduleGraceWake. case_match; [apply HC|]. case_match; [apply HC|].
  destruct (read world_now o) as [now o1] eqn:E1. apply quiet_read_eq in E1.
  destruct (earliestGraceExpiry now o1) as [e|].
  - case_match; [by apply quiet_still|].
    destruct (read world_now _) as [now2 o2] eqn:E2. apply quiet_read_eq in E2.
    destruct (scheduleAfter _ _ _) as [tm o3] eqn:E3. apply quiet_scheduleAfter_eq in E3; [|done].
    apply (still_trans _ o3); [|by split]. eapply still_trans; [by apply quiet_still|].
    eapply still_trans; [apply (HC o1 e)|]. apply quiet_still. by etrans.
  - destruct (scheduleAfter _ _ _) as [tm o3] eqn:E3. apply quiet_scheduleAfter_eq in E3; [|done].
    apply (still_trans _ o3); [|by split]. eapply still_trans; [by apply quiet_still|].
    eapply still_trans; [apply (HC o1)|]. by apply quiet_still.
Qed.

Lemma moves_wakeSiblings ask id o :
  (forall id o, Inv o -> moves o (ask id o)) -> Inv o -> moves o (wakeSiblingsWaitingFor ask id o).
Proof.
  intros Hask HI. unfold wakeSiblingsWaitingFor.
  destruct (o_specs o !! id) as [st|]; [|apply moves_refl].
  destruct (range_specs o) as [ids o1] eqn:E. apply range_specs_eq in E as [_ E].
  eapply moves_trans; [by apply moves_quiet|]. apply moves_for_each.
  - intros i o2 I2. repeat case_match; first [apply moves_refl|by apply Hask].
  - by eapply still_inv, HI; apply quiet_still.
Qed.

Lemma moves_admitAndStartFuel fuel id o : Inv o -> moves o (admitAndStartFuel fuel id o).
Proof.
  revert id o. induction fuel as [|fuel IH]; intros id o HI; [apply moves_refl|]. simpl.
  destruct (o_closing o) eqn:Hc; [apply moves_refl|].
  eapply moves_trans; [|apply moves_still, still_rescheduleGraceWake].
  eapply moves_trans; [|apply moves_retireIfSpent].
  apply moves_admitBody; [|done|done]. intros id' o' HI'. by apply moves_wakeSiblings.
Qed.

Lemma moves_admitAndStart id o : Inv o -> moves o (admitAndStart id o).
Proof. apply moves_admitAndStartFuel. Qed.

Lemma moves_reask id o : Inv o -> moves o (reask id o).
Proof.
  intros HI. unfold reask. repeat case_match; first [apply moves_refl|by apply moves_admitAndStart].
Qed.

Lemma moves_wakeAdmission want o : Inv o -> moves o (wakeAdmission want o).
Proof.
  intros HI. unfold wakeAdmission. destruct (range_specs o) as [ids o1] eqn:E.
  apply range_specs_eq in E as [_ E]. eapply moves_trans; [by apply moves_quiet|].
  apply moves_for_each; [apply moves_reask|]. by eapply still_inv, HI; apply quiet_still.
Qed.

Lemma moves_handleGraceExpiry o : Inv o -> moves o (handleGraceExpiry o).
Proof.
  intros HI. unfold handleGraceExpiry.
  set (o1 := (clearGraceTimer o) <| o_graceTimerAt := time_zero |>).
  assert (S1 : still o o1) by (eapply still_trans; [apply still_clearGraceTimer|by split]).
  eapply moves_trans; [by apply moves_still|]. case_match; [apply moves_refl|].
  eapply moves_trans; [|apply moves_still, still_rescheduleGraceWake].
  apply moves_wakeAdmission. by eapply still_inv.
Qed.

End admission_steps.
