(* ===== verification/ManagerLedger.v ===== *)
(** * The runtime manager: what the moves keep account of

    Four books are kept beside the invariant: every request is either answered or
    queued ([accounted]); the live processes stay within the process budget
    ([within]); two processes live together only when the coresidency matrix allows
    it ([compatible]); the in-flight counter of a process counts the requests handed to
    it ([balanced]).  Every move keeps all four. *)

From Stdlib Require Import ZArith Lia Ascii.
From stdpp Require Import base tactics option list numbers strings pretty gmap relations.
From S2P Require Import Prelude RuntimeTypes Policy PolicyOrder PolicyFits PolicyProps.
From S2P Require Import Manager ManagerAdmit ManagerTurns ManagerSteps ManagerMoves.
Local Open Scope Z_scope.
Local Open Scope go_scope.

(** ** Gathering over the table *)

Definition gather {A} (f : string * specState -> list A) (m : gmap string specState) : list A :=
  concat (f <$> map_to_list m).

Lemma gather_insert {A} (f : string * specState -> list A) m id st :
  gather f (<[id := st]> m) ≡ₚ f (id, st) ++ gather f (delete id m).
Proof.
  unfold gather. rewrite <- (insert_delete_eq m id st).
  rewrite map_to_list_insert by apply lookup_delete_eq. done.
Qed.

Lemma gather_lookup {A} (f : string * specState -> list A) m id st :
  m !! id = Some st -> gather f m ≡ₚ f (id, st) ++ gather f (delete id m).
Proof. intros Hst. rewrite <- (insert_id m id st Hst) at 1. apply gather_insert. Qed.

(** The requests queued anywhere. *)
Definition queued_in (m : gmap string specState) : list channel :=
  gather (fun e => r_queue (abs e.2)) m.

(** The live processes. *)
Definition live_in (m : gmap string specState) : list string :=
  gather (fun e => if has_proc e.2 then [e.1] else []) m.

Definition live_count (o : owner) : Z := Z.of_nat (length (live_in (o_specs o))).

Lemma elem_of_live_in m id : id ∈ live_in m <-> exists st, m !! id = Some st /\ has_proc st = true.
Proof.
  unfold live_in, gather. rewrite list_elem_of_In, in_concat. setoid_rewrite <- list_elem_of_In.
  setoid_rewrite list_elem_of_fmap. split.
  - intros (l & ([k st] & -> & Hin%elem_of_map_to_list) & Hid). simpl in Hid.
    destruct (has_proc st) eqn:E; [|by apply not_elem_of_nil in Hid].
    apply list_elem_of_singleton in Hid as ->. eauto.
  - intros (st & Hst & E). exists [id]. split; [|by left].
    exists (id, st). simpl. rewrite E. split; [done|by apply elem_of_map_to_list].
Qed.

Lemma NoDup_live_in m : NoDup (live_in m).
Proof.
  eapply sublist_NoDup; [apply (NoDup_fst_map_to_list m)|]. unfold live_in, gather.
  induction (map_to_list m) as [|[k st] l IH]; [constructor|]. csimpl.
  destruct (has_proc st); simpl; by constructor.
Qed.

(** Whether a process is live is all that counts. *)
Lemma live_in_ext m1 m2 : has_proc <$> m1 = has_proc <$> m2 -> live_in m1 ≡ₚ live_in m2.
Proof.
  intros E. apply NoDup_Permutation; [apply NoDup_live_in..|]. intros id.
  rewrite !elem_of_live_in. apply (f_equal (lookup id)) in E. rewrite !lookup_fmap in E.
  destruct (m1 !! id), (m2 !! id); simpl in *; naive_solver.
Qed.

(** ** Requests *)

Definition accounted {CP : Calm} (A : list channel) (o : owner) : Prop :=
  calm_pushes = true -> answered (observe o) ++ queued_in (o_specs o) ≡ₚ A.

Lemma answered_app es1 es2 : answered (es1 ++ es2) = answered es1 ++ answered es2.
Proof. apply omap_app. Qed.

Lemma accounted_local {CP : Calm} A q id r r' es o o' :
  has_row o id r -> lc id r' es o o' -> answered es ++ r_queue r' ≡ₚ q ++ r_queue r ->
  accounted A o -> accounted (q ++ A) o'.
Proof.
  unfold accounted, queued_in. intros (st & Hst & <-) [(st' & <- & S) _ O] HA HC Hcalm. rewrite <- (HC Hcalm).
  rewrite O, S, answered_app, gather_insert, (gather_lookup _ _ _ _ Hst). cbn [snd].
  rewrite <- !app_assoc, (Permutation_app_swap_app (answered (observe o)) (r_queue _)), app_assoc, HA.
  rewrite <- app_assoc. f_equiv. apply Permutation_app_swap_app.
Qed.

Section ledger.
Context `{Unicode} `{World} {CP : Calm}.

Lemma accounted_move A B c o o' : move B c o o' -> accounted A o -> accounted A o'.
Proof.
  intros Hm HA.
  destruct Hm as [Hs|id r r' es Hr HL Hl Hok|id r pid (st0 & Hst0 & A0) Hp Hb Ha Hc _ (st & A1 & HS) _ _ _ _ _ _ _ HE
                 |id r Hnone (st & A1 & HS) HG HE Hp Hq Hok|id r es (st & Hst & A1) HS HG HE HF Hq].
  - unfold accounted. by rewrite (still_specs _ _ Hs), (still_observe _ _ Hs).
  - eapply (accounted_local A []); [done|done|apply Hl|done].
  - unfold accounted, queued_in in *. intros Hcalm. rewrite HE, HS.
    rewrite <- (HA Hcalm), gather_insert, (gather_lookup _ _ _ _ Hst0). cbn [snd]. by rewrite A0, A1.
  - unfold accounted, queued_in in *. rewrite HE, HS, gather_insert. cbn [snd].
    rewrite A1, Hq, delete_id by done. done.
  - unfold accounted, queued_in in *. intros Hcalm. rewrite HE, HS, answered_app, <- (HA Hcalm), (gather_lookup _ _ _ _ Hst).
    cbn [snd]. rewrite A1, <- (Hq Hcalm), <- !app_assoc. apply Permutation_app_swap_app.
Qed.

Lemma accounted_moves A B c o o' : moves B c o o' -> accounted A o -> accounted A o'.
Proof. induction 1; eauto using accounted_move. Qed.

(** ** The process budget *)

Lemma describes_ids snap o : describes snap o -> rp_SpecID <$> ps_Running snap ≡ₚ live_in (o_specs o).
Proof.
  intros (fresh & ->). unfold live_in, gather, entries.
  induction (map_to_list (o_specs o)) as [|[k st] l IH]; [done|]. csimpl.
  destruct (has_proc st); csimpl; by rewrite IH.
Qed.

Lemma demandSpec_ID id st o : spec_ID (demandSpec id st o) = spec_ID (st_spec st).
Proof.
  unfold demandSpec. case_match; [done|]. destruct (siblingPeak id st o) as [v m].
  unfold raisedDemand. case_match; done.
Qed.

Lemma demandSpec_base id st o : specBase (demandSpec id st o) = specBase (st_spec st).
Proof.
  unfold demandSpec. case_match; [done|]. destruct (siblingPeak id st o) as [v m].
  unfold raisedDemand. case_match; done.
Qed.

Lemma instance_base id spec k : instance_ok id spec k -> specBase spec <> "".
Proof.
  unfold specBase. intros [Hid Hk]. destruct (decide (k = 0)).
  - destruct Hk as (-> & Hne & _). simpl. congruence.
  - destruct Hk as (_ & Hne & _). by apply String.eqb_neq in Hne as E; rewrite E.
Qed.

(** What an admission says about the table it was made on. *)
Lemma admitted_spec B c R id o st :
  Inv B c R o -> o_specs o !! id = Some st -> st_proc st = None -> admitted id o ->
  exists snap spec, dec_OK (Admit snap spec) = true /\ unique_running snap
    /\ ps_MaxProcesses snap = cfg_MaxProcesses (o_cfg o) /\ ps_Allowed snap = o_allowedPairs o
    /\ specBase spec = specBase (st_spec st) /\ others snap spec = ps_Running snap
    /\ rp_SpecID <$> ps_Running snap ≡ₚ live_in (o_specs o)
    /\ (forall id' st', o_specs o !! id' = Some st' -> has_proc st' = true ->
         exists r, r ∈ ps_Running snap /\ baseOf r = specBase (st_spec st')).
Proof.
  intros HI Hst Hp (o0 & st0 & snap & HT & HC & HA & Hst0 & HD & HM & _ & _ & HOK).
  assert (Hn : forall k, without_notes <$> o_specs o0 !! k = without_notes <$> o_specs o !! k)
    by (intros k; apply (f_equal (lookup k)) in HT; by rewrite !lookup_fmap in HT).
  assert (Hs : forall k s s0, o_specs o !! k = Some s -> o_specs o0 !! k = Some s0 ->
    st_spec s0 = st_spec s /\ st_proc s0 = st_proc s).
  { intros k s s0 E1 E0. specialize (Hn k). rewrite E1, E0 in Hn.
    apply (inj Some) in Hn. split; [exact (f_equal st_spec Hn)|exact (f_equal st_proc Hn)]. }
  assert (HL : live_in (o_specs o0) ≡ₚ live_in (o_specs o)).
  { apply live_in_ext, map_eq. intros k. rewrite !lookup_fmap. specialize (Hn k).
    destruct (o_specs o0 !! k) as [s0|] eqn:E0, (o_specs o !! k) as [s|] eqn:E1; try done.
    destruct (Hs _ _ _ E1 E0) as [_ E]. simpl. unfold has_proc. by rewrite E. }
  destruct (Hs _ _ _ Hst Hst0) as [E1 E2].
  assert (Hids : rp_SpecID <$> ps_Running snap ≡ₚ live_in (o_specs o))
    by (by rewrite (describes_ids _ _ HD)).
  exists snap, (demandSpec id st0 o0). split_and!; try done.
  - unfold unique_running, unique_ids. rewrite Hids. apply NoDup_live_in.
  - by rewrite demandSpec_base, E1.
  - unfold others. rewrite demandSpec_ID, E1.
    pose proof (ok_id _ _ _ _ _ (inv_rows _ _ _ _ HI _ _ Hst)) as [Hid _].
    change (spec_ID (st_spec st)) with (spec_ID (r_spec (abs st))). rewrite Hid.
    apply forallb_filter_id, forallb_forall. intros r Hr%list_elem_of_In. apply negb_true_iff, String.eqb_neq.
    intros Heq. assert (Hin : id ∈ live_in (o_specs o)).
    { rewrite <- Hids, <- Heq. by apply list_elem_of_fmap_2. }
    apply elem_of_live_in in Hin as (st1 & Hst1 & Hp1). simplify_eq.
    unfold has_proc in Hp1. by rewrite Hp in Hp1.
  - intros id' st' Hst' Hp'. destruct HD as (fresh & HD).
    destruct (o_specs o0 !! id') as [s0|] eqn:E0.
    2:{ specialize (Hn id'). by rewrite E0, Hst' in Hn. }
    destruct (Hs _ _ _ Hst' E0) as [F1 F2].
    exists (runningRow id' s0 (fresh id') o0). split.
    + rewrite HD. apply list_elem_of_omap. exists (id', s0).
      split; [by apply elem_of_map_to_list|]. simpl. unfold has_proc in *. by rewrite F2, <- (eq_sym Hp').
    + unfold baseOf. simpl. rewrite F1.
      pose proof (instance_base _ _ _ (ok_id _ _ _ _ _ (inv_rows _ _ _ _ HI _ _ Hst'))) as Hb.
      apply String.eqb_neq in Hb. simpl in Hb. by rewrite Hb.
Qed.

Definition within (N : Z) (o : owner) : Prop := live_count o <= N.

(** A row that does not gain a process. *)
Lemma live_count_row id st st' m :
  m !! id = Some st -> (has_proc st' = true -> has_proc st = true) ->
  (length (live_in (<[id := st']> m)) <= length (live_in m))%nat.
Proof.
  intros Hst Hp. unfold live_in. rewrite gather_insert, (gather_lookup _ m id st Hst), !length_app.
  simpl. destruct (has_proc st'), (has_proc st); simpl; lia.
Qed.

Lemma within_local N G id r r' es o o' :
  has_row o id r -> lc id r' es o o' -> local_base G id r r' es -> within N o -> within N o'.
Proof.
  intros (st & Hst & <-) [(st' & <- & S) _ _] HL HN. unfold within, live_count in *. rewrite S.
  pose proof (live_count_row id st st' _ Hst) as Hle. cut (has_proc st' = true -> has_proc st = true);
    [intros Hp; specialize (Hle Hp); lia|].
  rewrite <- !live_abs. unfold live_row. pose proof (lok_gen _ _ _ _ _ HL) as [->| Hg]; [done|].
  by destruct (r_proc (abs st')), (r_proc (abs st)).
Qed.

Lemma within_move N B c R o o' :
  Inv B c R o -> 0 < cfg_MaxProcesses (o_cfg o) <= N -> move B c o o' -> within N o -> within N o'.
Proof.
  intros HI HM Hm HN.
  destruct Hm as [Hs|id r r' es Hr HL Hl Hok|id r pid (st0 & Hst0 & A0) Hp Hb Ha Hc Had (st & A1 & HS) _ _ _ _ _ _ _ HE
                 |id r Hnone (st & A1 & HS) HG HE Hp Hq Hok|id r es (st & Hst & A1) HS HG HE HF Hq].
  - unfold within, live_count. by rewrite (still_specs _ _ Hs).
  - eapply within_local; [done|done|apply Hl|done].
  - assert (Hp0 : st_proc st0 = None) by (rewrite <- A0 in Hp; simpl in Hp; by destruct (st_proc st0)).
    destruct (admitted_spec _ _ _ _ _ _ HI Hst0 Hp0 Had)
      as (snap & spec & HOK & HU & HMax & _ & _ & HO & Hids & _).
    assert (Hc1 : live_count o + 1 <= cfg_MaxProcesses (o_cfg o)).
    { unfold live_count. rewrite <- Hids, length_fmap, <- HO, <- HMax.
      apply Admit_ok_count; [done|done|]. rewrite HMax. lia. }
    unfold within, live_count, live_in in *. rewrite HS, gather_insert, (gather_lookup _ _ _ _ Hst0) in *.
    rewrite length_app in *. simpl in *. destruct (has_proc st), (has_proc st0); simpl in *; lia.
  - assert (Hp1 : has_proc st = false) by (rewrite <- live_abs, A1; unfold live_row; by rewrite Hp).
    unfold within, live_count, live_in in *. rewrite HS, gather_insert, delete_id by done.
    simpl. by rewrite Hp1.
  - unfold within, live_count, live_in in *. rewrite HS. rewrite (gather_lookup _ _ _ _ Hst), length_app in HN. lia.
Qed.

Lemma moves_cfg B c o o' : moves B c o o' -> o_cfg o' = o_cfg o /\ o_allowedPairs o' = o_allowedPairs o.
Proof.
  induction 1 as [|o1 o2 o3 Hm _ [-> ->]]; [done|].
  destruct Hm as [Hs|? ? ? ? _ [_ G _] _ _| |? ? _ _ G _ _ _ _|? ? ? _ _ G _ _ _];
    first [by split; apply Hs|by split; apply G|done].
Qed.

Lemma within_moves N B c R o o' :
  Inv B c R o -> 0 < cfg_MaxProcesses (o_cfg o) <= N -> moves B c o o' -> within N o -> within N o'.
Proof.
  intros HI HM Hm. induction Hm as [|o1 o2 o3 H1 _ IH]; [done|]. intros HN.
  apply IH; [by eapply move_inv| |by eapply within_move].
  destruct (moves_cfg B c o1 o2) as [-> _]; [by apply moves_one|done].
Qed.

(** ** The live processes after a move *)

(** A live process after a local change was live before, for the same spec. *)
Lemma local_live G id r r' es o o' id2 st2 g h :
  has_row o id r -> lc id r' es o o' -> local_base G id r r' es ->
  o_specs o' !! id2 = Some st2 -> r_proc (abs st2) = Some (g, h) ->
  exists st h0, o_specs o !! id2 = Some st /\ r_proc (abs st) = Some (g, h0)
    /\ specBase (st_spec st2) = specBase (st_spec st).
Proof.
  intros (st & Hst & <-) [(st' & <- & S) _ _] HL. rewrite S. destruct (decide (id2 = id)) as [->|Hne].
  - rewrite lookup_insert_eq. intros [= <-] Hp.
    destruct (lok_gen _ _ _ _ _ HL) as [Hg|Hg]; [congruence|]. rewrite Hp in Hg.
    symmetry in Hg. apply fst_fmap in Hg as (h0 & Hg). exists st, h0.
    split_and!; [done|done|apply HL].
  - rewrite lookup_insert_ne by done. intros Hst2 Hp. by exists st2, h.
Qed.

Lemma move_live B c o o' id2 st2 g h :
  move B c o o' -> o_specs o' !! id2 = Some st2 -> r_proc (abs st2) = Some (g, h) ->
  exists st, o_specs o !! id2 = Some st /\ specBase (st_spec st2) = specBase (st_spec st)
    /\ ((exists h0, r_proc (abs st) = Some (g, h0))
        \/ g = o_nextProc o /\ st_proc st = None /\ admitted id2 o /\ o_closing o = false).
Proof.
  intros Hm.
  destruct Hm as [Hs|id r r' es Hr HL Hl Hok|id r pid (st0 & Hst0 & A0) Hp Hb Ha Hc Had (st & A1 & HS) _ _ _ _ _ _ HN HE
                 |id r Hnone (st & A1 & HS) HG HE Hp Hq Hok|id r es (st & Hst & A1) HS HG HE HF Hq].
  - rewrite (still_specs _ _ Hs). eauto 6.
  - intros Hst2 Hp. destruct (local_live _ _ _ _ _ _ _ _ _ _ _ Hr HL (lok_base _ _ _ _ _ _ Hl) Hst2 Hp)
      as (st & h0 & ? & ? & ?). eauto 6.
  - rewrite HS. destruct (decide (id2 = id)) as [->|Hne].
    + rewrite lookup_insert_eq. intros [= <-]. rewrite A1. simpl. intros [= <- <-]. exists st0.
      split_and!; [done| |].
      * change (st_spec st) with (r_spec (abs st)). by rewrite A1, <- A0.
      * right. split_and!; [done| |done|done]. rewrite <- A0 in Hp. simpl in Hp. by destruct (st_proc st0).
    + rewrite lookup_insert_ne by done. eauto 6.
  - rewrite HS. destruct (decide (id2 = id)) as [->|Hne].
    + rewrite lookup_insert_eq. intros [= <-]. rewrite A1. congruence.
    + rewrite lookup_insert_ne by done. eauto 6.
  - rewrite HS, lookup_delete_Some. intros []. eauto 6.
Qed.

(** ** The coresidency matrix *)

Definition coresident (allowed : gmap (string * string) bool) (a b : string) : bool :=
  String.eqb b a || map_get false allowed (PairKey a b).

(** Of two live processes the later one, if started since [g0], may run beside the
    earlier. *)
Definition compatible (g0 : generation) (o : owner) : Prop :=
  forall id1 id2 st1 st2 g1 g2 h1 h2,
    o_specs o !! id1 = Some st1 -> r_proc (abs st1) = Some (g1, h1) ->
    o_specs o !! id2 = Some st2 -> r_proc (abs st2) = Some (g2, h2) ->
    (g1 < g2)%nat -> (g0 <= g2)%nat ->
    coresident (o_allowedPairs o) (specBase (st_spec st2)) (specBase (st_spec st1)) = true.

Lemma compatible_local g0 G id r r' es o o' :
  has_row o id r -> lc id r' es o o' -> local_base G id r r' es -> compatible g0 o -> compatible g0 o'.
Proof.
  intros Hr HL Hl HC id1 id2 st1 st2 g1 g2 h1 h2 Hst1 Hp1 Hst2 Hp2.
  destruct (local_live _ _ _ _ _ _ _ _ _ _ _ Hr HL Hl Hst1 Hp1) as (st1' & h1' & ? & ? & ->).
  destruct (local_live _ _ _ _ _ _ _ _ _ _ _ Hr HL Hl Hst2 Hp2) as (st2' & h2' & ? & ? & ->).
  rewrite (sg_allowed _ _ (lc_globals _ _ _ _ _ HL)). by eapply HC.
Qed.

Lemma compatible_move g0 B c R o o' :
  Inv B c R o -> move B c o o' -> compatible g0 o -> compatible g0 o'.
Proof.
  intros HI Hm HC id1 id2 st1 st2 g1 g2 h1 h2 Hst1 Hp1 Hst2 Hp2 Hlt Hge.
  destruct (moves_cfg B c o o') as [_ ->]; [by apply moves_one|].
  destruct (move_live _ _ _ _ _ _ _ _ Hm Hst1 Hp1) as (s1 & Hs1 & -> & Hold1).
  destruct (move_live _ _ _ _ _ _ _ _ Hm Hst2 Hp2) as (s2 & Hs2 & -> & Hold2).
  assert (Hlive : forall id s g h, o_specs o !! id = Some s -> r_proc (abs s) = Some (g, h) ->
    (g < o_nextProc o)%nat).
  { intros id s g h Hs Hp. by eapply (ok_live _ _ _ _ _ (inv_rows _ _ _ _ HI _ _ Hs)). }
  destruct Hold2 as [(h2' & Hp2')|(-> & Hnone & Had & _)].
  - destruct Hold1 as [(h1' & Hp1')|(-> & _)]; [by eapply (HC id1 id2)|].
    specialize (Hlive _ _ _ _ Hs2 Hp2'). lia.
  - destruct Hold1 as [(h1' & Hp1')|(-> & _)]; [|lia].
    destruct (admitted_spec _ _ _ _ _ _ HI Hs2 Hnone Had)
      as (snap & spec & HOK & _ & _ & <- & <- & HO & _ & Hlv).
    destruct (Hlv id1 s1 Hs1) as (r & Hr & <-); [by rewrite <- live_abs; unfold live_row; rewrite Hp1'|].
    apply (Admit_ok_matrix _ _ _ HOK). by rewrite HO.
Qed.

Lemma compatible_moves g0 B c R o o' :
  Inv B c R o -> moves B c o o' -> compatible g0 o -> compatible g0 o'.
Proof.
  intros HI Hm. induction Hm as [|o1 o2 o3 H1 _ IH]; [done|]. intros HC.
  apply IH; [by eapply move_inv|by eapply compatible_move].
Qed.

(** ** Requests in flight *)

(** A request handed to generation [g]. *)
Definition handed_to (g : generation) (e : effect) : bool :=
  match e with
  | Reply _ out =>
      match eo_err out with None => bool_decide (eo_proc out = Some g) | Some _ => false end
  | _ => false
  end.

Definition handed_count (g : generation) (es : list effect) : Z :=
  Z.of_nat (length (List.filter (handed_to g) es)).

(** [Rel] counts the releases; the counter is the difference, at its width. *)
Record balanced (Rel : generation -> Z) (o : owner) : Prop := {
  bal_nonneg g : 0 <= Rel g;
  bal_fresh g : (o_nextProc o <= g)%nat -> handed_count g (observe o) = 0 /\ Rel g = 0;
  bal_row id st g h : o_specs o !! id = Some st -> r_proc (abs st) = Some (g, h) ->
    st_inFlight st = int64 (handed_count g (observe o) - Rel g)
}.

Lemma handed_count_app g es1 es2 :
  handed_count g (es1 ++ es2) = handed_count g es1 + handed_count g es2.
Proof. unfold handed_count. rewrite List.filter_app, length_app. lia. Qed.

Lemma int64_succ x : int64 (int64 x + 1) = int64 (x + 1).
Proof.
  unfold int64. f_equal.
  replace ((x + 2 ^ 63) mod 2 ^ 64 - 2 ^ 63 + 1 + 2 ^ 63) with ((x + 2 ^ 63) mod 2 ^ 64 + 1) by lia.
  rewrite Zplus_mod_idemp_l. f_equal. lia.
Qed.

Lemma iter_succ k x : Nat.iter k (fun n => n +! 1) (int64 x) = int64 (x + Z.of_nat k).
Proof.
  induction k as [|k IH]; [by rewrite Z.add_0_r|]. simpl Nat.iter. rewrite IH, int64_succ. f_equal. lia.
Qed.

(** What a local change hands on goes to the generation of its row. *)
Lemma handed_local id r r' es g :
  Forall (effect_ok id r r') es ->
  handed_count g es = if decide (fst <$> r_proc r' = Some g) then Z.of_nat (count_handed es) else 0.
Proof.
  unfold handed_count, count_handed. induction 1 as [|e es He _ IH]; [by case_decide|]. simpl.
  assert (Heq : handed_to g e = if decide (fst <$> r_proc r' = Some g) then handed e else false).
  { destruct e; simpl; try by case_decide. destruct (eo_err out) as [err|] eqn:Eo; [by case_decide|].
    destruct He as [[? He]|(_ & -> & _)]; [congruence|]. by case_decide; case_bool_decide. }
  rewrite Heq. case_decide; [destruct (handed e)|]; simpl; lia.
Qed.

Lemma balanced_local Rel B c R q G id r r' es o o' :
  Inv B c R o -> has_row o id r -> lc id r' es o o' -> local_step q G id r r' es ->
  balanced Rel o -> balanced Rel o'.
Proof.
  intros HI Hr HL [Hb _ Hi] [HZ HF HB].
  assert (Hold : forall id2 st2 g h, o_specs o' !! id2 = Some st2 -> r_proc (abs st2) = Some (g, h) ->
    exists st h0, o_specs o !! id2 = Some st /\ r_proc (abs st) = Some (g, h0)
      /\ specBase (st_spec st2) = specBase (st_spec st))
    by (intros; by eapply local_live).
  pose proof (fun g => handed_local id r r' es g (lok_effects _ _ _ _ _ Hb)) as Hes.
  destruct (lc_has_row _ _ _ _ _ HL) as (st' & Hst' & Ar').
  split; [done|..].
  - rewrite (sg_nextProc _ _ (lc_globals _ _ _ _ _ HL)), (lc_observe _ _ _ _ _ HL).
    intros g Hg. rewrite handed_count_app, Hes. destruct (HF g Hg) as [-> HR]. split; [|done].
    case_decide as Hd; [|done]. apply fst_fmap in Hd as (h & Hd). rewrite <- Ar' in Hd.
    destruct (Hold _ _ _ _ Hst' Hd) as (st & h0 & Hst & Hp & _).
    destruct (ok_live _ _ _ _ _ (inv_rows _ _ _ _ HI _ _ Hst) g h0 Hp) as [? _]. lia.
  - intros id2 st2 g h Hst2 Hp2. destruct (Hold _ _ _ _ Hst2 Hp2) as (st & h0 & Hst & Hp & _).
    rewrite (lc_observe _ _ _ _ _ HL), handed_count_app, Hes. destruct (decide (id2 = id)) as [->|Hne].
    + assert (st2 = st') as -> by congruence. rewrite <- Ar' in *.
      rewrite decide_True by (by rewrite Hp2). rewrite <- (has_row_lookup _ _ _ _ Hr Hst) in Hi.
      change (st_inFlight st') with (r_inFlight (abs st')). rewrite Hi by (by rewrite Hp2).
      change (r_inFlight (abs st)) with (st_inFlight st). rewrite (HB _ _ _ _ Hst Hp), iter_succ.
      f_equal. lia.
    + rewrite decide_False.
      * destruct HL as [(st3 & _ & S) _ _]. rewrite S, lookup_insert_ne in Hst2 by done. simplify_eq.
        by eapply HB.
      * intros (h3 & Hd)%fst_fmap. rewrite <- Ar' in Hd.
        destruct (Hold _ _ _ _ Hst' Hd) as (st3 & h4 & Hst3 & Hp3 & _).
        by eapply Hne, (inv_gens _ _ _ _ HI id2 id).
Qed.

Lemma balanced_move Rel B c R o o' :
  Inv B c R o -> move B c o o' -> balanced Rel o -> balanced Rel o'.
Proof.
  intros HI Hm HB. pose proof HB as [HZ HF HR].
  destruct Hm as [Hs|id r r' es Hr HL Hl Hok|id r pid (st0 & Hst0 & A0) Hp Hb Ha Hc Had (st & A1 & HS) _ _ _ _ _ _ HN HE
                 |id r Hnone (st & A1 & HS) HG HE Hp Hq Hok|id r es (st & Hst & A1) HS HG HE HF' Hq].
  - split; [done|..]; rewrite (still_specs _ _ Hs) || rewrite (still_nextProc _ _ Hs);
      rewrite (still_observe _ _ Hs); [done|apply HR].
  - by eapply balanced_local.
  - split; [done|..].
    + intros g Hg. rewrite HE. apply HF. lia.
    + intros id2 st2 g h. rewrite HE, HS. change (handed_count g (Exec (o_nextProc o) id pid :: observe o))
        with (handed_count g (observe o)). destruct (decide (id2 = id)) as [->|Hne].
      * rewrite lookup_insert_eq. intros [= <-]. rewrite A1. simpl. intros [= <- <-].
        destruct (HF (o_nextProc o)) as [-> ->]; [lia|].
        change (st_inFlight st) with (r_inFlight (abs st)). rewrite A1. simpl. rewrite <- A0 in Hp |- *.
        by apply (ok_idle _ _ _ _ _ (inv_rows _ _ _ _ HI _ _ Hst0)).
      * rewrite lookup_insert_ne by done. apply HR.
  - split; [done|..]; rewrite HE; [by rewrite (sg_nextProc _ _ HG)|]. intros id2 st2 g h. rewrite HS.
    destruct (decide (id2 = id)) as [->|Hne]; [|rewrite lookup_insert_ne by done; apply HR].
    rewrite lookup_insert_eq. intros [= <-]. rewrite A1. congruence.
  - assert (Hz : forall g, handed_count g (es ++ observe o) = handed_count g (observe o)).
    { intros g. rewrite handed_count_app, (handed_local _ _ _ _ g HF').
      by rewrite decide_False. }
    split; [done|..]; rewrite HE.
    + intros g. rewrite Hz, (sg_nextProc _ _ HG). apply HF.
    + intros id2 st2 g h. rewrite HS, Hz, lookup_delete_Some. intros []. by eapply HR.
Qed.

Lemma balanced_moves Rel B c R o o' :
  Inv B c R o -> moves B c o o' -> balanced Rel o -> balanced Rel o'.
Proof.
  intros HI Hm. induction Hm as [|o1 o2 o3 H1 _ IH]; [done|]. intros HC.
  apply IH; [by eapply move_inv|by eapply balanced_move].
Qed.

(** A release of a request in flight. *)
Definition released (g : generation) (Rel : generation -> Z) : generation -> Z :=
  fun g' => if decide (g' = g) then Rel g' + 1 else Rel g'.

Lemma int64_pred x : int64 (int64 x - 1) = int64 (x - 1).
Proof.
  unfold int64. f_equal.
  replace ((x + 2 ^ 63) mod 2 ^ 64 - 2 ^ 63 - 1 + 2 ^ 63) with ((x + 2 ^ 63) mod 2 ^ 64 - 1) by lia.
  rewrite Zminus_mod_idemp_l. f_equal. lia.
Qed.

Lemma balanced_release Rel B c R id r g h o o' :
  Inv B c R o -> has_row o id r -> r_proc r = Some (g, h) ->
  lc id (r <| r_inFlight := r_inFlight r -! 1 |>) [] o o' -> balanced Rel o ->
  balanced (released g Rel) o'.
Proof.
  intros HI (st & Hst & <-) Hp [(st' & A & S) G O] [HZ HF HB]. unfold released.
  split; [intros g'; specialize (HZ g'); case_decide; lia|..]; rewrite O.
  - rewrite (sg_nextProc _ _ G). intros g' Hg'. rewrite decide_False; [by apply HF|]. intros ->.
    destruct (ok_live _ _ _ _ _ (inv_rows _ _ _ _ HI _ _ Hst) g h Hp) as [? _]. lia.
  - intros id2 st2 g' h'. rewrite S. destruct (decide (id2 = id)) as [->|Hne].
    + rewrite lookup_insert_eq. intros [= <-]. rewrite A. cbn [r_proc]. intros Hp'.
      assert (g' = g) as -> by (simpl in Hp, Hp'; congruence). rewrite decide_True by done.
      change (st_inFlight st') with (r_inFlight (abs st')). rewrite A. simpl.
      rewrite (HB _ _ _ _ Hst Hp), int64_pred. f_equal. simpl. lia.
    + rewrite lookup_insert_ne by done. intros Hst2 Hp'. rewrite decide_False; [by eapply HB|].
      intros ->. by eapply Hne, (inv_gens _ _ _ _ HI id2 id).
Qed.

(** ** Starts *)

(** The generations started, with their instances. *)
Definition launched (es : list effect) : list (generation * string) :=
  omap (fun e => match e with Exec g id _ => Some (g, id) | _ => None end) es.

(** Generation [g] of [id] was started by an owner that was not shutting down, for an
    instance without a process that was permitted and admitted against the table as it
    was. *)
Definition permitted_start (g : generation) (id : string) : Prop :=
  exists B c R o st, Inv B c R o /\ o_nextProc o = g /\ o_closing o = false
    /\ o_specs o !! id = Some st /\ st_proc st = None
    /\ spec_AdminState (st_spec st) <> "force_stopped" /\ admitted id o.

Record starts_ok (o : owner) : Prop := {
  so_once : NoDup (launched (observe o)).*1;
  so_start g id : (g, id) ∈ launched (observe o) -> (g < o_nextProc o)%nat /\ permitted_start g id
}.

Lemma launched_app es1 es2 : launched (es1 ++ es2) = launched es1 ++ launched es2.
Proof. apply omap_app. Qed.

Lemma launched_local id r r' es : Forall (effect_ok id r r') es -> launched es = [].
Proof. induction 1 as [|e es He _ IH]; [done|]. by destruct e. Qed.

Lemma starts_ok_same o o' :
  o_nextProc o' = o_nextProc o -> launched (observe o') = launched (observe o) ->
  starts_ok o -> starts_ok o'.
Proof. intros HN HL [S1 S2]. split; rewrite HL, ?HN; done. Qed.

(** A move starts at most one process, and none during shutdown. *)
Lemma move_launched B c o o' :
  move B c o o' ->
  (o_nextProc o' = o_nextProc o /\ launched (observe o') = launched (observe o)
   /\ o_closing o' = o_closing o /\ o_stopped o' = o_stopped o)
  \/ (o_closing o = false /\ o_nextProc o' = S (o_nextProc o) /\ exists id st,
      o_closing o' = false /\ o_stopped o' = o_stopped o /\ launched (observe o') = (o_nextProc o, id) :: launched (observe o)
      /\ o_specs o !! id = Some st /\ st_proc st = None
      /\ spec_AdminState (st_spec st) <> "force_stopped" /\ admitted id o).
Proof.
  destruct 1 as [Hs|id r r' es Hr HL Hl Hok|id r pid (st0 & Hst0 & A0) Hp Hb Ha Hc Had _ _ _ _ _ Hc' Hst' HN HE
                 |id r Hnone _ HG HE Hp Hq Hok|id r es (st & Hst & A1) HS HG HE HF Hq].
  - left. split_and!; [apply Hs|by rewrite (still_observe _ _ Hs)|apply Hs|apply Hs].
  - left. destruct HL as [_ HG HE]. split_and!; [apply HG| |apply HG|apply HG].
    rewrite HE, launched_app. by rewrite (launched_local _ _ _ _ (lok_effects _ _ _ _ _ (lok_base _ _ _ _ _ _ Hl))).
  - right. split_and!; [done|done|]. exists id, st0. rewrite HE. split_and!; try done.
    + rewrite <- A0 in Hp. simpl in Hp. by destruct (st_proc st0).
    + by rewrite <- A0 in Ha.
  - left. split_and!; [apply HG|by rewrite HE|apply HG|apply HG].
  - left. split_and!; [apply HG| |apply HG|apply HG].
    by rewrite HE, launched_app, (launched_local _ _ _ _ HF).
Qed.

Lemma starts_ok_move B c R o o' : Inv B c R o -> move B c o o' -> starts_ok o -> starts_ok o'.
Proof.
  intros HI [(HN & HL & _)|(Hc & HN & id & st & _ & _ & HL & Hst & Hp & Ha & Had)]%move_launched;
    [by apply starts_ok_same|].
  intros [S1 S2]. split; rewrite HL.
  - csimpl. constructor; [|done]. intros ([g id'] & E & Hin)%list_elem_of_fmap.
    destruct (S2 _ _ Hin) as [? _]. simpl in *. lia.
  - intros g id' [E|Hin]%elem_of_cons; [injection E as -> ->|].
    + split; [lia|]. exists B, c, R, o, st. by split_and!.
    + destruct (S2 _ _ Hin). split; [lia|done].
Qed.

Lemma starts_ok_moves B c R o o' : Inv B c R o -> moves B c o o' -> starts_ok o -> starts_ok o'.
Proof.
  intros HI Hm. induction Hm as [|o1 o2 o3 H1 _ IH]; [done|]. intros HC.
  apply IH; [by eapply move_inv|by eapply starts_ok_move].
Qed.

Lemma moves_closing B c o o' : moves B c o o' -> o_closing o' = o_closing o.
Proof.
  induction 1 as [|o1 o2 o3 Hm _ IH]; [done|]. rewrite IH.
  by apply move_launched in Hm as [(_ & _ & ? & _)|(-> & _ & ? & ? & ? & _)].
Qed.

Lemma moves_stopped B c o o' : moves B c o o' -> o_stopped o' = o_stopped o.
Proof.
  induction 1 as [|o1 o2 o3 Hm _ IH]; [done|]. rewrite IH.
  by apply move_launched in Hm as [(_ & _ & _ & ?)|(_ & _ & ? & ? & _ & ? & _)].
Qed.

Lemma closing_moves B c o o' :
  moves B c o o' -> o_closing o = true -> launched (observe o') = launched (observe o).
Proof.
  induction 1 as [|o1 o2 o3 Hm _ IH]; [done|]. intros Hc.
  apply move_launched in Hm as [(_ & HL & Hc' & _)|(Hc' & _)]; [|congruence].
  rewrite IH by congruence. done.
Qed.

Lemma nextProc_moves B c o o' : moves B c o o' -> (o_nextProc o <= o_nextProc o')%nat.
Proof.
  induction 1 as [|o1 o2 o3 Hm _ IH]; [done|].
  apply move_launched in Hm as [(HN & _)|(_ & HN & _)]; lia.
Qed.

(** ** All books together *)

(** What the books are kept against: the generations reported started, the requests
    asked, the releases per generation; and, for one turn, whether the manager shuts down and has stopped, what was started before it shut down,
    the first generation it can start and a bound on the live processes. *)
Record ghost := mkGhost {
  gh_reported : generation -> Prop;
  gh_asked : list channel;
  gh_released : generation -> Z;
  gh_closing : bool;
  gh_stopped : bool;
  gh_launched : list (generation * string);
  gh_first : generation;
  gh_bound : Z
}.

Record Sound {CP : Calm} (B : gset string) (c : bool) (γ : ghost) (o : owner) : Prop := {
  sd_inv : Inv B c (gh_reported γ) o;
  sd_accounted : accounted (gh_asked γ) o;
  sd_balanced : balanced (gh_released γ) o;
  sd_starts : starts_ok o;
  sd_closing : o_closing o = gh_closing γ;
  sd_stopped : o_stopped o = gh_stopped γ;
  sd_launched : gh_closing γ = true -> launched (observe o) = gh_launched γ;
  sd_compatible : compatible (gh_first γ) o;
  sd_within : 0 < cfg_MaxProcesses (o_cfg o) <= gh_bound γ -> within (gh_bound γ) o
}.

Lemma Sound_moves B c γ o o' : moves B c o o' -> Sound B c γ o -> Sound B c γ o'.
Proof.
  intros Hm [HI HA HB HS HCl HSt HLa HC HW]. split.
  - by eapply moves_inv.
  - by eapply accounted_moves.
  - by eapply balanced_moves.
  - by eapply starts_ok_moves.
  - by rewrite (moves_closing _ _ _ _ Hm).
  - by rewrite (moves_stopped _ _ _ _ Hm).
  - intros Ec. rewrite (closing_moves _ _ _ _ Hm) by congruence. auto.
  - by eapply compatible_moves.
  - destruct (moves_cfg _ _ _ _ Hm) as [-> _]. intros HN. eapply within_moves; eauto.
Qed.

(** Requests arrive and starts are reported. *)
Definition arrived (q : list channel) (G : generation -> Prop) (γ : ghost) : ghost :=
  mkGhost (fun g => gh_reported γ g \/ G g) (q ++ gh_asked γ) (gh_released γ)
    (gh_closing γ) (gh_stopped γ) (gh_launched γ) (gh_first γ) (gh_bound γ).

Lemma Sound_local B c γ q G id r r' es o o' :
  has_row o id r -> lc id r' es o o' -> local_step q G id r r' es ->
  (row_ok B c (o_nextProc o) id r -> row_ok B c (o_nextProc o) id r') ->
  Sound B c γ o -> Sound B c (arrived q G γ) o'.
Proof.
  intros Hr HL Hl Hok [HI HA HB HS HCl HSt HLa HC HW]. pose proof (lok_base _ _ _ _ _ _ Hl) as Hb.
  assert (HE : launched (observe o') = launched (observe o)).
  { by rewrite (lc_observe _ _ _ _ _ HL), launched_app, (launched_local _ _ _ _ (lok_effects _ _ _ _ _ Hb)). }
  split; simpl.
  - eapply local_inv; try done. apply Hok. destruct Hr as (st & Hst & <-). by apply (inv_rows _ _ _ _ HI).
  - eapply accounted_local; [done|done|apply Hl|done].
  - by eapply balanced_local.
  - by eapply starts_ok_same; [apply HL|exact HE|].
  - by rewrite (sg_closing _ _ (lc_globals _ _ _ _ _ HL)).
  - by rewrite (sg_stopped _ _ (lc_globals _ _ _ _ _ HL)).
  - by rewrite HE.
  - by eapply compatible_local.
  - rewrite (sg_cfg _ _ (lc_globals _ _ _ _ _ HL)). intros HN. by eapply within_local; eauto.
Qed.

(** A request refused without touching the table. *)
Lemma Sound_refuse B c γ reply err o :
  Sound B c γ o -> Sound B c (arrived [reply] (fun _ => False) γ) (emit (Reply reply (refused err)) o).
Proof.
  intros [[IR ID IG IC ICF IIX IRP] HA [HZ HF HB] HS HCl HSt HLa HC HW].
  assert (HO : observe (emit (Reply reply (refused err)) o) = Reply reply (refused err) :: observe o) by done.
  split.
  - split; try done; [|intros; left; by eapply IRP].
    intros t d id g. rewrite HO, elem_of_cons. intros [?|?]; [done|by eapply ID].
  - unfold accounted in *. rewrite HO. simpl. intros Hcalm. by rewrite <- (HA Hcalm).
  - split; [done|..]; rewrite HO; [apply HF|apply HB].
  - by apply (starts_ok_same o).
  - done.
  - done.
  - done.
  - done.
  - done.
Qed.

Definition gone (g : generation) (γ : ghost) : ghost :=
  mkGhost (gh_reported γ) (gh_asked γ) (released g (gh_released γ)) (gh_closing γ)
    (gh_stopped γ) (gh_launched γ) (gh_first γ) (gh_bound γ).

Lemma Sound_release B c γ id r g h o o' :
  has_row o id r -> r_proc r = Some (g, h) ->
  lc id (r <| r_inFlight := r_inFlight r -! 1 |>) [] o o' ->
  Sound B c γ o -> Sound B c (gone g γ) o'.
Proof.
  intros Hr Hp HL [HI HA HB HS HCl HSt HLa HC HW]. split; simpl.
  - eapply release_inv; [done|by rewrite Hp|done|done].
  - by eapply (accounted_local _ []).
  - by eapply balanced_release.
  - eapply starts_ok_same; [apply HL| |done]. by rewrite (lc_observe _ _ _ _ _ HL).
  - by rewrite (sg_closing _ _ (lc_globals _ _ _ _ _ HL)).
  - by rewrite (sg_stopped _ _ (lc_globals _ _ _ _ _ HL)).
  - by rewrite (lc_observe _ _ _ _ _ HL).
  - by eapply compatible_local; [..|apply release_base|].
  - rewrite (sg_cfg _ _ (lc_globals _ _ _ _ _ HL)). intros HN.
    eapply within_local; [done|done|apply release_base|by apply HW].
Qed.

End ledger.
