(* ===== verification/ManagerTurnSteps.v ===== *)
(** * The runtime manager: handlers of timers, cancellations and housekeeping

    The handlers that change rows on the manager's own account are sequences of moves. *)

From Stdlib Require Import ZArith Lia Ascii.
From stdpp Require Import base tactics option list numbers strings pretty gmap relations.
From S2P Require Import Prelude RuntimeTypes Policy.
From S2P Require Import Manager ManagerAdmit ManagerTurns ManagerSteps ManagerMoves ManagerAdmitSteps.
From S2P Require Import ManagerLedger.
Local Open Scope Z_scope.
Local Open Scope go_scope.

Section turn_steps.
Context `{Unicode} `{World} {CP : Calm} (B : gset string) (c : bool) (R : generation -> Prop).

Notation moves := (moves B c).
Notation Inv := (Inv B c R).

Lemma live_generation_row id g o st p :
  live_generation id g o = Some (st, p) ->
  o_specs o !! id = Some st /\ st_proc st = Some p /\ has_row o id (abs st)
  /\ r_proc (abs st) = Some (g, proc_everHealthy p).
Proof.
  unfold live_generation. destruct (o_specs o !! id) as [st'|] eqn:Hst; [|done]. simpl.
  destruct (st_proc st') as [p'|] eqn:Hp; [|done]. simpl. case_decide as Hg; [|done].
  intros [= -> ->]. split_and!; [done|done|by exists st|]. simpl. by rewrite Hp, <- Hg.
Qed.

(** ** Timers *)

(** A process that is to end may be told so. *)
Lemma row_ok_intend n id r b :
  (b = r_intentional r \/ b = true /\ is_Some (r_proc r)) ->
  (is_Some (r_proc r) -> r_state r = StateDraining \/ r_state r = StateStartFailed) ->
  row_ok B c n id r -> row_ok B c n id (r <| r_intentional := b |>).
Proof.
  intros Hb Hs [OI OD ORe OF OL OT OFo ON OR OB OBu OC]. split; simpl; try done; [|auto].
  intros Hp. destruct (OD Hp) as (? & ? & ? & ? & ? & ?). split_and!; try done.
  destruct Hb as [->|[_ Hl]]; [done|]. rewrite Hp in Hl. by apply is_Some_None in Hl.
Qed.

Lemma moves_terminateNow id o :
  (forall r, has_row o id r -> is_Some (r_proc r) ->
     r_state r = StateDraining \/ r_state r = StateStartFailed) ->
  moves o (terminateNow id o).
Proof.
  intros Hs. destruct (o_specs o !! id) as [st|] eqn:Hst.
  2:{ unfold terminateNow. rewrite Hst. apply moves_refl. }
  assert (Hr : has_row o id (abs st)) by (by exists st).
  destruct (lc_terminateNow id _ _ Hr) as (b & Hb & HL).
  eapply moves_local; [done|done|by apply local_ok_silent; auto|]. apply row_ok_intend; auto.
Qed.

Lemma moves_upd_proc_hidden id f o :
  (forall p, proc_gen (f p) = proc_gen p /\ proc_everHealthy (f p) = proc_everHealthy p) ->
  moves o (upd_proc id f o).
Proof.
  intros Hf. apply moves_upd_hidden. intros st. unfold abs. simpl.
  destruct (st_proc st) as [p|]; simpl; [|done]. destruct (Hf p) as [-> ->]. done.
Qed.

Lemma moves_handleDrainGraceExpired id g o :
  Inv o -> (exists t d, Schedule t d (cmdDrainGraceExpired id g) ∈ observe o) ->
  moves o (handleDrainGraceExpired id g o).
Proof.
  intros HI (t & d & Hsch). unfold handleDrainGraceExpired.
  destruct (live_generation id g o) as [[st p]|] eqn:E; [|apply moves_refl].
  apply live_generation_row in E as (Hst & _ & Hr & Hp).
  destruct (inv_drain _ _ _ _ HI _ _ _ _ Hsch) as [_ Hd]. specialize (Hd _ _ Hst Hp).
  eapply moves_trans; [apply (moves_upd_proc_hidden id (fun p => p <| proc_drainTimer := None |>)); by intros []|]. apply moves_terminateNow.
  intros r Hr' _. left.
  assert (has_row (upd_proc id (fun p => p <| proc_drainTimer := None |>) o) id (abs st)) as Hr2
    by (by eapply lc_has_row, lc_upd_proc_hidden; [intros []|]).
  destruct Hr2 as (st2 & Hst2 & A2). by rewrite <- (has_row_lookup _ _ _ _ Hr' Hst2), A2.
Qed.

Lemma moves_handleKillGraceExpired id g o : moves o (handleKillGraceExpired id g o).
Proof.
  unfold handleKillGraceExpired. case_match; [|apply moves_refl].
  eapply moves_trans; [apply (moves_upd_proc_hidden id (fun p => p <| proc_killTimer := None |>)); by intros []|].
  by apply moves_quiet, quiet_emit.
Qed.

Lemma moves_handleStableRun id g o : moves o (handleStableRun id g o).
Proof.
  unfold handleStableRun. case_match; [|apply moves_refl]. case_match.
  eapply moves_trans; [apply (moves_upd_proc_hidden id (fun p => p <| proc_stableTimer := None |>)); by intros []|].
  case_match; [by apply moves_upd_hidden|apply moves_refl].
Qed.

(** The retry timer is gone: an instance that waited for it is stopped. *)
Definition retried (r : row) : row :=
  if decide (r_state r = StateBackoff)
  then r <| r_backoff := false |> <| r_state := StateStopped |> else r <| r_backoff := false |>.

Lemma row_ok_retried n id r : row_ok B c n id r -> row_ok B c n id (retried r).
Proof.
  intros [OI OD ORe OF OL OT OFo ON OR OB OBu OC]. unfold retried. case_decide as Hs.
  - assert (Hp : r_proc r = None).
    { destruct (r_proc r) as [[g h]|]; [|done]. destruct (OL g h eq_refl) as (_ & Hl & _). by rewrite Hs in Hl. }
    split; simpl; rewrite ?Hp; try done.
    + intros _. by destruct (OD Hp) as (_ & _ & ?).
    + intros Hr. destruct (OR Hr) as [_ Hd]. congruence.
    + intros Hc. by destruct (OC Hc) as (_ & _ & ?).
  - split; simpl; try done.
Qed.

Lemma local_ok_retried id r : local_ok id r (retried r) [].
Proof.
  apply local_ok_silent; unfold retried; case_decide as Hs; simpl; auto.
  - intros Hd. congruence.
  - intros _ [?|?]; done.
Qed.

Lemma moves_handleBackoffFire id o : Inv o -> moves o (handleBackoffFire id o).
Proof.
  intros HI. unfold handleBackoffFire. destruct (o_specs o !! id) as [st|] eqn:Hst; [|apply moves_refl].
  assert (Hr : has_row o id (abs st)) by (by exists st).
  set (o1 := if decide _ then _ else _).
  assert (M1 : moves o o1).
  { assert (HL : lc id ((abs st) <| r_backoff := false |>) [] o (upd id (fun st => st <| st_backoffTimer := None |>) o))
      by (by apply (lc_upd id _ (fun r => r <| r_backoff := false |>))).
    eapply (moves_local _ _ id _ (retried (abs st)) []); [done| |apply local_ok_retried|apply row_ok_retried].
    subst o1. unfold retried. change (r_state (abs st)) with (st_state st). case_decide; [|done].
    eapply lc_then_nil; [exact HL|]. apply lc_setState. }
  eapply moves_then; [done|done|]. apply moves_admitAndStart.
Qed.

(** ** Cancellations *)

Lemma row_ok_queue n id r q :
  (r_queue r = [] -> q = []) -> row_ok B c n id r -> row_ok B c n id (r <| r_queue := q |>).
Proof.
  intros Hq [OI OD ORe OF OL OT OFo ON OR OB OBu OC]. split; simpl; try done.
  - intros. by apply Hq, OF.
  - intros Hcalm Hl Hs Hb. destruct (OT Hcalm Hl Hs Hb); auto.
  - intros Hc. destruct (OC Hc) as (? & ? & ?). auto.
Qed.

Lemma remove_waiter_perm reply l i w :
  find_waiter reply l = Some (i, w) -> reply :: (w_reply <$> remove_waiter i l) ≡ₚ w_reply <$> l.
Proof.
  unfold find_waiter, remove_waiter. intros (Hi & <- & _)%list_find_Some.
  rewrite <- (delete_take_drop l i). rewrite <- fmap_cons. apply fmap_Permutation.
  symmetry. by apply delete_Permutation.
Qed.

Lemma moves_drop_waiter id reply err i w st o o1 :
  o_specs o !! id = Some st -> find_waiter reply (st_pending st) = Some (i, w) -> quiet o o1 ->
  moves o (emit (Reply reply (refused err)) (upd id (fun st => st <| st_pending ::= remove_waiter i |>) o1)).
Proof.
  intros Hst Hw Hq. assert (Hr : has_row o id (abs st)) by (by exists st).
  set (r' := (abs st) <| r_queue := w_reply <$> remove_waiter i (st_pending st) |>).
  eapply (moves_local _ _ id (abs st) r' [Reply reply (refused err)]); [done| | |].
  - eapply lc_nil_then; [|by apply lc_emit].
    split; [|etrans; [apply Hq|by split]|by rewrite <- (quiet_observe _ _ Hq)].
    exists (st <| st_pending ::= remove_waiter i |>). split; [done|].
    rewrite <- (quiet_specs _ _ Hq). apply (specs_upd id). by rewrite (quiet_specs _ _ Hq).
  - split; [split|..]; simpl; auto.
    + constructor; [|done]. left. by exists err.
    + by apply remove_waiter_perm in Hw.
  - apply row_ok_queue. simpl. intros Hn. by destruct (st_pending st).
Qed.

Lemma moves_handleCancelEnsure reply err o : moves o (handleCancelEnsure reply err o).
Proof.
  unfold handleCancelEnsure. destruct (range_specs o) as [ids o1] eqn:E.
  apply range_specs_eq in E as [_ E]. eapply moves_trans; [by apply moves_quiet|]. clear.
  induction ids as [|id ids IH]; [apply moves_refl|]. simpl.
  destruct (o_specs o1 !! id) as [st|] eqn:Hst; [|done].
  destruct (find_waiter reply (st_pending st)) as [[i w]|] eqn:Hw; [|done].
  eapply moves_drop_waiter; [done|done|apply quiet_cancelTimer].
Qed.

Lemma moves_handleWaiterTimeout id reply o : moves o (handleWaiterTimeout id reply o).
Proof.
  unfold handleWaiterTimeout. destruct (o_specs o !! id) as [st|] eqn:Hst; [|apply moves_refl].
  case_decide; [apply moves_refl|].
  destruct (find_waiter reply (st_pending st)) as [[i w]|] eqn:Hw; [|apply moves_refl].
  by eapply moves_drop_waiter.
Qed.

(** ** A start that failed with its process still there *)

Definition torn_row (b : bool) (r : row) : row :=
  let r' := r <| r_state := StateStartFailed |> <| r_queue := [] |> <| r_intentional := b |> in
  if burst_row r then r' else r' <| r_backoffOnExit := true |>.

Lemma lc_tear id err r o o1 :
  lc id (r <| r_state := StateStartFailed |>) [] o o1 -> is_Some (r_proc r) -> o_closing o = false ->
  exists b, lc id (torn_row b r) (refusals (r_queue r) err) o
    (enterBackoff id (terminateNow id (failPending id err o1))).
Proof.
  intros HL [[g h] Hp] Hc.
  assert (HL1 : lc id (r <| r_state := StateStartFailed |> <| r_queue := [] |>)
            (refusals (r_queue r) err) o (failPending id err o1)).
  { eapply lc_nil_then; [exact HL|]. intros Hr1. exact (lc_failPending id err _ _ Hr1). }
  destruct (lc_terminateNow id _ _ (lc_has_row _ _ _ _ _ HL1)) as (b & Hb & HT). exists b.
  set (r1 := _ <| r_intentional := b |>) in HT.
  set (o2 := terminateNow id _) in *.
  assert (HL2 : lc id r1 (refusals (r_queue r) err) o o2)
    by (exact (lc_trans _ _ _ _ [] _ _ _ HL1 HT)).
  pose proof (lc_enterBackoff id r1 o2 (lc_has_row _ _ _ _ _ HL2)) as HE.
  rewrite (sg_closing _ _ (lc_globals _ _ _ _ _ HL2)), Hc in HE.
  assert (E : backed_off false r1 = (torn_row b r, [])).
  { unfold backed_off, torn_row, live_row. change (burst_row r1) with (burst_row r).
    change (r_proc r1) with (r_proc r). rewrite Hp. by destruct (burst_row r). }
  rewrite E in HE. exact (lc_trans _ _ _ _ [] _ _ _ HL2 HE).
Qed.

Lemma row_ok_torn n id r b :
  c = false -> is_Some (r_proc r) -> r_state r <> StateDraining ->
  row_ok B c n id r -> row_ok B c n id (torn_row b r).
Proof.
  intros -> [[g h] Hp] Hd [OI OD ORe OF OL OT OFo ON OR OB OBu OC].
  assert (Hbk : r_backoff r = false).
  { destruct (r_backoff r); [|done]. destruct (OL g h Hp) as (_ & Hl & _).
    by rewrite (proj1 OB eq_refl) in Hl. }
  assert (Hrm : r_removed r = false).
  { destruct (r_removed r); [|done]. by destruct (OR eq_refl). }
  destruct (OL g h Hp) as (Hlt & _).
  unfold torn_row. destruct (burst_row r) eqn:Hbu; split; simpl; rewrite ?Hp, ?Hbk, ?Hrm; try done;
    try (by right); try (by left);
    try (by intros g' h' [= <- <-]); by intros _ Ha Hn; destruct Hd; apply OFo; rewrite ?Hp.
Qed.

Lemma local_step_torn G id r b err :
  (reported_state (r_state r) \/ forall g h, r_proc r = Some (g, h) -> G g) ->
  r_state r <> StateDraining ->
  local_step [] G id r (torn_row b r) (refusals (r_queue r) err).
Proof.
  intros Hrep Hd. unfold torn_row. split; [split|..]; try apply effect_ok_refusals;
    try (by destruct (burst_row r); simpl; auto).
  - rewrite answered_refusals. destruct (burst_row r); simpl; by rewrite app_nil_r, reverse_Permutation.
  - rewrite count_handed_refusals. by destruct (burst_row r).
Qed.

(** ** Measurements *)

Lemma moves_failBootstrapUnmeasured id o st :
  o_specs o !! id = Some st -> st_state st = StateRunning -> o_closing o = false -> Inv o ->
  moves o (failBootstrapUnmeasured id o).
Proof.
  intros Hst Hs Hc HI. unfold failBootstrapUnmeasured. rewrite Hst.
  destruct (st_proc st) as [p|] eqn:Hp; [|apply moves_refl].
  assert (Hr : has_row o id (abs st)) by (by exists st).
  assert (Hl : is_Some (r_proc (abs st))) by (simpl; by rewrite Hp).
  destruct (read _ _) as [tail o1] eqn:E1. apply quiet_read_eq in E1.
  match goal with |- ManagerMoves.moves _ _ _ (enterBackoff _ (terminateNow _ (failPending _ ?e ?o2))) =>
    destruct (lc_tear id e (abs st) o o2) as (b & HL); [|done|done|] end.
  - eapply lc_then_nil; [|apply lc_recordFailure]. eapply lc_quiet_r; [done|].
    eapply lc_then_nil; [|apply lc_setState]. by apply lc_upd_hidden.
  - eapply moves_local; [done|exact HL|apply local_step_torn; [by left; left|by simpl; rewrite Hs]|].
    apply row_ok_torn; [by eapply inv_not_closing|done|by simpl; rewrite Hs].
Qed.

Definition live_at (id : string) (o : owner) : Prop :=
  exists st, o_specs o !! id = Some st /\ has_proc st = true.

(** An assignment to the readings of a live process. *)
Definition measures (f : specState -> specState) : Prop :=
  forall st, exists b, abs (f st) = (abs st) <| r_measured := b |>.

Lemma moves_measure id f o :
  measures f -> live_at id o -> moves o (upd id f o) /\ live_at id (upd id f o).
Proof.
  intros Hf (st & Hst & Hp). destruct (Hf st) as (b & A).
  assert (Hl : is_Some (r_proc (abs st))).
  { rewrite <- live_abs in Hp. unfold live_row in Hp. destruct (r_proc (abs st)); [done|done]. }
  split.
  - eapply (moves_local _ _ id (abs st) _ []); [by exists st| | |].
    + split; [|by split|done]. exists (f st). split; [exact A|by apply specs_upd].
    + apply local_ok_silent; simpl; auto.
    + intros [OI OD ORe OF OL OT OFo ON OR OB OBu OC]. split; try done. intros Hn.
      change (r_proc (abs st) = None) in Hn. rewrite Hn in Hl. by apply is_Some_None in Hl.
  - exists (f st). rewrite (specs_upd _ _ _ _ Hst), lookup_insert_eq. split; [done|].
    by rewrite <- live_abs, A, <- Hp, <- live_abs.
Qed.

Lemma healthyBootstrap_eq id o b o' :
  healthyBootstrapAwaitingMeasurement id o = (b, o') ->
  quiet o o' /\ (b = true -> exists st, o_specs o !! id = Some st /\ st_state st = StateRunning).
Proof.
  unfold healthyBootstrapAwaitingMeasurement.
  destruct (o_specs o !! id) as [st|] eqn:Hst; [|by intros [= <- <-]].
  destruct (read _ o) as [rp o1] eqn:E. apply quiet_read_eq in E. intros [= <- <-]. split; [done|].
  intros Hb. exists st. split; [done|].
  apply andb_true_iff in Hb as [Hb _]. apply andb_true_iff in Hb as [_ Hb]. by apply bool_decide_eq_true in Hb.
Qed.

(** While the manager shuts down every live process drains. *)
Lemma closing_draining o id st :
  Inv o -> o_closing o = c -> o_specs o !! id = Some st -> has_proc st = true ->
  st_state st <> StateDraining -> o_closing o = false.
Proof.
  intros HI Hc Hst Hp Hs. destruct (o_closing o) eqn:E; [|done]. exfalso. apply Hs.
  destruct (ok_closing _ _ _ _ _ (inv_rows _ _ _ _ HI _ _ Hst)) as (_ & Hd & _); [congruence|].
  apply Hd. rewrite <- live_abs in Hp. unfold live_row in Hp. by destruct (r_proc (abs st)).
Qed.

Lemma moves_applyVRAM t byGPU landed o l1 o1 :
  live_at (mt_specID t) o -> applyVRAM t byGPU landed o = (l1, o1) ->
  moves o o1 /\ live_at (mt_specID t) o1.
Proof.
  intros Hl. unfold applyVRAM. case_bool_decide; [intros [= <- <-]; by split; [apply moves_refl|]|].
  set (f := fun st : specState => st <| st_measuredVRAM := _ |> <| st_vramBootstrapDone := true |>).
  destruct (moves_measure (mt_specID t) f o) as [M2 L2]; [by eexists|done|].
  case_match; intros [= <- <-]; [|done].
  destruct (moves_measure (mt_specID t) (fun st => st <| st_readyVRAM := byGPU |>)
    (upd (mt_specID t) f o)) as [M3 L3]; [by eexists|done|]. split; [by eapply moves_trans|done].
Qed.

Lemma moves_applyTarget byPID ramByPID landed o t :
  Inv o -> o_closing o = c -> moves o (applyTarget byPID ramByPID (landed, o) t).2.
Proof.
  intros HI Hc. unfold applyTarget.
  destruct (live_generation _ _ o) as [[st p]|] eqn:E; [|apply moves_refl].
  apply live_generation_row in E as (Hst & Hp & _).
  set (id := mt_specID t) in *. set (byGPU := realMeasurement _).
  assert (Hl : live_at id o) by (exists st; by rewrite <- live_abs; unfold live_row; simpl; rewrite Hp).
  destruct (applyVRAM t byGPU landed o) as [l1 o1] eqn:E1.
  destruct (moves_applyVRAM _ _ _ _ _ _ Hl E1) as [M1 L1]. fold id in L1.
  assert (I1 : Inv o1) by (by eapply moves_inv).
  eapply moves_trans; [exact M1|]. case_match.
  - match goal with |- context [upd id ?f o1] =>
      destruct (moves_measure id f o1) as [M2 L2]; [by eexists|done|] end.
    case_match; [|done]. simpl. eapply moves_trans; [done|].
    edestruct (moves_measure id (fun st => st <| st_readyRAM := realRAM (map_get 0 ramByPID (mt_pid t)) |>)) as [M3 L3];
      [by eexists|exact L2|done].
  - destruct (healthyBootstrapAwaitingMeasurement id o1) as [w o2] eqn:E2.
    apply healthyBootstrap_eq in E2 as [Q2 Hw]. destruct w; [|by apply moves_quiet].
    destruct (Hw eq_refl) as (st1 & Hst1 & Hrun). rewrite <- (quiet_specs _ _ Q2) in Hst1.
    destruct L1 as (st1' & Hst1' & Hp1). rewrite <- (quiet_specs _ _ Q2) in Hst1'.
    assert (st1' = st1) as -> by congruence.
    set (f := fun st : specState => st <| st_ramBootstrapBeats ::= fun n => n +! 1 |>).
    assert (I2 : Inv o2) by (by eapply still_inv; [apply quiet_still|]).
    assert (M3 : moves o2 (upd id f o2)) by (by apply moves_upd_hidden).
    assert (Hst3 : o_specs (upd id f o2) !! id = Some (f st1))
      by (by rewrite (specs_upd _ _ _ _ Hst1), lookup_insert_eq).
    eapply moves_trans; [by apply moves_quiet|]. eapply moves_trans; [done|]. fold f. rewrite Hst3. simpl.
    case_match; [|apply moves_refl].
    eapply moves_failBootstrapUnmeasured; [done|done| |by eapply moves_inv].
    rewrite (moves_closing _ _ _ _ M3), (sg_closing _ _ (quiet_globals _ _ Q2)), (moves_closing _ _ _ _ M1).
    rewrite (quiet_specs _ _ Q2) in Hst1.
    rewrite <- (moves_closing _ _ _ _ M1) in *. by eapply closing_draining; [..|rewrite Hrun].
Qed.

Lemma still_dispatchMeasurement o : still o (dispatchMeasurement o).
Proof.
  unfold dispatchMeasurement. case_match; [by apply quiet_still|].
  destruct (read world_measurer o) as [mp o1] eqn:E1. apply quiet_read_eq in E1.
  destruct (read world_ramMeasurer o1) as [rp o2] eqn:E2. apply quiet_read_eq in E2.
  assert (Q : still o o2) by (apply quiet_still; by etrans).
  case_match; [done|]. destruct (measurementTargets o2) as [[|t ts] g]; [done|].
  case_match; [done|]. eapply still_trans; [exact Q|]. by split.
Qed.

Lemma moves_applyMeasurement targets byPID ramByPID o :
  Inv o -> o_closing o = c -> moves o (applyMeasurement targets byPID ramByPID o).
Proof.
  intros HI Hc. unfold applyMeasurement.
  set (o1 := o <| o_measuring := false |>).
  assert (S1 : still o o1) by (by split).
  assert (I1 : Inv o1) by (by eapply still_inv).
  destruct (foldl _ _ targets) as [landed o2] eqn:E.
  assert (M2 : moves o1 o2).
  { assert (Hgo : forall ts l o, Inv o -> o_closing o = c ->
      moves o (foldl (applyTarget byPID ramByPID) (l, o) ts).2).
    { clear. induction ts as [|t ts IH]; intros l o HI Hc; [apply moves_refl|]. cbn [foldl].
      pose proof (moves_applyTarget byPID ramByPID l o t HI Hc) as M.
      destruct (applyTarget _ _ (l, o) t) as [l' o']. cbn [snd] in M.
      eapply moves_trans; [exact M|]. apply IH; [by eapply moves_inv|].
      by rewrite (moves_closing _ _ _ _ M). }
    change o2 with (landed, o2).2. rewrite <- E. by apply Hgo. }
  eapply moves_trans; [by apply moves_still|]. eapply moves_trans; [exact M2|].
  assert (I2 : Inv o2) by (by eapply moves_inv).
  set (o3 := if landed then _ else o2).
  assert (M3 : moves o2 o3) by (subst o3; destruct landed; [by eapply moves_wakeAdmission|apply moves_refl]).
  eapply moves_trans; [exact M3|].
  case_match; [|apply moves_refl].
  apply moves_still. eapply still_trans; [|apply still_dispatchMeasurement]. by split.
Qed.

(** ** Housekeeping and stops *)

Lemma moves_scanIdle o : Inv o -> moves o (scanIdle o).
Proof.
  intros HI. unfold scanIdle. destruct (read _ o) as [now o1] eqn:E1. apply quiet_read_eq in E1.
  destruct (range_specs o1) as [ids o2] eqn:E2. apply range_specs_eq in E2 as [_ E2].
  assert (Q : quiet o o2) by (by etrans).
  eapply moves_trans; [by apply moves_quiet|]. eapply moves_for_each.
  - intros id o3 _. repeat case_match; first [apply moves_refl|apply moves_beginDrain].
  - by eapply still_inv; [apply quiet_still|].
Qed.

Lemma moves_stopInstance model o : moves o (stopInstance model o).2.
Proof.
  unfold stopInstance. repeat case_match; simpl;
    first [apply moves_refl|apply moves_beginDrain|apply moves_failPending
          |eapply moves_trans; [apply moves_failPending|apply moves_beginDrain]].
Qed.

End turn_steps.
