(* ===== verification/ManagerEventSteps.v ===== *)
(** * The runtime manager: requests, start results and exits

    The events that reach the manager from outside: a request, a release, the outcome of
    a start, the exit of a process.  Each keeps the invariant and the books. *)

From Stdlib Require Import ZArith Lia Ascii.
From stdpp Require Import base tactics option list numbers strings pretty gmap relations.
From S2P Require Import Prelude RuntimeTypes RuntimeTypesProps Policy.
From S2P Require Import Manager ManagerAdmit ManagerTurns ManagerSteps ManagerMoves ManagerAdmitSteps.
From S2P Require Import ManagerLedger ManagerTurnSteps.
Local Open Scope Z_scope.
Local Open Scope go_scope.

(** ** Rows without a process *)

Lemma row_ok_idle {CP : Calm} B c n id r :
  instance_ok id (r_spec r) (r_instance r) -> r_proc r = None ->
  r_state r <> StateStarting -> r_state r <> StateRunning ->
  r_inFlight r = 0 -> r_intentional r = false -> r_backoffOnExit r = false -> r_measured r = false ->
  r_removed r = false ->
  (r_state r = StateDraining -> r_instance r <> 0) ->
  (calm_pushes = true -> failed_state (r_state r) = true -> burst_row r = true -> r_queue r = []) ->
  (r_backoff r = true <-> r_state r = StateBackoff) ->
  (burst_row r = true -> r_state r <> StateBackoff) ->
  (c = true -> r_queue r = [] /\ r_state r <> StateBackoff) ->
  row_ok B c n id r.
Proof.
  intros OI Hp N1 N2 Hf Hi Hb Hm Hr HD HF HB HBu HC.
  split; rewrite ?Hp, ?Hr; try done.
  - intros Hcalm _. by apply HF.
  - intros Hc. destruct (HC Hc). split_and!; [done|by intros ?%is_Some_None|done].
Qed.

(** A new row. *)
Lemma row_ok_new {CP : Calm} B c n id spec k now :
  instance_ok id spec k -> row_ok B c n id (abs (newState spec k now)).
Proof. intros OI. by apply row_ok_idle. Qed.

Lemma instance_ok_further base k :
  spec_ID base <> "" -> 0 < k -> instance_ok (InstanceKey (spec_ID base) k) (specForInstance base k) k.
Proof.
  intros Hid Hk. unfold specForInstance. destruct (Z.eqb_spec k 0); [lia|].
  split; [done|]. rewrite decide_False by done. simpl. by split_and!.
Qed.

Lemma instance_ok_base id spec k :
  instance_ok id spec k -> reservedSpecID id = false ->
  k = 0 /\ spec_ID spec = id /\ spec_InstanceOf spec = "" /\ id <> "".
Proof.
  intros [Hid Hk] Hres. case_decide as E; [naive_solver|]. destruct Hk as (_ & _ & ->).
  unfold reservedSpecID, InstanceKey in Hres. by rewrite InstanceAddress_contains in Hres.
Qed.

Lemma burst_zero spec : IsBurst spec 0 = false.
Proof. unfold IsBurst. apply Z.leb_gt. lia. Qed.

Lemma moves_insert_row {CP : Calm} `{Unicode} `{World} B c id spec k o o1 :
  o_specs o !! id = None -> instance_ok id spec k -> quiet o o1 ->
  forall now, moves B c o (o1 <| o_specs ::= insert id (newState spec k now) |>).
Proof.
  intros Hnone OI Hq now. eapply moves_one, (move_insert _ _ _ _ id (abs (newState spec k now))); try done.
  - exists (newState spec k now). split; [done|]. by rewrite <- (quiet_specs _ _ Hq).
  - etrans; [apply Hq|by split].
  - by rewrite <- (quiet_observe _ _ Hq).
  - by apply row_ok_new.
Qed.

Section event_steps.
Context `{Unicode} `{World} {CP : Calm} (c : bool) (γ : ghost).

Notation moves := (moves ∅ c).
Notation Sound := (Sound ∅ c).

Lemma Sound_quiet γ' o o' : quiet o o' -> Sound γ' o -> Sound γ' o'.
Proof. intros Hq. by apply Sound_moves, moves_quiet. Qed.

(** ** Requests *)

Definition asks (reply : channel) : ghost := arrived [reply] (fun _ => False) γ.

(** Queueing a request on a row that is not a failed burst instance. *)
Lemma row_ok_ask n id r reply :
  c = false -> (burst_row r = true -> (r_proc r = None -> failed_state (r_state r) = false)
                /\ (is_Some (r_proc r) -> r_state r <> StateStartFailed)) ->
  row_ok ∅ c n id r -> row_ok ∅ c n id (r <| r_queue ::= fun q => q ++ [reply] |>).
Proof.
  intros -> Hbu [OI OD ORe OF OL OT OFo ON OR OB OBu OC]. split; simpl; try done.
  - intros _ Hp Hs Hb. destruct (Hbu Hb) as [Hn _]. rewrite Hn in Hs; done.
  - intros _ Hl Hs Hb. by destruct (Hbu Hb) as [_ []].
Qed.

Lemma local_step_ask id r reply :
  local_step [reply] (fun _ => False) id r (r <| r_queue ::= fun q => q ++ [reply] |>) [].
Proof.
  split; [split|..]; simpl; auto. by rewrite Permutation_app_comm.
Qed.

Section ensure.
Context (id : string) (reply : channel) (st : specState) (o : owner).
Context (HS : Sound γ o) (Hc : o_closing o = false) (Hst : o_specs o !! id = Some st).
Context (Hnf : burst st = true -> has_proc st = false -> failed_state (st_state st) = false).

Lemma Sound_queueRequest : Sound (asks reply) (queueRequest id reply st o).
Proof.
  assert (Hr : has_row o id (abs st)) by (by exists st).
  pose proof (inv_not_closing _ _ _ _ (sd_inv _ _ _ _ HS) Hc) as Hcf. unfold queueRequest.
  destruct (read world_now o) as [now o1] eqn:E1. apply quiet_read_eq in E1. cbv zeta.
  assert (S1 : Sound γ o1) by (by eapply Sound_quiet).
  case_match; [by apply Sound_refuse|]. case_match; [by apply Sound_refuse|].
  destruct (burst st && has_proc st && _) eqn:Hb; [by apply Sound_refuse|].
  destruct (read world_now o1) as [now2 o2] eqn:E2. apply quiet_read_eq in E2.
  destruct (if 0 <? _ then _ else _) as [t o3] eqn:E3.
  assert (Q3 : quiet o o3).
  { etrans; [exact E1|]. etrans; [exact E2|]. case_match; [|by simplify_eq].
    destruct (scheduleAfter _ _ o2) as [t' o4] eqn:E4. apply quiet_scheduleAfter_eq in E4; [|done].
    by simplify_eq. }
  assert (R3 : has_row o3 id (abs st)) by (by eapply quiet_has_row).
  set (o4 := upd id _ o3).
  assert (S4 : Sound (asks reply) o4).
  { eapply (Sound_local _ _ γ [reply] (fun _ => False) id (abs st));
      [done| |apply local_step_ask| |by eapply Sound_quiet].
    - apply (lc_upd id _ (fun r => r <| r_queue ::= fun q => q ++ [reply] |>)); [|done].
      intros st1. unfold abs. simpl. by rewrite fmap_app.
    - apply row_ok_ask; [done|]. intros Hbu. change (burst st = true) in Hbu.
      rewrite Hbu in Hb, Hnf. rewrite <- live_abs in Hb, Hnf. unfold live_row in *. split.
      + intros Hp. apply Hnf; [done|by rewrite Hp].
      + intros [[g h] Hp] Hs. rewrite Hp, bool_decide_eq_false_2 in Hb; [done|].
        simpl in Hs. congruence. }
  eapply Sound_moves; [|exact S4]. eapply moves_admitAndStart, sd_inv, S4.
Qed.

Lemma Sound_ensureInstance : Sound (asks reply) (ensureInstance id reply o).
Proof.
  unfold ensureInstance. rewrite Hst. assert (Hr : has_row o id (abs st)) by (by exists st).
  case_bool_decide as Hs; [|exact Sound_queueRequest].
  destruct (st_proc st) as [p|] eqn:Hp; [|exact Sound_queueRequest].
  destruct (read world_now _) as [now o1] eqn:E1. apply quiet_read_eq in E1.
  set (r' := (abs st) <| r_inFlight ::= fun n => n +! 1 |>).
  eapply (Sound_local _ _ γ [reply] (fun _ => False) id (abs st) r' [Reply reply (served id p)]);
    [done| | | |done].
  - eapply (lc_nil_then _ r'); [|by apply lc_emit]. eapply (lc_then_nil _ r'); [|by apply lc_upd_hidden].
    eapply lc_quiet_r; [done|]. by apply (lc_upd id _ (fun r => r <| r_inFlight ::= fun n => n +! 1 |>)).
  - split; [split|..]; simpl; auto. constructor; [|done]. right. simpl. rewrite Hp. by split_and!.
  - apply release_row_ok. simpl. by rewrite Hp.
Qed.

End ensure.

Lemma resolveAddress_row R model o id m k :
  Inv ∅ c R o -> resolveAddress model o = Some (id, m, k) ->
  exists st, o_specs o !! id = Some st /\ st_instance st = 0 /\ spec_ID (st_spec st) = id
    /\ spec_InstanceOf (st_spec st) = "" /\ id <> "".
Proof.
  intros HI E. assert (exists st m', o_specs o !! id = Some st /\ o_byUpstream o !! m' = Some id)
    as (st & m' & Hst & Hix).
  { unfold resolveAddress in E. repeat case_match; simplify_eq; eauto. }
  exists st. split; [done|].
  apply (instance_ok_base _ _ _ (ok_id _ _ _ _ _ (inv_rows _ _ _ _ HI _ _ Hst))).
  by eapply (inv_index _ _ _ _ HI).
Qed.

Lemma spent_pending st : burstLeftNothing st = true -> st_pending st = [].
Proof.
  unfold burstLeftNothing, has_pending. intros [_ Hp]%andb_true_iff. by destruct (st_pending st).
Qed.

(** The row a request for a further instance is served from. *)
Lemma moves_instanceForRequest R base k o key o' :
  Inv ∅ c R o -> spec_ID (st_spec base) <> "" -> 0 < k -> instanceForRequest base k o = (key, o') ->
  moves o o' /\ exists st, o_specs o' !! key = Some st
    /\ (burst st = true -> has_proc st = false -> failed_state (st_state st) = false).
Proof.
  intros HI Hid Hk. unfold instanceForRequest.
  set (key' := InstanceKey _ k). set (o1 := match o_specs o !! key' with Some st => _ | None => o end).
  assert (Hnew : forall o2, Inv ∅ c R o2 -> o_specs o2 !! key' = None ->
    (let '(now, o) := read world_now o2 in
      (key', o <| o_specs ::= insert key' (newState (specForInstance (st_spec base) k) k now) |>)) = (key, o') ->
    moves o2 o' /\ exists st, o_specs o' !! key = Some st
      /\ (burst st = true -> has_proc st = false -> failed_state (st_state st) = false)).
  { intros o2 I2 Hnone. destruct (read world_now o2) as [now o3] eqn:E. apply quiet_read_eq in E.
    intros [= <- <-]. split; [by apply moves_insert_row; [|apply instance_ok_further|]|].
    simpl. rewrite lookup_insert_eq. by eexists. }
  destruct (o_specs o !! key') as [st|] eqn:Hst.
  2:{ subst o1. rewrite Hst. by apply Hnew. }
  destruct (burst st && negb (has_proc st) && _) eqn:Hf; subst o1.
  - apply andb_true_iff in Hf as [[Hb Hp%negb_true_iff]%andb_true_iff Hs].
    assert (Hq : calm_pushes = true -> st_pending st = []).
    { intros Hcalm. assert (r_queue (abs st) = []) as Hq.
      { apply (ok_failed _ _ _ _ _ (inv_rows _ _ _ _ HI _ _ Hst)); [done| |simpl|done].
        - rewrite <- live_abs in Hp. unfold live_row in Hp. by destruct (r_proc (abs st)).
        - apply orb_true_iff in Hs as [Hs|Hs]; apply bool_decide_eq_true in Hs; by rewrite Hs. }
      simpl in Hq. by destruct (st_pending st). }
    pose proof (moves_retire ∅ c key' o st Hst Hq) as M1.
    assert (Hnone : o_specs (retire key' o) !! key' = None)
      by (unfold retire; rewrite Hst; destruct (st_backoffTimer st); apply lookup_delete_eq).
    rewrite Hnone. intros E. destruct (Hnew (retire key' o)) as [M2 ?];
      [by eapply moves_inv|done|done|]. split; [by eapply moves_trans|done].
  - rewrite Hst. intros [= <- <-]. split; [apply moves_refl|]. exists st. split; [done|].
    intros Hb Hp. rewrite Hb, Hp in Hf. simpl in Hf. apply orb_false_iff in Hf as [F1 F2].
    apply bool_decide_eq_false in F1, F2. by destruct (st_state st).
Qed.

Lemma Sound_handleEnsure model reply serving o :
  Sound γ o -> Sound (asks reply) (handleEnsure model reply serving o).
Proof.
  intros HS. unfold handleEnsure. destruct (o_closing o) eqn:Hc; [by apply Sound_refuse|].
  pose proof (sd_inv _ _ _ _ HS) as HI.
  destruct (resolveAddress model o) as [[[id m] k]|] eqn:E; [|by apply Sound_refuse].
  destruct (resolveAddress_row _ _ _ _ _ _ HI E) as (st & Hst & Hk0 & Hid & _ & Hne). rewrite Hst.
  case_match; [by apply Sound_refuse|]. destruct (Z.ltb_spec 0 k) as [Hk|Hk].
  - case_match.
    + apply Sound_refuse. repeat case_match; try done.
      eapply Sound_moves; [|done]. eapply moves_retire; [done|]. intros _. apply spent_pending.
      unfold spentBurst in *. by destruct (burstLeftNothing _).
    + destruct (instanceForRequest st k o) as [key o1] eqn:E1.
      destruct (moves_instanceForRequest _ st k o key o1 HI) as (M1 & st1 & Hst1 & Hnf);
        [by rewrite Hid|done|done|].
      eapply Sound_ensureInstance; [by eapply Sound_moves| |done|done].
      by rewrite (moves_closing _ _ _ _ M1).
  - eapply Sound_ensureInstance; [done|done|done|]. unfold burst. by rewrite Hk0, burst_zero.
Qed.

(** ** Releases *)

(** A generation's request is still out: more were handed to it than released. *)
Definition outstanding (g : generation) (o : owner) : Prop :=
  gh_released γ g < handed_count g (observe o) <= int64_max.

Lemma outstanding_inFlight id g o st p :
  Sound γ o -> live_generation id g o = Some (st, p) -> outstanding g o -> 0 < st_inFlight st.
Proof.
  intros HS (Hst & _ & _ & Hp)%live_generation_row [Hlt Hle].
  pose proof (bal_nonneg _ _ (sd_balanced _ _ _ _ HS) g) as Hz.
  rewrite (bal_row _ _ (sd_balanced _ _ _ _ HS) _ _ _ _ Hst Hp), int64_id; [lia|].
  unfold in_int64, int64_min, int64_max in *. lia.
Qed.

Lemma Sound_handleRelease id g o st p :
  Sound γ o -> live_generation id g o = Some (st, p) -> outstanding g o ->
  Sound (gone g γ) (handleRelease id g o).
Proof.
  intros HS Hl Ho. unfold handleRelease. rewrite Hl.
  pose proof (outstanding_inFlight _ _ _ _ _ HS Hl Ho) as Hpos.
  apply live_generation_row in Hl as (Hst & Hp & Hr & Hg).
  destruct (Z.ltb_spec 0 (st_inFlight st)) as [_|]; [|lia]. cbv zeta.
  destruct (read world_now _) as [now o1] eqn:E1. apply quiet_read_eq in E1.
  set (o2 := upd id (fun st => st <| st_lastUsed := now |>) o1).
  set (r' := (abs st) <| r_inFlight := r_inFlight (abs st) -! 1 |>).
  assert (HL : lc id r' [] o o2).
  { eapply (lc_then_nil _ r'); [|by apply lc_upd_hidden]. eapply lc_quiet_r; [done|].
    by apply (lc_upd id _ (fun r => r <| r_inFlight := r_inFlight (abs st) -! 1 |>)). }
  assert (S2 : Sound (gone g γ) o2) by (by eapply Sound_release).
  set (o3 := if _ && _ then _ else o2).
  assert (S3 : Sound (gone g γ) o3).
  { subst o3. case_match eqn:Hd; [|done]. eapply Sound_moves; [|exact S2]. apply moves_terminateNow.
    intros r Hr2 _. left. apply andb_true_iff in Hd as [Hd%bool_decide_eq_true _].
    destruct (lc_has_row _ _ _ _ _ HL) as (st2 & Hst2 & A2).
    by rewrite <- (has_row_lookup _ _ _ _ Hr2 Hst2), A2. }
  eapply Sound_moves; [|exact S3]. eapply moves_wakeAdmission, sd_inv, S3.
Qed.

(** ** The outcome of a start *)

Definition reports (g : generation) : ghost := arrived [] (fun g' => g' = g) γ.

Lemma Sound_reported g o : Sound γ o -> Sound (reports g) o.
Proof.
  intros [HI HA HB HS HCl HSt HLa HC HW]. split; try done. eapply inv_reported_mono; [|exact HI]. by left.
Qed.

Definition serves (id : string) (p : runningProc) (q : list channel) : list effect :=
  (fun r => Reply r (served id p)) <$> reverse q.

Lemma lc_succeedPending id st p o :
  o_specs o !! id = Some st -> st_proc st = Some p ->
  lc id ((abs st) <| r_queue := [] |>
           <| r_inFlight := Nat.iter (length (r_queue (abs st))) (fun n => n +! 1) (st_inFlight st) |>)
    (serves id p (r_queue (abs st))) o (succeedPending id o).
Proof.
  intros Hst Hp. unfold succeedPending. rewrite Hst, Hp.
  set (f := fun (o : owner) w => _).
  assert (Hf : forall l o1 r, has_row o1 id r ->
    lc id (r <| r_inFlight := Nat.iter (length l) (fun n => n +! 1) (r_inFlight r) |>)
      (serves id p (w_reply <$> l)) o1 (foldl f o1 l)).
  { induction l as [|w l IH]; intros o1 r Hr; [destruct r; by apply lc_refl|].
    set (r1 := r <| r_inFlight ::= fun n => n +! 1 |>).
    assert (HL : lc id r1 [Reply (w_reply w) (served id p)] o1 (f o1 w)).
    { subst f. cbv beta. eapply (lc_nil_then _ r1); [|by apply lc_emit].
      apply (lc_after_quiet _ r _ _ _ (cancelTimer (w_timer w) o1)); [apply quiet_cancelTimer|done|].
      intros Hr1. by apply (lc_upd id _ (fun r => r <| r_inFlight ::= fun n => n +! 1 |>)). }
    unfold serves. rewrite fmap_cons, reverse_cons, fmap_app.
    change (length (w :: l)) with (S (length l)). rewrite Nat.iter_succ_r.
    pose proof (IH (f o1 w) r1 (lc_has_row _ _ _ _ _ HL)) as HI.
    exact (lc_trans _ _ _ _ _ _ _ _ HL HI). }
  specialize (Hf (st_pending st) o (abs st)). destruct (read world_now _) as [now o2] eqn:E.
  apply quiet_read_eq in E. eapply lc_then_nil.
  - eapply lc_quiet_r; [exact E|]. eapply (lc_then_nil _ _ _ _); [apply Hf; by exists st|].
    apply (lc_upd id _ (fun r => r <| r_queue := [] |>)). done.
  - simpl. rewrite length_fmap. by apply lc_upd_hidden.
Qed.

Lemma answered_serves id p q : answered (serves id p q) = reverse q.
Proof.
  unfold answered, serves. induction (reverse q) as [|x l IH]; [done|]. csimpl. by rewrite IH.
Qed.

Lemma count_handed_serves id p q : count_handed (serves id p q) = length q.
Proof.
  unfold count_handed, serves. rewrite <- (length_reverse q).
  induction (reverse q) as [|x l IH]; [done|]. csimpl. by f_equal.
Qed.

(** A started process is healthy: the queue is handed to it. *)
Definition healthy_row (g : generation) (r : row) : row :=
  r <| r_proc := Some (g, true) |> <| r_state := StateRunning |> <| r_queue := [] |>
    <| r_inFlight := Nat.iter (length (r_queue r)) (fun n => n +! 1) (r_inFlight r) |>.

Lemma row_ok_healthy n id r g h :
  r_proc r = Some (g, h) -> r_state r = StateStarting ->
  row_ok ∅ c n id r -> row_ok ∅ c n id (healthy_row g r).
Proof.
  intros Hp Hs [OI OD ORe OF OL OT OFo ON OR OB OBu OC]. rewrite Hp, Hs in *.
  assert (Hsm : is_Some (Some (g, h))) by done.
  assert (c = false) as Hc.
  { destruct c; [|done]. destruct (OC eq_refl) as (_ & Hd & _). by specialize (Hd Hsm). }
  destruct (OL g h eq_refl) as (Hlt & _).
  split; simpl; try done.
  - by intros g' h' [= <- <-].
  - intros _ Ha Hn. by specialize (OFo Hsm Ha Hn).
  - intros _ Hi. by destruct (ON Hsm Hi).
  - intros Hr. by destruct (OR Hr).
  - rewrite OB. by split.
  - intros E. rewrite Hc in E. done.
Qed.

Lemma local_step_healthy id r g h p :
  r_proc r = Some (g, h) -> r_state r = StateStarting -> proc_gen p = g ->
  local_step [] (fun g' => g' = g) id r (healthy_row g r) (serves id p (r_queue r)).
Proof.
  intros Hp Hs Hg. split; [split|..]; simpl; rewrite ?Hp; auto.
  - unfold serves. rewrite Forall_fmap. apply Forall_forall. intros x _. right. simpl. by rewrite Hg.
  - by rewrite Hs.
  - intros _ _. right. by intros g' h' [= <- <-].
  - by rewrite answered_serves, app_nil_r, reverse_Permutation.
  - by rewrite count_handed_serves.
Qed.

Lemma still_measureSoon o : still o (measureSoon o).
Proof. unfold measureSoon. case_match; [by split|apply still_dispatchMeasurement]. Qed.

Section start_result.
Context (id : string) (g : generation) (o : owner) (st : specState) (p : runningProc).
Context (HS : Sound γ o) (Hc : o_closing o = c) (Hl : live_generation id g o = Some (st, p)).
Context (Hnr : ~ gh_reported γ g) (Hnd : st_state st <> StateDraining).

(** An unreported process that is not draining is starting. *)
Lemma unreported_starting : st_state st = StateStarting.
Proof.
  apply live_generation_row in Hl as (Hst & _ & _ & Hp).
  pose proof (inv_reported _ _ _ _ (sd_inv _ _ _ _ HS) _ _ _ _ Hst Hp) as Hrep.
  destruct (ok_live _ _ _ _ _ (inv_rows _ _ _ _ (sd_inv _ _ _ _ HS) _ _ Hst) _ _ Hp) as (_ & Hs & _).
  simpl in Hs. unfold reported_state in Hrep. destruct (st_state st); try done; destruct Hnr; auto.
Qed.

Lemma Sound_start_failed o1 err :
  lc id ((abs st) <| r_state := StateStartFailed |>) [] o o1 ->
  Sound (reports g) (enterBackoff id (terminateNow id (failPending id err o1))).
Proof.
  intros HL. pose proof unreported_starting as Hs.
  pose proof (live_generation_row _ _ _ _ _ Hl) as (Hst & Hpr & Hr & Hp).
  assert (Hlive : is_Some (r_proc (abs st))) by (by rewrite Hp).
  assert (Hcf : o_closing o = false).
  { eapply closing_draining; [apply HS|done|done| |by rewrite Hs].
    rewrite <- live_abs. unfold live_row. by rewrite Hp. }
  destruct (lc_tear id err _ _ _ HL Hlive Hcf) as (b & HT).
  eapply (Sound_local _ _ γ [] (fun g' => g' = g)); [exact Hr|exact HT| | |done].
  - apply local_step_torn; [|done]. right. intros g' h' E. congruence.
  - apply row_ok_torn; [congruence|done|done].
Qed.

Lemma Sound_start_healthy o1 :
  lc id ((abs st) <| r_proc := Some (g, true) |> <| r_state := StateRunning |>) [] o o1 ->
  Sound (reports g) (succeedPending id o1).
Proof.
  intros HL. pose proof unreported_starting as Hs.
  pose proof (live_generation_row _ _ _ _ _ Hl) as (Hst & Hpr & Hr & Hp).
  destruct (lc_has_row _ _ _ _ _ HL) as (st1 & Hst1 & A1).
  assert (exists p1, st_proc st1 = Some p1 /\ proc_gen p1 = g) as (p1 & Hp1 & Hg1).
  { apply (f_equal r_proc) in A1. simpl in A1. destruct (st_proc st1) as [p1|]; [|done].
    exists p1. split; [done|]. simpl in A1. by simplify_eq. }
  pose proof (lc_succeedPending id st1 p1 o1 Hst1 Hp1) as HQ.
  change (st_inFlight st1) with (r_inFlight (abs st1)) in HQ. rewrite A1 in HQ.
  eapply (Sound_local _ _ γ [] (fun g' => g' = g) id (abs st) (healthy_row g (abs st))
    (serves id p1 (r_queue (abs st)))); [done| |by eapply local_step_healthy|by eapply row_ok_healthy|done].
  rewrite <- (app_nil_r (serves _ _ _)). exact (lc_trans _ _ _ _ _ _ _ _ HL HQ).
Qed.

End start_result.

Lemma lc_healthy id (b : bool) o st p :
  o_specs o !! id = Some st -> st_proc st = Some p ->
  lc id ((abs st) <| r_proc := Some (proc_gen p, b || proc_everHealthy p) |>) [] o
    (if b then upd_proc id (fun p => p <| proc_everHealthy := true |>) o else o).
Proof.
  intros Hst Hp. split; [|by destruct b; split|by destruct b].
  destruct b.
  - exists (st <| st_proc ::= fmap (fun p => p <| proc_everHealthy := true |>) |>). split.
    + unfold abs. simpl. by rewrite Hp.
    + by apply (specs_upd id).
  - exists st. split; [|by rewrite insert_id]. unfold abs. simpl. by rewrite Hp.
Qed.

(** A draining process may still turn out healthy. *)
Lemma row_ok_marked n id r g h h' :
  r_proc r = Some (g, h) -> r_state r = StateDraining ->
  row_ok ∅ c n id r -> row_ok ∅ c n id (r <| r_proc := Some (g, h') |>).
Proof.
  intros Hp Hd [OI OD ORe OF OL OT OFo ON OR OB OBu OC]. rewrite Hp, Hd in *.
  destruct (OL g h eq_refl) as (Hlt & _). split; simpl; rewrite ?Hd; try done; auto.
  - by intros g' h2 [= <- <-].
  - intros E. destruct (OC E) as (? & _). done.
Qed.

Lemma Sound_handleStartResult id g ok o :
  Sound γ o -> o_closing o = c -> ~ gh_reported γ g -> Sound (reports g) (handleStartResult id g ok o).
Proof.
  intros HS Hc Hnr. unfold handleStartResult.
  destruct (live_generation id g o) as [[st p]|] eqn:Hl; [|by apply Sound_reported].
  pose proof (live_generation_row _ _ _ _ _ Hl) as (Hst & Hp & Hr & Hg).
  assert (Hgen : proc_gen p = g) by (simpl in Hg; rewrite Hp in Hg; simpl in Hg; congruence).
  set (o1 := if ok then _ else o).
  pose proof (lc_healthy id ok o st p Hst Hp) as HL. fold o1 in HL. rewrite Hgen in HL.
  case_decide as Hd.
  { apply Sound_reported. eapply Sound_moves; [|exact HS].
    eapply moves_local; [exact Hr|exact HL| |].
    - apply local_ok_silent; simpl; auto. right. rewrite Hp. simpl. by rewrite Hgen.
    - by eapply row_ok_marked. }
  destruct ok.
  - destruct (read world_now _) as [now o2] eqn:E2. apply quiet_read_eq in E2.
    destruct (scheduleAfter _ _ _) as [t o3] eqn:E3. apply quiet_scheduleAfter_eq in E3; [|done].
    set (o4 := succeedPending id _).
    assert (S4 : Sound (reports g) o4).
    { eapply Sound_start_healthy; [exact HS|exact Hc|exact Hl|done|done|].
      assert (HL2 : lc id ((abs st) <| r_proc := Some (g, true) |>) [] o o2).
      { eapply lc_quiet_r; [exact E2|]. eapply lc_then_nil; [exact HL|]. apply lc_upd_hidden.
        intros st1. by destruct (st_hasRunBefore st1). }
      set (r2 := (abs st) <| r_proc := Some (g, true) |> <| r_state := StateRunning |>).
      eapply (lc_then_nil _ r2); [|apply lc_upd_proc_hidden; by intros []].
      eapply lc_quiet_r; [exact E3|]. eapply (lc_then_nil _ r2); [|by apply lc_upd_hidden].
      eapply lc_then_nil; [|apply lc_setState]. eapply lc_then_nil; [exact HL2|by apply lc_upd_hidden]. }
    assert (S5 : Sound (reports g) (measureSoon o4))
      by (eapply Sound_moves, S4; apply moves_still, still_measureSoon).
    eapply Sound_moves; [|exact S5]. eapply moves_wakeAdmission, sd_inv, S5.
  - destruct (read _ _) as [tail o2] eqn:E2. apply quiet_read_eq in E2.
    eapply Sound_start_failed; [exact HS|exact Hc|exact Hl|done|done|].
    eapply lc_then_nil; [|apply lc_recordFailure]. eapply lc_then_nil; [|apply lc_setState].
    eapply lc_quiet_r; [exact E2|]. by apply lc_refl.
Qed.

End event_steps.
