(* ===== verification/ManagerExitSteps.v ===== *)
(** * The runtime manager: exits of processes

    What the manager does when a process is gone is a sequence of moves, whatever the
    reason: it was removed from the configuration, it was told to stop, it died. *)

From Stdlib Require Import ZArith Lia Ascii.
From stdpp Require Import base tactics option list numbers strings pretty gmap relations.
From S2P Require Import Prelude RuntimeTypes RuntimeTypesProps Policy.
From S2P Require Import Manager ManagerAdmit ManagerTurns ManagerSteps ManagerMoves ManagerAdmitSteps.
From S2P Require Import ManagerLedger ManagerTurnSteps ManagerEventSteps.
Local Open Scope Z_scope.
Local Open Scope go_scope.

(** The row of a generation that is gone. *)
Definition exited_row (r : row) : row :=
  mkRow (r_spec r) (r_instance r) (r_state r) None 0 (r_queue r) (r_backoff r) false false
    (r_removed r) false.

(** ** Rows of exited processes *)

Lemma live_not_backoff {CP : Calm} B c n id r :
  row_ok B c n id r -> is_Some (r_proc r) -> r_backoff r = false.
Proof.
  intros HR [[g h] Hp]. destruct (r_backoff r) eqn:E; [|done].
  apply (ok_backoff _ _ _ _ _ HR) in E.
  destruct (ok_live _ _ _ _ _ HR g h Hp) as (_ & Hl & _). by rewrite E in Hl.
Qed.

(** The process is gone, the instance rests in [s] with the queue [q]. *)
Definition rests (s : State) (q : list channel) (r : row) : row :=
  mkRow (r_spec r) (r_instance r) s None 0 q (r_backoff r) false false (r_removed r) false.

Lemma row_ok_rests {CP : Calm} B c n id r s q :
  row_ok B c n id r -> is_Some (r_proc r) -> r_removed r = false ->
  s = StateStopped \/ (s = StateStartFailed \/ s = StateCrashed \/ s = StateDraining /\ r_instance r <> 0)
    /\ (calm_pushes = true -> burst_row r = true -> q = []) ->
  q = r_queue r \/ q = [] -> row_ok B c n id (rests s q r).
Proof.
  intros HR Hl Hrm Hs Hq. pose proof (live_not_backoff _ _ _ _ _ HR Hl) as Hb.
  pose proof (ok_id _ _ _ _ _ HR) as OI.
  assert (s <> StateStarting /\ s <> StateRunning /\ s <> StateBackoff) as (N1 & N2 & N3)
    by (destruct Hs as [->|[[->|[->|[-> _]]] _]]; done).
  apply row_ok_idle; simpl; try done.
  - intros ->. by destruct Hs as [?|[[?|[?|[_ ?]]] _]].
  - intros Hcalm Hf Hbu. destruct Hs as [->|[_ Hn]]; [done|by apply Hn].
  - by rewrite Hb.
  - intros Hc. split; [|done]. destruct (ok_closing _ _ _ _ _ HR Hc) as (E & _).
    destruct Hq as [->| ->]; done.
Qed.

Lemma row_ok_rests_backoff {CP : Calm} B c n id r q :
  row_ok B c n id r -> is_Some (r_proc r) -> r_removed r = false -> c = false ->
  burst_row r = false -> row_ok B c n id ((rests StateBackoff q r) <| r_backoff := true |>).
Proof.
  intros HR Hl Hrm -> Hbu. apply row_ok_idle; simpl; try done; [apply HR|].
  change (burst_row _) with (burst_row r). congruence.
Qed.

Lemma burst_further r : burst_row r = true -> r_instance r <> 0.
Proof. unfold burst_row. intros Hb E. by rewrite E, burst_zero in Hb. Qed.

(** After a failed exit the instance backs off; [q] is what is left of its queue. *)
Lemma row_ok_failed_exit {CP : Calm} B c n id r s q :
  row_ok B c n id r -> is_Some (r_proc r) -> r_removed r = false ->
  s = StateStartFailed \/ s = StateCrashed \/ s = StateDraining -> q = r_queue r \/ q = [] ->
  row_ok B c n id (backed_off c (rests s q r)).1.
Proof.
  intros HR Hl Hrm Hs Hq. unfold backed_off. change (burst_row (rests s q r)) with (burst_row r).
  destruct c.
  - change (row_ok B true n id (rests StateStopped q r)). apply row_ok_rests; auto.
  - destruct (burst_row r) eqn:Hbu.
    + change (row_ok B false n id (rests s [] r)). pose proof (burst_further _ Hbu).
      apply row_ok_rests; [done|done|done|right; split; [naive_solver|done]|by right].
    + change (row_ok B false n id ((rests StateBackoff q r) <| r_backoff := true |>)).
      by apply row_ok_rests_backoff.
Qed.

(** ** The index and the floor *)

Section exit_steps.
Context `{Unicode} `{World} {CP : Calm} (B : gset string) (c : bool) (R : generation -> Prop).

Notation moves := (moves B c).
Notation Inv := (Inv B c R).

Lemma moves_rebuildUpstreamIndex o : Inv o -> moves o (rebuildUpstreamIndex o).
Proof.
  intros HI. unfold rebuildUpstreamIndex. destruct (range_specs o) as [ids o1] eqn:E.
  apply range_specs_eq in E as [_ E]. eapply moves_trans; [by apply moves_quiet|].
  assert (I1 : Inv o1) by (by eapply still_inv; [apply quiet_still|]).
  apply moves_still. split; try done. intros _ m id. simpl.
  set (f := fun (index : gmap string string) id => _).
  assert (Hf : forall l (ix : gmap string string),
    (forall m id, ix !! m = Some id -> reservedSpecID id = false) ->
    forall m id, foldl f ix l !! m = Some id -> reservedSpecID id = false).
  { induction l as [|k l IH]; intros ix Hix; [done|]. simpl. apply IH. unfold f.
    destruct (o_specs o1 !! k) as [st|] eqn:Hst; [|done]. destruct (Z.eqb_spec (st_instance st) 0) as [Hz|]; [|done].
    simpl. intros m' id'. rewrite lookup_insert_Some. intros [[_ <-]|[_ ?]]; [|by eapply Hix].
    destruct (ok_id _ _ _ _ _ (inv_rows _ _ _ _ I1 _ _ Hst)) as [_ Hk]. simpl in Hk.
    rewrite decide_True in Hk by done. naive_solver. }
  by apply Hf.
Qed.

Lemma moves_floorFrom n spec k o :
  Inv o -> spec_ID spec <> "" -> 0 < k -> moves o (floorFrom n spec k o).
Proof.
  intros HI Hid. revert k o HI. induction n as [|n IH]; intros k o HI Hk; [apply moves_refl|]. simpl.
  case_match; [|apply moves_refl].
  set (o1 := match o_specs o !! _ with Some _ => o | None => _ end).
  assert (M1 : moves o o1).
  { subst o1. destruct (o_specs o !! _) eqn:Hnone; [apply moves_refl|].
    case_match; [apply moves_refl|]. destruct (read world_now o) as [now o2] eqn:E. apply quiet_read_eq in E.
    by apply moves_insert_row; [|apply instance_ok_further|]. }
  eapply moves_trans; [exact M1|]. apply IH; [by eapply moves_inv|lia].
Qed.

Lemma moves_ensureProtectedFloor o : Inv o -> moves o (ensureProtectedFloor o).
Proof.
  intros HI. unfold ensureProtectedFloor. pose proof (inv_cfg _ _ _ _ HI) as HC.
  revert HC HI. generalize (cfg_Specs (o_cfg o)). intros l. revert o.
  induction l as [|spec l IH]; intros o HC HI; [apply moves_refl|].
  inversion_clear HC as [|? ? (_ & Hid & _) HC']. cbn [foldl].
  assert (M1 : moves o (floorFrom (S (Z.to_nat MaxInstanceIndex)) spec 1 o)) by (by apply moves_floorFrom).
  eapply moves_trans; [exact M1|]. apply IH; [done|by eapply moves_inv].
Qed.

Lemma moves_exit id r r' es o o' :
  has_row o id r -> lc id r' es o o' -> r_proc r' = None -> specBase (r_spec r') = specBase (r_spec r) ->
  Forall (effect_ok id r r') es -> answered es ++ r_queue r' ≡ₚ r_queue r ->
  (row_ok B c (o_nextProc o) id r -> row_ok B c (o_nextProc o) id r') -> moves o o'.
Proof.
  intros Hr HL Hp Hs HE HA Hok. eapply moves_local; [done|done| |done].
  split; [split|..]; rewrite ?Hp; auto; try (by intros _ ?%is_Some_None); by intros ?%is_Some_None.
Qed.

(** The process of [id] is gone, and what follows is a matter of moves. *)
Definition gone_at (id : string) (o : owner) : Prop :=
  forall st, o_specs o !! id = Some st -> has_proc st = false.

Definition exits (id : string) (o o' : owner) : Prop :=
  exists o2, moves o o2 /\ gone_at id o2 /\ moves o2 o'.

Lemma exits_moves id o o' : exits id o o' -> moves o o'.
Proof. intros (o2 & M1 & _ & M2). by eapply moves_trans. Qed.

Lemma exits_then id o o1 o2 :
  Inv o -> moves o o1 -> gone_at id o1 -> (Inv o1 -> moves o1 o2) -> exits id o o2.
Proof. intros HI M1 HG M2. exists o1. split_and!; [done|done|]. eapply M2, moves_inv; done. Qed.

Lemma gone_lc id r es o o' : lc id r es o o' -> r_proc r = None -> gone_at id o'.
Proof.
  intros HL Hp st Hst. rewrite <- live_abs, (has_row_lookup _ _ _ _ (lc_has_row _ _ _ _ _ HL) Hst).
  unfold live_row. by rewrite Hp.
Qed.

(** A process that is gone during shutdown does not come back. *)
Lemma gone_moves id o o' : moves o o' -> o_closing o = true -> gone_at id o -> gone_at id o'.
Proof.
  induction 1 as [|o1 o2 o3 Hm _ IH]; [done|]. intros Hc HG. apply IH.
  - by rewrite (moves_closing B c o1 o2) by (by apply moves_one).
  - intros st Hst. destruct (has_proc st) eqn:Hp; [|done]. rewrite <- live_abs in Hp. unfold live_row in Hp.
    destruct (r_proc (abs st)) as [[g h]|] eqn:E; [|done].
    destruct (move_live _ _ _ _ _ _ _ _ Hm Hst E) as (st0 & Hst0 & _ & [(h0 & E0)|(_ & _ & _ & ?)]); [|congruence].
    specialize (HG st0 Hst0). rewrite <- live_abs in HG. unfold live_row in HG. by rewrite E0 in HG.
Qed.

(** The instance failed with its process gone; [es] refused what is missing in [q]. *)
Lemma moves_failed id r s q es o o' :
  has_row o id r -> is_Some (r_proc r) -> r_removed r = false ->
  s = StateStartFailed \/ s = StateCrashed \/ s = StateDraining ->
  (q = r_queue r /\ es = [] \/ q = [] /\ exists err, es = refusals (r_queue r) err) ->
  lc id (backed_off c (rests s q r)).1 ((backed_off c (rests s q r)).2 ++ es) o o' ->
  moves o o' /\ gone_at id o'.
Proof.
  intros Hr Hl Hrm Hs Hq HL. split; [|eapply gone_lc; [exact HL|unfold backed_off; repeat case_match; done]].
  eapply (moves_exit id r); [exact Hr|exact HL|..].
  - unfold backed_off. repeat case_match; done.
  - unfold backed_off. repeat case_match; done.
  - apply Forall_app. split.
    + unfold backed_off. repeat case_match; try done. apply effect_ok_refusals.
    + destruct Hq as [[_ ->]|(_ & err & ->)]; [done|apply effect_ok_refusals].
  - assert (HA : answered es ++ q ≡ₚ r_queue r).
    { destruct Hq as [[-> ->]|(-> & err & ->)]; [done|].
      by rewrite answered_refusals, app_nil_r, reverse_Permutation. }
    rewrite answered_app, <- HA, <- app_assoc. unfold backed_off. repeat case_match; simpl; try done.
    rewrite answered_refusals, app_nil_r. simpl. rewrite reverse_Permutation. apply Permutation_app_comm.
  - intros Hok. apply row_ok_failed_exit; try done. destruct Hq as [[? _]|[? _]]; auto.
Qed.

(** A drain of another row commutes with the changes around it. *)
Lemma lc_commute id v r1 r2 rv es es2 o o1 o2 o3 :
  v <> id -> lc id r1 [] o o1 -> lc v rv es o1 o2 -> lc id r2 es2 o2 o3 ->
  exists o', lc v rv es o o' /\ lc id r2 es2 o' o3.
Proof.
  intros Hne [(s1 & A1 & S1) G1 O1] [(sv & Av & Sv) Gv Ov] [(s2 & A2 & S2) G2 O2].
  exists (o2 <| o_specs := <[v := sv]> (o_specs o) |>). split.
  - split; [by exists sv|etrans; [exact G1|etrans; [exact Gv|by split]]|].
    change (observe o2 = es ++ observe o). rewrite Ov, O1. done.
  - split; [|transitivity o2; [by split|exact G2]|exact O2].
    exists s2. split; [done|]. simpl. rewrite S2, Sv, S1.
    by rewrite (insert_insert_ne _ v id), insert_insert_eq.
Qed.

(** ** Memory pressure *)

Lemma pickBootstrapVictim_spec now b ids o v st :
  pickBootstrapVictim now b ids o = Some (v, st) -> v <> b /\ o_specs o !! v = Some st.
Proof.
  unfold pickBootstrapVictim. set (f := fun (victim : option (string * specState)) id => _).
  assert (Hf : forall l a, (forall v st, a = Some (v, st) -> v <> b /\ o_specs o !! v = Some st) ->
    forall v st, foldl f a l = Some (v, st) -> v <> b /\ o_specs o !! v = Some st).
  { induction l as [|k l IH]; intros a Ha; [done|]. cbn [foldl]. apply IH. intros v' st'. unfold f.
    destruct (o_specs o !! k) as [sk|] eqn:Hk; [|apply Ha]. case_match eqn:Hv; [apply Ha|].
    assert (Hkb : k <> b).
    { apply negb_false_iff in Hv. unfold bootstrapVictim in Hv. rewrite !andb_true_iff, negb_true_iff in Hv.
      destruct Hv as [[[[[Hv _] _] _] _] _]. by apply String.eqb_neq in Hv. }
    repeat case_match; try apply Ha; by intros [= <- <-]. }
  by apply Hf.
Qed.

Lemma evictOneIdle_spec id o b o' :
  evictOneIdleForBootstrap id o = (b, o') ->
  quiet o o' \/ exists v rv rv' es, v <> id /\ has_row o v rv /\ drained v rv rv' es /\ lc v rv' es o o'.
Proof.
  unfold evictOneIdleForBootstrap. destruct (read _ o) as [now o1] eqn:E1. apply quiet_read_eq in E1.
  destruct (range_specs o1) as [ids o2] eqn:E2. apply range_specs_eq in E2 as [_ E2].
  assert (Q : quiet o o2) by (by etrans).
  destruct (pickBootstrapVictim now id ids o2) as [[v sv]|] eqn:Ev; intros [= <- <-]; [right|by left].
  apply pickBootstrapVictim_spec in Ev as [Hne Hsv].
  assert (Hr2 : has_row o2 v (abs sv)) by (by exists sv).
  set (f := fun st : specState => st <| st_drainedFor ::= fun l => appendUnique l id |>).
  assert (HL : lc v (abs sv) [] o2 (upd v f o2)) by (by apply lc_upd_hidden).
  destruct (lc_beginDrain v _ _ (lc_has_row _ _ _ _ _ HL)) as (rv' & es & HD & HB).
  exists v, (abs sv), rv', es. split_and!; [done| |done|].
  - exists sv. by rewrite <- (quiet_specs _ _ Q).
  - eapply lc_quiet_l; [exact Q|]. eapply lc_nil_then; [exact HL|]. done.
Qed.

(** ** The reasons of an exit *)

Section exited.
Context (id : string) (st : specState) (o o1 : owner).
Context (HI : Inv o) (Hc : o_closing o = c) (Hst : o_specs o !! id = Some st).
Context (Hlive : is_Some (r_proc (abs st))).
Context (HX : lc id (exited_row (abs st)) [] o o1).

Lemma exited_has_row : has_row o id (abs st).
Proof. by exists st. Qed.

Lemma exited_closing o2 r es : lc id r es o o2 -> o_closing o2 = c.
Proof. intros HL. by rewrite (sg_closing _ _ (lc_globals _ _ _ _ _ HL)). Qed.

(** The row was put at [s]; its queue is refused, or kept over the wait. *)
Lemma moves_fail_refused s err o2 :
  st_removed st = false -> s = StateStartFailed \/ s = StateCrashed \/ s = StateDraining ->
  lc id (rests s (r_queue (abs st)) (abs st)) [] o o2 ->
  moves o (enterBackoff id (failPending id err o2)) /\ gone_at id (enterBackoff id (failPending id err o2)).
Proof.
  intros Hrm Hs HL.
  assert (HL3 : lc id (rests s [] (abs st)) (refusals (r_queue (abs st)) err) o (failPending id err o2)).
  { eapply lc_nil_then; [exact HL|]. intros Hr2. exact (lc_failPending id err _ _ Hr2). }
  pose proof (lc_enterBackoff id _ _ (lc_has_row _ _ _ _ _ HL3)) as HB.
  rewrite (exited_closing _ _ _ HL3) in HB.
  eapply moves_failed; [apply exited_has_row|done|done|exact Hs| |exact (lc_trans _ _ _ _ _ _ _ _ HL3 HB)].
  right. split; [done|]. by exists err.
Qed.

Lemma moves_fail_kept s o2 :
  st_removed st = false -> s = StateStartFailed \/ s = StateCrashed \/ s = StateDraining ->
  lc id (rests s (r_queue (abs st)) (abs st)) [] o o2 ->
  moves o (enterBackoff id o2) /\ gone_at id (enterBackoff id o2).
Proof.
  intros Hrm Hs HL. pose proof (lc_enterBackoff id _ _ (lc_has_row _ _ _ _ _ HL)) as HB.
  rewrite (exited_closing _ _ _ HL) in HB.
  eapply moves_failed; [apply exited_has_row|done|done|exact Hs| |exact (lc_trans _ _ _ _ _ _ _ _ HL HB)].
  by left.
Qed.

Lemma lc_failed_state s m ec t o2 :
  lc id (exited_row (abs st)) [] o o2 ->
  lc id (rests s (r_queue (abs st)) (abs st)) [] o (recordFailure id m ec t (setState id s o2)).
Proof.
  intros HL. eapply lc_then_nil; [|apply lc_recordFailure]. eapply lc_then_nil; [exact HL|].
  intros Hr2. exact (lc_setState id s _ _ Hr2).
Qed.

Lemma moves_memoryPressure ec tail :
  st_removed st = false ->
  moves o (handleBootstrapMemoryPressure id ec tail o1)
  /\ gone_at id (handleBootstrapMemoryPressure id ec tail o1).
Proof.
  intros Hrm. unfold handleBootstrapMemoryPressure.
  destruct (lc_has_row _ _ _ _ _ HX) as (st1 & Hst1 & A1). rewrite Hst1. case_match.
  { eapply moves_fail_refused; [done|by left|]. by apply lc_failed_state. }
  set (f := fun st : specState => st <| st_ramBootstrapRetries ::= _ |>).
  assert (HX2 : lc id (exited_row (abs st)) [] o (upd id f o1))
    by (eapply lc_then_nil; [exact HX|by apply lc_upd_hidden]).
  destruct (evictOneIdleForBootstrap id (upd id f o1)) as [b o3] eqn:E. cbv zeta.
  set (msg := if b then _ else _). apply evictOneIdle_spec in E as [Q|(v & rv & rv' & es & Hne & Hrv & HD & HV)].
  { eapply moves_fail_kept; [done|by left|]. apply lc_failed_state. by eapply lc_quiet_r. }
  assert (HR3 : has_row o3 id (exited_row (abs st))).
  { destruct (lc_has_row _ _ _ _ _ HX2) as (s2 & Hs2 & A2). destruct HV as [(sv & _ & Sv) _ _].
    exists s2. by rewrite Sv, lookup_insert_ne. }
  assert (HE : lc id (rests StateStartFailed (r_queue (abs st)) (abs st)) [] o3
    (recordFailure id msg ec tail (setState id StateStartFailed o3))).
  { eapply lc_then_nil; [|apply lc_recordFailure]. exact (lc_setState id _ _ _ HR3). }
  pose proof (lc_enterBackoff id _ _ (lc_has_row _ _ _ _ _ HE)) as HB.
  assert (Hc3 : o_closing (recordFailure id msg ec tail (setState id StateStartFailed o3)) = c).
  { rewrite (sg_closing _ _ (lc_globals _ _ _ _ _ HE)), (sg_closing _ _ (lc_globals _ _ _ _ _ HV)).
    exact (exited_closing _ _ _ HX2). }
  rewrite Hc3 in HB.
  destruct (lc_commute _ _ _ _ _ _ _ _ _ _ _ Hne HX2 HV (lc_trans _ _ _ _ _ _ _ _ HE HB)) as (o' & HL1 & HL2).
  assert (Hrv0 : has_row o v rv).
  { destruct Hrv as (sv & Hsv & <-). destruct HX2 as [(s2 & _ & S2) _ _].
    rewrite S2, lookup_insert_ne in Hsv by done. by exists sv. }
  set (o5 := enterBackoff id _) in *.
  destruct (moves_failed id (abs st) StateStartFailed (r_queue (abs st)) [] o' o5) as [M2 HG];
    [|done|done|by left|by left|exact HL2|].
  { destruct HL1 as [(sv & _ & Sv) _ _]. exists st. by rewrite Sv, lookup_insert_ne. }
  split; [|exact HG]. eapply moves_trans; [|exact M2].
  eapply moves_local; [exact Hrv0|exact HL1|by apply local_ok_drained|by eapply drained_row_ok].
Qed.

Lemma moves_onUnexpectedExit mp healthy ec tail :
  st_removed st = false -> exits id o (onUnexpectedExit id mp healthy ec tail o1).
Proof.
  intros Hrm. unfold onUnexpectedExit.
  match goal with |- context [wakeAdmissionCandidates ?x] => assert (moves o x /\ gone_at id x) as [M G] end.
  { case_match; [by apply moves_memoryPressure|]. case_match.
    - eapply moves_fail_kept; [done|by right; left|]. by apply lc_failed_state.
    - eapply moves_fail_refused; [done|by left|]. by apply lc_failed_state. }
  eapply exits_then; [exact HI|exact M|exact G|]. apply moves_wakeAdmission.
Qed.

(** The row after an exit that was meant. *)
Lemma moves_intended o2 :
  st_removed st = false -> st_intentionalStop st = true -> specBase (st_spec st) ∉ B ->
  st_backoffOnExit st = false \/ spec_AdminState (st_spec st) = "force_stopped" ->
  o2 = (if decide (st_state st = StateDraining) then setState id StateStopped o1 else o1) ->
  moves o o2 /\ gone_at id o2.
Proof.
  intros Hrm Hint HB Hno ->. pose proof (inv_rows _ _ _ _ HI _ _ Hst) as HR.
  set (s := if decide (st_state st = StateDraining) then StateStopped else st_state st).
  set (o2 := if decide _ then _ else o1).
  assert (HL : lc id (rests s (r_queue (abs st)) (abs st)) [] o o2).
  { subst s o2. case_decide; [|exact HX]. eapply lc_then_nil; [exact HX|].
    intros Hr2. exact (lc_setState id StateStopped _ _ Hr2). }
  split; [|by eapply gone_lc].
  eapply (moves_exit id (abs st)); [apply exited_has_row|exact HL|done|done|done|done|].
  - intros _. apply row_ok_rests; [done|done|done| |by left]. subst s. case_decide as Hd; [by left|right].
    destruct (ok_intent _ _ _ _ _ HR Hlive Hint) as [Hs|Hs]; [done|]. simpl in Hs. rewrite Hs.
    split; [by left|]. intros Hcalm Hbu. destruct (ok_torn _ _ _ _ _ HR Hcalm Hlive Hs Hbu) as [Hb|Hq]; [|done].
    destruct Hno as [Hno|Hno]; [simpl in Hb; congruence|].
    destruct Hd. exact (ok_forced _ _ _ _ _ HR Hlive Hno HB).
Qed.

Lemma moves_onIntentionalExit drainedFor :
  st_removed st = false -> st_intentionalStop st = true -> specBase (st_spec st) ∉ B ->
  exits id o (onIntentionalExit id (st_backoffOnExit st) drainedFor o1).
Proof.
  intros Hrm Hint HB. unfold onIntentionalExit.
  destruct (lc_has_row _ _ _ _ _ HX) as (st1 & Hst1 & A1). rewrite Hst1.
  assert (E1 : st_spec st1 = st_spec st) by exact (f_equal r_spec A1).
  assert (E2 : st_state st1 = st_state st) by exact (f_equal r_state A1). rewrite E1, E2.
  case_match eqn:Hd.
  - assert (moves o (enterBackoff id o1) /\ gone_at id (enterBackoff id o1)) as [M G].
    { apply (moves_fail_kept (st_state st)); [done| |exact HX].
      destruct (ok_intent _ _ _ _ _ (inv_rows _ _ _ _ HI _ _ Hst) Hlive Hint) as [Hs|Hs]; auto. }
    eapply exits_then; [exact HI|exact M|exact G|]. apply moves_wakeAdmission.
  - set (o2 := if decide _ then _ else o1).
    assert (moves o o2 /\ gone_at id o2) as [M2 G2].
    { apply moves_intended; try done. apply andb_false_iff in Hd as [?|Hd]; [by left|right].
      apply negb_false_iff in Hd. by apply String.eqb_eq in Hd. }
    set (o3 := match o_specs o2 !! id with Some st => _ | None => o2 end).
    assert (I2 : Inv o2) by (by eapply moves_inv).
    assert (M3 : moves o2 o3).
    { subst o3. destruct (o_specs o2 !! id) as [st2|]; [|apply moves_refl]. case_decide; [|apply moves_refl].
      assert (MF : moves o2 (for_each drainedFor reask o2)) by (apply (moves_for_each B c R); [apply moves_reask|done]).
      eapply moves_then; [exact I2|exact MF|]. apply moves_admitAndStart. }
    eapply exits_then; [exact HI|exact M2|exact G2|]. intros _.
    eapply moves_then; [exact I2|exact M3|]. apply moves_wakeAdmission.
Qed.

(** The spec left the configuration while the process ran. *)
Lemma moves_onRemovedExit : exits id o (onRemovedExit id o1).
Proof.
  unfold onRemovedExit. set (o2 := deleteState id _).
  assert (M2 : moves o o2).
  { assert (HL : lc id ((exited_row (abs st)) <| r_queue := [] |>)
              (refusals (r_queue (abs st)) ErrModelNotManaged) o (failPending id ErrModelNotManaged o1)).
    { eapply lc_nil_then; [exact HX|]. intros Hr1. exact (lc_failPending id _ _ _ Hr1). }
    destruct HL as [(s2 & _ & S2) G2 O2].
    eapply moves_one, (move_delete _ _ _ _ id (abs st)); [apply exited_has_row| | | | |].
    - subst o2. unfold deleteState, signalTransition. simpl. by rewrite S2, delete_insert_eq.
    - etrans; [exact G2|by split].
    - exact O2.
    - apply effect_ok_refusals.
    - by rewrite answered_refusals, reverse_Permutation. }
  assert (I2 : Inv o2) by (by eapply moves_inv).
  pose proof (moves_rebuildUpstreamIndex _ I2) as M3.
  eapply exits_then; [exact HI|exact M2| |intros _].
  { intros s Hs. subst o2. unfold deleteState, signalTransition in Hs. simpl in Hs.
    by rewrite lookup_delete_eq in Hs. }
  eapply moves_then; [exact I2|exact M3|]. intros I3.
  case_match; [by eapply moves_wakeAdmission|].
  eapply moves_then; [exact I3|by apply moves_ensureProtectedFloor|]. apply moves_wakeAdmission.
Qed.

End exited.

Lemma quiet_noteRAMFreed id o : quiet o (noteRAMFreed id o).
Proof.
  unfold noteRAMFreed. destruct (o_specs o !! id) as [st|]; [|done].
  destruct (read world_hostInfo o) as [hi o1] eqn:E1. apply quiet_read_eq in E1.
  destruct hi as [hi|]; [|done]. cbv zeta. case_match; [done|].
  destruct (read world_hostSeq o1) as [seq o2] eqn:E2. apply quiet_read_eq in E2.
  etrans; [exact E1|]. etrans; [exact E2|].
  destruct (o_ramFreedUntilSeq o2 <=? seq); (split; [done|by split|done]).
Qed.

Lemma quiet_hostRAMBudgetSnapshot o b o' : hostRAMBudgetSnapshot o = (b, o') -> quiet o o'.
Proof.
  unfold hostRAMBudgetSnapshot. destruct (hostInfo o) as [hi o1] eqn:E. apply hostInfo_eq in E.
  by intros [= _ <-].
Qed.

Lemma lc_clearExited id st o :
  o_specs o !! id = Some st ->
  lc id (exited_row (abs st)) [] o (upd id clearReadings (noteRAMFreed id (upd id clearExited o))).
Proof.
  intros Hst. pose proof (quiet_noteRAMFreed id (upd id clearExited o)) as [S G O].
  set (o1 := noteRAMFreed id _) in *. rewrite (specs_upd _ _ _ _ Hst) in S.
  split; [|transitivity o1; [|by split]; by transitivity (upd id clearExited o); [split|]|exact O].
  exists (clearReadings (clearExited st)). split; [done|].
  rewrite (specs_upd id clearReadings o1 (clearExited st)) by (by rewrite S, lookup_insert_eq).
  by rewrite S, insert_insert_eq.
Qed.

Lemma moves_onProcExited id exitErr o st :
  Inv o -> o_closing o = c -> o_specs o !! id = Some st -> specBase (st_spec st) ∉ B ->
  has_proc st = true -> exits id o (onProcExited id exitErr o).
Proof.
  intros HI Hc Hst HB Hhp. unfold onProcExited. rewrite Hst. unfold has_proc in Hhp.
  destruct (st_proc st) as [p|] eqn:Hp; [|done].
  set (bs := negb (burst st) && _).
  destruct (if bs then hostRAMBudgetSnapshot o else (0, o)) as [budget o1] eqn:E1.
  assert (Q1 : quiet o o1) by (destruct bs; [by eapply quiet_hostRAMBudgetSnapshot|by simplify_eq]).
  set (o2 := cancelTimer (proc_stableTimer p) _).
  assert (Q2 : quiet o o2) by (do 3 (etrans; [|apply quiet_cancelTimer]); exact Q1).
  assert (Hlive : is_Some (r_proc (abs st))) by (simpl; by rewrite Hp).
  assert (HX : lc id (exited_row (abs st)) [] o (upd id clearReadings (noteRAMFreed id (upd id clearExited o2)))).
  { eapply lc_quiet_l; [exact Q2|]. apply lc_clearExited. by rewrite (quiet_specs _ _ Q2). }
  destruct (st_removed st) eqn:Hrm; [by eapply moves_onRemovedExit|].
  destruct (st_intentionalStop st) eqn:Hint; [by eapply moves_onIntentionalExit|].
  destruct (read _ _) as [tail o3] eqn:E3. apply quiet_read_eq in E3.
  eapply moves_onUnexpectedExit; try done. by eapply lc_quiet_r.
Qed.

Lemma exits_handleChildExited id g exitErr o st p :
  Inv o -> o_closing o = c -> B = ∅ -> live_generation id g o = Some (st, p) ->
  exits id o (handleChildExited id g exitErr o).
Proof.
  intros HI Hc HB E. unfold handleChildExited. rewrite E.
  apply live_generation_row in E as (Hst & Hp & _).
  eapply moves_onProcExited; [done|done|done|rewrite HB; set_solver|]. unfold has_proc. by rewrite Hp.
Qed.

Lemma moves_handleChildExited id g exitErr o :
  Inv o -> o_closing o = c -> B = ∅ -> moves o (handleChildExited id g exitErr o).
Proof.
  intros HI Hc HB. destruct (live_generation id g o) as [[st p]|] eqn:E.
  - by eapply exits_moves, exits_handleChildExited.
  - unfold handleChildExited. rewrite E. apply moves_refl.
Qed.

End exit_steps.
