(* ===== verification/ManagerApplySteps.v ===== *)
(** * The runtime manager: configuration pushes and shutdown

    Applying a configuration and closing the manager go through every row.  While a push
    is in progress a force-stopped instance may still run; when its last loop is over
    none does.  While the manager closes, requests may still be queued; when its loop is
    over every request is answered and every process drains. *)

From Stdlib Require Import ZArith Lia Ascii.
From stdpp Require Import base tactics option list numbers strings pretty gmap relations.
From S2P Require Import Prelude RuntimeTypes RuntimeTypesProps Policy.
From S2P Require Import Manager ManagerAdmit ManagerTurns ManagerSteps ManagerMoves ManagerAdmitSteps.
From S2P Require Import ManagerLedger ManagerTurnSteps ManagerEventSteps ManagerExitSteps.
Local Open Scope Z_scope.
Local Open Scope go_scope.

(** ** Loops that go through every row *)

Lemma lc_ne id r es o o' k : lc id r es o o' -> k <> id -> o_specs o' !! k = o_specs o !! k.
Proof. intros [(st & _ & S) _ _] Hne. by rewrite S, lookup_insert_ne. Qed.

(** A loop whose body touches its own row only establishes on every row what the body
    establishes on its own. *)
Lemma for_each_rows (Q : owner -> Prop) (P : specState -> Prop) body ids o :
  (forall id o k, Q o -> k <> id -> o_specs (body id o) !! k = o_specs o !! k) ->
  (forall id o, Q o -> Q (body id o)) ->
  (forall id o st, Q o -> o_specs (body id o) !! id = Some st -> P st) ->
  Q o -> (forall id, is_Some (o_specs o !! id) -> id ∈ ids) ->
  forall id st, o_specs (for_each ids body o) !! id = Some st -> P st.
Proof.
  intros Hne HQ HP Ho Hdom id st.
  assert (Hd : o_specs o !! id = None \/ id ∈ ids).
  { destruct (o_specs o !! id) eqn:E; [right; apply Hdom; by rewrite E|by left]. }
  clear Hdom. unfold for_each. revert o Ho Hd.
  enough (Hgo : forall o, Q o -> o_specs o !! id = None \/ id ∈ ids
    \/ (forall st, o_specs o !! id = Some st -> P st) ->
    o_specs (foldl (fun o id => body id o) o ids) !! id = Some st -> P st)
    by (intros o Ho [Hd|Hd]; apply Hgo; auto).
  induction ids as [|k ids IH]; intros o Ho Hd; cbn [foldl].
  - destruct Hd as [->|[?%not_elem_of_nil|?]]; [done|done|auto].
  - apply IH; [auto|]. destruct (decide (id = k)) as [->|Hk].
    + right. right. intros st'. by apply HP.
    + rewrite Hne by done. destruct Hd as [?|[[?|?]%elem_of_cons|?]]; auto; done.
Qed.

Lemma range_all `{World} o ids o' :
  range_specs o = (ids, o') -> forall id, is_Some (o_specs o' !! id) -> id ∈ ids.
Proof.
  intros (HP & Hq)%range_specs_eq id. rewrite (quiet_specs _ _ Hq), HP. intros [st Hst].
  apply list_elem_of_fmap. exists (id, st). split; [done|]. by apply elem_of_map_to_list.
Qed.

(** ** Changing what the invariant is relative to *)

Lemma row_ok_weaken {CP : Calm} B B' c n id r : B ⊆ B' -> row_ok B c n id r -> row_ok B' c n id r.
Proof. intros HB [OI OD ORe OF OL OT OFo ON OR OB OBu OC]. split; try done. intros. apply OFo; set_solver. Qed.

Lemma row_ok_open {CP : Calm} B c n id r : row_ok B c n id r -> row_ok B false n id r.
Proof. intros [OI OD ORe OF OL OT OFo ON OR OB OBu OC]. by split. Qed.

(** Every row is as it must be once the loop is over. *)
Lemma row_ok_settle {CP : Calm} B c n id r :
  row_ok B c n id r ->
  (is_Some (r_proc r) -> spec_AdminState (r_spec r) = "force_stopped" -> r_state r = StateDraining) ->
  row_ok ∅ c n id r.
Proof. intros [OI OD ORe OF OL OT OFo ON OR OB OBu OC] HF. split; try done. auto. Qed.

Lemma row_ok_closed {CP : Calm} n id r :
  row_ok ∅ false n id r ->
  r_queue r = [] -> (is_Some (r_proc r) -> r_state r = StateDraining) -> r_state r <> StateBackoff ->
  row_ok ∅ true n id r.
Proof. intros [OI OD ORe OF OL OT OFo ON OR OB OBu OC] HQ HD HB. by split. Qed.

(** The same owner, seen against other parameters. *)
Lemma Sound_rows `{Unicode} `{World} {CP : Calm} B B' c c' γ o :
  (forall id st, o_specs o !! id = Some st -> row_ok B c (o_nextProc o) id (abs st) ->
     row_ok B' c' (o_nextProc o) id (abs st)) ->
  (c' = true -> o_closing o = true) -> Sound B c γ o -> Sound B' c' γ o.
Proof.
  intros Hok Hc [[IR ID IG IC ICF IIX IRP] HA HB HS HCl HSt HLa HC HW]. split; try done. split; try done. eauto.
Qed.

(** ** Reconciling one row *)

Section apply_steps.
Context `{Unicode} `{World} {CP : Calm} (B : gset string) (c : bool) (R : generation -> Prop).

Notation moves := (moves B c).
Notation Inv := (Inv B c R).

Lemma moves_unremove id o : moves o (upd id (fun st => st <| st_removed := false |>) o).
Proof.
  destruct (o_specs o !! id) as [st|] eqn:Hst.
  - eapply (moves_local _ _ id (abs st) ((abs st) <| r_removed := false |>) []); [by exists st| | |].
    + apply (lc_upd id _ (fun r => r <| r_removed := false |>)); [done|by exists st].
    + by apply local_ok_silent; auto.
    + intros [OI OD ORe OF OL OT OFo ON OR OB OBu OC]. by split.
  - apply moves_quiet. split; [|by split|done]. unfold upd. simpl. apply map_eq. intros k.
    destruct (decide (k = id)) as [->|?]; [by rewrite lookup_alter_eq, Hst|by rewrite lookup_alter_ne].
Qed.

(** The spec of a row that may take it: its identity stays, a push is in progress on its
    base, and an instance whose failed start is being torn down does not become a burst
    instance while requests wait for it that no retry is noted for. *)
Record reconcilable (id : string) (spec : Spec) (r : row) : Prop := {
  rc_id : instance_ok id spec (r_instance r);
  rc_base : specBase spec = specBase (r_spec r);
  rc_pushed : specBase spec ∈ B;
  rc_calm : calm_pushes = true -> is_Some (r_proc r) -> r_state r = StateStartFailed -> IsBurst spec (r_instance r) = true ->
    burst_row r = true \/ r_backoffOnExit r = true \/ r_queue r = []
}.

(** A live instance takes its new spec. *)
Lemma row_ok_respec_live n id spec r :
  reconcilable id spec r -> is_Some (r_proc r) ->
  row_ok B c n id r -> row_ok B c n id (r <| r_spec := spec |>).
Proof.
  intros [RI RB RP RC] Hl [OI OD ORe OF OL OT OFo ON OR OB OBu OC]. destruct Hl as [[g h] Hp].
  split; simpl; rewrite ?Hp in *; try done.
  - intros Hcalm Hsm Hs Hbu. destruct (RC Hcalm Hsm Hs Hbu) as [Hb|[?|?]]; [|by left|by right]. by apply (OT Hcalm Hsm Hs).
  - intros _ Hs. destruct (OL g h eq_refl) as (_ & Hl & _). by rewrite Hs in Hl.
Qed.

(** An instance without a process takes its new spec, and leaves a failure or a wait. *)
Definition respecced (spec : Spec) (r : row) : row :=
  match r_state r with
  | StateStartFailed | StateCrashed => r <| r_spec := spec |> <| r_state := StateStopped |>
  | StateBackoff => r <| r_spec := spec |> <| r_backoff := false |> <| r_state := StateStopped |>
  | _ => r <| r_spec := spec |>
  end.

Lemma row_ok_respecced n id spec r :
  reconcilable id spec r -> r_proc r = None ->
  row_ok B c n id r -> row_ok B c n id (respecced spec r).
Proof.
  intros [RI RB RP RC] Hp HR. destruct (ok_idle _ _ _ _ _ HR Hp) as (N1 & N2 & Hf & Hi & Hb & Hm).
  assert (Hrm : r_removed r = false).
  { destruct (r_removed r) eqn:E; [|done]. destruct (ok_removed _ _ _ _ _ HR E) as [Hl _].
    rewrite Hp in Hl. by apply is_Some_None in Hl. }
  pose proof (ok_backoff _ _ _ _ _ HR) as OB.
  assert (Hq : c = true -> r_queue r = []) by (intros Hc; by destruct (ok_closing _ _ _ _ _ HR Hc)).
  pose proof (ok_resting _ _ _ _ _ HR Hp) as HD.
  unfold respecced. destruct (r_state r) eqn:Hs; (apply row_ok_idle; simpl; rewrite ?Hs; try done); auto;
    try (by rewrite OB); by intros _; apply HD.
Qed.

Lemma moves_reconcileSpec id spec o :
  (forall r, has_row o id r -> reconcilable id spec r) -> spec_ID spec = id -> moves o (reconcileSpec id spec o).
Proof.
  intros HRc Hid. unfold reconcileSpec. destruct (o_specs o !! id) as [st|] eqn:Hst; [|apply moves_refl].
  assert (Hr : has_row o id (abs st)) by (by exists st). specialize (HRc _ Hr).
  assert (HL : lc id ((abs st) <| r_spec := spec |>) [] o (upd id (fun st => st <| st_spec := spec |>) o))
    by (by apply (lc_upd id _ (fun r => r <| r_spec := spec |>))).
  set (o1 := upd id _ o) in *.
  case_bool_decide as Heq; cbn [negb andb].
  { eapply moves_same_row; [exact Hr|]. destruct st. simpl in Heq. subst. exact HL. }
  destruct (has_proc st) eqn:Hp; cbn [negb andb].
  - assert (Hl : is_Some (r_proc (abs st))).
    { rewrite <- live_abs in Hp. unfold live_row in Hp. by destruct (r_proc (abs st)). }
    assert (M1 : moves o o1).
    { eapply moves_local; [exact Hr|exact HL| |by apply row_ok_respec_live].
      apply local_ok_silent; simpl; auto. apply HRc. }
    case_match; [|done]. eapply moves_trans; [done|]. rewrite Hid. apply moves_beginDrain.
  - assert (Hn : r_proc (abs st) = None).
    { rewrite <- live_abs in Hp. unfold live_row in Hp. by destruct (r_proc (abs st)). }
    assert (Hgo : forall o2, lc id (respecced spec (abs st)) [] o o2 -> moves o o2).
    { intros o2 HL2. eapply (moves_exit _ _ id (abs st)); [exact Hr|exact HL2|..].
      - unfold respecced. by repeat case_match.
      - unfold respecced. repeat case_match; apply HRc.
      - done.
      - unfold respecced. by repeat case_match.
      - intros Hok. by apply row_ok_respecced. }
    unfold respecced in Hgo. change (r_state (abs st)) with (st_state st) in Hgo.
    destruct (st_state st); try (by apply Hgo);
      try (apply Hgo; eapply lc_then_nil; [exact HL|apply lc_setState]).
    apply Hgo. eapply lc_then_nil; [|apply lc_setState]. eapply lc_then_nil.
    + eapply lc_quiet_r; [apply quiet_cancelTimer|exact HL].
    + by apply (lc_upd id _ (fun r => r <| r_backoff := false |>)).
Qed.

(** ** Removing a row *)

Lemma row_ok_removed n id r r' es :
  is_Some (r_proc r) -> drained id (r <| r_removed := true |>) r' es ->
  row_ok B c n id r -> row_ok B c n id r' /\ local_ok id r r' es.
Proof.
  intros [[g h] Hp] HD HR.
  assert (exists r'', drained id r r'' es /\ r' = r'' <| r_removed := true |> /\ r_state r'' = StateDraining
    /\ r_proc r'' = r_proc r) as (r'' & HD' & -> & Hs & Hp').
  { destruct HD as [Hn|b Hl Hb|g' h' t Hl]; simpl in *.
    - destruct Hn as [Hn|Hn]; [congruence|]. exists r. split_and!; [|done|done|done]. by apply drained_not; right.
    - eexists. split_and!; [by apply (drained_now id r b)|done|done|done].
    - eexists. split_and!; [by eapply (drained_grace id r)|done|done|done]. }
  split.
  - destruct (drained_row_ok _ _ _ _ _ _ _ HD' HR) as [OI OD ORe OF OL OT OFo ON OR OB OBu OC].
    split; simpl; try done. intros _. by rewrite Hp', Hp.
  - destruct (local_ok_drained _ _ _ _ HD') as [[LE LG LD LR LS] LA LI]. split; [split|..]; simpl; auto.
Qed.

Lemma moves_removeState id o : Inv o -> moves o (removeState id o).
Proof.
  intros HI. unfold removeState. destruct (o_specs o !! id) as [st|] eqn:Hst; [|apply moves_refl].
  assert (Hr : has_row o id (abs st)) by (by exists st). destruct (has_proc st) eqn:Hp.
  - assert (Hl : is_Some (r_proc (abs st))).
    { rewrite <- live_abs in Hp. unfold live_row in Hp. by destruct (r_proc (abs st)). }
    assert (HL : lc id ((abs st) <| r_removed := true |>) [] o (upd id (fun st => st <| st_removed := true |>) o))
      by (by apply (lc_upd id _ (fun r => r <| r_removed := true |>))).
    destruct (lc_beginDrain id _ _ (lc_has_row _ _ _ _ _ HL)) as (r' & es & HD & HB).
    assert (HF : lc id r' es o (beginDrain id (upd id (fun st => st <| st_removed := true |>) o)))
      by (eapply lc_nil_then; [exact HL|done]).
    destruct (row_ok_removed _ _ _ _ _ Hl HD (inv_rows _ _ _ _ HI _ _ Hst)) as [Hok Hlo].
    eapply moves_local; [exact Hr|exact HF|exact Hlo|done].
  - set (o1 := cancelTimer _ o).
    pose proof (quiet_cancelTimer (st_backoffTimer st) o) as Q. fold o1 in Q.
    pose proof (lc_failPending id ErrModelNotManaged _ _ (quiet_has_row _ _ _ _ Q Hr)) as [(s2 & _ & S2) G2 O2].
    eapply moves_one, (move_delete _ _ _ _ id (abs st)); [exact Hr| | | | |].
    + unfold deleteState, signalTransition. simpl. by rewrite S2, delete_insert_eq, (quiet_specs _ _ Q).
    + etrans; [apply Q|]. etrans; [exact G2|by split].
    + rewrite <- (quiet_observe _ _ Q). exact O2.
    + apply effect_ok_refusals.
    + by rewrite answered_refusals, reverse_Permutation.
Qed.

(** ** Specs and instances of a push *)

Lemma pushed_instance_ok spec : pushed_ok spec -> instance_ok (spec_ID spec) spec 0.
Proof. intros (? & ? & ?). split; [done|]. by rewrite decide_True. Qed.

Lemma pushed_base spec : pushed_ok spec -> specBase spec = spec_ID spec.
Proof. intros (HO & _). unfold specBase. by rewrite HO. Qed.

Lemma moves_applySpec spec o :
  Inv o -> pushed_ok spec -> spec_ID spec ∈ B -> moves o (applySpec o spec).
Proof.
  intros HI Hpu HB. unfold applySpec. destruct (o_specs o !! spec_ID spec) as [st|] eqn:Hst.
  - eapply moves_then; [exact HI|apply moves_unremove|]. intros HI1. apply moves_reconcileSpec; [|done].
    intros r (st1 & Hst1 & <-).
    pose proof (ok_id _ _ _ _ _ (inv_rows _ _ _ _ HI1 _ _ Hst1)) as OI.
    destruct (instance_ok_base _ _ _ OI) as (Hk & Hid & Hof & _); [apply Hpu|].
    split.
    + rewrite Hk. by apply pushed_instance_ok.
    + rewrite pushed_base by done. unfold specBase. by rewrite Hof.
    + by rewrite pushed_base.
    + by rewrite Hk, burst_zero.
  - destruct (read world_now o) as [now o1] eqn:E. apply quiet_read_eq in E.
    apply moves_insert_row; [done|by apply pushed_instance_ok|done].
Qed.

Lemma moves_foldl_applySpec specs o :
  Inv o -> Forall pushed_ok specs -> (forall spec, spec ∈ specs -> spec_ID spec ∈ B) ->
  moves o (foldl applySpec o specs).
Proof.
  intros HI HF HB. revert o HI. induction specs as [|spec specs IH]; intros o HI; [apply moves_refl|].
  inversion_clear HF. cbn [foldl]. eapply moves_then; [exact HI|apply moves_applySpec; [done|done|apply HB; left]|].
  apply IH; [done|]. intros s Hs. apply HB. by right.
Qed.

(** The base specs of a push, by ID. *)
Definition bases_ok (bases : gmap string Spec) : Prop :=
  forall b base, bases !! b = Some base -> spec_ID base = b /\ b <> "" /\ b ∈ B.

(** The push does not make a burst instance of one whose failed start is still being torn
    down while requests wait for it that no retry is noted for. *)
Definition calm (bases : gmap string Spec) (st : specState) : Prop :=
  calm_pushes = true -> forall base, bases !! spec_InstanceOf (st_spec st) = Some base ->
    st_instance st <> 0 -> has_proc st = true -> st_state st = StateStartFailed ->
    IsBurst base (st_instance st) = true ->
    burst st = true \/ st_backoffOnExit st = true \/ st_pending st = [].

(** A burst instance without a process drops its wait. *)
Definition dropWait (id : string) (st : specState) (o : owner) : owner :=
  let o := cancelTimer (st_backoffTimer st) o in
  let o := upd id (fun st => st <| st_backoffTimer := None |>) o in
  if decide (st_state st = StateBackoff) then setState id StateStopped o else o.

Lemma lc_dropWait id st o :
  o_specs o !! id = Some st -> lc id (retried (abs st)) [] o (dropWait id st o).
Proof.
  intros Hst. assert (HL : lc id ((abs st) <| r_backoff := false |>) [] o
    (upd id (fun st => st <| st_backoffTimer := None |>) (cancelTimer (st_backoffTimer st) o))).
  { apply (lc_after_quiet _ (abs st) _ _ _ (cancelTimer (st_backoffTimer st) o));
      [apply quiet_cancelTimer|by eexists|].
    by apply (lc_upd id _ (fun r => r <| r_backoff := false |>)). }
  unfold dropWait, retried. change (r_state (abs st)) with (st_state st).
  case_decide; [|exact HL]. eapply lc_then_nil; [exact HL|apply lc_setState].
Qed.

Lemma moves_dropWait id st o : o_specs o !! id = Some st -> moves o (dropWait id st o).
Proof.
  intros Hst. eapply moves_local; [by exists st|by apply lc_dropWait|apply local_ok_retried|apply row_ok_retried].
Qed.

(** The spec a push gives a further instance. *)
Lemma reconcilable_further bases id st base :
  bases_ok bases -> bases !! spec_InstanceOf (st_spec st) = Some base -> st_instance st <> 0 ->
  instance_ok id (st_spec st) (st_instance st) -> calm bases st ->
  spec_ID (specForInstance base (st_instance st)) = id
  /\ reconcilable id (specForInstance base (st_instance st)) (abs st).
Proof.
  intros HBs Hb Hk [_ OI] HCm. destruct (HBs _ _ Hb) as (Hid & Hne & HB).
  rewrite decide_False in OI by done. destruct OI as (Hpos & Hof & Hkey).
  assert (Hinst : instance_ok id (specForInstance base (st_instance st)) (st_instance st))
    by (rewrite Hkey, <- Hid; apply instance_ok_further; [congruence|done]).
  assert (HsB : specBase (specForInstance base (st_instance st)) = spec_InstanceOf (st_spec st)).
  { unfold specForInstance. destruct (Z.eqb_spec (st_instance st) 0); [done|].
    unfold specBase. simpl. apply String.eqb_neq in Hof. by rewrite Hid, Hof. }
  split; [apply Hinst|]. split; simpl; rewrite ?HsB; try done.
  - unfold specBase. apply String.eqb_neq in Hof. by rewrite Hof.
  - intros Hcalm Hl Hs Hbu. unfold specForInstance in Hbu. destruct (Z.eqb_spec (st_instance st) 0); [done|].
    assert (Hproc : has_proc st = true).
    { unfold has_proc. destruct (st_proc st); [done|]. by apply is_Some_None in Hl. }
    destruct (HCm Hcalm base Hb Hk Hproc Hs Hbu) as [?|[?|Hq]]; [by left|by right; left|]. right. right. simpl. by rewrite Hq.
Qed.

Lemma moves_applyInstance bases id o :
  Inv o -> bases_ok bases -> (forall st, o_specs o !! id = Some st -> calm bases st) ->
  moves o (applyInstance bases id o).
Proof.
  intros HI HBs HCm. unfold applyInstance. destruct (o_specs o !! id) as [st|] eqn:Hst; [|apply moves_refl].
  destruct (Z.eqb_spec (st_instance st) 0) as [|Hk]; [apply moves_refl|].
  destruct (bases !! spec_InstanceOf (st_spec st)) as [base|] eqn:Hb; [|apply moves_refl].
  case_match; [by apply moves_removeState|]. case_match; [by apply moves_removeState|].
  set (st1 := st <| st_removed := false |>).
  set (o1 := upd id (fun st => st <| st_removed := false |>) o).
  assert (Hst1 : o_specs o1 !! id = Some st1)
    by (unfold o1; rewrite (specs_upd _ _ _ _ Hst); apply lookup_insert_eq).
  eapply moves_then; [exact HI|apply moves_unremove|]. fold o1. intros I1.
  destruct (reconcilable_further bases id st1 base HBs Hb Hk) as [HsID HRc];
    [apply (ok_id _ _ _ _ _ (inv_rows _ _ _ _ I1 _ _ Hst1))|exact (HCm _ eq_refl)|].
  change (st_instance st1) with (st_instance st) in *.
  case_match eqn:Hcase.
  2:{ apply moves_reconcileSpec; [|done]. intros r Hr. by rewrite <- (has_row_lookup _ _ _ _ Hr Hst1). }
  apply andb_true_iff in Hcase as [_ Hp%negb_true_iff].
  change (if decide (st_state st = StateBackoff) then _ else _) with (dropWait id st1 o1).
  pose proof (lc_dropWait id st1 o1 Hst1) as HL2. destruct (lc_has_row _ _ _ _ _ HL2) as (st2 & Hst2 & A2).
  eapply moves_then; [exact I1|by apply moves_dropWait|]. intros I2. case_match.
  - eapply moves_retire; [exact Hst2|]. apply (f_equal r_queue) in A2.
    assert (E : r_queue (retried (abs st1)) = r_queue (abs st1)) by (unfold retried; by case_decide).
    rewrite E in A2. simpl in A2. unfold has_pending in *. destruct (st_pending st), (st_pending st2); done.
  - apply moves_reconcileSpec; [|done]. intros r Hr. rewrite <- (has_row_lookup _ _ _ _ Hr Hst2), A2.
    destruct HRc as [RI RB RP _]. assert (r_spec (retried (abs st1)) = st_spec st1
      /\ r_instance (retried (abs st1)) = st_instance st1) as [E1 E2] by (unfold retried; by case_decide).
    split; rewrite ?E1, ?E2; try done.
    assert (r_proc (abs st1) = None) as Hn
      by (rewrite <- live_abs in Hp; unfold live_row in Hp; simpl in *; by destruct (st_proc st)).
    assert (r_proc (retried (abs st1)) = None) as -> by (unfold retried; by case_decide).
    by intros _ ?%is_Some_None.
Qed.

End apply_steps.

(** ** Operations that touch one row only *)

Definition own (id : string) (o o' : owner) : Prop :=
  forall k, k <> id -> o_specs o' !! k = o_specs o !! k.

Global Instance own_preorder id : PreOrder (own id).
Proof. split; [done|]. intros o1 o2 o3 H1 H2 k Hk. by rewrite H2, H1. Qed.

Lemma own_quiet id o o' : quiet o o' -> own id o o'.
Proof. intros Hq k _. by rewrite (quiet_specs _ _ Hq). Qed.

Lemma own_upd id f o : own id o (upd id f o).
Proof. intros k Hk. unfold upd. simpl. by rewrite lookup_alter_ne. Qed.

Section own_steps.
Context `{Unicode} `{World} {CP : Calm}.

Lemma own_lc id o o' :
  (forall r, has_row o id r -> exists r' es, lc id r' es o o') ->
  (o_specs o !! id = None -> o' = o) -> own id o o'.
Proof.
  intros Hsome Hnone k Hk. destruct (o_specs o !! id) as [st|] eqn:Hst.
  - destruct (Hsome (abs st)) as (r' & es & HL); [by exists st|]. by eapply lc_ne.
  - by rewrite Hnone.
Qed.

Lemma own_setState id s o : own id o (setState id s o).
Proof.
  apply own_lc; [intros r Hr; eexists _, _; by apply lc_setState|]. unfold setState. by intros ->.
Qed.

Lemma own_failPending id err o : own id o (failPending id err o).
Proof.
  apply own_lc; [intros r Hr; eexists _, _; by apply lc_failPending|]. unfold failPending. by intros ->.
Qed.

Lemma own_beginDrain id o : own id o (beginDrain id o).
Proof.
  apply own_lc; [|unfold beginDrain; by intros ->].
  intros r Hr. destruct (lc_beginDrain id r o Hr) as (r' & es & _ & HL). eauto.
Qed.

Lemma own_deleteState id o : own id o (deleteState id o).
Proof. intros k Hk. simpl. by rewrite lookup_delete_ne. Qed.

Lemma own_retire id o : own id o (retire id o).
Proof.
  unfold retire. case_match; [|done]. etrans; [apply own_quiet, quiet_cancelTimer|apply own_deleteState].
Qed.

Lemma own_removeState id o : own id o (removeState id o).
Proof.
  unfold removeState. case_match; [|done]. case_match.
  - etrans; [apply own_upd|apply own_beginDrain].
  - etrans; [apply own_quiet, quiet_cancelTimer|]. etrans; [apply own_failPending|apply own_deleteState].
Qed.

Lemma own_reconcileSpec id spec o : spec_ID spec = id -> own id o (reconcileSpec id spec o).
Proof.
  intros Hid. unfold reconcileSpec. case_match; [|done].
  etrans; [apply (own_upd id (fun st => st <| st_spec := spec |>))|]. set (o1 := upd _ _ _).
  assert (Hback : own id o1 (setState id StateStopped
    (upd id (fun st => st <| st_backoffTimer := None |>) (cancelTimer (st_backoffTimer s) o1)))).
  { etrans; [apply own_quiet, quiet_cancelTimer|]. etrans; [apply own_upd|apply own_setState]. }
  repeat case_match; try done; rewrite ?Hid; first [apply own_setState|apply own_beginDrain|exact Hback].
Qed.

Lemma own_applySpec spec o : own (spec_ID spec) o (applySpec o spec).
Proof.
  unfold applySpec. case_match.
  - etrans; [apply own_upd|by apply own_reconcileSpec].
  - destruct (read world_now o) as [now o1] eqn:E. apply quiet_read_eq in E.
    intros k Hk. simpl. by rewrite lookup_insert_ne, (quiet_specs _ _ E).
Qed.

Lemma own_dropWait id st o : own id o (dropWait id st o).
Proof.
  unfold dropWait. etrans; [apply own_quiet, quiet_cancelTimer|].
  case_decide; [etrans; [apply own_upd|apply own_setState]|apply own_upd].
Qed.

Lemma own_applyInstance bases id o B c R :
  Inv B c R o -> bases_ok B bases -> own id o (applyInstance bases id o).
Proof.
  intros HI HBs. unfold applyInstance. destruct (o_specs o !! id) as [st|] eqn:Hst; [|done].
  destruct (Z.eqb_spec (st_instance st) 0) as [|Hk]; [done|].
  destruct (bases !! _) as [base|] eqn:Hb; [|done].
  case_match; [apply own_removeState|]. case_match; [apply own_removeState|].
  assert (HsID : spec_ID (specForInstance base (st_instance st)) = id).
  { destruct (ok_id _ _ _ _ _ (inv_rows _ _ _ _ HI _ _ Hst)) as [_ OI]. simpl in OI.
    rewrite decide_False in OI by done. destruct OI as (_ & _ & ->). destruct (HBs _ _ Hb) as (<- & _).
    unfold specForInstance. by destruct (Z.eqb_spec (st_instance st) 0). }
  etrans; [apply (own_upd id (fun st => st <| st_removed := false |>))|]. set (o1 := upd _ _ o).
  case_match; [|by apply own_reconcileSpec].
  etrans; [apply (own_dropWait id st)|]. case_match; [apply own_retire|by apply own_reconcileSpec].
Qed.

End own_steps.
