(* ===== verification/ManagerPush.v ===== *)
(** * The runtime manager: whole pushes and shutdown *)

From Stdlib Require Import ZArith Lia Ascii.
From stdpp Require Import base tactics option list numbers strings pretty gmap relations.
From S2P Require Import Prelude RuntimeTypes RuntimeTypesProps Policy.
From S2P Require Import Manager ManagerAdmit ManagerTurns ManagerSteps ManagerMoves ManagerAdmitSteps.
From S2P Require Import ManagerLedger ManagerTurnSteps ManagerEventSteps ManagerExitSteps ManagerApplySteps.
Local Open Scope Z_scope.
Local Open Scope go_scope.

(** ** The base specs of a push *)

Definition bases_of (specs : list Spec) : gmap string Spec :=
  foldl (fun m spec => <[spec_ID spec := spec]> m) ∅ specs.

Lemma bases_of_lookup specs b base :
  bases_of specs !! b = Some base -> base ∈ specs /\ spec_ID base = b.
Proof.
  unfold bases_of.
  enough (Hgo : forall l (m : gmap string Spec),
    (forall b base, m !! b = Some base -> base ∈ specs /\ spec_ID base = b) ->
    (forall s, s ∈ l -> s ∈ specs) ->
    forall b base, foldl (fun m spec => <[spec_ID spec := spec]> m) m l !! b = Some base ->
      base ∈ specs /\ spec_ID base = b) by (apply Hgo; done).
  induction l as [|s l IH]; intros m Hm Hl; [done|]. cbn [foldl]. apply IH.
  - intros b' base'. rewrite lookup_insert_Some. intros [[<- <-]|[_ ?]]; [|by apply Hm].
    split; [apply Hl; left|done].
  - intros s' Hs'. apply Hl. by right.
Qed.

Lemma bases_of_dom specs spec : spec ∈ specs -> spec_ID spec ∈ dom (bases_of specs).
Proof.
  unfold bases_of. intros Hin.
  enough (Hgo : forall l (m : gmap string Spec), spec_ID spec ∈ dom m \/ spec ∈ l ->
    spec_ID spec ∈ dom (foldl (fun m s => <[spec_ID s := s]> m) m l)) by (apply Hgo; auto).
  induction l as [|s l IH]; intros m Hm; cbn [foldl].
  - by destruct Hm as [?|?%not_elem_of_nil].
  - apply IH. rewrite dom_insert. destruct Hm as [?|[->|?]%elem_of_cons]; set_solver.
Qed.

Lemma bases_of_ok specs : Forall pushed_ok specs -> bases_ok (dom (bases_of specs)) (bases_of specs).
Proof.
  intros HF b base Hb. destruct (bases_of_lookup _ _ _ Hb) as [Hin Hid].
  rewrite Forall_forall in HF. destruct (HF _ Hin) as (_ & Hne & _).
  split_and!; [done|congruence|]. by apply elem_of_dom_2 in Hb.
Qed.

Definition calm_rows {CP : Calm} (bases : gmap string Spec) (o : owner) : Prop :=
  forall id st, o_specs o !! id = Some st -> calm bases st.

Lemma calm_own {CP : Calm} bases id o o' :
  calm_rows bases o -> own id o o' -> (forall st, o_specs o' !! id = Some st -> calm bases st) ->
  calm_rows bases o'.
Proof.
  intros HC HO Hid k st. destruct (decide (k = id)) as [->|Hk]; [apply Hid|]. rewrite HO by done. apply HC.
Qed.

Section push.
Context `{Unicode} `{World} {CP : Calm} (c : bool) (γ : ghost) (specs : list Spec).
Context (Hpush : Forall pushed_ok specs).

Let bases := bases_of specs.
Let B := dom bases.
Let Hbases : bases_ok B bases := bases_of_ok specs Hpush.

Notation Sound := (Sound B c γ).

Lemma Sound_applySpecs o :
  Sound o -> calm_rows bases o -> Sound (foldl applySpec o specs) /\ calm_rows bases (foldl applySpec o specs).
Proof.
  enough (Hgo : forall l o, (forall s, s ∈ l -> s ∈ specs) -> Sound o -> calm_rows bases o ->
    Sound (foldl applySpec o l) /\ calm_rows bases (foldl applySpec o l)) by (by apply Hgo).
  clear o. induction l as [|s l IH]; intros o Hl HS HC; [done|]. cbn [foldl].
  assert (Hps : pushed_ok s) by (pose proof Hpush as HF; rewrite Forall_forall in HF; apply HF, Hl; left).
  assert (S1 : Sound (applySpec o s)).
  { eapply Sound_moves; [|exact HS]. eapply moves_applySpec; [apply HS|done|].
    apply bases_of_dom, Hl. by left. }
  apply IH; [intros s' Hs'; apply Hl; by right|done|].
  eapply calm_own; [exact HC|apply own_applySpec|]. intros st Hst _ base _ Hk.
  destruct (instance_ok_base _ _ _ (ok_id _ _ _ _ _ (inv_rows _ _ _ _ (sd_inv _ _ _ _ S1) _ _ Hst))) as [Hz _];
    [apply Hps|done].
Qed.

Definition dropUnpushed (id : string) (o : owner) : owner :=
  match o_specs o !! id with
  | Some st => if has_key bases (specBase (st_spec st)) then o else removeState id o
  | None => o
  end.

Lemma removeState_row id o st st' :
  o_specs o !! id = Some st -> o_specs (removeState id o) !! id = Some st' -> st_removed st' = true.
Proof.
  intros Hst. unfold removeState. rewrite Hst. destruct (has_proc st) eqn:Hp.
  - assert (HL : lc id ((abs st) <| r_removed := true |>) [] o (upd id (fun st => st <| st_removed := true |>) o))
      by (apply (lc_upd id _ (fun r => r <| r_removed := true |>)); [done|by exists st]).
    destruct (lc_beginDrain id _ _ (lc_has_row _ _ _ _ _ HL)) as (r' & es & HD & HB).
    intros Hst'. pose proof (has_row_lookup _ _ _ _ (lc_has_row _ _ _ _ _ HB) Hst') as A.
    change (st_removed st') with (r_removed (abs st')). rewrite A. by destruct HD.
  - unfold deleteState, signalTransition. simpl. by rewrite lookup_delete_eq.
Qed.

Lemma Sound_dropUnpushed id o :
  Sound o -> calm_rows bases o -> Sound (dropUnpushed id o) /\ calm_rows bases (dropUnpushed id o).
Proof.
  intros HS HC. unfold dropUnpushed. destruct (o_specs o !! id) as [st|] eqn:Hst; [|done].
  case_match; [done|].
  assert (S1 : Sound (removeState id o)) by (eapply Sound_moves, HS; eapply moves_removeState, HS).
  split; [done|]. eapply calm_own; [exact HC|apply own_removeState|].
  intros st' Hst' _ base _ _ _ Hs _. exfalso.
  destruct (ok_removed _ _ _ _ _ (inv_rows _ _ _ _ (sd_inv _ _ _ _ S1) _ _ Hst')) as [_ Hd];
    [exact (removeState_row id o st st' Hst Hst')|]. simpl in Hd. congruence.
Qed.

Lemma Sound_dropAll ids o :
  Sound o -> calm_rows bases o ->
  Sound (for_each ids dropUnpushed o) /\ calm_rows bases (for_each ids dropUnpushed o).
Proof.
  unfold for_each. revert o. induction ids as [|id ids IH]; intros o HS HC; [done|]. cbn [foldl].
  destruct (Sound_dropUnpushed id o HS HC). by apply IH.
Qed.

Lemma Sound_applyInstances ids o :
  NoDup ids -> Sound o -> (forall id st, id ∈ ids -> o_specs o !! id = Some st -> calm bases st) ->
  Sound (for_each ids (applyInstance bases) o).
Proof.
  unfold for_each. revert o. induction ids as [|id ids IH]; intros o HN HS HC; [done|]. cbn [foldl].
  inversion_clear HN as [|? ? Hn HN']. apply IH; [done| |].
  - eapply Sound_moves; [|exact HS]. eapply moves_applyInstance; [apply HS|done|].
    intros st. apply HC. by left.
  - intros k st Hk. rewrite (own_applyInstance bases id o B c _ (sd_inv _ _ _ _ HS) Hbases).
    + apply HC. by right.
    + intros ->. done.
Qed.

(** ** The last loop: what is force-stopped drains *)

Definition drainForced (id : string) (o : owner) : owner :=
  match o_specs o !! id with
  | None => o
  | Some st =>
      if st_removed st || negb (has_key bases (specBase (st_spec st))) then o
      else if String.eqb (spec_AdminState (st_spec st)) "force_stopped" && has_proc st
      then beginDrain id o else o
  end.

Lemma collectStart_owner start o ids :
  (foldl (collectStart bases) (start, o) ids).2 = for_each ids drainForced o.
Proof.
  unfold for_each. revert start o. induction ids as [|id ids IH]; intros start o; [done|]. cbn [foldl].
  assert (E : exists start', collectStart bases (start, o) id = (start', drainForced id o)).
  { unfold collectStart, drainForced. destruct (o_specs o !! id) as [st|]; [|by eexists].
    case_match; [by eexists|]. destruct (String.eqb _ _); cbn [andb]; [by eexists|]. case_match; by eexists. }
  destruct E as (start' & ->). apply IH.
Qed.

Lemma beginDrain_draining id o st :
  o_specs (beginDrain id o) !! id = Some st -> has_proc st = true -> st_state st = StateDraining.
Proof.
  destruct (o_specs o !! id) as [st0|] eqn:Hst0; [|unfold beginDrain; by rewrite Hst0, Hst0].
  destruct (lc_beginDrain id (abs st0) o) as (r' & es & HD & HB); [by exists st0|].
  intros Hst. pose proof (has_row_lookup _ _ _ _ (lc_has_row _ _ _ _ _ HB) Hst) as A.
  rewrite <- live_abs, A. change (st_state st) with (r_state (abs st)). rewrite A. unfold live_row.
  destruct HD as [[->| ->]|b Hl Hb|g h t Hl]; done.
Qed.

Lemma Sound_drainForced ids o :
  Sound o -> (forall id, is_Some (o_specs o !! id) -> id ∈ ids) ->
  ManagerLedger.Sound ∅ c γ (for_each ids drainForced o).
Proof.
  intros HS Hall.
  assert (HQ : forall id o, Sound o -> Sound (drainForced id o)).
  { intros id o1 S1. eapply Sound_moves; [|exact S1]. unfold drainForced.
    repeat case_match; first [apply moves_refl|apply moves_beginDrain]. }
  assert (HO : forall id o, own id o (drainForced id o)).
  { intros id o1. unfold drainForced. repeat case_match; first [done|apply own_beginDrain]. }
  assert (HS' : Sound (for_each ids drainForced o)).
  { clear Hall. unfold for_each. revert o HS. induction ids; intros o HS; [done|]. cbn [foldl]. auto. }
  eapply Sound_rows; [|apply HS'|exact HS']. intros id st Hst Hok. apply (row_ok_settle B); [done|].
  intros Hl. revert id st Hst Hok Hl.
  assert (Hrows : forall id st, o_specs (for_each ids drainForced o) !! id = Some st ->
    has_proc st = true -> spec_AdminState (st_spec st) = "force_stopped" -> st_state st = StateDraining).
  { apply (for_each_rows Sound (fun st => has_proc st = true ->
      spec_AdminState (st_spec st) = "force_stopped" -> st_state st = StateDraining)); [..|done|done].
    - intros id o1 k _ Hk. by apply HO.
    - done.
    - intros id o1 st S1 Hst Hp Ha. pose proof (sd_inv _ _ _ _ (HQ id o1 S1)) as I1.
      pose proof (inv_rows _ _ _ _ I1 _ _ Hst) as HR.
      assert (Hl : is_Some (r_proc (abs st))).
      { rewrite <- live_abs in Hp. unfold live_row in Hp. by destruct (r_proc (abs st)). }
      unfold drainForced in Hst. destruct (o_specs o1 !! id) as [st1|] eqn:Hst1; [|congruence].
      destruct (st_removed st1 || _) eqn:E1.
      + assert (st1 = st) as -> by congruence. apply orb_true_iff in E1 as [E1|E1].
        * apply (ok_removed _ _ _ _ _ HR E1).
        * apply (ok_forced _ _ _ _ _ HR Hl Ha). by apply negb_true_iff, has_key_false in E1.
      + destruct (String.eqb _ _ && has_proc st1) eqn:E2; [by eapply beginDrain_draining|].
        assert (st1 = st) as -> by congruence. rewrite Hp, andb_true_r, Ha in E2. done. }
  intros id st Hst _ Hl. apply (Hrows id st Hst). rewrite <- live_abs. unfold live_row.
  destruct (r_proc (abs st)); [done|]. by apply is_Some_None in Hl.
Qed.

End push.

(** ** Applying a configuration *)

(** What a decoded configuration satisfies: its specs are named and are no instances. *)
Definition pushable (cfg : Config) : Prop :=
  Forall (fun spec => spec_InstanceOf spec = "" /\ spec_ID spec <> "") (cfg_Specs cfg).

Definition pushed_specs (cfg : Config) : list Spec := withoutReservedSpecIDs (cfg_Specs cfg).

Lemma pushed_specs_ok cfg : pushable cfg -> Forall pushed_ok (pushed_specs cfg).
Proof.
  unfold pushable, pushed_specs. rewrite withoutReservedSpecIDs_filter, !Forall_forall. intros HP spec.
  intros [Hin Hr]%elem_of_filter_bool. destruct (HP _ Hin) as [? ?].
  split_and!; [done|done|]. by apply negb_true_iff.
Qed.

Section apply.
Context `{Unicode} `{World} {CP : Calm} (c : bool) (γ : ghost).

Lemma Sound_assign B cfg pairs o :
  Sound ∅ c γ o -> Forall pushed_ok (cfg_Specs cfg) -> gh_first γ = o_nextProc o -> within (gh_bound γ) o ->
  Sound B c γ (o <| o_cfg := cfg |> <| o_allowedPairs := pairs |>).
Proof.
  intros [[IR ID IG IC ICF IIX IRP] HA [HZ HF HB] [HS1 HS2] HCl HSt HLa HC HW] HP Hg HN. split; try done.
  - split; try done. intros id st Hst. eapply row_ok_weaken; [|by apply IR]. set_solver.
  - intros id1 id2 st1 st2 g1 g2 h1 h2 _ _ Hst2 Hp2 _ Hge.
    destruct (ok_live _ _ _ _ _ (IR _ _ Hst2) _ _ Hp2) as [Hlt _]. rewrite Hg in Hge. lia.
Qed.

Lemma Sound_applyConfig cfg o :
  Sound ∅ c γ o -> pushable cfg -> calm_rows (bases_of (pushed_specs cfg)) o ->
  gh_first γ = o_nextProc o -> within (gh_bound γ) o -> Sound ∅ c γ (applyConfig cfg o).
Proof.
  intros HS HP HC Hg HN. unfold applyConfig. cbv zeta. fold (pushed_specs cfg).
  case_match; [done|]. clear H1.
  pose proof (pushed_specs_ok cfg HP) as Hpush. fold (bases_of (pushed_specs cfg)).
  set (specs := pushed_specs cfg) in *. set (bases := bases_of specs) in *. set (B := dom bases).
  set (o1 := o <| o_cfg := _ |> <| o_allowedPairs := _ |>).
  assert (S1 : Sound B c γ o1) by (by apply Sound_assign).
  destruct (Sound_applySpecs c γ specs Hpush o1 S1 HC) as [S2 C2]. set (o2 := foldl applySpec o1 specs) in *.
  destruct (range_specs o2) as [ids3 o3] eqn:E3. apply range_specs_eq in E3 as [_ E3].
  assert (S3 : Sound B c γ o3) by (eapply Sound_moves, S2; by apply moves_quiet).
  assert (C3 : calm_rows bases o3) by (unfold calm_rows; by rewrite (quiet_specs _ _ E3)).
  destruct (Sound_dropAll c γ specs ids3 o3 S3 C3) as [S4 C4].
  change (for_each ids3 (fun id o => match o_specs o !! id with Some st => _ | None => o end) o3)
    with (for_each ids3 (dropUnpushed specs) o3).
  set (o4 := for_each ids3 (dropUnpushed specs) o3) in *.
  assert (S5 : Sound B c γ (rebuildUpstreamIndex o4))
    by (eapply Sound_moves, S4; eapply moves_rebuildUpstreamIndex, S4).
  assert (E5 : o_specs (rebuildUpstreamIndex o4) = o_specs o4) by done.
  set (o5 := rebuildUpstreamIndex o4) in *.
  destruct (range_specs o5) as [ids6 o6] eqn:E6. apply range_specs_eq in E6 as [P6 E6].
  assert (S6 : Sound B c γ o6) by (eapply Sound_moves, S5; by apply moves_quiet).
  assert (S7 : Sound B c γ (for_each ids6 (applyInstance bases) o6)).
  { apply (Sound_applyInstances c γ specs Hpush); [|done|].
    - rewrite P6. apply NoDup_fst_map_to_list.
    - intros id st _. rewrite (quiet_specs _ _ E6), E5. apply C4. }
  set (o7 := for_each ids6 (applyInstance bases) o6) in *.
  assert (S8 : Sound B c γ (ensureProtectedFloor o7))
    by (eapply Sound_moves, S7; eapply moves_ensureProtectedFloor, S7).
  set (o8 := ensureProtectedFloor o7) in *.
  assert (S9 : Sound B c γ (emit (RetainLogs (map_to_list bases).*1) o8))
    by (eapply Sound_moves, S8; by apply moves_quiet, quiet_emit).
  set (o9 := emit _ o8) in *. destruct (range_specs o9) as [ids10 o10] eqn:E10.
  pose proof (range_all _ _ _ E10) as Hall. apply range_specs_eq in E10 as [_ E10].
  assert (S10 : Sound B c γ o10) by (eapply Sound_moves, S9; by apply moves_quiet).
  pose proof (Sound_drainForced c γ specs ids10 o10 S10 Hall) as S11.
  pose proof (collectStart_owner specs [] o10 ids10) as Ecs. fold bases in Ecs.
  destruct (foldl (collectStart bases) ([], o10) ids10) as [start o11]. cbn [snd] in Ecs. subst o11.
  set (o11 := for_each ids10 (drainForced specs) o10) in *.
  assert (S12 : Sound ∅ c γ (for_each (sortInstanceOrder o11 start) reask o11)).
  { eapply Sound_moves, S11. eapply (moves_for_each ∅ c); [apply moves_reask|apply S11]. }
  eapply Sound_moves, S12. eapply moves_wakeAdmission, S12.
Qed.

End apply.

(** ** Shutdown *)

(** Shutdown has begun. *)
Definition closes (γ : ghost) : ghost :=
  mkGhost (gh_reported γ) (gh_asked γ) (gh_released γ) true (gh_stopped γ) (gh_launched γ)
    (gh_first γ) (gh_bound γ).

Section close.
Context `{Unicode} `{World} {CP : Calm} (γ : ghost).

(** The loop body of [handleClose]. *)
Definition closeRow (id : string) (o : owner) : owner :=
  match o_specs o !! id with
  | None => o
  | Some st =>
      let o := if decide (st_state st = StateBackoff) then dropWait id st o else o in
      let o := failPending id ErrManagerClosed o in
      if has_proc st then beginDrain id o else o
  end.

Lemma handleClose_rows o :
  handleClose o =
    let o := (clearGraceTimer (o <| o_closing := true |>)) <| o_graceTimerAt := time_zero |> in
    let '(ids, o) := range_specs o in for_each ids closeRow o.
Proof.
  unfold handleClose. cbv zeta. destruct (range_specs _) as [ids o1]. unfold for_each.
  revert o1. induction ids as [|id ids IH]; intros o1; [done|]. cbn [foldl]. rewrite <- IH. f_equal.
  unfold closeRow, dropWait. destruct (o_specs o1 !! id) as [st|]; [|done]. cbv zeta. by case_decide.
Qed.

Lemma moves_closeRow id o : moves ∅ false o (closeRow id o).
Proof.
  unfold closeRow. destruct (o_specs o !! id) as [st|] eqn:Hst; [|apply moves_refl]. cbv zeta.
  set (o1 := if decide _ then _ else o).
  assert (M1 : moves ∅ false o o1) by (subst o1; case_decide; [by apply moves_dropWait|apply moves_refl]).
  eapply moves_trans; [exact M1|]. eapply moves_trans; [apply moves_failPending|].
  case_match; [apply moves_beginDrain|apply moves_refl].
Qed.

Definition closed_row (r : row) : Prop :=
  r_queue r = [] /\ (is_Some (r_proc r) -> r_state r = StateDraining) /\ r_state r <> StateBackoff.

Lemma lc_closeRow id st o :
  o_specs o !! id = Some st -> exists r' es, lc id r' es o (closeRow id o) /\ closed_row r'.
Proof.
  intros Hst. unfold closeRow. rewrite Hst. cbv zeta.
  set (o1 := if decide _ then _ else o).
  set (r1 := if decide (st_state st = StateBackoff) then retried (abs st) else abs st).
  assert (L1 : lc id r1 [] o o1).
  { subst o1 r1. case_decide; [by apply lc_dropWait|apply lc_refl; by exists st]. }
  pose proof (lc_failPending id ErrManagerClosed _ _ (lc_has_row _ _ _ _ _ L1)) as L2.
  assert (L3 : lc id (r1 <| r_queue := [] |>) (refusals (r_queue r1) ErrManagerClosed) o
            (failPending id ErrManagerClosed o1)) by (by eapply lc_nil_then; [exact L1|]).
  assert (r_proc r1 = r_proc (abs st) /\ r_state r1 <> StateBackoff) as [Hp1 Hs1].
  { subst r1. unfold retried. change (r_state (abs st)) with (st_state st). repeat case_decide; done. }
  destruct (has_proc st) eqn:Hp; rewrite <- live_abs in Hp; unfold live_row in Hp.
  - destruct (lc_beginDrain id _ _ (lc_has_row _ _ _ _ _ L3)) as (r' & es & HD & LB).
    eexists _, _. split; [exact (lc_trans _ _ _ _ _ _ _ _ L3 LB)|].
    destruct HD as [[Hn|Hd]|b Hl Hb|g h t Hl]; try (by split_and!).
    exfalso. simpl in Hn. rewrite Hp1 in Hn. by rewrite Hn in Hp.
  - eexists _, _. split; [exact L3|]. split_and!; [done| |done]. simpl. rewrite Hp1.
    by intros [x Hx]; rewrite Hx in Hp.
Qed.

Lemma Sound_closing c o :
  Sound ∅ c γ o -> launched (observe o) = gh_launched γ -> Sound ∅ false (closes γ) (o <| o_closing := true |>).
Proof.
  intros [[IR ID IG IC ICF IIX IRP] HA [HZ HF HB] [HS1 HS2] HCl HSt HLa HC HW] HL. split; try done.
  split; try done. intros id st Hst. eapply row_ok_open. by apply IR.
Qed.

Lemma Sound_handleClose c o :
  Sound ∅ c γ o -> launched (observe o) = gh_launched γ -> Sound ∅ true (closes γ) (handleClose o).
Proof.
  intros HS HLa. rewrite handleClose_rows. cbv zeta.
  set (o1 := (clearGraceTimer _) <| o_graceTimerAt := time_zero |>).
  assert (ST : still (o <| o_closing := true |>) o1)
    by (eapply still_trans; [apply still_clearGraceTimer|by split]).
  assert (S1 : Sound ∅ false (closes γ) o1)
    by (eapply Sound_moves; [by apply moves_still|by eapply Sound_closing]).
  destruct (range_specs o1) as [ids o2] eqn:E. pose proof (range_all _ _ _ E) as Hall.
  apply range_specs_eq in E as [_ E].
  assert (S2 : Sound ∅ false (closes γ) o2) by (eapply Sound_moves, S1; by apply moves_quiet).
  assert (M3 : moves ∅ false o2 (for_each ids closeRow o2)).
  { eapply (moves_for_each ∅ false); [intros; apply moves_closeRow|apply S2]. }
  assert (HC : o_closing (for_each ids closeRow o2) = true).
  { rewrite (moves_closing _ _ _ _ M3), (sg_closing _ _ (quiet_globals _ _ E)), (still_closing _ _ ST). done. }
  pose proof (Sound_moves _ _ _ _ _ M3 S2) as S3.
  eapply Sound_rows; [|done|exact S3]. intros id st Hst Hok.
  assert (closed_row (abs st)) as (Hq & Hd & Hb); [|by apply row_ok_closed].
  revert id st Hst Hok. enough (Hr : forall id st, o_specs (for_each ids closeRow o2) !! id = Some st ->
    closed_row (abs st)) by eauto.
  apply (for_each_rows (fun _ => True) (fun st => closed_row (abs st))); try done.
  - intros id o3 k _ Hk. destruct (o_specs o3 !! id) as [st|] eqn:Hst.
    + destruct (lc_closeRow id st o3 Hst) as (r' & es & HL & _). by eapply lc_ne.
    + unfold closeRow. by rewrite Hst.
  - intros id o3 st _ Hst. destruct (o_specs o3 !! id) as [st3|] eqn:Hst3.
    + destruct (lc_closeRow id st3 o3 Hst3) as (r' & es & HL & Hcl).
      by rewrite (has_row_lookup _ _ _ _ (lc_has_row _ _ _ _ _ HL) Hst).
    + unfold closeRow in Hst. rewrite Hst3 in Hst. congruence.
Qed.

End close.
