(* ===== verification/ManagerRuns.v ===== *)
(** * The runtime manager: runs

    A run is a list of events from the manager's first state.  [book] is what happened so
    far as the outside knows it, [obeys] what the outside promises: a start is reported
    once, a grace period expires only after it was scheduled, a release follows the
    request it ends, a push holds named base specs ([promises]).  Every turn of such a run
    keeps the invariant and the books of processes and in-flight counts.

    The books of requests are kept of runs whose pushes are calm besides ([protocol]): none
    demotes an instance to a burst instance while its failed start is still torn down,
    requests wait for it and no retry is noted for its exit.  Between such a push and the
    end of the exit's turn a failed burst instance has a queue, and a failed burst instance
    is what [instanceForRequest] drops; that the exit's turn itself starts the instance or
    answers its queue is not proved. *)

From Stdlib Require Import ZArith Lia Ascii.
From stdpp Require Import base tactics option list numbers strings pretty gmap relations.
From S2P Require Import Prelude RuntimeTypes RuntimeTypesProps Policy.
From S2P Require Import Manager ManagerAdmit ManagerTurns ManagerSteps ManagerMoves ManagerAdmitSteps.
From S2P Require Import ManagerLedger ManagerTurnSteps ManagerEventSteps ManagerExitSteps ManagerApplySteps ManagerPush.
Local Open Scope Z_scope.
Local Open Scope go_scope.

(** ** What the outside knows and promises *)

Record book := mkBook {
  bk_reported : list generation;   (* starts whose outcome was reported *)
  bk_asked : list channel;         (* requests, newest first *)
  bk_released : list generation    (* releases of requests of a live generation *)
}.

Definition emptyBook : book := mkBook [] [] [].

Definition releases (g : generation) (b : book) : Z :=
  Z.of_nat (length (List.filter (Nat.eqb g) (bk_released b))).

Section runs.
Context `{Unicode} `{World} {CP : Calm}.

(** A stopped manager handles nothing. *)
Definition note (o : owner) (ev : event) (b : book) : book :=
  if o_stopped o then b
  else
    match ev with
    | Command (cmdEnsure _ reply _) => mkBook (bk_reported b) (reply :: bk_asked b) (bk_released b)
    | Command (cmdStartResult _ g _) => mkBook (g :: bk_reported b) (bk_asked b) (bk_released b)
    | Command (cmdRelease id g) =>
        match live_generation id g o with
        | Some _ => mkBook (bk_reported b) (bk_asked b) (g :: bk_released b)
        | None => b
        end
    | _ => b
    end.

Definition pushable_b (cfg : Config) : bool :=
  forallb (fun spec => String.eqb (spec_InstanceOf spec) "" && negb (String.eqb (spec_ID spec) ""))
    (cfg_Specs cfg).

Definition calm_b (bases : gmap string Spec) (st : specState) : bool :=
  match bases !! spec_InstanceOf (st_spec st) with
  | Some base =>
      implb (negb (st_instance st =? 0) && has_proc st && bool_decide (st_state st = StateStartFailed)
             && IsBurst base (st_instance st))
        (burst st || st_backoffOnExit st || negb (has_pending st))
  | None => true
  end.

Definition drain_scheduled (id : string) (g : generation) (o : owner) : bool :=
  existsb (fun e => match e with
                    | Schedule _ _ (cmdDrainGraceExpired id' g') => String.eqb id' id && Nat.eqb g' g
                    | _ => false
                    end) (o_effects o).

Definition event_ok (b : book) (o : owner) (ev : event) : bool :=
  match ev with
  | Command (cmdApply cfg _) =>
      pushable_b cfg
      && (negb calm_pushes || forallb (fun e => calm_b (bases_of (pushed_specs cfg)) e.2) (entries o))
  | Command (cmdStartResult _ g _) => negb (existsb (Nat.eqb g) (bk_reported b))
  | Command (cmdDrainGraceExpired id g) => drain_scheduled id g o
  | Command (cmdRelease id g) =>
      match live_generation id g o with
      | Some _ => (releases g b <? handed_count g (observe o))
                  && (handed_count g (observe o) <=? int64_max)
      | None => true
      end
  | _ => true
  end.

Fixpoint obeys (b : book) (o : owner) (evs : list event) : bool :=
  match evs with
  | [] => true
  | ev :: evs => event_ok b o ev && obeys (note o ev b) (turn o ev) evs
  end.

Fixpoint record (b : book) (o : owner) (evs : list event) : book :=
  match evs with
  | [] => b
  | ev :: evs => record (note o ev b) (turn o ev) evs
  end.

(** ** The books of a turn *)

Definition ghost_of (b : book) (closing stopped : bool) (L : list (generation * string))
    (first : generation) (N : Z) : ghost :=
  mkGhost (fun g => g ∈ bk_reported b) (bk_asked b) (fun g => releases g b) closing stopped
    L first N.

(** Nothing else about a ghost matters. *)
Lemma Sound_ghost_ext B c γ γ' o :
  (forall g, gh_reported γ g -> gh_reported γ' g) -> gh_asked γ = gh_asked γ' ->
  (forall g, gh_released γ g = gh_released γ' g) -> gh_closing γ = gh_closing γ' -> gh_stopped γ = gh_stopped γ' ->
  gh_launched γ = gh_launched γ' ->
  gh_first γ = gh_first γ' -> gh_bound γ = gh_bound γ' -> Sound B c γ o -> Sound B c γ' o.
Proof.
  intros HR HA HL HC HT HLa HF HN [SI SA [BZ BF BR] SS SCl SSt SL SC SW].
  split; rewrite <- ?HA, <- ?HC, <- ?HT, <- ?HLa, <- ?HF, <- ?HN; try done.
  - by eapply inv_reported_mono.
  - split.
    + intros g. rewrite <- HL. apply BZ.
    + intros g. rewrite <- HL. apply BF.
    + intros id st g h. rewrite <- HL. apply BR.
Qed.

(** Between turns the bound and the first generation start afresh. *)
Definition Steady (b : book) (o : owner) : Prop :=
  Sound ∅ (o_closing o) (ghost_of b (o_closing o) (o_stopped o) (launched (observe o)) (o_nextProc o) (live_count o)) o.

Lemma Sound_restart c γ o first N :
  Sound ∅ c γ o -> (o_nextProc o <= first)%nat -> (0 < cfg_MaxProcesses (o_cfg o) <= N -> within N o) ->
  Sound ∅ c (mkGhost (gh_reported γ) (gh_asked γ) (gh_released γ) (gh_closing γ) (gh_stopped γ)
    (launched (observe o)) first N) o.
Proof.
  intros [SI SA SB SS SCl SSt SL SC SW] Hf HN. split; try done. simpl.
  intros id1 id2 st1 st2 g1 g2 h1 h2 _ _ Hst2 Hp2 _ Hge.
  destruct (ok_live _ _ _ _ _ (inv_rows _ _ _ _ SI _ _ Hst2) _ _ Hp2) as [Hlt _]. lia.
Qed.

(** ** The promises as propositions *)

Lemma pushable_spec cfg : pushable_b cfg = true -> pushable cfg.
Proof.
  unfold pushable_b, pushable. rewrite forallb_forall, Forall_forall. intros HF spec Hin.
  specialize (HF spec (proj1 (list_elem_of_In _ _) Hin)).
  apply andb_true_iff in HF as [H1%String.eqb_eq H2%negb_true_iff]. by apply String.eqb_neq in H2.
Qed.

Lemma calm_rows_spec bases o :
  negb calm_pushes || forallb (fun e => calm_b bases e.2) (entries o) = true -> calm_rows bases o.
Proof.
  intros HF id st Hst Hcalm base Hb Hk Hp Hs Hbu. rewrite Hcalm in HF. simpl in HF. rewrite forallb_forall in HF.
  assert (Hin : In (id, st) (entries o)) by (apply list_elem_of_In; by apply elem_of_map_to_list).
  specialize (HF _ Hin). cbn [snd] in HF. unfold calm_b in HF. rewrite Hb, Hp, Hbu in HF.
  rewrite (proj2 (Z.eqb_neq _ _) Hk), bool_decide_eq_true_2 in HF by done. cbn [implb andb negb] in HF.
  apply orb_true_iff in HF as [[?|?]%orb_true_iff|HF%negb_true_iff]; auto.
  right. right. unfold has_pending in HF. by destruct (st_pending st).
Qed.

Lemma drain_scheduled_spec id g o :
  drain_scheduled id g o = true -> exists t d, Schedule t d (cmdDrainGraceExpired id g) ∈ observe o.
Proof.
  unfold drain_scheduled. rewrite existsb_exists. intros (e & Hin & He).
  destruct e as [|t d c| | | | | | | | | | | | |]; try done. destruct c; try done.
  apply andb_true_iff in He as [->%String.eqb_eq ->%Nat.eqb_eq]. exists t, d.
  apply list_elem_of_In. unfold observe. by apply filter_In.
Qed.

Lemma releases_cons g g' R A L :
  releases g (mkBook R A (g' :: L)) = released g' (fun g => releases g (mkBook R A L)) g.
Proof.
  unfold releases, released. simpl. destruct (Nat.eqb_spec g g') as [->|Hne].
  - rewrite decide_True by done. simpl. lia.
  - by rewrite decide_False.
Qed.

(** ** One turn *)

Section turn.
Context (b : book) (o : owner) (N : Z).

Let γ := ghost_of b (o_closing o) false (launched (observe o)) (o_nextProc o) N.
Notation c := (o_closing o).

Lemma still_nextTurn : still o (nextTurn o).
Proof. by split. Qed.

(** What a command makes of the books. *)
Definition noted (cmd : command) : ghost :=
  let b' := note o (Command cmd) b in
  ghost_of b' (match cmd with cmdClose => true | _ => c end) false (launched (observe o)) (o_nextProc o) N.

Lemma Sound_dispatch cmd :
  Sound ∅ c γ (nextTurn o) -> within N o -> o_stopped o = false -> event_ok b o (Command cmd) = true ->
  Sound ∅ (match cmd with cmdClose => true | _ => c end) (noted cmd) (dispatch cmd (nextTurn o)).
Proof.
  intros HS HN Hstop Hok. set (o1 := nextTurn o) in *. pose proof (sd_inv _ _ _ _ HS) as HI.
  assert (Hc : o_closing o1 = c) by done.
  assert (Hself : Sound ∅ c γ o1 -> forall o2, moves ∅ c o1 o2 -> Sound ∅ c γ o2)
    by (intros _ o2 HM; by eapply Sound_moves).
  specialize (Hself HS). unfold noted, note. rewrite Hstop. destruct cmd; cbn [dispatch].
  - apply andb_true_iff in Hok as [Hp Hcm]. eapply Sound_moves; [by apply moves_quiet, quiet_emit|].
    apply Sound_applyConfig; [done|by apply pushable_spec|by apply calm_rows_spec|done|done].
  - eapply Sound_ghost_ext; [..|apply (Sound_handleEnsure c γ), HS]; try done. by intros g [?|?].
  - apply Hself, moves_handleCancelEnsure.
  - apply Hself, moves_handleWaiterTimeout.
  - cbn [event_ok] in Hok. change (live_generation specID proc o) with (live_generation specID proc o1) in *.
    destruct (live_generation specID proc o1) as [[st p]|] eqn:E.
    + apply andb_true_iff in Hok as [H1%Z.ltb_lt H2%Z.leb_le].
      eapply Sound_ghost_ext; [..|by eapply (Sound_handleRelease c γ)]; try done.
      intros g. symmetry. apply (releases_cons g proc (bk_reported b) (bk_asked b)).
    + unfold handleRelease. by rewrite E.
  - by eapply Hself, moves_handleChildExited.
  - eapply Sound_ghost_ext; [..|eapply (Sound_handleStartResult c γ); [done|done|]]; try done.
    + simpl. intros g [Hg| ->]; [by right|by left].
    + intros Hin. apply negb_true_iff in Hok. rewrite <- not_true_iff_false, existsb_exists in Hok.
      apply Hok. exists proc. split; [by apply list_elem_of_In|by apply Nat.eqb_eq].
  - by eapply Hself, moves_handleBackoffFire.
  - by eapply Hself, moves_handleGraceExpiry.
  - apply Hself, moves_handleStableRun.
  - eapply Hself, moves_handleDrainGraceExpired; [done|by apply drain_scheduled_spec].
  - apply Hself, moves_handleKillGraceExpired.
  - by eapply Hself, moves_applyMeasurement.
  - destruct (snapshotStatus o1) as [rows o2] eqn:E. apply Hself. eapply moves_trans;
      [|by apply moves_quiet, quiet_emit]. apply moves_quiet. unfold snapshotStatus in E.
    destruct (range_specs o1) as [ids o3] eqn:E3. apply range_specs_eq in E3 as [_ E3]. by simplify_eq.
  - destruct (loadedModels o1) as [ms o2] eqn:E. apply Hself. eapply moves_trans;
      [|by apply moves_quiet, quiet_emit]. apply moves_quiet. unfold loadedModels in E.
    destruct (range_specs o1) as [ids o3] eqn:E3. apply range_specs_eq in E3 as [_ E3]. by simplify_eq.
  - destruct (stopInstance model o1) as [out o2] eqn:E. apply Hself. eapply moves_trans;
      [|by apply moves_quiet, quiet_emit]. change o2 with (out, o2).2. rewrite <- E. apply moves_stopInstance.
  - by apply Hself, moves_quiet, quiet_emit.
  - by apply Hself, moves_quiet, quiet_emit.
  - by apply (Sound_handleClose γ c).
Qed.

End turn.

(** The owner ends once it shuts down and no process is left. *)
Lemma Sound_maybeFinishClose c γ o :
  Sound ∅ c γ o -> gh_stopped γ = false ->
  Sound ∅ c (mkGhost (gh_reported γ) (gh_asked γ) (gh_released γ) (gh_closing γ)
               (o_stopped (maybeFinishClose o)) (gh_launched γ) (gh_first γ) (gh_bound γ)) (maybeFinishClose o).
Proof.
  intros [[IR ID IG IC ICF IIX IRP] HA [HZ HF HB] [HS1 HS2] HCl HSt HLa HC HW] Hst.
  unfold maybeFinishClose. destruct (negb (o_closing o) || o_stopped o); [|destruct (existsb _ _)]; by split.
Qed.

(** A turn keeps the books, whatever bound [N] the live processes kept before it. *)
Lemma Sound_turn b o ev N :
  Steady b o -> event_ok b o ev = true -> within N o ->
  Sound ∅ (o_closing (turn o ev))
    (ghost_of (note o ev b) (o_closing (turn o ev)) (o_stopped (turn o ev)) (launched (observe o))
       (o_nextProc o) N) (turn o ev).
Proof.
  intros HS Hok HN.
  assert (S0 : Sound ∅ (o_closing o) (ghost_of b (o_closing o) (o_stopped o) (launched (observe o)) (o_nextProc o) N) o)
    by (exact (Sound_restart _ _ _ (o_nextProc o) N HS ltac:(lia) ltac:(done))).
  unfold turn. destruct (o_stopped o) eqn:Hstop.
  { unfold note. by rewrite Hstop. }
  assert (S1 : Sound ∅ (o_closing o) (ghost_of b (o_closing o) false (launched (observe o)) (o_nextProc o) N) (nextTurn o))
    by (eapply Sound_moves, S0; apply moves_still, still_nextTurn).
  assert (Hgo : forall o2, moves ∅ (o_closing o) (nextTurn o) o2 ->
    Sound ∅ (o_closing o2) (ghost_of b (o_closing o2) (o_stopped o2) (launched (observe o)) (o_nextProc o) N) o2).
  { intros o2 HM. rewrite (moves_closing _ _ _ _ HM), (moves_stopped _ _ _ _ HM). unfold nextTurn. simpl.
    rewrite Hstop. by eapply Sound_moves. }
  destruct ev as [cmd| |].
  - pose proof (Sound_dispatch b o N cmd S1 HN Hstop Hok) as S2. unfold handle. cbv zeta.
    set (o2 := dispatch cmd (nextTurn o)) in *. pose proof (sd_closing _ _ _ _ S2) as Hcl.
    pose proof (sd_stopped _ _ _ _ S2) as Hst. cbn in Hcl, Hst. rewrite <- Hcl in S2. unfold noted in S2.
    rewrite <- Hcl in S2. destruct (o_closing o2) eqn:Ec.
    + pose proof (Sound_maybeFinishClose _ _ _ S2 eq_refl) as S3.
      pose proof (sd_closing _ _ _ _ S3) as E3. cbn in E3. rewrite E3. exact S3.
    + rewrite Ec, Hst. exact S2.
  - unfold note. rewrite Hstop. case_match; [apply Hgo, moves_refl|]. apply Hgo.
    eapply moves_trans; [eapply moves_scanIdle, S1|]. apply moves_still, still_dispatchMeasurement.
  - unfold note. rewrite Hstop. case_match; [apply Hgo, moves_refl|]. apply Hgo.
    eapply moves_wakeAdmission, S1.
Qed.

Lemma Steady_turn b o ev :
  Steady b o -> event_ok b o ev = true -> Steady (note o ev b) (turn o ev).
Proof.
  intros HS Hok. pose proof (Sound_turn b o ev (live_count o) HS Hok ltac:(unfold within; lia)) as S1.
  unfold Steady. apply (Sound_restart _ _ (turn o ev) (o_nextProc (turn o ev)) (live_count (turn o ev)) S1);
    unfold within; lia.
Qed.

(** ** Runs *)

Lemma Steady_run b o evs :
  Steady b o -> obeys b o evs = true -> Steady (record b o evs) (run o evs).
Proof.
  unfold run. revert b o. induction evs as [|ev evs IH]; intros b o HS Hok; [done|]. cbn in *.
  apply andb_true_iff in Hok as [Hev Hok]. apply IH; [by apply Steady_turn|done].
Qed.

Lemma Steady_NewManager opts : Steady emptyBook (NewManager opts).
Proof.
  split; try done.
  - split; try done. intros t d id g Hin. by apply not_elem_of_nil in Hin.
  - constructor.
  - split; [constructor|]. intros g id Hin. by apply not_elem_of_nil in Hin.
Qed.

(** A run from the manager's first state in which the outside keeps its promises. *)
Definition keeps (opts : options) (evs : list event) : bool :=
  obeys emptyBook (NewManager opts) evs.

Definition final (opts : options) (evs : list event) : owner := run (NewManager opts) evs.

Definition booked (opts : options) (evs : list event) : book :=
  record emptyBook (NewManager opts) evs.

Lemma Steady_final opts evs : keeps opts evs = true -> Steady (booked opts evs) (final opts evs).
Proof. intros Hp. apply Steady_run; [apply Steady_NewManager|done]. Qed.

(** ** The end of a run *)

(** Once it shuts down, the owner has stopped exactly when no process is left. *)
Definition ended (o : owner) : Prop :=
  if o_closing o then o_stopped o = true <-> live_in (o_specs o) = [] else o_stopped o = false.

Lemma live_in_nil m : live_in m = [] <-> existsb (fun e => has_proc e.2) (map_to_list m) = false.
Proof.
  unfold live_in, gather. induction (map_to_list m) as [|[k st] l IH]; [done|]. csimpl.
  destruct (has_proc st); simpl; [by split|done].
Qed.

Lemma ended_maybeFinishClose o :
  o_closing o = true -> o_stopped o = false -> ended (maybeFinishClose o).
Proof.
  intros Hc Hs. unfold maybeFinishClose. rewrite Hc, Hs. simpl. destruct (existsb _ _) eqn:E; unfold ended; simpl.
  - rewrite Hc, Hs, live_in_nil. change (map_to_list (o_specs o)) with (entries o). rewrite E. by split.
  - rewrite Hc, live_in_nil. by split.
Qed.

(** The flags after a command, and after a beat. *)
Lemma dispatch_flags b o cmd :
  Steady b o -> o_stopped o = false -> event_ok b o (Command cmd) = true ->
  o_closing (dispatch cmd (nextTurn o)) = match cmd with cmdClose => true | _ => o_closing o end
  /\ o_stopped (dispatch cmd (nextTurn o)) = false.
Proof.
  intros HS Hstop Hok.
  assert (S0 : Sound ∅ (o_closing o)
    (ghost_of b (o_closing o) false (launched (observe o)) (o_nextProc o) (live_count o)) (nextTurn o)).
  { eapply Sound_moves; [apply moves_still, still_nextTurn|]. unfold Steady in HS. by rewrite Hstop in HS. }
  pose proof (Sound_dispatch b o (live_count o) cmd S0 ltac:(unfold within; lia) Hstop Hok) as S2.
  split; [apply (sd_closing _ _ _ _ S2)|apply (sd_stopped _ _ _ _ S2)].
Qed.

Lemma beat_flags b o ev :
  Steady b o -> o_stopped o = false -> (forall cmd, ev <> Command cmd) ->
  o_closing (turn o ev) = o_closing o /\ o_stopped (turn o ev) = false
  /\ (o_closing o = true -> o_specs (turn o ev) = o_specs o).
Proof.
  intros HS Hstop Hcmd. unfold turn. rewrite Hstop.
  assert (HI : Inv ∅ (o_closing o) (fun g => g ∈ bk_reported b) (nextTurn o))
    by (eapply still_inv; [apply still_nextTurn|apply HS]).
  assert (Hgo : forall o2, moves ∅ (o_closing o) (nextTurn o) o2 ->
    o_closing o2 = o_closing o /\ o_stopped o2 = false).
  { intros o2 HM. rewrite (moves_closing _ _ _ _ HM), (moves_stopped _ _ _ _ HM). done. }
  cbv zeta. change (o_closing (nextTurn o)) with (o_closing o).
  destruct ev as [cmd| |]; [by destruct (Hcmd cmd)|..]; (destruct (o_closing o) eqn:Hc; [done|]).
  - edestruct Hgo as [E1 E2]; [|split_and!; [exact E1|exact E2|done]].
    eapply moves_trans; [by eapply moves_scanIdle|]. apply moves_still, still_dispatchMeasurement.
  - edestruct Hgo as [E1 E2]; [|split_and!; [exact E1|exact E2|done]]. by eapply moves_wakeAdmission.
Qed.

Lemma ended_turn b o ev :
  Steady b o -> event_ok b o ev = true -> ended o -> ended (turn o ev).
Proof.
  intros HS Hok HE. destruct (o_stopped o) eqn:Hstop; [unfold turn; by rewrite Hstop|].
  destruct ev as [cmd| |].
  - destruct (dispatch_flags _ _ _ HS Hstop Hok) as [_ Hst]. unfold turn, handle. rewrite Hstop. cbv zeta.
    set (o2 := dispatch cmd (nextTurn o)) in *. destruct (o_closing o2) eqn:Ec.
    + by apply ended_maybeFinishClose.
    + unfold ended. by rewrite Ec.
  - destruct (beat_flags b o IdleTick HS Hstop) as (Ec & Es & Hsp); [done|]. unfold ended in *. rewrite Ec, Es.
    destruct (o_closing o); [|done]. by rewrite Hsp, <- Hstop.
  - destruct (beat_flags b o HostWake HS Hstop) as (Ec & Es & Hsp); [done|]. unfold ended in *. rewrite Ec, Es.
    destruct (o_closing o); [|done]. by rewrite Hsp, <- Hstop.
Qed.

(** An invariant of turns is one of runs. *)
Lemma turns_invariant (P : owner -> Prop) b o evs :
  (forall b o ev, Steady b o -> event_ok b o ev = true -> P o -> P (turn o ev)) ->
  Steady b o -> obeys b o evs = true -> P o -> P (run o evs).
Proof.
  intros HP. unfold run. revert b o. induction evs as [|ev evs IH]; intros b o HS Hok Ho; [done|]. cbn in *.
  apply andb_true_iff in Hok as [Hev Hok]. eapply (IH (note o ev b)); [by apply Steady_turn|done|].
  by eapply HP.
Qed.

Lemma ended_final opts evs : keeps opts evs = true -> ended (final opts evs).
Proof.
  intros Hp. eapply (turns_invariant ended); [apply ended_turn|apply (Steady_NewManager opts)|done|done].
Qed.

Lemma run_app o evs1 evs2 : run o (evs1 ++ evs2) = run (run o evs1) evs2.
Proof. apply foldl_app. Qed.

Lemma obeys_app b o evs1 evs2 :
  obeys b o (evs1 ++ evs2) = obeys b o evs1 && obeys (record b o evs1) (run o evs1) evs2.
Proof.
  unfold run. revert b o. induction evs1 as [|ev evs1 IH]; intros b o; [done|]. cbn. by rewrite IH, andb_assoc.
Qed.

(** Shutdown is not undone, and starts nothing. *)
Lemma closing_run b o evs :
  Steady b o -> obeys b o evs = true -> o_closing o = true ->
  o_closing (run o evs) = true /\ launched (observe (run o evs)) = launched (observe o).
Proof.
  intros HS Hok Hc.
  apply (turns_invariant (fun o' => o_closing o' = true /\ launched (observe o') = launched (observe o)) b); try done.
  intros b' o' ev HS' Hev [Hc' HL].
  pose proof (Sound_turn b' o' ev (live_count o') HS' Hev ltac:(unfold within; lia)) as S1.
  assert (Hcl : o_closing (turn o' ev) = true);
    [|split; [done|]; rewrite (sd_launched _ _ _ _ S1 Hcl); exact HL].
  clear HL. destruct (o_stopped o') eqn:Hstop; [unfold turn; by rewrite Hstop|]. destruct ev as [cmd| |].
  - destruct (dispatch_flags _ _ _ HS' Hstop Hev) as [Hst _]. unfold turn, handle. rewrite Hstop. cbv zeta.
    set (o2 := dispatch cmd (nextTurn o')) in *.
    assert (Ec : o_closing o2 = true) by (rewrite Hst; by destruct cmd). rewrite Ec.
    unfold maybeFinishClose. by repeat case_match.
  - destruct (beat_flags b' o' IdleTick HS' Hstop) as (-> & _); done.
  - destruct (beat_flags b' o' HostWake HS' Hstop) as (-> & _); done.
Qed.

(** ** Shutdown ends *)

Definition live_as (id : string) (g : generation) (o : owner) : Prop :=
  exists st h, o_specs o !! id = Some st /\ r_proc (abs st) = Some (g, h).

Lemma live_as_generation id g o : live_as id g o <-> is_Some (live_generation id g o).
Proof.
  unfold live_as, live_generation. split.
  - intros (st & h & -> & Hp). simpl in *. destruct (st_proc st) as [p|]; [|done]. simpl in *.
    injection Hp as <- _. by rewrite decide_True.
  - intros ([st p] & Hl). apply live_generation_row in Hl as (Hst & _ & _ & Hp). eauto.
Qed.

Lemma closing_live B c o o' id g :
  moves B c o o' -> o_closing o = true -> live_as id g o' -> live_as id g o.
Proof.
  induction 1 as [|o1 o2 o3 Hm _ IH]; [done|]. intros Hc Hl.
  destruct IH as (st & h & Hst & Hp); [by rewrite (moves_closing B c o1 o2) by (by apply moves_one)|done|].
  destruct (move_live _ _ _ _ _ _ _ _ Hm Hst Hp) as (st0 & Hst0 & _ & [(h0 & E0)|(_ & _ & _ & ?)]); [|congruence].
  by exists st0, h0.
Qed.

(** During shutdown an exit takes its process and brings none back. *)
Lemma exit_turn b o id g exitErr id' g' :
  Steady b o -> o_closing o = true -> o_stopped o = false ->
  live_as id' g' (turn o (Command (cmdChildExited id g exitErr))) ->
  (id', g') <> (id, g) /\ live_as id' g' o.
Proof.
  intros HS Hc Hstop. unfold turn, handle. rewrite Hstop. cbv zeta. cbn [dispatch].
  set (o1 := nextTurn o).
  assert (HI : Inv ∅ true (fun g => g ∈ bk_reported b) o1).
  { eapply still_inv; [apply still_nextTurn|]. unfold Steady in HS. rewrite Hc in HS. apply HS. }
  assert (Hfin : forall o2, live_as id' g' (if o_closing o2 then maybeFinishClose o2 else o2) -> live_as id' g' o2).
  { intros o2. unfold maybeFinishClose. by repeat case_match. }
  intros Hl%Hfin. clear Hfin.
  destruct (live_generation id g o1) as [[st p]|] eqn:E.
  - destruct (exits_handleChildExited ∅ true _ id g exitErr o1 st p HI Hc eq_refl E) as (o2 & M1 & HG & M2).
    assert (Hc2 : o_closing o2 = true) by (by rewrite (moves_closing _ _ _ _ M1)).
    split; [|apply (closing_live _ _ _ _ _ _ (moves_trans _ _ _ _ _ M1 M2) Hc Hl)].
    intros [= -> ->]. destruct Hl as (st' & h & Hst' & Hp').
    pose proof (gone_moves _ _ _ _ _ M2 Hc2 HG _ Hst') as Hn. rewrite <- live_abs in Hn.
    unfold live_row in Hn. by rewrite Hp' in Hn.
  - unfold handleChildExited in Hl. rewrite E in Hl. split; [|exact Hl].
    intros [= -> ->]. apply live_as_generation in Hl. rewrite E in Hl. by apply is_Some_None in Hl.
Qed.

Lemma live_as_nil o : (forall id g, ~ live_as id g o) -> live_in (o_specs o) = [].
Proof.
  intros Hn. destruct (live_in (o_specs o)) as [|id l] eqn:E; [done|].
  assert (Hin : id ∈ live_in (o_specs o)) by (rewrite E; left).
  apply elem_of_live_in in Hin as (st & Hst & Hp). rewrite <- live_abs in Hp. unfold live_row in Hp.
  destruct (r_proc (abs st)) as [[g h]|] eqn:Eg; [|done]. destruct (Hn id g). by exists st, h.
Qed.

Lemma exits_stop xs b o :
  Steady b o -> ended o -> o_closing o = true ->
  (forall id g, live_as id g o -> exists e, (id, g, e) ∈ xs) ->
  o_stopped (run o ((fun x => Command (cmdChildExited x.1.1 x.1.2 x.2)) <$> xs)) = true.
Proof.
  unfold run. revert b o. induction xs as [|[[id g] e] xs IH]; intros b o HS HE Hc Hall.
  - unfold ended in HE. rewrite Hc in HE. apply HE, live_as_nil. intros id g [e He]%Hall.
    by apply not_elem_of_nil in He.
  - rewrite fmap_cons. cbn [foldl fst snd]. set (ev := Command (cmdChildExited id g e)).
    destruct (o_stopped o) eqn:Hstop.
    { assert (Hid : forall evs, foldl turn o evs = o).
      { induction evs as [|e' evs IHe]; [done|]. cbn [foldl]. unfold turn at 2. by rewrite Hstop. }
      unfold turn at 2. rewrite Hstop. by rewrite Hid. }
    destruct (closing_run b o [ev] HS) as [Hc' _]; [done|done|].
    eapply (IH (note o ev b)); [by apply Steady_turn|by eapply ended_turn|exact Hc'|].
    intros id' g' Hl. destruct (exit_turn _ _ _ _ _ _ _ HS Hc Hstop Hl) as [Hne Hlo].
    destruct (Hall _ _ Hlo) as [e' [[= -> -> ->]|Hin]%elem_of_cons]; [done|by exists e'].
Qed.

End runs.

(** The outside keeps its promises, whatever it pushes. *)
Definition promises `{Unicode} `{World} (opts : options) (evs : list event) : bool := keeps (CP := false) opts evs.

(** And every push is calm. *)
Definition protocol `{Unicode} `{World} (opts : options) (evs : list event) : bool := keeps (CP := true) opts evs.
