(* ===== verification/ManagerRecursion.v ===== *)
(** * The runtime manager: the recursion of an admission ends

    [admitAndStart] re-asks the siblings that waited for the instance it decided, and
    each of them may decide in turn.  Every such step climbs the instance indexes of one
    spec, and an admission adds no row, so the number of rows above an instance bounds
    the depth: the levels [admitAndStart] grants are enough, and it satisfies the
    recursive equation of the source. *)

From Stdlib Require Import ZArith Lia Ascii.
From stdpp Require Import base tactics option list numbers strings pretty gmap relations.
From S2P Require Import Prelude RuntimeTypes Policy PolicyProps Manager ManagerAdmit.
Local Open Scope Z_scope.
Local Open Scope go_scope.

(** ** An admission adds no row, renames none and queues nothing *)

Definition shape (st : specState) : Spec * Z := (st_spec st, st_instance st).

(** Its spec and index stay, a process is not lost, an empty queue stays empty. *)
Record kept (st st' : specState) : Prop := {
  kept_shape : shape st' = shape st;
  kept_proc : has_proc st = true -> has_proc st' = true;
  kept_queue : st_pending st = [] -> st_pending st' = []
}.

Global Instance kept_preorder : PreOrder kept.
Proof. split; [by split|]. intros st1 st2 st3 [S1 P1 Q1] [S2 P2 Q2]. split; [congruence|auto..]. Qed.

Definition shrinks (o o' : owner) : Prop :=
  forall k st', o_specs o' !! k = Some st' -> exists st, o_specs o !! k = Some st /\ kept st st'.

Global Instance shrinks_preorder : PreOrder shrinks.
Proof.
  split; [intros o k st Hst; by exists st|].
  intros o1 o2 o3 H1 H2 k st3 Hst3. destruct (H2 _ _ Hst3) as (st2 & Hst2 & K2).
  destruct (H1 _ _ Hst2) as (st1 & Hst1 & K1). exists st1. split; [done|]. by transitivity st2.
Qed.

Lemma shrinks_refl o : shrinks o o.
Proof. reflexivity. Qed.

Create HintDb shrink.

Lemma shrinks_same o o1 o' : o_specs o' = o_specs o1 -> shrinks o o1 -> shrinks o o'.
Proof. intros HS H1 k st Hst. rewrite HS in Hst. by apply H1. Qed.

Lemma shrinks_upd id f o o1 :
  (forall st, kept st (f st)) -> shrinks o o1 -> shrinks o (upd id f o1).
Proof.
  intros Hf H1. etrans; [exact H1|]. intros k st. unfold upd. simpl.
  destruct (decide (k = id)) as [->|Hne]; [|rewrite lookup_alter_ne by done; intros Hst; by exists st].
  rewrite lookup_alter_eq. destruct (o_specs o1 !! id) as [st0|]; [|done]. simpl. intros [= <-]. eauto.
Qed.

Lemma shrinks_upd_proc id f o o1 : shrinks o o1 -> shrinks o (upd_proc id f o1).
Proof. apply shrinks_upd. intros st. split; [done| |done]. unfold has_proc. simpl. by destruct (st_proc st). Qed.

Lemma shrinks_emit e o o1 : shrinks o o1 -> shrinks o (emit e o1).
Proof. by apply shrinks_same. Qed.

Lemma shrinks_cancelTimer t o o1 : shrinks o o1 -> shrinks o (cancelTimer t o1).
Proof. destruct t; [apply shrinks_emit|done]. Qed.

Lemma shrinks_for_each ids body o o1 :
  (forall id o o1, shrinks o o1 -> shrinks o (body id o1)) -> shrinks o o1 -> shrinks o (for_each ids body o1).
Proof.
  intros Hb. unfold for_each. revert o1. induction ids as [|id ids IH]; intros o1 H1; [done|]. cbn [foldl].
  apply IH. by apply Hb.
Qed.

Lemma shrinks_foldl {A} (l : list A) f o o1 :
  (forall x o o1, shrinks o o1 -> shrinks o (f o1 x)) -> shrinks o o1 -> shrinks o (foldl f o1 l).
Proof.
  intros Hf. revert o1. induction l as [|x l IH]; intros o1 H1; [done|]. cbn [foldl]. apply IH. by apply Hf.
Qed.

#[export] Hint Resolve shrinks_refl shrinks_emit shrinks_cancelTimer shrinks_upd_proc : shrink.
#[export] Hint Extern 2 (shrinks _ (upd _ _ _)) => (apply shrinks_upd; [intros ?; by split|]) : shrink.
#[export] Hint Extern 3 (shrinks _ (update _ _ _)) => (eapply shrinks_same; [reflexivity|]) : shrink.

(** Opens the next read or timer of an operation. *)
Ltac unpair :=
  match goal with
  | |- context [match read ?f ?o with pair _ _ => _ end] => rewrite (surjective_pairing (read f o))
  | |- context [match scheduleAfter ?d ?c ?o with pair _ _ => _ end] =>
      rewrite (surjective_pairing (scheduleAfter d c o))
  end; cbv beta iota zeta.

Section shrinking.
Context `{Unicode} `{World}.

Lemma shrinks_read {A} (f : nat -> A) o o1 : shrinks o o1 -> shrinks o (read f o1).2.
Proof. by apply shrinks_same. Qed.

Lemma shrinks_scheduleAfter d c o o1 : shrinks o o1 -> shrinks o (scheduleAfter d c o1).2.
Proof. by apply shrinks_same. Qed.

#[local] Hint Resolve shrinks_read shrinks_scheduleAfter : shrink.

Lemma shrinks_setState id s o o1 : shrinks o o1 -> shrinks o (setState id s o1).
Proof.
  intros H1. unfold setState, signalTransition. destruct (o_specs o1 !! id); [|done]. case_decide; [done|].
  unpair. auto 6 with shrink.
Qed.

Lemma shrinks_failPending id err o o1 : shrinks o o1 -> shrinks o (failPending id err o1).
Proof.
  intros H1. unfold failPending. destruct (o_specs o1 !! id); [|done].
  apply shrinks_upd; [intros ?; by split|]. apply shrinks_foldl; [|done]. auto with shrink.
Qed.

Lemma shrinks_setLastError id m o o1 : shrinks o o1 -> shrinks o (setLastError id m o1).
Proof. intros H1. unfold setLastError. unpair. auto with shrink. Qed.

Lemma shrinks_noteAdmissionWait id m o o1 : shrinks o o1 -> shrinks o (noteAdmissionWait id m o1).
Proof. intros H1. unfold noteAdmissionWait. repeat case_match; auto using shrinks_setLastError. Qed.

Lemma shrinks_recordFailure id m ec t o o1 : shrinks o o1 -> shrinks o (recordFailure id m ec t o1).
Proof. intros H1. unfold recordFailure. unpair. auto with shrink. Qed.

#[local] Hint Resolve shrinks_setState shrinks_failPending shrinks_setLastError
  shrinks_noteAdmissionWait shrinks_recordFailure : shrink.

Lemma shrinks_terminateNow id o o1 : shrinks o o1 -> shrinks o (terminateNow id o1).
Proof.
  intros H1. unfold terminateNow. destruct (o_specs o1 !! id) as [st|]; [|done].
  destruct (st_proc st) as [p|]; [|done]. unpair.
  case_match; [auto with shrink|]. case_match; [auto with shrink|].
  unpair. auto 10 with shrink.
Qed.

Lemma shrinks_beginDrain id o o1 : shrinks o o1 -> shrinks o (beginDrain id o1).
Proof.
  intros H1. unfold beginDrain. destruct (o_specs o1 !! id) as [st|]; [|done].
  destruct (st_proc st) as [p|]; [|done]. case_decide; [done|].
  case_match; [apply shrinks_terminateNow|unpair]; auto with shrink.
Qed.

Lemma shrinks_enterBackoff id o o1 : shrinks o o1 -> shrinks o (enterBackoff id o1).
Proof.
  intros H1. unfold enterBackoff. destruct (o_specs o1 !! id) as [st|]; [|done].
  repeat (case_match; [auto with shrink|]). unpair. auto with shrink.
Qed.

#[local] Hint Resolve shrinks_terminateNow shrinks_beginDrain shrinks_enterBackoff : shrink.

Lemma shrinks_recordReading measured id o o1 : shrinks o o1 -> shrinks o (recordReading measured id o1).
Proof.
  intros H1. unfold recordReading. destruct (o_specs o1 !! id) as [st|]; [|done].
  destruct (st_proc st) as [p|]; [|done]. cbv zeta. repeat case_match; auto with shrink.
Qed.

Lemma shrinks_pendingRAMFreedMB o o1 : shrinks o o1 -> shrinks o (pendingRAMFreedMB o1).2.
Proof. apply shrinks_same. unfold pendingRAMFreedMB. case_match; [unpair; by case_match|done]. Qed.

Lemma shrinks_buildSnapshot o o1 : shrinks o o1 -> shrinks o (buildSnapshot o1).2.
Proof.
  intros H1. unfold buildSnapshot, hostInfo, range_specs. do 6 unpair.
  set (o2 := for_each _ _ _).
  assert (H2 : shrinks o o2).
  { apply shrinks_for_each; [intros; by apply shrinks_recordReading|]. auto 10 with shrink. }
  unpair. rewrite (surjective_pairing (pendingRAMFreedMB _)). cbn [snd].
  apply shrinks_pendingRAMFreedMB. auto with shrink.
Qed.

Lemma shrinks_vramBootstrapEligible id st o o1 :
  shrinks o o1 -> shrinks o (vramBootstrapEligible id st o1).2.
Proof. intros H1. unfold vramBootstrapEligible. unpair. cbn [snd]. auto with shrink. Qed.

Lemma shrinks_retire id o o1 : shrinks o o1 -> shrinks o (retire id o1).
Proof.
  intros H1. unfold retire. destruct (o_specs o1 !! id) as [st|]; [|done]. etrans; [exact H1|].
  intros k st'. unfold deleteState, signalTransition. simpl. rewrite lookup_delete_Some. intros [_ Hst'].
  exists st'. split; [|done]. by destruct (st_backoffTimer st).
Qed.

Lemma shrinks_retireIfSpent id o o1 : shrinks o o1 -> shrinks o (retireIfSpent id o1).
Proof. intros H1. unfold retireIfSpent. repeat case_match; auto using shrinks_retire. Qed.

Lemma specs_clearGraceTimer o : o_specs (clearGraceTimer o) = o_specs o.
Proof. unfold clearGraceTimer. by destruct (o_graceTimer o). Qed.

Lemma specs_read {A} (f : nat -> A) o a o' : read f o = (a, o') -> o_specs o' = o_specs o.
Proof. by intros [= _ <-]. Qed.

Lemma specs_scheduleAfter d c o t o' : scheduleAfter d c o = (t, o') -> o_specs o' = o_specs o.
Proof. by intros [= _ <-]. Qed.

Lemma specs_rescheduleGraceWake o : o_specs (rescheduleGraceWake o) = o_specs o.
Proof.
  assert (HC : forall o a, o_specs ((clearGraceTimer o) <| o_graceTimerAt := a |>) = o_specs o)
    by (intros; apply specs_clearGraceTimer).
  unfold rescheduleGraceWake. case_match; [apply HC|]. case_match; [apply HC|].
  destruct (read world_now o) as [now o1] eqn:E1. apply specs_read in E1. case_match.
  - case_match; [done|]. destruct (read world_now _) as [now2 o2] eqn:E2. apply specs_read in E2.
    destruct (scheduleAfter _ _ o2) as [t' o3] eqn:E3. apply specs_scheduleAfter in E3.
    change (o_specs o3 = o_specs o). by rewrite E3, E2, HC.
  - destruct (scheduleAfter _ _ _) as [t' o3] eqn:E3. apply specs_scheduleAfter in E3.
    change (o_specs o3 = o_specs o). by rewrite E3, HC.
Qed.

Lemma shrinks_rescheduleGraceWake o o1 : shrinks o o1 -> shrinks o (rescheduleGraceWake o1).
Proof. apply shrinks_same, specs_rescheduleGraceWake. Qed.

Lemma shrinks_failStart id m o o1 : shrinks o o1 -> shrinks o (failStart id m o1).
Proof. intros H1. unfold failStart. auto 6 with shrink. Qed.

Lemma shrinks_installProcess id pid port o o1 : shrinks o o1 -> shrinks o (installProcess id pid port o1).
Proof.
  intros H1. unfold installProcess. unpair. set (o2 := setState _ _ _).
  assert (H2 : shrinks o o2).
  { apply shrinks_setState, shrinks_upd; [intros ?; by split|]. apply shrinks_read. by eapply shrinks_same; [reflexivity|]. }
  case_match; [|done]. apply shrinks_emit, shrinks_upd; [intros ?; split; [done|done|]; by simpl; intros ->|].
  apply shrinks_foldl; [|done]. auto with shrink.
Qed.

(** ** What runs before and after the siblings are re-asked

    Two ways [w1] and [w2] of re-asking that agree on every table the operation can hand
    them give the same result. *)

Section agree.
Context (w1 w2 : string -> owner -> owner) (id : string).

Definition agree (o : owner) : Prop := forall o', shrinks o o' -> w1 id o' = w2 id o'.

Lemma agree_mono o o' : shrinks o o' -> agree o -> agree o'.
Proof. intros H1 HA o2 H2. apply HA. by etrans. Qed.

Lemma setNotPermitted_agree m o : agree o -> setNotPermitted w1 id m o = setNotPermitted w2 id m o.
Proof. intros HA. unfold setNotPermitted. unpair. apply HA. auto 10 with shrink. Qed.

Lemma setPendingVRAMUnknown_agree m o :
  agree o -> setPendingVRAMUnknown w1 id m o = setPendingVRAMUnknown w2 id m o.
Proof. intros HA. unfold setPendingVRAMUnknown. unpair. apply HA. case_match; auto 10 with shrink. Qed.

Lemma startProcess_agree o : agree o -> startProcess w1 id o = startProcess w2 id o.
Proof.
  intros HA. unfold startProcess. destruct (o_specs o !! id) as [st|]; [|done]. cbv zeta.
  case_match; [by apply setNotPermitted_agree|]. case_match; [by apply setNotPermitted_agree|].
  assert (exists port o1, (if spec_ListenPort (st_spec st) =? 0 then read world_ephemeralPort o
    else (inr (spec_ListenPort (st_spec st)), o)) = (port, o1) /\ shrinks o o1) as (port & o1 & -> & Hs1).
  { case_match; [|by eexists _, _]. eexists _, _. split; [apply surjective_pairing|by apply shrinks_read]. }
  destruct port as [|port]; [done|]. case_match; [apply setNotPermitted_agree; by eapply agree_mono|done].
Qed.

Context (Hw2 : forall o, shrinks o (w2 id o)).

Lemma shrinks_wake o o1 : shrinks o o1 -> shrinks o (w2 id o1).
Proof. intros H1. by etrans. Qed.

Lemma shrinks_setNotPermitted m o o1 : shrinks o o1 -> shrinks o (setNotPermitted w2 id m o1).
Proof. intros H1. unfold setNotPermitted. unpair. apply shrinks_wake. auto 10 with shrink. Qed.

Lemma shrinks_setPendingVRAMUnknown m o o1 :
  shrinks o o1 -> shrinks o (setPendingVRAMUnknown w2 id m o1).
Proof.
  intros H1. unfold setPendingVRAMUnknown. unpair. apply shrinks_wake. case_match; auto 10 with shrink.
Qed.

Lemma shrinks_startProcess o o1 : shrinks o o1 -> shrinks o (startProcess w2 id o1).
Proof.
  intros H1. unfold startProcess. destruct (o_specs o1 !! id) as [st|]; [|done]. cbv zeta.
  case_match; [by apply shrinks_setNotPermitted|]. case_match; [by apply shrinks_setNotPermitted|].
  assert (exists port o2, (if spec_ListenPort (st_spec st) =? 0 then read world_ephemeralPort o1
    else (inr (spec_ListenPort (st_spec st)), o1)) = (port, o2) /\ shrinks o o2) as (port & o2 & -> & Hs2).
  { case_match; [|by eexists _, _]. eexists _, _. split; [apply surjective_pairing|by apply shrinks_read]. }
  destruct port as [|port]; [by apply shrinks_failStart|]. case_match; [by apply shrinks_setNotPermitted|].
  unpair. case_match; [apply shrinks_failStart; auto with shrink|].
  unpair. case_match; [apply shrinks_failStart|apply shrinks_installProcess]; auto with shrink.
Qed.

Lemma actOnDecision_agree dec o : agree o -> actOnDecision w1 id dec o = actOnDecision w2 id dec o.
Proof.
  intros HA. unfold actOnDecision. cbv zeta. set (o1 := upd id _ o).
  assert (H1 : shrinks o o1) by (subst o1; auto with shrink).
  assert (HA1 : agree o1) by (by eapply agree_mono).
  case_match; [done|]. case_match; [by apply setNotPermitted_agree|].
  case_match; [by apply setPendingVRAMUnknown_agree|]. case_match; [done|]. case_match; [|done].
  rewrite startProcess_agree by done. case_match; [|done]. case_match; [|done].
  apply HA. by apply shrinks_startProcess.
Qed.

Lemma shrinks_actOnDecision dec o o1 : shrinks o o1 -> shrinks o (actOnDecision w2 id dec o1).
Proof.
  intros H1. unfold actOnDecision. cbv zeta. set (o2 := upd id _ o1).
  assert (H2 : shrinks o o2) by (subst o2; auto with shrink).
  case_match; [auto with shrink|]. case_match; [by apply shrinks_setNotPermitted|].
  case_match; [by apply shrinks_setPendingVRAMUnknown|]. case_match; [auto with shrink|]. case_match.
  - pose proof (shrinks_startProcess o o2 H2). repeat case_match; try done. by apply shrinks_wake.
  - apply shrinks_for_each; [|case_match; auto with shrink].
    intros v o3 o4 H34. apply shrinks_beginDrain. case_match; auto with shrink.
Qed.

Lemma decideAdmission_agree o : agree o -> decideAdmission w1 id o = decideAdmission w2 id o.
Proof.
  intros HA. unfold decideAdmission. cbv zeta. set (o1 := upd id _ o).
  rewrite (surjective_pairing (buildSnapshot o1)). cbv beta iota.
  assert (Hs : shrinks o (buildSnapshot o1).2) by (apply shrinks_buildSnapshot; subst o1; auto with shrink).
  case_match; [|done]. case_match; [done|].
  rewrite (surjective_pairing (vramBootstrapEligible id s _)). cbv beta iota.
  apply actOnDecision_agree. eapply agree_mono, HA. by apply shrinks_vramBootstrapEligible.
Qed.

Lemma shrinks_decideAdmission o o1 : shrinks o o1 -> shrinks o (decideAdmission w2 id o1).
Proof.
  intros H1. unfold decideAdmission. cbv zeta. set (o2 := upd id _ o1).
  rewrite (surjective_pairing (buildSnapshot o2)). cbv beta iota.
  assert (Hs : shrinks o (buildSnapshot o2).2) by (apply shrinks_buildSnapshot; subst o2; auto with shrink).
  case_match; [|done]. case_match; [case_match; auto with shrink|].
  rewrite (surjective_pairing (vramBootstrapEligible id s _)). cbv beta iota.
  apply shrinks_actOnDecision. by apply shrinks_vramBootstrapEligible.
Qed.

Lemma admitBody_agree o : agree o -> admitBody w1 id o = admitBody w2 id o.
Proof.
  intros HA. unfold admitBody. destruct (o_specs o !! id) as [st|]; [|done]. cbv zeta.
  case_match; [done|]. case_match; [done|]. case_match; [done|].
  assert (HA1 : agree (upd id clearWaits o)) by (eapply agree_mono, HA; auto with shrink).
  case_match; [by apply setNotPermitted_agree|]. case_match; [done|]. by apply decideAdmission_agree.
Qed.

Lemma shrinks_admitBody o o1 : shrinks o o1 -> shrinks o (admitBody w2 id o1).
Proof.
  intros H1. unfold admitBody. destruct (o_specs o1 !! id) as [st|]; [|done]. cbv zeta.
  assert (H2 : shrinks o (upd id clearWaits o1)) by (auto with shrink).
  case_match; [done|]. case_match; [done|]. case_match; [auto with shrink|].
  case_match; [by apply shrinks_setNotPermitted|]. case_match; [auto with shrink|]. by apply shrinks_decideAdmission.
Qed.

End agree.

(** ** The rows above an instance *)

Definition above (b : string) (k : Z) (o : owner) : gset string :=
  dom (filter (fun e : string * specState => specBase (st_spec e.2) = b /\ k < st_instance e.2) (o_specs o)).

Lemma elem_of_above b k o i :
  i ∈ above b k o <-> exists st, o_specs o !! i = Some st /\ specBase (st_spec st) = b /\ k < st_instance st.
Proof.
  unfold above. rewrite elem_of_dom. unfold is_Some. setoid_rewrite map_lookup_filter_Some. naive_solver.
Qed.

Lemma above_shrinks b k o o' : shrinks o o' -> above b k o' ⊆ above b k o.
Proof.
  intros HS i. rewrite !elem_of_above. intros (st & Hst & Hb & Hk).
  destruct (HS _ _ Hst) as (st0 & Hst0 & [E _ _]). injection E as E1 E2. exists st0.
  split_and!; [done|congruence|lia].
Qed.

Definition rank (id : string) (o : owner) : nat :=
  match o_specs o !! id with
  | Some st => size (above (specBase (st_spec st)) (st_instance st) o)
  | None => 0%nat
  end.

Lemma rank_bound id o : (rank id o <= size (o_specs o))%nat.
Proof.
  unfold rank. case_match; [|lia]. unfold above. rewrite <- size_dom.
  apply subseteq_size. apply dom_filter_subseteq.
Qed.

(** A sibling above has fewer rows above it. *)
Lemma rank_climb id o st i o' sib :
  o_specs o !! id = Some st -> shrinks o o' -> o_specs o' !! i = Some sib ->
  specBase (st_spec sib) = specBase (st_spec st) -> st_instance st < st_instance sib ->
  (rank i o' < rank id o)%nat.
Proof.
  intros Hst HS Hsib Hb Hk. unfold rank. rewrite Hst, Hsib, Hb. apply subset_size. split.
  - etrans; [by apply above_shrinks|]. intros j. rewrite !elem_of_above. intros (sj & Hj & Hbj & Hkj).
    exists sj. split_and!; [done|done|lia].
  - intros Hsub. assert (Hin : i ∈ above (specBase (st_spec st)) (st_instance st) o).
    { apply (above_shrinks _ _ _ _ HS), elem_of_above. by exists sib. }
    apply Hsub, elem_of_above in Hin as (s2 & Hs2 & _ & Hlt). assert (s2 = sib) as -> by congruence. lia.
Qed.

(** ** The recursion *)

Lemma shrinks_wakeSiblings ask id o :
  (forall i o, shrinks o (ask i o)) -> shrinks o (wakeSiblingsWaitingFor ask id o).
Proof.
  intros Ha. unfold wakeSiblingsWaitingFor. destruct (o_specs o !! id); [|done].
  unfold range_specs. unpair. apply shrinks_for_each; [|auto with shrink].
  intros i o1 o2 H12. repeat case_match; try done. by etrans.
Qed.

Lemma shrinks_admitAndStartFuel fuel id o : shrinks o (admitAndStartFuel fuel id o).
Proof.
  revert id o. induction fuel as [|fuel IH]; intros id o; [done|]. cbn [admitAndStartFuel].
  case_match; [done|]. apply shrinks_rescheduleGraceWake, shrinks_retireIfSpent, shrinks_admitBody; [|done].
  intros o1. apply shrinks_wakeSiblings, IH.
Qed.

(** Two ways of asking that agree on lower ranks re-ask the siblings alike. *)
Lemma wakeSiblings_agree ask1 ask2 id o0 o st :
  o_specs o0 !! id = Some st -> shrinks o0 o ->
  (forall i o', (rank i o' < rank id o0)%nat -> ask1 i o' = ask2 i o') ->
  (forall i o, shrinks o (ask2 i o)) ->
  wakeSiblingsWaitingFor ask1 id o = wakeSiblingsWaitingFor ask2 id o.
Proof.
  intros Hst HS Ha Hs. unfold wakeSiblingsWaitingFor.
  destruct (o_specs o !! id) as [st1|] eqn:Hst1; [|done].
  destruct (HS _ _ Hst1) as (st' & E & [Hsh _ _]). assert (st' = st) as -> by congruence. clear E.
  injection Hsh as E1 E2. unfold range_specs. unpair.
  set (o1 := (read _ o).2). assert (S1 : shrinks o0 o1) by (by apply shrinks_read).
  set (p := fun i => match o_specs o1 !! i with Some sib => _ | None => false end).
  assert (Hl : Forall (fun i => exists sib, o_specs o1 !! i = Some sib /\ st_instance st < st_instance sib
      /\ specBase (st_spec sib) = specBase (st_spec st)) (sortInstanceOrder o1 (List.filter p (read (fun n => world_range n (map_to_list (o_specs o)).*1) o).1))).
  { apply Forall_forall. intros i. unfold sortInstanceOrder. rewrite sort_Slice_perm. rewrite elem_of_filter_bool.
    intros [_ Hp]. unfold p in Hp. destruct (o_specs o1 !! i) as [sib|]; [|done]. exists sib. split; [done|].
    rewrite !andb_true_iff in Hp. destruct Hp as [[_ Hlt%Z.ltb_lt] Hb%String.eqb_eq]. split; [lia|congruence]. }
  unfold for_each. revert S1 Hl. generalize (sortInstanceOrder o1 (List.filter p (read (fun n => world_range n (map_to_list (o_specs o)).*1) o).1)) as l.
  assert (Hgo : forall l o2, shrinks o1 o2 -> shrinks o0 o1 -> Forall (fun i => exists sib, o_specs o1 !! i = Some sib
      /\ st_instance st < st_instance sib /\ specBase (st_spec sib) = specBase (st_spec st)) l ->
    foldl (fun o i => match o_specs o !! i with
      | Some sib => if st_waitingOnSibling sib && negb (has_proc sib) then ask1 i o else o | None => o end) o2 l
    = foldl (fun o i => match o_specs o !! i with
      | Some sib => if st_waitingOnSibling sib && negb (has_proc sib) then ask2 i o else o | None => o end) o2 l).
  { induction l as [|i l IH]; intros o2 S12 S01 HF; [done|]. inversion_clear HF as [|? ? (sib & Hsib & Hk & Hb) HF'].
    cbn [foldl]. destruct (o_specs o2 !! i) as [s2|] eqn:Hs2; [|by apply IH].
    destruct (S12 _ _ Hs2) as (s1 & E & [Hsh _ _]). assert (s1 = sib) as -> by congruence. injection Hsh as F1 F2.
    case_match; [|by apply IH]. rewrite Ha.
    - apply IH; [by etrans|done|done].
    - eapply rank_climb; [exact Hst|by etrans|exact Hs2|congruence|lia]. }
  intros l S01 HF. by apply Hgo.
Qed.

(** Any number of levels above the rank gives the same result. *)
Lemma admitAndStartFuel_enough n : forall f1 f2 id o,
  (rank id o < n)%nat -> (n <= f1)%nat -> (n <= f2)%nat ->
  admitAndStartFuel f1 id o = admitAndStartFuel f2 id o.
Proof.
  induction n as [|n IH]; intros f1 f2 id o Hr H1 H2; [lia|].
  destruct f1 as [|f1], f2 as [|f2]; [lia..|]. cbn [admitAndStartFuel]. case_match; [done|].
  enough (E : admitBody (wakeSiblingsWaitingFor (admitAndStartFuel f1)) id o
            = admitBody (wakeSiblingsWaitingFor (admitAndStartFuel f2)) id o) by (rewrite E; reflexivity).
  destruct (o_specs o !! id) as [st|] eqn:Hst; [|unfold admitBody; rewrite Hst; reflexivity].
  apply admitBody_agree; [intros o'; apply shrinks_wakeSiblings; intros ? ?; apply shrinks_admitAndStartFuel|].
  intros o' HS. eapply wakeSiblings_agree; [exact Hst|exact HS| |intros ? ?; apply shrinks_admitAndStartFuel].
  intros i o2 Hlt. apply IH; lia.
Qed.

Lemma admitAndStartFuel_admitAndStart fuel id o :
  (rank id o < fuel)%nat -> admitAndStartFuel fuel id o = admitAndStart id o.
Proof.
  intros Hf. pose proof (rank_bound id o). apply (admitAndStartFuel_enough (S (rank id o))); lia.
Qed.

(** ** A burst instance is settled by its decision

    Either it runs or nothing waits for it. *)

Definition settled (id : string) (o : owner) : Prop :=
  forall st, o_specs o !! id = Some st -> has_proc st = true \/ st_pending st = [].

Lemma settled_shrinks id o o' : shrinks o o' -> settled id o -> settled id o'.
Proof.
  intros HS Ho st' Hst'. destruct (HS _ _ Hst') as (st & Hst & [_ Kp Kq]).
  destruct (Ho _ Hst); auto.
Qed.

Lemma settled_failPending id err o : settled id (failPending id err o).
Proof.
  unfold failPending. destruct (o_specs o !! id) as [st0|] eqn:E; [|intros st Hst; congruence].
  intros st. unfold upd. simpl. rewrite lookup_alter_eq.
  intros (st1 & _ & ->)%fmap_Some_1. by right.
Qed.

Section settles.
Context (wake : string -> owner -> owner) (Hw : forall id o, shrinks o (wake id o)).
Context (id : string).

Lemma settled_setNotPermitted m o : settled id (setNotPermitted wake id m o).
Proof. unfold setNotPermitted. unpair. eapply settled_shrinks; [apply Hw|apply settled_failPending]. Qed.

Lemma settled_setPendingVRAMUnknown m o : settled id (setPendingVRAMUnknown wake id m o).
Proof. unfold setPendingVRAMUnknown. unpair. eapply settled_shrinks; [apply Hw|apply settled_failPending]. Qed.

Lemma settled_failStart m o : settled id (failStart id m o).
Proof. unfold failStart. eapply settled_shrinks; [by apply shrinks_enterBackoff|apply settled_failPending]. Qed.

Lemma settled_installProcess pid port o : settled id (installProcess id pid port o).
Proof.
  unfold installProcess. unpair. set (o1 := upd id _ _). set (o2 := setState _ _ _).
  assert (H1 : settled id o1).
  { intros st. subst o1. unfold upd. simpl. rewrite lookup_alter_eq.
    intros (st1 & _ & ->)%fmap_Some_1. by left. }
  assert (H2 : settled id o2) by (eapply settled_shrinks, H1; by apply shrinks_setState).
  case_match; [|done]. eapply settled_shrinks, H2. apply shrinks_emit, shrinks_upd.
  - intros ?. split; [done|done|]. by simpl; intros ->.
  - apply shrinks_foldl; [|done]. auto with shrink.
Qed.

Lemma settled_startProcess o : settled id (startProcess wake id o).
Proof.
  unfold startProcess. destruct (o_specs o !! id) as [st|] eqn:E; [|intros st Hst; congruence]. cbv zeta.
  case_match; [apply settled_setNotPermitted|]. case_match; [apply settled_setNotPermitted|].
  destruct (if spec_ListenPort (st_spec st) =? 0 then _ else _) as [port o1].
  destruct port as [|port]; [apply settled_failStart|]. case_match; [apply settled_setNotPermitted|].
  unpair. case_match; [apply settled_failStart|]. unpair. case_match; [apply settled_failStart|].
  apply settled_installProcess.
Qed.

Lemma settled_actOnDecision snap spec o :
  ps_NoEvict snap = true -> settled id (actOnDecision wake id (Admit snap spec) o).
Proof.
  intros [HW HE]%(Admit_noEvict _ spec). unfold actOnDecision. rewrite HW, HE. cbv zeta.
  case_match; [apply settled_failPending|]. case_match; [apply settled_setNotPermitted|].
  case_match; [apply settled_setPendingVRAMUnknown|].
  pose proof (fun o => settled_startProcess o) as Hs. repeat case_match; [|apply Hs..].
  eapply settled_shrinks; [apply Hw|apply Hs].
Qed.

Lemma settled_decideAdmission o st :
  o_specs o !! id = Some st -> burst st = true -> settled id (decideAdmission wake id o).
Proof.
  intros Hst Hb. unfold decideAdmission. cbv zeta. set (o1 := upd id _ o).
  rewrite (surjective_pairing (buildSnapshot o1)). cbv beta iota.
  assert (HS : shrinks o (buildSnapshot o1).2) by (apply shrinks_buildSnapshot; subst o1; auto with shrink).
  destruct (o_specs (buildSnapshot o1).2 !! id) as [st2|] eqn:E; [|intros s Hs; rewrite E in Hs; done].
  destruct (HS _ _ E) as (st0 & E0 & [Hsh _ _]). assert (st0 = st) as -> by congruence.
  assert (Hb2 : burst st2 = true) by (unfold burst; injection Hsh as -> ->; done). rewrite Hb2.
  case_match; [apply settled_failPending|].
  rewrite (surjective_pairing (vramBootstrapEligible id st2 _)). cbv beta iota.
  by apply settled_actOnDecision.
Qed.

Lemma burst_unprotected st : burst st = true -> protected st = false.
Proof. unfold burst, protected, IsBurst. rewrite Z.leb_le, Z.ltb_ge. lia. Qed.

Lemma settled_admitBody o st :
  o_specs o !! id = Some st -> burst st = true -> st_state st <> StateBackoff ->
  settled id (admitBody wake id o).
Proof.
  intros Hst Hb Hs. unfold admitBody. rewrite Hst. cbv zeta.
  destruct (has_proc st) eqn:Hp; cbn [orb]; [intros s E; assert (s = st) as -> by congruence; by left|].
  rewrite bool_decide_eq_false_2 by done. set (o1 := upd id clearWaits o).
  assert (HS : shrinks o o1) by (subst o1; auto with shrink).
  assert (Hst1 : o_specs o1 !! id = Some (clearWaits st)) by (subst o1; unfold upd; simpl; by rewrite lookup_alter_eq, Hst).
  destruct (wantsUp st) eqn:Hwu; cbn [negb].
  - case_match; [apply settled_failPending|]. case_match; [apply settled_setNotPermitted|].
    unfold lowerSiblingWaiting. rewrite (burst_unprotected _ Hb), orb_true_r.
    by apply (settled_decideAdmission o1 (clearWaits st)).
  - apply (settled_shrinks _ _ _ HS). intros s E. assert (s = st) as -> by congruence. right.
    unfold wantsUp, has_pending in Hwu. by destruct (st_pending st).
Qed.

End settles.

End shrinking.
