(* ===== verification/ManagerProps.v ===== *)
(** * The runtime manager: properties of runs

    What the manager promises about any run in which the outside keeps its promises
    ([promises], ManagerRuns): the state invariant, the books of processes and in-flight
    counts, the process limit and the coresidency matrix, shutdown; about such a run whose
    pushes are calm ([protocol]): the books of requests; and what single operations promise
    on any table: the recursion of an admission, burst requests,
    idle unloading, the retry delay, addresses.  The module [Scenario] is a concrete
    environment and run on which the hypotheses hold. *)

From Stdlib Require Import ZArith Lia Ascii.
From stdpp Require Import base tactics option list numbers strings pretty gmap relations.
From S2P Require Import Prelude RuntimeTypes RuntimeTypesProps Policy PolicyProps.
From S2P Require Import Manager ManagerAdmit ManagerTurns ManagerSteps ManagerMoves ManagerAdmitSteps.
From S2P Require Import ManagerLedger ManagerTurnSteps ManagerEventSteps ManagerExitSteps ManagerApplySteps.
From S2P Require Import ManagerPush ManagerRuns ManagerRecursion.
Local Open Scope Z_scope.
Local Open Scope go_scope.

(** ** Reading the books off the effects *)

Lemma answered_observe o : answered (observe o) = answered (o_effects o).
Proof.
  unfold observe, answered. induction (o_effects o) as [|e es IH]; [done|].
  destruct e as [| ? ? []| | | | | | | | | | | | |]; csimpl; by rewrite ?IH.
Qed.

Lemma launched_observe o : launched (observe o) = launched (o_effects o).
Proof.
  unfold observe, launched. induction (o_effects o) as [|e es IH]; [done|].
  destruct e as [| ? ? []| | | | | | | | | | | | |]; csimpl; by rewrite ?IH.
Qed.

Lemma handed_observe g o : handed_count g (observe o) = handed_count g (o_effects o).
Proof.
  unfold handed_count, observe. f_equal. f_equal. induction (o_effects o) as [|e es IH]; [done|].
  destruct e as [| ? ? []| | | | | | | | | | | | |]; csimpl; by rewrite ?IH.
Qed.

Lemma gather_nil {A} (f : string * specState -> list A) m :
  (forall id st, m !! id = Some st -> f (id, st) = []) -> gather f m = [].
Proof.
  intros Hf. unfold gather.
  assert (Hl : Forall (fun e => f e = []) (map_to_list m))
    by (apply Forall_forall; intros [id st] Hin%elem_of_map_to_list; by apply Hf).
  induction Hl as [|e l He _ IH]; [done|]. rewrite fmap_cons. simpl. by rewrite He.
Qed.

(** The reply channels of the requests among the events, in order. *)
Definition requests (evs : list event) : list channel :=
  omap (fun ev => match ev with Command (cmdEnsure _ reply _) => Some reply | _ => None end) evs.

Section properties.
Context `{Unicode} `{World}.

Lemma run_stopped o evs : o_stopped o = true -> run o evs = o.
Proof.
  intros Hs. unfold run. induction evs as [|ev evs IH]; [done|]. cbn [foldl].
  unfold turn at 2. by rewrite Hs.
Qed.

Lemma record_asked b o evs :
  o_stopped (run o evs) = false -> bk_asked (record b o evs) = reverse (requests evs) ++ bk_asked b.
Proof.
  revert b o. induction evs as [|ev evs IH]; intros b o Hs; [done|].
  assert (Ho : o_stopped o = false).
  { destruct (o_stopped o) eqn:E; [|done]. rewrite run_stopped in Hs by done. congruence. }
  cbn [record]. rewrite IH by exact Hs. unfold note. rewrite Ho. csimpl.
  destruct ev as [[]| |]; cbn [requests omap]; csimpl; try done.
  - by rewrite reverse_cons, <- app_assoc.
  - by case_match.
Qed.

Lemma final_snoc opts evs ev : final opts (evs ++ [ev]) = turn (final opts evs) ev.
Proof. unfold final. by rewrite run_app. Qed.

Lemma keeps_snoc {CP : Calm} opts evs ev :
  keeps opts (evs ++ [ev]) = true ->
  keeps opts evs = true /\ event_ok (booked opts evs) (final opts evs) ev = true.
Proof.
  unfold keeps. rewrite obeys_app. intros [H1 H2]%andb_true_iff. split; [done|].
  cbn [obeys] in H2. by rewrite andb_true_r in H2.
Qed.

(** ** Runs *)

(** What holds of an instance between turns; [n] is the next generation. *)
Record consistent (closing : bool) (n : generation) (id : string) (st : specState) : Prop := {
  co_identity : instance_ok id (st_spec st) (st_instance st);
  co_idle : st_proc st = None ->
    st_state st <> StateStarting /\ st_state st <> StateRunning /\ st_inFlight st = 0 /\
    st_intentionalStop st = false /\ st_backoffOnExit st = false /\
    st_measuredVRAM st = ∅ /\ st_measuredRAM st = 0 /\ st_readyVRAM st = ∅ /\ st_readyRAM st = 0;
  co_resting : st_proc st = None -> st_state st = StateDraining -> st_instance st <> 0;
  co_live p : st_proc st = Some p ->
    (proc_gen p < n)%nat /\ st_state st ∈ [StateStarting; StateRunning; StateDraining; StateStartFailed] /\
    (st_state st = StateRunning -> proc_everHealthy p = true) /\ (st_state st = StateStarting -> proc_everHealthy p = false);
  co_forced : is_Some (st_proc st) -> spec_AdminState (st_spec st) = "force_stopped" -> st_state st = StateDraining;
  co_intent : is_Some (st_proc st) -> st_intentionalStop st = true ->
    st_state st = StateDraining \/ st_state st = StateStartFailed;
  co_removed : st_removed st = true -> is_Some (st_proc st) /\ st_state st = StateDraining;
  co_backoff : is_Some (st_backoffTimer st) <-> st_state st = StateBackoff;
  co_burst : burst st = true -> st_state st <> StateBackoff;
  co_closing : closing = true ->
    st_pending st = [] /\ (is_Some (st_proc st) -> st_state st = StateDraining) /\ st_state st <> StateBackoff
}.

Lemma row_ok_consistent {CP : Calm} c n id st : row_ok ∅ c n id (abs st) -> consistent c n id st.
Proof.
  intros [OI OD ORe OF OL OT OFo ON OR OB OBu OC].
  assert (Hp : is_Some (st_proc st) -> is_Some (r_proc (abs st))) by (intros [p E]; simpl; by rewrite E).
  assert (Hn : st_proc st = None -> r_proc (abs st) = None) by (simpl; by intros ->).
  split; try done; try (by auto).
  - intros (H1 & H2 & H3 & H4 & H5 & Hm)%Hn%OD. simpl in Hm. apply negb_false_iff in Hm.
    rewrite !andb_true_iff, !bool_decide_eq_true, !Z.eqb_eq in Hm. by destruct_and! Hm.
  - intros p E. destruct (OL (proc_gen p) (proc_everHealthy p)) as (H1 & H2 & H3 & H4); [simpl; by rewrite E|].
    split_and!; [done| |done|done]. simpl in H2. destruct (st_state st); try done; set_solver.
  - intros Hl Ha. apply OFo; [by apply Hp|done|set_solver].
  - intros Hr. destruct (OR Hr) as [Hl Hd]. split; [|done]. simpl in Hl. destruct (st_proc st); [done|by apply is_Some_None in Hl].
  - rewrite <- OB. simpl. by rewrite bool_decide_eq_true.
  - intros Hc. destruct (OC Hc) as (Hq & Hd & Hb). split_and!; [|auto|done]. simpl in Hq. by destruct (st_pending st).
Qed.

(** C1.  After any run in which the outside keeps its promises ([promises], ManagerRuns:
    nothing is asked of what is pushed but that base specs are named) every instance is
    [consistent].  One without a process is neither starting nor running, holds no in-flight
    request, no note for an exit and no measurement, and only a further instance can rest in
    the draining state.  One with a process is starting, running, draining or torn down after
    a failed start; it has been healthy if running, and has not if starting.  A retry timer
    is set exactly in the backoff state, in which no burst instance is; a force-stopped
    instance that still runs is draining, and a removed one still runs and is draining; keys,
    specs and indexes agree; while the manager shuts down nothing waits and what runs drains;
    and no two instances share a generation. *)
Theorem manager_invariant opts evs :
  promises opts evs = true ->
  let o := final opts evs in
  (forall id st, o_specs o !! id = Some st -> consistent (o_closing o) (o_nextProc o) id st) /\
  (forall id1 id2 st1 st2 p1 p2, o_specs o !! id1 = Some st1 -> o_specs o !! id2 = Some st2 ->
    st_proc st1 = Some p1 -> st_proc st2 = Some p2 -> proc_gen p1 = proc_gen p2 -> id1 = id2).
Proof.
  intros Hp o. pose proof (sd_inv _ _ _ _ (Steady_final opts evs Hp)) as HI. fold o in HI. split.
  - intros id st Hst. eapply row_ok_consistent, (inv_rows _ _ _ _ HI), Hst.
  - intros id1 id2 st1 st2 p1 p2 H1 H2 E1 E2 Hg.
    eapply (inv_gens _ _ _ _ HI id1 id2 st1 st2 (proc_gen p1)); try done; simpl; rewrite ?E1, ?E2; simpl; by rewrite ?Hg.
Qed.

(** C2.  Every request is answered exactly once or is still queued, and nothing else is
    answered: the channels replied to and those queued are the channels of the requests
    the manager took, with multiplicity; and it took every request of the run unless it
    has stopped.  (On runs whose pushes are calm, [protocol].) *)
Theorem requests_answered_once opts evs :
  protocol opts evs = true ->
  let o := final opts evs in
  answered (o_effects o) ++ queued_in (o_specs o) ≡ₚ bk_asked (booked opts evs) /\
  (o_stopped o = false -> answered (o_effects o) ++ queued_in (o_specs o) ≡ₚ requests evs).
Proof.
  intros Hp o. pose proof (sd_accounted _ _ _ _ (Steady_final opts evs Hp)) as HA.
  specialize (HA eq_refl). rewrite answered_observe in HA. split; [exact HA|]. intros Hs.
  fold o in HA. rewrite HA. cbn. unfold booked. rewrite record_asked by exact Hs.
  by rewrite app_nil_r, reverse_Permutation.
Qed.

(** C7.  The process limit holds across every turn: after it there are at most as many
    processes as the configuration in force allows, or as there were before it (a push may
    lower the limit under what already runs). *)
Theorem turn_within_limit opts evs ev :
  promises opts (evs ++ [ev]) = true ->
  let o := final opts evs in let o' := final opts (evs ++ [ev]) in
  0 < cfg_MaxProcesses (o_cfg o') ->
  live_count o' <= Z.max (live_count o) (cfg_MaxProcesses (o_cfg o')).
Proof.
  intros [Hp Hev]%keeps_snoc o o' HM. subst o'. rewrite final_snoc in *. fold o in HM |- *.
  set (N := Z.max _ _).
  pose proof (Sound_turn _ o ev N (Steady_final opts evs Hp) Hev ltac:(unfold within; lia)) as HS.
  apply (sd_within _ _ _ _ HS). cbn. lia.
Qed.

(** C8.  No process is started beside one it may not run with: of two processes live
    after a turn, if the later one was started in this turn, their specs are the same or
    the configuration in force lists them as a coresident pair. *)
Theorem turn_respects_matrix opts evs ev :
  promises opts (evs ++ [ev]) = true ->
  compatible (o_nextProc (final opts evs)) (final opts (evs ++ [ev])).
Proof.
  intros [Hp Hev]%keeps_snoc. rewrite final_snoc.
  apply (sd_compatible _ _ _ _ (Sound_turn _ (final opts evs) ev _ (Steady_final opts evs Hp) Hev (Z.le_refl _))).
Qed.

(** C12.  The in-flight counter of a live process is exact: the requests handed to this
    generation less those released, at the width of the counter. *)
Theorem in_flight_exact opts evs id st p :
  promises opts evs = true ->
  o_specs (final opts evs) !! id = Some st -> st_proc st = Some p ->
  st_inFlight st = int64 (handed_count (proc_gen p) (o_effects (final opts evs))
                          - releases (proc_gen p) (booked opts evs)).
Proof.
  intros Hp Hst E. pose proof (sd_balanced _ _ _ _ (Steady_final opts evs Hp)) as [_ _ HB].
  rewrite <- handed_observe. eapply (HB id st _ (proc_everHealthy p) Hst). simpl. by rewrite E.
Qed.

(** No generation is started twice, and every start was of an instance that had no
    process and was not force-stopped, permitted by the local policy and admitted by the
    admission policy against a snapshot that lists exactly the processes live then. *)
Lemma starts_once opts evs :
  promises opts evs = true ->
  let es := o_effects (final opts evs) in
  NoDup (launched es).*1 /\ forall g id, (g, id) ∈ launched es ->
    (g < o_nextProc (final opts evs))%nat /\ permitted_start (CP := false) g id.
Proof.
  intros Hp es. destruct (sd_starts _ _ _ _ (Steady_final opts evs Hp)) as [S1 S2].
  rewrite launched_observe in S1, S2. split; [exact S1|exact S2].
Qed.

(** ** Shutdown *)

(** C13.  Once the manager shuts down nothing is queued: every request it took has been
    answered, and what still runs is draining. *)
Theorem close_answers_all opts evs :
  protocol opts evs = true -> o_closing (final opts evs) = true ->
  queued_in (o_specs (final opts evs)) = [] /\
  answered (o_effects (final opts evs)) ≡ₚ bk_asked (booked opts evs) /\
  forall id st, o_specs (final opts evs) !! id = Some st -> has_proc st = true -> st_state st = StateDraining.
Proof.
  intros Hp Hc. pose proof (Steady_final opts evs Hp) as HS. set (o := final opts evs) in *.
  pose proof (inv_rows _ _ _ _ (sd_inv _ _ _ _ HS)) as HR. rewrite Hc in HR.
  assert (HQ : queued_in (o_specs o) = []).
  { apply gather_nil. intros id st Hst. by apply (ok_closing _ _ _ _ _ (HR _ _ Hst)). }
  split_and!; [done|..].
  - pose proof (sd_accounted _ _ _ _ HS eq_refl) as HA. cbn [gh_asked ghost_of] in HA.
    by rewrite answered_observe, HQ, app_nil_r in HA.
  - intros id st Hst Hl. destruct (ok_closing _ _ _ _ _ (HR _ _ Hst) eq_refl) as (_ & Hd & _).
    apply Hd. simpl. unfold has_proc in Hl. destruct (st_proc st); [by eexists|done].
Qed.

(** Shutdown is final: whatever happens after the manager began to shut down, it
    stays shutting down and starts no process. *)
Theorem closed_starts_nothing opts evs evs' :
  promises opts (evs ++ evs') = true -> o_closing (final opts evs) = true ->
  o_closing (final opts (evs ++ evs')) = true /\
  launched (o_effects (final opts (evs ++ evs'))) = launched (o_effects (final opts evs)).
Proof.
  unfold promises, keeps. rewrite obeys_app. intros [H1 H2]%andb_true_iff Hc.
  pose proof (Steady_final (CP := false) opts evs H1) as HS.
  destruct (closing_run _ _ evs' HS H2 Hc) as [E1 E2].
  rewrite !launched_observe in E2. unfold final in *. by rewrite run_app.
Qed.

(** C14.  Shutdown ends: the owner stops exactly when no process is left, and once the
    exits of all the processes live at that moment have been delivered, in any order and
    among any others, it has stopped. *)
Theorem shutdown_ends opts evs xs :
  promises opts evs = true -> o_closing (final opts evs) = true ->
  (o_stopped (final opts evs) = true <-> live_in (o_specs (final opts evs)) = []) /\
  ((forall id st p, o_specs (final opts evs) !! id = Some st -> st_proc st = Some p ->
      exists e, (id, proc_gen p, e) ∈ xs) ->
   o_stopped (final opts (evs ++ ((fun x => Command (cmdChildExited x.1.1 x.1.2 x.2)) <$> xs))) = true).
Proof.
  intros Hp Hc. pose proof (ended_final opts evs Hp) as HE. split.
  - unfold ended in HE. by rewrite Hc in HE.
  - intros Hall. unfold final. rewrite run_app. fold (final opts evs).
    eapply exits_stop; [exact (Steady_final opts evs Hp)|done|done|].
    intros id g (st & h & Hst & Hg). simpl in Hg. destruct (st_proc st) as [p|] eqn:E; [|done].
    injection Hg as <- <-. by eapply Hall.
Qed.

(** ** Admissions *)

(** C15.  The recursion between an admission and the siblings it wakes ends: with the
    levels [admitAndStart] grants, it satisfies the recursive equation of the source, in
    which the siblings are re-asked with [admitAndStart] itself, on every table. *)
Theorem admitAndStart_equation id o :
  admitAndStart id o =
  if o_closing o then o
  else rescheduleGraceWake (retireIfSpent id (admitBody (wakeSiblingsWaitingFor admitAndStart) id o)).
Proof.
  unfold admitAndStart at 1. cbn [admitAndStartFuel]. case_match; [done|].
  enough (E : admitBody (wakeSiblingsWaitingFor (admitAndStartFuel (size (o_specs o)))) id o
            = admitBody (wakeSiblingsWaitingFor admitAndStart) id o) by (rewrite E; reflexivity).
  destruct (o_specs o !! id) as [st|] eqn:Hst; [|unfold admitBody; rewrite Hst; reflexivity].
  apply admitBody_agree; [intros o'; apply shrinks_wakeSiblings; intros ? ?; apply shrinks_admitAndStartFuel|].
  intros o' HS. eapply wakeSiblings_agree; [exact Hst|exact HS| |intros ? ?; apply shrinks_admitAndStartFuel].
  intros i o2 Hlt. apply admitAndStartFuel_admitAndStart. pose proof (rank_bound id o). lia.
Qed.

(** A request to a burst instance never waits for capacity: once the instance has
    been decided it has a process, or no request is queued on it. *)
Theorem admitAndStart_burst id o st :
  o_closing o = false -> o_specs o !! id = Some st -> burst st = true -> st_state st <> StateBackoff ->
  forall st', o_specs (admitAndStart id o) !! id = Some st' -> has_proc st' = true \/ st_pending st' = [].
Proof.
  intros Hc Hst Hb Hs. unfold admitAndStart. cbn [admitAndStartFuel]. rewrite Hc.
  fold (settled id (rescheduleGraceWake (retireIfSpent id (admitBody
    (wakeSiblingsWaitingFor (admitAndStartFuel (size (o_specs o)))) id o)))).
  eapply settled_shrinks; [apply shrinks_rescheduleGraceWake, shrinks_retireIfSpent; reflexivity|].
  eapply settled_admitBody; [|done..]. intros i o'. apply shrinks_wakeSiblings. intros ? ?.
  apply shrinks_admitAndStartFuel.
Qed.


(** ** Idle unloading *)

(** The conditions of the beat: running, not protected, with a timeout, nothing in
    flight, no higher sibling, and unused for the timeout. *)
Definition idle_due (now : time) (st : specState) (o : owner) : bool :=
  has_proc st && bool_decide (st_state st = StateRunning) && negb (protected st)
  && (0 <? spec_IdleTimeoutSeconds (st_spec st)) && (st_inFlight st =? 0)
  && negb (higherSiblingRuns st o)
  && (int64 (spec_IdleTimeoutSeconds (st_spec st) * second) <=? time_Sub now (st_lastUsed st)).

(** One round of the loop. *)
Definition scanOne (now : time) (id : string) (o : owner) : owner :=
  match o_specs o !! id with
  | Some st => if idle_due now st o then beginDrain id o else o
  | None => o
  end.

Lemma scanIdle_scanOne o :
  exists now ids o1, scanIdle o = for_each ids (scanOne now) o1 /\ now = world_now (o_reads o)
    /\ ids ≡ₚ (map_to_list (o_specs o)).*1 /\ o_specs o1 = o_specs o.
Proof.
  unfold scanIdle. rewrite (surjective_pairing (read _ o)). set (o1 := (read _ o).2).
  rewrite (surjective_pairing (range_specs o1)).
  eexists (world_now (o_reads o)), (range_specs o1).1, (range_specs o1).2.
  split_and!; [|reflexivity|apply world_range_perm|done].
  unfold for_each. generalize (range_specs o1).1 as l, (range_specs o1).2 as o2.
  induction l as [|id l IH]; intros o2; [done|]. cbn [foldl]. rewrite IH. f_equal.
  unfold scanOne, idle_due. destruct (o_specs o2 !! id) as [st|]; [|done].
  rewrite Z.ltb_antisym. destruct (has_proc st), (bool_decide _), (protected st),
    (spec_IdleTimeoutSeconds (st_spec st) <=? 0), (st_inFlight st =? 0), (higherSiblingRuns st o2); done.
Qed.

(** Draining a process neither adds nor removes one. *)
Lemma own_scanOne now id o : own id o (scanOne now id o).
Proof. unfold scanOne. repeat case_match; first [done|apply own_beginDrain]. Qed.

Lemma higherSiblingRuns_spec st o :
  higherSiblingRuns st o = true <-> exists id sib, o_specs o !! id = Some sib /\ has_proc sib = true
    /\ st_instance st < st_instance sib /\ specBase (st_spec sib) = specBase (st_spec st).
Proof.
  unfold higherSiblingRuns. rewrite existsb_exists. split.
  - intros ([id sib] & Hin%list_elem_of_In%elem_of_map_to_list & Hb). cbn [snd] in Hb.
    apply andb_true_iff in Hb as [[Hp Hk%Z.ltb_lt]%andb_true_iff Hs%String.eqb_eq]. by exists id, sib.
  - intros (id & sib & Hst & Hp & Hk & Hs). exists (id, sib).
    split; [by apply list_elem_of_In, elem_of_map_to_list|]. cbn [snd].
    by rewrite Hp, (proj2 (Z.ltb_lt _ _) Hk), Hs, String.eqb_refl.
Qed.

(** Two tables with the same processes. *)
Definition same_live (o o' : owner) : Prop :=
  forall id, (fun st => (shape st, has_proc st)) <$> o_specs o !! id
           = (fun st => (shape st, has_proc st)) <$> o_specs o' !! id.

Lemma higherSiblingRuns_same st o o' : same_live o o' -> higherSiblingRuns st o = higherSiblingRuns st o'.
Proof.
  intros HS. apply eq_iff_eq_true. rewrite !higherSiblingRuns_spec.
  assert (Hgo : forall o o', same_live o o' ->
    (exists id sib, o_specs o !! id = Some sib /\ has_proc sib = true /\ st_instance st < st_instance sib
       /\ specBase (st_spec sib) = specBase (st_spec st)) ->
    exists id sib, o_specs o' !! id = Some sib /\ has_proc sib = true /\ st_instance st < st_instance sib
       /\ specBase (st_spec sib) = specBase (st_spec st)).
  { intros o1 o2 H12 (id & sib & Hst & Hp & Hk & Hb). specialize (H12 id). rewrite Hst in H12.
    destruct (o_specs o2 !! id) as [s2|] eqn:E; [|done]. injection H12 as E1 E2 E3.
    exists id, s2. split_and!; [done|congruence|lia|congruence]. }
  split; apply Hgo; [done|]. intros id. by rewrite HS.
Qed.

Lemma idle_due_same now st o o' : same_live o o' -> idle_due now st o = idle_due now st o'.
Proof. intros HS. unfold idle_due. by rewrite (higherSiblingRuns_same st o o' HS). Qed.

Lemma same_live_beginDrain id o : same_live o (beginDrain id o).
Proof.
  intros k. destruct (decide (k = id)) as [->|Hne]; [|by rewrite own_beginDrain].
  destruct (o_specs o !! id) as [st|] eqn:Hst; [|unfold beginDrain; by rewrite Hst, Hst].
  destruct (lc_beginDrain id (abs st) o) as (r' & es & HD & [(st' & A & S) _ _]); [by exists st|].
  rewrite S, lookup_insert_eq. simpl. f_equal.
  assert (E : r_spec (abs st') = r_spec (abs st) /\ r_instance (abs st') = r_instance (abs st)
    /\ live_row (abs st') = live_row (abs st)) by (rewrite A; by destruct HD).
  destruct E as (E1 & E2 & E3). rewrite !live_abs in E3. unfold shape. simpl in E1, E2. by rewrite E1, E2, E3.
Qed.

Lemma same_live_scanOne now id o : same_live o (scanOne now id o).
Proof. unfold scanOne. repeat case_match; first [done|apply same_live_beginDrain]. Qed.

Lemma scanOne_own now id o st :
  o_specs o !! id = Some st ->
  if idle_due now st o
  then exists st', o_specs (scanOne now id o) !! id = Some st' /\ has_proc st' = true /\ st_state st' = StateDraining
  else o_specs (scanOne now id o) !! id = Some st.
Proof.
  intros Hst. unfold scanOne. rewrite Hst. destruct (idle_due now st o) eqn:E; [|done].
  pose proof (same_live_beginDrain id o id) as HL. rewrite Hst in HL.
  destruct (o_specs (beginDrain id o) !! id) as [st'|] eqn:Hst'; [|done]. injection HL as _ _ Hp.
  exists st'. assert (Hl : has_proc st' = true).
  { rewrite <- Hp. unfold idle_due in E. by destruct (has_proc st). }
  split_and!; [done|done|by eapply beginDrain_draining].
Qed.

Lemma scan_rest now id o ids :
  id ∉ ids -> o_specs (for_each ids (scanOne now) o) !! id = o_specs o !! id.
Proof.
  unfold for_each. revert o. induction ids as [|k ids IH]; intros o Hni; [done|]. cbn [foldl].
  apply not_elem_of_cons in Hni as [Hk Hni]. by rewrite IH, own_scanOne.
Qed.

Lemma scan_row now id st ids : forall o,
  NoDup ids -> id ∈ ids -> o_specs o !! id = Some st ->
  if idle_due now st o
  then exists st', o_specs (for_each ids (scanOne now) o) !! id = Some st'
                   /\ has_proc st' = true /\ st_state st' = StateDraining
  else o_specs (for_each ids (scanOne now) o) !! id = Some st.
Proof.
  induction ids as [|k ids IH]; intros o HN Hin Hst; [by apply not_elem_of_nil in Hin|].
  apply NoDup_cons in HN as [Hk HN]. change (for_each (k :: ids) (scanOne now) o)
    with (for_each ids (scanOne now) (scanOne now k o)).
  destruct (decide (id = k)) as [->|Hne].
  - rewrite scan_rest by done. by apply scanOne_own.
  - apply elem_of_cons in Hin as [?|Hin]; [done|].
    rewrite (idle_due_same now st o _ (same_live_scanOne now k o)).
    apply IH; [done|done|]. by rewrite own_scanOne.
Qed.

(** The housekeeping beat unloads exactly the instances that are due, whatever order
    the table is walked in: a running instance that is not protected, has an idle timeout
    and has been unused for it, has no request in flight and no higher sibling that runs
    is draining afterwards; every other row is untouched. *)
Theorem scanIdle_spec o id st :
  o_specs o !! id = Some st ->
  if idle_due (world_now (o_reads o)) st o
  then exists st', o_specs (scanIdle o) !! id = Some st' /\ has_proc st' = true /\ st_state st' = StateDraining
  else o_specs (scanIdle o) !! id = Some st.
Proof.
  intros Hst. destruct (scanIdle_scanOne o) as (now & ids & o1 & -> & -> & HP & HS).
  assert (HL : same_live o o1) by (intros k; by rewrite HS).
  rewrite (idle_due_same _ st o o1 HL). apply scan_row.
  - rewrite HP. apply NoDup_fst_map_to_list.
  - rewrite HP. apply list_elem_of_fmap. exists (id, st). split; [done|]. by apply elem_of_map_to_list.
  - by rewrite HS.
Qed.

(** ** The retry delay *)

Lemma backoffLoop_stop fuel i n d : n <= i \/ backoffCap <= d -> backoffLoop fuel i n d = d.
Proof.
  intros Hd. destruct fuel as [|fuel]; [done|]. cbn [backoffLoop].
  destruct Hd as [Hd|Hd]; [rewrite (proj2 (Z.ltb_ge _ _) Hd)|rewrite (proj2 (Z.ltb_ge d _) Hd), andb_false_r]; done.
Qed.

Lemma backoffLoop_next fuel i n d :
  i < n -> 0 <= d < backoffCap ->
  backoffLoop (S fuel) i n d = backoffLoop fuel (i + 1) n (2 * d).
Proof.
  intros Hi [Hpos Hd]. cbn [backoffLoop]. rewrite (proj2 (Z.ltb_lt _ _) Hi), (proj2 (Z.ltb_lt _ _) Hd). simpl.
  f_equal. rewrite int64_id; [lia|]. unfold backoffCap, second in Hd. unfold in_int64, int64_min, int64_max. lia.
Qed.

Lemma backoffLoop_doubles n fuel : forall i d,
  i <= n -> 0 < d -> backoffCap <= d * 2 ^ Z.of_nat fuel ->
  Z.min backoffCap (backoffLoop fuel i n d) = Z.min backoffCap (d * 2 ^ (n - i)).
Proof.
  induction fuel as [|fuel IH]; intros i d Hi Hd Hf.
  - assert (1 <= 2 ^ (n - i)) by (apply Z.pow_le_mono_r with (a := 2) (b := 0); lia).
    cbn [backoffLoop]. change (2 ^ Z.of_nat 0) with 1 in Hf. nia.
  - destruct (decide (backoffCap <= d)) as [Hc|Hc].
    { assert (1 <= 2 ^ (n - i)) by (apply Z.pow_le_mono_r with (a := 2) (b := 0); lia).
      rewrite backoffLoop_stop by auto. nia. }
    destruct (decide (i = n)) as [->|Hne].
    { rewrite backoffLoop_stop, Z.sub_diag by (left; lia). by rewrite Z.mul_1_r. }
    rewrite backoffLoop_next, IH by (rewrite ?Nat2Z.inj_succ, ?Z.pow_succ_r in Hf; lia).
    replace (n - i) with (Z.succ (n - (i + 1))) by lia. rewrite Z.pow_succ_r by lia. f_equal. lia.
Qed.

(** The wait before a failed instance is tried again doubles with every failure in a
    row, from one second up to one minute, and stays there; no number of failures
    overflows it. *)
Theorem backoffDelayFor_spec failures :
  backoffDelayFor failures = Z.min backoffCap (backoffBase * 2 ^ Z.max 0 (failures - 1)).
Proof.
  transitivity (Z.min backoffCap (backoffLoop 64 1 failures backoffBase)).
  { unfold backoffDelayFor. destruct (Z.ltb_spec backoffCap (backoffLoop 64 1 failures backoffBase)); lia. }
  destruct (decide (1 <= failures)).
  - rewrite backoffLoop_doubles; [by rewrite Z.max_r by lia|done|done|by vm_compute].
  - rewrite backoffLoop_stop, Z.max_l, Z.mul_1_r by lia. done.
Qed.

(** ** Addresses *)

(** Every instance is reached by the address it is published under: if the index
    maps a model to a spec that is not being removed and allows the index, and no other
    spec claims the address as its model, then the address of instance [k] of that model
    resolves to exactly that spec and index. *)
Theorem resolveAddress_published model k id st o :
  0 <= k -> o_byUpstream o !! model = Some id -> o_specs o !! id = Some st ->
  (k <> 0 -> st_removed st = false /\ InstanceAllowed (st_spec st) k = true
             /\ o_byUpstream o !! InstanceAddress model k = None) ->
  resolveAddress (InstanceAddress model k) o = Some (id, model, k).
Proof.
  intros Hk Hm Hst Hfree. unfold resolveAddress. destruct (decide (k = 0)) as [->|Hk0].
  { change (InstanceAddress model 0) with model. by rewrite Hm, Hst. }
  destruct (Hfree Hk0) as (Hr & Ha & ->).
  assert (Hb : 1 <= k <= MaxInstanceIndex).
  { unfold InstanceAllowed in Ha. rewrite (proj2 (Z.eqb_neq _ _) Hk0) in Ha.
    destruct (Z.ltb_spec MaxInstanceIndex k); [|lia]. by rewrite orb_true_r in Ha. }
  rewrite parse_address by done. rewrite (proj2 (Z.eqb_neq _ _) Hk0).
  by rewrite Hm, Hst, Hr, Ha.
Qed.

End properties.

(** ** A concrete run *)

Module Scenario.

#[export] Instance uni : Unicode := ascii_tables.

(** A host without sampling or measurers on which every start succeeds. *)
#[export] Program Instance world : World := {|
  world_now n := Z.of_nat n * second;
  world_measurer _ := None;
  world_ramMeasurer _ := false;
  world_hostInfo _ := None;
  world_hostSeq _ := 0;
  world_exited _ _ := false;
  world_ephemeralPort n := inr (40000 + Z.of_nat n);
  world_writeConfigFiles _ _ _ := None;
  world_startCommand n _ _ := inr (100 + Z.of_nat n);
  world_logTail _ _ := "";
  world_range _ l := l;
  world_permit _ := None;
  world_expand _ _ := None;
  world_planConfigFiles _ := None |}.
Next Obligation. done. Qed.

Definition opts : options := mkOptions GPUVendorNone 0 0 0 0.

(** [chat] keeps one instance up and may have more, [embed] starts on demand. *)
Definition chat (min : Z) : Spec :=
  zeroSpec <| spec_ID := "chat" |> <| spec_UpstreamModel := "m" |> <| spec_RAMMB := 100 |>
           <| spec_Replicable := true |> <| spec_MinInstances := min |> <| spec_IdleTimeoutSeconds := 1 |>.

Definition embed : Spec :=
  zeroSpec <| spec_ID := "embed" |> <| spec_UpstreamModel := "n" |> <| spec_RAMMB := 100 |>.

Definition config (min limit : Z) (etag : string) : Config :=
  mkConfig 0 limit [] [chat min; embed] [("chat", "embed")] etag.

Definition apply_config (min limit : Z) (etag : string) : event :=
  Command (cmdApply (config min limit etag) 0%nat).

(** Both models are brought up and asked, a third instance finds no room, one request
    ends, the configuration changes. *)
Definition work : list event :=
  [apply_config 1 2 "v1"; Command (cmdStartResult "chat" 0%nat true);
   Command (cmdEnsure "m" 1%nat true); Command (cmdEnsure "n" 2%nat true);
   Command (cmdStartResult "embed" 1%nat true); Command (cmdEnsure "m#1" 3%nat false);
   Command (cmdRelease "chat" 0%nat); IdleTick; apply_config 1 3 "v2";
   Command (cmdEnsure "m#1" 4%nat false)].

Definition closing : list event := work ++ [Command cmdClose].

Definition exits : list (string * generation * option ExitError) :=
  [("chat", 0%nat, None); ("chat#1", 2%nat, None); ("embed", 1%nat, None)].

(** The table after the work: the requested instance starts, one request is in flight. *)
Example work_trace :
  (fun e => (e.1, st_state e.2, st_inFlight e.2, w_reply <$> st_pending e.2)) <$> entries (final opts work) =
    [("chat#1", StateStarting, 0, [4%nat]); ("chat", StateRunning, 0, []);
     ("embed", StateRunning, 1, [])].
Proof. vm_compute. reflexivity. Qed.

Lemma work_obeys : protocol opts work = true.
Proof. reflexivity. Qed.

Lemma work_promised : promises opts work = true.
Proof. reflexivity. Qed.

Lemma closing_obeys : protocol opts closing = true.
Proof. reflexivity. Qed.

Lemma closing_promised : promises opts closing = true.
Proof. reflexivity. Qed.

Lemma manager_invariant_witness :
  exists st, o_specs (final opts work) !! "chat#1" = Some st /\
    consistent false 3%nat "chat#1" st.
Proof.
  eexists. split; [vm_compute; reflexivity|].
  apply (proj1 (manager_invariant opts work work_promised) "chat#1"). vm_compute. reflexivity.
Defined.

Lemma requests_answered_once_witness :
  protocol opts work = true /\
  answered (o_effects (final opts work)) ++ queued_in (o_specs (final opts work)) ≡ₚ [1; 2; 3; 4]%nat.
Proof. split; [reflexivity|]. apply (proj2 (requests_answered_once opts work work_obeys) eq_refl). Defined.

Lemma turn_within_limit_witness :
  0 < cfg_MaxProcesses (o_cfg (final opts (take 5 work ++ [Command (cmdEnsure "m#1" 3%nat false)]))) /\
  live_count (final opts (take 5 work ++ [Command (cmdEnsure "m#1" 3%nat false)])) <= 2.
Proof.
  split; [reflexivity|].
  eapply Z.le_trans; [apply (turn_within_limit opts (take 5 work) (Command (cmdEnsure "m#1" 3%nat false))); reflexivity|].
  vm_compute. discriminate.
Defined.

Lemma turn_respects_matrix_witness :
  exists st1 st2, o_specs (final opts (take 3 work ++ [Command (cmdEnsure "n" 2%nat true)])) !! "chat" = Some st1 /\
    o_specs (final opts (take 3 work ++ [Command (cmdEnsure "n" 2%nat true)])) !! "embed" = Some st2 /\
    coresident (o_allowedPairs (final opts (take 3 work ++ [Command (cmdEnsure "n" 2%nat true)])))
      (specBase (st_spec st2)) (specBase (st_spec st1)) = true.
Proof.
  do 2 eexists. split; [vm_compute; reflexivity|]. split; [vm_compute; reflexivity|].
  eapply (fun H => turn_respects_matrix opts (take 3 work) (Command (cmdEnsure "n" 2%nat true)) H "chat" "embed");
    [reflexivity|vm_compute; reflexivity|vm_compute; reflexivity|vm_compute; reflexivity|vm_compute; reflexivity|lia|].
  vm_compute. lia.
Defined.

Lemma in_flight_exact_witness :
  exists st p, o_specs (final opts work) !! "embed" = Some st /\ st_proc st = Some p /\
    st_inFlight st = int64 (handed_count (proc_gen p) (o_effects (final opts work))
                            - releases (proc_gen p) (booked opts work)).
Proof.
  do 2 eexists. split; [vm_compute; reflexivity|]. split; [vm_compute; reflexivity|].
  eapply (in_flight_exact opts work "embed" _ _ work_promised); vm_compute; reflexivity.
Defined.

Lemma close_answers_all_witness :
  o_closing (final opts closing) = true /\ queued_in (o_specs (final opts closing)) = [] /\
  answered (o_effects (final opts closing)) ≡ₚ [1; 2; 3; 4]%nat.
Proof.
  split; [reflexivity|]. destruct (close_answers_all opts closing closing_obeys eq_refl) as (HQ & HA & _).
  split; [exact HQ|]. etrans; [exact HA|]. apply (reverse_Permutation [1; 2; 3; 4]%nat).
Defined.

Lemma closed_starts_nothing_witness :
  o_closing (final opts (closing ++ [Command (cmdEnsure "m#2" 9%nat false)])) = true /\
  launched (o_effects (final opts (closing ++ [Command (cmdEnsure "m#2" 9%nat false)]))) =
    launched (o_effects (final opts closing)).
Proof. apply (closed_starts_nothing opts closing [Command (cmdEnsure "m#2" 9%nat false)]); reflexivity. Defined.

Lemma shutdown_ends_witness :
  o_stopped (final opts closing) = false /\
  o_stopped (final opts (closing ++ ((fun x => Command (cmdChildExited x.1.1 x.1.2 x.2)) <$> exits))) = true.
Proof.
  split; [reflexivity|]. apply (shutdown_ends opts closing exits closing_promised eq_refl).
  intros id st p Hst%elem_of_map_to_list%list_elem_of_In Hp.
  assert (Hall : forallb (fun e => match st_proc e.2 with
      | Some p => existsb (fun x => String.eqb x.1.1 e.1 && Nat.eqb x.1.2 (proc_gen p)) exits
      | None => true end) (entries (final opts closing)) = true) by reflexivity.
  rewrite forallb_forall in Hall. specialize (Hall _ Hst). cbn [fst snd] in Hall. rewrite Hp in Hall.
  apply existsb_exists in Hall as ([[id' g] e] & Hin & Hx). apply andb_true_iff in Hx as [Hi Hg].
  apply String.eqb_eq in Hi as <-. apply Nat.eqb_eq in Hg as <-. exists e. by apply list_elem_of_In.
Defined.

(** The table after the second push, with a request queued on a new burst instance. *)
Definition asked_burst : owner :=
  (final opts (take 9 work)) <| o_specs ::= insert "chat#1"
    ((newState (specForInstance (chat 1) 1) 1 0) <| st_pending := [mkWaiter 7%nat None 0] |>) |>.

Lemma admitAndStart_burst_witness :
  exists st', o_specs (admitAndStart "chat#1" asked_burst) !! "chat#1" = Some st' /\
    (has_proc st' = true \/ st_pending st' = []).
Proof.
  eexists. split; [vm_compute; reflexivity|].
  eapply (admitAndStart_burst "chat#1" asked_burst); [| | | |vm_compute; reflexivity];
    [reflexivity|vm_compute; reflexivity|vm_compute; reflexivity|by vm_compute].
Defined.

Lemma scanIdle_spec_witness :
  exists st, o_specs (final opts work) !! "chat" = Some st /\ protected st = true /\
    o_specs (scanIdle (final opts work)) !! "chat" = Some st.
Proof.
  eexists. split; [vm_compute; reflexivity|]. split; [vm_compute; reflexivity|].
  match goal with |- _ = Some ?st => pose proof (scanIdle_spec (final opts work) "chat" st) as HI end.
  match type of HI with context [if ?b then _ else _] => replace b with false in HI by (vm_compute; reflexivity) end.
  apply HI. vm_compute. reflexivity.
Defined.

Lemma resolveAddress_published_witness :
  resolveAddress "m#1" (final opts work) = Some ("chat", "m", 1).
Proof.
  eapply (resolveAddress_published "m" 1 "chat" _ (final opts work));
    [lia|vm_compute; reflexivity|vm_compute; reflexivity|]. by vm_compute.
Defined.

(** ** A demoted instance that rests at draining *)

(** Two instances are kept up; the start of the second fails; the floor drops to one
    while its process is being torn down; it is stopped and its process exits. *)
Definition demotion : list event :=
  [apply_config 2 0 "v1"; Command (cmdStartResult "chat" 0%nat true);
   Command (cmdStartResult "chat#1" 1%nat false); apply_config 1 0 "v2";
   Command (cmdStop "m#1" 5%nat); Command (cmdChildExited "chat#1" 1%nat None)].

(** A burst row can rest without a process in the draining state: a protected
    instance whose start failed is demoted by a push while its process is torn down, then
    stopped; when the process exits, the retry noted for that exit finds a burst instance,
    only fails its queue and leaves the row where it was.  Every promise of [protocol] is
    kept.  The state [draining] is documented as one of a live process, and such a row as
    retired. *)
Theorem demoted_instance_rests_draining :
  protocol opts demotion = true /\
  exists st, o_specs (final opts demotion) !! "chat#1" = Some st /\
    burst st = true /\ st_state st = StateDraining /\ st_proc st = None /\ st_pending st = [].
Proof. split; [reflexivity|]. eexists. split; [vm_compute; reflexivity|]. by vm_compute. Qed.

(** A burst instance is asked for and its start fails; while its process is torn down the
    floor is raised over it, a request is queued on it and the floor drops again. *)
Definition torn : list event :=
  [apply_config 1 3 "v1"; Command (cmdStartResult "chat" 0%nat true);
   Command (cmdEnsure "m#1" 1%nat false); Command (cmdStartResult "chat#1" 1%nat false);
   apply_config 2 3 "v2"; Command (cmdEnsure "m#1" 2%nat false); apply_config 1 3 "v3";
   Command (cmdChildExited "chat#1" 1%nat None); Command (cmdEnsure "m#1" 3%nat false)].

(** Promoting an instance that is torn down is a calm push, demoting it while a request
    waits is not; the invariant does not depend on it, and here the request is kept. *)
Example torn_pushes :
  protocol opts (take 6 torn) = true /\ protocol opts torn = false /\ promises opts torn = true /\
  queued_in (o_specs (final opts torn)) = [2; 3]%nat.
Proof. vm_compute. auto. Qed.

End Scenario.
