(* ===== verification/TtlCache.v ===== *)
(** * The TTL cache

    Models [gateway/backend/internal/ttlcache/cache.go].  [Cache] memoises one value
    behind a TTL; [get] loads outside the lock and publishes only if no [Invalidate]
    ran meanwhile.  The atomic sections of [get] -- reading the clock, the first
    critical section, the load, the second critical section -- are the steps of an
    interleaving machine: any number of calls in flight, [Invalidate], the clock and
    the memoised setting itself moving in between.  An execution is a list of events,
    and [exec] computes each step. *)

From Stdlib Require Import ZArith Lia.
From stdpp Require Import base tactics option list numbers strings gmap.
From S2P Require Import Prelude.
Local Open Scope Z_scope.

Section cache.
Context {T : Type}.

(** ** The cache *)

Record Cache := mkCache {
  c_val : T;
  c_exp : time;
  c_gen : Z   (* uint64 *)
}.

(** The first critical section: [inl] is a hit, [inr gen] a miss. *)
Definition checkCached (now : time) (c : Cache) : T + Z :=
  if now <? c_exp c then inl (c_val c) else inr (c_gen c).

(** The second critical section, [now] being the clock read inside it. *)
Definition publish (gen : Z) (v : T) (now : time) (ttl : duration) (c : Cache) : Cache :=
  if c_gen c =? gen then mkCache v (time_Add now ttl) (c_gen c) else c.

Definition Invalidate (c : Cache) : Cache :=
  mkCache (c_val c) time_zero (uint64 (c_gen c + 1)).

Definition ExpiresAt (c : Cache) : time := c_exp c.

(** A [get] that nothing interleaves with; [load] is called on a miss only, and the
    clock is read again after it. *)
Definition get (now after : time) (load : unit -> T * duration) (c : Cache) : T * Cache :=
  match checkCached now c with
  | inl v => (v, c)
  | inr gen => let '(v, ttl) := load tt in (v, publish gen v after ttl c)
  end.

Definition Get (now after : time) (ttl : duration) (load : unit -> T) (c : Cache) : T * Cache :=
  get now after (fun _ => (load tt, ttl)) c.

Definition GetTTL (now after : time) (load : unit -> T * duration) (c : Cache) : T * Cache :=
  get now after load c.

(** ** Interleavings *)

Inductive call :=
| Timed (now : time)
| Loading (gen : Z)
| Loaded (gen : Z) (v : T) (ttl : duration)
| Done (v : T).

Record world := mkWorld {
  w_cache : Cache;
  w_clock : time;
  w_setting : T;              (* what a load reads *)
  w_invalidations : Z;        (* how often [Invalidate] ran *)
  w_calls : gmap nat call
}.

Inductive event :=
| EStart (i : nat)                    (* call [i] enters [get] and reads the clock *)
| ECheck (i : nat)                    (* its first critical section *)
| ELoad (i : nat) (ttl : duration)    (* its load reads the setting, and picks a TTL *)
| EPublish (i : nat)                  (* its second critical section *)
| EInvalidate
| ETick (t : time)
| ESet (v : T).                       (* the setting changes in the store *)

Definition setCall (i : nat) (p : call) (w : world) : world :=
  mkWorld (w_cache w) (w_clock w) (w_setting w) (w_invalidations w) (<[i := p]> (w_calls w)).
Definition setCache (c : Cache) (w : world) : world :=
  mkWorld c (w_clock w) (w_setting w) (w_invalidations w) (w_calls w).

Definition exec (e : event) (w : world) : option world :=
  match e with
  | EStart i =>
      match w_calls w !! i with
      | None => Some (setCall i (Timed (w_clock w)) w)
      | Some _ => None
      end
  | ECheck i =>
      match w_calls w !! i with
      | Some (Timed now) =>
          Some (setCall i (match checkCached now (w_cache w) with
                           | inl v => Done v
                           | inr gen => Loading gen
                           end) w)
      | _ => None
      end
  | ELoad i ttl =>
      match w_calls w !! i with
      | Some (Loading gen) => Some (setCall i (Loaded gen (w_setting w) ttl) w)
      | _ => None
      end
  | EPublish i =>
      match w_calls w !! i with
      | Some (Loaded gen v ttl) =>
          Some (setCall i (Done v) (setCache (publish gen v (w_clock w) ttl (w_cache w)) w))
      | _ => None
      end
  | EInvalidate =>
      Some (mkWorld (Invalidate (w_cache w)) (w_clock w) (w_setting w) (w_invalidations w + 1)
              (w_calls w))
  | ETick t =>
      if w_clock w <=? t
      then Some (mkWorld (w_cache w) t (w_setting w) (w_invalidations w) (w_calls w)) else None
  | ESet v => Some (mkWorld (w_cache w) (w_clock w) v (w_invalidations w) (w_calls w))
  end.

Fixpoint run (tr : list event) (w : world) : option world :=
  match tr with
  | [] => Some w
  | e :: tr' => match exec e w with Some w' => run tr' w' | None => None end
  end.

(** The zero cache, before any call. *)
Definition initial (zero setting : T) (now : time) : world :=
  mkWorld (mkCache zero time_zero 0) now setting 0 ∅.

(** ** Invariants *)

Definition call_gen (p : call) : option Z :=
  match p with Loading gen | Loaded gen _ _ => Some gen | _ => None end.

(** Generations count the invalidations, clocks do not run before the zero time. *)
Record world_ok (w : world) : Prop := {
  wo_gen : c_gen (w_cache w) = w_invalidations w;
  wo_clock : 0 <= w_clock w;
  wo_count : 0 <= w_invalidations w;
  wo_calls i p gen : w_calls w !! i = Some p -> call_gen p = Some gen -> gen <= w_invalidations w;
  wo_timed i now : w_calls w !! i = Some (Timed now) -> 0 <= now <= w_clock w
}.

Lemma exec_invalidations e w w' :
  exec e w = Some w' -> w_invalidations w <= w_invalidations w'.
Proof. destruct e; simpl; intros; repeat case_match; simplify_eq; simpl; lia. Qed.

Lemma run_invalidations tr w w' :
  run tr w = Some w' -> w_invalidations w <= w_invalidations w'.
Proof.
  revert w. induction tr as [|e tr IH]; simpl; intros w E; [by simplify_eq|].
  destruct (exec e w) as [w1|] eqn:E1; [|done].
  pose proof (exec_invalidations _ _ _ E1). specialize (IH _ E). lia.
Qed.

(** Invariants of single steps lift to runs, as long as the counter has not wrapped. *)
Lemma run_invariant (P : world -> Prop) (ok : event -> Prop) tr w w' :
  (forall e u u', ok e -> P u -> exec e u = Some u' -> w_invalidations u' < 2 ^ 64 -> P u') ->
  Forall ok tr -> run tr w = Some w' -> w_invalidations w' < 2 ^ 64 -> P w -> P w'.
Proof.
  intros Hstep Hok. revert w. induction Hok as [|e tr He Htr IH]; simpl; intros w E Hlt HP;
    [by simplify_eq|].
  destruct (exec e w) as [w1|] eqn:E1; [|done]. apply (IH w1); [done..|].
  eapply Hstep; [done..|]. pose proof (run_invalidations _ _ _ E). lia.
Qed.

(** Case analysis on a step: one goal per event that is possible. *)
Ltac step_cases E :=
  match type of E with exec ?e ?w = Some _ => destruct e; simpl in E end;
  repeat case_match; simplify_eq; simpl in *.

(** Looks up call [i] after call [j] was updated. *)
Ltac calls_at Hi :=
  match type of Hi with
  | <[?j := _]> _ !! ?i = Some _ =>
      destruct (decide (i = j)) as [->|];
      [rewrite lookup_insert_eq in Hi|rewrite lookup_insert_ne in Hi by done]
  end.

Lemma publish_gen gen v now ttl c : c_gen (publish gen v now ttl c) = c_gen c.
Proof. unfold publish. by case_match. Qed.

Lemma exec_ok e w w' :
  exec e w = Some w' -> w_invalidations w' < 2 ^ 64 -> world_ok w -> world_ok w'.
Proof.
  intros E Hlt [H1 H2 H3 H4 H5]. step_cases E; split; simpl; try done; try lia;
    try (by rewrite publish_gen).
  all: try (intros j p gen' Hj Hg; calls_at Hj; [simplify_eq; simpl in *|by eauto]; simplify_eq).
  all: try (intros j now' Hj; calls_at Hj; [by simplify_eq|by eauto]).
  all: try (intros j now' Hj; calls_at Hj; [simplify_eq; lia|by eauto]).
  - unfold checkCached in *. case_match; simplify_eq. lia.
  - by eapply H4.
  - rewrite H1. unfold uint64. rewrite Z.mod_small; lia.
  - intros j p gen' Hj Hg. specialize (H4 _ _ _ Hj Hg). lia.
  - intros j now' Hj. specialize (H5 _ _ Hj). lia.
Qed.

Lemma initial_ok zero setting now : 0 <= now -> world_ok (initial zero setting now).
Proof. intros Hn. split; simpl; try done; intros *; by rewrite lookup_empty. Qed.

Definition not_set (e : event) : Prop := match e with ESet _ => False | _ => True end.

(** What holds from an [Invalidate] on while the setting keeps the value [s]: [G] is
    the generation it left, [D] the calls that were under way. *)
Record after_invalidate (s : T) (G : Z) (D : gmap nat call) (w : world) : Prop := {
  ai_ok : world_ok w;
  ai_setting : w_setting w = s;
  ai_gen : G <= w_invalidations w;
  ai_served : 0 < c_exp (w_cache w) -> c_val (w_cache w) = s;
  ai_loaded i gen v ttl : w_calls w !! i = Some (Loaded gen v ttl) ->
    G <= gen \/ D !! i = None -> v = s;
  ai_done i v : w_calls w !! i = Some (Done v) -> D !! i = None -> v = s
}.

Lemma after_invalidate_start w w' :
  world_ok w -> exec EInvalidate w = Some w' -> w_invalidations w' < 2 ^ 64 ->
  after_invalidate (w_setting w) (w_invalidations w') (w_calls w) w'.
Proof.
  intros Hok E Hlt. pose proof (exec_ok _ _ _ E Hlt Hok) as Hok'. simpl in E. simplify_eq.
  split; simpl; try done.
  - intros i gen v ttl Hi [Hg|Hd]; [|congruence]. pose proof (wo_calls _ Hok _ _ gen Hi eq_refl). lia.
  - intros i v Hi Hd. congruence.
Qed.

Lemma after_invalidate_step s G D e w w' :
  not_set e -> after_invalidate s G D w -> exec e w = Some w' -> w_invalidations w' < 2 ^ 64 ->
  after_invalidate s G D w'.
Proof.
  intros Hns [Hok Hs HG Hv Hl Hd] E Hlt. pose proof (exec_ok _ _ _ E Hlt Hok) as Hok'.
  pose proof (exec_invalidations _ _ _ E) as Hmono. split; [done|..|];
  step_cases E; try done; try lia.
  all: try (intros j gen' v' ttl' Hj; calls_at Hj; [by simplify_eq|by eauto]).
  all: try (intros j v' Hj; calls_at Hj; [by simplify_eq|by eauto]).
  - unfold publish. case_match; [|done]. bool_hyps. simpl. intros _. eapply Hl; [done|].
    left. rewrite <- (wo_gen _ Hok) in HG. lia.
  - intros j v' Hj Hn. calls_at Hj; [|by eauto]. simplify_eq. unfold checkCached in *.
    case_match; simplify_eq. bool_hyps. apply Hv.
    match goal with Ht : _ = Some (Timed _) |- _ => pose proof (wo_timed _ Hok _ _ Ht) end. lia.
  - intros j v' Hj Hn. calls_at Hj; [|by eauto]. simplify_eq. eauto.
Qed.

(** C37.  No stale value survives an invalidation.  Take any execution, then an
    [Invalidate], then any interleaving during which the setting does not change:
    every call that starts after the [Invalidate] returns the current setting, and
    whatever the cache serves then is the current setting -- also when loads that
    had read an older setting were in flight and finish in between. *)
Theorem get_after_Invalidate zero s0 now0 pre w1 tr w2 :
  0 <= now0 -> run pre (initial zero s0 now0) = Some w1 ->
  run (EInvalidate :: tr) w1 = Some w2 -> Forall not_set tr -> w_invalidations w2 < 2 ^ 64 ->
  (forall i v, w_calls w1 !! i = None -> w_calls w2 !! i = Some (Done v) -> v = w_setting w1) /\
  (forall v, checkCached (w_clock w2) (w_cache w2) = inl v -> v = w_setting w1).
Proof.
  intros H0 Epre E Hns Hlt. cbn [run] in E.
  destruct (exec EInvalidate w1) as [w|] eqn:E1; [|done].
  pose proof (run_invalidations _ _ _ E) as Hm. pose proof (exec_invalidations _ _ _ E1) as Hm1.
  assert (world_ok w1) as Hok.
  { eapply (run_invariant world_ok (fun _ => True));
      [by eauto using exec_ok|by apply Forall_true|exact Epre|lia|by apply initial_ok]. }
  assert (after_invalidate (w_setting w1) (w_invalidations w) (w_calls w1) w2) as HJ.
  { eapply (run_invariant _ not_set); [eauto using after_invalidate_step|done|exact E|done|].
    apply after_invalidate_start; [done..|lia]. }
  split; [intros i v Hn Hd; by eapply ai_done|].
  intros v. unfold checkCached. case_match; [|done]. bool_hyps. intros [= <-].
  apply (ai_served _ _ _ _ HJ). pose proof (wo_clock _ (ai_ok _ _ _ _ HJ)). lia.
Qed.

(** ** Staleness without invalidation *)

Definition ttl_le (L : duration) (e : event) : Prop :=
  match e with ELoad _ ttl => ttl <= L | _ => True end.

Definition load_ttl (p : call) : option duration :=
  match p with Loaded _ _ ttl => Some ttl | _ => None end.

(** Nothing is cached for longer than [L] from now. *)
Record ttl_bounded (L : duration) (w : world) : Prop := {
  tb_ok : world_ok w;
  tb_exp : c_exp (w_cache w) <= w_clock w + Z.max L 0;
  tb_calls i p ttl : w_calls w !! i = Some p -> load_ttl p = Some ttl -> ttl <= L
}.

Lemma ttl_bounded_step L e w w' :
  ttl_le L e -> ttl_bounded L w -> exec e w = Some w' -> w_invalidations w' < 2 ^ 64 ->
  ttl_bounded L w'.
Proof.
  intros He [Hok Hexp Hc] E Hlt. pose proof (exec_ok _ _ _ E Hlt Hok) as Hok'.
  pose proof (wo_clock _ Hok) as Hclk. split; [done|..]; step_cases E; try done; try lia.
  all: try (intros j p ttl' Hj Hp; calls_at Hj; [simplify_eq; simpl in *; by simplify_eq|by eauto]).
  - unfold publish, time_Add. case_match; simpl; [|lia].
    assert (ttl <= L) by eauto. lia.
  - unfold time_zero. lia.
Qed.

(** Once the setting is [s] and no load that read another value is in flight, only
    what was cached before, and expires by [E], can differ from [s]. *)
Record settled (s : T) (E : time) (w : world) : Prop := {
  st_ok : world_ok w;
  st_setting : w_setting w = s;
  st_cached : c_exp (w_cache w) <= E \/ c_val (w_cache w) = s;
  st_loaded i gen v ttl : w_calls w !! i = Some (Loaded gen v ttl) -> v = s
}.

Lemma settled_step s E e w w' :
  not_set e -> 0 <= E -> settled s E w -> exec e w = Some w' -> w_invalidations w' < 2 ^ 64 ->
  settled s E w'.
Proof.
  intros Hns HE [Hok Hs Hc Hl] Ex Hlt. pose proof (exec_ok _ _ _ Ex Hlt Hok) as Hok'.
  split; [done|..]; step_cases Ex; try done; try tauto.
  all: try (intros j gen' v' ttl' Hj; calls_at Hj; [by simplify_eq|by eauto]).
  unfold publish. case_match; simpl; [right; by eauto|done].
Qed.

(** From [E] on, the calls that start -- those not in [D] -- see [s] only. *)
Record settled_late (s : T) (E : time) (D : gmap nat call) (w : world) : Prop := {
  sl_settled : settled s E w;
  sl_clock : E <= w_clock w;
  sl_timed i now : w_calls w !! i = Some (Timed now) -> D !! i = None -> E <= now;
  sl_done i v : w_calls w !! i = Some (Done v) -> D !! i = None -> v = s
}.

Lemma settled_late_step s E D e w w' :
  not_set e -> 0 <= E -> settled_late s E D w -> exec e w = Some w' ->
  w_invalidations w' < 2 ^ 64 -> settled_late s E D w'.
Proof.
  intros Hns HE [Hset Hclk Ht Hd] Ex Hlt. pose proof (settled_step _ _ _ _ _ Hns HE Hset Ex Hlt) as Hset'.
  destruct Hset as [Hok Hs Hc Hl]. split; [done|..]; step_cases Ex; try done; try lia.
  all: try (intros j now' Hj Hn; calls_at Hj; [by simplify_eq|by eauto]).
  - intros j v' Hj Hn. calls_at Hj; [|by eauto]. simplify_eq. unfold checkCached in *.
    case_match; simplify_eq. bool_hyps. destruct Hc as [Hc|Hc]; [|done].
    match goal with Hc : _ = Some (Timed _) |- _ => specialize (Ht _ _ Hc Hn) end. lia.
  - intros j v' Hj Hn. calls_at Hj; [|by eauto]. simplify_eq. eauto.
Qed.

(** Without an invalidation staleness is bounded by the TTL.  When every load
    picks a TTL of at most [L] and no load that read an older setting is in flight,
    every call that starts once [L] has passed returns the current setting. *)
Theorem staleness_bounded_by_ttl L zero s0 now0 pre w1 tr1 w2 tr2 w3 i v :
  0 <= now0 -> run pre (initial zero s0 now0) = Some w1 -> Forall (ttl_le L) pre ->
  (forall j gen u ttl, w_calls w1 !! j = Some (Loaded gen u ttl) -> u = w_setting w1) ->
  run tr1 w1 = Some w2 -> run tr2 w2 = Some w3 -> Forall not_set (tr1 ++ tr2) ->
  w_clock w1 + Z.max L 0 <= w_clock w2 -> w_invalidations w3 < 2 ^ 64 ->
  w_calls w2 !! i = None -> w_calls w3 !! i = Some (Done v) -> v = w_setting w1.
Proof.
  intros H0 Epre Httl Hload E1 E2 [Hns1 Hns2]%Forall_app Hclk Hlt Hi Hd.
  pose proof (run_invalidations _ _ _ E1). pose proof (run_invalidations _ _ _ E2).
  assert (ttl_bounded L w1) as [Hok Hexp _].
  { eapply (run_invariant _ (ttl_le L)); [eauto using ttl_bounded_step|done|exact Epre|lia|].
    split; [by apply initial_ok| |]; simpl; [unfold time_zero; lia|].
    intros *. by rewrite lookup_empty. }
  pose proof (wo_clock _ Hok). set (E := w_clock w1 + Z.max L 0) in *.
  assert (settled (w_setting w1) E w2) as Hset.
  { eapply (run_invariant _ not_set); [|exact Hns1|exact E1|lia|by split; auto].
    intros. eapply settled_step; eauto. lia. }
  assert (settled_late (w_setting w1) E (w_calls w2) w3) as Hlate.
  { eapply (run_invariant _ not_set); [|exact Hns2|exact E2|lia|].
    - intros. eapply settled_late_step; eauto. lia.
    - split; [done..| |]; intros; congruence. }
  by eapply sl_done.
Qed.

(** ** One call on its own *)

(** A call nothing interleaves with is the sequential [get]: the machine's
    steps for it return its result and leave its cache, on a hit and on a miss. *)
Lemma run_get_alone w i after ttl :
  w_calls w !! i = None -> w_clock w <= after ->
  exists tr w', run tr w = Some w' /\
    let '(v, c) := get (w_clock w) after (fun _ => (w_setting w, ttl)) (w_cache w) in
    w_calls w' !! i = Some (Done v) /\ w_cache w' = c.
Proof.
  intros Hi Ha. unfold get. destruct (checkCached (w_clock w) (w_cache w)) as [v|gen] eqn:Ec.
  - exists [EStart i; ECheck i]. eexists. simpl. rewrite Hi. simpl. rewrite lookup_insert_eq, Ec.
    split; [done|]. simpl. by rewrite lookup_insert_eq.
  - exists [EStart i; ECheck i; ELoad i ttl; ETick after; EPublish i]. eexists.
    simpl. rewrite Hi. simpl. rewrite lookup_insert_eq, Ec. simpl. rewrite lookup_insert_eq. simpl.
    rewrite (proj2 (Z.leb_le _ _) Ha). simpl. rewrite lookup_insert_eq. simpl.
    split; [done|]. simpl. by rewrite lookup_insert_eq.
Qed.

End cache.

Arguments Cache : clear implicits.
Arguments event : clear implicits.
Arguments world : clear implicits.

(** ** Concrete executions

    Call 1 misses and loads "on"; the setting turns "off", the cache is invalidated,
    and only then call 1 publishes; call 2 starts afterwards. *)
Definition racing : list (event string) :=
  [EStart 1; ECheck 1; ELoad 1 100; ESet "off"].
Definition after_race : list (event string) :=
  [EPublish 1; EStart 2; ECheck 2; ELoad 2 100; ETick 6; EPublish 2].

Lemma get_after_Invalidate_witness :
  exists w1 w2, run racing (initial "" "on" 5) = Some w1 /\
    run (EInvalidate :: after_race) w1 = Some w2 /\
    w_calls w2 !! 1%nat = Some (Done "on") /\ w_calls w2 !! 2%nat = Some (Done "off") /\
    forall i v, w_calls w1 !! i = None -> w_calls w2 !! i = Some (Done v) -> v = w_setting w1.
Proof.
  do 2 eexists. split; [vm_compute; reflexivity|]. split; [vm_compute; reflexivity|].
  do 2 (split; [reflexivity|]).
  apply (get_after_Invalidate "" "on" 5 racing _ after_race _); try (vm_compute; done).
  repeat constructor.
Defined.

(** "on" is cached until 105; the setting turns "off" at 5 with nothing in flight. *)
Definition settled_run : list (event string) :=
  [EStart 1; ECheck 1; ELoad 1 100; EPublish 1; ESet "off"].
Definition late_call : list (event string) := [EStart 2; ECheck 2; ELoad 2 100; EPublish 2].

Lemma staleness_bounded_by_ttl_witness :
  exists w1 w2 w3, run settled_run (initial "" "on" 5) = Some w1 /\
    run [ETick 105] w1 = Some w2 /\ run late_call w2 = Some w3 /\
    forall v, w_calls w3 !! 2%nat = Some (Done v) -> v = w_setting w1.
Proof.
  exists (mkWorld (mkCache "on" 105 0) 5 "off" 0 {[1%nat := Done "on"]}).
  do 2 eexists. do 3 (split; [vm_compute; reflexivity|]). intros v Hv.
  eapply (staleness_bounded_by_ttl 100 "" "on" 5 settled_run _ [ETick 105] _ late_call _ 2 v);
    [done|vm_compute; reflexivity|by repeat constructor| |vm_compute; reflexivity
    |vm_compute; reflexivity|by repeat constructor|vm_compute; done|vm_compute; done
    |vm_compute; reflexivity|exact Hv].
  intros j gen u ttl. cbn [w_calls]. rewrite lookup_singleton_Some. by intros [_ ?].
Defined.
