(* ===== verification/GroupFlatten.v ===== *)
(** * Group flattening

    Models [gateway/backend/internal/routing/group_flatten.go]: a model group's
    members are models or subgroups, each group is expanded by its own traversal
    strategy, cycles are cut at the back edge, and the flat list is de-duplicated.

    The recursion of [flattenGroup] is bounded by the groups not yet on the path;
    it is modelled with fuel, [S (size graph)] is enough ([flattenFuel_enough]).
    The source's [visiting] map is shared and restored on return ([defer delete]);
    since a group on the path is never entered again, the restored map is the map
    before the call, and the model passes the set down instead. *)

From Stdlib Require Import ZArith Lia.
From stdpp Require Import base tactics option list numbers strings gmap.
From S2P Require Import Prelude.

(** ** Data and operations *)

Record FlatGroup := mkFlatGroup {
  fg_Traversal : string;
  fg_Members : list string;   (* MemberGatewayName of each member, in priority order *)
  fg_Active : bool
}.

Section flatten.
Context `{Unicode}.
Implicit Types (graph : gmap string FlatGroup) (visiting : gset string).

Definition subKey (memberName : string) : string := strings_ToLower (strings_TrimSpace memberName).

Definition isGroup graph (memberName : string) : bool := has_key graph (subKey memberName).

(** [stream]: a model, or the items of a subgroup. *)
Definition stream : Type := string + list string.

Definition stream_len (st : stream) : nat :=
  match st with inl _ => 0 | inr items => length items end.

(** What a stream contributes to pass [k]. *)
Definition stream_pass (k : nat) (st : stream) : list string :=
  match st with
  | inl name => if (k =? 0)%nat then [name] else []
  | inr items => match items !! k with Some x => [x] | None => [] end
  end.

Definition round_robin (streams : list stream) : list string :=
  let maxLen := foldl (fun m st => Nat.max m (stream_len st)) 0%nat streams in
  let passes := if (maxLen =? 0)%nat then 1%nat else maxLen in
  flat_map (fun k => flat_map (stream_pass k) streams) (seq 0 passes).

(** The switch on the traversal; [rec] expands a subgroup. *)
Definition expand graph (rec : string -> list string) (g : FlatGroup) : list string :=
  if String.eqb (fg_Traversal g) "breadth" then
    List.filter (fun m => negb (isGroup graph m)) (fg_Members g)
    ++ flat_map (fun m => if isGroup graph m then rec (subKey m) else []) (fg_Members g)
  else if String.eqb (fg_Traversal g) "round_robin" then
    round_robin ((fun m => if isGroup graph m then inr (rec (subKey m)) else inl m) <$> fg_Members g)
  else
    flat_map (fun m => if isGroup graph m then rec (subKey m) else [m]) (fg_Members g).

Fixpoint flattenFuel (fuel : nat) graph visiting (lname : string) : list string :=
  match fuel with
  | O => []
  | S fuel' =>
      match graph !! lname with
      | None => []
      | Some g =>
          if negb (fg_Active g) then []
          else if bool_decide (lname ∈ visiting) then []
          else expand graph (flattenFuel fuel' graph ({[lname]} ∪ visiting)) g
      end
  end.

Definition flattenGroup (lname : string) graph visiting : list string :=
  flattenFuel (S (size graph)) graph visiting lname.

(** The de-duplication loop of [FlattenGroup]. *)
Fixpoint dedup (seen : gset string) (raw : list string) : list string :=
  match raw with
  | [] => []
  | m :: raw' =>
      let key := subKey m in
      if String.eqb key "" then dedup seen raw'
      else if bool_decide (key ∈ seen) then dedup seen raw'
      else m :: dedup ({[key]} ∪ seen) raw'
  end.

Definition FlattenGroup (name : string) graph : list string :=
  dedup ∅ (flattenGroup (subKey name) graph ∅).

(** ** Expansion, whatever the strategy *)

(** The members' contributions in order: what "depth" emits. *)
Definition contributions graph (rec : string -> list string) (ms : list string) : list string :=
  flat_map (fun m => if isGroup graph m then rec (subKey m) else [m]) ms.

Lemma flat_map_app_perm {A B} (f g : A -> list B) (l : list A) :
  flat_map (fun x => f x ++ g x) l ≡ₚ flat_map f l ++ flat_map g l.
Proof. induction l as [|x l IH]; simpl; [done|]. rewrite IH. solve_Permutation. Qed.

Lemma passes_items (items : list string) (n : nat) :
  length items <= n ->
  flat_map (fun k => match items !! k with Some x => [x] | None => [] end) (seq 0 n) = items.
Proof.
  revert n. induction items as [|x items IH]; intros n Hn.
  - generalize (seq 0 n) as l. by induction l.
  - destruct n as [|n]; simpl in *; [lia|]. f_equal. rewrite <- seq_shift.
    rewrite flat_map_concat_map, map_map, <- flat_map_concat_map. apply IH. lia.
Qed.

Definition stream_items (st : stream) : list string :=
  match st with inl name => [name] | inr items => items end.

Lemma stream_passes (st : stream) (n : nat) :
  stream_len st <= n -> 0 < n ->
  flat_map (fun k => stream_pass k st) (seq 0 n) = stream_items st.
Proof.
  destruct st as [name|items]; simpl; intros Hn H0; [|by apply passes_items].
  destruct n as [|n]; [lia|]. simpl. f_equal.
  assert (forall l, Forall (fun k => k <> 0) l ->
    flat_map (fun k => if (k =? 0)%nat then [name] else []) l = []) as Hl.
  { induction 1 as [|[|k] l Hk _ IH]; simpl; done. }
  apply Hl, Forall_forall. intros k [? ?]%elem_of_seq. lia.
Qed.

Lemma round_robin_perm (streams : list stream) :
  round_robin streams ≡ₚ flat_map stream_items streams.
Proof.
  unfold round_robin. set (maxLen := foldl _ _ streams).
  assert (forall m, (m <= foldl (fun m st => Nat.max m (stream_len st)) m streams)%nat /\
    Forall (fun st => stream_len st <= foldl (fun m st => Nat.max m (stream_len st)) m streams)%nat
      streams) as Hmax.
  { clear maxLen. induction streams as [|st l IH]; intros m; simpl; [by split|].
    destruct (IH (Nat.max m (stream_len st))) as [H1 H2]. split; [lia|]. constructor; [lia|done]. }
  destruct (Hmax 0%nat) as [_ Hall]. fold maxLen in Hall. clearbody maxLen. clear Hmax.
  set (n := if (maxLen =? 0)%nat then 1%nat else maxLen).
  assert (0 < n /\ maxLen <= n)%nat as [H0 Hn] by (unfold n; destruct maxLen; simpl; lia).
  clearbody n. induction Hall as [|st l Hst Hall IH]; simpl.
  - induction (seq 0 n); done.
  - rewrite flat_map_app_perm, IH, stream_passes by lia. done.
Qed.

Lemma expand_perm graph rec g : expand graph rec g ≡ₚ contributions graph rec (fg_Members g).
Proof.
  unfold expand, contributions. case_match; [|case_match; [|done]].
  - induction (fg_Members g) as [|m ms IH]; simpl; [done|].
    destruct (isGroup graph m); simpl; rewrite <- IH; solve_Permutation.
  - rewrite round_robin_perm. induction (fg_Members g) as [|m ms IH]; simpl; [done|].
    rewrite IH. by destruct (isGroup graph m).
Qed.

Lemma contributions_perm graph graph' rec rec' ms :
  (forall m, m ∈ ms -> isGroup graph m = isGroup graph' m) ->
  (forall m, m ∈ ms -> isGroup graph m = true -> rec (subKey m) ≡ₚ rec' (subKey m)) ->
  contributions graph rec ms ≡ₚ contributions graph' rec' ms.
Proof.
  intros Hg Hr. induction ms as [|m ms IH]; simpl; [done|].
  rewrite IH; [|intros; apply Hg; by right|intros; apply Hr; [by right|done]].
  rewrite <- Hg by left. destruct (isGroup graph m) eqn:E; [|done]. rewrite Hr; [done|left|done].
Qed.

Lemma elem_of_contributions graph rec ms x :
  x ∈ contributions graph rec ms <->
  exists m, m ∈ ms /\
    ((isGroup graph m = false /\ x = m) \/ (isGroup graph m = true /\ x ∈ rec (subKey m))).
Proof.
  unfold contributions. rewrite list_elem_of_In, in_flat_map. setoid_rewrite <- list_elem_of_In.
  split; intros (m & Hm & Hx); exists m; split; try done; destruct (isGroup graph m).
  - by right.
  - apply list_elem_of_singleton in Hx. by left.
  - by destruct Hx as [[]|[]].
  - apply list_elem_of_singleton. by destruct Hx as [[]|[]].
Qed.

(** ** Walks *)

(** A name as the router compares it: without surrounding space and case. *)
Definition folded (name : string) : string := strings_ToLower (strings_TrimSpace name).

(** An active group lists a group; a model. *)
Definition edge graph (g h : string) : Prop :=
  exists fg m, graph !! g = Some fg /\ fg_Active fg = true /\ m ∈ fg_Members fg /\
    is_Some (graph !! h) /\ folded m = h.

Definition has_model graph (g x : string) : Prop :=
  exists fg, graph !! g = Some fg /\ fg_Active fg = true /\ x ∈ fg_Members fg /\ graph !! folded x = None.

Lemma isGroup_spec graph m : isGroup graph m = true <-> is_Some (graph !! folded m).
Proof. unfold isGroup, has_key. by rewrite bool_decide_eq_true. Qed.

Lemma isModel_spec graph m : isGroup graph m = false <-> graph !! folded m = None.
Proof. rewrite <- not_true_iff_false, isGroup_spec. symmetry. apply eq_None_not_Some. Qed.

(** [walk graph g p x]: from [g] through the groups [p], in order, to a group that
    lists the model [x]. *)
Fixpoint walk graph (g : string) (p : list string) (x : string) : Prop :=
  match p with
  | [] => has_model graph g x
  | h :: p' => edge graph g h /\ walk graph h p' x
  end.

(** A model a request for group [g] can be served by. *)
Definition reachable graph (g x : string) : Prop := exists p, walk graph g p x.

Lemma flattenFuel_unfold fuel graph visiting g x :
  x ∈ flattenFuel (S fuel) graph visiting g <->
  exists fg, graph !! g = Some fg /\ fg_Active fg = true /\ g ∉ visiting /\
    x ∈ contributions graph (flattenFuel fuel graph ({[g]} ∪ visiting)) (fg_Members fg).
Proof.
  cbn [flattenFuel]. destruct (graph !! g) as [fg|]; [|split; [by intros ?%elem_of_nil|by intros (?&?&_)]].
  destruct (fg_Active fg) eqn:Ea; cbn [negb].
  2:{ split; [by intros ?%elem_of_nil|]. intros (fg' & [= <-] & ? & _). congruence. }
  case_bool_decide.
  { split; [by intros ?%elem_of_nil|]. by intros (fg' & [= <-] & _ & ? & _). }
  rewrite expand_perm. split; [by eauto|]. by intros (fg' & [= <-] & _ & _ & ?).
Qed.

Lemma flattenFuel_walk fuel graph visiting g x :
  x ∈ flattenFuel fuel graph visiting g -> reachable graph g x.
Proof.
  revert visiting g. induction fuel as [|fuel IH]; intros visiting g; [by intros ?%elem_of_nil|].
  intros (fg & Hg & Ha & _ & (m & Hm & [[Hn ->]|[Hi Hx]])%elem_of_contributions)%flattenFuel_unfold.
  - exists []. exists fg. by rewrite <- isModel_spec.
  - destruct (IH _ _ Hx) as [p Hp]. exists (subKey m :: p). apply isGroup_spec in Hi. split; [by exists fg, m|done].
Qed.

Lemma walk_flattenFuel fuel graph visiting g p x :
  walk graph g p x -> NoDup (g :: p) -> (forall h, h ∈ g :: p -> h ∉ visiting) ->
  length p < fuel -> x ∈ flattenFuel fuel graph visiting g.
Proof.
  revert visiting g p. induction fuel as [|fuel IH]; intros visiting g p Hw Hnd Hv Hl; [lia|].
  apply flattenFuel_unfold. destruct p as [|h p]; simpl in *.
  - destruct Hw as (fg & Hg & Ha & Hx & Hi). exists fg. split_and!; [done..|apply Hv; left|].
    apply elem_of_contributions. rewrite <- isModel_spec in Hi. eauto.
  - destruct Hw as [(fg & m & Hg & Ha & Hm & Hi & <-) Hw]. apply isGroup_spec in Hi. change (folded m) with (subKey m) in *.
    exists fg. split_and!; [done..|apply Hv; left|]. apply elem_of_contributions.
    exists m. split; [done|]. right. split; [done|].
    apply NoDup_cons in Hnd as [Hgp Hnd]. eapply IH; [done..| |lia].
    intros h Hh [->%elem_of_singleton|Hin]%elem_of_union; [done|]. eapply Hv; [by right|done].
Qed.

(** Loop erasure. *)
Lemma walk_simple graph g p x :
  walk graph g p x -> exists p', walk graph g p' x /\ NoDup (g :: p').
Proof.
  revert g. induction p as [|h p IH]; intros g Hw.
  { exists []. split; [done|]. apply NoDup_singleton. }
  destruct Hw as [He Hw]. destruct (IH h Hw) as (p' & Hp' & Hnd).
  destruct (decide (g ∈ h :: p')) as [Hin|Hni].
  - assert (forall q h, walk graph h q x -> NoDup (h :: q) -> g ∈ h :: q ->
      exists q', walk graph g q' x /\ NoDup (g :: q')) as Hcut; [|by eauto].
    clear. induction q as [|k q IHq]; intros h Hq Hnd Hg.
    + apply list_elem_of_singleton in Hg as ->. by exists [].
    + apply elem_of_cons in Hg as [->|Hg]; [by exists (k :: q)|].
      destruct Hq as [_ Hq]. apply NoDup_cons in Hnd as [_ Hnd]. eauto.
  - exists (h :: p'). split; [done|]. by constructor.
Qed.

Lemma walk_dom graph g p x : walk graph g p x -> forall h, h ∈ g :: p -> h ∈ dom graph.
Proof.
  revert g. induction p as [|k p IH]; intros g Hw h.
  - intros ->%list_elem_of_singleton. destruct Hw as (fg & Hg & _). by apply elem_of_dom_2 in Hg.
  - destruct Hw as [(fg & m & Hg & _) Hw]. intros [->|Hh]%elem_of_cons; [by apply elem_of_dom_2 in Hg|].
    by eapply IH.
Qed.

Lemma flattenGroup_reachable graph g x :
  x ∈ flattenGroup g graph ∅ <-> reachable graph g x.
Proof.
  split; [apply flattenFuel_walk|]. intros [p Hp].
  destruct (walk_simple _ _ _ _ Hp) as (q & Hq & Hnd).
  eapply walk_flattenFuel; [done|done|set_solver|].
  assert (list_to_set (g :: q) ⊆ dom graph) as Hs%subseteq_size.
  { intros h Hh%elem_of_list_to_set. by eapply walk_dom. }
  rewrite size_list_to_set, size_dom in Hs by done. simpl in Hs. lia.
Qed.

(** ** De-duplication *)

Lemma dedup_sublist seen raw : dedup seen raw `sublist_of` raw.
Proof.
  revert seen. induction raw as [|m raw IH]; intros seen; simpl; [done|].
  case_match; [by constructor|]. case_match; by constructor.
Qed.

Lemma dedup_fresh seen raw m : m ∈ dedup seen raw -> subKey m ∉ seen /\ subKey m <> "".
Proof.
  revert seen. induction raw as [|n raw IH]; intros seen; simpl; [by intros ?%elem_of_nil|].
  case_match; [by auto|]. case_bool_decide; [by auto|]. bool_hyps.
  intros [->|Hm]%elem_of_cons; [done|]. specialize (IH _ Hm). set_solver.
Qed.

Lemma dedup_NoDup seen raw : NoDup (subKey <$> dedup seen raw).
Proof.
  revert seen. induction raw as [|m raw IH]; intros seen; simpl; [constructor|].
  case_match; [done|]. case_match; [done|]. rewrite fmap_cons. constructor; [|done].
  intros (n & E & [Hn _]%dedup_fresh)%list_elem_of_fmap. set_solver.
Qed.

Lemma dedup_keys seen raw key :
  key ∈ subKey <$> dedup seen raw <-> key ∈ subKey <$> raw /\ key ∉ seen /\ key <> "".
Proof.
  revert seen. induction raw as [|m raw IH]; intros seen; simpl.
  { rewrite elem_of_nil. naive_solver. }
  rewrite elem_of_cons. destruct (String.eqb_spec (subKey m) "") as [E|E].
  { rewrite IH, E. naive_solver. }
  case_bool_decide as Hs; [rewrite IH; naive_solver|].
  rewrite fmap_cons, elem_of_cons, IH, elem_of_union, elem_of_singleton.
  destruct (decide (key = subKey m)); naive_solver.
Qed.

(** ** The strategy orders, it does not select *)

(** [graph'] is [graph] with other traversal strategies. *)
Definition same_members graph graph' : Prop :=
  forall g, match graph !! g, graph' !! g with
            | Some x, Some y => fg_Members x = fg_Members y /\ fg_Active x = fg_Active y
            | None, None => True
            | _, _ => False
            end.

Lemma same_members_isGroup graph graph' m :
  same_members graph graph' -> isGroup graph m = isGroup graph' m.
Proof.
  intros Hs. specialize (Hs (subKey m)). unfold isGroup, has_key. apply bool_decide_ext.
  destruct (graph !! subKey m), (graph' !! subKey m); naive_solver.
Qed.

Lemma same_members_dom graph graph' : same_members graph graph' -> dom graph = dom graph'.
Proof.
  intros Hs. apply set_eq. intros g. rewrite !elem_of_dom. specialize (Hs g).
  destruct (graph !! g), (graph' !! g); naive_solver.
Qed.

Lemma flattenFuel_same_members fuel graph graph' visiting g :
  same_members graph graph' ->
  flattenFuel fuel graph visiting g ≡ₚ flattenFuel fuel graph' visiting g.
Proof.
  intros Hs. revert visiting g. induction fuel as [|fuel IH]; intros visiting g; simpl; [done|].
  pose proof (Hs g) as Hg. destruct (graph !! g) as [x|], (graph' !! g) as [y|]; try done.
  destruct Hg as [Em Ea]. rewrite Ea. case_match; [done|]. case_match; [done|].
  rewrite !expand_perm, Em. apply contributions_perm; [|by auto].
  intros. by apply same_members_isGroup.
Qed.

(** The traversal strategies choose the order and nothing else: with any other
    choice of strategies a group expands to the same models, each as often. *)
Theorem flattenGroup_strategies g graph graph' :
  same_members graph graph' -> flattenGroup g graph ∅ ≡ₚ flattenGroup g graph' ∅.
Proof.
  intros Hs. unfold flattenGroup. rewrite <- !size_dom, (same_members_dom _ _ Hs).
  by apply flattenFuel_same_members.
Qed.

(** ** The fuel *)

Lemma expand_ext graph rec rec' g :
  (forall m, m ∈ fg_Members g -> isGroup graph m = true -> rec (subKey m) = rec' (subKey m)) ->
  expand graph rec g = expand graph rec' g.
Proof.
  intros Hr.
  assert (forall f, flat_map (fun m => if isGroup graph m then rec (subKey m) else f m) (fg_Members g)
    = flat_map (fun m => if isGroup graph m then rec' (subKey m) else f m) (fg_Members g)) as Hf.
  { intros f. rewrite !flat_map_concat_map. f_equal. apply map_ext_in. intros m Hm%list_elem_of_In.
    destruct (isGroup graph m) eqn:E; auto. }
  unfold expand. case_match; [by rewrite Hf|]. case_match; [|apply Hf].
  f_equal. apply list_fmap_ext. intros i m Hm%list_elem_of_lookup_2.
  destruct (isGroup graph m) eqn:E; [|done]. by rewrite Hr.
Qed.

Lemma flattenFuel_enough fuel fuel' graph visiting g :
  size (dom graph ∖ visiting) < fuel -> size (dom graph ∖ visiting) < fuel' ->
  flattenFuel fuel graph visiting g = flattenFuel fuel' graph visiting g.
Proof.
  revert fuel' visiting g. induction fuel as [|fuel IH]; intros fuel' visiting g Hf Hf'; [lia|].
  destruct fuel' as [|fuel']; [lia|]. simpl. destruct (graph !! g) as [fg|] eqn:Eg; [|done].
  case_match; [done|]. case_bool_decide as Hv; [done|]. apply expand_ext. intros m _ _.
  assert (size (dom graph ∖ ({[g]} ∪ visiting)) < size (dom graph ∖ visiting)).
  { apply subset_size. apply elem_of_dom_2 in Eg. set_solver. }
  apply IH; lia.
Qed.

(** The expansion terminates on every graph, cyclic ones included, and is the
    source's recursion: any fuel above the number of groups computes the same list,
    and that list satisfies the recursive equation of the code. *)
Theorem flattenGroup_equation g graph visiting :
  (forall fuel, size graph < fuel -> flattenFuel fuel graph visiting g = flattenGroup g graph visiting) /\
  flattenGroup g graph visiting =
    match graph !! g with
    | None => []
    | Some fg =>
        if negb (fg_Active fg) || bool_decide (g ∈ visiting) then []
        else expand graph (fun h => flattenGroup h graph ({[g]} ∪ visiting)) fg
    end.
Proof.
  assert (forall v : gset string, size (dom graph ∖ v) <= size graph) as Hsz.
  { intros v. rewrite <- size_dom. apply subseteq_size. set_solver. }
  pose proof (Hsz visiting). split.
  - intros fuel Hf. apply flattenFuel_enough; lia.
  - unfold flattenGroup at 1. cbn [flattenFuel]. destruct (graph !! g) as [fg|] eqn:Eg; [|done].
    destruct (fg_Active fg); [simpl|done]. case_bool_decide as Hv; [done|].
    apply expand_ext. intros m _ _.
    assert (size (dom graph ∖ ({[g]} ∪ visiting)) < size (dom graph ∖ visiting)).
    { apply subset_size. apply elem_of_dom_2 in Eg. set_solver. }
    apply flattenFuel_enough; lia.
Qed.

(** ** Exactness *)

(** C19.  Flattening lists exactly the reachable models.  Whatever the graph -- cycles and
    diamonds included -- and whatever the traversal strategies, a (non-empty) name is in the
    flat list exactly when it names a model reachable from the group through active
    groups; names are compared without case and surrounding space, and none is listed
    twice; every entry is a reachable model as its group spells it.  And the recursion ends
    on every graph: any number of levels above the number of groups computes the same. *)
Theorem flatten_exact name graph :
  (forall key, key ∈ folded <$> FlattenGroup name graph <->
     key <> "" /\ exists x, folded x = key /\ reachable graph (folded name) x) /\
  NoDup (folded <$> FlattenGroup name graph) /\
  (forall x, x ∈ FlattenGroup name graph -> reachable graph (folded name) x) /\
  forall fuel, size graph < fuel -> flattenFuel fuel graph ∅ (folded name) = flattenGroup (folded name) graph ∅.
Proof.
  change folded with subKey. unfold FlattenGroup. split_and!.
  - intros key. rewrite dedup_keys, list_elem_of_fmap. setoid_rewrite flattenGroup_reachable. set_solver.
  - apply dedup_NoDup.
  - intros x Hx. apply flattenGroup_reachable. by apply (sublist_subseteq _ _ (dedup_sublist ∅ _)).
  - intros fuel Hf. assert (size (dom graph ∖ ∅) <= size graph) by (rewrite <- size_dom; apply subseteq_size; set_solver).
    apply flattenFuel_enough; lia.
Qed.

End flatten.

(** ** A concrete graph

    "all" alternates between "fast" and the cyclic "slow", which lists "all" again. *)
Definition sampleGraph (t : string) : gmap string FlatGroup :=
  {["all" := mkFlatGroup t ["slow"; " Fast "; "m1"] true;
    "fast" := mkFlatGroup "depth" ["m2"; "M1"] true;
    "slow" := mkFlatGroup "depth" ["m3"; "all"; "m4"] true]}.

Example FlattenGroup_sample :
  @FlattenGroup ascii_tables "ALL" (sampleGraph "round_robin") = ["m3"; "m2"; "m1"; "m4"] /\
  @FlattenGroup ascii_tables "all" (sampleGraph "breadth") = ["m1"; "m3"; "m4"; "m2"].
Proof. vm_compute. done. Qed.

(** Under the cycle: the model of the group that lists its own ancestor is found, once. *)
Lemma flatten_exact_witness :
  @FlattenGroup ascii_tables "ALL" (sampleGraph "depth") = ["m3"; "m4"; "m2"; "M1"] /\
  exists x, @folded ascii_tables x = "m1" /\ @reachable ascii_tables (sampleGraph "depth") (@folded ascii_tables "ALL") x.
Proof.
  split; [vm_compute; reflexivity|].
  destruct (@flatten_exact ascii_tables "ALL" (sampleGraph "depth")) as (Hkeys & _).
  apply (Hkeys "m1"). apply list_elem_of_In. vm_compute. auto 6.
Defined.

Lemma flattenGroup_strategies_witness :
  @flattenGroup ascii_tables "all" (sampleGraph "round_robin") ∅
  ≡ₚ @flattenGroup ascii_tables "all" (sampleGraph "depth") ∅.
Proof.
  apply (@flattenGroup_strategies ascii_tables "all" (sampleGraph "round_robin") (sampleGraph "depth")).
  intros g. unfold sampleGraph.
  destruct (decide (g = "all")) as [->|]; [vm_compute; done|].
  destruct (decide (g = "fast")) as [->|]; [vm_compute; done|].
  destruct (decide (g = "slow")) as [->|]; [vm_compute; done|].
  rewrite !lookup_insert_ne, !lookup_singleton_ne by done. exact I.
Defined.
