(* ===== verification/GatewayInstances.v ===== *)
(** * Instances of a replicable spec, seen by the gateway

    Models [gateway/backend/internal/routing/instances.go] (instance addresses and
    keys, [Target.Instance], candidate expansion) and
    [gateway/backend/internal/gateway/instance_claims.go] (the claim set and the
    index rule shared by the instance scaler and the portal's manual start).

    Records carry the fields these operations read or write.  Every claim-set
    operation is one critical section, so an interleaving of callers is a sequence
    of operations. *)

From Stdlib Require Import ZArith Lia Ascii.
From stdpp Require Import base tactics option list numbers strings pretty gmap.
From S2P Require Import Prelude Float64 RoutingTypes RuntimeTypes RuntimeTypesProps.
Local Open Scope Z_scope.
Local Open Scope go_scope.

(** ** Addresses and keys *)

Module Addresses.

Definition MaxInstanceIndex : Z := 63.

Definition InstanceAddress (base : string) (k : Z) : string :=
  if k =? 0 then base else base +:+ instanceSeparator +:+ strconv_Itoa k.

Definition InstanceBase (address : string) (k : Z) : string :=
  if k <? 1 then address
  else strings_TrimSuffix address (instanceSeparator +:+ strconv_Itoa k).

Definition InstanceKey (mappingID : string) (k : Z) : string :=
  mappingID +:+ instanceSeparator +:+ strconv_Itoa k.

(** [Target.Instance], a function of the target's [InstanceKey] field. *)
Definition Instance (key : string) : Z :=
  match last_index separator_byte key with
  | None => 0
  | Some i =>
      let suffix := string_drop (i + String.length instanceSeparator) key in
      match strconv_Atoi suffix with
      | None => 0
      | Some k =>
          if (k <? 0) || (MaxInstanceIndex <? k) || negb (String.eqb (strconv_Itoa k) suffix)
          then 0 else k
      end
  end.

End Addresses.

(** ** Candidate expansion *)

Record InstanceView := mkInstanceView {
  iv_Replicable : bool;
  iv_Parallelism : Z;
  iv_MaxInstances : Z;
  iv_Running : list Z;
  iv_Present : list Z
}.

(** [InstanceSource.InstanceView]: [None] is [ok = false]. *)
Definition InstanceSource : Type := string -> ModelMapping -> option InstanceView.

Definition set_capable (parallelism : Z) (c : MappingCandidate) : MappingCandidate :=
  c <| mc_InstanceCapable := true |> <| mc_InstanceParallelism := parallelism |>.

Definition set_Instance (k : Z) (c : MappingCandidate) : MappingCandidate :=
  c <| mc_Instance := k |>.

(** The inner loop over [view.Running]. *)
Fixpoint runningInstances (c : MappingCandidate) (seen : gset Z) (running : list Z)
  : list MappingCandidate :=
  match running with
  | [] => []
  | k :: running' =>
      if (k <? 1) || (Addresses.MaxInstanceIndex <? k) then runningInstances c seen running'
      else if bool_decide (k ∈ seen) then runningInstances c seen running'
      else set_Instance k c :: runningInstances c ({[k]} ∪ seen) running'
  end.

Definition expandCandidate (src : InstanceSource) (c : MappingCandidate)
  : list MappingCandidate :=
  if negb (String.eqb (app_Type (mc_Application c)) ProviderServerAgent) then [c]
  else match src (srv_ID (mc_Server c)) (mc_Mapping c) with
       | None => [c]
       | Some view =>
           let c := set_capable (Z.max (iv_Parallelism view) 1) c in
           c :: runningInstances c ∅ (iv_Running view)
       end.

Definition expandInstances (cands : list MappingCandidate) (src : option InstanceSource)
  : list MappingCandidate :=
  match src with
  | None => cands
  | Some src => flat_map (expandCandidate src) cands
  end.

(** ** The claim set *)

Definition scaleKey : Type := string * string.   (* server, mapping *)

(** [None] is the nil set of a bare server. *)
Definition instanceClaims : Type := option (gmap scaleKey (gset Z)).

Definition newInstanceClaims : instanceClaims := Some ∅.

Definition heldIn (held : gmap scaleKey (gset Z)) (key : scaleKey) : gset Z := map_get ∅ held key.

Definition heldBy (c : instanceClaims) (key : scaleKey) : gset Z :=
  match c with None => ∅ | Some held => heldIn held key end.

Definition hold (held : gmap scaleKey (gset Z)) (key : scaleKey) (k : Z)
  : gmap scaleKey (gset Z) :=
  <[key := {[k]} ∪ heldIn held key]> held.

Definition tryClaim (c : instanceClaims) (key : scaleKey) (k : Z) : bool * instanceClaims :=
  match c with
  | None => (true, None)
  | Some held =>
      if bool_decide (k ∈ heldIn held key) then (false, c) else (true, Some (hold held key k))
  end.

(** The loop [for k := max(from, 0); k < limit; k++] with the first index that
    passes [free]. *)
Definition firstFree (free : Z -> bool) (from limit : Z) : option Z :=
  List.find free (seqZ (Z.max from 0) (limit - Z.max from 0)).

Definition claimLowest (c : instanceClaims) (key : scaleKey) (from limit : Z) (taken : gset Z)
  : option Z * instanceClaims :=
  let limit := Z.min limit (Addresses.MaxInstanceIndex + 1) in
  match c with
  | None => (firstFree (fun k => negb (bool_decide (k ∈ taken))) from limit, None)
  | Some held =>
      match firstFree (fun k => negb (bool_decide (k ∈ taken))
                                && negb (bool_decide (k ∈ heldIn held key))) from limit with
      | Some k => (Some k, Some (hold held key k))
      | None => (None, c)
      end
  end.

Definition release (c : instanceClaims) (key : scaleKey) (k : Z) : instanceClaims :=
  match c with
  | None => None
  | Some held =>
      (* deleting from the inner map of an absent key does nothing *)
      let held := if has_key held key then <[key := heldIn held key ∖ {[k]}]> held else held in
      if bool_decide (heldIn held key = ∅) then Some (delete key held) else Some held
  end.

(** ** The index rule *)

Record RuntimeStatus := mkRuntimeStatus {
  rs_SpecID : string;
  rs_Model : string;
  rs_Instance : Z;
  rs_State : string
}.

Definition instanceReusableStates : gset string := {["crashed"; "start_failed"; "not_permitted"]}.

Definition specInstanceRows (rows : list RuntimeStatus) (specID : string) : bool * list Z :=
  foldl (fun (acc : bool * list Z) row =>
    if negb (String.eqb (rs_SpecID row) specID) then acc
    else
      (if String.eqb (rs_State row) "starting" then true else acc.1,
       if (1 <=? rs_Instance row) && negb (bool_decide (rs_State row ∈ instanceReusableStates))
       then acc.2 ++ [rs_Instance row] else acc.2)) (false, []) rows.

Definition otherMappingIndexes (mappings : list ModelMapping) (m : ModelMapping) : gset Z :=
  let others : gset string :=
    foldl (fun others o => if negb (String.eqb (mm_ID o) (mm_ID m))
                           then {[mm_AppModelName o]} ∪ others else others) ∅ mappings in
  foldl (fun taken k =>
    if bool_decide (others = ∅) then taken
    else if bool_decide (Addresses.InstanceAddress (mm_AppModelName m) k ∈ others)
         then {[k]} ∪ taken else taken)
    ∅ (seqZ 1 Addresses.MaxInstanceIndex).

(** The scaler's pick ([instance_scaler.go]); 0 is none. *)
Definition nextInstanceIndex (present : list Z) (taken : gset Z) : Z :=
  match List.find (fun k => negb (bool_decide (k ∈ taken)) && negb (bool_decide (k ∈ present)))
          (seqZ 1 Addresses.MaxInstanceIndex) with
  | Some k => k
  | None => 0
  end.

(** [instanceIndex] of the scaler, once the agent's mappings are read. *)
Definition instanceIndex (mappings : list ModelMapping) (m : ModelMapping) (c : instanceClaims)
    (key : scaleKey) (present : list Z) : Z :=
  nextInstanceIndex present (otherMappingIndexes mappings m ∪ heldBy c key).

(** ** The portal's manual start ([runtime_actions.go]) *)

Inductive startClaim :=
| NotReplicable                  (* instance 0, nothing claimed *)
| MaxInstances                   (* [errRuntimeMaxInstances] *)
| Claimed (k : Z).

(** [claimStartInstance], once the status rows and the agent's mappings are read. *)
Definition claimStartInstance (rows : list RuntimeStatus) (mappings : list ModelMapping)
    (serverID : string) (m : ModelMapping) (spec : RuntimeSpec) (c : instanceClaims)
  : startClaim * instanceClaims :=
  if negb (sp_Replicable spec) then (NotReplicable, c)
  else
    let reported := (specInstanceRows rows (sp_ID spec)).2 in
    let taken := foldl (fun taken k => {[k]} ∪ taken) (otherMappingIndexes mappings m) reported in
    let taken := foldl (fun taken row =>
      if String.eqb (rs_SpecID row) (sp_ID spec) && (rs_Instance row =? 0)
         && (String.eqb (rs_State row) "running" || String.eqb (rs_State row) "starting")
      then {[0]} ∪ taken else taken) taken rows in
    let limit := Addresses.MaxInstanceIndex + 1 in
    let limit := if 0 <? sp_MaxInstances spec then Z.min limit (sp_MaxInstances spec) else limit in
    match claimLowest c (serverID, mm_ID m) 0 limit taken with
    | (Some k, c) => (Claimed k, c)
    | (None, c) => (MaxInstances, c)
    end.

(** ** Interleaved callers *)

Inductive op :=
| OTry (key : scaleKey) (k : Z)
| OLowest (key : scaleKey) (from limit : Z) (taken : gset Z)
| ORelease (key : scaleKey) (k : Z).

Global Instance op_eq_dec : EqDecision op.
Proof. solve_decision. Defined.

(** What an operation claims, and the set it leaves. *)
Definition opStep (o : op) (c : instanceClaims) : option (scaleKey * Z) * instanceClaims :=
  match o with
  | OTry key k =>
      let '(ok, c) := tryClaim c key k in (if ok then Some (key, k) else None, c)
  | OLowest key from limit taken =>
      let '(k, c) := claimLowest c key from limit taken in (pair key <$> k, c)
  | ORelease key k => (None, release c key k)
  end.

Definition runOps (ops : list op) (c : instanceClaims) : instanceClaims :=
  foldl (fun c o => (opStep o c).2) c ops.
