(* ===== verification/GatewayInstancesProps.v ===== *)
(** * Properties of instance addresses, candidates and claims

    The gateway's addresses are the agent's; instance keys are collision free and
    give their index back; expansion yields each running instance once; the claim
    set implements a set of claimed pairs, never hands one index to two callers, and
    the index rule picks the lowest index that is free in every respect. *)

From Stdlib Require Import ZArith Lia Ascii.
From stdpp Require Import base tactics option list numbers strings pretty gmap.
From S2P Require Import Prelude Float64 RoutingTypes RuntimeTypes RuntimeTypesProps GatewayInstances.
Local Open Scope Z_scope.

(** ** Addresses and keys *)

(** The agent reads the gateway's instance addresses as they are meant: it
    splits the address the gateway sends into the model and the index the gateway
    chose, and the gateway gets the model name back from the address a status row
    carries. *)
Theorem agent_parses_gateway_address base k :
  1 <= k <= Addresses.MaxInstanceIndex ->
  RuntimeTypes.ParseInstanceAddress (Addresses.InstanceAddress base k) = (base, k) /\
  Addresses.InstanceBase (RuntimeTypes.InstanceAddress base k) k = base.
Proof.
  intros Hk. split; [by apply parse_address|].
  assert (Addresses.InstanceBase (RuntimeTypes.InstanceAddress base k) k
    = RuntimeTypes.InstanceBase (RuntimeTypes.InstanceAddress base k) k) as ->.
  { unfold Addresses.InstanceBase, RuntimeTypes.InstanceBase.
    destruct (Z.ltb_spec k 1), (Z.eqb_spec k 0); (done || lia). }
  apply base_of_address.
Qed.

Lemma agent_parses_gateway_address_witness :
  RuntimeTypes.ParseInstanceAddress (Addresses.InstanceAddress "qwen" 7) = ("qwen", 7) /\
  Addresses.InstanceBase (RuntimeTypes.InstanceAddress "qwen" 7) 7 = "qwen".
Proof. apply (agent_parses_gateway_address "qwen" 7). vm_compute. split; discriminate. Defined.

Lemma keyNumeral_ok k :
  0 <= k <= Addresses.MaxInstanceIndex ->
  strconv_Atoi (strconv_Itoa k) = Some k /\ last_index separator_byte (strconv_Itoa k) = None.
Proof.
  intros Hk. destruct (decide (k = 0)) as [->|]; [by vm_compute|].
  destruct (indexNumeral_ok k) as (_ & ? & ?); [|done].
  unfold Addresses.MaxInstanceIndex, MaxInstanceIndex in *. lia.
Qed.

Lemma key_last_index id k :
  0 <= k <= Addresses.MaxInstanceIndex ->
  last_index separator_byte (Addresses.InstanceKey id k) = Some (String.length id) /\
  string_drop (String.length id + 1) (Addresses.InstanceKey id k) = strconv_Itoa k.
Proof.
  intros Hk. destruct (keyNumeral_ok k Hk) as [_ Hl]. unfold Addresses.InstanceKey, instanceSeparator.
  split; [by apply (last_index_app separator_byte)|].
  rewrite <- string_append_assoc.
  replace (String.length id + 1)%nat with (String.length (id +:+ "#")) by apply string_length_app.
  apply string_drop_app.
Qed.

Lemma Instance_key id k :
  0 <= k <= Addresses.MaxInstanceIndex -> Addresses.Instance (Addresses.InstanceKey id k) = k.
Proof.
  intros Hk. destruct (keyNumeral_ok k Hk) as [Ha _]. destruct (key_last_index id k Hk) as [Hi Hd].
  unfold Addresses.Instance. rewrite Hi. change (String.length instanceSeparator) with 1%nat.
  rewrite Hd, Ha, String.eqb_refl.
  destruct (Z.ltb_spec k 0), (Z.ltb_spec Addresses.MaxInstanceIndex k); (done || lia).
Qed.

(** A gateway instance key names its instance: the index is read back from it,
    and keys of different mappings or indexes differ, whatever the mapping IDs. *)
Theorem InstanceKey_names_instance id id' j k :
  0 <= j <= Addresses.MaxInstanceIndex -> 0 <= k <= Addresses.MaxInstanceIndex ->
  Addresses.Instance (Addresses.InstanceKey id k) = k /\
  (Addresses.InstanceKey id' j = Addresses.InstanceKey id k -> id' = id /\ j = k).
Proof.
  intros Hj Hk. split; [by apply Instance_key|]. intros E.
  pose proof (Instance_key id' j Hj) as E1. rewrite E, Instance_key in E1 by done. subst j.
  split; [|done]. destruct (key_last_index id k Hk) as [H1 _].
  destruct (key_last_index id' k Hk) as [H2 _]. rewrite E, H1 in H2. injection H2 as El.
  rewrite <- (string_take_app id (instanceSeparator +:+ strconv_Itoa k)).
  rewrite <- (string_take_app id' (instanceSeparator +:+ strconv_Itoa k)).
  unfold Addresses.InstanceKey in E. by rewrite E, El.
Qed.

Lemma InstanceKey_names_instance_witness :
  Addresses.Instance (Addresses.InstanceKey "map#1" 0) = 0.
Proof.
  apply (InstanceKey_names_instance "map#1" "map" 1 0); vm_compute; split; discriminate.
Defined.

(** ** Candidate expansion *)

Lemma runningInstances_spec c seen running :
  exists ks, runningInstances c seen running = (fun k => set_Instance k c) <$> ks /\
    NoDup ks /\ forall k, k ∈ ks <->
      k ∈ running /\ 1 <= k <= Addresses.MaxInstanceIndex /\ k ∉ seen.
Proof.
  revert seen. induction running as [|k running IH]; intros seen; simpl.
  { exists []. split_and!; [done|constructor|]. intros k. rewrite elem_of_nil. naive_solver. }
  destruct ((k <? 1) || (Addresses.MaxInstanceIndex <? k)) eqn:Er.
  { destruct (IH seen) as (ks & E & Hnd & Hk). exists ks. split_and!; [done..|].
    intros j. rewrite Hk, elem_of_cons. apply orb_true_iff in Er.
    rewrite !Z.ltb_lt in Er. split; [naive_solver|]. intros ([->|?] & ? & ?); [lia|done]. }
  bool_hyps. case_bool_decide as Hs.
  { destruct (IH seen) as (ks & E & Hnd & Hk). exists ks. split_and!; [done..|].
    intros j. rewrite Hk, elem_of_cons. naive_solver. }
  destruct (IH ({[k]} ∪ seen)) as (ks & E & Hnd & Hk). exists (k :: ks).
  rewrite E. split_and!; [done| |].
  - constructor; [|done]. rewrite Hk. set_solver.
  - intros j. rewrite !elem_of_cons, Hk, elem_of_union, elem_of_singleton.
    destruct (decide (j = k)) as [->|]; [|naive_solver]. split; [intros _; split_and!; auto; lia|auto].
Qed.

Lemma expandCandidate_spec src c :
  ((app_Type (mc_Application c) <> ProviderServerAgent \/ src (srv_ID (mc_Server c)) (mc_Mapping c) = None) /\
   expandCandidate src c = [c]) \/
  exists view ks, app_Type (mc_Application c) = ProviderServerAgent /\
    src (srv_ID (mc_Server c)) (mc_Mapping c) = Some view /\ NoDup ks /\
    (forall k, k ∈ ks <-> k ∈ iv_Running view /\ 1 <= k <= Addresses.MaxInstanceIndex) /\
    expandCandidate src c =
      set_capable (Z.max (iv_Parallelism view) 1) c
      :: ((fun k => set_Instance k (set_capable (Z.max (iv_Parallelism view) 1) c)) <$> ks).
Proof.
  unfold expandCandidate. destruct (String.eqb_spec (app_Type (mc_Application c)) ProviderServerAgent);
    simpl; [|by auto].
  destruct (src _ _) as [view|] eqn:Ev; [|by auto]. right.
  destruct (runningInstances_spec (set_capable (Z.max (iv_Parallelism view) 1) c) ∅ (iv_Running view))
    as (ks & E & Hnd & Hk).
  exists view, ks. rewrite E. split_and!; try done. intros k. rewrite Hk. set_solver.
Qed.

(** Which instance a candidate addresses. *)
Definition identity (c : MappingCandidate) : string * ModelMapping * Z :=
  (srv_ID (mc_Server c), mc_Mapping c, mc_Instance c).

(** The instances a candidate stands for. *)
Definition addressed (src : InstanceSource) (c : MappingCandidate) (k : Z) : Prop :=
  k = 0 \/
  app_Type (mc_Application c) = ProviderServerAgent /\
  exists view, src (srv_ID (mc_Server c)) (mc_Mapping c) = Some view /\
    k ∈ iv_Running view /\ 1 <= k <= Addresses.MaxInstanceIndex.

(** Every candidate a store read yields is its mapping's instance 0. *)
Definition store_read (c : MappingCandidate) : Prop :=
  mc_Instance c = 0 /\ mc_InstanceCapable c = false.

Lemma expandCandidate_identities src c :
  store_read c ->
  exists ks, identity <$> expandCandidate src c = pair (srv_ID (mc_Server c), mc_Mapping c) <$> ks /\
    NoDup ks /\ (forall k, k ∈ ks <-> addressed src c k) /\
    forall x, x ∈ expandCandidate src c -> mc_InstanceCapable x = true -> 1 <= mc_InstanceParallelism x.
Proof.
  intros [H0 Hc]. unfold addressed.
  destruct (expandCandidate_spec src c) as [[Hno ->]|(view & ks & Ht & Hv & Hnd & Hk & ->)].
  - exists [0]. unfold identity. simpl. rewrite H0. split_and!; [done|apply NoDup_singleton| |].
    + intros k. rewrite list_elem_of_singleton. naive_solver.
    + intros x ->%list_elem_of_singleton. congruence.
  - exists (0 :: ks). split_and!.
    + rewrite fmap_cons, <- list_fmap_compose. unfold identity at 1. simpl. by rewrite H0.
    + constructor; [|done]. rewrite Hk. lia.
    + intros k. rewrite elem_of_cons, Hk. naive_solver.
    + intros x [->|(k & -> & _)%list_elem_of_fmap]%elem_of_cons _; simpl; lia.
Qed.

(** Expansion yields every instance a request may be routed to, once: instance
    0 of each candidate and each running instance of an agent's mapping whose index
    an address can carry, and nothing else; and no capable candidate has room for
    less than one request. *)
Theorem expandInstances_instances cands src :
  Forall store_read cands -> NoDup ((fun c => (srv_ID (mc_Server c), mc_Mapping c)) <$> cands) ->
  let out := expandInstances cands (Some src) in
  NoDup (identity <$> out) /\
  (forall s m k, (s, m, k) ∈ identity <$> out <->
     exists c, c ∈ cands /\ (srv_ID (mc_Server c), mc_Mapping c) = (s, m) /\ addressed src c k) /\
  (forall x, x ∈ out -> mc_InstanceCapable x = true -> 1 <= mc_InstanceParallelism x).
Proof.
  simpl. induction 1 as [|c cands Hc _ IH]; simpl.
  { intros _. split_and!; [constructor| |by intros ? ?%elem_of_nil].
    intros s m k. rewrite elem_of_nil. split; [done|]. by intros (? & ?%elem_of_nil & _). }
  intros [Hn Hnd]%NoDup_cons. destruct (IH Hnd) as (Hnd' & Hmem & Hpar).
  destruct (expandCandidate_identities src c Hc) as (ks & E & Hks & Hk & Hpc).
  rewrite fmap_app, E. split_and!.
  - apply NoDup_app. split_and!; [|intros [[s m] k]|done].
    + apply NoDup_fmap; [|done]. by intros ? ? [=].
    + intros (k' & [= -> -> ->] & _)%list_elem_of_fmap (c' & Hc' & E' & _)%Hmem.
      apply Hn. rewrite <- E'. by apply (list_elem_of_fmap_2 (fun c => (srv_ID (mc_Server c), mc_Mapping c))).
  - intros s m k. rewrite elem_of_app, Hmem, list_elem_of_fmap. split.
    + intros [(k' & [= -> -> ->] & Hk')|(c' & ? & ? & ?)].
      * exists c. split_and!; [left|done|by apply Hk].
      * exists c'. split_and!; [by right|done..].
    + intros (c' & [->|Hc']%elem_of_cons & Ec & Ha).
      * left. exists k. rewrite Ec. split; [done|]. by apply Hk.
      * right. eauto.
  - intros x [Hx|Hx]%elem_of_app; [by apply Hpc|by apply Hpar].
Qed.

Definition sampleSource : InstanceSource := fun server m =>
  if String.eqb (mm_ID m) "map_a" then Some (mkInstanceView true 0 0 [2; 0; 2; 64; 1] [1; 2; 3]) else None.
Definition sampleCands : list MappingCandidate :=
  [plainCandidate "s1" "server_agent" (plainMapping "map_a" "qwen" "qwen");
   plainCandidate "s2" "vllm" (plainMapping "map_b" "qwen" "qwen")].

Lemma expandInstances_instances_witness :
  mc_Instance <$> expandInstances sampleCands (Some sampleSource) = [0; 2; 1; 0] /\
  NoDup (identity <$> expandInstances sampleCands (Some sampleSource)).
Proof.
  split; [reflexivity|]. apply (expandInstances_instances sampleCands sampleSource).
  - repeat constructor.
  - apply NoDup_cons. split; [|apply NoDup_singleton]. by intros ?%list_elem_of_singleton.
Defined.

(** ** The claim set *)

(** What a claim set promises its callers, whatever holds it: an index is granted
    only while it is free, stays claimed until it is released, and nothing else
    becomes claimed. *)
Class ClaimLaws {C : Type} (held : C -> scaleKey -> gset Z)
    (step : op -> C -> option (scaleKey * Z) * C) : Prop := {
  cl_fresh o c key k : (step o c).1 = Some (key, k) -> k ∉ held c key;
  cl_after o c key k :
    k ∈ held (step o c).2 key <->
    (k ∈ held c key /\ o <> ORelease key k) \/ (step o c).1 = Some (key, k)
}.

Section clients.
Context {C : Type} {held : C -> scaleKey -> gset Z}
  {step : op -> C -> option (scaleKey * Z) * C} `{!ClaimLaws held step}.

Lemma claims_kept (ops : list op) (c : C) key k :
  ORelease key k ∉ ops -> k ∈ held c key ->
  k ∈ held (foldl (fun c o => (step o c).2) c ops) key.
Proof.
  revert c. induction ops as [|o ops IH]; intros c Hn Hk; simpl; [done|].
  apply IH; [set_solver|]. apply cl_after. left. split; [done|]. set_solver.
Qed.

(** Two callers hold the same index only with a release in between. *)
Lemma claims_exclusive (o1 o2 : op) (ops : list op) (c : C) key k :
  (step o1 c).1 = Some (key, k) ->
  (step o2 (foldl (fun c o => (step o c).2) (step o1 c).2 ops)).1 = Some (key, k) ->
  ORelease key k ∈ ops.
Proof.
  intros H1 H2. destruct (decide (ORelease key k ∈ ops)) as [|Hn]; [done|].
  apply cl_fresh in H2. destruct H2. apply claims_kept; [done|]. apply cl_after. by right.
Qed.
End clients.

(** *** The implementation keeps the promise *)

Lemma find_seqZ (free : Z -> bool) lo n :
  match List.find free (seqZ lo n) with
  | Some k => lo <= k < lo + n /\ free k = true /\ forall j, lo <= j < k -> free j = false
  | None => forall j, lo <= j < lo + n -> free j = false
  end.
Proof.
  destruct (Z.le_ge_cases n 0) as [Hn|Hn].
  { replace (seqZ lo n) with (@nil Z) by (symmetry; by apply seqZ_nil). simpl. lia. }
  rewrite <- (Z2Nat.id n) by lia. generalize (Z.to_nat n) as i. clear n Hn. intros i. revert lo.
  induction i as [|i IH]; intros lo; [simpl; lia|].
  rewrite seqZ_cons by lia. replace (Z.pred (Z.of_nat (S i))) with (Z.of_nat i) by lia.
  cbn [List.find].
  destruct (free lo) eqn:E; [split_and!; [lia|lia|done|lia]|].
  specialize (IH (Z.succ lo)). destruct (List.find free _) as [k|].
  - destruct IH as (Hk & Hf & Hj). split_and!; [lia|lia|done|]. intros j Hl.
    destruct (decide (j = lo)) as [->|]; [done|]. apply Hj. lia.
  - intros j Hl. destruct (decide (j = lo)) as [->|]; [done|]. apply IH. lia.
Qed.

Lemma firstFree_spec free from limit :
  match firstFree free from limit with
  | Some k => Z.max from 0 <= k < limit /\ free k = true /\
      forall j, Z.max from 0 <= j < k -> free j = false
  | None => forall j, Z.max from 0 <= j < limit -> free j = false
  end.
Proof.
  unfold firstFree. pose proof (find_seqZ free (Z.max from 0) (limit - Z.max from 0)) as Hf.
  destruct (List.find _ _); [destruct Hf; split; [lia|done]|]. intros. apply Hf. lia.
Qed.

Lemma heldIn_hold m key k key' :
  heldIn (hold m key k) key' = if decide (key = key') then {[k]} ∪ heldIn m key' else heldIn m key'.
Proof.
  unfold heldIn, hold, map_get. case_decide as E; [subst|].
  - by rewrite lookup_insert_eq.
  - by rewrite lookup_insert_ne.
Qed.

Lemma heldIn_delete m key key' :
  heldIn (delete key m) key' = if decide (key = key') then ∅ else heldIn m key'.
Proof.
  unfold heldIn, map_get. case_decide as E; [subst|].
  - by rewrite lookup_delete_eq.
  - by rewrite lookup_delete_ne.
Qed.

Lemma heldBy_release m key k key' :
  heldBy (release (Some m) key k) key'
  = if decide (key = key') then heldIn m key' ∖ {[k]} else heldIn m key'.
Proof.
  unfold release. set (m' := if has_key m key then _ else m).
  assert (forall key', heldIn m' key'
    = if decide (key = key') then heldIn m key' ∖ {[k]} else heldIn m key') as Hm'.
  { intros key0. unfold m'. destruct (has_key m key) eqn:E.
    - unfold heldIn at 1, map_get. case_decide as Ek; [subst|].
      + by rewrite lookup_insert_eq.
      + by rewrite lookup_insert_ne.
    - apply has_key_false, not_elem_of_dom in E. case_decide as Ek; [subst|done].
      unfold heldIn, map_get. rewrite E. simpl. set_solver. }
  case_bool_decide as E; simpl; rewrite ?heldIn_delete, Hm'; [|done].
  rewrite Hm' in E. repeat case_decide; by subst.
Qed.

(** A set in use (not the nil set). *)
Definition liveHeld (m : gmap scaleKey (gset Z)) (key : scaleKey) : gset Z := heldBy (Some m) key.
Definition liveStep (o : op) (m : gmap scaleKey (gset Z))
  : option (scaleKey * Z) * gmap scaleKey (gset Z) :=
  ((opStep o (Some m)).1, default ∅ (opStep o (Some m)).2).

Lemma opStep_live o m : (opStep o (Some m)).2 = Some (liveStep o m).2.
Proof.
  unfold liveStep, opStep, tryClaim, claimLowest, release. simpl.
  destruct o; repeat case_match; simplify_eq; done.
Qed.

Lemma runOps_live ops m :
  runOps ops (Some m) = Some (foldl (fun m o => (liveStep o m).2) m ops).
Proof.
  revert m. induction ops as [|o ops IH]; intros m; [done|]. unfold runOps in *. cbn [foldl].
  by rewrite opStep_live, IH.
Qed.

Lemma claimLowest_live m key from limit taken :
  match claimLowest (Some m) key from limit taken with
  | (Some k, c) => k ∉ heldIn m key /\ c = Some (hold m key k)
  | (None, c) => c = Some m
  end.
Proof.
  unfold claimLowest.
  pose proof (firstFree_spec (fun k => negb (bool_decide (k ∈ taken))
    && negb (bool_decide (k ∈ heldIn m key))) from (Z.min limit (Addresses.MaxInstanceIndex + 1))) as Hf.
  destruct (firstFree _ _ _) as [k|]; [|done]. destruct Hf as (_ & Hk & _). by bool_hyps.
Qed.

#[local] Arguments claimLowest : simpl never.
#[local] Arguments release : simpl never.

Global Instance instanceClaims_laws : ClaimLaws liveHeld liveStep.
Proof.
  split.
  - intros o m key k. unfold liveHeld, liveStep, opStep. destruct o as [key' k'|key' from limit taken|]; simpl.
    + case_bool_decide; simpl; [done|]. by intros [= <- <-].
    + pose proof (claimLowest_live m key' from limit taken) as Hl.
      destruct (claimLowest _ _ _ _ _) as [[j|] c]; simpl; [|discriminate].
      intros [= <- <-]. by destruct Hl.
    + done.
  - intros o m key k. unfold liveHeld, liveStep, opStep. destruct o as [key' k'|key' from limit taken|key' k']; simpl.
    + case_bool_decide as Hin; simpl.
      * split; [naive_solver|]. by intros [[? _]|?].
      * rewrite heldIn_hold. case_decide; [subst|naive_solver].
        rewrite elem_of_union, elem_of_singleton. naive_solver.
    + pose proof (claimLowest_live m key' from limit taken) as Hl.
      destruct (claimLowest _ _ _ _ _) as [[j|] c]; simpl.
      * destruct Hl as [Hf ->]. simpl. rewrite heldIn_hold. case_decide; [subst|naive_solver].
        rewrite elem_of_union, elem_of_singleton. naive_solver.
      * subst c. simpl. naive_solver.
    + pose proof (heldBy_release m key' k' key) as Hr. destruct (release (Some m) key' k') as [m'|] eqn:E.
      2:{ unfold release in E. by repeat case_match. }
      simpl in *. rewrite Hr. case_decide; [subst|naive_solver]. set_solver.
Qed.

(** The claim set refines a set of claimed (host, index) pairs: an operation on
    a set in use grants only an index that is free, and what is claimed afterwards is
    what was claimed before, without a released index, with the granted one. *)
Theorem instanceClaims_refine_set o m key k :
  let '(granted, c) := opStep o (Some m) in
  (granted = Some (key, k) -> k ∉ heldBy (Some m) key) /\
  (k ∈ heldBy c key <->
   (k ∈ heldBy (Some m) key /\ o <> ORelease key k) \/ granted = Some (key, k)).
Proof.
  pose proof (cl_fresh (held := liveHeld) o m key k) as H1.
  pose proof (cl_after (held := liveHeld) o m key k) as H2.
  pose proof (opStep_live o m) as E. unfold liveStep in *. destruct (opStep o (Some m)) as [g [m'|]];
    simpl in *; [done|discriminate].
Qed.

(** No index of a host is handed out twice at the same time: between two grants
    of it -- to the scaler or to a manual start, through either operation, whatever
    else interleaves -- it was released. *)
Theorem instanceClaims_exclusive o1 o2 ops m key k :
  (opStep o1 (Some m)).1 = Some (key, k) ->
  (opStep o2 (runOps ops (opStep o1 (Some m)).2)).1 = Some (key, k) ->
  ORelease key k ∈ ops.
Proof.
  rewrite opStep_live, runOps_live. intros H1 H2.
  eapply (claims_exclusive (held := liveHeld) (step := liveStep) o1 o2 ops m); done.
Qed.

Lemma instanceClaims_exclusive_witness :
  exists key, (opStep (OLowest key 0 8 {[0; 1]}) newInstanceClaims).1 = Some (key, 2) /\
    ORelease key 2 ∈ [OTry key 2; ORelease key 2; OLowest key 0 8 {[0]}].
Proof.
  exists ("s1", "map_a"). split; [vm_compute; reflexivity|].
  apply (instanceClaims_exclusive (OLowest ("s1", "map_a") 0 8 {[0; 1]}) (OTry ("s1", "map_a") 2)
    _ ∅); vm_compute; reflexivity.
Defined.

Lemma claimLowest_spec m key from limit taken :
  let free k := Z.max from 0 <= k < Z.min limit (Addresses.MaxInstanceIndex + 1) /\
                k ∉ taken /\ k ∉ heldIn m key in
  match claimLowest (Some m) key from limit taken with
  | (Some k, c) => free k /\ (forall j, free j -> k <= j) /\ c = Some (hold m key k)
  | (None, c) => (forall j, ~ free j) /\ c = Some m
  end.
Proof.
  unfold claimLowest. set (limit' := Z.min limit _).
  set (test k := negb (bool_decide (k ∈ taken)) && negb (bool_decide (k ∈ heldIn m key))).
  assert (forall k, test k = true <-> k ∉ taken /\ k ∉ heldIn m key) as Ht.
  { intros k. unfold test. by rewrite andb_true_iff, !negb_true_iff, !bool_decide_eq_false. }
  pose proof (firstFree_spec test from limit') as Hf. destruct (firstFree test from limit') as [k|].
  - destruct Hf as (Hr & Hk & Hj). rewrite Ht in Hk. split_and!; try done; try lia.
    + tauto.
    + tauto.
    + intros j (Hjr & Hjf%Ht). destruct (Z.le_gt_cases k j); [done|].
      rewrite Hj in Hjf by lia. done.
  - split; [|done]. intros j (Hjr & Hjf%Ht). rewrite Hf in Hjf by lia. done.
Qed.

(** ** The index rule *)

Lemma nextInstanceIndex_spec present taken :
  let k := nextInstanceIndex present taken in
  (k = 0 /\ forall j, 1 <= j <= Addresses.MaxInstanceIndex -> j ∈ taken \/ j ∈ present) \/
  (1 <= k <= Addresses.MaxInstanceIndex /\ k ∉ taken /\ k ∉ present /\
   forall j, 1 <= j < k -> j ∈ taken \/ j ∈ present).
Proof.
  unfold nextInstanceIndex.
  set (test k := negb (bool_decide (k ∈ taken)) && negb (bool_decide (k ∈ present))).
  assert (forall k, test k = false <-> k ∈ taken \/ k ∈ present) as Ht.
  { intros k. unfold test. rewrite andb_false_iff, !negb_false_iff, !bool_decide_eq_true. done. }
  pose proof (find_seqZ test 1 Addresses.MaxInstanceIndex) as Hf.
  destruct (List.find test _) as [k|].
  - right. destruct Hf as (Hr & Hk & Hj). cbv zeta. split; [lia|].
    destruct (decide (k ∈ taken \/ k ∈ present)) as [Hin|Hn]; [apply Ht in Hin; congruence|].
    split_and!; [tauto|tauto|]. intros j Hjr. by apply Ht, Hj.
  - left. split; [done|]. intros j Hj. apply Ht, Hf. unfold Addresses.MaxInstanceIndex in *. lia.
Qed.

Lemma otherMappingIndexes_spec mappings m k :
  k ∈ otherMappingIndexes mappings m <->
  1 <= k <= Addresses.MaxInstanceIndex /\
  exists o, o ∈ mappings /\ mm_ID o <> mm_ID m /\
    mm_AppModelName o = Addresses.InstanceAddress (mm_AppModelName m) k.
Proof.
  unfold otherMappingIndexes. set (others := foldl _ ∅ mappings).
  assert (forall name, name ∈ others <->
    exists o, o ∈ mappings /\ mm_ID o <> mm_ID m /\ mm_AppModelName o = name) as Ho.
  { intros name. unfold others. clear others.
    enough (forall acc : gset string, name ∈ foldl (fun others o =>
        if negb (String.eqb (mm_ID o) (mm_ID m)) then {[mm_AppModelName o]} ∪ others else others)
        acc mappings <-> name ∈ acc \/ exists o, o ∈ mappings /\ mm_ID o <> mm_ID m /\ mm_AppModelName o = name)
      as Hg by (rewrite Hg; set_solver).
    induction mappings as [|o l IH]; intros acc; simpl; [set_solver|].
    rewrite IH. setoid_rewrite elem_of_cons. destruct (String.eqb_spec (mm_ID o) (mm_ID m)); set_solver. }
  clearbody others.
  assert (forall l (acc : gset Z), k ∈ foldl (fun taken k => if bool_decide (others = ∅) then taken
      else if bool_decide (Addresses.InstanceAddress (mm_AppModelName m) k ∈ others)
           then {[k]} ∪ taken else taken) acc l <->
    k ∈ acc \/ (k ∈ l /\ Addresses.InstanceAddress (mm_AppModelName m) k ∈ others)) as Hf.
  { induction l as [|j l IH]; intros acc; simpl; [set_solver|].
    rewrite IH, elem_of_cons. repeat case_bool_decide; set_solver. }
  rewrite Hf, elem_of_seqZ, Ho. unfold Addresses.MaxInstanceIndex.
  split; [intros [?%elem_of_empty|[? ?]]; [done|split; [lia|done]]|].
  intros [? ?]. right. split; [lia|done].
Qed.

(** [k] may be started for mapping [m]: it is an index of its own, no other mapping's
    literal model name is the address, and no ensure of it is under way. *)
Record startable (mappings : list ModelMapping) (m : ModelMapping) (held : gset Z) (k : Z)
  : Prop := {
  sa_range : 0 <= k <= Addresses.MaxInstanceIndex;
  sa_held : k ∉ held;
  sa_literal o : o ∈ mappings -> mm_ID o <> mm_ID m -> 1 <= k ->
    mm_AppModelName o <> Addresses.InstanceAddress (mm_AppModelName m) k
}.

Lemma startable_taken mappings m held k :
  0 <= k <= Addresses.MaxInstanceIndex -> k ∉ held -> k ∉ otherMappingIndexes mappings m ->
  startable mappings m held k.
Proof.
  intros Hr Hh Hn. split; [done..|]. intros o Ho Hid H1 E. apply Hn, otherMappingIndexes_spec. eauto with lia.
Qed.

(** The scaler's pick: an index it gives out is startable and not present on the
    host, it is the lowest such, and it gives none only when every index is used. *)
Theorem instanceIndex_free mappings m c key present :
  let k := instanceIndex mappings m c key present in
  (k = 0 /\ forall j, 1 <= j <= Addresses.MaxInstanceIndex ->
     j ∈ present \/ ~ startable mappings m (heldBy c key) j) \/
  (1 <= k /\ k ∉ present /\ startable mappings m (heldBy c key) k /\
   forall j, 1 <= j < k -> j ∈ present \/ ~ startable mappings m (heldBy c key) j).
Proof.
  cbv zeta. unfold instanceIndex.
  assert (forall j, j ∈ otherMappingIndexes mappings m ∪ heldBy c key ->
    ~ startable mappings m (heldBy c key) j) as Hn.
  { intros j [(Hj & o & Ho & Hid & E)%otherMappingIndexes_spec|Hj]%elem_of_union [_ Hh Hl]; [|done].
    eapply Hl; eauto. lia. }
  destruct (nextInstanceIndex_spec present (otherMappingIndexes mappings m ∪ heldBy c key))
    as [[-> Hall]|(Hr & Ht & Hp & Hall)].
  - left. split; [done|]. intros j Hj. destruct (Hall j Hj); auto.
  - right. rewrite elem_of_union in Ht. split_and!; [lia|done|apply startable_taken; [lia|tauto..]|].
    intros j Hj. destruct (Hall j Hj); auto.
Qed.

(** A status row that keeps index [k] of a spec from being started. *)
Definition keepsIndex (specID : string) (k : Z) (row : RuntimeStatus) : Prop :=
  rs_SpecID row = specID /\ rs_Instance row = k /\
  ((1 <= k /\ rs_State row ∉ instanceReusableStates) \/
   (k = 0 /\ (rs_State row = "running" \/ rs_State row = "starting"))).

Lemma specInstanceRows_reported rows specID k :
  k ∈ (specInstanceRows rows specID).2 <->
  1 <= k /\ exists row, row ∈ rows /\ rs_SpecID row = specID /\ rs_Instance row = k /\
    rs_State row ∉ instanceReusableStates.
Proof.
  unfold specInstanceRows.
  match goal with |- context [foldl ?f _ rows] => set (step := f) end.
  enough (forall acc, k ∈ (foldl step acc rows).2 <-> k ∈ acc.2 \/
    (1 <= k /\ exists row, row ∈ rows /\ rs_SpecID row = specID /\ rs_Instance row = k /\
      rs_State row ∉ instanceReusableStates)) as Hg.
  { rewrite Hg. simpl. rewrite elem_of_nil. tauto. }
  induction rows as [|row rows IH]; intros acc; cbn [foldl]; [set_solver|].
  rewrite IH. setoid_rewrite elem_of_cons. unfold step.
  destruct (String.eqb_spec (rs_SpecID row) specID); simpl; [|naive_solver].
  destruct (Z.leb_spec 1 (rs_Instance row)); simpl; [|naive_solver lia].
  case_bool_decide; simpl; [naive_solver|]. rewrite elem_of_app, list_elem_of_singleton. naive_solver.
Qed.

Lemma foldl_union_elem (l : list Z) (acc : gset Z) k :
  k ∈ foldl (fun taken j => {[j]} ∪ taken) acc l <-> k ∈ acc \/ k ∈ l.
Proof. revert acc. induction l as [|j l IH]; intros acc; simpl; [set_solver|]. rewrite IH. set_solver. Qed.

Lemma foldl_flag {A} (b : A -> bool) (l : list A) (acc : gset Z) k :
  k ∈ foldl (fun taken x => if b x then {[0]} ∪ taken else taken) acc l <->
  k ∈ acc \/ (k = 0 /\ exists x, x ∈ l /\ b x = true).
Proof.
  revert acc. induction l as [|x l IH]; intros acc; simpl.
  { split; [by left|]. by intros [?|(_ & x & ?%elem_of_nil & _)]. }
  rewrite IH. setoid_rewrite elem_of_cons. destruct (b x) eqn:E.
  - rewrite elem_of_union, elem_of_singleton. naive_solver.
  - split; [naive_solver|]. intros [?|(-> & y & [->|?] & ?)]; [by left|congruence|right; eauto].
Qed.

(** The indexes [claimStartInstance] counts as taken. *)
Lemma startTaken_spec rows mappings m specID k :
  0 <= k <= Addresses.MaxInstanceIndex ->
  k ∈ foldl (fun taken row =>
        if String.eqb (rs_SpecID row) specID && (rs_Instance row =? 0)
           && (String.eqb (rs_State row) "running" || String.eqb (rs_State row) "starting")
        then {[0]} ∪ taken else taken)
      (foldl (fun taken k => {[k]} ∪ taken) (otherMappingIndexes mappings m)
        (specInstanceRows rows specID).2) rows <->
  k ∈ otherMappingIndexes mappings m \/ exists row, row ∈ rows /\ keepsIndex specID k row.
Proof.
  intros Hk.
  set (holds0 row := String.eqb (rs_SpecID row) specID && (rs_Instance row =? 0)
    && (String.eqb (rs_State row) "running" || String.eqb (rs_State row) "starting")).
  change (k ∈ foldl (fun taken row => if holds0 row then {[0]} ∪ taken else taken)
    (foldl (fun taken k => {[k]} ∪ taken) (otherMappingIndexes mappings m)
      (specInstanceRows rows specID).2) rows <-> k ∈ otherMappingIndexes mappings m \/
    exists row, row ∈ rows /\ keepsIndex specID k row).
  rewrite foldl_flag, foldl_union_elem, specInstanceRows_reported.
  assert (forall row, holds0 row = true <-> rs_SpecID row = specID /\ rs_Instance row = 0 /\
    (rs_State row = "running" \/ rs_State row = "starting")) as Hh.
  { intros row. unfold holds0.
    rewrite !andb_true_iff, orb_true_iff, !String.eqb_eq, Z.eqb_eq. tauto. }
  unfold keepsIndex. setoid_rewrite Hh. clear. split.
  - intros [[?|(H1 & row & Hr & Hs & Hi & Hn)]|(-> & row & Hr & Hs & Hi & Hst)];
      [by left|right; exists row; tauto..].
  - intros [?|(row & Hr & Hs & Hi & [[H1 Hn]|[H0 Hst]])]; [by left; left|left; right|right]; subst; eauto 8.
Qed.

(** The portal's manual start asks for the lowest index that may be started: it
    is startable, below the spec's cap, and no status row keeps it; it is claimed in
    the same step; and "max instances" is answered only when no index qualifies. *)
Theorem claimStartInstance_lowest rows mappings server m spec cl :
  sp_Replicable spec = true ->
  let key := (server, mm_ID m) in
  let free k := startable mappings m (heldIn cl key) k /\
                (0 < sp_MaxInstances spec -> k < sp_MaxInstances spec) /\
                forall row, row ∈ rows -> ~ keepsIndex (sp_ID spec) k row in
  match claimStartInstance rows mappings server m spec (Some cl) with
  | (Claimed k, c) => free k /\ (forall j, free j -> k <= j) /\ c = Some (hold cl key k)
  | (MaxInstances, c) => (forall j, ~ free j) /\ c = Some cl
  | (NotReplicable, _) => False
  end.
Proof.
  intros Hrep key free. unfold claimStartInstance. rewrite Hrep. cbn [negb]. cbv zeta.
  pose proof (fun k => startTaken_spec rows mappings m (sp_ID spec) k) as Ht.
  match goal with |- context [claimLowest _ _ 0 ?l ?t] => set (limit := l) in *; set (taken := t) in * end.
  assert (forall k, free k <-> Z.max 0 0 <= k < Z.min limit (Addresses.MaxInstanceIndex + 1) /\
    k ∉ taken /\ k ∉ heldIn cl key) as Hfree.
  { intros k. unfold free, limit. split.
    - intros ([Hr Hh Hl] & Hm & Hrow). split_and!; [|destruct (Z.ltb_spec 0 (sp_MaxInstances spec)); lia| |done].
      + lia.
      + intros [(Hj & o & Ho & Hid & E)%otherMappingIndexes_spec|(row & Hin & Hkeep)]%(Ht k Hr).
        * eapply Hl; eauto. lia.
        * by eapply Hrow.
    - intros (Hr & Htk & Hh).
      assert (0 <= k <= Addresses.MaxInstanceIndex) as Hk by lia. rewrite (Ht k Hk) in Htk.
      split_and!; [apply startable_taken; tauto| |].
      + intros Hp. destruct (Z.ltb_spec 0 (sp_MaxInstances spec)); lia.
      + intros row Hin Hkeep. apply Htk. eauto. }
  pose proof (claimLowest_spec cl key 0 limit taken) as Hc. cbv zeta in Hc.
  clearbody free. unfold key in *.
  destruct (claimLowest (Some cl) _ 0 limit taken) as [[k|] c].
  - destruct Hc as (H1 & H2 & H3). split; [by apply Hfree|split; [|done]].
    intros j Hj. by apply H2, Hfree.
  - destruct Hc as [H1 H2]. split; [|done]. intros j Hj. by apply (H1 j), Hfree.
Qed.

Definition sampleRows : list RuntimeStatus :=
  [mkRuntimeStatus "sp" "m" 0 "running"; mkRuntimeStatus "sp" "m#1" 1 "crashed"; mkRuntimeStatus "sp" "m#2" 2 "draining"].
Definition sampleMappings : list ModelMapping :=
  [plainMapping "map_a" "qwen" "qwen"; plainMapping "map_b" "qwen#1" "qwen#1"].

(** Instance 0 runs, "qwen#1" is another mapping's model, 2 drains: 3 is asked for. *)
Lemma claimStartInstance_lowest_witness :
  (claimStartInstance sampleRows sampleMappings "s1" (plainMapping "map_a" "qwen" "qwen")
    (replicableSpec "sp" 5) (Some ∅)).1 = Claimed 3 /\
  startable sampleMappings (plainMapping "map_a" "qwen" "qwen") (heldIn ∅ ("s1", "map_a")) 3.
Proof.
  split; [vm_compute; reflexivity|].
  pose proof (claimStartInstance_lowest sampleRows sampleMappings "s1" (plainMapping "map_a" "qwen" "qwen")
    (replicableSpec "sp" 5) ∅ eq_refl) as Hw. cbv zeta in Hw.
  assert (claimStartInstance sampleRows sampleMappings "s1" (plainMapping "map_a" "qwen" "qwen")
    (replicableSpec "sp" 5) (Some ∅) = (Claimed 3, Some (hold ∅ ("s1", "map_a") 3))) as E
    by (vm_compute; reflexivity).
  rewrite E in Hw. destruct Hw as [[Hs _] _]. exact Hs.
Defined.
