(* ===== verification/Scaler.v ===== *)
(** * The instance scaler's demand signals

    Models the signal handling of [gateway/backend/internal/gateway/instance_scaler.go]:
    [Signal], the loop [run] with [followUp], [signalKeyOf], [signalServedBy], and the
    holds on hosts ([holdOff], [heldOff]).  A model's scale-up is a goroutine whose
    only variable is the signal it serves; the scaler's mutex makes [Signal] and
    [followUp] atomic, so an execution is a sequence of signals and ends of passes.
    What a pass does (choosing a host, the ensure) is its outcome: the host it started
    an instance for, if any. *)

From Stdlib Require Import ZArith Lia Ascii.
From stdpp Require Import base tactics option list numbers strings gmap sorting.
From S2P Require Import Prelude Float64 RoutingTypes GatewayInstances.
Local Open Scope Z_scope.

(** ** Data *)

Record signalKey := mkSignalKey {
  sk_serverID : string;
  sk_mappingIDs : string;
  sk_apiFlavor : string
}.

Global Instance signalKey_eq_dec : EqDecision signalKey.
Proof. solve_decision. Defined.

Definition nul : string := String Ascii.zero "".

Definition signalKeyOf (d : DemandSignal) : signalKey :=
  mkSignalKey (ds_ServerID d)
    (String.concat nul (sort_Slice (less_string (fun id => id)) (ds_MappingIDs d)))
    (ds_APIFlavor d).

(** The zero [scaleKey] stands for no host. *)
Definition zeroKey : scaleKey := ("", "").

Definition signalServedBy (d : DemandSignal) (host : scaleKey) (flavor : string) : bool :=
  if String.eqb host.1 "" || (negb (String.eqb (ds_ServerID d) "") && negb (String.eqb (ds_ServerID d) host.1))
  then false
  else if (length (ds_MappingIDs d) =? 0)%nat then String.eqb (ds_APIFlavor d) flavor
  else bool_decide (host.2 ∈ ds_MappingIDs d).

Record scaler := mkScaler {
  s_scaling : gmap string signalKey;
  s_followUps : gmap string (list DemandSignal);
  s_passes : gmap string DemandSignal;     (* the running goroutines' signals *)
  s_notBefore : gmap scaleKey time
}.

Definition newInstanceScaler : scaler := mkScaler ∅ ∅ ∅ ∅.

(** ** Signals *)

(** [ready] is false when the provider cannot ensure or the server is shutting down. *)
Definition Signal (ready : bool) (d : DemandSignal) (s : scaler) : scaler :=
  if String.eqb (ds_Model d) "" || negb ready then s
  else
    let key := signalKeyOf d in
    match s_scaling s !! ds_Model d with
    | Some runningKey =>
        let queued := map_get [] (s_followUps s) (ds_Model d) in
        if negb (bool_decide (key = runningKey))
           && negb (existsb (fun q => bool_decide (signalKeyOf q = key)) queued)
        then mkScaler (s_scaling s) (<[ds_Model d := queued ++ [d]]> (s_followUps s)) (s_passes s)
               (s_notBefore s)
        else s
    | None =>
        mkScaler (<[ds_Model d := key]> (s_scaling s)) (s_followUps s)
          (<[ds_Model d := d]> (s_passes s)) (s_notBefore s)
    end.

(** The loop of [followUp]: the first queued signal the ended pass did not serve, with
    the signals behind it. *)
Fixpoint nextUnserved (started : scaleKey) (flavor : string) (queued : list DemandSignal)
  : option (DemandSignal * list DemandSignal) :=
  match queued with
  | [] => None
  | next :: queued' =>
      if signalServedBy next started flavor then nextUnserved started flavor queued'
      else Some (next, queued')
  end.

(** A pass of [model] ends, having started [started]; [down] is [ctx.Err() != nil].
    The goroutine goes on with the signal [followUp] returns, or ends. *)
Definition passEnds (down : bool) (model : string) (started : scaleKey) (s : scaler) : scaler :=
  match s_passes s !! model with
  | None => s
  | Some d =>
      let queued := map_get [] (s_followUps s) model in
      match (if down then None else nextUnserved started (ds_APIFlavor d) queued) with
      | Some (next, rest) =>
          mkScaler (<[model := signalKeyOf next]> (s_scaling s)) (<[model := rest]> (s_followUps s))
            (<[model := next]> (s_passes s)) (s_notBefore s)
      | None =>
          mkScaler (delete model (s_scaling s)) (delete model (s_followUps s))
            (delete model (s_passes s)) (s_notBefore s)
      end
  end.

(** ** Holds *)

Definition holdOff (key : scaleKey) (d : duration) (now : time) (s : scaler) : scaler :=
  mkScaler (s_scaling s) (s_followUps s) (s_passes s)
    (<[key := time_Add now d]> (filter (fun e => (now <? e.2) = true) (s_notBefore s))).

Definition heldOff (key : scaleKey) (now : time) (s : scaler) : bool :=
  match s_notBefore s !! key with Some until => now <? until | None => false end.

(** ** Executions *)

Inductive event :=
| ESignal (ready : bool) (d : DemandSignal)
| EPassEnds (down : bool) (model : string) (started : scaleKey)
| EHold (key : scaleKey) (d : duration) (now : time).

Definition step (e : event) (s : scaler) : scaler :=
  match e with
  | ESignal ready d => Signal ready d s
  | EPassEnds down model started => passEnds down model started s
  | EHold key d now => holdOff key d now s
  end.

Definition steps (es : list event) (s : scaler) : scaler := foldl (fun s e => step e s) s es.

(** The signals of [model] a scale-up is running for or will look at. *)
Definition pending (s : scaler) (model : string) : list DemandSignal :=
  match s_passes s !! model with
  | None => []
  | Some d => d :: map_get [] (s_followUps s) model
  end.

(** ** Invariant *)

(** One goroutine per model in [scaling]; a model's pending signals are for that model
    and no two have the same key; nothing is queued for an idle model. *)
Record scaler_ok (s : scaler) : Prop := {
  so_running model : s_scaling s !! model = signalKeyOf <$> s_passes s !! model;
  so_model model d : d ∈ pending s model -> ds_Model d = model;
  so_keys model : NoDup (signalKeyOf <$> pending s model);
  so_idle model : s_passes s !! model = None -> s_followUps s !! model = None
}.

Lemma nextUnserved_spec started flavor queued :
  match nextUnserved started flavor queued with
  | Some (next, rest) =>
      exists skipped, queued = skipped ++ next :: rest /\ signalServedBy next started flavor = false /\
        Forall (fun d => signalServedBy d started flavor = true) skipped
  | None => Forall (fun d => signalServedBy d started flavor = true) queued
  end.
Proof.
  induction queued as [|d queued IH]; simpl; [constructor|].
  destruct (signalServedBy d started flavor) eqn:E.
  - destruct (nextUnserved started flavor queued) as [[next rest]|]; [|by constructor].
    destruct IH as (skipped & -> & ? & ?). exists (d :: skipped). split_and!; [done..|by constructor].
  - exists []. split_and!; [done..|constructor].
Qed.

Lemma map_get_insert {V} (m : gmap string V) (z : V) k k' v :
  map_get z (<[k := v]> m) k' = if decide (k = k') then v else map_get z m k'.
Proof.
  unfold map_get. case_decide as E; [subst; by rewrite lookup_insert_eq|by rewrite lookup_insert_ne].
Qed.

(** ** What an event does to the pending signals *)

Definition sameKey (d q : DemandSignal) : Prop := signalKeyOf q = signalKeyOf d.

Lemma pending_Signal s ready d model :
  scaler_ok s -> ds_Model d <> "" ->
  pending (Signal ready d s) model =
    if decide (ready = true /\ ds_Model d = model /\ signalKeyOf d ∉ signalKeyOf <$> pending s model)
    then pending s model ++ [d] else pending s model.
Proof.
  intros [Hrun Hmod Hkeys Hidle] Hne. unfold Signal.
  rewrite (proj2 (String.eqb_neq _ _) Hne). destruct ready; cbn [orb negb];
    [|by rewrite decide_False by naive_solver].
  rewrite Hrun. destruct (s_passes s !! ds_Model d) as [p|] eqn:Ep; cbn [fmap option_fmap option_map].
  - set (q := map_get [] (s_followUps s) (ds_Model d)).
    assert (pending s (ds_Model d) = p :: q) as Epend by (unfold pending; by rewrite Ep).
    destruct (negb (bool_decide (signalKeyOf d = signalKeyOf p)) &&
      negb (existsb (fun x => bool_decide (signalKeyOf x = signalKeyOf d)) q)) eqn:Et.
    + apply andb_true_iff in Et as [Et1 Et2]. rewrite !negb_true_iff in Et1, Et2.
      apply bool_decide_eq_false in Et1.
      assert (signalKeyOf d ∉ signalKeyOf <$> pending s (ds_Model d)) as Hn.
      { rewrite Epend, fmap_cons, elem_of_cons, list_elem_of_fmap.
        intros [?|(x & Ex & Hx)]; [done|]. apply not_true_iff_false in Et2. apply Et2.
        apply existsb_exists. exists x. split; [by apply list_elem_of_In|]. by apply bool_decide_eq_true. }
      unfold pending. cbn [s_passes s_followUps]. destruct (decide (ds_Model d = model)) as [<-|Hm].
      * rewrite decide_True by done. rewrite Ep, map_get_insert, decide_True by done. done.
      * rewrite decide_False by naive_solver. destruct (s_passes s !! model); [|done].
        by rewrite map_get_insert, decide_False.
    + rewrite decide_False; [done|]. intros (_ & <- & Hn). rewrite Epend, fmap_cons, not_elem_of_cons in Hn.
      destruct Hn as [Hn1 Hn2]. rewrite bool_decide_eq_false_2 in Et by done. simpl in Et.
      apply negb_false_iff, existsb_exists in Et as (x & Hx%list_elem_of_In & Ex%bool_decide_eq_true).
      apply Hn2. rewrite <- Ex. by apply list_elem_of_fmap_2.
  - unfold pending. cbn [s_passes s_followUps]. destruct (decide (ds_Model d = model)) as [<-|Hm].
    + rewrite Ep, decide_True by (split_and!; [done..|]; by apply not_elem_of_nil).
      rewrite lookup_insert_eq. unfold map_get. by rewrite (Hidle _ Ep).
    + rewrite decide_False by naive_solver. by rewrite lookup_insert_ne.
Qed.

Lemma pending_passEnds s down model started model' :
  pending (passEnds down model started s) model' =
    if decide (model = model') then
      match pending s model with
      | [] => []
      | d :: q =>
          match (if down then None else nextUnserved started (ds_APIFlavor d) q) with
          | Some (next, rest) => next :: rest
          | None => []
          end
      end
    else pending s model'.
Proof.
  unfold passEnds, pending. destruct (s_passes s !! model) as [d|] eqn:Ed.
  - destruct (if down then None else _) as [[next rest]|]; simpl; case_decide as E; subst.
    + by rewrite lookup_insert_eq, map_get_insert, decide_True.
    + rewrite lookup_insert_ne, map_get_insert, decide_False by done. done.
    + by rewrite lookup_delete_eq.
    + rewrite lookup_delete_ne by done. unfold map_get. by rewrite lookup_delete_ne.
  - case_decide; [subst; by rewrite Ed|done].
Qed.

Lemma Signal_no_model s ready d : ds_Model d = "" -> Signal ready d s = s.
Proof. intros E. unfold Signal. by rewrite E. Qed.

Lemma Signal_ok s ready d : scaler_ok s -> scaler_ok (Signal ready d s).
Proof.
  intros Hok. destruct (decide (ds_Model d = "")) as [|Hne]; [by rewrite Signal_no_model|].
  pose proof (fun model => pending_Signal s ready d model Hok Hne) as Hp.
  split.
  - intros model. destruct Hok as [Hrun _ _ _]. unfold Signal.
    destruct (_ || _); [done|]. destruct (s_scaling s !! ds_Model d) eqn:E; [by case_match|]. simpl.
    destruct (decide (ds_Model d = model)) as [->|]; [by rewrite !lookup_insert_eq|by rewrite !lookup_insert_ne].
  - intros model x. rewrite Hp. destruct (decide (_ /\ _)) as [E|_]; [|by apply Hok].
    rewrite elem_of_app, list_elem_of_singleton. intros [?| ->]; [by apply Hok|by destruct E as (_ & ? & _)].
  - intros model. rewrite Hp. destruct (decide (_ /\ _)) as [E|_]; [|by apply Hok].
    rewrite fmap_app. apply NoDup_app. split_and!; [by apply Hok| |apply NoDup_singleton].
    intros k Hk ->%list_elem_of_singleton. by destruct E as (_ & _ & E).
  - intros model. destruct Hok as [Hrun _ _ Hidle]. unfold Signal.
    destruct (_ || _); [auto|]. destruct (s_scaling s !! ds_Model d) eqn:E; simpl.
    + case_match; [|auto]. simpl. intros Hn. rewrite lookup_insert_ne; [auto|]. intros <-.
      rewrite Hrun, Hn in E. done.
    + intros [Hn Hm]%lookup_insert_None. auto.
Qed.

Lemma passEnds_ok s down model started : scaler_ok s -> scaler_ok (passEnds down model started s).
Proof.
  intros Hok. pose proof (pending_passEnds s down model started) as Hp.
  assert (forall m, exists l, pending s m = l ++ pending (passEnds down model started s) m) as Hsuf.
  { intros m. rewrite Hp. case_decide as E; [subst m|by exists []].
    destruct (pending s model) as [|d q]; [by exists []|].
    destruct (if down then None else _) as [[next rest]|] eqn:En; [|exists (d :: q); by rewrite app_nil_r].
    destruct down; [done|]. pose proof (nextUnserved_spec started (ds_APIFlavor d) q) as Hn.
    rewrite En in Hn. destruct Hn as (skipped & -> & _). by exists (d :: skipped). }
  split.
  - intros m. destruct Hok as [Hrun _ _ _]. unfold passEnds. destruct (s_passes s !! model); [|done].
    destruct (if down then None else _) as [[next rest]|]; simpl; destruct (decide (model = m)) as [->|];
      rewrite ?lookup_insert_eq, ?lookup_delete_eq, ?lookup_insert_ne, ?lookup_delete_ne by done; done.
  - intros m x Hx. destruct (Hsuf m) as [l El]. apply (so_model _ Hok). rewrite El. apply elem_of_app. by right.
  - intros m. destruct (Hsuf m) as [l El]. pose proof (so_keys _ Hok m) as Hk. rewrite El, fmap_app in Hk.
    by apply NoDup_app in Hk as (_ & _ & ?).
  - intros m. destruct Hok as [_ _ _ Hidle]. unfold passEnds. destruct (s_passes s !! model) eqn:E; [|auto].
    destruct (if down then None else _) as [[next rest]|]; simpl; destruct (decide (model = m)) as [->|];
      rewrite ?lookup_insert_eq, ?lookup_delete_eq, ?lookup_insert_ne, ?lookup_delete_ne by done; (done || auto).
Qed.

Lemma steps_ok es s : scaler_ok s -> scaler_ok (steps es s).
Proof.
  revert s. induction es as [|e es IH]; intros s Hok; [done|]. apply IH. destruct e; simpl.
  - by apply Signal_ok.
  - by apply passEnds_ok.
  - destruct Hok. by split.
Qed.

Lemma new_ok : scaler_ok newInstanceScaler.
Proof. split; intros *; unfold pending; simpl; rewrite ?lookup_empty; try done; [by intros ?%elem_of_nil|constructor]. Qed.

(** Dropping the holds that have run out is invisible: from then on a host is left
    alone exactly as its last hold says. *)
Lemma heldOff_holdOff key d now s key' t :
  now <= t ->
  heldOff key' t (holdOff key d now s) = if decide (key = key') then t <? now + d else heldOff key' t s.
Proof.
  intros Ht. unfold heldOff, holdOff. cbn [s_notBefore]. destruct (decide (key = key')) as [->|Hne].
  - by rewrite lookup_insert_eq.
  - rewrite lookup_insert_ne by done.
    assert (forall u, filter (fun e : scaleKey * time => (now <? e.2) = true) (s_notBefore s) !! key'
      = Some u <-> s_notBefore s !! key' = Some u /\ now < u) as Hf.
    { intros u. rewrite map_lookup_filter_Some. simpl. by rewrite Z.ltb_lt. }
    destruct (filter _ _ !! key') as [u|].
    + destruct (proj1 (Hf u) eq_refl) as [E _]. by rewrite E.
    + destruct (s_notBefore s !! key') as [u|]; [|done]. symmetry. apply Z.ltb_ge.
      destruct (Z.lt_ge_cases now u) as [Hu|Hu]; [|lia]. discriminate (proj2 (Hf u) (conj eq_refl Hu)).
Qed.

(** ** The properties *)

(** In every execution the scaler runs at most one scale-up per model, for the
    key it has noted; a model's pending signals are for it, no two of them ask for the
    same instance, and nothing is queued for an idle model. *)
Theorem scaler_invariant es : scaler_ok (steps es newInstanceScaler).
Proof. apply steps_ok, new_ok. Qed.

(** C35.  No demand is lost: a signal the scaler takes is pending -- itself or as one
    that asks for the same instance -- and a pending signal stays pending until its
    own pass ends, a pass ends that started an instance serving it, or the server
    shuts down. *)
Theorem demand_not_lost es d e q model :
  ds_Model d <> "" ->
  let s := steps es newInstanceScaler in
  signalKeyOf d ∈ signalKeyOf <$> pending (Signal true d s) (ds_Model d) /\
  (q ∈ pending s model ->
   q ∈ pending (step e s) model \/
   exists down started p rest, e = EPassEnds down model started /\ pending s model = p :: rest /\
     (down = true \/ q = p \/ signalServedBy q started (ds_APIFlavor p) = true)).
Proof.
  intros Hne s. assert (scaler_ok s) as Hok by apply steps_ok, new_ok. clearbody s. split.
  - rewrite pending_Signal by done. destruct (decide (_ /\ _)) as [E|E].
    + rewrite fmap_app, elem_of_app. right. by apply list_elem_of_singleton.
    + destruct (decide (signalKeyOf d ∈ signalKeyOf <$> pending s (ds_Model d))); [done|]. naive_solver.
  - intros Hq. destruct e as [ready d'|down m started|]; [| |by left]; cbn [step].
    + left. destruct (decide (ds_Model d' = "")) as [|Hne']; [by rewrite Signal_no_model|].
      rewrite pending_Signal by done. destruct (decide (_ /\ _)); [|done]. apply elem_of_app. by left.
    + rewrite pending_passEnds. case_decide as Em; [subst m|by left].
      destruct (pending s model) as [|p rest] eqn:Ep; [by apply elem_of_nil in Hq|].
      apply elem_of_cons in Hq as [->|Hq]; [right; eauto 10|].
      destruct down; [right; eauto 10|].
      pose proof (nextUnserved_spec started (ds_APIFlavor p) rest) as Hn.
      destruct (nextUnserved _ _ rest) as [[next q']|].
      * destruct Hn as (skipped & -> & _ & Hs). rewrite elem_of_app in Hq. destruct Hq as [Hq|Hq]; [|by left].
        right. rewrite Forall_forall in Hs. eauto 10.
      * right. rewrite Forall_forall in Hn. eauto 10.
Qed.

(** A scale-up ends: every end of a pass leaves its model fewer pending signals,
    so without new signals the model is idle after at most as many passes. *)
Theorem scale_up_ends model (outcomes : list (bool * scaleKey)) s :
  (length (pending s model) <= length outcomes)%nat ->
  pending (foldl (fun s o => passEnds o.1 model o.2 s) s outcomes) model = [].
Proof.
  revert s. induction outcomes as [|[down started] outcomes IH]; intros s Hl; simpl in *.
  { by apply nil_length_inv; lia. }
  apply IH. rewrite pending_passEnds, decide_True by done.
  destruct (pending s model) as [|d q]; simpl in *; [lia|].
  destruct (if down then None else _) as [[next rest]|] eqn:En; simpl; [|lia].
  destruct down; [done|]. pose proof (nextUnserved_spec started (ds_APIFlavor d) q) as Hn.
  rewrite En in Hn. destruct Hn as (skipped & -> & _). rewrite length_app in Hl. simpl in Hl. lia.
Qed.

(** ** A concrete execution *)

Definition sampleSignal (server : string) (ids : list string) : DemandSignal :=
  mkSignal "chat" "openai" server false ids.

(** A pinned signal arrives while an unpinned one is served, and again. *)
Definition sampleRun : list event :=
  [ESignal true (sampleSignal "" ["m2"; "m1"]); ESignal true (sampleSignal "s2" ["m2"]);
   ESignal true (sampleSignal "" ["m1"; "m2"]); ESignal true (sampleSignal "s2" ["m2"])].

Lemma demand_not_lost_witness :
  pending (steps sampleRun newInstanceScaler) "chat"
    = [sampleSignal "" ["m2"; "m1"]; sampleSignal "s2" ["m2"]] /\
  signalKeyOf (sampleSignal "s3" []) ∈
    signalKeyOf <$> pending (Signal true (sampleSignal "s3" []) (steps sampleRun newInstanceScaler)) "chat".
Proof.
  split; [vm_compute; reflexivity|].
  apply (demand_not_lost sampleRun (sampleSignal "s3" []) (EHold zeroKey 0 0) (sampleSignal "s3" []) "chat").
  discriminate.
Defined.

Lemma scale_up_ends_witness :
  pending (foldl (fun s o => passEnds o.1 "chat" o.2 s) (steps sampleRun newInstanceScaler)
    [(false, ("s1", "m1")); (false, zeroKey)]) "chat" = [].
Proof.
  apply (scale_up_ends "chat" [(false, ("s1", "m1")); (false, zeroKey)] (steps sampleRun newInstanceScaler)).
  vm_compute. lia.
Defined.
