(* ===== verification/Calendar.v ===== *)
(** * Calendar periods

    Models [gateway/backend/internal/routing/limit_period.go]: the whitelist of limit
    periods and [PeriodStart], the UTC start of the calendar period an instant is
    in, with the parts of package [time] it uses (year, month, day, hour, weekday,
    [time.Date], [AddDate] for days).

    An instant counts nanoseconds from 0001-01-01 00:00 UTC, a Monday.  The Gregorian
    calendar is computed with years that begin on March 1, so that the leap day is
    the last day of a year; facts about days are established for one 400-year cycle
    by computation and transported to every cycle. *)

From Stdlib Require Import ZArith Lia.
From stdpp Require Import base tactics option list numbers strings.
From S2P Require Import Prelude.
Local Open Scope Z_scope.

Definition ns_per_second : Z := 1000000000.
Definition ns_per_hour : Z := 3600 * ns_per_second.
Definition ns_per_day : Z := 86400 * ns_per_second.

(** ** The Gregorian calendar *)

Definition cycle : Z := 146097.   (* days of 400 years *)
Definition shift : Z := 306.      (* from 0000-03-01 to 0001-01-01 *)

(** Within a cycle: day [doe] is in century [c] of the cycle, four-year group [q] of
    the century and year [n] of the group; a remainder of 4 is the leap day at the
    end of the last one. *)
Definition century (doe : Z) : Z := doe / 36524 - doe / 36524 / 4.
Definition group (doe : Z) : Z := (doe - 36524 * century doe) / 1461.
Definition day_of_group (doe : Z) : Z := doe - 36524 * century doe - 1461 * group doe.
Definition year_of_group (doe : Z) : Z := day_of_group doe / 365 - day_of_group doe / 365 / 4.

(** The year of the cycle, the day of that year, the month (0 = March) and the day of
    the month; and the day a year and month begin on. *)
Definition yoe_of (doe : Z) : Z := 100 * century doe + 4 * group doe + year_of_group doe.
Definition doy_of (doe : Z) : Z := day_of_group doe - 365 * year_of_group doe.
Definition month_of (doy : Z) : Z := (5 * doy + 2) / 153.
Definition month_start (mp : Z) : Z := (153 * mp + 2) / 5.
Definition mp_of (doe : Z) : Z := month_of (doy_of doe).
Definition dom_of (doe : Z) : Z := doy_of doe - month_start (mp_of doe) + 1.

Definition doe_of (yoe mp : Z) : Z := yoe * 365 + yoe / 4 - yoe / 100 + month_start mp.

Definition day_number (t : time) : Z := t / ns_per_day.

Definition doe (t : time) : Z := (day_number t + shift) mod cycle.
Definition era (t : time) : Z := (day_number t + shift) / cycle.

Definition Year (t : time) : Z :=
  yoe_of (doe t) + 400 * era t + (if mp_of (doe t) <? 10 then 0 else 1).
Definition Month (t : time) : Z :=
  if mp_of (doe t) <? 10 then mp_of (doe t) + 3 else mp_of (doe t) - 9.
Definition Day (t : time) : Z := dom_of (doe t).
Definition Hour (t : time) : Z := t mod ns_per_day / ns_per_hour.

(** [time.Weekday]: Sunday is 0. *)
Definition Weekday (t : time) : Z := (day_number t + 1) mod 7.

(** [time.Date] for a month in range; a day out of range carries over. *)
Definition Date (year month day hour : Z) : time :=
  let y := if month <=? 2 then year - 1 else year in
  let mp := if month <=? 2 then month + 9 else month - 3 in
  (y / 400 * cycle + doe_of (y mod 400) mp + (day - 1) - shift) * ns_per_day + hour * ns_per_hour.

(** [AddDate(0, 0, days)] of an instant at midnight. *)
Definition AddDays (t : time) (days : Z) : time := Date (Year t) (Month t) (Day t + days) (Hour t).

(** ** The periods *)

Definition LimitPeriodHour : string := "hour".
Definition LimitPeriodDay : string := "day".
Definition LimitPeriodWeek : string := "week".
Definition LimitPeriodMonth : string := "month".

Definition ValidLimitPeriod (period : string) : bool :=
  String.eqb period "" || String.eqb period LimitPeriodHour || String.eqb period LimitPeriodDay
  || String.eqb period LimitPeriodWeek || String.eqb period LimitPeriodMonth.

Definition PeriodStart (period : string) (now : time) : time :=
  if String.eqb period LimitPeriodHour then Date (Year now) (Month now) (Day now) (Hour now)
  else if String.eqb period LimitPeriodDay then Date (Year now) (Month now) (Day now) 0
  else if String.eqb period LimitPeriodWeek then
    let day := Date (Year now) (Month now) (Day now) 0 in
    let daysSinceMonday := (Weekday day + 6) mod 7 in
    AddDays day (- daysSinceMonday)
  else if String.eqb period LimitPeriodMonth then Date (Year now) (Month now) 1 0
  else time_zero.

(** ** One cycle *)

Lemma div_bounds a b : 0 < b -> b * (a / b) <= a < b * (a / b) + b.
Proof. intros Hb. pose proof (Z.div_mod a b). pose proof (Z.mod_pos_bound a b). lia. Qed.

Lemma div_is a b q : b * q <= a < b * q + b -> a / b = q.
Proof. intros Hq. symmetry. apply (Z.div_unique _ _ _ (a - b * q)); lia. Qed.

(** The parts of a day: centuries, groups, years and days, none overflowing. *)
Record parts (d c q n r : Z) : Prop := {
  parts_eq : d = 36524 * c + 1461 * q + 365 * n + r;
  parts_c : 0 <= c <= 3;
  parts_q : 0 <= q <= 24;
  parts_n : 0 <= n <= 3;
  parts_r : 0 <= r <= 365;
  parts_leap : r = 365 -> n = 3;
  parts_century : r = 365 -> q = 24 -> c = 3
}.

Lemma parts_of d :
  0 <= d < cycle -> parts d (century d) (group d) (year_of_group d) (doy_of d).
Proof.
  unfold cycle, doy_of, year_of_group, day_of_group, group. intros Hd.
  set (c := century d). assert (0 <= c <= 3 /\ 0 <= d - 36524 * c <= 36524 /\
    (c < 3 -> d - 36524 * c < 36524)) as (Hc & Hd1 & Hd1').
  { unfold c, century. pose proof (div_bounds d 36524). pose proof (div_bounds (d / 36524) 4). lia. }
  clearbody c. set (d1 := d - 36524 * c) in *.
  set (q := d1 / 1461). assert (0 <= q <= 24 /\ 0 <= d1 - 1461 * q <= 1460) as [Hq Hd2].
  { unfold q. pose proof (div_bounds d1 1461). lia. }
  clearbody q. set (d2 := d1 - 1461 * q) in *.
  set (n := d2 / 365 - d2 / 365 / 4).
  assert (0 <= n <= 3 /\ 0 <= d2 - 365 * n <= 365 /\ (n < 3 -> d2 - 365 * n < 365)) as (Hn & Hd3 & Hl).
  { unfold n. pose proof (div_bounds d2 365). pose proof (div_bounds (d2 / 365) 4). lia. }
  clearbody n. split; lia.
Qed.

Lemma parts_unique d c q n r :
  parts d c q n r -> century d = c /\ group d = q /\ year_of_group d = n /\ doy_of d = r.
Proof.
  intros [E Hc Hq Hn Hr Hl Hce].
  assert (century d = c) as Ec.
  { unfold century. destruct (Z.lt_ge_cases d 146096).
    - assert (d / 36524 = c) as -> by (apply div_is; lia). rewrite (div_is c 4 0) by lia. lia.
    - rewrite (div_is d 36524 4) by lia. rewrite (div_is 4 4 1) by lia. lia. }
  assert (group d = q) as Eg.
  { unfold group. rewrite Ec. apply div_is. lia. }
  assert (day_of_group d = 365 * n + r) as Ed by (unfold day_of_group; rewrite Ec, Eg; lia).
  assert (year_of_group d = n) as En.
  { unfold year_of_group. rewrite Ed. destruct (Z.lt_ge_cases (365 * n + r) 1460).
    - assert ((365 * n + r) / 365 = n) as -> by (apply div_is; lia). rewrite (div_is n 4 0) by lia. lia.
    - rewrite (div_is (365 * n + r) 365 4) by lia. rewrite (div_is 4 4 1) by lia. lia. }
  split_and!; [done..|]. unfold doy_of. rewrite Ed, En. lia.
Qed.

Lemma yoe_of_range d : 0 <= d < cycle -> 0 <= yoe_of d <= 399 /\ 0 <= doy_of d <= 365.
Proof. intros Hd. destruct (parts_of d Hd). unfold yoe_of. lia. Qed.

(** Month starts within a year, by computation over its days. *)
Definition doy_ok (r : Z) : bool :=
  (0 <=? month_of r) && (month_of r <=? 11) && (month_start (month_of r) <=? r)
  && ((month_start (month_of r) =? r) || ((0 <? r) && (month_of (r - 1) =? month_of r))).

Lemma doy_facts r :
  0 <= r <= 365 ->
  0 <= month_of r <= 11 /\ month_start (month_of r) <= r /\
  (month_start (month_of r) = r \/ 0 < r /\ month_of (r - 1) = month_of r).
Proof.
  assert (forallb doy_ok (seqZ 0 366) = true) as Hall by (vm_compute; reflexivity).
  rewrite forallb_forall in Hall. intros Hr. specialize (Hall r).
  rewrite <- list_elem_of_In, elem_of_seqZ in Hall. specialize (Hall ltac:(lia)).
  unfold doy_ok in Hall. bool_hyps. split_and!; lia.
Qed.

(** The day its year, month and day of month say. *)
Lemma doe_of_parts d :
  0 <= d < cycle -> doe_of (yoe_of d) (mp_of d) + (dom_of d - 1) = d.
Proof.
  intros Hd. destruct (parts_of d Hd) as [E Hc Hq Hn Hr _ _]. unfold doe_of, dom_of, yoe_of.
  rewrite (div_is (100 * century d + 4 * group d + year_of_group d) 4 (25 * century d + group d)) by lia.
  rewrite (div_is (100 * century d + 4 * group d + year_of_group d) 100 (century d)) by lia. lia.
Qed.

(** A day that is not the first of a month follows a day of the same month. *)
Lemma same_month d :
  0 <= d < cycle -> 1 < dom_of d ->
  0 < d /\ yoe_of (d - 1) = yoe_of d /\ mp_of (d - 1) = mp_of d /\ dom_of (d - 1) = dom_of d - 1.
Proof.
  intros Hd Hdom. pose proof (parts_of d Hd) as Hp. unfold dom_of in Hdom.
  destruct (doy_facts (doy_of d)) as (Hm & Hs & Hmonth); [apply Hp|]. unfold mp_of in Hdom.
  destruct Hmonth as [?|[H0 Em]]; [lia|].
  destruct (parts_unique (d - 1) (century d) (group d) (year_of_group d) (doy_of d - 1))
    as (E1 & E2 & E3 & E4); [destruct Hp; split; lia|].
  assert (mp_of (d - 1) = mp_of d) as E5 by (unfold mp_of; by rewrite E4).
  unfold yoe_of, dom_of. rewrite E1, E2, E3, E4, E5. split_and!; try done; [|lia].
  destruct Hp. lia.
Qed.

Lemma month_back d (k : nat) :
  0 <= d < cycle -> Z.of_nat k < dom_of d ->
  0 <= d - Z.of_nat k /\ yoe_of (d - Z.of_nat k) = yoe_of d /\ mp_of (d - Z.of_nat k) = mp_of d /\
  dom_of (d - Z.of_nat k) = dom_of d - Z.of_nat k.
Proof.
  intros Hd. induction k as [|k IH]; intros Hk.
  { rewrite Z.sub_0_r. split_and!; lia. }
  destruct IH as (H0 & Hy & Hm & Hdom); [lia|].
  destruct (same_month (d - Z.of_nat k)) as (? & ? & ? & ?); [lia|lia|].
  replace (d - Z.of_nat (S k)) with (d - Z.of_nat k - 1) by lia. split_and!; lia.
Qed.

(** ** Every cycle *)

Lemma doe_range t : 0 <= doe t < cycle.
Proof. unfold doe. apply Z.mod_pos_bound. unfold cycle. lia. Qed.

Lemma day_number_eq t : day_number t = era t * cycle + doe t - shift.
Proof.
  unfold doe, era. pose proof (Z.div_mod (day_number t + shift) cycle). unfold cycle in *. lia.
Qed.

Lemma Date_of t d h :
  Date (Year t) (Month t) d h = (day_number t - Day t + d) * ns_per_day + h * ns_per_hour.
Proof.
  pose proof (doe_range t) as Hd. destruct (yoe_of_range _ Hd) as [Hy Hdoy].
  destruct (doy_facts _ Hdoy) as (Hm & _). fold (mp_of (doe t)) in Hm.
  pose proof (doe_of_parts _ Hd) as Ed. rewrite day_number_eq. unfold Date, Year, Month, Day.
  assert (forall y, y = yoe_of (doe t) + 400 * era t ->
    y / 400 = era t /\ y mod 400 = yoe_of (doe t)) as Hdiv.
  { intros y ->. rewrite Z.mul_comm, Z.div_add, Z.mod_add, Z.div_small, Z.mod_small by lia. lia. }
  destruct (Z.ltb_spec (mp_of (doe t)) 10).
  - destruct (Z.leb_spec (mp_of (doe t) + 3) 2); [lia|]. edestruct Hdiv as [-> ->]; [lia|].
    replace (mp_of (doe t) + 3 - 3) with (mp_of (doe t)) by lia. lia.
  - destruct (Z.leb_spec (mp_of (doe t) - 9) 2); [|lia]. edestruct Hdiv as [-> ->]; [lia|].
    replace (mp_of (doe t) - 9 + 9) with (mp_of (doe t)) by lia. lia.
Qed.

Lemma day_bounds t : day_number t * ns_per_day <= t < day_number t * ns_per_day + ns_per_day.
Proof. unfold day_number. pose proof (div_bounds t ns_per_day). unfold ns_per_day, ns_per_second in *. lia. Qed.

Lemma day_number_is t d : d * ns_per_day <= t < d * ns_per_day + ns_per_day -> day_number t = d.
Proof. intros Hd. apply div_is. lia. Qed.

Lemma day_start t : Date (Year t) (Month t) (Day t) 0 = day_number t * ns_per_day.
Proof. rewrite Date_of. lia. Qed.

Lemma day_number_midnight d : day_number (d * ns_per_day) = d.
Proof. apply day_number_is. unfold ns_per_day, ns_per_second. lia. Qed.

Lemma Hour_eq t : Hour t = t / ns_per_hour - 24 * day_number t.
Proof.
  unfold Hour, day_number. pose proof (Z.div_mod t ns_per_day ltac:(done)) as E.
  rewrite E at 2. replace (ns_per_day * (t / ns_per_day) + t mod ns_per_day)
    with (t mod ns_per_day + 24 * (t / ns_per_day) * ns_per_hour)
    by (unfold ns_per_day, ns_per_hour, ns_per_second; lia).
  rewrite Z.div_add by done. lia.
Qed.

(** The start of each period, as a count of days. *)
Lemma start_hour t : PeriodStart LimitPeriodHour t = t / ns_per_hour * ns_per_hour.
Proof.
  change (PeriodStart LimitPeriodHour t) with (Date (Year t) (Month t) (Day t) (Hour t)).
  rewrite Date_of, Hour_eq.
  unfold ns_per_day, ns_per_hour, ns_per_second. lia.
Qed.

Lemma start_day t : PeriodStart LimitPeriodDay t = day_number t * ns_per_day.
Proof. apply day_start. Qed.

Lemma start_week t : PeriodStart LimitPeriodWeek t = (day_number t - day_number t mod 7) * ns_per_day.
Proof.
  change (PeriodStart LimitPeriodWeek t) with
    (let day := Date (Year t) (Month t) (Day t) 0 in AddDays day (- ((Weekday day + 6) mod 7))).
  cbv zeta. rewrite day_start. unfold AddDays. rewrite Date_of. unfold Weekday, Hour.
  rewrite day_number_midnight, Z.mod_mul, Z.div_0_l by done.
  rewrite Zplus_mod_idemp_l. replace (day_number t + 1 + 6) with (day_number t + 1 * 7) by lia.
  rewrite Z.mod_add by done. lia.
Qed.

Lemma start_month t : PeriodStart LimitPeriodMonth t = (day_number t - Day t + 1) * ns_per_day.
Proof.
  change (PeriodStart LimitPeriodMonth t) with (Date (Year t) (Month t) 1 0). rewrite Date_of. lia.
Qed.

(** From a day back to the first of its month the calendar changes only in the day. *)
Lemma month_days t u :
  (day_number t - Day t + 1) * ns_per_day <= u <= t ->
  Year u = Year t /\ Month u = Month t /\ Day u = Day t - (day_number t - day_number u).
Proof.
  intros Hu. pose proof (doe_range t) as Hd. pose proof (day_bounds t) as Ht. pose proof (day_bounds u) as Hu'.
  assert (0 < ns_per_day) as Hns by done.
  assert (day_number t - Day t + 1 <= day_number u <= day_number t) as Hr by nia.
  destruct (month_back (doe t) (Z.to_nat (day_number t - day_number u))) as (H0 & Hy & Hm & Hdom);
    [done|unfold Day in Hr; lia|]. rewrite Z2Nat.id in * by lia.
  assert (doe u = doe t - (day_number t - day_number u) /\ era u = era t) as [Ed Ee].
  { unfold doe at 1, era at 1.
    replace (day_number u + shift) with (doe t - (day_number t - day_number u) + era t * cycle)
      by (pose proof (day_number_eq t); lia).
    rewrite Z.mod_add, Z.div_add by done. rewrite Z.mod_small, Z.div_small by lia. done. }
  unfold Year, Month, Day. rewrite Ed, Ee, Hy, Hm, Hdom. done.
Qed.

Lemma Day_pos t : 1 <= Day t.
Proof.
  destruct (yoe_of_range _ (doe_range t)) as [_ Hdoy]. destruct (doy_facts _ Hdoy) as (_ & Hms & _).
  unfold Day, dom_of, mp_of. lia.
Qed.

(** ** The properties *)

Lemma floor_start unit t u :
  0 < unit -> t / unit * unit <= u <= t -> u / unit * unit = t / unit * unit.
Proof. intros H0 Hu. f_equal. apply div_is. pose proof (div_bounds t unit H0). lia. Qed.

(** [PeriodStart] is the start of the calendar period: it is not after the
    instant, every instant from it up to the given one has the same start, and no
    earlier instant has. *)
Theorem PeriodStart_spec period now :
  ValidLimitPeriod period = true -> period <> "" ->
  let start := PeriodStart period now in
  start <= now /\
  (forall t, start <= t <= now -> PeriodStart period t = start) /\
  (forall t, t < start -> PeriodStart period t <> start).
Proof.
  intros Hv Hne.
  assert (forall t, PeriodStart period t <= t /\
    forall u, PeriodStart period t <= u <= t -> PeriodStart period u = PeriodStart period t) as Hs.
  { intros t. pose proof (day_bounds t) as Hd. unfold ValidLimitPeriod in Hv.
    rewrite !orb_true_iff, !String.eqb_eq in Hv. destruct Hv as [[[[?| ->]| ->]| ->]| ->]; [done|..].
    - split; [|intros u]; rewrite !start_hour.
      + pose proof (div_bounds t ns_per_hour ltac:(done)). lia.
      + by apply floor_start.
    - split; [|intros u]; rewrite !start_day; [lia|]. by apply (floor_start ns_per_day).
    - assert (0 < ns_per_day) by done. pose proof (Z.mod_pos_bound (day_number t) 7 ltac:(done)).
      split; [|intros u]; rewrite !start_week; [nia|]. intros Hu. f_equal.
      pose proof (day_bounds u). assert (day_number t - day_number t mod 7 <= day_number u <= day_number t) by nia.
      pose proof (Z.div_mod (day_number t) 7). pose proof (Z.div_mod (day_number u) 7).
      assert (day_number u / 7 = day_number t / 7); [apply div_is; lia|lia].
    - pose proof (Day_pos t). assert (0 < ns_per_day) by done.
      split; [|intros u]; rewrite !start_month; [nia|]. intros Hu.
      destruct (month_days t u Hu) as (_ & _ & ->). lia. }
  destruct (Hs now) as [H1 H2]. split_and!; [done..|].
  intros t Ht E. destruct (Hs t) as [H3 _]. lia.
Qed.

(** 2026-03-01 was a Sunday: its week starts on Monday 2026-02-23, its month with it. *)
Lemma PeriodStart_spec_witness :
  let now := Date 2026 3 1 14 + 5 in
  PeriodStart "week" now = Date 2026 2 23 0 /\ PeriodStart "month" now = Date 2026 3 1 0 /\
  forall t, t < Date 2026 2 23 0 -> PeriodStart "week" t <> Date 2026 2 23 0.
Proof.
  cbv zeta. split; [vm_compute; reflexivity|]. split; [vm_compute; reflexivity|].
  destruct (PeriodStart_spec "week" (Date 2026 3 1 14 + 5)) as (_ & _ & Hw); [reflexivity|discriminate|].
  replace (PeriodStart "week" (Date 2026 3 1 14 + 5)) with (Date 2026 2 23 0) in Hw
    by (vm_compute; reflexivity). exact Hw.
Defined.

(** The starts are where the calendar says: the hour and the day of the instant
    at its beginning, a Monday at midnight, the first of the instant's own month at
    midnight. *)
Theorem PeriodStart_aligned now :
  (let s := PeriodStart LimitPeriodHour now in
   s mod ns_per_hour = 0 /\ Hour s = Hour now /\ day_number s = day_number now) /\
  (let s := PeriodStart LimitPeriodDay now in
   s mod ns_per_day = 0 /\ day_number s = day_number now) /\
  (let s := PeriodStart LimitPeriodWeek now in
   s mod ns_per_day = 0 /\ Weekday s = 1 /\ day_number now - day_number s < 7) /\
  (let s := PeriodStart LimitPeriodMonth now in
   s mod ns_per_day = 0 /\ Day s = 1 /\ Month s = Month now /\ Year s = Year now).
Proof.
  cbv zeta. rewrite start_hour, start_day, start_week, start_month.
  rewrite !Z.mod_mul, !day_number_midnight by done. unfold Weekday. rewrite !day_number_midnight.
  pose proof (Z.div_mod (day_number now) 7 ltac:(done)) as E7.
  pose proof (Z.mod_pos_bound (day_number now) 7 ltac:(done)) as Hm7.
  assert (day_number (now / ns_per_hour * ns_per_hour) = day_number now) as Eh.
  { apply div_is. pose proof (day_bounds now). pose proof (div_bounds now ns_per_hour ltac:(done)).
    change ns_per_day with (24 * ns_per_hour) in *.
    assert (24 * day_number now <= now / ns_per_hour) by (apply Z.div_le_lower_bound; lia). nia. }
  destruct (month_days now ((day_number now - Day now + 1) * ns_per_day)) as (Ey & Em & Ed).
  { split; [done|]. pose proof (day_bounds now). pose proof (Day_pos now). assert (0 < ns_per_day) by done. nia. }
  rewrite day_number_midnight in Ed. split_and!; try done; try lia.
  - rewrite !Hour_eq, Eh, Z.div_mul by done. done.
  - replace (day_number now - day_number now mod 7 + 1) with (1 + day_number now / 7 * 7) by lia.
    rewrite Z.mod_add by done. done.
Qed.
