(* ===== verification/Limiter.v ===== *)
(** * Per-principal limits

    Models [gateway/backend/internal/gateway/principal_limits.go]: the in-memory rate
    limit, the request and token quotas and the cost budget of a principal, with the
    caches in front of the store.

    A limiter value is the state the two mutexes guard.  A method is a function from
    the state to its answer and the new state; the store it reads and the clock are
    arguments, [None] is a store error, and the [None] limiter stands for a nil
    limiter or a nil store.  Counts are [int64], a cost is a binary64 float. *)

From Stdlib Require Import ZArith Lia SpecFloat.
From stdpp Require Import base tactics option list numbers strings gmap.
From S2P Require Import Prelude Float64 Calendar.
Local Open Scope Z_scope.
Local Open Scope go_scope.

(** ** Data *)

Definition Principal : Type := string * string.   (* type, id *)

Record LimitConfig := mkLimitConfig {
  lc_RateRequests : Z;
  lc_RateWindowSeconds : Z;
  lc_RequestQuota : Z;
  lc_RequestQuotaPeriod : string;
  lc_TokenQuota : Z;
  lc_TokenQuotaPeriod : string;
  lc_CostBudget : float64;
  lc_CostBudgetPeriod : string
}.

Definition zeroConfig : LimitConfig := mkLimitConfig 0 0 0 "" 0 "" f64_zero "".

(** [cfg == (routing.LimitConfig{})]. *)
Definition isZeroConfig (cfg : LimitConfig) : bool :=
  (lc_RateRequests cfg =? 0) && (lc_RateWindowSeconds cfg =? 0) && (lc_RequestQuota cfg =? 0)
  && String.eqb (lc_RequestQuotaPeriod cfg) "" && (lc_TokenQuota cfg =? 0)
  && String.eqb (lc_TokenQuotaPeriod cfg) "" && f64_eqb (lc_CostBudget cfg) f64_zero
  && String.eqb (lc_CostBudgetPeriod cfg) "".

(** Requests, tokens, cost. *)
Definition usage : Type := Z * Z * float64.

Record PrincipalLimitStore := mkStore {
  PrincipalLimits : Principal -> option (LimitConfig * bool);
  UsageAggregateSince : Principal -> time -> option usage
}.

Record aggregateCacheEntry := mkAgg {
  ae_usage : usage;
  ae_periodStart : time;
  ae_loadedAt : time
}.

Record principalConfigCacheEntry := mkConfigEntry {
  ce_cfg : LimitConfig;
  ce_found : bool;
  ce_loadedAt : time
}.

Record rateBucketState := mkBucket {
  rb_bucket : Z;
  rb_count : Z
}.

Record PrincipalLimiter := mkLimiter {
  l_cacheTTL : duration;
  l_aggCache : gmap (Principal * string) aggregateCacheEntry;
  l_configCache : gmap Principal principalConfigCacheEntry;
  l_rateBuckets : gmap Principal rateBucketState
}.

Definition setAgg (k : Principal * string) (e : aggregateCacheEntry) (l : PrincipalLimiter) :=
  mkLimiter (l_cacheTTL l) (<[k := e]> (l_aggCache l)) (l_configCache l) (l_rateBuckets l).
Definition setConfig (p : Principal) (e : principalConfigCacheEntry) (l : PrincipalLimiter) :=
  mkLimiter (l_cacheTTL l) (l_aggCache l) (<[p := e]> (l_configCache l)) (l_rateBuckets l).
Definition setBucket (p : Principal) (b : rateBucketState) (l : PrincipalLimiter) :=
  mkLimiter (l_cacheTTL l) (l_aggCache l) (l_configCache l) (<[p := b]> (l_rateBuckets l)).

(** ** Operations *)

Definition defaultLimiterCacheTTL : duration := 10 * ns_per_second.

Definition NewPrincipalLimiter (cacheTTL : duration) : PrincipalLimiter :=
  mkLimiter (if cacheTTL <=? 0 then defaultLimiterCacheTTL else cacheTTL) ∅ ∅ ∅.

(** [Time.Unix] and [time.Unix]. *)
Definition unixEpoch : Z := 62135596800.
Definition Unix (t : time) : Z := t / ns_per_second - unixEpoch.
Definition fromUnix (s : Z) : time := (s + unixEpoch) * ns_per_second.

Definition checkRate (l : PrincipalLimiter) (p : Principal) (cfg : LimitConfig) (now : time)
  : bool * duration * PrincipalLimiter :=
  if (lc_RateRequests cfg <=? 0) || (lc_RateWindowSeconds cfg <=? 0) then (false, 0, l)
  else
    let window := lc_RateWindowSeconds cfg in
    let bucket := Z.quot (Unix now) window in
    let st :=
      match l_rateBuckets l !! p with
      | Some st => if rb_bucket st =? bucket then st else mkBucket bucket 0
      | None => mkBucket bucket 0
      end in
    let l := setBucket p st l in
    if lc_RateRequests cfg <=? rb_count st then
      let bucketEnd := fromUnix (int64 ((bucket + 1) * window)) in
      let wait := time_Sub bucketEnd now in
      (true, if wait <? 0 then 0 else wait, l)
    else (false, 0, setBucket p (mkBucket (rb_bucket st) (rb_count st + 1)) l).

Definition aggregate (l : PrincipalLimiter) (store : PrincipalLimitStore) (p : Principal)
    (period : string) (now : time) : usage * PrincipalLimiter :=
  let ps := PeriodStart period now in
  let load :=
    match UsageAggregateSince store p ps with
    | None => ((0, 0, f64_zero), l)
    | Some u => (u, setAgg (p, period) (mkAgg u ps now) l)
    end in
  match l_aggCache l !! (p, period) with
  | Some entry =>
      if (ae_periodStart entry =? ps) && (time_Sub now (ae_loadedAt entry) <? l_cacheTTL l)
      then (ae_usage entry, l) else load
  | None => load
  end.

(** [None] is [ok = false]. *)
Definition configFor (l : PrincipalLimiter) (store : PrincipalLimitStore) (p : Principal) (now : time)
  : option LimitConfig * PrincipalLimiter :=
  let load :=
    match PrincipalLimits store p with
    | None => (None, l)
    | Some (loaded, found) =>
        let loaded := if found then loaded else zeroConfig in
        (Some loaded, setConfig p (mkConfigEntry loaded found now) l)
    end in
  match l_configCache l !! p with
  | Some entry =>
      if time_Sub now (ce_loadedAt entry) <? l_cacheTTL l then (Some (ce_cfg entry), l) else load
  | None => load
  end.

Definition requestQuotaOn (cfg : LimitConfig) : bool :=
  (0 <? lc_RequestQuota cfg) && negb (String.eqb (lc_RequestQuotaPeriod cfg) "").
Definition tokenQuotaOn (cfg : LimitConfig) : bool :=
  (0 <? lc_TokenQuota cfg) && negb (String.eqb (lc_TokenQuotaPeriod cfg) "").
Definition costBudgetOn (cfg : LimitConfig) : bool :=
  f64_ltb f64_zero (lc_CostBudget cfg) && negb (String.eqb (lc_CostBudgetPeriod cfg) "").

Definition answer : Type := bool * string * duration.
Definition allow : answer := (true, "", 0).

(** The three checks against an aggregate; [exceeded u] is the comparison. *)
Definition quotaCheck (on : bool) (exceeded : usage -> bool) (reason : string)
    (store : PrincipalLimitStore) (p : Principal) (period : string) (now : time)
    (rest : PrincipalLimiter -> answer * PrincipalLimiter) (l : PrincipalLimiter)
  : answer * PrincipalLimiter :=
  if on then
    let '(u, l) := aggregate l store p period now in
    if exceeded u then ((false, reason, 0), l) else rest l
  else rest l.

Definition requestsExceeded (cfg : LimitConfig) (u : usage) : bool := lc_RequestQuota cfg <=? u.1.1.
Definition tokensExceeded (cfg : LimitConfig) (u : usage) : bool := lc_TokenQuota cfg <=? u.1.2.
Definition costExceeded (cfg : LimitConfig) (u : usage) : bool := f64_geb u.2 (lc_CostBudget cfg).

Definition Admit (lim : option PrincipalLimiter) (store : PrincipalLimitStore) (p : Principal)
    (now : time) : answer * option PrincipalLimiter :=
  match lim with
  | None => (allow, None)
  | Some l =>
      match configFor l store p now with
      | (None, l) => (allow, Some l)
      | (Some cfg, l) =>
          if isZeroConfig cfg then (allow, Some l)
          else
            match checkRate l p cfg now with
            | (true, wait, l) => ((false, "rate", wait), Some l)
            | (false, _, l) =>
                let '(a, l) :=
                  quotaCheck (requestQuotaOn cfg) (requestsExceeded cfg) "request_quota" store p
                    (lc_RequestQuotaPeriod cfg) now
                    (quotaCheck (tokenQuotaOn cfg) (tokensExceeded cfg) "token_quota" store p
                      (lc_TokenQuotaPeriod cfg) now
                      (quotaCheck (costBudgetOn cfg) (costExceeded cfg) "cost_budget" store p
                        (lc_CostBudgetPeriod cfg) now (fun l => (allow, l)))) l in
                (a, Some l)
            end
      end
  end.

Definition bump (u : usage) (tokens : Z) (cost : float64) : usage :=
  (u.1.1 +! 1, u.1.2 +! tokens, f64_add u.2 cost).

Definition recordPeriod (p : Principal) (tokens : Z) (cost : float64) (now : time)
    (l : PrincipalLimiter) (period : string) : PrincipalLimiter :=
  let ps := PeriodStart period now in
  match l_aggCache l !! (p, period) with
  | Some e =>
      if ae_periodStart e =? ps
      then setAgg (p, period) (mkAgg (bump (ae_usage e) tokens cost) (ae_periodStart e) (ae_loadedAt e)) l
      else l
  | None => l
  end.

(** The distinct configured periods. *)
Definition periodsOf (cfg : LimitConfig) : gset string :=
  (if requestQuotaOn cfg then {[lc_RequestQuotaPeriod cfg]} else ∅)
  ∪ (if tokenQuotaOn cfg then {[lc_TokenQuotaPeriod cfg]} else ∅)
  ∪ (if costBudgetOn cfg then {[lc_CostBudgetPeriod cfg]} else ∅).

Definition Record_ (lim : option PrincipalLimiter) (p : Principal) (tokens : Z) (cost : float64)
    (now : time) : option PrincipalLimiter :=
  match lim with
  | None => None
  | Some l =>
      match l_configCache l !! p with
      | None => Some l
      | Some entry =>
          if isZeroConfig (ce_cfg entry) then Some l
          else Some (foldl (recordPeriod p tokens cost now) l (elements (periodsOf (ce_cfg entry))))
      end
  end.
