(* ===== verification/LimiterProps.v ===== *)
(** * Properties of the per-principal limits

    The rate limit admits no more than its number per window and says exactly when
    the window ends; a quota refusal is always backed by usage that was read; the
    caches do not change an answer; principals do not affect each other; and a burst
    of requests cannot pass a quota by more than what was already admitted. *)

From Stdlib Require Import ZArith Lia SpecFloat.
From stdpp Require Import base tactics option list numbers strings gmap sorting.
From S2P Require Import Prelude Float64 Calendar Limiter.
Local Open Scope Z_scope.

(** ** The rate window *)

Record call := mkCall {
  call_principal : Principal;
  call_cfg : LimitConfig;
  call_now : time
}.

Definition bucketOf (w : Z) (now : time) : Z := Z.quot (Unix now) w.

(** How many of [calls] the rate limit admits for [p] in bucket [b] of windows of [w]
    seconds, whoever else calls in between. *)
Fixpoint admittedIn (p : Principal) (w b : Z) (calls : list call) (l : PrincipalLimiter) : Z :=
  match calls with
  | [] => 0
  | c :: calls' =>
      let '(deny, _, l') := checkRate l (call_principal c) (call_cfg c) (call_now c) in
      (if bool_decide (call_principal c = p) && (bucketOf w (call_now c) =? b) && negb deny
       then 1 else 0) + admittedIn p w b calls' l'
  end.

(** [p] is limited to at most [N] requests per [w] seconds. *)
Definition limited (p : Principal) (N w : Z) (c : call) : Prop :=
  call_principal c = p ->
  lc_RateWindowSeconds (call_cfg c) = w /\ 0 < lc_RateRequests (call_cfg c) <= N.

(** What [p] has used of bucket [b]; a bucket before the current one is over. *)
Definition used (N b : Z) (st : option rateBucketState) : Z :=
  match st with
  | None => 0
  | Some st => if b =? rb_bucket st then rb_count st else if b <? rb_bucket st then N else 0
  end.

Lemma checkRate_other l q cfg now p :
  q <> p -> l_rateBuckets (checkRate l q cfg now).2 !! p = l_rateBuckets l !! p.
Proof.
  intros Hne. unfold checkRate. case_match; [done|].
  match goal with |- context [setBucket q ?st l] => generalize st end. intros st.
  case_match; simpl; rewrite ?lookup_insert_ne by done; done.
Qed.

(** One call of the principal itself. *)
Lemma checkRate_own l p cfg now N w b :
  lc_RateWindowSeconds cfg = w -> 0 < w -> 0 < lc_RateRequests cfg <= N ->
  (forall st, l_rateBuckets l !! p = Some st -> 0 <= rb_count st <= N /\ rb_bucket st <= bucketOf w now) ->
  exists st, l_rateBuckets (checkRate l p cfg now).2 !! p = Some st /\
    rb_bucket st = bucketOf w now /\ 0 <= rb_count st <= N /\
    (if (bucketOf w now =? b) && negb (checkRate l p cfg now).1.1 then 1 else 0)
      + used N b (l_rateBuckets l !! p) <= used N b (Some st).
Proof.
  intros Ew Hw Hr Hst. unfold checkRate.
  destruct (Z.leb_spec (lc_RateRequests cfg) 0), (Z.leb_spec (lc_RateWindowSeconds cfg) 0); try lia.
  simpl. rewrite Ew. fold (bucketOf w now).
  match goal with |- context [setBucket p ?s l] => set (st := s) end.
  assert (rb_bucket st = bucketOf w now /\ 0 <= rb_count st <= N /\
    used N b (l_rateBuckets l !! p) <= used N b (Some st)) as (Eb & Hc & Hu).
  { unfold st, used. destruct (l_rateBuckets l !! p) as [s|]; [|simpl; repeat case_match; lia].
    destruct (Hst s eq_refl) as [Hs Hb]. destruct (Z.eqb_spec (rb_bucket s) (bucketOf w now)); simpl;
      repeat case_match; bool_hyps; lia. }
  clearbody st. destruct (Z.leb_spec (lc_RateRequests cfg) (rb_count st)); simpl.
  - exists st. rewrite lookup_insert_eq, andb_false_r. split_and!; try done; lia.
  - eexists. rewrite lookup_insert_eq. split_and!; [done|done|simpl; lia|simpl; lia|].
    rewrite andb_true_r. unfold used in *. simpl. rewrite Eb in *.
    destruct (Z.eqb_spec (bucketOf w now) b), (Z.eqb_spec b (bucketOf w now)); try lia.
Qed.

Lemma bucketOf_mono w t u : 0 < w -> t <= u -> bucketOf w t <= bucketOf w u.
Proof.
  intros Hw Ht. apply Z.quot_le_mono; [done|]. unfold Unix.
  pose proof (Z.div_le_mono t u ns_per_second). unfold ns_per_second in *. lia.
Qed.

Lemma admittedIn_bound p N w b calls l :
  0 < w -> 0 <= N -> Forall (limited p N w) calls ->
  StronglySorted Z.le (call_now <$> calls) ->
  (forall st, l_rateBuckets l !! p = Some st -> 0 <= rb_count st <= N /\
     Forall (fun c => rb_bucket st <= bucketOf w (call_now c)) calls) ->
  admittedIn p w b calls l <= N - used N b (l_rateBuckets l !! p).
Proof.
  intros Hw HN Hlim. revert l. induction Hlim as [|c calls Hc Hlim IH]; intros l Hs Hst.
  { simpl. destruct (l_rateBuckets l !! p) as [st|]; simpl; [|lia].
    destruct (Hst st eq_refl) as [? _]. repeat case_match; lia. }
  rewrite fmap_cons in Hs. apply StronglySorted_cons in Hs as [Hle Hs].
  cbn [admittedIn]. destruct (decide (call_principal c = p)) as [Ep|Hne].
  - destruct (Hc Ep) as [Ew Hr]. rewrite bool_decide_eq_true_2 by done. rewrite Ep.
    destruct (checkRate_own l p (call_cfg c) (call_now c) N w b) as (st & Est & Eb & Hcnt & Hu); [done..| |].
    { intros st Est. destruct (Hst st Est) as [? Hall%Forall_cons]. tauto. }
    destruct (checkRate l p (call_cfg c) (call_now c)) as [[deny wait] l']. cbn [fst snd andb] in *.
    assert (admittedIn p w b calls l' <= N - used N b (l_rateBuckets l' !! p)); [|rewrite Est in *; lia].
    apply IH; [done|]. intros st' Est'. rewrite Est in Est'. simplify_eq. split; [lia|].
    rewrite Eb. apply Forall_forall. intros c' Hc'. apply bucketOf_mono; [done|].
    apply (proj1 (Forall_forall _ _) Hle). by apply list_elem_of_fmap_2.
  - rewrite bool_decide_eq_false_2 by done. simpl.
    pose proof (checkRate_other l _ (call_cfg c) (call_now c) p Hne) as Eo.
    destruct (checkRate l (call_principal c) (call_cfg c) (call_now c)) as [[deny wait] l']. simpl in *.
    rewrite <- Eo. apply IH; [done|]. rewrite Eo. intros st Est.
    destruct (Hst st Est) as [? [_ ?]%Forall_cons]. done.
Qed.

(** The rate limit holds: with at most [N] requests per [w] seconds configured
    for a principal and a clock that does not run backwards, no window admits more
    than [N] of its requests, whatever the other principals do in between. *)
Theorem rate_limit_holds p N w b calls ttl :
  0 < w -> 0 <= N -> Forall (limited p N w) calls -> StronglySorted Z.le (call_now <$> calls) ->
  admittedIn p w b calls (NewPrincipalLimiter ttl) <= N.
Proof.
  intros Hw HN Hl Hs.
  pose proof (admittedIn_bound p N w b calls (NewPrincipalLimiter ttl) Hw HN Hl Hs) as Hb.
  unfold NewPrincipalLimiter in *. cbn [l_rateBuckets] in Hb. rewrite lookup_empty in Hb. simpl in Hb.
  specialize (Hb ltac:(done)). lia.
Qed.

Definition sampleLimits : LimitConfig := mkLimitConfig 2 60 3 "day" 0 "" f64_zero "".
Definition sampleUser : Principal := ("user", "u1").
Definition sampleNow : time := Date 2026 5 4 12.

Lemma rate_limit_holds_witness :
  let calls := [mkCall sampleUser sampleLimits sampleNow; mkCall sampleUser sampleLimits (sampleNow + 1);
                mkCall sampleUser sampleLimits (sampleNow + 2)] in
  admittedIn sampleUser 60 (bucketOf 60 sampleNow) calls (NewPrincipalLimiter 0) = 2 /\
  admittedIn sampleUser 60 (bucketOf 60 sampleNow) calls (NewPrincipalLimiter 0) <= 2.
Proof.
  cbv zeta. split; [vm_compute; reflexivity|]. apply rate_limit_holds; [done|done| |].
  - repeat (apply Forall_cons; split; [intros _; vm_compute; done|]). by apply Forall_nil.
  - repeat constructor; vm_compute; discriminate.
Defined.

Lemma unix_bounds t :
  (Unix t + unixEpoch) * ns_per_second <= t < (Unix t + unixEpoch) * ns_per_second + ns_per_second.
Proof. unfold Unix. pose proof (div_bounds t ns_per_second ltac:(done)). lia. Qed.

(** The retry hint is exact: a refused request that comes back after the wait
    it was told is in the next window, one that comes back earlier is not. *)
Theorem rate_wait_exact l p cfg now wait l' t :
  checkRate l p cfg now = (true, wait, l') ->
  0 <= Unix now -> Unix now + lc_RateWindowSeconds cfg <= 2 ^ 63 - 1 -> lc_RateWindowSeconds cfg <= 2 ^ 32 ->
  now <= t ->
  0 < wait <= lc_RateWindowSeconds cfg * ns_per_second /\
  (bucketOf (lc_RateWindowSeconds cfg) t = bucketOf (lc_RateWindowSeconds cfg) now <-> t < now + wait).
Proof.
  unfold checkRate. destruct (Z.leb_spec (lc_RateRequests cfg) 0); [done|].
  destruct (Z.leb_spec (lc_RateWindowSeconds cfg) 0) as [|Hw]; [done|]. simpl orb. cbv iota.
  set (w := lc_RateWindowSeconds cfg) in *. case_match; [|done].
  intros [= <- <-] Hu Hm Hw2 Ht.
  assert (Unix now <= Unix t) as Hut.
  { unfold Unix. pose proof (Z.div_le_mono now t ns_per_second). unfold ns_per_second in *. lia. }
  unfold bucketOf. rewrite !Z.quot_div_nonneg by lia. set (B := Unix now / w).
  pose proof (div_bounds (Unix now) w Hw) as HB. fold B in HB.
  pose proof (unix_bounds now) as Hn. pose proof (unix_bounds t) as Hnt.
  rewrite int64_id by (unfold in_int64, int64_min, int64_max; nia). unfold fromUnix, time_Sub.
  assert (0 < ((B + 1) * w + unixEpoch) * ns_per_second - now <= w * ns_per_second) as Hwait.
  { unfold ns_per_second in *. lia. }
  assert (w * ns_per_second <= 2 ^ 32 * ns_per_second) by (unfold ns_per_second; lia).
  rewrite Z.min_r, Z.max_r by (unfold int64_min, int64_max, ns_per_second in *; lia).
  destruct (Z.ltb_spec (((B + 1) * w + unixEpoch) * ns_per_second - now) 0); [lia|].
  split; [done|]. transitivity (Unix t < (B + 1) * w); [|unfold ns_per_second in *; lia].
  split; [intros E|intros Hlt; apply div_is; lia].
  pose proof (div_bounds (Unix t) w Hw). lia.
Qed.

Lemma rate_wait_exact_witness :
  exists wait l', checkRate (setBucket sampleUser (mkBucket (bucketOf 60 sampleNow) 2) (NewPrincipalLimiter 0))
      sampleUser sampleLimits (sampleNow + 1) = (true, wait, l') /\ 0 < wait <= 60 * ns_per_second.
Proof.
  do 2 eexists. split; [vm_compute; reflexivity|].
  eapply (rate_wait_exact (setBucket sampleUser (mkBucket (bucketOf 60 sampleNow) 2) (NewPrincipalLimiter 0))
    sampleUser sampleLimits (sampleNow + 1) _ _ (sampleNow + 1)); [vm_compute; reflexivity|..];
    vm_compute; discriminate.
Defined.

(** ** What the limiter reads *)

Definition freshAgg (l : PrincipalLimiter) (p : Principal) (period : string) (now : time)
  : option usage :=
  match l_aggCache l !! (p, period) with
  | Some e =>
      if (ae_periodStart e =? PeriodStart period now) && (time_Sub now (ae_loadedAt e) <? l_cacheTTL l)
      then Some (ae_usage e) else None
  | None => None
  end.

(** The usage a request is judged by: the cached one while fresh, else the store's,
    [None] when the read fails. *)
Definition seenUsage (l : PrincipalLimiter) (store : PrincipalLimitStore) (p : Principal)
    (period : string) (now : time) : option usage :=
  match freshAgg l p period now with
  | Some u => Some u
  | None => UsageAggregateSince store p (PeriodStart period now)
  end.

Definition seenConfig (l : PrincipalLimiter) (store : PrincipalLimitStore) (p : Principal)
    (now : time) : option LimitConfig := (configFor l store p now).1.

Definition noUsage : usage := (0, 0, f64_zero).

Lemma aggregate_seen l store p period now :
  (aggregate l store p period now).1 = default noUsage (seenUsage l store p period now).
Proof.
  unfold aggregate, seenUsage, freshAgg.
  destruct (l_aggCache l !! (p, period)); repeat (case_match; simpl); done.
Qed.

Lemma aggregate_ttl l store p period now :
  l_cacheTTL (aggregate l store p period now).2 = l_cacheTTL l.
Proof. unfold aggregate. repeat (case_match; simpl); done. Qed.

Lemma time_Sub_self t : time_Sub t t = 0.
Proof. unfold time_Sub, int64_min, int64_max. lia. Qed.

(** Reading one aggregate does not change what another read sees. *)
Lemma aggregate_stable l store p period now q period' :
  0 < l_cacheTTL l ->
  seenUsage (aggregate l store p period now).2 store q period' now = seenUsage l store q period' now.
Proof.
  intros Httl. destruct (decide ((q, period') = (p, period))) as [E|Hne].
  - injection E as -> ->. unfold seenUsage, freshAgg, aggregate.
    destruct (l_aggCache l !! (p, period)) as [e|] eqn:Ee.
    + destruct ((ae_periodStart e =? PeriodStart period now) && (time_Sub now (ae_loadedAt e) <? l_cacheTTL l)) eqn:Ef.
      { cbn [snd]. by rewrite Ee, Ef. }
      destruct (UsageAggregateSince store p (PeriodStart period now)) as [u|] eqn:Eu; simpl.
      * rewrite lookup_insert_eq. simpl. rewrite Z.eqb_refl, time_Sub_self.
        by rewrite (proj2 (Z.ltb_lt _ _) Httl).
      * by rewrite Ee, Ef.
    + destruct (UsageAggregateSince store p (PeriodStart period now)) as [u|] eqn:Eu; simpl.
      * rewrite lookup_insert_eq. simpl. rewrite Z.eqb_refl, time_Sub_self.
        by rewrite (proj2 (Z.ltb_lt _ _) Httl).
      * by rewrite Ee.
  - unfold seenUsage, freshAgg. rewrite aggregate_ttl.
    assert (l_aggCache (aggregate l store p period now).2 !! (q, period') = l_aggCache l !! (q, period')) as ->;
      [|done].
    unfold aggregate. repeat (case_match; simpl); rewrite ?lookup_insert_ne by done; done.
Qed.

(** ** The reference verdict *)

(** The limits in the order they are checked, on what the request is judged by. *)
Definition verdict (cfg : LimitConfig) (rate : bool * duration) (seen : string -> usage) : answer :=
  if isZeroConfig cfg then allow
  else if rate.1 then (false, "rate", rate.2)
  else if requestQuotaOn cfg && requestsExceeded cfg (seen (lc_RequestQuotaPeriod cfg))
  then (false, "request_quota", 0)
  else if tokenQuotaOn cfg && tokensExceeded cfg (seen (lc_TokenQuotaPeriod cfg))
  then (false, "token_quota", 0)
  else if costBudgetOn cfg && costExceeded cfg (seen (lc_CostBudgetPeriod cfg))
  then (false, "cost_budget", 0)
  else allow.

Lemma quotaCheck_seen on exceeded reason store p period now rest l (out : answer) seen :
  0 < l_cacheTTL l ->
  (forall period', seen period' = default noUsage (seenUsage l store p period' now)) ->
  (forall l', 0 < l_cacheTTL l' ->
     (forall period', seen period' = default noUsage (seenUsage l' store p period' now)) -> (rest l').1 = out) ->
  (quotaCheck on exceeded reason store p period now rest l).1
  = if on && exceeded (seen period) then (false, reason, 0) else out.
Proof.
  intros Httl Hseen Hrest. unfold quotaCheck. destruct on; simpl; [|by apply Hrest].
  pose proof (aggregate_seen l store p period now) as Ea.
  pose proof (aggregate_ttl l store p period now) as Et.
  pose proof (fun per => aggregate_stable l store p period now p per Httl) as Est.
  destruct (aggregate l store p period now) as [u l']. simpl in *. rewrite Hseen, <- Ea.
  destruct (exceeded u); [done|]. apply Hrest; [lia|]. intros period'. by rewrite Est.
Qed.

Lemma configFor_keeps l store p now :
  l_cacheTTL (configFor l store p now).2 = l_cacheTTL l /\
  l_aggCache (configFor l store p now).2 = l_aggCache l /\
  l_rateBuckets (configFor l store p now).2 = l_rateBuckets l.
Proof. unfold configFor. repeat (case_match; simpl); done. Qed.

Lemma checkRate_keeps l p cfg now :
  l_cacheTTL (checkRate l p cfg now).2 = l_cacheTTL l /\
  l_aggCache (checkRate l p cfg now).2 = l_aggCache l /\
  l_configCache (checkRate l p cfg now).2 = l_configCache l.
Proof. unfold checkRate. case_match; [done|]. case_match; done. Qed.

Lemma checkRate_answer l l' p cfg now :
  l_rateBuckets l = l_rateBuckets l' -> (checkRate l p cfg now).1 = (checkRate l' p cfg now).1.
Proof. unfold checkRate. intros ->. case_match; [done|]. case_match; done. Qed.

Lemma seenUsage_agg l l' store p period now :
  l_aggCache l = l_aggCache l' -> l_cacheTTL l = l_cacheTTL l' ->
  seenUsage l store p period now = seenUsage l' store p period now.
Proof. unfold seenUsage, freshAgg. by intros -> ->. Qed.

Lemma Admit_verdict_eq l store p now :
  0 < l_cacheTTL l ->
  (Admit (Some l) store p now).1 =
  match seenConfig l store p now with
  | None => allow
  | Some cfg =>
      verdict cfg (checkRate l p cfg now).1 (fun period => default noUsage (seenUsage l store p period now))
  end.
Proof.
  intros Httl. unfold Admit, seenConfig. destruct (configFor_keeps l store p now) as (Et & Ea & Er).
  destruct (configFor l store p now) as [[cfg|] l1]; simpl in *; [|done]. unfold verdict.
  destruct (isZeroConfig cfg); [done|]. rewrite <- (checkRate_answer l1 l) by done.
  destruct (checkRate_keeps l1 p cfg now) as (Et2 & Ea2 & _).
  destruct (checkRate l1 p cfg now) as [[[] wait] l2]; simpl in *; [done|].
  assert (forall period, default noUsage (seenUsage l store p period now)
    = default noUsage (seenUsage l2 store p period now)) as Hs.
  { intros period. f_equal. apply seenUsage_agg; congruence. }
  assert (forall x : answer * PrincipalLimiter, (let '(a, l) := x in (a, Some l)).1 = x.1) as ->
    by (by intros []).
  set (seen := fun period => default noUsage (seenUsage l store p period now)) in *.
  apply (quotaCheck_seen _ _ _ _ _ _ _ _ _ _ seen); [lia|exact Hs|]. intros l3 Ht3 Hs3.
  apply (quotaCheck_seen _ _ _ _ _ _ _ _ _ _ seen); [lia|exact Hs3|]. intros l4 Ht4 Hs4.
  apply (quotaCheck_seen _ _ _ _ _ _ _ _ _ _ seen); [lia|exact Hs4|]. done.
Qed.

(** ** Refusals are justified *)

Lemma noUsage_within cfg :
  (requestQuotaOn cfg && requestsExceeded cfg noUsage = false) /\
  (tokenQuotaOn cfg && tokensExceeded cfg noUsage = false) /\
  (costBudgetOn cfg && costExceeded cfg noUsage = false).
Proof.
  unfold requestQuotaOn, requestsExceeded, tokenQuotaOn, tokensExceeded, costBudgetOn, costExceeded. simpl.
  split_and!.
  - destruct (Z.ltb_spec 0 (lc_RequestQuota cfg)), (Z.leb_spec (lc_RequestQuota cfg) 0); simpl;
      rewrite ?andb_false_r; (done || lia).
  - destruct (Z.ltb_spec 0 (lc_TokenQuota cfg)), (Z.leb_spec (lc_TokenQuota cfg) 0); simpl;
      rewrite ?andb_false_r; (done || lia).
  - unfold f64_ltb, f64_geb, f64_zero, SFltb, SFleb.
    destruct (lc_CostBudget cfg) as [[]|[]| |[]]; simpl; rewrite ?andb_false_r; done.
Qed.

(** Usage that was read, and not the zero a failed read stands for. *)
Definition usageRead l store p period now (exceeded : usage -> bool) : Prop :=
  exists u, seenUsage l store p period now = Some u /\ exceeded u = true.

Lemma exceeded_read (on : bool) exceeded l store p period now :
  on && exceeded noUsage = false ->
  on && exceeded (default noUsage (seenUsage l store p period now)) = true ->
  on = true /\ usageRead l store p period now exceeded.
Proof.
  unfold usageRead. destruct (seenUsage l store p period now) as [u|]; simpl; [|congruence].
  intros _ [? ?]%andb_prop. eauto.
Qed.

(** The limiter fails open: a refusal always comes from the rate limit or from
    usage that was actually read (fresh from the cache or from the store) and
    reaches a limit that is on; a failed configuration or usage read refuses
    nothing, and neither does a principal without limits. *)
Theorem Admit_refusal_justified l store p now reason wait :
  0 < l_cacheTTL l -> (Admit (Some l) store p now).1 = (false, reason, wait) ->
  exists cfg, seenConfig l store p now = Some cfg /\ isZeroConfig cfg = false /\
    ((reason = "rate" /\ (checkRate l p cfg now).1 = (true, wait)) \/
     (reason = "request_quota" /\ requestQuotaOn cfg = true /\
      usageRead l store p (lc_RequestQuotaPeriod cfg) now (requestsExceeded cfg)) \/
     (reason = "token_quota" /\ tokenQuotaOn cfg = true /\
      usageRead l store p (lc_TokenQuotaPeriod cfg) now (tokensExceeded cfg)) \/
     (reason = "cost_budget" /\ costBudgetOn cfg = true /\
      usageRead l store p (lc_CostBudgetPeriod cfg) now (costExceeded cfg))).
Proof.
  intros Httl. rewrite Admit_verdict_eq by done. destruct (seenConfig l store p now) as [cfg|]; [|done].
  unfold verdict.
  destruct (isZeroConfig cfg) eqn:Ez; [done|]. intros E. exists cfg. split_and!; [done..|].
  destruct (checkRate l p cfg now) as [[[] w] l']; simpl in *.
  { simplify_eq. by left. }
  destruct (requestQuotaOn cfg && _) eqn:E1.
  { simplify_eq. apply exceeded_read in E1; [tauto|apply noUsage_within]. }
  destruct (tokenQuotaOn cfg && _) eqn:E2.
  { simplify_eq. apply exceeded_read in E2; [tauto|apply noUsage_within]. }
  destruct (costBudgetOn cfg && _) eqn:E3; [|done].
  simplify_eq. apply exceeded_read in E3; [tauto|apply noUsage_within].
Qed.

Lemma quotaCheck_invariant (P : PrincipalLimiter -> Prop) on exceeded reason store p period now rest l :
  (forall l, P l -> P (aggregate l store p period now).2) ->
  (forall l, P l -> P (rest l).2) -> P l ->
  P (quotaCheck on exceeded reason store p period now rest l).2.
Proof.
  intros Ha Hr Hl. unfold quotaCheck. destruct on; [|by apply Hr]. specialize (Ha l Hl).
  destruct (aggregate l store p period now) as [u l']. simpl in *. destruct (exceeded u); [done|by apply Hr].
Qed.

(** ** The declared verdict *)

(** What the store says: a principal without a row has no limits. *)
Definition storedLimits (store : PrincipalLimitStore) (p : Principal) : option LimitConfig :=
  match PrincipalLimits store p with
  | Some (cfg, true) => Some cfg
  | Some (_, false) => Some zeroConfig
  | None => None
  end.

(** The configuration a request is judged by: the cached one while fresh, else the store's,
    without limits when none is stored; [None] when the read fails. *)
Definition configured (l : PrincipalLimiter) (store : PrincipalLimitStore) (p : Principal) (now : time)
  : option LimitConfig :=
  match l_configCache l !! p with
  | Some e =>
      if decide (time_Sub now (ce_loadedAt e) < l_cacheTTL l) then Some (ce_cfg e)
      else storedLimits store p
  | None => storedLimits store p
  end.

(** How many requests the principal has made in the window [now] is in. *)
Definition countedIn (l : PrincipalLimiter) (p : Principal) (w : Z) (now : time) : Z :=
  match l_rateBuckets l !! p with
  | Some st => if decide (rb_bucket st = bucketOf w now) then rb_count st else 0
  | None => 0
  end.

Section declared.
Context (l : PrincipalLimiter) (store : PrincipalLimitStore) (p : Principal) (now : time).

Definition rateOn (cfg : LimitConfig) : Prop := 0 < lc_RateRequests cfg /\ 0 < lc_RateWindowSeconds cfg.

Definition rateFull (cfg : LimitConfig) : Prop :=
  rateOn cfg /\ lc_RateRequests cfg <= countedIn l p (lc_RateWindowSeconds cfg) now.

(** Usage of the period that was read, fresh from the cache or from the store, is [over]. *)
Definition reached (period : string) (over : usage -> Prop) : Prop :=
  period <> "" /\ exists u, seenUsage l store p period now = Some u /\ over u.

Definition requestsReached (cfg : LimitConfig) : Prop :=
  0 < lc_RequestQuota cfg /\ reached (lc_RequestQuotaPeriod cfg) (fun u => lc_RequestQuota cfg <= u.1.1).

Definition tokensReached (cfg : LimitConfig) : Prop :=
  0 < lc_TokenQuota cfg /\ reached (lc_TokenQuotaPeriod cfg) (fun u => lc_TokenQuota cfg <= u.1.2).

Definition costReached (cfg : LimitConfig) : Prop :=
  f64_ltb f64_zero (lc_CostBudget cfg) = true /\
  reached (lc_CostBudgetPeriod cfg) (fun u => f64_leb (lc_CostBudget cfg) u.2 = true).

Lemma seenConfig_configured : seenConfig l store p now = configured l store p now.
Proof.
  unfold seenConfig, configFor, configured, storedLimits.
  destruct (l_configCache l !! p) as [e|]; [destruct (Z.ltb_spec (time_Sub now (ce_loadedAt e)) (l_cacheTTL l));
    [by rewrite decide_True|rewrite decide_False by lia]|]; by destruct (PrincipalLimits store p) as [[? []]|].
Qed.

Lemma checkRate_full cfg :
  match checkRate l p cfg now with
  | (deny, _, l') => (deny = true <-> rateFull cfg) /\
      (rateOn cfg -> countedIn l' p (lc_RateWindowSeconds cfg) now =
         countedIn l p (lc_RateWindowSeconds cfg) now + if deny then 0 else 1)
  end.
Proof.
  unfold checkRate, rateFull, rateOn. fold (bucketOf (lc_RateWindowSeconds cfg) now).
  destruct (Z.leb_spec (lc_RateRequests cfg) 0), (Z.leb_spec (lc_RateWindowSeconds cfg) 0); simpl; try lia.
  match goal with |- context [setBucket p ?s l] => set (st := s) end.
  assert (rb_bucket st = bucketOf (lc_RateWindowSeconds cfg) now /\
    rb_count st = countedIn l p (lc_RateWindowSeconds cfg) now) as [Eb <-].
  { unfold st, countedIn. destruct (l_rateBuckets l !! p) as [s|]; [|done].
    destruct (Z.eqb_spec (rb_bucket s) (bucketOf (lc_RateWindowSeconds cfg) now)); simpl;
      [by rewrite decide_True|by rewrite decide_False]. }
  clearbody st. unfold countedIn. destruct (Z.leb_spec (lc_RateRequests cfg) (rb_count st)); simpl;
    rewrite lookup_insert_eq; simpl; rewrite decide_True by done; split; try done; try lia.
Qed.

(** A check that fires is a limit that was reached. *)
Lemma request_check cfg :
  requestQuotaOn cfg && requestsExceeded cfg (default noUsage (seenUsage l store p (lc_RequestQuotaPeriod cfg) now)) = true
  <-> requestsReached cfg.
Proof.
  split.
  - intros Hc. apply exceeded_read in Hc as [Hon (u & Hu & Hx)]; [|apply noUsage_within].
    unfold requestQuotaOn, requestsExceeded in *. bool_hyps. split; [lia|]. split; [done|eauto].
  - intros (Hq & Hp & u & -> & Hx). unfold requestQuotaOn, requestsExceeded. apply String.eqb_neq in Hp as ->.
    simpl. rewrite andb_true_r. apply andb_true_iff. split; [by apply Z.ltb_lt|by apply Z.leb_le].
Qed.

Lemma token_check cfg :
  tokenQuotaOn cfg && tokensExceeded cfg (default noUsage (seenUsage l store p (lc_TokenQuotaPeriod cfg) now)) = true
  <-> tokensReached cfg.
Proof.
  split.
  - intros Hc. apply exceeded_read in Hc as [Hon (u & Hu & Hx)]; [|apply noUsage_within].
    unfold tokenQuotaOn, tokensExceeded in *. bool_hyps. split; [lia|]. split; [done|eauto].
  - intros (Hq & Hp & u & -> & Hx). unfold tokenQuotaOn, tokensExceeded. apply String.eqb_neq in Hp as ->.
    simpl. rewrite andb_true_r. apply andb_true_iff. split; [by apply Z.ltb_lt|by apply Z.leb_le].
Qed.

Lemma cost_check cfg :
  costBudgetOn cfg && costExceeded cfg (default noUsage (seenUsage l store p (lc_CostBudgetPeriod cfg) now)) = true
  <-> costReached cfg.
Proof.
  split.
  - intros Hc. apply exceeded_read in Hc as [Hon (u & Hu & Hx)]; [|apply noUsage_within].
    unfold costBudgetOn, costExceeded in *. apply andb_true_iff in Hon as [? Hp].
    split; [done|]. split; [by apply String.eqb_neq, negb_true_iff|eauto].
  - intros (Hq & Hp & u & -> & Hx). unfold costBudgetOn, costExceeded. apply String.eqb_neq in Hp as ->.
    by rewrite Hq.
Qed.

(** A configuration without limits reaches none. *)
Lemma zero_reaches_none cfg :
  isZeroConfig cfg = true -> ~ rateOn cfg /\ ~ requestsReached cfg /\ ~ tokensReached cfg /\ ~ costReached cfg.
Proof.
  unfold isZeroConfig, rateOn, requestsReached, tokensReached, costReached. rewrite !andb_true_iff.
  intros (((((((H1%Z.eqb_eq & _) & H3%Z.eqb_eq) & _) & H5%Z.eqb_eq) & _) & H7) & _).
  split_and!; try lia. intros [Hlt _]. revert H7 Hlt. unfold f64_eqb, f64_ltb, f64_zero.
  by destruct (lc_CostBudget cfg) as [[]|[]| |[]].
Qed.

Lemma Admit_counts cfg :
  configured l store p now = Some cfg ->
  exists l', (Admit (Some l) store p now).2 = Some l' /\
    (rateOn cfg -> l_rateBuckets l' = l_rateBuckets (checkRate l p cfg now).2).
Proof.
  rewrite <- seenConfig_configured. unfold seenConfig, Admit. destruct (configFor_keeps l store p now) as (_ & _ & Er).
  destruct (configFor l store p now) as [c l1]. simpl in *. intros ->.
  destruct (isZeroConfig cfg) eqn:Ez; [eexists; split; [done|by intros ?%(proj1 (zero_reaches_none _ Ez))]|].
  assert (Eb : l_rateBuckets (checkRate l1 p cfg now).2 = l_rateBuckets (checkRate l p cfg now).2)
    by (unfold checkRate; rewrite Er; repeat case_match; simpl; by rewrite ?Er).
  destruct (checkRate l1 p cfg now) as [[[] wait] l2]; simpl in *; [by eexists|].
  match goal with |- context [quotaCheck ?a ?b ?c ?d ?e ?f ?g ?h l2] =>
    assert (l_rateBuckets (quotaCheck a b c d e f g h l2).2 = l_rateBuckets l2) as HP;
    [|destruct (quotaCheck a b c d e f g h l2); simpl in *; eexists; split; [done|congruence]] end.
  repeat (apply (quotaCheck_invariant (fun l3 => l_rateBuckets l3 = l_rateBuckets l2));
    [intros ? <-; unfold aggregate; by repeat (case_match; simpl)| |done]; intros ? ?). done.
Qed.

(** C38.  A request is refused exactly for the first of its limits that is reached, in the order
    rate, requests, tokens, cost, whatever the caches held.  The rate limit is reached when it is
    on and the principal has already made as many requests in this window; a quota when it is
    positive, names a period, and the usage of that period that was read -- a failed read
    refuses nothing -- is at least the quota.  A principal whose configuration cannot be read
    is admitted.  The request is counted in its window unless the rate limit refused it, and the
    wait such a refusal names ends with the window. *)
Theorem Admit_verdict :
  0 < l_cacheTTL l ->
  let out := Admit (Some l) store p now in
  match configured l store p now with
  | None => out.1 = allow
  | Some cfg =>
      let w := lc_RateWindowSeconds cfg in
      (rateFull cfg -> exists wait, out.1 = (false, "rate", wait) /\
         (0 <= Unix now -> Unix now + w <= 2 ^ 63 - 1 -> w <= 2 ^ 32 ->
          0 < wait /\ forall t, now <= t -> bucketOf w t = bucketOf w now <-> t < now + wait)) /\
      (~ rateFull cfg ->
         (requestsReached cfg -> out.1 = (false, "request_quota", 0)) /\
         (~ requestsReached cfg -> tokensReached cfg -> out.1 = (false, "token_quota", 0)) /\
         (~ requestsReached cfg -> ~ tokensReached cfg -> costReached cfg -> out.1 = (false, "cost_budget", 0)) /\
         (~ requestsReached cfg -> ~ tokensReached cfg -> ~ costReached cfg -> out.1 = allow)) /\
      (rateOn cfg -> exists l', out.2 = Some l' /\
         (rateFull cfg -> countedIn l' p w now = countedIn l p w now) /\
         (~ rateFull cfg -> countedIn l' p w now = countedIn l p w now + 1))
  end.
Proof.
  intros Httl out. destruct (configured l store p now) as [cfg|] eqn:Ec;
    subst out; [|by rewrite Admit_verdict_eq, seenConfig_configured, Ec].
  intros w. pose proof (Admit_counts cfg Ec) as (l' & El' & Hl').
  pose proof (checkRate_full cfg) as HR. pose proof (fun wait l1 t => rate_wait_exact l p cfg now wait l1 t) as HW.
  rewrite Admit_verdict_eq, seenConfig_configured, Ec by done. unfold verdict.
  destruct (checkRate l p cfg now) as [[deny wait] l1]. simpl. destruct HR as [HF HC].
  assert (Hcount : rateOn cfg -> countedIn l' p w now = countedIn l p w now + if deny then 0 else 1).
  { intros Hon. specialize (HC Hon). unfold countedIn in *. rewrite (Hl' Hon). exact HC. }
  split_and!.
  - intros Hfull. pose proof (proj2 HF Hfull) as ->. destruct (isZeroConfig cfg) eqn:Ez;
      [by destruct (proj1 (zero_reaches_none cfg Ez)); apply Hfull|].
    exists wait. split; [done|]. intros Hu Hm Hw. split; [|intros t Ht]; [by apply (HW wait l1 now)|by apply (HW wait l1)].
  - intros Hnot. assert (deny = false) as -> by (destruct deny; [by destruct Hnot; apply HF|done]).
    destruct (isZeroConfig cfg) eqn:Ez; [destruct (zero_reaches_none cfg Ez) as (_ & ? & ? & ?); by split_and!|].
    pose proof (request_check cfg) as H1. pose proof (token_check cfg) as H2. pose proof (cost_check cfg) as H3.
    destruct (requestQuotaOn cfg && _); [|destruct (tokenQuotaOn cfg && _); [|destruct (costBudgetOn cfg && _)]];
      split_and!; intros; try done; exfalso; intuition congruence.
  - intros Hon. exists l'. split; [done|]. rewrite Hcount by done.
    destruct deny; split; intros; try lia; exfalso; intuition congruence.
Qed.

End declared.

(** ** Isolation *)

(** The two limiters hold the same about principal [q]. *)
Record same_for (q : Principal) (l l' : PrincipalLimiter) : Prop := {
  sf_ttl : l_cacheTTL l' = l_cacheTTL l;
  sf_agg period : l_aggCache l' !! (q, period) = l_aggCache l !! (q, period);
  sf_cfg : l_configCache l' !! q = l_configCache l !! q;
  sf_rate : l_rateBuckets l' !! q = l_rateBuckets l !! q
}.

Global Instance same_for_preorder q : PreOrder (same_for q).
Proof. split; [by split|]. intros l1 l2 l3 [] []. split; intros; congruence. Qed.

Lemma configFor_same l store p now q : q <> p -> same_for q l (configFor l store p now).2.
Proof.
  intros Hne. unfold configFor.
  repeat (case_match; simpl); split; simpl; intros; rewrite ?lookup_insert_ne by congruence; done.
Qed.

Lemma checkRate_same l p cfg now q : q <> p -> same_for q l (checkRate l p cfg now).2.
Proof.
  intros Hne. destruct (checkRate_keeps l p cfg now) as (E1 & E2 & E3).
  split; [done|by rewrite E2|by rewrite E3|]. by apply checkRate_other.
Qed.

Lemma aggregate_same l store p period now q : q <> p -> same_for q l (aggregate l store p period now).2.
Proof.
  intros Hne. unfold aggregate.
  repeat (case_match; simpl); split; simpl; intros; rewrite ?lookup_insert_ne by congruence; done.
Qed.

(** A property every read keeps is kept by [Admit]. *)
Lemma Admit_invariant (P : PrincipalLimiter -> Prop) l store p now :
  P (configFor l store p now).2 ->
  (forall l cfg, P l -> P (checkRate l p cfg now).2) ->
  (forall l period, P l -> P (aggregate l store p period now).2) ->
  exists l', (Admit (Some l) store p now).2 = Some l' /\ P l'.
Proof.
  intros Hc Hr Ha. unfold Admit. destruct (configFor l store p now) as [[cfg|] l1]; simpl in *; [|eauto].
  destruct (isZeroConfig cfg); [simpl; eauto|]. specialize (Hr l1 cfg Hc).
  destruct (checkRate l1 p cfg now) as [[[] wait] l2]; simpl in *; [eauto|].
  match goal with |- context [quotaCheck ?a ?b ?c ?d ?e ?f ?g ?h l2] =>
    assert (P (quotaCheck a b c d e f g h l2).2) as HP;
    [repeat (apply quotaCheck_invariant; [by auto| |done]; intros ? ?); auto
    |destruct (quotaCheck a b c d e f g h l2); simpl in *; eauto] end.
Qed.

Lemma recordPeriod_other p tokens cost now l period q period' :
  (q, period') <> (p, period) ->
  l_aggCache (recordPeriod p tokens cost now l period) !! (q, period') = l_aggCache l !! (q, period').
Proof.
  intros Hne. unfold recordPeriod. repeat (case_match; simpl); rewrite ?lookup_insert_ne by done; done.
Qed.

Lemma recordPeriod_keeps p tokens cost now l period :
  l_cacheTTL (recordPeriod p tokens cost now l period) = l_cacheTTL l /\
  l_configCache (recordPeriod p tokens cost now l period) = l_configCache l /\
  l_rateBuckets (recordPeriod p tokens cost now l period) = l_rateBuckets l.
Proof. unfold recordPeriod. repeat case_match; done. Qed.

Lemma Record_same l p tokens cost now q :
  q <> p -> exists l', Record_ (Some l) p tokens cost now = Some l' /\ same_for q l l'.
Proof.
  intros Hne. unfold Record_. destruct (l_configCache l !! p) as [e|]; [|by eexists].
  destruct (isZeroConfig _); [by eexists|]. eexists. split; [done|].
  induction (elements (periodsOf (ce_cfg e))) as [|per pers IH] using rev_ind; [done|].
  rewrite foldl_app. etrans; [exact IH|]. simpl.
  destruct (recordPeriod_keeps p tokens cost now (foldl (recordPeriod p tokens cost now) l pers) per)
    as (E1 & E2 & E3).
  split; [done| |by rewrite E2|by rewrite E3]. intros period. apply recordPeriod_other. congruence.
Qed.

Lemma Admit_same l store p now q :
  q <> p -> exists l', (Admit (Some l) store p now).2 = Some l' /\ same_for q l l'.
Proof.
  intros Hne. apply Admit_invariant.
  - by apply configFor_same.
  - intros l' cfg Hs. etrans; [exact Hs|]. by apply checkRate_same.
  - intros l' period Hs. etrans; [exact Hs|]. by apply aggregate_same.
Qed.

Lemma same_for_answer q l l' store now :
  0 < l_cacheTTL l -> same_for q l l' ->
  (Admit (Some l') store q now).1 = (Admit (Some l) store q now).1.
Proof.
  intros Httl [E1 E2 E3 E4]. rewrite !Admit_verdict_eq by lia.
  assert (seenConfig l' store q now = seenConfig l store q now) as ->.
  { unfold seenConfig, configFor. rewrite E3, E1. repeat (case_match; simpl); done. }
  destruct (seenConfig l store q now) as [cfg|]; [|done].
  assert ((checkRate l' q cfg now).1 = (checkRate l q cfg now).1) as ->.
  { unfold checkRate. rewrite E4. case_match; [done|]. case_match; done. }
  assert (forall period, seenUsage l' store q period now = seenUsage l store q period now) as Hs.
  { intros period. unfold seenUsage, freshAgg. by rewrite E2, E1. }
  unfold verdict. by rewrite !Hs.
Qed.

(** Principals are isolated: what is admitted or recorded for one principal
    changes no answer to another. *)
Theorem principals_isolated l store p now tokens cost q store' now' :
  q <> p -> 0 < l_cacheTTL l ->
  (Admit (Admit (Some l) store p now).2 store' q now').1 = (Admit (Some l) store' q now').1 /\
  (Admit (Record_ (Some l) p tokens cost now) store' q now').1 = (Admit (Some l) store' q now').1.
Proof.
  intros Hne Httl. split.
  - destruct (Admit_same l store p now q Hne) as (l' & -> & Hs). by apply same_for_answer.
  - destruct (Record_same l p tokens cost now q Hne) as (l' & -> & Hs). by apply same_for_answer.
Qed.

(** ** A burst against a quota *)

(** A request of a burst: when it is made, and what it used once it was served. *)
Record request := mkRequest {
  rq_now : time;
  rq_tokens : Z;
  rq_cost : float64
}.

(** How many requests of a burst are admitted when each admitted one is recorded. *)
Fixpoint admitted (store : PrincipalLimitStore) (p : Principal) (reqs : list request)
    (lim : option PrincipalLimiter) : Z :=
  match reqs with
  | [] => 0
  | r :: reqs' =>
      let '(a, lim) := Admit lim store p (rq_now r) in
      if a.1.1 then 1 + admitted store p reqs' (Record_ lim p (rq_tokens r) (rq_cost r) (rq_now r))
      else admitted store p reqs' lim
  end.

(** The caches hold [p]'s configuration and its usage of the request-quota period. *)
Record tracked (p : Principal) (cfg : LimitConfig) (tc ta ps : time) (u : Z) (l : PrincipalLimiter)
  : Prop := {
  tr_ttl : 0 < l_cacheTTL l;
  tr_cfg : exists found, l_configCache l !! p = Some (mkConfigEntry cfg found tc);
  tr_agg : exists tok cost,
    l_aggCache l !! (p, lc_RequestQuotaPeriod cfg) = Some (mkAgg (u, tok, cost) ps ta)
}.

(** The request is made while both are fresh, in the same period. *)
Definition within (cfg : LimitConfig) (ttl : duration) (tc ta ps : time) (r : request) : Prop :=
  time_Sub (rq_now r) tc < ttl /\ time_Sub (rq_now r) ta < ttl /\
  PeriodStart (lc_RequestQuotaPeriod cfg) (rq_now r) = ps.

Lemma Admit_tracked p cfg tc ta ps u l store r :
  tracked p cfg tc ta ps u l -> within cfg (l_cacheTTL l) tc ta ps r ->
  exists l', (Admit (Some l) store p (rq_now r)).2 = Some l' /\
    tracked p cfg tc ta ps u l' /\ l_cacheTTL l' = l_cacheTTL l.
Proof.
  intros Htr (Hc & Ha & Hps).
  apply (Admit_invariant (fun l' => tracked p cfg tc ta ps u l' /\ l_cacheTTL l' = l_cacheTTL l)).
  - destruct Htr as [Httl [found Ec] Hagg]. unfold configFor. rewrite Ec. simpl.
    rewrite (proj2 (Z.ltb_lt _ _) Hc). simpl. split; [|done]. by split; eauto.
  - intros l' cfg' [[Httl Hcfg Hagg] Et]. destruct (checkRate_keeps l' p cfg' (rq_now r)) as (E1 & E2 & E3).
    split; [|congruence]. split; rewrite ?E1, ?E2, ?E3; done.
  - intros l' period [[Httl Hcfg (tok & cost & Eagg)] Et]. rewrite aggregate_ttl. split; [|done].
    assert (l_configCache (aggregate l' store p period (rq_now r)).2 = l_configCache l') as Ec.
    { unfold aggregate. repeat (case_match; simpl); done. }
    split; [by rewrite aggregate_ttl|by rewrite Ec|]. exists tok, cost.
    destruct (decide (period = lc_RequestQuotaPeriod cfg)) as [->|Hne].
    + unfold aggregate. rewrite Eagg. simpl. rewrite Hps, Z.eqb_refl, Et.
      rewrite (proj2 (Z.ltb_lt _ _) Ha). done.
    + unfold aggregate. repeat (case_match; simpl); rewrite ?lookup_insert_ne by congruence; done.
Qed.

Lemma foldl_record_once p tokens cost now pers per l e :
  NoDup pers -> per ∈ pers -> l_aggCache l !! (p, per) = Some e ->
  ae_periodStart e = PeriodStart per now ->
  l_aggCache (foldl (recordPeriod p tokens cost now) l pers) !! (p, per)
  = Some (mkAgg (bump (ae_usage e) tokens cost) (ae_periodStart e) (ae_loadedAt e)).
Proof.
  intros Hnd Hin He Hps. revert l He.
  assert (forall pers l, per ∉ pers -> l_aggCache (foldl (recordPeriod p tokens cost now) l pers) !! (p, per)
    = l_aggCache l !! (p, per)) as Hskip.
  { clear. induction pers as [|x pers IH]; intros l Hn; [done|]. simpl. rewrite IH by set_solver.
    apply recordPeriod_other. set_solver. }
  induction Hnd as [|x pers Hx Hnd IH]; intros l He; [by apply elem_of_nil in Hin|]. simpl.
  apply elem_of_cons in Hin as [->|Hin].
  - rewrite Hskip by done. unfold recordPeriod. rewrite He, Hps, Z.eqb_refl. simpl.
    by rewrite lookup_insert_eq.
  - apply IH; [done|]. rewrite recordPeriod_other; [done|]. set_solver.
Qed.

Lemma quota_on_nonzero cfg : requestQuotaOn cfg = true -> isZeroConfig cfg = false.
Proof.
  unfold requestQuotaOn, isZeroConfig. intros Hon. bool_hyps.
  destruct (Z.eqb_spec (lc_RequestQuota cfg) 0); [lia|]. by rewrite !andb_false_r.
Qed.

Lemma Record_tracked p cfg tc ta ps u l r :
  requestQuotaOn cfg = true -> 0 <= u < 2 ^ 62 -> tracked p cfg tc ta ps u l ->
  within cfg (l_cacheTTL l) tc ta ps r ->
  exists l', Record_ (Some l) p (rq_tokens r) (rq_cost r) (rq_now r) = Some l' /\
    tracked p cfg tc ta ps (u + 1) l' /\ l_cacheTTL l' = l_cacheTTL l.
Proof.
  intros Hon Hu [Httl [found Ec] (tok & cost & Eagg)] (_ & _ & Hps). unfold Record_. rewrite Ec. simpl.
  rewrite (quota_on_nonzero _ Hon). eexists. split; [done|].
  assert (forall pers l0, l_cacheTTL (foldl (recordPeriod p (rq_tokens r) (rq_cost r) (rq_now r)) l0 pers) = l_cacheTTL l0 /\
    l_configCache (foldl (recordPeriod p (rq_tokens r) (rq_cost r) (rq_now r)) l0 pers) = l_configCache l0) as Hk.
  { induction pers as [|x pers IH]; intros l0; [done|]. simpl. destruct (IH (recordPeriod p (rq_tokens r) (rq_cost r) (rq_now r) l0 x)) as [-> ->].
    destruct (recordPeriod_keeps p (rq_tokens r) (rq_cost r) (rq_now r) l0 x) as (? & ? & _). done. }
  destruct (Hk (elements (periodsOf cfg)) l) as [E1 E2]. split; [|done]. split; [lia|rewrite E2; eauto|].
  exists (int64 (tok + rq_tokens r)), (f64_add cost (rq_cost r)).
  erewrite foldl_record_once; [|apply NoDup_elements| |exact Eagg|by rewrite Hps].
  - unfold bump. simpl. rewrite (int64_id (u + 1)); [done|]. unfold in_int64, int64_min, int64_max. lia.
  - apply elem_of_elements. unfold periodsOf. rewrite Hon. set_solver.
Qed.

Lemma admitted_under_quota p cfg tc ta ps u l store r :
  requestQuotaOn cfg = true -> tracked p cfg tc ta ps u l -> within cfg (l_cacheTTL l) tc ta ps r ->
  (Admit (Some l) store p (rq_now r)).1.1.1 = true -> u < lc_RequestQuota cfg.
Proof.
  intros Hon [Httl [found Ec] (tok & cost & Eagg)] (Hc & Ha & Hps).
  rewrite Admit_verdict_eq by done.
  assert (seenConfig l store p (rq_now r) = Some cfg) as ->.
  { unfold seenConfig, configFor. rewrite Ec. simpl. by rewrite (proj2 (Z.ltb_lt _ _) Hc). }
  unfold verdict. rewrite (quota_on_nonzero _ Hon), Hon. destruct (checkRate l p cfg (rq_now r)).1 as [[] w];
    [done|].
  assert (seenUsage l store p (lc_RequestQuotaPeriod cfg) (rq_now r) = Some (u, tok, cost)) as ->.
  { unfold seenUsage, freshAgg. rewrite Eagg. simpl.
    by rewrite Hps, Z.eqb_refl, (proj2 (Z.ltb_lt _ _) Ha). }
  unfold requestsExceeded. simpl. destruct (Z.leb_spec (lc_RequestQuota cfg) u); [done|lia].
Qed.

(** A burst cannot overrun the request quota: while the caches are fresh, a
    principal that has made [u] requests of its quota is admitted for the rest of
    it and no more, however many requests come and whatever they use. *)
Theorem quota_bounds_burst p cfg tc ta ps u l store reqs :
  requestQuotaOn cfg = true -> 0 <= u -> u + Z.of_nat (length reqs) < 2 ^ 62 ->
  tracked p cfg tc ta ps u l -> Forall (within cfg (l_cacheTTL l) tc ta ps) reqs ->
  admitted store p reqs (Some l) <= Z.max 0 (lc_RequestQuota cfg - u).
Proof.
  intros Hon. revert u l. induction reqs as [|r reqs IH]; intros u l Hu Hlen Htr Hw; [simpl; lia|].
  apply Forall_cons in Hw as [Hr Hw]. cbn [admitted].
  destruct (Admit_tracked p cfg tc ta ps u l store r Htr Hr) as (l1 & E1 & Htr1 & Et1).
  pose proof (admitted_under_quota p cfg tc ta ps u l store r Hon Htr Hr) as Hv.
  destruct (Admit (Some l) store p (rq_now r)) as [a lim]. cbn [fst snd] in *. subst lim.
  destruct a.1.1 eqn:Ea.
  - assert (u < lc_RequestQuota cfg) as Hlt.
    { by apply Hv. }
    destruct (Record_tracked p cfg tc ta ps u l1 r Hon) as (l2 & -> & Htr2 & Et2);
      [simpl in Hlen; lia|done|by rewrite Et1|].
    specialize (IH (u + 1) l2). rewrite Et2, Et1 in IH. simpl in Hlen.
    specialize (IH ltac:(lia) ltac:(lia) Htr2 Hw). lia.
  - specialize (IH u l1). rewrite Et1 in IH. simpl in Hlen. apply IH; [lia|lia|done..].
Qed.

(** ** Concrete runs *)

Definition sampleStore : PrincipalLimitStore :=
  mkStore (fun p => if bool_decide (p = sampleUser) then Some (sampleLimits, true) else None)
    (fun _ _ => Some (2, 500, f64_zero)).

(** The first request loads the caches: two of three requests are used. *)
Definition sampleLimiter : PrincipalLimiter :=
  default (NewPrincipalLimiter 0) (Admit (Some (NewPrincipalLimiter 0)) sampleStore sampleUser sampleNow).2.

(** The third request of a minute is told to come back with the next one. *)
Lemma Admit_verdict_witness :
  let l := setBucket sampleUser (mkBucket (bucketOf 60 sampleNow) 2) sampleLimiter in
  exists wait, (Admit (Some l) sampleStore sampleUser sampleNow).1 = (false, "rate", wait) /\ 0 < wait.
Proof.
  intros l. pose proof (Admit_verdict l sampleStore sampleUser sampleNow ltac:(vm_compute; done)) as HV.
  cbv zeta in HV. replace (configured l sampleStore sampleUser sampleNow) with (Some sampleLimits) in HV
    by (vm_compute; reflexivity).
  destruct HV as ((wait & E & HW) & _ & _); [split; [split|]; vm_compute; done|].
  exists wait. split; [exact E|]. by apply HW; vm_compute.
Defined.

Definition fullStore : PrincipalLimitStore :=
  mkStore (fun _ => Some (sampleLimits, true)) (fun _ _ => Some (3, 500, f64_zero)).

Lemma Admit_refusal_justified_witness :
  (Admit (Some (NewPrincipalLimiter 0)) fullStore sampleUser sampleNow).1 = (false, "request_quota", 0) /\
  exists cfg, seenConfig (NewPrincipalLimiter 0) fullStore sampleUser sampleNow = Some cfg.
Proof.
  split; [vm_compute; reflexivity|].
  destruct (Admit_refusal_justified (NewPrincipalLimiter 0) fullStore sampleUser sampleNow "request_quota" 0)
    as (cfg & E & _); [vm_compute; done|vm_compute; reflexivity|]. by exists cfg.
Defined.

Lemma principals_isolated_witness :
  (Admit (Admit (Some sampleLimiter) sampleStore sampleUser sampleNow).2 fullStore ("user", "u2") sampleNow).1
  = (Admit (Some sampleLimiter) fullStore ("user", "u2") sampleNow).1.
Proof.
  apply (principals_isolated sampleLimiter sampleStore sampleUser sampleNow 0 f64_zero ("user", "u2")
    fullStore sampleNow); [discriminate|vm_compute; done].
Defined.

Lemma quota_bounds_burst_witness :
  let reqs := [mkRequest (sampleNow + 1) 10 f64_zero; mkRequest (sampleNow + 2) 10 f64_zero] in
  admitted sampleStore sampleUser reqs (Some sampleLimiter) = 1 /\
  admitted sampleStore sampleUser reqs (Some sampleLimiter) <= Z.max 0 (3 - 2).
Proof.
  cbv zeta. split; [vm_compute; reflexivity|].
  apply (quota_bounds_burst sampleUser sampleLimits sampleNow sampleNow (PeriodStart "day" sampleNow) 2
    sampleLimiter sampleStore); [reflexivity|done|vm_compute; done| |].
  - split; [vm_compute; done|exists true; vm_compute; reflexivity|].
    exists 500, f64_zero. vm_compute. reflexivity.
  - repeat (apply Forall_cons; split; [vm_compute; done|]). by apply Forall_nil.
Defined.
