(* ===== verification/AdmissionQueue.v ===== *)
(** * The admission queue and the requests in flight

    Models [gateway/backend/internal/gateway/admission_queue.go], [admission_room.go]
    and the registry of [active_requests.go].  A request whose every candidate server is
    at its cap parks in a bounded FIFO queue; the end of a request on a server wakes the
    front waiter that can use that server.

    The queue is shared by goroutines.  Its methods are split at the points where they
    give up the mutex: a call of [WaitForSlot] enqueues, waits in its [select], and
    dequeues on its way out, and anything may happen in between.  [qstep] is one such
    atomic section; an execution is a list of events.  A waiter's pointer is its number,
    its channel the entry of [qw_chans] under that number: whether the one buffered
    signal is there. *)

From Stdlib Require Import ZArith Lia.
From stdpp Require Import base tactics option list numbers strings gmap.
From S2P Require Import Prelude.
Local Open Scope Z_scope.
Local Open Scope go_scope.

(** ** The queue *)

Definition admissionRecheckInterval : duration := 250 * 1000000.

Inductive waitError :=
| errAdmissionTimeout
| errAdmissionFull
| errContext (text : string).

Record admissionWaiter := mkAdmissionWaiter {
  aw_id : nat;
  aw_servers : gset string
}.

Record admissionQueue := mkAdmissionQueue {
  q_maxDepth : Z;
  q_recheck : duration;
  q_waiters : list admissionWaiter
}.

Global Instance admissionQueue_fields : Fields admissionQueue := fun q =>
  mkAdmissionQueue (q_maxDepth q) (q_recheck q) (q_waiters q).

Definition newAdmissionQueue (maxDepth : Z) : admissionQueue :=
  mkAdmissionQueue (if maxDepth <=? 0 then 128 else maxDepth) admissionRecheckInterval [].

Definition HasRoom (q : option admissionQueue) : bool :=
  match q with
  | None => false
  | Some q => Z.of_nat (length (q_waiters q)) <? q_maxDepth q
  end.

(** The candidate servers of a call, empty ids left out. *)
Definition serverSet (serverIDs : list string) : gset string :=
  list_to_set (List.filter (fun id => negb (String.eqb id "")) serverIDs).

(** The critical section of [WaitForSlot]: [None] when the queue is full. *)
Definition enqueue (w : admissionWaiter) (q : admissionQueue) : option admissionQueue :=
  if q_maxDepth q <=? Z.of_nat (length (q_waiters q)) then None
  else Some (q <| q_waiters ::= fun l => l ++ [w] |>).

Fixpoint removeWaiter (id : nat) (l : list admissionWaiter) : list admissionWaiter :=
  match l with
  | [] => []
  | w :: l => if Nat.eqb (aw_id w) id then l else w :: removeWaiter id l
  end.

Definition remove (id : nat) (q : admissionQueue) : admissionQueue :=
  q <| q_waiters ::= removeWaiter id |>.

Definition watches (server : string) (w : admissionWaiter) : bool :=
  bool_decide (server ∈ aw_servers w).

(** The loop of [release]: the front waiter that watches the server, and the rest. *)
Fixpoint takeWatcher (server : string) (l : list admissionWaiter)
  : option nat * list admissionWaiter :=
  match l with
  | [] => (None, [])
  | w :: l =>
      if watches server w then (Some (aw_id w), l)
      else let '(woken, l) := takeWatcher server l in (woken, w :: l)
  end.

Definition releaseQueue (server : string) (q : admissionQueue) : option nat * admissionQueue :=
  let '(woken, l) := takeWatcher server (q_waiters q) in (woken, q <| q_waiters := l |>).

(** ** Concurrent calls *)

(** Where a call of [WaitForSlot] is: in its [select], between the [select] and the
    deferred [remove], or back at its caller. *)
Inductive phase :=
| Parked (timeout : duration)
| Leaving (result : option waitError)
| Returned (result : option waitError).

Record qworld := mkQWorld {
  qw_queue : option admissionQueue;
  qw_chans : gmap nat bool;
  qw_calls : gmap nat phase;
  qw_next : nat
}.

Global Instance qworld_fields : Fields qworld := fun w =>
  mkQWorld (qw_queue w) (qw_chans w) (qw_calls w) (qw_next w).

Definition newWorld (q : option admissionQueue) : qworld := mkQWorld q ∅ ∅ 0.

Inductive qevent :=
| WaitForSlot (serverIDs : list string) (timeout : duration)
| Signalled (call : nat)
| RecheckDue (call : nat)
| TimedOut (call : nat)
| Cancelled (call : nat) (text : string)
| Dequeue (call : nat)
| Release (serverID : string).

Definition startCall (serverIDs : list string) (timeout : duration) (w : qworld) : qworld :=
  let id := qw_next w in
  let full := w <| qw_calls ::= insert id (Returned (Some errAdmissionFull)) |> <| qw_next ::= S |> in
  match qw_queue w with
  | None => full
  | Some q =>
      match enqueue (mkAdmissionWaiter id (serverSet serverIDs)) q with
      | None => full
      | Some q => w <| qw_queue := Some q |> <| qw_chans ::= insert id false |>
                    <| qw_calls ::= insert id (Parked timeout) |> <| qw_next ::= S |>
      end
  end.

(** One case of the [select] is taken: its condition, and what the call returns. *)
Definition leave (call : nat) (ready : duration -> bool) (result : option waitError) (w : qworld)
  : option qworld :=
  match qw_calls w !! call with
  | Some (Parked timeout) =>
      if ready timeout then Some (w <| qw_calls ::= insert call (Leaving result) |>) else None
  | _ => None
  end.

Definition recheckOn (w : qworld) : bool :=
  match qw_queue w with Some q => 0 <? q_recheck q | None => false end.

(** The send of [release] is non-blocking: a signal already buffered is not added to. *)
Definition release (serverID : string) (w : qworld) : qworld :=
  match qw_queue w with
  | None => w
  | Some q =>
      if String.eqb serverID "" then w
      else
        match releaseQueue serverID q with
        | (None, _) => w
        | (Some id, q) => w <| qw_queue := Some q |> <| qw_chans ::= insert id true |>
        end
  end.

(** [None]: the event cannot happen now. *)
Definition qstep (w : qworld) (e : qevent) : option qworld :=
  match e with
  | WaitForSlot serverIDs timeout => Some (startCall serverIDs timeout w)
  | Signalled c =>
      if map_get false (qw_chans w) c
      then (fun w => w <| qw_chans ::= insert c false |>) <$> leave c (fun _ => true) None w else None
  | RecheckDue c => if recheckOn w then leave c (fun _ => true) None w else None
  | TimedOut c => leave c (fun timeout => 0 <? timeout) (Some errAdmissionTimeout) w
  | Cancelled c text => leave c (fun _ => true) (Some (errContext text)) w
  | Dequeue c =>
      match qw_calls w !! c with
      | Some (Leaving r) => Some (w <| qw_queue ::= fmap (remove c) |>
                                    <| qw_calls ::= insert c (Returned r) |>)
      | _ => None
      end
  | Release serverID => Some (release serverID w)
  end.

Definition qexec (w : qworld) (es : list qevent) : option qworld :=
  foldl (fun w e => w ← w; qstep w e) (Some w) es.

(** ** The invariant of the queue *)

(** A call waits in the queue exactly until it is signalled or has left its [select]. *)
Record QInv (w : qworld) : Prop := {
  qi_depth q : qw_queue w = Some q -> 0 < q_maxDepth q /\ Z.of_nat (length (q_waiters q)) <= q_maxDepth q;
  qi_fifo q : qw_queue w = Some q -> Sorted.StronglySorted lt (aw_id <$> q_waiters q);
  qi_old c p : qw_calls w !! c = Some p -> (c < qw_next w)%nat;
  qi_queued q x : qw_queue w = Some q -> x ∈ q_waiters q ->
    qw_chans w !! aw_id x = Some false
    /\ ((exists t, qw_calls w !! aw_id x = Some (Parked t))
        \/ (exists r, qw_calls w !! aw_id x = Some (Leaving r)));
  qi_parked c t : qw_calls w !! c = Some (Parked t) ->
    qw_chans w !! c = Some true
    \/ exists q x, qw_queue w = Some q /\ x ∈ q_waiters q /\ aw_id x = c
}.

Lemma removeWaiter_sublist id l : removeWaiter id l `sublist_of` l.
Proof.
  induction l as [|w l IH]; [done|]. simpl. case_match; [by constructor|by constructor].
Qed.

Lemma removeWaiter_keeps id l w : w ∈ l -> aw_id w <> id -> w ∈ removeWaiter id l.
Proof.
  intros Hin Hne. induction l as [|x l IH]; [done|]. simpl.
  destruct (Nat.eqb_spec (aw_id x) id) as [E|_]; apply elem_of_cons in Hin as [->|Hin];
    [done|done|left|by right; apply IH].
Qed.

Lemma removeWaiter_gone id l w :
  NoDup (aw_id <$> l) -> w ∈ removeWaiter id l -> aw_id w <> id.
Proof.
  induction l as [|x l IH]; csimpl; [by intros _ ?%not_elem_of_nil|]. intros [Hx HN]%NoDup_cons.
  destruct (Nat.eqb_spec (aw_id x) id) as [<-|Hne].
  - intros Hw E. apply Hx. rewrite <- E. by apply list_elem_of_fmap_2.
  - intros [->|Hw]%elem_of_cons; [done|by apply IH].
Qed.

(** What a release takes: the first watcher, and nothing else. *)
Lemma takeWatcher_spec server l :
  match takeWatcher server l with
  | (None, l') => l' = l /\ Forall (fun w => watches server w = false) l
  | (Some id, l') => exists before w after,
      l = before ++ w :: after /\ l' = before ++ after /\ aw_id w = id
      /\ watches server w = true /\ Forall (fun w => watches server w = false) before
  end.
Proof.
  induction l as [|w l IH]; [done|]. simpl. destruct (watches server w) eqn:Hw.
  - exists [], w, l. by split_and!.
  - destruct (takeWatcher server l) as [[id|] l'].
    + destruct IH as (before & x & after & -> & -> & Hid & Hx & HF).
      exists (w :: before), x, after. split_and!; try done. by constructor.
    + destruct IH as [-> HF]. split; [done|by constructor].
Qed.

Lemma sorted_sublist (l1 l2 : list nat) :
  l1 `sublist_of` l2 -> Sorted.StronglySorted lt l2 -> Sorted.StronglySorted lt l1.
Proof.
  induction 1 as [|x l1 l2 Hs IH|x l1 l2 Hs IH]; intros HS; [done|..];
    apply Sorted.StronglySorted_inv in HS as [HS HF]; [|by apply IH].
  constructor; [by apply IH|]. rewrite List.Forall_forall in *. intros y Hy. apply HF.
  apply list_elem_of_In. eapply elem_of_sublist; [|exact Hs]. by apply list_elem_of_In.
Qed.

Lemma sorted_snoc (l : list nat) x :
  Sorted.StronglySorted lt l -> (forall y, y ∈ l -> (y < x)%nat) -> Sorted.StronglySorted lt (l ++ [x]).
Proof.
  induction l as [|a l IH]; intros HS Hx; simpl; [repeat constructor|].
  apply Sorted.StronglySorted_inv in HS as [HS HF]. constructor.
  - apply IH; [done|]. intros y Hy. apply Hx. by right.
  - apply List.Forall_app. split; [done|]. repeat constructor. apply Hx. left.
Qed.

Lemma sorted_NoDup (l : list nat) : Sorted.StronglySorted lt l -> NoDup l.
Proof.
  induction 1 as [|a l HS IH HF]; constructor; [|done]. intros Hin%list_elem_of_In.
  rewrite List.Forall_forall in HF. specialize (HF _ Hin). lia.
Qed.

(** The calls and channels of others are untouched. *)
Lemma QInv_newWorld maxDepth : QInv (newWorld (Some (newAdmissionQueue maxDepth))).
Proof.
  split; simpl; try done.
  - intros q [= <-]. simpl. case_match; simpl; lia.
  - intros q [= <-]. constructor.
  - intros q x [= <-] Hx. by apply not_elem_of_nil in Hx.
Qed.

Lemma QInv_full c r w :
  c = qw_next w -> QInv w ->
  QInv (w <| qw_calls ::= insert c (Returned r) |> <| qw_next ::= S |>).
Proof.
  intros -> [ID IF IO IQ IP]. split; simpl; try done.
  - intros c p [[<- _]|[_ Hc]]%lookup_insert_Some; [lia|]. apply IO in Hc. lia.
  - intros q x Hq Hx. destruct (IQ _ _ Hq Hx) as [Hch Hph].
    assert (Hne : qw_next w <> aw_id x).
    { intros E. destruct Hph as [(t & Hc)|(t & Hc)]; apply IO in Hc; lia. }
    by rewrite lookup_insert_ne.
  - intros c t [[_ ?]|[_ Hc]]%lookup_insert_Some; [done|]. by eapply IP.
Qed.

Lemma QInv_startCall serverIDs timeout w : QInv w -> QInv (startCall serverIDs timeout w).
Proof.
  intros HI. unfold startCall. destruct (qw_queue w) as [q|] eqn:Hq; [|by apply QInv_full].
  unfold enqueue. destruct (Z.leb_spec (q_maxDepth q) (Z.of_nat (length (q_waiters q)))); [by apply QInv_full|].
  destruct HI as [ID IF IO IQ IP]. destruct (ID _ Hq) as [HD HL].
  assert (Hold : forall x, x ∈ q_waiters q -> (aw_id x < qw_next w)%nat).
  { intros x Hx. destruct (IQ _ _ Hq Hx) as [_ [(t & Hc)|(t & Hc)]]; by apply IO in Hc. }
  split; simpl.
  - intros q' [= <-]. simpl. rewrite length_app. simpl. lia.
  - intros q' [= <-]. simpl. rewrite fmap_app. apply sorted_snoc; [by apply IF|].
    intros y (x & -> & Hx)%list_elem_of_fmap. by apply Hold.
  - intros c p [[<- _]|[_ Hc]]%lookup_insert_Some; [lia|]. apply IO in Hc. lia.
  - intros q' x [= <-] Hx. simpl in Hx. apply elem_of_app in Hx as [Hx|[->|?%not_elem_of_nil]%elem_of_cons]; [| |done].
    + specialize (Hold _ Hx). rewrite !lookup_insert_ne by lia. by apply (IQ q).
    + rewrite !lookup_insert_eq. split; [done|]. left. by exists timeout.
  - intros c t [[<- _]|[Hne Hc]]%lookup_insert_Some.
    + right. eexists _, (mkAdmissionWaiter (qw_next w) (serverSet serverIDs)). split; [reflexivity|].
      simpl. split; [|done]. apply elem_of_app. right. left.
    + rewrite lookup_insert_ne by done. destruct (IP _ _ Hc) as [?|(q' & x & Hq' & Hx & Hid)]; [by left|right].
      rewrite Hq in Hq'. injection Hq' as <-. eexists _, x. split; [reflexivity|]. simpl.
      split; [|done]. apply elem_of_app. by left.
Qed.

(** Leaving the [select] keeps the place in the queue until the deferred [remove]. *)
Lemma QInv_leave c ready r w w' : leave c ready r w = Some w' -> QInv w -> QInv w'.
Proof.
  unfold leave. destruct (qw_calls w !! c) as [[t| |]|] eqn:Hc; try done. case_match; [|done].
  intros [= <-] [ID IF IO IQ IP]. split; simpl; try done.
  - intros c' p [[<- _]|[_ Hc']]%lookup_insert_Some; by eapply IO.
  - intros q x Hq Hx. destruct (IQ _ _ Hq Hx) as [Hch Hph]. split; [done|].
    destruct (decide (c = aw_id x)) as [->|Hne].
    + right. exists r. by rewrite lookup_insert_eq.
    + by rewrite lookup_insert_ne.
  - intros c' t' [[_ ?]|[_ Hc']]%lookup_insert_Some; [done|]. by eapply IP.
Qed.

Lemma QInv_consume c w r :
  map_get false (qw_chans w) c = true -> QInv w -> qw_calls w !! c = Some (Leaving r) ->
  QInv (w <| qw_chans ::= insert c false |>).
Proof.
  intros Hch [ID IF IO IQ IP] Hc. split; simpl; try done.
  - intros q x Hq Hx. destruct (IQ _ _ Hq Hx) as [Hx' Hph]. split; [|done].
    destruct (decide (c = aw_id x)) as [->|Hne]; [by rewrite lookup_insert_eq|by rewrite lookup_insert_ne].
  - intros c' t Hc'. rewrite lookup_insert_ne by congruence. by eapply IP.
Qed.

Lemma QInv_dequeue c r w :
  qw_calls w !! c = Some (Leaving r) -> QInv w ->
  QInv (w <| qw_queue ::= fmap (remove c) |> <| qw_calls ::= insert c (Returned r) |>).
Proof.
  intros Hc [ID IF IO IQ IP]. split; simpl.
  - intros q' (q & Hq & ->)%fmap_Some_1. simpl. destruct (ID _ Hq).
    pose proof (sublist_length _ _ (removeWaiter_sublist c (q_waiters q))). split; [done|lia].
  - intros q' (q & Hq & ->)%fmap_Some_1. simpl. eapply sorted_sublist; [|by apply IF].
    apply fmap_sublist, removeWaiter_sublist.
  - intros c' p [[<- _]|[_ Hc']]%lookup_insert_Some; by eapply IO.
  - intros q' x (q & Hq & ->)%fmap_Some_1 Hx. simpl in Hx.
    pose proof (removeWaiter_gone c _ x (sorted_NoDup _ (IF _ Hq)) Hx) as Hne.
    rewrite lookup_insert_ne by done. apply (IQ q); [done|].
    by eapply elem_of_sublist; [|apply removeWaiter_sublist].
  - intros c' t [[_ ?]|[Hne Hc']]%lookup_insert_Some; [done|].
    destruct (IP _ _ Hc') as [?|(q & x & Hq & Hx & Hid)]; [by left|right].
    exists (remove c q), x. rewrite Hq. split; [done|]. split; [|done]. simpl.
    apply removeWaiter_keeps; [done|]. congruence.
Qed.

Lemma QInv_release s w : QInv w -> QInv (release s w).
Proof.
  intros HI. unfold release. destruct (qw_queue w) as [q|] eqn:Hq; [|done]. case_match; [done|].
  unfold releaseQueue. pose proof (takeWatcher_spec s (q_waiters q)) as HT.
  destruct (takeWatcher s (q_waiters q)) as [[id|] l]; [|done].
  destruct HT as (before & x & after & Hl & -> & <- & _ & _). destruct HI as [ID IF IO IQ IP].
  pose proof (sorted_NoDup _ (IF _ Hq)) as HN. rewrite Hl, fmap_app, fmap_cons in HN.
  assert (Hsub : before ++ after `sublist_of` q_waiters q).
  { rewrite Hl. apply sublist_app; [done|]. by constructor. }
  assert (Hgone : forall y, y ∈ before ++ after -> aw_id y <> aw_id x).
  { intros y Hy E. apply NoDup_app in HN as (_ & HN1 & [HN2 _]%NoDup_cons).
    apply elem_of_app in Hy as [Hy|Hy].
    - apply (HN1 (aw_id y)); [by apply list_elem_of_fmap_2|]. rewrite E. left.
    - apply HN2. rewrite <- E. by apply list_elem_of_fmap_2. }
  split; simpl; try done.
  - intros q' [= <-]. simpl. destruct (ID _ Hq). pose proof (sublist_length _ _ Hsub). split; [done|lia].
  - intros q' [= <-]. simpl. eapply sorted_sublist; [apply fmap_sublist, Hsub|by apply IF].
  - intros q' y [= <-] Hy. simpl in Hy. specialize (Hgone _ Hy). rewrite lookup_insert_ne by done.
    apply (IQ q); [done|]. by eapply elem_of_sublist.
  - intros c t Hc. destruct (decide (c = aw_id x)) as [->|Hne]; [left; by rewrite lookup_insert_eq|].
    rewrite lookup_insert_ne by done. destruct (IP _ _ Hc) as [?|(q' & y & Hq' & Hy & Hid)]; [by left|right].
    rewrite Hq in Hq'. injection Hq' as <-. eexists _, y. split; [reflexivity|]. simpl. split; [|done].
    rewrite Hl in Hy. apply elem_of_app in Hy as [Hy|[->|Hy]%elem_of_cons]; [|done|];
      apply elem_of_app; [by left|by right].
Qed.

Lemma QInv_step w e w' : qstep w e = Some w' -> QInv w -> QInv w'.
Proof.
  destruct e as [ids t|c|c|c|c text|c|s]; simpl; intros E HI.
  - injection E as <-. by apply QInv_startCall.
  - destruct (map_get false (qw_chans w) c) eqn:Hch; [|done].
    apply fmap_Some_1 in E as (w1 & E & ->). pose proof (QInv_leave _ _ _ _ _ E HI) as HI1.
    unfold leave in E. destruct (qw_calls w !! c) as [[tm| |]|]; try done. injection E as <-.
    apply (QInv_consume c _ None); [done|done|]. simpl. apply lookup_insert_eq.
  - destruct (recheckOn w); [|done]. by eapply QInv_leave.
  - by eapply QInv_leave.
  - by eapply QInv_leave.
  - destruct (qw_calls w !! c) as [[| |]|] eqn:Hc; try done. injection E as <-. by apply QInv_dequeue.
  - injection E as <-. by apply QInv_release.
Qed.

Lemma QInv_exec w es w' : qexec w es = Some w' -> QInv w -> QInv w'.
Proof.
  unfold qexec. revert w. induction es as [|e es IH]; intros w E HI; [by injection E as <-|]. simpl in E.
  destruct (qstep w e) as [w1|] eqn:E1.
  - eapply IH; [exact E|]. by eapply QInv_step.
  - exfalso. clear -E. induction es as [|e' es IHe]; [done|auto].
Qed.

(** ** Releases *)

(** The waiters a release of [s] can wake, front first. *)
Definition watchers (s : string) (q : admissionQueue) : list nat :=
  aw_id <$> List.filter (watches s) (q_waiters q).

Definition without (ids : list nat) (l : list admissionWaiter) : list admissionWaiter :=
  List.filter (fun w => negb (existsb (Nat.eqb (aw_id w)) ids)) l.

Lemma without_nil l : without [] l = l.
Proof. unfold without. induction l as [|w l IH]; [done|]. simpl. by f_equal. Qed.

Lemma without_app ids l1 l2 : without ids (l1 ++ l2) = without ids l1 ++ without ids l2.
Proof. unfold without. apply List.filter_app. Qed.

Lemma without_cons id ids l :
  Forall (fun w => aw_id w <> id) l -> without (id :: ids) l = without ids l.
Proof.
  intros HF. unfold without. apply List.filter_ext_in. intros w Hw%list_elem_of_In.
  rewrite Forall_forall in HF. simpl. by rewrite (proj2 (Nat.eqb_neq _ _) (HF _ Hw)).
Qed.

Lemma filter_none {A} (p : A -> bool) l : Forall (fun x => p x = false) l -> List.filter p l = [].
Proof. induction 1 as [|x l Hx _ IH]; [done|]. simpl. by rewrite Hx. Qed.

(** One release: nothing without a watcher; otherwise the front watcher leaves the queue
    and finds its signal. *)
Lemma release_one s w q :
  QInv w -> qw_queue w = Some q -> s <> "" ->
  match watchers s q with
  | [] => release s w = w
  | id :: rest => qw_chans w !! id = Some false /\ exists l,
      release s w = w <| qw_queue := Some (q <| q_waiters := l |>) |> <| qw_chans ::= insert id true |>
      /\ watchers s (q <| q_waiters := l |>) = rest
      /\ forall ids, without ids l = without (id :: ids) (q_waiters q)
  end.
Proof.
  intros HI Hq Hs. unfold release, releaseQueue, watchers. rewrite Hq, (proj2 (String.eqb_neq _ _) Hs).
  pose proof (takeWatcher_spec s (q_waiters q)) as HT.
  destruct (takeWatcher s (q_waiters q)) as [[id|] l]; [|destruct HT as [_ HF]; by rewrite filter_none].
  destruct HT as (before & x & after & Hl & -> & <- & Hx & HF).
  pose proof (sorted_NoDup _ (qi_fifo _ HI _ Hq)) as HN.
  assert (Hxq : x ∈ q_waiters q) by (rewrite Hl; apply elem_of_app; right; left).
  destruct (qi_queued _ HI _ _ Hq Hxq) as [Hch _].
  rewrite Hl in HN |- *. rewrite fmap_app, fmap_cons in HN.
  apply NoDup_app in HN as (_ & HN1 & [HN2 _]%NoDup_cons).
  rewrite List.filter_app. simpl. rewrite (filter_none _ before), Hx by done. simpl.
  split; [done|]. exists (before ++ after). split; [done|]. split.
  { rewrite List.filter_app, (filter_none _ before) by done. done. }
  intros ids. rewrite !without_app. change (x :: after) with ([x] ++ after).
  rewrite without_app, (without_cons _ _ before), (without_cons _ _ after).
  - f_equal. unfold without at 2. simpl. by rewrite Nat.eqb_refl.
  - apply Forall_forall. intros y Hy E. apply HN2. rewrite <- E. by apply list_elem_of_fmap_2.
  - apply Forall_forall. intros y Hy E. apply (HN1 (aw_id y)); [by apply list_elem_of_fmap_2|].
    rewrite E. left.
Qed.

Lemma watchers_front s q id rest x :
  Sorted.StronglySorted lt (aw_id <$> q_waiters q) -> watchers s q = id :: rest ->
  x ∈ q_waiters q -> watches s x = true -> (id <= aw_id x)%nat.
Proof.
  unfold watchers. induction (q_waiters q) as [|y l IH]; [by intros _ _ ?%not_elem_of_nil|]. csimpl.
  intros [HS HF]%Sorted.StronglySorted_inv Hw Hx Hwx. rewrite List.Forall_forall in HF.
  apply elem_of_cons in Hx as [->|Hx].
  - rewrite Hwx in Hw. injection Hw as <- _. done.
  - destruct (watches s y); [injection Hw as <- _|by apply IH].
    apply Nat.lt_le_incl, HF, list_elem_of_In. by apply list_elem_of_fmap_2.
Qed.

(** [n] slots freed one after the other. *)
Fixpoint releases (n : nat) (s : string) (w : qworld) : qworld :=
  match n with O => w | S n => releases n s (release s w) end.

(** What the calls of an execution waited for, in the order in which they came. *)
Definition arrivals (es : list qevent) : list (list string) :=
  omap (fun e => match e with WaitForSlot serverIDs _ => Some serverIDs | _ => None end) es.

(** A call's number counts the calls before it, and its waiter watches what it asked for. *)
Record numbered (es : list qevent) (w : qworld) : Prop := {
  nb_next : qw_next w = length (arrivals es);
  nb_asked q x : qw_queue w = Some q -> x ∈ q_waiters q ->
    exists serverIDs, arrivals es !! aw_id x = Some serverIDs /\ aw_servers x = serverSet serverIDs
}.

Lemma serverSet_elem s serverIDs : s ∈ serverSet serverIDs <-> s ∈ serverIDs /\ s <> "".
Proof.
  unfold serverSet. rewrite elem_of_list_to_set, elem_of_filter_bool, negb_true_iff, String.eqb_neq. done.
Qed.

Lemma arrivals_snoc es e : arrivals (es ++ [e]) =
  arrivals es ++ match e with WaitForSlot serverIDs _ => [serverIDs] | _ => [] end.
Proof. unfold arrivals. rewrite omap_app. by destruct e. Qed.

Lemma numbered_keep es e w w' :
  numbered es w -> qw_next w' = length (arrivals (es ++ [e])) ->
  (forall q', qw_queue w' = Some q' -> exists q, qw_queue w = Some q /\ q_waiters q' ⊆ q_waiters q) ->
  numbered (es ++ [e]) w'.
Proof.
  intros [_ HA] HN Hq. split; [done|]. intros q' x Hq' Hx. destruct (Hq _ Hq') as (q & Hqq & Hsub).
  destruct (HA _ _ Hqq (Hsub _ Hx)) as (ids & Hids & ?). exists ids. split; [|done].
  rewrite arrivals_snoc. by apply lookup_app_l_Some.
Qed.

Lemma numbered_startCall es serverIDs timeout w :
  numbered es w -> numbered (es ++ [WaitForSlot serverIDs timeout]) (startCall serverIDs timeout w).
Proof.
  intros HN. pose proof (nb_next _ _ HN) as Hn.
  assert (Hlen : S (qw_next w) = length (arrivals (es ++ [WaitForSlot serverIDs timeout])))
    by (rewrite arrivals_snoc, length_app; simpl; lia).
  unfold startCall. destruct (qw_queue w) as [q|] eqn:Hq.
  2:{ eapply numbered_keep; [done|done|]. simpl. rewrite Hq. done. }
  destruct (enqueue _ q) as [q1|] eqn:He; [|eapply numbered_keep; [done|done|]; simpl; rewrite Hq; naive_solver].
  unfold enqueue in He. case_match; [done|]. injection He as <-. split; [done|]. simpl.
  intros q' x [= <-] [Hx|[->|?%not_elem_of_nil]%elem_of_cons]%elem_of_app; [| |done].
  - destruct (nb_asked _ _ HN _ _ Hq Hx) as (ids & Hids & ?). exists ids. split; [|done].
    rewrite arrivals_snoc. by apply lookup_app_l_Some.
  - exists serverIDs. split; [|done]. rewrite arrivals_snoc, Hn. simpl. apply list_lookup_middle. done.
Qed.

Lemma leave_kept c ready r w w' :
  leave c ready r w = Some w' -> qw_queue w' = qw_queue w /\ qw_next w' = qw_next w.
Proof. unfold leave. intros E. repeat case_match; by simplify_eq. Qed.

(** Only the arrival of a call adds to the queue or takes a number. *)
Lemma qstep_kept w e w' :
  qstep w e = Some w' -> (forall serverIDs timeout, e <> WaitForSlot serverIDs timeout) ->
  qw_next w' = qw_next w /\
  forall q', qw_queue w' = Some q' -> exists q, qw_queue w = Some q /\ q_waiters q' ⊆ q_waiters q.
Proof.
  assert (Hkeep : forall w1 w2 : qworld, qw_queue w2 = qw_queue w1 /\ qw_next w2 = qw_next w1 ->
    qw_next w2 = qw_next w1 /\
    forall q', qw_queue w2 = Some q' -> exists q, qw_queue w1 = Some q /\ q_waiters q' ⊆ q_waiters q)
    by (intros w1 w2 [E ->]; split; [done|]; intros q'; rewrite E; eauto).
  destruct e as [ids t|c|c|c|c text|c|s]; simpl; intros E Hne; [by destruct (Hne ids t)|..].
  - case_match; [|done]. apply fmap_Some_1 in E as (w1 & E%leave_kept & ->). by apply Hkeep.
  - case_match; [|done]. by apply Hkeep, (leave_kept _ _ _ _ _ E).
  - by apply Hkeep, (leave_kept _ _ _ _ _ E).
  - by apply Hkeep, (leave_kept _ _ _ _ _ E).
  - repeat case_match; try done. injection E as <-. split; [done|]. simpl.
    intros q' (q & Hq & ->)%fmap_Some_1. exists q. split; [done|]. simpl. intros x Hx.
    by eapply elem_of_sublist; [|apply removeWaiter_sublist].
  - injection E as <-. unfold release. destruct (Hkeep w w (conj eq_refl eq_refl)) as [_ Hsame].
    destruct (qw_queue w) as [q|] eqn:Hq; [|by rewrite Hq].
    case_match; [by rewrite Hq|]. unfold releaseQueue. pose proof (takeWatcher_spec s (q_waiters q)) as HT.
    destruct (takeWatcher s (q_waiters q)) as [[id|] l]; [|by rewrite Hq]. split; [done|].
    destruct HT as (before & x & after & Hl & -> & _). intros q' [= <-]. exists q. split; [done|]. simpl.
    rewrite Hl. set_solver.
Qed.

Lemma numbered_exec maxDepth es w :
  qexec (newWorld (Some (newAdmissionQueue maxDepth))) es = Some w -> numbered es w.
Proof.
  revert w. induction es as [|e es IH] using rev_ind; intros w.
  - intros [= <-]. split; [done|]. intros q x [= <-] Hx. by apply not_elem_of_nil in Hx.
  - unfold qexec. rewrite foldl_app. simpl. intros (w1 & E1 & E)%bind_Some. specialize (IH _ E1).
    destruct e as [ids t| | | | | |].
    { injection E as <-. by apply numbered_startCall. }
    all: destruct (qstep_kept _ _ _ E) as [Hn Hq]; [done|]; eapply numbered_keep; [exact IH| |done];
      rewrite Hn, (nb_next _ _ IH), arrivals_snoc, app_nil_r; done.
Qed.

(** What [n] releases do to the queue: the first [n] watchers are taken and signalled. *)
Lemma releases_take s n w q :
  QInv w -> qw_queue w = Some q -> s <> "" ->
  let woken := take n (watchers s q) in
  let w' := releases n s w in
  qw_queue w' = Some (q <| q_waiters := without woken (q_waiters q) |>) /\
  (forall c, c ∈ woken -> qw_chans w !! c = Some false /\ qw_chans w' !! c = Some true) /\
  (forall c, c ∉ woken -> qw_chans w' !! c = qw_chans w !! c) /\
  qw_calls w' = qw_calls w.
Proof.
  intros HI Hq Hs. revert w q HI Hq. induction n as [|n IH]; intros w q HI Hq; simpl.
  - rewrite without_nil. destruct q. split_and!; try done. by intros c ?%not_elem_of_nil.
  - pose proof (release_one s w q HI Hq Hs) as H1. destruct (watchers s q) as [|id rest] eqn:Hw.
    + rewrite H1. specialize (IH _ _ HI Hq). rewrite Hw in IH. by rewrite take_nil in IH.
    + destruct H1 as (Hch & l & Hr & Hrest & Hl). pose proof (QInv_release s w HI) as HI1.
      rewrite Hr in HI1 |- *. destruct (IH _ _ HI1 eq_refl) as (Q1 & Q2 & Q3 & Q4). rewrite Hrest in Q1, Q2, Q3.
      split_and!.
      * rewrite Q1. simpl. by rewrite Hl.
      * intros c [->|Hc]%elem_of_cons.
        -- split; [done|]. destruct (decide (id ∈ take n rest)) as [Hin|Hni]; [by apply Q2|].
           rewrite Q3 by done. simpl. apply lookup_insert_eq.
        -- destruct (Q2 _ Hc) as [Hf Ht]. split; [|done]. simpl in Hf.
           destruct (decide (c = id)) as [->|Hne]; [done|]. by rewrite lookup_insert_ne in Hf.
      * intros c [Hne Hc]%not_elem_of_cons. rewrite Q3 by done. simpl. by rewrite lookup_insert_ne.
      * by rewrite Q4.
Qed.

Lemma watchers_sorted s q :
  Sorted.StronglySorted lt (aw_id <$> q_waiters q) -> Sorted.StronglySorted lt (watchers s q).
Proof.
  apply sorted_sublist, fmap_sublist. induction (q_waiters q) as [|x l IH]; [done|]. simpl.
  case_match; by constructor.
Qed.

Lemma watchers_elem s q c : c ∈ watchers s q <-> exists x, x ∈ q_waiters q /\ aw_id x = c /\ s ∈ aw_servers x.
Proof.
  unfold watchers. rewrite list_elem_of_fmap. setoid_rewrite elem_of_filter_bool.
  unfold watches. setoid_rewrite bool_decide_eq_true. naive_solver.
Qed.

(** In a sorted list what is not among the first [n] comes after all of them. *)
Lemma sorted_take (l : list nat) n x y :
  Sorted.StronglySorted lt l -> x ∈ take n l -> y ∈ l -> y ∉ take n l -> (x < y)%nat.
Proof.
  revert n. induction l as [|a l IH]; intros [|n]; try (by intros _ ?%not_elem_of_nil). simpl.
  intros [HS HF]%Sorted.StronglySorted_inv Hx Hy Hny. rewrite List.Forall_forall in HF.
  apply not_elem_of_cons in Hny as [Hne Hny]. apply elem_of_cons in Hy as [->|Hy]; [done|].
  apply elem_of_cons in Hx as [->|Hx]; [by apply HF, list_elem_of_In|by eapply IH].
Qed.

(** C39.  Freed slots wake distinct waiters in the order in which they came.  Number the calls of
    an execution by their arrival.  In the state it reaches, [n] releases for a server signal a
    list of at most [n] calls that is sorted by arrival, each of which asked for that server
    and had no signal before; a call that asked for it, still waits without a signal and is not
    signalled now came after all of those, and there is one only if [n] calls were signalled.
    The signalled calls leave the queue, and no other call, queue position or channel changes. *)
Theorem releases_wake_in_order maxDepth es w q s n :
  qexec (newWorld (Some (newAdmissionQueue maxDepth))) es = Some w ->
  qw_queue w = Some q -> s <> "" ->
  let w' := releases n s w in
  exists woken,
    (length woken <= n)%nat /\ Sorted.StronglySorted lt woken /\
    (forall c, c ∈ woken -> qw_chans w !! c = Some false /\ qw_chans w' !! c = Some true /\
       exists serverIDs, arrivals es !! c = Some serverIDs /\ s ∈ serverIDs) /\
    (forall c timeout serverIDs, qw_calls w !! c = Some (Parked timeout) -> qw_chans w !! c = Some false ->
       arrivals es !! c = Some serverIDs -> s ∈ serverIDs ->
       c ∈ woken \/ length woken = n /\ forall c', c' ∈ woken -> (c' < c)%nat) /\
    qw_queue w' = Some (q <| q_waiters := without woken (q_waiters q) |>) /\
    (forall c, c ∉ woken -> qw_chans w' !! c = qw_chans w !! c) /\
    qw_calls w' = qw_calls w.
Proof.
  intros E Hq Hs w'. pose proof (QInv_exec _ _ _ E (QInv_newWorld maxDepth)) as HI.
  pose proof (numbered_exec _ _ _ E) as HN. pose proof (watchers_sorted s q (qi_fifo _ HI _ Hq)) as HS.
  destruct (releases_take s n w q HI Hq Hs) as (Q1 & Q2 & Q3 & Q4).
  exists (take n (watchers s q)). split_and!; try done.
  - rewrite length_take. lia.
  - eapply sorted_sublist; [apply sublist_take|done].
  - intros c Hc. destruct (Q2 _ Hc) as [? ?]. split_and!; try done.
    assert (c ∈ watchers s q) as (x & Hx & <- & Hsx)%watchers_elem by (by eapply elem_of_sublist; [|apply sublist_take]).
    destruct (nb_asked _ _ HN _ _ Hq Hx) as (ids & ? & Eids). exists ids. split; [done|].
    rewrite Eids in Hsx. by apply serverSet_elem in Hsx as [? _].
  - intros c timeout ids Hc Hch Hids Hin.
    destruct (qi_parked _ HI _ _ Hc) as [?|(q' & x & Hq' & Hx & <-)]; [congruence|]. simplify_eq.
    assert (Hw : aw_id x ∈ watchers s q).
    { apply watchers_elem. exists x. split_and!; try done.
      destruct (nb_asked _ _ HN _ _ Hq Hx) as (ids' & Hids' & ->). simplify_eq. by apply serverSet_elem. }
    destruct (decide (aw_id x ∈ take n (watchers s q))) as [?|Hni]; [by left|right]. split.
    + rewrite length_take. destruct (Nat.le_gt_cases n (length (watchers s q))); [lia|].
      rewrite take_ge in Hni by lia. done.
    + intros c' Hc'. by eapply sorted_take.
Qed.

(** No wake-up is lost and the queue stays bounded: in any reachable state a parked
    call either finds its signal and can return, or is in the queue, where a release for
    any of its servers signals it or a call that came before it; and no more than the
    configured number of calls are queued, each unsignalled. *)
Theorem parked_call_reachable maxDepth es w c timeout :
  qexec (newWorld (Some (newAdmissionQueue maxDepth))) es = Some w ->
  qw_calls w !! c = Some (Parked timeout) ->
  (is_Some (qstep w (Signalled c)) \/
   exists q x, qw_queue w = Some q /\ x ∈ q_waiters q /\ aw_id x = c /\
     forall s, s ∈ aw_servers x -> s <> "" ->
       exists c', (c' <= c)%nat /\ qw_chans w !! c' = Some false /\ qw_chans (release s w) !! c' = Some true) /\
  forall q, qw_queue w = Some q ->
    Z.of_nat (length (q_waiters q)) <= q_maxDepth q /\
    Forall (fun x => qw_chans w !! aw_id x = Some false) (q_waiters q).
Proof.
  intros E Hc. pose proof (QInv_exec _ _ _ E (QInv_newWorld maxDepth)) as HI. clear E. split.
  - destruct (qi_parked _ HI _ _ Hc) as [Hch|(q & x & Hq & Hx & <-)].
    + left. simpl. unfold map_get, leave. rewrite Hch, Hc. by eexists.
    + right. exists q, x. split_and!; try done. intros s Hs Hne.
      pose proof (release_one s w q HI Hq Hne) as H1. destruct (watchers s q) as [|id rest] eqn:Hw.
      { apply (f_equal length) in Hw. unfold watchers in Hw. rewrite length_fmap in Hw.
        apply nil_length_inv in Hw. assert (Hin : In x (List.filter (watches s) (q_waiters q))).
        { apply filter_In. split; [by apply list_elem_of_In|]. by apply bool_decide_eq_true. }
        by rewrite Hw in Hin. }
      destruct H1 as (Hch & l & -> & _). exists id. split; [|split; [done|apply lookup_insert_eq]].
      eapply (watchers_front s q id rest x); [by apply (qi_fifo _ HI)|done|done|by apply bool_decide_eq_true].
  - intros q Hq. split; [by apply (qi_depth _ HI)|]. apply Forall_forall. intros x Hx.
    by apply (qi_queued _ HI q).
Qed.

(** ** A concrete execution *)

(** Three calls are parked, one of them with a deadline; a slot frees on the first
    server. *)
Definition sampleEvents : list qevent :=
  [WaitForSlot ["s1"; ""] 0; WaitForSlot ["s2"; "s1"] 1000; WaitForSlot ["s1"] 0; Release "s1"].

Definition sampleState : qworld :=
  default (newWorld None) (qexec (newWorld (Some (newAdmissionQueue 8))) sampleEvents).

(** The first call has its signal; of the two left in the queue two releases wake both. *)
Lemma releases_wake_in_order_witness : exists woken : list nat,
  Sorted.StronglySorted lt woken /\ 1%nat ∈ woken /\ 2%nat ∈ woken /\
  qw_chans (releases 2 "s1" sampleState) !! 0%nat = qw_chans sampleState !! 0%nat.
Proof.
  destruct (releases_wake_in_order 8 sampleEvents sampleState
    (default (newAdmissionQueue 8) (qw_queue sampleState)) "s1" 2) as (woken & HL & HS & HW & HA & _ & HO & _);
    [vm_compute; reflexivity|vm_compute; reflexivity|done|].
  assert (H0 : 0%nat ∉ woken) by (intros [Hf _]%HW; by vm_compute in Hf).
  assert (Hin : forall c timeout ids, (c < 3)%nat -> qw_calls sampleState !! c = Some (Parked timeout) ->
    qw_chans sampleState !! c = Some false -> arrivals sampleEvents !! c = Some ids -> "s1" ∈ ids -> c ∈ woken).
  { intros c t ids Hc E1 E2 E3 E4. destruct (HA c t ids E1 E2 E3 E4) as [?|[E HB]]; [done|exfalso].
    destruct woken as [|x [|y [|]]]; try done.
    apply Sorted.StronglySorted_inv in HS as [_ HF]. rewrite List.Forall_forall in HF.
    pose proof (HF y (or_introl eq_refl)). pose proof (HB y ltac:(right; left)).
    assert (x = 0%nat) as -> by lia. apply H0. left. }
  exists woken. split_and!; [done|..].
  - eapply (Hin 1%nat); [lia|vm_compute; reflexivity..|]. right. left.
  - eapply (Hin 2%nat); [lia|vm_compute; reflexivity..|]. left.
  - by apply HO.
Defined.

Lemma parked_call_reachable_witness :
  is_Some (qstep sampleState (Signalled 0)) /\
  forall q, qw_queue sampleState = Some q -> Z.of_nat (length (q_waiters q)) <= q_maxDepth q.
Proof.
  split; [vm_compute; by eexists|]. intros q Hq.
  eapply (parked_call_reachable 8 sampleEvents sampleState 0 0); [vm_compute; reflexivity|vm_compute; reflexivity|done].
Defined.
