(* ===== verification/ActiveRequests.v ===== *)
(** * The requests in flight

    Models the registry of [gateway/backend/internal/gateway/active_requests.go]: the set
    of running requests, its per-instance counts kept beside it, and the end of a request,
    which frees a slot for a call parked in the admission queue.  A record carries the
    fields the registry reads; the methods run under the registry's mutex, so a
    concurrent history is a sequence of operations.  [None] is the nil registry of a bare
    server.  The poke of the usage broker is left out. *)

From Stdlib Require Import ZArith Lia.
From stdpp Require Import base tactics option list numbers strings gmap.
From S2P Require Import Prelude AdmissionQueue.
Local Open Scope Z_scope.
Local Open Scope go_scope.

Record ActiveRequest := mkActiveRequest {
  ar_ID : string;
  ar_ServerName : string;
  ar_ServerID : string;
  ar_InstanceKey : string
}.

Record activeRegistry := mkActiveRegistry {
  reg_items : gmap string ActiveRequest;
  reg_lastCompleted : gmap string time;
  reg_byInstance : gmap string Z
}.

Global Instance activeRegistry_fields : Fields activeRegistry := fun a =>
  mkActiveRegistry (reg_items a) (reg_lastCompleted a) (reg_byInstance a).

Definition newActiveRegistry : activeRegistry := mkActiveRegistry ∅ ∅ ∅.

Definition uncountInstance (key : string) (a : activeRegistry) : activeRegistry :=
  if String.eqb key "" then a
  else if map_get 0 (reg_byInstance a) key <=? 1 then a <| reg_byInstance ::= delete key |>
  else a <| reg_byInstance ::= insert key (map_get 0 (reg_byInstance a) key -! 1) |>.

Definition countInstance (key : string) (a : activeRegistry) : activeRegistry :=
  if String.eqb key "" then a
  else a <| reg_byInstance ::= insert key (map_get 0 (reg_byInstance a) key +! 1) |>.

Definition Add (req : ActiveRequest) (a : option activeRegistry) : option activeRegistry :=
  match a with
  | None => None
  | Some a =>
      let a := match reg_items a !! ar_ID req with
               | Some prev => uncountInstance (ar_InstanceKey prev) a
               | None => a
               end in
      let a := a <| reg_items ::= insert (ar_ID req) req |> in
      Some (countInstance (ar_InstanceKey req) a)
  end.

(** The critical section of [Remove], with the server whose slot it frees. *)
Definition removeRequest (now : time) (id : string) (a : activeRegistry)
  : string * activeRegistry :=
  match reg_items a !! id with
  | None => ("", a <| reg_items ::= delete id |>)
  | Some req =>
      let a := uncountInstance (ar_InstanceKey req) a in
      let a := if String.eqb (ar_ServerID req) "" then a
               else a <| reg_lastCompleted ::= insert (ar_ServerID req) now |> in
      (ar_ServerID req, a <| reg_items ::= delete id |>)
  end.

(** [Remove]: the registry first, then the queue it was given. *)
Definition Remove (now : time) (id : string) (a : option activeRegistry) (w : qworld)
  : option activeRegistry * qworld :=
  match a with
  | None => (None, w)
  | Some a => let '(freedServer, a) := removeRequest now id a in (Some a, release freedServer w)
  end.

Definition requestsWhere (p : ActiveRequest -> bool) (a : activeRegistry) : Z :=
  Z.of_nat (length (List.filter p (map_to_list (reg_items a)).*2)).

Definition CountByServerName (name : string) (a : option activeRegistry) : Z :=
  match a with
  | None => 0
  | Some a => requestsWhere (fun req => String.eqb (ar_ServerName req) name) a
  end.

Definition ServerActivity (serverID : string) (a : option activeRegistry) : Z * time :=
  match a with
  | None => (0, time_zero)
  | Some a => (requestsWhere (fun req => String.eqb (ar_ServerID req) serverID) a,
               map_get time_zero (reg_lastCompleted a) serverID)
  end.

Definition InstanceActivity (key : string) (a : option activeRegistry) : Z :=
  match a with
  | None => 0
  | Some a => if String.eqb key "" then 0 else map_get 0 (reg_byInstance a) key
  end.

(** ** The counts agree with the requests *)

(** How many requests occupy the instance, by scanning them. *)
Definition occupied (key : string) (m : gmap string ActiveRequest) : nat :=
  size (filter (fun e => ar_InstanceKey e.2 = key) m).

Definition counted (a : activeRegistry) : Prop :=
  forall key, key <> "" ->
    reg_byInstance a !! key =
      if decide (occupied key (reg_items a) = 0%nat) then None
      else Some (Z.of_nat (occupied key (reg_items a))).

Lemma occupied_insert key id req m :
  m !! id = None ->
  occupied key (<[id := req]> m)
  = (if decide (ar_InstanceKey req = key) then S (occupied key m) else occupied key m).
Proof.
  intros Hid. unfold occupied. case_decide as Hk.
  - rewrite map_filter_insert_True by done. apply map_size_insert_None.
    apply map_lookup_filter_None. by left.
  - rewrite map_filter_insert_False by done. by rewrite delete_id.
Qed.

Lemma occupied_delete key id req m :
  m !! id = Some req ->
  occupied key m
  = (if decide (ar_InstanceKey req = key) then S (occupied key (delete id m)) else occupied key (delete id m)).
Proof.
  intros Hid. rewrite <- (occupied_insert key id req (delete id m)) by apply lookup_delete_eq.
  by rewrite insert_delete_id.
Qed.

Lemma size_delete_le id (m : gmap string ActiveRequest) : (size (delete id m) <= size m)%nat.
Proof. rewrite <- !size_dom. apply subseteq_size. set_solver. Qed.

Lemma size_insert_le id req (m : gmap string ActiveRequest) : (size (<[id := req]> m) <= S (size m))%nat.
Proof. rewrite <- !size_dom, dom_insert_L, size_union_alt, size_singleton. apply le_n_S, subseteq_size. set_solver. Qed.

Lemma occupied_size key m : (occupied key m <= size m)%nat.
Proof. unfold occupied. rewrite <- !size_dom. apply subseteq_size, dom_filter_subseteq. Qed.

Lemma occupied_scan key a :
  requestsWhere (fun req => String.eqb (ar_InstanceKey req) key) a = Z.of_nat (occupied key (reg_items a)).
Proof.
  unfold requestsWhere. f_equal. induction (reg_items a) as [|id req m Hid IH] using map_ind.
  - by rewrite map_to_list_empty.
  - rewrite map_to_list_insert, occupied_insert by done. csimpl.
    destruct (String.eqb_spec (ar_InstanceKey req) key); case_decide; try done. simpl. by rewrite IH.
Qed.

(** The counts [m] stand for the numbers [f]. *)
Definition counts (f : string -> nat) (m : gmap string Z) : Prop :=
  forall key, key <> "" -> m !! key = if decide (f key = 0%nat) then None else Some (Z.of_nat (f key)).

Lemma counts_get f m key : counts f m -> key <> "" -> map_get 0 m key = Z.of_nat (f key).
Proof. intros HC Hk. unfold map_get. rewrite (HC _ Hk). case_decide as E; [by rewrite E|done]. Qed.

Lemma counts_dec f m key n :
  counts f m -> key <> "" -> f key = S n -> Z.of_nat (S n) <= int64_max ->
  counts (fun k => if decide (k = key) then n else f k)
    (if map_get 0 m key <=? 1 then delete key m else <[key := map_get 0 m key -! 1]> m).
Proof.
  intros HC Hk Hf Hb k Hk'. rewrite (counts_get f) by done. rewrite Hf.
  destruct (decide (k = key)) as [->|Hne].
  - destruct (Z.leb_spec (Z.of_nat (S n)) 1).
    + rewrite lookup_delete_eq. by rewrite decide_True by lia.
    + rewrite lookup_insert_eq, decide_False by lia. f_equal. rewrite int64_id; [lia|].
      unfold in_int64, int64_min, int64_max in *. lia.
  - rewrite <- (HC _ Hk'). case_match; [by rewrite lookup_delete_ne|by rewrite lookup_insert_ne].
Qed.

Lemma counts_inc f m key :
  counts f m -> key <> "" -> Z.of_nat (f key) < int64_max ->
  counts (fun k => if decide (k = key) then S (f k) else f k) (<[key := map_get 0 m key +! 1]> m).
Proof.
  intros HC Hk Hb k Hk'. destruct (decide (k = key)) as [->|Hne].
  - rewrite lookup_insert_eq, decide_False by lia. f_equal. rewrite (counts_get f) by done.
    rewrite int64_id; [lia|]. unfold in_int64, int64_min, int64_max in *. lia.
  - rewrite lookup_insert_ne by done. apply HC. done.
Qed.

Lemma counts_ext f g m : (forall k, k <> "" -> f k = g k) -> counts f m -> counts g m.
Proof. intros Hfg HC k Hk. rewrite <- (Hfg _ Hk). by apply HC. Qed.

Lemma counted_counts a : counted a <-> counts (fun key => occupied key (reg_items a)) (reg_byInstance a).
Proof. done. Qed.

Lemma uncountInstance_items key a : reg_items (uncountInstance key a) = reg_items a.
Proof. unfold uncountInstance. by repeat case_match. Qed.

(** A request leaves: the counts are those of the others. *)
Lemma counts_uncount id req a :
  counted a -> reg_items a !! id = Some req -> Z.of_nat (size (reg_items a)) <= int64_max ->
  counts (fun key => occupied key (delete id (reg_items a)))
    (reg_byInstance (uncountInstance (ar_InstanceKey req) a)).
Proof.
  intros HC Hid Hb. apply counted_counts in HC. unfold uncountInstance.
  pose proof (fun key => occupied_delete key id req _ Hid) as Hd.
  destruct (String.eqb_spec (ar_InstanceKey req) "") as [E|Hne].
  { eapply counts_ext, HC. intros k Hk. cbv beta. rewrite (Hd k), decide_False; [done|congruence]. }
  set (n := occupied (ar_InstanceKey req) (delete id (reg_items a))).
  assert (HS : occupied (ar_InstanceKey req) (reg_items a) = S n) by (rewrite Hd; by rewrite decide_True).
  pose proof (occupied_size (ar_InstanceKey req) (reg_items a)).
  eapply (counts_ext (fun k => if decide (k = ar_InstanceKey req) then n else occupied k (reg_items a))).
  { intros k _. case_decide as E; [by rewrite E|]. rewrite (Hd k), decide_False; [done|congruence]. }
  pose proof (counts_dec _ _ _ _ HC Hne HS ltac:(lia)) as HD. by case_match.
Qed.

(** A request arrives under an id that is free. *)
Lemma counted_count req a :
  counts (fun key => occupied key (reg_items a)) (reg_byInstance a) -> reg_items a !! ar_ID req = None ->
  Z.of_nat (size (reg_items a)) < int64_max ->
  counted (countInstance (ar_InstanceKey req) (a <| reg_items ::= insert (ar_ID req) req |>)).
Proof.
  intros HC Hid Hb. apply counted_counts. unfold countInstance.
  pose proof (fun key => occupied_insert key (ar_ID req) req _ Hid) as Hi.
  destruct (String.eqb_spec (ar_InstanceKey req) "") as [E|Hne]; simpl.
  { eapply counts_ext, HC. intros k Hk. cbv beta. rewrite Hi, decide_False; [done|congruence]. }
  pose proof (occupied_size (ar_InstanceKey req) (reg_items a)).
  eapply counts_ext, (counts_inc _ _ _ HC Hne); [|lia]. intros k _. simpl. rewrite Hi.
  destruct (decide (k = ar_InstanceKey req)) as [->|Hk]; [by rewrite decide_True|by rewrite decide_False].
Qed.

Lemma counted_Add req a a' :
  Add req (Some a) = Some a' -> counted a -> Z.of_nat (size (reg_items a)) < int64_max -> counted a'.
Proof.
  intros [= <-] HC Hb. destruct (reg_items a !! ar_ID req) as [prev|] eqn:E.
  - pose proof (counts_uncount _ _ _ HC E ltac:(lia)) as HU.
    pose proof (uncountInstance_items (ar_InstanceKey prev) a) as HI.
    set (a1 := uncountInstance (ar_InstanceKey prev) a) in *.
    replace (a1 <| reg_items ::= insert (ar_ID req) req |>)
      with ((a1 <| reg_items := delete (ar_ID req) (reg_items a) |>) <| reg_items ::= insert (ar_ID req) req |>).
    + apply counted_count; simpl; [done|apply lookup_delete_eq|].
      pose proof (size_delete_le (ar_ID req) (reg_items a)). lia.
    + unfold update. destruct a1. simpl in *. by rewrite insert_delete_eq, HI.
  - by apply counted_count.
Qed.

Lemma counted_removeRequest now id a :
  counted a -> Z.of_nat (size (reg_items a)) <= int64_max -> counted (removeRequest now id a).2.
Proof.
  intros HC Hb. unfold removeRequest. destruct (reg_items a !! id) as [req|] eqn:E.
  - pose proof (counts_uncount _ _ _ HC E Hb) as HU.
    pose proof (uncountInstance_items (ar_InstanceKey req) a) as HI.
    apply counted_counts. case_match; simpl; by rewrite HI.
  - apply counted_counts. simpl. by rewrite delete_id.
Qed.

(** ** Histories *)

Inductive operation :=
| OpAdd (req : ActiveRequest)
| OpRemove (now : time) (id : string).

Definition apply (st : option activeRegistry * qworld) (op : operation)
  : option activeRegistry * qworld :=
  match op with
  | OpAdd req => (Add req st.1, st.2)
  | OpRemove now id => Remove now id st.1 st.2
  end.

Definition history (ops : list operation) (w : qworld) : option activeRegistry * qworld :=
  foldl apply (Some newActiveRegistry, w) ops.

Lemma size_Add req a a' : Add req (Some a) = Some a' -> (size (reg_items a') <= S (size (reg_items a)))%nat.
Proof.
  intros [= <-].
  assert (HE : forall key a0, reg_items (countInstance key a0) = reg_items a0)
    by (intros; unfold countInstance; by case_match).
  rewrite HE. simpl. assert (HU : reg_items (match reg_items a !! ar_ID req with
    | Some prev => uncountInstance (ar_InstanceKey prev) a | None => a end) = reg_items a)
    by (case_match; [apply uncountInstance_items|done]).
  rewrite HU. apply size_insert_le.
Qed.

Lemma size_removeRequest now id a : (size (reg_items (removeRequest now id a).2) <= size (reg_items a))%nat.
Proof.
  unfold removeRequest. destruct (reg_items a !! id) as [req|] eqn:E; simpl.
  - assert (HI : forall a1, reg_items a1 = reg_items a -> (size (delete id (reg_items a1)) <= size (reg_items a))%nat).
    { intros a1 ->. apply size_delete_le. }
    apply HI. case_match; simpl; apply uncountInstance_items.
  - apply size_delete_le.
Qed.

Lemma history_counted ops w :
  Z.of_nat (length ops) < int64_max ->
  exists a, (history ops w).1 = Some a /\ counted a /\ (size (reg_items a) <= length ops)%nat.
Proof.
  unfold history. induction ops as [|op ops IH] using rev_ind; intros Hb; [by exists newActiveRegistry|].
  rewrite length_app in Hb |- *. simpl in Hb |- *. destruct IH as (a & Ea & HC & Hs); [lia|].
  rewrite foldl_app. simpl. destruct (foldl apply _ ops) as [oa w1]. simpl in Ea. subst oa.
  destruct op as [req|now id]; simpl.
  - eexists. split; [reflexivity|]. split; [by eapply counted_Add; [reflexivity|done|lia]|].
    pose proof (size_Add req a _ eq_refl). lia.
  - pose proof (counted_removeRequest now id a HC ltac:(lia)) as HR.
    pose proof (size_removeRequest now id a) as HZ. destruct (removeRequest now id a) as [freed a'].
    exists a'. split_and!; [done|exact HR|simpl in HZ; lia].
Qed.

(** The per-instance count is exact: after any history of starts and ends of
    requests, restarts of an id included, the number looked up for an instance is the
    number of running requests that occupy it, as a scan would count them. *)
Theorem InstanceActivity_exact ops w key :
  Z.of_nat (length ops) < int64_max -> key <> "" ->
  exists a, (history ops w).1 = Some a /\
    InstanceActivity key (Some a) = requestsWhere (fun req => String.eqb (ar_InstanceKey req) key) a.
Proof.
  intros Hb Hk. destruct (history_counted ops w Hb) as (a & Ha & HC & _). exists a. split; [done|].
  unfold InstanceActivity. rewrite (proj2 (String.eqb_neq _ _) Hk), occupied_scan.
  by apply (counts_get _ _ _ (proj1 (counted_counts a) HC)).
Qed.

(** The end of a request hands its slot on: removing a running request of a server
    signals the front parked call that can use the server, which was not signalled before,
    and takes it out of the queue; with no such call, an unknown id, or a request on no
    server, nobody is signalled. *)
Theorem Remove_hands_on maxDepth es w q now id a :
  qexec (newWorld (Some (newAdmissionQueue maxDepth))) es = Some w -> qw_queue w = Some q ->
  let server := match reg_items a !! id with Some req => ar_ServerID req | None => "" end in
  let w' := (Remove now id (Some a) w).2 in
  (server = "" \/ watchers server q = [] -> w' = w) /\
  (forall c rest, server <> "" -> watchers server q = c :: rest ->
     qw_chans w !! c = Some false /\ qw_chans w' !! c = Some true /\
     exists q', qw_queue w' = Some q' /\ watchers server q' = rest).
Proof.
  intros E Hq server w'. pose proof (QInv_exec _ _ _ E (QInv_newWorld maxDepth)) as HI.
  assert (Hw : w' = release server w).
  { subst w' server. unfold Remove, removeRequest. by destruct (reg_items a !! id). }
  rewrite Hw. pose proof (release_one server w q HI Hq) as H1. split.
  - intros Hn. destruct (decide (server = "")) as [->|Hs]; [unfold release; by rewrite Hq|].
    destruct Hn as [?|Hn]; [done|]. rewrite Hn in H1. by apply H1.
  - intros c rest Hs Hr. rewrite Hr in H1. destruct (H1 Hs) as (Hc & l & -> & Hl & _).
    split_and!; [done|apply lookup_insert_eq|]. eexists. split; [reflexivity|done].
Qed.

(** ** A concrete history *)

Definition sampleCalls : list qevent :=
  [WaitForSlot ["s1"; ""] 0; WaitForSlot ["s2"; "s1"] 1000; WaitForSlot ["s2"] 0; RecheckDue 2].

Definition sampleRequest (id server : string) : ActiveRequest :=
  mkActiveRequest id server server (server +:+ "#0").

Definition sampleOps : list operation :=
  [OpAdd (sampleRequest "r1" "s1"); OpAdd (sampleRequest "r2" "s2"); OpAdd (sampleRequest "r3" "s1");
   OpAdd (sampleRequest "r1" "s2"); OpRemove 5 "r2"].

Definition sampleWorld : qworld :=
  default (newWorld None) (qexec (newWorld (Some (newAdmissionQueue 0))) sampleCalls).

Definition sampleRegistry : activeRegistry := default newActiveRegistry (history sampleOps sampleWorld).1.

Lemma InstanceActivity_exact_witness :
  exists a, (history sampleOps sampleWorld).1 = Some a /\
    InstanceActivity "s2#0" (Some a) = requestsWhere (fun req => String.eqb (ar_InstanceKey req) "s2#0") a.
Proof. apply (InstanceActivity_exact sampleOps sampleWorld "s2#0"); vm_compute; congruence. Defined.

Lemma Remove_hands_on_witness :
  qw_chans sampleWorld !! 0%nat = Some false /\
  qw_chans (Remove 7 "r3" (Some sampleRegistry) sampleWorld).2 !! 0%nat = Some true.
Proof.
  assert (Hq : exists q, qw_queue sampleWorld = Some q) by (vm_compute; by eexists). destruct Hq as [q Hq].
  destruct (Remove_hands_on 0 sampleCalls sampleWorld q 7 "r3" sampleRegistry) as [_ HR];
    [vm_compute; reflexivity|exact Hq|]. vm_compute in Hq. injection Hq as <-.
  destruct (HR 0%nat [1%nat]) as (H0 & H1 & _); [by vm_compute|vm_compute; reflexivity|by split].
Defined.
