(* ===== verification/Scorer.v ===== *)
(** * Route scores

    Models [gateway/backend/internal/routing/scorer.go]: the score of a candidate
    ([Score]), its speed terms, and the choice of the best route ([Select]).

    A score starts at 1000, moves with priority and weight, and loses points for load,
    queue, latency, errors and stale telemetry; what is left must be positive, and only
    then the bounded speed terms are added.  [Route] carries what [Score] reads and the
    fields that name the route; the endpoint URL, which nothing here reads, is left
    out. *)

From Stdlib Require Import ZArith Lia SpecFloat.
From stdpp Require Import base tactics option list numbers strings sets.
From S2P Require Import Prelude Float64 RoutingTypes.
Local Open Scope Z_scope.
Local Open Scope go_scope.

(** ** Constants *)

Definition baseScore : float64 := f64_of_int 1000.
Definition priorityMultiplier : float64 := f64_of_int 20.
Definition activeRequestsPenalty : float64 := f64_of_int 25.
Definition queueDepthPenalty : float64 := f64_of_int 20.
Definition latencyMSPenalty : float64 := f64_ratio 1 5.
Definition errorRatePenalty : float64 := f64_of_int 200.
Definition staleTelemetryPenalty : float64 := f64_of_int 500.
Definition staleTelemetryDuration : duration := 120 * 1000000000.

Definition genThroughputWeight : float64 := f64_ratio 1 4.
Definition genThroughputBonusCap : float64 := f64_of_int 50.
Definition promptThroughputWeight : float64 := f64_ratio 1 100.
Definition promptThroughputBonusCap : float64 := f64_of_int 20.
Definition audioRateWeight : float64 := f64_of_int 10.
Definition audioRateBonusCap : float64 := f64_of_int 50.

(** ** Routes *)

Record Route := mkRoute {
  rt_ID : string;
  rt_Model : string;
  rt_Provider : string;
  rt_Priority : Z;
  rt_Weight : Z;
  rt_Healthy : bool;
  rt_ActiveRequests : Z;
  rt_QueueDepth : Z;
  rt_LatencyMS : Z;
  rt_ErrorRate : float64;
  rt_TelemetryAt : time;
  rt_GenTokensPerSecond : float64;
  rt_PromptTokensPerSecond : float64;
  rt_RecommendedConcurrency : Z;
  rt_MaxConcurrency : Z;
  rt_GenTokensPerSecondAtCapacity : float64;
  rt_CurrentLoad : Z;
  rt_AudioRateX : float64;
  rt_Audio : bool
}.

Definition scoringRoute (c : MappingCandidate) (tel : ServerTelemetry) (hasTel : bool) (k : Z)
    (model : string) (audio : bool) : Route := {|
  rt_ID := mm_ID (mc_Mapping c);
  rt_Model := model;
  rt_Provider := app_Type (mc_Application c);
  rt_Priority := app_Priority (mc_Application c);
  rt_Weight := app_Weight (mc_Application c);
  rt_Healthy := true;
  rt_ActiveRequests := tel_ActiveRequests tel;
  rt_QueueDepth := tel_QueueDepth tel;
  rt_LatencyMS := tel_LatencyMS tel;
  rt_ErrorRate := tel_ErrorRate tel;
  rt_TelemetryAt := if hasTel then tel_ReportedAt tel else time_zero;
  rt_GenTokensPerSecond := mm_GenTokensPerSecond (mc_Mapping c);
  rt_PromptTokensPerSecond := mm_PromptTokensPerSecond (mc_Mapping c);
  rt_RecommendedConcurrency := mm_RecommendedConcurrency (mc_Mapping c);
  rt_MaxConcurrency := mm_MaxConcurrency (mc_Mapping c);
  rt_GenTokensPerSecondAtCapacity := mm_GenTokensPerSecondAtCapacity (mc_Mapping c);
  rt_CurrentLoad := k;
  rt_AudioRateX := mm_AudioRateX (mc_Mapping c);
  rt_Audio := audio
|}.

(** ** The score *)

Definition validTelemetry (route : Route) : bool :=
  if (rt_ActiveRequests route <? 0) || (rt_QueueDepth route <? 0) || (rt_LatencyMS route <? 0) then false
  else if math_IsNaN (rt_ErrorRate route) || math_IsInf (rt_ErrorRate route) then false
  else if f64_ltb (rt_ErrorRate route) f64_zero || f64_ltb (f64_of_int 1) (rt_ErrorRate route) then false
  else true.

Definition clampBonus (v weight capValue : float64) : float64 :=
  if math_IsNaN v || f64_leb v f64_zero then f64_zero
  else
    let b := f64_mul v weight in
    if f64_ltb capValue b then capValue else b.

Definition effectiveGenTPS (route : Route) : float64 :=
  let g1 := rt_GenTokensPerSecond route in
  if f64_leb g1 f64_zero then g1
  else
    let gCap := rt_GenTokensPerSecondAtCapacity route in
    let rec := rt_RecommendedConcurrency route in
    if f64_leb gCap f64_zero || (rec <=? 1) || (rt_CurrentLoad route <=? 1) then g1
    else
      let slope := f64_div (f64_sub gCap g1) (f64_of_int (rec -! 1)) in
      let eff := f64_add g1 (f64_mul slope (f64_of_int (rt_CurrentLoad route -! 1))) in
      if f64_ltb eff f64_zero then f64_zero else eff.

Definition audioTiebreak (rateX : float64) : float64 :=
  clampBonus rateX audioRateWeight audioRateBonusCap.

Definition metricTiebreak (route : Route) : float64 :=
  let bonus := clampBonus (effectiveGenTPS route) genThroughputWeight genThroughputBonusCap in
  let bonus := f64_add bonus
    (clampBonus (rt_PromptTokensPerSecond route) promptThroughputWeight promptThroughputBonusCap) in
  if rt_Audio route then f64_add bonus (audioTiebreak (rt_AudioRateX route)) else bonus.

(** The health and load part of [Score], up to the viability gate. *)
Definition healthScore (route : Route) (now : time) : float64 :=
  let score := baseScore in
  let score := f64_add score (f64_mul (f64_of_int (rt_Priority route)) priorityMultiplier) in
  let score := f64_add score (f64_of_int (rt_Weight route)) in
  let score := f64_sub score (f64_mul (f64_of_int (rt_ActiveRequests route)) activeRequestsPenalty) in
  let score := f64_sub score (f64_mul (f64_of_int (rt_QueueDepth route)) queueDepthPenalty) in
  let score := f64_sub score (f64_mul (f64_of_int (rt_LatencyMS route)) latencyMSPenalty) in
  let score := f64_sub score (f64_mul (rt_ErrorRate route) errorRatePenalty) in
  if time_IsZero (rt_TelemetryAt route)
     || (staleTelemetryDuration <? time_Sub now (rt_TelemetryAt route))
  then f64_sub score staleTelemetryPenalty else score.

(** [None] is [ok = false]. *)
Definition Score (route : Route) (model : string) (now : time) : option float64 :=
  if negb (String.eqb (rt_Model route) model) || negb (rt_Healthy route) then None
  else if negb (validTelemetry route) then None
  else
    let score := healthScore route now in
    if f64_leb score f64_zero then None else Some (f64_add score (metricTiebreak route)).

(** The loop of [Select] and of [argmaxByScore]: the first element with the highest
    score so far. *)
Definition better {A} (best : option (A * float64)) (x : A) (score : option float64)
  : option (A * float64) :=
  match score with
  | None => best
  | Some score =>
      match best with
      | None => Some (x, score)
      | Some (_, bestScore) => if f64_ltb bestScore score then Some (x, score) else best
      end
  end.

Definition Select (routes : list Route) (model : string) (now : time) : option (Route * float64) :=
  foldl (fun best route => better best route (Score route model now)) None routes.

(** ** The speed terms *)

Lemma f64_mul_rounded v mw ew :
  math_IsNaN v = false -> f64_leb v f64_zero = false ->
  rounded false (f64_mul v (S754_finite false mw ew)).
Proof.
  destruct v as [|[]| |[] m e]; try done. intros _ _. by apply binary_round_aux_rounded.
Qed.

(** A term is at most its cap, whatever was measured. *)
Lemma clampBonus_points v mw ew mc ec c :
  2 ^ 52 <= Zpos mc < 2 ^ 53 -> -1074 <= ec -> Zpos mc * 2 ^ (ec + 1074) <= c * 2 ^ 1074 ->
  points c (clampBonus v (S754_finite false mw ew) (S754_finite false mc ec)).
Proof.
  intros Hm He Hv. unfold clampBonus.
  destruct (math_IsNaN v) eqn:E1; [done|]. destruct (f64_leb v f64_zero) eqn:E2; [done|]. cbn [orb].
  pose proof (f64_mul_rounded v mw ew E1 E2) as Hb. set (b := f64_mul v _) in *. clearbody b.
  destruct (f64_ltb _ b) eqn:E3; [simpl; lia|]. destruct b as [s|s| |s m e]; try done.
  - simpl in Hb. by subst s.
  - destruct Hb as (-> & He' & Hm'). apply not_true_iff_false in E3. rewrite f64_ltb_key in E3 by done.
    unfold key_lt in E3. simpl in E3. split_and!; [done..|].
    etrans; [|exact Hv]. destruct (Z.eq_dec e ec) as [->|Hne].
    { apply Z.mul_le_mono_nonneg_r; lia. }
    transitivity (2 ^ 53 * 2 ^ (e + 1074)); [apply Z.mul_le_mono_nonneg_r; lia|].
    transitivity (2 ^ 52 * 2 ^ (ec + 1074)); [|apply Z.mul_le_mono_nonneg_r; lia].
    rewrite <- !Z.pow_add_r by lia. apply Z.pow_le_mono_r; lia.
Qed.

Lemma metricTiebreak_points route :
  points (if rt_Audio route then 120 else 70) (metricTiebreak route).
Proof.
  unfold metricTiebreak. set (g := clampBonus (effectiveGenTPS route) _ _).
  assert (Hg : points 50 g) by (apply clampBonus_points; vm_compute; intuition congruence).
  assert (Hp : points 20 (clampBonus (rt_PromptTokensPerSecond route) promptThroughputWeight promptThroughputBonusCap))
    by (apply clampBonus_points; vm_compute; intuition congruence).
  assert (Ha : points 50 (audioTiebreak (rt_AudioRateX route)))
    by (apply clampBonus_points; vm_compute; intuition congruence).
  pose proof (f64_add_points 50 20 _ _ ltac:(lia) ltac:(lia) ltac:(lia) Hg Hp) as H1.
  destruct (rt_Audio route); [|done]. by apply (f64_add_points 70 50).
Qed.

(** Everything a score reads besides the speed terms. *)
Definition sameHealth (route route' : Route) : Prop :=
  rt_Model route = rt_Model route' /\ rt_Healthy route = rt_Healthy route' /\
  rt_Priority route = rt_Priority route' /\ rt_Weight route = rt_Weight route' /\
  rt_ActiveRequests route = rt_ActiveRequests route' /\ rt_QueueDepth route = rt_QueueDepth route' /\
  rt_LatencyMS route = rt_LatencyMS route' /\ rt_ErrorRate route = rt_ErrorRate route' /\
  rt_TelemetryAt route = rt_TelemetryAt route'.

(** The speed terms refine a ranking and cannot dominate it: whatever a mapping's
    measurements are -- NaN, infinite, negative or absurdly large included -- they add a
    nonnegative number of at most 70 points, 120 for a speech or transcription request:
    less than the 200 points of a full error rate or the 500 of stale telemetry.  And they
    decide nothing else: no measurement makes a route viable or unviable. *)
Theorem metricTiebreak_bounded route model now :
  points (if rt_Audio route then 120 else 70) (metricTiebreak route) /\
  (forall s, Score route model now = Some s -> s = f64_add (healthScore route now) (metricTiebreak route)) /\
  forall route', sameHealth route route' -> (Score route model now = None <-> Score route' model now = None).
Proof.
  split_and!; [apply metricTiebreak_points| |].
  - intros s. unfold Score. repeat case_match; try done. by intros [= <-].
  - intros route' (E1 & E2 & E3 & E4 & E5 & E6 & E7 & E8 & E9).
    unfold Score, validTelemetry, healthScore. rewrite E1, E2, E3, E4, E5, E6, E7, E8, E9.
    repeat case_match; done.
Qed.

(** ** Scores are numbers *)

(** What the machine holds: 64-bit counts and a binary64 error rate. *)
Record wfRoute (route : Route) : Prop := {
  wr_priority : in_int64 (rt_Priority route);
  wr_weight : in_int64 (rt_Weight route);
  wr_active : in_int64 (rt_ActiveRequests route);
  wr_queue : in_int64 (rt_QueueDepth route);
  wr_latency : in_int64 (rt_LatencyMS route);
  wr_rate : f64_valid (rt_ErrorRate route) = true
}.

Lemma validTelemetry_rate route :
  f64_valid (rt_ErrorRate route) = true -> validTelemetry route = true -> small 1 (rt_ErrorRate route).
Proof.
  intros Hv H. unfold validTelemetry in H. repeat case_match; try done. bool_hyps.
  destruct (rt_ErrorRate route) as [|?| |s m e]; try done. destruct s; [done|].
  match goal with H : f64_ltb (f64_of_int 1) _ = false |- _ => rename H into Hle end.
  apply not_true_iff_false in Hle. rewrite f64_ltb_key in Hle by done. unfold key_lt in Hle.
  change (f64_key (f64_of_int 1)) with (1, (-52, 2 ^ 52)) in Hle. simpl in Hle, Hv |- *.
  unfold bounded, canonical_mantissa in Hv. bool_hyps. unfold fexp, emin in *. lia.
Qed.

Lemma healthScore_small route now : wfRoute route -> validTelemetry route = true -> small 100 (healthScore route now).
Proof.
  intros [H1 H2 H3 H4 H5 H6] Hv. pose proof (validTelemetry_rate route H6 Hv) as Hr.
  assert (Hp : forall n x, in_int64 n -> small 6 x -> small 72 (f64_mul (f64_of_int n) x)).
  { intros n x Hn Hx. apply (f64_mul_small 65 6); [by apply f64_of_int_small|done|lia]. }
  assert (He : small 72 (f64_mul (rt_ErrorRate route) errorRatePenalty)).
  { eapply small_le; [apply (f64_mul_small 1 8); [done|vm_compute; congruence|lia]|lia]. }
  assert (Hw : small 72 (f64_of_int (rt_Weight route)))
    by (eapply small_le; [by apply f64_of_int_small|lia]).
  assert (Hadd : forall k x y, small k x -> small 72 y -> 72 <= k <= 90 -> small (k + 2) (f64_add x y)).
  { intros k x y Hx Hy Hk. apply f64_add_small; [done|apply (small_le 72); [done|lia]|lia]. }
  assert (Hsub : forall k x y, small k x -> small 72 y -> 72 <= k <= 90 -> small (k + 2) (f64_sub x y)).
  { intros k x y Hx Hy Hk. apply f64_sub_small; [done|apply (small_le 72); [done|lia]|lia]. }
  pose proof (Hp _ priorityMultiplier H1 ltac:(vm_compute; congruence)) as T1.
  pose proof (Hp _ activeRequestsPenalty H3 ltac:(vm_compute; congruence)) as T3.
  pose proof (Hp _ queueDepthPenalty H4 ltac:(vm_compute; congruence)) as T4.
  pose proof (Hp _ latencyMSPenalty H5 ltac:(vm_compute; congruence)) as T5.
  assert (T0 : small 72 baseScore) by (vm_compute; congruence).
  unfold healthScore. cbv zeta.
  pose proof (Hadd 72 _ _ T0 T1 ltac:(lia)) as A1. pose proof (Hadd 74 _ _ A1 Hw ltac:(lia)) as A2.
  pose proof (Hsub 76 _ _ A2 T3 ltac:(lia)) as A3. pose proof (Hsub 78 _ _ A3 T4 ltac:(lia)) as A4.
  pose proof (Hsub 80 _ _ A4 T5 ltac:(lia)) as A5. pose proof (Hsub 82 _ _ A5 He ltac:(lia)) as A6.
  destruct (_ || _); [|apply (small_le 84); [done|lia]].
  eapply small_le; [apply (Hsub 84 _ _ A6); [vm_compute; congruence|lia]|lia].
Qed.

(** A score is a finite number, so that comparing scores orders the routes. *)
Lemma Score_number route model now s : wfRoute route -> Score route model now = Some s -> f64_number s.
Proof.
  intros Hw H. unfold Score in H. repeat case_match; try done. bool_hyps. injection H as <-.
  apply (small_number 102), (f64_add_small 100); [by apply healthScore_small| |lia].
  eapply small_le; [eapply points_small; [|apply metricTiebreak_points]|]; [destruct (rt_Audio route)|]; lia.
Qed.

(** An unmeasured mapping scores by health and load alone. *)
Lemma Score_unmeasured route model now :
  rt_GenTokensPerSecond route = f64_zero -> rt_PromptTokensPerSecond route = f64_zero ->
  rt_AudioRateX route = f64_zero ->
  Score route model now =
    if negb (String.eqb (rt_Model route) model) || negb (rt_Healthy route) || negb (validTelemetry route)
       || f64_leb (healthScore route now) f64_zero
    then None else Some (healthScore route now).
Proof.
  intros Hg Hp Ha. unfold Score. destruct (_ || _); [done|]. destruct (validTelemetry route); [|done]. simpl.
  destruct (f64_leb _ _) eqn:E; [done|]. f_equal.
  assert (metricTiebreak route = f64_zero) as ->.
  { unfold metricTiebreak, effectiveGenTPS, audioTiebreak. rewrite Hg, Hp, Ha. simpl. by destruct (rt_Audio route). }
  by destruct (healthScore route now) as [| | |].
Qed.

(** ** The best of a list *)

Section best.
Context {A : Type} (score : A -> option float64).

Definition bestOf (l : list A) : option (A * float64) :=
  foldl (fun best x => better best x (score x)) None l.

(** [x] is the first element of [l] with the highest score. *)
Definition firstBest (l : list A) (x : A) (s : float64) : Prop :=
  score x = Some s /\
  exists l1 l2, l = l1 ++ x :: l2 /\
    (forall y t, y ∈ l1 -> score y = Some t -> f64_ltb t s = true) /\
    (forall y t, y ∈ l2 -> score y = Some t -> f64_ltb s t = false).

Definition numbered (l : list A) : Prop := forall x s, x ∈ l -> score x = Some s -> f64_number s.

Lemma firstBest_le l x s y t :
  numbered l -> firstBest l x s -> y ∈ l -> score y = Some t -> f64_ltb s t = false.
Proof.
  intros Hn (Hs & l1 & l2 & -> & H1 & H2) Hy Ht.
  assert (Hx : f64_number s) by (apply (Hn x); [set_solver|done]).
  apply elem_of_app in Hy as [Hy|[->|Hy]%elem_of_cons]; [|simplify_eq; apply f64_ltb_irrefl|by eapply H2].
  pose proof (H1 _ _ Hy Ht) as Hlt. destruct (f64_ltb s t) eqn:E; [|done].
  assert (f64_number t) by (apply (Hn y); [set_solver|done]).
  rewrite f64_ltb_key in E, Hlt by done. unfold key_lt in *. lia.
Qed.

Lemma bestOf_spec l :
  numbered l ->
  match bestOf l with
  | None => forall x, x ∈ l -> score x = None
  | Some (x, s) => firstBest l x s
  end.
Proof.
  unfold bestOf. induction l as [|y l IH] using rev_ind; [by intros _ ? ?%elem_of_nil|]. intros Hn.
  assert (Hn' : numbered l) by (intros ? ? ?; apply Hn; set_solver). specialize (IH Hn').
  rewrite foldl_app. simpl. set (best := foldl _ None l) in *. clearbody best.
  destruct (score y) as [t|] eqn:Ey; simpl.
  - destruct best as [[x s]|]; simpl.
    + destruct (f64_ltb s t) eqn:Elt; simpl.
      * split; [done|]. exists l, []. split_and!; [done| |by intros ? ? ?%elem_of_nil].
        intros z u Hz Hu. pose proof (firstBest_le l x s z u Hn' IH Hz Hu) as Hle.
        assert (f64_number u) by (apply (Hn z); [set_solver|done]).
        assert (f64_number t) by (apply (Hn y); [set_solver|done]).
        assert (f64_number s) by (destruct IH as (Hs & ? & ? & -> & _); apply (Hn x); [set_solver|done]).
        apply not_true_iff_false in Hle. rewrite f64_ltb_key in * by done. unfold key_lt in *. lia.
      * destruct IH as (Hs & l1 & l2 & -> & H1 & H2). split; [done|]. exists l1, (l2 ++ [y]).
        rewrite <- app_assoc. split_and!; [done|done|].
        intros z u [Hz| ->%list_elem_of_singleton]%elem_of_app Hu; [by eapply H2|]. by simplify_eq.
    + split; [done|]. exists l, []. split_and!; [done| |by intros ? ? ?%elem_of_nil].
      intros z u Hz Hu. by rewrite (IH z Hz) in Hu.
  - destruct best as [[x s]|]; simpl.
    + destruct IH as (Hs & l1 & l2 & -> & H1 & H2). split; [done|]. exists l1, (l2 ++ [y]).
      rewrite <- app_assoc. split_and!; [done|done|].
      intros z u [Hz| ->%list_elem_of_singleton]%elem_of_app Hu; [by eapply H2|]. by simplify_eq.
    + intros x [Hx| ->%list_elem_of_singleton]%elem_of_app; [by apply IH|done].
Qed.

End best.

(** The choice among routes is the first with the highest score, or none when none is
    viable. *)
Lemma Select_spec routes model now :
  (forall route, route ∈ routes -> wfRoute route) ->
  match Select routes model now with
  | None => forall route, route ∈ routes -> Score route model now = None
  | Some (route, s) => firstBest (fun route => Score route model now) routes route s
  end.
Proof.
  intros Hw. apply (bestOf_spec (fun route => Score route model now)).
  intros route s Hr. by apply Score_number, Hw.
Qed.
