(* ===== verification/Reservation.v ===== *)
(** * Session reservations

    Models [sessionReservation] of [gateway/backend/internal/routing/resolver.go]: which
    sessions were recently served by a server, so that the capacity cap keeps a slot for
    each.  Both methods prune stale entries of the server they are asked about, and run
    under one mutex: a state and two operations on it. *)

From Stdlib Require Import ZArith Lia.
From stdpp Require Import base tactics option list numbers strings gmap.
From S2P Require Import Prelude.
Local Open Scope Z_scope.
Local Open Scope go_scope.

(** ** The tracker *)

Record reservation := mkReservation {
  res_window : duration;
  res_byServer : gmap string (gmap string time)
}.

Global Instance reservation_fields : Fields reservation := fun s =>
  mkReservation (res_window s) (res_byServer s).

(** [None] is the nil tracker. *)
Definition sessionReservation : Type := option reservation.

Definition newSessionReservation (window : duration) : sessionReservation :=
  Some (mkReservation window ∅).

(** An entry is dropped when [now.Sub(seen) >= window]. *)
Definition fresh (window : duration) (now seen : time) : bool := negb (window <=? time_Sub now seen).

Definition pruneStale (window : duration) (now : time) (m : gmap string time) : gmap string time :=
  filter (fun entry => fresh window now entry.2 = true) m.

Definition touch (serverID key : string) (now : time) (s : sessionReservation) : sessionReservation :=
  match s with
  | None => None
  | Some r =>
      if (res_window r <=? 0) || String.eqb serverID "" || String.eqb key "" then s
      else
        let m := map_get ∅ (res_byServer r) serverID in
        let m := <[key := now]> (pruneStale (res_window r) now m) in
        Some (r <| res_byServer ::= <[serverID := m]> |>)
  end.

Definition activeCount (serverID : string) (now : time) (s : sessionReservation)
  : Z * sessionReservation :=
  match s with
  | None => (0, None)
  | Some r =>
      if (res_window r <=? 0) || String.eqb serverID "" then (0, s)
      else match res_byServer r !! serverID with
           | None => (0, s)
           | Some m =>
               let m := pruneStale (res_window r) now m in
               (Z.of_nat (size m),
                Some (r <| res_byServer ::= fun servers =>
                        if bool_decide (m = ∅) then delete serverID servers else <[serverID := m]> servers |>))
           end
  end.

(** ** What is stored *)

Definition entries (s : sessionReservation) (server : string) : gmap string time :=
  match s with None => ∅ | Some r => map_get ∅ (res_byServer r) server end.

Definition window (s : sessionReservation) : duration :=
  match s with None => 0 | Some r => res_window r end.

(** The sessions of a server that still count at [now]. *)
Definition liveSessions (s : sessionReservation) (server : string) (now : time) : gmap string time :=
  pruneStale (window s) now (entries s server).

Lemma pruneStale_lookup w now m key t :
  pruneStale w now m !! key = Some t <-> m !! key = Some t /\ fresh w now t = true.
Proof. unfold pruneStale. by rewrite map_lookup_filter_Some. Qed.

(** Pruning earlier does not change what counts later. *)
Lemma pruneStale_twice w now now' m :
  now <= now' -> pruneStale w now' (pruneStale w now m) = pruneStale w now' m.
Proof.
  intros Hn. apply map_eq. intros key. apply option_eq. intros t. rewrite !pruneStale_lookup.
  split; [naive_solver|]. intros [H1 H2]. split_and!; [done| |done].
  unfold fresh, time_Sub in *. bool_hyps. apply negb_true_iff, Z.leb_gt. lia.
Qed.

Lemma window_touch server key now s : window (touch server key now s) = window s.
Proof. destruct s as [r|]; [|done]. simpl. by destruct (_ || _). Qed.

Lemma window_activeCount server now s : window (activeCount server now s).2 = window s.
Proof.
  destruct s as [r|]; [|done]. simpl. destruct (_ || _); [done|]. by destruct (res_byServer r !! server).
Qed.

Lemma entries_touch server key now s server' :
  entries (touch server key now s) server' =
    if bool_decide (server' = server /\ 0 < window s /\ server <> "" /\ key <> "")
    then <[key := now]> (pruneStale (window s) now (entries s server)) else entries s server'.
Proof.
  destruct s as [r|]; simpl; [|by case_bool_decide; [lia|]].
  destruct (res_window r <=? 0) eqn:E1, (String.eqb_spec server ""), (String.eqb_spec key ""); simpl;
    bool_hyps; try (rewrite bool_decide_eq_false_2 by (intros; naive_solver lia); done).
  unfold map_get. destruct (decide (server' = server)) as [->|Hne].
  - rewrite lookup_insert_eq. rewrite bool_decide_eq_true_2; [done|]. by split_and!.
  - rewrite lookup_insert_ne by done. rewrite bool_decide_eq_false_2; [done|]. naive_solver.
Qed.

Lemma entries_activeCount server now s server' :
  entries (activeCount server now s).2 server' =
    if bool_decide (server' = server /\ 0 < window s /\ server <> "")
    then liveSessions s server now else entries s server'.
Proof.
  unfold liveSessions. destruct s as [r|]; simpl; [|by case_bool_decide; [lia|]].
  destruct (res_window r <=? 0) eqn:E1, (String.eqb_spec server ""); simpl;
    bool_hyps; try (rewrite bool_decide_eq_false_2 by (intros; naive_solver lia); done).
  unfold map_get. destruct (decide (server' = server)) as [->|Hne].
  - rewrite bool_decide_eq_true_2 by done.
    destruct (res_byServer r !! server) as [m|] eqn:Em; simpl.
    + unfold map_get. case_bool_decide as Hm; [by rewrite lookup_delete_eq, Hm|by rewrite lookup_insert_eq].
    + unfold map_get. rewrite Em. simpl. symmetry. apply map_eq. intros key. rewrite lookup_empty.
      apply eq_None_not_Some. intros [t [Ht _]%pruneStale_lookup]. by rewrite lookup_empty in Ht.
  - rewrite bool_decide_eq_false_2 by naive_solver.
    destruct (res_byServer r !! server) as [m|] eqn:Em; simpl; [|done].
    unfold map_get. case_bool_decide; by rewrite ?lookup_delete_ne, ?lookup_insert_ne.
Qed.

Lemma activeCount_live server now s :
  0 < window s -> server <> "" ->
  (activeCount server now s).1 = Z.of_nat (size (liveSessions s server now)).
Proof.
  intros Hw Hs. unfold liveSessions. destruct s as [r|]; simpl in *; [|lia].
  rewrite (proj2 (Z.leb_gt _ _)), (proj2 (String.eqb_neq _ _) Hs) by lia. simpl. unfold map_get.
  destruct (res_byServer r !! server) as [m|]; simpl; [done|].
  by unfold pruneStale; rewrite map_filter_empty, map_size_empty.
Qed.

(** ** Pruning is invisible

    Trackers that count the same sessions at every time from [now] on. *)
Definition agree (now : time) (s1 s2 : sessionReservation) : Prop :=
  window s1 = window s2 /\
  forall server now', now <= now' -> liveSessions s1 server now' = liveSessions s2 server now'.

Global Instance agree_equiv now : Equivalence (agree now).
Proof.
  split.
  - by intros s.
  - intros s1 s2 [Hw H]. split; [done|]. intros. symmetry. by apply H.
  - intros s1 s2 s3 [W1 H1] [W2 H2]. split; [congruence|]. intros. by rewrite H1, H2.
Qed.

Lemma agree_activeCount server now s : agree now (activeCount server now s).2 s.
Proof.
  split; [apply window_activeCount|]. intros server' now' Hn. unfold liveSessions.
  rewrite window_activeCount, entries_activeCount. case_bool_decide as H; [|done].
  destruct H as (-> & _). by apply pruneStale_twice.
Qed.

Global Instance activeCount_Proper server now :
  Proper (agree now ==> eq) (fun s => (activeCount server now s).1).
Proof.
  intros s1 s2 [Hw H]. destruct (decide (0 < window s1 /\ server <> "")) as [[Hp Hs]|Hn].
  - rewrite !activeCount_live by (done || congruence). f_equal. f_equal. by apply H.
  - assert (Hz : forall s, window s = window s1 -> (activeCount server now s).1 = 0).
    { intros [r|] E; [|done]. simpl in *. destruct (Z.leb_spec (res_window r) 0); [done|].
      destruct (String.eqb_spec server ""); [done|]. exfalso. apply Hn. split; [lia|done]. }
    by rewrite !Hz.
Qed.

(** ** Histories *)

Inductive use :=
| Touch (server key : string) (now : time)
| Count (server : string) (now : time).

Definition use_time (u : use) : time := match u with Touch _ _ t | Count _ t => t end.

Definition applyUse (s : sessionReservation) (u : use) : sessionReservation :=
  match u with
  | Touch server key now => touch server key now s
  | Count server now => (activeCount server now s).2
  end.

(** When a session was last served by a server. *)
Definition lastTouch (us : list use) (server key : string) : option time :=
  foldl (fun last u =>
    match u with
    | Touch s k t => if String.eqb s server && String.eqb k key then Some t else last
    | Count _ _ => last
    end) None us.

(** What the tracker holds of a session: its last use, or nothing when that is stale
    at [now]. *)
Definition holds (us : list use) (s : sessionReservation) (now : time) : Prop :=
  forall server key now', now <= now' -> server <> "" -> key <> "" ->
    liveSessions s server now' !! key =
      match lastTouch us server key with
      | Some t => if fresh (window s) now' t then Some t else None
      | None => None
      end.

Lemma liveSessions_no_empty s server now :
  (forall server, entries s server !! "" = None) -> liveSessions s server now !! "" = None.
Proof.
  intros H. apply eq_None_not_Some. intros [t [Ht _]%pruneStale_lookup]. by rewrite H in Ht.
Qed.

Lemma holds_step us s now u :
  0 < window s -> holds us s now -> now <= use_time u -> holds (us ++ [u]) (applyUse s u) (use_time u).
Proof.
  intros Hw HH Hn server key now' Hn' Hs Hk. unfold lastTouch. rewrite foldl_app. fold (lastTouch us server key).
  destruct u as [server0 key0 t|server0 t]; simpl in *.
  - unfold liveSessions. rewrite window_touch, entries_touch.
    destruct (String.eqb_spec server0 server) as [->|Hne]; simpl.
    2: { rewrite bool_decide_eq_false_2 by naive_solver. apply HH; [lia|done..]. }
    destruct (String.eqb_spec key0 key) as [->|Hne]; simpl.
    + rewrite bool_decide_eq_true_2 by done. apply option_eq. intros t'.
      rewrite pruneStale_lookup, lookup_insert_eq. destruct (fresh (window s) now' t) eqn:Ef; split; [by intros [? _]|intros [= <-]; done|intros [[= <-] ?]; congruence|done].
    + case_bool_decide as Hd; [|apply HH; [lia|done..]]. rewrite <- (HH server key now') by (lia || done).
      apply option_eq. intros t'. rewrite pruneStale_lookup, lookup_insert_ne by done.
      rewrite <- pruneStale_lookup, (pruneStale_twice _ t now') by done. by unfold liveSessions.
  - pose proof (agree_activeCount server0 t s) as [Hwin Hag]. rewrite (Hag server now') by lia.
    rewrite Hwin. apply HH; [lia|done..].
Qed.

(** Times do not run backwards. *)
Fixpoint ascending (now : time) (us : list use) : Prop :=
  match us with [] => True | u :: us => now <= use_time u /\ ascending (use_time u) us end.

Lemma history_holds w now us :
  0 < w -> ascending now us ->
  let s := foldl applyUse (newSessionReservation w) us in
  window s = w /\ holds us s (foldl (fun _ => use_time) now us) /\
  (forall server, entries s server !! "" = None) /\ now <= foldl (fun _ => use_time) now us.
Proof.
  intros Hw. induction us as [|u us IH] using rev_ind.
  - intros _. split_and!; [done| |by intros; simpl; unfold map_get; rewrite lookup_empty|simpl; lia].
    intros server key now' _ _ _. unfold liveSessions, pruneStale. simpl. unfold map_get.
    by rewrite lookup_empty; simpl; rewrite map_filter_empty, lookup_empty.
  - intros Ha. assert (Hsplit : ascending now us /\ foldl (fun _ => use_time) now us <= use_time u).
    { clear IH. revert now Ha. induction us as [|v us IH]; intros now; simpl; [naive_solver|].
      intros [H1 H2]. destruct (IH _ H2). naive_solver. }
    destruct Hsplit as [Ha1 Ha2]. destruct (IH Ha1) as (Hwin & HH & He & Hlo). rewrite !foldl_app. simpl.
    set (s := foldl applyUse _ us) in *. clearbody s. split_and!.
    + destruct u; simpl; by rewrite ?window_touch, ?window_activeCount.
    + eapply holds_step; [lia|exact HH|done].
    + intros server. destruct u as [srv key t|srv t]; simpl.
      * rewrite entries_touch. case_bool_decide as Hd; [|done].
        rewrite lookup_insert_ne by naive_solver. apply eq_None_not_Some.
        intros [x [Hx _]%pruneStale_lookup]. by rewrite He in Hx.
      * rewrite entries_activeCount. case_bool_decide; [|done]. by apply liveSessions_no_empty.
    + lia.
Qed.

(** A server's reservation count is exact, whatever was pruned before: after any
    history of uses in order of time, the count at a later time is the number of
    distinct sessions whose last use by that server lies less than the window back. *)
Theorem activeCount_exact w us now server (keys : list string) :
  0 < w -> server <> "" -> ascending time_zero us ->
  foldl (fun _ => use_time) time_zero us <= now -> NoDup keys ->
  (forall key, key ∈ keys <->
     key <> "" /\ exists t, lastTouch us server key = Some t /\ time_Sub now t < w) ->
  (activeCount server now (foldl applyUse (newSessionReservation w) us)).1 = Z.of_nat (length keys).
Proof.
  intros Hw Hs Ha Hn Hnd Hk. destruct (history_holds w _ us Hw Ha) as (Hwin & HH & He & _).
  rewrite activeCount_live by (done || lia). f_equal. rewrite <- (size_dom (D := gset string)).
  rewrite <- (size_list_to_set (C := gset string) keys Hnd). f_equal.
  apply set_eq. intros key. rewrite elem_of_list_to_set, Hk, elem_of_dom.
  destruct (decide (key = "")) as [->|Hne].
  { rewrite (liveSessions_no_empty _ _ _ He). split; [by intros [? ?]|naive_solver]. }
  rewrite (HH server key now Hn Hs Hne), Hwin. unfold fresh.
  destruct (lastTouch us server key) as [t|]; [|split; [by intros [? ?]|naive_solver]].
  destruct (Z.leb_spec w (time_Sub now t)) as [Hle|Hlt]; simpl.
  - split; [by intros [? ?]|]. intros (_ & t' & [= <-] & ?). lia.
  - split; [intros _|by eexists]. split; [done|]. by exists t.
Qed.

Definition sampleUses : list use :=
  [Touch "s1" "a" 10; Touch "s1" "b" 20; Touch "s2" "a" 25; Count "s1" 112; Touch "s1" "c" 115].

Lemma activeCount_exact_witness :
  (activeCount "s1" 118 (foldl applyUse (newSessionReservation 100) sampleUses)).1 = 2.
Proof.
  apply (activeCount_exact 100 sampleUses 118 "s1" ["b"; "c"]).
  - lia.
  - done.
  - vm_compute. repeat split; congruence.
  - vm_compute. congruence.
  - repeat constructor; set_solver.
  - intros key. rewrite !elem_of_cons, elem_of_nil.
    change (lastTouch sampleUses "s1" key) with
      (if String.eqb "c" key then Some 115 else if String.eqb "b" key then Some 20
       else if String.eqb "a" key then Some 10 else None).
    destruct (String.eqb_spec "c" key), (String.eqb_spec "b" key), (String.eqb_spec "a" key);
      subst; try done; split; intros H;
      try (split; [done|eexists; split; [reflexivity|vm_compute; congruence]]); try tauto;
      try (intuition congruence);
      destruct H as (_ & t & E & Ht); simplify_eq; vm_compute in Ht; congruence.
Defined.
