(* ===== verification/Selection.v ===== *)
(** * Selecting a candidate

    Models the selection part of [gateway/backend/internal/routing/resolver.go]
    ([selectCandidate] and everything below it), with [CandidateServesNow]
    ([instance_scaling.go]), [audioRequest] ([realtime.go]) and the request's fields
    ([inference/types.go]).

    A [Resolver] is the installed sources and what they answer: one reading of each
    question per selection ([None]: the source is not installed).  The telemetry read is
    the only one that can fail.  The session reservations are state, since counting
    prunes them, and are threaded through.  A selection is a candidate, none, or an
    error ([selection]). *)

From Stdlib Require Import ZArith Lia.
From stdpp Require Import base tactics option list numbers strings gmap.
From S2P Require Import Prelude Float64 RoutingTypes RuntimeTypes GatewayInstances Scorer Reservation.
Local Open Scope Z_scope.
Local Open Scope go_scope.

(** ** Requests *)

Record Request := mkRequest {
  req_Model : string;
  req_APIFlavor : string;
  req_RequiredCapabilities : list string;
  req_Messages : list string;             (* the text of each message *)
  req_MaxTokens : Z;
  req_LiveSession : bool;
  req_ExcludeInstanceKeys : list string;
  req_PreferredInstanceKey : string;
  req_AdmissionStart : time;
  req_NoPark : bool;
  req_CheckOnly : bool;
  req_RequiredVoice : string;
  req_RealtimeRequired : bool;
  req_SessionID : string;
  req_ClientSessionID : string;
  req_ServerOverrideID : string;
  req_ServerOverrideForceUnreachable : bool
}.

Definition APIFlavorOpenAI : string := "openai".
Definition APIFlavorAnthropic : string := "anthropic".
Definition APIFlavorOpenAIImages : string := "openai_images".
Definition APIFlavorOpenAIAudio : string := "openai_audio".

Definition NormalizeAPIFlavor `{Unicode} (apiFlavor : string) : string :=
  let normalized := strings_ToLower (strings_TrimSpace apiFlavor) in
  if String.prefix APIFlavorOpenAIImages normalized then APIFlavorOpenAIImages
  else if String.prefix APIFlavorOpenAIAudio normalized then APIFlavorOpenAIAudio
  else if String.prefix "openai" normalized then APIFlavorOpenAI
  else if String.prefix "anthropic" normalized then APIFlavorAnthropic
  else normalized.

Definition slices_Contains (l : list string) (x : string) : bool := bool_decide (x ∈ l).

Definition audioRequest (req : Request) : bool :=
  slices_Contains (req_RequiredCapabilities req) CapabilitySpeech
  || slices_Contains (req_RequiredCapabilities req) CapabilityTranscription.

Definition needsFreeLiveSlot (req : Request) : bool :=
  req_LiveSession req || slices_Contains (req_RequiredCapabilities req) CapabilityTranscription.

Definition neverParks (req : Request) : bool := req_NoPark req || req_CheckOnly req.

Definition admissionStart (req : Request) (now : time) : time :=
  if time_IsZero (req_AdmissionStart req) || (now <? req_AdmissionStart req) then now
  else req_AdmissionStart req.

Definition estInputTokens `{Unicode} (req : Request) : Z :=
  let words := foldl (fun words text => words +! strings_FieldCount text) 0 (req_Messages req) in
  f64_to_int (f64_mul (f64_of_int words) (f64_ratio 13 10)) +! 1.

Definition requestFitsContext (contextSize need : Z) : bool :=
  (contextSize <=? 0) || (need <=? contextSize).

(** ** The sources *)

Record modelState := mkModelState {
  ms_state : string;
  ms_active : Z;
  ms_queue : Z;
  ms_ok : bool;
  ms_metricsOK : bool
}.

Record Resolver := mkResolver {
  r_checker : option (string -> bool);                    (* Reachable *)
  r_busy : option (string -> bool);                       (* ServerBusy *)
  r_loaded : option (string -> string -> list string);    (* LoadedAppModels *)
  r_activity : option (string -> Z * time);               (* ServerActivity *)
  r_runtimeState : option (string -> string -> modelState);
  r_swapProtectWindow : duration;
  r_admission : bool;                                     (* a controller is installed *)
  r_demand : bool;                                        (* a demand sink is installed *)
  r_instanceActivity : option (string -> Z);
  r_liveSlots : option (string -> bool);                  (* LiveHeld *)
  r_TelemetryByServer : string -> option (ServerTelemetry * bool)
}.

Definition candidateKey (c : MappingCandidate) : string :=
  Addresses.InstanceKey (mm_ID (mc_Mapping c)) (mc_Instance c).

Definition candidateAddress (c : MappingCandidate) : string :=
  Addresses.InstanceAddress (mm_AppModelName (mc_Mapping c)) (mc_Instance c).

Definition serverSelectable (server : AIServer) : bool :=
  String.eqb (srv_Status server) ServerStatusActive && negb (String.eqb (srv_HealthStatus server) HealthUnhealthy).

Definition CandidateServesNow (r : Resolver) (c : MappingCandidate) : bool :=
  if negb (serverSelectable (mc_Server c)) then false
  else if match r_checker r with
          | Some reachable => negb (reachable (app_ID (mc_Application c)))
          | None => false
          end then false
  else match r_busy r with
       | None => true
       | Some busy => negb (busy (srv_ID (mc_Server c)))
       end.

Definition modelLoadedOn (loaded : string -> string -> list string) (c : MappingCandidate) : bool :=
  bool_decide (candidateAddress c ∈ loaded (app_ID (mc_Application c)) (srv_ID (mc_Server c))).

Definition runtimeModelState (r : Resolver) (c : MappingCandidate) : modelState :=
  match r_runtimeState r with
  | None => mkModelState "" 0 0 false false
  | Some state => state (srv_ID (mc_Server c)) (candidateAddress c)
  end.

Definition modelStartingOn (r : Resolver) (c : MappingCandidate) : bool :=
  let s := runtimeModelState r c in ms_ok s && String.eqb (ms_state s) "starting".

Definition mergeRuntimeModelMetrics (r : Resolver) (c : MappingCandidate) (tel : ServerTelemetry)
    (hasTel : bool) (now : time) : ServerTelemetry * bool :=
  let s := runtimeModelState r c in
  if negb (ms_metricsOK s) then (tel, hasTel)
  else
    let tel := if negb hasTel
               then tel <| tel_ServerID := srv_ID (mc_Server c) |> <| tel_ReportedAt := now |> else tel in
    (tel <| tel_ActiveRequests := ms_active s |> <| tel_QueueDepth := ms_queue s |>, true).

(** ** Results *)

Record atCapacityError := mkAtCapacityError {
  ac_demand : option DemandSignal;
  ac_pool : list MappingCandidate;
  ac_instancePool : bool
}.

Inductive selectError :=
| AllAtCapacity (ac : atCapacityError)
| LoadTelemetry.

(** [inl None] is [ok = false] without an error. *)
Definition selection : Type := option MappingCandidate + selectError.

(** [if sel, ok, err := x; err != nil || ok { return sel, ok, err }], then [y]. *)
Definition orElse (x y : selection) : selection :=
  match x with inl None => y | _ => x end.

(** ** Scoring a pool *)

(** The rows a [telemetryPass] has read. *)
Definition telemetryPass : Type := gmap string (ServerTelemetry * bool).

Definition pass_read (r : Resolver) (serverID : string) (pass : telemetryPass)
  : option (ServerTelemetry * bool * telemetryPass) :=
  match pass !! serverID with
  | Some row => Some (row, pass)
  | None =>
      match r_TelemetryByServer r serverID with
      | None => None
      | Some row => Some (row, <[serverID := row]> pass)
      end
  end.

(** The score of a candidate of which telemetry was read. *)
Definition candidateScore (r : Resolver) (model : string) (audio : bool) (now : time)
    (c : MappingCandidate) (telemetry : ServerTelemetry) (ok : bool) : option float64 :=
  let k := match r_activity r with
           | Some activity => (activity (srv_ID (mc_Server c))).1
           | None => tel_ActiveRequests telemetry
           end in
  let '(telemetry, ok) := mergeRuntimeModelMetrics r c telemetry ok now in
  Score (scoringRoute c telemetry ok k model audio) model now.

Fixpoint argmaxLoop (r : Resolver) (model : string) (audio : bool) (now : time)
    (pool : list MappingCandidate) (pass : telemetryPass)
    (best : option (MappingCandidate * float64)) : selection :=
  match pool with
  | [] => inl (fst <$> best)
  | c :: pool' =>
      match pass_read r (srv_ID (mc_Server c)) pass with
      | None => inr LoadTelemetry
      | Some (telemetry, ok, pass) =>
          argmaxLoop r model audio now pool' pass
            (better best c (candidateScore r model audio now c telemetry ok))
      end
  end.

Definition argmaxByScore (r : Resolver) (pool : list MappingCandidate) (model : string) (audio : bool)
    (now : time) : selection :=
  argmaxLoop r model audio now pool ∅ None.

(** ** Preferences within a pool *)

Definition preferScored (r : Resolver) (pool : list MappingCandidate) (model : string) (audio : bool)
    (now : time) (preferred : string) : selection :=
  if String.eqb preferred "" then argmaxByScore r pool model audio now
  else match List.find (fun c => String.eqb (candidateKey c) preferred) pool with
       | Some c => orElse (argmaxByScore r [c] model audio now) (argmaxByScore r pool model audio now)
       | None => argmaxByScore r pool model audio now
       end.

Definition preferPartition (r : Resolver) (pool : list MappingCandidate)
    (accepts : MappingCandidate -> bool) (model : string) (audio : bool) (now : time)
    (preferred : string) : selection :=
  match List.filter accepts pool with
  | [] => inl None
  | part => preferScored r part model audio now preferred
  end.

Definition selectFromPool (r : Resolver) (pool : list MappingCandidate) (model : string) (audio : bool)
    (now : time) (preferred : string) : selection :=
  orElse
    (match r_loaded r with
     | Some loaded => preferPartition r pool (modelLoadedOn loaded) model audio now preferred
     | None => inl None
     end)
  (orElse
    (match r_runtimeState r with
     | Some _ => preferPartition r pool (modelStartingOn r) model audio now preferred
     | None => inl None
     end)
    (preferScored r pool model audio now preferred)).

Definition swapProtected (r : Resolver) (activity : string -> Z * time) (c : MappingCandidate)
    (now : time) : bool :=
  if match r_loaded r with Some loaded => modelLoadedOn loaded c | None => false end then false
  else
    let '(inFlight, lastCompletedAt) := activity (srv_ID (mc_Server c)) in
    if 0 <? inFlight then true
    else (0 <? r_swapProtectWindow r) && negb (time_IsZero lastCompletedAt)
         && (time_Sub now lastCompletedAt <? r_swapProtectWindow r).

Definition selectWithSwapProtection (r : Resolver) (pool : list MappingCandidate) (model : string)
    (audio : bool) (now : time) (preferred : string) : selection :=
  match r_activity r with
  | None => selectFromPool r pool model audio now preferred
  | Some activity =>
      let protected := List.filter (fun c => negb (swapProtected r activity c now)) pool in
      if (length protected =? 0)%nat then selectFromPool r pool model audio now preferred
      else if (length protected <? length pool)%nat
      then orElse (selectFromPool r protected model audio now preferred)
                  (selectFromPool r pool model audio now preferred)
      else selectFromPool r pool model audio now preferred
  end.

(** ** Capacity *)

Definition underCap (r : Resolver) (c : MappingCandidate) (now : time) (judgeLive : bool)
    (s : sessionReservation) : bool * sessionReservation :=
  if judgeLive && match r_liveSlots r with Some held => held (candidateKey c) | None => false end
  then (false, s)
  else if mc_InstanceCapable c then
    (match r_instanceActivity r with
     | None => true
     | Some activity => activity (candidateKey c) <? mc_InstanceParallelism c
     end, s)
  else
    let maxC := mm_MaxConcurrency (mc_Mapping c) in
    if maxC <=? 0 then (true, s)
    else match r_activity r with
         | None => (true, s)
         | Some activity =>
             let k := (activity (srv_ID (mc_Server c))).1 in
             let '(reserved, s) := activeCount (srv_ID (mc_Server c)) now s in
             (k <? maxC -! reserved, s)
         end.

Fixpoint underCapPool (r : Resolver) (pool : list MappingCandidate) (now : time) (judgeLive : bool)
    (s : sessionReservation) : list MappingCandidate * sessionReservation :=
  match pool with
  | [] => ([], s)
  | c :: pool' =>
      let '(under, s) := underCap r c now judgeLive s in
      let '(capped, s) := underCapPool r pool' now judgeLive s in
      (if under then c :: capped else capped, s)
  end.

Definition preferredInstance (r : Resolver) (pool : list MappingCandidate) (req : Request) (now : time)
    (judgeLive : bool) (s : sessionReservation) : string * sessionReservation :=
  if String.eqb (req_PreferredInstanceKey req) "" then ("", s)
  else match List.find (fun c => mc_InstanceCapable c && String.eqb (candidateKey c) (req_PreferredInstanceKey req)) pool with
       | None => ("", s)
       | Some c =>
           let '(under, s) := underCap r c now judgeLive s in
           (if under then req_PreferredInstanceKey req else "", s)
       end.

Definition instanceDemand `{Unicode} (pool : list MappingCandidate) (req : Request) : option DemandSignal :=
  foldl (fun d c =>
    if negb (mc_InstanceCapable c) then d
    else
      let d := match d with
               | Some d => d
               | None => mkSignal (mm_GatewayModelName (mc_Mapping c)) (NormalizeAPIFlavor (req_APIFlavor req))
                           "" (req_LiveSession req) []
               end in
      Some (if String.eqb (mm_GatewayModelName (mc_Mapping c)) (ds_Model d)
               && negb (slices_Contains (ds_MappingIDs d) (mm_ID (mc_Mapping c)))
            then d <| ds_MappingIDs ::= fun ids => ids ++ [mm_ID (mc_Mapping c)] |> else d)) None pool.

Definition judgesLive (r : Resolver) (req : Request) (instancePool : bool) : bool :=
  instancePool && match r_liveSlots r with Some _ => true | None => false end && needsFreeLiveSlot req.

Definition installed {A} (source : option A) : bool := match source with Some _ => true | None => false end.

Definition selectUnderCap `{Unicode} (r : Resolver) (pool : list MappingCandidate) (req : Request)
    (now : time) (instancePool : bool) (s : sessionReservation) : selection * sessionReservation :=
  let model := req_Model req in
  let audio := audioRequest req in
  let judgeLive := judgesLive r req instancePool in
  let '(preferred, s) := preferredInstance r pool req now judgeLive s in
  if installed (r_activity r) || installed (r_instanceActivity r) || judgeLive then
    let '(capped, s) := underCapPool r pool now judgeLive s in
    if (length capped =? 0)%nat then
      if r_admission r
      then (inr (AllAtCapacity (mkAtCapacityError (instanceDemand pool req) pool instancePool)), s)
      else (selectWithSwapProtection r pool model audio now preferred, s)
    else if (length capped <? length pool)%nat
    then (orElse (selectWithSwapProtection r capped model audio now preferred)
                 (selectWithSwapProtection r pool model audio now preferred), s)
    else (selectWithSwapProtection r pool model audio now preferred, s)
  else (selectWithSwapProtection r pool model audio now preferred, s).

(** ** The whole selection *)

Definition excluded (req : Request) (c : MappingCandidate) : bool :=
  slices_Contains (req_ExcludeInstanceKeys req) (candidateKey c).

Definition set_InstancePool (b : bool) (c : MappingCandidate) : MappingCandidate := c <| mc_InstancePool := b |>.

Definition selectCandidate `{Unicode} (r : Resolver) (candidates : list MappingCandidate) (req : Request)
    (now : time) (s : sessionReservation) : selection * sessionReservation :=
  let need := estInputTokens req +! req_MaxTokens req in
  let reachable := List.filter (fun c => negb (excluded req c) && CandidateServesNow r c) candidates in
  match reachable with
  | [] => (inl None, s)
  | _ =>
      let pool := List.filter (fun c => requestFitsContext (mm_ContextSize (mc_Mapping c)) need) reachable in
      let pool := match pool with [] => reachable | _ => pool end in
      let instancePool := existsb mc_InstanceCapable pool in
      let '(sel, s) := selectUnderCap r pool req now instancePool s in
      (match sel with
       | inl (Some c) => inl (Some (set_InstancePool instancePool c))
       | _ => sel
       end, s)
  end.

(** ** A request that does not wait *)

(** The loop's state: the least loaded instances so far, and their load. *)
Definition leastStep (activity : option (string -> Z)) (acc : list MappingCandidate * Z) (c : MappingCandidate)
  : list MappingCandidate * Z :=
  let '(least, low) := acc in
  if negb (mc_InstanceCapable c) then acc
  else
    let load := match activity with Some activity => activity (candidateKey c) | None => 0 end in
    if (length least =? 0)%nat || (load <? low) then ([c], load)
    else if load =? low then (least ++ [c], low) else acc.

Definition leastLoadedInstances (pool : list MappingCandidate) (activity : option (string -> Z))
  : list MappingCandidate :=
  (foldl (leastStep activity) ([], 0) pool).1.

Definition selectWithoutParking (r : Resolver) (ac : atCapacityError) (model : string) (audio : bool)
    (now : time) : selection :=
  let sel :=
    orElse
      (match leastLoadedInstances (ac_pool ac) (r_instanceActivity r) with
       | [] => inl None
       | least => selectWithSwapProtection r least model audio now ""
       end)
      (selectWithSwapProtection r (ac_pool ac) model audio now "") in
  match sel with
  | inl (Some c) => inl (Some (set_InstancePool (ac_instancePool ac) c))
  | _ => sel
  end.

(** What reaches the demand sink. *)
Definition signalOverflow (r : Resolver) (req : Request) (d : DemandSignal) : list DemandSignal :=
  if negb (r_demand r) || req_CheckOnly req then [] else [d].

Definition candidateEffectiveGenTPS (r : Resolver) (pass : telemetryPass) (c : MappingCandidate) (model : string)
  : option (float64 * telemetryPass) :=
  match pass_read r (srv_ID (mc_Server c)) pass with
  | None => None
  | Some (telemetry, ok, pass) =>
      let k := match r_activity r with
               | Some activity => (activity (srv_ID (mc_Server c))).1
               | None => tel_ActiveRequests telemetry
               end in
      Some (effectiveGenTPS (scoringRoute c telemetry ok k model false), pass)
  end.
