(* ===== verification/SelectionProps.v ===== *)
(** * Properties of the selection

    The nested fail-open filters of the selection compute one thing: the best candidate
    of a lexicographic preference -- under its cap, evicting no live model, loaded,
    starting, then the request's preferred instance, then the score.  Each filter is one
    layer ([layered]); a layer is proved once. *)

From Stdlib Require Import ZArith Lia.
From stdpp Require Import base tactics option list numbers strings gmap sets.
From S2P Require Import Prelude Float64 RoutingTypes RuntimeTypes GatewayInstances Scorer Reservation Selection.
Local Open Scope Z_scope.
Local Open Scope go_scope.

(** ** Layers of preference *)

Section layers.
Context (viable : MappingCandidate -> Prop).

Definition relation : Type := MappingCandidate -> MappingCandidate -> Prop.

(** [f] answers with a viable element that [R]-beats every viable one, or with none when
    there is none. *)
Definition optimalOn (p : list MappingCandidate) (R : relation) (x : selection) : Prop :=
  match x with
  | inl None => forall y, y ∈ p -> ~ viable y
  | inl (Some c) => c ∈ p /\ viable c /\ forall y, y ∈ p -> viable y -> R c y
  | inr _ => False
  end.

Definition optimal (f : list MappingCandidate -> selection) (R : relation) (p : list MappingCandidate) : Prop :=
  forall p', p' `sublist_of` p -> optimalOn p' R (f p').

(** Elements [q] accepts beat the others; among themselves, [R1] orders the accepted
    ones and [R2] the others. *)
Definition layered (q : MappingCandidate -> bool) (R1 R2 : relation) : relation := fun c y =>
  if q c then q y = true -> R1 c y else q y = false /\ R2 c y.

Lemma filter_sublist {A} (q : A -> bool) (l : list A) : List.filter q l `sublist_of` l.
Proof. induction l as [|x l IH]; simpl; [done|]. destruct (q x); by constructor. Qed.

Lemma forallb_filter {A} (q : A -> bool) (l : list A) :
  forallb (fun x => negb (q x)) l = (length (List.filter q l) =? 0)%nat.
Proof. induction l as [|x l IH]; simpl; [done|]. by destruct (q x). Qed.

Lemma Forall_sublist {A} (P : A -> Prop) (l1 l2 : list A) : l1 `sublist_of` l2 -> Forall P l2 -> Forall P l1.
Proof. rewrite !Forall_forall. intros Hs H x Hx. apply H. by eapply elem_of_sublist. Qed.

Lemma elem_of_filter_list {A} (q : A -> bool) (l : list A) x : x ∈ List.filter q l <-> x ∈ l /\ q x = true.
Proof. by rewrite list_elem_of_In, filter_In, <- list_elem_of_In. Qed.

Lemma orElse_layered f1 f2 R1 R2 q p :
  optimal f1 R1 p -> optimal f2 R2 p ->
  optimalOn p (layered q R1 R2) (orElse (f1 (List.filter q p)) (f2 p)).
Proof.
  intros Hf1 Hf2. pose proof (Hf1 _ (filter_sublist q p)) as H1. pose proof (Hf2 p ltac:(reflexivity)) as H2.
  unfold layered. destruct (f1 (List.filter q p)) as [[c|]|e]; simpl in *; [| |done].
  - destruct H1 as (Hc & Hv & HR). apply elem_of_filter_list in Hc as [Hc Hq]. split_and!; [done..|].
    intros y Hy Hvy. rewrite Hq. intros Ey. apply HR; [|done]. by apply elem_of_filter_list.
  - assert (Hno : forall y, y ∈ p -> viable y -> q y = false).
    { intros y Hy Hvy. destruct (q y) eqn:Ey; [|done]. exfalso. apply (H1 y); [|done].
      by apply elem_of_filter_list. }
    destruct (f2 p) as [[c|]|e]; simpl in *; [|done..]. destruct H2 as (Hc & Hv & HR). split_and!; [done..|].
    intros y Hy Hvy. rewrite (Hno c), (Hno y) by done. by split; [|apply HR].
Qed.

Lemma optimal_sublist f R p p' : optimal f R p -> p' `sublist_of` p -> optimal f R p'.
Proof. intros Hf Hp p'' Hp''. apply Hf. by etrans. Qed.

Lemma optimal_nil f R p : optimal f R p -> f [] = inl None.
Proof.
  intros Hf. pose proof (Hf [] (sublist_nil_l p)) as H0. destruct (f []) as [[c|]|e]; simpl in *; [|done..].
  by destruct H0 as [?%elem_of_nil _].
Qed.

Lemma orElse_same x : orElse x x = x.
Proof. by destruct x as [[]|]. Qed.

Lemma filter_full {A} (q : A -> bool) (l : list A) :
  ~ (length (List.filter q l) < length l)%nat -> List.filter q l = l.
Proof.
  induction l as [|x l IH]; simpl; [done|]. pose proof (sublist_length _ _ (filter_sublist q l)).
  destruct (q x); simpl; [|lia]. intros Hl. f_equal. apply IH. lia.
Qed.

(** The form the code gives a layer: the filter is skipped when it keeps nothing or
    everything. *)
Lemma skip_layer f R q p :
  optimal f R p ->
  (if (length (List.filter q p) =? 0)%nat then f p
   else if (length (List.filter q p) <? length p)%nat then orElse (f (List.filter q p)) (f p)
   else f p) = orElse (f (List.filter q p)) (f p).
Proof.
  intros Hf. destruct (Nat.eqb_spec (length (List.filter q p)) 0) as [E|_].
  - apply nil_length_inv in E. rewrite E. by rewrite (optimal_nil f R p Hf).
  - destruct (Nat.ltb_spec (length (List.filter q p)) (length p)); [done|].
    rewrite filter_full by lia. by rewrite orElse_same.
Qed.

(** A layer that accepts nothing. *)
Lemma filter_nothing {A} (q : A -> bool) (l : list A) : (forall x, q x = false) -> List.filter q l = [].
Proof. intros Hq. induction l as [|x l IH]; simpl; [done|]. by rewrite Hq. Qed.

Lemma optimalOn_ext p R1 R2 x :
  (forall c y, c ∈ p -> y ∈ p -> R1 c y -> R2 c y) -> optimalOn p R1 x -> optimalOn p R2 x.
Proof.
  intros HR. destruct x as [[c|]|e]; simpl; [|done..]. intros (Hc & Hv & H). split_and!; [done..|]. eauto.
Qed.

End layers.

(** ** Scoring a pool *)

Section scoring.
Context (r : Resolver) (model : string) (audio : bool) (now : time).

(** The score of a candidate on what the sources say, [None] when it is not viable. *)
Definition scoreOf (c : MappingCandidate) : option float64 :=
  match r_TelemetryByServer r (srv_ID (mc_Server c)) with
  | Some (telemetry, ok) => candidateScore r model audio now c telemetry ok
  | None => None
  end.

Definition viable (c : MappingCandidate) : Prop := is_Some (scoreOf c).

Definition readable (c : MappingCandidate) : Prop := is_Some (r_TelemetryByServer r (srv_ID (mc_Server c))).

(** One reading per server serves all its candidates. *)
Lemma argmaxLoop_spec pool pass best :
  map_Forall (fun server row => r_TelemetryByServer r server = Some row) pass ->
  Forall readable pool ->
  argmaxLoop r model audio now pool pass best
    = inl (fst <$> foldl (fun best c => better best c (scoreOf c)) best pool).
Proof.
  intros Hpass Hr. revert pass best Hpass. induction Hr as [|c pool [row Hc] _ IH]; intros pass best Hpass; [done|].
  simpl. assert (Hread : exists pass', pass_read r (srv_ID (mc_Server c)) pass = Some (row, pass') /\
    map_Forall (fun server row => r_TelemetryByServer r server = Some row) pass').
  { unfold pass_read. destruct (pass !! srv_ID (mc_Server c)) as [row'|] eqn:E.
    - exists pass. rewrite (Hpass _ _ E) in Hc. by simplify_eq.
    - rewrite Hc. eexists. split; [done|]. by apply map_Forall_insert_2. }
  destruct Hread as (pass' & -> & Hpass'). destruct row as [tel ok].
  rewrite (IH pass' _ Hpass').
  assert (scoreOf c = candidateScore r model audio now c tel ok) as -> by (unfold scoreOf; by rewrite Hc). done.
Qed.

Lemma argmaxByScore_best pool :
  Forall readable pool -> argmaxByScore r pool model audio now = inl (fst <$> bestOf scoreOf pool).
Proof. intros Hr. apply argmaxLoop_spec; [apply map_Forall_empty|done]. Qed.

(** The order among candidates no filter separates: the preferred instance, then the
    score. *)
Definition scoreBeats (preferred : string) : relation := fun c y =>
  (preferred <> "" /\ candidateKey c = preferred) \/
  ((preferred = "" \/ candidateKey y <> preferred) /\
   forall s t, scoreOf c = Some s -> scoreOf y = Some t -> f64_ltb s t = false).

Context (pool : list MappingCandidate).
Hypothesis pool_readable : Forall readable pool.
Hypothesis pool_numbered : numbered scoreOf pool.
Hypothesis pool_keys : NoDup (candidateKey <$> pool).

Lemma bestOf_optimal p preferred :
  p `sublist_of` pool ->
  (preferred = "" \/ forall y, y ∈ p -> viable y -> candidateKey y <> preferred) ->
  optimalOn viable p (scoreBeats preferred) (inl (fst <$> bestOf scoreOf p)).
Proof.
  intros Hp Hpref. assert (Hn : numbered scoreOf p).
  { intros x s Hx. apply pool_numbered. by eapply elem_of_sublist. }
  pose proof (bestOf_spec scoreOf p Hn) as H. destruct (bestOf scoreOf p) as [[c s]|]; simpl.
  - assert (Hin : scoreOf c = Some s /\ c ∈ p) by (destruct H as (? & ? & ? & -> & _); set_solver).
    destruct Hin as [Hs Hin]. split_and!; [done|by eexists|].
    intros y Hy Hvy. right. split; [naive_solver|]. intros s' t Hs' Ht. simplify_eq.
    by apply (firstBest_le scoreOf p c s y t).
  - intros y Hy [t Ht]. by rewrite (H y Hy) in Ht.
Qed.

Lemma preferScored_optimal preferred :
  optimal viable (fun p => preferScored r p model audio now preferred) (scoreBeats preferred) pool.
Proof.
  intros p Hp. assert (Hr : Forall readable p) by (by apply (Forall_sublist _ p pool)).
  assert (Hk : NoDup (candidateKey <$> p)) by (eapply sublist_NoDup; [exact pool_keys|by apply fmap_sublist]).
  unfold preferScored. rewrite argmaxByScore_best by done.
  destruct (String.eqb_spec preferred "") as [->|Hne]; [by apply bestOf_optimal; [|left]|].
  destruct (List.find _ p) as [c|] eqn:Ef.
  - apply List.find_some in Ef as [Hc%list_elem_of_In E%String.eqb_eq]. rewrite argmaxByScore_best.
    2: { constructor; [|done]. by apply (proj1 (Forall_forall _ _) Hr). }
    unfold bestOf at 1. simpl. destruct (scoreOf c) as [s|] eqn:Es; simpl.
    + split_and!; [done|by eexists|]. intros y Hy Hvy. by left.
    + apply bestOf_optimal; [done|]. right. intros y Hy [t Ht] Ek.
      assert (y = c) as ->; [|congruence]. apply list_elem_of_lookup in Hy as [i Hi], Hc as [j Hj].
      assert (i = j) as ->; [|congruence]. eapply (NoDup_lookup (candidateKey <$> p) i j preferred); [done|..];
        rewrite list_lookup_fmap, ?Hi, ?Hj; simpl; congruence.
  - apply bestOf_optimal; [done|]. right. intros y Hy _ Ek.
    pose proof (List.find_none _ _ Ef y (proj1 (list_elem_of_In _ _) Hy)) as H. simpl in H.
    by apply String.eqb_neq in H.
Qed.

(** The predicates of the layers; a source that is not installed says nothing. *)
Definition loadedHere (c : MappingCandidate) : bool :=
  match r_loaded r with Some loaded => modelLoadedOn loaded c | None => false end.

Definition unprotected (c : MappingCandidate) : bool :=
  match r_activity r with Some activity => negb (swapProtected r activity c now) | None => true end.

Definition poolBeats (preferred : string) : relation :=
  layered loadedHere (scoreBeats preferred)
    (layered (modelStartingOn r) (scoreBeats preferred) (scoreBeats preferred)).

Definition swapBeats (preferred : string) : relation :=
  layered unprotected (poolBeats preferred) (poolBeats preferred).

Lemma preferPartition_filter p q preferred :
  preferPartition r p q model audio now preferred = preferScored r (List.filter q p) model audio now preferred.
Proof.
  unfold preferPartition. destruct (List.filter q p); [|done]. symmetry.
  apply (optimal_nil viable (fun p => preferScored r p model audio now preferred) _ pool (preferScored_optimal preferred)).
Qed.

(** An uninstalled source accepts nothing, and its layer is not there. *)
Lemma loaded_layer p preferred :
  match r_loaded r with
  | Some loaded => preferPartition r p (modelLoadedOn loaded) model audio now preferred
  | None => inl None
  end = preferScored r (List.filter loadedHere p) model audio now preferred.
Proof.
  unfold loadedHere. destruct (r_loaded r) as [loaded|]; [apply preferPartition_filter|].
  rewrite (filter_nothing _ p) by done. symmetry.
  apply (optimal_nil viable (fun p => preferScored r p model audio now preferred) _ pool (preferScored_optimal preferred)).
Qed.

Lemma starting_layer p preferred :
  match r_runtimeState r with
  | Some _ => preferPartition r p (modelStartingOn r) model audio now preferred
  | None => inl None
  end = preferScored r (List.filter (modelStartingOn r) p) model audio now preferred.
Proof.
  destruct (r_runtimeState r) as [state|] eqn:E; [apply preferPartition_filter|].
  rewrite (filter_nothing _ p) by (intros c; unfold modelStartingOn, runtimeModelState; by rewrite E). symmetry.
  apply (optimal_nil viable (fun p => preferScored r p model audio now preferred) _ pool (preferScored_optimal preferred)).
Qed.

Lemma selectFromPool_optimal preferred :
  optimal viable (fun p => selectFromPool r p model audio now preferred) (poolBeats preferred) pool.
Proof.
  pose proof (preferScored_optimal preferred) as Hf. intros p Hp. unfold selectFromPool, poolBeats.
  rewrite loaded_layer, starting_layer.
  apply (orElse_layered viable (fun p => preferScored r p model audio now preferred)
    (fun p => orElse (preferScored r (List.filter (modelStartingOn r) p) model audio now preferred)
                     (preferScored r p model audio now preferred))).
  - by apply (optimal_sublist _ _ _ pool).
  - intros p' Hp'. apply (orElse_layered viable (fun p => preferScored r p model audio now preferred)
      (fun p => preferScored r p model audio now preferred)); apply (optimal_sublist _ _ _ pool); try done; by etrans.
Qed.

Lemma selectWithSwapProtection_optimal preferred :
  optimal viable (fun p => selectWithSwapProtection r p model audio now preferred) (swapBeats preferred) pool.
Proof.
  pose proof (selectFromPool_optimal preferred) as Hf. intros p Hp.
  pose proof (optimal_sublist _ _ _ _ _ Hf Hp) as Hfp.
  unfold selectWithSwapProtection, swapBeats, unprotected. destruct (r_activity r) as [activity|].
  - cbv zeta. rewrite (skip_layer viable (fun p => selectFromPool r p model audio now preferred) _ _ p Hfp).
    by apply (orElse_layered viable (fun p => selectFromPool r p model audio now preferred)
      (fun p => selectFromPool r p model audio now preferred)).
  - eapply optimalOn_ext; [|apply Hf, Hp]. intros c y _ _ H. unfold layered at 1. done.
Qed.

End scoring.

(** ** Capacity *)

Definition capOK (r : Resolver) (now : time) (judgeLive : bool) (s : sessionReservation)
    (c : MappingCandidate) : bool := (underCap r c now judgeLive s).1.

Lemma underCap_agree r c now judgeLive s : agree now (underCap r c now judgeLive s).2 s.
Proof.
  unfold underCap. destruct (judgeLive && _); [done|]. destruct (mc_InstanceCapable c); [done|].
  destruct (_ <=? 0); [done|]. destruct (r_activity r) as [activity|]; [|done].
  pose proof (agree_activeCount (srv_ID (mc_Server c)) now s) as HA. by destruct (activeCount _ now s).
Qed.

Global Instance capOK_Proper r now judgeLive : Proper (agree now ==> eq ==> eq) (capOK r now judgeLive).
Proof.
  intros s1 s2 Hs c ? <-. unfold capOK, underCap. destruct (judgeLive && _); [done|].
  destruct (mc_InstanceCapable c); [done|]. destruct (_ <=? 0); [done|]. destruct (r_activity r) as [activity|]; [|done].
  pose proof (activeCount_Proper (srv_ID (mc_Server c)) now s1 s2 Hs) as HA. cbv beta in HA.
  destruct (activeCount _ now s1), (activeCount _ now s2). simpl in *. by rewrite HA.
Qed.

Lemma underCapPool_spec r pool now judgeLive s :
  (underCapPool r pool now judgeLive s).1 = List.filter (capOK r now judgeLive s) pool /\
  agree now (underCapPool r pool now judgeLive s).2 s.
Proof.
  revert s. induction pool as [|c pool IH]; intros s; simpl; [done|].
  pose proof (underCap_agree r c now judgeLive s) as H1. change (capOK r now judgeLive s c) with (underCap r c now judgeLive s).1.
  destruct (underCap r c now judgeLive s) as [under s1]. simpl in *.
  destruct (IH s1) as [E1 E2]. destruct (underCapPool r pool now judgeLive s1) as [capped s2]. simpl in *.
  split; [|by etrans]. rewrite E1.
  assert (List.filter (capOK r now judgeLive s1) pool = List.filter (capOK r now judgeLive s) pool) as ->.
  { apply List.filter_ext. intros y. by rewrite H1. }
  by destruct under.
Qed.

(** The preference the selection honours: the key names an instance of the pool that is
    under its cap. *)
Definition honoured (r : Resolver) (pool : list MappingCandidate) (req : Request) (now : time)
    (judgeLive : bool) (s : sessionReservation) : string :=
  (preferredInstance r pool req now judgeLive s).1.

Lemma preferredInstance_agree r pool req now judgeLive s :
  agree now (preferredInstance r pool req now judgeLive s).2 s.
Proof.
  unfold preferredInstance. destruct (String.eqb _ _); [done|]. destruct (List.find _ pool) as [c|]; [|done].
  pose proof (underCap_agree r c now judgeLive s) as H. by destruct (underCap r c now judgeLive s).
Qed.

Lemma honoured_spec r pool req now judgeLive s :
  honoured r pool req now judgeLive s <> "" ->
  honoured r pool req now judgeLive s = req_PreferredInstanceKey req /\
  exists c, c ∈ pool /\ mc_InstanceCapable c = true /\ candidateKey c = req_PreferredInstanceKey req /\
    capOK r now judgeLive s c = true.
Proof.
  unfold honoured, preferredInstance, capOK. destruct (String.eqb _ _); [done|].
  destruct (List.find _ pool) as [c|] eqn:Ef; [|done]. apply List.find_some in Ef as [Hc Hk]. bool_hyps.
  destruct (underCap r c now judgeLive s) as [[] s'] eqn:Eu; [|done]. intros _. simpl. split; [done|].
  exists c. rewrite list_elem_of_In, Eu. split_and!; done.
Qed.

(** Without a source of load, nothing is at its cap. *)
Lemma capOK_unjudged r now s c :
  installed (r_activity r) || installed (r_instanceActivity r) = false -> capOK r now false s c = true.
Proof.
  intros H. unfold capOK, underCap. destruct (r_activity r), (r_instanceActivity r); try done.
  simpl. destruct (mc_InstanceCapable c); [done|]. by destruct (_ <=? 0).
Qed.

(** ** The whole selection *)

Section select.
Context `{Unicode} (r : Resolver) (req : Request) (now : time) (s : sessionReservation).

Definition candidateBeats (pool : list MappingCandidate) : relation :=
  let judgeLive := judgesLive r req (existsb mc_InstanceCapable pool) in
  let preferred := honoured r pool req now judgeLive s in
  let R := swapBeats r (req_Model req) (audioRequest req) now preferred in
  layered (capOK r now judgeLive s) R R.

(** Whether some source says how loaded a candidate is. *)
Definition capacityJudged (pool : list MappingCandidate) : bool :=
  installed (r_activity r) || installed (r_instanceActivity r)
  || judgesLive r req (existsb mc_InstanceCapable pool).

Definition viableFor : MappingCandidate -> Prop := viable r (req_Model req) (audioRequest req) now.

(** What the sources hold is readable and in range. *)
Definition wellRead (pool : list MappingCandidate) : Prop :=
  Forall (readable r) pool /\ numbered (scoreOf r (req_Model req) (audioRequest req) now) pool /\
  NoDup (candidateKey <$> pool).

Lemma selectUnderCap_optimal pool :
  wellRead pool ->
  let judgeLive := judgesLive r req (existsb mc_InstanceCapable pool) in
  let '(x, s') := selectUnderCap r pool req now (existsb mc_InstanceCapable pool) s in
  agree now s' s /\
  if capacityJudged pool && r_admission r && forallb (fun c => negb (capOK r now judgeLive s c)) pool
  then x = inr (AllAtCapacity (mkAtCapacityError (instanceDemand pool req) pool (existsb mc_InstanceCapable pool)))
  else optimalOn viableFor pool (candidateBeats pool) x.
Proof.
  intros (Hread & Hnum & Hkeys) judgeLive. unfold selectUnderCap, capacityJudged, candidateBeats. fold judgeLive.
  pose proof (preferredInstance_agree r pool req now judgeLive s) as Ha1. unfold honoured.
  destruct (preferredInstance r pool req now judgeLive s) as [preferred s1]. simpl in Ha1 |- *.
  set (f := fun p => selectWithSwapProtection r p (req_Model req) (audioRequest req) now preferred).
  pose proof (selectWithSwapProtection_optimal r (req_Model req) (audioRequest req) now pool Hread Hnum Hkeys preferred) as Hf.
  set (R := swapBeats r _ _ now preferred) in *. change (optimal viableFor f R pool) in Hf.
  destruct (installed (r_activity r) || installed (r_instanceActivity r) || judgeLive) eqn:Ej; simpl.
  - destruct (underCapPool_spec r pool now judgeLive s1) as [E1 E2].
    destruct (underCapPool r pool now judgeLive s1) as [capped s2]. simpl in E1, E2.
    assert (Ec : capped = List.filter (capOK r now judgeLive s) pool).
    { rewrite E1. apply List.filter_ext. intros y. by rewrite Ha1. }
    assert (Hag : agree now s2 s) by (by etrans). clear E1 E2. subst capped.
    rewrite forallb_filter. pose proof (skip_layer viableFor f R (capOK r now judgeLive s) pool Hf) as Hskip.
    pose proof (orElse_layered viableFor f f R R (capOK r now judgeLive s) pool Hf Hf) as Hopt.
    rewrite <- Hskip in Hopt. unfold f in Hopt.
    destruct (_ =? 0)%nat, (r_admission r); try destruct (_ <? _)%nat; by split.
  - split; [done|]. apply orb_false_iff in Ej as [Ej Hjl]. rewrite Hjl.
    eapply optimalOn_ext; [|apply (Hf pool); reflexivity]. intros c y _ _ HR. unfold layered at 1.
    by rewrite capOK_unjudged.
Qed.

(** The candidates a request chooses from: reachable, not excluded, and with a context
    window the request fits if there is one that has. *)
Definition eligible (candidates : list MappingCandidate) : list MappingCandidate :=
  let need := estInputTokens req +! req_MaxTokens req in
  let reachable := List.filter (fun c => negb (excluded req c) && CandidateServesNow r c) candidates in
  let fits := List.filter (fun c => requestFitsContext (mm_ContextSize (mc_Mapping c)) need) reachable in
  match fits with [] => reachable | _ => fits end.

Definition reachableFor (c : MappingCandidate) : Prop :=
  CandidateServesNow r c = true /\ candidateKey c ∉ req_ExcludeInstanceKeys req.

Definition fitsRequest (c : MappingCandidate) : Prop :=
  mm_ContextSize (mc_Mapping c) <= 0 \/
  estInputTokens req +! req_MaxTokens req <= mm_ContextSize (mc_Mapping c).

Lemma eligible_sublist candidates : eligible candidates `sublist_of` candidates.
Proof.
  unfold eligible. cbv zeta. set (reachable := List.filter _ candidates).
  destruct (List.filter _ reachable) eqn:E; [apply filter_sublist|]. rewrite <- E.
  etrans; apply filter_sublist.
Qed.

Lemma eligible_spec candidates c :
  c ∈ eligible candidates <->
  c ∈ candidates /\ reachableFor c /\
  (fitsRequest c \/ forall y, y ∈ candidates -> reachableFor y -> ~ fitsRequest y).
Proof.
  unfold eligible. cbv zeta. set (reachable := List.filter (fun c => _ && _) candidates).
  set (fit := fun c : MappingCandidate => requestFitsContext _ _).
  assert (Hr : forall y, y ∈ reachable <-> y ∈ candidates /\ reachableFor y).
  { intros y. unfold reachable, reachableFor, excluded, slices_Contains.
    rewrite elem_of_filter_list, andb_true_iff, negb_true_iff, bool_decide_eq_false. naive_solver. }
  assert (Hf : forall y, fit y = true <-> fitsRequest y).
  { intros y. unfold fit, requestFitsContext, fitsRequest. by rewrite orb_true_iff, !Z.leb_le. }
  destruct (List.filter fit reachable) as [|z l] eqn:E.
  - rewrite Hr. split; [|naive_solver]. intros [H1 H2]. split_and!; [done..|]. right. intros y Hy Hry Hfy.
    assert (Hin : y ∈ List.filter fit reachable) by (rewrite elem_of_filter_list, Hr, Hf; naive_solver).
    by rewrite E in Hin; apply elem_of_nil in Hin.
  - rewrite <- E, elem_of_filter_list, Hr, Hf. split; [naive_solver|].
    intros (H1 & H2 & [H3|H3]); [naive_solver|]. exfalso.
    assert (Hz : z ∈ List.filter fit reachable) by (rewrite E; left).
    rewrite elem_of_filter_list, Hr, Hf in Hz. naive_solver.
Qed.

Lemma wellRead_sublist p candidates : p `sublist_of` candidates -> wellRead candidates -> wellRead p.
Proof.
  intros Hp (H1 & H2 & H3). split_and!; [by apply (Forall_sublist _ p candidates)| |].
  - intros c sc Hc. apply H2. by eapply elem_of_sublist.
  - eapply sublist_NoDup; [exact H3|by apply fmap_sublist].
Qed.

(** Every candidate eligible, judged and at its cap, with a queue to wait in. *)
Definition mustPark (pool : list MappingCandidate) : Prop :=
  pool <> [] /\ capacityJudged pool = true /\ r_admission r = true /\
  forall c, c ∈ pool -> capOK r now (judgesLive r req (existsb mc_InstanceCapable pool)) s c = false.

Lemma mustPark_test pool :
  negb (length pool =? 0)%nat && capacityJudged pool && r_admission r
  && forallb (fun c => negb (capOK r now (judgesLive r req (existsb mc_InstanceCapable pool)) s c)) pool = true ->
  mustPark pool.
Proof.
  rewrite !andb_true_iff, negb_true_iff, Nat.eqb_neq, forallb_forall. intros [[[H1 H2] H3] H4].
  split_and!; [by intros ->|done..|]. intros c Hc. by apply negb_true_iff, H4, list_elem_of_In.
Qed.

Lemma selectCandidate_cases candidates :
  wellRead candidates ->
  let pool := eligible candidates in
  let '(x, s') := selectCandidate r candidates req now s in
  agree now s' s /\
  ((mustPark pool /\ x = inr (AllAtCapacity (mkAtCapacityError (instanceDemand pool req) pool (existsb mc_InstanceCapable pool)))) \/
   (~ mustPark pool /\ exists x', optimalOn viableFor pool (candidateBeats pool) x' /\
      x = match x' with
          | inl (Some c) => inl (Some (set_InstancePool (existsb mc_InstanceCapable pool) c))
          | _ => x'
          end)).
Proof.
  intros Hw pool. pose proof (wellRead_sublist _ _ (eligible_sublist candidates) Hw) as Hwp. fold pool in Hwp.
  pose proof (selectUnderCap_optimal pool Hwp) as Hs. unfold selectCandidate. cbv zeta.
  set (reachable := List.filter (fun c => _ && _) candidates).
  set (fit := fun c : MappingCandidate => requestFitsContext _ _).
  assert (Hpool : pool = match List.filter fit reachable with [] => reachable | _ => List.filter fit reachable end)
    by done.
  destruct reachable as [|z reachable'].
  { split; [done|]. right. simpl in Hpool. rewrite Hpool. split; [by intros [? _]|].
    exists (inl None). split; [by intros ? ?%elem_of_nil|done]. }
  rewrite <- Hpool. cbv zeta in Hs. set (judgeLive := judgesLive r req _) in *.
  assert (Hne : pool <> []).
  { rewrite Hpool. by destruct (List.filter fit _). }
  assert (Hpark : mustPark pool <->
    capacityJudged pool && r_admission r && forallb (fun c => negb (capOK r now judgeLive s c)) pool = true).
  { unfold mustPark. fold judgeLive. rewrite !andb_true_iff, forallb_forall. setoid_rewrite negb_true_iff.
    setoid_rewrite list_elem_of_In. naive_solver. }
  destruct (selectUnderCap r pool req now _ s) as [x s']. destruct Hs as [Ha Hx].
  destruct (capacityJudged pool && _ && _).
  - rewrite Hx. split; [done|]. left. split; [|done]. by apply Hpark.
  - split; [by destruct x as [[]|]|]. right. split; [by intros ?%Hpark|]. exists x. split; [done|]. by destruct x as [[]|].
Qed.

End select.

(** ** Readings the machine can make *)

(** Counters are 64-bit integers and error rates binary64 numbers. *)
Record machineReadings (r : Resolver) (candidates : list MappingCandidate) : Prop := {
  mr_telemetry server tel ok : r_TelemetryByServer r server = Some (tel, ok) ->
    in_int64 (tel_ActiveRequests tel) /\ in_int64 (tel_QueueDepth tel) /\ in_int64 (tel_LatencyMS tel) /\
    f64_valid (tel_ErrorRate tel) = true;
  mr_state state server address : r_runtimeState r = Some state ->
    in_int64 (ms_active (state server address)) /\ in_int64 (ms_queue (state server address));
  mr_candidate c : c ∈ candidates ->
    in_int64 (app_Priority (mc_Application c)) /\ in_int64 (app_Weight (mc_Application c))
}.

Lemma machineReadings_numbered r candidates model audio now :
  machineReadings r candidates -> numbered (scoreOf r model audio now) candidates.
Proof.
  intros [Ht Hs Hc] c sc Hin Hsc. unfold scoreOf in Hsc.
  destruct (r_TelemetryByServer r _) as [[tel ok]|] eqn:E; [|done]. destruct (Ht _ _ _ E) as (T1 & T2 & T3 & T4).
  destruct (Hc c Hin) as [C1 C2]. unfold candidateScore, mergeRuntimeModelMetrics, runtimeModelState in Hsc.
  destruct (r_runtimeState r) as [state|] eqn:Er; simpl in Hsc; [|by eapply Score_number; [|exact Hsc]].
  destruct (Hs state (srv_ID (mc_Server c)) (candidateAddress c) eq_refl) as [S1 S2].
  destruct (ms_metricsOK _); simpl in Hsc; [|by eapply Score_number; [|exact Hsc]].
  eapply Score_number; [|exact Hsc]. destruct ok; by split.
Qed.

(** What a selection is made on: readable sources in range, each instance once. *)
Record sound (r : Resolver) (candidates : list MappingCandidate) : Prop := {
  so_machine : machineReadings r candidates;
  so_readable : Forall (readable r) candidates;
  so_keys : NoDup (candidateKey <$> candidates)
}.

Lemma sound_wellRead r req now candidates : sound r candidates -> wellRead r req now candidates.
Proof. intros [H1 H2 H3]. split_and!; [done| |done]. by apply machineReadings_numbered. Qed.

(** C10.  The selection is the best candidate of one declared preference.  A candidate it
    returns was offered, is reachable, not excluded and viable, and fits the request's
    context unless no reachable one does; and against every viable rival of that kind it
    wins, in this order: it is under its cap; it would not evict a model in use; its model
    is loaded, else starting; it is the instance the request prefers (honoured only when
    it is under its cap); its score is not lower. *)
Theorem selectCandidate_best `{Unicode} r candidates req now s c :
  sound r candidates -> (selectCandidate r candidates req now s).1 = inl (Some c) ->
  let pool := eligible r req candidates in
  exists c0, c = set_InstancePool (existsb mc_InstanceCapable pool) c0 /\
    c0 ∈ candidates /\ reachableFor r req c0 /\ viableFor r req now c0 /\
    (fitsRequest req c0 \/ forall y, y ∈ candidates -> reachableFor r req y -> ~ fitsRequest req y) /\
    forall y, y ∈ candidates -> reachableFor r req y -> viableFor r req now y ->
      (fitsRequest req y \/ ~ fitsRequest req c0) ->
      candidateBeats r req now s pool c0 y.
Proof.
  intros Hs E pool. pose proof (selectCandidate_cases r req now s candidates (sound_wellRead r req now candidates Hs)) as HC.
  fold pool in HC. cbv zeta in HC. destruct (selectCandidate r candidates req now s) as [x s']. simpl in E. subst x.
  destruct HC as (_ & [[_ ?]|(_ & x' & Hopt & Ex)]); [done|].
  destruct x' as [[c0|]|]; simplify_eq. exists c0. destruct Hopt as (Hin & Hv & HR).
  pose proof (proj1 (eligible_spec r req candidates c0) Hin) as (H1 & H2 & H3). split_and!; [done..|].
  intros y Hy Hry Hvy Hfy. apply HR; [|done]. apply eligible_spec. split_and!; [done..|].
  destruct Hfy as [?|Hnf]; [by left|]. right. naive_solver.
Qed.

(** What a selection answers is decided by the pool alone: it asks the caller to
    wait exactly when there is a queue, a source of load, and every eligible candidate is
    at its cap; it gives up exactly when otherwise no eligible candidate is viable; in
    every other case it selects one, and it fails only on an unreadable source.  Counting
    the reservations changes none of the counts. *)
Theorem selectCandidate_answers `{Unicode} r candidates req now s :
  sound r candidates ->
  let pool := eligible r req candidates in
  let '(x, s') := selectCandidate r candidates req now s in
  agree now s' s /\ x <> inr LoadTelemetry /\
  ((exists ac, x = inr (AllAtCapacity ac)) <-> mustPark r req now s pool) /\
  ((exists c, x = inl (Some c)) <-> ~ mustPark r req now s pool /\ exists c, c ∈ pool /\ viableFor r req now c) /\
  (x = inl None <-> ~ mustPark r req now s pool /\ forall c, c ∈ pool -> ~ viableFor r req now c).
Proof.
  intros Hs pool. pose proof (selectCandidate_cases r req now s candidates (sound_wellRead r req now candidates Hs)) as HC.
  fold pool in HC. cbv zeta in HC. destruct (selectCandidate r candidates req now s) as [x s'].
  destruct HC as (Ha & [[Hp ->]|(Hn & x' & Hopt & Ex)]); (split; [done|]).
  - split_and!; [done|naive_solver..|]. split; [done|naive_solver].
  - assert (Hsome : forall c, x' = inl (Some c) -> c ∈ pool /\ viableFor r req now c) by (intros c ->; naive_solver).
    assert (Hnone : x' = inl None -> forall c, c ∈ pool -> ~ viableFor r req now c) by (intros ->; exact Hopt).
    destruct x' as [[c|]|]; simplify_eq; [| |done].
    + split_and!; [done|naive_solver| |].
      * split; [intros _; split; [done|eauto]|by eexists].
      * split; [done|]. intros [_ Hv]. exfalso. destruct (Hsome c eq_refl). by eapply Hv.
    + split_and!; [done|naive_solver| |].
      * split; [naive_solver|]. intros (_ & c & Hc & Hv). exfalso. by eapply Hnone.
      * split; [intros _; split; [done|by apply Hnone]|done].
Qed.

(** ** Least loaded instances *)

Definition instanceLoad (activity : option (string -> Z)) (c : MappingCandidate) : Z :=
  match activity with Some activity => activity (candidateKey c) | None => 0 end.

(** The instances of [pool] none of which has more in flight than another of them. *)
Definition leastLoaded (activity : option (string -> Z)) (pool : list MappingCandidate) (c : MappingCandidate) : Prop :=
  c ∈ pool /\ mc_InstanceCapable c = true /\
  forall y, y ∈ pool -> mc_InstanceCapable y = true -> instanceLoad activity c <= instanceLoad activity y.

(** Inside the loop: the instances with the lowest load so far. *)
Definition leastSoFar (activity : option (string -> Z)) (pool least : list MappingCandidate) (low : Z) : Prop :=
  least = List.filter (fun c => mc_InstanceCapable c && (instanceLoad activity c =? low)) pool /\
  (forall c, c ∈ pool -> mc_InstanceCapable c = true -> least <> [] /\ low <= instanceLoad activity c).

Lemma filter_none_of {A} (q : A -> bool) (l : list A) : (forall x, x ∈ l -> q x = false) -> List.filter q l = [].
Proof.
  intros Hq. induction l as [|x l IH]; simpl; [done|]. rewrite Hq by left. apply IH. intros y Hy. apply Hq. by right.
Qed.

Lemma leastStep_inv activity pool least low c :
  leastSoFar activity pool least low ->
  let '(least', low') := leastStep activity (least, low) c in leastSoFar activity (pool ++ [c]) least' low'.
Proof.
  intros [Hl Hlow]. unfold leastStep. fold (instanceLoad activity c).
  destruct (mc_InstanceCapable c) eqn:Ec; simpl.
  2: { split; [by rewrite List.filter_app, Hl; simpl; rewrite Ec, app_nil_r|].
       intros y [Hy| ->%list_elem_of_singleton]%elem_of_app Hyc; [by apply Hlow|congruence]. }
  assert (Hnew : (forall y, y ∈ pool -> mc_InstanceCapable y = true -> instanceLoad activity c < instanceLoad activity y) ->
    leastSoFar activity (pool ++ [c]) [c] (instanceLoad activity c)).
  { intros Hall. split.
    - rewrite List.filter_app, (filter_none_of _ pool); simpl; [by rewrite Ec, Z.eqb_refl|].
      intros y Hy. destruct (mc_InstanceCapable y) eqn:Ey; [|done]. apply Z.eqb_neq. specialize (Hall y Hy Ey). lia.
    - intros y [Hy| ->%list_elem_of_singleton]%elem_of_app Hyc; (split; [done|]); [|lia]. specialize (Hall y Hy Hyc). lia. }
  destruct (Nat.eqb_spec (length least) 0) as [El|El]; simpl.
  { apply Hnew. intros y Hy Hyc. destruct (Hlow y Hy Hyc) as [Hne _]. by apply nil_length_inv in El. }
  destruct (Z.ltb_spec (instanceLoad activity c) low) as [Hlt|Hge].
  { apply Hnew. intros y Hy Hyc. destruct (Hlow y Hy Hyc). lia. }
  destruct (Z.eqb_spec (instanceLoad activity c) low) as [He|Hn].
  - split.
    + rewrite List.filter_app, Hl. simpl. by rewrite Ec, (proj2 (Z.eqb_eq _ _) He).
    + intros y [Hy| ->%list_elem_of_singleton]%elem_of_app Hyc; (split; [by destruct least|]); [|lia]. by apply Hlow.
  - split.
    + rewrite List.filter_app, Hl. simpl. by rewrite Ec, (proj2 (Z.eqb_neq _ _) Hn), app_nil_r.
    + intros y [Hy| ->%list_elem_of_singleton]%elem_of_app Hyc; (split; [by destruct least|]); [|lia]. by apply Hlow.
Qed.

Lemma leastLoadedInstances_spec activity pool :
  leastLoadedInstances pool activity `sublist_of` pool /\
  (forall c, c ∈ leastLoadedInstances pool activity <-> leastLoaded activity pool c) /\
  (leastLoadedInstances pool activity = [] -> forall c, c ∈ pool -> mc_InstanceCapable c = false).
Proof.
  assert (H : let '(least, low) := foldl (leastStep activity) ([], 0) pool in leastSoFar activity pool least low).
  { induction pool as [|c pool IH] using rev_ind; [split; [done|by intros ? ?%elem_of_nil]|].
    rewrite foldl_app. simpl. destruct (foldl _ _ pool) as [least low]. by apply leastStep_inv. }
  unfold leastLoadedInstances. destruct (foldl _ _ pool) as [least low]. destruct H as [Hl Hlow]. simpl. split_and!.
  - rewrite Hl. apply filter_sublist.
  - intros c. unfold leastLoaded. rewrite Hl at 1. rewrite elem_of_filter_list, andb_true_iff, Z.eqb_eq. split.
    + intros (Hc & Hcc & He). split_and!; [done..|]. intros y Hy Hyc. rewrite He. by apply Hlow.
    + intros (Hc & Hcc & Hmin). split_and!; [done..|]. destruct (Hlow c Hc Hcc) as [Hne Hle].
      destruct least as [|b least']; [done|].
      assert (Hb : b ∈ List.filter (fun c => mc_InstanceCapable c && (instanceLoad activity c =? low)) pool)
        by (rewrite <- Hl; left).
      rewrite elem_of_filter_list, andb_true_iff, Z.eqb_eq in Hb. destruct Hb as (Hb & Hbc & Hbl).
      specialize (Hmin b Hb Hbc). lia.
  - intros E c Hc. destruct (mc_InstanceCapable c) eqn:Ec; [|done]. by destruct (Hlow c Hc Ec).
Qed.

(** A request that must not wait is served whenever anything can serve it: from a
    pool whose every candidate is at its cap it gets a viable candidate if there is one,
    and an instance with the fewest requests in flight if one of those is viable. *)
Theorem served_without_parking r ac model audio now :
  sound r (ac_pool ac) ->
  match selectWithoutParking r ac model audio now with
  | inl (Some c) => exists c0, c = set_InstancePool (ac_instancePool ac) c0 /\ c0 ∈ ac_pool ac /\
      viable r model audio now c0 /\
      ((exists y, leastLoaded (r_instanceActivity r) (ac_pool ac) y /\ viable r model audio now y) ->
       leastLoaded (r_instanceActivity r) (ac_pool ac) c0)
  | inl None => forall c, c ∈ ac_pool ac -> ~ viable r model audio now c
  | inr _ => False
  end.
Proof.
  intros [Hm Hr Hk]. set (pool := ac_pool ac) in *. set (act := r_instanceActivity r).
  pose proof (machineReadings_numbered r pool model audio now Hm) as Hn.
  pose proof (selectWithSwapProtection_optimal r model audio now pool Hr Hn Hk "") as Hf.
  destruct (leastLoadedInstances_spec act pool) as (Hsub & Hin & Hnil).
  assert (E : selectWithoutParking r ac model audio now =
    match orElse (selectWithSwapProtection r (leastLoadedInstances pool act) model audio now "")
                 (selectWithSwapProtection r pool model audio now "") with
    | inl (Some c) => inl (Some (set_InstancePool (ac_instancePool ac) c))
    | x => x
    end).
  { unfold selectWithoutParking. fold pool act. pose proof (optimal_nil _ _ _ _ Hf) as H0. cbv beta in H0.
    destruct (leastLoadedInstances pool act); [rewrite H0|]; by destruct (orElse _ _) as [[]|]. }
  rewrite E. clear E.
  pose proof (Hf _ Hsub) as H1. pose proof (Hf pool ltac:(reflexivity)) as H2. cbv beta in H1, H2.
  destruct (selectWithSwapProtection r (leastLoadedInstances pool act) model audio now "") as [[c|]|]; [| |done]; simpl in *.
  - destruct H1 as (Hc & Hv & _). exists c. split_and!; [done|by eapply elem_of_sublist|done|].
    intros _. by apply Hin.
  - destruct (selectWithSwapProtection r pool model audio now "") as [[c|]|]; [|done..]. destruct H2 as (Hc & Hv & _).
    exists c. split_and!; [done..|]. intros (y & Hy & Hvy). exfalso. apply (H1 y); [|done]. by apply Hin.
Qed.

(** ** A concrete selection *)

Module Scenario.

#[export] Instance unicode : Unicode := ascii_tables.

Definition telemetry : ServerTelemetry := mkServerTelemetry "" 1000 2 0 40 (f64_ratio 1 10).

(** "s1" is at its cap, "s2" has the model loaded, "s3" is idle, "s4" is unhealthy. *)
Definition resolver : Resolver := {|
  r_checker := None;
  r_busy := Some (fun server => String.eqb server "s5");
  r_loaded := Some (fun app server => if String.eqb server "s2" then ["qwen"] else []);
  r_activity := Some (fun server => if String.eqb server "s3" then (0, 0) else (2, 900));
  r_runtimeState := None;
  r_swapProtectWindow := 60;
  r_admission := true;
  r_demand := true;
  r_instanceActivity := Some (fun key => if String.eqb key "m6#1" then 3 else 1);
  r_liveSlots := None;
  r_TelemetryByServer := fun _ => Some (telemetry, true)
|}.

Definition mapping (id : string) (cap : Z) : ModelMapping :=
  (plainMapping id "chat" "qwen") <| mm_GenTokensPerSecond := f64_of_int 50 |> <| mm_ContextSize := 4096 |>
    <| mm_MaxConcurrency := cap |>.

Definition candidate (server health id : string) (cap priority : Z) : MappingCandidate :=
  mkMappingCandidate (plainServer server ServerStatusActive health)
    (plainApplication (server +:+ "/app") "vllm" priority 10 0 30 server) (mapping id cap) 0 false 0 false "".

Definition candidates : list MappingCandidate :=
  [candidate "s1" "healthy" "m1" 2 9; candidate "s2" "healthy" "m2" 8 1; candidate "s3" "healthy" "m3" 0 5;
   candidate "s4" HealthUnhealthy "m4" 0 9].

Definition request : Request :=
  mkRequest "chat" " OpenAI_chat" [] ["write  a haiku"] 128 false ["m9#0"] "" 0 false false "" false "" "" "" false.

Lemma sound_any cands :
  Forall (fun c => bool_decide (in_int64 (app_Priority (mc_Application c))) &&
                   bool_decide (in_int64 (app_Weight (mc_Application c))) = true) cands ->
  NoDup (candidateKey <$> cands) -> sound resolver cands.
Proof.
  intros Hc Hk. split; [|by apply Forall_forall; intros; eexists|done]. split; [|done|].
  - intros server tel ok [= <- <-]. vm_compute. intuition congruence.
  - intros c Hin. rewrite Forall_forall in Hc. specialize (Hc c Hin). by bool_hyps.
Qed.

Lemma candidates_sound : sound resolver candidates.
Proof. apply sound_any; [repeat constructor|apply (bool_decide_eq_true_1 _); vm_compute; reflexivity]. Qed.

Definition chosen : MappingCandidate := candidate "s2" "healthy" "m2" 8 1.

(** The loaded model wins over the higher priority of a server at its cap and of an idle
    one. *)
Lemma selectCandidate_best_witness :
  exists c0, chosen = set_InstancePool false c0 /\
    candidateBeats resolver request 1010 None (eligible resolver request candidates) c0
      (candidate "s1" "healthy" "m1" 2 9).
Proof.
  destruct (selectCandidate_best resolver candidates request 1010 None chosen candidates_sound)
    as (c0 & E & _ & _ & _ & _ & Hb); [vm_compute; reflexivity|].
  exists c0. split; [exact E|]. apply Hb.
  - left.
  - split; [vm_compute; reflexivity|apply (bool_decide_eq_true_1 _); vm_compute; reflexivity].
  - vm_compute. by eexists.
  - left. right. clear. vm_compute. congruence.
Defined.

(** With the two other servers out of reach the request has to wait. *)
Lemma selectCandidate_answers_witness :
  exists ac, (selectCandidate resolver [candidate "s1" "healthy" "m1" 2 9; candidate "s5" "healthy" "m5" 9 9]
                request 1010 None).1 = inr (AllAtCapacity ac).
Proof.
  set (cands := [_; _]).
  assert (Hs : sound resolver cands)
    by (apply sound_any; [repeat constructor|apply (bool_decide_eq_true_1 _); vm_compute; reflexivity]).
  pose proof (selectCandidate_answers resolver cands request 1010 None Hs) as HA. cbv zeta in HA.
  destruct (selectCandidate resolver cands request 1010 None) as [x s'] eqn:E. destruct HA as (_ & _ & Hpark & _).
  apply Hpark, mustPark_test. vm_compute. reflexivity.
Defined.

Definition instance (k : Z) : MappingCandidate :=
  set_Instance k (set_capable 1 (candidate "s6" "healthy" "m6" 0 1)).

Definition busyPool : atCapacityError := mkAtCapacityError None [instance 1; instance 0] true.

(** Both instances are busy; the one with fewer requests serves. *)
Lemma served_without_parking_witness :
  exists c0, selectWithoutParking resolver busyPool "chat" false 1010 = inl (Some (set_InstancePool true c0)) /\
    leastLoaded (r_instanceActivity resolver) (ac_pool busyPool) c0.
Proof.
  assert (Hs : sound resolver (ac_pool busyPool))
    by (apply sound_any; [repeat constructor|apply (bool_decide_eq_true_1 _); vm_compute; reflexivity]).
  pose proof (served_without_parking resolver busyPool "chat" false 1010 Hs) as HP.
  assert (E : selectWithoutParking resolver busyPool "chat" false 1010 = inl (Some (set_InstancePool true (instance 0))))
    by (vm_compute; reflexivity).
  rewrite E in HP. destruct HP as (c0 & Ec & _ & _ & HL). exists c0. split; [rewrite E; by rewrite Ec|].
  apply HL. exists (instance 0).
  split; [|vm_compute; by eexists]. split_and!; [by right; left|reflexivity|].
  assert (Hall : Forall (fun y => instanceLoad (r_instanceActivity resolver) (instance 0)
                                  <= instanceLoad (r_instanceActivity resolver) y) [instance 1; instance 0])
    by (clear; repeat constructor; vm_compute; discriminate).
  intros y Hy _. by apply (proj1 (Forall_forall _ _) Hall).
Defined.

End Scenario.
