(* ===== verification/Filters.v ===== *)
(** * The filters of a candidate pool

    Models what decides, before any selection, which mappings may serve a request
    ([gateway/backend/internal/routing]): the provisioning, endpoint and capability gates
    and their composition [memberPool] ([resolver.go]), the endpoint rule
    ([applicationServesEndpoint]) and the capability verdicts ([store.go]), the voice
    filter ([voice_filter.go]) and the real-time gate ([realtime.go]).

    A [StoreView] is what the store and the provisioning gate answer about one request's
    principal at one time; a read that fails is [None].  A voice list is stored as JSON:
    decoding it ([decodeNames], [None] is a decoding error) is a parameter. *)

From Stdlib Require Import ZArith Lia.
From stdpp Require Import base tactics option list numbers strings gmap sets.
From S2P Require Import Prelude Float64 RoutingTypes AdmissionQueue Selection.
Local Open Scope Z_scope.
Local Open Scope go_scope.

(** ** Errors *)

Inductive routeError :=
| ErrNoModelRoute
| ErrNoHealthyHost
| ErrModelNotCapable
| ErrVoiceUnavailable
| ErrNoRealtimeCandidate
| ErrServerOverrideModelUnavailable
| ErrServerOverrideServerUnavailable
| StoreFailed (what : string)
| AdmissionFailed (err : waitError)
| ErrPinnedInstancesGone
| ErrPinServerUnusable.

Definition result (A : Type) : Type := (A + routeError)%type.

Global Instance result_ret : MRet result := fun A x => inl x.
Global Instance result_bind : MBind result := fun A B f m =>
  match m with inl x => f x | inr e => inr e end.

(** A read that may fail. *)
Definition read_or {A} (what : string) (x : option A) : result A :=
  match x with Some x => inl x | None => inr (StoreFailed what) end.

(** ** Capability verdicts *)

Definition CapabilityImage : string := "image".
Definition CapabilityImageEdit : string := "image_edit".
Definition CapabilitySpeechClone : string := "speech_clone".
Definition CapabilityYes : string := "yes".
Definition CapabilityNo : string := "no".

Record CapabilityRow := mkCapabilityRow {
  cap_Capability : string;
  cap_Verdict : string;
  cap_Source : string;
  cap_CheckedAt : time
}.

Definition CapabilityRowsByName (rows : list CapabilityRow) : gmap string CapabilityRow :=
  foldl (fun out r => <[cap_Capability r := r]> out) ∅ rows.

(** [byName[name].Verdict], of the zero row where there is none. *)
Definition verdictOf (rows : list CapabilityRow) (name : string) : string :=
  cap_Verdict (map_get (mkCapabilityRow "" "" "" time_zero) (CapabilityRowsByName rows) name).

Definition ImpliedImageEdit (rows : list CapabilityRow) : bool :=
  String.eqb (verdictOf rows CapabilityImage) CapabilityYes
  && negb (String.eqb (verdictOf rows CapabilityImageEdit) CapabilityNo).

Definition capabilityRowsSatisfy (rows : list CapabilityRow) (required : list string) : bool :=
  forallb (fun name =>
    if String.eqb name CapabilityImageEdit then ImpliedImageEdit rows
    else String.eqb (verdictOf rows name) CapabilityYes) required.

Definition CapabilityRowsPlainTTS (rows : list CapabilityRow) : bool :=
  String.eqb (verdictOf rows CapabilitySpeech) CapabilityYes
  && negb (String.eqb (verdictOf rows CapabilitySpeechClone) CapabilityYes).

Definition CapabilityRowsSpeech (rows : list CapabilityRow) : bool :=
  String.eqb (verdictOf rows CapabilitySpeech) CapabilityYes.

(** ** What is read *)

Record ModelMappingCacheRow := mkCacheRow {
  cr_MappingID : string;
  cr_CacheType : string;
  cr_ScopeKey : string;
  cr_Payload : string;
  cr_UpdatedAt : time
}.

Record StoreView := mkStoreView {
  sv_ActiveMappingsForModel : string -> string -> option (list MappingCandidate);
  sv_AllowedServerIDs : option (list string -> option (gset string));   (* [None]: no gate *)
  sv_MappingCapabilities : list string -> option (gmap string (list CapabilityRow));
  sv_MappingVoices : list string -> option (gmap string (list ModelMappingCacheRow));
  sv_realtimeMinFactor : float64
}.

(** ** Distinct identifiers, in order of appearance *)

Fixpoint distinctFrom (seen : gset string) (l : list string) : list string :=
  match l with
  | [] => []
  | x :: l => if bool_decide (x ∈ seen) then distinctFrom seen l else x :: distinctFrom ({[x]} ∪ seen) l
  end.

Definition distinctStrings (l : list string) : list string := distinctFrom ∅ l.

Definition distinctServerIDs (cands : list MappingCandidate) : list string :=
  distinctStrings ((fun c => srv_ID (mc_Server c)) <$> cands).

Definition candidateMappingIDs (pool : list MappingCandidate) : list string :=
  distinctStrings ((fun c => mm_ID (mc_Mapping c)) <$> pool).

(** ** Provisioning, endpoint, capability *)

Definition filterProvisioned (sv : StoreView) (cands : list MappingCandidate) : result (list MappingCandidate) :=
  match sv_AllowedServerIDs sv with
  | None => mret cands
  | Some gate =>
      if (length cands =? 0)%nat then mret cands
      else
        allowed ← read_or "provisioning" (gate (distinctServerIDs cands));
        mret (List.filter (fun c => bool_decide (srv_ID (mc_Server c) ∈ allowed)) cands)
  end.

Definition APIFlavorOpenAIResponses : string := "openai_responses".
Definition APIFlavorAnthropicMessages : string := "anthropic_messages".
Definition EndpointModeDisabled : string := "disabled".

Definition applicationHasAPIFlavor (app : Application) (apiFlavor : string) : bool :=
  existsb (fun candidate => String.eqb candidate apiFlavor) (app_APIFlavors app).

Definition applicationServesEndpoint `{Unicode} (app : Application) (fineFlavor : string) : bool :=
  if String.eqb fineFlavor APIFlavorOpenAIResponses then
    applicationHasAPIFlavor app APIFlavorOpenAI
    && (String.eqb (app_Type app) ProviderServerAgent
        || negb (String.eqb (app_ResponsesMode app) EndpointModeDisabled))
  else if String.eqb fineFlavor APIFlavorAnthropicMessages then
    applicationHasAPIFlavor app APIFlavorAnthropic
    && (String.eqb (app_Type app) ProviderServerAgent
        || negb (String.eqb (app_MessagesMode app) EndpointModeDisabled))
  else applicationHasAPIFlavor app (NormalizeAPIFlavor fineFlavor).

Definition filterServesEndpoint `{Unicode} (cands : list MappingCandidate) (fineFlavor : string)
  : list MappingCandidate :=
  if negb (String.eqb fineFlavor APIFlavorOpenAIResponses)
     && negb (String.eqb fineFlavor APIFlavorAnthropicMessages) then cands
  else List.filter (fun c => applicationServesEndpoint (mc_Application c) fineFlavor) cands.

Definition filterCapable (sv : StoreView) (cands : list MappingCandidate) (required : list string)
  : result (list MappingCandidate) :=
  if (length required =? 0)%nat || (length cands =? 0)%nat then mret cands
  else
    caps ← read_or "capability gate" (sv_MappingCapabilities sv (candidateMappingIDs cands));
    mret (List.filter (fun c => capabilityRowsSatisfy (map_get [] caps (mm_ID (mc_Mapping c))) required) cands).

Definition memberPool `{Unicode} (sv : StoreView) (name apiFlavor fineFlavor : string) (required : list string)
  : result (list MappingCandidate) :=
  cands ← read_or "resolve member mappings" (sv_ActiveMappingsForModel sv name apiFlavor);
  cands ← filterProvisioned sv cands;
  filterCapable sv (filterServesEndpoint cands fineFlavor) required.

(** ** Real time *)

Definition tooSlowForRealtime (sv : StoreView) (c : MappingCandidate) : bool :=
  let rate := mm_AudioRateX (mc_Mapping c) in
  f64_ltb f64_zero rate && f64_ltb rate (sv_realtimeMinFactor sv).

Definition filterRealtime (sv : StoreView) (cands : list MappingCandidate) (req : Request)
  : result (list MappingCandidate) :=
  if negb (req_RealtimeRequired req) || (length cands =? 0)%nat then mret cands
  else
    let kept := List.filter (fun c => negb (tooSlowForRealtime sv c)) cands in
    if (length kept =? 0)%nat then inr ErrNoRealtimeCandidate else mret kept.

(** ** The voice *)

Record voiceScope := mkVoiceScope {
  vs_allowed : gset string;
  vs_narrowed : bool
}.

Definition restrict (v : option voiceScope) (cands : list MappingCandidate) : list MappingCandidate :=
  match v with
  | None => cands
  | Some v => List.filter (fun c => bool_decide (mm_ID (mc_Mapping c) ∈ vs_allowed v)) cands
  end.

Definition refine (v : option voiceScope) (err : routeError) : routeError :=
  match v, err with
  | Some v, ErrNoHealthyHost => if vs_narrowed v then ErrVoiceUnavailable else err
  | _, _ => err
  end.

Definition hasVoicesRow (rows : list ModelMappingCacheRow) : bool :=
  existsb (fun row => String.eqb (cr_ScopeKey row) "") rows.

Section voices.
Context `{Unicode} (decodeNames : string -> option (list string)).

(** [None] is an error; a row with another scope or a blank payload is passed over. *)
Fixpoint VoiceNamesFromCacheRows (rows : list ModelMappingCacheRow) : option (list string) :=
  match rows with
  | [] => Some []
  | row :: rows =>
      if negb (String.eqb (cr_ScopeKey row) "") || String.eqb (strings_TrimSpace (cr_Payload row)) ""
      then VoiceNamesFromCacheRows rows
      else decodeNames (cr_Payload row)
  end.

Definition FirstPresetVoice (rows : list ModelMappingCacheRow) : string :=
  match VoiceNamesFromCacheRows rows with
  | None => ""
  | Some names =>
      foldl (fun first name =>
        if String.eqb (strings_TrimSpace name) "" then first
        else if String.eqb first "" || String.ltb name first then name else first) "" names
  end.

Definition speechMappingIDs (ids : list string) (verdicts : gmap string (list CapabilityRow)) : list string :=
  List.filter (fun id => CapabilityRowsSpeech (map_get [] verdicts id)) ids.

Definition voiceClassifiedIDs (speech : list string) (verdicts : gmap string (list CapabilityRow))
    (cached : gmap string (list ModelMappingCacheRow)) : list string :=
  List.filter (fun id => CapabilityRowsPlainTTS (map_get [] verdicts id) || hasVoicesRow (map_get [] cached id)) speech.

Definition voiceListsEligible (rows : list ModelMappingCacheRow) (voice : string) : bool :=
  if negb (hasVoicesRow rows) then true
  else match VoiceNamesFromCacheRows rows with
       | None => true
       | Some names => slices_Contains names voice
       end.

Definition voiceScopeFor (sv : StoreView) (voice : string) (pool : list MappingCandidate)
  : result (option voiceScope) :=
  if String.eqb voice "" || (length pool =? 0)%nat then mret None
  else
    let ids := candidateMappingIDs pool in
    verdicts ← read_or "voice filter: read capability verdicts" (sv_MappingCapabilities sv ids);
    let speech := speechMappingIDs ids verdicts in
    if (length speech =? 0)%nat then mret None
    else match sv_MappingVoices sv speech with
         | None => mret None
         | Some cached =>
             let classified := voiceClassifiedIDs speech verdicts cached in
             if (length classified =? 0)%nat then mret None
             else
               let '(allowed, knownAbsent) :=
                 foldl (fun acc id =>
                   if voiceListsEligible (map_get [] cached id) voice then ({[id]} ∪ acc.1, acc.2)
                   else (acc.1, acc.2 + 1)) (∅ : gset string, 0) classified in
               if (size allowed =? 0)%nat then mret None
               else if knownAbsent =? 0 then mret None
               else mret (Some (mkVoiceScope allowed true))
         end.

End voices.
