(* ===== verification/FiltersProps.v ===== *)
(** * Which candidates may serve a request

    The gates of [Filters] as one declarative condition on a mapping ([memberPool_exact])
    and what the voice filter keeps, drops and leaves alone ([voice_filter_exact]).

    The store answers a batch of identifiers row by row: what it says about an identifier
    does not depend on which others were asked with it ([rowwise]). *)

From Stdlib Require Import ZArith Lia.
From stdpp Require Import base tactics option list numbers strings gmap sets.
From S2P Require Import Prelude Float64 RoutingTypes Selection Filters.
Local Open Scope Z_scope.
Local Open Scope go_scope.

(** ** Lists *)

Lemma distinctFrom_elem seen l x : x ∈ distinctFrom seen l <-> x ∈ l /\ x ∉ seen.
Proof.
  revert seen. induction l as [|y l IH]; intros seen; simpl; [set_solver|].
  case_bool_decide as Hy; rewrite ?elem_of_cons, IH; [|rewrite elem_of_union, elem_of_singleton];
    rewrite ?elem_of_cons; destruct (decide (x = y)) as [->|]; naive_solver.
Qed.

Lemma distinctStrings_elem l x : x ∈ distinctStrings l <-> x ∈ l.
Proof. unfold distinctStrings. rewrite distinctFrom_elem. set_solver. Qed.

Lemma distinctFrom_nodup seen l : NoDup (distinctFrom seen l).
Proof.
  revert seen. induction l as [|y l IH]; intros seen; simpl; [constructor|].
  case_bool_decide; [done|]. constructor; [|done]. rewrite distinctFrom_elem. set_solver.
Qed.

Lemma distinctStrings_nodup l : NoDup (distinctStrings l).
Proof. apply distinctFrom_nodup. Qed.

Lemma distinctStrings_nil l : distinctStrings l = [] <-> l = [].
Proof.
  split; [|by intros ->]. intros E. destruct l as [|x l]; [done|].
  assert (Hx : x ∈ distinctStrings (x :: l)) by (apply distinctStrings_elem; left).
  rewrite E in Hx. by apply elem_of_nil in Hx.
Qed.

Lemma candidateMappingIDs_elem pool id :
  id ∈ candidateMappingIDs pool <-> exists c, c ∈ pool /\ mm_ID (mc_Mapping c) = id.
Proof. unfold candidateMappingIDs. rewrite distinctStrings_elem, list_elem_of_fmap. naive_solver. Qed.

Lemma distinctServerIDs_elem cands id :
  id ∈ distinctServerIDs cands <-> exists c, c ∈ cands /\ srv_ID (mc_Server c) = id.
Proof. unfold distinctServerIDs. rewrite distinctStrings_elem, list_elem_of_fmap. naive_solver. Qed.

Lemma filter_filter {A} (p q : A -> bool) l : List.filter p (List.filter q l) = List.filter (fun x => q x && p x) l.
Proof. induction l as [|x l IH]; [done|]. simpl. destruct (q x); simpl; [destruct (p x)|]; simpl; by rewrite ?IH. Qed.

Lemma filter_all {A} (p : A -> bool) l : (forall x, x ∈ l -> p x = true) -> List.filter p l = l.
Proof.
  induction l as [|x l IH]; [done|]. intros Hp. simpl. rewrite Hp by left. f_equal. apply IH.
  intros y Hy. apply Hp. by right.
Qed.

(** ** A store that answers row by row *)

Record facts := mkFacts {
  f_allowed : string -> bool;                          (* servers provisioned for the principal *)
  f_caps : string -> list CapabilityRow;
  f_voices : string -> list ModelMappingCacheRow
}.

Record rowwise (sv : StoreView) (f : facts) : Prop := {
  rw_gate : sv_AllowedServerIDs sv = None -> forall id, f_allowed f id = true;
  rw_allowed gate ids answer : sv_AllowedServerIDs sv = Some gate -> gate ids = Some answer ->
    forall id, id ∈ ids -> bool_decide (id ∈ answer) = f_allowed f id;
  rw_caps ids answer : sv_MappingCapabilities sv ids = Some answer ->
    forall id, id ∈ ids -> map_get [] answer id = f_caps f id;
  rw_voices ids answer : sv_MappingVoices sv ids = Some answer ->
    forall id, id ∈ ids -> map_get [] answer id = f_voices f id
}.

Section gates.
Context `{Unicode} (sv : StoreView) (f : facts) (Hf : rowwise sv f).

Definition endpointServed (fineFlavor : string) (c : MappingCandidate) : bool :=
  negb (String.eqb fineFlavor APIFlavorOpenAIResponses) && negb (String.eqb fineFlavor APIFlavorAnthropicMessages)
  || applicationServesEndpoint (mc_Application c) fineFlavor.

Definition capable (required : list string) (c : MappingCandidate) : bool :=
  capabilityRowsSatisfy (f_caps f (mm_ID (mc_Mapping c))) required.

(** A mapping may serve a request of a principal. *)
Definition mayServe (fineFlavor : string) (required : list string) (c : MappingCandidate) : bool :=
  f_allowed f (srv_ID (mc_Server c)) && endpointServed fineFlavor c && capable required c.

Lemma filterProvisioned_filter cands out :
  filterProvisioned sv cands = inl out -> out = List.filter (fun c => f_allowed f (srv_ID (mc_Server c))) cands.
Proof.
  unfold filterProvisioned. destruct (sv_AllowedServerIDs sv) as [gate|] eqn:Eg.
  - destruct (Nat.eqb_spec (length cands) 0) as [Hl|Hl].
    { apply nil_length_inv in Hl as ->. by intros [= <-]. }
    destruct (gate (distinctServerIDs cands)) as [answer|] eqn:Ea; [|done]. intros [= <-].
    apply filter_ext_elem. intros c Hc. apply (rw_allowed _ _ Hf _ _ _ Eg Ea).
    apply distinctServerIDs_elem. by exists c.
  - intros [= <-]. symmetry. apply filter_all. intros c _. by apply (rw_gate _ _ Hf).
Qed.

Lemma filterServesEndpoint_filter cands fineFlavor :
  filterServesEndpoint cands fineFlavor = List.filter (endpointServed fineFlavor) cands.
Proof.
  unfold filterServesEndpoint, endpointServed. destruct (_ && _); simpl; [|done].
  symmetry. by apply filter_all.
Qed.

Lemma capable_nil c : capable [] c = true.
Proof. done. Qed.

Lemma filterCapable_filter cands required out :
  filterCapable sv cands required = inl out -> out = List.filter (capable required) cands.
Proof.
  unfold filterCapable. destruct (Nat.eqb_spec (length required) 0) as [Hr|Hr]; simpl.
  { apply nil_length_inv in Hr as ->. intros [= <-]. symmetry. by apply filter_all. }
  destruct (Nat.eqb_spec (length cands) 0) as [Hl|Hl]; simpl.
  { apply nil_length_inv in Hl as ->. by intros [= <-]. }
  destruct (sv_MappingCapabilities sv _) as [caps|] eqn:Ec; [|done]. intros [= <-].
  apply filter_ext_elem. intros c Hc. unfold capable. rewrite (rw_caps _ _ Hf _ _ Ec); [done|].
  apply candidateMappingIDs_elem. by exists c.
Qed.

Lemma memberPool_filter name apiFlavor fineFlavor required pool :
  memberPool sv name apiFlavor fineFlavor required = inl pool ->
  exists stored, sv_ActiveMappingsForModel sv name apiFlavor = Some stored /\
    pool = List.filter (mayServe fineFlavor required) stored.
Proof.
  unfold memberPool. destruct (sv_ActiveMappingsForModel sv name apiFlavor) as [stored|]; [|done]. simpl.
  destruct (filterProvisioned sv stored) as [cands|e] eqn:Ep; [|done]. simpl. intros Hc.
  exists stored. split; [done|]. apply filterProvisioned_filter in Ep as ->.
  apply filterCapable_filter in Hc as ->. rewrite filterServesEndpoint_filter, !filter_filter.
  apply List.filter_ext. intros c. unfold mayServe. by rewrite <- andb_assoc.
Qed.

(** The gates are one condition on a mapping.  The pool a model offers a request is
    the stored mappings, in their order, whose server is provisioned for the principal,
    whose application serves the endpoint and whose verdicts satisfy every required
    capability; and the pool is refused only when a read failed -- the list of mappings,
    the provisioning gate, or the verdicts of a request that requires a capability. *)
Theorem memberPool_exact name apiFlavor fineFlavor required :
  match memberPool sv name apiFlavor fineFlavor required with
  | inl pool => exists stored, sv_ActiveMappingsForModel sv name apiFlavor = Some stored /\
      pool = List.filter (mayServe fineFlavor required) stored
  | inr e => (exists what, e = StoreFailed what) /\
      (sv_ActiveMappingsForModel sv name apiFlavor = None \/
       (exists gate ids, sv_AllowedServerIDs sv = Some gate /\ gate ids = None) \/
       (required <> [] /\ exists ids, sv_MappingCapabilities sv ids = None))
  end.
Proof.
  destruct (memberPool sv name apiFlavor fineFlavor required) as [pool|e] eqn:E; [by apply memberPool_filter in E|].
  unfold memberPool, filterProvisioned, filterCapable, read_or, mbind, result_bind in E. repeat case_match; simplify_eq/=;
    (split; [by eexists|]); first [by left | right; left; eauto; fail | right; right].
  all: bool_hyps; split; [by destruct required|eauto].
Qed.

End gates.

(** ** The voice *)

Section voice.
Context `{Unicode} (decodeNames : string -> option (list string)) (sv : StoreView) (f : facts)
  (Hf : rowwise sv f) (voice : string).

Local Notation names id := (VoiceNamesFromCacheRows decodeNames (f_voices f id)).

(** What is known about a mapping and the voice.  A speech model carries voice data when
    it is no clone, or a clone whose voices were listed at least once. *)
Definition hasVoiceData (id : string) : bool :=
  CapabilityRowsSpeech (f_caps f id)
  && (CapabilityRowsPlainTTS (f_caps f id) || hasVoicesRow (f_voices f id)).

Definition listsVoice (id : string) : Prop :=
  hasVoicesRow (f_voices f id) = true /\ exists l, names id = Some l /\ voice ∈ l.

Definition knownAbsent (id : string) : Prop :=
  hasVoiceData id = true /\ hasVoicesRow (f_voices f id) = true /\ exists l, names id = Some l /\ voice ∉ l.

Definition mayHaveVoice (id : string) : Prop :=
  hasVoiceData id = true /\
  (listsVoice id \/ hasVoicesRow (f_voices f id) = false \/ names id = None).

Lemma voiceListsEligible_spec id :
  hasVoiceData id = true ->
  if voiceListsEligible decodeNames (f_voices f id) voice then mayHaveVoice id else knownAbsent id.
Proof.
  intros Hd. unfold voiceListsEligible, mayHaveVoice, knownAbsent, listsVoice, slices_Contains.
  destruct (hasVoicesRow (f_voices f id)) eqn:Er; simpl; [|auto].
  destruct (names id) as [l|] eqn:El; [|auto]. case_bool_decide; (split; [done|]); [left|]; (split; [done|]); by exists l.
Qed.

Lemma mayHaveVoice_not_absent id : mayHaveVoice id -> ~ knownAbsent id.
Proof.
  intros [_ [(_ & l & El & ?)|[?|?]]] (_ & ? & l' & El' & ?); congruence.
Qed.

(** The loop over the classified mappings. *)
Lemma classify_spec (elig : string -> bool) ids allowed0 n0 :
  0 <= n0 ->
  let '(allowed, n) := foldl (fun acc id => if elig id then ({[id]} ∪ acc.1, acc.2) else (acc.1, acc.2 + 1))
                         (allowed0 : gset string, n0) ids in
  (forall id, id ∈ allowed <-> id ∈ allowed0 \/ (id ∈ ids /\ elig id = true)) /\
  n0 <= n /\ (n = 0 <-> n0 = 0 /\ forall id, id ∈ ids -> elig id = true).
Proof.
  revert allowed0 n0. induction ids as [|x ids IH]; intros allowed0 n0 Hn; simpl.
  { split_and!; [set_solver|lia|]. split; [|naive_solver]. intros ->. split; [done|]. by intros ? ?%elem_of_nil. }
  destruct (elig x) eqn:Ex; [specialize (IH ({[x]} ∪ allowed0) n0 Hn)|specialize (IH allowed0 (n0 + 1) ltac:(lia))];
    destruct (foldl _ _ ids) as [allowed n]; destruct IH as (H1 & H2 & H3); split_and!; try lia.
  - intros id. rewrite H1, elem_of_union, elem_of_singleton, elem_of_cons. split; [|intuition congruence].
    intros [[->|?]|[? ?]]; auto.
  - rewrite H3. split; intros [-> Hall]; (split; [done|]); intros id.
    + rewrite elem_of_cons. intros [->|?]; auto.
    + intros ?. apply Hall. by right.
  - intros id. rewrite H1, elem_of_cons. split; [intuition|]. intros [?|[[->|?] ?]]; [auto|congruence|auto].
  - rewrite H3. split; [intros [? _]; lia|]. intros [_ Hall]. by rewrite Hall in Ex by left.
Qed.

(** The classified mappings of a pool are the ones with voice data. *)
Lemma classified_spec pool verdicts cached :
  sv_MappingCapabilities sv (candidateMappingIDs pool) = Some verdicts ->
  let speech := speechMappingIDs (candidateMappingIDs pool) verdicts in
  sv_MappingVoices sv speech = Some cached ->
  let classified := voiceClassifiedIDs speech verdicts cached in
  (forall id, id ∈ classified <-> (exists c, c ∈ pool /\ mm_ID (mc_Mapping c) = id) /\ hasVoiceData id = true) /\
  (forall id, id ∈ classified -> map_get [] cached id = f_voices f id).
Proof.
  intros Ev speech Ec classified.
  assert (Hs : forall id, id ∈ speech <->
    (exists c, c ∈ pool /\ mm_ID (mc_Mapping c) = id) /\ CapabilityRowsSpeech (f_caps f id) = true).
  { intros id. unfold speech, speechMappingIDs. rewrite elem_of_filter_bool, candidateMappingIDs_elem.
    split; intros [Hp Hv]; (split; [done|]).
    all: rewrite (rw_caps _ _ Hf _ _ Ev) in * by (by apply candidateMappingIDs_elem); done. }
  assert (Hc : forall id, id ∈ speech -> map_get [] cached id = f_voices f id)
    by (intros id Hid; by apply (rw_voices _ _ Hf _ _ Ec)).
  split.
  - intros id. unfold classified, voiceClassifiedIDs. rewrite elem_of_filter_bool. unfold hasVoiceData. split.
    + intros [Hid Hv]. pose proof (proj1 (Hs id) Hid) as [Hp Hsp]. split; [done|]. rewrite Hsp. simpl.
      rewrite <- (Hc id Hid), <- (rw_caps _ _ Hf _ _ Ev); [done|by apply candidateMappingIDs_elem].
    + intros [Hp Hv]. bool_hyps. assert (Hid : id ∈ speech) by (by apply Hs). split; [done|].
      rewrite (Hc id Hid), (rw_caps _ _ Hf _ _ Ev); [done|by apply candidateMappingIDs_elem].
  - intros id. unfold classified, voiceClassifiedIDs. rewrite elem_of_filter_bool. intros [Hid _]. by apply Hc.
Qed.

(** The voice narrows a pool exactly when something in it is known to lack the voice and
    something may have it. *)
Definition narrows (pool : list MappingCandidate) : Prop :=
  voice <> "" /\
  (exists c, c ∈ pool /\ knownAbsent (mm_ID (mc_Mapping c))) /\
  (exists c, c ∈ pool /\ mayHaveVoice (mm_ID (mc_Mapping c))).

Lemma voiceScopeFor_cases pool v :
  voiceScopeFor decodeNames sv voice pool = inl v ->
  match v with
  | Some v => vs_narrowed v = true /\ narrows pool /\
      forall c, c ∈ pool -> (mm_ID (mc_Mapping c) ∈ vs_allowed v <-> mayHaveVoice (mm_ID (mc_Mapping c)))
  | None => narrows pool -> exists ids, sv_MappingVoices sv ids = None
  end.
Proof.
  unfold voiceScopeFor. destruct (String.eqb_spec voice "") as [->|Hv]; simpl; [by intros [= <-] []|].
  destruct (Nat.eqb_spec (length pool) 0) as [Hl|_]; simpl.
  { apply nil_length_inv in Hl as ->. intros [= <-] (_ & (c & Hc & _) & _). by apply elem_of_nil in Hc. }
  destruct (sv_MappingCapabilities sv _) as [verdicts|] eqn:Ev; [|done]. simpl.
  set (speech := speechMappingIDs _ verdicts).
  assert (Hsp : narrows pool -> speech <> []).
  { intros (_ & (c & Hc & (Hd & _)) & _) E.
    assert (Hin : mm_ID (mc_Mapping c) ∈ speech); [|rewrite E in Hin; by apply elem_of_nil in Hin].
    unfold speech, speechMappingIDs. rewrite elem_of_filter_bool.
    assert (Hid : mm_ID (mc_Mapping c) ∈ candidateMappingIDs pool) by (apply candidateMappingIDs_elem; eauto).
    split; [done|]. rewrite (rw_caps _ _ Hf _ _ Ev _ Hid). unfold hasVoiceData in Hd. by bool_hyps. }
  destruct (Nat.eqb_spec (length speech) 0) as [Hl|_].
  { apply nil_length_inv in Hl. intros [= <-] Hn. by destruct (Hsp Hn). }
  destruct (sv_MappingVoices sv speech) as [cached|] eqn:Ec; [|intros [= <-] _; eauto].
  pose proof (classified_spec pool verdicts cached Ev Ec) as [Hcl Hrows]. fold speech in Hcl, Hrows.
  set (classified := voiceClassifiedIDs _ _ _) in *.
  pose proof (classify_spec (fun id => voiceListsEligible decodeNames (map_get [] cached id) voice) classified ∅ 0 ltac:(lia)) as Hloop.
  destruct (foldl _ _ classified) as [allowed n]. destruct Hloop as (Ha & Hn0 & Hn).
  assert (Hel : forall id, id ∈ classified ->
    if voiceListsEligible decodeNames (map_get [] cached id) voice then mayHaveVoice id else knownAbsent id).
  { intros id Hid. rewrite (Hrows id Hid). apply voiceListsEligible_spec. by apply Hcl. }
  assert (Hmay : forall id, id ∈ allowed <-> (exists c, c ∈ pool /\ mm_ID (mc_Mapping c) = id) /\ mayHaveVoice id).
  { intros id. rewrite Ha. split.
    - intros [?|[Hid He]]; [set_solver|]. split; [by apply Hcl|]. specialize (Hel id Hid). by rewrite He in Hel.
    - intros [Hp Hm]. right. assert (Hid : id ∈ classified) by (apply Hcl; split; [done|apply Hm]).
      split; [done|]. specialize (Hel id Hid). destruct (voiceListsEligible _ _ _); [done|].
      by destruct (mayHaveVoice_not_absent id Hm). }
  assert (Habs : narrows pool -> n <> 0).
  { intros (_ & (c & Hc & Hk) & _) En. apply Hn in En as [_ Hall].
    assert (Hid : mm_ID (mc_Mapping c) ∈ classified) by (apply Hcl; split; [eauto|apply Hk]).
    specialize (Hel _ Hid). rewrite (Hall _ Hid) in Hel. by destruct (mayHaveVoice_not_absent _ Hel). }
  destruct (Nat.eqb_spec (length classified) 0) as [Hl|_].
  { apply nil_length_inv in Hl. intros [= <-] Hnr. destruct (Habs Hnr). apply Hn. split; [done|].
    rewrite Hl. by intros ? ?%elem_of_nil. }
  destruct (Nat.eqb_spec (size allowed) 0) as [Hz|Hz].
  { intros [= <-] (_ & _ & c & Hc & Hm). apply size_empty_inv in Hz.
    assert (Hin : mm_ID (mc_Mapping c) ∈ allowed) by (apply Hmay; eauto). set_solver. }
  destruct (Z.eqb_spec n 0) as [->|Hne]; [intros [= <-] Hnr; by destruct (Habs Hnr)|].
  intros [= <-]. simpl. split_and!; [done| |].
  - split_and!; [done| |].
    + destruct (decide (Forall (fun id => voiceListsEligible decodeNames (map_get [] cached id) voice = true) classified)) as [Hall|Hex].
      { destruct Hne. apply Hn. split; [done|]. by apply Forall_forall. }
      apply not_Forall_Exists in Hex; [|intros ?; apply _]. apply Exists_exists in Hex as (id & Hid & Hno).
      specialize (Hel id Hid). simpl in Hno. destruct (voiceListsEligible _ _ _); [by destruct Hno|].
      destruct (proj1 (Hcl id) Hid) as [(c & Hc & <-) _]. eauto.
    + destruct (set_choose_or_empty allowed) as [[id Hid]|E]; [|apply size_empty_iff in E; lia].
      apply Hmay in Hid as [(c & Hc & <-) Hm]. eauto.
  - intros c Hc. rewrite Hmay. naive_solver.
Qed.

Lemma restrict_nonempty pool v : voiceScopeFor decodeNames sv voice pool = inl v -> pool <> [] -> restrict v pool <> [].
Proof.
  intros E Hne. pose proof (voiceScopeFor_cases pool v E) as Hc. destruct v as [v|]; [|done]. simpl.
  destruct Hc as (_ & (_ & _ & c & Hin & Hm) & Ha). intros En.
  assert (Hx : c ∈ List.filter (fun c => bool_decide (mm_ID (mc_Mapping c) ∈ vs_allowed v)) pool).
  { apply elem_of_filter_bool. split; [done|]. by apply bool_decide_eq_true, Ha. }
  rewrite En in Hx. by apply elem_of_nil in Hx.
Qed.

(** The voice filter steers and never strands.  Restricting a pool leaves a candidate
    in it, and none that lists the voice is ever dropped.  While the voice lists can be
    read, the pool is narrowed exactly when some candidate is known to lack the voice and
    another may have it -- its list names it, or nothing readable is known about it -- and
    then to those that may; otherwise it is left as it was. *)
Theorem voice_filter_exact pool v :
  voiceScopeFor decodeNames sv voice pool = inl v ->
  let kept := restrict v pool in
  (pool <> [] -> kept <> []) /\
  (forall c, c ∈ pool -> hasVoiceData (mm_ID (mc_Mapping c)) = true -> listsVoice (mm_ID (mc_Mapping c)) -> c ∈ kept) /\
  (narrows pool -> (forall ids, is_Some (sv_MappingVoices sv ids)) ->
     forall c, c ∈ kept <-> c ∈ pool /\ mayHaveVoice (mm_ID (mc_Mapping c))) /\
  (~ narrows pool -> kept = pool).
Proof.
  intros E kept. pose proof (restrict_nonempty pool v E) as Hne. pose proof (voiceScopeFor_cases pool v E) as Hc.
  unfold kept. destruct v as [v|]; simpl.
  - destruct Hc as (_ & Hn & Ha).
    assert (Hk : forall c, c ∈ List.filter (fun c => bool_decide (mm_ID (mc_Mapping c) ∈ vs_allowed v)) pool <->
              c ∈ pool /\ mayHaveVoice (mm_ID (mc_Mapping c))).
    { intros c. rewrite elem_of_filter_bool, bool_decide_eq_true. split; intros [? ?]; (split; [done|]); by apply Ha. }
    split_and!.
    + done.
    + intros c Hin Hd Hl. apply Hk. split; [done|]. split; [done|]. by left.
    + intros _ _. apply Hk.
    + done.
  - split_and!; [done..| |done]. intros Hn Hr. destruct (Hc Hn) as [ids Eids].
    destruct (Hr ids) as [? ?]. congruence.
Qed.

End voice.

(** ** A concrete store *)

Module Examples.

Definition speaks : list CapabilityRow := [mkCapabilityRow CapabilitySpeech CapabilityYes "manual" 0].

Definition known : facts := {|
  f_allowed id := negb (String.eqb id "s3");
  f_caps _ := speaks;
  f_voices id := if String.eqb id "m1" then [mkCacheRow "m1" "voices" "" "anna" 0]
                 else if String.eqb id "m2" then [mkCacheRow "m2" "voices" "" "ben" 0] else []
|}.

Definition cand (server mapping : string) : MappingCandidate :=
  plainCandidate server "vllm" (plainMapping mapping "speech" "tts").

Definition stored : list MappingCandidate := [cand "s1" "m1"; cand "s2" "m2"; cand "s3" "m3"].

Definition store : StoreView := {|
  sv_ActiveMappingsForModel name _ := if String.eqb name "speech" then Some stored else Some [];
  sv_AllowedServerIDs := Some (fun ids => Some (list_to_set (List.filter (f_allowed known) ids)));
  sv_MappingCapabilities ids := Some (list_to_map ((fun id => (id, f_caps known id)) <$> remove_dups ids));
  sv_MappingVoices ids := Some (list_to_map ((fun id => (id, f_voices known id)) <$> remove_dups ids));
  sv_realtimeMinFactor := f64_zero
|}.

Lemma rows_of {A} (g : string -> A) (zero : A) ids id :
  id ∈ ids -> map_get zero (list_to_map ((fun id => (id, g id)) <$> remove_dups ids) : gmap string A) id = g id.
Proof.
  intros Hid. unfold map_get.
  assert (Hl : (list_to_map ((fun id => (id, g id)) <$> remove_dups ids) : gmap string A) !! id = Some (g id)).
  { apply elem_of_list_to_map_1.
    - rewrite <- list_fmap_compose.
      replace (_ <$> remove_dups ids) with (remove_dups ids); [apply NoDup_remove_dups|].
      induction (remove_dups ids) as [|x l IH]; [done|]. rewrite fmap_cons, <- IH. done.
    - apply list_elem_of_fmap. exists id. split; [done|]. by apply elem_of_remove_dups. }
  by rewrite Hl.
Qed.

Lemma store_rowwise : rowwise store known.
Proof.
  split.
  - done.
  - intros gate ids answer [= <-] [= <-] id Hid. 
    case_bool_decide as Hb; rewrite elem_of_list_to_set, elem_of_filter_bool in Hb; [by destruct Hb as [_ Hb]|].
    symmetry. apply not_true_iff_false. by intros Ha; destruct Hb.
  - intros ids answer [= <-] id. apply rows_of.
  - intros ids answer [= <-] id. apply rows_of.
Qed.

Local Existing Instance ascii_tables.

Lemma memberPool_exact_witness :
  exists stored', sv_ActiveMappingsForModel store "speech" "openai_audio" = Some stored' /\
    [cand "s1" "m1"; cand "s2" "m2"] =
      List.filter (mayServe known "openai_audio_speech" [CapabilitySpeech]) stored'.
Proof.
  exact (memberPool_exact store known store_rowwise "speech" "openai_audio" "openai_audio_speech" [CapabilitySpeech]).
Defined.

Definition decode (payload : string) : option (list string) := Some [payload].

Lemma voice_filter_exact_witness :
  restrict (Some (mkVoiceScope {["m1"]} true)) [cand "s1" "m1"; cand "s2" "m2"] <> [].
Proof.
  apply (voice_filter_exact decode store known store_rowwise "anna" [cand "s1" "m1"; cand "s2" "m2"]);
    [vm_compute; reflexivity|done].
Defined.

End Examples.
