(* ===== verification/Targets.v ===== *)
(** * The target of a request

    What a resolved request is sent to: [Target] and [targetFrom] of
    [gateway/backend/internal/routing/resolver.go], with the helpers it composes:
    [EffectiveFields] and the listing rules of [served_flavors.go], [SpecUpstreamAuth]
    ([runtime_api_token_mode.go]), the runtime kind of a spec ([runtime_spec_type.go]) and
    the endpoint of an application ([store.go]). *)

From Stdlib Require Import ZArith Lia.
From stdpp Require Import base tactics option list numbers strings gmap sets.
From S2P Require Import Prelude Float64 RoutingTypes RuntimeTypes GatewayInstances.
From S2P Require Import Selection Filters.
Local Open Scope Z_scope.
Local Open Scope go_scope.

(** ** Strings *)

(** [strings.Contains] *)
Fixpoint strings_Contains (s sub : string) : bool :=
  String.prefix sub s || match s with String _ s' => strings_Contains s' sub | EmptyString => false end.

(** [strings.TrimRight(s, "/")] and [strings.Trim(s, "/")]. *)
Definition trimSlashesRight (s : string) : string :=
  String.string_of_list_ascii (reverse (drop_while (Ascii.eqb slash) (reverse (String.list_ascii_of_string s)))).

Definition trimSlashes (s : string) : string :=
  trimSlashesRight (String.string_of_list_ascii (drop_while (Ascii.eqb slash) (String.list_ascii_of_string s))).

(** ** The endpoint *)

Definition joinURLPath `{Unicode} (base : string) (segments : list string) : string :=
  foldl (fun out seg =>
    let seg := trimSlashes (strings_TrimSpace seg) in
    if String.eqb seg "" then out else out +:+ "/" +:+ seg)
  (trimSlashesRight base) segments.

Definition ApplicationEndpoint `{Unicode} (server : AIServer) (app : Application) : string :=
  let scheme := if String.eqb (app_Scheme app) "" then "http" else app_Scheme app in
  let port := if String.eqb scheme "https" && negb (app_ProxyListenPort app =? 0)
              then app_ProxyListenPort app else app_Port app in
  let origin := scheme +:+ "://" +:+ srv_Domain server +:+ ":" +:+ strconv_Itoa port in
  joinURLPath origin [srv_ServerPathSuffix server; app_AppPathSuffix app].

(** ** The kind of a runtime *)

Definition RuntimeSpecTypeVLLM : string := "vllm".
Definition RuntimeSpecTypeLlamaCpp : string := "llama_cpp".
Definition RuntimeSpecTypeTGI : string := "tgi".
Definition RuntimeSpecTypeOllama : string := "ollama".
Definition RuntimeSpecTypeStableDiffusionCpp : string := "stable_diffusion_cpp".
Definition RuntimeSpecTypeAudioCpp : string := "audio_cpp".
Definition RuntimeSpecTypeCustom : string := "custom".

Definition DetectRuntimeSpecType `{Unicode} (binary : string) : string :=
  let name := strings_ToLower (filepath_Base binary) in
  let has := strings_Contains name in
  if has "vllm" then RuntimeSpecTypeVLLM
  else if has "llama-server" || has "llama_cpp" || has "llama.cpp" then RuntimeSpecTypeLlamaCpp
  else if has "text-generation-launcher" || has "tgi" then RuntimeSpecTypeTGI
  else if has "sd-server" || has "stable-diffusion" then RuntimeSpecTypeStableDiffusionCpp
  else if has "audiocpp_server" || has "audio.cpp" then RuntimeSpecTypeAudioCpp
  else if has "ollama" then RuntimeSpecTypeOllama
  else RuntimeSpecTypeCustom.

Definition EffectiveRuntimeSpecType `{Unicode} (spec : RuntimeSpec) : string :=
  if negb (String.eqb (sp_Type spec) "") then sp_Type spec else DetectRuntimeSpecType (sp_Binary spec).

Definition defaultPrometheusMetricsPath : string := "/metrics".

Definition DeriveProbePaths (t metricsOverride contextOverride : string) : string * string :=
  let '(defaultMetrics, defaultContext) :=
    if String.eqb t RuntimeSpecTypeVLLM then (defaultPrometheusMetricsPath, "/v1/models")
    else if String.eqb t RuntimeSpecTypeLlamaCpp then (defaultPrometheusMetricsPath, "/props")
    else if String.eqb t RuntimeSpecTypeTGI then (defaultPrometheusMetricsPath, "/info")
    else if String.eqb t RuntimeSpecTypeOllama then ("", "/api/show")
    else ("", "") in
  (if negb (String.eqb metricsOverride "") then metricsOverride else defaultMetrics,
   if negb (String.eqb contextOverride "") then contextOverride else defaultContext).

(** ** What a mapping serves *)

Record EffectiveSpecFields := mkEffectiveSpecFields {
  eff_APIFlavors : list string;
  eff_ResponsesMode : string;
  eff_MessagesMode : string;
  eff_ResponsesLiveTimingsEnabled : bool
}.

Definition EffectiveFields (app : Application) (spec : RuntimeSpec) (hasSpec : bool) : EffectiveSpecFields :=
  if String.eqb (app_Type app) ProviderServerAgent && hasSpec
  then mkEffectiveSpecFields (sp_APIFlavors spec) (sp_ResponsesMode spec) (sp_MessagesMode spec)
         (sp_ResponsesLiveTimingsEnabled spec)
  else mkEffectiveSpecFields (app_APIFlavors app) (app_ResponsesMode app) (app_MessagesMode app)
         (app_ResponsesLiveTimingsEnabled app).

(** The flavors name [kind] and neither text flavor. *)
Fixpoint onlyFlavor (kind : string) (flavors : list string) (found : bool) : bool :=
  match flavors with
  | [] => found
  | f :: flavors =>
      if String.eqb f APIFlavorOpenAI || String.eqb f APIFlavorAnthropic then false
      else onlyFlavor kind flavors (if String.eqb f kind then true else found)
  end.

Definition FlavorsAreImagesOnly (flavors : list string) : bool := onlyFlavor APIFlavorOpenAIImages flavors false.
Definition FlavorsAreAudioOnly (flavors : list string) : bool := onlyFlavor APIFlavorOpenAIAudio flavors false.

Definition listedEndpoint (flavor : string) : option string :=
  if String.eqb flavor APIFlavorOpenAI then Some "openai_chat_completions"
  else if String.eqb flavor APIFlavorAnthropic then Some APIFlavorAnthropicMessages
  else if String.eqb flavor APIFlavorOpenAIImages then Some APIFlavorOpenAIImages
  else if String.eqb flavor APIFlavorOpenAIAudio then Some APIFlavorOpenAIAudio
  else None.

Definition effectiveHasAPIFlavor (eff : EffectiveSpecFields) (flavor : string) : bool :=
  if String.eqb flavor APIFlavorOpenAI
  then negb (FlavorsAreImagesOnly (eff_APIFlavors eff)) && negb (FlavorsAreAudioOnly (eff_APIFlavors eff))
  else slices_Contains (eff_APIFlavors eff) flavor.

Definition MappingHasAPIFlavor (app : Application) (eff : EffectiveSpecFields) (flavor : string) : bool :=
  match listedEndpoint flavor with
  | None => false
  | Some _ => applicationHasAPIFlavor app flavor && effectiveHasAPIFlavor eff flavor
  end.

Definition MappingServesAPIFlavor `{Unicode} (app : Application) (eff : EffectiveSpecFields) (flavor : string) : bool :=
  match listedEndpoint flavor with
  | None => false
  | Some endpoint =>
      if negb (applicationServesEndpoint app endpoint) || negb (effectiveHasAPIFlavor eff flavor) then false
      else negb (String.eqb flavor APIFlavorAnthropic) || negb (String.eqb (eff_MessagesMode eff) EndpointModeDisabled)
  end.

(** ** The credential *)

Definition RuntimeAPITokenModeOff : string := "off".
Definition RuntimeAPITokenModeSet : string := "set".
Definition RuntimeAPITokenModeRandom : string := "random".
Definition RuntimeAPITokenModeApp : string := "app".
Definition RuntimeAPITokenHeaderSourceCustom : string := "custom".

Definition effectiveAPITokenHeader (spec : RuntimeSpec) (app : Application) : string :=
  if String.eqb (sp_APITokenHeaderSource spec) RuntimeAPITokenHeaderSourceCustom
  then sp_APITokenHeader spec else app_APITokenHeader app.

Definition SpecUpstreamAuth (spec : RuntimeSpec) (app : Application) : string * string :=
  let mode := if String.eqb (sp_APITokenMode spec) "" then RuntimeAPITokenModeApp else sp_APITokenMode spec in
  if String.eqb mode RuntimeAPITokenModeOff then ("", "")
  else if String.eqb mode RuntimeAPITokenModeSet || String.eqb mode RuntimeAPITokenModeRandom
  then (sp_APIToken spec, effectiveAPITokenHeader spec app)
  else (app_APIToken app, effectiveAPITokenHeader spec app).

(** ** The target *)

Record Target := mkTarget {
  tg_RouteID : string;
  tg_ServerID : string;
  tg_Provider : string;
  tg_Endpoint : string;
  tg_Model : string;
  tg_ProviderModel : string;
  tg_InstanceKey : string;
  tg_InstanceCapable : bool;
  tg_InstancePool : bool;
  tg_Timeout : duration;
  tg_APIFlavor : string;
  tg_APIToken : string;                      (* sealed *)
  tg_APITokenHeader : string;
  tg_APIFlavors : list string;
  tg_ResponsesMode : string;
  tg_MessagesMode : string;
  tg_OpportunisticMetrics : bool;
  tg_ResponsesLiveTimingsEnabled : bool;
  tg_LiveProgressSupport : string;
  tg_LiveProgressSpecType : string;
  tg_ExtraHeaders : gmap string string;
  tg_Masquerade : string;
  tg_VendorAccountID : string;
  tg_Subscription : bool;
  tg_OpenAIPathPrefix : string
}.

Global Instance Target_fields : Fields Target := fun t =>
  mkTarget (tg_RouteID t) (tg_ServerID t) (tg_Provider t) (tg_Endpoint t) (tg_Model t) (tg_ProviderModel t)
    (tg_InstanceKey t) (tg_InstanceCapable t) (tg_InstancePool t) (tg_Timeout t) (tg_APIFlavor t) (tg_APIToken t)
    (tg_APITokenHeader t) (tg_APIFlavors t) (tg_ResponsesMode t) (tg_MessagesMode t) (tg_OpportunisticMetrics t)
    (tg_ResponsesLiveTimingsEnabled t) (tg_LiveProgressSupport t) (tg_LiveProgressSpecType t) (tg_ExtraHeaders t)
    (tg_Masquerade t) (tg_VendorAccountID t) (tg_Subscription t) (tg_OpenAIPathPrefix t).

Definition OpenAIPathPrefixOrDefault `{Unicode} (t : Target) : string :=
  let prefix := trimSlashesRight (strings_TrimSpace (tg_OpenAIPathPrefix t)) in
  if String.eqb prefix "" then "/v1"
  else if negb (String.prefix "/" prefix) then "/" +:+ prefix else prefix.

(** What a keyed read answers. *)
Inductive lookup_result (A : Type) :=
| Found (x : A)
| NotFound
| ReadFailed.
Arguments Found {A} x.
Arguments NotFound {A}.
Arguments ReadFailed {A}.

(** [RuntimeSpecByMapping] is what the read of a mapping's spec answers. *)
Definition targetFrom `{Unicode} (RuntimeSpecByMapping : string -> lookup_result RuntimeSpec)
    (c : MappingCandidate) (apiFlavor : string) : result Target :=
  let server := mc_Server c in
  let app := mc_Application c in
  let mapping := mc_Mapping c in
  '(spec, hasSpec, liveProgressSpecType) ←
    (if String.eqb (app_Type app) ProviderServerAgent then
       match RuntimeSpecByMapping (mm_ID mapping) with
       | ReadFailed => inr (StoreFailed "load runtime spec")
       | Found loaded => mret (loaded, true, EffectiveRuntimeSpecType loaded)
       | NotFound => mret (zeroRuntimeSpec, false, EffectiveRuntimeSpecType zeroRuntimeSpec)
       end
     else mret (zeroRuntimeSpec, false, ""));
  let eff := EffectiveFields app spec hasSpec in
  let '(apiToken, apiTokenHeader) := SpecUpstreamAuth spec app in
  mret {|
    tg_RouteID := mm_ID mapping;
    tg_ServerID := srv_ID server;
    tg_Provider := app_Type app;
    tg_Endpoint := ApplicationEndpoint server app;
    tg_Model := mm_GatewayModelName mapping;
    tg_ProviderModel := Addresses.InstanceAddress (mm_AppModelName mapping) (mc_Instance c);
    tg_InstanceKey := Addresses.InstanceKey (mm_ID mapping) (mc_Instance c);
    tg_InstanceCapable := mc_InstanceCapable c;
    tg_InstancePool := mc_InstancePool c;
    tg_Timeout := int64 (app_TimeoutMS app * 1000000);
    tg_APIFlavor := apiFlavor;
    tg_APIToken := apiToken;
    tg_APITokenHeader := apiTokenHeader;
    tg_APIFlavors := eff_APIFlavors eff;
    tg_ResponsesMode := eff_ResponsesMode eff;
    tg_MessagesMode := eff_MessagesMode eff;
    tg_OpportunisticMetrics := app_OpportunisticMetricsEnabled app;
    tg_ResponsesLiveTimingsEnabled := eff_ResponsesLiveTimingsEnabled eff;
    tg_LiveProgressSupport := mc_LiveProgressSupport c;
    tg_LiveProgressSpecType := liveProgressSpecType;
    tg_ExtraHeaders := ∅;
    tg_Masquerade := "";
    tg_VendorAccountID := "";
    tg_Subscription := false;
    tg_OpenAIPathPrefix := ""
  |}.
