(* ===== verification/TargetsProps.v ===== *)
(** * Properties of targets

    A target names the instance it addresses, the endpoint it is reached by, its credential
    and one row's serving contract ([target_faithful]); what a model listing announces of a mapping is what dispatch
    serves ([listing_matches_dispatch]). *)

From Stdlib Require Import ZArith Lia.
From stdpp Require Import base tactics option list numbers strings gmap sets pretty.
From S2P Require Import Prelude Float64 RoutingTypes RuntimeTypes RuntimeTypesProps GatewayInstances GatewayInstancesProps.
From S2P Require Import Selection Filters FiltersProps Targets.
Local Open Scope Z_scope.
Local Open Scope go_scope.

(** ** Slashes *)

Definition endsInSlash (s : string) : Prop := exists p, s = p +:+ "/".

Lemma drop_while_head {A} (p : A -> bool) l x l' : drop_while p l = x :: l' -> p x = false.
Proof.
  induction l as [|y l IH]; simpl; [done|]. destruct (p y) eqn:E; [done|]. by intros [= <- _].
Qed.

Lemma list_ascii_app a b :
  String.list_ascii_of_string (a +:+ b) = String.list_ascii_of_string a ++ String.list_ascii_of_string b.
Proof. induction a as [|c a IH]; [done|]. simpl. by rewrite <- IH. Qed.

Lemma trimSlashesRight_clean s : ~ endsInSlash (trimSlashesRight s).
Proof.
  intros [p E]. apply (f_equal String.list_ascii_of_string) in E. unfold trimSlashesRight in E.
  rewrite String.list_ascii_of_string_of_list_ascii, list_ascii_app in E.
  apply (f_equal reverse) in E. rewrite reverse_involutive, reverse_app in E.
  apply drop_while_head in E. done.
Qed.

Lemma append_nonempty_clean a b : b <> "" -> ~ endsInSlash b -> ~ endsInSlash (a +:+ b).
Proof.
  intros Hb Hc [p E]. apply Hc. apply (f_equal String.list_ascii_of_string) in E. rewrite !list_ascii_app in E.
  destruct (exists_last (l := String.list_ascii_of_string b)) as (l & c & El).
  { intros E'. apply Hb. rewrite <- (String.string_of_list_ascii_of_string b). by rewrite E'. }
  rewrite El, app_assoc in E. apply app_inj_tail in E as [_ ->].
  exists (String.string_of_list_ascii l). rewrite <- (String.string_of_list_ascii_of_string b), El.
  clear. induction l as [|x l IH]; [done|]. simpl. by rewrite IH.
Qed.

Lemma joinURLPath_clean `{Unicode} base segments : ~ endsInSlash (joinURLPath base segments).
Proof.
  unfold joinURLPath. generalize (trimSlashesRight_clean base). generalize (trimSlashesRight base) as out.
  induction segments as [|seg segments IH]; intros out Hout; simpl; [done|]. apply IH.
  destruct (String.eqb_spec (trimSlashes (strings_TrimSpace seg)) "") as [|Hne]; [done|].
  apply append_nonempty_clean; [done|]. apply (append_nonempty_clean "/"); [done|]. apply trimSlashesRight_clean.
Qed.

Definition startsInSlash (s : string) : Prop := exists q, s = "/" +:+ q.

Definition slashes (n : nat) : string := String.string_of_list_ascii (replicate n slash).

Lemma string_append_nil s : s +:+ "" = s.
Proof. induction s as [|c s IH]; [done|]. change (String c (s +:+ "") = String c s). by rewrite IH. Qed.

Lemma string_of_ascii_app l l' :
  String.string_of_list_ascii (l ++ l') = String.string_of_list_ascii l +:+ String.string_of_list_ascii l'.
Proof. induction l as [|c l IH]; [done|]. simpl. by rewrite IH. Qed.

Lemma drop_slashes l : exists n, l = replicate n slash ++ drop_while (Ascii.eqb slash) l.
Proof.
  induction l as [|c l [n IH]]; [by exists 0%nat|]. cbn [drop_while].
  destruct (Ascii.eqb_spec slash c) as [<-|]; [|by exists 0%nat]. exists (S n). simpl. by rewrite <- IH.
Qed.

Lemma trimSlashesRight_split s : exists n, s = trimSlashesRight s +:+ slashes n.
Proof.
  destruct (drop_slashes (reverse (String.list_ascii_of_string s))) as [n E]. exists n.
  apply (f_equal reverse) in E. rewrite reverse_involutive, reverse_app, reverse_replicate in E.
  unfold trimSlashesRight, slashes. rewrite <- string_of_ascii_app, <- E. by rewrite String.string_of_list_ascii_of_string.
Qed.

Lemma trimSlashesRight_id s : ~ endsInSlash s -> trimSlashesRight s = s.
Proof.
  intros Hn. destruct (trimSlashesRight_split s) as [n E]. destruct n as [|n].
  { rewrite E at 2. unfold slashes. simpl. by rewrite string_append_nil. }
  destruct Hn. exists (trimSlashesRight s +:+ slashes n). rewrite E at 1. unfold slashes.
  rewrite replicate_S_end, string_of_ascii_app. by rewrite string_append_assoc.
Qed.

(** [seg] is [s] without the slashes around it. *)
Definition isSegment (s seg : string) : Prop :=
  (exists m n, s = slashes m +:+ seg +:+ slashes n) /\ ~ startsInSlash seg /\ ~ endsInSlash seg.

Lemma trimSlashes_segment s : isSegment s (trimSlashes s).
Proof.
  unfold trimSlashes. destruct (drop_slashes (String.list_ascii_of_string s)) as [m Em].
  set (inner := String.string_of_list_ascii (drop_while _ _)).
  destruct (trimSlashesRight_split inner) as [n En]. split_and!; [| |apply trimSlashesRight_clean].
  - exists m, n. rewrite <- En. unfold inner, slashes. rewrite <- string_of_ascii_app, <- Em.
    by rewrite String.string_of_list_ascii_of_string.
  - intros [q Eq]. rewrite Eq in En. apply (f_equal String.list_ascii_of_string) in En. unfold inner in En.
    rewrite String.list_ascii_of_string_of_list_ascii in En. by apply drop_while_head in En.
Qed.

Lemma cons_clean c s : c <> slash -> ~ endsInSlash s -> ~ endsInSlash (String c s).
Proof.
  intros Hc Hs [p E]. destruct p as [|c' p]; [by injection E as -> _|].
  injection E as -> ->. apply Hs. by exists p.
Qed.

(** A decimal number ends in a digit. *)
Lemma Itoa_clean k : ~ endsInSlash (strconv_Itoa k).
Proof.
  assert (Hchar : forall n, pretty_N_char n <> slash).
  { intros n. unfold pretty_N_char. by repeat case_match. }
  assert (Hgo : forall x s, ~ endsInSlash s -> ~ endsInSlash (pretty_N_go x s)).
  { intros x. induction (N.lt_wf_0 x) as [x _ IH]. intros s Hs. destruct (decide (x = 0)%N) as [->|Hx]; [done|].
    rewrite pretty_N_go_step by lia. apply IH; [apply N.div_lt; lia|]. by apply cons_clean. }
  assert (Hempty : ~ endsInSlash "") by (intros [[|] ?]; discriminate).
  assert (HN : forall x : N, ~ endsInSlash (pretty x)).
  { intros x. unfold pretty, pretty_N. case_decide; [by apply cons_clean|]. by apply Hgo. }
  unfold strconv_Itoa, pretty, pretty_Z. destruct k as [|p|p]; [by apply cons_clean|apply HN|].
  change (~ endsInSlash (String (Ascii.ascii_of_nat 45) (pretty (N.pos p)))). by apply cons_clean.
Qed.

(** The scheme and the port an application is reached by: plain HTTP unless it says
    otherwise, and the agent's proxy listener where HTTPS goes through one. *)
Definition reachedBy (app : Application) (scheme : string) (port : Z) : Prop :=
  scheme = (if bool_decide (app_Scheme app = "") then "http" else app_Scheme app) /\
  port = (if bool_decide (scheme = "https" /\ app_ProxyListenPort app <> 0) then app_ProxyListenPort app else app_Port app).

Definition under (seg : string) : string := if bool_decide (seg = "") then "" else "/" +:+ seg.

(** The base URL of an application of a server, segment by segment. *)
Definition isEndpoint `{Unicode} (server : AIServer) (app : Application) (endpoint : string) : Prop :=
  exists scheme port seg1 seg2, reachedBy app scheme port /\
    isSegment (strings_TrimSpace (srv_ServerPathSuffix server)) seg1 /\
    isSegment (strings_TrimSpace (app_AppPathSuffix app)) seg2 /\
    endpoint = scheme +:+ "://" +:+ srv_Domain server +:+ ":" +:+ strconv_Itoa port +:+ under seg1 +:+ under seg2.

Lemma joinURLPath_under `{Unicode} base s1 s2 :
  ~ endsInSlash base ->
  joinURLPath base [s1; s2] = base +:+ under (trimSlashes (strings_TrimSpace s1)) +:+ under (trimSlashes (strings_TrimSpace s2)).
Proof.
  intros Hb. unfold joinURLPath, under. rewrite trimSlashesRight_id by done. cbn [foldl].
  generalize (trimSlashes (strings_TrimSpace s1)) (trimSlashes (strings_TrimSpace s2)). intros a b.
  destruct (String.eqb_spec a ""), (String.eqb_spec b ""); simplify_eq; repeat case_bool_decide; try done;
    rewrite ?string_append_nil; try done; by rewrite !string_append_assoc.
Qed.

Lemma ApplicationEndpoint_is `{Unicode} server app : isEndpoint server app (ApplicationEndpoint server app).
Proof.
  unfold ApplicationEndpoint. cbv zeta.
  set (scheme := if String.eqb (app_Scheme app) "" then "http" else app_Scheme app).
  set (port := if String.eqb scheme "https" && negb (app_ProxyListenPort app =? 0) then app_ProxyListenPort app else app_Port app).
  exists scheme, port, (trimSlashes (strings_TrimSpace (srv_ServerPathSuffix server))), (trimSlashes (strings_TrimSpace (app_AppPathSuffix app))).
  split_and!; [split| | |]; try apply trimSlashes_segment.
  - unfold scheme. by destruct (String.eqb_spec (app_Scheme app) ""); case_bool_decide.
  - unfold port. destruct (String.eqb_spec scheme "https"), (Z.eqb_spec (app_ProxyListenPort app) 0); simpl;
      case_bool_decide; naive_solver.
  - rewrite joinURLPath_under; [by rewrite !string_append_assoc|].
    rewrite <- !string_append_assoc, string_append_assoc. apply append_nonempty_clean; [done|].
    apply (cons_clean (Ascii.ascii_of_nat 58)); [done|]. apply Itoa_clean.
Qed.

(** ** The target *)

Section target.
Context `{Unicode} (specs : string -> lookup_result RuntimeSpec).

(** The row that governs a candidate's serving contract. *)
Definition governing (c : MappingCandidate) : option RuntimeSpec :=
  if String.eqb (app_Type (mc_Application c)) ProviderServerAgent
  then match specs (mm_ID (mc_Mapping c)) with Found spec => Some spec | _ => None end else None.

Definition contractOf (c : MappingCandidate) : EffectiveSpecFields :=
  match governing c with
  | Some spec => mkEffectiveSpecFields (sp_APIFlavors spec) (sp_ResponsesMode spec) (sp_MessagesMode spec) (sp_ResponsesLiveTimingsEnabled spec)
  | None => let app := mc_Application c in
      mkEffectiveSpecFields (app_APIFlavors app) (app_ResponsesMode app) (app_MessagesMode app) (app_ResponsesLiveTimingsEnabled app)
  end.

(** Whose credential is sent: nobody's, the spec's or the application's. *)
Definition credentialOf (c : MappingCandidate) : string :=
  match governing c with
  | Some spec =>
      if String.eqb (sp_APITokenMode spec) "off" then ""
      else if bool_decide (sp_APITokenMode spec ∈ ["set"; "random"]) then sp_APIToken spec
      else app_APIToken (mc_Application c)
  | None => app_APIToken (mc_Application c)
  end.

(** The header it is sent in. *)
Definition headerOf (c : MappingCandidate) : string :=
  match governing c with
  | Some spec =>
      if String.eqb (sp_APITokenMode spec) "off" then ""
      else if String.eqb (sp_APITokenHeaderSource spec) "custom" then sp_APITokenHeader spec
      else app_APITokenHeader (mc_Application c)
  | None => app_APITokenHeader (mc_Application c)
  end.

(** The kind of an agent's runtime; nothing for other applications. *)
Definition kindOf (c : MappingCandidate) : string :=
  match governing c with
  | Some spec => if bool_decide (sp_Type spec = "") then DetectRuntimeSpecType (sp_Binary spec) else sp_Type spec
  | None => if String.eqb (app_Type (mc_Application c)) ProviderServerAgent then "custom" else ""
  end.

(** What a target takes over unchanged, and what a vendor's target has and it has not. *)
Definition carries (c : MappingCandidate) (apiFlavor : string) (t : Target) : Prop :=
  let app := mc_Application c in
  tg_RouteID t = mm_ID (mc_Mapping c) /\ tg_ServerID t = srv_ID (mc_Server c) /\ tg_Provider t = app_Type app /\
  tg_Model t = mm_GatewayModelName (mc_Mapping c) /\ tg_Timeout t = int64 (app_TimeoutMS app * 1000000) /\
  tg_APIFlavor t = apiFlavor /\ tg_InstanceCapable t = mc_InstanceCapable c /\ tg_InstancePool t = mc_InstancePool c /\
  tg_OpportunisticMetrics t = app_OpportunisticMetricsEnabled app /\ tg_LiveProgressSupport t = mc_LiveProgressSupport c /\
  tg_ExtraHeaders t = ∅ /\ tg_Masquerade t = "" /\ tg_VendorAccountID t = "" /\ tg_Subscription t = false /\
  tg_OpenAIPathPrefix t = "".

Lemma EffectiveFields_contract c spec (hasSpec : bool) :
  (governing c = if hasSpec then Some spec else None) -> EffectiveFields (mc_Application c) spec hasSpec = contractOf c.
Proof.
  unfold EffectiveFields, contractOf. intros E. rewrite E. unfold governing in E.
  destruct (String.eqb _ ProviderServerAgent); destruct hasSpec; done.
Qed.

Lemma SpecUpstreamAuth_sent c spec (hasSpec : bool) :
  (governing c = if hasSpec then Some spec else None) -> (hasSpec = false -> spec = zeroRuntimeSpec) ->
  SpecUpstreamAuth spec (mc_Application c) = (credentialOf c, headerOf c).
Proof.
  unfold credentialOf, headerOf. intros -> Hz. destruct hasSpec; [|by rewrite Hz].
  unfold SpecUpstreamAuth, effectiveAPITokenHeader. cbv zeta. rewrite bool_decide_decide.
  destruct (String.eqb_spec (sp_APITokenMode spec) "") as [->|_]; [done|].
  destruct (String.eqb_spec (sp_APITokenMode spec) RuntimeAPITokenModeOff) as [->|Hoff]; [done|].
  unfold RuntimeAPITokenModeSet, RuntimeAPITokenModeRandom.
  destruct (String.eqb_spec (sp_APITokenMode spec) "off"); [done|].
  destruct (String.eqb_spec (sp_APITokenMode spec) "set") as [->|H1]; [done|].
  destruct (String.eqb_spec (sp_APITokenMode spec) "random") as [->|H2]; [done|].
  rewrite decide_False; [done|]. set_solver.
Qed.

Lemma EffectiveRuntimeSpecType_kind c spec (hasSpec : bool) :
  (governing c = if hasSpec then Some spec else None) -> (hasSpec = false -> spec = zeroRuntimeSpec) ->
  app_Type (mc_Application c) = ProviderServerAgent -> EffectiveRuntimeSpecType spec = kindOf c.
Proof.
  unfold kindOf, EffectiveRuntimeSpecType. intros -> Hz ->. destruct hasSpec; [|by rewrite Hz].
  by destruct (String.eqb_spec (sp_Type spec) ""); case_bool_decide.
Qed.

(** What reading the spec gives [targetFrom]. *)
Lemma targetFrom_cases c apiFlavor :
  match targetFrom specs c apiFlavor with
  | inl t =>
      mkEffectiveSpecFields (tg_APIFlavors t) (tg_ResponsesMode t) (tg_MessagesMode t) (tg_ResponsesLiveTimingsEnabled t)
        = contractOf c /\
      tg_APIToken t = credentialOf c /\ tg_APITokenHeader t = headerOf c /\ tg_LiveProgressSpecType t = kindOf c /\
      tg_InstanceKey t = Addresses.InstanceKey (mm_ID (mc_Mapping c)) (mc_Instance c) /\
      tg_ProviderModel t = Addresses.InstanceAddress (mm_AppModelName (mc_Mapping c)) (mc_Instance c) /\
      tg_Endpoint t = ApplicationEndpoint (mc_Server c) (mc_Application c) /\ carries c apiFlavor t
  | inr e => e = StoreFailed "load runtime spec" /\ app_Type (mc_Application c) = ProviderServerAgent /\
      specs (mm_ID (mc_Mapping c)) = ReadFailed
  end.
Proof.
  unfold targetFrom. cbv zeta.
  set (read := if String.eqb (app_Type (mc_Application c)) ProviderServerAgent then _ else _).
  assert (Hread : match read with
    | inl (spec, hasSpec, kind) => (governing c = if hasSpec then Some spec else None) /\
        (hasSpec = false -> spec = zeroRuntimeSpec) /\ kind = kindOf c
    | inr e => e = StoreFailed "load runtime spec" /\ app_Type (mc_Application c) = ProviderServerAgent /\ specs (mm_ID (mc_Mapping c)) = ReadFailed
    end).
  { unfold read. destruct (String.eqb_spec (app_Type (mc_Application c)) ProviderServerAgent) as [Ht|Ht].
    - assert (Hg : governing c = match specs (mm_ID (mc_Mapping c)) with Found spec => Some spec | _ => None end)
        by (unfold governing; by rewrite Ht, String.eqb_refl).
      destruct (specs (mm_ID (mc_Mapping c))) as [spec| |]; simpl; [| |done]; split_and!; try done.
      + by apply (EffectiveRuntimeSpecType_kind c spec true).
      + by apply (EffectiveRuntimeSpecType_kind c zeroRuntimeSpec false).
    - apply String.eqb_neq in Ht. unfold kindOf, governing. by rewrite Ht. }
  destruct read as [[[spec hasSpec] kind]|e]; [|done]. destruct Hread as (Hg & Hz & ->). simpl.
  rewrite (SpecUpstreamAuth_sent _ _ _ Hg Hz). simpl. rewrite (EffectiveFields_contract _ _ _ Hg).
  split_and!; try done. by destruct (contractOf c).
Qed.

Lemma targetFrom_contract c apiFlavor t :
  targetFrom specs c apiFlavor = inl t ->
  mkEffectiveSpecFields (tg_APIFlavors t) (tg_ResponsesMode t) (tg_MessagesMode t) (tg_ResponsesLiveTimingsEnabled t) = contractOf c.
Proof.
  intros E. pose proof (targetFrom_cases c apiFlavor) as HC. rewrite E in HC.
  by destruct HC.
Qed.

(** C32.  A target says faithfully what is addressed and how.  Building one fails only
    because an agent's spec cannot be read.  Its key is the mapping's with the instance
    chosen, and gives that instance back; its model address is the mapping's own model for
    instance 0, and for a further one splits into the model and the instance.  Its endpoint
    is the scheme (HTTP by default), the server's domain and the port -- the proxy
    listener's where HTTPS goes through one -- followed by the two path suffixes without
    their surrounding slashes, so that it never ends in one.  Its four serving fields come
    from one row -- the spec of an agent's mapping that has one, the application
    otherwise --; the credential and its header are what that row says, none where the spec
    turns it off; and the rest is taken over as it is, with nothing of a vendor's. *)
Theorem target_faithful c apiFlavor :
  0 <= mc_Instance c <= Addresses.MaxInstanceIndex ->
  match targetFrom specs c apiFlavor with
  | inl t =>
      tg_InstanceKey t = mm_ID (mc_Mapping c) +:+ "#" +:+ strconv_Itoa (mc_Instance c) /\
      Addresses.Instance (tg_InstanceKey t) = mc_Instance c /\
      (mc_Instance c = 0 -> tg_ProviderModel t = mm_AppModelName (mc_Mapping c)) /\
      (1 <= mc_Instance c ->
         tg_ProviderModel t = mm_AppModelName (mc_Mapping c) +:+ "#" +:+ strconv_Itoa (mc_Instance c) /\
         ParseInstanceAddress (tg_ProviderModel t) = (mm_AppModelName (mc_Mapping c), mc_Instance c)) /\
      isEndpoint (mc_Server c) (mc_Application c) (tg_Endpoint t) /\ ~ endsInSlash (tg_Endpoint t) /\
      mkEffectiveSpecFields (tg_APIFlavors t) (tg_ResponsesMode t) (tg_MessagesMode t) (tg_ResponsesLiveTimingsEnabled t)
        = contractOf c /\
      tg_APIToken t = credentialOf c /\ tg_APITokenHeader t = headerOf c /\ tg_LiveProgressSpecType t = kindOf c /\
      carries c apiFlavor t
  | inr e => e = StoreFailed "load runtime spec" /\ app_Type (mc_Application c) = ProviderServerAgent /\
      specs (mm_ID (mc_Mapping c)) = ReadFailed
  end.
Proof.
  intros Hk. pose proof (targetFrom_cases c apiFlavor) as HC. destruct (targetFrom specs c apiFlavor) as [t|e]; [|done].
  destruct HC as (-> & -> & -> & -> & -> & -> & -> & Hcarries). split_and!; try done.
  - by apply Instance_key.
  - by intros ->.
  - intros H1. split; [unfold Addresses.InstanceAddress; destruct (Z.eqb_spec (mc_Instance c) 0); [lia|done]|].
    apply parse_address. unfold Addresses.MaxInstanceIndex in Hk. unfold MaxInstanceIndex. lia.
  - apply ApplicationEndpoint_is.
  - apply joinURLPath_clean.
Qed.

(** ** Listings *)

Lemma onlyFlavor_text kind l found :
  (APIFlavorOpenAI ∈ l \/ APIFlavorAnthropic ∈ l) -> onlyFlavor kind l found = false.
Proof.
  revert found. induction l as [|f l IH]; intros found Ht; simpl; [set_solver|].
  destruct (String.eqb_spec f APIFlavorOpenAI), (String.eqb_spec f APIFlavorAnthropic); try done. apply IH. set_solver.
Qed.

Lemma applicationHasAPIFlavor_elem app flavor : applicationHasAPIFlavor app flavor = true <-> flavor ∈ app_APIFlavors app.
Proof.
  unfold applicationHasAPIFlavor. rewrite existsb_exists. setoid_rewrite <- list_elem_of_In. setoid_rewrite String.eqb_eq.
  naive_solver.
Qed.

(** The coarse flavors a listing announces, with the endpoint each stands for. *)
Definition announced : gmap string string := list_to_map [
  (APIFlavorOpenAI, "openai_chat_completions"); (APIFlavorAnthropic, "anthropic_messages");
  (APIFlavorOpenAIImages, APIFlavorOpenAIImages); (APIFlavorOpenAIAudio, APIFlavorOpenAIAudio)].

Lemma listedEndpoint_announced flavor : listedEndpoint flavor = announced !! flavor.
Proof.
  unfold listedEndpoint, announced. simpl.
  repeat match goal with |- context [String.eqb flavor ?x] =>
    destruct (String.eqb_spec flavor x) as [->|];
    [by rewrite ?lookup_insert_ne, lookup_insert by done|] end.
  by rewrite !lookup_insert_ne, lookup_empty by done.
Qed.

Lemma effectiveHas_own app flavor :
  flavor ∈ app_APIFlavors app ->
  effectiveHasAPIFlavor (mkEffectiveSpecFields (app_APIFlavors app) (app_ResponsesMode app) (app_MessagesMode app)
    (app_ResponsesLiveTimingsEnabled app)) flavor = true.
Proof.
  unfold effectiveHasAPIFlavor, FlavorsAreImagesOnly, FlavorsAreAudioOnly, slices_Contains. simpl. intros Hin.
  destruct (String.eqb_spec flavor APIFlavorOpenAI) as [->|_].
  - by rewrite !onlyFlavor_text by auto.
  - by rewrite bool_decide_eq_true.
Qed.

(** Of an ordinary application, its own flavors are what it serves. *)
Lemma servesEndpoint_announced app flavor endpoint :
  announced !! flavor = Some endpoint ->
  (flavor = APIFlavorAnthropic -> app_Type app = ProviderServerAgent \/ app_MessagesMode app <> EndpointModeDisabled) ->
  applicationServesEndpoint app endpoint = applicationHasAPIFlavor app flavor.
Proof.
  rewrite <- listedEndpoint_announced. unfold listedEndpoint.
  destruct (String.eqb_spec flavor APIFlavorOpenAI) as [->|_]; [by intros [= <-]|].
  destruct (String.eqb_spec flavor APIFlavorAnthropic) as [->|_].
  { intros [= <-] Hm. unfold applicationServesEndpoint. simpl.
    destruct (Hm eq_refl) as [->| ->%String.eqb_neq]; simpl; by rewrite ?orb_true_r, andb_true_r. }
  destruct (String.eqb_spec flavor APIFlavorOpenAIImages) as [->|_]; [by intros [= <-]|].
  destruct (String.eqb_spec flavor APIFlavorOpenAIAudio) as [->|_]; [by intros [= <-]|done].
Qed.

(** What a model listing announces of a mapping is what dispatch serves.  A flavor is
    announced exactly when a request of its endpoint is admitted to the mapping and the
    target built from the mapping serves it: text endpoints unless the target's flavors
    are for images or audio only, the others when the target lists them, and messages
    when the target does not disable them.  For an ordinary application whose messages
    endpoint is on, those are the application's own flavors. *)
Theorem listing_matches_dispatch c apiFlavor t flavor :
  targetFrom specs c apiFlavor = inl t ->
  let app := mc_Application c in
  (MappingServesAPIFlavor app (contractOf c) flavor = true <->
   exists endpoint, announced !! flavor = Some endpoint /\ applicationServesEndpoint app endpoint = true /\
     (if String.eqb flavor APIFlavorOpenAI
      then FlavorsAreImagesOnly (tg_APIFlavors t) = false /\ FlavorsAreAudioOnly (tg_APIFlavors t) = false
      else flavor ∈ tg_APIFlavors t) /\
     (flavor = APIFlavorAnthropic -> tg_MessagesMode t <> EndpointModeDisabled)) /\
  (app_Type app <> ProviderServerAgent -> app_MessagesMode app <> EndpointModeDisabled ->
   (MappingServesAPIFlavor app (contractOf c) flavor = true <-> is_Some (announced !! flavor) /\ flavor ∈ app_APIFlavors app)).
Proof.
  intros Et app. pose proof (targetFrom_contract c apiFlavor t Et) as HT.
  assert (Hflavors : tg_APIFlavors t = eff_APIFlavors (contractOf c)) by (by rewrite <- HT).
  assert (Hmode : tg_MessagesMode t = eff_MessagesMode (contractOf c)) by (by rewrite <- HT).
  rewrite Hflavors, Hmode. split.
  - unfold MappingServesAPIFlavor, effectiveHasAPIFlavor, slices_Contains. rewrite listedEndpoint_announced.
    destruct (announced !! flavor) as [endpoint|]; [|naive_solver].
    destruct (applicationServesEndpoint app endpoint) eqn:Ea; simpl; [|naive_solver].
    destruct (String.eqb_spec flavor APIFlavorOpenAI) as [->|Hne].
    + destruct (FlavorsAreImagesOnly _), (FlavorsAreAudioOnly _); simpl; naive_solver.
    + case_bool_decide; simpl; [|naive_solver].
      destruct (String.eqb_spec flavor APIFlavorAnthropic), (String.eqb_spec (eff_MessagesMode (contractOf c)) EndpointModeDisabled);
        simpl; naive_solver.
  - intros Hty Hmm. assert (Hc : contractOf c = mkEffectiveSpecFields (app_APIFlavors app) (app_ResponsesMode app)
      (app_MessagesMode app) (app_ResponsesLiveTimingsEnabled app)).
    { unfold contractOf, governing. fold app. by rewrite (proj2 (String.eqb_neq _ _) Hty). }
    rewrite Hc. unfold MappingServesAPIFlavor. rewrite listedEndpoint_announced.
    destruct (announced !! flavor) as [endpoint|] eqn:Ee; [|by split; [|intros [[? ?] _]]].
    rewrite (servesEndpoint_announced app flavor endpoint Ee ltac:(auto)), <- applicationHasAPIFlavor_elem.
    destruct (applicationHasAPIFlavor app flavor) eqn:Eh; simpl; [|naive_solver].
    rewrite effectiveHas_own by (by apply applicationHasAPIFlavor_elem). simpl.
    rewrite (proj2 (String.eqb_neq _ _) Hmm). rewrite orb_true_r. naive_solver.
Qed.

End target.

(** ** Examples *)

Module Examples.

Local Existing Instance ascii_tables.

(** An agent's mapping whose spec narrows the application to messages and brings its own token. *)
Definition narrowed : RuntimeSpec :=
  (replicableSpec "sp1" 4) <| sp_Binary := "/opt/llama.cpp/llama-server" |> <| sp_APIFlavors := ["anthropic"] |>
    <| sp_MessagesMode := "passthrough" |> <| sp_APITokenMode := "set" |> <| sp_APIToken := "sealed:k" |>
    <| sp_APITokenHeaderSource := "custom" |> <| sp_APITokenHeader := "X-Key" |>.

Definition specsOf (id : string) : lookup_result RuntimeSpec := if String.eqb id "m1" then Found narrowed else NotFound.

Definition second_instance : MappingCandidate :=
  mkMappingCandidate ((plainServer "s1" ServerStatusActive "healthy") <| srv_Domain := "gpu1.lan" |> <| srv_ServerPathSuffix := "/edge/" |>)
    (mkApplication "a1" ProviderServerAgent 0 0 0 0 "s1" ServerStatusActive ["openai"; "anthropic"] "" "" false false
      8443 "https" 9443 " v2/ " 60000 "sealed:app" "") (plainMapping "m1" "big" "qwen") 2 true 1 false "".

Lemma target_faithful_witness :
  (match targetFrom specsOf second_instance "openai" with
   | inl t => tg_ProviderModel t = "qwen#2" /\ tg_Endpoint t = "https://gpu1.lan:9443/edge/v2" /\
       Addresses.Instance (tg_InstanceKey t) = 2 /\ tg_APIToken t = "sealed:k" /\ tg_APIFlavors t = ["anthropic"] /\
       tg_APITokenHeader t = "X-Key" /\ tg_LiveProgressSpecType t = RuntimeSpecTypeLlamaCpp
   | inr _ => False
   end) /\
  match targetFrom specsOf second_instance "openai" with
  | inl t => ParseInstanceAddress (tg_ProviderModel t) = ("qwen", 2) /\
      isEndpoint (mc_Server second_instance) (mc_Application second_instance) (tg_Endpoint t) /\
      tg_APITokenHeader t = headerOf specsOf second_instance
  | inr _ => True
  end.
Proof.
  split; [vm_compute; auto 10|].
  pose proof (target_faithful specsOf second_instance "openai" ltac:(split; discriminate)) as HT.
  destruct (targetFrom specsOf second_instance "openai") as [t|]; [|exact I].
  destruct HT as (_ & _ & _ & HT & He & _ & _ & _ & Hh & _). split; [apply HT; discriminate|]. split; [exact He|exact Hh].
Defined.

(** Messages are announced, chat is still served, images are not. *)
Lemma listing_matches_dispatch_witness :
  exists t, targetFrom specsOf second_instance "openai" = inl t /\
    MappingServesAPIFlavor (mc_Application second_instance) (contractOf specsOf second_instance) "openai_images" = false /\
    exists endpoint, announced !! "anthropic" = Some endpoint /\ tg_MessagesMode t <> EndpointModeDisabled.
Proof.
  destruct (targetFrom specsOf second_instance "openai") as [t|e] eqn:Et; [|vm_compute in Et; discriminate].
  exists t. split; [reflexivity|]. split; [vm_compute; reflexivity|].
  destruct (listing_matches_dispatch specsOf second_instance "openai" t "anthropic" Et) as [[HL _] _].
  destruct (HL ltac:(vm_compute; reflexivity)) as (endpoint & H1 & _ & _ & H2). exists endpoint. split; [exact H1|].
  apply H2. reflexivity.
Defined.

End Examples.
