(* ===== verification/Parking.v ===== *)
(** * Waiting for a slot

    Models the admission turns of [gateway/backend/internal/routing/resolver.go]: the loop
    of [resolveStandard] from its admission parameters to the selected candidate,
    [selectPinned] with [pinnedTurn] and [pinnedChoice], [parkTurn], [signalDemand] and
    [parkDemand].

    A request that finds every candidate at its cap waits and selects again.  What it
    reads and is told on one turn is a [Turn]: the sources, the running instances, the
    reservations, the clock, whether the queue has room, what the wait ended with.  A run
    is a list of turns; a request that is still waiting when the list ends has the
    outcome [Waiting], so an outcome is final or the request is parked.  Demand signals
    are the list of what reached the sink. *)

From Stdlib Require Import ZArith Lia.
From stdpp Require Import base tactics option list numbers strings gmap sets.
From S2P Require Import Prelude Float64 RoutingTypes RuntimeTypes GatewayInstances Scorer.
From S2P Require Import Reservation Selection SelectionProps AdmissionQueue Filters.
Local Open Scope Z_scope.
Local Open Scope go_scope.

(** ** Turns *)

Record Turn := mkTurn {
  t_resolver : Resolver;
  t_instances : option InstanceSource;
  t_reservation : sessionReservation;
  t_parkNow : time;                  (* the clock when the request is about to wait *)
  t_HasRoom : option bool;           (* [None]: the controller cannot tell *)
  t_wait : option waitError;         (* the answer of [WaitForSlot], [None] is nil *)
  t_servesNow : option routeError;      (* the error of a pinned server's re-check *)
  t_wakeNow : time                   (* the clock after the wait *)
}.

Definition second : Z := 1000000000.

(** ** Admission parameters *)

Definition maxQueueTimeoutSecs (cands : list MappingCandidate) : Z :=
  foldl (fun maxSecs c =>
    if maxSecs <? app_AdmissionQueueTimeoutSeconds (mc_Application c)
    then app_AdmissionQueueTimeoutSeconds (mc_Application c) else maxSecs) 0 cands.

(** The absolute end of a bounded wait; the zero time is no bound. *)
Definition queueDeadline (secs : Z) (start : time) : time :=
  let queueTimeout := int64 (secs * second) in
  if 0 <? queueTimeout then time_Add start queueTimeout else time_zero.

(** ** Waiting *)

Definition parkDemand (err : selectError) : option DemandSignal :=
  match err with AllAtCapacity ac => ac_demand ac | LoadTelemetry => None end.

Definition signalDemand (t : Turn) (demands : list DemandSignal) : list DemandSignal :=
  if negb (r_demand (t_resolver t)) || (length demands =? 0)%nat then []
  else match t_HasRoom t with
       | Some false => []
       | _ => demands
       end.

(** Why the wait is over, if it is, and what was signalled. *)
Definition parkTurn (t : Turn) (deadline : time) (demands : list DemandSignal)
  : option waitError * list DemandSignal :=
  if negb (time_IsZero deadline) && (time_Sub deadline (t_parkNow t) <=? 0)
  then (Some errAdmissionTimeout, [])
  else (t_wait t, signalDemand t demands).

Inductive outcome :=
| Selected (c : MappingCandidate) (now : time)
| Refused (err : waitError)
| NoHealthyHost
| TelemetryFailed
| ServerUnusable (err : routeError)  (* a pinned server stopped serving *)
| InstancesGone                      (* [errPinnedInstancesGone] *)
| Panicked                           (* a nil dereference or an index out of range *)
| Waiting.

(** ** An unpinned request *)

(** One turn's selection, and the overflow signal of a request that must not wait. *)
Definition selectTurn `{Unicode} (t : Turn) (candidates : list MappingCandidate) (req : Request) (now : time)
  : selection * list DemandSignal :=
  let r := t_resolver t in
  let turn := expandInstances candidates (t_instances t) in
  let '(sel, _) := selectCandidate r turn req now (t_reservation t) in
  match sel with
  | inr (AllAtCapacity ac) =>
      if neverParks req then
        let sel := selectWithoutParking r ac (req_Model req) (audioRequest req) now in
        (sel, match sel, ac_demand ac with
              | inl (Some _), Some d => signalOverflow r req d
              | _, _ => []
              end)
      else (sel, [])
  | _ => (sel, [])
  end.

Fixpoint standardLoop `{Unicode} (turns : list Turn) (candidates : list MappingCandidate) (req : Request)
    (deadline : time) (now : time) : outcome * list DemandSignal :=
  match turns with
  | [] => (Waiting, [])
  | t :: turns =>
      let '(sel, signals) := selectTurn t candidates req now in
      match sel with
      | inl (Some c) => (Selected c now, signals)
      | inl None => (NoHealthyHost, signals)
      | inr LoadTelemetry => (TelemetryFailed, signals)
      | inr err =>
          let '(over, parked) := parkTurn t deadline (option_list (parkDemand err)) in
          match over with
          | Some e => (Refused e, signals ++ parked)
          | None =>
              let '(result, later) := standardLoop turns candidates req deadline (t_wakeNow t) in
              (result, signals ++ parked ++ later)
          end
      end
  end.

(** [resolveStandard] from the candidates its filters left. *)
Definition selectStandard `{Unicode} (turns : list Turn) (candidates : list MappingCandidate) (req : Request)
    (start now : time) : outcome * list DemandSignal :=
  standardLoop turns candidates req (queueDeadline (maxQueueTimeoutSecs candidates) start) now.

(** ** A pinned request *)

Definition liveSlotFree (r : Resolver) (pool : list MappingCandidate) (judgeLive : bool) : list MappingCandidate :=
  if negb judgeLive then pool
  else List.filter (fun c => negb match r_liveSlots r with Some held => held (candidateKey c) | None => false end) pool.

(** [None] is the panic of indexing an empty slice. *)
Definition pinnedChoice (r : Resolver) (pool : list MappingCandidate) (preferred : string)
  : option MappingCandidate :=
  let sel :=
    match List.find (fun c => String.eqb (candidateKey c) preferred) pool with
    | Some c => Some c
    | None =>
        match leastLoadedInstances pool (r_instanceActivity r) with
        | [] => None
        | (first :: _) as least =>
            match r_loaded r with
            | None => Some first
            | Some loaded =>
                match List.find (modelLoadedOn loaded) least with Some c => Some c | None => Some first end
            end
        end
    end in
  set_InstancePool true <$> sel.

Inductive pinnedResult :=
| PinnedServed (c : MappingCandidate) (signals : list DemandSignal)
| PinnedParks (demand : DemandSignal)
| PinnedPanics.

Definition pinnedTurn `{Unicode} (r : Resolver) (pool : list MappingCandidate) (req : Request) (preferred : string)
    (now : time) (judgeLive : bool) (serverID : string) (s : sessionReservation) : pinnedResult :=
  let free := (underCapPool r pool now judgeLive s).1 in
  if (0 <? length free)%nat then
    match pinnedChoice r free preferred with Some c => PinnedServed c [] | None => PinnedPanics end
  else
    let slotFree := liveSlotFree r pool judgeLive in
    match instanceDemand pool req with
    | None => PinnedPanics
    | Some d =>
        let d := d <| ds_ServerID := serverID |> in
        let waits := req_LiveSession req || (length slotFree =? 0)%nat in
        if negb waits || neverParks req || negb (r_admission r) then
          let slotFree := if (length slotFree =? 0)%nat then pool else slotFree in
          match pinnedChoice r slotFree preferred with
          | Some c => PinnedServed c (signalOverflow r req d)
          | None => PinnedPanics
          end
        else PinnedParks d
    end.

Fixpoint pinnedLoop `{Unicode} (turns : list Turn) (pinned : MappingCandidate) (req : Request) (preferred : string)
    (deadline : time) (now : time) (parked : bool) : outcome * bool * list DemandSignal :=
  match turns with
  | [] => (Waiting, parked, [])
  | t :: turns =>
      let r := t_resolver t in
      let judgeLive := installed (r_liveSlots r) && needsFreeLiveSlot req in
      match expandInstances [pinned] (t_instances t) with
      | [] => (Panicked, parked, [])
      | (first :: _) as turn =>
          if negb (mc_InstanceCapable first) then (Selected pinned now, parked, [])
          else
            let pool := List.filter (fun c => negb (excluded req c)) turn in
            if (length pool =? 0)%nat then (InstancesGone, parked, [])
            else
              match pinnedTurn r pool req preferred now judgeLive (srv_ID (mc_Server pinned)) (t_reservation t) with
              | PinnedPanics => (Panicked, parked, [])
              | PinnedServed c signals => (Selected c now, parked, signals)
              | PinnedParks d =>
                  let '(over, sent) := parkTurn t deadline [d] in
                  match over with
                  | Some e => (Refused e, parked, sent)
                  | None =>
                      match t_servesNow t with
                      | Some e => (ServerUnusable e, true, sent)
                      | None =>
                          let '(result, parked, later) := pinnedLoop turns pinned req preferred deadline (t_wakeNow t) true in
                          (result, parked, sent ++ later)
                      end
                  end
              end
      end
  end.

Definition selectPinned `{Unicode} (turns : list Turn) (pinned : MappingCandidate) (req : Request)
    (preferred : string) (now : time) : outcome * bool * list DemandSignal :=
  let secs := app_AdmissionQueueTimeoutSeconds (mc_Application pinned) in
  let deadline := if 0 <? secs then time_Add (admissionStart req now) (int64 (secs * second)) else time_zero in
  pinnedLoop turns pinned req preferred deadline now false.
