(* ===== verification/ParkingProps.v ===== *)
(** * Properties of waiting

    A bounded wait ends; a request that must not wait does not; the candidate served was
    selected on the instances of the turn it was served on; demand is signalled only by a
    request that found every candidate at its cap; a pinned request stays on its server
    and waits for a live slot only. *)

From Stdlib Require Import ZArith Lia.
From stdpp Require Import base tactics option list numbers strings gmap sets.
From S2P Require Import Prelude Float64 RoutingTypes RuntimeTypes RuntimeTypesProps GatewayInstances GatewayInstancesProps.
From S2P Require Import Scorer Reservation Selection SelectionProps AdmissionQueue Parking.
Local Open Scope Z_scope.
Local Open Scope go_scope.

(** ** The queue timeout of a pool *)

Lemma maxQueueTimeoutSecs_spec cands :
  0 <= maxQueueTimeoutSecs cands /\
  (forall c, c ∈ cands -> app_AdmissionQueueTimeoutSeconds (mc_Application c) <= maxQueueTimeoutSecs cands) /\
  (maxQueueTimeoutSecs cands = 0 \/
   exists c, c ∈ cands /\ app_AdmissionQueueTimeoutSeconds (mc_Application c) = maxQueueTimeoutSecs cands).
Proof.
  unfold maxQueueTimeoutSecs. induction cands as [|c cands IH] using rev_ind.
  { split_and!; [done|by intros ? ?%elem_of_nil|by left]. }
  rewrite foldl_app. simpl. set (m := foldl _ 0 cands) in *. destruct IH as (H0 & H1 & H2).
  destruct (Z.ltb_spec m (app_AdmissionQueueTimeoutSeconds (mc_Application c))) as [Hlt|Hge].
  - split_and!; [lia| |right; exists c; set_solver].
    intros y [Hy| ->%list_elem_of_singleton]%elem_of_app; [specialize (H1 y Hy)|]; lia.
  - split_and!; [lia| |destruct H2 as [?|(y & Hy & E)]; [by left|right; exists y; set_solver]].
    intros y [Hy| ->%list_elem_of_singleton]%elem_of_app; [by apply H1|lia].
Qed.

(** A request waits without a bound only when no candidate's application sets one:
    one application with a timeout bounds the wait of all, although applications that
    wait for ever (timeout 0) are among the candidates. *)
Theorem queue_unbounded_iff cands start :
  0 < start -> (forall c, c ∈ cands -> app_AdmissionQueueTimeoutSeconds (mc_Application c) <= 2 ^ 32) ->
  queueDeadline (maxQueueTimeoutSecs cands) start = time_zero <->
  forall c, c ∈ cands -> app_AdmissionQueueTimeoutSeconds (mc_Application c) <= 0.
Proof.
  intros Hs Hb. destruct (maxQueueTimeoutSecs_spec cands) as (H0 & H1 & H2). set (m := maxQueueTimeoutSecs cands) in *.
  assert (Hm : m <= 2 ^ 32) by (destruct H2 as [->|(c & Hc & <-)]; [done|by apply Hb]).
  unfold queueDeadline. rewrite int64_id by (unfold in_int64, int64_min, int64_max, second; lia).
  unfold second, time_Add, time_zero. destruct (Z.ltb_spec 0 (m * 1000000000)); split.
  - lia.
  - intros Hall. destruct H2 as [->|(c & Hc & E)]; [lia|]. specialize (Hall c Hc). lia.
  - intros _ c Hc. specialize (H1 c Hc). lia.
  - done.
Qed.

(** ** Requests that do not wait *)

Definition notParked (x : selection) : Prop := forall ac, x <> inr (AllAtCapacity ac).

Lemma orElse_notParked x y : notParked x -> notParked y -> notParked (orElse x y).
Proof. by destruct x as [[]|]. Qed.

Lemma argmaxByScore_notParked r pool model audio now : notParked (argmaxByScore r pool model audio now).
Proof.
  unfold argmaxByScore. generalize (∅ : telemetryPass) (@None (MappingCandidate * float64)).
  induction pool as [|c pool IH]; intros pass best ac; simpl; [done|].
  destruct (pass_read _ _ _) as [[[tel ok] pass']|]; [apply IH|done].
Qed.

Lemma preferScored_notParked r pool model audio now preferred :
  notParked (preferScored r pool model audio now preferred).
Proof.
  unfold preferScored. destruct (String.eqb _ _); [apply argmaxByScore_notParked|].
  destruct (List.find _ _); [apply orElse_notParked|]; apply argmaxByScore_notParked.
Qed.

Lemma selectFromPool_notParked r pool model audio now preferred :
  notParked (selectFromPool r pool model audio now preferred).
Proof.
  assert (Hp : forall q, notParked (preferPartition r pool q model audio now preferred)).
  { intros q. unfold preferPartition. destruct (List.filter q pool); [done|apply preferScored_notParked]. }
  unfold selectFromPool. apply orElse_notParked; [by destruct (r_loaded r)|].
  apply orElse_notParked; [by destruct (r_runtimeState r)|apply preferScored_notParked].
Qed.

Lemma selectWithSwapProtection_notParked r pool model audio now preferred :
  notParked (selectWithSwapProtection r pool model audio now preferred).
Proof.
  unfold selectWithSwapProtection. destruct (r_activity r); [|apply selectFromPool_notParked].
  cbv zeta. destruct (_ =? _)%nat; [apply selectFromPool_notParked|].
  destruct (_ <? _)%nat; [apply orElse_notParked|]; apply selectFromPool_notParked.
Qed.

Lemma selectWithoutParking_notParked r ac model audio now : notParked (selectWithoutParking r ac model audio now).
Proof.
  unfold selectWithoutParking. cbv zeta.
  assert (H : notParked (orElse
    match leastLoadedInstances (ac_pool ac) (r_instanceActivity r) with
    | [] => inl None | least => selectWithSwapProtection r least model audio now "" end
    (selectWithSwapProtection r (ac_pool ac) model audio now ""))).
  { apply orElse_notParked; [|apply selectWithSwapProtection_notParked].
    destruct (leastLoadedInstances _ _); [done|apply selectWithSwapProtection_notParked]. }
  by destruct (orElse _ _) as [[]|].
Qed.

(** What one turn can signal: the demand of a pool whose every candidate is at its cap. *)
Lemma selectTurn_cases `{Unicode} t candidates req now x signals :
  selectTurn t candidates req now = (x, signals) ->
  let sel := (selectCandidate (t_resolver t) (expandInstances candidates (t_instances t)) req now (t_reservation t)).1 in
  (x = sel /\ signals = [] /\ (neverParks req = true -> notParked sel)) \/
  (exists ac, sel = inr (AllAtCapacity ac) /\ neverParks req = true /\
     x = selectWithoutParking (t_resolver t) ac (req_Model req) (audioRequest req) now /\
     forall d, d ∈ signals -> ac_demand ac = Some d /\ r_demand (t_resolver t) = true /\ req_CheckOnly req = false).
Proof.
  intros E. unfold selectTurn in E. destruct (selectCandidate _ _ req now _) as [sel s']. simpl.
  destruct sel as [[c|]|[ac|]]; [injection E as <- <-; left; by split_and!..| |injection E as <- <-; left; by split_and!].
  destruct (neverParks req) eqn:En; [|injection E as <- <-; left; by split_and!].
  right. exists ac. injection E as <- <-. split_and!; [done..|]. intros d. unfold signalOverflow.
  destruct (selectWithoutParking _ _ _ _ _) as [[c|]|]; [|by intros ?%elem_of_nil..].
  destruct (ac_demand ac) as [d0|]; [|by intros ?%elem_of_nil].
  destruct (r_demand (t_resolver t)), (req_CheckOnly req); simpl; try by intros ?%elem_of_nil.
  by intros ->%list_elem_of_singleton.
Qed.

Lemma selectTurn_neverParks `{Unicode} t candidates req now :
  neverParks req = true -> notParked (selectTurn t candidates req now).1.
Proof.
  intros Hn. destruct (selectTurn t candidates req now) as [x signals] eqn:E. simpl.
  destruct (selectTurn_cases _ _ _ _ _ _ E) as [(-> & _ & Hp)|(ac & _ & _ & -> & _)]; [by apply Hp|].
  apply selectWithoutParking_notParked.
Qed.

(** A request marked not to wait never does, whatever the load: its first turn
    decides it -- it is served, or has no healthy host, or a source failed --, it is
    neither parked nor refused by the queue, and a check-only request signals no demand. *)
Theorem never_parks `{Unicode} t turns candidates req start now :
  neverParks req = true ->
  let '(result, signals) := selectStandard (t :: turns) candidates req start now in
  ((exists c, result = Selected c now) \/ result = NoHealthyHost \/ result = TelemetryFailed) /\
  (req_CheckOnly req = true -> signals = []).
Proof.
  intros Hn. unfold selectStandard. simpl. pose proof (selectTurn_neverParks t candidates req now Hn) as Hp.
  destruct (selectTurn t candidates req now) as [x signals] eqn:E. simpl in Hp.
  assert (Hs : req_CheckOnly req = true -> signals = []).
  { intros Hc. destruct (selectTurn_cases _ _ _ _ _ _ E) as [(_ & -> & _)|(ac & _ & _ & _ & Hd)]; [done|].
    destruct signals as [|d l]; [done|]. destruct (Hd d) as (_ & _ & ?); [left|congruence]. }
  destruct x as [[c|]|[ac|]]; [split; [eauto|done]..| |split; [eauto|done]]. by destruct (Hp ac).
Qed.

(** ** A run of turns *)

Section run.
Context `{Unicode} (candidates : list MappingCandidate) (req : Request) (deadline : time).

(** A turn on which the request waited and was woken: every candidate was at its cap,
    the deadline had not passed, and the wait ended without an error. *)
Definition waited (t : Turn) (now : time) : Prop :=
  (exists ac, (selectTurn t candidates req now).1 = inr (AllAtCapacity ac)) /\
  (deadline = time_zero \/ t_parkNow t < deadline) /\ t_wait t = None.

(** [pre] are turns waited through one after the other from [now]; the next selection is
    made at [now']. *)
Fixpoint waitedThrough (pre : list Turn) (now now' : time) : Prop :=
  match pre with
  | [] => now' = now
  | t :: pre => waited t now /\ waitedThrough pre (t_wakeNow t) now'
  end.

Lemma parkTurn_woken t demands signals :
  parkTurn t deadline demands = (None, signals) ->
  (deadline = time_zero \/ t_parkNow t < deadline) /\ t_wait t = None /\ signals = signalDemand t demands.
Proof.
  unfold parkTurn, time_IsZero. destruct (Z.eqb_spec deadline time_zero) as [->|Hne]; simpl.
  { intros [= -> <-]. by split_and!; [left|..]. }
  destruct (Z.leb_spec (time_Sub deadline (t_parkNow t)) 0) as [|Hlt]; [done|]. intros [= -> <-].
  split_and!; [right|done..]. unfold time_Sub, int64_max, int64_min in Hlt. lia.
Qed.

(** What the loop does on the turn that decides, after the turns waited through. *)
Lemma standardLoop_trace turns now :
  let '(result, signals) := standardLoop turns candidates req deadline now in
  (result = Waiting /\ exists now', waitedThrough turns now now') \/
  exists pre t post now', turns = pre ++ t :: post /\ waitedThrough pre now now' /\
    match result with
    | Selected c now'' => now'' = now' /\ (selectTurn t candidates req now').1 = inl (Some c)
    | NoHealthyHost => (selectTurn t candidates req now').1 = inl None
    | TelemetryFailed => (selectTurn t candidates req now').1 = inr LoadTelemetry
    | Refused e => (exists ac, (selectTurn t candidates req now').1 = inr (AllAtCapacity ac)) /\
        ((e = errAdmissionTimeout /\ deadline <> time_zero /\ deadline <= t_parkNow t) \/ t_wait t = Some e)
    | _ => False
    end.
Proof.
  revert now. induction turns as [|t turns IH]; intros now; simpl; [left; split; [done|by eexists]|].
  destruct (selectTurn t candidates req now) as [x signals] eqn:Ex.
  assert (Ex1 : (selectTurn t candidates req now).1 = x) by (by rewrite Ex).
  destruct x as [[c|]|[ac|]]; [right; exists [], t, turns, now; by split_and!..| |right; exists [], t, turns, now; by split_and!].
  destruct (parkTurn t deadline _) as [[e|] parked] eqn:Ep.
  - right. exists [], t, turns, now. split_and!; [done..|by eexists|]. unfold parkTurn, time_IsZero in Ep.
    destruct (Z.eqb_spec deadline time_zero) as [|Hne]; simpl in Ep; [injection Ep as -> _; by right|].
    destruct (Z.leb_spec (time_Sub deadline (t_parkNow t)) 0) as [Hle|]; [|injection Ep as -> _; by right].
    injection Ep as <- _. left. split_and!; [done..|]. unfold time_Sub, int64_max, int64_min in Hle. lia.
  - apply parkTurn_woken in Ep as (Hd & Hw & _). specialize (IH (t_wakeNow t)).
    destruct (standardLoop turns candidates req deadline (t_wakeNow t)) as [result later].
    assert (Ht : waited t now) by (split_and!; [by eexists|done..]).
    destruct IH as [(-> & now' & IH)|(pre & t' & post & now' & -> & IH & Hr)].
    + left. split; [done|]. exists now'. by split.
    + right. exists (t :: pre), t', post, now'. by split_and!.
Qed.

(** A turn on which the request had reason to ask for [d]: a sink is there, every
    candidate was at its cap, and the request was served on a busy one because it must
    not wait, or was about to wait in a queue not known to be full, before its deadline. *)
Definition hadReason (t : Turn) (d : DemandSignal) : Prop :=
  r_demand (t_resolver t) = true /\
  exists now ac,
    (selectCandidate (t_resolver t) (expandInstances candidates (t_instances t)) req now (t_reservation t)).1
      = inr (AllAtCapacity ac) /\ ac_demand ac = Some d /\
    ((neverParks req = true /\ req_CheckOnly req = false) \/
     (neverParks req = false /\ t_HasRoom t <> Some false /\ (deadline = time_zero \/ t_parkNow t < deadline))).

Lemma parkTurn_signals t demands d :
  d ∈ (parkTurn t deadline demands).2 ->
  d ∈ demands /\ r_demand (t_resolver t) = true /\ t_HasRoom t <> Some false /\
  (deadline = time_zero \/ t_parkNow t < deadline).
Proof.
  unfold parkTurn, time_IsZero. destruct (Z.eqb_spec deadline time_zero) as [Hz|Hne]; simpl.
  2: destruct (Z.leb_spec (time_Sub deadline (t_parkNow t)) 0) as [|Hlt]; simpl; [by intros ?%elem_of_nil|].
  all: unfold signalDemand; destruct (r_demand (t_resolver t)), (length demands =? 0)%nat; simpl; try by intros ?%elem_of_nil.
  all: destruct (t_HasRoom t) as [[]|]; try (by intros ?%elem_of_nil); intros Hd; split_and!; try done; try by left.
  all: right; unfold time_Sub, int64_max, int64_min in Hlt; lia.
Qed.

Lemma selectTurn_signals t now d :
  d ∈ (selectTurn t candidates req now).2 -> hadReason t d.
Proof.
  destruct (selectTurn t candidates req now) as [x signals] eqn:Ex. intros Hd.
  destruct (selectTurn_cases _ _ _ _ _ _ Ex) as [(_ & -> & _)|(ac & Hac & Hn & _ & Hall)]; [by apply elem_of_nil in Hd|].
  destruct (Hall d Hd) as (H1 & H2 & H3). split; [done|]. exists now, ac. split_and!; [done..|by left].
Qed.

Lemma standardLoop_signals turns now d :
  d ∈ (standardLoop turns candidates req deadline now).2 -> exists t, t ∈ turns /\ hadReason t d.
Proof.
  revert now. induction turns as [|t turns IH]; intros now; simpl; [by intros ?%elem_of_nil|].
  destruct (selectTurn t candidates req now) as [x signals] eqn:Ex. pose proof (selectTurn_cases _ _ _ _ _ _ Ex) as Hx.
  assert (Hown : d ∈ signals -> exists t0, t0 ∈ t :: turns /\ hadReason t0 d).
  { intros Hd. exists t. split; [left|]. apply (selectTurn_signals t now). by rewrite Ex. }
  destruct x as [[c|]|[ac|]]; [done..| |done].
  assert (Hpark : d ∈ (parkTurn t deadline (option_list (parkDemand (AllAtCapacity ac)))).2 ->
    exists t0, t0 ∈ t :: turns /\ hadReason t0 d).
  { intros (Hin & Hs & Hroom & Hdl)%parkTurn_signals. exists t. split; [left|]. split; [done|]. exists now, ac.
    destruct Hx as [(<- & _ & Hnp)|(ac' & _ & _ & Hbad & _)]; [|by destruct (selectWithoutParking_notParked _ _ _ _ _ ac (eq_sym Hbad))].
    split_and!; [done| |].
    - simpl in Hin. destruct (ac_demand ac) as [d'|]; simpl in Hin; [|by apply elem_of_nil in Hin].
      by apply list_elem_of_singleton in Hin as ->.
    - right. split_and!; [|done..]. destruct (neverParks req); [|done]. by destruct (Hnp eq_refl ac). }
  destruct (parkTurn t deadline _) as [[e|] parked].
  - intros [Hd|Hd]%elem_of_app; [by apply Hown|by apply Hpark].
  - specialize (IH (t_wakeNow t)). destruct (standardLoop turns candidates req deadline (t_wakeNow t)) as [result later].
    intros [Hd|[Hd|Hd]%elem_of_app]%elem_of_app; [by apply Hown|by apply Hpark|].
    destruct (IH Hd) as (t0 & Ht0 & Hr). exists t0. split; [by right|done].
Qed.

End run.

(** C24.  A wait is bounded and honest.  With a timeout on some candidate's application, a
    request is not parked past its deadline: a turn whose clock has reached it decides the
    request.  A served request was served by the selection of its last turn, on the
    instances running then and at the time it woke, after turns on each of which every
    candidate was at its cap and the deadline had not passed; and a request refused
    because of time is past its deadline, or the queue itself said so. *)
Theorem bounded_wait `{Unicode} turns candidates req start now :
  let deadline := queueDeadline (maxQueueTimeoutSecs candidates) start in
  let '(result, _) := selectStandard turns candidates req start now in
  (deadline <> time_zero -> Exists (fun t => deadline <= t_parkNow t) turns -> result <> Waiting) /\
  (forall c now', result = Selected c now' ->
     exists pre t post, turns = pre ++ t :: post /\ waitedThrough candidates req deadline pre now now' /\
       (selectTurn t candidates req now').1 = inl (Some c)) /\
  (result = Refused errAdmissionTimeout ->
     exists t, t ∈ turns /\ ((deadline <> time_zero /\ deadline <= t_parkNow t) \/ t_wait t = Some errAdmissionTimeout)).
Proof.
  intros deadline. unfold selectStandard. fold deadline.
  pose proof (standardLoop_trace candidates req deadline turns now) as HT.
  destruct (standardLoop turns candidates req deadline now) as [result signals]. split_and!.
  - intros Hz Hex ->. destruct HT as [(_ & now' & Hw)|(? & ? & ? & ? & _ & _ & ?)]; [|done].
    revert now Hw. induction Hex as [t turns Ht|t turns _ IH]; intros now [[_ [Hd _]] Hw]; [destruct Hd; [done|lia]|by eapply IH].
  - intros c now' ->. destruct HT as [[? _]|(pre & t & post & now'' & -> & Hw & <- & Hs)]; [done|]. by exists pre, t, post.
  - intros ->. destruct HT as [[? _]|(pre & t & post & now'' & -> & Hw & _ & Hr)]; [done|]. exists t. split; [set_solver|].
    naive_solver.
Qed.

(** Demand is signalled for a reason: every signal that reaches the sink names the
    instances of a pool whose every candidate was at its cap when the request looked, was
    sent before the request's deadline, to a queue not known to be full unless the request
    must not wait, and never by a check-only request. *)
Theorem demand_has_reason `{Unicode} turns candidates req start now d :
  d ∈ (selectStandard turns candidates req start now).2 ->
  exists t, t ∈ turns /\
    hadReason candidates req (queueDeadline (maxQueueTimeoutSecs candidates) start) t d.
Proof. apply standardLoop_signals. Qed.

(** ** Pinned requests *)

(** The instances of one mapping on one server. *)
Definition instancesOf (pinned : MappingCandidate) (pool : list MappingCandidate) : Prop :=
  forall c, c ∈ pool -> mc_InstanceCapable c = true /\ mc_Server c = mc_Server pinned /\
    mc_Application c = mc_Application pinned /\ mc_Mapping c = mc_Mapping pinned.

Lemma expandInstances_pinned pinned src :
  match expandInstances [pinned] src with
  | [] => False
  | first :: rest => mc_InstanceCapable first = true -> instancesOf pinned (first :: rest)
  end.
Proof.
  assert (H1 : mc_InstanceCapable pinned = true -> instancesOf pinned [pinned])
    by (by intros Hc c ->%list_elem_of_singleton).
  destruct src as [src|]; simpl; [|done]. rewrite app_nil_r.
  destruct (expandCandidate_spec src pinned) as [[_ ->]|(view & ks & _ & _ & _ & _ & ->)]; [done|].
  intros _ c [->|(k & -> & _)%list_elem_of_fmap]%elem_of_cons; by split_and!.
Qed.

Lemma instanceDemand_some `{Unicode} pool req c :
  c ∈ pool -> mc_InstanceCapable c = true -> is_Some (instanceDemand pool req).
Proof.
  intros Hc Hcc. unfold instanceDemand. apply list_elem_of_split in Hc as (l1 & l2 & ->).
  rewrite foldl_app. simpl. rewrite Hcc. simpl. match goal with |- is_Some (foldl ?f (Some ?x) l2) => generalize x end.
  induction l2 as [|y l2 IH]; intros d; simpl; [by eexists|]. destruct (mc_InstanceCapable y); apply IH.
Qed.

(** The choice among a pinned request's instances: the preferred one, else one of the
    least loaded, loaded if one of those is. *)
Lemma pinnedChoice_spec r pool preferred pinned :
  pool <> [] -> instancesOf pinned pool ->
  exists c, pinnedChoice r pool preferred = Some (set_InstancePool true c) /\ c ∈ pool /\
    ((exists y, y ∈ pool /\ candidateKey y = preferred) -> candidateKey c = preferred) /\
    (candidateKey c <> preferred ->
       leastLoaded (r_instanceActivity r) pool c /\
       ((exists y, leastLoaded (r_instanceActivity r) pool y /\ loadedHere r y = true) -> loadedHere r c = true)).
Proof.
  intros Hne Hin. unfold pinnedChoice.
  destruct (List.find _ pool) as [c|] eqn:Ef.
  { apply List.find_some in Ef as [Hc%list_elem_of_In E%String.eqb_eq]. by exists c. }
  assert (Hno : forall y, y ∈ pool -> candidateKey y <> preferred).
  { intros y Hy. apply String.eqb_neq, (List.find_none _ _ Ef y). by apply list_elem_of_In. }
  destruct (leastLoadedInstances_spec (r_instanceActivity r) pool) as (Hsub & Hll & Hnil).
  destruct (leastLoadedInstances pool (r_instanceActivity r)) as [|first rest] eqn:El.
  { exfalso. destruct pool as [|c pool]; [done|]. destruct (Hin c) as [Hcc _]; [left|].
    rewrite (Hnil eq_refl c) in Hcc; [done|left]. }
  assert (Hfirst : leastLoaded (r_instanceActivity r) pool first) by (apply Hll; left).
  assert (Hnone : ~ exists y, y ∈ pool /\ candidateKey y = preferred) by (intros (y & Hy & E); by apply (Hno y)).
  unfold loadedHere. destruct (r_loaded r) as [loaded|].
  - destruct (List.find (modelLoadedOn loaded) (first :: rest)) as [c|] eqn:Efl.
    + apply List.find_some in Efl as [Hc%list_elem_of_In Hl]. pose proof (proj1 (Hll c) Hc) as Hlc.
      exists c. by split_and!; [done|apply Hlc|by intros ?%Hnone|].
    + exists first. split_and!; [done|by apply Hfirst|by intros ?%Hnone|]. intros _. split; [done|]. intros (y & Hy & Hyl).
      pose proof (List.find_none _ _ Efl y (proj1 (list_elem_of_In _ _) (proj2 (Hll y) Hy))). congruence.
  - exists first. split_and!; [done|by apply Hfirst|by intros ?%Hnone|]. intros _. split; [done|]. by intros (y & _ & ?).
Qed.

(** Whether an instance's live slot is free, when the request needs one. *)
Definition slotFree (r : Resolver) (judgeLive : bool) (c : MappingCandidate) : bool :=
  negb (judgeLive && match r_liveSlots r with Some held => held (candidateKey c) | None => false end).

Lemma liveSlotFree_spec r pool judgeLive : liveSlotFree r pool judgeLive = List.filter (slotFree r judgeLive) pool.
Proof.
  unfold liveSlotFree, slotFree. destruct judgeLive; simpl; [done|].
  induction pool as [|c pool IH]; simpl; [done|]. by rewrite <- IH.
Qed.

(** One turn of a pinned request, on every branch.  It never fails: it is served on
    one of its instances, or parks.  It is served on an instance under its cap if there is
    one, on the preferred instance if that is one of them, and signals nothing then; with
    every instance at its cap it is served at once on a busy one -- whose live slot is free
    if the request needs that and some slot is --, asking for another instance on its own
    server; and it parks only if it has a queue, may wait, and is a live session or needs
    a live slot that every instance holds. *)
Lemma pinnedTurn_spec `{Unicode} r pool req preferred now judgeLive pinned s :
  pool <> [] -> instancesOf pinned pool ->
  let server := srv_ID (mc_Server pinned) in
  let free := List.filter (capOK r now judgeLive s) pool in
  match pinnedTurn r pool req preferred now judgeLive server s with
  | PinnedPanics => False
  | PinnedServed c signals => exists c0, c = set_InstancePool true c0 /\ c0 ∈ pool /\
      (free <> [] -> c0 ∈ free /\ signals = [] /\
         ((exists y, y ∈ free /\ candidateKey y = preferred) -> candidateKey c0 = preferred)) /\
      (free = [] -> ((exists y, y ∈ pool /\ slotFree r judgeLive y = true) -> slotFree r judgeLive c0 = true) /\
         forall d, d ∈ signals -> ds_ServerID d = server /\ req_CheckOnly req = false)
  | PinnedParks d => free = [] /\ r_admission r = true /\ neverParks req = false /\ ds_ServerID d = server /\
      (req_LiveSession req = true \/ forall c, c ∈ pool -> slotFree r judgeLive c = false)
  end.
Proof.
  intros Hne Hin server free. unfold pinnedTurn. rewrite liveSlotFree_spec.
  destruct (underCapPool_spec r pool now judgeLive s) as [-> _]. fold free.
  assert (Hsub : forall q, instancesOf pinned (List.filter q pool)).
  { intros q c Hc. apply Hin. by apply elem_of_filter_list in Hc as [? _]. }
  destruct (Nat.ltb_spec 0 (length free)) as [Hpos|Hzero].
  - assert (Hfne : free <> []) by (by intros E; rewrite E in Hpos; simpl in Hpos; lia).
    destruct (pinnedChoice_spec r free preferred pinned Hfne (Hsub _)) as (c & -> & Hc & Hp & _).
    exists c. split_and!; [done|by apply elem_of_filter_list in Hc as [? _]|done|done].
  - assert (Hf0 : free = []) by (apply nil_length_inv; lia).
    destruct pool as [|p0 pool'] eqn:Epool; [done|]. rewrite <- Epool in *.
    destruct (instanceDemand_some pool req p0) as [d ->]; [rewrite Epool; left|by apply Hin; rewrite Epool; left|].
    set (d' := d <| ds_ServerID := server |>). set (sf := List.filter (slotFree r judgeLive) pool).
    assert (Hsf : forall c, c ∈ pool -> slotFree r judgeLive c = true -> sf <> []).
    { intros c Hc Hs E. assert (Hcs : c ∈ sf) by (by apply elem_of_filter_list). rewrite E in Hcs. by apply elem_of_nil in Hcs. }
    destruct (negb (req_LiveSession req || (length sf =? 0)%nat) || neverParks req || negb (r_admission r)) eqn:Ew.
    + assert (Hserve : exists pool1, pool1 <> [] /\ instancesOf pinned pool1 /\ pool1 `sublist_of` pool /\
        (if (length sf =? 0)%nat then pool else sf) = pool1 /\
        ((exists y, y ∈ pool /\ slotFree r judgeLive y = true) -> forall c, c ∈ pool1 -> slotFree r judgeLive c = true)).
      { destruct (Nat.eqb_spec (length sf) 0) as [E|E].
        - exists pool. split_and!; [done..|]. intros (y & Hy & Hys). by destruct (Hsf y Hy Hys (nil_length_inv _ E)).
        - exists sf. split_and!; [by intros E'; rewrite E' in E|apply Hsub|apply filter_sublist|done|].
          by intros _ c [_ ?]%elem_of_filter_list. }
      destruct Hserve as (pool1 & H1 & H2 & H3 & -> & H4).
      destruct (pinnedChoice_spec r pool1 preferred pinned H1 H2) as (c & -> & Hc & _).
      exists c. split_and!; [done|by eapply elem_of_sublist|done|].
      intros _. split; [by intros Hy; apply H4|]. intros d0. unfold signalOverflow.
      destruct (r_demand r), (req_CheckOnly req); simpl; try (by intros ?%elem_of_nil). by intros ->%list_elem_of_singleton.
    + apply orb_false_iff in Ew as [[Ew1 Ew2]%orb_false_iff Ew3]. apply negb_false_iff in Ew1, Ew3.
      split_and!; [done..|]. apply orb_true_iff in Ew1 as [?|E%Nat.eqb_eq]; [by left|right].
      intros c Hc. destruct (slotFree r judgeLive c) eqn:Es; [|done]. by destruct (Hsf c Hc Es (nil_length_inv _ E)).
Qed.

(** What a pinned request comes to, from any turn on. *)
Definition pinnedSafe (pinned : MappingCandidate) (req : Request) (turns : list Turn) (deadline : time)
    (x : outcome * bool * list DemandSignal) : Prop :=
  let '(result, parked, signals) := x in
  result <> Panicked /\
  (forall c now', result = Selected c now' ->
     mc_Server c = mc_Server pinned /\ mc_Application c = mc_Application pinned /\ mc_Mapping c = mc_Mapping pinned /\
     (mc_InstanceCapable c = true -> mc_InstanceCapable pinned = false -> excluded req c = false)) /\
  Forall (fun d => ds_ServerID d = srv_ID (mc_Server pinned)) signals /\
  (deadline <> time_zero -> Exists (fun t => deadline <= t_parkNow t) turns -> result <> Waiting).

Lemma pinnedLoop_safe `{Unicode} turns pinned req preferred dl now parked :
  pinnedSafe pinned req turns dl (pinnedLoop turns pinned req preferred dl now parked).
Proof.
  unfold pinnedSafe. revert now parked. induction turns as [|t turns IH]; intros now parked; cbn [pinnedLoop].
  { split_and!; [done..|]. intros _ Hex. by inversion Hex. }
  pose proof (expandInstances_pinned pinned (t_instances t)) as He.
  destruct (expandInstances [pinned] (t_instances t)) as [|first rest]; [done|].
  destruct (mc_InstanceCapable first) eqn:Ec; simpl negb; cbv iota.
  2: { split_and!; [done| |done|done]. intros c now' [= <- <-]. split_and!; [done..|congruence]. }
  specialize (He eq_refl). set (pool := List.filter (fun c => negb (excluded req c)) (first :: rest)).
  destruct (Nat.eqb_spec (length pool) 0) as [|Hl]; [by split_and!|].
  assert (Hne : pool <> []) by (by intros E; rewrite E in Hl).
  assert (Hin : instancesOf pinned pool) by (intros c [Hc _]%elem_of_filter_list; by apply He).
  pose proof (pinnedTurn_spec (t_resolver t) pool req preferred now
    (installed (r_liveSlots (t_resolver t)) && needsFreeLiveSlot req) pinned (t_reservation t) Hne Hin) as HT.
  cbv zeta in HT. destruct (pinnedTurn _ _ _ _ _ _ _ _) as [c signals|d|]; [| |done].
  - destruct HT as (c0 & -> & Hc0 & Hfree & Hbusy). destruct (Hin c0 Hc0) as (_ & HS & HA & HM).
    split_and!; [done| | |done].
    + intros c now' [= <- <-]. split_and!; [done..|]. intros _ _.
      apply elem_of_filter_list in Hc0 as [_ Hx]. by apply negb_true_iff in Hx.
    + apply Forall_forall. intros d Hd. set (free := List.filter _ pool) in *.
      destruct (decide (free = [])) as [E|E]; [by apply (proj2 (Hbusy E))|].
      destruct (Hfree E) as (_ & -> & _). by apply elem_of_nil in Hd.
  - destruct HT as (_ & _ & _ & Hd & _).
    assert (Hsig : Forall (fun d => ds_ServerID d = srv_ID (mc_Server pinned)) (parkTurn t dl [d]).2).
    { apply Forall_forall. intros d0 [->%list_elem_of_singleton _]%parkTurn_signals. done. }
    destruct (parkTurn t dl [d]) as [[e|] sent] eqn:Ep; [by split_and!|].
    destruct (t_servesNow t); [by split_and!|]. specialize (IH (t_wakeNow t) true).
    destruct (pinnedLoop turns _ _ _ _ _ _) as [[result waited] later]. destruct IH as (H1 & H2 & H3 & H4).
    split_and!; [done|done|by apply Forall_app|]. intros Hz Hex. apply H4; [done|].
    apply Exists_cons in Hex as [Hx|Hx]; [|done]. apply parkTurn_woken in Ep as [[?|?] _]; [done|lia].
Qed.

(** A pinned request stays where it is pinned and comes to an end: over any turns it
    never panics, whatever it is served on is an instance of the pinned mapping on the
    pinned server that it did not exclude (or the mapping itself, where it runs no
    instances), every signal asks for that server, and with a bounded wait a turn whose
    clock has reached the deadline decides it. *)
Theorem pinned_run `{Unicode} turns pinned req preferred now :
  let '(result, parked, signals) := selectPinned turns pinned req preferred now in
  let secs := app_AdmissionQueueTimeoutSeconds (mc_Application pinned) in
  let deadline := time_Add (admissionStart req now) (int64 (secs * second)) in
  result <> Panicked /\
  (forall c now', result = Selected c now' ->
     mc_Server c = mc_Server pinned /\ mc_Application c = mc_Application pinned /\ mc_Mapping c = mc_Mapping pinned /\
     (mc_InstanceCapable c = true -> mc_InstanceCapable pinned = false -> excluded req c = false)) /\
  Forall (fun d => ds_ServerID d = srv_ID (mc_Server pinned)) signals /\
  (0 < secs -> deadline <> time_zero -> Exists (fun t => deadline <= t_parkNow t) turns -> result <> Waiting).
Proof.
  unfold selectPinned. set (secs := app_AdmissionQueueTimeoutSeconds _). set (dl := time_Add (admissionStart req now) _).
  pose proof (pinnedLoop_safe turns pinned req preferred (if 0 <? secs then dl else time_zero) now false) as HS.
  destruct (pinnedLoop _ _ _ _ _ _ _) as [[result parked] signals]. destruct HS as (H1 & H2 & H3 & H4).
  split_and!; [done..|]. intros Hs. by rewrite (proj2 (Z.ltb_lt _ _) Hs) in H4.
Qed.

(** ** Concrete runs *)

Module Examples.
Import SelectionProps.Scenario.

(** A turn on which every candidate is at its cap, and one with a free slot. *)
Definition quietly (activity : string -> Z * time) : Resolver :=
  mkResolver None None None (Some activity) None 0 true true (Some (fun key => if String.eqb key "m6#0" then 1 else 0))
    None (fun _ => Some (telemetry, true)).

Definition busyTurn : Turn :=
  mkTurn (quietly (fun _ => (2, 0))) None None 2000 (Some true) None None 2100.
Definition freeTurn : Turn :=
  mkTurn (quietly (fun _ => (1, 0))) None None 2200 (Some true) None None 2300.

Definition one : list MappingCandidate := [candidate "s1" "healthy" "m1" 2 9].

Lemma queue_unbounded_iff_witness :
  queueDeadline (maxQueueTimeoutSecs one) 7 <> time_zero.
Proof.
  intros E. pose proof (proj1 (queue_unbounded_iff one 7 ltac:(lia)
    ltac:(intros c ->%list_elem_of_singleton; vm_compute; congruence)) E) as HQ.
  specialize (HQ (candidate "s1" "healthy" "m1" 2 9) ltac:(left)). vm_compute in HQ. congruence.
Defined.

Definition urgent : Request := mkRequest "chat" "openai" [] [] 0 false [] "" 0 true false "" false "" "" "" false.

Lemma never_parks_witness :
  let '(result, _) := selectStandard [busyTurn] one urgent 7 1990 in exists c, result = Selected c 1990.
Proof.
  pose proof (never_parks busyTurn [] one urgent 7 1990 ltac:(reflexivity)) as HN.
  destruct (selectStandard [busyTurn] one urgent 7 1990) as [result signals] eqn:E.
  destruct HN as [[HN|HN] _]; [done|]. exfalso. vm_compute in E. injection E as <- _. destruct HN; congruence.
Defined.

Lemma bounded_wait_outcome :
  exists c, (selectStandard [busyTurn; freeTurn] one request 7 1990).1 = Selected c 2100.
Proof. eexists. vm_compute. reflexivity. Qed.

(** Both instances of the pinned mapping are busy: a live session waits for one. *)
Definition pinned : MappingCandidate :=
  mkMappingCandidate (plainServer "s6" ServerStatusActive "healthy")
    (plainApplication "s6/app" ProviderServerAgent 1 10 0 30 "s6") (mapping "m6" 0) 0 false 0 false "".

Lemma demand_has_reason_witness :
  exists t, t ∈ [mkTurn (quietly (fun _ => (2, 0))) (Some (fun _ _ => Some (mkInstanceView true 1 0 [] []))) None
                   2000 (Some true) None None 2100] /\
    hadReason [pinned] request (queueDeadline (maxQueueTimeoutSecs [pinned]) 7) t
      (mkSignal "chat" "openai" "" false ["m6"]).
Proof.
  apply (demand_has_reason _ [pinned] request 7 1990). apply list_elem_of_In. vm_compute. left. reflexivity.
Defined.

Definition session : Request := mkRequest "chat" "openai" [] [] 0 true [] "" 0 false false "" false "" "" "" false.

Lemma pinned_turn_parks :
  match pinnedTurn (quietly (fun _ => (2, 0))) [instance 0] session "m6#0" 1990 false "s6" None with
  | PinnedParks d => ds_ServerID d = "s6"
  | _ => False
  end.
Proof.
  pose proof (pinnedTurn_spec (quietly (fun _ => (2, 0))) [instance 0] session "m6#0" 1990 false (instance 0) None
    ltac:(done) ltac:(by intros c ->%list_elem_of_singleton)) as HT. cbv zeta in HT.
  change (srv_ID (mc_Server (instance 0))) with "s6" in HT.
  assert (E : match pinnedTurn (quietly (fun _ => (2, 0))) [instance 0] session "m6#0" 1990 false "s6" None with
    | PinnedParks _ => true | _ => false end = true) by (vm_compute; reflexivity).
  destruct (pinnedTurn _ _ _ _ _ _ _ _); [done| |done]. apply HT.
Defined.

End Examples.
