(* ===== verification/Groups.v ===== *)
(** * Model groups

    Models the group path of [gateway/backend/internal/routing/resolver.go]: a request for
    a group is served by the first available member, in priority or speed order, with the
    group's filters relaxed attempt by attempt ([resolveGroup]), a sticky pin, the climb
    back to a better member, and the wait when every member is at capacity.

    What one turn of a request reads is a [GroupTurn]: the [Turn] of an ungrouped request,
    the store, the pin stored under the request's key and whether a pin can be written.
    Everything a resolution does to the outside -- pins written and deleted, sessions
    reserved, models warmed, demand signalled -- is the list of its [effect]s in order.
    Counting reservations prunes them, which changes no count ([Reservation.agree]); the
    pruned tracker is threaded through a walk and dropped between turns.  The key's hash
    ([affinityID], SHA-256) is a parameter.  The outcome is the selected candidate; [Resolving]
    builds the target from it. *)

From Stdlib Require Import ZArith Lia.
From stdpp Require Import base tactics option list numbers strings gmap sets.
From S2P Require Import Prelude Float64 RoutingTypes GatewayInstances Scorer.
From S2P Require Import Reservation AdmissionQueue Selection Filters Parking.
Local Open Scope Z_scope.
Local Open Scope go_scope.

(** ** Policy and members *)

Definition modeClimbUp : string := "climb_up".
Definition MemberOrderSpeed : string := "speed".
Definition MinSpeedFallbackIgnore : string := "ignore".

Record GroupPolicy := mkGroupPolicy {
  gp_FailoverMode : string;
  gp_MemberOrder : string;
  gp_LoadedOnly : bool;
  gp_ClimbSpeedMarginPercent : Z;
  gp_MinTokensPerSecond : float64;
  gp_MinSpeedFallback : string;
  gp_suppressWarm : bool
}.

Global Instance GroupPolicy_fields : Fields GroupPolicy := fun p =>
  mkGroupPolicy (gp_FailoverMode p) (gp_MemberOrder p) (gp_LoadedOnly p) (gp_ClimbSpeedMarginPercent p)
    (gp_MinTokensPerSecond p) (gp_MinSpeedFallback p) (gp_suppressWarm p).

(** A member is its gateway model name; the row's other fields are not read. *)
Definition GroupMember : Type := string.

(** A token's policy on vendor accounts ([auth/vendor_access.go]). *)
Record VendorAccessEntry := mkVendorAccessEntry {
  ve_AccountID : string;
  ve_OverrideEnabled : bool;
  ve_OverridePrefix : string
}.

Record VendorAccess := mkVendorAccess {
  va_All : bool;
  va_Accounts : list VendorAccessEntry
}.

Record Token := mkToken {
  tok_ID : string;
  tok_UserID : string;
  tok_VendorAccess : VendorAccess;
  tok_ServiceID : string;
  tok_Kind : string
}.

(** A user's token without vendor access. *)
Definition plainToken (id user : string) : Token := mkToken id user (mkVendorAccess false []) "" "".

Record groupWalk := mkGroupWalk {
  gw_policy : GroupPolicy;
  gw_voice : option voiceScope;
  gw_realtime : bool
}.

Record groupResolve := mkGroupResolve {
  g_token : Token;
  g_req : Request;
  g_key : AffinityKey;
  g_apiFlavor : string;
  g_members : list GroupMember;
  g_policy : GroupPolicy;
  g_voice : option voiceScope
}.

Global Instance groupResolve_fields : Fields groupResolve := fun g =>
  mkGroupResolve (g_token g) (g_req g) (g_key g) (g_apiFlavor g) (g_members g) (g_policy g) (g_voice g).

Definition walk (g : groupResolve) : groupWalk :=
  mkGroupWalk (g_policy g) (g_voice g) (req_RealtimeRequired (g_req g)).

(** ** Turns and effects *)

Record GroupTurn := mkGroupTurn {
  gt_turn : Turn;
  gt_store : StoreView;
  gt_affinity : option (option RouteAffinity);     (* the pin, [None]: the read failed *)
  gt_upsertOK : bool;
  gt_warmer : bool                                 (* a warmer is installed *)
}.

Definition gt_resolver (t : GroupTurn) : Resolver := t_resolver (gt_turn t).

Inductive effect :=
| Upserted (affinity : RouteAffinity)
| Deleted (key : AffinityKey)
| Reserved (serverID key : string) (now : time)
| Warmed (model : string)
| Signalled (d : DemandSignal).

(** ** A member's candidates *)

Fixpoint speedFloorLoop (r : Resolver) (cands : list MappingCandidate) (name : string) (floor : float64)
    (pass : telemetryPass) : result (list MappingCandidate) :=
  match cands with
  | [] => mret []
  | c :: cands =>
      '(tps, pass) ← read_or "load server telemetry" (candidateEffectiveGenTPS r pass c name);
      kept ← speedFloorLoop r cands name floor pass;
      mret (if f64_leb floor tps then c :: kept else kept)
  end.

Definition filterBySpeedFloor (r : Resolver) (cands : list MappingCandidate) (name : string) (floor : float64)
  : result (list MappingCandidate) :=
  if f64_leb floor f64_zero then mret cands else speedFloorLoop r cands name floor ∅.

Definition filterLoaded (r : Resolver) (cands : list MappingCandidate) (loadedOnly : bool) : list MappingCandidate :=
  match r_loaded r with
  | Some loaded => if loadedOnly then List.filter (modelLoadedOn loaded) cands else cands
  | None => cands
  end.

(** The candidates, and whether the member had any before the policy narrowed them. *)
Definition eligibleCandidates `{Unicode} (t : GroupTurn) (name apiFlavor fineFlavor : string)
    (required : list string) (gw : groupWalk) : result (list MappingCandidate * bool) :=
  cands ← memberPool (gt_store t) name apiFlavor fineFlavor required;
  let cands := restrict (gw_voice gw) cands in
  let cands := if gw_realtime gw
               then List.filter (fun c => negb (tooSlowForRealtime (gt_store t) c)) cands else cands in
  if (length cands =? 0)%nat then mret ([], false)
  else
    let cands := expandInstances cands (t_instances (gt_turn t)) in
    cands ← filterBySpeedFloor (gt_resolver t) cands name (gp_MinTokensPerSecond (gw_policy gw));
    mret (filterLoaded (gt_resolver t) cands (gp_LoadedOnly (gw_policy gw)), true).

(** ** One member *)

Record parkMaterial := mkParkMaterial {
  pm_servers : list string;
  pm_queueSecs : Z;
  pm_demand : list DemandSignal;
  pm_first : option (string * atCapacityError)
}.

Definition noMaterial : parkMaterial := mkParkMaterial [] 0 [] None.

Definition addDemand (have : list DemandSignal) (d : DemandSignal) : list DemandSignal :=
  if existsb (fun h => String.eqb (ds_Model h) (ds_Model d)) have then have else have ++ [d].

Definition add (p m : parkMaterial) : parkMaterial := {|
  pm_servers := pm_servers p ++ pm_servers m;
  pm_queueSecs := Z.max (pm_queueSecs p) (pm_queueSecs m);
  pm_demand := foldl addDemand (pm_demand p) (pm_demand m);
  pm_first := match pm_first p with Some f => Some f | None => pm_first m end
|}.

Inductive memberStatus :=
| memberNoMapping
| memberUnavailable
| memberOK (sel : MappingCandidate)
| memberAtCapacity (pm : parkMaterial).

Definition selectMember `{Unicode} (t : GroupTurn) (name apiFlavor : string) (req : Request) (now : time)
    (gw : groupWalk) (s : sessionReservation) : result memberStatus * sessionReservation :=
  match eligibleCandidates t name apiFlavor (req_APIFlavor req) (req_RequiredCapabilities req) gw with
  | inr e => (inr e, s)
  | inl (cands, live) =>
      if (length cands =? 0)%nat
      then (inl (if live then memberUnavailable else memberNoMapping), s)
      else
        let '(sel, s) := selectCandidate (gt_resolver t) cands req now s in
        (match sel with
         | inl (Some c) => inl (memberOK c)
         | inl None => inl memberUnavailable
         | inr LoadTelemetry => inr (StoreFailed "load server telemetry")
         | inr (AllAtCapacity ac) =>
             inl (memberAtCapacity (mkParkMaterial (distinctServerIDs cands) (maxQueueTimeoutSecs cands)
                    (option_list (ac_demand ac)) (Some (name, ac))))
         end, s)
  end.

(** ** The walk *)

(** The member found with its selection, else what there is to park on; and whether any
    member had a mapping. *)
Record walkResult := mkWalkResult {
  wr_found : option (string * MappingCandidate);
  wr_park : parkMaterial;
  wr_anyLive : bool
}.

Fixpoint walkMembers `{Unicode} (t : GroupTurn) (members : list GroupMember) (apiFlavor : string)
    (req : Request) (now : time) (gw : groupWalk) (park : parkMaterial) (anyLive : bool)
    (s : sessionReservation) : result walkResult * sessionReservation :=
  match members with
  | [] => (inl (mkWalkResult None park anyLive), s)
  | m :: members =>
      let '(status, s) := selectMember t m apiFlavor req now gw s in
      match status with
      | inr e => (inr e, s)
      | inl (memberOK sel) => (inl (mkWalkResult (Some (m, sel)) park true), s)
      | inl (memberAtCapacity pm) => walkMembers t members apiFlavor req now gw (add park pm) true s
      | inl memberUnavailable => walkMembers t members apiFlavor req now gw park true s
      | inl memberNoMapping => walkMembers t members apiFlavor req now gw park anyLive s
      end
  end.

Definition firstAvailable `{Unicode} (t : GroupTurn) (members : list GroupMember) (apiFlavor : string)
    (req : Request) (now : time) (gw : groupWalk) (s : sessionReservation)
  : result walkResult * sessionReservation :=
  walkMembers t members apiFlavor req now gw noMaterial false s.

(** ** Order by speed *)

Fixpoint bestSpeed (r : Resolver) (cands : list MappingCandidate) (name : string) (best : float64)
    (pass : telemetryPass) : result (float64 * telemetryPass) :=
  match cands with
  | [] => mret (best, pass)
  | c :: cands =>
      '(tps, pass) ← read_or "load server telemetry" (candidateEffectiveGenTPS r pass c name);
      bestSpeed r cands name (if f64_ltb best tps then tps else best) pass
  end.

Fixpoint memberSpeeds `{Unicode} (t : GroupTurn) (members : list GroupMember) (apiFlavor fineFlavor : string)
    (required : list string) (gw : groupWalk) (pass : telemetryPass) (speed : gmap string float64)
  : result (gmap string float64) :=
  match members with
  | [] => mret speed
  | m :: members =>
      if has_key speed m then memberSpeeds t members apiFlavor fineFlavor required gw pass speed
      else
        '(cands, _) ← eligibleCandidates t m apiFlavor fineFlavor required gw;
        '(best, pass) ← bestSpeed (gt_resolver t) cands m f64_zero pass;
        memberSpeeds t members apiFlavor fineFlavor required gw pass (<[m := best]> speed)
  end.

(** [sort.SliceStable]: an element moves in front of those it is not after. *)
Fixpoint insertStable {A} (less : A -> A -> bool) (x : A) (l : list A) : list A :=
  match l with
  | [] => [x]
  | y :: l' => if less y x then y :: insertStable less x l' else x :: l
  end.

Definition sort_SliceStable {A} (less : A -> A -> bool) (l : list A) : list A := foldr (insertStable less) [] l.

Definition fasterThan (speed : gmap string float64) (a b : GroupMember) : bool :=
  f64_ltb (map_get f64_zero speed b) (map_get f64_zero speed a).

Definition orderMembersBySpeed `{Unicode} (t : GroupTurn) (members : list GroupMember)
    (apiFlavor fineFlavor : string) (required : list string) (gw : groupWalk) : result (list GroupMember) :=
  speed ← memberSpeeds t members apiFlavor fineFlavor required gw ∅ ∅;
  mret (sort_SliceStable (fasterThan speed) members).

(** ** Climbing *)

Definition speedMarginMet (r : Resolver) (best pinned : MappingCandidate) (bestModel pinnedModel : string)
    (policy : GroupPolicy) : result bool :=
  '(pinnedTPS, pass) ← read_or "load server telemetry" (candidateEffectiveGenTPS r ∅ pinned pinnedModel);
  if f64_leb pinnedTPS f64_zero then mret true
  else
    '(bestTPS, _) ← read_or "load server telemetry" (candidateEffectiveGenTPS r pass best bestModel);
    let margin := if gp_ClimbSpeedMarginPercent policy <? 0 then 0 else gp_ClimbSpeedMarginPercent policy in
    mret (f64_ltb (f64_mul pinnedTPS (f64_add (f64_of_int 1) (f64_div (f64_of_int margin) (f64_of_int 100)))) bestTPS).

Definition memberNameExists (members : list GroupMember) (name : string) : bool :=
  existsb (fun m => String.eqb m name) members.

Fixpoint memberIndexFrom (i : Z) (members : list GroupMember) (name : string) : Z :=
  match members with
  | [] => -1
  | m :: members => if String.eqb m name then i else memberIndexFrom (i + 1) members name
  end.

Definition memberIndex (members : list GroupMember) (name : string) : Z := memberIndexFrom 0 members name.

Definition memberLoaded (r : Resolver) (sel : MappingCandidate) : bool :=
  match r_loaded r with Some loaded => modelLoadedOn loaded sel | None => false end.

Definition climbTarget `{Unicode} (t : GroupTurn) (g : groupResolve) (now : time) (pinned : string)
    (pinSel : MappingCandidate) (s : sessionReservation)
  : result (option (string * MappingCandidate)) * list effect :=
  match (firstAvailable t (g_members g) (g_apiFlavor g) (g_req g) now (walk g) s).1 with
  | inr e => (inr e, [])
  | inl w =>
      match wr_found w with
      | None => (inl None, [])
      | Some (best, bestSel) =>
          if String.eqb best "" || String.eqb best pinned
             || (memberIndex (g_members g) pinned <=? memberIndex (g_members g) best)
          then (inl None, [])
          else
            match (if String.eqb (gp_MemberOrder (g_policy g)) MemberOrderSpeed
                   then speedMarginMet (gt_resolver t) bestSel pinSel best pinned (g_policy g) else mret true) with
            | inr e => (inr e, [])
            | inl false => (inl None, [])
            | inl true =>
                if memberLoaded (gt_resolver t) bestSel then (inl (Some (best, bestSel)), [])
                else if gt_warmer t && negb (gp_suppressWarm (g_policy g))
                then (inl None, [Warmed best]) else (inl None, [])
            end
      end
  end.

(** ** The pin *)

Definition groupPin (t : GroupTurn) (key : AffinityKey) (members : list GroupMember) (now : time)
  : string * list effect :=
  match gt_affinity t with
  | None | Some None => ("", [])
  | Some (Some aff) =>
      if (now <? aff_ExpiresAt aff) && negb (String.eqb (aff_ResolvedModel aff) "")
         && memberNameExists members (aff_ResolvedModel aff)
      then (aff_ResolvedModel aff, [])
      else ("", [Deleted key])
  end.

Definition pinnedMember `{Unicode} (t : GroupTurn) (g : groupResolve) (now : time)
  : result (option (string * MappingCandidate)) * list effect :=
  let '(pinned, deleted) := groupPin t (g_key g) (g_members g) now in
  if String.eqb pinned "" then (inl None, deleted)
  else
    let '(status, s) := selectMember t pinned (g_apiFlavor g) (g_req g) now (walk g) (t_reservation (gt_turn t)) in
    match status with
    | inr e => (inr e, deleted)
    | inl (memberOK pinSel) =>
        if String.eqb (gp_FailoverMode (g_policy g)) modeClimbUp then
          let '(best, warmed) := climbTarget t g now pinned pinSel s in
          match best with
          | inr e => (inr e, deleted ++ warmed)
          | inl (Some target) => (inl (Some target), deleted ++ warmed)
          | inl None => (inl (Some (pinned, pinSel)), deleted ++ warmed)
          end
        else (inl (Some (pinned, pinSel)), deleted)
    | inl _ => (inl None, deleted)
    end.

Section group.
Context `{Unicode} (affinityID : AffinityKey -> string).

Definition groupAffinity (g : groupResolve) (name : string) (sel : MappingCandidate) (now : time) : RouteAffinity := {|
  aff_ID := affinityID (g_key g);
  aff_APITokenID := tok_ID (g_token g);
  aff_UserID := tok_UserID (g_token g);
  aff_Model := ak_Model (g_key g);
  aff_ResolvedModel := name;
  aff_APIFlavor := ak_APIFlavor (g_key g);
  aff_SessionID := ak_SessionID (g_key g);
  aff_ApplicationID := app_ID (mc_Application sel);
  aff_ServerID := srv_ID (mc_Server sel);
  aff_Instance := mc_Instance sel;
  aff_ExpiresAt := time_Add now (int64 (app_AffinityTTLSeconds (mc_Application sel) * second));
  aff_LastUsedAt := now;
  aff_CreatedAt := now;
  aff_UpdatedAt := now
|}.

Definition upsertGroupPin (t : GroupTurn) (g : groupResolve) (name : string) (sel : MappingCandidate) (now : time)
  : result (list effect) :=
  if String.eqb (tok_ID (g_token g)) "" || String.eqb name ""
     || (app_AffinityTTLSeconds (mc_Application sel) <=? 0)
     || (0 <? length (req_RequiredCapabilities (g_req g)))%nat
  then mret []
  else if gt_upsertOK t
  then mret [Upserted (groupAffinity g name sel now); Reserved (srv_ID (mc_Server sel)) (affinityID (g_key g)) now]
  else inr (StoreFailed "store group affinity").

(** ** One attempt *)

Inductive groupOutcome :=
| Served (name : string) (c : MappingCandidate) (now : time)
| Failed (e : routeError)
| StillWaiting.

Definition serve (t : GroupTurn) (g : groupResolve) (name : string) (sel : MappingCandidate) (now : time)
  : groupOutcome * list effect :=
  match upsertGroupPin t g name sel now with
  | inr e => (Failed e, [])
  | inl effects => (Served name sel now, effects)
  end.

(** A finite deadline is set when the request first queues on a bounded member, and kept. *)
Definition groupDeadline (req : Request) (queueSecs : Z) (now deadline : time) : time :=
  let queueTimeout := int64 (queueSecs * second) in
  if (0 <? queueTimeout) && time_IsZero deadline then time_Add (admissionStart req now) queueTimeout else deadline.

Fixpoint groupLoop (turns : list GroupTurn) (g : groupResolve) (deadline now : time)
  : groupOutcome * list effect :=
  match turns with
  | [] => (StillWaiting, [])
  | t :: turns =>
      let req := g_req g in
      match (firstAvailable t (g_members g) (g_apiFlavor g) req now (walk g) (t_reservation (gt_turn t))).1 with
      | inr e => (Failed e, [])
      | inl w =>
          match (match wr_found w with Some (name, sel) => if String.eqb name "" then None else Some (name, sel) | None => None end) with
          | Some (name, sel) => serve t g name sel now
          | None =>
              let park := wr_park w in
              match (if neverParks req then pm_first park else None) with
              | Some (name, ac) =>
                  match selectWithoutParking (gt_resolver t) ac name (audioRequest req) now with
                  | inr _ => (Failed (StoreFailed "load server telemetry"), [])
                  | inl None => (Failed ErrNoHealthyHost, [])
                  | inl (Some sel) =>
                      let signals := match pm_demand park with
                                     | d :: _ => signalOverflow (gt_resolver t) req d
                                     | [] => []
                                     end in
                      let '(result, effects) := serve t g name sel now in
                      (result, (Signalled <$> signals) ++ effects)
                  end
              | None =>
                  if (0 <? length (pm_servers park))%nat && r_admission (gt_resolver t) then
                    let deadline := groupDeadline req (pm_queueSecs park) now deadline in
                    let '(over, signals) := parkTurn (gt_turn t) deadline (pm_demand park) in
                    match over with
                    | Some e => (Failed (AdmissionFailed e), Signalled <$> signals)
                    | None =>
                        let '(result, effects) := groupLoop turns g deadline (t_wakeNow (gt_turn t)) in
                        (result, (Signalled <$> signals) ++ effects)
                    end
                  else (Failed (if wr_anyLive w then ErrNoHealthyHost else ErrNoModelRoute), [])
              end
          end
      end
  end.

Definition resolveGroupOnce (turns : list GroupTurn) (g : groupResolve) (now : time) : groupOutcome * list effect :=
  if (length (g_members g) =? 0)%nat then (Failed ErrNoModelRoute, [])
  else match turns with
       | [] => (StillWaiting, [])
       | t :: _ =>
           match (if String.eqb (gp_MemberOrder (g_policy g)) MemberOrderSpeed
                  then orderMembersBySpeed t (g_members g) (g_apiFlavor g) (req_APIFlavor (g_req g))
                         (req_RequiredCapabilities (g_req g)) (walk g)
                  else mret (g_members g)) with
           | inr e => (Failed e, [])
           | inl members =>
               let g := g <| g_members := members |> in
               let '(pinned, before) := pinnedMember t g now in
               match pinned with
               | inr e => (Failed e, before)
               | inl (Some (name, sel)) =>
                   let '(result, effects) := serve t g name sel now in (result, before ++ effects)
               | inl None =>
                   let '(result, effects) := groupLoop turns g time_zero now in (result, before ++ effects)
               end
           end
       end.

(** ** The ladder *)

Context (decodeNames : string -> option (list string)).

Fixpoint flatPool (sv : StoreView) (g : groupResolve) (seen : gset string) (members : list GroupMember)
  : result (list MappingCandidate) :=
  match members with
  | [] => mret []
  | m :: members =>
      if bool_decide (m ∈ seen) then flatPool sv g seen members
      else
        cands ← memberPool sv m (g_apiFlavor g) (req_APIFlavor (g_req g)) (req_RequiredCapabilities (g_req g));
        pool ← flatPool sv g ({[m]} ∪ seen) members;
        mret (cands ++ pool)
  end.

Definition flatGroupPool (sv : StoreView) (g : groupResolve) : result (list MappingCandidate) :=
  flatPool sv g ∅ (g_members g).

Definition groupVoiceScope (sv : StoreView) (g : groupResolve) : result (option voiceScope) :=
  if String.eqb (req_RequiredVoice (g_req g)) "" then mret None
  else
    pool ← flatGroupPool sv g;
    voiceScopeFor decodeNames sv (req_RequiredVoice (g_req g)) pool.

Definition groupRealtimeCheck (sv : StoreView) (g : groupResolve) : result unit :=
  if negb (req_RealtimeRequired (g_req g)) then mret tt
  else
    pool ← flatGroupPool sv g;
    _ ← filterRealtime sv (restrict (g_voice g) pool) (g_req g);
    mret tt.

(** The policies tried, each one's filters a subset of the one before. *)
Definition attemptsOf (policy : GroupPolicy) : list GroupPolicy :=
  let policy := policy <| gp_suppressWarm := gp_LoadedOnly policy |> in
  let relaxed := policy in
  let '(attempts, relaxed) :=
    if gp_LoadedOnly policy
    then let relaxed := relaxed <| gp_LoadedOnly := false |> in ([policy; relaxed], relaxed)
    else ([policy], relaxed) in
  if f64_ltb f64_zero (gp_MinTokensPerSecond policy)
     && String.eqb (gp_MinSpeedFallback policy) MinSpeedFallbackIgnore
  then attempts ++ [relaxed <| gp_MinTokensPerSecond := f64_zero |>]
  else attempts.

Definition retryable (e : routeError) : bool :=
  match e with ErrNoHealthyHost | ErrNoModelRoute => true | _ => false end.

(** [turnsOf i] is what attempt [i] reads. *)
Fixpoint ladder (attempts : list GroupPolicy) (i : nat) (turnsOf : nat -> list GroupTurn) (g : groupResolve)
    (now : time) (lastErr : routeError) : groupOutcome * list effect :=
  match attempts with
  | [] => (Failed (refine (g_voice g) lastErr), [])
  | attempt :: attempts =>
      let '(result, effects) := resolveGroupOnce (turnsOf i) (g <| g_policy := attempt |>) now in
      match result with
      | Failed e =>
          if retryable e then
            let '(result, later) := ladder attempts (S i) turnsOf g now e in (result, effects ++ later)
          else (Failed e, effects)
      | _ => (result, effects)
      end
  end.

Definition resolveGroup (before : StoreView) (turnsOf : nat -> list GroupTurn) (g : groupResolve) (now : time)
  : groupOutcome * list effect :=
  match groupVoiceScope before g with
  | inr e => (Failed e, [])
  | inl voice =>
      let g := g <| g_voice := voice |> in
      match groupRealtimeCheck before g with
      | inr e => (Failed e, [])
      | inl _ => ladder (attemptsOf (g_policy g)) 0 turnsOf g now ErrNoHealthyHost
      end
  end.

End group.
