(* ===== verification/GroupWalk.v ===== *)
(** * The walk over a group's members

    The walk as a reference search ([first_available]), the speed order ([speed_order]),
    and where a candidate a member is served by comes from ([servable]). *)

From Stdlib Require Import ZArith Lia Sorting.Sorted.
From stdpp Require Import base tactics option list numbers strings gmap sets.
From S2P Require Import Prelude Float64 RoutingTypes GatewayInstances GatewayInstancesProps Scorer Reservation.
From S2P Require Import AdmissionQueue Selection SelectionProps Filters FiltersProps Parking ParkingProps Groups.
Local Open Scope Z_scope.
Local Open Scope go_scope.

(** ** Where a selection comes from *)

Section drawn.
Context (r : Resolver) (P : MappingCandidate -> Prop).

(** What a selection names satisfies [P]. *)
Definition drawn (x : selection) : Prop :=
  match x with
  | inl (Some c) => P c
  | inr (AllAtCapacity ac) => Forall P (ac_pool ac)
  | _ => True
  end.

Lemma orElse_drawn x y : drawn x -> drawn y -> drawn (orElse x y).
Proof. by destruct x as [[c|]|[ac|]]. Qed.

Lemma argmaxLoop_drawn model audio now pool pass best :
  Forall P pool -> (forall c sc, best = Some (c, sc) -> P c) -> drawn (argmaxLoop r model audio now pool pass best).
Proof.
  intros Hp. revert pass best. induction Hp as [|c pool Hc Hp IH]; intros pass best Hb; simpl.
  { destruct best as [[c sc]|]; [|done]. by apply (Hb c sc). }
  destruct (pass_read r _ pass) as [[[tel ok] pass']|]; [|done]. apply IH. intros c' sc.
  unfold better. destruct (candidateScore _ _ _ _ _ _ _) as [score|]; [|by apply Hb].
  destruct best as [[b bs]|]; [|by intros [= <- <-]]. destruct (f64_ltb bs score); [by intros [= <- <-]|by apply Hb].
Qed.

Lemma argmaxByScore_drawn model audio now pool : Forall P pool -> drawn (argmaxByScore r pool model audio now).
Proof. intros Hp. by apply argmaxLoop_drawn. Qed.

Lemma Forall_find (f : MappingCandidate -> bool) pool c : Forall P pool -> List.find f pool = Some c -> P c.
Proof. intros Hp [Hc _]%List.find_some. eapply Forall_forall; [exact Hp|]. by apply list_elem_of_In. Qed.

Lemma Forall_filter_bool (f : MappingCandidate -> bool) pool : Forall P pool -> Forall P (List.filter f pool).
Proof.
  intros Hp. apply Forall_forall. intros c [Hc _]%elem_of_filter_bool. by eapply Forall_forall in Hc.
Qed.

Lemma preferScored_drawn model audio now preferred pool :
  Forall P pool -> drawn (preferScored r pool model audio now preferred).
Proof.
  intros Hp. unfold preferScored. destruct (String.eqb preferred ""); [by apply argmaxByScore_drawn|].
  destruct (List.find _ pool) as [c|] eqn:Ef; [|by apply argmaxByScore_drawn].
  apply orElse_drawn; apply argmaxByScore_drawn; [|done]. repeat constructor. by eapply Forall_find in Ef.
Qed.

Lemma preferPartition_drawn accepts model audio now preferred pool :
  Forall P pool -> drawn (preferPartition r pool accepts model audio now preferred).
Proof.
  intros Hp. unfold preferPartition. pose proof (Forall_filter_bool accepts pool Hp) as Hf.
  destruct (List.filter accepts pool); [done|]. by apply preferScored_drawn.
Qed.

Lemma selectFromPool_drawn model audio now preferred pool :
  Forall P pool -> drawn (selectFromPool r pool model audio now preferred).
Proof.
  intros Hp. unfold selectFromPool. apply orElse_drawn; [|apply orElse_drawn].
  - destruct (r_loaded r); [|done]. by apply preferPartition_drawn.
  - destruct (r_runtimeState r); [|done]. by apply preferPartition_drawn.
  - by apply preferScored_drawn.
Qed.

Lemma selectWithSwapProtection_drawn model audio now preferred pool :
  Forall P pool -> drawn (selectWithSwapProtection r pool model audio now preferred).
Proof.
  intros Hp. unfold selectWithSwapProtection. destruct (r_activity r) as [activity|]; [|by apply selectFromPool_drawn].
  cbv zeta. destruct (_ =? 0)%nat; [by apply selectFromPool_drawn|].
  destruct (_ <? _)%nat; [|by apply selectFromPool_drawn].
  apply orElse_drawn; apply selectFromPool_drawn; [by apply Forall_filter_bool|done].
Qed.

Context `{Unicode} (req : Request) (now : time).

Lemma selectUnderCap_drawn pool instancePool s :
  Forall P pool -> drawn (selectUnderCap r pool req now instancePool s).1.
Proof.
  intros Hp. unfold selectUnderCap. cbv zeta. set (judgeLive := judgesLive r req instancePool).
  destruct (preferredInstance r pool req now judgeLive s) as [preferred s1].
  pose proof (selectWithSwapProtection_drawn (req_Model req) (audioRequest req) now preferred) as Hd.
  destruct (_ || judgeLive); [|by apply Hd].
  pose proof (underCapPool_spec r pool now judgeLive s1) as [Ec _].
  destruct (underCapPool r pool now judgeLive s1) as [capped s2]. simpl in Ec. subst capped.
  destruct (_ =? 0)%nat; [destruct (r_admission r); [done|by apply Hd]|].
  destruct (_ <? _)%nat; [|by apply Hd]. apply orElse_drawn; apply Hd; [by apply Forall_filter_bool|done].
Qed.

Context (Pool : forall b c, P c -> P (set_InstancePool b c)).

Lemma drawn_set_InstancePool b x :
  drawn x -> drawn (match x with inl (Some c) => inl (Some (set_InstancePool b c)) | _ => x end).
Proof. destruct x as [[c|]|[ac|]]; [apply Pool|done..]. Qed.

Lemma selectCandidate_drawn candidates s :
  Forall P (List.filter (fun c => negb (excluded req c) && CandidateServesNow r c) candidates) ->
  drawn (selectCandidate r candidates req now s).1.
Proof.
  intros Hr. unfold selectCandidate. cbv zeta.
  destruct (List.filter _ candidates) as [|c0 reachable]; [done|].
  set (pool := match List.filter _ (c0 :: reachable) with [] => c0 :: reachable | _ => _ end).
  assert (Hp : Forall P pool).
  { unfold pool. pose proof (Forall_filter_bool (fun c => requestFitsContext (mm_ContextSize (mc_Mapping c)) (estInputTokens req +! req_MaxTokens req)) _ Hr) as Hf.
    by destruct (List.filter _ (c0 :: reachable)). }
  pose proof (selectUnderCap_drawn pool (existsb mc_InstanceCapable pool) s Hp) as Hd.
  destruct (selectUnderCap r pool req now (existsb mc_InstanceCapable pool) s) as [sel s']. by apply drawn_set_InstancePool.
Qed.

Lemma leastLoadedInstances_drawn activity pool : Forall P pool -> Forall P (leastLoadedInstances pool activity).
Proof.
  intros Hp. unfold leastLoadedInstances.
  assert (Hgen : forall l acc, Forall P l -> Forall P acc.1 -> Forall P (foldl (leastStep activity) acc l).1).
  { intros l. induction l as [|c l IH]; intros acc Hl Ha; [done|]. simpl. apply Forall_cons in Hl as [Hc Hl].
    apply IH; [done|]. unfold leastStep. destruct acc as [least low].
    destruct (negb _); [done|]. destruct (_ || _); [by repeat constructor|].
    destruct (_ =? low); [|done]. simpl. apply Forall_app. split; [done|by repeat constructor]. }
  by apply Hgen.
Qed.

Lemma selectWithoutParking_drawn ac model audio :
  Forall P (ac_pool ac) -> drawn (selectWithoutParking r ac model audio now).
Proof.
  intros Hp. unfold selectWithoutParking. cbv zeta. apply drawn_set_InstancePool, orElse_drawn.
  - pose proof (leastLoadedInstances_drawn (r_instanceActivity r) _ Hp) as Hl.
    destruct (leastLoadedInstances _ _); [done|]. by apply selectWithSwapProtection_drawn.
  - by apply selectWithSwapProtection_drawn.
Qed.

End drawn.

(** ** Reservations are only counted *)

Section counted.
Context `{Unicode} (r : Resolver) (req : Request) (now : time).

Lemma preferredInstance_same pool judgeLive s1 s2 :
  agree now s1 s2 ->
  (preferredInstance r pool req now judgeLive s1).1 = (preferredInstance r pool req now judgeLive s2).1.
Proof.
  intros Hs. unfold preferredInstance. destruct (String.eqb _ ""); [done|]. destruct (List.find _ pool) as [c|]; [|done].
  pose proof (capOK_Proper r now judgeLive s1 s2 Hs c c eq_refl) as Hc. unfold capOK in Hc.
  destruct (underCap r c now judgeLive s1), (underCap r c now judgeLive s2). simpl in *. by rewrite Hc.
Qed.

Lemma underCapPool_same pool judgeLive s1 s2 :
  agree now s1 s2 -> (underCapPool r pool now judgeLive s1).1 = (underCapPool r pool now judgeLive s2).1.
Proof.
  intros Hs. rewrite !(proj1 (underCapPool_spec _ _ _ _ _)). apply List.filter_ext. intros c. by rewrite Hs.
Qed.

Lemma selectUnderCap_counted pool instancePool s1 s2 :
  agree now s1 s2 ->
  (selectUnderCap r pool req now instancePool s1).1 = (selectUnderCap r pool req now instancePool s2).1 /\
  agree now (selectUnderCap r pool req now instancePool s1).2 s1.
Proof.
  intros Hs. unfold selectUnderCap. cbv zeta. set (judgeLive := judgesLive r req instancePool).
  pose proof (preferredInstance_same pool judgeLive s1 s2 Hs) as Ep.
  pose proof (preferredInstance_agree r pool req now judgeLive s1) as H1.
  pose proof (preferredInstance_agree r pool req now judgeLive s2) as H2.
  destruct (preferredInstance r pool req now judgeLive s1) as [preferred s1'],
    (preferredInstance r pool req now judgeLive s2) as [preferred' s2']. simpl in *. subst preferred'.
  destruct (_ || judgeLive); [|done].
  assert (Hs' : agree now s1' s2') by (rewrite H1, Hs, H2; done).
  pose proof (underCapPool_same pool judgeLive s1' s2' Hs') as Eu.
  pose proof (proj2 (underCapPool_spec r pool now judgeLive s1')) as H3.
  destruct (underCapPool r pool now judgeLive s1') as [capped t1], (underCapPool r pool now judgeLive s2') as [capped' t2].
  simpl in *. subst capped'. assert (agree now t1 s1) by (by etrans).
  destruct (_ =? 0)%nat; [by destruct (r_admission r)|]. by destruct (_ <? _)%nat.
Qed.

Lemma selectCandidate_counted candidates s1 s2 :
  agree now s1 s2 ->
  (selectCandidate r candidates req now s1).1 = (selectCandidate r candidates req now s2).1 /\
  agree now (selectCandidate r candidates req now s1).2 s1.
Proof.
  intros Hs. unfold selectCandidate. cbv zeta. destruct (List.filter _ candidates) as [|c0 reachable]; [done|].
  set (pool := match List.filter _ (c0 :: reachable) with [] => c0 :: reachable | _ => _ end).
  destruct (selectUnderCap_counted pool (existsb mc_InstanceCapable pool) s1 s2 Hs) as [E H1].
  destruct (selectUnderCap r pool req now _ s1), (selectUnderCap r pool req now _ s2). simpl in *. by subst.
Qed.

End counted.

(** ** The walk *)

Section walking.
Context `{Unicode} (t : GroupTurn) (apiFlavor : string) (req : Request) (now : time) (gw : groupWalk).

Lemma selectMember_counted name s1 s2 :
  agree now s1 s2 ->
  (selectMember t name apiFlavor req now gw s1).1 = (selectMember t name apiFlavor req now gw s2).1 /\
  agree now (selectMember t name apiFlavor req now gw s1).2 s1.
Proof.
  intros Hs. unfold selectMember. destruct (eligibleCandidates _ _ _ _ _ _) as [[cands live]|e]; [|done].
  destruct (_ =? 0)%nat; [done|].
  destruct (selectCandidate_counted (gt_resolver t) req now cands s1 s2 Hs) as [E H1].
  destruct (selectCandidate _ cands req now s1), (selectCandidate _ cands req now s2). simpl in *. by subst.
Qed.

(** A member's status on this turn. *)
Definition statusOf (name : string) : result memberStatus :=
  (selectMember t name apiFlavor req now gw (t_reservation (gt_turn t))).1.

Definition notOK (name : string) : Prop := exists st, statusOf name = inl st /\ forall sel, st <> memberOK sel.

(** What a member found at its cap gives a request that parks. *)
Definition materialOf (name : string) : option parkMaterial :=
  match statusOf name with inl (memberAtCapacity pm) => Some pm | _ => None end.

Definition liveMember (name : string) : bool :=
  match statusOf name with inl memberNoMapping => false | _ => true end.

Lemma walkMembers_spec members park anyLive s :
  agree now s (t_reservation (gt_turn t)) ->
  match (walkMembers t members apiFlavor req now gw park anyLive s).1 with
  | inr e => exists pre m post, members = pre ++ m :: post /\ Forall notOK pre /\ statusOf m = inr e
  | inl w => exists pre post, members = pre ++ post /\ Forall notOK pre /\
      wr_park w = foldl add park (omap materialOf pre) /\
      match wr_found w with
      | Some (m, sel) => (exists rest, post = m :: rest) /\ statusOf m = inl (memberOK sel) /\ wr_anyLive w = true
      | None => post = [] /\ wr_anyLive w = anyLive || existsb liveMember pre
      end
  end.
Proof.
  revert park anyLive s. induction members as [|m members IH]; intros park anyLive s Hs; simpl.
  { exists [], []. simpl. rewrite orb_false_r. by split_and!. }
  destruct (selectMember_counted m s (t_reservation (gt_turn t)) Hs) as [E Hs']. fold (statusOf m) in E.
  destruct (selectMember t m apiFlavor req now gw s) as [status s']. simpl in E, Hs'. subst status.
  assert (Hagree : agree now s' (t_reservation (gt_turn t))) by (by etrans). unfold materialOf.
  destruct (statusOf m) as [st|e] eqn:Em; [|exists [], m, members; by split_and!].
  assert (Hcons : forall park' live',
    (forall sel, st <> memberOK sel) ->
    foldl add park' (omap materialOf []) = foldl add park (option_list (materialOf m)) ->
    live' = anyLive || liveMember m ->
    match (walkMembers t members apiFlavor req now gw park' live' s').1 with
    | inr e => exists pre m0 post, m :: members = pre ++ m0 :: post /\ Forall notOK pre /\ statusOf m0 = inr e
    | inl w => exists pre post, m :: members = pre ++ post /\ Forall notOK pre /\
        wr_park w = foldl add park (omap materialOf pre) /\
        match wr_found w with
        | Some (m, sel) => (exists rest, post = m :: rest) /\ statusOf m = inl (memberOK sel) /\ wr_anyLive w = true
        | None => post = [] /\ wr_anyLive w = anyLive || existsb liveMember pre
        end
    end).
  { intros park' live' Hno Hpark Hlive. specialize (IH park' live' s' Hagree).
    assert (Hn : notOK m) by (by exists st).
    destruct (walkMembers _ members _ _ _ _ _ _ _) as [[w|e'] s''].
    - destruct IH as (pre & post & -> & Hpre & Hp & Hf). exists (m :: pre), post. split_and!; [done|by constructor| |].
      + rewrite Hp. simpl in Hpark. subst park'. simpl. by destruct (materialOf m).
      + destruct (wr_found w) as [[m' sel]|]; [done|]. destruct Hf as [-> ->]. split; [done|]. subst live'.
        simpl. by rewrite orb_assoc.
    - destruct IH as (pre & m' & post & -> & Hpre & He). exists (m :: pre), m', post. split_and!; [done|by constructor|done]. }
  unfold materialOf, liveMember in Hcons. rewrite Em in Hcons.
  destruct st as [| |sel|pm].
  - apply (Hcons park anyLive); [done|done|]. by rewrite orb_false_r.
  - apply (Hcons park true); [done|done|]. by rewrite orb_true_r.
  - exists [], (m :: members). simpl. split_and!; try done. by eexists.
  - apply (Hcons (add park pm) true); [done|done|]. by rewrite orb_true_r.
Qed.

Lemma addDemand_spec have ds :
  NoDup (ds_Model <$> have) ->
  let all := foldl addDemand have ds in
  NoDup (ds_Model <$> all) /\ (forall d, d ∈ all -> d ∈ have \/ d ∈ ds) /\
  (forall d, d ∈ have \/ d ∈ ds -> ds_Model d ∈ ds_Model <$> all).
Proof.
  revert have. induction ds as [|d ds IH]; intros have Hn; simpl.
  { split_and!; [done|by left|]. intros d [?|?%elem_of_nil]; [|done]. by apply list_elem_of_fmap_2. }
  assert (Hstep : NoDup (ds_Model <$> addDemand have d) /\ (forall x, x ∈ addDemand have d -> x ∈ have \/ x = d) /\
    (forall x, x ∈ have \/ x = d -> ds_Model x ∈ ds_Model <$> addDemand have d)).
  { unfold addDemand. destruct (existsb _ have) eqn:Ee.
    - apply existsb_exists in Ee as (h & Hh & Em). apply list_elem_of_In in Hh. apply String.eqb_eq in Em.
      split_and!; [done|by left|]. intros x [Hx| ->]; [|rewrite <- Em]; by apply list_elem_of_fmap_2.
    - split_and!.
      + rewrite fmap_app. apply NoDup_app. split_and!; [done| |apply NoDup_singleton].
        intros m Hm ->%list_elem_of_singleton. apply list_elem_of_fmap in Hm as (h & Em & Hh).
        apply not_true_iff_false in Ee. apply Ee, existsb_exists. exists h. split; [by apply list_elem_of_In|].
        by rewrite Em, String.eqb_refl.
      + intros x [?| ->%list_elem_of_singleton]%elem_of_app; auto.
      + intros x Hx. apply list_elem_of_fmap_2, elem_of_app. destruct Hx as [?| ->]; [by left|right; by apply list_elem_of_singleton]. }
  destruct Hstep as (H1 & H2 & H3). destruct (IH _ H1) as (I1 & I2 & I3). split_and!; [done| |].
  - intros x Hx. rewrite elem_of_cons. destruct (I2 x Hx) as [Hx'|?]; [destruct (H2 x Hx')|]; auto.
  - intros x Hx. rewrite elem_of_cons in Hx.
    destruct Hx as [Hx|[->|Hx]]; [| |by apply I3; right];
      (assert (Hin : ds_Model x ∈ ds_Model <$> addDemand have d) || assert (Hin : ds_Model d ∈ ds_Model <$> addDemand have d));
      try (apply H3; auto); apply list_elem_of_fmap in Hin as (y & -> & Hy); by apply I3; left.
Qed.

(** What a request parks on: the servers, the longest wait, one demand per model, the
    first member at its cap. *)
Definition parksOn (pms : list parkMaterial) (park : parkMaterial) : Prop :=
  pm_servers park = concat (pm_servers <$> pms) /\
  (forall pm, pm ∈ pms -> pm_queueSecs pm <= pm_queueSecs park) /\
  (pm_queueSecs park = 0 \/ exists pm, pm ∈ pms /\ pm_queueSecs park = pm_queueSecs pm) /\
  NoDup (ds_Model <$> pm_demand park) /\
  (forall d, d ∈ pm_demand park -> exists pm, pm ∈ pms /\ d ∈ pm_demand pm) /\
  (forall pm d, pm ∈ pms -> d ∈ pm_demand pm -> ds_Model d ∈ ds_Model <$> pm_demand park) /\
  pm_first park = head (omap pm_first pms).

Lemma add_parksOn pms : parksOn pms (foldl add noMaterial pms).
Proof.
  induction pms as [|pm pms IH] using rev_ind.
  { split_and!; [done|by intros ? ?%elem_of_nil|by left|constructor|by intros ? ?%elem_of_nil|by intros ? ? ?%elem_of_nil|done]. }
  rewrite foldl_app. simpl. destruct IH as (H1 & H2 & H3 & H4 & H5 & H6 & H7).
  set (p := foldl add noMaterial pms) in *. destruct (addDemand_spec (pm_demand p) (pm_demand pm) H4) as (D1 & D2 & D3).
  split_and!; simpl.
  - rewrite fmap_app, concat_app, H1. simpl. by rewrite app_nil_r.
  - intros x [Hx| ->%list_elem_of_singleton]%elem_of_app; [specialize (H2 x Hx)|]; lia.
  - destruct (Z.max_spec (pm_queueSecs p) (pm_queueSecs pm)) as [[_ ->]|[_ ->]].
    + right. exists pm. set_solver.
    + destruct H3 as [?|(x & ? & ?)]; [by left|]. right. exists x. set_solver.
  - done.
  - intros d Hd. destruct (D2 d Hd) as [Hp|Hp]; [destruct (H5 d Hp) as (x & ? & ?); exists x|exists pm]; set_solver.
  - intros x d [Hx| ->%list_elem_of_singleton]%elem_of_app Hd; [|by apply D3; right].
    specialize (H6 x d Hx Hd). apply list_elem_of_fmap in H6 as (y & -> & Hy). apply D3. by left.
  - rewrite omap_app, H7. simpl. destruct (omap pm_first pms); simpl; [by destruct (pm_first pm)|done].
Qed.

(** The walk serves the first member that can be served: every member in front of it
    was looked at and could not be, none behind it is looked at.  When there is none, the
    request is told whether any member has a mapping at all, and what to park on: all the
    servers of the members at their cap, the longest wait among them, one demand per model,
    and the first of those members.  An error is the first member's that has one. *)
Theorem first_available members :
  match (firstAvailable t members apiFlavor req now gw (t_reservation (gt_turn t))).1 with
  | inr e => exists pre m post, members = pre ++ m :: post /\ Forall notOK pre /\ statusOf m = inr e
  | inl w => exists pre post, members = pre ++ post /\ Forall notOK pre /\
      parksOn (omap materialOf pre) (wr_park w) /\
      match wr_found w with
      | Some (m, sel) => (exists rest, post = m :: rest) /\ statusOf m = inl (memberOK sel) /\ wr_anyLive w = true
      | None => post = [] /\ wr_anyLive w = existsb liveMember members
      end
  end.
Proof.
  pose proof (walkMembers_spec members noMaterial false (t_reservation (gt_turn t)) ltac:(done)) as HW.
  unfold firstAvailable. destruct (walkMembers _ _ _ _ _ _ _ _ _) as [[w|e] s']; [|done]. simpl in *.
  destruct HW as (pre & post & -> & Hpre & Hp & Hf). exists pre, post. split_and!; [done..| |].
  - rewrite Hp. apply add_parksOn.
  - destruct (wr_found w) as [[m sel]|]; [done|]. destruct Hf as [-> ->]. by rewrite app_nil_r.
Qed.

Lemma firstAvailable_cases members :
  match (firstAvailable t members apiFlavor req now gw (t_reservation (gt_turn t))).1 with
  | inr e => exists m, m ∈ members /\ statusOf m = inr e
  | inl w =>
      match wr_found w with
      | Some (m, sel) => m ∈ members /\ statusOf m = inl (memberOK sel)
      | None => Forall notOK members
      end /\
      (forall name ac, pm_first (wr_park w) = Some (name, ac) ->
         exists m pm, m ∈ members /\ statusOf m = inl (memberAtCapacity pm) /\ pm_first pm = Some (name, ac))
  end.
Proof.
  pose proof (walkMembers_spec members noMaterial false (t_reservation (gt_turn t)) ltac:(done)) as HW.
  unfold firstAvailable. destruct (walkMembers _ _ _ _ _ _ _ _ _) as [[w|e] s']; simpl in *.
  - destruct HW as (pre & post & -> & Hpre & Hp & Hf). split.
    + destruct (wr_found w) as [[m sel]|]; [|destruct Hf as [-> _]; by rewrite app_nil_r].
      destruct Hf as ([rest ->] & ? & _). split; [set_solver|done].
    + intros name ac E. rewrite Hp in E. destruct (add_parksOn (omap materialOf pre)) as (_ & _ & _ & _ & _ & _ & Hfirst).
      rewrite Hfirst in E. apply head_Some_elem_of in E. apply list_elem_of_omap in E as (pm & Hpm & E).
      apply list_elem_of_omap in Hpm as (m & Hm & Epm). unfold materialOf in Epm. exists m, pm.
      destruct (statusOf m) as [[]|]; simplify_eq. split_and!; [set_solver|done|done].
  - destruct HW as (pre & m & post & -> & _ & ?). exists m. split; [set_solver|done].
Qed.

End walking.

(** ** Speeds *)

Section speeds.
Context (r : Resolver).

Definition passOK (pass : telemetryPass) : Prop :=
  forall id row, pass !! id = Some row -> r_TelemetryByServer r id = Some row.

Lemma passOK_empty : passOK ∅.
Proof. intros id row Hl. unfold telemetryPass in Hl. by apply lookup_empty_Some in Hl. Qed.

(** The effective speed of a candidate, whatever was read before. *)
Definition speedOf (name : string) (c : MappingCandidate) : option float64 :=
  fst <$> candidateEffectiveGenTPS r ∅ c name.

Lemma pass_read_ok id pass :
  passOK pass ->
  match pass_read r id pass with
  | Some (row, pass') => r_TelemetryByServer r id = Some row /\ passOK pass'
  | None => r_TelemetryByServer r id = None
  end.
Proof.
  intros Hp. unfold pass_read. destruct (pass !! id) as [row|] eqn:E; [by split; [apply Hp|]|].
  destruct (r_TelemetryByServer r id) as [row|] eqn:Er; [|done]. split; [done|].
  intros id' row' Hl. unfold telemetryPass in *. apply lookup_insert_Some in Hl as [[<- <-]|[_ Hl]]; [done|].
  by apply Hp.
Qed.

Lemma effectiveTPS_ok pass c name :
  passOK pass ->
  match candidateEffectiveGenTPS r pass c name with
  | Some (tps, pass') => speedOf name c = Some tps /\ passOK pass'
  | None => speedOf name c = None
  end.
Proof.
  intros Hp. unfold speedOf, candidateEffectiveGenTPS.
  pose proof (pass_read_ok (srv_ID (mc_Server c)) pass Hp) as H1.
  pose proof (pass_read_ok (srv_ID (mc_Server c)) ∅ passOK_empty) as H2.
  destruct (pass_read r _ pass) as [[[tel ok] pass']|], (pass_read r _ ∅) as [[[tel0 ok0] pass0]|].
  - destruct H1 as [H1 Hp'], H2 as [H2 _]. rewrite H1 in H2. injection H2 as <- <-. by split.
  - destruct H1 as [H1 _]. congruence.
  - destruct H2 as [H2 _]. congruence.
  - done.
Qed.

Definition meetsFloor (name : string) (floor : float64) (c : MappingCandidate) : bool :=
  match speedOf name c with Some tps => f64_leb floor tps | None => false end.

Lemma speedFloorLoop_spec cands name floor pass :
  passOK pass ->
  match speedFloorLoop r cands name floor pass with
  | inl kept => kept = List.filter (meetsFloor name floor) cands
  | inr e => e = StoreFailed "load server telemetry"
  end.
Proof.
  revert pass. induction cands as [|c cands IH]; intros pass Hp; [done|]. simpl.
  pose proof (effectiveTPS_ok pass c name Hp) as He. unfold read_or.
  destruct (candidateEffectiveGenTPS r pass c name) as [[tps pass']|]; [|done]. simpl.
  destruct He as [Hs Hp']. specialize (IH pass' Hp'). destruct (speedFloorLoop r cands name floor pass'); simpl; [|done].
  subst. assert (meetsFloor name floor c = f64_leb floor tps) as -> by (unfold meetsFloor; by rewrite Hs). done.
Qed.

End speeds.

(** ** Where a served candidate comes from *)

(** Of one server, application and mapping. *)
Definition sameRow (c c0 : MappingCandidate) : Prop :=
  mc_Server c = mc_Server c0 /\ mc_Application c = mc_Application c0 /\ mc_Mapping c = mc_Mapping c0.

Lemma expandInstances_sameRow cands src c :
  c ∈ expandInstances cands src -> exists c0, c0 ∈ cands /\ sameRow c c0.
Proof.
  destruct src as [src|]; simpl; [|intros Hc; by exists c].
  rewrite list_elem_of_In, in_flat_map. intros (c0 & Hc0 & Hc). apply list_elem_of_In in Hc0, Hc.
  exists c0. split; [done|]. destruct (expandCandidate_spec src c0) as [[_ E]|(view & ks & _ & _ & _ & _ & E)]; rewrite E in Hc.
  - by apply list_elem_of_singleton in Hc as ->.
  - apply elem_of_cons in Hc as [->|(k & -> & _)%list_elem_of_fmap]; done.
Qed.

(** A candidate a member offers under a walk's policy. *)
Definition offered `{Unicode} (t : GroupTurn) (name apiFlavor fineFlavor : string) (required : list string)
    (gw : groupWalk) (c : MappingCandidate) : Prop :=
  (exists pool c0, memberPool (gt_store t) name apiFlavor fineFlavor required = inl pool /\ c0 ∈ pool /\ sameRow c c0) /\
  (forall v, gw_voice gw = Some v -> mm_ID (mc_Mapping c) ∈ vs_allowed v) /\
  (gw_realtime gw = true -> tooSlowForRealtime (gt_store t) c = false) /\
  (f64_leb (gp_MinTokensPerSecond (gw_policy gw)) f64_zero = false ->
     meetsFloor (gt_resolver t) name (gp_MinTokensPerSecond (gw_policy gw)) c = true) /\
  (gp_LoadedOnly (gw_policy gw) = true -> forall loaded, r_loaded (gt_resolver t) = Some loaded -> modelLoadedOn loaded c = true).

Section offering.
Context `{Unicode} (t : GroupTurn) (name apiFlavor fineFlavor : string) (required : list string) (gw : groupWalk).

Lemma offered_set_InstancePool b c :
  offered t name apiFlavor fineFlavor required gw c ->
  offered t name apiFlavor fineFlavor required gw (set_InstancePool b c).
Proof. by destruct c. Qed.

Lemma eligibleCandidates_offered cands live :
  eligibleCandidates t name apiFlavor fineFlavor required gw = inl (cands, live) ->
  Forall (offered t name apiFlavor fineFlavor required gw) cands.
Proof.
  unfold eligibleCandidates. destruct (memberPool _ _ _ _ _) as [pool|e] eqn:Ep; [|done]. simpl.
  set (kept := if gw_realtime gw then _ else _).
  destruct (length kept =? 0)%nat; [by intros [= <- <-]|].
  assert (Hkept : forall c0, c0 ∈ kept -> c0 ∈ pool /\
    (forall v, gw_voice gw = Some v -> mm_ID (mc_Mapping c0) ∈ vs_allowed v) /\
    (gw_realtime gw = true -> tooSlowForRealtime (gt_store t) c0 = false)).
  { intros c0. unfold kept.
    assert (Hr : c0 ∈ restrict (gw_voice gw) pool -> c0 ∈ pool /\
      forall v, gw_voice gw = Some v -> mm_ID (mc_Mapping c0) ∈ vs_allowed v).
    { unfold restrict. destruct (gw_voice gw) as [v|]; [|done]. rewrite elem_of_filter_bool, bool_decide_eq_true.
      intros [? ?]. split; [done|]. by intros ? [= <-]. }
    destruct (gw_realtime gw); [|intros Hc; destruct (Hr Hc); by split_and!].
    rewrite elem_of_filter_bool. intros [Hc ->%negb_true_iff]. destruct (Hr Hc). by split_and!. }
  unfold filterBySpeedFloor. set (floor := gp_MinTokensPerSecond (gw_policy gw)).
  set (all := expandInstances kept _).
  set (floored := if f64_leb floor f64_zero then _ else _).
  intros E. assert (Hfloor : exists l, floored = inl l /\ cands = filterLoaded (gt_resolver t) l (gp_LoadedOnly (gw_policy gw)) /\
    forall c, c ∈ l -> c ∈ all /\ (f64_leb floor f64_zero = false -> meetsFloor (gt_resolver t) name floor c = true)).
  { unfold floored in *. destruct (f64_leb floor f64_zero) eqn:Ef.
    - exists all. injection E as <- <-. by split_and!.
    - pose proof (speedFloorLoop_spec (gt_resolver t) all name floor ∅ (passOK_empty _)) as Hl.
      destruct (speedFloorLoop _ all name floor ∅) as [l|]; [|done]. injection E as <- <-. exists l. split_and!; [done..|].
      subst l. intros c. rewrite elem_of_filter_bool. by intros [? ?]. }
  destruct Hfloor as (l & _ & -> & Hl). apply Forall_forall. intros c Hc.
  assert (Hload : c ∈ l /\ (gp_LoadedOnly (gw_policy gw) = true -> forall loaded, r_loaded (gt_resolver t) = Some loaded -> modelLoadedOn loaded c = true)).
  { unfold filterLoaded in Hc. destruct (r_loaded (gt_resolver t)) as [loaded|]; [|by split].
    destruct (gp_LoadedOnly _); [|by split]. apply elem_of_filter_bool in Hc as [? ?]. split; [done|]. by intros _ ? [= <-]. }
  destruct Hload as [Hin Hloaded]. destruct (Hl c Hin) as [Hall Hfl].
  destruct (expandInstances_sameRow _ _ _ Hall) as (c0 & Hc0 & Hrow). destruct (Hkept c0 Hc0) as (Hpool & Hv & Hrt).
  pose proof Hrow as (R1 & R2 & R3).
  split_and!; [by exists pool, c0|by rewrite R3| |done|done].
  intros Er. specialize (Hrt Er). unfold tooSlowForRealtime in *. by rewrite R3.
Qed.

End offering.

(** ** The order by speed *)

Section stable.
Context {A : Type} (less : A -> A -> bool) `{!StrictWeak less}.

Lemma insertStable_perm x l : insertStable less x l ≡ₚ x :: l.
Proof.
  induction l as [|y l IH]; [done|]. simpl. destruct (less y x); [|done]. rewrite IH. apply Permutation_swap.
Qed.

Lemma sort_SliceStable_perm l : sort_SliceStable less l ≡ₚ l.
Proof. induction l as [|x l IH]; [done|]. simpl. by rewrite insertStable_perm, IH. Qed.

Lemma insertStable_sorted x l :
  StronglySorted (less_le less) l -> StronglySorted (less_le less) (insertStable less x l).
Proof.
  induction 1 as [|y l Hl IH Hy]; simpl; [by repeat constructor|]. destruct (less y x) eqn:E.
  - constructor; [done|]. rewrite insertStable_perm. constructor; [|done]. by apply sw_asym.
  - constructor; [by constructor|]. constructor; [done|]. eapply Forall_impl; [exact Hy|].
    intros z Hz. by apply (sw_trans x y z).
Qed.

Lemma sort_SliceStable_sorted l : StronglySorted (less_le less) (sort_SliceStable less l).
Proof. induction l; simpl; [constructor|by apply insertStable_sorted]. Qed.

(** Elements that tie keep their order. *)
Lemma sort_SliceStable_stable (p : A -> bool) l :
  (forall x y, p x = true -> p y = true -> less x y = false) ->
  List.filter p (sort_SliceStable less l) = List.filter p l.
Proof.
  intros Htie. induction l as [|x l IH]; [done|]. simpl.
  assert (Hins : forall l, List.filter p (insertStable less x l) = if p x then x :: List.filter p l else List.filter p l).
  { clear IH. intros l'. induction l' as [|y l' IH]; simpl; [by destruct (p x)|].
    destruct (less y x) eqn:E; simpl; [|by destruct (p x)]. rewrite IH.
    destruct (p y) eqn:Ey, (p x) eqn:Ex; try done. by rewrite Htie in E. }
  by rewrite Hins, IH.
Qed.

End stable.

Lemma f64_ltb_nan_r x y : f64_number y \/ f64_ltb x y = false.
Proof. destruct y as [| | |]; [by left..| |by left]. right. by destruct x as [|[]| |[]]. Qed.

Section speedOrder.
Context `{Unicode} (t : GroupTurn) (apiFlavor fineFlavor : string) (required : list string) (gw : groupWalk).

(** [v] is the speed of the fastest candidate of a member, 0 when none is measured. *)
Definition fastest (name : string) (v : float64) : Prop :=
  exists cands live, eligibleCandidates t name apiFlavor fineFlavor required gw = inl (cands, live) /\
    (v = f64_zero \/ exists c, c ∈ cands /\ speedOf (gt_resolver t) name c = Some v) /\
    f64_number v /\ f64_ltb v f64_zero = false /\
    forall c, c ∈ cands -> exists tps, speedOf (gt_resolver t) name c = Some tps /\ f64_ltb v tps = false.

Lemma bestSpeed_spec r cands name best pass v pass' :
  passOK r pass -> f64_number best -> bestSpeed r cands name best pass = inl (v, pass') ->
  passOK r pass' /\ f64_number v /\ f64_ltb v best = false /\
  (v = best \/ exists c, c ∈ cands /\ speedOf r name c = Some v) /\
  forall c, c ∈ cands -> exists tps, speedOf r name c = Some tps /\ f64_ltb v tps = false.
Proof.
  revert best pass. induction cands as [|c cands IH]; intros best pass Hp Hb; simpl.
  { intros [= <- <-]. split_and!; [done|done|apply f64_ltb_irrefl|by left|by intros ? ?%elem_of_nil]. }
  pose proof (effectiveTPS_ok r pass c name Hp) as He. unfold read_or.
  destruct (candidateEffectiveGenTPS r pass c name) as [[tps pass1]|]; [|done]. simpl. destruct He as [Hs Hp1].
  set (best' := if f64_ltb best tps then tps else best). intros E.
  assert (Hb' : f64_number best' /\ f64_ltb best' best = false /\ f64_ltb best' tps = false).
  { unfold best'. destruct (f64_ltb_nan_r best tps) as [Hn|Hn].
    - destruct (f64_ltb best tps) eqn:El; [|split_and!; [done|apply f64_ltb_irrefl|done]].
      split_and!; [done| |apply f64_ltb_irrefl]. apply not_true_iff_false. intros Hl.
      assert (Hc := f64_ltb_trans best tps best Hb Hn Hb El). apply not_true_iff_false in El; [done|].
      destruct (f64_ltb tps best) eqn:Et; [|done].
      rewrite f64_ltb_key in El, Et by done. unfold key_lt in *. lia.
    - rewrite Hn. split_and!; [done|apply f64_ltb_irrefl|done]. }
  destruct Hb' as (Hnum & Hge & Htps). destruct (IH best' pass1 Hp1 Hnum E) as (H1 & H2 & H3 & H4 & H5).
  split_and!; [done|done| | |].
  - by eapply (f64_not_ltb_trans best best' v).
  - unfold best' in H4. destruct H4 as [->|(c' & ? & ?)]; [|right; exists c'; set_solver].
    destruct (f64_ltb best tps); [|by left]. right. exists c. split; [left|done].
  - intros c' [->|Hc']%elem_of_cons; [|by apply H5]. exists tps. split; [done|].
    destruct (f64_ltb_nan_r v tps) as [Hn|Hn]; [|done]. by eapply (f64_not_ltb_trans tps best' v).
Qed.

Lemma memberSpeeds_spec members pass speed speed' :
  passOK (gt_resolver t) pass -> (forall m v, speed !! m = Some v -> fastest m v) ->
  memberSpeeds t members apiFlavor fineFlavor required gw pass speed = inl speed' ->
  (forall m v, speed' !! m = Some v -> fastest m v) /\
  forall m, m ∈ members \/ is_Some (speed !! m) -> is_Some (speed' !! m).
Proof.
  revert pass speed. induction members as [|m members IH]; intros pass speed Hp Hs; simpl.
  { intros [= <-]. split; [done|]. intros m [?%elem_of_nil|?]; done. }
  destruct (has_key speed m) eqn:Ek.
  { intros E. destruct (IH pass speed Hp Hs E) as [H1 H2]. split; [done|]. intros m' [[->|?]%elem_of_cons|?]; [|auto..].
    apply H2. right. by apply has_key_true. }
  destruct (eligibleCandidates t m _ _ _ _) as [[cands live]|] eqn:Ee; [|done]. simpl.
  destruct (bestSpeed _ cands m f64_zero pass) as [[best pass']|] eqn:Eb; [|done]. simpl. intros E.
  destruct (bestSpeed_spec _ _ _ f64_zero _ _ _ Hp ltac:(done) Eb) as (H1 & H2 & H3 & H4 & H5).
  destruct (IH pass' (<[m := best]> speed) H1) as [I1 I2]; [|done|].
  - intros m' v [[<- <-]|[_ Hl]]%lookup_insert_Some; [|by apply Hs]. exists cands, live. by split_and!.
  - split; [done|]. intros m' [[->|?]%elem_of_cons|Hm']; apply I2; [right|by left|right].
    + rewrite lookup_insert_eq. eauto.
    + destruct (decide (m' = m)) as [->|]; [rewrite lookup_insert_eq; eauto|by rewrite lookup_insert_ne].
Qed.

Lemma fasterThan_sw speed :
  (forall m v, speed !! m = Some v -> f64_number v) -> StrictWeak (fasterThan speed).
Proof.
  intros Hn. assert (Hg : forall m, f64_number (map_get f64_zero speed m)).
  { intros m. unfold map_get. destruct (speed !! m) as [v|] eqn:E; [by eapply Hn|done]. }
  unfold fasterThan. split.
  - intros x y Hxy. apply not_true_iff_false. rewrite f64_ltb_key in * by done. unfold key_lt in *. lia.
  - intros x y z Hxy Hyz. apply not_true_iff_false in Hxy, Hyz. apply not_true_iff_false.
    rewrite f64_ltb_key in * by done. unfold key_lt in *. lia.
Qed.

(** Speed order is the members sorted by the speed of their fastest eligible
    candidate, fastest first: each member once per occurrence, unmeasured and gated ones
    count as 0, and members of one speed -- all of them, in a group nobody measured --
    stay in their manual order. *)
Theorem speed_order members out :
  orderMembersBySpeed t members apiFlavor fineFlavor required gw = inl out ->
  exists speed : string -> float64,
    (forall m, m ∈ members -> fastest m (speed m)) /\
    out ≡ₚ members /\
    StronglySorted (fun a b => f64_ltb (speed a) (speed b) = false) out /\
    forall p : string -> bool,
      (forall a b, p a = true -> p b = true -> f64_ltb (speed a) (speed b) = false) ->
      List.filter p out = List.filter p members.
Proof.
  unfold orderMembersBySpeed. destruct (memberSpeeds _ _ _ _ _ _ _ _) as [speed|] eqn:E; [|done]. simpl. intros [= <-].
  apply memberSpeeds_spec in E as [H1 H2]; [|apply passOK_empty|intros m v Hl; by apply lookup_empty_Some in Hl].
  assert (HSW : StrictWeak (fasterThan speed)).
  { apply fasterThan_sw. intros m v Hl. destruct (H1 m v Hl) as (? & ? & _ & _ & Hnum & _). done. }
  exists (map_get f64_zero speed). split_and!.
  - intros m Hm. destruct (H2 m (or_introl Hm)) as [v Hv]. assert (map_get f64_zero speed m = v) as -> by (unfold map_get; unfold GroupMember in *; by rewrite Hv).
    by apply H1.
  - apply sort_SliceStable_perm.
  - apply (sort_SliceStable_sorted (fasterThan speed)).
  - intros p Hp. apply sort_SliceStable_stable. intros x y Hx Hy. unfold fasterThan. by apply Hp.
Qed.

Lemma orderMembersBySpeed_perm members out :
  orderMembersBySpeed t members apiFlavor fineFlavor required gw = inl out -> out ≡ₚ members.
Proof.
  unfold orderMembersBySpeed. destruct (memberSpeeds _ _ _ _ _ _ _ _); [|done]. intros [= <-]. apply sort_SliceStable_perm.
Qed.

End speedOrder.

(** ** Serving *)

(** What a group request may be served by on a turn: a candidate the member offers it,
    on a server that serves now, that the request did not exclude. *)
Definition servable `{Unicode} (t : GroupTurn) (g : groupResolve) (name : string) (c : MappingCandidate) : Prop :=
  offered t name (g_apiFlavor g) (req_APIFlavor (g_req g)) (req_RequiredCapabilities (g_req g)) (walk g) c /\
  CandidateServesNow (gt_resolver t) c = true /\ excluded (g_req g) c = false.

Section serving.
Context `{Unicode} (affinityID : AffinityKey -> string).

Lemma selectMember_servable t g now name s :
  match (selectMember t name (g_apiFlavor g) (g_req g) now (walk g) s).1 with
  | inl (memberOK c) => servable t g name c
  | inl (memberAtCapacity pm) => exists ac, pm_first pm = Some (name, ac) /\ Forall (servable t g name) (ac_pool ac)
  | _ => True
  end.
Proof.
  unfold selectMember.
  destruct (eligibleCandidates _ _ _ _ _ _) as [[cands live]|e] eqn:Ee; [|done].
  apply eligibleCandidates_offered in Ee. destruct (length cands =? 0)%nat; [by destruct live|].
  pose proof (selectCandidate_drawn (gt_resolver t) (servable t g name) (g_req g) now) as Hd.
  specialize (Hd ltac:(intros b c ?; by destruct c) cands s).
  assert (Hf : Forall (servable t g name) (List.filter (fun c => negb (excluded (g_req g) c) && CandidateServesNow (gt_resolver t) c) cands)).
  { apply Forall_forall. intros c [Hc Hs]%elem_of_filter_bool. bool_hyps. split_and!; [by eapply Forall_forall in Ee|done|done]. }
  specialize (Hd Hf). destruct (selectCandidate _ _ _ _ _) as [[[c|]|[ac|]] s']; simpl in *; [done|done| |done].
  by exists ac.
Qed.

Lemma statusOf_servable t g now name :
  match statusOf t (g_apiFlavor g) (g_req g) now (walk g) name with
  | inl (memberOK c) => servable t g name c
  | inl (memberAtCapacity pm) => exists ac, pm_first pm = Some (name, ac) /\ Forall (servable t g name) (ac_pool ac)
  | _ => True
  end.
Proof. apply selectMember_servable. Qed.

Lemma serve_served t g name sel now name' c now' effects :
  serve affinityID t g name sel now = (Served name' c now', effects) -> name' = name /\ c = sel /\ now' = now.
Proof. unfold serve. destruct (upsertGroupPin _ _ _ _ _ _); [|done]. by intros [= <- <- <- _]. Qed.

Lemma groupLoop_served turns g deadline now name c now' effects :
  groupLoop affinityID turns g deadline now = (Served name c now', effects) ->
  exists t, t ∈ turns /\ name ∈ g_members g /\ servable t g name c.
Proof.
  revert deadline now effects. induction turns as [|t turns IH]; intros deadline now effects; [done|].
  cbn [groupLoop]. cbv zeta.
  pose proof (firstAvailable_cases t (g_apiFlavor g) (g_req g) now (walk g) (g_members g)) as HF.
  destruct (firstAvailable _ _ _ _ _ _ _) as [[w|e] s']; simpl in HF |- *; [|done]. destruct HF as [Hfound Hfirst].
  destruct (match wr_found w with Some (name0, sel) => if String.eqb name0 "" then None else Some (name0, sel) | None => None end) as [[m sel]|] eqn:Ef.
  { destruct (wr_found w) as [[m' sel']|]; [|done]. destruct (String.eqb m' ""); [done|]. injection Ef as -> ->.
    intros (-> & -> & _)%serve_served. exists t. destruct Hfound as [Hm Hst].
    pose proof (statusOf_servable t g now m) as Hs. rewrite Hst in Hs. split_and!; [left|done|done]. }
  destruct (if neverParks (g_req g) then pm_first (wr_park w) else None) as [[m ac]|] eqn:Ep.
  { assert (Epf : pm_first (wr_park w) = Some (m, ac)) by (destruct (neverParks (g_req g)); done).
    destruct (Hfirst _ _ Epf) as (m' & pm & Hm & Hst & Epm).
    pose proof (statusOf_servable t g now m') as Hs. rewrite Hst in Hs. destruct Hs as (ac' & Eac & Hpool).
    rewrite Epm in Eac. injection Eac as -> ->.
    pose proof (selectWithoutParking_drawn (gt_resolver t) (servable t g m') now ltac:(intros b x ?; by destruct x) ac' m' (audioRequest (g_req g)) Hpool) as Hd.
    destruct (selectWithoutParking _ _ _ _ _) as [[sel|]|]; [|done..]. simpl in Hd.
    destruct (serve affinityID t g m' sel now) as [o eff] eqn:Es. intros [= -> _].
    apply serve_served in Es as (-> & -> & _). exists t. split_and!; [left|done|done]. }
  destruct (_ && _); [|done].
  destruct (parkTurn _ _ _) as [[e|] signals]; [done|].
  destruct (groupLoop affinityID turns g _ _) as [o eff] eqn:El. intros [= -> _].
  destruct (IH _ _ _ El) as (t' & ? & ? & ?). exists t'. split_and!; [by right|done|done].
Qed.

Lemma firstAvailable_found t g now w m sel :
  (firstAvailable t (g_members g) (g_apiFlavor g) (g_req g) now (walk g) (t_reservation (gt_turn t))).1 = inl w ->
  wr_found w = Some (m, sel) -> m ∈ g_members g /\ statusOf t (g_apiFlavor g) (g_req g) now (walk g) m = inl (memberOK sel).
Proof.
  intros E Hf. pose proof (firstAvailable_cases t (g_apiFlavor g) (g_req g) now (walk g) (g_members g)) as HF.
  rewrite E, Hf in HF. by destruct HF as [? _].
Qed.

(** The walk of the climb starts from a tracker the pin's check has pruned. *)
Lemma firstAvailable_counted t g now s :
  agree now s (t_reservation (gt_turn t)) ->
  match (firstAvailable t (g_members g) (g_apiFlavor g) (g_req g) now (walk g) s).1 with
  | inr e => True
  | inl w => forall m sel, wr_found w = Some (m, sel) ->
      exists pre rest, g_members g = pre ++ m :: rest /\
        Forall (notOK t (g_apiFlavor g) (g_req g) now (walk g)) pre /\
        statusOf t (g_apiFlavor g) (g_req g) now (walk g) m = inl (memberOK sel)
  end.
Proof.
  intros Hs. pose proof (walkMembers_spec t (g_apiFlavor g) (g_req g) now (walk g) (g_members g) noMaterial false s Hs) as HW.
  unfold firstAvailable. destruct (walkMembers _ _ _ _ _ _ _ _ _) as [[w|e] s']; [|done]. simpl in *.
  intros m sel E. destruct HW as (pre & post & -> & Hpre & _ & Hf). rewrite E in Hf.
  destruct Hf as ([rest ->] & ? & _). by exists pre, rest.
Qed.

End serving.
