(* ===== verification/GroupsProps.v ===== *)
(** * What a group request is served by

    The pin and the climb ([session_sticks]), where a served candidate comes from
    ([group_serves_permitted]), what an error of the ladder means ([group_no_dead_end]),
    the pins written ([group_pin_exact]) and the wait ([group_bounded_wait]). *)

From Stdlib Require Import ZArith Lia Sorting.Sorted.
From stdpp Require Import base tactics option list numbers strings gmap sets.
From S2P Require Import Prelude Float64 RoutingTypes GatewayInstances GatewayInstancesProps Scorer Reservation.
From S2P Require Import AdmissionQueue Selection SelectionProps Filters FiltersProps Parking ParkingProps Groups GroupWalk.
Local Open Scope Z_scope.
Local Open Scope go_scope.

(** ** The pin and the climb *)

Lemma memberIndexFrom_app i pre m rest :
  m ∉ pre -> memberIndexFrom i (pre ++ m :: rest) m = i + Z.of_nat (length pre).
Proof.
  revert i. induction pre as [|x pre IH]; intros i Hm; simpl; [rewrite String.eqb_refl; lia|].
  apply not_elem_of_cons in Hm as [Hne Hm]. rewrite (proj2 (String.eqb_neq _ _)) by done. rewrite IH by done. lia.
Qed.

Lemma memberIndex_split members m : m ∈ members ->
  exists pre rest, members = pre ++ m :: rest /\ m ∉ pre /\ memberIndex members m = Z.of_nat (length pre).
Proof.
  intros (pre & rest & -> & Hm)%list_elem_of_split_l. exists pre, rest. split_and!; [done..|].
  unfold memberIndex. rewrite memberIndexFrom_app by done. lia.
Qed.

(** The first member that satisfies a property, before any other that does. *)
Lemma first_before {A} (bad : A -> Prop) pre m rest pre' m' rest' :
  pre ++ m :: rest = pre' ++ m' :: rest' -> Forall bad pre -> ~ bad m' -> (length pre <= length pre')%nat.
Proof.
  intros E Hb Hn. destruct (decide (length pre <= length pre')%nat) as [|Hl]; [done|]. exfalso. apply Hn.
  eapply Forall_forall; [exact Hb|]. apply list_elem_of_lookup. exists (length pre').
  rewrite <- (lookup_app_l pre (m :: rest)) by lia. rewrite E. by rewrite list_lookup_middle.
Qed.

Lemma first_unique {A} (bad : A -> Prop) pre m rest pre' m' rest' :
  pre ++ m :: rest = pre' ++ m' :: rest' -> Forall bad pre -> Forall bad pre' -> ~ bad m -> ~ bad m' -> m = m'.
Proof.
  intros E F F' Hm Hm'. assert (Hl : length pre = length pre').
  { apply Nat.le_antisymm; [by eapply first_before|]. eapply first_before; [symmetry|..]; done. }
  apply app_inj_1 in E as [_ E]; [|done]. by injection E.
Qed.

Section pinning.
Context `{Unicode} (t : GroupTurn) (g : groupResolve) (now : time).

Local Notation status := (statusOf t (g_apiFlavor g) (g_req g) now (walk g)).
Local Notation index := (memberIndex (g_members g)).

Definition available (name : string) (sel : MappingCandidate) : Prop := status name = inl (memberOK sel).

(** [m] is the first available member. *)
Definition firstOK (m : string) (sel : MappingCandidate) : Prop :=
  available m sel /\
  exists pre rest, g_members g = pre ++ m :: rest /\ Forall (notOK t (g_apiFlavor g) (g_req g) now (walk g)) pre.

Lemma available_not_notOK m sel : available m sel -> ~ notOK t (g_apiFlavor g) (g_req g) now (walk g) m.
Proof. unfold available. intros E (st & E' & Hn). rewrite E in E'. injection E' as <-. by apply (Hn sel). Qed.

Lemma firstOK_unique m1 s1 m2 s2 : firstOK m1 s1 -> firstOK m2 s2 -> m1 = m2 /\ s1 = s2.
Proof.
  intros [A1 (pre1 & rest1 & E1 & F1)] [A2 (pre2 & rest2 & E2 & F2)].
  assert (m1 = m2) as ->.
  { eapply (first_unique _ pre1 m1 rest1 pre2 m2 rest2); [exact (eq_trans (eq_sym E1) E2)|done|done| |]; by eapply available_not_notOK. }
  unfold available in *. rewrite A1 in A2. by injection A2 as ->.
Qed.

(** The first available member is at or before any available one. *)
Lemma firstOK_index m sel pin pinSel :
  firstOK m sel -> available pin pinSel -> pin ∈ g_members g -> m <> pin -> index m < index pin.
Proof.
  intros [Am (pre & rest & E & F)] Ap Hp Hne.
  destruct (memberIndex_split _ pin Hp) as (prep & restp & Ep & Hnp & ->).
  destruct (memberIndex_split (g_members g) m) as (prem & restm & Em & Hnm & ->); [rewrite E; set_solver|].
  assert (H1 : (length pre <= length prep)%nat).
  { eapply (first_before _ pre m rest prep pin restp); [exact (eq_trans (eq_sym E) Ep)|exact F|]. by eapply available_not_notOK. }
  assert (H2 : (length prem <= length pre)%nat).
  { apply (first_before (fun x => x <> m) prem m restm pre m rest); [exact (eq_trans (eq_sym Em) E)| |].
    - apply Forall_forall. intros x Hx ->. done.
    - tauto. }
  assert (length prem <> length prep); [|lia].
  intros El. rewrite Em in Ep. apply app_inj_1 in Ep as [_ Ep]; [|done]. by injection Ep as ? _.
Qed.

Definition climbs : Prop := gp_FailoverMode (g_policy g) = modeClimbUp.

(** The margin a better member has to clear: in a group ordered by speed it must be faster than
    the pinned member by the policy's percentage, a negative one counting as none, and each
    speed is the one [speedOf] reads with nothing read before it; a pinned member whose speed
    nobody measured is no obstacle. *)
Definition marginMet (best : string) (bestSel : MappingCandidate) (pin : string) (pinSel : MappingCandidate) : result bool :=
  if decide (gp_MemberOrder (g_policy g) = "speed") then
    pinSpeed ← read_or "load server telemetry" (speedOf (gt_resolver t) pin pinSel);
    if f64_leb pinSpeed f64_zero then mret true
    else
      bestSpeed ← read_or "load server telemetry" (speedOf (gt_resolver t) best bestSel);
      let share := f64_div (f64_of_int (Z.max 0 (gp_ClimbSpeedMarginPercent (g_policy g)))) (f64_of_int 100) in
      mret (f64_ltb (f64_mul pinSpeed (f64_add (f64_of_int 1) share)) bestSpeed)
  else mret true.

(** The server is known to hold the model the candidate would be asked for. *)
Definition holds (sel : MappingCandidate) : Prop :=
  exists loaded, r_loaded (gt_resolver t) = Some loaded /\
    candidateAddress sel ∈ loaded (app_ID (mc_Application sel)) (srv_ID (mc_Server sel)).

#[local] Instance holds_dec sel : Decision (holds sel).
Proof.
  unfold holds. destruct (r_loaded (gt_resolver t)) as [loaded|]; [|right; by intros (? & ? & _)].
  destruct (decide (candidateAddress sel ∈ loaded (app_ID (mc_Application sel)) (srv_ID (mc_Server sel)))) as [Hin|Hin];
    [left; by exists loaded|right; by intros (? & [= <-] & ?)].
Defined.

Lemma memberLoaded_holds sel : memberLoaded (gt_resolver t) sel = bool_decide (holds sel).
Proof.
  apply eq_bool_prop_intro. unfold memberLoaded, modelLoadedOn. rewrite bool_decide_spec. unfold holds.
  destruct (r_loaded (gt_resolver t)) as [loaded|]; [rewrite bool_decide_spec|]; naive_solver.
Qed.

Lemma marginMet_code best bestSel pin pinSel :
  (if String.eqb (gp_MemberOrder (g_policy g)) MemberOrderSpeed
   then speedMarginMet (gt_resolver t) bestSel pinSel best pin (g_policy g) else mret true) =
  marginMet best bestSel pin pinSel.
Proof.
  unfold marginMet. destruct (String.eqb_spec (gp_MemberOrder (g_policy g)) MemberOrderSpeed) as [E|E];
    [rewrite decide_True by done|by rewrite decide_False].
  unfold speedMarginMet. pose proof (effectiveTPS_ok (gt_resolver t) ∅ pinSel pin (passOK_empty _)) as Hp.
  destruct (candidateEffectiveGenTPS (gt_resolver t) ∅ pinSel pin) as [[p pass]|]; [|by rewrite Hp].
  destruct Hp as [-> Hpass]. simpl. destruct (f64_leb p f64_zero); [done|].
  pose proof (effectiveTPS_ok (gt_resolver t) pass bestSel best Hpass) as Hb.
  destruct (candidateEffectiveGenTPS (gt_resolver t) pass bestSel best) as [[b pass']|]; [|by rewrite Hb].
  destruct Hb as [-> _]. simpl.
  assert ((if gp_ClimbSpeedMarginPercent (g_policy g) <? 0 then 0 else gp_ClimbSpeedMarginPercent (g_policy g)) =
    Z.max 0 (gp_ClimbSpeedMarginPercent (g_policy g))) as -> by (destruct (Z.ltb_spec (gp_ClimbSpeedMarginPercent (g_policy g)) 0); lia).
  done.
Qed.

(** What the climb from an available pin comes to when [best] is the first available member. *)
Definition climbed (pin : string) (pinSel : MappingCandidate) (best : string) (bestSel : MappingCandidate)
  : result (option (string * MappingCandidate)) * list effect :=
  if decide (best = "" \/ best = pin) then (inl None, [])
  else match marginMet best bestSel pin pinSel with
       | inr e => (inr e, [])
       | inl false => (inl None, [])
       | inl true =>
           if decide (holds bestSel) then (inl (Some (best, bestSel)), [])
           else (inl None, if gt_warmer t && negb (gp_suppressWarm (g_policy g)) then [Warmed best] else [])
       end.

(** How the pinned session's answer and the warm-ups follow from a climb. *)
Lemma climbed_answer pin pinSel best bestSel :
  pin <> "" -> pin ∈ g_members g -> available pin pinSel -> firstOK best bestSel -> climbs ->
  let '(target, effects) := climbed pin pinSel best bestSel in
  let result := match target with inr e => inr e | inl (Some x) => inl (Some x) | inl None => inl (Some (pin, pinSel)) end in
  (best = "" \/ best = pin -> result = inl (Some (pin, pinSel))) /\
  (best <> "" -> best <> pin -> index best < index pin /\
     match marginMet best bestSel pin pinSel with
     | inr e => result = inr e
     | inl false => result = inl (Some (pin, pinSel))
     | inl true => if decide (holds bestSel) then result = inl (Some (best, bestSel))
                   else result = inl (Some (pin, pinSel))
     end) /\
  forall e, e ∈ effects <-> e = Warmed best /\ gt_warmer t = true /\ gp_suppressWarm (g_policy g) = false /\ best <> "" /\
     best <> pin /\ ~ holds bestSel /\ marginMet best bestSel pin pinSel = inl true.
Proof.
  intros Hp Hin Ha HF Hc. unfold climbed. destruct (decide (best = "" \/ best = pin)) as [Hd|Hd]; simpl.
  { split_and!; [done|naive_solver|]. intros e. split; [by intros ?%elem_of_nil|naive_solver]. }
  assert (Hne : best <> "" /\ best <> pin) by naive_solver. destruct Hne as [Hne Hnp].
  pose proof (firstOK_index _ _ _ _ HF Ha Hin Hnp) as Hidx.
  destruct (marginMet best bestSel pin pinSel) as [[]|e'] eqn:Em; simpl;
    [destruct (decide (holds bestSel)) as [Hl|Hl]; simpl|..];
    (split_and!; [naive_solver|intros _ _; by split|]);
    intros e; destruct (gt_warmer t), (gp_suppressWarm (g_policy g)); simpl; rewrite ?elem_of_nil, ?list_elem_of_singleton; naive_solver.
Qed.

(** A member cannot be looked at, and none before it is available. *)
Definition walkFails (e : routeError) : Prop :=
  exists pre m post, g_members g = pre ++ m :: post /\
    Forall (notOK t (g_apiFlavor g) (g_req g) now (walk g)) pre /\ status m = inr e.

Lemma climbTarget_spec pin pinSel s :
  agree now s (t_reservation (gt_turn t)) -> available pin pinSel -> pin ∈ g_members g ->
  (exists e, walkFails e /\ climbTarget t g now pin pinSel s = (inr e, [])) \/
  exists best bestSel, firstOK best bestSel /\
    climbTarget t g now pin pinSel s = climbed pin pinSel best bestSel.
Proof.
  intros Hs Hpin Hin. unfold climbTarget.
  pose proof (walkMembers_spec t (g_apiFlavor g) (g_req g) now (walk g) (g_members g) noMaterial false s Hs) as HW.
  unfold firstAvailable. destruct (walkMembers _ _ _ _ _ _ _ _ _) as [[w|e] s']; simpl in HW |- *.
  2: { left. exists e. split; [|done]. destruct HW as (pre & m & post & ?). by exists pre, m, post. }
  right. destruct HW as (pre & post & E & Hpre & _ & Hf). destruct (wr_found w) as [[best bestSel]|].
  2: { exfalso. destruct Hf as [-> _]. rewrite app_nil_r in E. eapply available_not_notOK; [exact Hpin|].
       eapply Forall_forall; [exact Hpre|]. by rewrite <- E. }
  destruct Hf as ([rest ->] & Hbest & _).
  assert (HF : firstOK best bestSel) by (split; [done|by exists pre, rest]).
  exists best, bestSel. split; [done|]. unfold climbed.
  destruct (String.eqb_spec best "") as [->|Hne]; cbn [orb]; [by rewrite decide_True by auto|].
  destruct (String.eqb_spec best pin) as [->|Hnp]; cbn [orb]; [by rewrite decide_True by auto|].
  pose proof (firstOK_index _ _ _ _ HF Hpin Hin Hnp) as Hidx.
  rewrite decide_False by naive_solver. rewrite (proj2 (Z.leb_gt _ _)) by lia. rewrite marginMet_code, memberLoaded_holds.
  destruct (marginMet best bestSel pin pinSel) as [[]|e]; try done.
  destruct (decide (holds bestSel)) as [Hl|Hl]; [by rewrite bool_decide_true|]. rewrite bool_decide_false by done. by destruct (_ && _).
Qed.

(** The walk fails, or finds its first available member: not both. *)
Lemma walkFails_firstOK e m sel : walkFails e -> firstOK m sel -> False.
Proof.
  intros (pre & x & post & E & Hpre & Hx) [Am (pre' & rest' & E' & Hpre')]. unfold available in Am.
  assert (x = m) as ->; [|congruence].
  eapply (first_unique _ pre x post pre' m rest'); [exact (eq_trans (eq_sym E) E')|done|done| |by eapply available_not_notOK].
  intros (st & ? & _). congruence.
Qed.

Lemma walkFails_unique e e' : walkFails e -> walkFails e' -> e = e'.
Proof.
  intros (pre & x & post & E & Hpre & Hx) (pre' & x' & post' & E' & Hpre' & Hx').
  assert (x = x') as ->; [|congruence].
  eapply (first_unique _ pre x post pre' x' post'); [exact (eq_trans (eq_sym E) E')|done|done| |];
    intros (st & ? & _); congruence.
Qed.

(** Member [m] ranks before the pin and clears the margin, but is not loaded. *)
Definition warms (pin m : string) : Prop :=
  climbs /\ gt_warmer t = true /\ gp_suppressWarm (g_policy g) = false /\ m <> "" /\ pin <> "" /\ m <> pin /\
  exists sel pinSel, available pin pinSel /\ firstOK m sel /\ ~ holds sel /\
    marginMet m sel pin pinSel = inl true.

Lemma warms_nothing pin : (forall pinSel, climbs -> ~ available pin pinSel) -> forall m, Warmed m ∈ ([] : list effect) <-> warms pin m.
Proof.
  intros Hna m. split; [by intros ?%elem_of_nil|]. intros (Hc & _ & _ & _ & _ & _ & sel & pinSel & Ha & _).
  by destruct (Hna pinSel Hc).
Qed.

(** The climb from an available pin, decided: the answer and everything it warms. *)
Lemma climb_answer pin pinSel s :
  agree now s (t_reservation (gt_turn t)) -> pin <> "" -> pin ∈ g_members g -> available pin pinSel -> climbs ->
  let '(target, effects) := climbTarget t g now pin pinSel s in
  let result := match target with inr e => inr e | inl (Some x) => inl (Some x) | inl None => inl (Some (pin, pinSel)) end in
  let stays := result = inl (Some (pin, pinSel)) in
  ((exists e, walkFails e) \/ (exists best bestSel, firstOK best bestSel)) /\
  (forall e, walkFails e -> result = inr e) /\
  (forall best bestSel, firstOK best bestSel ->
     (best = "" \/ best = pin -> stays) /\
     (best <> "" -> best <> pin -> index best < index pin /\
        match marginMet best bestSel pin pinSel with
        | inr e => result = inr e
        | inl false => stays
        | inl true => if decide (holds bestSel) then result = inl (Some (best, bestSel)) else stays
        end)) /\
  (forall e, e ∈ effects <-> exists m, e = Warmed m /\ warms pin m).
Proof.
  intros Hs Hpin Hin Hav Hc.
  destruct (climbTarget_spec pin pinSel s Hs Hav Hin) as [(e & Hw & ->)|(best & bestSel & HF & ->)].
  - split_and!; [left; by exists e| | |].
    + intros e' Hw'. by rewrite (walkFails_unique _ _ Hw Hw').
    + intros b bs HF. by destruct (walkFails_firstOK _ _ _ Hw HF).
    + intros x. split; [by intros ?%elem_of_nil|]. intros (m & _ & _ & _ & _ & _ & _ & _ & sel & ps & _ & HF & _).
      by destruct (walkFails_firstOK _ _ _ Hw HF).
  - pose proof (climbed_answer pin pinSel best bestSel Hpin Hin Hav HF Hc) as HA.
    destruct (climbed pin pinSel best bestSel) as [target warmed]. destruct HA as (A1 & A2 & A3). split_and!.
    + right. by exists best, bestSel.
    + intros e Hw. by destruct (walkFails_firstOK _ _ _ Hw HF).
    + intros b bs HF'. by destruct (firstOK_unique _ _ _ _ HF HF') as [<- <-].
    + intros x. rewrite A3. split.
      * intros (-> & ? & ? & ? & ? & ? & ?). exists best. split; [done|]. split_and!; try done. by exists bestSel, pinSel.
      * intros (m & -> & _ & ? & ? & ? & _ & ? & sel & ps & Ha' & HF' & ? & ?).
        destruct (firstOK_unique _ _ _ _ HF HF') as [-> ->]. assert (ps = pinSel) as -> by (unfold available in *; congruence).
        by split_and!.
Qed.

Definition pinOf : string := (groupPin t (g_key g) (g_members g) now).1.

(** A stored pin that names no available session: expired, without a model, or for a model
    that left the group. *)
Definition stalePin (aff : RouteAffinity) : Prop :=
  aff_ExpiresAt aff <= now \/ aff_ResolvedModel aff = "" \/ aff_ResolvedModel aff ∉ g_members g.

Lemma memberNameExists_elem members name : memberNameExists members name = true <-> name ∈ members.
Proof.
  unfold memberNameExists. rewrite existsb_exists. split.
  - intros (m & Hm & ->%String.eqb_eq). by apply list_elem_of_In.
  - intros Hm. exists name. by rewrite String.eqb_refl, <- list_elem_of_In.
Qed.

Lemma groupPin_spec :
  let '(pin, effects) := groupPin t (g_key g) (g_members g) now in
  (pin <> "" -> pin ∈ g_members g /\ effects = [] /\
     exists aff, gt_affinity t = Some (Some aff) /\ aff_ResolvedModel aff = pin /\ now < aff_ExpiresAt aff) /\
  (effects <> [] -> effects = [Deleted (g_key g)] /\ pin = "" /\
     exists aff, gt_affinity t = Some (Some aff) /\ stalePin aff) /\
  (forall aff, gt_affinity t = Some (Some aff) -> stalePin aff -> effects = [Deleted (g_key g)]).
Proof.
  unfold groupPin, stalePin. destruct (gt_affinity t) as [[aff|]|]; [|done..].
  assert (HB : (now <? aff_ExpiresAt aff) && negb (String.eqb (aff_ResolvedModel aff) "")
      && memberNameExists (g_members g) (aff_ResolvedModel aff) = true <->
    now < aff_ExpiresAt aff /\ aff_ResolvedModel aff <> "" /\ aff_ResolvedModel aff ∈ g_members g).
  { rewrite !andb_true_iff, Z.ltb_lt, negb_true_iff, String.eqb_neq, memberNameExists_elem. tauto. }
  destruct (_ && _) eqn:E.
  - destruct (proj1 HB eq_refl) as (H1 & H2 & H3). split_and!; [|done|].
    + intros _. split_and!; [done|done|]. by exists aff.
    + intros aff' [= <-] [?|[?|?]]; [lia|done|done].
  - assert (HN : aff_ExpiresAt aff <= now \/ aff_ResolvedModel aff = "" \/ aff_ResolvedModel aff ∉ g_members g).
    { destruct (Z.le_gt_cases (aff_ExpiresAt aff) now); [by left|right].
      destruct (decide (aff_ResolvedModel aff = "")); [by left|right]. intros Hin. assert (false = true); [|done]. apply HB. split_and!; [lia|done|done]. }
    split_and!; [done| |done]. intros _. split_and!; [done..|]. by exists aff.
Qed.

(** C26.  A session stays where it is pinned.  Without a usable pin, or when the pinned member is
    not available, the walk takes over, and in no other case; an error of looking at the
    pinned member is answered.  While the pinned member is available and the group does not
    climb, it serves the request.  Under climb_up the members are looked at from the front up
    to the first available one, and an error on the way is answered; that member serves when
    it ranks before the pin, is already loaded -- never into a cold start -- and, in a
    group ordered by speed, clears the margin; in every other case the pinned member serves
    (an error of measuring the margin is answered).  A better member that clears the margin and
    is not loaded is warmed in the background, unless no warmer is installed or the group
    serves loaded members only; nothing else is warmed.  A stored pin is deleted exactly
    when it is stale. *)
Theorem session_sticks :
  let '(result, effects) := pinnedMember t g now in
  (result = inl None <-> pinOf = "" \/ notOK t (g_apiFlavor g) (g_req g) now (walk g) pinOf) /\
  (forall e, pinOf <> "" -> status pinOf = inr e -> result = inr e) /\
  (forall pinSel, pinOf <> "" -> available pinOf pinSel ->
     let stays := result = inl (Some (pinOf, pinSel)) in
     (~ climbs -> stays) /\
     (climbs ->
        ((exists e, walkFails e) \/ (exists best bestSel, firstOK best bestSel)) /\
        (forall e, walkFails e -> result = inr e) /\
        (forall best bestSel, firstOK best bestSel ->
           (best = "" \/ best = pinOf -> stays) /\
           (best <> "" -> best <> pinOf -> index best < index pinOf /\
              match marginMet best bestSel pinOf pinSel with
              | inr e => result = inr e
              | inl false => stays
              | inl true => if decide (holds bestSel) then result = inl (Some (best, bestSel)) else stays
              end)))) /\
  (forall m, Warmed m ∈ effects <-> warms pinOf m) /\
  (forall key, Deleted key ∈ effects <-> key = g_key g /\ exists aff, gt_affinity t = Some (Some aff) /\ stalePin aff).
Proof.
  pose proof groupPin_spec as HP. unfold pinnedMember, pinOf.
  destruct (groupPin t (g_key g) (g_members g) now) as [pin deleted]. destruct HP as (HP & HD & HS). simpl.
  assert (Hdel : forall key, Deleted key ∈ deleted <-> key = g_key g /\ exists aff, gt_affinity t = Some (Some aff) /\ stalePin aff).
  { intros key. split.
    - intros Hm. destruct (decide (deleted = [])) as [->|Hne]; [by apply elem_of_nil in Hm|].
      destruct (HD Hne) as (-> & _ & ?). apply list_elem_of_singleton in Hm. by injection Hm as ->.
    - intros (-> & aff & Ha & Hs). rewrite (HS aff Ha Hs). left. }
  destruct (String.eqb_spec pin "") as [->|Hpin].
  { split_and!; [split; [by left|done]|done|done| |done]. intros m. split; [|by intros (_ & _ & _ & _ & ? & _)].
    intros Hm. destruct (decide (deleted = [])) as [->|Hne]; [by apply elem_of_nil in Hm|].
    destruct (HD Hne) as [-> _]. by apply list_elem_of_singleton in Hm. }
  destruct (HP Hpin) as (Hin & -> & _).
  destruct (selectMember_counted t (g_apiFlavor g) (g_req g) now (walk g) pin _ _ (reflexivity (t_reservation (gt_turn t)))) as [_ Hs].
  destruct (selectMember t pin _ _ _ _ _) as [st s] eqn:Est. simpl in Hs.
  assert (Est' : status pin = st) by (unfold statusOf; by rewrite Est). clear Est.
  assert (Hone : forall sel, available pin sel -> st = inl (memberOK sel)) by (unfold available; congruence).
  destruct st as [[| |pinSel|pm]|e].
  1, 2, 4: split_and!; [split; [|done]; intros _; right; eexists; split; [exact Est'|done]|congruence
    |by intros ? _ ?%Hone|apply warms_nothing; by intros ? _ ?%Hone|done].
  2: { split_and!; [split; [done|intros [?|(st & ? & _)]; congruence]|congruence
         |by intros ? _ ?%Hone|apply warms_nothing; by intros ? _ ?%Hone|done]. }
  assert (HN : pin = "" \/ notOK t (g_apiFlavor g) (g_req g) now (walk g) pin -> False).
  { intros [?|Hn]; [done|]. by eapply available_not_notOK. }
  destruct (String.eqb_spec (gp_FailoverMode (g_policy g)) modeClimbUp) as [Hc|Hc].
  2: { split_and!; [split; [done|by intros ?%HN]|congruence| |apply warms_nothing; by intros ? ?|done].
       intros sel _ [= <-]%Hone. split; [done|]. by intros ?. }
  pose proof (climb_answer pin pinSel s Hs Hpin Hin Est' Hc) as HA.
  destruct (climbTarget t g now pin pinSel s) as [target warmed]. destruct HA as (A1 & A2 & A3 & A4).
  destruct target as [[x|]|e]; cbn in A2, A3 |- *; (split_and!; [split; [done|by intros ?%HN]|congruence| |
    intros m; rewrite A4; naive_solver|intros key; rewrite <- Hdel, A4; split; [naive_solver|by intros ?%elem_of_nil]]);
    (intros sel _ [= <-]%Hone; split; [by intros []|]); intros _; (split_and!; [exact A1|exact A2|exact A3]).
Qed.


End pinning.

(** ** Failures that are the store's *)

Definition storeError {A} (x : result A) : Prop := forall e, x = inr e -> exists what, e = StoreFailed what.

Lemma storeError_bind {A B} (x : result A) (f : A -> result B) :
  storeError x -> (forall a, x = inl a -> storeError (f a)) -> storeError (x ≫= f).
Proof. intros Hx Hf e. destruct x as [a|e']; simpl; [by apply (Hf a)|]. intros [= <-]. by apply Hx. Qed.

Lemma storeError_ret {A} (x : A) : storeError (mret x).
Proof. by intros e. Qed.

Lemma storeError_read {A} what (x : option A) : storeError (read_or what x).
Proof. destruct x; intros e; [done|]. intros [= <-]. eauto. Qed.

Ltac store_errors := repeat (first
  [ apply storeError_ret | apply storeError_read | apply storeError_bind; [|intros ? _]
  | match goal with |- storeError (if ?b then _ else _) => destruct b end
  | match goal with |- storeError (match ?x with Some _ => _ | None => _ end) => destruct x end
  | match goal with |- storeError (let '(_, _) := ?x in _) => destruct x end ]).

Section failures.
Context `{Unicode}.

Lemma filterProvisioned_store sv cands : storeError (filterProvisioned sv cands).
Proof. unfold filterProvisioned. store_errors. Qed.

Lemma filterCapable_store sv cands required : storeError (filterCapable sv cands required).
Proof. unfold filterCapable. store_errors. Qed.

Lemma memberPool_store sv name apiFlavor fineFlavor required :
  storeError (memberPool sv name apiFlavor fineFlavor required).
Proof.
  unfold memberPool. apply storeError_bind; [apply storeError_read|intros stored _].
  apply storeError_bind; [apply filterProvisioned_store|intros cands _]. apply filterCapable_store.
Qed.

Lemma speedFloorLoop_store r cands name floor pass : storeError (speedFloorLoop r cands name floor pass).
Proof. revert pass. induction cands as [|c cands IH]; intros pass; simpl; store_errors. apply IH. Qed.

Lemma eligibleCandidates_store t name apiFlavor fineFlavor required gw :
  storeError (eligibleCandidates t name apiFlavor fineFlavor required gw).
Proof.
  unfold eligibleCandidates. apply storeError_bind; [apply memberPool_store|intros cands _].
  unfold filterBySpeedFloor. cbv zeta. destruct (_ =? 0)%nat; [apply storeError_ret|].
  apply storeError_bind; [|intros ? _; apply storeError_ret].
  destruct (f64_leb _ _); [apply storeError_ret|apply speedFloorLoop_store].
Qed.

Lemma selectMember_store t name apiFlavor req now gw s : storeError (selectMember t name apiFlavor req now gw s).1.
Proof.
  intros e. unfold selectMember. pose proof (eligibleCandidates_store t name apiFlavor (req_APIFlavor req) (req_RequiredCapabilities req) gw) as He.
  destruct (eligibleCandidates _ _ _ _ _ _) as [[cands live]|e']; [|by intros [= <-]; apply He].
  destruct (_ =? 0)%nat; [by destruct live|]. destruct (selectCandidate _ _ _ _ _) as [[[c|]|[ac|]] s']; simpl; try done.
  intros [= <-]. eauto.
Qed.

Lemma walkMembers_store t members apiFlavor req now gw park live s :
  storeError (walkMembers t members apiFlavor req now gw park live s).1.
Proof.
  revert park live s. induction members as [|m members IH]; intros park live s; [by intros e|]. simpl.
  pose proof (selectMember_store t m apiFlavor req now gw s) as Hm. destruct (selectMember _ _ _ _ _ _ _) as [[[]|e] s']; simpl; try done.
  intros e' [= <-]. by apply Hm.
Qed.

Lemma bestSpeed_store r cands name best pass : storeError (bestSpeed r cands name best pass).
Proof. revert best pass. induction cands as [|c cands IH]; intros best pass; simpl; store_errors. apply IH. Qed.

Lemma orderMembersBySpeed_store t members apiFlavor fineFlavor required gw :
  storeError (orderMembersBySpeed t members apiFlavor fineFlavor required gw).
Proof.
  unfold orderMembersBySpeed. apply storeError_bind; [|intros; apply storeError_ret].
  generalize (∅ : telemetryPass) (∅ : gmap string float64).
  induction members as [|m members IH]; intros pass speed; simpl; [apply storeError_ret|].
  destruct (has_key speed m); [apply IH|]. apply storeError_bind; [apply eligibleCandidates_store|intros [cands ?] _].
  apply storeError_bind; [apply bestSpeed_store|intros [best ?] _]. apply IH.
Qed.

Lemma speedMarginMet_store r best pinned bestModel pinnedModel policy :
  storeError (speedMarginMet r best pinned bestModel pinnedModel policy).
Proof. unfold speedMarginMet. store_errors. Qed.

Lemma climbTarget_store t g now pin pinSel s : storeError (climbTarget t g now pin pinSel s).1.
Proof.
  unfold climbTarget. pose proof (walkMembers_store t (g_members g) (g_apiFlavor g) (g_req g) now (walk g) noMaterial false s) as Hw.
  unfold firstAvailable. destruct (walkMembers _ _ _ _ _ _ _ _ _) as [[w|e] s']; simpl in *; [|intros ? [= <-]; by apply Hw].
  destruct (wr_found w) as [[best bestSel]|]; [|by intros e]. destruct (_ || _); [by intros e|].
  pose proof (speedMarginMet_store (gt_resolver t) bestSel pinSel best pin (g_policy g)) as Hm.
  destruct (String.eqb _ MemberOrderSpeed); [|by intros e; destruct (memberLoaded _ _); [|destruct (_ && _)]].
  destruct (speedMarginMet _ _ _ _ _ _) as [[]|e]; [|by intros e|intros ? [= <-]; by apply Hm].
  by intros e; destruct (memberLoaded _ _); [|destruct (_ && _)].
Qed.

Lemma pinnedMember_store t g now : storeError (pinnedMember t g now).1.
Proof.
  unfold pinnedMember. destruct (groupPin _ _ _ _) as [pin deleted]. destruct (String.eqb pin ""); [by intros e|].
  pose proof (selectMember_store t pin (g_apiFlavor g) (g_req g) now (walk g) (t_reservation (gt_turn t))) as Hm.
  destruct (selectMember _ _ _ _ _ _ _) as [[[]|e] s]; simpl in *; try (by intros e); [|intros ? [= <-]; by apply Hm].
  destruct (String.eqb _ modeClimbUp); [|by intros e]. pose proof (climbTarget_store t g now pin sel s) as Hc.
  destruct (climbTarget _ _ _ _ _ _) as [[[target|]|e] warmed]; simpl in *; [by intros e..|intros ? [= <-]; by apply Hc].
Qed.

Lemma serve_store affinityID t g name sel now e effects :
  serve affinityID t g name sel now = (Failed e, effects) -> exists what, e = StoreFailed what.
Proof.
  unfold serve, upsertGroupPin. destruct (_ || _); [done|]. destruct (gt_upsertOK t); [done|]. intros [= <- _]. eauto.
Qed.

End failures.

(** ** One attempt *)

Section attempt.
Context `{Unicode} (affinityID : AffinityKey -> string).

Lemma pinnedMember_served t g now name sel effects :
  pinnedMember t g now = (inl (Some (name, sel)), effects) -> name ∈ g_members g /\ servable t g name sel.
Proof.
  unfold pinnedMember. pose proof (groupPin_spec t g now) as HP.
  destruct (groupPin _ _ _ _) as [pin deleted]. destruct HP as [HP _].
  destruct (String.eqb_spec pin "") as [|Hpin]; [done|]. destruct (HP Hpin) as (Hin & _ & _).
  destruct (selectMember_counted t (g_apiFlavor g) (g_req g) now (walk g) pin _ _ (reflexivity (t_reservation (gt_turn t)))) as [_ Hs].
  pose proof (statusOf_servable t g now pin) as Hserv.
  assert (Hav : forall pinSel s, selectMember t pin (g_apiFlavor g) (g_req g) now (walk g) (t_reservation (gt_turn t)) = (inl (memberOK pinSel), s) ->
    available t g now pin pinSel) by (intros ? ? E; unfold available, statusOf; by rewrite E).
  unfold statusOf in Hserv.
  destruct (selectMember _ _ _ _ _ _ _) as [[[| |pinSel|pm]|e] s]; simpl in Hs, Hserv; try done.
  destruct (String.eqb _ modeClimbUp); [|intros [= <- <- _]; done].
  pose proof (climbTarget_spec t g now pin pinSel s Hs (Hav _ _ eq_refl) Hin) as HC.
  destruct HC as [(e & _ & ->)|(best & bestSel & [HA HF] & ->)]; [done|].
  unfold climbed. repeat case_match; simplify_eq/=; try (intros [= <- <- _]; done).
  intros [= <- <- _]. destruct HF as (pre & rest & -> & _). split; [set_solver|].
  pose proof (statusOf_servable t g now best) as Hb. unfold available in HA. by rewrite HA in Hb.
Qed.

Lemma resolveGroupOnce_served turns g now name c now' effects :
  resolveGroupOnce affinityID turns g now = (Served name c now', effects) ->
  exists t, t ∈ turns /\ name ∈ g_members g /\ servable t g name c.
Proof.
  unfold resolveGroupOnce. destruct (_ =? 0)%nat; [done|]. destruct turns as [|t turns]; [done|].
  set (ordered := if String.eqb _ _ then _ else _).
  assert (Hperm : forall members, ordered = inl members -> members ≡ₚ g_members g).
  { intros members. unfold ordered. destruct (String.eqb _ _); [apply orderMembersBySpeed_perm|by intros [= <-]]. }
  destruct ordered as [members|e]; [|done]. specialize (Hperm members eq_refl). cbv zeta.
  pose proof (fun n s eff => pinnedMember_served t (g <| g_members := members |>) now n s eff) as HP.
  destruct (pinnedMember t _ now) as [[[[n sel]|]|e] before]; [| |done].
  - destruct (HP _ _ _ eq_refl) as [Hin Hs]. destruct (serve affinityID t _ n sel now) as [o eff] eqn:Es. intros [= -> _].
    apply serve_served in Es as (-> & -> & _). exists t. split_and!; [left| |done]. by rewrite <- Hperm.
  - destruct (groupLoop affinityID (t :: turns) _ _ _) as [o eff] eqn:El. intros [= -> _].
    apply groupLoop_served in El as (t' & Ht' & Hin & Hs). exists t'. split_and!; [done| |done]. by rewrite <- Hperm.
Qed.

(** A failed attempt that is retried: on some turn no member was available. *)
Lemma groupLoop_failed turns g deadline now e effects :
  "" ∉ g_members g ->
  groupLoop affinityID turns g deadline now = (Failed e, effects) -> retryable e = true ->
  exists t now', t ∈ turns /\ Forall (notOK t (g_apiFlavor g) (g_req g) now' (walk g)) (g_members g).
Proof.
  intros Hnm. revert deadline now effects. induction turns as [|t turns IH]; intros deadline now effects; [done|].
  cbn [groupLoop]. cbv zeta.
  pose proof (firstAvailable_cases t (g_apiFlavor g) (g_req g) now (walk g) (g_members g)) as HF.
  pose proof (walkMembers_store t (g_members g) (g_apiFlavor g) (g_req g) now (walk g) noMaterial false (t_reservation (gt_turn t))) as HS.
  unfold firstAvailable in *.
  destruct (walkMembers _ _ _ _ _ _ _ _ _) as [[w|e'] s']; simpl in HF, HS |- *.
  2: { intros [= <- _]. destruct (HS e' eq_refl) as [what ->]. done. }
  destruct HF as [Hfound _].
  destruct (wr_found w) as [[m sel]|].
  { destruct (String.eqb_spec m "") as [->|Hm]; [by destruct Hfound|].
    intros Es. apply serve_store in Es as [what ->]. done. }
  intros Hrest Hre. destruct (if neverParks (g_req g) then pm_first (wr_park w) else None) as [[m ac]|].
  { exists t, now. split; [left|done]. }
  destruct (_ && _); [|exists t, now; split; [left|done]].
  destruct (parkTurn _ _ _) as [[e'|] signals]; [injection Hrest as <- _; done|].
  destruct (groupLoop affinityID turns g _ _) as [o eff] eqn:El. injection Hrest as -> _.
  destruct (IH _ _ _ El Hre) as (t' & now' & ? & ?). exists t', now'. split; [by right|done].
Qed.

Lemma resolveGroupOnce_failed turns g now e effects :
  "" ∉ g_members g ->
  resolveGroupOnce affinityID turns g now = (Failed e, effects) -> retryable e = true ->
  g_members g = [] \/
  exists t now', t ∈ turns /\ Forall (notOK t (g_apiFlavor g) (g_req g) now' (walk g)) (g_members g).
Proof.
  intros Hnm. unfold resolveGroupOnce. destruct (Nat.eqb_spec (length (g_members g)) 0) as [Hl|_].
  { left. by apply nil_length_inv. }
  destruct turns as [|t turns]; [done|].
  pose proof (orderMembersBySpeed_store t (g_members g) (g_apiFlavor g) (req_APIFlavor (g_req g)) (req_RequiredCapabilities (g_req g)) (walk g)) as Ho.
  set (ordered := if String.eqb _ _ then _ else _).
  assert (Hperm : match ordered with inl members => members ≡ₚ g_members g | inr e => exists what, e = StoreFailed what end).
  { unfold ordered. destruct (String.eqb _ _); [|exact (reflexivity (g_members g))]. destruct (orderMembersBySpeed _ _ _ _ _ _) eqn:E; [by eapply orderMembersBySpeed_perm|].
    by apply Ho. }
  destruct ordered as [members|e']; [|intros [= <- _]; destruct Hperm as [what ->]; done]. cbv zeta.
  pose proof (pinnedMember_store t (g <| g_members := members |>) now) as HP.
  destruct (pinnedMember t _ now) as [[[[n sel]|]|e'] before]; simpl in HP.
  - destruct (serve affinityID t _ n sel now) as [o eff] eqn:Es. intros [= -> _]. apply serve_store in Es as [what ->]. done.
  - destruct (groupLoop affinityID (t :: turns) _ _ _) as [o eff] eqn:El. intros [= -> _] Hre. right.
    apply groupLoop_failed in El as (t' & now' & Ht' & Hall); [|by simpl; rewrite Hperm|done].
    exists t', now'. split; [done|]. simpl in Hall. by rewrite <- Hperm.
  - intros [= <- _]. destruct (HP e' eq_refl) as [what ->]. done.
Qed.

(** Why an attempt can fail. *)
Definition attemptError (e : routeError) : Prop :=
  retryable e = true \/ (exists what, e = StoreFailed what) \/ exists err, e = AdmissionFailed err.

Lemma groupLoop_errors turns g deadline now e effects :
  groupLoop affinityID turns g deadline now = (Failed e, effects) -> attemptError e.
Proof.
  revert deadline now effects. induction turns as [|t turns IH]; intros deadline now effects; [done|].
  cbn [groupLoop]. cbv zeta.
  pose proof (walkMembers_store t (g_members g) (g_apiFlavor g) (g_req g) now (walk g) noMaterial false (t_reservation (gt_turn t))) as HS.
  unfold firstAvailable, attemptError in *.
  destruct (walkMembers _ _ _ _ _ _ _ _ _) as [[w|e'] s']; simpl in HS |- *; [|intros [= <- _]; right; left; by apply HS].
  destruct (match wr_found w with Some _ => _ | None => _ end) as [[m sel]|].
  { intros Es. right. left. by eapply serve_store. }
  destruct (if neverParks (g_req g) then pm_first (wr_park w) else None) as [[m ac]|].
  { destruct (selectWithoutParking _ _ _ _ _) as [[sel|]|].
    - destruct (serve affinityID t g m sel now) as [o eff] eqn:Es. intros [= -> _]. right. left. by eapply serve_store.
    - intros [= <- _]. by left.
    - intros [= <- _]. right. left. eauto. }
  destruct (_ && _); [|intros [= <- _]; left; by destruct (wr_anyLive w)].
  destruct (parkTurn _ _ _) as [[e'|] signals]; [intros [= <- _]; right; right; eauto|].
  destruct (groupLoop affinityID turns g _ _) as [o eff] eqn:El. intros [= -> _]. by eapply IH.
Qed.

Lemma resolveGroupOnce_errors turns g now e effects :
  resolveGroupOnce affinityID turns g now = (Failed e, effects) -> attemptError e.
Proof.
  unfold resolveGroupOnce. destruct (_ =? 0)%nat; [intros [= <- _]; by left|]. destruct turns as [|t turns]; [done|].
  pose proof (orderMembersBySpeed_store t (g_members g) (g_apiFlavor g) (req_APIFlavor (g_req g)) (req_RequiredCapabilities (g_req g)) (walk g)) as Ho.
  set (ordered := if String.eqb _ _ then _ else _).
  assert (Hstore : storeError ordered) by (unfold ordered; destruct (String.eqb _ _); [done|apply storeError_ret]).
  destruct ordered as [members|e']; [|intros [= <- _]; right; left; by apply Hstore]. cbv zeta.
  pose proof (pinnedMember_store t (g <| g_members := members |>) now) as HP.
  destruct (pinnedMember t _ now) as [[[[n sel]|]|e'] before]; simpl in HP.
  - destruct (serve affinityID t _ n sel now) as [o eff] eqn:Es. intros [= -> _]. right. left. by eapply serve_store.
  - destruct (groupLoop affinityID (t :: turns) _ _ _) as [o eff] eqn:El. intros [= -> _]. by eapply groupLoop_errors.
  - intros [= <- _]. right. left. by apply HP.
Qed.

End attempt.

(** ** The ladder *)

Section ladder.
Context `{Unicode} (affinityID : AffinityKey -> string) (decodeNames : string -> option (list string)).

Lemma flatPool_store sv g seen members : storeError (flatPool sv g seen members).
Proof.
  revert seen. induction members as [|m members IH]; intros seen; simpl; [apply storeError_ret|].
  case_bool_decide; [apply IH|]. apply storeError_bind; [apply memberPool_store|intros cands _].
  apply storeError_bind; [apply IH|intros; apply storeError_ret].
Qed.

Lemma voiceScopeFor_store sv voice pool : storeError (voiceScopeFor decodeNames sv voice pool).
Proof.
  unfold voiceScopeFor.
  destruct (_ || _); [apply storeError_ret|]. apply storeError_bind; [apply storeError_read|intros verdicts _].
  cbv zeta. destruct (_ =? 0)%nat; [apply storeError_ret|]. destruct (sv_MappingVoices sv _); [|apply storeError_ret].
  destruct (_ =? 0)%nat; [apply storeError_ret|]. destruct (foldl _ _ _) as [allowed n].
  destruct (_ =? 0)%nat; [apply storeError_ret|]. destruct (_ =? 0); apply storeError_ret.
Qed.

Lemma groupVoiceScope_store sv g : storeError (groupVoiceScope decodeNames sv g).
Proof.
  unfold groupVoiceScope. destruct (String.eqb _ ""); [apply storeError_ret|].
  apply storeError_bind; [apply flatPool_store|intros pool _]. apply voiceScopeFor_store.
Qed.

Lemma groupRealtimeCheck_errors sv g e :
  groupRealtimeCheck sv g = inr e -> (exists what, e = StoreFailed what) \/
    (e = ErrNoRealtimeCandidate /\ req_RealtimeRequired (g_req g) = true /\
     exists pool, flatGroupPool sv g = inl pool /\ restrict (g_voice g) pool <> [] /\
       Forall (fun c => tooSlowForRealtime sv c = true) (restrict (g_voice g) pool)).
Proof.
  unfold groupRealtimeCheck. destruct (req_RealtimeRequired (g_req g)) eqn:Hrt; [|done].
  pose proof (flatPool_store sv g ∅ (g_members g)) as Hf. cbn [negb].
  destruct (flatGroupPool sv g) as [pool|e'] eqn:Hp; simpl;
    [|intros [= <-]; left; unfold flatGroupPool in Hp; rewrite Hp in Hf; by apply Hf].
  unfold filterRealtime. rewrite Hrt. cbn [negb orb]. destruct (Nat.eqb_spec (length (restrict (g_voice g) pool)) 0) as [|Hne]; [done|].
  destruct (Nat.eqb_spec (length (List.filter (fun c => negb (tooSlowForRealtime sv c)) (restrict (g_voice g) pool))) 0) as [H0|]; [|done].
  intros [= <-]. right. split_and!; [done..|]. exists pool. split_and!; [done|by intros E; rewrite E in Hne|].
  apply Forall_forall. intros c Hc. destruct (tooSlowForRealtime sv c) eqn:E; [done|exfalso].
  apply nil_length_inv in H0. apply (not_elem_of_nil c). rewrite <- H0. apply elem_of_filter_bool. by rewrite E.
Qed.

(** The last policy tried: the loaded-only filter is gone, and the speed floor is where
    the group lets it go. *)
Definition mostRelaxed (policy : GroupPolicy) : GroupPolicy :=
  policy <| gp_suppressWarm := gp_LoadedOnly policy |> <| gp_LoadedOnly := false |>
         <| gp_MinTokensPerSecond := if f64_ltb f64_zero (gp_MinTokensPerSecond policy)
                                        && String.eqb (gp_MinSpeedFallback policy) MinSpeedFallbackIgnore
                                     then f64_zero else gp_MinTokensPerSecond policy |>.

Lemma attemptsOf_last policy : exists earlier, attemptsOf policy = earlier ++ [mostRelaxed policy].
Proof.
  destruct policy as [mode order loadedOnly margin floor fallback warm]. unfold attemptsOf, mostRelaxed. simpl.
  destruct loadedOnly, (f64_ltb f64_zero floor && String.eqb fallback MinSpeedFallbackIgnore); simpl.
  - eexists [_; _]. reflexivity.
  - eexists [_]. reflexivity.
  - eexists [_]. reflexivity.
  - exists []. reflexivity.
Qed.

(** No attempt forgets what the group is configured to. *)
Lemma attemptsOf_keeps policy q :
  q ∈ attemptsOf policy ->
  gp_suppressWarm q = gp_LoadedOnly policy /\ gp_FailoverMode q = gp_FailoverMode policy /\
  gp_MemberOrder q = gp_MemberOrder policy /\
  (gp_LoadedOnly q = true -> gp_LoadedOnly policy = true) /\
  (gp_MinTokensPerSecond q = gp_MinTokensPerSecond policy \/ gp_MinTokensPerSecond q = f64_zero).
Proof.
  destruct policy as [mode order loadedOnly margin floor fallback warm]. unfold attemptsOf. simpl.
  destruct loadedOnly, (f64_ltb f64_zero floor && String.eqb fallback MinSpeedFallbackIgnore); simpl;
    rewrite ?elem_of_cons; intros Hq; repeat destruct Hq as [->|Hq]; try (by apply elem_of_nil in Hq); simpl;
    split_and!; auto.
Qed.

Lemma ladder_served attempts i turnsOf g now last name c now' effects :
  ladder affinityID attempts i turnsOf g now last = (Served name c now', effects) ->
  exists policy j t, policy ∈ attempts /\ t ∈ turnsOf j /\ name ∈ g_members g /\
    servable t (g <| g_policy := policy |>) name c.
Proof.
  revert i last effects. induction attempts as [|q attempts IH]; intros i last effects; [done|]. simpl.
  destruct (resolveGroupOnce affinityID (turnsOf i) _ now) as [o eff] eqn:Eo. destruct o as [n c0 n'|e|]; [| |done].
  - intros [= -> -> -> _]. apply resolveGroupOnce_served in Eo as (t & Ht & Hm & Hs).
    exists q, i, t. split_and!; [left|done|done|done].
  - destruct (retryable e); [|done]. destruct (ladder affinityID attempts (S i) turnsOf g now e) as [o eff'] eqn:El.
    intros [= -> _]. destruct (IH _ _ _ El) as (policy & j & t & ? & ? & ? & ?).
    exists policy, j, t. split_and!; [by right|done..].
Qed.

(** A group never serves what the request may not have.  Whichever attempt serves it,
    the candidate is one of the mappings the member's gates leave ([memberPool]: stored,
    provisioned, serving the endpoint, capable), within the voice the whole group was
    asked for before any filter was relaxed, fast enough for real time if the request
    needs that, on a server that serves now, not excluded by the request, and it passes
    the speed floor and the loaded-only filter of the attempt that served it. *)
Theorem group_serves_permitted before turnsOf g now name c now' effects :
  resolveGroup affinityID decodeNames before turnsOf g now = (Served name c now', effects) ->
  exists voice policy i t,
    groupVoiceScope decodeNames before g = inl voice /\ policy ∈ attemptsOf (g_policy g) /\ t ∈ turnsOf i /\
    name ∈ g_members g /\
    servable t (g <| g_voice := voice |> <| g_policy := policy |>) name c.
Proof.
  unfold resolveGroup. destruct (groupVoiceScope decodeNames before g) as [voice|]; [|done]. cbv zeta.
  destruct (groupRealtimeCheck before _) as [|]; [|done].
  intros (policy & j & t & Hp & Ht & Hm & Hs)%ladder_served. by exists voice, policy, j, t.
Qed.

Lemma ladder_failed earlier q i turnsOf g now last e effects :
  "" ∉ g_members g ->
  ladder affinityID (earlier ++ [q]) i turnsOf g now last = (Failed e, effects) ->
  (exists e', retryable e' = true /\ e = refine (g_voice g) e' /\
     (g_members g = [] \/ exists t now', t ∈ turnsOf (i + length earlier)%nat /\
        Forall (notOK t (g_apiFlavor g) (g_req g) now' (walk (g <| g_policy := q |>))) (g_members g))) \/
  (exists what, e = StoreFailed what) \/ (exists err, e = AdmissionFailed err).
Proof.
  intros Hnm. revert i last effects. induction earlier as [|p earlier IH]; intros i last effects; simpl.
  - destruct (resolveGroupOnce affinityID (turnsOf i) _ now) as [o eff] eqn:Eo. destruct o as [n c0 n'|e0|]; [done| |done].
    destruct (retryable e0) eqn:Er; intros [= <- _].
    + left. exists e0. split_and!; [done..|]. rewrite Nat.add_0_r.
      assert (Hnm' : "" ∉ g_members (g <| g_policy := q |>)) by done.
      destruct (resolveGroupOnce_failed _ _ _ _ _ _ Hnm' Eo Er); [by left|by right].
    + right. destruct (resolveGroupOnce_errors _ _ _ _ _ _ Eo) as [?|?]; [congruence|done].
  - destruct (resolveGroupOnce affinityID (turnsOf i) _ now) as [o eff] eqn:Eo. destruct o as [n c0 n'|e0|]; [done| |done].
    destruct (retryable e0) eqn:Er.
    + destruct (ladder affinityID (earlier ++ [q]) (S i) turnsOf g now e0) as [o eff'] eqn:El. intros [= -> _].
      rewrite <- Nat.add_succ_comm. by eapply IH.
    + intros [= <- _]. right. destruct (resolveGroupOnce_errors _ _ _ _ _ _ Eo) as [?|?]; [congruence|done].
Qed.

(** C27.  A restriction is dropped rather than answered with, in a group without a nameless
    member.  A group fails in one of four ways.  A read failed.  The queue let the request down: no
    room, a deadline, an abandoned call.  The request needs real time and the group has
    mappings, but every one is known to be too slow.  Or the group answers that nothing serves
    the request -- no route, no healthy host, the voice unavailable --: then the last attempt
    was made without the loaded-only filter and, where the group lets it go, without the speed
    floor, and on some turn of that attempt every single member was looked at and none was
    available; and the voice is blamed only where it narrowed the group. *)
Theorem group_no_dead_end before turnsOf g now e effects :
  "" ∉ g_members g ->
  resolveGroup affinityID decodeNames before turnsOf g now = (Failed e, effects) ->
  (exists what, e = StoreFailed what) \/
  (exists err, e = AdmissionFailed err) \/
  exists voice, groupVoiceScope decodeNames before g = inl voice /\
    ((e = ErrNoRealtimeCandidate /\ req_RealtimeRequired (g_req g) = true /\
      exists pool, flatGroupPool before (g <| g_voice := voice |>) = inl pool /\ restrict voice pool <> [] /\
        Forall (fun c => tooSlowForRealtime before c = true) (restrict voice pool)) \/
     ((e = ErrNoModelRoute \/ e = ErrNoHealthyHost \/
       e = ErrVoiceUnavailable /\ exists v, voice = Some v /\ vs_narrowed v = true) /\
      let last := g <| g_voice := voice |> <| g_policy := mostRelaxed (g_policy g) |> in
      (g_members g = [] \/ exists i t now', t ∈ turnsOf i /\ (S i = length (attemptsOf (g_policy g)))%nat /\
         Forall (notOK t (g_apiFlavor g) (g_req g) now' (walk last)) (g_members g)))).
Proof.
  intros Hnm. unfold resolveGroup.
  pose proof (groupVoiceScope_store before g) as Hv. destruct (groupVoiceScope decodeNames before g) as [voice|e'].
  2: { intros [= <- _]. left. by apply Hv. }
  cbv zeta. pose proof (groupRealtimeCheck_errors before (g <| g_voice := voice |>)) as Hr.
  destruct (groupRealtimeCheck before _) as [[]|e'].
  2: { intros [= <- _]. destruct (Hr e' eq_refl) as [?|?]; [by left|]. right. right. exists voice. split; [done|]. by left. }
  destruct (attemptsOf_last (g_policy g)) as [earlier Ea]. simpl. rewrite Ea. intros E.
  assert (Hnm' : "" ∉ g_members (g <| g_voice := voice |>)) by done.
  destruct (ladder_failed _ _ _ _ _ _ _ _ _ Hnm' E) as [(e' & Hre & -> & Hcase)|[?|?]]; [|by left|by right; left].
  right. right. exists voice. split; [done|]. right. split.
  - simpl. destruct voice as [v|], e'; simpl; try done; auto; destruct (vs_narrowed v) eqn:En; auto;
      right; right; (split; [done|]); by exists v.
  - simpl in Hcase. destruct Hcase as [?|(t & now' & Ht & Hall)]; [by left|]. right.
    exists (length earlier), t, now'. split_and!; [done|rewrite length_app; simpl; lia|done].
Qed.

End ladder.

(** ** Pins written *)

Section pins.
Context `{Unicode} (affinityID : AffinityKey -> string).

(** A served request that stores a pin: it has a token, the application keeps sessions and
    the request asked for no capability. *)
Definition pinnable (g : groupResolve) (name : string) (c : MappingCandidate) : Prop :=
  tok_ID (g_token g) <> "" /\ name <> "" /\ 0 < app_AffinityTTLSeconds (mc_Application c) /\
  req_RequiredCapabilities (g_req g) = [].

Definition pinsExactly (g : groupResolve) (o : groupOutcome) (effects : list effect) : Prop :=
  (forall a, Upserted a ∈ effects -> exists name c now, o = Served name c now /\ pinnable g name c /\
     a = groupAffinity affinityID g name c now) /\
  (forall server key now, Reserved server key now ∈ effects -> exists name c, o = Served name c now /\ pinnable g name c /\
     server = srv_ID (mc_Server c) /\ key = affinityID (g_key g)) /\
  (forall name c now, o = Served name c now -> pinnable g name c ->
     Upserted (groupAffinity affinityID g name c now) ∈ effects).

(** Effects that are no pins. *)
Definition pinFree (effects : list effect) : Prop :=
  Forall (fun x => match x with Upserted _ | Reserved _ _ _ => False | _ => True end) effects.

Lemma pinFree_signals ds : pinFree (Signalled <$> ds).
Proof. apply Forall_forall. by intros x (d & -> & _)%list_elem_of_fmap. Qed.

Lemma pinFree_not effects x : pinFree effects -> x ∈ effects -> match x with Upserted _ | Reserved _ _ _ => False | _ => True end.
Proof. intros Hp Hx. exact (proj1 (Forall_forall _ _) Hp x Hx). Qed.

Lemma pinsExactly_app g o before effects : pinFree before -> pinsExactly g o effects -> pinsExactly g o (before ++ effects).
Proof.
  intros Hb (H1 & H2 & H3). split_and!.
  - intros a [Hx|Hx]%elem_of_app; [by apply (pinFree_not _ _ Hb) in Hx|by apply H1].
  - intros s k n [Hx|Hx]%elem_of_app; [by apply (pinFree_not _ _ Hb) in Hx|by apply H2].
  - intros name c now E Hp. apply elem_of_app. right. by apply H3.
Qed.

Lemma pinsExactly_none g o effects : pinFree effects -> (forall name c now, o <> Served name c now) -> pinsExactly g o effects.
Proof.
  intros Hb Ho. split_and!.
  - intros a Hx. by apply (pinFree_not _ _ Hb) in Hx.
  - intros s k n Hx. by apply (pinFree_not _ _ Hb) in Hx.
  - intros name c now E. by destruct (Ho name c now).
Qed.

Lemma serve_pins t g name sel now :
  let '(o, effects) := serve affinityID t g name sel now in pinsExactly g o effects.
Proof.
  unfold serve, upsertGroupPin. destruct (_ || _) eqn:E.
  - assert (Hno : ~ pinnable g name sel).
    { intros (P1 & P2 & P3 & P4). rewrite P4 in E. simpl in E. rewrite orb_false_r in E.
      apply orb_true_iff in E as [[E|E]%orb_true_iff|E]; [by apply String.eqb_eq in E|by apply String.eqb_eq in E|lia]. }
    split_and!; [by intros ? ?%elem_of_nil|by intros ? ? ? ?%elem_of_nil|]. by intros n c n' [= <- <- <-].
  - destruct (gt_upsertOK t); [|by apply pinsExactly_none; [constructor|]].
    assert (Hp : pinnable g name sel).
    { repeat (apply orb_false_iff in E as [E ?]). split_and!; [by apply String.eqb_neq|by apply String.eqb_neq|lia|].
      destruct (req_RequiredCapabilities (g_req g)); [done|]. done. }
    split_and!.
    + intros a Hx. apply elem_of_cons in Hx as [[= ->]|Hx]; [by exists name, sel, now|].
      by apply list_elem_of_singleton in Hx.
    + intros s k n Hx. apply elem_of_cons in Hx as [?|Hx]; [done|]. apply list_elem_of_singleton in Hx as [= -> -> ->].
      by exists name, sel.
    + intros n c n' [= <- <- <-] _. left.
Qed.

Lemma groupLoop_pins turns g deadline now :
  let '(o, effects) := groupLoop affinityID turns g deadline now in pinsExactly g o effects.
Proof.
  revert deadline now. induction turns as [|t turns IH]; intros deadline now; [by apply pinsExactly_none; [constructor|]|].
  cbn [groupLoop]. cbv zeta.
  destruct (firstAvailable _ _ _ _ _ _ _) as [[w|e] s']; simpl; [|by apply pinsExactly_none; [constructor|]].
  destruct (match wr_found w with Some _ => _ | None => _ end) as [[m sel]|]; [apply serve_pins|].
  destruct (if neverParks (g_req g) then pm_first (wr_park w) else None) as [[m ac]|].
  { destruct (selectWithoutParking _ _ _ _ _) as [[sel|]|]; [|by apply pinsExactly_none; [constructor|]..].
    pose proof (serve_pins t g m sel now) as Hs. destruct (serve affinityID t g m sel now) as [o eff].
    apply pinsExactly_app; [apply pinFree_signals|done]. }
  destruct (_ && _); [|by apply pinsExactly_none; [constructor|]].
  destruct (parkTurn _ _ _) as [[e|] signals]; [by apply pinsExactly_none; [apply pinFree_signals|]|].
  specialize (IH (groupDeadline (g_req g) (pm_queueSecs (wr_park w)) now deadline) (t_wakeNow (gt_turn t))).
  destruct (groupLoop affinityID turns g _ _) as [o eff]. apply pinsExactly_app; [apply pinFree_signals|done].
Qed.

Lemma pinnedMember_pinFree t g now : pinFree (pinnedMember t g now).2.
Proof.
  unfold pinnedMember, groupPin.
  assert (Hd : pinFree (match gt_affinity t with
    | Some (Some aff) => if (now <? aff_ExpiresAt aff) && negb (String.eqb (aff_ResolvedModel aff) "") && memberNameExists (g_members g) (aff_ResolvedModel aff)
        then [] else [Deleted (g_key g)]
    | _ => [] end)) by (repeat case_match; repeat constructor).
  destruct (gt_affinity t) as [[aff|]|]; [|constructor..].
  destruct (_ && _); simpl; [|constructor; constructor].
  destruct (String.eqb _ ""); [constructor|]. destruct (selectMember _ _ _ _ _ _ _) as [[[]|] s]; simpl; try constructor.
  destruct (String.eqb _ modeClimbUp); [|constructor].
  assert (Hc : pinFree (climbTarget t g now (aff_ResolvedModel aff) sel s).2).
  { unfold climbTarget. destruct (firstAvailable _ _ _ _ _ _ _) as [[w|] s']; simpl; [|constructor].
    destruct (wr_found w) as [[best bestSel]|]; [|constructor]. destruct (_ || _); [constructor|].
    destruct (if String.eqb _ _ then _ else _) as [[]|]; [|constructor..].
    destruct (memberLoaded _ _); [constructor|]. destruct (_ && _); repeat constructor. }
  destruct (climbTarget _ _ _ _ _ _) as [[[target|]|] warmed]; done.
Qed.

Lemma resolveGroupOnce_pins turns g now :
  let '(o, effects) := resolveGroupOnce affinityID turns g now in pinsExactly g o effects.
Proof.
  unfold resolveGroupOnce. destruct (_ =? 0)%nat; [by apply pinsExactly_none; [constructor|]|].
  destruct turns as [|t turns]; [by apply pinsExactly_none; [constructor|]|].
  destruct (if String.eqb _ _ then _ else _) as [members|e]; [|by apply pinsExactly_none; [constructor|]]. cbv zeta.
  pose proof (pinnedMember_pinFree t (g <| g_members := members |>) now) as Hf.
  destruct (pinnedMember t _ now) as [[[[n sel]|]|e] before]; simpl in Hf; [| |by apply pinsExactly_none].
  - pose proof (serve_pins t (g <| g_members := members |>) n sel now) as Hs.
    destruct (serve affinityID t _ n sel now) as [o eff]. by apply pinsExactly_app.
  - pose proof (groupLoop_pins (t :: turns) (g <| g_members := members |>) time_zero now) as Hl.
    destruct (groupLoop affinityID (t :: turns) _ _ _) as [o eff]. by apply pinsExactly_app.
Qed.

Lemma ladder_pins attempts i turnsOf g now last :
  let '(o, effects) := ladder affinityID attempts i turnsOf g now last in pinsExactly g o effects.
Proof.
  revert i last. induction attempts as [|q attempts IH]; intros i last; simpl; [by apply pinsExactly_none; [constructor|]|].
  pose proof (resolveGroupOnce_pins (turnsOf i) (g <| g_policy := q |>) now) as Ho.
  destruct (resolveGroupOnce affinityID (turnsOf i) _ now) as [o eff]. destruct o as [n c n'|e|]; [done| |done].
  destruct (retryable e); [|done]. specialize (IH (S i) e).
  destruct (ladder affinityID attempts (S i) turnsOf g now e) as [o eff']. apply pinsExactly_app; [|done].
  apply Forall_forall. intros x Hx. destruct Ho as (H1 & H2 & _).
  destruct x; try done; [by destruct (H1 _ Hx) as (? & ? & ? & ? & _)|by destruct (H2 _ _ _ Hx) as (? & ? & ? & _)].
Qed.

(** A group session is pinned to what served it and to nothing else.  Over a whole
    resolution -- every attempt, wait and climb -- a pin is stored and the session's slot
    reserved exactly when the request was served for a token, by an application that keeps
    sessions, without a capability requirement; and the pin names the member, application,
    server and instance that served it, never an empty member. *)
Theorem group_pin_exact decodeNames before turnsOf g now :
  let '(o, effects) := resolveGroup affinityID decodeNames before turnsOf g now in pinsExactly g o effects.
Proof.
  unfold resolveGroup. destruct (groupVoiceScope decodeNames before g) as [voice|]; [|by apply pinsExactly_none; [constructor|]].
  cbv zeta. destruct (groupRealtimeCheck before _) as [|]; [|by apply pinsExactly_none; [constructor|]].
  pose proof (ladder_pins (attemptsOf (g_policy (g <| g_voice := voice |>))) 0 turnsOf (g <| g_voice := voice |>) now ErrNoHealthyHost) as Hl.
  by destruct (ladder _ _ _ _ _ _ _).
Qed.

(** ** Waiting *)

(** A group request that waits is within its deadline, and every member is unavailable
    while it does: still waiting after some turns, it found no available member on any of
    them, and a finite deadline -- one it already had, or the one its first turn set from
    the members it queued on -- had not passed on any, although the members at capacity on
    later turns may set no bound. *)
Theorem group_bounded_wait turns g deadline now effects :
  "" ∉ g_members g ->
  groupLoop affinityID turns g deadline now = (StillWaiting, effects) ->
  (deadline <> time_zero -> Forall (fun t => t_parkNow (gt_turn t) < deadline) turns) /\
  Forall (fun t => exists now', Forall (notOK t (g_apiFlavor g) (g_req g) now' (walk g)) (g_members g)) turns /\
  forall t rest w, turns = t :: rest -> deadline = time_zero ->
    (firstAvailable t (g_members g) (g_apiFlavor g) (g_req g) now (walk g) (t_reservation (gt_turn t))).1 = inl w ->
    let d := groupDeadline (g_req g) (pm_queueSecs (wr_park w)) now time_zero in
    d <> time_zero -> Forall (fun t => t_parkNow (gt_turn t) < d) turns.
Proof.
  intros Hnm. revert deadline now effects. induction turns as [|t turns IH]; intros deadline now effects.
  { intros _. split_and!; [constructor|constructor|done]. }
  cbn [groupLoop]. cbv zeta.
  pose proof (firstAvailable_cases t (g_apiFlavor g) (g_req g) now (walk g) (g_members g)) as HF.
  destruct (firstAvailable _ _ _ _ _ _ _) as [[w|e] s'] eqn:Ew; simpl in HF |- *; [|done]. destruct HF as [Hfound _].
  destruct (wr_found w) as [[m sel]|].
  { destruct (String.eqb_spec m "") as [->|Hm]; [by destruct Hfound|]. unfold serve. by destruct (upsertGroupPin _ _ _ _ _ _). }
  destruct (if neverParks (g_req g) then pm_first (wr_park w) else None) as [[m ac]|].
  { destruct (selectWithoutParking _ _ _ _ _) as [[sel|]|]; [|done..]. unfold serve. by destruct (upsertGroupPin _ _ _ _ _ _). }
  destruct (_ && _); [|done]. set (dl := groupDeadline _ _ _ _).
  destruct (parkTurn (gt_turn t) dl _) as [[e|] signals] eqn:Ep; [done|].
  destruct (groupLoop affinityID turns g dl _) as [o eff] eqn:El. intros [= -> _].
  apply parkTurn_woken in Ep as [Hpark _]. destruct (IH _ _ _ El) as (I1 & I2 & _).
  assert (Hdl : dl <> time_zero -> Forall (fun t => t_parkNow (gt_turn t) < dl) (t :: turns)).
  { intros Hz. constructor; [destruct Hpark; [done|lia]|by apply I1]. }
  split_and!.
  - intros Hz. assert (Edl : dl = deadline).
    { unfold dl, groupDeadline. unfold time_IsZero. rewrite (proj2 (Z.eqb_neq _ _) Hz). by rewrite andb_false_r. }
    rewrite <- Edl. apply Hdl. by rewrite Edl.
  - constructor; [by exists now|done].
  - intros t' rest w' [= <- <-] -> Ew'. rewrite Ew in Ew'. injection Ew' as <-. done.
Qed.

End pins.

(** ** Concrete groups *)

Module Examples.

Local Existing Instance ascii_tables.

Definition candidate (server id model : string) (tps cap : Z) : MappingCandidate :=
  mkMappingCandidate (plainServer server ServerStatusActive "healthy")
    (plainApplication (server +:+ "/app") "vllm" 0 0 600 30 server)
    ((plainMapping id model "qwen") <| mm_GenTokensPerSecond := f64_of_int tps |> <| mm_MaxConcurrency := cap |>) 0 false 0 false "".

Definition big : MappingCandidate := candidate "s1" "m1" "big" 40 2.
Definition small : MappingCandidate := candidate "s2" "m2" "small" 80 2.

Definition store : StoreView := {|
  sv_ActiveMappingsForModel name _ := Some (if String.eqb name "big" then [big] else if String.eqb name "small" then [small] else []);
  sv_AllowedServerIDs := None;
  sv_MappingCapabilities _ := Some ∅;
  sv_MappingVoices _ := Some ∅;
  sv_realtimeMinFactor := f64_zero
|}.

(** [load] requests in flight on every server, and a queue. *)
Definition sources (load : Z) : Resolver := {|
  r_checker := None; r_busy := None; r_loaded := None; r_activity := Some (fun _ => (load, time_zero));
  r_runtimeState := None; r_swapProtectWindow := 0; r_admission := true; r_demand := false;
  r_instanceActivity := None; r_liveSlots := None;
  r_TelemetryByServer _ := Some (mkServerTelemetry "" 1000 0 0 0 f64_zero, true)
|}.

Definition turnAt (load parkNow : Z) : GroupTurn :=
  mkGroupTurn (mkTurn (sources load) None None parkNow (Some true) None None (parkNow + 5)) store (Some None) true false.

Definition request : Request :=
  mkRequest "duo" "openai_chat_completions" [] ["hello"] 64 false [] "" 0 false false "" false "" "c1" "" false.

Definition policy (order : string) (floor : Z) : GroupPolicy := mkGroupPolicy "sticky" order false 20 (f64_of_int floor) "error" false.

Definition duo (order : string) (floor : Z) : groupResolve :=
  mkGroupResolve (plainToken "t1" "u1") request (mkAffinityKey "t1" "duo" "openai" "c1") "openai" ["big"; "small"]
    (policy order floor) None.

Definition hash (key : AffinityKey) : string := "aff_" +:+ ak_SessionID key.
Definition decode (payload : string) : option (list string) := Some [payload].

Lemma speed_order_witness :
  exists speed : string -> float64,
    (forall m, m ∈ ["big"; "small"] -> fastest (turnAt 0 1010) "openai" "openai" [] (walk (duo "speed" 0)) m (speed m)) /\
    ["small"; "big"] ≡ₚ ["big"; "small"].
Proof.
  destruct (speed_order (turnAt 0 1010) "openai" "openai" [] (walk (duo "speed" 0)) ["big"; "small"] ["small"; "big"])
    as (speed & H1 & H2 & _).
  - vm_compute. reflexivity.
  - by exists speed.
Defined.

Lemma group_serves_permitted_witness :
  exists voice policy i t,
    groupVoiceScope decode store (duo "priority" 60) = inl voice /\ policy ∈ attemptsOf (g_policy (duo "priority" 60)) /\
    t ∈ [turnAt 0 1010] /\ "small" ∈ g_members (duo "priority" 60) /\
    servable t ((duo "priority" 60) <| g_voice := voice |> <| g_policy := policy |>) "small" small /\ i = 0%nat.
Proof.
  destruct (group_serves_permitted hash decode store (fun i => match i with O => [turnAt 0 1010] | _ => [] end) (duo "priority" 60) 1010 "small" small 1010
    [Upserted (groupAffinity hash (duo "priority" 60) "small" small 1010); Reserved "s2" "aff_c1" 1010])
    as (voice & policy & i & t & H1 & H2 & H3 & H4 & H5).
  - vm_compute. reflexivity.
  - destruct i; [|by apply elem_of_nil in H3]. by exists voice, policy, 0%nat, t.
Defined.

Lemma group_no_dead_end_witness :
  exists voice, groupVoiceScope decode store (duo "priority" 100) = inl voice.
Proof.
  destruct (group_no_dead_end hash decode store (fun _ => [turnAt 0 1010]) (duo "priority" 100) 1010 ErrNoHealthyHost [])
    as [(what & [=])|[(err & [=])|(voice & H1 & _)]].
  - intros Hin. repeat apply elem_of_cons in Hin as [?|Hin]; try done. by apply elem_of_nil in Hin.
  - vm_compute. reflexivity.
  - by exists voice.
Defined.

Lemma group_bounded_wait_witness :
  Forall (fun t => t_parkNow (gt_turn t) < time_Add 1010 (int64 (30 * second))) [turnAt 2 1010; turnAt 2 1020].
Proof.
  destruct (group_bounded_wait hash [turnAt 2 1010; turnAt 2 1020] (duo "priority" 0) time_zero 1010 [])
    as (_ & _ & H3).
  - intros Hin. repeat apply elem_of_cons in Hin as [?|Hin]; try done. by apply elem_of_nil in Hin.
  - vm_compute. reflexivity.
  - set (w := mkWalkResult None (mkParkMaterial ["s1"; "s2"] 30 [] (Some ("big", mkAtCapacityError None [big] false))) true).
    apply (H3 _ _ w eq_refl eq_refl); [vm_compute; reflexivity|vm_compute; discriminate].
Defined.

End Examples.
