(* ===== verification/Resolving.v ===== *)
(** * Resolving a request

    Models the rest of the request path of
    [gateway/backend/internal/routing/resolver.go]: a session's pin ([resolveAffinity] with
    [loadAffinity], [affinityServer], [affinityCapabilityVerdict] and [refreshAffinity]),
    the server override ([resolveServerOverride]) and [resolveStandard], which composes the
    groups, the pin and a fresh selection.

    The path reads the store and the clock more than once, and waits in between; an [Env]
    holds what each of those reads answers.  Writes are the [effect]s of [Groups].  Vendor
    accounts, which [Resolve] tries before or after this path, are in [Vendors]. *)

From Stdlib Require Import ZArith Lia.
From stdpp Require Import base tactics option list numbers strings gmap sets.
From S2P Require Import Prelude Float64 RoutingTypes GatewayInstances Scorer Reservation.
From S2P Require Import AdmissionQueue Selection Filters Targets Parking Groups.
Local Open Scope Z_scope.
Local Open Scope go_scope.

(** ** What is read *)

(** The reads of one request's pin. *)
Record PinView := mkPinView {
  pv_Affinity : option (option RouteAffinity);                  (* [None]: the read failed *)
  pv_ApplicationByID : string -> lookup_result Application;
  pv_AIServerByID : string -> lookup_result AIServer;
  pv_MappingsByApplication : string -> option (list ModelMapping);
  pv_MappingCapabilities : string -> option (list CapabilityRow);
  pv_AffinityAfterWait : option (option RouteAffinity);
  pv_clockAfterWait : time;
  pv_UpsertAffinity : bool                                      (* whether a write succeeds *)
}.

(** A turn of a pinned request, and what the re-check after its wait reads. *)
Record PinTurn := mkPinTurn {
  pt_turn : Turn;
  pt_AIServerByID : string -> lookup_result AIServer
}.

Global Instance Turn_fields : Fields Turn := fun t =>
  mkTurn (t_resolver t) (t_instances t) (t_reservation t) (t_parkNow t) (t_HasRoom t) (t_wait t)
    (t_servesNow t) (t_wakeNow t).

Record Env := mkEnv {
  e_legacyAffinity : bool;
  e_Group : option (string -> option (list GroupMember * GroupPolicy));   (* [None]: no groups *)
  e_DirectAllowed : string -> bool;
  e_groupStore : StoreView;                      (* before the first attempt of a group *)
  e_groupTurns : nat -> list GroupTurn;
  e_sources : Resolver;                          (* when the pin is judged *)
  e_pin : PinView;
  e_pinTurns : list PinTurn;
  e_clockAfterPin : time;
  e_store : StoreView;                           (* of the fresh selection *)
  e_turns : list Turn;
  e_UpsertAffinity : bool;
  e_RuntimeSpecByMapping : string -> lookup_result RuntimeSpec   (* when a target is built *)
}.

(** ** The pin *)

Definition affinityApplicationStale `{Unicode} (app : Application) (affinity : RouteAffinity) (fineFlavor : string) : bool :=
  (app_AffinityTTLSeconds app <=? 0)
  || negb (String.eqb (app_ServerID app) (aff_ServerID affinity))
  || negb (String.eqb (app_Status app) ServerStatusActive)
  || negb (applicationServesEndpoint app fineFlavor).

Definition onApplication (server : AIServer) (app : Application) (mapping : ModelMapping) (live : string)
  : MappingCandidate := mkMappingCandidate server app mapping 0 false 0 false live.

(** [inl None]: the pin may not be served there. *)
Definition affinityServer (r : Resolver) (serverByID : string -> lookup_result AIServer) (app : Application)
  : result (option AIServer) :=
  match serverByID (app_ServerID app) with
  | NotFound => mret None
  | ReadFailed => inr (StoreFailed "load affinity server")
  | Found server =>
      mret (if CandidateServesNow r (onApplication server app zeroMapping "") then Some server else None)
  end.

Definition affinityServesNow (r : Resolver) (serverByID : string -> lookup_result AIServer) (app : Application)
  : option routeError :=
  match affinityServer r serverByID app with
  | inl (Some _) => None
  | inl None => Some ErrPinServerUnusable
  | inr e => Some e
  end.

Definition CapabilityLiveProgress : string := "live_progress".

Definition LiveProgressSupportFromVerdict (verdict : string) : string :=
  if String.eqb verdict CapabilityYes then "supported"
  else if String.eqb verdict CapabilityNo then "unsupported" else "".

(** The pinned mapping's live-progress verdict, which a failed read leaves undetermined,
    and whether the mapping satisfies the request, which a failed read does not, unless
    nothing is required. *)
Definition affinityCapabilityVerdict (pv : PinView) (mappingID : string) (required : list string) : string * bool :=
  let caps := pv_MappingCapabilities pv mappingID in
  let liveProgressSupport :=
    match caps with
    | Some rows =>
        match CapabilityRowsByName rows !! CapabilityLiveProgress with
        | Some row => LiveProgressSupportFromVerdict (cap_Verdict row)
        | None => ""
        end
    | None => ""
    end in
  if (0 <? length required)%nat
     && match caps with None => true | Some rows => negb (capabilityRowsSatisfy rows required) end
  then (liveProgressSupport, false) else (liveProgressSupport, true).

Definition activeMappingForApplication (pv : PinView) (applicationID gatewayModel : string)
  : result (option ModelMapping) :=
  mappings ← read_or "load application mappings" (pv_MappingsByApplication pv applicationID);
  mret (List.find (fun m => String.eqb (mm_Status m) ServerStatusActive && String.eqb (mm_GatewayModelName m) gatewayModel) mappings).

Definition serverProvisioned (sv : StoreView) (serverID : string) : result bool :=
  match sv_AllowedServerIDs sv with
  | None => mret true
  | Some gate =>
      allowed ← read_or "provisioning" (gate [serverID]);
      mret (bool_decide (serverID ∈ allowed))
  end.

(** The pin with its application, if it is usable, and whether it was deleted. *)
Definition loadAffinity `{Unicode} (pv : PinView) (fineFlavor : string) (now : time)
  : result (option (RouteAffinity * Application)) * bool :=
  match pv_Affinity pv with
  | None => (inr (StoreFailed "lookup affinity"), false)
  | Some None => (mret None, false)
  | Some (Some affinity) =>
      if negb (now <? aff_ExpiresAt affinity) then (mret None, true)
      else match pv_ApplicationByID pv (aff_ApplicationID affinity) with
           | NotFound => (mret None, true)
           | ReadFailed => (inr (StoreFailed "load affinity application"), false)
           | Found app =>
               if affinityApplicationStale app affinity fineFlavor then (mret None, true)
               else (mret (Some (affinity, app)), false)
           end
  end.

Definition refreshAffinity (pv : PinView) (affinity : RouteAffinity) (instance : Z) (parked : bool) (now : time)
  : result (list effect) :=
  let write affinity now :=
    if pv_UpsertAffinity pv
    then mret [Upserted (affinity <| aff_Instance := instance |> <| aff_LastUsedAt := now |> <| aff_UpdatedAt := now |>)]
    else inr (StoreFailed "update affinity") in
  if parked then
    match pv_AffinityAfterWait pv with
    | None => inr (StoreFailed "lookup affinity")
    | Some None => mret []
    | Some (Some cur) =>
        if negb (String.eqb (aff_ApplicationID cur) (aff_ApplicationID affinity))
           || negb (String.eqb (aff_ServerID cur) (aff_ServerID affinity))
        then mret [] else write cur (pv_clockAfterWait pv)
    end
  else write affinity now.

Inductive pinResult :=
| PinUsed (c : MappingCandidate) (t : Target)
| PinPassed                                (* select afresh *)
| PinFailed (e : routeError)
| PinWaits.

Definition resolveAffinity `{Unicode} (env : Env) (key : AffinityKey) (req : Request) (now : time)
  : pinResult * list effect :=
  let pv := e_pin env in
  let dropped (deleted : bool) := if deleted then [Deleted key] else [] in
  let '(loaded, deleted) := loadAffinity pv (req_APIFlavor req) now in
  match loaded with
  | inr e => (PinFailed e, dropped deleted)
  | inl None => (PinPassed, dropped deleted)
  | inl (Some (affinity, app)) =>
      match affinityServer (e_sources env) (pv_AIServerByID pv) app with
      | inr e => (PinFailed e, [])
      | inl None => (PinPassed, [Deleted key])
      | inl (Some server) =>
          match activeMappingForApplication pv (app_ID app) (ak_Model key) with
          | inr e => (PinFailed e, [])
          | inl None => (PinPassed, [Deleted key])
          | inl (Some mapping) =>
              let '(live, capable) := affinityCapabilityVerdict pv (mm_ID mapping) (req_RequiredCapabilities req) in
              if negb capable then (PinPassed, [])
              else match serverProvisioned (e_store env) (srv_ID server) with
                   | inr e => (PinFailed e, [])
                   | inl false => (PinPassed, [])
                   | inl true =>
                       let turns := (fun pt => (pt_turn pt) <| t_servesNow :=
                         affinityServesNow (t_resolver (pt_turn pt)) (pt_AIServerByID pt) app |>) <$> e_pinTurns env in
                       let '(result, parked, signals) :=
                         selectPinned turns (onApplication server app mapping live) req
                           (Addresses.InstanceKey (mm_ID mapping) (aff_Instance affinity)) now in
                       let sent := Signalled <$> signals in
                       match result with
                       | Selected sel _ =>
                           match refreshAffinity pv affinity (mc_Instance sel) parked now with
                           | inr e => (PinFailed e, sent)
                           | inl written =>
                               (match targetFrom (e_RuntimeSpecByMapping env) sel (ak_APIFlavor key) with
                                | inl target => PinUsed sel target
                                | inr e => PinFailed e
                                end, sent ++ written)
                           end
                       | ServerUnusable ErrPinServerUnusable => (PinPassed, sent)
                       | ServerUnusable e => (PinFailed e, sent)
                       | Refused e => (PinFailed (AdmissionFailed e), sent)
                       | InstancesGone => (PinFailed ErrPinnedInstancesGone, sent)
                       | Waiting => (PinWaits, sent)
                       | NoHealthyHost | TelemetryFailed | Panicked => (PinFailed (StoreFailed "unreachable"), sent)
                       end
                   end
          end
      end
  end.

(** ** The whole path *)

Inductive resolution :=
| Resolved (c : MappingCandidate) (t : Target)
| ResolveFailed (e : routeError)
| ResolveWaits.

Section resolve.
Context `{Unicode} (affinityID : AffinityKey -> string) (decodeNames : string -> option (list string)).

Definition affinityKey (env : Env) (token : Token) (req : Request) (apiFlavor : string) : AffinityKey := {|
  ak_APITokenID := tok_ID token;
  ak_Model := req_Model req;
  ak_APIFlavor := apiFlavor;
  ak_SessionID := if e_legacyAffinity env then req_SessionID req else req_ClientSessionID req
|}.

Definition builtTarget (env : Env) (c : MappingCandidate) (apiFlavor : string) : resolution :=
  match targetFrom (e_RuntimeSpecByMapping env) c apiFlavor with
  | inl target => Resolved c target
  | inr e => ResolveFailed e
  end.

(** The candidates a fresh selection chooses from, and the voice's scope. *)
Definition freshPool (sv : StoreView) (req : Request) (apiFlavor : string)
  : result (list MappingCandidate * option voiceScope) :=
  stored ← read_or "resolve mappings" (sv_ActiveMappingsForModel sv (req_Model req) apiFlavor);
  provisioned ← filterProvisioned sv stored;
  let serving := filterServesEndpoint provisioned (req_APIFlavor req) in
  capable ← filterCapable sv serving (req_RequiredCapabilities req);
  if (0 <? length serving)%nat && (length capable =? 0)%nat && (0 <? length (req_RequiredCapabilities req))%nat
  then inr ErrModelNotCapable
  else if (length capable =? 0)%nat then inr ErrNoModelRoute
  else
    voice ← voiceScopeFor decodeNames sv (req_RequiredVoice req) capable;
    candidates ← filterRealtime sv (restrict voice capable) req;
    mret (candidates, voice).

Definition freshAffinity (token : Token) (req : Request) (key : AffinityKey) (apiFlavor : string)
    (selected : MappingCandidate) (now : time) : RouteAffinity := {|
  aff_ID := affinityID key;
  aff_APITokenID := tok_ID token;
  aff_UserID := tok_UserID token;
  aff_Model := req_Model req;
  aff_ResolvedModel := "";
  aff_APIFlavor := apiFlavor;
  aff_SessionID := ak_SessionID key;
  aff_ApplicationID := app_ID (mc_Application selected);
  aff_ServerID := srv_ID (mc_Server selected);
  aff_Instance := mc_Instance selected;
  aff_ExpiresAt := time_Add now (int64 (app_AffinityTTLSeconds (mc_Application selected) * second));
  aff_LastUsedAt := now;
  aff_CreatedAt := now;
  aff_UpdatedAt := now
|}.

Definition resolveFresh (env : Env) (token : Token) (req : Request) (key : AffinityKey) (apiFlavor : string)
    (keepPin : bool) (start now : time) : resolution * list effect :=
  match freshPool (e_store env) req apiFlavor with
  | inr e => (ResolveFailed e, [])
  | inl (candidates, voice) =>
      let '(result, signals) := selectStandard (e_turns env) candidates req start now in
      let sent := Signalled <$> signals in
      match result with
      | Selected selected now =>
          match targetFrom (e_RuntimeSpecByMapping env) selected apiFlavor with
          | inr e => (ResolveFailed e, sent)
          | inl target =>
              if negb keepPin && negb (String.eqb (tok_ID token) "")
                 && (0 <? app_AffinityTTLSeconds (mc_Application selected))
                 && (length (req_RequiredCapabilities req) =? 0)%nat
              then if e_UpsertAffinity env
                   then (Resolved selected target,
                         sent ++ [Upserted (freshAffinity token req key apiFlavor selected now);
                                  Reserved (srv_ID (mc_Server selected)) (affinityID key) now])
                   else (ResolveFailed (StoreFailed "store affinity"), sent)
              else (Resolved selected target, sent)
          end
      | Refused e => (ResolveFailed (AdmissionFailed e), sent)
      | NoHealthyHost => (ResolveFailed (refine voice ErrNoHealthyHost), sent)
      | TelemetryFailed => (ResolveFailed (StoreFailed "load server telemetry"), sent)
      | Waiting => (ResolveWaits, sent)
      | ServerUnusable _ | InstancesGone | Panicked => (ResolveFailed (StoreFailed "unreachable"), sent)
      end
  end.

Definition resolveStandard (env : Env) (token : Token) (req : Request) (apiFlavor : string) (now : time)
  : resolution * list effect :=
  let key := affinityKey env token req apiFlavor in
  match (match e_Group env with None => None | Some group => Some (group (req_Model req)) end) with
  | Some (Some (members, policy)) =>
      if negb (e_DirectAllowed env (req_Model req)) then (ResolveFailed ErrNoModelRoute, [])
      else
        let '(result, effects) := resolveGroup affinityID decodeNames (e_groupStore env) (e_groupTurns env)
              (mkGroupResolve token req key apiFlavor members policy None) now in
        (match result with
         | Served _ c _ => builtTarget env c apiFlavor
         | Failed e => ResolveFailed e
         | StillWaiting => ResolveWaits
         end, effects)
  | some =>
      if match some with Some _ => negb (e_DirectAllowed env (req_Model req)) | None => false end
      then (ResolveFailed ErrNoModelRoute, [])
      else
        let start := admissionStart req now in
        if negb (String.eqb (tok_ID token) "") && String.eqb (req_RequiredVoice req) "" then
          let '(pin, before) := resolveAffinity env key req now in
          match pin with
          | PinUsed c target => (Resolved c target, before ++ [Reserved (srv_ID (mc_Server c)) (affinityID key) (e_clockAfterPin env)])
          | PinFailed ErrPinnedInstancesGone =>
              let '(result, effects) := resolveFresh env token req key apiFlavor true start (e_clockAfterPin env) in
              (result, before ++ effects)
          | PinFailed e => (ResolveFailed e, before)
          | PinWaits => (ResolveWaits, before)
          | PinPassed =>
              let '(result, effects) := resolveFresh env token req key apiFlavor false start (e_clockAfterPin env) in
              (result, before ++ effects)
          end
        else resolveFresh env token req key apiFlavor false start now
  end.

(** ** The server override *)

Definition ServerStatusDisabled : string := "disabled".

Definition overrideServes (r : Resolver) (server : AIServer) (appID : string) (req : Request) : bool :=
  if String.eqb (srv_Status server) ServerStatusDisabled then false
  else
    let reachable := negb (String.eqb (srv_HealthStatus server) HealthUnhealthy) in
    let reachable := match r_checker r with Some check => reachable && check appID | None => reachable end in
    reachable || req_ServerOverrideForceUnreachable req.

Definition overrideServesNow (r : Resolver) (serverByID : string -> lookup_result AIServer) (pinned : MappingCandidate)
    (req : Request) : option routeError :=
  match serverByID (srv_ID (mc_Server pinned)) with
  | NotFound => Some ErrServerOverrideServerUnavailable
  | ReadFailed => Some (StoreFailed "load override server")
  | Found server =>
      if overrideServes r server (app_ID (mc_Application pinned)) req then None
      else Some ErrServerOverrideServerUnavailable
  end.

Definition overridePool (sv : StoreView) (req : Request) (apiFlavor : string) : result (list MappingCandidate) :=
  candidates ← read_or "resolve mappings" (sv_ActiveMappingsForModel sv (req_Model req) apiFlavor);
  let mine := List.filter (fun c => String.eqb (srv_ID (mc_Server c)) (req_ServerOverrideID req)) candidates in
  mine ← filterCapable sv (filterServesEndpoint mine (req_APIFlavor req)) (req_RequiredCapabilities req);
  if (length mine =? 0)%nat then inr ErrServerOverrideModelUnavailable else filterRealtime sv mine req.

Definition resolveServerOverride (env : Env) (req : Request) (apiFlavor : string) (now : time)
  : resolution * list effect :=
  match overridePool (e_store env) req apiFlavor with
  | inr e => (ResolveFailed e, [])
  | inl [] => (ResolveFailed (StoreFailed "unreachable"), [])
  | inl (pinned :: _) =>
      if negb (overrideServes (e_sources env) (mc_Server pinned) (app_ID (mc_Application pinned)) req)
      then (ResolveFailed ErrServerOverrideServerUnavailable, [])
      else
        let turns := (fun pt => (pt_turn pt) <| t_servesNow :=
          overrideServesNow (t_resolver (pt_turn pt)) (pt_AIServerByID pt) pinned req |>) <$> e_pinTurns env in
        let '(result, _, signals) := selectPinned turns pinned req (req_PreferredInstanceKey req) now in
        (match result with
         | Selected c _ => builtTarget env c apiFlavor
         | InstancesGone => ResolveFailed ErrNoHealthyHost
         | ServerUnusable e => ResolveFailed e
         | Refused e => ResolveFailed (AdmissionFailed e)
         | Waiting => ResolveWaits
         | NoHealthyHost | TelemetryFailed | Panicked => ResolveFailed (StoreFailed "unreachable")
         end, Signalled <$> signals)
  end.

End resolve.
