(* ===== verification/ResolvingProps.v ===== *)
(** * What a request is resolved to

    The self-hosted request path: whatever serves a request, by its pin, from a group or
    afresh, may serve it ([resolveStandard_permitted]); what a session's pin goes through
    ([pin_in_place]); what the answers of a fresh selection mean ([fresh_answers]); and
    what a server override still checks ([override_checks]). *)

From Stdlib Require Import ZArith Lia.
From stdpp Require Import base tactics option list numbers strings gmap sets.
From S2P Require Import Prelude Float64 RoutingTypes GatewayInstances Scorer Reservation.
From S2P Require Import AdmissionQueue Selection SelectionProps Filters FiltersProps Targets Parking ParkingProps.
From S2P Require Import Groups GroupWalk GroupsProps Resolving.
Local Open Scope Z_scope.
Local Open Scope go_scope.

(** ** Where a selection comes from *)

Section fresh.
Context `{Unicode} (candidates : list MappingCandidate) (req : Request).

(** A row of the pool, on a server that served when it was selected. *)
Definition fromPool (c : MappingCandidate) : Prop := exists c0, c0 ∈ candidates /\ sameRow c c0.

Lemma fromPool_set_InstancePool b c : fromPool c -> fromPool (set_InstancePool b c).
Proof. by destruct c. Qed.

Lemma expandInstances_fromPool src (p : MappingCandidate -> bool) :
  Forall fromPool (List.filter p (expandInstances candidates src)).
Proof. apply Forall_forall. intros c [Hc _]%elem_of_filter_bool. by eapply expandInstances_sameRow. Qed.

Lemma standardLoop_fromPool turns deadline now c now' :
  (standardLoop turns candidates req deadline now).1 = Selected c now' -> fromPool c.
Proof.
  revert now. induction turns as [|t turns IH]; intros now; [done|]. cbn [standardLoop].
  assert (Hd : drawn fromPool (selectTurn t candidates req now).1).
  { unfold selectTurn. cbv zeta.
    pose proof (selectCandidate_drawn (t_resolver t) fromPool req now fromPool_set_InstancePool
      (expandInstances candidates (t_instances t)) (t_reservation t) (expandInstances_fromPool _ _)) as Hd.
    destruct (selectCandidate _ _ _ _ _) as [sel s]. simpl in Hd. destruct sel as [[c0|]|[ac|]]; simpl; try done.
    destruct (neverParks req); [|done]. by apply selectWithoutParking_drawn; [apply fromPool_set_InstancePool|]. }
  destruct (selectTurn t candidates req now) as [sel signals]. simpl in Hd.
  destruct sel as [[c0|]|[ac|]]; simpl; [by intros [= <- _]|done| |done].
  destruct (parkTurn _ _ _) as [[e|] parked]; [done|].
  specialize (IH (t_wakeNow t)). destruct (standardLoop turns candidates req deadline (t_wakeNow t)) as [o later]. done.
Qed.

End fresh.

Lemma selectPinned_sameRow `{Unicode} turns pinned req preferred now c now' parked signals :
  selectPinned turns pinned req preferred now = (Selected c now', parked, signals) -> sameRow c pinned.
Proof.
  unfold selectPinned. intros E. pose proof (pinnedLoop_safe turns pinned req preferred
    (if 0 <? app_AdmissionQueueTimeoutSeconds (mc_Application pinned)
     then time_Add (admissionStart req now) (int64 (app_AdmissionQueueTimeoutSeconds (mc_Application pinned) * second))
     else time_zero) now false) as HS.
  rewrite E in HS. destruct HS as (_ & HS & _). destruct (HS c now' eq_refl) as (? & ? & ? & _). done.
Qed.

(** A pinned request finds its server unusable only by the re-check after a wait. *)
Lemma pinnedLoop_unusable `{Unicode} turns pinned req preferred deadline now parked e parked' signals :
  pinnedLoop turns pinned req preferred deadline now parked = (ServerUnusable e, parked', signals) ->
  exists t, t ∈ turns /\ t_servesNow t = Some e.
Proof.
  revert now parked parked' signals. induction turns as [|t turns IH]; intros now parked parked' signals; cbn [pinnedLoop]; [done|].
  destruct (expandInstances [pinned] (t_instances t)) as [|first rest]; [done|].
  destruct (negb _); [done|]. destruct (_ =? 0)%nat; [done|]. destruct (pinnedTurn _ _ _ _ _ _ _ _) as [c sent|d|]; [done| |done].
  destruct (parkTurn _ _ _) as [[err|] sent]; [done|]. destruct (t_servesNow t) as [e0|] eqn:Et.
  { intros [= -> _ _]. exists t. split; [left|done]. }
  destruct (pinnedLoop turns _ _ _ _ _ _) as [[o waited] later] eqn:El. intros [= -> _ _].
  destruct (IH _ _ _ _ El) as (t' & Ht' & E'). exists t'. split; [by right|done].
Qed.

(** Building a target fails only by the read it makes. *)
Lemma targetFrom_store `{Unicode} specs c apiFlavor : storeError (targetFrom specs c apiFlavor).
Proof.
  unfold targetFrom. cbv zeta. apply storeError_bind.
  - destruct (String.eqb _ _); [|apply storeError_ret]. destruct (specs _); [apply storeError_ret..|].
    intros e [= <-]. by eexists.
  - intros [[spec hasSpec] kind] _. destruct (SpecUpstreamAuth _ _). apply storeError_ret.
Qed.

(** ** The pin *)

Section pin.
Context `{Unicode} (env : Env) (key : AffinityKey) (req : Request) (now : time).

Local Notation pv := (e_pin env).

(** Everything that makes a stored pin usable for a request. *)
Record usablePin (aff : RouteAffinity) (app : Application) (server : AIServer) (mapping : ModelMapping) : Prop := {
  up_stored : pv_Affinity pv = Some (Some aff);
  up_valid : now < aff_ExpiresAt aff;
  up_app : pv_ApplicationByID pv (aff_ApplicationID aff) = Found app;
  up_fresh : affinityApplicationStale app aff (req_APIFlavor req) = false;
  up_server : pv_AIServerByID pv (app_ServerID app) = Found server;
  up_serves : CandidateServesNow (e_sources env) (onApplication server app zeroMapping "") = true;
  up_mapping : exists mappings, pv_MappingsByApplication pv (app_ID app) = Some mappings /\ mapping ∈ mappings /\
    mm_Status mapping = ServerStatusActive /\ mm_GatewayModelName mapping = ak_Model key;
  up_capable : req_RequiredCapabilities req = [] \/
    exists rows, pv_MappingCapabilities pv (mm_ID mapping) = Some rows /\ capabilityRowsSatisfy rows (req_RequiredCapabilities req) = true;
  up_provisioned : serverProvisioned (e_store env) (srv_ID server) = inl true
}.

(** Why a pin is dropped. *)
Inductive pinGone (aff : RouteAffinity) : Prop :=
| gone_expired : aff_ExpiresAt aff <= now -> pinGone aff
| gone_app : pv_ApplicationByID pv (aff_ApplicationID aff) = NotFound -> pinGone aff
| gone_stale app : pv_ApplicationByID pv (aff_ApplicationID aff) = Found app ->
    affinityApplicationStale app aff (req_APIFlavor req) = true -> pinGone aff
| gone_server app : pv_ApplicationByID pv (aff_ApplicationID aff) = Found app ->
    pv_AIServerByID pv (app_ServerID app) = NotFound -> pinGone aff
| gone_unusable app server : pv_ApplicationByID pv (aff_ApplicationID aff) = Found app ->
    pv_AIServerByID pv (app_ServerID app) = Found server ->
    CandidateServesNow (e_sources env) (onApplication server app zeroMapping "") = false -> pinGone aff
| gone_mapping app mappings : pv_ApplicationByID pv (aff_ApplicationID aff) = Found app ->
    pv_MappingsByApplication pv (app_ID app) = Some mappings ->
    (forall m, m ∈ mappings -> mm_Status m = ServerStatusActive -> mm_GatewayModelName m <> ak_Model key) -> pinGone aff.

(** The row a refresh may write: the stored one with its use updated. *)
Definition refreshed (old new : RouteAffinity) (instance : Z) : Prop :=
  exists used, new = old <| aff_Instance := instance |> <| aff_LastUsedAt := used |> <| aff_UpdatedAt := used |>.

Lemma affinityCapabilityVerdict_spec mapping :
  (affinityCapabilityVerdict pv (mm_ID mapping) (req_RequiredCapabilities req)).2 = true ->
  req_RequiredCapabilities req = [] \/
  exists rows, pv_MappingCapabilities pv (mm_ID mapping) = Some rows /\ capabilityRowsSatisfy rows (req_RequiredCapabilities req) = true.
Proof.
  unfold affinityCapabilityVerdict. destruct (req_RequiredCapabilities req) as [|x l]; [by left|].
  destruct (pv_MappingCapabilities pv (mm_ID mapping)) as [rows|]; [|done]. right. exists rows. split; [done|].
  by destruct (capabilityRowsSatisfy rows (x :: l)).
Qed.

Lemma refreshAffinity_spec aff instance parked now' effects :
  refreshAffinity pv aff instance parked now' = inl effects ->
  forall x, x ∈ effects -> exists old new, x = Upserted new /\ refreshed old new instance /\
    ((parked = false /\ old = aff) \/
     (parked = true /\ pv_AffinityAfterWait pv = Some (Some old) /\
      aff_ApplicationID old = aff_ApplicationID aff /\ aff_ServerID old = aff_ServerID aff)).
Proof.
  unfold refreshAffinity. destruct parked.
  - destruct (pv_AffinityAfterWait pv) as [[cur|]|]; [|by intros [= <-] ? ?%elem_of_nil|done].
    destruct (String.eqb_spec (aff_ApplicationID cur) (aff_ApplicationID aff)), (String.eqb_spec (aff_ServerID cur) (aff_ServerID aff));
      simpl; try (by intros [= <-] ? ?%elem_of_nil).
    destruct (pv_UpsertAffinity pv); [|done]. intros [= <-] x ->%list_elem_of_singleton.
    exists cur. eexists. split_and!; [done|by eexists|]. right. by split_and!.
  - destruct (pv_UpsertAffinity pv); [|done]. intros [= <-] x ->%list_elem_of_singleton.
    exists aff. eexists. split_and!; [done|by eexists|]. by left.
Qed.

(** The verdict the pinned candidate carries, and the answer once it is chosen. *)
Definition verdictOfPin (mapping : ModelMapping) : string :=
  (affinityCapabilityVerdict pv (mm_ID mapping) (req_RequiredCapabilities req)).1.

Definition pinTarget (c : MappingCandidate) : pinResult :=
  match targetFrom (e_RuntimeSpecByMapping env) c (ak_APIFlavor key) with
  | inl t => PinUsed c t
  | inr e => PinFailed e
  end.

(** What a pin's resolution does, on every branch. *)
Definition pinOutcome (x : pinResult * list effect) : Prop :=
  let '(result, effects) := x in
  (forall c t, result = PinUsed c t -> targetFrom (e_RuntimeSpecByMapping env) c (ak_APIFlavor key) = inl t /\
     exists aff app server mapping,
       usablePin aff app server mapping /\ sameRow c (onApplication server app mapping (verdictOfPin mapping))) /\
  (forall y, y ∈ effects ->
     match y with
     | Deleted k => k = key /\ result = PinPassed /\ exists aff, pv_Affinity pv = Some (Some aff) /\ pinGone aff
     | Upserted new => exists c old aff,
         result = pinTarget c /\ refreshed old new (mc_Instance c) /\
         pv_Affinity pv = Some (Some aff) /\
         (old = aff \/ (pv_AffinityAfterWait pv = Some (Some old) /\
            aff_ApplicationID old = aff_ApplicationID aff /\ aff_ServerID old = aff_ServerID aff))
     | Signalled _ => True
     | Reserved _ _ _ | Warmed _ => False
     end).

Lemma pinOutcome_plain result effects :
  (forall c t, result <> PinUsed c t) -> Forall (fun y => exists d, y = Signalled d) effects -> pinOutcome (result, effects).
Proof.
  intros Hr He. split; [intros c t Hc; by destruct (Hr c t)|]. intros y Hy.
  destruct (proj1 (Forall_forall _ _) He y Hy) as [d ->]. done.
Qed.

Lemma pinOutcome_deleted aff :
  pv_Affinity pv = Some (Some aff) -> pinGone aff -> pinOutcome (PinPassed, [Deleted key]).
Proof.
  intros Ha Hg. split; [done|]. intros y ->%list_elem_of_singleton. split_and!; [done..|]. by exists aff.
Qed.

Lemma signals_plain ds : Forall (fun y => exists d, y = Signalled d) (Signalled <$> ds).
Proof. apply Forall_forall. intros y (d & -> & _)%list_elem_of_fmap. by exists d. Qed.

Lemma resolveAffinity_outcome : pinOutcome (resolveAffinity env key req now).
Proof.
  unfold resolveAffinity, loadAffinity. cbv zeta. 
  destruct (pv_Affinity pv) as [[aff|]|] eqn:Ea; [|by apply pinOutcome_plain; [|constructor]..].
  destruct (Z.ltb_spec now (aff_ExpiresAt aff)) as [Hexp|Hexp]; simpl.
  2: { by apply (pinOutcome_deleted aff); [|constructor]. }
  destruct (pv_ApplicationByID pv (aff_ApplicationID aff)) as [app| |] eqn:Eapp; simpl.
  2: { by apply (pinOutcome_deleted aff); [|apply gone_app]. }
  2: { by apply pinOutcome_plain; [|constructor]. }
  destruct (affinityApplicationStale app aff (req_APIFlavor req)) eqn:Es; simpl.
  { by apply (pinOutcome_deleted aff); [|eapply gone_stale]. }
  unfold affinityServer.
  destruct (pv_AIServerByID pv (app_ServerID app)) as [server| |] eqn:Eserver; simpl.
  2: { by apply (pinOutcome_deleted aff); [|eapply gone_server]. }
  2: { by apply pinOutcome_plain; [|constructor]. }
  destruct (CandidateServesNow (e_sources env) _) eqn:Ec; simpl.
  2: { by apply (pinOutcome_deleted aff); [|eapply gone_unusable]. }
  unfold activeMappingForApplication.
  destruct (pv_MappingsByApplication pv (app_ID app)) as [mappings|] eqn:Em; simpl; [|by apply pinOutcome_plain; [|constructor]].
  destruct (List.find _ mappings) as [mapping|] eqn:Ef.
  2: { apply (pinOutcome_deleted aff); [done|]. eapply gone_mapping; [done|done|]. intros m Hm Hst Hmn.
       apply list_elem_of_In in Hm. pose proof (List.find_none _ _ Ef m Hm) as Hno. cbv beta in Hno.
       rewrite Hst, Hmn, !String.eqb_refl in Hno. done. }
  apply List.find_some in Ef as [Hmap Hst]. apply list_elem_of_In in Hmap. apply andb_true_iff in Hst as [Hst%String.eqb_eq Hgm%String.eqb_eq].
  pose proof (affinityCapabilityVerdict_spec mapping) as Hcap.
  destruct (affinityCapabilityVerdict pv _ _) as [live []] eqn:Ev; simpl in Hcap |- *; [|by apply pinOutcome_plain; [|constructor]].
  specialize (Hcap eq_refl).
  destruct (serverProvisioned (e_store env) (srv_ID server)) as [[]|e] eqn:Ep; [|by apply pinOutcome_plain; [|constructor]..].
  assert (Hu : usablePin aff app server mapping).
  { split; try done. by exists mappings. }
  destruct (selectPinned _ _ _ _ _) as [[result parked] signals] eqn:Esel.
  destruct result as [sel now'| | | |e| | |]; try (by apply pinOutcome_plain; [|apply signals_plain]).
  - apply selectPinned_sameRow in Esel. destruct (refreshAffinity _ _ _ _ _) as [written|e] eqn:Er.
    2: { by apply pinOutcome_plain; [|apply signals_plain]. }
    assert (Hlive : live = verdictOfPin mapping) by (unfold verdictOfPin; by rewrite Ev). subst live.
    split.
    { intros c t. destruct (targetFrom _ sel _) eqn:Et; [|done]. intros [= <- <-]. split; [done|].
      by exists aff, app, server, mapping. }
    intros y [Hy|Hy]%elem_of_app.
    + destruct (proj1 (Forall_forall _ _) (signals_plain signals) y Hy) as [d ->]. done.
    + destruct (refreshAffinity_spec _ _ _ _ _ Er y Hy) as (old & new & -> & Hre & Hor).
      exists sel, old, aff. split_and!; [done..|]. destruct Hor as [[_ ->]|(_ & ? & ? & ?)]; [by left|by right].
  - destruct e; by apply pinOutcome_plain; [|apply signals_plain].
Qed.

(** C25.  A pin is followed only where a fresh request could go, and touched in place.  A
    request is served by its pin only if the pin is unexpired, its application still keeps
    sessions, serves the endpoint and sits on the pinned server, that server serves now,
    the model is still mapped there, the mapping satisfies the request's capabilities and
    the server is provisioned for the principal; and then by that very mapping.  Serving
    rewrites the stored row with the instance and time of use and nothing else, and after
    a wait only while it still names the same application and server.  The row is deleted
    only when the pin is gone for one of six reasons; a request that merely may not use it
    leaves it alone. *)
Theorem pin_in_place :
  let '(result, effects) := resolveAffinity env key req now in
  (forall c t, result = PinUsed c t -> targetFrom (e_RuntimeSpecByMapping env) c (ak_APIFlavor key) = inl t /\
     exists aff app server mapping,
       usablePin aff app server mapping /\ sameRow c (onApplication server app mapping (verdictOfPin mapping))) /\
  (forall new, Upserted new ∈ effects -> exists c old aff,
     result = pinTarget c /\ refreshed old new (mc_Instance c) /\
     pv_Affinity pv = Some (Some aff) /\
     (old = aff \/ (pv_AffinityAfterWait pv = Some (Some old) /\
        aff_ApplicationID old = aff_ApplicationID aff /\ aff_ServerID old = aff_ServerID aff))) /\
  (forall k, Deleted k ∈ effects -> k = key /\ result = PinPassed /\ exists aff, pv_Affinity pv = Some (Some aff) /\ pinGone aff) /\
  (forall server k at_, Reserved server k at_ ∉ effects).
Proof.
  pose proof resolveAffinity_outcome as HO. destruct (resolveAffinity env key req now) as [result effects].
  destruct HO as [H1 H2]. split_and!; [done|by intros new Hn; apply (H2 _ Hn)|by intros k Hk; apply (H2 _ Hk)|].
  intros server k at_ Hr. apply (H2 _ Hr).
Qed.

End pin.

(** ** A fresh selection *)

Lemma filter_nil_iff (p : MappingCandidate -> bool) l : List.filter p l = [] <-> forall c, c ∈ l -> p c = false.
Proof.
  split.
  - intros E c Hc. destruct (p c) eqn:Ep; [|done]. assert (Hx : c ∈ List.filter p l) by (by apply elem_of_filter_bool).
    rewrite E in Hx. by apply elem_of_nil in Hx.
  - intros Hall. destruct (List.filter p l) as [|c l'] eqn:E; [done|].
    assert (Hx : c ∈ List.filter p l) by (rewrite E; left). apply elem_of_filter_bool in Hx as [Hc Hp]. by rewrite Hall in Hp.
Qed.

Lemma filterRealtime_spec sv req cands :
  match filterRealtime sv cands req with
  | inl kept => (cands <> [] -> kept <> []) /\
      forall c, c ∈ kept <-> c ∈ cands /\ (req_RealtimeRequired req = true -> tooSlowForRealtime sv c = false)
  | inr e => e = ErrNoRealtimeCandidate /\ req_RealtimeRequired req = true /\ cands <> [] /\
      forall c, c ∈ cands -> tooSlowForRealtime sv c = true
  end.
Proof.
  unfold filterRealtime. destruct (req_RealtimeRequired req); simpl; [|split; [done|]; intros c; naive_solver].
  destruct (Nat.eqb_spec (length cands) 0) as [Hl|Hl].
  { apply nil_length_inv in Hl as ->. split; [done|]. intros c. split; [by intros ?%elem_of_nil|by intros [?%elem_of_nil _]]. }
  destruct (Nat.eqb_spec (length (List.filter (fun c => negb (tooSlowForRealtime sv c)) cands)) 0) as [Hk|Hk].
  - apply nil_length_inv in Hk. split_and!; [done..|by destruct cands|].
    intros c Hc. by apply (proj1 (filter_nil_iff _ _) Hk), negb_false_iff in Hc.
  - split; [intros _ E; by rewrite E in Hk|]. intros c. rewrite elem_of_filter_bool, negb_true_iff. naive_solver.
Qed.

Section freshPool.
Context `{Unicode} (decodeNames : string -> option (list string)) (sv : StoreView) (f : facts) (Hf : rowwise sv f)
  (req : Request) (apiFlavor : string).

(** A stored mapping the principal may use on this endpoint. *)
Definition usable (c : MappingCandidate) : bool :=
  f_allowed f (srv_ID (mc_Server c)) && endpointServed (req_APIFlavor req) c.

Local Notation required := (req_RequiredCapabilities req).

Lemma usable_capable l :
  List.filter (capable f required) (List.filter usable l) = List.filter (mayServe f (req_APIFlavor req) required) l.
Proof. rewrite filter_filter. apply List.filter_ext. done. Qed.

Lemma usable_pool cands :
  filterServesEndpoint (List.filter (fun c => f_allowed f (srv_ID (mc_Server c))) cands) (req_APIFlavor req) = List.filter usable cands.
Proof. by rewrite filterServesEndpoint_filter, filter_filter. Qed.

(** The answer of a fresh selection's filters, from the stored mappings. *)
Definition freshAnswer (stored : list MappingCandidate) (x : result (list MappingCandidate * option voiceScope)) : Prop :=
  let pool := List.filter (mayServe f (req_APIFlavor req) required) stored in
  match x with
  | inl (cands, voice) =>
      cands <> [] /\ voiceScopeFor decodeNames sv (req_RequiredVoice req) pool = inl voice /\
      forall c, c ∈ cands <-> c ∈ restrict voice pool /\ (req_RealtimeRequired req = true -> tooSlowForRealtime sv c = false)
  | inr ErrModelNotCapable => required <> [] /\ pool = [] /\ exists c, c ∈ stored /\ usable c = true
  | inr ErrNoModelRoute => forall c, c ∈ stored -> usable c = false
  | inr ErrNoRealtimeCandidate => req_RealtimeRequired req = true /\ pool <> [] /\
      exists voice, voiceScopeFor decodeNames sv (req_RequiredVoice req) pool = inl voice /\
        forall c, c ∈ restrict voice pool -> tooSlowForRealtime sv c = true
  | inr (StoreFailed _) => True
  | inr _ => False
  end.

Lemma freshPool_answer stored :
  sv_ActiveMappingsForModel sv (req_Model req) apiFlavor = Some stored ->
  freshAnswer stored (freshPool decodeNames sv req apiFlavor).
Proof.
  intros Es. unfold freshPool, freshAnswer. rewrite Es. simpl.
  destruct (filterProvisioned sv stored) as [provisioned|e] eqn:Ep; simpl.
  2: { by destruct (filterProvisioned_store _ _ _ Ep) as [what ->]. }
  apply (filterProvisioned_filter sv f Hf) in Ep as ->. rewrite usable_pool.
  destruct (filterCapable sv (List.filter usable stored) required) as [capablePool|e] eqn:Ec; simpl.
  2: { by destruct (filterCapable_store _ _ _ _ Ec) as [what ->]. }
  apply (filterCapable_filter sv f Hf) in Ec as ->. rewrite usable_capable.
  set (pool := List.filter (mayServe f (req_APIFlavor req) required) stored).
  destruct (_ && _ && _) eqn:Ecap.
  { bool_hyps. split_and!.
    - intros E. by rewrite E in *.
    - by apply nil_length_inv, Nat.eqb_eq.
    - destruct (List.filter usable stored) as [|c l] eqn:Eu; [done|]. exists c.
      assert (Hc : c ∈ List.filter usable stored) by (rewrite Eu; left). by apply elem_of_filter_bool in Hc. }
  destruct (Nat.eqb_spec (length pool) 0) as [Hl|Hl].
  { apply filter_nil_iff. apply nil_length_inv in Hl.
    destruct (List.filter usable stored) as [|c l] eqn:Eu; [done|]. exfalso.
    simpl in Ecap. destruct required as [|x r] eqn:Er; [|done].
    assert (Hx : c ∈ pool); [|rewrite Hl in Hx; by apply elem_of_nil in Hx].
    assert (Hc : c ∈ List.filter usable stored) by (rewrite Eu; left). apply elem_of_filter_bool in Hc as [Hst Hus].
    apply elem_of_filter_bool. split; [done|]. unfold usable in Hus. unfold mayServe. by rewrite Hus. }
  destruct (voiceScopeFor decodeNames sv (req_RequiredVoice req) pool) as [voice|e] eqn:Ev; simpl.
  2: { by destruct (voiceScopeFor_store _ _ _ _ _ Ev) as [what ->]. }
  assert (Hne : restrict voice pool <> []).
  { eapply restrict_nonempty; [exact Hf|exact Ev|]. intros E. by rewrite E in Hl. }
  pose proof (filterRealtime_spec sv req (restrict voice pool)) as Hr.
  destruct (filterRealtime sv (restrict voice pool) req) as [kept|e]; simpl.
  - destruct Hr as [H1 H2]. split_and!; [by apply H1|done|done].
  - destruct Hr as (-> & H1 & _ & H2). split_and!; [done|intros E; by rewrite E in Hl|]. by exists voice.
Qed.

(** The answers of a fresh selection keep their meanings apart.  "Not capable" says
    that a capability is required, that mappings of the model are provisioned for the
    principal and serve the endpoint, and that none of them has it; "no route" that there
    are none of those at all, so that a model that may not be used looks like one that
    does not exist; "no real-time candidate" that some mapping may serve but every one the
    voice leaves was measured too slow.  Otherwise the selection chooses from exactly the
    mappings that may serve, within the voice's scope and fast enough, and there is one. *)
Theorem fresh_answers stored :
  sv_ActiveMappingsForModel sv (req_Model req) apiFlavor = Some stored ->
  freshAnswer stored (freshPool decodeNames sv req apiFlavor).
Proof. apply freshPool_answer. Qed.

End freshPool.

(** ** The whole path *)

Section path.
Context `{Unicode} (affinityID : AffinityKey -> string) (decodeNames : string -> option (list string)).
Context (env : Env) (f : facts) (Hstore : rowwise (e_store env) f)
  (Hgroup : forall i t, t ∈ e_groupTurns env i -> rowwise (gt_store t) f)
  (Hpin : forall id rows, pv_MappingCapabilities (e_pin env) id = Some rows -> rows = f_caps f id).

Definition built (c : MappingCandidate) (apiFlavor : string) (t : Target) : Prop :=
  targetFrom (e_RuntimeSpecByMapping env) c apiFlavor = inl t.

Lemma mayServe_sameRow fine required c c0 : sameRow c c0 -> mayServe f fine required c = mayServe f fine required c0.
Proof. intros (Hs & Ha & Hm). unfold mayServe, endpointServed, capable. by rewrite Hs, Ha, Hm. Qed.

Lemma serverProvisioned_allowed id : serverProvisioned (e_store env) id = inl true -> f_allowed f id = true.
Proof.
  unfold serverProvisioned. destruct (sv_AllowedServerIDs (e_store env)) as [gate|] eqn:Eg.
  - destruct (gate [id]) as [answer|] eqn:Ea; [|done]. simpl. intros [= Hin].
    rewrite <- (rw_allowed _ _ Hstore gate [id] answer Eg Ea id); [done|left].
  - intros _. by apply (rw_gate _ _ Hstore).
Qed.

Lemma usablePin_mayServe key req now aff app server mapping live :
  usablePin env key req now aff app server mapping ->
  mayServe f (req_APIFlavor req) (req_RequiredCapabilities req) (onApplication server app mapping live) = true.
Proof.
  intros Hu. unfold mayServe. rewrite !andb_true_iff. split_and!.
  - apply serverProvisioned_allowed, Hu.
  - pose proof (up_fresh _ _ _ _ _ _ _ _ Hu) as Hs. unfold affinityApplicationStale in Hs. rewrite !orb_false_iff in Hs.
    destruct Hs as [_ Hs%negb_false_iff]. unfold endpointServed. simpl. rewrite Hs. apply orb_true_r.
  - unfold capable. simpl. destruct (up_capable _ _ _ _ _ _ _ _ Hu) as [->|(rows & Er & Hs)]; [done|].
    by rewrite <- (Hpin _ _ Er).
Qed.

Lemma freshPool_mayServe req apiFlavor cands voice :
  freshPool decodeNames (e_store env) req apiFlavor = inl (cands, voice) ->
  forall c, c ∈ cands -> mayServe f (req_APIFlavor req) (req_RequiredCapabilities req) c = true.
Proof.
  intros E. assert (exists stored, sv_ActiveMappingsForModel (e_store env) (req_Model req) apiFlavor = Some stored) as [stored Es].
  { unfold freshPool in E. destruct (sv_ActiveMappingsForModel _ _ _) as [stored|]; [by exists stored|done]. }
  pose proof (freshPool_answer decodeNames (e_store env) f Hstore req apiFlavor stored Es) as HA. rewrite E in HA.
  destruct HA as (_ & _ & HA). intros c [Hc _]%HA. unfold restrict in Hc.
  destruct voice as [v|]; repeat apply elem_of_filter_bool in Hc as [Hc ?]; done.
Qed.

Lemma resolveFresh_mayServe token req key apiFlavor keepPin start now c t effects :
  resolveFresh affinityID decodeNames env token req key apiFlavor keepPin start now = (Resolved c t, effects) ->
  built c apiFlavor t /\ mayServe f (req_APIFlavor req) (req_RequiredCapabilities req) c = true.
Proof.
  unfold resolveFresh. destruct (freshPool _ _ _ _) as [[cands voice]|e] eqn:Ef; [|done].
  destruct (selectStandard _ _ _ _ _) as [o signals] eqn:Es. destruct o as [c0 now'| | | |e| | |]; try done.
  assert (Hc0 : mayServe f (req_APIFlavor req) (req_RequiredCapabilities req) c0 = true).
  { unfold selectStandard in Es. destruct (standardLoop_fromPool cands req _ _ _ _ _ (f_equal fst Es)) as (c1 & Hc1 & Hrow).
    rewrite (mayServe_sameRow _ _ _ _ Hrow). by eapply freshPool_mayServe. }
  destruct (targetFrom _ c0 _) as [t0|] eqn:Eb; [|done].
  destruct (_ && _ && _ && _); [destruct (e_UpsertAffinity env)|]; intros [= <- <- _]; done.
Qed.

(** What serves a request on the self-hosted path may serve it. *)
Lemma resolveStandard_permitted token req apiFlavor now c t effects :
  resolveStandard affinityID decodeNames env token req apiFlavor now = (Resolved c t, effects) ->
  mayServe f (req_APIFlavor req) (req_RequiredCapabilities req) c = true /\
  (e_Group env <> None -> e_DirectAllowed env (req_Model req) = true) /\
  built c apiFlavor t.
Proof.
  unfold resolveStandard. cbv zeta.
  set (key := affinityKey env token req apiFlavor).
  set (rest := if negb (String.eqb (tok_ID token) "") && String.eqb (req_RequiredVoice req) "" then _ else _).
  assert (Hrest : rest = (Resolved c t, effects) -> built c apiFlavor t /\ mayServe f (req_APIFlavor req) (req_RequiredCapabilities req) c = true).
  { unfold rest. destruct (_ && _); [|by apply resolveFresh_mayServe].
    pose proof (resolveAffinity_outcome env key req now) as HO.
    destruct (resolveAffinity env key req now) as [pin before]. destruct HO as [HO _].
    destruct pin as [c0 t0| |e|]; [| | |done].
    - intros [= <- <- _]. destruct (HO c0 t0 eq_refl) as (Hb & aff & app & server & mapping & Hu & Hrow). split; [done|].
      rewrite (mayServe_sameRow _ _ _ _ Hrow). by eapply usablePin_mayServe.
    - destruct (resolveFresh _ _ _ _ _ _ _ _ _ _) as [o eff] eqn:Ef. intros [= -> _]. by eapply resolveFresh_mayServe.
    - destruct e; try done. destruct (resolveFresh _ _ _ _ _ _ _ _ _ _) as [o eff] eqn:Ef. intros [= -> _].
      by eapply resolveFresh_mayServe. }
  destruct (e_Group env) as [group|]; [|intros E; destruct (Hrest E); by split_and!].
  destruct (e_DirectAllowed env (req_Model req)); simpl; destruct (group (req_Model req)) as [[members policy]|]; simpl; [|intros E; destruct (Hrest E); by split_and!|done..].
  destruct (resolveGroup _ _ _ _ _ _) as [o eff] eqn:Eg. destruct o as [name c0 now'|e|]; [|done..].
  unfold builtTarget. destruct (targetFrom _ c0 _) as [t0|] eqn:Eb; [|done]. intros [= <- <- _]. split_and!; [|done..].
  unfold resolveGroup in Eg. destruct (groupVoiceScope _ _ _) as [voice|]; [|done].
  destruct (groupRealtimeCheck _ _) as [|]; [|done].
  destruct (ladder_served _ _ _ _ _ _ _ _ _ _ _ Eg) as (q & j & turn & _ & Ht & _ & [(pool & c1 & Ep & Hc1 & Hrow) _] & _).
  destruct (memberPool_filter _ _ (Hgroup _ _ Ht) _ _ _ _ _ Ep) as (stored & _ & ->).
  rewrite (mayServe_sameRow _ _ _ _ Hrow). by apply elem_of_filter_bool in Hc1 as [_ ?].
Qed.

End path.

(** ** The override *)

Section override.
Context `{Unicode} (env : Env) (f : facts) (Hstore : rowwise (e_store env) f) (req : Request) (apiFlavor : string) (now : time).

(** What a mapping must be for an override to route to it; neither provisioning, the
    server's maintenance nor the voice is asked. *)
Definition overridable (c : MappingCandidate) : Prop :=
  srv_ID (mc_Server c) = req_ServerOverrideID req /\
  endpointServed (req_APIFlavor req) c = true /\ capable f (req_RequiredCapabilities req) c = true.

Definition overrideOpen (c : MappingCandidate) : Prop :=
  srv_Status (mc_Server c) <> ServerStatusDisabled /\
  (req_ServerOverrideForceUnreachable req = true \/
   (srv_HealthStatus (mc_Server c) <> HealthUnhealthy /\
    forall check, r_checker (e_sources env) = Some check -> check (app_ID (mc_Application c)) = true)).

Lemma overrideServes_spec c :
  overrideServes (e_sources env) (mc_Server c) (app_ID (mc_Application c)) req = true <-> overrideOpen c.
Proof.
  unfold overrideServes, overrideOpen.
  destruct (String.eqb_spec (srv_Status (mc_Server c)) ServerStatusDisabled) as [->|Hd]; [split; [done|]; intros [[] _]; done|].
  rewrite orb_true_iff. destruct (r_checker (e_sources env)) as [check|]; rewrite ?andb_true_iff, negb_true_iff, String.eqb_neq;
    split; intros; destruct_and?; split_and?; try done; naive_solver.
Qed.

Lemma overridePool_spec stored :
  sv_ActiveMappingsForModel (e_store env) (req_Model req) apiFlavor = Some stored ->
  match overridePool (e_store env) req apiFlavor with
  | inl mine => mine <> [] /\ forall c, c ∈ mine <->
      c ∈ stored /\ overridable c /\ (req_RealtimeRequired req = true -> tooSlowForRealtime (e_store env) c = false)
  | inr ErrServerOverrideModelUnavailable => forall c, c ∈ stored -> ~ overridable c
  | inr ErrNoRealtimeCandidate => req_RealtimeRequired req = true /\
      (exists c, c ∈ stored /\ overridable c) /\
      forall c, c ∈ stored -> overridable c -> tooSlowForRealtime (e_store env) c = true
  | inr (StoreFailed _) => True
  | inr _ => False
  end.
Proof.
  intros Es. unfold overridePool. rewrite Es. simpl. rewrite filterServesEndpoint_filter, filter_filter.
  destruct (filterCapable _ _ _) as [mine|e] eqn:Ec; simpl.
  2: { by destruct (filterCapable_store _ _ _ _ Ec) as [what ->]. }
  apply (filterCapable_filter _ f Hstore) in Ec. rewrite filter_filter in Ec.
  assert (Hmine : forall c, c ∈ mine <-> c ∈ stored /\ overridable c).
  { intros c. subst mine. rewrite elem_of_filter_bool, !andb_true_iff, String.eqb_eq. unfold overridable. tauto. }
  destruct (Nat.eqb_spec (length mine) 0) as [Hl|Hl].
  { apply nil_length_inv in Hl. intros c Hc Ho. assert (Hx : c ∈ mine) by (by apply Hmine).
    rewrite Hl in Hx. by apply elem_of_nil in Hx. }
  assert (Hne : mine <> []) by (by destruct mine).
  pose proof (filterRealtime_spec (e_store env) req mine) as Hr.
  destruct (filterRealtime (e_store env) mine req) as [kept|e]; simpl.
  - destruct Hr as [H1 H2]. split; [by apply H1|]. intros c. rewrite H2, Hmine. tauto.
  - destruct Hr as (-> & H1 & _ & H2). split_and!; [done| |].
    + destruct mine as [|c mine]; [done|]. exists c. apply Hmine. left.
    + intros c Hc Ho. apply H2, Hmine. done.
Qed.

(** A server override goes exactly where it names and still checks what it must.  The
    request is served only by a mapping of the requested model on the named server that
    serves the endpoint, satisfies the required capabilities and is fast enough for a
    real-time request, on a server that is not disabled and is healthy with a reachable
    application unless the request forces through; the override writes no pin.  It answers
    "model unavailable" only when the named server offers no such mapping, and "server
    unavailable" only when the server was not open to it, at first or after a wait. *)
Theorem override_checks stored :
  sv_ActiveMappingsForModel (e_store env) (req_Model req) apiFlavor = Some stored ->
  let '(result, effects) := resolveServerOverride env req apiFlavor now in
  (forall c t, result = Resolved c t -> exists pinned, pinned ∈ stored /\ sameRow c pinned /\
     overridable pinned /\ overrideOpen pinned /\
     (req_RealtimeRequired req = true -> tooSlowForRealtime (e_store env) pinned = false) /\
     targetFrom (e_RuntimeSpecByMapping env) c apiFlavor = inl t) /\
  (result = ResolveFailed ErrServerOverrideModelUnavailable -> forall c, c ∈ stored -> ~ overridable c) /\
  (result = ResolveFailed ErrServerOverrideServerUnavailable -> exists pinned, pinned ∈ stored /\ overridable pinned /\
     (~ overrideOpen pinned \/ exists pt, pt ∈ e_pinTurns env /\
        overrideServesNow (t_resolver (pt_turn pt)) (pt_AIServerByID pt) pinned req <> None)) /\
  (forall x, x ∈ effects -> exists d, x = Signalled d).
Proof.
  intros Es. unfold resolveServerOverride. pose proof (overridePool_spec stored Es) as HP.
  destruct (overridePool _ _ _) as [mine|e].
  2: { destruct e; try done; split_and!; try done; intros ? ?%elem_of_nil; done. }
  destruct HP as [Hne Hmine]. destruct mine as [|pinned mine]; [done|].
  destruct (proj1 (Hmine pinned) ltac:(left)) as (Hst & Hov & Hrt). pose proof (overrideServes_spec pinned) as Hopen.
  destruct (overrideServes _ _ _ _) eqn:Eo; simpl.
  2: { split_and!; [done..| |by intros ? ?%elem_of_nil]. intros _. exists pinned. split_and!; [done..|]. left. intros Ho%Hopen. done. }
  destruct (selectPinned _ _ _ _ _) as [[o parked] signals] eqn:Esel.
  assert (Hsig : forall x, x ∈ Signalled <$> signals -> exists d, x = Signalled d).
  { intros x (d & -> & _)%list_elem_of_fmap. by exists d. }
  destruct o as [c now'| | | |e| | |]; try by split_and!.
  - pose proof (selectPinned_sameRow _ _ _ _ _ _ _ _ _ Esel) as Hrow.
    unfold builtTarget. destruct (targetFrom _ c _) as [t|e] eqn:Et.
    { split_and!; try done. intros c' t' [= <- <-]. exists pinned. split_and!; try done. by apply Hopen. }
    apply targetFrom_store in Et as [what ->]. by split_and!.
  - unfold selectPinned in Esel. apply pinnedLoop_unusable in Esel as (t & Ht & Hse).
    apply list_elem_of_fmap in Ht as (pt & -> & Hpt). simpl in Hse. split_and!; [done| | |done].
    + intros [= ->]. unfold overrideServesNow in Hse. by repeat case_match.
    + intros [= ->]. exists pinned. split_and!; [done..|]. right. exists pt. split; [done|]. by rewrite Hse.
Qed.

Lemma resolveServerOverride_permitted c t :
  (resolveServerOverride env req apiFlavor now).1 = Resolved c t ->
  targetFrom (e_RuntimeSpecByMapping env) c apiFlavor = inl t /\
  srv_ID (mc_Server c) = req_ServerOverrideID req /\ capable f (req_RequiredCapabilities req) c = true.
Proof.
  destruct (sv_ActiveMappingsForModel (e_store env) (req_Model req) apiFlavor) as [stored|] eqn:Es.
  2: { unfold resolveServerOverride, overridePool. by rewrite Es. }
  unfold resolveServerOverride. pose proof (overridePool_spec stored Es) as HP.
  destruct (overridePool _ _ _) as [[|pinned mine]|e]; [done| |done].
  destruct HP as [_ Hmine]. destruct (proj1 (Hmine pinned) ltac:(left)) as (_ & (Hid & _ & Hcap) & _).
  destruct (negb _); [done|]. destruct (selectPinned _ _ _ _ _) as [[o parked] signals] eqn:Esel.
  destruct o as [c0 now'| | | |e| | |]; try done. simpl. unfold builtTarget. destruct (targetFrom _ c0 _) eqn:Et; [|done].
  intros [= <- <-]. apply selectPinned_sameRow in Esel as (R1 & _ & R3). split; [done|].
  unfold capable in *. by rewrite R1, R3.
Qed.

End override.

(** ** A run *)

Module Examples.

Local Existing Instance ascii_tables.

Import GroupsProps.Examples.

Definition open : facts := mkFacts (fun _ => true) (fun _ => []) (fun _ => []).

Lemma store_open : rowwise store open.
Proof.
  split; [done|done| |]; intros ids answer [= <-] id _; done.
Qed.

Definition noPin : PinView :=
  mkPinView (Some None) (fun _ => NotFound) (fun _ => NotFound) (fun _ => Some []) (fun _ => Some []) (Some None) 1010 true.

Definition quiet : Turn := mkTurn (sources 0) None None 1010 (Some true) None None 1015.

Definition world : Env := {|
  e_legacyAffinity := false; e_Group := None; e_DirectAllowed := fun _ => true;
  e_groupStore := store; e_groupTurns := fun _ => []; e_sources := sources 0; e_pin := noPin;
  e_pinTurns := [mkPinTurn quiet (fun _ => NotFound)]; e_clockAfterPin := 1010; e_store := store;
  e_turns := [quiet]; e_UpsertAffinity := true; e_RuntimeSpecByMapping := fun _ => NotFound
|}.

Definition asks (model override : string) : Request :=
  mkRequest model "openai_chat_completions" [] ["hello"] 64 false [] "" 0 false false "" false "" "c1" override false.

Lemma fresh_answers_witness :
  freshPool decode store (asks "big" "") "openai" = inl ([big], None) /\
  freshAnswer decode store open (asks "big" "") [big] (inl ([big], None)).
Proof.
  assert (E : freshPool decode store (asks "big" "") "openai" = inl ([big], None)) by (vm_compute; reflexivity).
  split; [exact E|]. rewrite <- E. apply (fresh_answers decode store open store_open (asks "big" "") "openai" [big]).
  vm_compute. reflexivity.
Defined.

Definition bigTarget : Target :=
  mkTarget "m1" "s1" "vllm" "http://s1.local:8000" "big" "qwen" "m1#0" false false (60000 * 1000000) "openai" "" ""
    ["openai"] "" "" false false "" "" ∅ "" "" false "".

Lemma override_checks_witness :
  resolveServerOverride world (asks "big" "s1") "openai" 1010 = (Resolved big bigTarget, []) /\
  exists pinned, pinned ∈ [big] /\ sameRow big pinned /\ overridable open (asks "big" "s1") pinned.
Proof.
  assert (E : resolveServerOverride world (asks "big" "s1") "openai" 1010 = (Resolved big bigTarget, [])) by (vm_compute; reflexivity).
  split; [exact E|].
  pose proof (override_checks world open store_open (asks "big" "s1") "openai" 1010 [big] ltac:(vm_compute; reflexivity)) as HO.
  rewrite E in HO. destruct HO as (HO & _). destruct (HO big bigTarget eq_refl) as (pinned & H1 & H2 & H3 & _). by exists pinned.
Defined.

End Examples.
