(* ===== verification/Vendors.v ===== *)
(** * Vendor accounts

    The branch of [gateway/backend/internal/routing/resolver.go] that serves a request from
    an external vendor account ([resolveVendorAccount] and the three target builders), the
    token policy ([vendor_access.go]), the presets ([vendor_presets.go]), and [Resolve],
    which composes that branch with the server override and the self-hosted path of
    [Resolving].

    [VendorView] is what one call reads: the settings through their accessors, which may
    not be installed, and the accounts and models of the store.  Credentials are sealed
    strings that routing only passes on. *)

From Stdlib Require Import ZArith Lia.
From stdpp Require Import base tactics option list numbers strings gmap sets.
From S2P Require Import Prelude Float64 RoutingTypes GatewayInstances Selection Filters Targets Parking Groups Resolving.
Local Open Scope Z_scope.
Local Open Scope go_scope.

(** ** Vendors and their presets *)

Definition VendorOpenAI : string := "openai".
Definition VendorAnthropic : string := "anthropic".
Definition VendorXAI : string := "xai".
Definition VendorOpenRouter : string := "openrouter".
Definition VendorKilo : string := "kilo".
Definition VendorGoogle : string := "google".
Definition VendorGoogleNative : string := "google_native".
Definition VendorOpenAICompatible : string := "openai_compatible".
Definition VendorAuthSubscription : string := "subscription".
Definition VendorAccountStatusActive : string := "active".

Definition ProviderVendorOpenAI : string := "vendor_openai".
Definition ProviderVendorAnthropic : string := "vendor_anthropic".
Definition ProviderVendorOpenAISubscription : string := "vendor_openai_subscription".
Definition ProviderVendorGemini : string := "vendor_gemini".

Definition EndpointModePassthrough : string := "passthrough".
Definition MasqueradeClaudeCode : string := "claude_code".

Record VendorPreset := mkVendorPreset {
  vp_DefaultBaseURL : string;
  vp_PathPrefix : string;
  vp_ValidateVia : string;
  vp_ValidatePath : string;
  vp_StripModelsPrefix : string;
  vp_UsageVia : string;
  vp_UsagePath : string;
  vp_Dialect : string
}.

Definition vendorPresets : gmap string VendorPreset := list_to_map [
  (VendorXAI, mkVendorPreset "https://api.x.ai" "/v1" "models" "" "" "" "" "");
  (VendorOpenRouter, mkVendorPreset "https://openrouter.ai/api" "/v1" "key" "/key" "" "openrouter_key" "/v1/key" "");
  (VendorKilo, mkVendorPreset "https://api.kilo.ai/api" "/gateway" "none" "" "" "kilo_balance" "/profile/balance" "");
  (VendorGoogle, mkVendorPreset "https://generativelanguage.googleapis.com" "/v1beta/openai" "models" "" "models/" "" "" "");
  (VendorGoogleNative, mkVendorPreset "https://generativelanguage.googleapis.com" "/v1beta" "models" "" "models/" "" "" "gemini");
  (VendorOpenAICompatible, mkVendorPreset "" "/v1" "models" "" "" "" "" "")
].

Definition IsPresetVendor (v : string) : bool := has_key vendorPresets v.

Definition IsOpenAICompatibleVendor (v : string) : bool :=
  match vendorPresets !! v with Some p => String.eqb (vp_Dialect p) "" | None => false end.

Definition IsNativeGeminiVendor (v : string) : bool :=
  match vendorPresets !! v with Some p => String.eqb (vp_Dialect p) "gemini" | None => false end.

Definition VendorPresetFor (vendor : string) : option VendorPreset := vendorPresets !! vendor.

Definition OpenAIPathPrefixFor (vendor : string) : string :=
  match vendorPresets !! vendor with
  | Some p => if String.eqb (vp_Dialect p) "" then vp_PathPrefix p else ""
  | None => ""
  end.

(** ** Accounts and the token's policy *)

Record VendorAccount := mkVendorAccount {
  acc_ID : string;
  acc_OwnerUserID : string;
  acc_Vendor : string;
  acc_AuthType : string;
  acc_Status : string;
  acc_APIKey : string;                    (* sealed *)
  acc_ModelPrefix : string;
  acc_BaseURL : string;
  acc_Name : string;
  acc_OAuthTokens : string;               (* sealed *)
  acc_ShareLevel : string;
  acc_SystemGroupID : string;
  acc_CreatedAt : time;
  acc_UpdatedAt : time
}.

Global Instance VendorAccount_fields : Fields VendorAccount := fun a =>
  mkVendorAccount (acc_ID a) (acc_OwnerUserID a) (acc_Vendor a) (acc_AuthType a) (acc_Status a) (acc_APIKey a)
    (acc_ModelPrefix a) (acc_BaseURL a) (acc_Name a) (acc_OAuthTokens a) (acc_ShareLevel a) (acc_SystemGroupID a)
    (acc_CreatedAt a) (acc_UpdatedAt a).

Record VendorAccountModel := mkVendorAccountModel {
  vm_AccountID : string;
  vm_GatewayModel : string;
  vm_UpstreamModel : string;
  vm_APIFlavor : string;
  vm_DisplayName : string
}.

Global Instance VendorAccountModel_fields : Fields VendorAccountModel := fun v =>
  mkVendorAccountModel (vm_AccountID v) (vm_GatewayModel v) (vm_UpstreamModel v) (vm_APIFlavor v) (vm_DisplayName v).

Definition TokenOwnsVendorAccount (token : Token) (acc : VendorAccount) : bool :=
  negb (String.eqb (tok_UserID token) "") && String.eqb (acc_OwnerUserID acc) (tok_UserID token).

(** The prefix the token serves the account under, [None] if it may not use it. *)
Definition TokenVendorPrefix (token : Token) (acc : VendorAccount) : option string :=
  let access := tok_VendorAccess token in
  if va_All access && TokenOwnsVendorAccount token acc then Some (acc_ModelPrefix acc)
  else match List.find (fun e => String.eqb (ve_AccountID e) (acc_ID acc)) (va_Accounts access) with
       | Some e => Some (if ve_OverrideEnabled e then ve_OverridePrefix e else acc_ModelPrefix acc)
       | None => None
       end.

Definition IsService (token : Token) : bool := String.eqb (tok_Kind token) "service".

(** ** What one call reads *)

Record VendorView := mkVendorView {
  vv_enabled : option bool;
  vv_routingMode : option string;
  vv_subscriptionsAllowed : option bool;
  vv_enumerator : option (Token -> option (list VendorAccount));
  vv_VendorAccountsByOwner : string -> option (list VendorAccount);
  vv_VendorAccountModels : string -> option (list VendorAccountModel)
}.

Definition vendorRoutingModeVendorFirst : string := "vendor_first".
Definition vendorRoutingModeFallbackOnly : string := "fallback_only".
Definition vendorAccountDefaultTimeout : duration := 120 * second.
Definition vendorRoutePrefix : string := "vendor:".

Definition vendorOn (vv : VendorView) : bool := default false (vv_enabled vv).
Definition subscriptionsAllowed (vv : VendorView) : bool := default true (vv_subscriptionsAllowed vv).

Definition vendorMode (vv : VendorView) : string :=
  match vv_routingMode vv with
  | None => vendorRoutingModeVendorFirst
  | Some mode => if String.eqb mode vendorRoutingModeFallbackOnly then vendorRoutingModeFallbackOnly
                 else vendorRoutingModeVendorFirst
  end.

Definition vendorPrincipalEligible (token : Token) : bool :=
  negb (String.eqb (tok_UserID token) "") || (IsService token && negb (String.eqb (tok_ServiceID token) "")).

Definition vendorAccountRoutingEligible (vv : VendorView) (token : Token) (req : Request) (apiFlavor : string) : bool :=
  vendorOn vv && vendorPrincipalEligible token && String.eqb (req_ServerOverrideID req) ""
  && (length (req_RequiredCapabilities req) =? 0)%nat && negb (String.eqb apiFlavor APIFlavorOpenAIImages).

Definition routableVendorAccounts (vv : VendorView) (token : Token) : result (list VendorAccount) :=
  match vv_enumerator vv with
  | Some enumerate => read_or "resolve vendor accounts" (enumerate token)
  | None =>
      if String.eqb (tok_UserID token) "" then mret []
      else read_or "resolve vendor accounts" (vv_VendorAccountsByOwner vv (tok_UserID token))
  end.

(** ** Targets *)

(** The fields every vendor target shares. *)
Definition vendorTarget (acc : VendorAccount) (m : VendorAccountModel) (model apiFlavor provider endpoint : string)
    (flavors : list string) : Target :=
  mkTarget (vendorRoutePrefix +:+ acc_ID acc +:+ ":" +:+ model) "" provider endpoint model (vm_UpstreamModel m)
    "" false false vendorAccountDefaultTimeout apiFlavor "" "" flavors "" "" false false "" "" ∅ "" (acc_ID acc) false "".

Definition vendorAccountTarget (acc : VendorAccount) (m : VendorAccountModel) (model apiFlavor fineFlavor : string) : Target :=
  let '(provider, endpoint, tokenHeader, pathPrefix) :=
    if String.eqb (acc_Vendor acc) VendorAnthropic
    then (ProviderVendorAnthropic, "https://api.anthropic.com", "x-api-key", "")
    else if IsNativeGeminiVendor (acc_Vendor acc)
    then (ProviderVendorGemini, acc_BaseURL acc, "x-goog-api-key", "")
    else if IsOpenAICompatibleVendor (acc_Vendor acc)
    then (ProviderVendorOpenAI, acc_BaseURL acc, "", OpenAIPathPrefixFor (acc_Vendor acc))
    else (ProviderVendorOpenAI, "https://api.openai.com", "", "") in
  let t := (vendorTarget acc m model apiFlavor provider endpoint [APIFlavorOpenAI; APIFlavorAnthropic])
    <| tg_APIToken := acc_APIKey acc |> <| tg_APITokenHeader := tokenHeader |> <| tg_OpenAIPathPrefix := pathPrefix |> in
  let t := if String.eqb (acc_Vendor acc) VendorOpenAI && String.eqb fineFlavor APIFlavorOpenAIResponses
           then t <| tg_ResponsesMode := EndpointModePassthrough |> else t in
  if String.eqb (acc_Vendor acc) VendorAnthropic && String.eqb fineFlavor APIFlavorAnthropicMessages
  then t <| tg_MessagesMode := EndpointModePassthrough |> else t.

Definition vendorSubscriptionAnthropicTarget (acc : VendorAccount) (m : VendorAccountModel)
    (model apiFlavor fineFlavor : string) : Target :=
  let t := (vendorTarget acc m model apiFlavor ProviderVendorAnthropic "https://api.anthropic.com"
             [APIFlavorOpenAI; APIFlavorAnthropic])
    <| tg_Subscription := true |> <| tg_Masquerade := MasqueradeClaudeCode |>
    <| tg_ExtraHeaders := <["anthropic-version" := "2023-06-01"]> {["anthropic-beta" := "oauth-2025-04-20"]} |> in
  if String.eqb fineFlavor APIFlavorAnthropicMessages then t <| tg_MessagesMode := EndpointModePassthrough |> else t.

Definition vendorSubscriptionOpenAITarget (acc : VendorAccount) (m : VendorAccountModel)
    (model apiFlavor fineFlavor : string) : Target :=
  let t := (vendorTarget acc m model apiFlavor ProviderVendorOpenAISubscription "https://chatgpt.com/backend-api/codex"
             [APIFlavorOpenAI])
    <| tg_Subscription := true |>
    <| tg_ExtraHeaders := <["OpenAI-Beta" := "responses=experimental"]> {["originator" := "codex_cli_rs"]} |> in
  if String.eqb fineFlavor APIFlavorOpenAIResponses then t <| tg_ResponsesMode := EndpointModePassthrough |> else t.

Definition vendorAccountModelTarget `{Unicode} (acc : VendorAccount) (m : VendorAccountModel) (req : Request)
    (apiFlavor : string) : option Target :=
  if negb (String.eqb (acc_AuthType acc) VendorAuthSubscription) then
    if IsPresetVendor (acc_Vendor acc) && String.eqb (strings_TrimSpace (acc_BaseURL acc)) "" then None
    else Some (vendorAccountTarget acc m (req_Model req) apiFlavor (req_APIFlavor req))
  else if String.eqb (acc_Vendor acc) VendorAnthropic
  then Some (vendorSubscriptionAnthropicTarget acc m (req_Model req) apiFlavor (req_APIFlavor req))
  else if String.eqb (acc_Vendor acc) VendorOpenAI
  then Some (vendorSubscriptionOpenAITarget acc m (req_Model req) apiFlavor (req_APIFlavor req))
  else None.

(** The first model row of that public name decides. *)
Definition vendorAccountModelMatch `{Unicode} (acc : VendorAccount) (models : list VendorAccountModel)
    (prefix : string) (req : Request) (apiFlavor : string) : option Target :=
  match List.find (fun m => String.eqb (prefix +:+ vm_UpstreamModel m) (req_Model req)) models with
  | Some m => vendorAccountModelTarget acc m req apiFlavor
  | None => None
  end.

(** ** The branch *)

(** The prefix an account may be tried under, with the checks before its models are read. *)
Definition accountUsable (vv : VendorView) (token : Token) (apiFlavor : string) (acc : VendorAccount) : option string :=
  if negb (String.eqb (acc_Status acc) VendorAccountStatusActive) then None
  else if String.eqb (acc_AuthType acc) VendorAuthSubscription && negb (subscriptionsAllowed vv) then None
  else match TokenVendorPrefix token acc with
       | None => None
       | Some prefix =>
           if String.eqb (acc_AuthType acc) VendorAuthSubscription && String.eqb (acc_Vendor acc) VendorOpenAI
              && negb (String.eqb apiFlavor APIFlavorOpenAI)
           then None else Some prefix
       end.

Fixpoint tryAccounts `{Unicode} (vv : VendorView) (token : Token) (req : Request) (apiFlavor : string)
    (accounts : list VendorAccount) : result (option (VendorAccount * Target)) :=
  match accounts with
  | [] => mret None
  | acc :: accounts =>
      match accountUsable vv token apiFlavor acc with
      | None => tryAccounts vv token req apiFlavor accounts
      | Some prefix =>
          models ← read_or "resolve vendor account models" (vv_VendorAccountModels vv (acc_ID acc));
          match vendorAccountModelMatch acc models prefix req apiFlavor with
          | Some t => mret (Some (acc, t))
          | None => tryAccounts vv token req apiFlavor accounts
          end
      end
  end.

Definition resolveVendorAccount `{Unicode} (vv : VendorView) (token : Token) (req : Request) (apiFlavor : string)
  : result (option (VendorAccount * Target)) :=
  if negb (vendorAccountRoutingEligible vv token req apiFlavor) then mret None
  else
    accounts ← routableVendorAccounts vv token;
    tryAccounts vv token req apiFlavor accounts.

(** ** Resolve *)

Inductive routed :=
| OnMapping (c : MappingCandidate) (t : Target)
| OnAccount (acc : VendorAccount) (t : Target)
| NotRouted (e : routeError)
| StillRouting.

Definition routedOf (x : resolution) : routed :=
  match x with
  | Resolved c t => OnMapping c t
  | ResolveFailed e => NotRouted e
  | ResolveWaits => StillRouting
  end.

(** [wired] is whether the resolver and its store exist. *)
Definition Resolve `{Unicode} (affinityID : AffinityKey -> string) (decodeNames : string -> option (list string))
    (wired : bool) (env : Env) (vv : VendorView) (token : Token) (req : Request) (now : time) : routed * list effect :=
  if negb wired then (NotRouted ErrNoModelRoute, [])
  else
    let apiFlavor := NormalizeAPIFlavor (req_APIFlavor req) in
    if negb (String.eqb (req_ServerOverrideID req) "") then
      let '(result, effects) := resolveServerOverride env req apiFlavor now in (routedOf result, effects)
    else
      let mode := vendorMode vv in
      match (if String.eqb mode vendorRoutingModeVendorFirst then resolveVendorAccount vv token req apiFlavor else mret None) with
      | inr e => (NotRouted e, [])
      | inl (Some (acc, t)) => (OnAccount acc t, [])
      | inl None =>
          let '(result, effects) := resolveStandard affinityID decodeNames env token req apiFlavor now in
          match result with
          | ResolveFailed ErrNoModelRoute =>
              if String.eqb mode vendorRoutingModeFallbackOnly then
                match resolveVendorAccount vv token req apiFlavor with
                | inr e => (NotRouted e, effects)
                | inl (Some (acc, t)) => (OnAccount acc t, effects)
                | inl None => (NotRouted ErrNoModelRoute, effects)
                end
              else (routedOf result, effects)
          | _ => (routedOf result, effects)
          end
      end.
