(* ===== verification/VendorsProps.v ===== *)
(** * Properties of vendor accounts and of Resolve

    When an account may serve and with which credential ([vendor_opt_in]); how the three
    ways of routing take precedence ([Resolve_cases]); and that whatever routes a request
    was permitted to ([Resolve_serves_permitted]). *)

From Stdlib Require Import ZArith Lia.
From stdpp Require Import base tactics option list numbers strings gmap sets.
From S2P Require Import Prelude Float64 RoutingTypes GatewayInstances Selection Filters FiltersProps Targets Parking.
From S2P Require Import Groups GroupWalk GroupsProps Resolving ResolvingProps Vendors.
Local Open Scope Z_scope.
Local Open Scope go_scope.

(** ** The token's policy *)

(** The token may use the account under the prefix: it owns the account and takes all its
    own, or its policy names the account. *)
Inductive covered (token : Token) (acc : VendorAccount) (prefix : string) : Prop :=
| covered_own : va_All (tok_VendorAccess token) = true -> tok_UserID token <> "" ->
    acc_OwnerUserID acc = tok_UserID token -> prefix = acc_ModelPrefix acc -> covered token acc prefix
| covered_named e : e ∈ va_Accounts (tok_VendorAccess token) -> ve_AccountID e = acc_ID acc ->
    prefix = (if ve_OverrideEnabled e then ve_OverridePrefix e else acc_ModelPrefix acc) -> covered token acc prefix.

Lemma TokenOwnsVendorAccount_spec token acc :
  TokenOwnsVendorAccount token acc = true <-> tok_UserID token <> "" /\ acc_OwnerUserID acc = tok_UserID token.
Proof. unfold TokenOwnsVendorAccount. by rewrite andb_true_iff, negb_true_iff, String.eqb_eq, String.eqb_neq. Qed.

Lemma TokenVendorPrefix_covered token acc prefix : TokenVendorPrefix token acc = Some prefix -> covered token acc prefix.
Proof.
  unfold TokenVendorPrefix. destruct (_ && _) eqn:Ea.
  - apply andb_true_iff in Ea as [Ha [Hu Ho]%TokenOwnsVendorAccount_spec]. intros [= <-]. by apply covered_own.
  - destruct (List.find _ _) as [e|] eqn:Ef; [|done]. apply List.find_some in Ef as [He%list_elem_of_In Hid%String.eqb_eq].
    intros [= <-]. by eapply covered_named.
Qed.

(** ** The credential *)

(** The root a vendor's API key may be sent to. *)
Definition homeOf (acc : VendorAccount) : string :=
  if String.eqb (acc_Vendor acc) VendorAnthropic then "https://api.anthropic.com"
  else if IsPresetVendor (acc_Vendor acc) then acc_BaseURL acc else "https://api.openai.com".

(** What a target of an account may carry: an API key goes to its vendor's root; a
    subscription's bearer is attached later, and only to its vendor's own endpoint. *)
Definition confined `{Unicode} (acc : VendorAccount) (t : Target) : Prop :=
  tg_VendorAccountID t = acc_ID acc /\ tg_ServerID t = "" /\ tg_InstanceKey t = "" /\
  if String.eqb (acc_AuthType acc) VendorAuthSubscription
  then tg_Subscription t = true /\ tg_APIToken t = "" /\
    ((acc_Vendor acc = VendorAnthropic /\ tg_Provider t = ProviderVendorAnthropic /\ tg_Endpoint t = "https://api.anthropic.com") \/
     (acc_Vendor acc = VendorOpenAI /\ tg_Provider t = ProviderVendorOpenAISubscription /\
      tg_Endpoint t = "https://chatgpt.com/backend-api/codex" /\ APIFlavorAnthropic ∉ tg_APIFlavors t))
  else tg_Subscription t = false /\ tg_APIToken t = acc_APIKey acc /\ tg_Endpoint t = homeOf acc /\
    (IsPresetVendor (acc_Vendor acc) = true -> strings_TrimSpace (tg_Endpoint t) <> "").

Lemma presets_dialects : map_Forall (fun _ p => vp_Dialect p = "" \/ vp_Dialect p = "gemini") vendorPresets.
Proof. apply (bool_decide_unpack _). vm_compute. exact I. Qed.

Lemma preset_dialect v : IsPresetVendor v = IsNativeGeminiVendor v || IsOpenAICompatibleVendor v.
Proof.
  unfold IsPresetVendor, IsNativeGeminiVendor, IsOpenAICompatibleVendor, has_key.
  destruct (vendorPresets !! v) as [p|] eqn:E; [|done].
  by destruct (presets_dialects v p E) as [->| ->].
Qed.

Lemma anthropic_not_preset : IsPresetVendor VendorAnthropic = false.
Proof. done. Qed.

Lemma vendorAccountTarget_confined `{Unicode} acc m model apiFlavor fine :
  acc_AuthType acc <> VendorAuthSubscription ->
  (IsPresetVendor (acc_Vendor acc) = true -> strings_TrimSpace (acc_BaseURL acc) <> "") ->
  confined acc (vendorAccountTarget acc m model apiFlavor fine).
Proof.
  intros Hs%String.eqb_neq Hb. unfold confined, vendorAccountTarget, homeOf. rewrite Hs.
  destruct (String.eqb_spec (acc_Vendor acc) VendorAnthropic) as [E|_].
  { rewrite E, anthropic_not_preset. simpl. destruct (String.eqb fine _); by split_and!. }
  rewrite preset_dialect in *.
  destruct (IsNativeGeminiVendor (acc_Vendor acc)), (IsOpenAICompatibleVendor (acc_Vendor acc)); simpl in *;
    destruct (_ && _); by split_and!.
Qed.

Lemma vendorAccountModelTarget_confined `{Unicode} acc m req apiFlavor t :
  vendorAccountModelTarget acc m req apiFlavor = Some t ->
  confined acc t /\ tg_ProviderModel t = vm_UpstreamModel m /\ tg_Model t = req_Model req.
Proof.
  unfold vendorAccountModelTarget. destruct (String.eqb_spec (acc_AuthType acc) VendorAuthSubscription) as [Hs|Hs]; simpl.
  - destruct (String.eqb_spec (acc_Vendor acc) VendorAnthropic) as [Hv|_].
    { intros [= <-]. unfold confined, vendorSubscriptionAnthropicTarget. rewrite Hs.
      destruct (String.eqb _ _); simpl; split_and!; auto. }
    destruct (String.eqb_spec (acc_Vendor acc) VendorOpenAI) as [Hv|_]; [|done].
    intros [= <-]. unfold confined, vendorSubscriptionOpenAITarget. rewrite Hs.
    assert (APIFlavorAnthropic ∉ [APIFlavorOpenAI]) by (intros Hin%list_elem_of_singleton; done).
    destruct (String.eqb (req_APIFlavor req) _); simpl; split_and!; auto.
  - destruct (_ && _) eqn:Eb; [done|]. intros [= <-]. split.
    + apply vendorAccountTarget_confined; [done|]. intros Hp. rewrite Hp in Eb. simpl in Eb. by apply String.eqb_neq.
    + unfold vendorAccountTarget. destruct (if String.eqb (acc_Vendor acc) VendorAnthropic then _ else _) as [[[provider endpoint] header] path].
      by destruct (_ && String.eqb _ APIFlavorOpenAIResponses), (_ && String.eqb _ APIFlavorAnthropicMessages).
Qed.

(** ** The branch *)

Section branch.
Context `{Unicode} (vv : VendorView) (token : Token) (req : Request) (apiFlavor : string).

(** The account serves the request with the target. *)
Record serves (acc : VendorAccount) (t : Target) : Prop := {
  sv_active : acc_Status acc = VendorAccountStatusActive;
  sv_subscription : acc_AuthType acc = VendorAuthSubscription -> subscriptionsAllowed vv = true;
  sv_model : exists prefix models m, covered token acc prefix /\ vv_VendorAccountModels vv (acc_ID acc) = Some models /\
    m ∈ models /\ prefix +:+ vm_UpstreamModel m = req_Model req /\
    tg_Model t = req_Model req /\ tg_ProviderModel t = vm_UpstreamModel m;
  sv_confined : confined acc t
}.

(** What trying one account answers. *)
Definition tryAccount (acc : VendorAccount) : result (option Target) :=
  match accountUsable vv token apiFlavor acc with
  | None => mret None
  | Some prefix =>
      models ← read_or "resolve vendor account models" (vv_VendorAccountModels vv (acc_ID acc));
      mret (vendorAccountModelMatch acc models prefix req apiFlavor)
  end.

Lemma tryAccount_serves acc t : tryAccount acc = inl (Some t) -> serves acc t.
Proof.
  unfold tryAccount, accountUsable. destruct (String.eqb_spec (acc_Status acc) VendorAccountStatusActive) as [Hst|]; simpl; [|done].
  destruct (_ && negb _) eqn:Es; [done|]. destruct (TokenVendorPrefix token acc) as [prefix|] eqn:Ep; [|done].
  apply TokenVendorPrefix_covered in Ep. destruct (_ && _ && _); [done|].
  destruct (vv_VendorAccountModels vv (acc_ID acc)) as [models|] eqn:Em; [|done]. simpl. intros [= Hm].
  unfold vendorAccountModelMatch in Hm. destruct (List.find _ models) as [m|] eqn:Ef; [|done].
  apply List.find_some in Ef as [Hin%list_elem_of_In Hn%String.eqb_eq].
  apply vendorAccountModelTarget_confined in Hm as (Hc & Hp & Hq). split; [done| | |done].
  - intros Ha. rewrite Ha in Es. simpl in Es. by destruct (subscriptionsAllowed vv).
  - by exists prefix, models, m.
Qed.

Lemma tryAccounts_cases accounts :
  match tryAccounts vv token req apiFlavor accounts with
  | inl None => forall acc, acc ∈ accounts -> tryAccount acc = inl None
  | inl (Some (acc, t)) => exists before after, accounts = before ++ acc :: after /\ tryAccount acc = inl (Some t) /\
      forall a, a ∈ before -> tryAccount a = inl None
  | inr e => exists what, e = StoreFailed what
  end.
Proof.
  induction accounts as [|acc accounts IH]; simpl; [by intros ? ?%elem_of_nil|].
  assert (Hskip : tryAccount acc = inl None ->
    match tryAccounts vv token req apiFlavor accounts with
    | inl None => forall a, a ∈ acc :: accounts -> tryAccount a = inl None
    | inl (Some (a, t)) => exists before after, acc :: accounts = before ++ a :: after /\ tryAccount a = inl (Some t) /\
        forall b, b ∈ before -> tryAccount b = inl None
    | inr e => exists what, e = StoreFailed what
    end).
  { intros Hn. destruct (tryAccounts vv token req apiFlavor accounts) as [[[a t]|]|e]; [| |done].
    - destruct IH as (before & after & -> & Ht & Hb). exists (acc :: before), after. split_and!; [done..|].
      intros b [->|Hin]%elem_of_cons; auto.
    - intros b [->|Hin]%elem_of_cons; auto. }
  unfold tryAccount in Hskip at 1. destruct (accountUsable vv token apiFlavor acc) as [prefix|] eqn:Eu; [|by apply Hskip].
  destruct (vv_VendorAccountModels vv (acc_ID acc)) as [models|] eqn:Em; simpl in *; [|by eexists].
  destruct (vendorAccountModelMatch acc models prefix req apiFlavor) as [t|] eqn:Ematch; [|by apply Hskip].
  exists [], accounts. split_and!; [done| |by intros ? ?%elem_of_nil].
  unfold tryAccount. rewrite Eu, Em. simpl. by rewrite Ematch.
Qed.

Lemma vendorAccountRoutingEligible_spec :
  vendorAccountRoutingEligible vv token req apiFlavor = true <->
  vv_enabled vv = Some true /\ (tok_UserID token <> "" \/ (tok_Kind token = "service" /\ tok_ServiceID token <> "")) /\
  req_ServerOverrideID req = "" /\ req_RequiredCapabilities req = [] /\ apiFlavor <> APIFlavorOpenAIImages.
Proof.
  unfold vendorAccountRoutingEligible, vendorOn, vendorPrincipalEligible, IsService.
  rewrite !andb_true_iff, orb_true_iff, andb_true_iff, !negb_true_iff, !String.eqb_eq, !String.eqb_neq, Nat.eqb_eq, length_zero_iff_nil.
  destruct (vv_enabled vv) as [[]|]; naive_solver.
Qed.

Lemma resolveVendorAccount_serves acc t :
  resolveVendorAccount vv token req apiFlavor = inl (Some (acc, t)) -> req_RequiredCapabilities req = [] /\ serves acc t.
Proof.
  unfold resolveVendorAccount. destruct (vendorAccountRoutingEligible vv token req apiFlavor) eqn:Ee; [|done].
  apply vendorAccountRoutingEligible_spec in Ee. destruct_and! Ee. simpl.
  destruct (routableVendorAccounts vv token) as [accounts|e]; [|done]. simpl. intros Et.
  pose proof (tryAccounts_cases accounts) as HC. rewrite Et in HC. destruct HC as (before & after & -> & Hs & Hb).
  split; [done|by apply tryAccount_serves].
Qed.

Lemma resolveVendorAccount_routable acc t :
  resolveVendorAccount vv token req apiFlavor = inl (Some (acc, t)) ->
  exists accounts, routableVendorAccounts vv token = inl accounts /\ acc ∈ accounts.
Proof.
  unfold resolveVendorAccount. destruct (vendorAccountRoutingEligible vv token req apiFlavor); [|done]. simpl.
  destruct (routableVendorAccounts vv token) as [accounts|e]; [|done]. simpl. intros Et.
  pose proof (tryAccounts_cases accounts) as HC. rewrite Et in HC. destruct HC as (before & after & -> & _).
  eexists. split; [done|]. apply elem_of_app. right. left.
Qed.

(** A vendor account serves only a request that opted in, and its credential goes
    nowhere else.  The feature is on; the principal has an identity; the request overrides
    no server, requires no capability and is not for images; the account is one the grant
    lists for the principal (its own, when no grant is installed), active, of a kind
    allowed, covered by the token's policy -- by name unless the token owns it and takes
    all its own --; and the requested name is the policy's prefix with one of the
    account's models.  It is the first such account.  An API key is carried only to its
    vendor's root, never a blank one, and a subscription target carries none and points
    at its own vendor. *)
Theorem vendor_opt_in acc t :
  resolveVendorAccount vv token req apiFlavor = inl (Some (acc, t)) ->
  vv_enabled vv = Some true /\ (tok_UserID token <> "" \/ (tok_Kind token = "service" /\ tok_ServiceID token <> "")) /\
  req_ServerOverrideID req = "" /\ req_RequiredCapabilities req = [] /\ apiFlavor <> APIFlavorOpenAIImages /\
  exists before after,
    (match vv_enumerator vv with
     | Some enumerate => enumerate token
     | None => if String.eqb (tok_UserID token) "" then Some [] else vv_VendorAccountsByOwner vv (tok_UserID token)
     end) = Some (before ++ acc :: after) /\
    serves acc t /\ forall a, a ∈ before -> tryAccount a = inl None.
Proof.
  unfold resolveVendorAccount. destruct (vendorAccountRoutingEligible vv token req apiFlavor) eqn:Ee; [|done].
  apply vendorAccountRoutingEligible_spec in Ee. destruct_and! Ee. simpl.
  destruct (routableVendorAccounts vv token) as [accounts|e] eqn:Er; [|done]. simpl. intros Et.
  pose proof (tryAccounts_cases accounts) as HC. rewrite Et in HC. destruct HC as (before & after & -> & Hs & Hb).
  split_and!; try done. exists before, after. split_and!; [|by apply tryAccount_serves|done].
  unfold routableVendorAccounts in Er. destruct (vv_enumerator vv) as [enumerate|]; [|destruct (String.eqb _ _)].
  - destruct (enumerate token); [by injection Er as ->|done].
  - by injection Er as <-.
  - destruct (vv_VendorAccountsByOwner vv (tok_UserID token)); [by injection Er as ->|done].
Qed.

End branch.

(** ** Resolve *)

Section resolve.
Context `{Unicode} (affinityID : AffinityKey -> string) (decodeNames : string -> option (list string)).
Context (env : Env) (vv : VendorView) (token : Token) (req : Request) (now : time).

Local Notation flavor := (NormalizeAPIFlavor (req_APIFlavor req)).
Local Notation resolve := (Resolve affinityID decodeNames true env vv token req now).
Local Notation standard := (resolveStandard affinityID decodeNames env token req flavor now).
Local Notation vendor := (resolveVendorAccount vv token req flavor).

(** The account's answer in place of a failed one, if it has one. *)
Definition orAccount (otherwise : routed) : routed :=
  match vendor with
  | inl (Some (acc, t)) => OnAccount acc t
  | inl None => otherwise
  | inr e => NotRouted e
  end.

Lemma vendorMode_cases : vendorMode vv = vendorRoutingModeVendorFirst \/ vendorMode vv = vendorRoutingModeFallbackOnly.
Proof. unfold vendorMode. destruct (vv_routingMode vv) as [mode|]; [destruct (String.eqb _ _)|]; auto. Qed.

Lemma Resolve_cases :
  resolve =
    if negb (String.eqb (req_ServerOverrideID req) "")
    then (routedOf (resolveServerOverride env req flavor now).1, (resolveServerOverride env req flavor now).2)
    else if String.eqb (vendorMode vv) vendorRoutingModeFallbackOnly
    then (match standard.1 with
          | ResolveFailed ErrNoModelRoute => orAccount (NotRouted ErrNoModelRoute)
          | answer => routedOf answer
          end, standard.2)
    else match vendor with
         | inl None => (routedOf standard.1, standard.2)
         | _ => (orAccount (NotRouted ErrNoModelRoute), [])
         end.
Proof.
  unfold Resolve, orAccount. cbv zeta. simpl negb at 1. cbv iota.
  destruct (negb _); [by destruct (resolveServerOverride env req flavor now)|].
  destruct vendorMode_cases as [-> | ->]; simpl.
  - destruct vendor as [[[acc t]|]|e]; [done| |done]. destruct standard as [[c t|[]|] effects]; done.
  - destruct standard as [[c t|[]|] effects]; try done. by destruct vendor as [[[acc t]|]|e].
Qed.

Lemma Resolve_account acc t : resolve.1 = OnAccount acc t -> vendor = inl (Some (acc, t)).
Proof.
  rewrite Resolve_cases. destruct (negb _); simpl; [by destruct (resolveServerOverride env req flavor now).1|].
  unfold orAccount. destruct (String.eqb _ _); simpl.
  - destruct standard.1 as [c t'|[]|]; simpl; try done. destruct vendor as [[[acc' t']|]|e]; [|done..]. by intros [= <- <-].
  - destruct vendor as [[[acc' t']|]|e]; simpl; [by intros [= <- <-]|by destruct standard.1|done].
Qed.

Context (f : facts) (Hstore : rowwise (e_store env) f)
  (Hgroup : forall i t, t ∈ e_groupTurns env i -> rowwise (gt_store t) f)
  (Hpin : forall id rows, pv_MappingCapabilities (e_pin env) id = Some rows -> rows = f_caps f id).

Lemma Resolve_permitted :
  match resolve.1 with
  | OnMapping c t =>
      targetFrom (e_RuntimeSpecByMapping env) c flavor = inl t /\
      if String.eqb (req_ServerOverrideID req) ""
      then mayServe f (req_APIFlavor req) (req_RequiredCapabilities req) c = true /\
           (e_Group env <> None -> e_DirectAllowed env (req_Model req) = true)
      else srv_ID (mc_Server c) = req_ServerOverrideID req /\ capable f (req_RequiredCapabilities req) c = true
  | OnAccount acc t => req_ServerOverrideID req = "" /\ req_RequiredCapabilities req = [] /\ serves vv token req acc t
  | NotRouted _ | StillRouting => True
  end.
Proof.
  assert (Hstd : forall c t, standard.1 = Resolved c t ->
    targetFrom (e_RuntimeSpecByMapping env) c flavor = inl t /\
    mayServe f (req_APIFlavor req) (req_RequiredCapabilities req) c = true /\
    (e_Group env <> None -> e_DirectAllowed env (req_Model req) = true)).
  { intros c t. destruct standard as [o effects] eqn:Es. simpl. intros ->.
    destruct (resolveStandard_permitted affinityID decodeNames env f Hstore Hgroup Hpin _ _ _ _ _ _ _ Es) as (H1 & H2 & H3). done. }
  assert (Hv : forall acc t, vendor = inl (Some (acc, t)) -> req_RequiredCapabilities req = [] /\ serves vv token req acc t).
  { intros acc t Ev. by destruct (resolveVendorAccount_serves vv token req flavor acc t Ev). }
  rewrite Resolve_cases. destruct (String.eqb_spec (req_ServerOverrideID req) "") as [Eo|Eo]; simpl.
  - assert (Hor : match orAccount (NotRouted ErrNoModelRoute) with
      | OnMapping _ _ => False
      | OnAccount acc t => req_ServerOverrideID req = "" /\ req_RequiredCapabilities req = [] /\ serves vv token req acc t
      | NotRouted _ | StillRouting => True end).
    { unfold orAccount. destruct vendor as [[[acc t]|]|e]; [|done..]. split; [done|]. by apply Hv. }
    destruct (String.eqb _ _); simpl.
    + destruct standard.1 as [c t|e|] eqn:Es; simpl; [by apply Hstd| |done].
      destruct e; simpl; try done. by destruct (orAccount _).
    + destruct vendor as [[x|]|e] eqn:Ev; simpl; [by destruct (orAccount _)| |by destruct (orAccount _)].
      destruct standard.1 as [c t|e|] eqn:Es; simpl; [by apply Hstd|done..].
  - destruct (resolveServerOverride env req flavor now).1 as [c t|e|] eqn:Er; simpl; [|done..].
    by apply (resolveServerOverride_permitted env f Hstore req flavor now).
Qed.

(** C4.  Whatever routes a request was permitted to.  A mapping serves it only where the
    override named its server, or its server is provisioned for the principal, its
    application serves the request's endpoint, its verdicts satisfy every required
    capability and the model may be requested directly; the target is the one built from
    that mapping.  An account serves it only if the token's policy covers the account for
    that model name, with the account's own credential. *)
Theorem Resolve_serves_permitted :
  match resolve.1 with
  | OnMapping c t =>
      targetFrom (e_RuntimeSpecByMapping env) c flavor = inl t /\
      if String.eqb (req_ServerOverrideID req) ""
      then mayServe f (req_APIFlavor req) (req_RequiredCapabilities req) c = true /\
           (e_Group env <> None -> e_DirectAllowed env (req_Model req) = true)
      else srv_ID (mc_Server c) = req_ServerOverrideID req /\ capable f (req_RequiredCapabilities req) c = true
  | OnAccount acc t => req_ServerOverrideID req = "" /\ req_RequiredCapabilities req = [] /\ serves vv token req acc t
  | NotRouted _ | StillRouting => True
  end.
Proof. apply Resolve_permitted. Qed.

End resolve.

(** ** Examples *)

Module Examples.

Local Existing Instance ascii_tables.

Import GroupsProps.Examples ResolvingProps.Examples.

Definition xai : VendorAccount :=
  mkVendorAccount "acc1" "u1" VendorXAI "api_key" VendorAccountStatusActive "sealed:key" "x/" "https://api.x.ai" "" "" "none" "" 0 0.

(** A subscription that needs reconnecting comes first and is passed over. *)
Definition stale : VendorAccount :=
  mkVendorAccount "acc0" "u1" VendorAnthropic VendorAuthSubscription "needs_reconnect" "" "" "" "" "" "none" "" 0 0.

Definition accounts : VendorView := {|
  vv_enabled := Some true; vv_routingMode := None; vv_subscriptionsAllowed := None; vv_enumerator := None;
  vv_VendorAccountsByOwner owner := if String.eqb owner "u1" then Some [stale; xai] else Some [];
  vv_VendorAccountModels id := Some [mkVendorAccountModel id "x/grok" "grok" "openai" "Grok"]
|}.

Definition optedIn : Token := mkToken "t1" "u1" (mkVendorAccess true []) "" "".

Definition grokTarget : Target :=
  (vendorTarget xai (mkVendorAccountModel "acc1" "x/grok" "grok" "openai" "Grok") "x/grok" "openai" ProviderVendorOpenAI
    "https://api.x.ai" ["openai"; "anthropic"]) <| tg_APIToken := "sealed:key" |> <| tg_OpenAIPathPrefix := "/v1" |>.

Lemma vendor_opt_in_witness :
  resolveVendorAccount accounts optedIn (asks "x/grok" "") "openai" = inl (Some (xai, grokTarget)) /\
  serves accounts optedIn (asks "x/grok" "") xai grokTarget.
Proof.
  assert (E : resolveVendorAccount accounts optedIn (asks "x/grok" "") "openai" = inl (Some (xai, grokTarget)))
    by (vm_compute; reflexivity).
  split; [exact E|].
  destruct (vendor_opt_in accounts optedIn (asks "x/grok" "") "openai" xai grokTarget E) as (_ & _ & _ & _ & _ & b & a & _ & H & _).
  exact H.
Defined.

(** A model no account serves goes to the self-hosted path. *)
Lemma Resolve_serves_permitted_witness :
  (Resolve hash decode true world accounts optedIn (asks "big" "") 1010).1 = OnMapping big bigTarget /\
  mayServe open "openai_chat_completions" [] big = true.
Proof.
  assert (E : (Resolve hash decode true world accounts optedIn (asks "big" "") 1010).1 = OnMapping big bigTarget)
    by (vm_compute; reflexivity).
  split; [exact E|].
  pose proof (Resolve_serves_permitted hash decode world accounts optedIn (asks "big" "") 1010 open store_open
    (fun i t Ht => match not_elem_of_nil t Ht with end)
    (fun id rows E => eq_sym (f_equal (fun x => match x with Some l => l | None => [] end) E))) as HR.
  rewrite E in HR. destruct HR as (_ & HR). exact (proj1 HR).
Defined.

End Examples.
