(* ===== verification/Samples.v ===== *)
(** * Reduction of samples

    Models [gateway/backend/internal/routing/sample_reduce.go]: the history of a server's
    availability is collapsed to its transitions and gaps, and any history is decimated to
    a number of points.  Indexing out of range panics in Go; the model answers [None].

    Main results: decimation keeps the ends, the order and the bound, and never panics
    ([decimation_exact]); the reduction loses no transition and no observer gap, and what
    it drops is between two kept samples of the same state ([reduction_lossless]). *)

From Stdlib Require Import ZArith Lia Sorted.
From stdpp Require Import base tactics option list numbers strings sets.
From S2P Require Import Prelude.
Local Open Scope Z_scope.
Local Open Scope go_scope.

(** ** Data *)

Definition AvailabilityGapFloor : duration := 600 * 1000000000.

Record ServerAvailabilitySample := mkAvailability {
  as_ServerID : string;
  as_ReportedAt : time;
  as_Health : string;
  as_ReachableCount : Z;
  as_ActiveCount : Z;
  as_AgentReporting : bool;
  as_NetbirdConnected : bool;
  as_GapBefore : bool
}.

Global Instance ServerAvailabilitySample_fields : Fields ServerAvailabilitySample := fun s =>
  mkAvailability (as_ServerID s) (as_ReportedAt s) (as_Health s) (as_ReachableCount s) (as_ActiveCount s)
    (as_AgentReporting s) (as_NetbirdConnected s) (as_GapBefore s).

Definition AvailabilityStateKey (s : ServerAvailabilitySample) : string :=
  let key := as_Health s in
  let key := key +:+ (if as_AgentReporting s then "|1" else "|0") in
  key +:+ (if as_NetbirdConnected s then "|1" else "|0").

(** ** Decimation *)

(** [l[i]] *)
Definition go_index {A} (l : list A) (i : Z) : option A := if i <? 0 then None else l !! Z.to_nat i.

(** [DecimateAvailabilitySamples] and [DecimateTelemetrySamples], which differ in the type
    of the samples only. *)
Definition DecimateSamples {A} (all : list A) (limit : Z) : option (list A) :=
  let n := Z.of_nat (length all) in
  if (limit <=? 0) || (n <=? limit) then Some all
  else if limit =? 1 then (fun s => [s]) <$> go_index all (n -! 1)
  else mapM (fun i => go_index all (Z.quot (int64 (i * (n -! 1))) (limit -! 1))) (seqZ 0 limit).

Definition DecimateAvailabilitySamples (all : list ServerAvailabilitySample) (limit : Z) := DecimateSamples all limit.

(** ** Reduction *)

Section reduce.
Context (gap : duration).

Definition farApart (a b : ServerAvailabilitySample) : bool :=
  gap <? time_Sub (as_ReportedAt b) (as_ReportedAt a).

(** The samples after [prev], with the flag set where the raw predecessor is far away. *)
Fixpoint flagGaps (prev : ServerAvailabilitySample) (l : list ServerAvailabilitySample) : list ServerAvailabilitySample :=
  match l with
  | [] => []
  | s :: l' => (if farApart prev s then s <| as_GapBefore := true |> else s) :: flagGaps s l'
  end.

(** Kept between its two neighbours. *)
Definition boundary (prev s next : ServerAvailabilitySample) : bool :=
  (negb (String.eqb (AvailabilityStateKey s) (AvailabilityStateKey prev))
   || negb (String.eqb (AvailabilityStateKey s) (AvailabilityStateKey next)))
  || (farApart prev s || farApart s next).

(** The samples after [prev] that are kept, the last among them. *)
Fixpoint keepBoundaries (prev : ServerAvailabilitySample) (l : list ServerAvailabilitySample) : list ServerAvailabilitySample :=
  match l with
  | [] => []
  | [s] => [s]
  | s :: (next :: _) as l' => if boundary prev s next then s :: keepBoundaries s l' else keepBoundaries s l'
  end.

Definition ReduceAvailabilitySamples (all : list ServerAvailabilitySample) (limit : Z)
  : option (list ServerAvailabilitySample) :=
  let all := match all with [] => [] | first :: rest => first :: flagGaps first rest end in
  match all with
  | first :: (_ :: _ :: _) as rest =>
      let out := first :: keepBoundaries first rest in
      if (0 <? limit) && (limit <? Z.of_nat (length out)) then DecimateAvailabilitySamples out limit else Some out
  | _ => Some all
  end.

End reduce.

(** ** Picking by index *)

Section pick.
Context {A : Type}.

Lemma sorted_map_seq (g : nat -> nat) a len :
  (forall i j, (a <= i -> i < j -> j < a + len -> g i < g j)%nat) -> StronglySorted lt (g <$> seq a len).
Proof.
  revert a. induction len as [|len IH]; intros a Hg; simpl; constructor.
  - apply IH. intros i j ? ? ?. apply Hg; lia.
  - apply Forall_fmap, Forall_forall. intros j Hj%elem_of_seq. apply Hg; simpl; lia.
Qed.

Lemma mapM_shift (x : A) l ks :
  Forall (fun i => 1 <= i)%nat ks -> mapM ((x :: l) !!.) ks = mapM (l !!.) (pred <$> ks).
Proof.
  induction 1 as [|i ks Hi _ IH]; [done|]. destruct i as [|i]; [lia|]. simpl. rewrite IH. done.
Qed.

Lemma sorted_pred ks :
  Forall (fun i => 1 <= i)%nat ks -> StronglySorted lt ks -> StronglySorted lt (pred <$> ks).
Proof.
  intros H1 Hs. induction Hs as [|i ks Hs IH Hi]; [constructor|]. apply Forall_cons in H1 as [H1 H2]. simpl. constructor; [auto|].
  apply Forall_fmap, Forall_forall. intros j Hj. simpl. rewrite Forall_forall in Hi, H2. specialize (Hi j Hj). specialize (H2 j Hj). lia.
Qed.

Lemma pick_sublist (l : list A) ks :
  StronglySorted lt ks -> Forall (fun i => i < length l)%nat ks ->
  exists out, mapM (l !!.) ks = Some out /\ out `sublist_of` l.
Proof.
  revert ks. induction l as [|x l IH]; intros ks Hs Hb.
  { destruct ks as [|i ks]; [by exists []|]. apply Forall_cons in Hb as [Hb _]. simpl in Hb. lia. }
  assert (Hrest : forall ks, Forall (fun i => 1 <= i)%nat ks -> StronglySorted lt ks -> Forall (fun i => i < length (x :: l))%nat ks ->
    exists out, mapM ((x :: l) !!.) ks = Some out /\ out `sublist_of` l).
  { intros js H1 H2 H3. rewrite (mapM_shift x l js H1). apply IH; [by apply sorted_pred|].
    apply Forall_fmap, Forall_forall. intros j Hj. simpl. rewrite Forall_forall in H1, H3.
    specialize (H1 j Hj). specialize (H3 j Hj). simpl in H3. lia. }
  destruct ks as [|i ks]; [by exists []; split; [|apply sublist_nil_l]|].
  pose proof Hs as Hs'. apply StronglySorted_inv in Hs' as [Hs1 Hs2]. pose proof Hb as [Hb1 Hb2]%Forall_cons.
  destruct i as [|i].
  - destruct (Hrest ks) as (out & Eo & Hout); [|done|done|].
    { eapply Forall_impl; [exact Hs2|]. intros j. simpl. lia. }
    exists (x :: out). split; [|by constructor]. simpl. by rewrite Eo.
  - destruct (Hrest (S i :: ks)) as (out & Eo & Hout); [|done|done|].
    { constructor; [lia|]. eapply Forall_impl; [exact Hs2|]. intros j. simpl. lia. }
    exists out. split; [done|]. by constructor.
Qed.

End pick.

(** ** Decimation *)

Definition pointIndex (n limit i : Z) : nat := Z.to_nat (i * (n - 1) / (limit - 1)).

Lemma pointIndex_mono n limit i j :
  2 <= limit < n -> 0 <= i < j -> (pointIndex n limit i < pointIndex n limit j)%nat.
Proof.
  intros Hn Hij. unfold pointIndex.
  assert (i * (n - 1) / (limit - 1) + 1 <= j * (n - 1) / (limit - 1)).
  { apply Z.div_le_lower_bound; [lia|].
    pose proof (Z.mul_div_le (i * (n - 1)) (limit - 1) ltac:(lia)). nia. }
  pose proof (Z.div_pos (i * (n - 1)) (limit - 1) ltac:(nia) ltac:(lia)). lia.
Qed.

Lemma decimate_points {A} (all : list A) limit :
  let n := Z.of_nat (length all) in
  2 <= limit < n -> n <= 2 ^ 31 ->
  DecimateSamples all limit = mapM (all !!.) ((fun i => pointIndex n limit (Z.of_nat i)) <$> seq 0 (Z.to_nat limit)).
Proof.
  intros n Hl Hn. unfold DecimateSamples. fold n.
  destruct (Z.leb_spec limit 0), (Z.leb_spec n limit), (Z.eqb_spec limit 1); try lia. simpl.
  unfold seqZ.
  assert (Hidx : forall k, (k < Z.to_nat limit)%nat ->
    go_index all (Z.quot (int64 (Z.of_nat k * (n -! 1))) (limit -! 1)) = all !! pointIndex n limit (Z.of_nat k)).
  { intros k Hk. change (2 ^ 31) with 2147483648 in Hn.
    assert (0 <= Z.of_nat k * (n - 1) <= 2147483648 * 2147483648) by nia.
    rewrite !int64_id by (rewrite ?int64_id; unfold in_int64, int64_min, int64_max; lia).
    rewrite Z.quot_div_nonneg by lia. unfold go_index, pointIndex.
    pose proof (Z.div_pos (Z.of_nat k * (n - 1)) (limit - 1) ltac:(nia) ltac:(lia)).
    destruct (Z.ltb_spec (Z.of_nat k * (n - 1) / (limit - 1)) 0); [lia|done]. }
  assert (Hgo : forall a len, (a + len <= Z.to_nat limit)%nat ->
    mapM (fun i => go_index all (Z.quot (int64 (i * (n -! 1))) (limit -! 1))) ((fun k => Z.of_nat k + 0) <$> seq a len)
    = mapM (all !!.) ((fun k => pointIndex n limit (Z.of_nat k)) <$> seq a len)).
  { intros a len. revert a. induction len as [|len IH]; intros a Ha; [done|]. simpl.
    rewrite Z.add_0_r, Hidx by lia. rewrite IH by lia. done. }
  apply Hgo. lia.
Qed.

(** Decimation keeps what a plot needs and never panics.  It returns the samples
    themselves when they are few enough or no limit is set; otherwise exactly [limit] of
    them, in order and each at most once, the newest always among them and the oldest
    too unless only one is wanted. *)
Theorem decimation_exact {A} (all : list A) limit :
  Z.of_nat (length all) <= 2 ^ 31 ->
  exists out, DecimateSamples all limit = Some out /\ out `sublist_of` all /\
    (limit <= 0 \/ Z.of_nat (length all) <= limit -> out = all) /\
    (0 < limit -> Z.of_nat (length out) = Z.min (Z.of_nat (length all)) limit) /\
    last out = last all /\ (limit <> 1 -> head out = head all).
Proof.
  intros Hn. destruct (decide (limit <= 0 \/ Z.of_nat (length all) <= limit)) as [Hall|Hlim].
  { exists all. split_and!; try done; [|lia]. unfold DecimateSamples.
    destruct (Z.leb_spec limit 0), (Z.leb_spec (Z.of_nat (length all)) limit); try lia; done. }
  assert (Hne : exists all' x, all = all' ++ [x]) by (destruct all as [|y ys] using rev_ind; [simpl in *; lia|by eexists _, _]).
  destruct (decide (limit = 1)) as [->|H1].
  { destruct Hne as (all' & x & ->). exists [x]. unfold DecimateSamples. rewrite length_app in *. simpl length in *.
    destruct (Z.leb_spec (Z.of_nat (length all' + 1)) 1); [lia|]. simpl.
    rewrite int64_id by (unfold in_int64, int64_min, int64_max; lia). unfold go_index.
    destruct (Z.ltb_spec (Z.of_nat (length all' + 1) - 1) 0); [lia|].
    replace (Z.to_nat (Z.of_nat (length all' + 1) - 1)) with (length all') by lia.
    rewrite list_lookup_middle by done. split_and!; try done; [by apply sublist_inserts_l|lia..|by rewrite last_snoc]. }
  set (n := Z.of_nat (length all)) in *. assert (Hl : 2 <= limit < n) by lia.
  rewrite (decimate_points all limit Hl Hn). set (points := _ <$> seq 0 (Z.to_nat limit)).
  assert (Hlast : pointIndex n limit (limit - 1) = Z.to_nat (n - 1)).
  { unfold pointIndex. rewrite Z.mul_comm, Z.div_mul by lia. done. }
  assert (Hp : forall k, (k < Z.to_nat limit)%nat -> points !! k = Some (pointIndex n limit (Z.of_nat k))).
  { intros k Hk. unfold points. rewrite list_lookup_fmap, lookup_seq_lt by lia. done. }
  destruct (pick_sublist all points) as (out & Eo & Hsub).
  - apply sorted_map_seq. intros i j ? ? ?. apply pointIndex_mono; lia.
  - apply Forall_fmap, Forall_forall. intros k Hk%elem_of_seq. unfold compose. fold n.
    destruct (decide (Z.of_nat k = limit - 1)) as [E|]; [rewrite E, Hlast; lia|].
    pose proof (pointIndex_mono n limit (Z.of_nat k) (limit - 1) Hl ltac:(lia)). lia.
  - pose proof (mapM_Some_1 _ _ _ Eo) as HF. pose proof (Forall2_length _ _ _ HF) as Hlen.
    assert (Hlen' : length out = Z.to_nat limit) by (rewrite <- Hlen; unfold points; by rewrite length_fmap, length_seq).
    assert (Hat : forall k, (k < Z.to_nat limit)%nat -> out !! k = all !! pointIndex n limit (Z.of_nat k)).
    { intros k Hk. destruct (lookup_lt_is_Some_2 out k ltac:(lia)) as [y Hy]. rewrite Hy. symmetry.
      exact (Forall2_lookup_lr _ _ _ _ _ _ HF (Hp k Hk) Hy). }
    exists out. split_and!; [done|done|lia|lia| |intros _].
    + rewrite !last_lookup, Hlen', Hat by lia. f_equal.
      replace (Z.of_nat (pred (Z.to_nat limit))) with (limit - 1) by lia. rewrite Hlast. lia.
    + by rewrite !head_lookup, Hat by lia.
Qed.

(** ** Reduction *)

Section lossless.
Context (gap : duration).

(** The state changes, or the observer was away, between two samples. *)
Definition broken (a b : ServerAvailabilitySample) : Prop :=
  AvailabilityStateKey a <> AvailabilityStateKey b \/ farApart gap a b = true.

(** The samples as the reduction reads them. *)
Definition flagged (all : list ServerAvailabilitySample) : list ServerAvailabilitySample :=
  match all with [] => [] | first :: rest => first :: flagGaps gap first rest end.

(** The positions kept of the samples after [prev], the first of which is at [k]. *)
Fixpoint keptFrom (k : nat) (prev : ServerAvailabilitySample) (l : list ServerAvailabilitySample) : list nat :=
  match l with
  | [] => []
  | [_] => [k]
  | s :: (next :: _) as l' => if boundary gap prev s next then k :: keptFrom (S k) s l' else keptFrom (S k) s l'
  end.

Lemma keptFrom_cons k prev s next l :
  keptFrom k prev (s :: next :: l) =
    if boundary gap prev s next then k :: keptFrom (S k) s (next :: l) else keptFrom (S k) s (next :: l).
Proof. done. Qed.

Lemma keptFrom_pick pre prev l :
  mapM ((pre ++ l) !!.) (keptFrom (length pre) prev l) = Some (keepBoundaries gap prev l).
Proof.
  revert pre prev. induction l as [|s l IH]; intros pre prev; [done|].
  assert (Hs : (pre ++ s :: l) !! length pre = Some s) by (by rewrite list_lookup_middle).
  destruct l as [|next l].
  { cbn [keptFrom keepBoundaries mapM]. by rewrite Hs. }
  specialize (IH (pre ++ [s]) s). rewrite <- app_assoc, length_app, Nat.add_1_r in IH. simpl app in IH.
  cbn [keptFrom keepBoundaries]. destruct (boundary gap prev s next); [|exact IH].
  change (((pre ++ s :: next :: l) !! length pre) ≫= (fun y =>
    mapM ((pre ++ s :: next :: l) !!.) (keptFrom (S (length pre)) s (next :: l)) ≫= fun k => Some (y :: k))
    = Some (s :: keepBoundaries gap s (next :: l))).
  by rewrite Hs, IH.
Qed.

Lemma keptFrom_range k prev l j : j ∈ keptFrom k prev l -> (k <= j < k + length l)%nat.
Proof.
  revert k prev. induction l as [|s l IH]; intros k prev; [by intros ?%elem_of_nil|].
  destruct l as [|next l]; [intros ->%list_elem_of_singleton; simpl; lia|]. rewrite keptFrom_cons. intros Hj.
  assert (Hcase : j = k \/ j ∈ keptFrom (S k) s (next :: l)).
  { destruct (boundary gap prev s next); [by apply elem_of_cons in Hj|by right]. }
  destruct Hcase as [->|Hin]; [simpl; lia|]. apply IH in Hin. simpl in *. lia.
Qed.

Lemma keptFrom_sorted k prev l : StronglySorted lt (keptFrom k prev l).
Proof.
  revert k prev. induction l as [|s l IH]; intros k prev; [constructor|].
  destruct l as [|next l]; [by constructor; constructor|]. rewrite keptFrom_cons.
  destruct (boundary gap prev s next); [|apply IH]. constructor; [apply IH|].
  apply Forall_forall. intros j Hj%keptFrom_range. lia.
Qed.

Lemma keptFrom_last k prev l : l <> [] -> (k + pred (length l))%nat ∈ keptFrom k prev l.
Proof.
  revert k prev. induction l as [|s l IH]; intros k prev Hne; [done|].
  destruct l as [|next l]; [simpl; rewrite Nat.add_0_r; left|]. rewrite keptFrom_cons.
  specialize (IH (S k) s ltac:(done)).
  replace (k + pred (length (s :: next :: l)))%nat with (S k + pred (length (next :: l)))%nat by (simpl; lia).
  destruct (boundary gap prev s next); [by right|done].
Qed.

Lemma boundary_broken prev s next : broken prev s \/ broken s next -> boundary gap prev s next = true.
Proof.
  unfold broken, boundary. rewrite !orb_true_iff, !negb_true_iff, !String.eqb_neq. naive_solver.
Qed.

(** Both sides of a break are kept. *)
Lemma keptFrom_breaks k prev l i a b :
  (prev :: l) !! i = Some a -> (prev :: l) !! S i = Some b -> broken a b ->
  (i = 0%nat \/ (k + pred i)%nat ∈ keptFrom k prev l) /\ (k + i)%nat ∈ keptFrom k prev l.
Proof.
  revert k prev i. induction l as [|s l IH]; intros k prev i Ha Hb Hbr; [done|].
  destruct l as [|next l].
  { destruct i as [|i]; [|done]. split; [by left|]. simpl. rewrite Nat.add_0_r. left. }
  rewrite keptFrom_cons. destruct i as [|i].
  - injection Ha as ->. injection Hb as ->. rewrite (boundary_broken a b next) by auto.
    split; [by left|]. rewrite Nat.add_0_r. left.
  - destruct (IH (S k) s i Ha Hb Hbr) as [Hleft Hright].
    replace (k + S i)%nat with (S k + i)%nat by lia.
    assert (Hk : (S k + i)%nat ∈ (if boundary gap prev s next then k :: keptFrom (S k) s (next :: l) else keptFrom (S k) s (next :: l))).
    { destruct (boundary gap prev s next); [by right|done]. }
    split; [|done]. right. simpl pred. destruct Hleft as [->|Hleft].
    + injection Ha as ->. injection Hb as ->. rewrite (boundary_broken prev a b) by auto. rewrite Nat.add_0_r. left.
    + destruct i as [|i]; [injection Ha as ->; injection Hb as ->; rewrite (boundary_broken prev a b) by auto; rewrite Nat.add_0_r; left|].
      simpl pred in Hleft. replace (k + S i)%nat with (S k + i)%nat by lia.
      destruct (boundary gap prev s next); [by right|done].
Qed.

(** What a sequence of kept positions must hold to lose nothing. *)
Record lossless (l : list ServerAvailabilitySample) (ks : list nat) : Prop := {
  ll_sorted : StronglySorted lt ks;
  ll_ends : l <> [] -> 0%nat ∈ ks /\ pred (length l) ∈ ks;
  ll_breaks i a b : l !! i = Some a -> l !! S i = Some b -> broken a b -> i ∈ ks /\ S i ∈ ks
}.

(** Every sample's state is that of the kept one before it, with no break in between. *)
Lemma lossless_recovers l ks i x :
  lossless l ks -> l !! i = Some x ->
  exists j a, (j <= i)%nat /\ j ∈ ks /\ l !! j = Some a /\ AvailabilityStateKey a = AvailabilityStateKey x /\
    forall m y z, (j <= m < i)%nat -> l !! m = Some y -> l !! S m = Some z -> ~ broken y z.
Proof.
  intros [_ Hends Hbr]. revert x. induction i as [|i IH]; intros x Hx.
  - exists 0%nat, x. destruct l as [|x0 l]; [done|]. destruct (Hends ltac:(done)) as [H0 _]. split_and!; [lia|done..|]. lia.
  - destruct (decide (S i ∈ ks)) as [Hin|Hnin].
    { exists (S i), x. split_and!; [lia|done..|]. lia. }
    destruct (lookup_lt_is_Some_2 l i) as [y Hy]; [apply lookup_lt_Some in Hx; lia|].
    assert (Hnb : ~ broken y x). { intros Hb. by destruct (Hbr i y x Hy Hx Hb). }
    destruct (IH y Hy) as (j & a & Hj & Hjk & Ha & Hs & Hm). exists j, a. split_and!; [lia|done|done| |].
    + rewrite Hs. destruct (decide (AvailabilityStateKey y = AvailabilityStateKey x)); [done|].
      destruct Hnb. by left.
    + intros m y' z' Hmi Hy' Hz'. destruct (decide (m = i)) as [->|]; [|apply (Hm m); [lia|done..]].
      rewrite Hy in Hy'. rewrite Hx in Hz'. by simplify_eq.
Qed.

Lemma flagGaps_length prev l : length (flagGaps gap prev l) = length l.
Proof. revert prev. induction l as [|s l IH]; intros prev; [done|]. simpl. by rewrite IH. Qed.

(** The availability history loses nothing that matters.  The reduction keeps samples
    in order, the oldest and the newest among them, and both sides of every change of
    state and of every gap in the observation; so the state at every sample is that of
    the kept one before it, and no gap is bridged.  Only a positive limit that is still
    exceeded drops more, by even decimation. *)
Theorem reduction_lossless all limit :
  exists full ks, mapM (flagged all !!.) ks = Some full /\ lossless (flagged all) ks /\
    (forall i x, flagged all !! i = Some x ->
       exists j a, (j <= i)%nat /\ j ∈ ks /\ flagged all !! j = Some a /\ AvailabilityStateKey a = AvailabilityStateKey x /\
         forall m y z, (j <= m < i)%nat -> flagged all !! m = Some y -> flagged all !! S m = Some z -> ~ broken y z) /\
    ReduceAvailabilitySamples gap all limit =
      if (0 <? limit) && (2 <? Z.of_nat (length all)) && (limit <? Z.of_nat (length full))
      then DecimateAvailabilitySamples full limit else Some full.
Proof.
  assert (Hlen : length (flagged all) = length all) by (destruct all; simpl; [done|by rewrite flagGaps_length]).
  assert (Hred : ReduceAvailabilitySamples gap all limit =
    match flagged all with
    | first :: (_ :: _ :: _) as rest =>
        let out := first :: keepBoundaries gap first rest in
        if (0 <? limit) && (limit <? Z.of_nat (length out)) then DecimateAvailabilitySamples out limit else Some out
    | l => Some l
    end) by (by destruct all as [|x [|y [|z l]]]).
  assert (Hsmall : (length (flagged all) <= 2)%nat ->
    lossless (flagged all) (seq 0 (length (flagged all))) /\ mapM (flagged all !!.) (seq 0 (length (flagged all))) = Some (flagged all)).
  { destruct (flagged all) as [|a [|b [|]]]; simpl; intros Hl; try lia; (split; [|done]).
    - split; [constructor|done|done].
    - split; [by repeat constructor|intros _; split; left|]. intros [|i] ? ? ? ?; done.
    - split; [repeat (constructor; try lia); by constructor|intros _; split; set_solver|].
      intros [|[|i]] ? ? ? ? _; simpl in *; simplify_eq; set_solver. }
  destruct (decide (length (flagged all) <= 2)%nat) as [Hl|Hl].
  - destruct (Hsmall Hl) as [Hll Hm]. exists (flagged all), (seq 0 (length (flagged all))). split_and!; [done|done| |].
    + intros i x. by apply lossless_recovers.
    + rewrite Hred. rewrite Hlen in Hl. destruct (Z.ltb_spec 2 (Z.of_nat (length all))); [lia|]. rewrite andb_false_r.
      rewrite <- Hlen in Hl. destruct (flagged all) as [|a [|b [|]]]; simpl in Hl; (done || lia).
  - rewrite Hred. destruct (flagged all) as [|first rest] eqn:Ef; [simpl in Hl; lia|].
    exists (first :: keepBoundaries gap first rest), (0%nat :: keptFrom 1 first rest).
    assert (Hrest : rest <> []) by (destruct rest; simpl in Hl; [lia|done]).
    assert (Hll : lossless (first :: rest) (0%nat :: keptFrom 1 first rest)).
    { split.
      - constructor; [apply keptFrom_sorted|]. apply Forall_forall. intros j Hj%keptFrom_range. lia.
      - intros _. split; [left|]. right. pose proof (keptFrom_last 1 first rest Hrest) as Hk.
        replace (pred (length (first :: rest))) with (1 + pred (length rest))%nat; [done|]. destruct rest; [done|simpl; lia].
      - intros i a b Ha Hb Hbr. destruct (keptFrom_breaks 1 first rest i a b Ha Hb Hbr) as [Hi HS]. split; [|by right].
        destruct i as [|i]; [left|]. destruct Hi as [?|Hi]; [done|]. right. exact Hi. }
    split_and!.
    + pose proof (keptFrom_pick [first] first rest) as Hp. simpl in Hp. simpl. by rewrite Hp.
    + done.
    + intros i x. by apply lossless_recovers.
    + destruct (Z.ltb_spec 2 (Z.of_nat (length all))); [|simpl in *; lia]. rewrite andb_true_r.
      destruct rest as [|b [|c rest]]; [done|simpl in Hl; lia|done].
Qed.

End lossless.

Lemma decimation_exact_witness :
  DecimateSamples [10; 20; 30; 40; 50; 60] 4 = Some [10; 20; 40; 60] /\
  exists out, DecimateSamples [10; 20; 30; 40; 50; 60] 4 = Some out /\ Z.of_nat (length out) = 4.
Proof.
  split; [vm_compute; reflexivity|].
  destruct (decimation_exact [10; 20; 30; 40; 50; 60] 4 ltac:(vm_compute; discriminate)) as (out & H1 & _ & _ & H2 & _).
  exists out. split; [exact H1|]. rewrite H2; [vm_compute; reflexivity|lia].
Defined.
