(* ===== verification/LogBuffer.v ===== *)
(** * The log buffer

    Models [gateway/backend/internal/logbuffer/logbuffer.go]: the ring of recent records
    with its live level, and the fan-out to subscribers.  A subscriber is the snapshot it
    was given, the records its channel took (capacity [logSubBuffer]) and those it has
    read; a send to a full channel is dropped.

    [Append] registers the record under the lock and sends it outside it, to the
    subscribers of that moment; the two are separate steps of an execution ([step]), so
    appends may overtake each other on their way to a subscriber.  A nil buffer, whose
    methods do nothing, and the slog handler around the ring are not modelled.

    Main results: the ring is the last records appended ([ring_is_suffix]); a subscriber
    misses nothing between its snapshot and its channel and is sent nothing twice
    ([subscriber_sees_all]). *)

From Stdlib Require Import ZArith Lia.
From stdpp Require Import base tactics option list numbers strings gmap sets.
From S2P Require Import Prelude.
Local Open Scope Z_scope.
Local Open Scope go_scope.

(** ** Levels *)

Definition LevelDebug : Z := -4.
Definition LevelInfo : Z := 0.
Definition LevelWarn : Z := 4.
Definition LevelError : Z := 8.
Definition LevelTrace : Z := LevelDebug - 4.

Definition ParseLevel `{Unicode} (s : string) : Z :=
  let s := strings_ToLower (strings_TrimSpace s) in
  if String.eqb s "trace" then LevelTrace
  else if String.eqb s "debug" then LevelDebug
  else if String.eqb s "warn" then LevelWarn
  else if String.eqb s "error" then LevelError
  else LevelInfo.

Definition LevelString (l : Z) : string :=
  if l <? LevelDebug then "trace"
  else if l <? LevelInfo then "debug"
  else if l <? LevelWarn then "info"
  else if l <? LevelError then "warn"
  else "error".

(** The level a string names, and the name a level has, agree up to the band a level is in. *)
Lemma ParseLevel_LevelString `{Unicode} l :
  LevelString (ParseLevel (LevelString l)) = LevelString l /\
  (l ∈ [LevelTrace; LevelDebug; LevelInfo; LevelWarn; LevelError] -> ParseLevel (LevelString l) = l).
Proof.
  split.
  - unfold LevelString at 2 3. repeat (destruct (_ <? _)); done.
  - intros Hl. repeat (apply elem_of_cons in Hl as [->|Hl]; [done|]). by apply elem_of_nil in Hl.
Qed.

(** ** The ring *)

Section buffer.
Context {R : Type}.

Record Buffer := mkBuffer {
  b_ring : list R;
  b_cap : nat;
  b_subs : gset nat;                   (* the channels subscribed *)
  b_lvl : Z
}.

Definition logSubBuffer : nat := 256.

Definition NewBuffer (capacity : Z) (initial : Z) : Buffer :=
  mkBuffer [] (Z.to_nat (if capacity <=? 0 then 1 else capacity)) ∅ initial.

(** The last [n] elements. *)
Definition lastn (n : nat) (l : list R) : list R := drop (length l - n) l.

(** The critical section of [Append]: the new ring and the channels to send to. *)
Definition Append (rec : R) (b : Buffer) : Buffer * list nat :=
  let ring := b_ring b ++ [rec] in
  let ring := if (b_cap b <? length ring)%nat then drop (length ring - b_cap b) ring else ring in
  (mkBuffer ring (b_cap b) (b_subs b) (b_lvl b), elements (b_subs b)).

Definition Snapshot (b : Buffer) : list R := b_ring b.

Definition Subscribe (ch : nat) (b : Buffer) : list R * Buffer :=
  (b_ring b, mkBuffer (b_ring b) (b_cap b) ({[ch]} ∪ b_subs b) (b_lvl b)).

Definition unsub (ch : nat) (b : Buffer) : Buffer := mkBuffer (b_ring b) (b_cap b) (b_subs b ∖ {[ch]}) (b_lvl b).

Definition Level (b : Buffer) : Z := b_lvl b.
Definition SetLevel (l : Z) (b : Buffer) : Buffer := mkBuffer (b_ring b) (b_cap b) (b_subs b) l.

(** [logWriter.Write], whose record is appended when Info passes the level. *)
Definition Write (rec : R) (b : Buffer) : Buffer * list nat :=
  if Level b <=? LevelInfo then Append rec b else (b, []).

(** ** Executions *)

(** A subscriber's channel, and its books: the snapshot, how much was logged when it
    subscribed and when it left, what was read from it and what found it full. *)
Record chan := mkChan {
  ch_buffered : list R;
  ch_snapshot : list R;
  ch_from : nat;
  ch_until : option nat;
  ch_read : list R;
  ch_dropped : list R
}.

Record state := mkState {
  s_buffer : Buffer;
  s_chans : gmap nat chan;
  s_sends : list (R * nat);            (* sends under way *)
  s_log : list R                       (* everything appended *)
}.

Inductive event :=
| Log (rec : R)
| Legacy (rec : R)                     (* through the log writer *)
| Send (i : nat)                       (* the i-th send under way happens *)
| Join (ch : nat)
| Leave (ch : nat)
| Receive (ch : nat)
| Adjust (l : Z).

Definition append (rec : R) (x : Buffer * list nat) (s : state) : state :=
  mkState x.1 (s_chans s) (s_sends s ++ ((fun ch => (rec, ch)) <$> x.2)) (s_log s ++ [rec]).

Definition deliver (rec : R) (c : chan) : chan :=
  if (length (ch_buffered c) <? logSubBuffer)%nat
  then mkChan (ch_buffered c ++ [rec]) (ch_snapshot c) (ch_from c) (ch_until c) (ch_read c) (ch_dropped c)
  else mkChan (ch_buffered c) (ch_snapshot c) (ch_from c) (ch_until c) (ch_read c) (ch_dropped c ++ [rec]).

Definition step (e : event) (s : state) : state :=
  match e with
  | Log rec => append rec (Append rec (s_buffer s)) s
  | Legacy rec => if Level (s_buffer s) <=? LevelInfo then append rec (Write rec (s_buffer s)) s else s
  | Send i =>
      match s_sends s !! i with
      | Some (rec, ch) =>
          mkState (s_buffer s) (alter (deliver rec) ch (s_chans s)) (delete i (s_sends s)) (s_log s)
      | None => s
      end
  | Join ch =>
      match s_chans s !! ch with
      | Some _ => s                                   (* a channel is made once *)
      | None =>
          let '(snapshot, b) := Subscribe ch (s_buffer s) in
          mkState b (<[ch := mkChan [] snapshot (length (s_log s)) None [] []]> (s_chans s)) (s_sends s) (s_log s)
      end
  | Leave ch =>
      mkState (unsub ch (s_buffer s))
        (alter (fun c => mkChan (ch_buffered c) (ch_snapshot c) (ch_from c)
           (Some (default (length (s_log s)) (ch_until c))) (ch_read c) (ch_dropped c)) ch (s_chans s))
        (s_sends s) (s_log s)
  | Receive ch =>
      mkState (s_buffer s)
        (alter (fun c => match ch_buffered c with
           | [] => c
           | rec :: l => mkChan l (ch_snapshot c) (ch_from c) (ch_until c) (ch_read c ++ [rec]) (ch_dropped c)
           end) ch (s_chans s))
        (s_sends s) (s_log s)
  | Adjust l => mkState (SetLevel l (s_buffer s)) (s_chans s) (s_sends s) (s_log s)
  end.

Definition execute (capacity initial : Z) (events : list event) : state :=
  foldl (fun s e => step e s) (mkState (NewBuffer capacity initial) ∅ [] []) events.

(** ** The ring holds the newest records *)

Lemma lastn_snoc n l x : (0 < n)%nat -> lastn n (lastn n l ++ [x]) = lastn n (l ++ [x]).
Proof.
  intros Hn. unfold lastn. rewrite !length_app, length_drop. simpl.
  destruct (decide (length l <= n)%nat) as [Hl|Hl].
  - replace (length l - n)%nat with 0%nat by lia. rewrite drop_0. do 2 f_equal. lia.
  - replace (length l - (length l - n) + 1 - n)%nat with 1%nat by lia.
    rewrite !drop_app_le by (rewrite ?length_drop; lia). rewrite drop_drop. do 2 f_equal. lia.
Qed.

Lemma Append_ring rec b : (0 < b_cap b)%nat -> b_ring (Append rec b).1 = lastn (b_cap b) (b_ring b ++ [rec]).
Proof.
  intros Hc. unfold Append, lastn. simpl. destruct (Nat.ltb_spec (b_cap b) (length (b_ring b ++ [rec]))) as [H|H]; [done|].
  by replace (length (b_ring b ++ [rec]) - b_cap b)%nat with 0%nat by lia.
Qed.

(** What a subscriber's books say. *)
Definition accounted (cap : nat) (log : list R) (sends : list (R * nat)) (ch : nat) (c : chan) : Prop :=
  (ch_from c <= default (length log) (ch_until c) <= length log)%nat /\
  ch_snapshot c = lastn cap (take (ch_from c) log) /\
  (length (ch_buffered c) <= logSubBuffer)%nat /\
  ch_read c ++ ch_buffered c ++ ch_dropped c ++ (fst <$> List.filter (fun p => (p.2 =? ch)%nat) sends)
    ≡ₚ drop (ch_from c) (take (default (length log) (ch_until c)) log).

Record Inv (cap : nat) (s : state) : Prop := {
  inv_cap : b_cap (s_buffer s) = cap;
  inv_pos : (0 < cap)%nat;
  inv_ring : b_ring (s_buffer s) = lastn cap (s_log s);
  inv_subs ch : ch ∈ b_subs (s_buffer s) <-> exists c, s_chans s !! ch = Some c /\ ch_until c = None;
  inv_sends p : p ∈ s_sends s -> is_Some (s_chans s !! p.2);
  inv_books ch c : s_chans s !! ch = Some c -> accounted cap (s_log s) (s_sends s) ch c
}.

(** ** Every step keeps the books *)

Lemma sends_to rec ch l :
  NoDup l -> List.filter (fun p : R * nat => (p.2 =? ch)%nat) ((fun c => (rec, c)) <$> l) =
    if bool_decide (ch ∈ l) then [(rec, ch)] else [].
Proof.
  induction 1 as [|c l Hc Hnd IH]; [done|]. rewrite fmap_cons. cbn [List.filter snd]. rewrite IH.
  destruct (Nat.eqb_spec c ch) as [->|Hne].
  - rewrite bool_decide_eq_false_2 by done. by rewrite bool_decide_eq_true_2 by left.
  - do 2 case_bool_decide; set_solver.
Qed.

Lemma perm_deliver (a b c p q : list R) x : a ++ (b ++ [x]) ++ c ++ p ++ q ≡ₚ a ++ b ++ c ++ p ++ x :: q.
Proof. rewrite <- (app_assoc b). simpl. by rewrite <- !Permutation_middle. Qed.

Lemma perm_drop (a b c p q : list R) x : a ++ b ++ (c ++ [x]) ++ p ++ q ≡ₚ a ++ b ++ c ++ p ++ x :: q.
Proof. rewrite <- (app_assoc c). simpl. by rewrite <- !Permutation_middle. Qed.

Lemma accounted_append cap log sends ch c rec (targets : list nat) :
  NoDup targets -> (ch ∈ targets <-> ch_until c = None) ->
  accounted cap log sends ch c ->
  accounted cap (log ++ [rec]) (sends ++ ((fun t => (rec, t)) <$> targets)) ch c.
Proof.
  intros Hnd Ht (Hr & Hs & Hb & Hp). unfold accounted. rewrite length_app, List.filter_app, (sends_to rec ch targets Hnd), fmap_app. simpl length.
  destruct (ch_until c) as [u|] eqn:Eu; simpl in *.
  - rewrite (bool_decide_eq_false_2 (ch ∈ targets)) by (intros Hin%Ht; done).
    rewrite !take_app_le by lia. simpl. rewrite app_nil_r. by split_and!; try lia.
  - rewrite (bool_decide_eq_true_2 (ch ∈ targets)) by (by apply Ht).
    rewrite (take_ge log) in Hp by lia. rewrite (take_ge (log ++ [rec]) (length log + 1)) by (rewrite length_app; simpl; lia).
    rewrite (take_app_le log [rec] (ch_from c)), drop_app_le by lia. simpl. split_and!; try done; try lia.
    rewrite !app_assoc. f_equiv. by rewrite <- !app_assoc.
Qed.

Lemma append_inv cap rec s : Inv cap s -> Inv cap (append rec (Append rec (s_buffer s)) s).
Proof.
  intros [Hc Hpos Hring Hsubs Hsends Hbooks]. split; simpl; try done.
  - change (b_ring (Append rec (s_buffer s)).1 = lastn cap (s_log s ++ [rec])).
    rewrite Append_ring by lia. by rewrite Hc, Hring, lastn_snoc.
  - intros p [Hp|Hp]%elem_of_app; [by apply Hsends|]. apply list_elem_of_fmap in Hp as (ch & -> & Hch%elem_of_elements).
    apply Hsubs in Hch as (c & Hcc & _). by exists c.
  - intros ch c Hcc. apply accounted_append; [apply NoDup_elements| |by apply Hbooks].
    rewrite elem_of_elements, Hsubs, Hcc. naive_solver.
Qed.

Lemma send_inv cap i s : Inv cap s -> Inv cap (step (Send i) s).
Proof.
  intros [Hc Hpos Hring Hsubs Hsends Hbooks]. simpl. destruct (s_sends s !! i) as [[rec ch]|] eqn:Es; [|by split].
  apply list_elem_of_split_length in Es as (l1 & l2 & El & ->).
  assert (Edel : delete (length l1) (s_sends s) = l1 ++ l2) by (by rewrite El, delete_middle).
  assert (Hlook : forall ch', alter (deliver rec) ch (s_chans s) !! ch' = if decide (ch' = ch) then deliver rec <$> s_chans s !! ch' else s_chans s !! ch').
  { intros ch'. destruct (decide (ch' = ch)) as [->|Hne]; [by rewrite lookup_alter_eq|by rewrite lookup_alter_ne]. }
  rewrite Edel. split; simpl; try done.
  - intros ch'. rewrite Hsubs, Hlook. destruct (decide (ch' = ch)) as [->|]; [|done].
    unfold deliver. destruct (s_chans s !! ch) as [c|]; simpl; [|done].
    destruct (_ <? _)%nat; split; intros (c0 & [= <-] & Hu); eauto.
  - intros p Hp. rewrite Hlook. destruct (decide (p.2 = ch)) as [->|].
    + apply fmap_is_Some. apply (Hsends (rec, ch)). rewrite El. set_solver.
    + apply Hsends. rewrite El. set_solver.
  - intros ch' c' Hc'. rewrite Hlook in Hc'. destruct (decide (ch' = ch)) as [->|Hne].
    + destruct (s_chans s !! ch) as [c|] eqn:Ec; [|done]. injection Hc' as <-. destruct (Hbooks ch c Ec) as (H1 & H2 & H3 & H4).
      rewrite El, List.filter_app in H4. cbn [List.filter snd] in H4. rewrite Nat.eqb_refl, fmap_app in H4. simpl in H4.
      unfold deliver. destruct (Nat.ltb_spec (length (ch_buffered c)) logSubBuffer) as [Hlt|Hge]; unfold accounted; simpl;
        rewrite List.filter_app, fmap_app; split_and!; try done; try lia.
      * rewrite length_app. simpl. lia.
      * by rewrite perm_deliver.
      * by rewrite perm_drop.
    + destruct (Hbooks ch' c' Hc') as (H1 & H2 & H3 & H4). rewrite El, List.filter_app in H4. cbn [List.filter snd] in H4.
      rewrite (proj2 (Nat.eqb_neq ch ch')) in H4 by done. unfold accounted. rewrite List.filter_app. split_and!; try done; lia.
Qed.


(** Steps that change one channel's books and nothing else of the others'. *)
Lemma alter_books (f : chan -> chan) ch (m : gmap nat chan) ch' c' :
  alter f ch m !! ch' = Some c' ->
  (ch' = ch /\ exists c, m !! ch = Some c /\ c' = f c) \/ (ch' <> ch /\ m !! ch' = Some c').
Proof. rewrite lookup_alter_Some. naive_solver. Qed.

Lemma join_inv cap ch s : Inv cap s -> Inv cap (step (Join ch) s).
Proof.
  intros HI. simpl. destruct (s_chans s !! ch) as [c|] eqn:Ec; [done|]. destruct HI as [Hc Hpos Hring Hsubs Hsends Hbooks].
  split; simpl; try done.
  - intros ch'. rewrite elem_of_union, elem_of_singleton, Hsubs. destruct (decide (ch' = ch)) as [->|Hne].
    + rewrite lookup_insert_eq. split; [|by left]. by eauto.
    + rewrite lookup_insert_ne by done. naive_solver.
  - intros p Hp. destruct (decide (p.2 = ch)) as [->|]; [by rewrite lookup_insert_eq|].
    rewrite lookup_insert_ne by done. by apply Hsends.
  - intros ch' c' [(<- & <-)|(Hne & Hc')]%lookup_insert_Some; [|by apply Hbooks].
    unfold accounted. simpl. rewrite take_ge, drop_all by lia. split_and!; try done; try lia.
    destruct (List.filter _ (s_sends s)) as [|p l] eqn:Ef; [done|].
    assert (Hp : In p (List.filter (fun p => (p.2 =? ch)%nat) (s_sends s))) by (rewrite Ef; by left).
    apply filter_In in Hp as (Hp & Heq%Nat.eqb_eq). apply list_elem_of_In, Hsends in Hp. rewrite Heq, Ec in Hp. by destruct Hp.
Qed.

Lemma leave_inv cap ch s : Inv cap s -> Inv cap (step (Leave ch) s).
Proof.
  intros [Hc Hpos Hring Hsubs Hsends Hbooks]. split; simpl; try done.
  - intros ch'. rewrite elem_of_difference, elem_of_singleton, Hsubs. split.
    + intros ((c & Hcc & Hu) & Hne). exists c. by rewrite lookup_alter_ne.
    + intros (c & [(-> & c0 & _ & ->)|(Hne & Hcc)]%alter_books & Hu); [done|]. split; [by exists c|done].
  - intros p Hp. rewrite lookup_alter_is_Some. by apply Hsends.
  - intros ch' c' [(-> & c & Hcc & ->)|(Hne & Hcc)]%alter_books; [|by apply Hbooks].
    destruct (Hbooks ch c Hcc) as (H1 & H2 & H3 & H4). unfold accounted. simpl. split_and!; try done; lia.
Qed.

Lemma receive_inv cap ch s : Inv cap s -> Inv cap (step (Receive ch) s).
Proof.
  intros [Hc Hpos Hring Hsubs Hsends Hbooks]. simpl. set (f := fun c : chan => _).
  assert (Hf : forall c, ch_until (f c) = ch_until c /\ ch_from (f c) = ch_from c /\ ch_snapshot (f c) = ch_snapshot c /\
      (length (ch_buffered (f c)) <= length (ch_buffered c))%nat /\
      ch_read (f c) ++ ch_buffered (f c) = ch_read c ++ ch_buffered c /\ ch_dropped (f c) = ch_dropped c).
  { intros c. unfold f. destruct (ch_buffered c) as [|rec l] eqn:El; simpl; [by rewrite El|].
    split_and!; try done; [lia|]. by rewrite <- app_assoc. }
  split; simpl; try done.
  - intros ch'. rewrite Hsubs. split.
    + intros (c & Hcc & Hu). destruct (decide (ch' = ch)) as [->|Hne].
      * exists (f c). rewrite lookup_alter_eq, Hcc. split; [done|]. by rewrite (proj1 (Hf c)).
      * exists c. by rewrite lookup_alter_ne.
    + intros (c & [(-> & c0 & Hcc & ->)|(Hne & Hcc)]%alter_books & Hu); [|by exists c].
      exists c0. split; [done|]. by rewrite (proj1 (Hf c0)) in Hu.
  - intros p Hp. rewrite lookup_alter_is_Some. by apply Hsends.
  - intros ch' c' [(-> & c & Hcc & ->)|(Hne & Hcc)]%alter_books; [|by apply Hbooks].
    destruct (Hbooks ch c Hcc) as (H1 & H2 & H3 & H4), (Hf c) as (E1 & E2 & E3 & E4 & E5 & E6).
    unfold accounted. rewrite E1, E2, E3, E6. split_and!; try done; try lia.
    rewrite app_assoc, E5, <- app_assoc. done.
Qed.

Lemma step_inv cap e s : Inv cap s -> Inv cap (step e s).
Proof.
  destruct e as [rec|rec|i|ch|ch|ch|l].
  - apply append_inv.
  - intros HI. simpl. unfold Write. destruct (_ <=? _); [by apply append_inv|done].
  - apply send_inv.
  - apply join_inv.
  - apply leave_inv.
  - apply receive_inv.
  - intros [Hc Hpos Hring Hsubs Hsends Hbooks]. by split.
Qed.

Definition capacityOf (capacity : Z) : nat := b_cap (NewBuffer capacity 0).

Lemma execute_inv capacity initial events : Inv (capacityOf capacity) (execute capacity initial events).
Proof.
  unfold execute. induction events as [|e events IH] using rev_ind.
  - split; simpl; try done; try set_solver.
    unfold capacityOf, NewBuffer. simpl. destruct (Z.leb_spec capacity 0); lia.
  - rewrite foldl_app. simpl. by apply step_inv.
Qed.

(** The ring is bounded and never loses a recent record: after any run of logging,
    subscribing, reading and level changes by any number of goroutines it holds exactly
    the newest records appended, [capacity] of them (one when the configured capacity is
    not positive), oldest first. *)
Theorem ring_is_suffix capacity initial events :
  let s := execute capacity initial events in
  let cap := Z.to_nat (Z.max 1 capacity) in
  Snapshot (s_buffer s) = drop (length (s_log s) - cap) (s_log s) /\
  length (Snapshot (s_buffer s)) = Nat.min cap (length (s_log s)).
Proof.
  simpl. assert (Ecap : capacityOf capacity = Z.to_nat (Z.max 1 capacity)).
  { unfold capacityOf, NewBuffer. simpl. destruct (Z.leb_spec capacity 0); f_equal; lia. }
  destruct (execute_inv capacity initial events) as [_ _ Hring _ _ _].
  unfold Snapshot. rewrite Hring, Ecap. unfold lastn. split; [done|]. rewrite length_drop. lia.
Qed.

(** A subscriber sees every record once.  Whatever the goroutines do, the snapshot a
    subscriber was given ends exactly where its channel begins: the records it has read,
    those waiting in its channel, those dropped because its channel was full and those
    whose send is still under way are together, each counted once, the records appended
    between its subscription and its leaving (or now), none of which is in the snapshot's
    part of the log; and its channel never holds more than [logSubBuffer]. *)
Theorem subscriber_sees_all capacity initial events ch c :
  let s := execute capacity initial events in
  s_chans s !! ch = Some c ->
  exists before during after, s_log s = before ++ during ++ after /\
    ch_snapshot c = drop (length before - Z.to_nat (Z.max 1 capacity)) before /\
    (ch_until c = None -> after = []) /\
    ch_read c ++ ch_buffered c ++ ch_dropped c ++ (fst <$> List.filter (fun p => (p.2 =? ch)%nat) (s_sends s)) ≡ₚ during /\
    (length (ch_buffered c) <= logSubBuffer)%nat.
Proof.
  simpl. intros Hc. assert (Ecap : capacityOf capacity = Z.to_nat (Z.max 1 capacity)).
  { unfold capacityOf, NewBuffer. simpl. destruct (Z.leb_spec capacity 0); f_equal; lia. }
  destruct (inv_books _ _ (execute_inv capacity initial events) ch c Hc) as (H1 & H2 & H3 & H4).
  set (log := s_log _) in *. set (u := default (length log) (ch_until c)) in *.
  exists (take (ch_from c) log), (drop (ch_from c) (take u log)), (drop u log). split_and!; try done.
  - rewrite <- (take_drop u log) at 1. rewrite app_assoc. f_equal.
    rewrite <- (take_drop (ch_from c) (take u log)) at 1. by rewrite take_take, Nat.min_l by lia.
  - by rewrite H2, Ecap.
  - intros Hu. subst u. rewrite Hu. simpl. by rewrite drop_all.
Qed.

End buffer.

(** ** Examples *)

Module Examples.

(** Two records are logged into a ring of two, a reader joins, two more are logged whose
    sends happen in the other order, one is read, the reader leaves and one is logged. *)
Definition events : list (event (R := nat)) :=
  [Log 1%nat; Log 2%nat; Join 7%nat; Log 3%nat; Legacy 4%nat; Send 1; Receive 7%nat; Leave 7%nat; Log 5%nat].

Lemma subscriber_sees_all_witness :
  (exists c, s_chans (execute 2 LevelInfo events) !! 7%nat = Some c /\ ch_snapshot c = [1; 2]%nat /\
     ch_read c = [4]%nat /\ s_log (execute 2 LevelInfo events) = [1; 2; 3; 4; 5]%nat) /\
  exists before during after : list nat, [1; 2; 3; 4; 5]%nat = before ++ during ++ after /\
    [1; 2]%nat = drop (length before - Z.to_nat (Z.max 1 2)) before.
Proof.
  destruct (s_chans (execute 2 LevelInfo events) !! 7%nat) as [c|] eqn:Hc; [|by vm_compute in Hc].
  assert (Hv : c = mkChan [] [1; 2]%nat 2 (Some 4%nat) [4]%nat []).
  { vm_compute in Hc. by injection Hc as <-. }
  split; [exists c; subst c; by repeat split|].
  destruct (subscriber_sees_all 2 LevelInfo events 7%nat c Hc) as (before & during & after & Hl & Hs & _).
  exists before, during, after. split; [exact Hl|]. subst c. exact Hs.
Defined.

End Examples.
