(* ===== verification/MemoryStore.v ===== *)
(** * The in-memory store

    Models the routing part of [gateway/backend/internal/routing/memory_store.go]: servers
    with their telemetry, hardware, samples, owners, groups, tokens, budgets, reports and
    certificates; applications; mappings with their metrics, capability rows, caches,
    benchmark runs and launch specs; pins; the co-residency matrix; model groups and
    settings.  One definition per method, each the body of its critical section: a write
    answers its error, if any, and the store it leaves.  Rows hold the fields the modelled
    code reads.  Random identifiers and the clock are arguments.

    Services, resource groups, vendor accounts, provisions and limits, which the same file
    keeps, are in [AccessStore]. *)

From Stdlib Require Import ZArith Lia.
From stdpp Require Import base tactics option list numbers strings gmap sorting.
From S2P Require Import Prelude Float64 RoutingTypes Selection Filters Targets Resolving Samples.
Local Open Scope Z_scope.
Local Open Scope go_scope.

(** ** Rows *)

Inductive storeErr :=
| ErrConflict
| ErrNotFound
| ErrAudioMetricsInvalid
| ErrInvalid (what : string).

Record ServerHardware := mkServerHardware {
  hw_ServerID : string;
  hw_CollectedAt : time;
  hw_UpdatedAt : time;
  hw_ReportJSON : string
}.

Record TelemetrySample := mkTelemetrySample {
  ts_ServerID : string;
  ts_ReportedAt : time;
  ts_CPUUtilPct : float64
}.

Record BenchmarkRun := mkBenchmarkRun {
  br_ID : string;
  br_MappingID : string;
  br_CreatedAt : time;
  br_Kind : string
}.

Global Instance BenchmarkRun_fields : Fields BenchmarkRun := fun r =>
  mkBenchmarkRun (br_ID r) (br_MappingID r) (br_CreatedAt r) (br_Kind r).

Record AgentToken := mkAgentToken {
  at_ID : string;
  at_ServerID : string;
  at_SecretPrefix : string;
  at_LastUsedAt : option time;
  at_CreatedAt : time;
  at_UpdatedAt : time
}.

Global Instance AgentToken_fields : Fields AgentToken := fun t =>
  mkAgentToken (at_ID t) (at_ServerID t) (at_SecretPrefix t) (at_LastUsedAt t) (at_CreatedAt t) (at_UpdatedAt t).

Record agentTokenRecord := mkAgentTokenRecord {
  atr_token : AgentToken;
  atr_secretHash : string
}.

Record Certificate := mkCertificate {
  ct_Domain : string;
  ct_ServerID : string;
  ct_CreatedAt : time
}.

Global Instance Certificate_fields : Fields Certificate := fun c =>
  mkCertificate (ct_Domain c) (ct_ServerID c) (ct_CreatedAt c).

Record RuntimeSpecGPU := mkRuntimeSpecGPU {
  sg_SpecID : string;
  sg_GPUIndex : Z;
  sg_Position : Z;
  sg_VRAMEstimateMB : Z;
  sg_VRAMMeasuredMB : Z
}.

Global Instance RuntimeSpecGPU_fields : Fields RuntimeSpecGPU := fun g =>
  mkRuntimeSpecGPU (sg_SpecID g) (sg_GPUIndex g) (sg_Position g) (sg_VRAMEstimateMB g) (sg_VRAMMeasuredMB g).

Record CoResidencyRule := mkCoResidencyRule {
  cor_ApplicationID : string;
  cor_MappingAID : string;
  cor_MappingBID : string;
  cor_Verdict : string
}.

Global Instance CoResidencyRule_fields : Fields CoResidencyRule := fun r =>
  mkCoResidencyRule (cor_ApplicationID r) (cor_MappingAID r) (cor_MappingBID r) (cor_Verdict r).

Record ServerGPUBudget := mkServerGPUBudget {
  gb_ServerID : string;
  gb_GPUIndex : Z;
  gb_BudgetMB : Z
}.

Global Instance ServerGPUBudget_fields : Fields ServerGPUBudget := fun b =>
  mkServerGPUBudget (gb_ServerID b) (gb_GPUIndex b) (gb_BudgetMB b).

Record ServerRuntimeReport := mkServerRuntimeReport {
  rr_ServerID : string;
  rr_CollectedAt : time;
  rr_ReportJSON : string
}.

Record ModelGroup := mkModelGroup {
  mg_ID : string;
  mg_GatewayModelName : string;
  mg_Status : string;
  mg_FailoverMode : string;
  mg_Traversal : string;
  mg_LoadedOnly : bool;
  mg_MemberOrder : string;
  mg_ClimbSpeedMarginPercent : Z;
  mg_MinTokensPerSecond : float64;
  mg_MinSpeedFallback : string;
  mg_CreatedAt : time
}.

Global Instance ModelGroup_fields : Fields ModelGroup := fun g =>
  mkModelGroup (mg_ID g) (mg_GatewayModelName g) (mg_Status g) (mg_FailoverMode g) (mg_Traversal g) (mg_LoadedOnly g)
    (mg_MemberOrder g) (mg_ClimbSpeedMarginPercent g) (mg_MinTokensPerSecond g) (mg_MinSpeedFallback g) (mg_CreatedAt g).

Record GroupMemberRow := mkGroupMemberRow {
  gm_ID : string;
  gm_GroupID : string;
  gm_MemberGatewayName : string;
  gm_Priority : Z;
  gm_CreatedAt : time
}.

Global Instance GroupMemberRow_fields : Fields GroupMemberRow := fun m =>
  mkGroupMemberRow (gm_ID m) (gm_GroupID m) (gm_MemberGatewayName m) (gm_Priority m) (gm_CreatedAt m).

Record ModelSetting := mkModelSetting {
  mset_GatewayModelName : string;
  mset_Visibility : string;
  mset_CreatedAt : time
}.

Global Instance ModelSetting_fields : Fields ModelSetting := fun s =>
  mkModelSetting (mset_GatewayModelName s) (mset_Visibility s) (mset_CreatedAt s).

Global Instance AffinityKey_eq_dec : EqDecision AffinityKey.
Proof. solve_decision. Defined.

Global Instance AffinityKey_countable : Countable AffinityKey.
Proof.
  apply (inj_countable'
    (fun k => (ak_APITokenID k, ak_Model k, ak_APIFlavor k, ak_SessionID k))
    (fun '(a, b, c, d) => mkAffinityKey a b c d)). by intros [].
Defined.

(** ** The store *)

Record MemoryStore := mkMemoryStore {
  m_servers : gmap string AIServer;
  m_telemetry : gmap string ServerTelemetry;
  m_hardware : gmap string ServerHardware;
  m_samples : gmap string (list TelemetrySample);
  m_availSamples : gmap string (list ServerAvailabilitySample);
  m_benchmarks : gmap string (list BenchmarkRun);
  m_affinities : gmap AffinityKey RouteAffinity;
  m_owners : gmap string (gset string);
  m_serverAdminGroups : gmap string (gmap string time);
  m_applications : gmap string Application;
  m_mappings : gmap string ModelMapping;
  m_agentTokens : gmap string agentTokenRecord;
  m_groups : gmap string ModelGroup;
  m_groupMembers : gmap string (list GroupMemberRow);
  m_modelSettings : gmap string ModelSetting;
  m_resourceGroupServers : gmap string (gmap string time);  (* written by [AccessStore] *)
  m_certificates : gmap string Certificate;
  m_runtimeSpecs : gmap string RuntimeSpec;
  m_runtimeSpecGPUs : gmap string (list RuntimeSpecGPU);
  m_coresidency : gmap string (list CoResidencyRule);
  m_coresidencyMode : gmap string string;
  m_gpuBudgets : gmap string (list ServerGPUBudget);
  m_runtimeReports : gmap string ServerRuntimeReport;
  m_mappingCapabilities : gmap string (gmap string CapabilityRow);
  m_mappingCache : gmap string (gmap (string * string) ModelMappingCacheRow)   (* cache type, scope key *)
}.

Global Instance MemoryStore_fields : Fields MemoryStore := fun m =>
  mkMemoryStore (m_servers m) (m_telemetry m) (m_hardware m) (m_samples m) (m_availSamples m) (m_benchmarks m)
    (m_affinities m) (m_owners m) (m_serverAdminGroups m) (m_applications m) (m_mappings m) (m_agentTokens m)
    (m_groups m) (m_groupMembers m) (m_modelSettings m) (m_resourceGroupServers m) (m_certificates m)
    (m_runtimeSpecs m) (m_runtimeSpecGPUs m) (m_coresidency m) (m_coresidencyMode m) (m_gpuBudgets m)
    (m_runtimeReports m) (m_mappingCapabilities m) (m_mappingCache m).

Definition NewMemoryStore : MemoryStore :=
  mkMemoryStore ∅ ∅ ∅ ∅ ∅ ∅ ∅ ∅ ∅ ∅ ∅ ∅ ∅ ∅ ∅ ∅ ∅ ∅ ∅ ∅ ∅ ∅ ∅ ∅ ∅.

(** What a write answers, and the store it leaves. *)
Definition written : Type := option storeErr * MemoryStore.
Definition wrote (m : MemoryStore) : written := (None, m).
Definition refuse (e : storeErr) (m : MemoryStore) : written := (Some e, m).

(** The rows of a table in the order of their keys. *)
Definition sortedKeys {V} (t : gmap string V) : list string :=
  sort_Slice (less_string (fun id => id)) (map_to_list t).*1.

Definition rowsOf {V} (t : gmap string V) (ids : list string) : list V := omap (fun id => t !! id) ids.

Definition rowsByKey {V} (t : gmap string V) (keep : V -> bool) : list V :=
  List.filter keep (rowsOf t (sortedKeys t)).

Definition byKey {V} (t : gmap string V) (id : string) : V + storeErr :=
  match t !! id with Some row => inl row | None => inr ErrNotFound end.

(** [delete] in a loop over the map. *)
Definition deleteWhere {K V} `{Countable K} (drop : V -> bool) (t : gmap K V) : gmap K V :=
  filter (fun e => drop e.2 = false) t.

(** ** Servers *)

Definition CreateAIServer (host : AIServer) (m : MemoryStore) : written :=
  if has_key (m_servers m) (srv_ID host) then refuse ErrConflict m
  else wrote (m <| m_servers ::= <[srv_ID host := host]> |>).

Definition UpdateAIServer (host : AIServer) (m : MemoryStore) : written :=
  if negb (has_key (m_servers m) (srv_ID host)) then refuse ErrNotFound m
  else wrote (m <| m_servers ::= <[srv_ID host := host]> |>).

Definition AIServerByID (id : string) (m : MemoryStore) : AIServer + storeErr := byKey (m_servers m) id.

Definition AIServers (m : MemoryStore) : list AIServer := rowsByKey (m_servers m) (fun _ => true).

(** The body shared by the setters of single columns. *)
Definition updateServer (id : string) (set : AIServer -> AIServer) (m : MemoryStore) : written :=
  match m_servers m !! id with
  | None => refuse ErrNotFound m
  | Some server => wrote (m <| m_servers ::= <[id := set server]> |>)
  end.

Definition SetServerHealth (serverID health : string) (now : time) : MemoryStore -> written :=
  updateServer serverID (fun server => server <| srv_HealthStatus := health |> <| srv_UpdatedAt := now |>).

Definition UpdateServerNetbirdKey (id : string) (enabled : bool) (setupKeyID groupID : string) : MemoryStore -> written :=
  updateServer id (fun server => server <| srv_NetbirdEnabled := enabled |>
    <| srv_NetbirdSetupKeyID := setupKeyID |> <| srv_NetbirdGroupID := groupID |>).

Definition UpdateServerNetbirdLink (id : string) (enabled : bool) (peerID : string) : MemoryStore -> written :=
  updateServer id (fun server => server <| srv_NetbirdEnabled := enabled |>
    <| srv_NetbirdPeerID := peerID |> <| srv_NetbirdConnected := false |>).

Definition UpdateServerNetbirdState (id domain peerID : string) (connected : bool) : MemoryStore -> written :=
  updateServer id (fun server => server <| srv_Domain := domain |>
    <| srv_NetbirdPeerID := peerID |> <| srv_NetbirdConnected := connected |>).

Definition UpdateServerNetbirdGroups (id groupsJSON : string) : MemoryStore -> written :=
  updateServer id (fun server => server <| srv_NetbirdGroupIDs := groupsJSON |>).

Definition UpdateServerNetbirdPeerManaged (id : string) (managed : bool) : MemoryStore -> written :=
  updateServer id (fun server => server <| srv_NetbirdPeerManaged := managed |>).

Definition UpdateServerNetbirdPolicyOverride (id override : string) : MemoryStore -> written :=
  updateServer id (fun server => server <| srv_NetbirdPolicyOverride := override |>).

Definition UpdateServerNetbirdAllowPing (id : string) (allow : bool) : MemoryStore -> written :=
  updateServer id (fun server => server <| srv_NetbirdAllowPing := allow |>).

Definition UpdateServerNetbirdPingExclude (id : string) (exclude : bool) : MemoryStore -> written :=
  updateServer id (fun server => server <| srv_NetbirdPingExclude := exclude |>).

Definition UpdateServerEnergyConfig (id : string) (estimatedWatts idleWatts pricePerKwh pue : float64) (priceUnit : string)
  : MemoryStore -> written :=
  updateServer id (fun server => server <| srv_EstimatedWatts := estimatedWatts |> <| srv_IdleWatts := idleWatts |>
    <| srv_PricePerKwh := pricePerKwh |> <| srv_Pue := pue |> <| srv_PriceUnit := priceUnit |>).

Definition UpdateServerSystemGroup (serverID systemGroupID : string) : MemoryStore -> written :=
  updateServer serverID (fun server => server <| srv_SystemGroupID := systemGroupID |>).

Definition UpdateServerCertificateOverride (id override : string) : MemoryStore -> written :=
  updateServer id (fun server => server <| srv_CertificateOverride := override |>).

Definition UpdateServerHTTPSSwitchOverride (id override : string) : MemoryStore -> written :=
  updateServer id (fun server => server <| srv_HTTPSSwitchOverride := override |>).

Definition SetServerOwners (serverID : string) (userIDs : list string) (m : MemoryStore) : written :=
  wrote (m <| m_owners ::= <[serverID := list_to_set userIDs]> |>).

Definition ServerOwners (serverID : string) (m : MemoryStore) : list string :=
  sort_Slice (less_string (fun id => id)) (elements (map_get ∅ (m_owners m) serverID)).

Definition ServersByOwner (userID : string) (m : MemoryStore) : list AIServer :=
  rowsOf (m_servers m)
    (List.filter (fun id => bool_decide (userID ∈ map_get ∅ (m_owners m) id)) (sortedKeys (m_owners m))).

Definition SetServerAdminGroup (serverID groupID : string) (now : time) (m : MemoryStore) : written :=
  if negb (has_key (m_servers m) serverID) then refuse ErrNotFound m
  else
    let groups := map_get ∅ (m_serverAdminGroups m) serverID in
    let groups := if has_key groups groupID then groups else <[groupID := now]> groups in
    wrote (m <| m_serverAdminGroups ::= <[serverID := groups]> |>).

Definition RemoveServerAdminGroup (serverID groupID : string) (m : MemoryStore) : written :=
  match m_serverAdminGroups m !! serverID with
  | Some groups => wrote (m <| m_serverAdminGroups ::= <[serverID := delete groupID groups]> |>)
  | None => wrote m
  end.

Definition sortedByFirstSeen (byID : gmap string time) : list string :=
  (sort_Slice (less_lex (less_Z snd) (less_string fst)) (map_to_list byID)).*1.

Definition ServerAdminGroups (serverID : string) (m : MemoryStore) : list string :=
  sortedByFirstSeen (map_get ∅ (m_serverAdminGroups m) serverID).

Definition ServersByAdminGroups (groupIDs : list string) (m : MemoryStore) : list AIServer :=
  rowsOf (m_servers m)
    (List.filter (fun id =>
       existsb (fun groupID => slices_Contains groupIDs groupID)
         (map_to_list (map_get ∅ (m_serverAdminGroups m) id)).*1) (sortedKeys (m_serverAdminGroups m))).

(** ** What servers report *)

Definition UpsertTelemetry (telemetry : ServerTelemetry) (m : MemoryStore) : written :=
  if negb (has_key (m_servers m) (tel_ServerID telemetry)) then refuse ErrNotFound m
  else wrote (m <| m_telemetry ::= <[tel_ServerID telemetry := telemetry]> |>).

(** The zero row and [false] where there is none. *)
Definition TelemetryByServer (serverID : string) (m : MemoryStore) : ServerTelemetry * bool :=
  match m_telemetry m !! serverID with Some t => (t, true) | None => (zeroTelemetry, false) end.

Definition UpsertServerHardware (hw : ServerHardware) (m : MemoryStore) : written :=
  if negb (has_key (m_servers m) (hw_ServerID hw)) then refuse ErrNotFound m
  else wrote (m <| m_hardware ::= <[hw_ServerID hw := hw]> |>).

Definition ServerHardwareByServer (serverID : string) (m : MemoryStore) : option ServerHardware :=
  m_hardware m !! serverID.

Definition within (from to at_ : time) : bool := negb (at_ <? from) && negb (to <? at_).

Definition InsertTelemetrySample (sample : TelemetrySample) (m : MemoryStore) : written :=
  if negb (has_key (m_servers m) (ts_ServerID sample)) then refuse ErrNotFound m
  else wrote (m <| m_samples ::= fun t => <[ts_ServerID sample := map_get [] t (ts_ServerID sample) ++ [sample]]> t |>).

(** [None]: an index out of range panics. *)
Definition TelemetrySamples (serverID : string) (from to : time) (limit : Z) (m : MemoryStore)
  : option (list TelemetrySample) :=
  let matched := List.filter (fun s => within from to (ts_ReportedAt s)) (map_get [] (m_samples m) serverID) in
  DecimateSamples (sort_Slice (less_Z ts_ReportedAt) matched) limit.

Definition PruneTelemetrySamples (before : time) (m : MemoryStore) : written :=
  wrote (m <| m_samples ::= fmap (List.filter (fun s => negb (ts_ReportedAt s <? before))) |>).

Definition InsertServerAvailabilitySample (sample : ServerAvailabilitySample) (m : MemoryStore) : written :=
  if negb (has_key (m_servers m) (as_ServerID sample)) then refuse ErrNotFound m
  else wrote (m <| m_availSamples ::=
         fun t => <[as_ServerID sample := map_get [] t (as_ServerID sample) ++ [sample]]> t |>).

Definition ServerAvailabilitySamples (serverID : string) (from to : time) (limit : Z) (m : MemoryStore)
  : option (list ServerAvailabilitySample) :=
  let matched := List.filter (fun s => within from to (as_ReportedAt s)) (map_get [] (m_availSamples m) serverID) in
  ReduceAvailabilitySamples AvailabilityGapFloor (sort_Slice (less_Z as_ReportedAt) matched) limit.

Definition PruneServerAvailabilitySamples (before : time) (m : MemoryStore) : written :=
  wrote (m <| m_availSamples ::= fmap (List.filter (fun s => negb (as_ReportedAt s <? before))) |>).

Definition SetServerGPUBudgets (serverID : string) (budgets : list ServerGPUBudget) (m : MemoryStore) : written :=
  if negb (has_key (m_servers m) serverID) then refuse ErrNotFound m
  else if negb (bool_decide (NoDup (gb_GPUIndex <$> budgets))) then refuse ErrConflict m
  else wrote (m <| m_gpuBudgets ::= <[serverID := (fun b => b <| gb_ServerID := serverID |>) <$> budgets]> |>).

Definition ServerGPUBudgets (serverID : string) (m : MemoryStore) : list ServerGPUBudget :=
  sort_Slice (less_Z gb_GPUIndex) (map_get [] (m_gpuBudgets m) serverID).

Definition UpsertServerRuntimeReport (report : ServerRuntimeReport) (m : MemoryStore) : written :=
  if negb (has_key (m_servers m) (rr_ServerID report)) then refuse ErrNotFound m
  else wrote (m <| m_runtimeReports ::= <[rr_ServerID report := report]> |>).

Definition ServerRuntimeReportByServer (serverID : string) (m : MemoryStore) : option ServerRuntimeReport :=
  m_runtimeReports m !! serverID.

Definition DeleteServerRuntimeReport (serverID : string) (m : MemoryStore) : written :=
  wrote (m <| m_runtimeReports ::= delete serverID |>).

(** ** Agent tokens *)

Definition UpsertAgentToken (token : AgentToken) (secretHash : string) (m : MemoryStore) : written :=
  let id := at_ServerID token in
  if negb (has_key (m_servers m) id) then refuse ErrNotFound m
  else if existsb (fun '(sid, rec) => negb (String.eqb sid id) && String.eqb (atr_secretHash rec) secretHash)
            (map_to_list (m_agentTokens m)) then refuse ErrConflict m
  else
    let token := match m_agentTokens m !! id with
                 | Some existing => token <| at_CreatedAt := at_CreatedAt (atr_token existing) |>
                 | None => token
                 end in
    let token := token <| at_LastUsedAt := None |> in
    wrote (m <| m_agentTokens ::= <[id := mkAgentTokenRecord token secretHash]> |>).

Definition AgentTokenByServer (serverID : string) (m : MemoryStore) : option AgentToken :=
  atr_token <$> m_agentTokens m !! serverID.

Definition DeleteAgentTokenByServer (serverID : string) (m : MemoryStore) : written :=
  wrote (m <| m_agentTokens ::= delete serverID |>).

(** The server the secret names; its token is stamped. *)
Definition LookupAgentToken (secretHash : string) (now : time) (m : MemoryStore) : option string * MemoryStore :=
  match List.find (fun '(_, rec) => String.eqb (atr_secretHash rec) secretHash) (map_to_list (m_agentTokens m)) with
  | Some (serverID, rec) =>
      (Some serverID,
       m <| m_agentTokens ::=
         <[serverID := mkAgentTokenRecord ((atr_token rec) <| at_LastUsedAt := Some now |>) (atr_secretHash rec)]> |>)
  | None => (None, m)
  end.

(** ** Certificates *)

Definition UpsertCertificate (cert : Certificate) (m : MemoryStore) : written :=
  if negb (String.eqb (ct_ServerID cert) "") && negb (has_key (m_servers m) (ct_ServerID cert))
  then refuse ErrNotFound m
  else
    let cert := match m_certificates m !! ct_Domain cert with
                | Some prev => cert <| ct_CreatedAt := ct_CreatedAt prev |>
                | None => cert
                end in
    wrote (m <| m_certificates ::= <[ct_Domain cert := cert]> |>).

Definition CertificateByDomain (domain : string) (m : MemoryStore) : Certificate + storeErr :=
  byKey (m_certificates m) domain.

Definition CertificateByServer (serverID : string) (m : MemoryStore) : Certificate + storeErr :=
  if String.eqb serverID "" then inr ErrNotFound
  else
    let best := foldl (fun (best : option Certificate) cert =>
      if negb (String.eqb (ct_ServerID cert) serverID) then best
      else match best with
           | Some b => if String.ltb (ct_Domain cert) (ct_Domain b) then Some cert else best
           | None => Some cert
           end) None (map_to_list (m_certificates m)).*2 in
    match best with Some cert => inl cert | None => inr ErrNotFound end.

Definition Certificates (m : MemoryStore) : list Certificate :=
  sort_Slice (less_string ct_Domain) (map_to_list (m_certificates m)).*2.

Definition DeleteCertificate (domain : string) (m : MemoryStore) : written :=
  wrote (m <| m_certificates ::= delete domain |>).

(** ** Pins *)

Definition affinityKeyOf (a : RouteAffinity) : AffinityKey :=
  mkAffinityKey (aff_APITokenID a) (aff_Model a) (aff_APIFlavor a) (aff_SessionID a).

Definition UpsertAffinity (affinity : RouteAffinity) (m : MemoryStore) : written :=
  wrote (m <| m_affinities ::= <[affinityKeyOf affinity := affinity]> |>).

Definition Affinity (key : AffinityKey) (m : MemoryStore) : option RouteAffinity := m_affinities m !! key.

Definition DeleteAffinity (key : AffinityKey) (m : MemoryStore) : written :=
  wrote (m <| m_affinities ::= delete key |>).

Definition deleteAffinitiesForServerLocked (serverID : string) (m : MemoryStore) : MemoryStore :=
  m <| m_affinities ::= deleteWhere (fun aff => String.eqb (aff_ServerID aff) serverID) |>.

(** ** Deleting a mapping, an application, a server *)

Definition deleteMappingLocked (mappingID : string) (m : MemoryStore) : MemoryStore :=
  let specs := filter (fun e => String.eqb (sp_MappingID e.2) mappingID = true) (m_runtimeSpecs m) in
  m <| m_mappings ::= delete mappingID |>
    <| m_benchmarks ::= delete mappingID |>
    <| m_mappingCapabilities ::= delete mappingID |>
    <| m_mappingCache ::= delete mappingID |>
    <| m_runtimeSpecs ::= fun t => t ∖ specs |>
    <| m_runtimeSpecGPUs ::= filter (fun e => specs !! e.1 = None) |>
    <| m_coresidency ::= fmap (List.filter (fun r =>
         negb (String.eqb (cor_MappingAID r) mappingID || String.eqb (cor_MappingBID r) mappingID))) |>.

Definition deleteMappingsForApplicationLocked (applicationID : string) (m : MemoryStore) : MemoryStore :=
  foldl (fun m id => deleteMappingLocked id m) m
    (map_to_list (filter (fun e => mm_ApplicationID e.2 = applicationID) (m_mappings m))).*1.

Definition deleteApplicationLocked (applicationID : string) (m : MemoryStore) : MemoryStore :=
  (deleteMappingsForApplicationLocked applicationID m)
    <| m_applications ::= delete applicationID |>
    <| m_coresidency ::= delete applicationID |>
    <| m_coresidencyMode ::= delete applicationID |>
    <| m_affinities ::= deleteWhere (fun aff => String.eqb (aff_ApplicationID aff) applicationID) |>.

Definition deleteApplicationsForServerLocked (serverID : string) (m : MemoryStore) : MemoryStore :=
  foldl (fun m id => deleteApplicationLocked id m) m
    (map_to_list (filter (fun e => app_ServerID e.2 = serverID) (m_applications m))).*1.

Definition DeleteAIServer (id : string) (m : MemoryStore) : written :=
  if negb (has_key (m_servers m) id) then refuse ErrNotFound m
  else
    let m := deleteApplicationsForServerLocked id m in
    let m := m <| m_servers ::= delete id |> <| m_owners ::= delete id |> <| m_agentTokens ::= delete id |>
               <| m_serverAdminGroups ::= delete id |> <| m_telemetry ::= delete id |> <| m_hardware ::= delete id |>
               <| m_samples ::= delete id |> <| m_availSamples ::= delete id |> <| m_gpuBudgets ::= delete id |>
               <| m_runtimeReports ::= delete id |> in
    let m := deleteAffinitiesForServerLocked id m in
    wrote (m <| m_resourceGroupServers ::= fmap (delete id) |>
             <| m_certificates ::= deleteWhere (fun cert => String.eqb (ct_ServerID cert) id) |>).

(** ** Applications *)

Definition serverAgentApplicationExistsLocked (serverID excludeID : string) (m : MemoryStore) : bool :=
  existsb (fun '(id, existing) =>
    if String.eqb id excludeID then false
    else String.eqb (app_ServerID existing) serverID && String.eqb (app_Type existing) ProviderServerAgent)
    (map_to_list (m_applications m)).

Definition applicationPortTakenLocked (serverID : string) (port : Z) (excludeID : string) (m : MemoryStore) : bool :=
  existsb (fun '(id, existing) =>
    if String.eqb id excludeID then false
    else String.eqb (app_ServerID existing) serverID && (app_Port existing =? port))
    (map_to_list (m_applications m)).

Definition CreateApplication (app : Application) (m : MemoryStore) : written :=
  if has_key (m_applications m) (app_ID app) then refuse ErrConflict m
  else if negb (has_key (m_servers m) (app_ServerID app)) then refuse ErrNotFound m
  else if applicationPortTakenLocked (app_ServerID app) (app_Port app) "" m then refuse ErrConflict m
  else if String.eqb (app_Type app) ProviderServerAgent && serverAgentApplicationExistsLocked (app_ServerID app) "" m
  then refuse ErrConflict m
  else wrote (m <| m_applications ::= <[app_ID app := app]> |>).

Definition UpdateApplication (app : Application) (m : MemoryStore) : written :=
  if negb (has_key (m_applications m) (app_ID app)) then refuse ErrNotFound m
  else if negb (has_key (m_servers m) (app_ServerID app)) then refuse ErrNotFound m
  else if applicationPortTakenLocked (app_ServerID app) (app_Port app) (app_ID app) m then refuse ErrConflict m
  else if String.eqb (app_Type app) ProviderServerAgent
          && serverAgentApplicationExistsLocked (app_ServerID app) (app_ID app) m then refuse ErrConflict m
  else wrote (m <| m_applications ::= <[app_ID app := app]> |>).

Definition ApplicationByID (id : string) (m : MemoryStore) : Application + storeErr := byKey (m_applications m) id.

Definition ApplicationsByServer (serverID : string) (m : MemoryStore) : list Application :=
  rowsByKey (m_applications m) (fun app => String.eqb (app_ServerID app) serverID).

Definition DeleteApplication (id : string) (m : MemoryStore) : written :=
  if negb (has_key (m_applications m) id) then refuse ErrNotFound m
  else wrote (deleteApplicationLocked id m).

(** ** Mappings *)

Definition AudioLimitResources : string := "resources".
Definition AudioLimitCap : string := "cap".

Record AudioMetrics := mkAudioMetrics {
  am_RateX : float64;
  am_TTFAMS : Z;
  am_RealtimeConcurrency : Z;
  am_ConcurrencyLimit : string;
  am_LoadTimeMS : Z
}.

(** [None] is [nil]. *)
Definition ValidateAudioMetrics (am : AudioMetrics) : option storeErr :=
  if math_IsNaN (am_RateX am) || math_IsInf (am_RateX am) || f64_ltb (am_RateX am) f64_zero then Some ErrAudioMetricsInvalid
  else if slices_Contains [""; AudioLimitPerformance; AudioLimitResources; AudioLimitCap] (am_ConcurrencyLimit am)
  then None else Some ErrAudioMetricsInvalid.

Definition ValidateMappingAudioMetrics (mapping : ModelMapping) : option storeErr :=
  match ValidateAudioMetrics (mkAudioMetrics (mm_AudioRateX mapping) 0 0 (mm_AudioConcurrencyLimit mapping) 0) with
  | Some e => Some e
  | None =>
      if mm_AudioTTFAMS mapping <? 0 then Some ErrAudioMetricsInvalid
      else if mm_LoadTimeMS mapping <? 0 then Some ErrAudioMetricsInvalid
      else if mm_AudioRealtimeConcurrency mapping <? 0 then Some ErrAudioMetricsInvalid
      else if String.eqb (mm_AudioConcurrencyLimit mapping) "" && negb (mm_AudioRealtimeConcurrency mapping =? 0)
      then Some ErrAudioMetricsInvalid
      else None
  end.

Definition RampMeasured (am : AudioMetrics) : bool :=
  negb (String.eqb (am_ConcurrencyLimit am) "") && (0 <=? am_RealtimeConcurrency am).

Definition Measured (am : AudioMetrics) : bool :=
  f64_ltb f64_zero (am_RateX am) || (0 <? am_TTFAMS am) || RampMeasured am || (0 <? am_LoadTimeMS am).

Definition CreateMapping (mapping : ModelMapping) (m : MemoryStore) : written :=
  match ValidateMappingAudioMetrics mapping with
  | Some e => refuse e m
  | None =>
      if has_key (m_mappings m) (mm_ID mapping) then refuse ErrConflict m
      else if negb (has_key (m_applications m) (mm_ApplicationID mapping)) then refuse ErrNotFound m
      else wrote (m <| m_mappings ::= <[mm_ID mapping := mapping]> |>)
  end.

Definition invalidateMappingCacheOnRenameLocked (stored : ModelMapping) (incomingAppModelName : string)
    (m : MemoryStore) : MemoryStore :=
  if negb (String.eqb (mm_AppModelName stored) incomingAppModelName)
  then m <| m_mappingCache ::= delete (mm_ID stored) |> else m.

Definition UpdateMapping (mapping : ModelMapping) (m : MemoryStore) : written :=
  match ValidateMappingAudioMetrics mapping with
  | Some e => refuse e m
  | None =>
      match m_mappings m !! mm_ID mapping with
      | None => refuse ErrNotFound m
      | Some stored =>
          if negb (has_key (m_applications m) (mm_ApplicationID mapping)) then refuse ErrNotFound m
          else
            let m := invalidateMappingCacheOnRenameLocked stored (mm_AppModelName mapping) m in
            wrote (m <| m_mappings ::= <[mm_ID mapping := mapping]> |>)
      end
  end.

Record MappingMetricsMask := mkMask {
  mk_GenTokensPerSecond : bool;
  mk_PromptTokensPerSecond : bool;
  mk_LoadTimeMS : bool;
  mk_ContextSize : bool;
  mk_EnergyWhPerToken : bool;
  mk_MaxConcurrency : bool;
  mk_RecommendedConcurrency : bool;
  mk_GenTokensPerSecondAtCapacity : bool;
  mk_AudioRateX : bool;
  mk_AudioTTFAMS : bool;
  mk_AudioConcurrencyPair : bool
}.

Definition AnyAudio (k : MappingMetricsMask) : bool :=
  mk_AudioRateX k || mk_AudioTTFAMS k || mk_AudioConcurrencyPair k.

Definition Any (k : MappingMetricsMask) : bool :=
  mk_GenTokensPerSecond k || mk_PromptTokensPerSecond k || mk_LoadTimeMS k || mk_ContextSize k
  || mk_EnergyWhPerToken k || mk_MaxConcurrency k || mk_RecommendedConcurrency k
  || mk_GenTokensPerSecondAtCapacity k || AnyAudio k.

(** [if b { e = f(e) }] and [if v != nil { e = f(e, v) }] *)
Definition when {A} (b : bool) (f : A -> A) (e : A) : A := if b then f e else e.
Definition whenSome {A B} (v : option B) (f : B -> A -> A) (e : A) : A := match v with Some v => f v e | None => e end.

(** The stored row with the columns a partial edit supplies. *)
Definition overlay (k : MappingMetricsMask) (x existing : ModelMapping) : ModelMapping :=
  let e := existing in
  let e := e <| mm_ApplicationID := mm_ApplicationID x |> <| mm_GatewayModelName := mm_GatewayModelName x |>
             <| mm_AppModelName := mm_AppModelName x |> <| mm_Status := mm_Status x |>
             <| mm_MetricsLocked := mm_MetricsLocked x |> <| mm_UpdatedAt := mm_UpdatedAt x |> in
  let e := when (mk_GenTokensPerSecond k) (fun e => e <| mm_GenTokensPerSecond := mm_GenTokensPerSecond x |>) e in
  let e := when (mk_PromptTokensPerSecond k) (fun e => e <| mm_PromptTokensPerSecond := mm_PromptTokensPerSecond x |>) e in
  let e := when (mk_LoadTimeMS k) (fun e => e <| mm_LoadTimeMS := mm_LoadTimeMS x |>) e in
  let e := when (mk_ContextSize k) (fun e => e <| mm_ContextSize := mm_ContextSize x |>) e in
  let e := when (mk_EnergyWhPerToken k) (fun e => e <| mm_EnergyWhPerToken := mm_EnergyWhPerToken x |>) e in
  let e := when (mk_MaxConcurrency k) (fun e => e <| mm_MaxConcurrency := mm_MaxConcurrency x |>) e in
  let e := when (mk_RecommendedConcurrency k)
             (fun e => e <| mm_RecommendedConcurrency := mm_RecommendedConcurrency x |>) e in
  let e := when (mk_GenTokensPerSecondAtCapacity k)
             (fun e => e <| mm_GenTokensPerSecondAtCapacity := mm_GenTokensPerSecondAtCapacity x |>) e in
  let e := when (mk_AudioRateX k) (fun e => e <| mm_AudioRateX := mm_AudioRateX x |>) e in
  let e := when (mk_AudioTTFAMS k) (fun e => e <| mm_AudioTTFAMS := mm_AudioTTFAMS x |>) e in
  let e := when (mk_AudioConcurrencyPair k)
             (fun e => e <| mm_AudioRealtimeConcurrency := mm_AudioRealtimeConcurrency x |>
                         <| mm_AudioConcurrencyLimit := mm_AudioConcurrencyLimit x |>) e in
  let e := when (AnyAudio k) (whenSome (mm_AudioMetricsUpdatedAt x) (fun t e => e <| mm_AudioMetricsUpdatedAt := Some t |>)) e in
  when (Any k) (fun e =>
    let e := e <| mm_MetricsSource := mm_MetricsSource x |> in
    whenSome (mm_MetricsUpdatedAt x) (fun t e => e <| mm_MetricsUpdatedAt := Some t |>) e) e.

Definition UpdateMappingEditable (mapping : ModelMapping) (metrics : MappingMetricsMask) (m : MemoryStore) : written :=
  match (if AnyAudio metrics then ValidateMappingAudioMetrics mapping else None) with
  | Some e => refuse e m
  | None =>
      match m_mappings m !! mm_ID mapping with
      | None => refuse ErrNotFound m
      | Some existing =>
          if negb (has_key (m_applications m) (mm_ApplicationID mapping)) then refuse ErrNotFound m
          else
            let m := invalidateMappingCacheOnRenameLocked existing (mm_AppModelName mapping) m in
            wrote (m <| m_mappings ::= <[mm_ID mapping := overlay metrics mapping existing]> |>)
      end
  end.

(** *** The measuring writers: a missing or locked mapping is left alone *)

Definition measure (id : string) (f : ModelMapping -> ModelMapping) (m : MemoryStore) : written :=
  match m_mappings m !! id with
  | Some mapping => if mm_MetricsLocked mapping then wrote m else wrote (m <| m_mappings ::= <[id := f mapping]> |>)
  | None => wrote m
  end.

Definition stamp (source : string) (at_ : time) (mapping : ModelMapping) : ModelMapping :=
  mapping <| mm_MetricsSource := source |> <| mm_MetricsUpdatedAt := Some at_ |>.

Definition UpdateMappingContextProbe (id : string) (contextSize : Z) (at_ : time) : MemoryStore -> written :=
  measure id (fun mapping => stamp "probe" at_ (mapping <| mm_ContextSize := contextSize |>)).

Definition UpdateMappingBenchmarkMetrics (id : string) (genTPS promptTPS : float64) (loadMS : Z) (at_ : time)
  : MemoryStore -> written :=
  measure id (fun mapping =>
    if f64_leb genTPS f64_zero && f64_leb promptTPS f64_zero && (loadMS <=? 0) then mapping
    else
      let mapping := when (f64_ltb f64_zero genTPS) (fun e => e <| mm_GenTokensPerSecond := genTPS |>) mapping in
      let mapping := when (f64_ltb f64_zero promptTPS) (fun e => e <| mm_PromptTokensPerSecond := promptTPS |>) mapping in
      let mapping := when (0 <? loadMS) (fun e => e <| mm_LoadTimeMS := loadMS |>) mapping in
      stamp "benchmark" at_ mapping).

Definition ewma (old sample alpha : float64) : float64 :=
  if f64_leb sample f64_zero then old
  else if f64_leb old f64_zero then sample
  else f64_add (f64_mul alpha sample) (f64_mul (f64_sub (f64_of_int 1) alpha) old).

Definition UpdateMappingOpportunisticMetrics (id : string) (genSample promptSample alpha : float64) (at_ : time)
  : MemoryStore -> written :=
  measure id (fun mapping => stamp "opportunistic" at_
    (mapping <| mm_GenTokensPerSecond := ewma (mm_GenTokensPerSecond mapping) genSample alpha |>
             <| mm_PromptTokensPerSecond := ewma (mm_PromptTokensPerSecond mapping) promptSample alpha |>)).

Definition UpdateMappingEnergyEWMA (id : string) (sampleWhPerToken alpha : float64) (at_ : time) : MemoryStore -> written :=
  measure id (fun mapping => stamp "energy" at_
    (mapping <| mm_EnergyWhPerToken := ewma (mm_EnergyWhPerToken mapping) sampleWhPerToken alpha |>)).

Definition UpdateMappingCapacityMetrics (id : string) (maxConcurrency recommendedConcurrency : Z)
    (genTPSAtCapacity : float64) (at_ : time) : MemoryStore -> written :=
  measure id (fun mapping => stamp "capacity" at_
    (mapping <| mm_MaxConcurrency := maxConcurrency |> <| mm_RecommendedConcurrency := recommendedConcurrency |>
             <| mm_GenTokensPerSecondAtCapacity := genTPSAtCapacity |>)).

Definition ClearMappingAudioConcurrency (mappingID : string) : MemoryStore -> written :=
  measure mappingID (fun mapping =>
    mapping <| mm_AudioRealtimeConcurrency := 0 |> <| mm_AudioConcurrencyLimit := "" |>).

Definition UpdateMappingAudioMetrics (mappingID : string) (am : AudioMetrics) (source : string) (at_ : time)
    (m : MemoryStore) : written :=
  match ValidateAudioMetrics am with
  | Some e => refuse e m
  | None =>
      if negb (Measured am) then wrote m
      else measure mappingID (fun mapping =>
        let mapping := when (f64_ltb f64_zero (am_RateX am)) (fun e => e <| mm_AudioRateX := am_RateX am |>) mapping in
        let mapping := when (0 <? am_TTFAMS am) (fun e => e <| mm_AudioTTFAMS := am_TTFAMS am |>) mapping in
        let mapping := when (RampMeasured am)
          (fun e => e <| mm_AudioRealtimeConcurrency := am_RealtimeConcurrency am |>
                      <| mm_AudioConcurrencyLimit := am_ConcurrencyLimit am |>) mapping in
        let mapping := when (0 <? am_LoadTimeMS am) (fun e => e <| mm_LoadTimeMS := am_LoadTimeMS am |>) mapping in
        (stamp source at_ mapping) <| mm_AudioMetricsUpdatedAt := Some at_ |>) m
  end.

(** *** Reads *)

Definition MappingByID (id : string) (m : MemoryStore) : ModelMapping + storeErr := byKey (m_mappings m) id.

Definition MappingsByApplication (applicationID : string) (m : MemoryStore) : list ModelMapping :=
  rowsByKey (m_mappings m) (fun mapping => String.eqb (mm_ApplicationID mapping) applicationID).

Definition MappingsByServer (serverID : string) (m : MemoryStore) : list ModelMapping :=
  rowsByKey (m_mappings m) (fun mapping =>
    match m_applications m !! mm_ApplicationID mapping with
    | Some app => String.eqb (app_ServerID app) serverID
    | None => false
    end).

(** The candidate a mapping is for a request, if it is one. *)
Definition candidateOf (gatewayModel apiFlavor : string) (m : MemoryStore) (id : string) (mapping : ModelMapping)
  : option MappingCandidate :=
  if negb (String.eqb (mm_Status mapping) ServerStatusActive) || negb (String.eqb (mm_GatewayModelName mapping) gatewayModel)
  then None
  else
    match m_applications m !! mm_ApplicationID mapping with
    | None => None
    | Some app =>
        if negb (String.eqb (app_Status app) ServerStatusActive) || negb (applicationHasAPIFlavor app apiFlavor) then None
        else
          match m_servers m !! app_ServerID app with
          | None => None
          | Some server =>
              let verdict := match map_get ∅ (m_mappingCapabilities m) id !! CapabilityLiveProgress with
                             | Some row => cap_Verdict row | None => "" end in
              Some (mkMappingCandidate server app mapping 0 false 0 false (LiveProgressSupportFromVerdict verdict))
          end
    end.

Definition ActiveMappingsForModel (gatewayModel apiFlavor : string) (m : MemoryStore) : list MappingCandidate :=
  omap (fun id => m_mappings m !! id ≫= candidateOf gatewayModel apiFlavor m id) (sortedKeys (m_mappings m)).

Definition DeleteMapping (id : string) (m : MemoryStore) : written :=
  if negb (has_key (m_mappings m) id) then refuse ErrNotFound m else wrote (deleteMappingLocked id m).

(** ** Capability rows *)

Definition CapabilitySourceManual : string := "manual".
Definition CapabilitySourceVisionBenchmark : string := "vision_benchmark".

Definition capabilitySourceRank (source : string) : Z :=
  if String.eqb source CapabilitySourceManual then 3
  else if String.eqb source CapabilitySourceVisionBenchmark then 2
  else if String.eqb source "" then 0
  else 1.

Definition ValidateCapabilityRow (r : CapabilityRow) : option storeErr :=
  if String.eqb (cap_Capability r) "" then Some (ErrInvalid "capability must not be empty")
  else if String.eqb (cap_Source r) "" then Some (ErrInvalid "source must not be empty")
  else if negb (String.eqb (cap_Verdict r) CapabilityYes) && negb (String.eqb (cap_Verdict r) CapabilityNo)
  then Some (ErrInvalid "verdict must be yes or no")
  else None.

(** The rows worth writing: the first of a name, not outranked, and not on file at its rank. *)
Fixpoint writableRows (stored : gmap string CapabilityRow) (seen : gset string) (reported : list CapabilityRow)
  : list CapabilityRow :=
  match reported with
  | [] => []
  | r :: reported =>
      if bool_decide (cap_Capability r ∈ seen) then writableRows stored seen reported
      else
        let cur := map_get (mkCapabilityRow "" "" "" time_zero) stored (cap_Capability r) in
        let incomingRank := capabilitySourceRank (cap_Source r) in
        let currentRank := capabilitySourceRank (cap_Source cur) in
        let rest := writableRows stored ({[cap_Capability r]} ∪ seen) reported in
        if incomingRank <? currentRank then rest
        else if String.eqb (cap_Verdict cur) (cap_Verdict r) && (incomingRank =? currentRank) then rest
        else r :: rest
  end.

Definition WritableCapabilityRows (reported : list CapabilityRow) (stored : gmap string CapabilityRow)
  : list CapabilityRow := writableRows stored ∅ reported.

Definition firstInvalid {A} (validate : A -> option storeErr) (l : list A) : option storeErr :=
  foldr (fun x rest => match validate x with Some e => Some e | None => rest end) None l.

(** One row of the upsert: a lower rank does not overwrite a higher one. *)
Definition putCapability (byCapability : gmap string CapabilityRow) (row : CapabilityRow) : gmap string CapabilityRow :=
  match byCapability !! cap_Capability row with
  | Some existing =>
      if capabilitySourceRank (cap_Source row) <? capabilitySourceRank (cap_Source existing) then byCapability
      else <[cap_Capability row := row]> byCapability
  | None => <[cap_Capability row := row]> byCapability
  end.

Definition UpsertMappingCapabilities (mappingID : string) (rows : list CapabilityRow) (m : MemoryStore) : written :=
  match firstInvalid ValidateCapabilityRow rows with
  | Some e => refuse e m
  | None =>
      if (length rows =? 0)%nat then wrote m
      else if negb (has_key (m_mappings m) mappingID) then refuse ErrNotFound m
      else wrote (m <| m_mappingCapabilities ::= fun t => <[mappingID := foldl putCapability (map_get ∅ t mappingID) rows]> t |>)
  end.

Definition DeleteMappingCapability (mappingID capability : string) (m : MemoryStore) : written :=
  let byCapability := delete capability (map_get ∅ (m_mappingCapabilities m) mappingID) in
  wrote (m <| m_mappingCapabilities ::=
    (if bool_decide (byCapability = ∅) then delete mappingID
     else <[mappingID := byCapability]>) |>).

Definition mappingCapabilitiesLocked (mappingID : string) (m : MemoryStore) : list CapabilityRow :=
  sort_Slice (less_string cap_Capability) (map_to_list (map_get ∅ (m_mappingCapabilities m) mappingID)).*2.

Definition MappingCapabilities (mappingID : string) (m : MemoryStore) : list CapabilityRow :=
  mappingCapabilitiesLocked mappingID m.

Definition MappingCapabilitiesForMappings (mappingIDs : list string) (m : MemoryStore) : gmap string (list CapabilityRow) :=
  foldl (fun out id =>
    if bool_decide (map_get ∅ (m_mappingCapabilities m) id = ∅) then out
    else <[id := mappingCapabilitiesLocked id m]> out) ∅ mappingIDs.

(** ** Caches *)

Definition ModelMappingCacheVoices : string := "voices".

Definition ValidateModelMappingCacheRow (r : ModelMappingCacheRow) : option storeErr :=
  if String.eqb (cr_CacheType r) "" then Some (ErrInvalid "cache type must not be empty") else None.

Definition UpsertModelMappingCache (row : ModelMappingCacheRow) (m : MemoryStore) : written :=
  match ValidateModelMappingCacheRow row with
  | Some e => refuse e m
  | None =>
      if negb (has_key (m_mappings m) (cr_MappingID row)) then refuse ErrNotFound m
      else wrote (m <| m_mappingCache ::= fun t =>
             <[cr_MappingID row := <[(cr_CacheType row, cr_ScopeKey row) := row]> (map_get ∅ t (cr_MappingID row))]> t |>)
  end.

Definition modelMappingCacheLocked (mappingID cacheType : string) (m : MemoryStore) : list ModelMappingCacheRow :=
  sort_Slice (less_string cr_ScopeKey)
    (map_to_list (filter (fun e => e.1.1 = cacheType) (map_get ∅ (m_mappingCache m) mappingID))).*2.

Definition ModelMappingCache (mappingID cacheType : string) (m : MemoryStore) : list ModelMappingCacheRow :=
  modelMappingCacheLocked mappingID cacheType m.

Definition ModelMappingCacheForMappings (mappingIDs : list string) (cacheType : string) (m : MemoryStore)
  : gmap string (list ModelMappingCacheRow) :=
  foldl (fun out id =>
    let rows := modelMappingCacheLocked id cacheType m in
    if (0 <? length rows)%nat then <[id := rows]> out else out) ∅ mappingIDs.

Definition DeleteModelMappingCache (mappingID : string) (m : MemoryStore) : written :=
  wrote (m <| m_mappingCache ::= delete mappingID |>).

(** ** Benchmark runs *)

Definition InsertBenchmarkRun (run : BenchmarkRun) (newBenchmarkRunID : string) (m : MemoryStore) : written :=
  if negb (has_key (m_mappings m) (br_MappingID run)) then refuse ErrNotFound m
  else
    let run := if String.eqb (br_ID run) "" then run <| br_ID := newBenchmarkRunID |> else run in
    let run := if String.eqb (br_Kind run) "" then run <| br_Kind := "speed" |> else run in
    wrote (m <| m_benchmarks ::= fun t => <[br_MappingID run := map_get [] t (br_MappingID run) ++ [run]]> t |>).

Definition BenchmarkRunsByMapping (mappingID : string) (limit : Z) (m : MemoryStore) : list BenchmarkRun :=
  let limit := if limit <=? 0 then 50 else limit in
  take (Z.to_nat limit) (sort_Slice (fun a b => br_CreatedAt b <? br_CreatedAt a) (map_get [] (m_benchmarks m) mappingID)).

Definition PruneBenchmarkRuns (before : time) (m : MemoryStore) : written :=
  wrote (m <| m_benchmarks ::= fmap (List.filter (fun r => negb (br_CreatedAt r <? before))) |>).

(** ** Launch specs *)

Definition specOfMapping (mappingID : string) (m : MemoryStore) : option (string * RuntimeSpec) :=
  List.find (fun e => String.eqb (sp_MappingID e.2) mappingID) (map_to_list (m_runtimeSpecs m)).

Definition UpsertRuntimeSpec (spec : RuntimeSpec) (m : MemoryStore) : written :=
  if negb (has_key (m_mappings m) (sp_MappingID spec)) then refuse ErrNotFound m
  else
    match specOfMapping (sp_MappingID spec) m with
    | Some (existingID, existing) =>
        let spec := spec <| sp_ID := existingID |> <| sp_CreatedAt := sp_CreatedAt existing |>
                         <| sp_RAMMeasuredMB := sp_RAMMeasuredMB existing |>
                         <| sp_StartupMeasuredMS := sp_StartupMeasuredMS existing |> in
        wrote (m <| m_runtimeSpecs ::= <[existingID := spec]> |>)
    | None =>
        match m_runtimeSpecs m !! sp_ID spec with
        | Some existing =>
            if negb (String.eqb (sp_MappingID existing) (sp_MappingID spec)) then refuse ErrConflict m
            else wrote (m <| m_runtimeSpecs ::= <[sp_ID spec := spec]> |>)
        | None => wrote (m <| m_runtimeSpecs ::= <[sp_ID spec := spec]> |>)
        end
    end.

Definition RuntimeSpecByMapping (mappingID : string) (m : MemoryStore) : option RuntimeSpec :=
  snd <$> specOfMapping mappingID m.

Definition RuntimeSpecByID (id : string) (m : MemoryStore) : option RuntimeSpec := m_runtimeSpecs m !! id.

Definition RuntimeSpecsByApplication (appID : string) (m : MemoryStore) : list RuntimeSpec :=
  sort_Slice (less_string sp_ID)
    (List.filter (fun spec =>
       match m_mappings m !! sp_MappingID spec with
       | Some mapping => String.eqb (mm_ApplicationID mapping) appID
       | None => false
       end) (map_to_list (m_runtimeSpecs m)).*2).

Definition DeleteRuntimeSpec (id : string) (m : MemoryStore) : written :=
  if negb (has_key (m_runtimeSpecs m) id) then refuse ErrNotFound m
  else wrote (m <| m_runtimeSpecs ::= delete id |> <| m_runtimeSpecGPUs ::= delete id |>).

Definition SetRuntimeSpecGPUs (specID : string) (gpus : list RuntimeSpecGPU) (m : MemoryStore) : written :=
  if negb (has_key (m_runtimeSpecs m) specID) then refuse ErrNotFound m
  else if negb (bool_decide (NoDup (sg_GPUIndex <$> gpus))) then refuse ErrConflict m
  else wrote (m <| m_runtimeSpecGPUs ::= <[specID := (fun g => g <| sg_SpecID := specID |>) <$> gpus]> |>).

Definition RuntimeSpecGPUs (specID : string) (m : MemoryStore) : list RuntimeSpecGPU :=
  sort_Slice (less_lex (less_Z sg_Position) (less_Z sg_GPUIndex)) (map_get [] (m_runtimeSpecGPUs m) specID).

(** The first row of the card is written in place. *)
Fixpoint measureGPU (gpuIndex measuredMB : Z) (rows : list RuntimeSpecGPU) : option (list RuntimeSpecGPU) :=
  match rows with
  | [] => None
  | g :: rows =>
      if sg_GPUIndex g =? gpuIndex then Some ((g <| sg_VRAMMeasuredMB := measuredMB |>) :: rows)
      else cons g <$> measureGPU gpuIndex measuredMB rows
  end.

Definition UpdateRuntimeSpecGPUMeasured (specID : string) (gpuIndex measuredMB : Z) (m : MemoryStore) : written :=
  match measureGPU gpuIndex measuredMB (map_get [] (m_runtimeSpecGPUs m) specID) with
  | Some rows => wrote (m <| m_runtimeSpecGPUs ::= <[specID := rows]> |>)
  | None => refuse ErrNotFound m
  end.

Definition UpdateRuntimeSpecRAMMeasured (specID : string) (measuredMB : Z) (m : MemoryStore) : written :=
  match m_runtimeSpecs m !! specID with
  | Some spec => wrote (m <| m_runtimeSpecs ::= <[specID := spec <| sp_RAMMeasuredMB := measuredMB |>]> |>)
  | None => refuse ErrNotFound m
  end.

Definition UpdateRuntimeSpecStartupMeasured (specID : string) (ms : Z) (m : MemoryStore) : written :=
  match m_runtimeSpecs m !! specID with
  | Some spec => wrote (m <| m_runtimeSpecs ::= <[specID := spec <| sp_StartupMeasuredMS := ms |>]> |>)
  | None => refuse ErrNotFound m
  end.

(** ** The co-residency matrix *)

Definition CoResidencyVerdictAllow : string := "allow".
Definition CoResidencyVerdictForbid : string := "forbid".
Definition CoResidencyModeOptIn : string := "opt_in".
Definition CoResidencyModeOptOut : string := "opt_out".

Definition NormalizeCoResidencyVerdict (v : string) : option string :=
  if String.eqb v "" then Some CoResidencyVerdictAllow
  else if String.eqb v CoResidencyVerdictAllow || String.eqb v CoResidencyVerdictForbid then Some v
  else None.

Definition CoResidencyMode_Valid (mode : string) : bool :=
  String.eqb mode CoResidencyModeOptIn || String.eqb mode CoResidencyModeOptOut.

(** The loop that checks and collects the rules. *)
Fixpoint checkRules (appID : string) (m : MemoryStore) (seen : gset (string * string))
    (rules : list (CoResidencyRule * string)) : list CoResidencyRule + storeErr :=
  match rules with
  | [] => inl []
  | (r, verdict) :: rules =>
      if negb (has_key (m_mappings m) (cor_MappingAID r)) then inr ErrNotFound
      else if negb (has_key (m_mappings m) (cor_MappingBID r)) then inr ErrNotFound
      else
        let key := (cor_MappingAID r, cor_MappingBID r) in
        if bool_decide (key ∈ seen) then inr ErrConflict
        else
          match checkRules appID m ({[key]} ∪ seen) rules with
          | inl stored => inl (r <| cor_ApplicationID := appID |> <| cor_Verdict := verdict |> :: stored)
          | inr e => inr e
          end
  end.

Definition SetCoResidencyRules (appID : string) (rules : list CoResidencyRule) (m : MemoryStore) : written :=
  match mapM (fun r => NormalizeCoResidencyVerdict (cor_Verdict r)) rules with
  | None => refuse (ErrInvalid "invalid verdict") m
  | Some verdicts =>
      if negb (has_key (m_applications m) appID) then refuse ErrNotFound m
      else
        match checkRules appID m ∅ (zip rules verdicts) with
        | inl stored => wrote (m <| m_coresidency ::= <[appID := stored]> |>)
        | inr e => refuse e m
        end
  end.

Definition CoResidencyRulesByApplication (appID : string) (m : MemoryStore) : list CoResidencyRule :=
  sort_Slice (less_lex (less_string cor_MappingAID) (less_string cor_MappingBID)) (map_get [] (m_coresidency m) appID).

Definition GetCoResidencyMode (appID : string) (m : MemoryStore) : string + storeErr :=
  if negb (has_key (m_applications m) appID) then inr ErrNotFound
  else match m_coresidencyMode m !! appID with Some mode => inl mode | None => inl CoResidencyModeOptOut end.

Definition SetCoResidencyMode (appID mode : string) (m : MemoryStore) : written :=
  if negb (CoResidencyMode_Valid mode) then refuse (ErrInvalid "invalid coresidency mode") m
  else if negb (has_key (m_applications m) appID) then refuse ErrNotFound m
  else wrote (m <| m_coresidencyMode ::= <[appID := mode]> |>).

(** ** Model groups and settings *)

Definition orDefault (v d : string) : string := if String.eqb v "" then d else v.

Definition groupDefaults (group : ModelGroup) : ModelGroup :=
  group <| mg_FailoverMode ::= fun v => orDefault v "sticky" |>
        <| mg_Traversal ::= fun v => orDefault v "round_robin" |>
        <| mg_MemberOrder ::= fun v => orDefault v "priority" |>
        <| mg_MinSpeedFallback ::= fun v => orDefault v "error" |>.

Definition CreateModelGroup (group : ModelGroup) (m : MemoryStore) : written :=
  if has_key (m_groups m) (mg_ID group) then refuse ErrConflict m
  else wrote (m <| m_groups ::= <[mg_ID group := groupDefaults group]> |>).

Definition UpdateModelGroup (group : ModelGroup) (m : MemoryStore) : written :=
  match m_groups m !! mg_ID group with
  | None => refuse ErrNotFound m
  | Some existing =>
      wrote (m <| m_groups ::= <[mg_ID group := (groupDefaults group) <| mg_CreatedAt := mg_CreatedAt existing |>]> |>)
  end.

Definition ModelGroupByID (id : string) (m : MemoryStore) : ModelGroup + storeErr := byKey (m_groups m) id.

Definition ModelGroups (m : MemoryStore) : list ModelGroup :=
  sort_Slice (less_lex (less_string mg_GatewayModelName) (less_string mg_ID)) (map_to_list (m_groups m)).*2.

Definition DeleteModelGroup (id : string) (m : MemoryStore) : written :=
  if negb (has_key (m_groups m) id) then refuse ErrNotFound m
  else wrote (m <| m_groups ::= delete id |> <| m_groupMembers ::= delete id |>).

(** [newID] is what [newGroupMemberID] draws for a member. *)
Definition storedMember (groupID : string) (newID : string -> string) (now : time) (member : GroupMemberRow) : GroupMemberRow :=
  let member := member <| gm_GroupID := groupID |> in
  let member := if String.eqb (gm_ID member) "" then member <| gm_ID := newID (gm_MemberGatewayName member) |> else member in
  if time_IsZero (gm_CreatedAt member) then member <| gm_CreatedAt := now |> else member.

Definition SetGroupMembers (groupID : string) (members : list GroupMemberRow) (newID : string -> string) (now : time)
    (m : MemoryStore) : written :=
  if negb (has_key (m_groups m) groupID) then refuse ErrNotFound m
  else if negb (bool_decide (NoDup (gm_MemberGatewayName <$> members))) then refuse ErrConflict m
  else wrote (m <| m_groupMembers ::= <[groupID := storedMember groupID newID now <$> members]> |>).

Definition GroupMembersByGroup (groupID : string) (m : MemoryStore) : list GroupMemberRow :=
  sort_Slice (less_lex (less_Z gm_Priority) (less_string gm_ID)) (map_get [] (m_groupMembers m) groupID).

Definition ModelSettings (m : MemoryStore) : list ModelSetting :=
  sort_Slice (less_string mset_GatewayModelName) (map_to_list (m_modelSettings m)).*2.

Definition ModelSettingByName (name : string) (m : MemoryStore) : option ModelSetting := m_modelSettings m !! name.

Definition UpsertModelSetting (setting : ModelSetting) (m : MemoryStore) : written :=
  let setting := setting <| mset_Visibility ::= fun v => orDefault v "shown" |> in
  let setting := match m_modelSettings m !! mset_GatewayModelName setting with
                 | Some existing => setting <| mset_CreatedAt := mset_CreatedAt existing |>
                 | None => setting
                 end in
  wrote (m <| m_modelSettings ::= <[mset_GatewayModelName setting := setting]> |>).
