(* ===== verification/MemoryStoreIntegrity.v ===== *)
(** * Referential integrity of the in-memory store

    The writes of [MemoryStore] as one family ([store_write]), what it means for the tables
    to be intact ([store_ok], in four parts with their frames), and that every write and
    every cascade of a deletion keeps them so ([write_ok], [run_ok]), with what a deletion
    removes stated exactly ([deleteApplications_exact]). *)

From Stdlib Require Import ZArith Lia.
From stdpp Require Import base tactics option list numbers strings gmap sorting.
From S2P Require Import Prelude Float64 RoutingTypes Selection Filters FiltersProps Targets Resolving Samples MemoryStore.
Local Open Scope Z_scope.
Local Open Scope go_scope.

(** ** Writes *)

Inductive store_write : (MemoryStore -> written) -> Prop :=
| w_CreateAIServer host : store_write (CreateAIServer host)
| w_UpdateAIServer host : store_write (UpdateAIServer host)
| w_SetServerHealth id health now : store_write (SetServerHealth id health now)
| w_UpdateServerNetbirdKey id enabled key group : store_write (UpdateServerNetbirdKey id enabled key group)
| w_UpdateServerNetbirdLink id enabled peer : store_write (UpdateServerNetbirdLink id enabled peer)
| w_UpdateServerNetbirdState id domain peer connected : store_write (UpdateServerNetbirdState id domain peer connected)
| w_UpdateServerNetbirdGroups id groups : store_write (UpdateServerNetbirdGroups id groups)
| w_UpdateServerNetbirdPeerManaged id managed : store_write (UpdateServerNetbirdPeerManaged id managed)
| w_UpdateServerNetbirdPolicyOverride id override : store_write (UpdateServerNetbirdPolicyOverride id override)
| w_UpdateServerNetbirdAllowPing id allow : store_write (UpdateServerNetbirdAllowPing id allow)
| w_UpdateServerNetbirdPingExclude id exclude : store_write (UpdateServerNetbirdPingExclude id exclude)
| w_UpdateServerEnergyConfig id watts idle price pue unit : store_write (UpdateServerEnergyConfig id watts idle price pue unit)
| w_UpdateServerSystemGroup id group : store_write (UpdateServerSystemGroup id group)
| w_UpdateServerCertificateOverride id override : store_write (UpdateServerCertificateOverride id override)
| w_UpdateServerHTTPSSwitchOverride id override : store_write (UpdateServerHTTPSSwitchOverride id override)
| w_DeleteAIServer id : store_write (DeleteAIServer id)
| w_SetServerOwners id users : store_write (SetServerOwners id users)
| w_SetServerAdminGroup id group now : store_write (SetServerAdminGroup id group now)
| w_RemoveServerAdminGroup id group : store_write (RemoveServerAdminGroup id group)
| w_UpsertTelemetry t : store_write (UpsertTelemetry t)
| w_UpsertServerHardware hw : store_write (UpsertServerHardware hw)
| w_InsertTelemetrySample s : store_write (InsertTelemetrySample s)
| w_PruneTelemetrySamples t : store_write (PruneTelemetrySamples t)
| w_InsertServerAvailabilitySample s : store_write (InsertServerAvailabilitySample s)
| w_PruneServerAvailabilitySamples t : store_write (PruneServerAvailabilitySamples t)
| w_SetServerGPUBudgets id budgets : store_write (SetServerGPUBudgets id budgets)
| w_UpsertServerRuntimeReport r : store_write (UpsertServerRuntimeReport r)
| w_DeleteServerRuntimeReport id : store_write (DeleteServerRuntimeReport id)
| w_UpsertAgentToken token hash : store_write (UpsertAgentToken token hash)
| w_DeleteAgentTokenByServer id : store_write (DeleteAgentTokenByServer id)
| w_LookupAgentToken hash now : store_write (fun m => (None, (LookupAgentToken hash now m).2))
| w_UpsertCertificate cert : store_write (UpsertCertificate cert)
| w_DeleteCertificate domain : store_write (DeleteCertificate domain)
| w_UpsertAffinity a : store_write (UpsertAffinity a)
| w_DeleteAffinity key : store_write (DeleteAffinity key)
| w_CreateApplication app : store_write (CreateApplication app)
| w_UpdateApplication app : store_write (UpdateApplication app)
| w_DeleteApplication id : store_write (DeleteApplication id)
| w_CreateMapping x : store_write (CreateMapping x)
| w_UpdateMapping x : store_write (UpdateMapping x)
| w_UpdateMappingEditable x mask : store_write (UpdateMappingEditable x mask)
| w_UpdateMappingContextProbe id n at_ : store_write (UpdateMappingContextProbe id n at_)
| w_UpdateMappingBenchmarkMetrics id g p l at_ : store_write (UpdateMappingBenchmarkMetrics id g p l at_)
| w_UpdateMappingOpportunisticMetrics id g p a at_ : store_write (UpdateMappingOpportunisticMetrics id g p a at_)
| w_UpdateMappingEnergyEWMA id s a at_ : store_write (UpdateMappingEnergyEWMA id s a at_)
| w_UpdateMappingCapacityMetrics id x r g at_ : store_write (UpdateMappingCapacityMetrics id x r g at_)
| w_ClearMappingAudioConcurrency id : store_write (ClearMappingAudioConcurrency id)
| w_UpdateMappingAudioMetrics id am source at_ : store_write (UpdateMappingAudioMetrics id am source at_)
| w_DeleteMapping id : store_write (DeleteMapping id)
| w_UpsertMappingCapabilities id rows : store_write (UpsertMappingCapabilities id rows)
| w_DeleteMappingCapability id name : store_write (DeleteMappingCapability id name)
| w_UpsertModelMappingCache row : store_write (UpsertModelMappingCache row)
| w_DeleteModelMappingCache id : store_write (DeleteModelMappingCache id)
| w_InsertBenchmarkRun run id : store_write (InsertBenchmarkRun run id)
| w_PruneBenchmarkRuns t : store_write (PruneBenchmarkRuns t)
| w_UpsertRuntimeSpec spec : store_write (UpsertRuntimeSpec spec)
| w_DeleteRuntimeSpec id : store_write (DeleteRuntimeSpec id)
| w_SetRuntimeSpecGPUs id gpus : store_write (SetRuntimeSpecGPUs id gpus)
| w_UpdateRuntimeSpecGPUMeasured id i mb : store_write (UpdateRuntimeSpecGPUMeasured id i mb)
| w_UpdateRuntimeSpecRAMMeasured id mb : store_write (UpdateRuntimeSpecRAMMeasured id mb)
| w_UpdateRuntimeSpecStartupMeasured id ms : store_write (UpdateRuntimeSpecStartupMeasured id ms)
| w_SetCoResidencyRules id rules : store_write (SetCoResidencyRules id rules)
| w_SetCoResidencyMode id mode : store_write (SetCoResidencyMode id mode)
| w_CreateModelGroup g : store_write (CreateModelGroup g)
| w_UpdateModelGroup g : store_write (UpdateModelGroup g)
| w_DeleteModelGroup id : store_write (DeleteModelGroup id)
| w_SetGroupMembers id l newID now : store_write (SetGroupMembers id l newID now)
| w_UpsertModelSetting s : store_write (UpsertModelSetting s).

Definition runWrites (ws : list (MemoryStore -> written)) : MemoryStore :=
  foldl (fun m w => (w m).2) NewMemoryStore ws.

(** ** Integrity *)

Definition in_table `{Countable K} {V} (t : gmap K V) (k : K) : Prop := is_Some (t !! k).

(** The audio columns as a benchmark could have left them. *)
Record audio_ok (x : ModelMapping) : Prop := {
  ao_columns : ValidateAudioMetrics (mkAudioMetrics (mm_AudioRateX x) 0 0 (mm_AudioConcurrencyLimit x) 0) = None;
  ao_ttfa : 0 <= mm_AudioTTFAMS x;
  ao_count : 0 <= mm_AudioRealtimeConcurrency x;
  ao_pair : mm_AudioConcurrencyLimit x = "" -> mm_AudioRealtimeConcurrency x = 0
}.

Record servers_ok (m : MemoryStore) : Prop := {
  so_servers id s : m_servers m !! id = Some s -> srv_ID s = id;
  so_telemetry id t : m_telemetry m !! id = Some t -> tel_ServerID t = id /\ in_table (m_servers m) id;
  so_hardware id t : m_hardware m !! id = Some t -> hw_ServerID t = id /\ in_table (m_servers m) id;
  so_samples id l : m_samples m !! id = Some l -> in_table (m_servers m) id;
  so_avail id l : m_availSamples m !! id = Some l -> in_table (m_servers m) id;
  so_admin id l : m_serverAdminGroups m !! id = Some l -> in_table (m_servers m) id;
  so_budgets id l : m_gpuBudgets m !! id = Some l -> NoDup (gb_GPUIndex <$> l) /\ in_table (m_servers m) id;
  so_reports id r : m_runtimeReports m !! id = Some r -> rr_ServerID r = id /\ in_table (m_servers m) id;
  so_tokens id r : m_agentTokens m !! id = Some r -> at_ServerID (atr_token r) = id /\ in_table (m_servers m) id;
  so_secrets id1 id2 r1 r2 : m_agentTokens m !! id1 = Some r1 -> m_agentTokens m !! id2 = Some r2 ->
    atr_secretHash r1 = atr_secretHash r2 -> id1 = id2;
  so_certificates domain c : m_certificates m !! domain = Some c ->
    ct_Domain c = domain /\ (ct_ServerID c = "" \/ in_table (m_servers m) (ct_ServerID c))
}.

Record applications_ok (m : MemoryStore) : Prop := {
  apo_rows id a : m_applications m !! id = Some a -> app_ID a = id /\ in_table (m_servers m) (app_ServerID a);
  apo_ports id1 id2 a1 a2 : id1 <> "" -> id2 <> "" -> m_applications m !! id1 = Some a1 -> m_applications m !! id2 = Some a2 ->
    app_ServerID a1 = app_ServerID a2 -> app_Port a1 = app_Port a2 -> id1 = id2;
  apo_agent id1 id2 a1 a2 : id1 <> "" -> id2 <> "" -> m_applications m !! id1 = Some a1 -> m_applications m !! id2 = Some a2 ->
    app_ServerID a1 = app_ServerID a2 -> app_Type a1 = ProviderServerAgent -> app_Type a2 = ProviderServerAgent -> id1 = id2;
  apo_mode id mode : m_coresidencyMode m !! id = Some mode ->
    CoResidencyMode_Valid mode = true /\ in_table (m_applications m) id;
  apo_rules id rules : m_coresidency m !! id = Some rules -> in_table (m_applications m) id /\
    forall r, r ∈ rules -> in_table (m_mappings m) (cor_MappingAID r) /\ in_table (m_mappings m) (cor_MappingBID r)
}.

Record mappings_ok (m : MemoryStore) : Prop := {
  mo_rows id x : m_mappings m !! id = Some x ->
    mm_ID x = id /\ in_table (m_applications m) (mm_ApplicationID x) /\ audio_ok x;
  mo_benchmarks id l : m_benchmarks m !! id = Some l -> in_table (m_mappings m) id;
  mo_caps id t : m_mappingCapabilities m !! id = Some t -> in_table (m_mappings m) id /\
    forall name row, t !! name = Some row -> cap_Capability row = name /\ ValidateCapabilityRow row = None;
  mo_cache id t : m_mappingCache m !! id = Some t -> in_table (m_mappings m) id /\
    forall key row, t !! key = Some row -> cr_MappingID row = id /\ key = (cr_CacheType row, cr_ScopeKey row);
  mo_specs id s : m_runtimeSpecs m !! id = Some s -> sp_ID s = id /\ in_table (m_mappings m) (sp_MappingID s);
  mo_one_spec id1 id2 s1 s2 : m_runtimeSpecs m !! id1 = Some s1 -> m_runtimeSpecs m !! id2 = Some s2 ->
    sp_MappingID s1 = sp_MappingID s2 -> id1 = id2;
  mo_gpus id l : m_runtimeSpecGPUs m !! id = Some l -> NoDup (sg_GPUIndex <$> l) /\ in_table (m_runtimeSpecs m) id
}.

Record groups_ok (m : MemoryStore) : Prop := {
  go_rows id g : m_groups m !! id = Some g -> mg_ID g = id /\ mg_FailoverMode g <> "" /\ mg_MemberOrder g <> "";
  go_members id l : m_groupMembers m !! id = Some l -> NoDup (gm_MemberGatewayName <$> l) /\ in_table (m_groups m) id;
  go_settings name s : m_modelSettings m !! name = Some s -> mset_GatewayModelName s = name /\ mset_Visibility s <> "";
  go_pins key a : m_affinities m !! key = Some a -> affinityKeyOf a = key
}.

Record store_ok (m : MemoryStore) : Prop := {
  sto_servers : servers_ok m;
  sto_applications : applications_ok m;
  sto_mappings : mappings_ok m;
  sto_groups : groups_ok m
}.

(** ** Frames: a write keeps the part whose tables it does not touch *)

(** The server tables of [m'] are those of [m], and no server is lost. *)
Definition grows {V} (t t' : gmap string V) : Prop := forall id, in_table t id -> in_table t' id.

Lemma grows_refl {V} (t : gmap string V) : grows t t.
Proof. by intros id. Qed.

Lemma grows_insert {V} (t : gmap string V) id v : grows t (<[id := v]> t).
Proof. intros id'. unfold in_table. rewrite lookup_insert_is_Some. destruct (decide (id = id')); eauto. Qed.

Lemma in_insert {V} (t : gmap string V) id v : in_table (<[id := v]> t) id.
Proof. unfold in_table. rewrite lookup_insert_eq. eauto. Qed.

Lemma in_has_key {V} (t : gmap string V) id : has_key t id = true -> in_table t id.
Proof. apply has_key_true. Qed.

Create HintDb store.
#[local] Hint Resolve grows_refl grows_insert in_insert in_has_key : store.

(** Reads the lookups of a hypothesis off an updated table. *)
Ltac look :=
  repeat match goal with
  | H : <[_ := _]> _ !! _ = Some _ |- _ => apply lookup_insert_Some in H as [[? ?]|[? ?]]
  | H : delete _ _ !! _ = Some _ |- _ => apply lookup_delete_Some in H as [? ?]
  | H : fmap _ _ !! _ = Some _ |- _ => apply lookup_fmap_Some in H as (? & ? & ?)
  | H : deleteWhere _ _ !! _ = Some _ |- _ => apply map_lookup_filter_Some in H as [? ?]
  | H : filter _ _ !! _ = Some _ |- _ => apply map_lookup_filter_Some in H as [? ?]
  end; simplify_eq/=.

Section frames.
Context (m m' : MemoryStore).

Lemma servers_frame :
  m_servers m' = m_servers m -> m_telemetry m' = m_telemetry m -> m_hardware m' = m_hardware m ->
  m_samples m' = m_samples m -> m_availSamples m' = m_availSamples m ->
  m_serverAdminGroups m' = m_serverAdminGroups m -> m_gpuBudgets m' = m_gpuBudgets m ->
  m_runtimeReports m' = m_runtimeReports m -> m_agentTokens m' = m_agentTokens m ->
  m_certificates m' = m_certificates m -> servers_ok m -> servers_ok m'.
Proof. intros E1 E2 E3 E4 E5 E6 E7 E8 E9 E10 []. split; rewrite ?E1, ?E2, ?E3, ?E4, ?E5, ?E6, ?E7, ?E8, ?E9, ?E10; done. Qed.

Lemma applications_frame :
  grows (m_servers m) (m_servers m') -> m_applications m' = m_applications m ->
  m_coresidencyMode m' = m_coresidencyMode m -> m_coresidency m' = m_coresidency m ->
  grows (m_mappings m) (m_mappings m') -> applications_ok m -> applications_ok m'.
Proof.
  intros G1 E2 E3 E4 G5 [H1 H2 H3 H4 H5]. split; rewrite ?E2, ?E3, ?E4; try done.
  - intros id a Ha. destruct (H1 id a Ha). auto.
  - intros id rules Hr. destruct (H5 id rules Hr) as [? Hm]. split; [done|]. intros r Hin. destruct (Hm r Hin). auto.
Qed.

Lemma mappings_frame :
  grows (m_applications m) (m_applications m') -> m_mappings m' = m_mappings m -> m_benchmarks m' = m_benchmarks m ->
  m_mappingCapabilities m' = m_mappingCapabilities m -> m_mappingCache m' = m_mappingCache m ->
  m_runtimeSpecs m' = m_runtimeSpecs m -> m_runtimeSpecGPUs m' = m_runtimeSpecGPUs m -> mappings_ok m -> mappings_ok m'.
Proof.
  intros G1 E2 E3 E4 E5 E6 E7 [H1 H2 H3 H4 H5 H6 H7]. split; rewrite ?E2, ?E3, ?E4, ?E5, ?E6, ?E7; try done.
  intros id x Hx. destruct (H1 id x Hx) as (? & ? & ?). auto.
Qed.

Lemma groups_frame :
  m_groups m' = m_groups m -> m_groupMembers m' = m_groupMembers m -> m_modelSettings m' = m_modelSettings m ->
  m_affinities m' = m_affinities m -> groups_ok m -> groups_ok m'.
Proof. intros E1 E2 E3 E4 []. split; rewrite ?E1, ?E2, ?E3, ?E4; done. Qed.
End frames.

(** Splits the integrity of a written store, closing the parts that are framed. *)
Ltac framed :=
  match goal with
  | HI : store_ok ?m |- store_ok ?m' =>
      let HS := fresh "HS" in let HA := fresh "HA" in let HM := fresh "HM" in let HG := fresh "HG" in
      pose proof HI as [HS HA HM HG]; split;
      [ try (by apply (servers_frame m m'))
      | try (by (apply (applications_frame m m'); cbn; auto with store))
      | try (by (apply (mappings_frame m m'); cbn; auto with store))
      | try (by apply (groups_frame m m')) ]
  end.

(** Unfolds a write, closes its refusals and frames what it does not touch. *)
Ltac written_by X :=
  intros HI; unfold X; repeat (case_match; try exact HI); unfold wrote, refuse; try exact HI; cbn [snd]; bool_hyps; framed.

(** Opens one part, closing the tables that did not change. *)
Ltac opened H := destruct H; split; cbn; try assumption.

Section integrity.
Context (m : MemoryStore).

(** *** Servers *)

Lemma servers_grow m' :
  (forall id s, m_servers m' !! id = Some s -> srv_ID s = id) -> grows (m_servers m) (m_servers m') ->
  m_telemetry m' = m_telemetry m -> m_hardware m' = m_hardware m ->
  m_samples m' = m_samples m -> m_availSamples m' = m_availSamples m ->
  m_serverAdminGroups m' = m_serverAdminGroups m -> m_gpuBudgets m' = m_gpuBudgets m ->
  m_runtimeReports m' = m_runtimeReports m -> m_agentTokens m' = m_agentTokens m ->
  m_certificates m' = m_certificates m -> servers_ok m -> servers_ok m'.
Proof.
  intros Hk G E2 E3 E4 E5 E6 E7 E8 E9 E10 [H1 H2 H3 H4 H5 H6 H7 H8 H9 H10 H11].
  split; rewrite ?E2, ?E3, ?E4, ?E5, ?E6, ?E7, ?E8, ?E9, ?E10; try done; intros id t Ht.
  - destruct (H2 id t Ht). auto.
  - destruct (H3 id t Ht). auto.
  - eauto.
  - eauto.
  - eauto.
  - destruct (H7 id t Ht). auto.
  - destruct (H8 id t Ht). auto.
  - destruct (H9 id t Ht). auto.
  - destruct (H11 id t Ht) as [? [?|?]]; auto.
Qed.

Lemma server_put id s : srv_ID s = id -> servers_ok m -> servers_ok (m <| m_servers ::= <[id := s]> |>).
Proof.
  intros Hid HS. apply servers_grow; cbn; auto using grows_insert.
  intros id' s' H'. look; [done|]. by eapply so_servers.
Qed.

Lemma CreateAIServer_ok host : store_ok m -> store_ok (CreateAIServer host m).2.
Proof. written_by CreateAIServer. by apply server_put. Qed.

Lemma UpdateAIServer_ok host : store_ok m -> store_ok (UpdateAIServer host m).2.
Proof. written_by UpdateAIServer. by apply server_put. Qed.

Lemma updateServer_ok id set :
  (forall server, srv_ID (set server) = srv_ID server) -> store_ok m -> store_ok (updateServer id set m).2.
Proof. intros Hset. written_by updateServer. apply server_put; [|done]. rewrite Hset. by eapply so_servers. Qed.

Lemma SetServerOwners_ok id users : store_ok m -> store_ok (SetServerOwners id users m).2.
Proof. written_by SetServerOwners. Qed.

Lemma SetServerAdminGroup_ok id group now : store_ok m -> store_ok (SetServerAdminGroup id group now m).2.
Proof.
  written_by SetServerAdminGroup; opened HS; intros; look; eauto with store.
Qed.

Lemma RemoveServerAdminGroup_ok id group : store_ok m -> store_ok (RemoveServerAdminGroup id group m).2.
Proof. written_by RemoveServerAdminGroup. opened HS. intros; look; eauto. Qed.

Lemma UpsertTelemetry_ok t : store_ok m -> store_ok (UpsertTelemetry t m).2.
Proof. written_by UpsertTelemetry. opened HS. intros; look; eauto with store. Qed.

Lemma UpsertServerHardware_ok t : store_ok m -> store_ok (UpsertServerHardware t m).2.
Proof. written_by UpsertServerHardware. opened HS. intros; look; eauto with store. Qed.

Lemma InsertTelemetrySample_ok t : store_ok m -> store_ok (InsertTelemetrySample t m).2.
Proof. written_by InsertTelemetrySample. opened HS. intros; look; eauto with store. Qed.

Lemma PruneTelemetrySamples_ok t : store_ok m -> store_ok (PruneTelemetrySamples t m).2.
Proof. written_by PruneTelemetrySamples. opened HS. intros; look; eauto with store. Qed.

Lemma InsertServerAvailabilitySample_ok t : store_ok m -> store_ok (InsertServerAvailabilitySample t m).2.
Proof. written_by InsertServerAvailabilitySample. opened HS. intros; look; eauto with store. Qed.

Lemma PruneServerAvailabilitySamples_ok t : store_ok m -> store_ok (PruneServerAvailabilitySamples t m).2.
Proof. written_by PruneServerAvailabilitySamples. opened HS. intros; look; eauto with store. Qed.

Lemma SetServerGPUBudgets_ok id l : store_ok m -> store_ok (SetServerGPUBudgets id l m).2.
Proof.
  written_by SetServerGPUBudgets. opened HS. intros; look; [|eauto]. split; [|by apply in_has_key].
  by rewrite <- list_fmap_compose.
Qed.

Lemma UpsertServerRuntimeReport_ok r : store_ok m -> store_ok (UpsertServerRuntimeReport r m).2.
Proof. written_by UpsertServerRuntimeReport. opened HS. intros; look; eauto with store. Qed.

Lemma DeleteServerRuntimeReport_ok id : store_ok m -> store_ok (DeleteServerRuntimeReport id m).2.
Proof. written_by DeleteServerRuntimeReport. opened HS. intros; look; eauto with store. Qed.

(** A stored token's secret is its own. *)
Lemma token_put id token hash :
  in_table (m_servers m) id -> at_ServerID token = id ->
  (forall id' r, m_agentTokens m !! id' = Some r -> atr_secretHash r = hash -> id' = id) ->
  servers_ok m -> servers_ok (m <| m_agentTokens ::= <[id := mkAgentTokenRecord token hash]> |>).
Proof.
  intros Hin Hid Hu HS. opened HS.
  - intros; look; eauto.
  - intros id1 id2 r1 r2 H1 H2 E. look; eauto; symmetry; eauto.
Qed.

Lemma UpsertAgentToken_ok token hash : store_ok m -> store_ok (UpsertAgentToken token hash m).2.
Proof.
  written_by UpsertAgentToken.
  all: apply token_put; [by apply in_has_key|done| |done].
  all: intros id' r Hr Eh; destruct (decide (id' = at_ServerID token)) as [|Hne]; [done|]; exfalso.
  all: match goal with H : existsb ?f _ = false |- _ => assert (existsb f (map_to_list (m_agentTokens m)) = true); [|congruence] end.
  all: apply existsb_exists; exists (id', r); split; [by apply list_elem_of_In, elem_of_map_to_list|].
  all: apply andb_true_iff; split; [by apply negb_true_iff, String.eqb_neq|by apply String.eqb_eq].
Qed.

Lemma DeleteAgentTokenByServer_ok id : store_ok m -> store_ok (DeleteAgentTokenByServer id m).2.
Proof. written_by DeleteAgentTokenByServer. opened HS; intros; look; eauto. Qed.

Lemma LookupAgentToken_ok hash now : store_ok m -> store_ok (LookupAgentToken hash now m).2.
Proof.
  intros HI. unfold LookupAgentToken. destruct (List.find _ _) as [[id rec]|] eqn:Ef; [|done]. cbn [snd].
  apply find_some in Ef as [Hin _]. apply list_elem_of_In, elem_of_map_to_list in Hin. framed.
  pose proof (so_tokens _ HS _ _ Hin) as [? ?]. apply token_put; [done|done| |done].
  intros id' r Hr Eh. by eapply so_secrets.
Qed.

Lemma UpsertCertificate_ok cert : store_ok m -> store_ok (UpsertCertificate cert m).2.
Proof.
  written_by UpsertCertificate; opened HS; intros; look; eauto.
  all: split; [done|]. all: match goal with H : _ && _ = false |- _ => apply andb_false_iff in H as [H|H] end; bool_hyps; eauto using in_has_key.
Qed.

Lemma DeleteCertificate_ok domain : store_ok m -> store_ok (DeleteCertificate domain m).2.
Proof. written_by DeleteCertificate. opened HS. intros; look; eauto. Qed.

(** *** Pins, groups, settings *)

Lemma UpsertAffinity_ok a : store_ok m -> store_ok (UpsertAffinity a m).2.
Proof. written_by UpsertAffinity. opened HG. intros; look; eauto. Qed.

Lemma DeleteAffinity_ok key : store_ok m -> store_ok (DeleteAffinity key m).2.
Proof. written_by DeleteAffinity. opened HG. intros; look; eauto. Qed.

Lemma orDefault_nonempty v d : d <> "" -> orDefault v d <> "".
Proof. unfold orDefault. destruct (String.eqb_spec v ""); congruence. Qed.

(** A stored group has its defaults; its members stay. *)
Lemma group_put id g :
  mg_ID g = id -> mg_FailoverMode g <> "" -> mg_MemberOrder g <> "" -> groups_ok m ->
  groups_ok (m <| m_groups ::= <[id := g]> |>).
Proof.
  intros Hid H1 H2 [Hr Hm Hs Hp]. split; cbn; try done; intros; look; eauto.
  match goal with H : m_groupMembers m !! _ = Some _ |- _ => destruct (Hm _ _ H) end. split; [done|]. by apply grows_insert.
Qed.

Lemma CreateModelGroup_ok g : store_ok m -> store_ok (CreateModelGroup g m).2.
Proof. written_by CreateModelGroup. apply group_put; cbn; auto using orDefault_nonempty. Qed.

Lemma UpdateModelGroup_ok g : store_ok m -> store_ok (UpdateModelGroup g m).2.
Proof. written_by UpdateModelGroup. apply group_put; cbn; auto using orDefault_nonempty. Qed.

Lemma DeleteModelGroup_ok id : store_ok m -> store_ok (DeleteModelGroup id m).2.
Proof.
  written_by DeleteModelGroup. destruct HG as [Hr Hm Hs Hp]. split; cbn; try done; intros; look; eauto.
  match goal with H : m_groupMembers m !! _ = Some _ |- _ => destruct (Hm _ _ H) end. split; [done|]. unfold in_table. by rewrite lookup_delete_ne.
Qed.

Lemma storedMember_name id newID now x : gm_MemberGatewayName (storedMember id newID now x) = gm_MemberGatewayName x.
Proof. unfold storedMember. by repeat case_match. Qed.

Lemma SetGroupMembers_ok id l newID now : store_ok m -> store_ok (SetGroupMembers id l newID now m).2.
Proof.
  written_by SetGroupMembers. opened HG. intros; look; [|eauto]. split; [|by apply in_has_key].
  rewrite <- list_fmap_compose. erewrite list_fmap_ext; [done|]. intros; apply storedMember_name.
Qed.

Lemma UpsertModelSetting_ok x : store_ok m -> store_ok (UpsertModelSetting x m).2.
Proof. written_by UpsertModelSetting; opened HG; intros; look; eauto using orDefault_nonempty. Qed.

(** *** Applications *)

Lemma portTaken_spec server port exclude :
  applicationPortTakenLocked server port exclude m = false <->
  forall id a, m_applications m !! id = Some a -> id <> exclude -> app_ServerID a = server -> app_Port a <> port.
Proof.
  unfold applicationPortTakenLocked. rewrite <- not_true_iff_false, existsb_exists. split.
  - intros Hn id a Ha Hne Hs Hp. apply Hn. exists (id, a). split; [by apply list_elem_of_In, elem_of_map_to_list|].
    rewrite (proj2 (String.eqb_neq _ _) Hne). subst. by rewrite String.eqb_refl, Z.eqb_refl.
  - intros H ([id a] & Hin%list_elem_of_In & Hc). apply elem_of_map_to_list in Hin.
    destruct (String.eqb_spec id exclude); [done|]. bool_hyps. by eapply H.
Qed.

Lemma agentExists_spec server exclude :
  serverAgentApplicationExistsLocked server exclude m = false <->
  forall id a, m_applications m !! id = Some a -> id <> exclude -> app_ServerID a = server -> app_Type a <> ProviderServerAgent.
Proof.
  unfold serverAgentApplicationExistsLocked. rewrite <- not_true_iff_false, existsb_exists. split.
  - intros Hn id a Ha Hne Hs Hp. apply Hn. exists (id, a). split; [by apply list_elem_of_In, elem_of_map_to_list|].
    rewrite (proj2 (String.eqb_neq _ _) Hne). subst. rewrite Hp. by rewrite !String.eqb_refl.
  - intros H ([id a] & Hin%list_elem_of_In & Hc). apply elem_of_map_to_list in Hin.
    destruct (String.eqb_spec id exclude); [done|]. bool_hyps. by eapply H.
Qed.

(** An application is stored when no other one of its server has its port or, for an
    agent's, is an agent's. *)
Lemma application_put app exclude :
  (exclude = "" \/ exclude = app_ID app) -> in_table (m_servers m) (app_ServerID app) ->
  applicationPortTakenLocked (app_ServerID app) (app_Port app) exclude m = false ->
  (app_Type app = ProviderServerAgent -> serverAgentApplicationExistsLocked (app_ServerID app) exclude m = false) ->
  applications_ok m -> applications_ok (m <| m_applications ::= <[app_ID app := app]> |>).
Proof.
  intros Hx Hs Hport Hagent [H1 H2 H3 H4 H5]. rewrite portTaken_spec in Hport.
  assert (Hother : forall id a, id <> "" -> m_applications m !! id = Some a -> id <> app_ID app -> id <> exclude)
    by (intros id a Hne Ha Hid; destruct Hx as [->| ->]; done).
  split; cbn.
  - intros; look; eauto.
  - intros id1 id2 a1 a2 Hn1 Hn2 E1 E2 Es Ep. look; try done; [..|by eapply H2].
    + exfalso. eapply Hport; [done| |done|done]. eapply Hother; eauto.
    + exfalso. eapply Hport; [done| |done|done]. eapply Hother; eauto.
  - intros id1 id2 a1 a2 Hn1 Hn2 E1 E2 Es Et1 Et2. look; try done; [..|by eapply H3].
    all: exfalso; first [specialize (Hagent Et1)|specialize (Hagent Et2)].
    all: rewrite agentExists_spec in Hagent; eapply Hagent; [done| |done|done]; eapply Hother; eauto.
  - intros id mode Hm. destruct (H4 id mode Hm). split; [done|]. by apply grows_insert.
  - intros id rules Hr. destruct (H5 id rules Hr). split; [|done]. by apply grows_insert.
Qed.

Lemma CreateApplication_ok app : store_ok m -> store_ok (CreateApplication app m).2.
Proof.
  written_by CreateApplication. apply (application_put app ""); auto using in_has_key.
  intros Et. match goal with H : _ && _ = false |- _ => rewrite Et in H; exact H end.
Qed.

Lemma UpdateApplication_ok app : store_ok m -> store_ok (UpdateApplication app m).2.
Proof.
  written_by UpdateApplication. apply (application_put app (app_ID app)); auto using in_has_key.
  intros Et. match goal with H : _ && _ = false |- _ => rewrite Et in H; exact H end.
Qed.

Lemma SetCoResidencyMode_ok id mode : store_ok m -> store_ok (SetCoResidencyMode id mode m).2.
Proof. written_by SetCoResidencyMode. opened HA. intros; look; eauto using in_has_key. Qed.

Lemma checkRules_mappings appID seen rules stored :
  checkRules appID m seen rules = inl stored ->
  forall r, r ∈ stored -> in_table (m_mappings m) (cor_MappingAID r) /\ in_table (m_mappings m) (cor_MappingBID r).
Proof.
  revert seen stored. induction rules as [|[r v] rules IH]; intros seen stored; cbn [checkRules]; [intros [= <-]; set_solver|].
  destruct (has_key _ (cor_MappingAID r)) eqn:E1; [|done]. destruct (has_key _ (cor_MappingBID r)) eqn:E2; [|done]. cbn.
  case_bool_decide; [done|]. destruct (checkRules _ _ _ rules) as [l|] eqn:El; [|done]. intros [= <-] r' [->|Hin]%elem_of_cons.
  - cbn. auto using in_has_key.
  - by eapply IH.
Qed.

Lemma SetCoResidencyRules_ok id rules : store_ok m -> store_ok (SetCoResidencyRules id rules m).2.
Proof.
  written_by SetCoResidencyRules. opened HA. intros; look; [|eauto]. split; [by apply in_has_key|]. by eapply checkRules_mappings.
Qed.

(** *** Mappings *)

(** A row put under its identifier, its caches dropped or kept. *)
Lemma mapping_put m1 x :
  m_servers m1 = m_servers m -> m_applications m1 = m_applications m -> m_mappings m1 = m_mappings m ->
  m_coresidencyMode m1 = m_coresidencyMode m -> m_coresidency m1 = m_coresidency m ->
  m_benchmarks m1 = m_benchmarks m -> m_mappingCapabilities m1 = m_mappingCapabilities m ->
  (forall id t, m_mappingCache m1 !! id = Some t -> m_mappingCache m !! id = Some t) ->
  m_runtimeSpecs m1 = m_runtimeSpecs m -> m_runtimeSpecGPUs m1 = m_runtimeSpecGPUs m ->
  in_table (m_applications m) (mm_ApplicationID x) -> audio_ok x ->
  store_ok m -> servers_ok m1 -> groups_ok m1 -> store_ok (m1 <| m_mappings ::= <[mm_ID x := x]> |>).
Proof.
  intros E1 E2 E3 E4 E5 E6 E7 E8 E9 E10 Happ Ha [_ HA HM _] HS HG. split.
  - by apply (servers_frame m1).
  - apply (applications_frame m); cbn; rewrite ?E1, ?E3; auto with store.
  - destruct HM as [H1 H2 H3 H4 H5 H6 H7]. split; cbn; rewrite ?E2, ?E3, ?E6, ?E7, ?E9, ?E10; try done.
    + intros; look; eauto.
    + intros id l Hl. apply grows_insert. eauto.
    + intros id t Ht. destruct (H3 id t Ht). split; [|done]. by apply grows_insert.
    + intros id t Ht%E8. destruct (H4 id t Ht). split; [|done]. by apply grows_insert.
    + intros id t Ht. destruct (H5 id t Ht). split; [done|]. by apply grows_insert.
  - by apply (groups_frame m1).
Qed.

Lemma ValidateMapping_ok x : ValidateMappingAudioMetrics x = None -> audio_ok x.
Proof.
  unfold ValidateMappingAudioMetrics. destruct (ValidateAudioMetrics _) eqn:E; [done|].
  repeat (case_match; [done|]). intros _. bool_hyps. split; try done.
  intros Hl. rewrite Hl in *. cbn in *. bool_hyps. lia.
Qed.

Lemma invalidate_ok stored name :
  store_ok m -> store_ok (invalidateMappingCacheOnRenameLocked stored name m).
Proof.
  intros HI. unfold invalidateMappingCacheOnRenameLocked. case_match; [|done]. framed. opened HM. intros; look; eauto.
Qed.

Lemma mapping_put_renamed stored name x :
  in_table (m_applications m) (mm_ApplicationID x) -> audio_ok x -> store_ok m ->
  store_ok ((invalidateMappingCacheOnRenameLocked stored name m) <| m_mappings ::= <[mm_ID x := x]> |>).
Proof.
  intros Happ Ha HI. pose proof (invalidate_ok stored name HI) as [HS _ _ HG]. revert HS HG.
  unfold invalidateMappingCacheOnRenameLocked. case_match; intros HS HG; apply mapping_put; cbn; try done.
  intros id t Ht. by look.
Qed.

Lemma CreateMapping_ok x : store_ok m -> store_ok (CreateMapping x m).2.
Proof.
  intros HI. unfold CreateMapping. destruct (ValidateMappingAudioMetrics x) eqn:Ev; [done|].
  do 2 (case_match; [done|]). bool_hyps. pose proof HI as [HS _ _ HG].
  apply mapping_put; auto using in_has_key, ValidateMapping_ok.
Qed.

Lemma UpdateMapping_ok x : store_ok m -> store_ok (UpdateMapping x m).2.
Proof.
  intros HI. unfold UpdateMapping. destruct (ValidateMappingAudioMetrics x) eqn:Ev; [done|].
  destruct (m_mappings m !! _); [|done]. case_match; [done|]. bool_hyps.
  apply mapping_put_renamed; auto using in_has_key, ValidateMapping_ok.
Qed.

(** A column other than those a conditional step sets. *)
Lemma when_other {B} (p : ModelMapping -> B) b f e : (forall e, p (f e) = p e) -> p (when b f e) = p e.
Proof. intros Hp. destruct b; [apply Hp|done]. Qed.

Lemma whenSome_other {B C} (p : ModelMapping -> B) (v : option C) f e : (forall c e, p (f c e) = p e) -> p (whenSome v f e) = p e.
Proof. intros Hp. destruct v; [apply Hp|done]. Qed.

Lemma overlay_columns k x e :
  mm_ID (overlay k x e) = mm_ID e /\ mm_ApplicationID (overlay k x e) = mm_ApplicationID x /\
  mm_AudioRateX (overlay k x e) = (if mk_AudioRateX k then mm_AudioRateX x else mm_AudioRateX e) /\
  mm_AudioTTFAMS (overlay k x e) = (if mk_AudioTTFAMS k then mm_AudioTTFAMS x else mm_AudioTTFAMS e) /\
  mm_AudioRealtimeConcurrency (overlay k x e) =
    (if mk_AudioConcurrencyPair k then mm_AudioRealtimeConcurrency x else mm_AudioRealtimeConcurrency e) /\
  mm_AudioConcurrencyLimit (overlay k x e) =
    (if mk_AudioConcurrencyPair k then mm_AudioConcurrencyLimit x else mm_AudioConcurrencyLimit e).
Proof.
  unfold overlay. cbv zeta. split_and!.
  all: repeat (rewrite when_other by (intros; cbn; by rewrite ?whenSome_other)).
  all: try done.
  all: match goal with |- _ = (if ?b then _ else _) => destruct b; [done|]; unfold when at 1 end.
  all: by repeat (rewrite when_other by (intros; cbn; by rewrite ?whenSome_other)).
Qed.

(** Audio columns taken from rows that are valid are valid. *)
Lemma audio_columns rate limit : 
  ValidateAudioMetrics (mkAudioMetrics rate 0 0 limit 0) = None <->
  (math_IsNaN rate || math_IsInf rate || f64_ltb rate f64_zero = false) /\
  slices_Contains [""; AudioLimitPerformance; AudioLimitResources; AudioLimitCap] limit = true.
Proof. unfold ValidateAudioMetrics. cbn [am_RateX am_ConcurrencyLimit]. repeat case_match; naive_solver. Qed.

Lemma ao_rate x : audio_ok x -> math_IsNaN (mm_AudioRateX x) || math_IsInf (mm_AudioRateX x) || f64_ltb (mm_AudioRateX x) f64_zero = false.
Proof. intros [H _ _ _]. by apply audio_columns in H as [? _]. Qed.

Lemma ao_limit x : audio_ok x ->
  slices_Contains [""; AudioLimitPerformance; AudioLimitResources; AudioLimitCap] (mm_AudioConcurrencyLimit x) = true.
Proof. intros [H _ _ _]. by apply audio_columns in H as [_ ?]. Qed.

Lemma overlay_ok k x e : audio_ok e -> (AnyAudio k = true -> audio_ok x) -> audio_ok (overlay k x e).
Proof.
  intros He Hx. destruct (overlay_columns k x e) as (_ & _ & E1 & E2 & E3 & E4).
  assert (Hr : mk_AudioRateX k = true -> audio_ok x) by (intros E; apply Hx; unfold AnyAudio; by rewrite E).
  assert (Ht : mk_AudioTTFAMS k = true -> audio_ok x) by (intros E; apply Hx; unfold AnyAudio; by rewrite E, orb_true_r).
  assert (Hp : mk_AudioConcurrencyPair k = true -> audio_ok x) by (intros E; apply Hx; unfold AnyAudio; by rewrite E, orb_true_r).
  split; rewrite ?E1, ?E2, ?E3, ?E4.
  - apply audio_columns. split.
    + destruct (mk_AudioRateX k); auto using ao_rate.
    + destruct (mk_AudioConcurrencyPair k); auto using ao_limit.
  - destruct (mk_AudioTTFAMS k); apply ao_ttfa; auto.
  - destruct (mk_AudioConcurrencyPair k); apply ao_count; auto.
  - destruct (mk_AudioConcurrencyPair k); apply ao_pair; auto.
Qed.

Lemma UpdateMappingEditable_ok x k : store_ok m -> store_ok (UpdateMappingEditable x k m).2.
Proof.
  intros HI. unfold UpdateMappingEditable. destruct (if AnyAudio k then _ else None) eqn:Ev; [done|].
  destruct (m_mappings m !! mm_ID x) as [e|] eqn:Ee; [|done].
  destruct (has_key (m_applications m) (mm_ApplicationID x)) eqn:Eh; [|done].
  destruct (mo_rows _ (sto_mappings _ HI) _ _ Ee) as (Eid & _ & He).
  destruct (overlay_columns k x e) as (E1 & E2 & _). cbn [negb]. unfold wrote. cbn [snd]. rewrite <- Eid, <- E1.
  apply mapping_put_renamed; [rewrite E2; by apply in_has_key| |done].
  apply overlay_ok; [done|]. intros E. rewrite E in Ev. by apply ValidateMapping_ok.
Qed.

(** A measuring writer changes metric columns of an unlocked row. *)
Lemma measure_ok id f :
  (forall x, mm_ID (f x) = mm_ID x /\ mm_ApplicationID (f x) = mm_ApplicationID x) ->
  (forall x, audio_ok x -> audio_ok (f x)) -> store_ok m -> store_ok (measure id f m).2.
Proof.
  intros Hk Ha HI. unfold measure. destruct (m_mappings m !! id) as [x|] eqn:Ex; [|done]. case_match; [done|].
  destruct (mo_rows _ (sto_mappings _ HI) _ _ Ex) as (Eid & Happ & Hx), (Hk x) as [E1 E2]. rewrite <- Eid, <- E1.
  pose proof HI as [HS _ _ HG]. apply mapping_put; auto. by rewrite E2.
Qed.

Lemma same_audio x y :
  mm_AudioRateX y = mm_AudioRateX x -> mm_AudioConcurrencyLimit y = mm_AudioConcurrencyLimit x ->
  mm_AudioTTFAMS y = mm_AudioTTFAMS x -> mm_AudioRealtimeConcurrency y = mm_AudioRealtimeConcurrency x ->
  audio_ok x -> audio_ok y.
Proof. intros E1 E2 E3 E4 []. by split; rewrite ?E1, ?E2, ?E3, ?E4. Qed.

Lemma UpdateMappingContextProbe_ok id n at_ : store_ok m -> store_ok (UpdateMappingContextProbe id n at_ m).2.
Proof. apply measure_ok; [done|]. intros row. by apply same_audio. Qed.

Lemma UpdateMappingBenchmarkMetrics_ok id g p l at_ : store_ok m -> store_ok (UpdateMappingBenchmarkMetrics id g p l at_ m).2.
Proof.
  apply measure_ok; intros x; [|apply same_audio]; case_match; try done; cbn; by rewrite ?when_other by done.
Qed.

Lemma UpdateMappingOpportunisticMetrics_ok id g p a at_ : store_ok m -> store_ok (UpdateMappingOpportunisticMetrics id g p a at_ m).2.
Proof. apply measure_ok; [done|]. intros row. by apply same_audio. Qed.

Lemma UpdateMappingEnergyEWMA_ok id w a at_ : store_ok m -> store_ok (UpdateMappingEnergyEWMA id w a at_ m).2.
Proof. apply measure_ok; [done|]. intros row. by apply same_audio. Qed.

Lemma UpdateMappingCapacityMetrics_ok id x r g at_ : store_ok m -> store_ok (UpdateMappingCapacityMetrics id x r g at_ m).2.
Proof. apply measure_ok; [done|]. intros row. by apply same_audio. Qed.

Lemma ClearMappingAudioConcurrency_ok id : store_ok m -> store_ok (ClearMappingAudioConcurrency id m).2.
Proof.
  apply measure_ok; [done|]. intros x [H1 H2 H3 H4]. split; cbn; try done.
  apply audio_columns. by apply audio_columns in H1 as [? _].
Qed.

Lemma UpdateMappingAudioMetrics_ok id am source at_ : store_ok m -> store_ok (UpdateMappingAudioMetrics id am source at_ m).2.
Proof.
  intros HI. unfold UpdateMappingAudioMetrics. destruct (ValidateAudioMetrics am) eqn:Ev; [done|]. case_match; [done|].
  assert (Hv : ValidateAudioMetrics (mkAudioMetrics (am_RateX am) 0 0 (am_ConcurrencyLimit am) 0) = None) by done.
  apply audio_columns in Hv as [Hrate Hlimit].
  apply measure_ok; [|intros x [H1 H2 H3 H4]|done]; [intros x; cbn; by rewrite !when_other by done|].
  apply audio_columns in H1 as [H1 H1']. split; cbn.
  - apply audio_columns. rewrite !(when_other mm_AudioRateX) by done. rewrite !(when_other mm_AudioConcurrencyLimit (0 <? am_LoadTimeMS am)) by done.
    split; [destruct (f64_ltb f64_zero (am_RateX am)); done|]. destruct (RampMeasured am); cbn; [done|].
    by rewrite !when_other by done.
  - rewrite !(when_other mm_AudioTTFAMS (0 <? am_LoadTimeMS am)), (when_other mm_AudioTTFAMS (RampMeasured am)) by done.
    destruct (0 <? am_TTFAMS am) eqn:E; cbn; [bool_hyps; lia|]. by rewrite when_other by done.
  - rewrite (when_other mm_AudioRealtimeConcurrency (0 <? am_LoadTimeMS am)) by done.
    destruct (RampMeasured am) eqn:E; cbn; [unfold RampMeasured in E; bool_hyps; lia|]. by rewrite !when_other by done.
  - rewrite (when_other mm_AudioRealtimeConcurrency (0 <? am_LoadTimeMS am)), (when_other mm_AudioConcurrencyLimit (0 <? am_LoadTimeMS am)) by done.
    destruct (RampMeasured am) eqn:E; cbn; [unfold RampMeasured in E; bool_hyps; done|]. by rewrite !when_other by done.
Qed.

(** *** Rows of a mapping *)

Lemma firstInvalid_none {A} (v : A -> option storeErr) l : firstInvalid v l = None -> Forall (fun x => v x = None) l.
Proof. induction l as [|x l IH]; cbn; [constructor|]. destruct (v x) eqn:E; [done|]. intros ?. constructor; auto. Qed.

(** The upsert keeps a table keyed by name and valid. *)
Lemma putCapability_rows (P : string -> CapabilityRow -> Prop) t rows :
  (forall row, row ∈ rows -> P (cap_Capability row) row) -> (forall name row, t !! name = Some row -> P name row) ->
  forall name row, foldl putCapability t rows !! name = Some row -> P name row.
Proof.
  revert t. induction rows as [|r rows IH]; intros t Hr Ht; [done|]. cbn. apply IH; [set_solver|].
  intros name row. unfold putCapability. repeat case_match; intros; look; auto; apply Hr; left.
Qed.

Lemma UpsertMappingCapabilities_ok id rows : store_ok m -> store_ok (UpsertMappingCapabilities id rows m).2.
Proof.
  intros HI. unfold UpsertMappingCapabilities. destruct (firstInvalid _ rows) eqn:Ev; [done|]. apply firstInvalid_none in Ev.
  do 2 (case_match; [done|]). bool_hyps. unfold wrote. cbn [snd]. framed. opened HM. intros id' t Ht. look; [|eauto].
  split; [by apply in_has_key|].
  apply (putCapability_rows (fun name row => cap_Capability row = name /\ ValidateCapabilityRow row = None)).
  - rewrite Forall_forall in Ev. auto.
  - intros name row. unfold map_get. destruct (m_mappingCapabilities m !! id') as [t|] eqn:Et; cbn; intros Hrow; [|by rewrite lookup_empty in Hrow].
    by eapply (mo_caps0 id' t).
Qed.

Lemma DeleteMappingCapability_ok id name : store_ok m -> store_ok (DeleteMappingCapability id name m).2.
Proof.
  intros HI. unfold DeleteMappingCapability, wrote. cbn [snd]. framed. opened HM. case_bool_decide as E.
  - intros; look; eauto.
  - intros id' t Ht. look; [|eauto]. unfold map_get in *.
    destruct (m_mappingCapabilities m !! id') as [t|] eqn:Et; cbn in *; [|by rewrite delete_empty in E].
    destruct (mo_caps0 id' t Et) as [Hin Hrows]. split; [done|]. intros name' row Hrow. look. auto.
Qed.

Lemma UpsertModelMappingCache_ok row : store_ok m -> store_ok (UpsertModelMappingCache row m).2.
Proof.
  written_by UpsertModelMappingCache. opened HM. intros id t Ht. look; [|eauto]. split; [by apply in_has_key|].
  intros key r Hr. look; [done|]. unfold map_get in *.
  destruct (m_mappingCache m !! cr_MappingID row) as [t|] eqn:Et; cbn in *; [|by rewrite lookup_empty in *].
  by eapply (mo_cache0 _ t).
Qed.

Lemma DeleteModelMappingCache_ok id : store_ok m -> store_ok (DeleteModelMappingCache id m).2.
Proof. written_by DeleteModelMappingCache. opened HM. intros; look; eauto. Qed.

Lemma InsertBenchmarkRun_ok run id : store_ok m -> store_ok (InsertBenchmarkRun run id m).2.
Proof. written_by InsertBenchmarkRun; opened HM; intros; look; eauto using in_has_key. Qed.

Lemma PruneBenchmarkRuns_ok t : store_ok m -> store_ok (PruneBenchmarkRuns t m).2.
Proof. written_by PruneBenchmarkRuns. opened HM. intros; look; eauto. Qed.

(** *** Launch specs *)

Lemma specOfMapping_some id e : specOfMapping id m = Some e -> m_runtimeSpecs m !! e.1 = Some e.2 /\ sp_MappingID e.2 = id.
Proof.
  unfold specOfMapping. intros [Hin Heq]%find_some. apply list_elem_of_In in Hin. destruct e as [k s].
  apply elem_of_map_to_list in Hin. cbn in *. bool_hyps. done.
Qed.

Lemma specOfMapping_none id k s : specOfMapping id m = None -> m_runtimeSpecs m !! k = Some s -> sp_MappingID s <> id.
Proof.
  unfold specOfMapping. intros Hn Hs E. assert (Hin : In (k, s) (map_to_list (m_runtimeSpecs m)))
    by (by apply list_elem_of_In, elem_of_map_to_list).
  apply (find_none _ _ Hn) in Hin. cbn in Hin. by bool_hyps.
Qed.

(** A spec put where it is its mapping's only one. *)
Lemma spec_put id s :
  sp_ID s = id -> in_table (m_mappings m) (sp_MappingID s) ->
  (forall id' s', m_runtimeSpecs m !! id' = Some s' -> sp_MappingID s' = sp_MappingID s -> id' = id) ->
  mappings_ok m -> mappings_ok (m <| m_runtimeSpecs ::= <[id := s]> |>).
Proof.
  intros Hid Hm Hu [H1 H2 H3 H4 H5 H6 H7]. split; cbn; try done.
  - intros; look; eauto.
  - intros id1 id2 s1 s2 E1 E2 E. look; eauto; symmetry; eauto.
  - intros id' l Hl. destruct (H7 id' l Hl). split; [done|]. by apply grows_insert.
Qed.

Lemma UpsertRuntimeSpec_ok spec : store_ok m -> store_ok (UpsertRuntimeSpec spec m).2.
Proof.
  intros HI. unfold UpsertRuntimeSpec. destruct (has_key _ _) eqn:Eh; [|done]. cbn [negb].
  destruct (specOfMapping _ m) as [[id e]|] eqn:Es.
  - apply specOfMapping_some in Es as [Hid Hm]. cbn in *. unfold wrote. cbn [snd]. framed.
    apply spec_put; [done|by apply in_has_key| |done]. intros id' s' Hs' E. eapply mo_one_spec; [done|done|done|]. by rewrite E.
  - pose proof (specOfMapping_none (sp_MappingID spec)) as Hn.
    destruct (m_runtimeSpecs m !! sp_ID spec) as [e|] eqn:Ee; [case_match; [done|]; bool_hyps; by eapply Hn in Ee|].
    unfold wrote. cbn [snd]. framed. apply spec_put; [done|by apply in_has_key| |done].
    intros id' s' Hs' E. by eapply Hn in E.
Qed.

Lemma DeleteRuntimeSpec_ok id : store_ok m -> store_ok (DeleteRuntimeSpec id m).2.
Proof.
  written_by DeleteRuntimeSpec. destruct HM as [H1 H2 H3 H4 H5 H6 H7]. split; cbn; try done.
  - intros; look; eauto.
  - intros; look; eauto.
  - intros id' l Hl. look. match goal with H : m_runtimeSpecGPUs m !! _ = _ |- _ => destruct (H7 _ _ H) end.
    split; [done|]. unfold in_table. by rewrite lookup_delete_ne.
Qed.

Lemma SetRuntimeSpecGPUs_ok id gpus : store_ok m -> store_ok (SetRuntimeSpecGPUs id gpus m).2.
Proof.
  written_by SetRuntimeSpecGPUs. opened HM. intros; look; [|eauto]. split; [|by apply in_has_key].
  by rewrite <- list_fmap_compose.
Qed.

Lemma measureGPU_indexes i mb rows rows' :
  measureGPU i mb rows = Some rows' -> sg_GPUIndex <$> rows' = sg_GPUIndex <$> rows.
Proof.
  revert rows'. induction rows as [|g rows IH]; intros rows'; cbn; [done|]. case_match; [by intros [= <-]|].
  destruct (measureGPU i mb rows); [|done]. intros [= <-]. cbn. f_equal. by apply IH.
Qed.

Lemma UpdateRuntimeSpecGPUMeasured_ok id i mb : store_ok m -> store_ok (UpdateRuntimeSpecGPUMeasured id i mb m).2.
Proof.
  intros HI. unfold UpdateRuntimeSpecGPUMeasured. destruct (measureGPU _ _ _) as [rows|] eqn:Er; [|done]. unfold wrote. cbn [snd].
  framed. opened HM. intros id' l Hl. look; [|eauto]. unfold map_get in Er.
  destruct (m_runtimeSpecGPUs m !! id') as [old|] eqn:Eo; [|done]. cbn in Er. rewrite (measureGPU_indexes _ _ _ _ Er). eauto.
Qed.

Lemma measured_spec_ok id s s' :
  m_runtimeSpecs m !! id = Some s -> sp_ID s' = sp_ID s -> sp_MappingID s' = sp_MappingID s ->
  store_ok m -> store_ok (m <| m_runtimeSpecs ::= <[id := s']> |>).
Proof.
  intros Hs E1 E2 HI. framed. destruct (mo_specs _ HM _ _ Hs) as [? ?]. apply spec_put; [congruence|by rewrite E2| |done].
  intros id' s2 Hs2 E. eapply mo_one_spec; [done|done|done|]. congruence.
Qed.

Lemma UpdateRuntimeSpecRAMMeasured_ok id mb : store_ok m -> store_ok (UpdateRuntimeSpecRAMMeasured id mb m).2.
Proof. intros HI. unfold UpdateRuntimeSpecRAMMeasured. destruct (_ !! _) eqn:E; [by apply (measured_spec_ok _ _ _ E)|done]. Qed.

Lemma UpdateRuntimeSpecStartupMeasured_ok id ms : store_ok m -> store_ok (UpdateRuntimeSpecStartupMeasured id ms m).2.
Proof. intros HI. unfold UpdateRuntimeSpecStartupMeasured. destruct (_ !! _) eqn:E; [by apply (measured_spec_ok _ _ _ E)|done]. Qed.

End integrity.

(** ** Deletions *)

Lemma not_in_delete {V} (t : gmap string V) id id' : id' <> id -> in_table t id' -> in_table (delete id t) id'.
Proof. unfold in_table. intros Hne H. by rewrite lookup_delete_ne. Qed.

Lemma deleteMappingLocked_ok id m : store_ok m -> store_ok (deleteMappingLocked id m).
Proof.
  intros HI. unfold deleteMappingLocked. set (specs := filter _ (m_runtimeSpecs m)). framed.
  - destruct HA as [H1 H2 H3 H4 H5]. split; cbn; try done. intros app rules Hr. look.
    match goal with H : m_coresidency m !! _ = _ |- _ => destruct (H5 _ _ H) as [Hin Hrules] end. split; [done|].
    intros r [Hr Hn]%list_elem_of_In%filter_In. apply negb_true_iff, orb_false_iff in Hn as [Ha Hb]. bool_hyps.
    destruct (Hrules r) as [? ?]; [by apply list_elem_of_In|]. auto using not_in_delete.
  - assert (Hspec : forall k s, (m_runtimeSpecs m ∖ specs) !! k = Some s -> m_runtimeSpecs m !! k = Some s /\ sp_MappingID s <> id).
    { intros k s [Hs Hn]%lookup_difference_Some. split; [done|]. intros E. unfold specs in Hn.
      apply map_lookup_filter_None in Hn as [Hn|Hn]; [congruence|]. apply (Hn _ Hs). cbn. rewrite E. by rewrite String.eqb_refl. }
    destruct HM as [H1 H2 H3 H4 H5 H6 H7]. split; cbn.
    + intros; look; eauto.
    + intros k l Hl. look. apply not_in_delete; eauto.
    + intros k t Ht. look. match goal with H : m_mappingCapabilities m !! _ = _ |- _ => destruct (H3 _ _ H) end. auto using not_in_delete.
    + intros k t Ht. look. match goal with H : m_mappingCache m !! _ = _ |- _ => destruct (H4 _ _ H) end. auto using not_in_delete.
    + intros k s [Hs Hne]%Hspec. destruct (H5 _ _ Hs). auto using not_in_delete.
    + intros k1 k2 s1 s2 [Hs1 _]%Hspec [Hs2 _]%Hspec. by apply H6.
    + intros k l Hl. look. match goal with H : m_runtimeSpecGPUs m !! _ = _ |- _ => destruct (H7 _ _ H) as [? [s Hs]] end.
      split; [done|]. exists s. by apply lookup_difference_Some.
Qed.

(** What a deletion below the servers leaves alone. *)
Record sameHosts (m m' : MemoryStore) : Prop := {
  sh_servers : m_servers m' = m_servers m;
  sh_telemetry : m_telemetry m' = m_telemetry m;
  sh_hardware : m_hardware m' = m_hardware m;
  sh_samples : m_samples m' = m_samples m;
  sh_avail : m_availSamples m' = m_availSamples m;
  sh_owners : m_owners m' = m_owners m;
  sh_admin : m_serverAdminGroups m' = m_serverAdminGroups m;
  sh_tokens : m_agentTokens m' = m_agentTokens m;
  sh_resource : m_resourceGroupServers m' = m_resourceGroupServers m;
  sh_certificates : m_certificates m' = m_certificates m;
  sh_budgets : m_gpuBudgets m' = m_gpuBudgets m;
  sh_reports : m_runtimeReports m' = m_runtimeReports m;
  sh_groups : m_groups m' = m_groups m /\ m_groupMembers m' = m_groupMembers m /\ m_modelSettings m' = m_modelSettings m
}.

Lemma sameHosts_refl m : sameHosts m m.
Proof. by split. Qed.

Lemma sameHosts_trans m1 m2 m3 : sameHosts m1 m2 -> sameHosts m2 m3 -> sameHosts m1 m3.
Proof. intros [] []. split; try congruence. destruct_and!. split_and!; congruence. Qed.

Lemma deleteMappings_exact ids m :
  let m' := foldl (fun m id => deleteMappingLocked id m) m ids in
  (store_ok m -> store_ok m') /\ sameHosts m m' /\ m_applications m' = m_applications m /\
  m_affinities m' = m_affinities m /\
  forall id, m_mappings m' !! id = if decide (id ∈ ids) then None else m_mappings m !! id.
Proof.
  revert m. induction ids as [|k ids IH]; intros m; cbn.
  { by split_and!. }
  destruct (IH (deleteMappingLocked k m)) as (H1 & H2 & H3 & H4 & H5). split_and!.
  - intros HI. by apply H1, deleteMappingLocked_ok.
  - eapply sameHosts_trans; [|done]. by split.
  - by rewrite H3.
  - by rewrite H4.
  - intros id. rewrite H5. cbn. destruct (decide (id = k)) as [->|Hne].
    + rewrite lookup_delete_eq. rewrite (decide_True (P := k ∈ k :: ids)) by left. by destruct (decide _).
    + rewrite lookup_delete_ne by done. repeat destruct (decide _); set_solver.
Qed.

Lemma keys_elem {V} (P : string * V -> Prop) `{forall e, Decision (P e)} (t : gmap string V) id :
  id ∈ (map_to_list (filter P t)).*1 <-> exists v, t !! id = Some v /\ P (id, v).
Proof.
  rewrite list_elem_of_fmap. split.
  - intros ([k v] & -> & Hin%elem_of_map_to_list). look. eauto.
  - intros (v & Hv & HP). exists (id, v). split; [done|]. apply elem_of_map_to_list. by apply map_lookup_filter_Some.
Qed.

(** An application goes with its mappings, its matrix and its pins, and with nothing else. *)
Lemma deleteApplicationLocked_exact app m :
  let m' := deleteApplicationLocked app m in
  (store_ok m -> store_ok m') /\ sameHosts m m' /\
  m_applications m' = delete app (m_applications m) /\
  m_affinities m' = deleteWhere (fun aff => String.eqb (aff_ApplicationID aff) app) (m_affinities m) /\
  forall id x, m_mappings m' !! id = Some x <-> m_mappings m !! id = Some x /\ mm_ApplicationID x <> app.
Proof.
  cbv zeta. unfold deleteApplicationLocked, deleteMappingsForApplicationLocked. set (ids := (map_to_list _).*1).
  destruct (deleteMappings_exact ids m) as (H1 & H2 & H3 & H4 & H5). set (m1 := foldl _ m ids) in *.
  assert (Hm : forall id x, m_mappings m1 !! id = Some x <-> m_mappings m !! id = Some x /\ mm_ApplicationID x <> app).
  { intros id x. rewrite H5. pose proof (keys_elem (fun e => mm_ApplicationID e.2 = app) (m_mappings m) id) as Hk.
    fold ids in Hk. cbn in Hk. destruct (decide (id ∈ ids)) as [Hin|Hn].
    - apply Hk in Hin as (y & Hy & Ey). split; [done|]. intros [Hx Hne]. congruence.
    - split; [|by intros [? _]]. intros Hx. split; [done|]. intros E. apply Hn, Hk. eauto. }
  split_and!; cbn; [| | |by rewrite H4|done].
  - intros HI. destruct (H1 HI) as [HS HA HM HG]. split.
    + by apply (servers_frame m1).
    + destruct HA as [A1 A2 A3 A4 A5]. split; cbn; intros; look; eauto.
      * match goal with H : m_coresidencyMode _ !! _ = _ |- _ => destruct (A4 _ _ H) end. auto using not_in_delete.
      * match goal with H : m_coresidency _ !! _ = _ |- _ => destruct (A5 _ _ H) end. auto using not_in_delete.
    + destruct HM as [M1 M2 M3 M4 M5 M6 M7]. split; cbn; try done. intros id x Hx. destruct (M1 id x Hx) as (? & ? & ?).
      apply Hm in Hx as [_ Hne]. auto using not_in_delete.
    + destruct HG as [G1 G2 G3 G4]. split; cbn; try done. intros; look; eauto.
  - eapply sameHosts_trans; [done|]. by split.
  - by rewrite H3.
Qed.

Lemma deleteApplications_exact ids m :
  let m' := foldl (fun m id => deleteApplicationLocked id m) m ids in
  (store_ok m -> store_ok m') /\ sameHosts m m' /\
  (forall id a, m_applications m' !! id = Some a <-> m_applications m !! id = Some a /\ id ∉ ids) /\
  (forall key aff, m_affinities m' !! key = Some aff <-> m_affinities m !! key = Some aff /\ aff_ApplicationID aff ∉ ids) /\
  (forall id x, m_mappings m' !! id = Some x <-> m_mappings m !! id = Some x /\ mm_ApplicationID x ∉ ids).
Proof.
  revert m. induction ids as [|app ids IH]; intros m; cbn.
  { split_and!; try done; set_solver. }
  destruct (deleteApplicationLocked_exact app m) as (D1 & D2 & D3 & D4 & D5).
  destruct (IH (deleteApplicationLocked app m)) as (H1 & H2 & H3 & H4 & H5). split_and!.
  - auto.
  - by eapply sameHosts_trans.
  - intros id a. rewrite H3, D3, lookup_delete_Some. set_solver.
  - intros key aff. rewrite H4, D4. unfold deleteWhere. rewrite map_lookup_filter_Some. cbn. rewrite String.eqb_neq. set_solver.
  - intros id x. rewrite H5, D5. set_solver.
Qed.

(** The applications of a server, as the loop finds them. *)
Definition appsOf (server : string) (m : MemoryStore) : list string :=
  (map_to_list (filter (fun e => app_ServerID e.2 = server) (m_applications m))).*1.

Lemma appsOf_elem server m id :
  id ∈ appsOf server m <-> exists a, m_applications m !! id = Some a /\ app_ServerID a = server.
Proof. apply (keys_elem (fun e => app_ServerID e.2 = server)). Qed.

Lemma host_delete_ok id m :
  (forall k a, m_applications m !! k = Some a -> app_ServerID a <> id) -> store_ok m ->
  store_ok ((deleteAffinitiesForServerLocked id
    (m <| m_servers ::= delete id |> <| m_owners ::= delete id |> <| m_agentTokens ::= delete id |>
       <| m_serverAdminGroups ::= delete id |> <| m_telemetry ::= delete id |> <| m_hardware ::= delete id |>
       <| m_samples ::= delete id |> <| m_availSamples ::= delete id |> <| m_gpuBudgets ::= delete id |>
       <| m_runtimeReports ::= delete id |>))
    <| m_resourceGroupServers ::= fmap (delete id) |>
    <| m_certificates ::= deleteWhere (fun cert => String.eqb (ct_ServerID cert) id) |>).
Proof.
  intros Hno HI. framed.
  - destruct HS as [S1 S2 S3 S4 S5 S6 S7 S8 S9 S10 S11].
    split; cbn; intros; look; eauto; try (apply not_in_delete; eauto; fail).
    + match goal with H : m_telemetry _ !! _ = _ |- _ => destruct (S2 _ _ H) end. auto using not_in_delete.
    + match goal with H : m_hardware _ !! _ = _ |- _ => destruct (S3 _ _ H) end. auto using not_in_delete.
    + match goal with H : m_gpuBudgets _ !! _ = _ |- _ => destruct (S7 _ _ H) end. auto using not_in_delete.
    + match goal with H : m_runtimeReports _ !! _ = _ |- _ => destruct (S8 _ _ H) end. auto using not_in_delete.
    + match goal with H : m_agentTokens _ !! _ = _ |- _ => destruct (S9 _ _ H) end. auto using not_in_delete.
    + match goal with H : m_certificates _ !! _ = _ |- _ => destruct (S11 _ _ H) as [? [?|?]] end; [auto|].
      bool_hyps. auto using not_in_delete.
  - destruct HA as [A1 A2 A3 A4 A5]. split; cbn; try done. intros k a Ha. destruct (A1 k a Ha). eauto using not_in_delete.
  - destruct HG as [G1 G2 G3 G4]. split; cbn; try done. intros; look; eauto.
Qed.

Lemma DeleteAIServer_ok id m : store_ok m -> store_ok (DeleteAIServer id m).2.
Proof.
  intros HI. unfold DeleteAIServer. destruct (has_key _ _); [|done]. cbn [negb]. unfold wrote. cbn [snd].
  unfold deleteApplicationsForServerLocked. fold (appsOf id m).
  destruct (deleteApplications_exact (appsOf id m) m) as (D1 & _ & D3 & _). apply host_delete_ok; [|auto].
  intros k a [Ha Hn]%D3 E. apply Hn, appsOf_elem. eauto.
Qed.

Lemma DeleteApplication_ok id m : store_ok m -> store_ok (DeleteApplication id m).2.
Proof. intros HI. unfold DeleteApplication. destruct (has_key _ _); [|done]. by apply deleteApplicationLocked_exact. Qed.

Lemma DeleteMapping_ok id m : store_ok m -> store_ok (DeleteMapping id m).2.
Proof. intros HI. unfold DeleteMapping. destruct (has_key _ _); [|done]. by apply deleteMappingLocked_ok. Qed.

#[local] Hint Resolve CreateAIServer_ok UpdateAIServer_ok SetServerOwners_ok SetServerAdminGroup_ok
  RemoveServerAdminGroup_ok UpsertTelemetry_ok UpsertServerHardware_ok InsertTelemetrySample_ok PruneTelemetrySamples_ok
  InsertServerAvailabilitySample_ok PruneServerAvailabilitySamples_ok SetServerGPUBudgets_ok UpsertServerRuntimeReport_ok
  DeleteServerRuntimeReport_ok UpsertAgentToken_ok DeleteAgentTokenByServer_ok LookupAgentToken_ok UpsertCertificate_ok
  DeleteCertificate_ok UpsertAffinity_ok DeleteAffinity_ok CreateApplication_ok UpdateApplication_ok DeleteApplication_ok
  CreateMapping_ok UpdateMapping_ok UpdateMappingEditable_ok UpdateMappingContextProbe_ok UpdateMappingBenchmarkMetrics_ok
  UpdateMappingOpportunisticMetrics_ok UpdateMappingEnergyEWMA_ok UpdateMappingCapacityMetrics_ok
  ClearMappingAudioConcurrency_ok UpdateMappingAudioMetrics_ok DeleteMapping_ok UpsertMappingCapabilities_ok
  DeleteMappingCapability_ok UpsertModelMappingCache_ok DeleteModelMappingCache_ok InsertBenchmarkRun_ok
  PruneBenchmarkRuns_ok UpsertRuntimeSpec_ok DeleteRuntimeSpec_ok SetRuntimeSpecGPUs_ok UpdateRuntimeSpecGPUMeasured_ok
  UpdateRuntimeSpecRAMMeasured_ok UpdateRuntimeSpecStartupMeasured_ok SetCoResidencyRules_ok SetCoResidencyMode_ok
  CreateModelGroup_ok UpdateModelGroup_ok DeleteModelGroup_ok SetGroupMembers_ok UpsertModelSetting_ok DeleteAIServer_ok : store.

Lemma write_ok w m : store_write w -> store_ok m -> store_ok (w m).2.
Proof. destruct 1; intros HI; cbn [snd]; (by apply updateServer_ok) || auto with store. Qed.

Lemma empty_ok : store_ok NewMemoryStore.
Proof. split; split; cbn; intros; look; exfalso; by eapply lookup_empty_Some. Qed.

Lemma run_ok ws : Forall store_write ws -> store_ok (runWrites ws).
Proof.
  unfold runWrites. induction ws as [|w ws IH] using rev_ind; intros Hw; [apply empty_ok|].
  apply Forall_app in Hw as [? Hw]. rewrite foldl_app. cbn. apply write_ok; [by inversion Hw|]. by apply IH.
Qed.
