(* ===== verification/MemoryStoreProps.v ===== *)
(** * What the in-memory store guarantees

    That the tables stay intact is shown for the whole store in [AccessStoreProps].  Here:
    deleting a server removes everything below it and nothing
    else ([server_delete_exact]); machine writers yield to the operator
    ([machine_writes_yield]); a spec is found as it was saved, with its measurements
    ([spec_roundtrip]); and the store is one the resolver's filters may be run against
    ([memory_pool_exact]). *)

From Stdlib Require Import ZArith Lia.
From stdpp Require Import base tactics option list numbers strings gmap sorting.
From S2P Require Import Prelude Float64 RoutingTypes Selection Filters FiltersProps Targets Resolving Samples MemoryStore MemoryStoreIntegrity.
Local Open Scope Z_scope.
Local Open Scope go_scope.

(** ** Integrity *)

Lemma measure_accepts id f m : (measure id f m).1 = None.
Proof. unfold measure. by repeat case_match. Qed.

Lemma refused_keeps w m e : store_write w -> (w m).1 = Some e -> (w m).2 = m.
Proof.
  destruct 1; unfold CreateAIServer, UpdateAIServer, SetServerHealth, UpdateServerNetbirdKey, UpdateServerNetbirdLink,
    UpdateServerNetbirdState, UpdateServerNetbirdGroups, UpdateServerNetbirdPeerManaged, UpdateServerNetbirdPolicyOverride,
    UpdateServerNetbirdAllowPing, UpdateServerNetbirdPingExclude, UpdateServerEnergyConfig, UpdateServerSystemGroup,
    UpdateServerCertificateOverride, UpdateServerHTTPSSwitchOverride, updateServer, DeleteAIServer, SetServerAdminGroup, RemoveServerAdminGroup,
    UpsertTelemetry, UpsertServerHardware, InsertTelemetrySample, InsertServerAvailabilitySample, SetServerGPUBudgets,
    UpsertServerRuntimeReport, UpsertAgentToken, UpsertCertificate, CreateApplication, UpdateApplication, DeleteApplication,
    CreateMapping, UpdateMapping, UpdateMappingEditable, DeleteMapping, UpsertMappingCapabilities, UpsertModelMappingCache,
    InsertBenchmarkRun, UpsertRuntimeSpec, DeleteRuntimeSpec, SetRuntimeSpecGPUs, UpdateRuntimeSpecGPUMeasured,
    UpdateRuntimeSpecRAMMeasured, UpdateRuntimeSpecStartupMeasured, SetCoResidencyRules, SetCoResidencyMode,
    CreateModelGroup, UpdateModelGroup, DeleteModelGroup, SetGroupMembers, UpdateMappingAudioMetrics; cbn zeta.
  all: repeat (match goal with
    | |- context [if ?b then _ else _] => destruct b
    | |- context [match ?x with Some _ => _ | None => _ end] => destruct x as [?|]
    | |- context [match ?x with inl _ => _ | inr _ => _ end] => destruct x as [?|?]
    | |- context [match ?x with (_, _) => _ end] => destruct x as [? ?]
    end; try done).
  all: unfold UpdateMappingContextProbe, UpdateMappingBenchmarkMetrics, UpdateMappingOpportunisticMetrics,
    UpdateMappingEnergyEWMA, UpdateMappingCapacityMetrics, ClearMappingAudioConcurrency; first [by rewrite measure_accepts|by intros [=]].
Qed.

(** ** Deleting a server *)

(** The rows of a table whose key is not [p]. *)
Definition except {V} (p : string -> bool) (t : gmap string V) : gmap string V := filter (fun e => p e.1 = false) t.

(** The mappings of the applications [pa], and the specs of the mappings [pm]. *)
Definition mappingsOf (pa : string -> bool) (m : MemoryStore) (id : string) : bool :=
  match m_mappings m !! id with Some x => pa (mm_ApplicationID x) | None => false end.

Definition specsOf (pm : string -> bool) (m : MemoryStore) (id : string) : bool :=
  match m_runtimeSpecs m !! id with Some s => pm (sp_MappingID s) | None => false end.

(** [m] without the rows of the applications [pa], the mappings [pm] and the specs [ps]. *)
Definition dropRows (pa pm ps : string -> bool) (m : MemoryStore) : MemoryStore := {|
  m_servers := m_servers m;
  m_telemetry := m_telemetry m;
  m_hardware := m_hardware m;
  m_samples := m_samples m;
  m_availSamples := m_availSamples m;
  m_benchmarks := except pm (m_benchmarks m);
  m_affinities := deleteWhere (fun aff => pa (aff_ApplicationID aff)) (m_affinities m);
  m_owners := m_owners m;
  m_serverAdminGroups := m_serverAdminGroups m;
  m_applications := except pa (m_applications m);
  m_mappings := except pm (m_mappings m);
  m_agentTokens := m_agentTokens m;
  m_groups := m_groups m;
  m_groupMembers := m_groupMembers m;
  m_modelSettings := m_modelSettings m;
  m_resourceGroupServers := m_resourceGroupServers m;
  m_certificates := m_certificates m;
  m_runtimeSpecs := except ps (m_runtimeSpecs m);
  m_runtimeSpecGPUs := except ps (m_runtimeSpecGPUs m);
  m_coresidency := except pa
    (List.filter (fun r => negb (pm (cor_MappingAID r) || pm (cor_MappingBID r))) <$> m_coresidency m);
  m_coresidencyMode := except pa (m_coresidencyMode m);
  m_gpuBudgets := m_gpuBudgets m;
  m_runtimeReports := m_runtimeReports m;
  m_mappingCapabilities := except pm (m_mappingCapabilities m);
  m_mappingCache := except pm (m_mappingCache m)
|}.

Lemma store_ext m m' :
  m_servers m = m_servers m' ->
  m_telemetry m = m_telemetry m' ->
  m_hardware m = m_hardware m' ->
  m_samples m = m_samples m' ->
  m_availSamples m = m_availSamples m' ->
  m_benchmarks m = m_benchmarks m' ->
  m_affinities m = m_affinities m' ->
  m_owners m = m_owners m' ->
  m_serverAdminGroups m = m_serverAdminGroups m' ->
  m_applications m = m_applications m' ->
  m_mappings m = m_mappings m' ->
  m_agentTokens m = m_agentTokens m' ->
  m_groups m = m_groups m' ->
  m_groupMembers m = m_groupMembers m' ->
  m_modelSettings m = m_modelSettings m' ->
  m_resourceGroupServers m = m_resourceGroupServers m' ->
  m_certificates m = m_certificates m' ->
  m_runtimeSpecs m = m_runtimeSpecs m' ->
  m_runtimeSpecGPUs m = m_runtimeSpecGPUs m' ->
  m_coresidency m = m_coresidency m' ->
  m_coresidencyMode m = m_coresidencyMode m' ->
  m_gpuBudgets m = m_gpuBudgets m' ->
  m_runtimeReports m = m_runtimeReports m' ->
  m_mappingCapabilities m = m_mappingCapabilities m' ->
  m_mappingCache m = m_mappingCache m' -> m = m'.
Proof. destruct m, m'. cbn. intros. by subst. Qed.

Lemma except_lookup {V} p (t : gmap string V) k : except p t !! k = if p k then None else t !! k.
Proof.
  unfold except. destruct (p k) eqn:E.
  - apply map_lookup_filter_None. right. intros v _. cbn. congruence.
  - destruct (t !! k) as [v|] eqn:Ev; [by apply map_lookup_filter_Some|by apply map_lookup_filter_None; left].
Qed.

Lemma except_ext {V} p q (t : gmap string V) : (forall k, p k = q k) -> except p t = except q t.
Proof. intros HE. apply map_eq. intros k. by rewrite !except_lookup, HE. Qed.

Lemma except_except {V} p q (t : gmap string V) : except p (except q t) = except (fun k => p k || q k) t.
Proof. apply map_eq. intros k. rewrite !except_lookup. by destruct (p k), (q k). Qed.

Lemma except_none {V} (t : gmap string V) : except (fun _ => false) t = t.
Proof. apply map_eq. intros k. by rewrite except_lookup. Qed.

Lemma except_one {V} k (t : gmap string V) : except (String.eqb k) t = delete k t.
Proof.
  apply map_eq. intros j. rewrite except_lookup. destruct (String.eqb_spec k j) as [->|Hne];
    [by rewrite lookup_delete_eq|by rewrite lookup_delete_ne].
Qed.

Lemma deleteWhere_twice {K V} `{Countable K} (p q : V -> bool) (t : gmap K V) :
  deleteWhere p (deleteWhere q t) = deleteWhere (fun v => p v || q v) t.
Proof.
  unfold deleteWhere. rewrite map_filter_filter. apply map_filter_ext. intros k v _. cbn.
  destruct (p v), (q v); naive_solver.
Qed.

Lemma deleteWhere_ext {K V} `{Countable K} (p q : V -> bool) (t : gmap K V) :
  (forall v, p v = q v) -> deleteWhere p t = deleteWhere q t.
Proof. intros HE. apply map_filter_ext. intros k v _. cbn. by rewrite HE. Qed.

Lemma dropRows_ext pa pm ps pa' pm' ps' m :
  (forall k, pa k = pa' k) -> (forall k, pm k = pm' k) -> (forall k, ps k = ps' k) ->
  dropRows pa pm ps m = dropRows pa' pm' ps' m.
Proof.
  intros H1 H2 H3.
  assert (HC : except pa (List.filter (fun r => negb (pm (cor_MappingAID r) || pm (cor_MappingBID r))) <$> m_coresidency m) =
    except pa' (List.filter (fun r => negb (pm' (cor_MappingAID r) || pm' (cor_MappingBID r))) <$> m_coresidency m)).
  { rewrite (except_ext pa pa') by done. f_equal. apply map_fmap_ext. intros k rules _.
    apply List.filter_ext. intros r. by rewrite !H2. }
  unfold dropRows. rewrite HC, !(except_ext pa pa'), !(except_ext pm pm'), !(except_ext ps ps') by done.
  by rewrite (deleteWhere_ext (fun aff => pa (aff_ApplicationID aff)) (fun aff => pa' (aff_ApplicationID aff))) by auto.
Qed.

Lemma dropRows_twice pa pm ps pa' pm' ps' m :
  dropRows pa' pm' ps' (dropRows pa pm ps m) =
  dropRows (fun k => pa' k || pa k) (fun k => pm' k || pm k) (fun k => ps' k || ps k) m.
Proof.
  unfold dropRows. cbn. rewrite !except_except, deleteWhere_twice. f_equal.
  apply map_eq. intros k. repeat (rewrite ?except_lookup, ?lookup_fmap).
  destruct (pa' k), (pa k); try done. cbn. destruct (m_coresidency m !! k) as [rules|]; [|done]. cbn.
  f_equal. rewrite filter_filter. apply List.filter_ext. intros r.
  by destruct (pm (cor_MappingAID r)), (pm (cor_MappingBID r)), (pm' (cor_MappingAID r)), (pm' (cor_MappingBID r)).
Qed.

Lemma delete_mapping_drops k m :
  deleteMappingLocked k m = dropRows (fun _ => false) (String.eqb k) (specsOf (String.eqb k) m) m.
Proof.
  assert (HS : forall j, filter (fun e => String.eqb (sp_MappingID e.2) k = true) (m_runtimeSpecs m) !! j = None
    <-> specsOf (String.eqb k) m j = false).
  { intros j. rewrite map_lookup_filter_None. unfold specsOf. cbn. setoid_rewrite String.eqb_sym at 1.
    destruct (m_runtimeSpecs m !! j) as [s|]; [|naive_solver]. rewrite <- not_true_iff_false. naive_solver. }
  apply store_ext; cbn; rewrite ?except_none, ?except_one; try done.
  - symmetry. by apply map_filter_id.
  - apply map_eq. intros j. rewrite except_lookup. specialize (HS j).
    destruct (specsOf (String.eqb k) m j) eqn:E.
    + apply lookup_difference_None. right. apply not_eq_None_Some. naive_solver.
    + destruct (m_runtimeSpecs m !! j) eqn:Ej; [apply lookup_difference_Some; naive_solver|].
      apply lookup_difference_None. by left.
  - unfold except. apply map_filter_ext. intros j gpus _. cbn. apply HS.
  - apply map_fmap_ext. intros j rules _. apply List.filter_ext. intros r. by rewrite !(String.eqb_sym k).
Qed.

Definition among (ids : list string) (k : string) : bool := bool_decide (k ∈ ids).

Lemma among_cons k ids j : among (k :: ids) j = among ids j || String.eqb k j.
Proof.
  unfold among. destruct (String.eqb_spec k j) as [->|Hne].
  - rewrite orb_true_r. apply bool_decide_eq_true. left.
  - rewrite orb_false_r. apply bool_decide_ext. set_solver.
Qed.

Lemma delete_mappings_drop ids m :
  foldl (fun m id => deleteMappingLocked id m) m ids = dropRows (fun _ => false) (among ids) (specsOf (among ids) m) m.
Proof.
  revert m. induction ids as [|k ids IH]; intros m; cbn [foldl].
  - assert (HN : forall j, specsOf (among []) m j = false) by (intros j; unfold specsOf; by case_match).
    assert (HE : dropRows (fun _ => false) (among []) (specsOf (among []) m) m = dropRows (fun _ => false) (fun _ => false) (fun _ => false) m)
      by (by apply dropRows_ext). rewrite HE.
    apply store_ext; cbn; rewrite ?except_none; try done; symmetry.
    + by apply map_filter_id.
    + etrans; [|apply map_fmap_id]. apply map_fmap_ext. intros j rules _. cbn.
      induction rules as [|r rules IHr]; [done|]. cbn. by rewrite IHr.
  - rewrite IH, delete_mapping_drops, dropRows_twice. apply dropRows_ext; [done|intros j; by rewrite among_cons|].
    intros j. unfold specsOf. cbn. rewrite except_lookup. unfold specsOf.
    destruct (m_runtimeSpecs m !! j) as [s|]; [|done]. rewrite among_cons.
    by destruct (String.eqb k (sp_MappingID s)); rewrite ?orb_true_r, ?orb_false_r.
Qed.

Lemma delete_application_drops app m :
  let pm := mappingsOf (String.eqb app) m in
  deleteApplicationLocked app m = dropRows (String.eqb app) pm (specsOf pm m) m.
Proof.
  intros pm. unfold deleteApplicationLocked, deleteMappingsForApplicationLocked. rewrite delete_mappings_drop.
  set (ids := (map_to_list _).*1).
  assert (HE : forall j, among ids j = pm j).
  { intros j. unfold among, pm, mappingsOf. pose proof (keys_elem (fun e => mm_ApplicationID e.2 = app) (m_mappings m) j) as Hk.
    fold ids in Hk. cbn in Hk. destruct (m_mappings m !! j) as [x|] eqn:Ex.
    - destruct (String.eqb_spec app (mm_ApplicationID x)) as [E|E];
        [apply bool_decide_eq_true|apply bool_decide_eq_false]; rewrite Hk; naive_solver.
    - apply bool_decide_eq_false. rewrite Hk. naive_solver. }
  rewrite (dropRows_ext _ _ _ (fun _ => false) pm (specsOf pm m)); [|done|done|].
  2:{ intros j. unfold specsOf. case_match; [apply HE|done]. }
  apply store_ext; cbn; rewrite ?except_none, ?except_one; try done.
  rewrite deleteWhere_twice. apply deleteWhere_ext. intros aff. by rewrite orb_false_r, String.eqb_sym.
Qed.

Lemma delete_applications_drop ids m :
  let pm := mappingsOf (among ids) m in
  foldl (fun m id => deleteApplicationLocked id m) m ids = dropRows (among ids) pm (specsOf pm m) m.
Proof.
  revert m. induction ids as [|k ids IH]; intros m pm; cbn [foldl].
  - rewrite <- (dropRows_ext (fun _ => false) (among []) (specsOf (among []) m)); [apply (delete_mappings_drop [])|done|..];
      unfold pm, specsOf, mappingsOf; intros j; repeat case_match; done.
  - rewrite IH, delete_application_drops, dropRows_twice.
    set (m1 := dropRows (String.eqb k) _ _ m).
    assert (HM : forall j, mappingsOf (among ids) m1 j || mappingsOf (String.eqb k) m j = pm j).
    { intros j. unfold pm, mappingsOf. cbn. rewrite except_lookup. unfold mappingsOf.
      destruct (m_mappings m !! j) as [x|]; [|done]. rewrite among_cons.
      by destruct (String.eqb k (mm_ApplicationID x)); rewrite ?orb_true_r, ?orb_false_r. }
    assert (HS : forall j, m_runtimeSpecs m1 !! j =
      if specsOf (mappingsOf (String.eqb k) m) m j then None else m_runtimeSpecs m !! j)
      by (intros j; apply except_lookup).
    clearbody m1. apply dropRows_ext; [intros j; by rewrite among_cons|done|].
    intros j. unfold specsOf in *. rewrite HS. destruct (m_runtimeSpecs m !! j) as [s|]; [|done]. rewrite <- HM.
    by destruct (mappingsOf (String.eqb k) m (sp_MappingID s)); rewrite ?orb_true_r, ?orb_false_r.
Qed.

(** An application of server [id], a mapping of one, a spec of one. *)
Definition appUnder (id : string) (m : MemoryStore) (app : string) : bool :=
  match m_applications m !! app with Some a => String.eqb (app_ServerID a) id | None => false end.

Definition mappingUnder (id : string) (m : MemoryStore) (mapping : string) : bool :=
  match m_mappings m !! mapping with Some x => appUnder id m (mm_ApplicationID x) | None => false end.

Definition specUnder (id : string) (m : MemoryStore) (spec : string) : bool :=
  match m_runtimeSpecs m !! spec with Some s => mappingUnder id m (sp_MappingID s) | None => false end.

(** The store without server [id] and all that is below it, table by table. *)
Definition withoutServer (id : string) (m : MemoryStore) : MemoryStore := {|
  m_servers := delete id (m_servers m);
  m_telemetry := delete id (m_telemetry m);
  m_hardware := delete id (m_hardware m);
  m_samples := delete id (m_samples m);
  m_availSamples := delete id (m_availSamples m);
  m_benchmarks := except (mappingUnder id m) (m_benchmarks m);
  m_affinities := deleteWhere (fun aff => String.eqb (aff_ServerID aff) id || appUnder id m (aff_ApplicationID aff)) (m_affinities m);
  m_owners := delete id (m_owners m);
  m_serverAdminGroups := delete id (m_serverAdminGroups m);
  m_applications := except (appUnder id m) (m_applications m);
  m_mappings := except (mappingUnder id m) (m_mappings m);
  m_agentTokens := delete id (m_agentTokens m);
  m_groups := m_groups m;
  m_groupMembers := m_groupMembers m;
  m_modelSettings := m_modelSettings m;
  m_resourceGroupServers := delete id <$> m_resourceGroupServers m;
  m_certificates := deleteWhere (fun cert => String.eqb (ct_ServerID cert) id) (m_certificates m);
  m_runtimeSpecs := except (specUnder id m) (m_runtimeSpecs m);
  m_runtimeSpecGPUs := except (specUnder id m) (m_runtimeSpecGPUs m);
  m_coresidency := except (appUnder id m)
    (List.filter (fun r => negb (mappingUnder id m (cor_MappingAID r) || mappingUnder id m (cor_MappingBID r))) <$> m_coresidency m);
  m_coresidencyMode := except (appUnder id m) (m_coresidencyMode m);
  m_gpuBudgets := delete id (m_gpuBudgets m);
  m_runtimeReports := delete id (m_runtimeReports m);
  m_mappingCapabilities := except (mappingUnder id m) (m_mappingCapabilities m);
  m_mappingCache := except (mappingUnder id m) (m_mappingCache m)
|}.

(** C23.  Deleting a server removes exactly what is below it: the store that is left is, table
    by table, the old one without the server's own rows, its applications with their
    co-residency mode and matrix, the mappings of those with their benchmarks, capability
    rows, caches, specs and cards, the pins to it or to one of its applications, its
    certificates, its place in every resource group, and every co-residency rule that names
    a removed mapping; every other row of every table is what it was.  A server that does
    not exist is refused and changes nothing. *)
Theorem server_delete_exact id m :
  DeleteAIServer id m =
  match m_servers m !! id with
  | Some _ => (None, withoutServer id m)
  | None => (Some ErrNotFound, m)
  end.
Proof.
  unfold DeleteAIServer, has_key. destruct (m_servers m !! id) eqn:Es; [rewrite bool_decide_true by eauto|rewrite bool_decide_false by (by intros []); done].
  cbn [negb]. unfold deleteApplicationsForServerLocked. fold (appsOf id m). rewrite delete_applications_drop. unfold wrote. f_equal.
  assert (HA : forall k, among (appsOf id m) k = appUnder id m k).
  { intros k. unfold among, appUnder. destruct (m_applications m !! k) as [x|] eqn:Ex.
    - destruct (String.eqb_spec (app_ServerID x) id) as [E|E];
        [apply bool_decide_eq_true|apply bool_decide_eq_false]; rewrite appsOf_elem; naive_solver.
    - apply bool_decide_eq_false. rewrite appsOf_elem. naive_solver. }
  rewrite (dropRows_ext _ _ _ (appUnder id m) (mappingUnder id m) (specUnder id m)); [|done|..].
  2:{ intros k. unfold mappingsOf, mappingUnder. by case_match. }
  2:{ intros k. unfold specsOf, specUnder, mappingsOf, mappingUnder. repeat case_match; done. }
  apply store_ext; cbn; try done. apply deleteWhere_twice.
Qed.

(** ** Operator and machine *)

(** The writers that measure mapping [id]. *)
Inductive measures (id : string) : (MemoryStore -> written) -> Prop :=
| ms_probe n at_ : measures id (UpdateMappingContextProbe id n at_)
| ms_benchmark g p l at_ : measures id (UpdateMappingBenchmarkMetrics id g p l at_)
| ms_opportunistic g p a at_ : measures id (UpdateMappingOpportunisticMetrics id g p a at_)
| ms_energy s a at_ : measures id (UpdateMappingEnergyEWMA id s a at_)
| ms_capacity x r g at_ : measures id (UpdateMappingCapacityMetrics id x r g at_)
| ms_clear : measures id (ClearMappingAudioConcurrency id)
| ms_audio am source at_ : measures id (UpdateMappingAudioMetrics id am source at_).

(** The columns of a mapping a measurement may not touch. *)
Definition configured (x : ModelMapping) : string * string * string * string * string * bool :=
  (mm_ID x, mm_ApplicationID x, mm_GatewayModelName x, mm_AppModelName x, mm_Status x, mm_MetricsLocked x).

Lemma measure_spec id f m :
  (forall x, configured (f x) = configured x) ->
  (forall x, m_mappings m !! id = Some x -> mm_MetricsLocked x = true -> (measure id f m).2 = m) /\
  (forall k, configured <$> m_mappings (measure id f m).2 !! k = configured <$> m_mappings m !! k) /\
  (forall k, k <> id -> m_mappings (measure id f m).2 !! k = m_mappings m !! k).
Proof.
  intros Hf. unfold measure. destruct (m_mappings m !! id) as [x|] eqn:Ex; [|done].
  destruct (mm_MetricsLocked x) eqn:El; [naive_solver|]. split_and!; cbn.
  - intros y [= <-]. congruence.
  - intros k. destruct (decide (k = id)) as [->|]; [|by rewrite lookup_insert_ne]. rewrite lookup_insert_eq, Ex. cbn. by rewrite Hf.
  - intros k Hk. by rewrite lookup_insert_ne.
Qed.

(** What an upsert of capability rows may leave under a name. *)
Lemma putCapability_rank t rows name old :
  t !! name = Some old ->
  exists new, foldl putCapability t rows !! name = Some new /\
    capabilitySourceRank (cap_Source old) <= capabilitySourceRank (cap_Source new) /\
    (new = old \/ (new ∈ rows /\ cap_Capability new = name)).
Proof.
  revert t old. induction rows as [|r rows IH]; intros t old Hold; cbn [foldl].
  { exists old. split_and!; [done|lia|by left]. }
  assert (Hstep : exists mid, putCapability t r !! name = Some mid /\
    capabilitySourceRank (cap_Source old) <= capabilitySourceRank (cap_Source mid) /\
    (mid = old \/ (mid = r /\ cap_Capability r = name))).
  { unfold putCapability. destruct (decide (cap_Capability r = name)) as [E|Hne].
    - rewrite E, Hold. destruct (_ <? _) eqn:El; [exists old; split_and!; [done|lia|by left]|]. bool_hyps.
      exists r. rewrite lookup_insert_eq. split_and!; [done|lia|by right].
    - exists old. split_and!; [|lia|by left]. repeat case_match; by rewrite ?lookup_insert_ne. }
  destruct Hstep as (mid & Hmid & Hle & Hmid'). destruct (IH _ _ Hmid) as (new & Hnew & Hle' & Hn).
  exists new. split_and!; [done|lia|]. destruct Hn as [->|[Hn Hname]]; [|right; split; [by right|done]].
  destruct Hmid' as [->|[-> Hname]]; [by left|]. right. split; [by left|done].
Qed.

(** C30.  Machines yield to the operator.  A measuring writer leaves a locked mapping exactly
    as it is, never touches the columns an operator configures, and never another mapping;
    and whatever capability rows a prober reports, the row on file for a capability is only
    replaced by a reported one of at least its rank -- so an operator's verdict stays unless
    another operator's replaces it. *)
Theorem machine_writes_yield id m :
  (forall w, measures id w ->
    (forall x, m_mappings m !! id = Some x -> mm_MetricsLocked x = true -> (w m).2 = m) /\
    (forall k, configured <$> m_mappings (w m).2 !! k = configured <$> m_mappings m !! k) /\
    (forall k, k <> id -> m_mappings (w m).2 !! k = m_mappings m !! k)) /\
  (forall rows t name old, m_mappingCapabilities m !! id = Some t -> t !! name = Some old ->
    exists t' new, m_mappingCapabilities (UpsertMappingCapabilities id rows m).2 !! id = Some t' /\ t' !! name = Some new /\
      capabilitySourceRank (cap_Source old) <= capabilitySourceRank (cap_Source new) /\
      (new = old \/ (new ∈ rows /\ cap_Capability new = name)) /\
      (cap_Source old = CapabilitySourceManual -> cap_Source new = CapabilitySourceManual)).
Proof.
  split.
  - intros w Hw. destruct Hw; try (by apply measure_spec).
    + apply measure_spec. intros x. unfold configured. case_match; [done|]. cbn. by rewrite !when_other by done.
    + unfold UpdateMappingAudioMetrics. destruct (ValidateAudioMetrics am); [done|]. case_match; [done|].
      apply measure_spec. intros x. unfold configured. cbn. by rewrite !when_other by done.
  - intros rows t name old Ht Hold.
    assert (Hkeep : exists t' new, m_mappingCapabilities m !! id = Some t' /\ t' !! name = Some new /\
      capabilitySourceRank (cap_Source old) <= capabilitySourceRank (cap_Source new) /\
      (new = old \/ (new ∈ rows /\ cap_Capability new = name)) /\
      (cap_Source old = CapabilitySourceManual -> cap_Source new = CapabilitySourceManual))
      by (exists t, old; split_and!; [done|done|lia|by left|done]).
    unfold UpsertMappingCapabilities. destruct (firstInvalid _ _); [done|]. do 2 (case_match; [done|]). cbn.
    rewrite lookup_insert_eq. unfold map_get. rewrite Ht. cbn.
    destruct (putCapability_rank t rows name old Hold) as (new & Hnew & Hle & Hn).
    eexists _, new. split_and!; [done..|]. intros Em. rewrite Em in Hle. unfold capabilitySourceRank in Hle at 1. cbn in Hle.
    unfold capabilitySourceRank in Hle. destruct (String.eqb_spec (cap_Source new) CapabilitySourceManual); [done|].
    repeat case_match; lia.
Qed.

(** ** Specs *)

Lemma specOfMapping_unique m id k s :
  store_ok m -> (specOfMapping id m = Some (k, s) <-> m_runtimeSpecs m !! k = Some s /\ sp_MappingID s = id).
Proof.
  intros HI. split; [apply specOfMapping_some|]. intros [Hs Hid].
  destruct (specOfMapping id m) as [[k' s']|] eqn:E.
  - apply specOfMapping_some in E as [Hs' Hid']. cbn in *.
    assert (k' = k) as -> by (eapply mo_one_spec; [apply (sto_mappings _ HI)|done|done|congruence]). congruence.
  - by eapply specOfMapping_none in E.
Qed.

(** C31.  A saved spec is the one found.  After a save the mapping's spec is the saved one --
    with the identifier, the creation time and the agent's two measurements of the spec it
    replaced, if there was one, so that an operator's save never erases a measurement -- and
    every other mapping's spec is what it was; a save is refused only for a mapping that does
    not exist or an identifier that is another mapping's. *)
Theorem spec_roundtrip spec m :
  store_ok m ->
  match UpsertRuntimeSpec spec m with
  | (None, m') =>
      RuntimeSpecByMapping (sp_MappingID spec) m' =
        Some (match RuntimeSpecByMapping (sp_MappingID spec) m with
              | Some old => spec <| sp_ID := sp_ID old |> <| sp_CreatedAt := sp_CreatedAt old |>
                  <| sp_RAMMeasuredMB := sp_RAMMeasuredMB old |> <| sp_StartupMeasuredMS := sp_StartupMeasuredMS old |>
              | None => spec
              end) /\
      forall id, id <> sp_MappingID spec -> RuntimeSpecByMapping id m' = RuntimeSpecByMapping id m
  | (Some e, m') => m' = m /\
      ((e = ErrNotFound /\ m_mappings m !! sp_MappingID spec = None) \/
       (e = ErrConflict /\ exists other, m_runtimeSpecs m !! sp_ID spec = Some other /\ sp_MappingID other <> sp_MappingID spec))
  end.
Proof.
  intros HI. pose proof (UpsertRuntimeSpec_ok m spec HI) as HI'. revert HI'. unfold UpsertRuntimeSpec, RuntimeSpecByMapping.
  destruct (has_key _ _) eqn:Eh; cbn [negb].
  2: { intros _. cbn. split; [done|]. left. split; [done|]. by apply has_key_false, not_elem_of_dom in Eh. }
  assert (Hput : forall k s m', m' = m <| m_runtimeSpecs ::= <[k := s]> |> -> store_ok m' -> sp_MappingID s = sp_MappingID spec ->
    (forall old, m_runtimeSpecs m !! k = Some old -> sp_MappingID old = sp_MappingID spec) ->
    specOfMapping (sp_MappingID spec) m' = Some (k, s) /\
    forall id, id <> sp_MappingID spec -> specOfMapping id m' = specOfMapping id m).
  { intros k s m' -> HI' Es Hk. split; [apply specOfMapping_unique; [done|]; cbn; by rewrite lookup_insert_eq|].
    intros id Hne. apply option_eq. intros [k' s']. rewrite !specOfMapping_unique by done. cbn.
    split; intros [H1 H2]; (split; [|done]).
    - apply lookup_insert_Some in H1 as [[<- <-]|[_ ?]]; [congruence|done].
    - rewrite lookup_insert_ne; [done|]. intros ->. apply Hk in H1. congruence. }
  destruct (specOfMapping (sp_MappingID spec) m) as [[k old]|] eqn:Eo.
  - apply specOfMapping_some in Eo as [Hk Hm]. cbn in Hk, Hm. unfold wrote. cbn [snd]. intros HI'.
    destruct (Hput k _ _ eq_refl HI') as [H1 H2]; [done|by intros old' [= <-]%(eq_trans (eq_sym Hk))|].
    rewrite H1. split; [|intros id Hne; by rewrite H2]. cbn. destruct (mo_specs _ (sto_mappings _ HI) _ _ Hk) as [-> _]. done.
  - destruct (m_runtimeSpecs m !! sp_ID spec) as [other|] eqn:Ee.
    + case_match eqn:En; unfold wrote, refuse; cbn [snd]; intros HI'; bool_hyps.
      * split; [done|]. right. eauto.
      * exfalso. eapply specOfMapping_none; eauto.
    + unfold wrote. cbn [snd]. intros HI'. destruct (Hput (sp_ID spec) spec _ eq_refl HI') as [H1 H2]; [done|congruence|].
      rewrite H1. split; [done|]. intros id Hne. by rewrite H2.
Qed.

(** ** The store behind the resolver *)

(** The store's reads as the resolver's filters make them; [allowed] is the provisioning
    gate, which answers for each server on its own. *)
Definition memoryView (allowed : string -> bool) (minFactor : float64) (m : MemoryStore) : StoreView := {|
  sv_ActiveMappingsForModel := fun model flavor => Some (ActiveMappingsForModel model flavor m);
  sv_AllowedServerIDs := Some (fun ids => Some (list_to_set (List.filter allowed ids)));
  sv_MappingCapabilities := fun ids => Some (MappingCapabilitiesForMappings ids m);
  sv_MappingVoices := fun ids => Some (ModelMappingCacheForMappings ids ModelMappingCacheVoices m);
  sv_realtimeMinFactor := minFactor
|}.

Definition memoryFacts (allowed : string -> bool) (m : MemoryStore) : facts :=
  mkFacts allowed (fun id => mappingCapabilitiesLocked id m) (fun id => modelMappingCacheLocked id ModelMappingCacheVoices m).

(** A bulk read answers for each identifier what the single read does. *)
Lemma bulk_rows {A} (present : string -> bool) (rows : string -> list A) ids id :
  (forall k, present k = false -> rows k = []) -> id ∈ ids ->
  map_get [] (foldl (fun out k => if present k then <[k := rows k]> out else out) (∅ : gmap string (list A)) ids) id = rows id.
Proof.
  intros Hp. assert (Hgen : forall out : gmap string (list A), (forall k l, out !! k = Some l -> l = rows k) ->
    let out' := foldl (fun out k => if present k then <[k := rows k]> out else out) out ids in
    (forall k l, out' !! k = Some l -> l = rows k) /\ (forall k, is_Some (out !! k) -> is_Some (out' !! k)) /\
    (forall k, k ∈ ids -> present k = true -> is_Some (out' !! k))).
  { induction ids as [|k ids IH]; intros out Hout; cbn; [split_and!; try done; set_solver|].
    destruct (present k) eqn:Ek.
    - destruct (IH (<[k := rows k]> out)) as (H1 & H2 & H3); [intros k' l [[<- <-]|[_ ?]]%lookup_insert_Some; auto|].
      split_and!; [done| |].
      + intros k' Hk'. apply H2. rewrite lookup_insert_is_Some. destruct (decide (k = k')); auto.
      + intros k' [->|Hin]%elem_of_cons Hpk; [apply H2; rewrite lookup_insert_eq; eauto|by apply H3].
    - destruct (IH out Hout) as (H1 & H2 & H3). split_and!; [done..|].
      intros k' [->|Hin]%elem_of_cons Hpk; [congruence|by apply H3]. }
  intros Hin. destruct (Hgen ∅) as (H1 & _ & H3); [intros k l; by rewrite lookup_empty|].
  unfold map_get. destruct (_ !! id) as [l|] eqn:El; cbn; [by eapply H1|].
  symmetry. apply Hp. destruct (present id) eqn:Ep; [|done]. destruct (H3 id Hin Ep). congruence.
Qed.

Lemma sort_Slice_nil {A} (less : A -> A -> bool) : sort_Slice less [] = [].
Proof. done. Qed.

Lemma foldl_flip {A B} (p : B -> bool) (f : B -> A -> A) (a : A) l :
  foldl (fun a b => if p b then a else f b a) a l = foldl (fun a b => if negb (p b) then f b a else a) a l.
Proof. revert a. induction l as [|b l IH]; intros a; [done|]. cbn. rewrite IH. by destruct (p b). Qed.

Lemma memory_rowwise allowed minFactor m : rowwise (memoryView allowed minFactor m) (memoryFacts allowed m).
Proof.
  split; cbn.
  - done.
  - intros gate ids answer [= <-] [= <-] id Hid. apply eq_true_iff_eq. rewrite bool_decide_eq_true, elem_of_list_to_set, elem_of_filter_bool. tauto.
  - intros ids answer [= <-] id Hid. unfold MappingCapabilitiesForMappings.
    rewrite (foldl_flip (fun id => bool_decide (map_get ∅ (m_mappingCapabilities m) id = ∅))
      (fun id out => <[id := mappingCapabilitiesLocked id m]> out)).
    apply (bulk_rows (fun id => negb (bool_decide (map_get ∅ (m_mappingCapabilities m) id = ∅)))
      (fun id => mappingCapabilitiesLocked id m)); [|done].
    intros k Hk. bool_hyps. unfold mappingCapabilitiesLocked. by rewrite Hk, map_to_list_empty.
  - intros ids answer [= <-] id Hid. unfold ModelMappingCacheForMappings.
    apply (bulk_rows (fun id => (0 <? length (modelMappingCacheLocked id ModelMappingCacheVoices m))%nat)
      (fun id => modelMappingCacheLocked id ModelMappingCacheVoices m)); [|done].
    intros k Hk%Nat.ltb_ge. by apply nil_length_inv; lia.
Qed.

Lemma sortedKeys_elem {V} (t : gmap string V) id : id ∈ sortedKeys t <-> is_Some (t !! id).
Proof.
  unfold sortedKeys. rewrite (sort_Slice_elem (less_string (fun id => id))), list_elem_of_fmap. split.
  - intros ([k v] & -> & Hin%elem_of_map_to_list). eauto.
  - intros [v Hv]. exists (id, v). split; [done|]. by apply elem_of_map_to_list.
Qed.

(** Distinct identifiers sort strictly. *)
Lemma strict_sorted l :
  NoDup l -> StronglySorted (fun x y => String.ltb x y = true) (sort_Slice (less_string (fun id => id)) l).
Proof.
  intros Hnd. rewrite <- (sort_Slice_perm (less_string (fun id => id)) l) in Hnd.
  induction (sort_Slice_sorted (less_string (fun id => id)) l) as [|x k Hs IH Hx]; [constructor|].
  apply NoDup_cons in Hnd as [Hn Hnd]. constructor; [by apply IH|]. rewrite Forall_forall in Hx |- *. intros y Hy.
  specialize (Hx y Hy). unfold less_le, less_string in Hx. destruct (String.ltb x y) eqn:E; [done|]. exfalso. apply Hn.
  assert (x = y) as ->; [|done]. apply string_ltb_false in Hx, E. by apply (anti_symm String.le).
Qed.

(** Keys come out in strictly increasing order. *)
Lemma sortedKeys_sorted {V} (t : gmap string V) : StronglySorted (fun a b => String.ltb a b = true) (sortedKeys t).
Proof. apply strict_sorted, NoDup_fst_map_to_list. Qed.

Lemma sorted_omap {A B} (R : A -> A -> Prop) (S : B -> B -> Prop) (f : A -> option B) l :
  (forall x y a b, R x y -> f x = Some a -> f y = Some b -> S a b) -> StronglySorted R l -> StronglySorted S (omap f l).
Proof.
  intros HRS. induction 1 as [|x l Hs IH Hx]; [constructor|]. cbn. destruct (f x) as [a|] eqn:Ea; [|done].
  constructor; [done|]. rewrite Forall_forall in Hx. apply Forall_forall. intros b (y & Hy & Eb)%list_elem_of_omap. eauto.
Qed.

Lemma sorted_filter {A} (R : A -> A -> Prop) (p : A -> bool) l : StronglySorted R l -> StronglySorted R (List.filter p l).
Proof.
  induction 1 as [|x l Hs IH Hx]; [constructor|]. cbn. destruct (p x); [|done]. constructor; [done|].
  rewrite Forall_forall in Hx |- *. intros y [Hy _]%list_elem_of_In%filter_In. apply Hx. by apply list_elem_of_In.
Qed.

(** What makes mapping [x], stored under [id], candidate [c]. *)
Record listed (m : MemoryStore) (model flavor id : string) (c : MappingCandidate) : Prop := {
  li_mapping : m_mappings m !! id = Some (mc_Mapping c);
  li_application : m_applications m !! mm_ApplicationID (mc_Mapping c) = Some (mc_Application c);
  li_server : m_servers m !! app_ServerID (mc_Application c) = Some (mc_Server c);
  li_active : mm_Status (mc_Mapping c) = ServerStatusActive /\ app_Status (mc_Application c) = ServerStatusActive;
  li_model : mm_GatewayModelName (mc_Mapping c) = model;
  li_flavor : applicationHasAPIFlavor (mc_Application c) flavor = true;
  li_progress : mc_LiveProgressSupport c = LiveProgressSupportFromVerdict
    (default "" (cap_Verdict <$> map_get ∅ (m_mappingCapabilities m) id !! CapabilityLiveProgress));
  li_plain : mc_Instance c = 0 /\ mc_InstanceCapable c = false /\ mc_InstanceParallelism c = 0 /\ mc_InstancePool c = false
}.

Lemma candidateOf_listed model flavor m id x c :
  m_mappings m !! id = Some x -> (candidateOf model flavor m id x = Some c <-> listed m model flavor id c).
Proof.
  intros Hx. unfold candidateOf. split.
  - case_match eqn:E1; [done|]. destruct (m_applications m !! _) as [app|] eqn:Ea; [|done].
    case_match eqn:E2; [done|]. destruct (m_servers m !! _) as [server|] eqn:Es; [|done]. intros [= <-].
    bool_hyps. split; cbn; try done. by destruct (_ !! CapabilityLiveProgress).
  - intros [H1 H2 H3 [H4 H4'] H5 H6 H7 (H8 & H9 & H10 & H11)]. assert (x = mc_Mapping c) as -> by congruence.
    rewrite H4, H5, !String.eqb_refl. cbn. rewrite H2, H4', H6, String.eqb_refl. cbn. rewrite H3. f_equal.
    destruct c; cbn in *. subst. f_equal. by destruct (_ !! CapabilityLiveProgress).
Qed.

(** C22.  The in-memory store is one the resolver may rely on.  Against an intact store the
    pool the gates leave a model is never refused and holds exactly the mappings the store
    has active for the model on an active application of the flavor, each joined with its
    application, its server and its live-progress verdict, whose server is provisioned, whose
    application serves the endpoint and whose stored verdicts satisfy the required
    capabilities -- each once, in the order of their identifiers. *)
Theorem memory_pool_exact `{Unicode} allowed minFactor m model flavor fineFlavor required :
  store_ok m ->
  exists pool, memberPool (memoryView allowed minFactor m) model flavor fineFlavor required = inl pool /\
    (forall c, c ∈ pool <-> (exists id, listed m model flavor id c) /\
       mayServe (memoryFacts allowed m) fineFlavor required c = true) /\
    StronglySorted (fun c d => String.ltb (mm_ID (mc_Mapping c)) (mm_ID (mc_Mapping d)) = true) pool.
Proof.
  intros HI. pose proof (memberPool_exact (memoryView allowed minFactor m) (memoryFacts allowed m)
    (memory_rowwise allowed minFactor m) model flavor fineFlavor required) as HP.
  destruct (memberPool _ _ _ _ _) as [pool|e].
  2: { exfalso. destruct HP as [_ [?|[(gate & ids & [= <-] & ?)|(_ & ids & ?)]]]; done. }
  destruct HP as (stored & [= <-] & ->). eexists. split; [done|]. split.
  - intros c. rewrite elem_of_filter_bool. unfold ActiveMappingsForModel. rewrite list_elem_of_omap. split.
    + intros [(id & _ & Hc) Hs]. split; [|done]. exists id. destruct (m_mappings m !! id) as [x|] eqn:Ex; [|done]. by apply (candidateOf_listed _ _ _ _ x).
    + intros [[id Hl] Hs]. split; [|done]. exists id. pose proof (li_mapping _ _ _ _ _ Hl) as Hx.
      split; [apply sortedKeys_elem; eauto|]. rewrite Hx. by apply candidateOf_listed.
  - apply sorted_filter. eapply sorted_omap; [|apply sortedKeys_sorted]. cbn.
    assert (Hid : forall id c, m_mappings m !! id ≫= candidateOf model flavor m id = Some c -> mm_ID (mc_Mapping c) = id).
    { intros id c Hc. destruct (m_mappings m !! id) as [x|] eqn:Ex; [|done]. apply candidateOf_listed in Hc; [|done].
      eapply mo_rows; [apply (sto_mappings _ HI)|apply Hc]. }
    intros x y c d Hlt Hc Hd. by rewrite (Hid _ _ Hc), (Hid _ _ Hd).
Qed.

(** ** Examples *)

Module Examples.

Local Existing Instance ascii_tables.

Definition agentApp : Application := plainApplication "a1" ProviderServerAgent 0 0 600 30 "s1".

Definition chat (id app : string) : ModelMapping := (plainMapping id "chat" "qwen") <| mm_ApplicationID := app |>.

(** Two servers with an application each; the first runs two mappings, one of them with a
    spec and a verdict, and a session is pinned to it.  A second agent's application on the
    first server and a mapping of an unknown application are refused. *)
Definition writes : list (MemoryStore -> written) :=
  [CreateAIServer (plainServer "s1" ServerStatusActive "healthy"); CreateAIServer (plainServer "s2" ServerStatusActive "healthy");
   CreateApplication agentApp; CreateApplication (plainApplication "a2" "vllm" 0 0 600 30 "s2");
   CreateApplication (plainApplication "a3" ProviderServerAgent 0 0 600 30 "s1");
   CreateMapping (chat "m2" "a1"); CreateMapping (chat "m1" "a1"); CreateMapping (chat "m3" "a2"); CreateMapping (chat "m4" "a9");
   UpsertRuntimeSpec ((replicableSpec "sp1" 4) <| sp_MappingID := "m1" |>); UpdateRuntimeSpecRAMMeasured "sp1" 900;
   UpsertMappingCapabilities "m1" [mkCapabilityRow "vision" CapabilityYes "manual" 1];
   UpsertAffinity (mkRouteAffinity "p" "t" "u" "chat" "chat" "openai" "s" "a1" "s1" 0 9 1 1 1)].

Definition filled : MemoryStore := runWrites writes.

Lemma writes_ok : Forall store_write writes.
Proof. repeat (constructor; [constructor|]). constructor. Qed.

Lemma server_delete_exact_witness :
  DeleteAIServer "s1" filled = (None, withoutServer "s1" filled) /\
  m_affinities (DeleteAIServer "s1" filled).2 !! mkAffinityKey "t" "chat" "openai" "s" = None /\
  m_mappings (DeleteAIServer "s1" filled).2 !! "m3" = Some (chat "m3" "a2").
Proof.
  split_and!; [rewrite (server_delete_exact "s1" filled)|rewrite (server_delete_exact "s1" filled)|
    rewrite (server_delete_exact "s1" filled)]; vm_compute; reflexivity.
Defined.

(** The operator saves the spec under another identifier and without measurements. *)
Definition saved : RuntimeSpec := (replicableSpec "sp9" 2) <| sp_MappingID := "m1" |>.

Lemma spec_roundtrip_witness :
  RuntimeSpecByMapping "m1" (UpsertRuntimeSpec saved filled).2 =
    Some (saved <| sp_ID := "sp1" |> <| sp_RAMMeasuredMB := 900 |>).
Proof.
  pose proof (spec_roundtrip saved filled (run_ok _ writes_ok)) as Hr.
  destruct (UpsertRuntimeSpec saved filled) as [e m'] eqn:E. destruct e as [e|]; [vm_compute in E; discriminate E|].
  destruct Hr as [Hr _]. cbn [snd]. change (sp_MappingID saved) with "m1" in Hr. rewrite Hr. vm_compute. reflexivity.
Defined.

Lemma memory_pool_exact_witness :
  exists pool, memberPool (memoryView (fun id => String.eqb id "s1") f64_zero filled) "chat" "openai" "openai" ["vision"] = inl pool /\
    (mm_ID ∘ mc_Mapping) <$> pool = ["m1"].
Proof.
  destruct (memory_pool_exact (fun id => String.eqb id "s1") f64_zero filled "chat" "openai" "openai" ["vision"]
    (run_ok _ writes_ok)) as (pool & Hp & _).
  exists pool. split; [exact Hp|]. vm_compute in Hp. injection Hp as <-. reflexivity.
Defined.

End Examples.
