(* ===== verification/InstanceSource.v ===== *)
(** * The instances routing sees

    Models [gateway/backend/internal/gateway/instance_source.go]: the view of a mapping's
    running and present instances read off its agent's status rows ([InstanceView]), and
    the cache of runtime specs behind it with its single flight, its memory of failures and
    its retention ([lookup], [remember]).

    A call of [spec] is its first critical section ([lookup]: answer, wait or read) and, for
    the caller that reads, the end of the read ([land]); calls of other goroutines come in
    between ([step]).  A caller whose request ends while it waits takes the entry it found
    when it missed; it is not an event.

    Main results: the view is exactly the rows that are this spec's at this mapping's
    address ([instance_view_exact]); a changed spec reaches routing within seven seconds
    while the store answers ([spec_change_seen]). *)

From Stdlib Require Import ZArith Lia Sorted.
From stdpp Require Import base tactics option list numbers strings gmap sorting.
From S2P Require Import Prelude Float64 RoutingTypes GatewayInstances GatewayInstancesProps Selection Filters Targets.
Local Open Scope Z_scope.
Local Open Scope go_scope.

(** ** The cache of specs *)

Definition instanceSpecCacheTTL : duration := 5 * 1000000000.
Definition instanceSpecReadTimeout : duration := 2 * 1000000000.
Definition instanceSpecFailureTTL : duration := instanceSpecReadTimeout.
Definition instanceSpecRetention : duration := 60 * 1000000000.

Record instanceSpecEntry := mkSpecEntry {
  ie_found : bool;
  ie_failed : bool;
  ie_specID : string;
  ie_replicable : bool;
  ie_maxInstances : Z;
  ie_parallelism : Z;
  ie_startedAt : time;
  ie_until : time
}.

Global Instance instanceSpecEntry_fields : Fields instanceSpecEntry := fun e =>
  mkSpecEntry (ie_found e) (ie_failed e) (ie_specID e) (ie_replicable e) (ie_maxInstances e) (ie_parallelism e)
    (ie_startedAt e) (ie_until e).

Definition zeroSpecEntry : instanceSpecEntry := mkSpecEntry false false "" false 0 0 time_zero time_zero.

Definition fresh (e : instanceSpecEntry) (now : time) : bool := now <? ie_until e.

(** The entry a read that began at [startedAt] and returned at [readAt] leaves, and whether
    it is the last good spec although the read failed. *)
Definition remember (mappingID : string) (startedAt readAt : time) (answer : lookup_result RuntimeSpec)
    (specs : gmap string instanceSpecEntry) : instanceSpecEntry * bool * gmap string instanceSpecEntry :=
  let prev := specs !! mappingID in
  match (match prev with Some p => if startedAt <? ie_startedAt p then Some p else None | None => None end) with
  | Some p => (p, false, specs)
  | None =>
      let read (found : bool) (spec : RuntimeSpec) :=
        (mkSpecEntry found false (sp_ID spec) (sp_Replicable spec) (sp_MaxInstances spec) (sp_InstanceParallelism spec)
           time_zero (time_Add readAt instanceSpecCacheTTL), false) in
      let '(e, stale) :=
        match answer with
        | ReadFailed =>
            let stale := match prev with Some p => negb (ie_failed p) | None => false end in
            let e := match prev with
                     | Some p => if negb (ie_failed p) then p else zeroSpecEntry <| ie_failed := true |>
                     | None => zeroSpecEntry <| ie_failed := true |>
                     end in
            (e <| ie_until := time_Add readAt instanceSpecFailureTTL |>, stale)
        | Found spec => read true spec
        | NotFound => read false zeroRuntimeSpec
        end in
      let e := e <| ie_startedAt := startedAt |> in
      let specs := filter (fun old => (instanceSpecRetention <? time_Sub readAt (ie_until old.2)) = false) specs in
      (e, stale, <[mappingID := e]> specs)
  end.

Definition answerStale (e : option instanceSpecEntry) : instanceSpecEntry := default zeroSpecEntry e.

(** A read in flight: when it began, and the callers that take its answer, by when they asked. *)
Record source := mkSource {
  is_specs : gmap string instanceSpecEntry;
  is_flights : gmap string (time * list time)
}.

Inductive event :=
| EAsk (id : string) (now : time) (live : bool)      (* a call of [spec]; its request may be gone *)
| ELand (id : string) (readAt : time) (answer : lookup_result RuntimeSpec).

(** An answer: for which mapping, when it was asked for, by a request still there, and the entry. *)
Definition answer : Type := string * time * bool * instanceSpecEntry.

Definition lookup (id : string) (now : time) (live : bool) (s : source) : source * list answer :=
  match is_specs s !! id with
  | Some e =>
      if fresh e now then (s, [(id, now, live, e)])
      else if negb live then (s, [(id, now, live, e)])
      else match is_flights s !! id with
           | Some (started, waiting) => (mkSource (is_specs s) (<[id := (started, waiting ++ [now])]> (is_flights s)), [])
           | None => (mkSource (is_specs s) (<[id := (now, [now])]> (is_flights s)), [])
           end
  | None =>
      if negb live then (s, [(id, now, live, answerStale None)])
      else match is_flights s !! id with
           | Some (started, waiting) => (mkSource (is_specs s) (<[id := (started, waiting ++ [now])]> (is_flights s)), [])
           | None => (mkSource (is_specs s) (<[id := (now, [now])]> (is_flights s)), [])
           end
  end.

Definition land (id : string) (readAt : time) (result : lookup_result RuntimeSpec) (s : source) : source * list answer :=
  match is_flights s !! id with
  | None => (s, [])
  | Some (started, waiting) =>
      let '(e, _, specs) := remember id started readAt result (is_specs s) in
      (mkSource specs (delete id (is_flights s)), (fun asked => (id, asked, true, e)) <$> waiting)
  end.

Definition step (e : event) (s : source) : source * list answer :=
  match e with
  | EAsk id now live => lookup id now live s
  | ELand id readAt result => land id readAt result s
  end.

Fixpoint execute (events : list event) (s : source) : source * list answer :=
  match events with
  | [] => (s, [])
  | e :: events =>
      let '(s, out) := step e s in
      let '(s, out') := execute events s in (s, out ++ out')
  end.

Definition newInstanceSource : source := mkSource ∅ ∅.

(** ** The view *)

Definition slices_Sort (l : list Z) : list Z := merge_sort Z.le l.

Fixpoint slices_Compact (l : list Z) : list Z :=
  match l with
  | [] => []
  | x :: l' => match l' with
               | y :: _ => if x =? y then slices_Compact l' else x :: slices_Compact l'
               | [] => [x]
               end
  end.

(** A row of this spec at the address this mapping sends for its index. *)
Definition rowCounts (spec : instanceSpecEntry) (m : ModelMapping) (row : RuntimeStatus) : bool :=
  let k := rs_Instance row in
  negb (negb (String.eqb (rs_SpecID row) (ie_specID spec)) || (k <? 1) || (Addresses.MaxInstanceIndex <? k)
        || negb (String.eqb (rs_Model row) (Addresses.InstanceAddress (mm_AppModelName m) k))).

Definition viewStep (spec : instanceSpecEntry) (m : ModelMapping) (acc : list Z * list Z) (row : RuntimeStatus) : list Z * list Z :=
  if negb (rowCounts spec m row) then acc
  else if String.eqb (rs_State row) "running" then (acc.1 ++ [rs_Instance row], acc.2 ++ [rs_Instance row])
  else if String.eqb (rs_State row) "starting" then (acc.1, acc.2 ++ [rs_Instance row])
  else acc.

(** [declares]: the agent is known to declare [runtime_instances]. *)
Definition InstanceViewOf (declares : bool) (spec : instanceSpecEntry) (rows : list RuntimeStatus) (m : ModelMapping)
  : option InstanceView :=
  if negb declares then None
  else if negb (ie_found spec) || negb (ie_replicable spec) then None
  else
    let '(running, present) := foldl (viewStep spec m) ([], []) rows in
    Some (mkInstanceView true (Z.max (ie_parallelism spec) 1) (ie_maxInstances spec)
      (slices_Compact (slices_Sort running)) (slices_Compact (slices_Sort present))).

(** ** The view is exactly the agent's rows *)

Lemma compact_sorted l : StronglySorted Z.le l -> StronglySorted Z.lt (slices_Compact l) /\ forall x, x ∈ slices_Compact l <-> x ∈ l.
Proof.
  induction 1 as [|x l Hs [IH1 IH2] Hx]; [split; [constructor|done]|]. cbn. destruct l as [|y l]; [split; [repeat constructor|done]|].
  destruct (Z.eqb_spec x y) as [->|Hne].
  - split; [done|]. intros z. rewrite IH2. set_solver.
  - split; [|intros z; rewrite !elem_of_cons, IH2, elem_of_cons; tauto]. constructor; [done|].
    apply Forall_forall. intros z Hz%IH2. rewrite Forall_forall in Hx. pose proof (Hx y ltac:(left)).
    apply StronglySorted_inv in Hs as [_ Hs]. rewrite Forall_forall in Hs. apply elem_of_cons in Hz as [->|Hz]; [lia|]. specialize (Hs z Hz). lia.
Qed.

Lemma sort_compact l : StronglySorted Z.lt (slices_Compact (slices_Sort l)) /\ forall x, x ∈ slices_Compact (slices_Sort l) <-> x ∈ l.
Proof.
  destruct (compact_sorted (slices_Sort l)) as [H1 H2]; [apply (StronglySorted_merge_sort Z.le)|]. split; [done|].
  intros x. rewrite H2. unfold slices_Sort. by rewrite (merge_sort_Permutation Z.le l).
Qed.

Lemma exists_cons {A} (P : A -> Prop) x l : (exists y, y ∈ x :: l /\ P y) <-> P x \/ exists y, y ∈ l /\ P y.
Proof.
  split; [intros (y & [->|Hy]%elem_of_cons & Hp); eauto|]. intros [Hp|(y & Hy & Hp)]; [exists x; split; [left|done]|exists y; split; [by right|done]].
Qed.

Lemma viewStep_elem spec m rows acc k :
  let out := foldl (viewStep spec m) acc rows in
  (k ∈ out.1 <-> k ∈ acc.1 \/ exists row, row ∈ rows /\ rowCounts spec m row = true /\ rs_Instance row = k /\ rs_State row = "running") /\
  (k ∈ out.2 <-> k ∈ acc.2 \/ exists row, row ∈ rows /\ rowCounts spec m row = true /\ rs_Instance row = k /\
     (rs_State row = "running" \/ rs_State row = "starting")).
Proof.
  revert acc. induction rows as [|row rows IH]; intros acc; cbn [foldl].
  { split; (split; [by left|intros [?|(row & ?%elem_of_nil & _)]; done]). }
  cbv zeta in *. destruct (IH (viewStep spec m acc row)) as [-> ->]. rewrite !exists_cons. clear IH. unfold viewStep.
  destruct (rowCounts spec m row) eqn:Ec; cbn [negb]; [|split; intuition congruence].
  destruct (String.eqb_spec (rs_State row) "running") as [Er|Er]; cbn [fst snd];
    [|destruct (String.eqb_spec (rs_State row) "starting") as [Es|Es]; cbn [fst snd]].
  all: rewrite ?elem_of_app, ?list_elem_of_singleton; split; try rewrite Er; try rewrite Es; intuition (subst; auto; congruence).
Qed.

(** Routing sees exactly the instances its agent serves at the address it would send.
    The view exists only for an agent known to declare instances and a replicable spec; it
    counts an index as running exactly when some status row of the spec reports that index,
    between 1 and the highest an address can carry, under the address the mapping sends for
    it, as running, and as present when running or starting; each index is listed once, in
    order, and the parallelism is at least one. *)
Theorem instance_view_exact declares spec rows m :
  match InstanceViewOf declares spec rows m with
  | None => declares = false \/ ie_found spec = false \/ ie_replicable spec = false
  | Some view => declares = true /\ ie_found spec = true /\ ie_replicable spec = true /\
      1 <= iv_Parallelism view /\ iv_MaxInstances view = ie_maxInstances spec /\
      StronglySorted Z.lt (iv_Running view) /\ StronglySorted Z.lt (iv_Present view) /\
      forall k,
        let served state := exists row, row ∈ rows /\ rs_SpecID row = ie_specID spec /\ rs_Instance row = k /\
          1 <= k <= Addresses.MaxInstanceIndex /\ rs_Model row = Addresses.InstanceAddress (mm_AppModelName m) k /\
          rs_State row = state in
        (k ∈ iv_Running view <-> served "running") /\
        (k ∈ iv_Present view <-> served "running" \/ served "starting")
  end.
Proof.
  unfold InstanceViewOf. destruct declares; [|by left]. destruct (ie_found spec) eqn:Ef; [|by right; left].
  destruct (ie_replicable spec) eqn:Er; [|by right; right]. cbn [negb orb].
  pose proof (viewStep_elem spec m rows ([], [])) as Hv. destruct (foldl _ _ rows) as [running present].
  destruct (sort_compact running) as [Hr1 Hr2], (sort_compact present) as [Hp1 Hp2]. cbn. split_and!; try done; [lia|].
  assert (Hc : forall row k, rowCounts spec m row = true /\ rs_Instance row = k <->
    rs_SpecID row = ie_specID spec /\ rs_Instance row = k /\ 1 <= k <= Addresses.MaxInstanceIndex /\
    rs_Model row = Addresses.InstanceAddress (mm_AppModelName m) k).
  { intros row k. unfold rowCounts. rewrite negb_true_iff, !orb_false_iff, !negb_false_iff, !String.eqb_eq, !Z.ltb_ge.
    split; [intros [(((? & ?) & ?) & ?) <-]; auto with lia|intros (? & <- & ? & ?); auto with lia]. }
  intros k. destruct (Hv k) as [E1 E2]. cbn in E1, E2. rewrite Hr2, Hp2, E1, E2. split.
  - split; [intros [?%elem_of_nil|(row & Hin & H1 & H2 & H3)]; [done|]|intros (row & Hin & H1 & H2 & [H3 H3'] & H4 & H5); right].
    + destruct (proj1 (Hc row k) (conj H1 H2)) as (? & ? & [? ?] & ?). exists row. by split_and!.
    + destruct (proj2 (Hc row k)) as [? ?]; [by split_and!|]. exists row. by split_and!.
  - split; [intros [?%elem_of_nil|(row & Hin & H1 & H2 & H3)]; [done|]|].
    + destruct (proj1 (Hc row k) (conj H1 H2)) as (? & ? & [? ?] & ?). destruct H3; [left|right]; exists row; by split_and!.
    + intros [(row & Hin & H1 & H2 & [H3 H3'] & H4 & H5)|(row & Hin & H1 & H2 & [H3 H3'] & H4 & H5)]; right;
        (destruct (proj2 (Hc row k)) as [? ?]; [by split_and!|]); exists row; auto 6.
Qed.

(** ** A changed spec is seen *)

(** What an entry says of the mapping. *)
Definition said (e : instanceSpecEntry) : bool * string * bool * Z * Z :=
  (ie_found e, ie_specID e, ie_replicable e, ie_maxInstances e, ie_parallelism e).

(** What the store's answer says of it. *)
Definition says (result : lookup_result RuntimeSpec) : option (bool * string * bool * Z * Z) :=
  match result with
  | Found spec => Some (true, sp_ID spec, sp_Replicable spec, sp_MaxInstances spec, sp_InstanceParallelism spec)
  | NotFound => Some (false, "", false, 0, 0)
  | ReadFailed => None
  end.

Definition eventTime (e : event) : time := match e with EAsk _ now _ => now | ELand _ readAt _ => readAt end.

Section change.
Context (id : string) (since : time) (value : bool * string * bool * Z * Z).

(** The clock does not go back, a read ends within its bound, and a read of the mapping
    begun since the change answers the new value. *)
Fixpoint timed (clock : time) (s : source) (events : list event) : Prop :=
  match events with
  | [] => True
  | e :: events =>
      clock <= eventTime e /\
      match e with
      | EAsk _ _ _ => True
      | ELand id' readAt result =>
          forall started waiting, is_flights s !! id' = Some (started, waiting) ->
            readAt <= started + instanceSpecReadTimeout /\ (id' = id -> since <= started -> says result = Some value)
      end /\
      timed (eventTime e) (step e s).1 events
  end.

(** An entry is of the new value, or of a read begun before the change, and then it stops
    answering seven seconds after it. *)
Definition current (e : instanceSpecEntry) : Prop :=
  said e = value \/
  (ie_startedAt e < since /\ ie_until e <= since + instanceSpecReadTimeout + instanceSpecCacheTTL).

Record seen (clock : time) (s : source) : Prop := {
  sn_specs e : is_specs s !! id = Some e -> current e;
  sn_flight started waiting : is_flights s !! id = Some (started, waiting) ->
    started <= clock /\ forall t, t ∈ waiting -> started <= t <= clock
}.

Definition late (a : answer) : Prop :=
  let '(id', asked, live, e) := a in
  id' = id -> live = true -> since + instanceSpecReadTimeout + instanceSpecCacheTTL <= asked -> said e = value.

Lemma remember_current started readAt result specs :
  (forall e, specs !! id = Some e -> current e) -> readAt <= started + instanceSpecReadTimeout ->
  (since <= started -> says result = Some value) ->
  let '(e, _, specs') := remember id started readAt result specs in
  current e /\ (since <= started -> said e = value) /\ (forall e', specs' !! id = Some e' -> current e').
Proof.
  intros Hs Hread Hnew. unfold remember.
  destruct (match specs !! id with Some p => _ | None => None end) as [p|] eqn:Ep.
  { assert (Hp : specs !! id = Some p /\ started < ie_startedAt p) by (repeat case_match; simplify_eq; bool_hyps; done).
    destruct Hp as [Hp Hlt]. specialize (Hs p Hp). split_and!; [done| |by intros e' [= <-]%(eq_trans (eq_sym Hp))].
    intros Hle. destruct Hs as [?|[? _]]; [done|lia]. }
  match goal with |- context [let '(e, stale) := ?x in _] => set (new := x); assert (Hc : current ((new.1) <| ie_startedAt := started |>)) end.
  { assert (Hold : started < since -> ie_until new.1 <= since + instanceSpecReadTimeout + instanceSpecCacheTTL).
    { intros Hlt. unfold new. destruct result; cbn; unfold time_Add, instanceSpecFailureTTL, instanceSpecReadTimeout, instanceSpecCacheTTL in *; lia. }
    destruct (Z_le_gt_dec since started) as [Hle|Hgt]; [|right; cbn; split; [lia|apply Hold; lia]].
    specialize (Hnew Hle). unfold new. destruct result; cbn in Hnew; simplify_eq; by left. }
  clearbody new. destruct new as [e stale]. cbn in *. split_and!; [done| |intros e'; rewrite lookup_insert_eq; by intros [= <-]].
  intros Hle. destruct Hc as [?|[? _]]; [done|]. cbn in *. lia.
Qed.

Lemma remember_others id' started readAt result specs e :
  id' <> id -> (remember id' started readAt result specs).2 !! id = Some e -> specs !! id = Some e.
Proof.
  intros Hne. unfold remember. destruct (match specs !! id' with Some p => _ | None => None end); [done|].
  match goal with |- context [let '(e, stale) := ?x in _] => destruct x as [e0 stale] end. cbn.
  rewrite lookup_insert_ne by done. by intros [? _]%map_lookup_filter_Some.
Qed.

Lemma lookup_seen clock id' now live s :
  clock <= now -> seen clock s -> seen now (lookup id' now live s).1 /\ Forall late (lookup id' now live s).2.
Proof.
  intros Hclock [Hs Hf].
  assert (Hmono : seen now s) by (split; [done|]; intros started waiting Hw; destruct (Hf _ _ Hw) as [? Hall];
    split; [lia|]; intros t Ht; specialize (Hall t Ht); lia).
  assert (Hjoin : seen now (match is_flights s !! id' with
     | Some (started, waiting) => mkSource (is_specs s) (<[id' := (started, waiting ++ [now])]> (is_flights s))
     | None => mkSource (is_specs s) (<[id' := (now, [now])]> (is_flights s)) end)).
  { destruct (is_flights s !! id') as [[started waiting]|] eqn:Ef; split; cbn; try done; intros started' waiting' Hw;
      apply lookup_insert_Some in Hw as [[-> [= <- <-]]|[_ Hw]]; try by apply (sn_flight _ _ Hmono).
    - destruct (sn_flight _ _ Hmono _ _ Ef) as [? Hall]. split; [done|]. intros t [Ht| ->%list_elem_of_singleton]%elem_of_app; [auto|lia].
    - split; [lia|]. intros t ->%list_elem_of_singleton. lia. }
  unfold lookup. destruct (is_specs s !! id') as [e|] eqn:Ee.
  - destruct (fresh e now) eqn:Efr.
    { split; [done|]. constructor; [|constructor]. intros -> _ Hasked. destruct (Hs e Ee) as [?|[_ Hu]]; [done|].
      unfold fresh in Efr. bool_hyps. lia. }
    destruct live; cbn [negb]; [|split; [done|constructor; [done|constructor]]].
    destruct (is_flights s !! id') as [[started waiting]|]; (split; [done|constructor]).
  - destruct live; cbn [negb]; [|split; [done|constructor; [done|constructor]]].
    destruct (is_flights s !! id') as [[started waiting]|]; (split; [done|constructor]).
Qed.

Lemma land_seen clock id' readAt result s :
  clock <= readAt -> seen clock s ->
  (forall started waiting, is_flights s !! id' = Some (started, waiting) ->
     readAt <= started + instanceSpecReadTimeout /\ (id' = id -> since <= started -> says result = Some value)) ->
  seen readAt (land id' readAt result s).1 /\ Forall late (land id' readAt result s).2.
Proof.
  intros Hclock [Hs Hf] Ht. assert (Hflight : forall started waiting, is_flights s !! id = Some (started, waiting) ->
    started <= readAt /\ forall t, t ∈ waiting -> started <= t <= readAt).
  { intros started waiting Hw. destruct (Hf _ _ Hw) as [? Hall]. split; [lia|]. intros t Hin. specialize (Hall t Hin). lia. }
  unfold land. destruct (is_flights s !! id') as [[started waiting]|] eqn:Ef; [|split; [by split|constructor]].
  destruct (Ht _ _ eq_refl) as [Hread Hnew]. destruct (decide (id' = id)) as [->|Hne].
  - pose proof (remember_current started readAt result (is_specs s) Hs Hread (Hnew eq_refl)) as Hr.
    destruct (remember id started readAt result (is_specs s)) as [[e stale] specs]. destruct Hr as (_ & He & Hspecs). split.
    + split; cbn; [done|]. intros started' waiting' [? _]%lookup_delete_Some. done.
    + apply Forall_forall. intros a (t & -> & Hin)%list_elem_of_fmap. intros _ _ Hasked. destruct (Hf _ _ Ef) as [_ Hall].
      specialize (Hall t Hin). apply He. unfold instanceSpecReadTimeout, instanceSpecCacheTTL in *. lia.
  - pose proof (remember_others id' started readAt result (is_specs s)) as Ho.
    destruct (remember id' started readAt result (is_specs s)) as [[e stale] specs]. cbn in Ho. split.
    + split; cbn; [eauto|]. intros started' waiting' [_ ?]%lookup_delete_Some. eauto.
    + apply Forall_forall. intros a (t & -> & Hin)%list_elem_of_fmap. by intros ?.
Qed.

Lemma execute_seen events clock s :
  timed clock s events -> seen clock s -> Forall late (execute events s).2.
Proof.
  revert clock s. induction events as [|e events IH]; intros clock s; [constructor|]. intros (Hclock & Hland & Ht) Hs.
  assert (Hstep : seen (eventTime e) (step e s).1 /\ Forall late (step e s).2).
  { destruct e; cbn in *; [by eapply lookup_seen|by eapply land_seen]. }
  destruct Hstep as [Hseen Hlate]. specialize (IH _ _ Ht Hseen). cbn [execute]. destruct (step e s) as [s1 out1]. cbn in *.
  destruct (execute events s1) as [s2 out2]. by apply Forall_app.
Qed.

(** C36.  A changed spec reaches routing within seven seconds.  Whatever requests ask and
    whatever reads are in flight, once the store has answered a mapping's reads with a new
    value since some instant -- the clock not going back, no read outliving its bound of two
    seconds, failed reads of other mappings and earlier failures of this one included -- every
    request still there that asks seven seconds after that instant or later is answered with
    the new value, from the cache, from its own read or from the one it waits for. *)
Theorem spec_change_seen events clock a :
  timed clock newInstanceSource events -> a ∈ (execute events newInstanceSource).2 -> late a.
Proof.
  intros Ht Ha. pose proof (execute_seen events clock newInstanceSource Ht) as Hall.
  rewrite Forall_forall in Hall. apply Hall; [|done]. split; cbn; intros; by rewrite lookup_empty in *.
Qed.

End change.

Module Examples.

Definition s (n : Z) : time := n * 1000000000.

Definition narrow : lookup_result RuntimeSpec := Found (replicableSpec "sp" 2).
Definition wide : lookup_result RuntimeSpec := Found (replicableSpec "sp" 8).

(** The spec is saved at second 2 and answered from the cache at second 3; a request at
    second 9 reads it anew, one at second 10 waits for that read, and a later one is answered
    from the cache. *)
Definition events : list event :=
  [EAsk "m" (s 0) true; ELand "m" (s 1) narrow; EAsk "m" (s 3) true; EAsk "m" (s 9) true; EAsk "m" (s 10) true;
   ELand "m" (s 10) wide; EAsk "m" (s 11) true].

Lemma spec_change_seen_witness :
  map (fun a => (a.1.1.2, ie_maxInstances a.2)) (execute events newInstanceSource).2 =
    [(s 0, 2); (s 3, 2); (s 9, 8); (s 10, 8); (s 11, 8)] /\
  (forall e, ("m", s 9, true, e) ∈ (execute events newInstanceSource).2 -> said e = (true, "sp", true, 8, 0)).
Proof.
  split; [vm_compute; reflexivity|]. intros e He.
  refine (spec_change_seen "m" (s 2) (true, "sp", true, 8, 0) events 0 _ _ He eq_refl eq_refl _); [|vm_compute; congruence].
  unfold events. repeat (apply conj; [vm_compute; congruence|apply conj; [exact I || (intros started waiting Hf; vm_compute in Hf;
    injection Hf as <- <-; split; [vm_compute; congruence|intros _ Hle; first [reflexivity|vm_compute in Hle; congruence]])|]]).
  exact I.
Defined.

End Examples.
