(* ===== verification/ScaleUp.v ===== *)
(** * A scale-up pass

    Models what a pass of the instance scaler does
    ([gateway/backend/internal/gateway/instance_scaler.go]: [candidate], [pickHost], [score],
    [start], [scaleUp]) and the verdicts it reads from the resolver
    ([routing/score_servers.go], [routing/instance_scaling.go]).  [Scaler] models when passes
    run; this file models one pass.

    A pass is a loop of rounds.  Before each round the hosts are chosen afresh from one
    reading of the sources ([ScaleView]), then the best host not asked yet is asked; the
    claim operations other callers make in between, the agent's answer, and whether the
    instance shows up in time are the round's inputs ([round]).  A pass emits what it asked,
    the parked requests it woke and the claims it left to the background ([effect]). *)

From Stdlib Require Import ZArith Lia.
From stdpp Require Import base tactics option list numbers strings gmap sorting.
From S2P Require Import Prelude Float64 RoutingTypes GatewayInstances Scaler Scorer Selection Filters Targets Groups.
Local Open Scope Z_scope.
Local Open Scope go_scope.

(** ** The resolver's verdicts *)

Record CandidateScore := mkCandidateScore {
  cs_MappingID : string;
  cs_ServerID : string;
  cs_Score : float64;
  cs_Available : bool
}.

Definition scoredFlavors : list string :=
  [APIFlavorOpenAI; APIFlavorAnthropic; APIFlavorOpenAIImages; APIFlavorOpenAIAudio].

(** The score of one candidate, of which telemetry was read. *)
Definition scoreOne (r : Resolver) (model : string) (audio : bool) (now : time) (c : MappingCandidate)
    (telemetry : ServerTelemetry) (ok : bool) : CandidateScore :=
  let k := match r_activity r with
           | Some activity => (activity (srv_ID (mc_Server c))).1
           | None => tel_ActiveRequests telemetry
           end in
  let score := candidateScore r model audio now c telemetry ok in
  let maxC := mm_MaxConcurrency (mc_Mapping c) in
  let available := match score with Some _ => negb ((0 <? maxC) && (maxC <=? k)) | None => false end in
  mkCandidateScore (mm_ID (mc_Mapping c)) (srv_ID (mc_Server c)) (default f64_zero score) available.

Fixpoint scoreLoop (r : Resolver) (model : string) (audio : gset string) (now : time)
    (cands : list MappingCandidate) (seen : gset string) : option (list CandidateScore) :=
  match cands with
  | [] => Some []
  | c :: cands =>
      let id := mm_ID (mc_Mapping c) in
      if bool_decide (id ∈ seen) then scoreLoop r model audio now cands seen
      else
        match r_TelemetryByServer r (srv_ID (mc_Server c)) with
        | None => None
        | Some (telemetry, ok) =>
            cons (scoreOne r model (bool_decide (id ∈ audio)) now c telemetry ok)
              <$> scoreLoop r model audio now cands ({[id]} ∪ seen)
        end
  end.

(** [active] is the store's [ActiveMappingsForModel]; [None] is an error. *)
Definition ScoreModelServers (r : Resolver) (active : string -> string -> option (list MappingCandidate))
    (model : string) (now : time) : option (list CandidateScore) :=
  pools ← mapM (active model) scoredFlavors;
  let audio : gset string := list_to_set ((fun c => mm_ID (mc_Mapping c)) <$> default [] (last pools)) in
  scoreLoop r model audio now (concat pools) ∅.

Definition InstanceTarget `{Unicode} (specs : string -> lookup_result RuntimeSpec) (c : MappingCandidate) (k : Z)
    (apiFlavor : string) : result Target :=
  targetFrom specs (c <| mc_Instance := k |> <| mc_InstanceCapable := true |>) apiFlavor.

(** ** Hosts *)

Definition defaultInstanceScaleCooldown : duration := 60 * 1000000000.
Definition instanceDemandUnknownDelay : duration := 5 * 1000000000.
Definition instanceEnsureMargin : duration := 10 * 1000000000.
Definition agentDefaultStartupTimeout : duration := 30 * 1000000000.
Definition instanceUnseenDelay : duration := 5 * 1000000000.
Definition runtimeInstanceNoCapacityCode : string := "runtime.instance_no_capacity".
Definition runtimeInstanceDemandUnknownCode : string := "runtime.instance_demand_unknown".

Record ScaleView := mkScaleView {
  v_resolver : Resolver;
  v_ActiveMappingsForModel : string -> string -> option (list MappingCandidate);
  v_MappingsByApplication : string -> option (list ModelMapping);
  v_RuntimeSpecByMapping : string -> lookup_result RuntimeSpec;
  v_InstanceView : InstanceSource;
  v_statusRows : string -> list RuntimeStatus;
  v_now : time
}.

Record scaleCandidate := mkScaleCandidate {
  sc_key : scaleKey;
  sc_mapping : ModelMapping;
  sc_index : Z;
  sc_parallelism : Z;
  sc_score : float64;
  sc_timeout : duration;
  sc_target : Target
}.

Global Instance scaleCandidate_fields : Fields scaleCandidate := fun c =>
  mkScaleCandidate (sc_key c) (sc_mapping c) (sc_index c) (sc_parallelism c) (sc_score c) (sc_timeout c) (sc_target c).

Definition instanceEnsureTimeout (spec : RuntimeSpec) : duration :=
  let startup := int64 (sp_StartupTimeoutSeconds spec * 1000000000) in
  let startup := if startup <=? 0 then agentDefaultStartupTimeout else startup in
  startup +! instanceEnsureMargin.

Definition atInstanceCeiling (view : InstanceView) (m : ModelMapping) : bool :=
  let total := 1 + Z.of_nat (length (iv_Present view)) in
  if (0 <? iv_MaxInstances view) && (iv_MaxInstances view <=? total) then true
  else String.eqb (mm_AudioConcurrencyLimit m) AudioLimitPerformance && (mm_AudioRealtimeConcurrency m <=? total).

Definition candidateSpec (v : ScaleView) (mappingID : string) : option RuntimeSpec :=
  match v_RuntimeSpecByMapping v mappingID with Found spec => Some spec | _ => None end.

(** Whether the host of [c] can take another instance now, which one and how to ask for it. *)
Definition candidate `{Unicode} (v : ScaleView) (s : scaler) (claims : instanceClaims) (c : MappingCandidate)
    (apiFlavor : string) : option scaleCandidate :=
  let serverID := srv_ID (mc_Server c) in
  let m := mc_Mapping c in
  if negb (String.eqb (app_Type (mc_Application c)) ProviderServerAgent) || negb (CandidateServesNow (v_resolver v) c)
  then None
  else
    view ← v_InstanceView v serverID m;
    if atInstanceCeiling view m then None
    else
      let key := (serverID, mm_ID m) in
      if heldOff key (v_now v) s then None
      else
        spec ← candidateSpec v (mm_ID m);
        let '(starting, reported) := specInstanceRows (v_statusRows v serverID) (sp_ID spec) in
        if (starting : bool) then None
        else
          let k := match v_MappingsByApplication v (app_ID (mc_Application c)) with
                   | Some mappings => instanceIndex mappings m claims key (reported ++ iv_Present view)
                   | None => 0
                   end in
          if (k =? 0) || ((0 <? iv_MaxInstances view) && (iv_MaxInstances view <=? k)) then None
          else
            match InstanceTarget (v_RuntimeSpecByMapping v) c k apiFlavor with
            | inr _ => None
            | inl target =>
                Some (mkScaleCandidate key m k (Z.max (iv_Parallelism view) 1) f64_zero (instanceEnsureTimeout spec) target)
            end.

(** [cmp.Compare(x, y) < 0]: a NaN is less than any number. *)
Definition cmp_less (x y : float64) : bool := (math_IsNaN x && negb (math_IsNaN y)) || f64_ltb x y.

Definition setScores (v : ScaleView) (model : string) (cands : list scaleCandidate) : list scaleCandidate :=
  match ScoreModelServers (v_resolver v) (v_ActiveMappingsForModel v) model (v_now v) with
  | None => cands
  | Some scores =>
      let byID : gmap string float64 := foldl (fun byID sc => <[cs_MappingID sc := cs_Score sc]> byID) ∅ scores in
      (fun c => c <| sc_score := map_get f64_zero byID (mm_ID (sc_mapping c)) |>) <$> cands
  end.

(** The mappings a signal may use, in the order they are looked at. *)
Definition usable (d : DemandSignal) (pool : list MappingCandidate) : list string :=
  if (length (ds_MappingIDs d) =? 0)%nat then (fun c => mm_ID (mc_Mapping c)) <$> pool else ds_MappingIDs d.

Definition candidateByID `{Unicode} (v : ScaleView) (s : scaler) (claims : instanceClaims) (d : DemandSignal)
    (byID : gmap string MappingCandidate) (id : string) : option scaleCandidate :=
  match byID !! id with
  | None => None
  | Some c =>
      if negb (String.eqb (ds_ServerID d) "") && negb (String.eqb (srv_ID (mc_Server c)) (ds_ServerID d)) then None
      else candidate v s claims c (ds_APIFlavor d)
  end.

Definition pickHost `{Unicode} (v : ScaleView) (s : scaler) (claims : instanceClaims) (d : DemandSignal) : list scaleCandidate :=
  match v_ActiveMappingsForModel v (ds_Model d) (ds_APIFlavor d) with
  | None => []
  | Some pool =>
      let byID : gmap string MappingCandidate := foldl (fun byID c => <[mm_ID (mc_Mapping c) := c]> byID) ∅ pool in
      let out := omap (candidateByID v s claims d byID) (usable d pool) in
      if (1 <? length out)%nat
      then sort_SliceStable (fun a b => cmp_less (sc_score b) (sc_score a)) (setScores v (ds_Model d) out)
      else out
  end.

(** ** Asking a host *)

Inductive ensureAnswer :=
| EnsureOK
| EnsureError (code : string).          (* the router's code, "" for another failure *)

Record round := mkRound {
  rd_ended : bool;                      (* the server was shutting down when the round began *)
  rd_view : ScaleView;
  rd_before : list op;                  (* other callers' claims between the pick and the claim *)
  rd_during : list op;                  (* and while the agent is asked *)
  rd_answer : ensureAnswer;
  rd_routable : bool;                   (* routing saw the instance within the wait *)
  rd_down : bool;                       (* the server was shutting down when the ask ended *)
  rd_now : time                         (* the clock when a hold is set *)
}.

Inductive startOutcome := startFailed | startStarted | startLost.

Inductive effect :=
| Asked (c : scaleCandidate)
| Woken (serverID : string)
| Kept (key : scaleKey) (k : Z).        (* [keepUnseenClaim] releases it later *)

Definition start (cooldown : duration) (rd : round) (c : scaleCandidate) (s : scaler) (claims : instanceClaims)
  : startOutcome * scaler * instanceClaims * list effect :=
  let claims := runOps (rd_before rd) claims in
  let '(mine, claims) := tryClaim claims (sc_key c) (sc_index c) in
  if negb mine then (startLost, s, claims, [])
  else
    let claims := runOps (rd_during rd) claims in
    let released := release claims (sc_key c) (sc_index c) in
    match rd_answer rd with
    | EnsureOK =>
        if negb (rd_routable rd) then
          if negb (rd_down rd)
          then (startStarted, holdOff (sc_key c) instanceUnseenDelay (rd_now rd) s, claims,
                [Asked c; Kept (sc_key c) (sc_index c)])
          else (startStarted, s, released, [Asked c])
        else (startStarted, s, released, Asked c :: replicate (Z.to_nat (sc_parallelism c)) (Woken (sc_key c).1))
    | EnsureError code =>
        if rd_down rd then (startFailed, s, released, [Asked c])
        else
          let delay := if String.eqb code runtimeInstanceNoCapacityCode then cooldown
                       else if String.eqb code runtimeInstanceDemandUnknownCode then instanceDemandUnknownDelay
                       else cooldown in
          (startFailed, holdOff (sc_key c) delay (rd_now rd) s, released, [Asked c])
    end.

(** ** The pass *)

(** The host an instance was started for, [zeroKey] for none, or the pass goes on when the
    rounds given are used up. *)
Inductive passResult :=
| PassEnds (started : scaleKey)
| PassGoesOn.

Definition firstUnasked (asked : gset scaleKey) (cands : list scaleCandidate) : option scaleCandidate :=
  List.find (fun c => negb (bool_decide (sc_key c ∈ asked))) cands.

Fixpoint scaleUp `{Unicode} (cooldown : duration) (d : DemandSignal) (rounds : list round) (asked : gset scaleKey)
    (s : scaler) (claims : instanceClaims) : passResult * scaler * instanceClaims * list effect :=
  match rounds with
  | [] => (PassGoesOn, s, claims, [])
  | rd :: rounds =>
      if rd_ended rd then (PassEnds zeroKey, s, claims, [])
      else
        match firstUnasked asked (pickHost (rd_view rd) s claims d) with
        | None => (PassEnds zeroKey, s, claims, [])
        | Some c =>
            let '(outcome, s, claims, effects) := start cooldown rd c s claims in
            match outcome with
            | startStarted => (PassEnds (sc_key c), s, claims, effects)
            | startFailed =>
                let '(r, s, claims, rest) := scaleUp cooldown d rounds ({[sc_key c]} ∪ asked) s claims in
                (r, s, claims, effects ++ rest)
            | startLost =>
                let '(r, s, claims, rest) := scaleUp cooldown d rounds asked s claims in
                (r, s, claims, effects ++ rest)
            end
        end
  end.
