(* ===== verification/ScaleUpProps.v ===== *)
(** * Properties of a scale-up pass

    A host is asked only for an instance that the signal can use and that is worth starting,
    best score first; a pass asks no host twice and, unless other callers keep taking the
    indexes it picked, ends after as many rounds as there are hosts. *)

From Stdlib Require Import ZArith Lia Sorted SpecFloat.
From stdpp Require Import base tactics option list numbers strings gmap sorting.
From S2P Require Import Prelude Float64 RoutingTypes GatewayInstances GatewayInstancesProps Scaler Scorer Selection Filters Targets Groups GroupWalk ScaleUp.
Local Open Scope Z_scope.
Local Open Scope go_scope.

(** ** The order by score *)

Global Instance cmp_less_sw : StrictWeak cmp_less.
Proof.
  assert (Hn : forall x, math_IsNaN x = true \/ f64_number x) by (intros [| | |]; [right|right|left|right]; done).
  assert (Hx : forall x, f64_number x -> math_IsNaN x = false) by (intros [| | |]; done).
  assert (Hnan : forall x, math_IsNaN x = true -> x = S754_nan) by (intros [| | |]; done).
  unfold cmp_less. split.
  - intros x y. destruct (Hn x) as [->%Hnan|Nx], (Hn y) as [->%Hnan|Ny]; simpl; try done.
    + rewrite (Hx y) by done. by destruct y as [|[]| |[]].
    + rewrite (Hx x) by done. by destruct x as [|[]| |[]].
    + rewrite !Hx by done. simpl. intros H. apply not_true_is_false.
      rewrite f64_ltb_key in * by done. unfold key_lt in *. lia.
  - intros x y z. destruct (Hn x) as [->%Hnan|Nx], (Hn y) as [->%Hnan|Ny], (Hn z) as [->%Hnan|Nz];
      simpl; rewrite ?Hx by done; simpl; try done; try (by destruct z as [|[]| |[]]).
    + by apply f64_not_ltb_trans.
Qed.

Definition scoreBefore (a b : scaleCandidate) : bool := cmp_less (sc_score b) (sc_score a).

Global Instance scoreBefore_sw : StrictWeak scoreBefore.
Proof.
  split; unfold scoreBefore; [intros x y; apply sw_asym|intros x y z H1 H2; by apply (sw_trans (sc_score z) (sc_score y) (sc_score x))].
Qed.

(** ** Rows that start *)

Lemma specInstanceRows_starting rows specID :
  (specInstanceRows rows specID).1 = true <->
  exists row, row ∈ rows /\ rs_SpecID row = specID /\ rs_State row = "starting".
Proof.
  unfold specInstanceRows. match goal with |- context [foldl ?f _ rows] => set (step := f) end.
  enough (forall acc, (foldl step acc rows).1 = true <-> acc.1 = true \/
    exists row, row ∈ rows /\ rs_SpecID row = specID /\ rs_State row = "starting") as Hg.
  { rewrite Hg. simpl. naive_solver. }
  induction rows as [|row rows IH]; intros acc; cbn [foldl]; [set_solver|].
  rewrite IH. setoid_rewrite elem_of_cons. unfold step.
  destruct (String.eqb_spec (rs_SpecID row) specID); simpl; [|naive_solver].
  destruct (String.eqb_spec (rs_State row) "starting"); simpl; naive_solver.
Qed.

(** ** What a pick promises *)

Definition keyOf (c : MappingCandidate) : scaleKey := (srv_ID (mc_Server c), mm_ID (mc_Mapping c)).

Section picks.
Context `{Unicode} (v : ScaleView) (s : scaler) (claims : instanceClaims).

(** Instance [k] of [c]'s mapping is worth asking [c]'s agent for: the agent runs
    instances of it and is below both ceilings, the host is not held off, no instance of the
    spec is starting, and no row, sibling, claim or other model uses the index. *)
Definition worthStarting (c : MappingCandidate) (k : Z) : Prop :=
  app_Type (mc_Application c) = ProviderServerAgent /\ CandidateServesNow (v_resolver v) c = true /\
  heldOff (keyOf c) (v_now v) s = false /\
  exists view spec mappings,
    v_InstanceView v (srv_ID (mc_Server c)) (mc_Mapping c) = Some view /\
    v_RuntimeSpecByMapping v (mm_ID (mc_Mapping c)) = Found spec /\
    v_MappingsByApplication v (app_ID (mc_Application c)) = Some mappings /\
    (0 < iv_MaxInstances view -> 1 + Z.of_nat (length (iv_Present view)) < iv_MaxInstances view /\ k < iv_MaxInstances view) /\
    (mm_AudioConcurrencyLimit (mc_Mapping c) = AudioLimitPerformance ->
     1 + Z.of_nat (length (iv_Present view)) < mm_AudioRealtimeConcurrency (mc_Mapping c)) /\
    1 <= k /\ k ∉ iv_Present view /\ startable mappings (mc_Mapping c) (heldBy claims (keyOf c)) k /\
    forall row, row ∈ v_statusRows v (srv_ID (mc_Server c)) -> rs_SpecID row = sp_ID spec ->
      rs_State row <> "starting" /\ ~ keepsIndex (sp_ID spec) k row.

(** [sc] is [c]'s host, but for its score. *)
Definition asksFor (d : DemandSignal) (c : MappingCandidate) (sc : scaleCandidate) : Prop :=
  sc_key sc = keyOf c /\ sc_mapping sc = mc_Mapping c /\ 1 <= sc_parallelism sc /\
  InstanceTarget (v_RuntimeSpecByMapping v) c (sc_index sc) (ds_APIFlavor d) = inl (sc_target sc).

Lemma candidate_worth c apiFlavor sc :
  candidate v s claims c apiFlavor = Some sc ->
  worthStarting c (sc_index sc) /\ sc_key sc = keyOf c /\ sc_mapping sc = mc_Mapping c /\ 1 <= sc_parallelism sc /\
  InstanceTarget (v_RuntimeSpecByMapping v) c (sc_index sc) apiFlavor = inl (sc_target sc) /\ sc_score sc = f64_zero.
Proof.
  unfold candidate. destruct (String.eqb_spec (app_Type (mc_Application c)) ProviderServerAgent) as [Ht|]; [|done].
  destruct (CandidateServesNow _ _) eqn:Es; [|done]. simpl.
  destruct (v_InstanceView v _ _) as [view|] eqn:Ev; [|done]. simpl.
  destruct (atInstanceCeiling _ _) eqn:Ec; [done|]. fold (keyOf c). destruct (heldOff _ _ _) eqn:Eh; [done|].
  unfold candidateSpec. destruct (v_RuntimeSpecByMapping v _) as [spec| |] eqn:Esp; [|done|done]. simpl.
  destruct (specInstanceRows _ _) as [starting reported] eqn:Er. destruct starting; [done|].
  destruct (v_MappingsByApplication v _) as [mappings|] eqn:Em; [|done].
  pose proof (instanceIndex_free mappings (mc_Mapping c) claims (keyOf c) (reported ++ iv_Present view)) as Hk.
  cbv zeta in Hk. set (k := instanceIndex _ _ _ _ _) in *.
  destruct (Z.eqb_spec k 0) as [|Hk0]; [done|]. destruct Hk as [[? _]|(H1 & Hnp & Hst & _)]; [done|].
  destruct ((0 <? iv_MaxInstances view) && (iv_MaxInstances view <=? k)) eqn:Emax; [done|]. simpl.
  destruct (InstanceTarget _ _ _ _) as [target|] eqn:Etg; [|done]. intros [= <-]. simpl.
  rewrite elem_of_app in Hnp. split_and!; [|done..|lia|done|done].
  split_and!; [done..|]. exists view, spec, mappings. unfold atInstanceCeiling in Ec.
  destruct ((0 <? iv_MaxInstances view) && _) eqn:Et1 in Ec; [done|].
  split_and!; try done.
  - intros Hm. apply andb_false_iff in Emax, Et1. rewrite !Z.ltb_ge, !Z.leb_gt in *. lia.
  - intros Ha. rewrite Ha, String.eqb_refl in Ec. simpl in Ec. rewrite Z.leb_gt in Ec. lia.
  - tauto.
  - intros row Hrow Hid. pose proof (specInstanceRows_starting (v_statusRows v (srv_ID (mc_Server c))) (sp_ID spec)) as Hs.
    pose proof (specInstanceRows_reported (v_statusRows v (srv_ID (mc_Server c))) (sp_ID spec) k) as Hr.
    rewrite Er in Hs, Hr. simpl in Hs, Hr. split.
    + intros E. destruct Hs as [_ Hs]. discriminate Hs. eauto.
    + intros (_ & Hi & [[_ Hn]|[? _]]); [|lia]. apply Hnp. left. apply Hr. eauto 8.
Qed.

(** The pool by mapping ID: the last candidate of a mapping. *)
Lemma byID_lookup (pool : list MappingCandidate) id c :
  foldl (fun (byID : gmap string MappingCandidate) c => <[mm_ID (mc_Mapping c) := c]> byID) ∅ pool !! id = Some c ->
  c ∈ pool /\ mm_ID (mc_Mapping c) = id.
Proof.
  induction pool as [|x pool IH] using rev_ind; [done|]. rewrite foldl_snoc, elem_of_app, list_elem_of_singleton.
  intros [[<- <-]|[_ ?]]%lookup_insert_Some; naive_solver.
Qed.

Lemma setScores_same model cands sc :
  sc ∈ setScores v model cands -> exists sc0, sc0 ∈ cands /\ sc = sc0 <| sc_score := sc_score sc |>.
Proof.
  unfold setScores. destruct (ScoreModelServers _ _ _ _); [|intros Hin; exists sc; split; [done|by destruct sc]].
  intros (sc0 & -> & ?)%list_elem_of_fmap. by exists sc0.
Qed.

(** ** Routing scores *)

Definition ofMapping (id : string) (c : MappingCandidate) : bool := String.eqb (mm_ID (mc_Mapping c)) id.

(** Each mapping is scored once, where it is first listed; any failed read fails the loop. *)
Lemma scoreLoop_spec r model audio now cands seen :
  match scoreLoop r model audio now cands seen with
  | Some scores => forall id,
      match (if bool_decide (id ∈ seen) then None else List.find (ofMapping id) cands) with
      | None => List.filter (fun sc => String.eqb (cs_MappingID sc) id) scores = []
      | Some c => exists telemetry ok, r_TelemetryByServer r (srv_ID (mc_Server c)) = Some (telemetry, ok) /\
          List.filter (fun sc => String.eqb (cs_MappingID sc) id) scores
            = [scoreOne r model (bool_decide (id ∈ audio)) now c telemetry ok]
      end
  | None => exists id c, id ∉ seen /\ List.find (ofMapping id) cands = Some c /\
      r_TelemetryByServer r (srv_ID (mc_Server c)) = None
  end.
Proof.
  revert seen. induction cands as [|c cands IH]; intros seen; cbn [scoreLoop List.find].
  { intros id. by case_bool_decide. }
  unfold ofMapping in *. case_bool_decide as Hseen.
  - specialize (IH seen). destruct (scoreLoop _ _ _ _ _ seen) as [scores|].
    + intros id. specialize (IH id). case_bool_decide as Hid; [done|].
      by destruct (String.eqb_spec (mm_ID (mc_Mapping c)) id) as [<-|].
    + destruct IH as (id & c' & Hid & Hf & Ht). exists id, c'. split_and!; try done.
      by destruct (String.eqb_spec (mm_ID (mc_Mapping c)) id) as [<-|].
  - destruct (r_TelemetryByServer r _) as [[telemetry ok]|] eqn:Et; [|exists (mm_ID (mc_Mapping c)), c; by rewrite String.eqb_refl].
    specialize (IH ({[mm_ID (mc_Mapping c)]} ∪ seen)). destruct (scoreLoop _ _ _ _ _ _) as [scores|]; cbn [fmap option_fmap option_map].
    + intros id. specialize (IH id). cbn [List.filter cs_MappingID scoreOne].
      destruct (String.eqb_spec (mm_ID (mc_Mapping c)) id) as [<-|Hne].
      * rewrite bool_decide_true in IH by set_solver. rewrite IH, bool_decide_false by done. by exists telemetry, ok.
      * assert (bool_decide (id ∈ {[mm_ID (mc_Mapping c)]} ∪ seen) = bool_decide (id ∈ seen)) as Eb
          by (apply bool_decide_ext; set_solver). by rewrite Eb in IH.
    + destruct IH as (id & c' & Hid & Hf & Ht). exists id, c'. split_and!; [set_solver| |done].
      destruct (String.eqb_spec (mm_ID (mc_Mapping c)) id) as [<-|]; [set_solver|done].
Qed.

Lemma scoresByID_lookup (scores : list CandidateScore) id :
  foldl (fun (byID : gmap string float64) sc => <[cs_MappingID sc := cs_Score sc]> byID) ∅ scores !! id
  = cs_Score <$> last (List.filter (fun sc => String.eqb (cs_MappingID sc) id) scores).
Proof.
  induction scores as [|sc scores IH] using rev_ind; [done|]. rewrite foldl_snoc, List.filter_app. cbn [List.filter].
  destruct (String.eqb_spec (cs_MappingID sc) id) as [<-|Hne].
  - by rewrite lookup_insert_eq, last_snoc.
  - by rewrite lookup_insert_ne, app_nil_r.
Qed.

(** What a model is listed with, under each of the four API flavors. *)
Definition listings (model : string) (text messages images audio : list MappingCandidate) : Prop :=
  v_ActiveMappingsForModel v model "openai" = Some text /\ v_ActiveMappingsForModel v model "anthropic" = Some messages /\
  v_ActiveMappingsForModel v model "openai_images" = Some images /\ v_ActiveMappingsForModel v model "openai_audio" = Some audio.

(** [score] is the routing score of a mapping: that of its first listing, with its server's
    telemetry and, when it is listed for audio, the audio term; nothing where it is not
    viable or not listed. *)
Definition routingScore (model id : string) (score : float64) : Prop :=
  exists text messages images audio, listings model text messages images audio /\
    match List.find (ofMapping id) (text ++ messages ++ images ++ audio) with
    | None => score = f64_zero
    | Some c => exists telemetry ok (forAudio : bool),
        r_TelemetryByServer (v_resolver v) (srv_ID (mc_Server c)) = Some (telemetry, ok) /\
        (forAudio = true <-> exists c', c' ∈ audio /\ mm_ID (mc_Mapping c') = id) /\
        score = default f64_zero (candidateScore (v_resolver v) model forAudio (v_now v) c telemetry ok)
    end.

(** A read the scores need failed: a listing's, or the telemetry of a listed server's. *)
Definition scoresUnread (model : string) : Prop :=
  (exists flavor, flavor ∈ ["openai"; "anthropic"; "openai_images"; "openai_audio"] /\ v_ActiveMappingsForModel v model flavor = None) \/
  exists text messages images audio id c, listings model text messages images audio /\
    List.find (ofMapping id) (text ++ messages ++ images ++ audio) = Some c /\
    r_TelemetryByServer (v_resolver v) (srv_ID (mc_Server c)) = None.

Lemma listings_read model :
  match mapM (v_ActiveMappingsForModel v model) scoredFlavors with
  | Some pools => exists text messages images audio, pools = [text; messages; images; audio] /\ listings model text messages images audio
  | None => exists flavor, flavor ∈ ["openai"; "anthropic"; "openai_images"; "openai_audio"] /\ v_ActiveMappingsForModel v model flavor = None
  end.
Proof.
  destruct (mapM _ _) as [pools|] eqn:E.
  - apply mapM_Some in E. unfold scoredFlavors in E.
    repeat match goal with H : Forall2 _ (_ :: _) _ |- _ => inversion_clear H | H : Forall2 _ [] _ |- _ => inversion_clear H end.
    by eexists _, _, _, _.
  - apply mapM_None, Exists_exists in E as (flavor & Hf & E). by exists flavor.
Qed.

Lemma setScores_routing model cands :
  (scoresUnread model /\ setScores v model cands = cands) \/
  forall sc, sc ∈ setScores v model cands -> routingScore model (mm_ID (sc_mapping sc)) (sc_score sc).
Proof.
  unfold setScores, ScoreModelServers. pose proof (listings_read model) as HL.
  destruct (mapM _ _) as [pools|]; [|by left; split; [left|]].
  destruct HL as (text & messages & images & audio & -> & HL). cbn [mbind option_bind concat last default]. rewrite app_nil_r.
  set (audioIDs := list_to_set _). pose proof (scoreLoop_spec (v_resolver v) model audioIDs (v_now v) (text ++ messages ++ images ++ audio) ∅) as HS.
  destruct (scoreLoop _ _ _ _ _ _) as [scores|].
  - right. intros sc (sc0 & -> & _)%list_elem_of_fmap. cbn. specialize (HS (mm_ID (sc_mapping sc0))).
    rewrite bool_decide_false in HS by set_solver.
    exists text, messages, images, audio. split; [done|]. unfold map_get. rewrite scoresByID_lookup.
    destruct (List.find _ _) as [c|]; [|by rewrite HS].
    destruct HS as (telemetry & ok & Ht & ->). exists telemetry, ok, (bool_decide (mm_ID (sc_mapping sc0) ∈ audioIDs)).
    split_and!; [done| |done]. rewrite bool_decide_eq_true. unfold audioIDs. rewrite elem_of_list_to_set, list_elem_of_fmap. naive_solver.
  - left. split; [|done]. right. destruct HS as (id & c & _ & Hf & Ht). by exists text, messages, images, audio, id, c.
Qed.

(** Every host picked is worth asking for an instance the signal can use. *)
Lemma pickHost_elem d sc :
  sc ∈ pickHost v s claims d ->
  exists pool c, v_ActiveMappingsForModel v (ds_Model d) (ds_APIFlavor d) = Some pool /\ c ∈ pool /\
    (ds_MappingIDs d <> [] -> mm_ID (mc_Mapping c) ∈ ds_MappingIDs d) /\
    (ds_ServerID d <> "" -> srv_ID (mc_Server c) = ds_ServerID d) /\
    worthStarting c (sc_index sc) /\ asksFor d c sc.
Proof.
  unfold pickHost. destruct (v_ActiveMappingsForModel v _ _) as [pool|]; [|by intros ?%elem_of_nil].
  set (out := omap _ _). intros Hin.
  assert (exists sc0, sc0 ∈ out /\ sc = sc0 <| sc_score := sc_score sc |>) as (sc0 & Hin0 & Hsc).
  { destruct (1 <? length out)%nat; [|exists sc; split; [done|by destruct sc]].
    fold scoreBefore in Hin. rewrite sort_SliceStable_perm in Hin. by apply setScores_same in Hin. }
  unfold out in Hin0. apply list_elem_of_omap in Hin0 as (id & Hid & Hc). unfold candidateByID in Hc.
  destruct (_ !! id) as [c|] eqn:El; [|done]. apply byID_lookup in El as [Hp <-].
  destruct (negb (String.eqb (ds_ServerID d) "") && _) eqn:Esrv; [done|].
  apply candidate_worth in Hc as (Hw & Hrest). exists pool, c.
  assert (sc_index sc = sc_index sc0 /\ sc_key sc = sc_key sc0 /\ sc_mapping sc = sc_mapping sc0 /\
    sc_parallelism sc = sc_parallelism sc0 /\ sc_target sc = sc_target sc0) as (E1 & E2 & E3 & E4 & E5) by (by rewrite Hsc).
  unfold asksFor. rewrite E1, E2, E3, E4, E5. split_and!; try done; try tauto.
  - intros Hne. unfold usable in Hid. destruct (ds_MappingIDs d); [done|]. done.
  - intros Hne. destruct (String.eqb_spec (ds_ServerID d) ""), (String.eqb_spec (srv_ID (mc_Server c)) (ds_ServerID d)); done.
Qed.

Lemma pickHost_sorted d : StronglySorted (less_le scoreBefore) (pickHost v s claims d).
Proof.
  unfold pickHost. destruct (v_ActiveMappingsForModel v _ _) as [pool|]; [|constructor].
  set (out := omap _ _). destruct (1 <? length out)%nat eqn:El; [apply (sort_SliceStable_sorted scoreBefore)|].
  destruct out as [|x [|]]; [constructor|by repeat constructor|done].
Qed.

(** The mappings a signal names, in its order; the model's, when it names none. *)
Definition requested (d : DemandSignal) (pool : list MappingCandidate) : list string :=
  if bool_decide (ds_MappingIDs d = []) then (fun c => mm_ID (mc_Mapping c)) <$> pool else ds_MappingIDs d.

(** The hosts picked stand in the request's order. *)
Definition inRequestOrder (d : DemandSignal) : Prop :=
  exists pool, v_ActiveMappingsForModel v (ds_Model d) (ds_APIFlavor d) = Some pool /\
    ((fun sc => mm_ID (sc_mapping sc)) <$> pickHost v s claims d) `sublist_of` requested d pool.

Lemma candidates_in_order d byID ids :
  (forall id c, byID !! id = Some c -> mm_ID (mc_Mapping c) = id) ->
  let out := omap (candidateByID v s claims d byID) ids in
  ((fun sc => mm_ID (sc_mapping sc)) <$> out) `sublist_of` ids /\ Forall (fun sc => sc_score sc = f64_zero) out.
Proof.
  intros HID. induction ids as [|id ids [IH1 IH2]]; [by split|]. cbn zeta in *. cbn [omap list_omap].
  destruct (candidateByID v s claims d byID id) as [sc|] eqn:Ec; [|split; [by apply sublist_cons|done]].
  unfold candidateByID in Ec. destruct (byID !! id) as [c|] eqn:Eb; [|done]. destruct (negb _ && _); [done|].
  pose proof (candidate_worth _ _ _ Ec) as (_ & _ & Em & _ & _ & Hz). apply HID in Eb as <-. split.
  - cbn [fmap list_fmap]. rewrite Em. by apply sublist_skip.
  - by constructor.
Qed.

Lemma sort_unscored l : Forall (fun sc => sc_score sc = f64_zero) l -> sort_SliceStable scoreBefore l = l.
Proof.
  induction 1 as [|x l Hx Hl IH]; [done|].
  change (insertStable scoreBefore x (sort_SliceStable scoreBefore l) = x :: l). rewrite IH. destruct Hl as [|y l Hy _]; [done|].
  cbn. unfold scoreBefore. by rewrite Hx, Hy.
Qed.

(** Of two hosts picked, both have their routing scores, or none could be read and the
    request's order stands. *)
Lemma pickHost_scored d sc sc' :
  sc ∈ pickHost v s claims d -> sc' ∈ pickHost v s claims d -> sc <> sc' ->
  (scoresUnread (ds_Model d) /\ inRequestOrder d) \/
  routingScore (ds_Model d) (mm_ID (sc_mapping sc)) (sc_score sc) /\ routingScore (ds_Model d) (mm_ID (sc_mapping sc')) (sc_score sc').
Proof.
  unfold inRequestOrder, pickHost. destruct (v_ActiveMappingsForModel v _ _) as [pool|] eqn:Ep; [|by intros ?%elem_of_nil].
  set (byID := foldl _ ∅ pool). set (out := omap _ _). intros H1 H2 Hne. destruct (1 <? length out)%nat eqn:El.
  - fold scoreBefore in *. rewrite sort_SliceStable_perm in H1, H2.
    destruct (setScores_routing (ds_Model d) out) as [[? Eu]|HR]; [left|right; auto]. split; [done|]. exists pool. split; [done|].
    destruct (candidates_in_order d byID (usable d pool)) as [Hsub Hz]; [by intros ? ? []%byID_lookup|].
    rewrite Eu, sort_unscored by done. unfold requested, usable in *. by destruct (ds_MappingIDs d).
  - destruct out as [|x [|]]; [by apply elem_of_nil in H1| |done].
    apply list_elem_of_singleton in H1, H2. congruence.
Qed.

Lemma firstUnasked_best asked l sc :
  StronglySorted (less_le scoreBefore) l -> firstUnasked asked l = Some sc ->
  sc ∈ l /\ sc_key sc ∉ asked /\
  forall sc', sc' ∈ l -> sc_key sc' ∉ asked -> cmp_less (sc_score sc) (sc_score sc') = false.
Proof.
  unfold firstUnasked. induction 1 as [|x l Hl IH Hx]; simpl; [done|]. case_bool_decide as E; simpl.
  - intros Hf. destruct (IH Hf) as (? & ? & Hb). split_and!; [by right|done|].
    intros sc' [->|?]%elem_of_cons ?; [done|by apply Hb].
  - intros [= ->]. split_and!; [by left|done|]. rewrite Forall_forall in Hx.
    intros sc' [->|Hin]%elem_of_cons _; [|by apply Hx].
    apply not_true_is_false. intros Hb. pose proof (sw_asym _ _ Hb). congruence.
Qed.

(** C33.  The host a round of a pass asks is one it has not asked in this pass, one the
    demand signal can use, and one worth asking: its agent runs instances of the mapping and
    serves now, neither ceiling is reached, the host is not left alone after a refusal, no
    instance of the spec is starting, and the index asked for is free -- no sibling, status
    row, claim or other model's name uses it.  No other host it could ask has a higher
    routing score -- the score routing gives the mapping where the model first lists it, from
    its server's telemetry, nothing when it is not viable --; only where a read of the listings
    or of the telemetry failed is the request's own order kept instead. *)
Theorem pick_is_worth d asked sc :
  firstUnasked asked (pickHost v s claims d) = Some sc ->
  sc_key sc ∉ asked /\
  (exists pool c, v_ActiveMappingsForModel v (ds_Model d) (ds_APIFlavor d) = Some pool /\ c ∈ pool /\
    (ds_MappingIDs d <> [] -> mm_ID (mc_Mapping c) ∈ ds_MappingIDs d) /\
    (ds_ServerID d <> "" -> srv_ID (mc_Server c) = ds_ServerID d) /\
    worthStarting c (sc_index sc) /\ asksFor d c sc) /\
  forall sc', sc' ∈ pickHost v s claims d -> sc_key sc' ∉ asked -> sc' <> sc ->
    (scoresUnread (ds_Model d) /\ inRequestOrder d) \/
    exists score score', routingScore (ds_Model d) (mm_ID (sc_mapping sc)) score /\
      routingScore (ds_Model d) (mm_ID (sc_mapping sc')) score' /\ cmp_less score score' = false.
Proof.
  intros (Hin & Hun & Hb)%firstUnasked_best; [|apply pickHost_sorted].
  split_and!; [done|by apply pickHost_elem|]. intros sc' Hin' Hun' Hne.
  destruct (pickHost_scored d sc sc') as [|[]]; [done|done|congruence|by left|].
  right. exists (sc_score sc), (sc_score sc'). split_and!; [done..|by apply Hb].
Qed.

End picks.

(** ** A pass *)

(** The hosts a pass asked, in order. *)
Definition askedKeys (es : list effect) : list scaleKey :=
  omap (fun e => match e with Asked c => Some (sc_key c) | _ => None end) es.

(** The hosts of a reading's pool. *)
Definition poolKeys (v : ScaleView) (d : DemandSignal) : list scaleKey :=
  match v_ActiveMappingsForModel v (ds_Model d) (ds_APIFlavor d) with
  | Some pool => keyOf <$> pool
  | None => []
  end.

Section pass.
Context `{Unicode} (cooldown : duration) (d : DemandSignal).

Lemma tryClaim_free c key k : k ∉ heldBy c key -> (tryClaim c key k).1 = true.
Proof. destruct c as [held|]; simpl; [|done]. intros Hn. by rewrite bool_decide_false. Qed.

(** The pick of round [i], with the claims it was made under: what the pass picks when the
    rounds before are used up and the hosts they asked are left out. *)
Definition pickAt (rounds : list round) (asked : gset scaleKey) (s : scaler) (claims : instanceClaims) (i : nat)
    : option (round * scaleCandidate * instanceClaims) :=
  match scaleUp cooldown d (take i rounds) asked s claims, rounds !! i with
  | (PassGoesOn, s, claims, es), Some rd =>
      if rd_ended rd then None
      else (fun sc => (rd, sc, claims)) <$>
        firstUnasked (asked ∪ list_to_set (askedKeys es)) (pickHost (rd_view rd) s claims d)
  | _, _ => None
  end.

(** Round [i] loses a race: the very index it picked was free then and is claimed by another
    caller before the round claims it. *)
Definition lostRace (rounds : list round) (asked : gset scaleKey) (s : scaler) (claims : instanceClaims) (i : nat) : bool :=
  match pickAt rounds asked s claims i with
  | Some (rd, sc, claims) =>
      bool_decide (sc_index sc ∉ heldBy claims (sc_key sc) /\
                   sc_index sc ∈ heldBy (runOps (rd_before rd) claims) (sc_key sc))
  | None => false
  end.

Definition lostRaces (rounds : list round) (asked : gset scaleKey) (s : scaler) (claims : instanceClaims) : nat :=
  length (List.filter (lostRace rounds asked s claims) (seq 0 (length rounds))).

(** A round asks the host it picked unless it loses a race. *)
Lemma start_asks rd sc s claims outcome s' claims' es :
  sc ∈ pickHost (rd_view rd) s claims d -> start cooldown rd sc s claims = (outcome, s', claims', es) ->
  (outcome = startLost /\ es = [] /\ sc_index sc ∉ heldBy claims (sc_key sc) /\
   sc_index sc ∈ heldBy (runOps (rd_before rd) claims) (sc_key sc)) \/
  (outcome <> startLost /\ askedKeys es = [sc_key sc]).
Proof.
  intros (pool & c & _ & _ & _ & _ & Hw & (Hk & _))%pickHost_elem. unfold start.
  destruct Hw as (_ & _ & _ & view & spec & mappings & _ & _ & _ & _ & _ & _ & _ & [_ Hh _] & _). rewrite <- Hk in Hh.
  destruct (tryClaim _ _ _) as [mine claims1] eqn:Et. destruct mine; simpl.
  - assert (Hw : forall n id, askedKeys (replicate n (Woken id)) = []) by (intros n id; by induction n).
    intros E. right. destruct (rd_answer rd), (rd_routable rd), (rd_down rd); simpl in E;
      injection E as <- _ _ <-; split; try done; by cbn; rewrite Hw.
  - intros [= <- _ _ <-]. left. split_and!; [done..|]. apply dec_stable. intros Hn%tryClaim_free. by rewrite Et in Hn.
Qed.

Definition isLost (o : startOutcome) : bool := match o with startLost => true | _ => false end.

(** Losing a race is a matter of the rounds that are left. *)
Lemma lostRaces_cons rd rounds asked s claims sc outcome s1 claims1 es1 :
  rd_ended rd = false -> firstUnasked asked (pickHost (rd_view rd) s claims d) = Some sc ->
  start cooldown rd sc s claims = (outcome, s1, claims1, es1) -> outcome <> startStarted ->
  askedKeys es1 = (if isLost outcome then [] else [sc_key sc]) ->
  lostRaces (rd :: rounds) asked s claims =
    ((if lostRace (rd :: rounds) asked s claims 0 then 1 else 0) +
     lostRaces rounds (if isLost outcome then asked else {[sc_key sc]} ∪ asked) s1 claims1)%nat.
Proof.
  intros He Hf Es Hns Hes. unfold lostRaces. cbn [length seq List.filter].
  assert (forall i, lostRace (rd :: rounds) asked s claims (S i) =
    lostRace rounds (if isLost outcome then asked else {[sc_key sc]} ∪ asked) s1 claims1 i) as Ht.
  { intros i. unfold lostRace, pickAt. cbn [take scaleUp lookup list_lookup]. rewrite He, Hf, Es. destruct outcome; [|done|].
    - destruct (scaleUp _ _ (take i rounds) _ s1 claims1) as [[[r s2] claims2] es2]. destruct r; [done|].
      unfold askedKeys in *. rewrite omap_app, Hes. cbn [isLost].
      replace (asked ∪ _) with ({[sc_key sc]} ∪ asked ∪ list_to_set (askedKeys es2)); [done|].
      unfold askedKeys. simpl. apply leibniz_equiv. set_solver.
    - destruct (scaleUp _ _ (take i rounds) _ s1 claims1) as [[[r s2] claims2] es2]. destruct r; [done|].
      unfold askedKeys in *. by rewrite omap_app, Hes. }
  rewrite <- fmap_S_seq. set (tail := length (List.filter _ (seq 0 (length rounds)))).
  assert (length (List.filter (lostRace (rd :: rounds) asked s claims) (S <$> seq 0 (length rounds))) = tail) as El.
  { unfold tail. generalize (seq 0 (length rounds)) as l. induction l as [|i l IH]; [done|].
    cbn [fmap list_fmap List.filter]. rewrite Ht. destruct (lostRace rounds _ s1 claims1 i); cbn [length]; by rewrite IH. }
  destruct (lostRace _ _ s claims 0); cbn [length]; by rewrite El.
Qed.

Lemma scaleUp_asks rounds asked s claims r s' claims' es (K : list scaleKey) :
  (forall rd, rd ∈ rounds -> poolKeys (rd_view rd) d ⊆ K) ->
  scaleUp cooldown d rounds asked s claims = (r, s', claims', es) ->
  NoDup (askedKeys es) /\ (forall key, key ∈ askedKeys es -> key ∈ K /\ key ∉ asked) /\
  (r = PassGoesOn -> (length rounds <= length (askedKeys es) + lostRaces rounds asked s claims)%nat).
Proof.
  revert asked s claims r s' claims' es.
  induction rounds as [|rd rounds IH]; intros asked s claims r s' claims' es HK E; simpl in E.
  { injection E as <- _ _ <-. split_and!; [constructor|by intros ? ?%elem_of_nil|done]. }
  assert (HK' : forall rd, rd ∈ rounds -> poolKeys (rd_view rd) d ⊆ K) by (intros ? ?; apply HK; by right).
  assert (Hstop : forall es, es = [] -> NoDup (askedKeys es) /\ forall key, key ∈ askedKeys es -> key ∈ K /\ key ∉ asked).
  { intros ? ->. split; [constructor|by intros ? ?%elem_of_nil]. }
  destruct (rd_ended rd) eqn:He; [injection E as <- _ _ <-; destruct (Hstop [] eq_refl); by split_and!|].
  destruct (firstUnasked asked _) as [sc|] eqn:Ef; [|injection E as <- _ _ <-; destruct (Hstop [] eq_refl); by split_and!].
  pose proof Ef as (Hin & Hun & _)%firstUnasked_best; [|apply pickHost_sorted].
  assert (Hkey : sc_key sc ∈ K).
  { apply (HK rd); [by left|]. unfold poolKeys. pose proof Hin as (pool & c & -> & Hc & _ & _ & _ & (-> & _))%pickHost_elem.
    by apply list_elem_of_fmap_2. }
  destruct (start cooldown rd sc s claims) as [[[outcome s1] claims1] es1] eqn:Es.
  destruct (start_asks _ _ _ _ _ _ _ _ Hin Es) as [(-> & -> & Hfree & Hheld)|[Hne Hes]].
  - destruct (scaleUp _ _ rounds asked s1 claims1) as [[[r2 s2] claims2] es2] eqn:E2. injection E as <- _ _ <-. simpl.
    destruct (IH _ _ _ _ _ _ _ HK' E2) as (H1 & H2 & H3). split_and!; [done..|]. intros Hr. specialize (H3 Hr).
    rewrite (lostRaces_cons _ _ _ _ _ _ _ _ _ _ He Ef Es) by done. cbn [isLost].
    assert (lostRace (rd :: rounds) asked s claims 0 = true) as ->; [|lia].
    unfold lostRace, pickAt. simpl. rewrite He, (right_id_L ∅ (∪)), Ef. simpl. by apply bool_decide_eq_true.
  - destruct outcome; [|injection E as <- _ _ <-; rewrite Hes|done].
    + destruct (scaleUp _ _ rounds _ s1 claims1) as [[[r2 s2] claims2] es2] eqn:E2. injection E as <- _ _ <-.
      destruct (IH _ _ _ _ _ _ _ HK' E2) as (H1 & H2 & H3).
      pose proof (lostRaces_cons _ rounds _ _ _ _ _ _ _ _ He Ef Es ltac:(done)) as Hl. cbn [isLost] in Hl.
      unfold askedKeys in *. rewrite omap_app, Hes. simpl. split_and!.
      * constructor; [|done]. intros Hi. destruct (H2 _ Hi) as [_ Hn]. set_solver.
      * intros key [->|Hi]%elem_of_cons; [done|]. destruct (H2 _ Hi) as [? Hn]. set_solver.
      * intros Hr. specialize (H3 Hr). rewrite Hl by done. lia.
    + split_and!; [apply NoDup_singleton| |done]. by intros key ->%list_elem_of_singleton.
Qed.

(** C34.  A scale-up pass asks no host twice and ends: of any number of rounds it takes at
    most one per host of the model's pools, plus one per lost race -- a round whose very pick,
    free when it was picked, another caller claimed before the pass did.  So without such a
    race it ends after as many rounds as there are hosts, whatever the agents answer and
    whatever else is claimed meanwhile. *)
Theorem pass_ends rounds s claims r s' claims' es (K : list scaleKey) :
  (forall rd, rd ∈ rounds -> poolKeys (rd_view rd) d ⊆ K) ->
  scaleUp cooldown d rounds ∅ s claims = (r, s', claims', es) ->
  NoDup (askedKeys es) /\ askedKeys es ⊆ K /\
  (length K + lostRaces rounds ∅ s claims < length rounds -> exists started, r = PassEnds started)%nat.
Proof.
  intros HK E. destruct (scaleUp_asks _ _ _ _ _ _ _ _ _ HK E) as (Hnd & Hin & Hlen).
  assert (askedKeys es ⊆ K) by (intros key ?; by apply Hin). split_and!; [done..|].
  intros Hlt. destruct r as [started|]; [by exists started|]. specialize (Hlen eq_refl).
  pose proof (submseteq_length _ _ (NoDup_submseteq _ _ Hnd ltac:(eassumption))). lia.
Qed.

End pass.

(** ** Examples *)

Module Examples.

Local Existing Instance ascii_tables.

(** Two agents serve the model; the second one's instance 1 runs. *)
Definition host (server app mapping : string) : MappingCandidate :=
  mkMappingCandidate (plainServer server ServerStatusActive "healthy") (plainApplication app ProviderServerAgent 0 0 600 30 server)
    (plainMapping mapping "chat" "qwen") 0 false 0 false "".

Definition hosts : list MappingCandidate := [host "s1" "a1" "m1"; host "s2" "a2" "m2"].

Definition resolver : Resolver :=
  mkResolver None None None None None 0 true true None None (fun _ => Some (zeroTelemetry, false)).

Definition view : ScaleView :=
  mkScaleView resolver (fun _ flavor => Some (if String.eqb flavor "openai" then hosts else []))
    (fun _ => Some []) (fun id => Found (replicableSpec ("spec-" +:+ id) 4))
    (fun server _ => let running := if String.eqb server "s2" then [1] else [] in Some (mkInstanceView true 2 4 running running))
    (fun _ => []) 100.

Definition demand : DemandSignal := mkSignal "chat" "openai" "" false ["m1"; "m2"].

Definition noRoom : round :=
  mkRound false view [] [] (EnsureError runtimeInstanceNoCapacityCode) false false 100.
Definition lost : round := mkRound false view [OTry ("s2", "m2") 2] [] EnsureOK true false 100.
Definition granted : round := mkRound false view [ORelease ("s2", "m2") 2] [] EnsureOK true false 100.

(** The first host has no room; the second one's index 2 is taken by a manual start, then free. *)
Definition rounds : list round := [noRoom; lost; granted; granted].

Lemma pick_is_worth_witness :
  exists sc, firstUnasked {[("s1", "m1")]} (pickHost view newInstanceScaler newInstanceClaims demand) = Some sc /\
    sc_key sc = ("s2", "m2") /\ sc_index sc = 2 /\ tg_ProviderModel (sc_target sc) = "qwen#2" /\
    sc_key sc ∉ ({[("s1", "m1")]} : gset scaleKey).
Proof.
  eexists. split; [vm_compute; reflexivity|]. split; [reflexivity|]. split; [reflexivity|]. split; [reflexivity|].
  apply (pick_is_worth view newInstanceScaler newInstanceClaims demand {[("s1", "m1")]}). vm_compute. reflexivity.
Defined.

Lemma pass_ends_witness :
  exists started s' claims' es,
    scaleUp defaultInstanceScaleCooldown demand rounds ∅ newInstanceScaler newInstanceClaims = (PassEnds started, s', claims', es) /\
    askedKeys es = [("s1", "m1"); ("s2", "m2")] /\ NoDup (askedKeys es).
Proof.
  destruct (scaleUp defaultInstanceScaleCooldown demand rounds ∅ newInstanceScaler newInstanceClaims) as [[[r s'] claims'] es] eqn:E.
  assert (HK : forall rd, rd ∈ rounds -> poolKeys (rd_view rd) demand ⊆ [("s1", "m1"); ("s2", "m2")]).
  { intros rd Hrd. assert (rd_view rd = view) as ->; [|vm_compute; exact (fun _ H => H)].
    unfold rounds in Hrd. rewrite !elem_of_cons, elem_of_nil in Hrd. destruct Hrd as [->|[->|[->|[->|[]]]]]; reflexivity. }
  destruct (pass_ends defaultInstanceScaleCooldown demand rounds _ _ _ _ _ _ _ HK E) as (Hnd & _ & Hend).
  destruct Hend as [started ->]; [vm_compute; lia|]. exists started, s', claims', es.
  split; [reflexivity|]. split; [|exact Hnd].
  transitivity (askedKeys (scaleUp defaultInstanceScaleCooldown demand rounds ∅ newInstanceScaler newInstanceClaims).2);
    [by rewrite E|vm_compute; reflexivity].
Defined.

End Examples.
