(* ===== verification/AccessStore.v ===== *)
(** * Who may use what: the access half of the in-memory store

    Models the second half of [gateway/backend/internal/routing/memory_store.go]: services
    with their delegates and allowlists, resource groups with their members and the
    principals they are provisioned for, vendor accounts with their models, usage and
    sharing, and the limits of principals; and [MergeVendorAccountUsage] of [store.go].

    The Go store is one struct.  Its first half is [MemoryStore], which this store carries
    ([a_routing]): a server joins a resource group, and leaves every group when it is
    deleted.  One definition per method, as there; the clock is an argument. *)

From Stdlib Require Import ZArith Lia.
From stdpp Require Import base tactics option list numbers strings gmap sorting.
From S2P Require Import Prelude Float64 RoutingTypes Limiter Targets Groups Vendors MemoryStore.
Local Open Scope Z_scope.
Local Open Scope go_scope.

(** ** Rows *)

Record Service := mkService {
  svc_ID : string;
  svc_Name : string;
  svc_Description : string;
  svc_Status : string;
  svc_CreatedAt : time;
  svc_UpdatedAt : time;
  svc_SystemGroupID : string
}.

Global Instance Service_fields : Fields Service := fun s =>
  mkService (svc_ID s) (svc_Name s) (svc_Description s) (svc_Status s) (svc_CreatedAt s) (svc_UpdatedAt s) (svc_SystemGroupID s).

Record ServiceDelegate := mkServiceDelegate {
  sd_UserID : string;
  sd_CanManageSettings : bool
}.

Record ResourceGroup := mkResourceGroup {
  rg_ID : string;
  rg_Name : string;
  rg_Status : string;
  rg_SystemGroupID : string;
  rg_CreatedAt : time;
  rg_UpdatedAt : time
}.

Global Instance ResourceGroup_fields : Fields ResourceGroup := fun g =>
  mkResourceGroup (rg_ID g) (rg_Name g) (rg_Status g) (rg_SystemGroupID g) (rg_CreatedAt g) (rg_UpdatedAt g).

Record ResourceGroupProvision := mkProvision {
  rp_Kind : string;
  rp_TargetID : string
}.

Global Instance ResourceGroupProvision_eq_dec : EqDecision ResourceGroupProvision.
Proof. solve_decision. Defined.

Global Instance ResourceGroupProvision_countable : Countable ResourceGroupProvision.
Proof. by apply (inj_countable' (fun p => (rp_Kind p, rp_TargetID p)) (fun '(k, t) => mkProvision k t)); intros []. Defined.

Definition ProvisionKindUserGroup : string := "user_group".
Definition ProvisionKindAdminGroup : string := "admin_group".
Definition ProvisionKindUser : string := "user".
Definition ProvisionKindService : string := "service".

Definition VendorShareLevelNone : string := "none".
Definition VendorShareLevelShared : string := "shared".
Definition VendorShareLevelFull : string := "full".
Definition VendorAuthAPIKey : string := "api_key".

Record VendorAccountUsage := mkVendorAccountUsage {
  vu_AccountID : string;
  vu_FiveHourPct : float64;
  vu_FiveHourResetAt : option time;
  vu_WeeklyPct : float64;
  vu_WeeklyResetAt : option time;
  vu_CreditBalance : string;
  vu_SpendUnit : string;
  vu_SpendLimit : string;
  vu_SpendUsed : string;
  vu_SpendRemaining : string;
  vu_SpendUsedPct : float64;
  vu_SpendResetAt : option time;
  vu_CreditStatus : string;
  vu_UpdatedAt : time
}.

(** A reading keeps what the stored snapshot knows and it does not. *)
Definition mergePct (existing incoming : float64) : float64 := if f64_ltb incoming f64_zero then existing else incoming.
Definition mergeTime (existing incoming : option time) : option time :=
  match incoming with None => existing | Some _ => incoming end.
Definition mergeText (existing incoming : string) : string := if String.eqb incoming "" then existing else incoming.

Definition MergeVendorAccountUsage (existing incoming : VendorAccountUsage) : VendorAccountUsage :=
  mkVendorAccountUsage (vu_AccountID incoming)
    (mergePct (vu_FiveHourPct existing) (vu_FiveHourPct incoming))
    (mergeTime (vu_FiveHourResetAt existing) (vu_FiveHourResetAt incoming))
    (mergePct (vu_WeeklyPct existing) (vu_WeeklyPct incoming))
    (mergeTime (vu_WeeklyResetAt existing) (vu_WeeklyResetAt incoming))
    (mergeText (vu_CreditBalance existing) (vu_CreditBalance incoming))
    (mergeText (vu_SpendUnit existing) (vu_SpendUnit incoming))
    (mergeText (vu_SpendLimit existing) (vu_SpendLimit incoming))
    (mergeText (vu_SpendUsed existing) (vu_SpendUsed incoming))
    (mergeText (vu_SpendRemaining existing) (vu_SpendRemaining incoming))
    (mergePct (vu_SpendUsedPct existing) (vu_SpendUsedPct incoming))
    (mergeTime (vu_SpendResetAt existing) (vu_SpendResetAt incoming))
    (mergeText (vu_CreditStatus existing) (vu_CreditStatus incoming))
    (vu_UpdatedAt incoming).

(** ** The store *)

(** A join table: who is linked to whom since when. *)
Notation links := (gmap string (gmap string time)).

Record AccessStore := mkAccessStore {
  a_routing : MemoryStore;
  a_services : gmap string Service;
  a_serviceDelegates : gmap string (gmap string bool);
  a_serviceAllowed : gmap string (gset string);
  a_serviceAdminGroups : links;
  a_resourceGroups : gmap string ResourceGroup;
  a_resourceGroupAdminGroups : links;
  a_resourceGroupVendorAccounts : links;
  a_resourceGroupProvisions : gmap string (gset ResourceGroupProvision);
  a_principalLimits : gmap string (gmap string LimitConfig);
  a_vendorAccounts : gmap string VendorAccount;
  a_vendorAccountModels : gmap string (list VendorAccountModel);
  a_vendorAccountUsage : gmap string VendorAccountUsage;
  a_vendorAccountAdminGroups : links
}.

Global Instance AccessStore_fields : Fields AccessStore := fun a =>
  mkAccessStore (a_routing a) (a_services a) (a_serviceDelegates a) (a_serviceAllowed a) (a_serviceAdminGroups a)
    (a_resourceGroups a) (a_resourceGroupAdminGroups a) (a_resourceGroupVendorAccounts a) (a_resourceGroupProvisions a)
    (a_principalLimits a) (a_vendorAccounts a) (a_vendorAccountModels a) (a_vendorAccountUsage a) (a_vendorAccountAdminGroups a).

Definition NewAccessStore : AccessStore := mkAccessStore NewMemoryStore ∅ ∅ ∅ ∅ ∅ ∅ ∅ ∅ ∅ ∅ ∅ ∅ ∅.

Definition recorded : Type := option storeErr * AccessStore.
Definition recordedOK (a : AccessStore) : recorded := (None, a).
Definition rejected (e : storeErr) (a : AccessStore) : recorded := (Some e, a).

(** A write of the first half. *)
Definition onRouting (write : MemoryStore -> written) (a : AccessStore) : recorded :=
  let '(e, m) := write (a_routing a) in (e, a <| a_routing := m |>).

Definition resourceGroupServers (a : AccessStore) : links := m_resourceGroupServers (a_routing a).

(** A link keeps the time it was first made. *)
Definition link (x y : string) (now : time) (t : links) : links :=
  let row := map_get ∅ t x in
  <[x := if has_key row y then row else <[y := now]> row]> t.

Definition unlink (x y : string) (t : links) : links :=
  match t !! x with Some row => <[x := delete y row]> t | None => t end.

(** The rows of [t] a link table has something for. *)
Definition linkedRows {V R} (t : gmap string V) (by_ : gmap string R) (keep : R -> bool) : list V :=
  rowsOf t (List.filter (fun id => has_key t id && match by_ !! id with Some row => keep row | None => false end) (sortedKeys by_)).

Definition linkedToAny (wanted : list string) (row : gmap string time) : bool :=
  existsb (fun id => has_key row id) wanted.

Definition orActive (status : string) : string := if String.eqb status "" then ServerStatusActive else status.

(** ** Services *)

Definition CreateService (svc : Service) (a : AccessStore) : recorded :=
  if has_key (a_services a) (svc_ID svc) then rejected ErrConflict a
  else recordedOK (a <| a_services ::= <[svc_ID svc := svc <| svc_Status ::= orActive |>]> |>).

Definition UpdateService (svc : Service) (a : AccessStore) : recorded :=
  match a_services a !! svc_ID svc with
  | None => rejected ErrNotFound a
  | Some existing =>
      recordedOK (a <| a_services ::= <[svc_ID svc := svc <| svc_Status ::= orActive |> <| svc_CreatedAt := svc_CreatedAt existing |>]> |>)
  end.

Definition ServiceByID (id : string) (a : AccessStore) : Service + storeErr := byKey (a_services a) id.

Definition Services (a : AccessStore) : list Service := rowsByKey (a_services a) (fun _ => true).

Definition ServicesByDelegate (userID : string) (a : AccessStore) : list Service :=
  linkedRows (a_services a) (a_serviceDelegates a) (fun delegates => has_key delegates userID).

Definition DeleteService (id : string) (a : AccessStore) : recorded :=
  if negb (has_key (a_services a) id) then rejected ErrNotFound a
  else recordedOK (a <| a_services ::= delete id |> <| a_serviceDelegates ::= delete id |>
                     <| a_serviceAllowed ::= delete id |> <| a_serviceAdminGroups ::= delete id |>).

Fixpoint delegateSet (delegates : list ServiceDelegate) (set : gmap string bool) : option (gmap string bool) :=
  match delegates with
  | [] => Some set
  | d :: delegates =>
      if has_key set (sd_UserID d) then None else delegateSet delegates (<[sd_UserID d := sd_CanManageSettings d]> set)
  end.

Definition SetServiceDelegates (serviceID : string) (delegates : list ServiceDelegate) (a : AccessStore) : recorded :=
  if negb (has_key (a_services a) serviceID) then rejected ErrNotFound a
  else match delegateSet delegates ∅ with
       | None => rejected ErrConflict a
       | Some set => recordedOK (a <| a_serviceDelegates ::= <[serviceID := set]> |>)
       end.

Definition ServiceDelegates (serviceID : string) (a : AccessStore) : list ServiceDelegate :=
  let set := map_get ∅ (a_serviceDelegates a) serviceID in
  (fun userID => mkServiceDelegate userID (map_get false set userID)) <$> sortedKeys set.

(** The set of a list, [None] when it repeats an element. *)
Fixpoint distinctSet (names : list string) (set : gset string) : option (gset string) :=
  match names with
  | [] => Some set
  | name :: names => if bool_decide (name ∈ set) then None else distinctSet names ({[name]} ∪ set)
  end.

Definition SetServiceAllowedModels (serviceID : string) (models : list string) (a : AccessStore) : recorded :=
  if negb (has_key (a_services a) serviceID) then rejected ErrNotFound a
  else match distinctSet models ∅ with
       | None => rejected ErrConflict a
       | Some set => recordedOK (a <| a_serviceAllowed ::= <[serviceID := set]> |>)
       end.

Definition ServiceAllowedModels (serviceID : string) (a : AccessStore) : list string :=
  sort_Slice (less_string (fun name => name)) (elements (map_get ∅ (a_serviceAllowed a) serviceID)).

Definition UpdateServiceSystemGroup (serviceID systemGroupID : string) (a : AccessStore) : recorded :=
  match a_services a !! serviceID with
  | None => rejected ErrNotFound a
  | Some svc => recordedOK (a <| a_services ::= <[serviceID := svc <| svc_SystemGroupID := systemGroupID |>]> |>)
  end.

Definition SetServiceAdminGroup (serviceID groupID : string) (now : time) (a : AccessStore) : recorded :=
  if negb (has_key (a_services a) serviceID) then rejected ErrNotFound a
  else recordedOK (a <| a_serviceAdminGroups ::= link serviceID groupID now |>).

Definition RemoveServiceAdminGroup (serviceID groupID : string) (a : AccessStore) : recorded :=
  recordedOK (a <| a_serviceAdminGroups ::= unlink serviceID groupID |>).

Definition ServiceAdminGroups (serviceID : string) (a : AccessStore) : list string :=
  sortedByFirstSeen (map_get ∅ (a_serviceAdminGroups a) serviceID).

Definition ServicesByAdminGroups (groupIDs : list string) (a : AccessStore) : list Service :=
  if (length groupIDs =? 0)%nat then []
  else linkedRows (a_services a) (a_serviceAdminGroups a) (linkedToAny groupIDs).

(** ** Resource groups *)

Definition CreateResourceGroup (rg : ResourceGroup) (a : AccessStore) : recorded :=
  if has_key (a_resourceGroups a) (rg_ID rg) then rejected ErrConflict a
  else recordedOK (a <| a_resourceGroups ::= <[rg_ID rg := rg <| rg_Status ::= orActive |>]> |>).

Definition UpdateResourceGroup (rg : ResourceGroup) (a : AccessStore) : recorded :=
  match a_resourceGroups a !! rg_ID rg with
  | None => rejected ErrNotFound a
  | Some existing =>
      recordedOK (a <| a_resourceGroups ::= <[rg_ID rg :=
        rg <| rg_Status ::= orActive |> <| rg_CreatedAt := rg_CreatedAt existing |>
           <| rg_SystemGroupID := rg_SystemGroupID existing |>]> |>)
  end.

Definition onServerLinks (f : links -> links) (a : AccessStore) : AccessStore :=
  a <| a_routing ::= fun m => m <| m_resourceGroupServers ::= f |> |>.

Definition DeleteResourceGroup (id : string) (a : AccessStore) : recorded :=
  if negb (has_key (a_resourceGroups a) id) then rejected ErrNotFound a
  else recordedOK ((onServerLinks (delete id) a) <| a_resourceGroups ::= delete id |>
                     <| a_resourceGroupAdminGroups ::= delete id |> <| a_resourceGroupProvisions ::= delete id |>
                     <| a_resourceGroupVendorAccounts ::= delete id |>).

Definition ResourceGroupByID (id : string) (a : AccessStore) : ResourceGroup + storeErr := byKey (a_resourceGroups a) id.

Definition ResourceGroups (a : AccessStore) : list ResourceGroup := rowsByKey (a_resourceGroups a) (fun _ => true).

Definition UpdateResourceGroupSystemGroup (rgID systemGroupID : string) (a : AccessStore) : recorded :=
  match a_resourceGroups a !! rgID with
  | None => rejected ErrNotFound a
  | Some rg => recordedOK (a <| a_resourceGroups ::= <[rgID := rg <| rg_SystemGroupID := systemGroupID |>]> |>)
  end.

Definition SetResourceGroupAdminGroup (rgID groupID : string) (now : time) (a : AccessStore) : recorded :=
  if negb (has_key (a_resourceGroups a) rgID) then rejected ErrNotFound a
  else recordedOK (a <| a_resourceGroupAdminGroups ::= link rgID groupID now |>).

Definition RemoveResourceGroupAdminGroup (rgID groupID : string) (a : AccessStore) : recorded :=
  recordedOK (a <| a_resourceGroupAdminGroups ::= unlink rgID groupID |>).

Definition ResourceGroupAdminGroups (rgID : string) (a : AccessStore) : list string :=
  sortedByFirstSeen (map_get ∅ (a_resourceGroupAdminGroups a) rgID).

Definition ResourceGroupsByAdminGroups (groupIDs : list string) (a : AccessStore) : list ResourceGroup :=
  if (length groupIDs =? 0)%nat then []
  else linkedRows (a_resourceGroups a) (a_resourceGroupAdminGroups a) (linkedToAny groupIDs).

Definition SetResourceGroupServer (rgID serverID : string) (now : time) (a : AccessStore) : recorded :=
  if negb (has_key (a_resourceGroups a) rgID) then rejected ErrNotFound a
  else if negb (has_key (m_servers (a_routing a)) serverID) then rejected ErrNotFound a
  else recordedOK (onServerLinks (link rgID serverID now) a).

Definition RemoveResourceGroupServer (rgID serverID : string) (a : AccessStore) : recorded :=
  recordedOK (onServerLinks (unlink rgID serverID) a).

Definition ResourceGroupServers (rgID : string) (a : AccessStore) : list string :=
  sortedByFirstSeen (map_get ∅ (resourceGroupServers a) rgID).

Definition ResourceGroupsByServer (serverID : string) (a : AccessStore) : list ResourceGroup :=
  linkedRows (a_resourceGroups a) (resourceGroupServers a) (fun servers => has_key servers serverID).

Definition SetResourceGroupVendorAccount (rgID accountID : string) (now : time) (a : AccessStore) : recorded :=
  if negb (has_key (a_resourceGroups a) rgID) then rejected ErrNotFound a
  else if negb (has_key (a_vendorAccounts a) accountID) then rejected ErrNotFound a
  else recordedOK (a <| a_resourceGroupVendorAccounts ::= link rgID accountID now |>).

Definition RemoveResourceGroupVendorAccount (rgID accountID : string) (a : AccessStore) : recorded :=
  recordedOK (a <| a_resourceGroupVendorAccounts ::= unlink rgID accountID |>).

Definition ResourceGroupVendorAccounts (rgID : string) (a : AccessStore) : list string :=
  sortedByFirstSeen (map_get ∅ (a_resourceGroupVendorAccounts a) rgID).

Definition ResourceGroupsByVendorAccount (accountID : string) (a : AccessStore) : list ResourceGroup :=
  linkedRows (a_resourceGroups a) (a_resourceGroupVendorAccounts a) (fun accounts => has_key accounts accountID).

Definition SetResourceGroupProvision (rgID kind targetID : string) (a : AccessStore) : recorded :=
  if negb (has_key (a_resourceGroups a) rgID) then rejected ErrNotFound a
  else recordedOK (a <| a_resourceGroupProvisions ::= fun t =>
    <[rgID := {[mkProvision kind targetID]} ∪ map_get ∅ t rgID]> t |>).

Definition RemoveResourceGroupProvision (rgID kind targetID : string) (a : AccessStore) : recorded :=
  match a_resourceGroupProvisions a !! rgID with
  | Some provs => recordedOK (a <| a_resourceGroupProvisions ::= <[rgID := provs ∖ {[mkProvision kind targetID]}]> |>)
  | None => recordedOK a
  end.

Definition SetResourceGroupProvisions (rgID : string) (provisions : list ResourceGroupProvision) (a : AccessStore) : recorded :=
  if negb (has_key (a_resourceGroups a) rgID) then rejected ErrNotFound a
  else recordedOK (a <| a_resourceGroupProvisions ::= <[rgID := list_to_set provisions]> |>).

Definition ResourceGroupProvisions (rgID : string) (a : AccessStore) : list ResourceGroupProvision :=
  sort_Slice (less_lex (less_string rp_Kind) (less_string rp_TargetID))
    (elements (map_get ∅ (a_resourceGroupProvisions a) rgID)).

Definition ResourceGroupIDsByProvisionTargets (kind : string) (targetIDs : list string) (a : AccessStore) : list string :=
  if (length targetIDs =? 0)%nat then []
  else List.filter (fun rgID => has_key (a_resourceGroups a) rgID
    && existsb (fun p => String.eqb (rp_Kind p) kind && bool_decide (rp_TargetID p ∈ targetIDs))
         (elements (map_get ∅ (a_resourceGroupProvisions a) rgID)))
    (sortedKeys (a_resourceGroupProvisions a)).

Definition ProvisionedResourceGroupIDs (a : AccessStore) : gset string :=
  list_to_set (List.filter (fun rgID => has_key (a_resourceGroups a) rgID
    && negb (size (map_get ∅ (a_resourceGroupProvisions a) rgID) =? 0)%nat) (sortedKeys (a_resourceGroupProvisions a))).

(** ** Limits of principals *)

Definition PrincipalLimits (principalType principalID : string) (a : AccessStore) : option LimitConfig :=
  a_principalLimits a !! principalType ≫= fun byID => byID !! principalID.

Definition SetPrincipalLimits (principalType principalID : string) (cfg : LimitConfig) (a : AccessStore) : recorded :=
  recordedOK (a <| a_principalLimits ::= fun t => <[principalType := <[principalID := cfg]> (map_get ∅ t principalType)]> t |>).

Definition DeletePrincipalLimits (principalType principalID : string) (a : AccessStore) : recorded :=
  match a_principalLimits a !! principalType with
  | Some byID => recordedOK (a <| a_principalLimits ::= <[principalType := delete principalID byID]> |>)
  | None => recordedOK a
  end.

(** The in-memory store keeps no usage: an unknown kind of principal is an error, every
    other aggregate is zero. *)
Definition UsageAggregateSince (principalType : string) : (Z * Z * float64) + storeErr :=
  if negb (String.eqb principalType "service") && negb (String.eqb principalType "user")
  then inr (ErrInvalid "usage aggregate: invalid principal type") else inl (0, 0, f64_zero).

(** ** Vendor accounts *)

Definition CreateVendorAccount (acc : VendorAccount) (a : AccessStore) : recorded :=
  if has_key (a_vendorAccounts a) (acc_ID acc) then rejected ErrConflict a
  else recordedOK (a <| a_vendorAccounts ::=
    <[acc_ID acc := acc <| acc_ShareLevel := VendorShareLevelNone |> <| acc_SystemGroupID := "" |>]> |>).

(** The row of an account is changed in place. *)
Definition updateAccount (id : string) (f : VendorAccount -> VendorAccount) (a : AccessStore) : recorded :=
  match a_vendorAccounts a !! id with
  | None => rejected ErrNotFound a
  | Some cur => recordedOK (a <| a_vendorAccounts ::= <[id := f cur]> |>)
  end.

Definition UpdateVendorAccount (acc : VendorAccount) : AccessStore -> recorded :=
  updateAccount (acc_ID acc) (fun cur =>
    cur <| acc_AuthType := acc_AuthType acc |> <| acc_Name := acc_Name acc |> <| acc_Status := acc_Status acc |>
        <| acc_APIKey := acc_APIKey acc |> <| acc_OAuthTokens := acc_OAuthTokens acc |>
        <| acc_ModelPrefix := acc_ModelPrefix acc |> <| acc_UpdatedAt := acc_UpdatedAt acc |>).

Record VendorAccountOperatePatch := mkOperatePatch {
  op_Name : option string;
  op_Status : option string;
  op_ModelPrefix : option string;
  op_UpdatedAt : time
}.

Definition UpdateVendorAccountOperateFields (accountID : string) (patch : VendorAccountOperatePatch) : AccessStore -> recorded :=
  updateAccount accountID (fun cur =>
    cur <| acc_Name ::= fun old => default old (op_Name patch) |>
        <| acc_Status ::= fun old => default old (op_Status patch) |>
        <| acc_ModelPrefix ::= fun old => default old (op_ModelPrefix patch) |>
        <| acc_UpdatedAt := op_UpdatedAt patch |>).

Definition SetVendorAccountOAuthTokens (accountID sealed : string) (now : time) : AccessStore -> recorded :=
  updateAccount accountID (fun cur => cur <| acc_OAuthTokens := sealed |> <| acc_UpdatedAt := now |>).

Definition SetVendorAccountStatus (accountID status : string) (now : time) : AccessStore -> recorded :=
  updateAccount accountID (fun cur => cur <| acc_Status := status |> <| acc_UpdatedAt := now |>).

Definition VendorAccountByID (id : string) (a : AccessStore) : VendorAccount + storeErr := byKey (a_vendorAccounts a) id.

Definition vendorAccountsLocked (keep : VendorAccount -> bool) (a : AccessStore) : list VendorAccount :=
  rowsByKey (a_vendorAccounts a) keep.

Definition VendorAccounts : AccessStore -> list VendorAccount := vendorAccountsLocked (fun _ => true).

Definition VendorAccountsByOwner (userID : string) : AccessStore -> list VendorAccount :=
  vendorAccountsLocked (fun acc => String.eqb (acc_OwnerUserID acc) userID).

Definition dropVendorAccountFromResourceGroupsLocked (accountID : string) (a : AccessStore) : AccessStore :=
  a <| a_resourceGroupVendorAccounts ::= fmap (delete accountID) |>.

Definition DeleteVendorAccount (id : string) (a : AccessStore) : recorded :=
  if negb (has_key (a_vendorAccounts a) id) then rejected ErrNotFound a
  else recordedOK (dropVendorAccountFromResourceGroupsLocked id
    (a <| a_vendorAccounts ::= delete id |> <| a_vendorAccountModels ::= delete id |>
       <| a_vendorAccountUsage ::= delete id |> <| a_vendorAccountAdminGroups ::= delete id |>)).

Definition UpdateVendorAccountShareLevel (id level : string) : AccessStore -> recorded :=
  updateAccount id (fun cur => cur <| acc_ShareLevel := level |>).

Definition UpdateVendorAccountSystemGroup (id systemGroupID : string) : AccessStore -> recorded :=
  updateAccount id (fun cur => cur <| acc_SystemGroupID := systemGroupID |>).

Definition SetVendorAccountAdminGroup (accountID groupID : string) (now : time) (a : AccessStore) : recorded :=
  if negb (has_key (a_vendorAccounts a) accountID) then rejected ErrNotFound a
  else recordedOK (a <| a_vendorAccountAdminGroups ::= link accountID groupID now |>).

Definition RemoveVendorAccountAdminGroup (accountID groupID : string) (a : AccessStore) : recorded :=
  recordedOK (a <| a_vendorAccountAdminGroups ::= unlink accountID groupID |>).

Definition VendorAccountAdminGroups (accountID : string) (a : AccessStore) : list string :=
  sortedByFirstSeen (map_get ∅ (a_vendorAccountAdminGroups a) accountID).

Definition VendorAccountsByAdminGroups (groupIDs : list string) (a : AccessStore) : list VendorAccount :=
  if (length groupIDs =? 0)%nat then []
  else vendorAccountsLocked (fun acc => linkedToAny groupIDs (map_get ∅ (a_vendorAccountAdminGroups a) (acc_ID acc))) a.

Definition ClearVendorAccountSharing (accountID : string) (a : AccessStore) : recorded :=
  match a_vendorAccounts a !! accountID with
  | None => rejected ErrNotFound a
  | Some cur =>
      recordedOK (dropVendorAccountFromResourceGroupsLocked accountID
        (a <| a_vendorAccounts ::= <[accountID := cur <| acc_ShareLevel := VendorShareLevelNone |> <| acc_SystemGroupID := "" |>]> |>
           <| a_vendorAccountAdminGroups ::= delete accountID |>))
  end.

Definition VendorAccountModels (accountID : string) (a : AccessStore) : list VendorAccountModel :=
  sort_Slice (less_string vm_GatewayModel) (map_get [] (a_vendorAccountModels a) accountID).

Fixpoint storedModels (accountID : string) (models : list VendorAccountModel) (seen : gset string) : option (list VendorAccountModel) :=
  match models with
  | [] => Some []
  | model :: models =>
      if bool_decide (vm_GatewayModel model ∈ seen) then None
      else cons (model <| vm_AccountID := accountID |>) <$> storedModels accountID models ({[vm_GatewayModel model]} ∪ seen)
  end.

Definition SetVendorAccountModels (accountID : string) (models : list VendorAccountModel) (a : AccessStore) : recorded :=
  if negb (has_key (a_vendorAccounts a) accountID) then rejected ErrNotFound a
  else match storedModels accountID models ∅ with
       | None => rejected ErrConflict a
       | Some stored => recordedOK (a <| a_vendorAccountModels ::= <[accountID := stored]> |>)
       end.

Definition UpsertVendorAccountUsage (u : VendorAccountUsage) (a : AccessStore) : recorded :=
  if negb (has_key (a_vendorAccounts a) (vu_AccountID u)) then rejected ErrNotFound a
  else recordedOK (a <| a_vendorAccountUsage ::= <[vu_AccountID u := u]> |>).

Definition VendorAccountUsageByID (accountID : string) (a : AccessStore) : option VendorAccountUsage :=
  a_vendorAccountUsage a !! accountID.
