(* ===== verification/AccessStoreProps.v ===== *)
(** * Properties of the access half of the store

    The tables stay intact under every write of either half; deleting a resource group or a
    vendor account, or making an account private again, removes every link to it and nothing
    else; and a merged usage snapshot never forgets. *)

From Stdlib Require Import ZArith Lia Sorted.
From stdpp Require Import base tactics option list numbers strings gmap sorting.
From S2P Require Import Prelude Float64 RoutingTypes Limiter FiltersProps Targets Groups Vendors MemoryStore MemoryStoreIntegrity MemoryStoreProps AccessStore.
Local Open Scope Z_scope.
Local Open Scope go_scope.

(** ** Writes *)

Inductive access_write : (AccessStore -> recorded) -> Prop :=
| aw_routing w : store_write w -> access_write (onRouting w)
| aw_CreateService svc : access_write (CreateService svc)
| aw_UpdateService svc : access_write (UpdateService svc)
| aw_DeleteService id : access_write (DeleteService id)
| aw_SetServiceDelegates id l : access_write (SetServiceDelegates id l)
| aw_SetServiceAllowedModels id l : access_write (SetServiceAllowedModels id l)
| aw_UpdateServiceSystemGroup id g : access_write (UpdateServiceSystemGroup id g)
| aw_SetServiceAdminGroup id g now : access_write (SetServiceAdminGroup id g now)
| aw_RemoveServiceAdminGroup id g : access_write (RemoveServiceAdminGroup id g)
| aw_CreateResourceGroup rg : access_write (CreateResourceGroup rg)
| aw_UpdateResourceGroup rg : access_write (UpdateResourceGroup rg)
| aw_DeleteResourceGroup id : access_write (DeleteResourceGroup id)
| aw_UpdateResourceGroupSystemGroup id g : access_write (UpdateResourceGroupSystemGroup id g)
| aw_SetResourceGroupAdminGroup id g now : access_write (SetResourceGroupAdminGroup id g now)
| aw_RemoveResourceGroupAdminGroup id g : access_write (RemoveResourceGroupAdminGroup id g)
| aw_SetResourceGroupServer id s now : access_write (SetResourceGroupServer id s now)
| aw_RemoveResourceGroupServer id s : access_write (RemoveResourceGroupServer id s)
| aw_SetResourceGroupVendorAccount id acc now : access_write (SetResourceGroupVendorAccount id acc now)
| aw_RemoveResourceGroupVendorAccount id acc : access_write (RemoveResourceGroupVendorAccount id acc)
| aw_SetResourceGroupProvision id kind target : access_write (SetResourceGroupProvision id kind target)
| aw_RemoveResourceGroupProvision id kind target : access_write (RemoveResourceGroupProvision id kind target)
| aw_SetResourceGroupProvisions id l : access_write (SetResourceGroupProvisions id l)
| aw_SetPrincipalLimits kind id cfg : access_write (SetPrincipalLimits kind id cfg)
| aw_DeletePrincipalLimits kind id : access_write (DeletePrincipalLimits kind id)
| aw_CreateVendorAccount acc : access_write (CreateVendorAccount acc)
| aw_UpdateVendorAccount acc : access_write (UpdateVendorAccount acc)
| aw_UpdateVendorAccountOperateFields id patch : access_write (UpdateVendorAccountOperateFields id patch)
| aw_SetVendorAccountOAuthTokens id sealed now : access_write (SetVendorAccountOAuthTokens id sealed now)
| aw_SetVendorAccountStatus id status now : access_write (SetVendorAccountStatus id status now)
| aw_DeleteVendorAccount id : access_write (DeleteVendorAccount id)
| aw_UpdateVendorAccountShareLevel id level : access_write (UpdateVendorAccountShareLevel id level)
| aw_UpdateVendorAccountSystemGroup id g : access_write (UpdateVendorAccountSystemGroup id g)
| aw_SetVendorAccountAdminGroup id g now : access_write (SetVendorAccountAdminGroup id g now)
| aw_RemoveVendorAccountAdminGroup id g : access_write (RemoveVendorAccountAdminGroup id g)
| aw_ClearVendorAccountSharing id : access_write (ClearVendorAccountSharing id)
| aw_SetVendorAccountModels id l : access_write (SetVendorAccountModels id l)
| aw_UpsertVendorAccountUsage u : access_write (UpsertVendorAccountUsage u).

Definition runRecords (ws : list (AccessStore -> recorded)) : AccessStore :=
  foldl (fun a w => (w a).2) NewAccessStore ws.

(** ** Integrity *)

(** A table kept per row of [rows]; a join table whose members are rows of [rows]. *)
Definition keyed {V R} (rows : gmap string V) (t : gmap string R) : Prop :=
  forall id row, t !! id = Some row -> in_table rows id.
Definition joins {V} (rows : gmap string V) (t : links) : Prop :=
  forall id row x, t !! id = Some row -> in_table row x -> in_table rows x.

Record services_ok (a : AccessStore) : Prop := {
  sk_rows id svc : a_services a !! id = Some svc -> svc_ID svc = id /\ svc_Status svc <> "";
  sk_delegates : keyed (a_services a) (a_serviceDelegates a);
  sk_allowed : keyed (a_services a) (a_serviceAllowed a);
  sk_admin : keyed (a_services a) (a_serviceAdminGroups a)
}.

Record resource_groups_ok (a : AccessStore) : Prop := {
  rk_rows id rg : a_resourceGroups a !! id = Some rg -> rg_ID rg = id /\ rg_Status rg <> "";
  rk_admin : keyed (a_resourceGroups a) (a_resourceGroupAdminGroups a);
  rk_provisions : keyed (a_resourceGroups a) (a_resourceGroupProvisions a);
  rk_servers : keyed (a_resourceGroups a) (resourceGroupServers a);
  rk_accounts : keyed (a_resourceGroups a) (a_resourceGroupVendorAccounts a);
  rk_members : joins (m_servers (a_routing a)) (resourceGroupServers a);
  rk_linked : joins (a_vendorAccounts a) (a_resourceGroupVendorAccounts a)
}.

Record accounts_ok (a : AccessStore) : Prop := {
  ck_rows id acc : a_vendorAccounts a !! id = Some acc -> acc_ID acc = id;
  ck_models id l : a_vendorAccountModels a !! id = Some l ->
    in_table (a_vendorAccounts a) id /\ NoDup (vm_GatewayModel <$> l) /\ Forall (fun v => vm_AccountID v = id) l;
  ck_usage id u : a_vendorAccountUsage a !! id = Some u -> in_table (a_vendorAccounts a) id /\ vu_AccountID u = id;
  ck_admin : keyed (a_vendorAccounts a) (a_vendorAccountAdminGroups a)
}.

Record access_ok (a : AccessStore) : Prop := {
  ak_routing : store_ok (a_routing a);
  ak_services : services_ok a;
  ak_groups : resource_groups_ok a;
  ak_accounts : accounts_ok a
}.

(** ** Tables and links *)

Section tables.
Context {V R : Type}.
Implicit Types (rows : gmap string V) (t : gmap string R).

Lemma keyed_grow rows rows' t : grows rows rows' -> keyed rows t -> keyed rows' t.
Proof. intros G H id row Hr. eapply G, H, Hr. Qed.

Lemma keyed_put rows t id row : in_table rows id -> keyed rows t -> keyed rows (<[id := row]> t).
Proof. intros Hin H k r Hr. look; [done|by eapply H]. Qed.

Lemma keyed_delete rows t id : keyed rows t -> keyed (delete id rows) (delete id t).
Proof. intros H k r Hr. look. unfold in_table. rewrite lookup_delete_ne by done. by eapply H. Qed.

Lemma keyed_lookup rows t id row row' : t !! id = Some row -> keyed rows t -> keyed rows (<[id := row']> t).
Proof. intros Hr H. apply keyed_put; [|done]. by eapply H. Qed.

End tables.

Section join_tables.
Context {V A : Type}.
Implicit Types (rows : gmap string V) (owners : gmap string A) (t : links).

Lemma link_keyed owners t x y now : in_table owners x -> keyed owners t -> keyed owners (link x y now t).
Proof. intros ? ?. by apply keyed_put. Qed.

Lemma unlink_keyed owners t x y : keyed owners t -> keyed owners (unlink x y t).
Proof. intros H. unfold unlink. destruct (t !! x) eqn:E; [|done]. by eapply keyed_lookup. Qed.

Lemma fmap_keyed owners t x : keyed owners t -> keyed owners (delete x <$> t).
Proof. intros H id row Hr. look. by eapply H. Qed.

Lemma joins_grow rows rows' t : grows rows rows' -> joins rows t -> joins rows' t.
Proof. intros G H id row x Hr Hx. eapply G, H; eauto. Qed.

(** Whether [x] is linked to [y]. *)
Definition linked (t : links) (x y : string) : Prop := in_table (map_get ∅ t x) y.

Lemma linked_row t x y : linked t x y <-> exists row, t !! x = Some row /\ in_table row y.
Proof.
  unfold linked, map_get. destruct (t !! x) as [row|]; simpl.
  { split; [by eauto|]. by intros (? & [= <-] & ?). }
  unfold in_table.
  rewrite lookup_empty. split; [by intros []|by intros (? & ? & _)].
Qed.

Lemma joins_linked rows t : joins rows t <-> forall x y, linked t x y -> in_table rows y.
Proof. setoid_rewrite linked_row. unfold joins. naive_solver. Qed.

Lemma linked_link t x y now x' y' : linked (link x y now t) x' y' <-> linked t x' y' \/ (x' = x /\ y' = y).
Proof.
  unfold linked, link. destruct (decide (x' = x)) as [->|Hne].
  - unfold map_get at 1. rewrite lookup_insert_eq. simpl. set (row := map_get ∅ t x).
    destruct (has_key row y) eqn:Ek.
    + apply has_key_true in Ek. naive_solver.
    + unfold in_table. rewrite lookup_insert_is_Some. destruct (decide (y = y')); naive_solver.
  - unfold map_get. rewrite lookup_insert_ne by done. naive_solver.
Qed.

Lemma linked_unlink t x y x' y' : linked (unlink x y t) x' y' <-> linked t x' y' /\ ~ (x' = x /\ y' = y).
Proof.
  unfold linked, unlink, map_get. destruct (t !! x) as [row|] eqn:E.
  - destruct (decide (x' = x)) as [->|Hne]; [rewrite lookup_insert_eq, E|rewrite lookup_insert_ne by done; naive_solver].
    simpl. unfold in_table. rewrite lookup_delete_is_Some. naive_solver.
  - split; [|naive_solver]. intros H. split; [done|]. intros [-> ->]. rewrite E in H. by destruct H.
Qed.

Lemma linked_delete t x x' y' : linked (delete x t) x' y' <-> linked t x' y' /\ x' <> x.
Proof.
  unfold linked, map_get. destruct (decide (x' = x)) as [->|Hne].
  - rewrite lookup_delete_eq. split; [|naive_solver]. by intros [].
  - rewrite lookup_delete_ne by done. naive_solver.
Qed.

Lemma linked_drop t y x' y' : linked (delete y <$> t) x' y' <-> linked t x' y' /\ y' <> y.
Proof.
  unfold linked, map_get. rewrite lookup_fmap. destruct (t !! x') as [row|]; simpl.
  - unfold in_table. rewrite lookup_delete_is_Some. naive_solver.
  - split; [by intros []|by intros [[] _]].
Qed.

End join_tables.

(** ** The first half *)

(** The servers and their groups a write leaves. *)
Definition hostsKept (m m' : MemoryStore) : Prop :=
  grows (m_servers m) (m_servers m') /\ m_resourceGroupServers m' = m_resourceGroupServers m.

Lemma sameHosts_kept m m' : sameHosts m m' -> hostsKept m m'.
Proof. intros []. split; [|done]. intros id. congruence. Qed.

Lemma measure_kept id f m : hostsKept m (measure id f m).2.
Proof. unfold measure. repeat case_match; split; auto using grows_refl. Qed.

Lemma updateServer_kept id set m : hostsKept m (updateServer id set m).2.
Proof. unfold updateServer. case_match; (split; [|done]); [apply grows_insert|apply grows_refl]. Qed.

Ltac head t := lazymatch t with ?f _ => head f | _ => t end.

(** Unfolds a write and follows its branches. *)
Ltac by_branches :=
  match goal with |- hostsKept _ (?w _).2 => let h := head w in unfold h end;
  repeat (case_match; try (by split; [apply grows_refl|]));
  try (by split; [first [apply grows_refl|apply grows_insert]|]).

(** A write of the first half deletes a server, or loses none and leaves their groups alone. *)
Lemma write_hosts w m : store_write w -> (exists id, w = DeleteAIServer id) \/ hostsKept m (w m).2.
Proof.
  intros Hw. destruct Hw; try (left; by eexists); right; try apply updateServer_kept; try apply measure_kept; try by_branches.
  - cbn [snd]. by_branches.
  - apply sameHosts_kept, (deleteApplicationLocked_exact id m).
  - unfold invalidateMappingCacheOnRenameLocked. case_match; (split; [apply grows_refl|done]).
  - unfold invalidateMappingCacheOnRenameLocked. case_match; (split; [apply grows_refl|done]).
  - unfold invalidateMappingCacheOnRenameLocked. case_match; (split; [apply grows_refl|done]).
  - apply measure_kept.
Qed.

Lemma delete_hosts id m :
  m_resourceGroupServers (DeleteAIServer id m).2 = m_resourceGroupServers m /\ (DeleteAIServer id m).2 = m \/
  m_resourceGroupServers (DeleteAIServer id m).2 = delete id <$> m_resourceGroupServers m /\
  m_servers (DeleteAIServer id m).2 = delete id (m_servers m).
Proof.
  unfold DeleteAIServer. destruct (has_key _ _); cbn; [|by left]. right.
  unfold deleteApplicationsForServerLocked. fold (appsOf id m).
  destruct (deleteApplications_exact (appsOf id m) m) as (_ & [] & _). split; congruence.
Qed.

(** ** Every write keeps the tables intact *)

Create HintDb access.
#[local] Hint Resolve keyed_grow keyed_put keyed_delete link_keyed unlink_keyed fmap_keyed joins_grow
  grows_refl grows_insert in_insert in_has_key : access.

Lemma orActive_set s : orActive s <> "".
Proof. unfold orActive. by destruct (String.eqb_spec s ""). Qed.

Lemma distinct_models accountID models seen stored :
  storedModels accountID models seen = Some stored ->
  NoDup (vm_GatewayModel <$> stored) /\ (forall v, v ∈ stored -> vm_GatewayModel v ∉ seen) /\
  Forall (fun v => vm_AccountID v = accountID) stored.
Proof.
  revert seen stored. induction models as [|x models IH]; intros seen stored; simpl.
  { intros [= <-]. split_and!; [constructor|by intros ? ?%elem_of_nil|constructor]. }
  case_bool_decide as Hs; [done|]. destruct (storedModels _ models _) as [rest|] eqn:E; [|done]. intros [= <-].
  destruct (IH _ _ E) as (H1 & H2 & H3). split_and!.
  - constructor; [|done]. intros (v & Ev & Hv)%list_elem_of_fmap. apply (H2 v Hv). cbn in Ev. set_solver.
  - intros v [->|Hv]%elem_of_cons; [done|]. specialize (H2 v Hv). set_solver.
  - by constructor.
Qed.

Section integrity.
Context (a : AccessStore) (HI : access_ok a).

Lemma routing_ok w : store_write w -> access_ok (onRouting w a).2.
Proof.
  intros Hw. pose proof (write_ok w (a_routing a) Hw) as HR. unfold onRouting.
  pose proof (write_hosts w (a_routing a) Hw) as Hh. destruct HI as [H1 H2 H3 H4].
  destruct (w (a_routing a)) as [e m'] eqn:E. cbn in *. split; cbn; [by apply HR|by destruct H2| |by destruct H4].
  destruct H3 as [R1 R2 R3 R4 R5 R6 R7]. destruct Hh as [[id ->]|[G Er]].
  - pose proof (delete_hosts id (a_routing a)) as Hd. rewrite E in Hd. cbn in Hd.
    destruct Hd as [[_ ->]|[Er Es]]; [by split|]. unfold resourceGroupServers in *.
    split; unfold resourceGroupServers; cbn; rewrite ?Er, ?Es; try done; [by apply fmap_keyed|].
    apply joins_linked. intros x y [Hl Hne]%linked_drop. unfold in_table. rewrite lookup_delete_ne by done.
    rewrite joins_linked in R6. by eapply R6.
  - split; unfold resourceGroupServers in *; cbn; rewrite ?Er; try done. by eapply joins_grow.
Qed.

(** Unfolds a write of this half and closes its refusals. *)
Ltac recorded_by X :=
  unfold X; repeat (case_match; try exact HI); unfold recordedOK, rejected; try exact HI; cbn [snd]; bool_hyps;
  destruct HI as [HR HS HG HA]; split; try assumption; [try (by destruct HS)|try (by destruct HG)|try (by destruct HA)].

Lemma CreateService_ok svc : access_ok (CreateService svc a).2.
Proof.
  recorded_by CreateService. destruct HS as [S1 S2 S3 S4]. split; cbn; eauto with access.
  intros; look; eauto using orActive_set.
Qed.

Lemma UpdateService_ok svc : access_ok (UpdateService svc a).2.
Proof.
  recorded_by UpdateService. destruct HS as [S1 S2 S3 S4]. split; cbn; eauto with access.
  intros; look; eauto using orActive_set.
Qed.

Lemma UpdateServiceSystemGroup_ok id g : access_ok (UpdateServiceSystemGroup id g a).2.
Proof.
  recorded_by UpdateServiceSystemGroup. destruct HS as [S1 S2 S3 S4]. split; cbn; eauto with access.
  intros; look; [|by eauto]. cbn. by eapply S1.
Qed.

Lemma DeleteService_ok id : access_ok (DeleteService id a).2.
Proof.
  recorded_by DeleteService. destruct HS as [S1 S2 S3 S4]. split; cbn; eauto with access.
  intros; look; eauto.
Qed.

Lemma SetServiceDelegates_ok id l : access_ok (SetServiceDelegates id l a).2.
Proof. recorded_by SetServiceDelegates. destruct HS as [S1 S2 S3 S4]. split; cbn; eauto with access. Qed.

Lemma SetServiceAllowedModels_ok id l : access_ok (SetServiceAllowedModels id l a).2.
Proof. recorded_by SetServiceAllowedModels. destruct HS as [S1 S2 S3 S4]. split; cbn; eauto with access. Qed.

Lemma SetServiceAdminGroup_ok id g now : access_ok (SetServiceAdminGroup id g now a).2.
Proof. recorded_by SetServiceAdminGroup. destruct HS as [S1 S2 S3 S4]. split; cbn; eauto with access. Qed.

Lemma RemoveServiceAdminGroup_ok id g : access_ok (RemoveServiceAdminGroup id g a).2.
Proof. recorded_by RemoveServiceAdminGroup. destruct HS as [S1 S2 S3 S4]. split; cbn; eauto with access. Qed.

(** *** Resource groups *)

(** Opens the part on resource groups. *)
Ltac groups_opened :=
  match goal with H : resource_groups_ok _ |- _ => destruct H as [G1 G2 G3 G4 G5 G6 G7] end; unfold resourceGroupServers in *; split; unfold resourceGroupServers; cbn; eauto with access.

Lemma CreateResourceGroup_ok rg : access_ok (CreateResourceGroup rg a).2.
Proof. recorded_by CreateResourceGroup. groups_opened. intros; look; eauto using orActive_set. Qed.

Lemma UpdateResourceGroup_ok rg : access_ok (UpdateResourceGroup rg a).2.
Proof. recorded_by UpdateResourceGroup. groups_opened. intros; look; eauto using orActive_set. Qed.

Lemma UpdateResourceGroupSystemGroup_ok id g : access_ok (UpdateResourceGroupSystemGroup id g a).2.
Proof. recorded_by UpdateResourceGroupSystemGroup. groups_opened. intros; look; [|by eauto]. cbn. by eapply G1. Qed.

(** The server links are not part of the first half's integrity. *)
Lemma server_links_ok f m : store_ok m -> store_ok (m <| m_resourceGroupServers ::= f |>).
Proof. intros [[] [] [] []]. by split; split. Qed.

Lemma DeleteResourceGroup_ok id : access_ok (DeleteResourceGroup id a).2.
Proof.
  unfold DeleteResourceGroup. case_match; [exact HI|]. bool_hyps. destruct HI as [HR HS HG HA].
  split; cbn; [by apply server_links_ok|by destruct HS| |by destruct HA]. groups_opened.
  - intros; look; eauto.
  - apply joins_linked. intros x y [Hl _]%linked_delete. rewrite joins_linked in G6. by eapply G6.
  - apply joins_linked. intros x y [Hl _]%linked_delete. rewrite joins_linked in G7. by eapply G7.
Qed.

Lemma SetResourceGroupAdminGroup_ok id g now : access_ok (SetResourceGroupAdminGroup id g now a).2.
Proof. recorded_by SetResourceGroupAdminGroup. groups_opened. Qed.

Lemma RemoveResourceGroupAdminGroup_ok id g : access_ok (RemoveResourceGroupAdminGroup id g a).2.
Proof. recorded_by RemoveResourceGroupAdminGroup. groups_opened. Qed.

Lemma SetResourceGroupServer_ok id s now : access_ok (SetResourceGroupServer id s now a).2.
Proof.
  unfold SetResourceGroupServer. repeat (case_match; try exact HI). bool_hyps. destruct HI as [HR HS HG HA].
  split; cbn; [by apply server_links_ok|by destruct HS| |by destruct HA]. groups_opened.
  rewrite joins_linked in *. intros x y [?|[-> ->]]%linked_link; eauto with access.
Qed.

Lemma RemoveResourceGroupServer_ok id s : access_ok (RemoveResourceGroupServer id s a).2.
Proof.
  destruct HI as [HR HS HG HA]. split; cbn; [by apply server_links_ok|by destruct HS| |by destruct HA]. groups_opened.
  rewrite joins_linked in *. intros x y [? _]%linked_unlink. eauto.
Qed.

Lemma SetResourceGroupVendorAccount_ok id acc now : access_ok (SetResourceGroupVendorAccount id acc now a).2.
Proof.
  recorded_by SetResourceGroupVendorAccount. groups_opened.
  rewrite joins_linked in *. intros x y [?|[-> ->]]%linked_link; eauto with access.
Qed.

Lemma RemoveResourceGroupVendorAccount_ok id acc : access_ok (RemoveResourceGroupVendorAccount id acc a).2.
Proof.
  recorded_by RemoveResourceGroupVendorAccount. groups_opened.
  rewrite joins_linked in *. intros x y [? _]%linked_unlink. eauto.
Qed.

Lemma SetResourceGroupProvision_ok id kind target : access_ok (SetResourceGroupProvision id kind target a).2.
Proof. recorded_by SetResourceGroupProvision. groups_opened. Qed.

Lemma RemoveResourceGroupProvision_ok id kind target : access_ok (RemoveResourceGroupProvision id kind target a).2.
Proof. recorded_by RemoveResourceGroupProvision. groups_opened. Qed.

Lemma SetResourceGroupProvisions_ok id l : access_ok (SetResourceGroupProvisions id l a).2.
Proof. recorded_by SetResourceGroupProvisions. groups_opened. Qed.

Lemma SetPrincipalLimits_ok kind id cfg : access_ok (SetPrincipalLimits kind id cfg a).2.
Proof. recorded_by SetPrincipalLimits. Qed.

Lemma DeletePrincipalLimits_ok kind id : access_ok (DeletePrincipalLimits kind id a).2.
Proof. recorded_by DeletePrincipalLimits. Qed.

(** *** Vendor accounts *)

Lemma accounts_put id acc : acc_ID acc = id -> access_ok (a <| a_vendorAccounts ::= <[id := acc]> |>).
Proof.
  intros Hid. destruct HI as [HR HS HG HA]. split; cbn; [done|by destruct HS|groups_opened|].
  destruct HA as [A1 A2 A3 A4]. split; cbn; eauto with access.
  - intros; look; eauto.
  - intros k l Hl. destruct (A2 k l Hl) as (? & ? & ?). split_and!; [by apply grows_insert|done..].
  - intros k u Hu. destruct (A3 k u Hu). split; [by apply grows_insert|done].
Qed.

Lemma CreateVendorAccount_ok acc : access_ok (CreateVendorAccount acc a).2.
Proof. unfold CreateVendorAccount. case_match; [exact HI|]. by apply accounts_put. Qed.

(** A change in place keeps the account's identifier. *)
Lemma updateAccount_ok id f :
  (forall acc, acc_ID (f acc) = acc_ID acc) -> access_ok (updateAccount id f a).2.
Proof.
  intros Hf. unfold updateAccount. destruct (a_vendorAccounts a !! id) as [cur|] eqn:E; [|exact HI].
  apply accounts_put. rewrite Hf. by apply (ck_rows _ (ak_accounts _ HI)).
Qed.

(** Every link to an account is dropped. *)
Lemma drop_ok id (b : AccessStore) : access_ok b -> access_ok (dropVendorAccountFromResourceGroupsLocked id b).
Proof.
  intros [HR HS HG HA]. split; cbn; [done|by destruct HS| |by destruct HA]. groups_opened.
  rewrite joins_linked in *. intros x y [? _]%linked_drop. eauto.
Qed.

Lemma DeleteVendorAccount_ok id : access_ok (DeleteVendorAccount id a).2.
Proof.
  unfold DeleteVendorAccount. case_match; [exact HI|]. bool_hyps. destruct HI as [HR HS HG HA].
  split; cbn; [done|by destruct HS|groups_opened|].
  - rewrite joins_linked in *. intros x y [? Hne]%linked_drop. unfold in_table. rewrite lookup_delete_ne by done. by eapply G7.
  - destruct HA as [A1 A2 A3 A4]. split; cbn; eauto with access; intros; look; eauto.
    + match goal with H : a_vendorAccountModels _ !! _ = _ |- _ => destruct (A2 _ _ H) as (? & ? & ?) end.
      unfold in_table. by rewrite lookup_delete_ne.
    + match goal with H : a_vendorAccountUsage _ !! _ = _ |- _ => destruct (A3 _ _ H) as (? & ?) end.
      unfold in_table. by rewrite lookup_delete_ne.
Qed.

Lemma ClearVendorAccountSharing_ok id : access_ok (ClearVendorAccountSharing id a).2.
Proof.
  unfold ClearVendorAccountSharing. destruct (a_vendorAccounts a !! id) as [cur|] eqn:E; [|exact HI]. cbn [snd recordedOK].
  apply drop_ok. pose proof (accounts_put id (cur <| acc_ShareLevel := VendorShareLevelNone |> <| acc_SystemGroupID := "" |>)) as Hp.
  destruct Hp as [HR HS HG HA]; [cbn; by apply (ck_rows _ (ak_accounts _ HI))|]. split; cbn in *; [done|by destruct HS|by destruct HG|].
  destruct HA as [A1 A2 A3 A4]. split; cbn in *; eauto. intros k row Hr. look. by eapply A4.
Qed.

Lemma SetVendorAccountAdminGroup_ok id g now : access_ok (SetVendorAccountAdminGroup id g now a).2.
Proof. recorded_by SetVendorAccountAdminGroup. destruct HA as [A1 A2 A3 A4]. split; cbn; eauto with access. Qed.

Lemma RemoveVendorAccountAdminGroup_ok id g : access_ok (RemoveVendorAccountAdminGroup id g a).2.
Proof. recorded_by RemoveVendorAccountAdminGroup. destruct HA as [A1 A2 A3 A4]. split; cbn; eauto with access. Qed.

Lemma SetVendorAccountModels_ok id l : access_ok (SetVendorAccountModels id l a).2.
Proof.
  recorded_by SetVendorAccountModels. destruct HA as [A1 A2 A3 A4]. split; cbn; eauto with access. intros; look; [|by eauto].
  match goal with H : storedModels _ _ _ = Some _ |- _ => destruct (distinct_models _ _ _ _ H) as (? & _ & ?) end.
  eauto with access.
Qed.

Lemma UpsertVendorAccountUsage_ok u : access_ok (UpsertVendorAccountUsage u a).2.
Proof.
  recorded_by UpsertVendorAccountUsage. destruct HA as [A1 A2 A3 A4]. split; cbn; eauto with access. intros; look; eauto with access.
Qed.

End integrity.

#[local] Hint Resolve routing_ok CreateService_ok UpdateService_ok UpdateServiceSystemGroup_ok DeleteService_ok SetServiceDelegates_ok
  SetServiceAllowedModels_ok SetServiceAdminGroup_ok RemoveServiceAdminGroup_ok CreateResourceGroup_ok UpdateResourceGroup_ok
  UpdateResourceGroupSystemGroup_ok DeleteResourceGroup_ok SetResourceGroupAdminGroup_ok RemoveResourceGroupAdminGroup_ok
  SetResourceGroupServer_ok RemoveResourceGroupServer_ok SetResourceGroupVendorAccount_ok RemoveResourceGroupVendorAccount_ok
  SetResourceGroupProvision_ok RemoveResourceGroupProvision_ok SetResourceGroupProvisions_ok SetPrincipalLimits_ok
  DeletePrincipalLimits_ok CreateVendorAccount_ok DeleteVendorAccount_ok ClearVendorAccountSharing_ok SetVendorAccountAdminGroup_ok
  RemoveVendorAccountAdminGroup_ok SetVendorAccountModels_ok UpsertVendorAccountUsage_ok : access.

Lemma record_ok w a : access_write w -> access_ok a -> access_ok (w a).2.
Proof. intros Hw HI. destruct Hw; eauto with access; apply updateAccount_ok; done. Qed.

Lemma new_access_ok : access_ok NewAccessStore.
Proof.
  split; [apply empty_ok| | |]; split; cbn; unfold keyed, joins; intros; try done.
Qed.

Lemma records_ok ws : Forall access_write ws -> access_ok (runRecords ws).
Proof.
  unfold runRecords. generalize NewAccessStore, new_access_ok. induction ws as [|w ws IH]; intros a Ha Hw; [done|].
  inversion_clear Hw. cbn. apply IH; [|done]. by apply record_ok.
Qed.

Lemma refused_access w a e : access_write w -> (w a).1 = Some e -> (w a).2 = a.
Proof.
  intros Hw. destruct Hw as [w Hw| | | | | | | | | | | | | | | | | | | | | | | | | | | | | | | | | | | | ].
  { unfold onRouting. destruct (w (a_routing a)) as [e' m'] eqn:E. simpl. intros ->.
    pose proof (refused_keeps w (a_routing a) e Hw) as Hr. rewrite E in Hr. simpl in Hr. rewrite Hr by done. by destruct a. }
  all: try done.
  all: match goal with |- (?w _).1 = _ -> _ => let h := head w in unfold h end; unfold updateAccount;
    repeat case_match; done.
Qed.

(** C11.  What the store checks on writing stays true, whatever is written and in whatever
    order, in either half.  Every row is stored under its own key.  A row of telemetry,
    hardware, samples, availability, admin groups, budgets, reports or tokens belongs to a
    server that exists, a certificate to none or to one that exists; an application is of a
    server, a mapping of an application, a spec, benchmark, capability row or cache of a mapping,
    cards of a spec, a co-residency mode or matrix of an application and its rules of mappings
    that exist; members belong to a model group; delegates, allowlists and admin groups to a
    service, members, accounts, admin groups and provisions to a resource group, models, usage
    and admin groups to a vendor account that exists, and a resource group's members are
    servers and its accounts vendor accounts that exist.  No two applications of a server that
    have an identifier share a port or are both its agent's, no two servers share a token's
    secret, a mapping has one spec, and cards, group members and an account's models are
    listed once; the audio columns are ones a benchmark could have written, and no status
    of a service or resource group, failover mode, member order or visibility is blank.
    Three things the store itself does not check: owners may be recorded for a server that
    does not exist -- but no listing by owner then shows it --, a pin is only stored under its
    key, and the target of a provision is not looked up.  A write that is refused leaves the
    store exactly as it was. *)
Theorem access_integrity ws :
  Forall access_write ws ->
  access_ok (runRecords ws) /\
  (forall user server, server ∈ ServersByOwner user (a_routing (runRecords ws)) ->
     m_servers (a_routing (runRecords ws)) !! srv_ID server = Some server) /\
  forall w e, access_write w -> (w (runRecords ws)).1 = Some e -> (w (runRecords ws)).2 = runRecords ws.
Proof.
  intros Hw. pose proof (records_ok _ Hw) as HI. split_and!; [done| |intros w e; apply refused_access].
  intros user server. unfold ServersByOwner, rowsOf. intros (id & Hid & Hs)%list_elem_of_omap.
  by rewrite (so_servers _ (sto_servers _ (ak_routing _ HI)) _ _ Hs).
Qed.

(** ** Merging usage *)

(** The order in which partial readings are merged does not matter, and a reading merged
    again changes nothing. *)
Lemma mergePct_assoc p q r : mergePct (mergePct p q) r = mergePct p (mergePct q r).
Proof. unfold mergePct. destruct (f64_ltb r f64_zero) eqn:Er; rewrite ?Er; done. Qed.

Lemma mergeTime_assoc p q r : mergeTime (mergeTime p q) r = mergeTime p (mergeTime q r).
Proof. by destruct q, r. Qed.

Lemma mergeText_assoc p q r : mergeText (mergeText p q) r = mergeText p (mergeText q r).
Proof. unfold mergeText. destruct (String.eqb r "") eqn:Er; rewrite ?Er; done. Qed.

Lemma merge_assoc x y z :
  MergeVendorAccountUsage (MergeVendorAccountUsage x y) z = MergeVendorAccountUsage x (MergeVendorAccountUsage y z).
Proof. unfold MergeVendorAccountUsage. simpl. by rewrite !mergePct_assoc, !mergeTime_assoc, !mergeText_assoc. Qed.

Lemma merge_again x y : MergeVendorAccountUsage (MergeVendorAccountUsage x y) y = MergeVendorAccountUsage x y.
Proof.
  assert (Hp : forall p q, mergePct (mergePct p q) q = mergePct p q) by (intros p q; unfold mergePct; by destruct (f64_ltb q f64_zero)).
  assert (Ht : forall p q, mergeTime (mergeTime p q) q = mergeTime p q) by (by intros p []).
  assert (Hs : forall p q, mergeText (mergeText p q) q = mergeText p q) by (intros p q; unfold mergeText; by destruct (String.eqb q "")).
  unfold MergeVendorAccountUsage. simpl. by rewrite !Hp, !Ht, !Hs.
Qed.

(** ** Examples *)

Module Examples.

Definition agent1 : AIServer := plainServer "s1" ServerStatusActive "healthy".

Definition key : VendorAccount :=
  mkVendorAccount "acc1" "u2" VendorXAI VendorAuthAPIKey VendorAccountStatusActive "sealed:key" "x/" "https://api.x.ai" "" "" "full" "" 0 0.

(** A server and an account of u2 in a group that is provisioned for a team; an unknown
    server is refused; the account is raised to shared. *)
Definition records : list (AccessStore -> recorded) :=
  [onRouting (CreateAIServer agent1); CreateResourceGroup (mkResourceGroup "rg1" "lab" "" "" 1 1);
   SetResourceGroupServer "rg1" "s1" 2; SetResourceGroupServer "rg1" "s9" 2; SetResourceGroupProvision "rg1" ProvisionKindUserGroup "team";
   CreateVendorAccount key; SetVendorAccountModels "acc1" [mkVendorAccountModel "" "x/grok" "grok" "openai" "Grok"];
   SetResourceGroupVendorAccount "rg1" "acc1" 3; UpdateVendorAccountShareLevel "acc1" VendorShareLevelShared;
   CreateService (mkService "svc1" "ci" "" "" 1 1 ""); SetServiceDelegates "svc1" [mkServiceDelegate "u1" true]].

Definition shared : AccessStore := runRecords records.

Lemma records_written : Forall access_write records.
Proof. repeat (constructor; [constructor; try constructor|]). constructor. Qed.

Lemma access_integrity_witness :
  access_ok shared /\ ResourceGroupServers "rg1" shared = ["s1"] /\
  acc_ShareLevel <$> a_vendorAccounts shared !! "acc1" = Some VendorShareLevelShared.
Proof.
  split; [|split; vm_compute; reflexivity]. apply (access_integrity records). exact records_written.
Defined.

End Examples.
