(* ===== verification/Provisioning.v ===== *)
(** * The grants behind routing

    Models what the portal answers the resolver ([gateway/backend/internal/portal]): which
    servers a principal may use ([service_resource_group_provisions.go]: [AllowedServerIDs],
    [provisionedRGsForPrincipal]), which vendor accounts a principal may route to
    ([service_vendor_sharing_grant.go], with the effective share level of
    [service_vendor_accounts.go] and the switches of [service_vendor_sharing_flags.go] and
    [service_system_settings.go]), and the row filter shared by the listings
    ([service_visibility_filter.go]).  These are the gate and the enumerator the resolver's
    theorems take as parameters.

    A [PortalView] is what one call reads: a read that fails is [None].  The sharing switches
    are one reading per call, as the five-second cache gives them.  Go walks the granted
    groups in map order; a walk here is in the order of the set's elements, and nothing
    answered depends on it. *)

From Stdlib Require Import ZArith Lia.
From stdpp Require Import base tactics option list numbers strings gmap sorting.
From S2P Require Import Prelude Float64 RoutingTypes Limiter Filters Targets Groups Vendors MemoryStore AccessStore.
Local Open Scope Z_scope.
Local Open Scope go_scope.

(** ** Switches *)

Definition strconv_ParseBool (s : string) : option bool :=
  if bool_decide (s ∈ ["1"; "t"; "T"; "true"; "TRUE"; "True"]) then Some true
  else if bool_decide (s ∈ ["0"; "f"; "F"; "false"; "FALSE"; "False"]) then Some false
  else None.

(** A switch that is off unless it is set to a true value. *)
Definition optIn `{Unicode} (key : string) (values : gmap string string) : bool :=
  match values !! key with
  | None => false
  | Some raw => default false (strconv_ParseBool (strings_TrimSpace raw))
  end.

Definition resourceProvisioningEnforceKey : string := "resource_provisioning_enforce".
Definition vendorAccountSharingEnabledKey : string := "vendor_account_sharing_enabled".
Definition vendorSubscriptionSharingEnabledKey : string := "vendor_subscription_sharing_enabled".

Record vendorSharingFlagSet := mkSharingFlags {
  sf_sharing : bool;
  sf_subscriptionSharing : bool
}.

Definition vendorSharingFlagsTTL : duration := 5 * 1000000000.

(** [settings] is [None] without a settings store, [Some None] when the read fails; the
    second component is how long the cache may keep the answer. *)
Definition loadVendorSharingFlags `{Unicode} (settings : option (option (gmap string string))) : vendorSharingFlagSet * duration :=
  match settings with
  | Some (Some values) =>
      (mkSharingFlags (optIn vendorAccountSharingEnabledKey values) (optIn vendorSubscriptionSharingEnabledKey values),
       vendorSharingFlagsTTL)
  | _ => (mkSharingFlags false false, 0)
  end.

(** ** What one call reads *)

Record UserGroup := mkUserGroup {
  ug_ID : string;
  ug_Tier : string;
  ug_Name : string;
  ug_ParentGroupID : string;
  ug_OwnerUserID : string;
  ug_CreatedAt : time;
  ug_UpdatedAt : time
}.

Definition GroupTierUser : string := "user".
Definition GroupTierAdmin : string := "admin".
Definition GroupStateMember : string := "member".

Record PortalView := mkPortalView {
  po_settings : option (option (gmap string string));
  po_flags : vendorSharingFlagSet;
  po_UserGroupsForUser : option (string -> string -> string -> option (list UserGroup));   (* user, tier, state *)
  po_ResourceGroupIDsByProvisionTargets : string -> list string -> option (list string);
  po_ProvisionedResourceGroupIDs : option (gset string);
  po_ResourceGroupServers : string -> option (list string);
  po_ResourceGroupVendorAccounts : string -> option (list string);
  po_VendorAccountsByOwner : string -> option (list VendorAccount);
  po_VendorAccountByID : string -> lookup_result VendorAccount
}.

(** ** Provisioned resource groups *)

Definition groupIDs (groups : list UserGroup) : list string := ug_ID <$> groups.

(** [add] of [provisionedRGsForPrincipal]. *)
Definition addTargets (pv : PortalView) (kind : string) (ids : list string) (out : gset string) : option (gset string) :=
  if (length ids =? 0)%nat then Some out
  else rgs ← po_ResourceGroupIDsByProvisionTargets pv kind ids; Some (list_to_set rgs ∪ out).

Definition provisionedRGsForPrincipal (pv : PortalView) (principal : Token) : option (gset string) :=
  if IsService principal then
    if String.eqb (tok_ServiceID principal) "" then Some ∅
    else addTargets pv ProvisionKindService [tok_ServiceID principal] ∅
  else if String.eqb (tok_UserID principal) "" then Some ∅
  else
    out ← addTargets pv ProvisionKindUser [tok_UserID principal] ∅;
    match po_UserGroupsForUser pv with
    | None => Some out
    | Some groupsFor =>
        userGroups ← groupsFor (tok_UserID principal) GroupTierUser GroupStateMember;
        out ← addTargets pv ProvisionKindUserGroup (groupIDs userGroups) out;
        adminGroups ← groupsFor (tok_UserID principal) GroupTierAdmin GroupStateMember;
        addTargets pv ProvisionKindAdminGroup (groupIDs adminGroups) out
    end.

(** ** Servers *)

Definition ResourceProvisioningEnforce `{Unicode} (pv : PortalView) : bool :=
  match po_settings pv with
  | Some (Some values) => optIn resourceProvisioningEnforceKey values
  | _ => false
  end.

(** The members of the groups [rgIDs]. *)
Definition serversIn (pv : PortalView) (rgIDs : gset string) : option (gset string) :=
  lists ← mapM (po_ResourceGroupServers pv) (elements rgIDs); Some (list_to_set (concat lists)).

Definition AllowedServerIDs `{Unicode} (pv : PortalView) (principal : Token) (serverIDs : list string) : gset string :=
  let candidate : gset string := list_to_set serverIDs in
  if (length serverIDs =? 0)%nat then ∅
  else
    let enforce := ResourceProvisioningEnforce pv in
    match (rgIDs ← provisionedRGsForPrincipal pv principal; serversIn pv rgIDs) with
    | None => if enforce then ∅ else candidate
    | Some servers =>
        let allowed := candidate ∩ servers in
        if enforce then allowed
        else match (provRGs ← po_ProvisionedResourceGroupIDs pv; serversIn pv provRGs) with
             | None => candidate
             | Some restricted => filter (fun id => id ∈ allowed \/ id ∉ candidate ∩ restricted) candidate
             end
    end.

(** [filterByAllowedServers]: the rows on servers the principal may use, after one call for
    the distinct servers.  [allowedServerIDs] answers [None] for an error. *)
Definition filterByAllowedServers {T} (allowedServerIDs : list string -> option (gset string)) (rows : list T)
    (serverID : T -> string) (failOpen : bool) : option (list T) :=
  if (length rows =? 0)%nat then Some rows
  else
    match allowedServerIDs (distinctStrings (serverID <$> rows)) with
    | None => if failOpen then Some rows else None
    | Some allowed => Some (List.filter (fun r => bool_decide (serverID r ∈ allowed)) rows)
    end.

(** ** Vendor accounts *)

Definition vendorAccountSharedLevel (level : string) : bool :=
  String.eqb level VendorShareLevelShared || String.eqb level VendorShareLevelFull.

Definition effectiveVendorAccountShareLevel (pv : PortalView) (acc : VendorAccount) : string :=
  if negb (sf_sharing (po_flags pv)) then VendorShareLevelNone else acc_ShareLevel acc.

Definition vendorAccountSharedRoutable (pv : PortalView) (acc : VendorAccount) (subscriptionSharing : bool) : bool :=
  if negb (vendorAccountSharedLevel (effectiveVendorAccountShareLevel pv acc)) then false
  else String.eqb (acc_AuthType acc) VendorAuthAPIKey || subscriptionSharing.

Definition ownVendorAccountsForRouting (pv : PortalView) (principal : Token) : option (list VendorAccount) :=
  if String.eqb (tok_UserID principal) "" then Some []
  else po_VendorAccountsByOwner pv (tok_UserID principal).

Definition vendorAccountIDsInResourceGroups (pv : PortalView) (rgIDs : gset string) (skip : list VendorAccount) : option (list string) :=
  linked ← mapM (po_ResourceGroupVendorAccounts pv) (elements rgIDs);
  Some (sort_Slice (less_string (fun id => id)) (distinctFrom (list_to_set (acc_ID <$> skip)) (concat linked))).

Fixpoint sharedLoop (pv : PortalView) (subscriptionSharing : bool) (ids : list string) : option (list VendorAccount) :=
  match ids with
  | [] => Some []
  | id :: ids =>
      match po_VendorAccountByID pv id with
      | ReadFailed => None
      | NotFound => sharedLoop pv subscriptionSharing ids
      | Found acc =>
          if vendorAccountSharedRoutable pv acc subscriptionSharing
          then cons acc <$> sharedLoop pv subscriptionSharing ids
          else sharedLoop pv subscriptionSharing ids
      end
  end.

Definition sharedVendorAccountsForRouting (pv : PortalView) (principal : Token) (own : list VendorAccount)
  : option (list VendorAccount) :=
  if negb (sf_sharing (po_flags pv)) then Some []
  else
    rgIDs ← provisionedRGsForPrincipal pv principal;
    candidateIDs ← vendorAccountIDsInResourceGroups pv rgIDs own;
    sharedLoop pv (sf_subscriptionSharing (po_flags pv)) candidateIDs.

Definition VendorAccountsForRouting (pv : PortalView) (principal : Token) : option (list VendorAccount) :=
  own ← ownVendorAccountsForRouting pv principal;
  match sharedVendorAccountsForRouting pv principal own with
  | None => Some own
  | Some shared => Some (own ++ shared)
  end.

(** ** The portal over the in-memory store *)

(** [groups] answers the memberships of the directory, which is not part of the store. *)
Definition portalOf (settings : gmap string string) (flags : vendorSharingFlagSet)
    (groups : string -> string -> string -> list UserGroup) (a : AccessStore) : PortalView := {|
  po_settings := Some (Some settings);
  po_flags := flags;
  po_UserGroupsForUser := Some (fun user tier state => Some (groups user tier state));
  po_ResourceGroupIDsByProvisionTargets kind ids := Some (ResourceGroupIDsByProvisionTargets kind ids a);
  po_ProvisionedResourceGroupIDs := Some (ProvisionedResourceGroupIDs a);
  po_ResourceGroupServers rgID := Some (ResourceGroupServers rgID a);
  po_ResourceGroupVendorAccounts rgID := Some (ResourceGroupVendorAccounts rgID a);
  po_VendorAccountsByOwner user := Some (VendorAccountsByOwner user a);
  po_VendorAccountByID id := match VendorAccountByID id a with inl acc => Found acc | inr _ => NotFound end
|}.
