(* ===== verification/ProvisioningProps.v ===== *)
(** * Properties of the grants

    Over an intact store the gate and the enumerator grant exactly what the links and
    provisions say; a read that fails never grants under enforcement, never refuses without
    it, and never shares an account; and a request is served only by what was granted. *)

From Stdlib Require Import ZArith Lia Sorted.
From stdpp Require Import base tactics option list numbers strings gmap sorting.
From S2P Require Import Prelude Float64 RoutingTypes Limiter Selection SelectionProps Filters FiltersProps Targets Groups GroupsProps Resolving ResolvingProps Vendors VendorsProps MemoryStore MemoryStoreIntegrity MemoryStoreProps AccessStore AccessStoreProps Provisioning.
Local Open Scope Z_scope.
Local Open Scope go_scope.

(** ** What the store answers *)

Lemma sortedByFirstSeen_elem (t : gmap string time) x : x ∈ sortedByFirstSeen t <-> in_table t x.
Proof.
  unfold sortedByFirstSeen, in_table. rewrite list_elem_of_fmap. setoid_rewrite sort_Slice_elem. split.
  - intros ([k v] & -> & Hin%elem_of_map_to_list). eauto.
  - intros [v Hv]. exists (x, v). split; [done|]. by apply elem_of_map_to_list.
Qed.

Lemma elem_of_concat {A} (ls : list (list A)) x : x ∈ concat ls <-> exists l, x ∈ l /\ l ∈ ls.
Proof. rewrite list_elem_of_In, in_concat. setoid_rewrite list_elem_of_In. naive_solver. Qed.

(** Reads that all succeed. *)
Lemma mapM_all {A B} (f : A -> B) (l : list A) : mapM (fun x => Some (f x)) l = Some (f <$> l).
Proof. induction l as [|x l IH]; [done|]. simpl. by rewrite IH. Qed.

Section store.
Context (a : AccessStore).

Lemma ResourceGroupServers_elem rg id : id ∈ ResourceGroupServers rg a <-> linked (resourceGroupServers a) rg id.
Proof. apply sortedByFirstSeen_elem. Qed.

Lemma ResourceGroupVendorAccounts_elem rg id :
  id ∈ ResourceGroupVendorAccounts rg a <-> linked (a_resourceGroupVendorAccounts a) rg id.
Proof. apply sortedByFirstSeen_elem. Qed.

(** [p] is a provision of group [rg]. *)
Definition provision (rg : string) (p : ResourceGroupProvision) : Prop := p ∈ map_get ∅ (a_resourceGroupProvisions a) rg.

Lemma provision_row rg p : provision rg p -> in_table (a_resourceGroupProvisions a) rg.
Proof.
  unfold provision, map_get, in_table. destruct (a_resourceGroupProvisions a !! rg); [eauto|]. simpl. set_solver.
Qed.

Hypothesis HI : access_ok a.

Lemma provision_group rg p : provision rg p -> has_key (a_resourceGroups a) rg = true.
Proof. intros [row Hr]%provision_row. apply has_key_true. eapply (rk_provisions _ (ak_groups _ HI)), Hr. Qed.

Lemma ByProvisionTargets_elem kind ids rg :
  rg ∈ ResourceGroupIDsByProvisionTargets kind ids a <-> exists target, target ∈ ids /\ provision rg (mkProvision kind target).
Proof.
  unfold ResourceGroupIDsByProvisionTargets. destruct (Nat.eqb_spec (length ids) 0) as [El|_].
  { apply nil_length_inv in El as ->. split; [by intros ?%elem_of_nil|]. by intros (? & ?%elem_of_nil & _). }
  rewrite elem_of_filter_bool, sortedKeys_elem, andb_true_iff, existsb_exists. split.
  - intros (_ & _ & p & Hp%list_elem_of_In & Hm). rewrite elem_of_elements in Hp. bool_hyps. destruct p; simpl in *; subst; eauto.
  - intros (target & Ht & Hp). split_and!; [by eapply provision_row|by eapply provision_group|].
    exists (mkProvision kind target). split; [by apply list_elem_of_In, elem_of_elements|].
    simpl. rewrite String.eqb_refl. by apply bool_decide_true.
Qed.

Lemma Provisioned_elem rg : rg ∈ ProvisionedResourceGroupIDs a <-> exists p, provision rg p.
Proof.
  unfold ProvisionedResourceGroupIDs. rewrite elem_of_list_to_set, elem_of_filter_bool, sortedKeys_elem, andb_true_iff, negb_true_iff, Nat.eqb_neq.
  split.
  - intros (_ & _ & Hs). apply set_choose_L. intros E. apply Hs. by rewrite E.
  - intros [p Hp]. split_and!; [by eapply provision_row|by eapply provision_group|].
    intros Hs%size_empty_inv. unfold provision in Hp. set_solver.
Qed.

End store.

(** ** Exact grants *)

Section grants.
Context `{Unicode} (settings : gmap string string) (flags : vendorSharingFlagSet)
  (groups : string -> string -> string -> list UserGroup) (a : AccessStore) (HI : access_ok a) (principal : Token).

Local Notation pv := (portalOf settings flags groups a).

(** [p] is for the principal: a service by its own provision, a user by theirs or by that of
    a group they are a member of. *)
Definition isFor (p : ResourceGroupProvision) : Prop :=
  if IsService principal
  then rp_Kind p = ProvisionKindService /\ rp_TargetID p = tok_ServiceID principal /\ tok_ServiceID principal <> ""
  else tok_UserID principal <> "" /\
    (rp_Kind p = ProvisionKindUser /\ rp_TargetID p = tok_UserID principal \/
     rp_Kind p = ProvisionKindUserGroup /\ rp_TargetID p ∈ groupIDs (groups (tok_UserID principal) GroupTierUser GroupStateMember) \/
     rp_Kind p = ProvisionKindAdminGroup /\ rp_TargetID p ∈ groupIDs (groups (tok_UserID principal) GroupTierAdmin GroupStateMember)).

Definition grantedGroup (rg : string) : Prop := exists p, provision a rg p /\ isFor p.
Definition grantedServer (id : string) : Prop := exists rg, linked (resourceGroupServers a) rg id /\ grantedGroup rg.
Definition restrictedServer (id : string) : Prop := exists rg p, linked (resourceGroupServers a) rg id /\ provision a rg p.

Lemma addTargets_elem kind ids out :
  exists out', addTargets pv kind ids out = Some out' /\
    forall rg, rg ∈ out' <-> rg ∈ out \/ exists target, target ∈ ids /\ provision a rg (mkProvision kind target).
Proof.
  unfold addTargets. destruct (Nat.eqb_spec (length ids) 0) as [El|_].
  - apply nil_length_inv in El as ->. exists out. split; [done|]. intros rg. split; [by left|].
    intros [?|(? & ?%elem_of_nil & _)]; done.
  - simpl. eexists. split; [done|]. intros rg. rewrite elem_of_union, elem_of_list_to_set, (ByProvisionTargets_elem a HI). tauto.
Qed.

Lemma provisionedRGs_exact :
  exists rgs, provisionedRGsForPrincipal pv principal = Some rgs /\ forall rg, rg ∈ rgs <-> grantedGroup rg.
Proof.
  unfold provisionedRGsForPrincipal, grantedGroup, isFor. destruct (IsService principal).
  - destruct (String.eqb_spec (tok_ServiceID principal) "") as [E|Hne].
    + exists ∅. split; [done|]. intros rg. split; [set_solver|]. by intros (? & _ & _ & _ & ?).
    + destruct (addTargets_elem ProvisionKindService [tok_ServiceID principal] ∅) as (out & -> & Ho). exists out. split; [done|].
      intros rg. rewrite Ho. setoid_rewrite list_elem_of_singleton. split.
      * intros [?|(target & -> & Hp)]; [set_solver|]. exists (mkProvision ProvisionKindService (tok_ServiceID principal)). done.
      * intros ([kind target] & Hp & Hk & Ht & _). right. simpl in *. subst. eauto.
  - destruct (String.eqb_spec (tok_UserID principal) "") as [E|Hne].
    + exists ∅. split; [done|]. intros rg. split; [set_solver|]. by intros (? & _ & ? & _).
    + destruct (addTargets_elem ProvisionKindUser [tok_UserID principal] ∅) as (o1 & -> & H1). simpl.
      destruct (addTargets_elem ProvisionKindUserGroup (groupIDs (groups (tok_UserID principal) GroupTierUser GroupStateMember)) o1) as (o2 & -> & H2). simpl.
      destruct (addTargets_elem ProvisionKindAdminGroup (groupIDs (groups (tok_UserID principal) GroupTierAdmin GroupStateMember)) o2) as (o3 & -> & H3).
      exists o3. split; [done|]. intros rg. rewrite H3, H2, H1. setoid_rewrite list_elem_of_singleton. split.
      * intros [[[?|(target & -> & Hp)]|(target & Ht & Hp)]|(target & Ht & Hp)]; [set_solver|eexists; split; [exact Hp|]; split; [done|simpl; auto 6]..].
      * intros ([kind target] & Hp & _ & Hk). simpl in Hk. destruct Hk as [[-> ->]|[[-> Ht]|[-> Ht]]]; eauto 7.
Qed.

Lemma serversIn_exact (rgs : gset string) :
  exists servers, serversIn pv rgs = Some servers /\
    forall id, id ∈ servers <-> exists rg, rg ∈ rgs /\ linked (resourceGroupServers a) rg id.
Proof.
  unfold serversIn. simpl.
  rewrite mapM_all. simpl. eexists. split; [done|]. intros id. rewrite elem_of_list_to_set, elem_of_concat. setoid_rewrite list_elem_of_fmap.
  setoid_rewrite <- ResourceGroupServers_elem. split.
  - intros (l & Hl & rg & -> & Hr%elem_of_elements). eauto.
  - intros (rg & Hr & Hl). exists (ResourceGroupServers rg a). split; [done|]. exists rg. by rewrite elem_of_elements.
Qed.

Lemma allowed_granted ids id :
  id ∈ AllowedServerIDs pv principal ids <->
  id ∈ ids /\ (grantedServer id \/ (ResourceProvisioningEnforce pv = false /\ ~ restrictedServer id)).
Proof.
  unfold AllowedServerIDs. destruct (Nat.eqb_spec (length ids) 0) as [El|_].
  { apply nil_length_inv in El as ->. set_solver. }
  destruct provisionedRGs_exact as (rgs & -> & Hrg). simpl. destruct (serversIn_exact rgs) as (servers & -> & Hs).
  assert (Hg : id ∈ servers <-> grantedServer id).
  { rewrite Hs. unfold grantedServer. setoid_rewrite Hrg. naive_solver. }
  destruct (ResourceProvisioningEnforce pv).
  - rewrite elem_of_intersection, elem_of_list_to_set, Hg. naive_solver.
  - destruct (serversIn_exact (ProvisionedResourceGroupIDs a)) as (restricted & -> & Hr).
    assert (Hres : id ∈ restricted <-> restrictedServer id).
    { rewrite Hr. unfold restrictedServer. setoid_rewrite (Provisioned_elem a HI). naive_solver. }
    rewrite elem_of_filter, !elem_of_intersection, elem_of_list_to_set, Hg, Hres. tauto.
Qed.

(** C9.  Over an intact store a principal may use exactly the servers asked about that are
    members of a resource group provisioned for them -- a service by its own provision, a user
    by theirs or that of a group they are a member of -- and, unless provisioning is enforced,
    those that are in no provisioned group at all. *)
Theorem allowed_exact ids id :
  id ∈ AllowedServerIDs pv principal ids <->
  id ∈ ids /\ (grantedServer id \/ (ResourceProvisioningEnforce pv = false /\ ~ restrictedServer id)).
Proof. apply allowed_granted. Qed.

(** A listing shows a principal the rows on the servers they may use, in their order and as
    often as they were listed. *)
Lemma filterByAllowed_granted {T} (rows : list T) (serverID : T -> string) failOpen :
  exists kept : list T, filterByAllowedServers (fun ids => Some (AllowedServerIDs pv principal ids)) rows serverID failOpen = Some kept /\
    kept `sublist_of` rows /\
    forall r, r ∈ kept <-> r ∈ rows /\
      (grantedServer (serverID r) \/ (ResourceProvisioningEnforce pv = false /\ ~ restrictedServer (serverID r))).
Proof.
  unfold filterByAllowedServers. destruct (Nat.eqb_spec (length rows) 0) as [El|_].
  { apply nil_length_inv in El as ->. exists []. set_solver. }
  eexists. split_and!; [done|apply filter_sublist|intros r].
  rewrite elem_of_filter_bool, bool_decide_eq_true, allowed_granted, distinctStrings_elem, list_elem_of_fmap.
  naive_solver.
Qed.

(** *** Vendor accounts *)

Definition byID (x y : VendorAccount) : Prop := String.ltb (acc_ID x) (acc_ID y) = true.

Lemma account_row id acc : a_vendorAccounts a !! id = Some acc -> acc_ID acc = id.
Proof. apply (ck_rows _ (ak_accounts _ HI)). Qed.

(** Rows read in the order of their keys are in the order of their identifiers. *)
Lemma rowsOf_sorted ids :
  StronglySorted (fun x y => String.ltb x y = true) ids -> StronglySorted byID (rowsOf (a_vendorAccounts a) ids).
Proof. apply sorted_omap. intros x y c d Hlt Hc%account_row Hd%account_row. unfold byID. by rewrite Hc, Hd. Qed.

Lemma rowsOf_elem ids acc : acc ∈ rowsOf (a_vendorAccounts a) ids <-> a_vendorAccounts a !! acc_ID acc = Some acc /\ acc_ID acc ∈ ids.
Proof.
  unfold rowsOf. rewrite list_elem_of_omap. split.
  - intros (id & Hid & Hl). by rewrite (account_row _ _ Hl).
  - intros [Hl Hid]. eauto.
Qed.

(** The accounts the principal owns. *)
Definition owned (acc : VendorAccount) : Prop :=
  a_vendorAccounts a !! acc_ID acc = Some acc /\ tok_UserID principal <> "" /\ acc_OwnerUserID acc = tok_UserID principal.

Lemma own_exact :
  exists own, ownVendorAccountsForRouting pv principal = Some own /\ StronglySorted byID own /\ forall acc, acc ∈ own <-> owned acc.
Proof.
  unfold ownVendorAccountsForRouting, owned. destruct (String.eqb_spec (tok_UserID principal) "") as [E|Hne].
  { exists []. split_and!; [done|constructor|]. intros acc. split; [by intros ?%elem_of_nil|]. by intros (_ & ? & _). }
  eexists. split; [done|]. unfold VendorAccountsByOwner, vendorAccountsLocked, rowsByKey. split.
  - apply sorted_filter, rowsOf_sorted, sortedKeys_sorted.
  - intros acc. rewrite elem_of_filter_bool, rowsOf_elem, sortedKeys_elem, String.eqb_eq. naive_solver.
Qed.

Lemma candidates_exact rgs skip :
  exists ids, vendorAccountIDsInResourceGroups pv rgs skip = Some ids /\ StronglySorted (fun x y => String.ltb x y = true) ids /\
    forall id, id ∈ ids <-> id ∉ acc_ID <$> skip /\ exists rg, rg ∈ rgs /\ linked (a_resourceGroupVendorAccounts a) rg id.
Proof.
  unfold vendorAccountIDsInResourceGroups. simpl. rewrite mapM_all. simpl. eexists. split; [done|].
  set (ids := distinctFrom _ _). split.
  - apply strict_sorted, distinctFrom_nodup.
  - intros id. rewrite (sort_Slice_elem (less_string (fun id => id))). unfold ids. rewrite distinctFrom_elem, elem_of_list_to_set, elem_of_concat.
    setoid_rewrite list_elem_of_fmap. setoid_rewrite <- ResourceGroupVendorAccounts_elem. split.
    + intros [(l & Hl & rg & -> & Hr%elem_of_elements) Hn]. eauto.
    + intros [Hn (rg & Hr & Hl)]. split; [|done]. exists (ResourceGroupVendorAccounts rg a). split; [done|].
      exists rg. by rewrite elem_of_elements.
Qed.

Lemma sharedLoop_exact sub ids :
  sharedLoop pv sub ids = Some (List.filter (fun acc => vendorAccountSharedRoutable pv acc sub) (rowsOf (a_vendorAccounts a) ids)).
Proof.
  induction ids as [|id ids IH]; [done|]. simpl. unfold VendorAccountByID, byKey. destruct (a_vendorAccounts a !! id) as [acc|]; simpl; [|done].
  rewrite IH. by destruct (vendorAccountSharedRoutable pv acc sub).
Qed.

(** The accounts shared with the principal. *)
Definition sharedWith (acc : VendorAccount) : Prop :=
  a_vendorAccounts a !! acc_ID acc = Some acc /\ sf_sharing flags = true /\
  (acc_ShareLevel acc = VendorShareLevelShared \/ acc_ShareLevel acc = VendorShareLevelFull) /\
  (acc_AuthType acc = VendorAuthAPIKey \/ sf_subscriptionSharing flags = true) /\
  exists rg, linked (a_resourceGroupVendorAccounts a) rg (acc_ID acc) /\ grantedGroup rg.

Lemma sharedRoutable_spec acc :
  sf_sharing flags = true ->
  vendorAccountSharedRoutable pv acc (sf_subscriptionSharing flags) = true <->
  (acc_ShareLevel acc = VendorShareLevelShared \/ acc_ShareLevel acc = VendorShareLevelFull) /\
  (acc_AuthType acc = VendorAuthAPIKey \/ sf_subscriptionSharing flags = true).
Proof.
  intros Hs. unfold vendorAccountSharedRoutable, effectiveVendorAccountShareLevel, vendorAccountSharedLevel. simpl. rewrite Hs. simpl.
  destruct (String.eqb_spec (acc_ShareLevel acc) VendorShareLevelShared), (String.eqb_spec (acc_ShareLevel acc) VendorShareLevelFull); simpl;
    rewrite ?orb_true_iff, ?String.eqb_eq; naive_solver.
Qed.

Lemma vendor_grant :
  exists own shared, VendorAccountsForRouting pv principal = Some (own ++ shared) /\
    StronglySorted byID own /\ StronglySorted byID shared /\
    (forall acc, acc ∈ own <-> owned acc) /\ (forall acc, acc ∈ shared <-> sharedWith acc /\ ~ owned acc).
Proof.
  destruct own_exact as (own & Eo & Hos & Ho). unfold VendorAccountsForRouting. rewrite Eo. simpl. exists own.
  unfold sharedVendorAccountsForRouting. simpl. destruct (sf_sharing flags) eqn:Es; simpl.
  2: { exists []. split_and!; [done|done|constructor|done|]. intros acc. split; [by intros ?%elem_of_nil|].
       intros [(_ & E & _) _]. congruence. }
  destruct provisionedRGs_exact as (rgs & -> & Hrg). simpl. destruct (candidates_exact rgs own) as (ids & -> & Hs & Hids). simpl.
  rewrite sharedLoop_exact. eexists. split_and!; [done|done|by apply sorted_filter, rowsOf_sorted|done|].
  intros acc. rewrite elem_of_filter_bool, rowsOf_elem, (sharedRoutable_spec acc Es), Hids. unfold sharedWith. setoid_rewrite Hrg.
  assert (Hown : a_vendorAccounts a !! acc_ID acc = Some acc -> acc_ID acc ∈ acc_ID <$> own <-> owned acc).
  { intros Hl. rewrite list_elem_of_fmap. split; [|intros Hw; exists acc; by rewrite Ho]. intros (x & Ex & Hx%Ho).
    destruct Hx as (Hx & ? & ?). rewrite <- Ex in Hx. assert (x = acc) as -> by congruence. by split_and!. }
  split.
  - intros [[Hl [Hn (rg & Hr & Hk)]] [H1 H2]]. rewrite (Hown Hl) in Hn. split; [|done]. split_and!; eauto.
  - intros [(Hl & _ & H1 & H2 & rg & Hk & Hr) Hn]. rewrite (Hown Hl). split_and!; eauto.
Qed.

(** C20.  Over an intact store a principal may route to exactly the accounts they own and
    the accounts shared with them: stored with the level shared or full while sharing is on,
    with an API key or while subscriptions may be shared, and linked to a resource group
    provisioned for them.  Their own come first, each block in the order of its identifiers,
    and none is listed twice. *)
Theorem vendor_grant_exact :
  exists own shared, VendorAccountsForRouting pv principal = Some (own ++ shared) /\
    StronglySorted byID own /\ StronglySorted byID shared /\
    (forall acc, acc ∈ own <-> owned acc) /\ (forall acc, acc ∈ shared <-> sharedWith acc /\ ~ owned acc).
Proof. apply vendor_grant. Qed.

End grants.

(** ** When reads fail *)

Section failures.
Context `{Unicode} (pv : PortalView) (principal : Token).

(** Some read answered that the group is granted and the server a member of it. *)
Definition answeredGrant (id : string) : Prop :=
  exists rgs rg servers, provisionedRGsForPrincipal pv principal = Some rgs /\ rg ∈ rgs /\
    po_ResourceGroupServers pv rg = Some servers /\ id ∈ servers.

Lemma mapM_elem {A B} (f : A -> option B) l k y : mapM f l = Some k -> y ∈ k <-> exists x, x ∈ l /\ f x = Some y.
Proof.
  intros Hk%mapM_Some. induction Hk as [|x z l k Hx Hk IH]; [set_solver|]. rewrite elem_of_cons, IH.
  setoid_rewrite elem_of_cons. split; [naive_solver|]. intros (x' & [->|Hin] & Hy); [left; congruence|eauto].
Qed.

Lemma serversIn_elem rgs servers id :
  serversIn pv rgs = Some servers ->
  id ∈ servers <-> exists rg l, rg ∈ rgs /\ po_ResourceGroupServers pv rg = Some l /\ id ∈ l.
Proof.
  unfold serversIn. destruct (mapM _ _) as [lists|] eqn:E; [|done]. intros [= <-].
  rewrite elem_of_list_to_set, elem_of_concat. setoid_rewrite (mapM_elem _ _ _ _ E). setoid_rewrite elem_of_elements. naive_solver.
Qed.

(** Some read answered that the account is linked to a granted group, and the account. *)
Definition answeredShare (acc : VendorAccount) : Prop :=
  exists rgs rg linked id, provisionedRGsForPrincipal pv principal = Some rgs /\ rg ∈ rgs /\
    po_ResourceGroupVendorAccounts pv rg = Some linked /\ id ∈ linked /\ po_VendorAccountByID pv id = Found acc.

Lemma sharedLoop_elem sub ids shared acc :
  sharedLoop pv sub ids = Some shared -> acc ∈ shared ->
  vendorAccountSharedRoutable pv acc sub = true /\ exists id, id ∈ ids /\ po_VendorAccountByID pv id = Found acc.
Proof.
  revert shared. induction ids as [|id ids IH]; intros shared; simpl; [by intros [= <-] ?%elem_of_nil|].
  setoid_rewrite elem_of_cons.
  destruct (po_VendorAccountByID pv id) as [x| |] eqn:E; [|intros Hs Ha; destruct (IH _ Hs Ha) as (? & ? & ? & ?); eauto|done].
  destruct (vendorAccountSharedRoutable pv x sub) eqn:Er.
  - destruct (sharedLoop pv sub ids) as [rest|]; [|done]. intros [= <-]. intros [->|Ha]%elem_of_cons; [by eauto|].
    destruct (IH _ eq_refl Ha) as (? & ? & ? & ?); eauto.
  - intros Hs Ha. destruct (IH _ Hs Ha) as (? & ? & ? & ?); eauto.
Qed.

Lemma shared_answered own shared acc :
  sharedVendorAccountsForRouting pv principal own = Some shared -> acc ∈ shared ->
  sf_sharing (po_flags pv) = true /\ vendorAccountSharedLevel (acc_ShareLevel acc) = true /\
  (acc_AuthType acc = VendorAuthAPIKey \/ sf_subscriptionSharing (po_flags pv) = true) /\ answeredShare acc.
Proof.
  unfold sharedVendorAccountsForRouting. destruct (sf_sharing (po_flags pv)) eqn:Es; simpl; [|by intros [= <-] ?%elem_of_nil].
  destruct (provisionedRGsForPrincipal pv principal) as [rgs|] eqn:Er; [|done]. simpl.
  unfold vendorAccountIDsInResourceGroups. destruct (mapM _ _) as [lists|] eqn:El; [|done]. simpl.
  intros Hs Ha. destruct (sharedLoop_elem _ _ _ _ Hs Ha) as (Hr & id & Hid & Hf).
  unfold vendorAccountSharedRoutable, effectiveVendorAccountShareLevel in Hr. rewrite Es in Hr. simpl in Hr.
  destruct (vendorAccountSharedLevel (acc_ShareLevel acc)); [|done]. simpl in Hr. rewrite orb_true_iff, String.eqb_eq in Hr. split_and!; [done..|].
  rewrite (sort_Slice_elem (less_string (fun id => id))), distinctFrom_elem, elem_of_concat in Hid. destruct Hid as [(l & Hl & Hin) _].
  apply (mapM_elem _ _ _ _ El) in Hin as (rg & Hrg%elem_of_elements & Hg). exists rgs, rg, l, id. done.
Qed.

(** C21.  Failed reads never widen a grant.  Under enforcement a server is granted only if
    reads that succeeded say it is a member of a group provisioned for the principal; without
    it a server is refused only if they say that it is in some provisioned group and not in
    one of the principal's.  Of the vendor accounts the principal's own are always answered --
    the call fails only if they cannot be read -- and one of another owner is added only at a
    shared level, with sharing on, and on the word of reads that succeeded. *)
Theorem grants_fail_safe ids :
  (ResourceProvisioningEnforce pv = true -> forall id, id ∈ AllowedServerIDs pv principal ids -> id ∈ ids /\ answeredGrant id) /\
  (ResourceProvisioningEnforce pv = false -> forall id, id ∈ ids -> id ∉ AllowedServerIDs pv principal ids ->
     ~ answeredGrant id /\
     exists rgs rg servers, po_ProvisionedResourceGroupIDs pv = Some rgs /\ rg ∈ rgs /\
       po_ResourceGroupServers pv rg = Some servers /\ id ∈ servers) /\
  match VendorAccountsForRouting pv principal with
  | None => tok_UserID principal <> "" /\ po_VendorAccountsByOwner pv (tok_UserID principal) = None
  | Some l => exists own shared, ownVendorAccountsForRouting pv principal = Some own /\ l = own ++ shared /\
      forall acc, acc ∈ shared ->
        sf_sharing (po_flags pv) = true /\ vendorAccountSharedLevel (acc_ShareLevel acc) = true /\
        (acc_AuthType acc = VendorAuthAPIKey \/ sf_subscriptionSharing (po_flags pv) = true) /\ answeredShare acc
  end.
Proof.
  unfold AllowedServerIDs, answeredGrant. split_and!.
  - intros -> id. destruct (Nat.eqb_spec (length ids) 0); [set_solver|].
    destruct (provisionedRGsForPrincipal pv principal) as [rgs|]; simpl; [|set_solver].
    destruct (serversIn pv rgs) as [servers|] eqn:Es; [|set_solver].
    rewrite elem_of_intersection, elem_of_list_to_set, (serversIn_elem _ _ _ Es). intros (? & rg & l & ? & ? & ?).
    split; [done|]. eauto 8.
  - intros -> id Hid. destruct (Nat.eqb_spec (length ids) 0) as [El|_]; [apply nil_length_inv in El as ->; by apply elem_of_nil in Hid|].
    assert (Hc : id ∈ (list_to_set ids : gset string)) by (by apply elem_of_list_to_set).
    destruct (provisionedRGsForPrincipal pv principal) as [rgs|]; simpl; [|done].
    destruct (serversIn pv rgs) as [servers|] eqn:Es; [|done].
    destruct (po_ProvisionedResourceGroupIDs pv) as [prov|]; simpl; [|done].
    destruct (serversIn pv prov) as [restricted|] eqn:Ep; [|done].
    rewrite elem_of_filter, !elem_of_intersection, (serversIn_elem _ _ _ Es), (serversIn_elem _ _ _ Ep). intros Hn.
    split.
    + intros (rgs' & rg & l & [= <-] & ? & ? & ?). apply Hn. split; [|done]. left. split; [done|]. eauto.
    + destruct (decide (id ∈ restricted)) as [Hr|Hr]; rewrite (serversIn_elem _ _ _ Ep) in Hr.
      * destruct Hr as (rg & l & ? & ? & ?). eauto 8.
      * exfalso. apply Hn. tauto.
  - unfold VendorAccountsForRouting. destruct (ownVendorAccountsForRouting pv principal) as [own|] eqn:Eo; simpl.
    + destruct (sharedVendorAccountsForRouting pv principal own) as [shared|] eqn:Es.
      * exists own, shared. split_and!; [done..|]. intros acc. by apply (shared_answered own).
      * exists own, []. rewrite app_nil_r. split_and!; [done..|]. by intros acc ?%elem_of_nil.
    + unfold ownVendorAccountsForRouting in Eo. by destruct (String.eqb_spec (tok_UserID principal) "").
Qed.

End failures.

(** ** From the grant to the request *)

Section routing.
Context `{Unicode} (settings : gmap string string) (flags : vendorSharingFlagSet)
  (groups : string -> string -> string -> list UserGroup) (a : AccessStore) (HI : access_ok a).
Context (affinityID : AffinityKey -> string) (decodeNames : string -> option (list string)).
Context (env : Env) (vv : VendorView) (token : Token) (req : Request) (now : time).
Context (f : facts) (Hstore : rowwise (e_store env) f)
  (Hgroup : forall i t, t ∈ e_groupTurns env i -> rowwise (gt_store t) f)
  (Hpin : forall id rows, pv_MappingCapabilities (e_pin env) id = Some rows -> rows = f_caps f id).

Local Notation pv := (portalOf settings flags groups a).

(** C5.  A request without a server override is served only by what its principal was granted,
    with the portal over an intact store as the resolver's gate and enumerator: a mapping that
    serves it is on a server of a resource group provisioned for the principal or, where
    provisioning is not enforced, in no provisioned group; an account that serves it is the
    principal's own or shared with them.  An override bypasses provisioning: a request that
    names a server is served by a mapping on that very server or not at all, never by an
    account. *)
Theorem served_is_granted :
  sv_AllowedServerIDs (e_store env) = Some (fun ids => Some (AllowedServerIDs pv token ids)) ->
  vv_enumerator vv = Some (VendorAccountsForRouting pv) ->
  match (Resolve affinityID decodeNames true env vv token req now).1 with
  | OnMapping c t =>
      (req_ServerOverrideID req = "" ->
        grantedServer groups a token (srv_ID (mc_Server c)) \/
        (ResourceProvisioningEnforce pv = false /\ ~ restrictedServer a (srv_ID (mc_Server c)))) /\
      (req_ServerOverrideID req <> "" -> srv_ID (mc_Server c) = req_ServerOverrideID req)
  | OnAccount acc t =>
      req_ServerOverrideID req = "" /\ (owned a token acc \/ sharedWith flags groups a token acc)
  | NotRouted _ | StillRouting => True
  end.
Proof.
  intros Hgate Henum.
  pose proof (Resolve_permitted affinityID decodeNames env vv token req now f Hstore Hgroup Hpin) as HP.
  pose proof (Resolve_account affinityID decodeNames env vv token req now) as HA.
  destruct (Resolve _ _ _ _ _ _ _ _).1 as [c t|acc t|e|]; [|..|done|done].
  - destruct HP as [_ HP]. destruct (String.eqb_spec (req_ServerOverrideID req) "") as [Ho|Ho];
      [|split; [done|intros _; apply HP]]. split; [intros _|done]. destruct HP as [Hm _].
    unfold mayServe in Hm. apply andb_true_iff in Hm as [Hm _]. apply andb_true_iff in Hm as [Hm _].
    rewrite <- (rw_allowed _ _ Hstore _ [srv_ID (mc_Server c)] _ Hgate eq_refl) in Hm by left.
    apply bool_decide_eq_true in Hm. apply (allowed_granted settings flags groups a HI) in Hm as [_ Hm]. done.
  - split; [apply HP|].
    destruct (resolveVendorAccount_routable _ _ _ _ _ _ (HA acc t eq_refl)) as (accounts & Er & Hin).
    unfold routableVendorAccounts in Er. rewrite Henum in Er.
    destruct (vendor_grant settings flags groups a HI token) as (own & shared & Ev & _ & _ & Ho & Hs). rewrite Ev in Er.
    injection Er as <-. apply elem_of_app in Hin as [Hin|Hin]; [left; by apply Ho|right; by apply Hs].
Qed.

End routing.

(** ** Examples *)

Module Examples.

Local Existing Instance ascii_tables.

Import GroupsProps.Examples ResolvingProps.Examples AccessStoreProps.Examples.

(** u1 is in the team the group is provisioned for; provisioning is enforced, sharing is on. *)
Definition teams (user tier state : string) : list UserGroup :=
  if String.eqb user "u1" && String.eqb tier GroupTierUser then [mkUserGroup "team" GroupTierUser "Team" "" "u9" 0 0] else [].

Definition enforced : gmap string string := {["resource_provisioning_enforce" := " true "]}.

Definition portal : PortalView := portalOf enforced (mkSharingFlags true false) teams shared.

Definition u1 : Token := mkToken "t1" "u1" (mkVendorAccess false [mkVendorAccessEntry "acc1" true "x/"]) "" "".
Definition stranger : Token := plainToken "t2" "u7".

Lemma allowed_exact_witness :
  AllowedServerIDs portal u1 ["s1"; "s2"] = {["s1"]} /\ AllowedServerIDs portal stranger ["s1"] = ∅ /\
  grantedServer teams shared u1 "s1".
Proof.
  split; [vm_compute; reflexivity|]. split; [vm_compute; reflexivity|].
  destruct (proj1 (allowed_exact enforced (mkSharingFlags true false) teams shared (records_ok _ records_written) u1 ["s1"; "s2"] "s1"))
    as [_ [Hg|[He _]]].
  - apply (proj1 (bool_decide_spec _)). vm_compute. exact I.
  - exact Hg.
  - vm_compute in He. discriminate He.
Defined.

Lemma vendor_grant_exact_witness :
  exists acc, VendorAccountsForRouting portal u1 = Some [acc] /\ acc_ID acc = "acc1" /\ sharedWith (mkSharingFlags true false) teams shared u1 acc.
Proof.
  destruct (vendor_grant_exact enforced (mkSharingFlags true false) teams shared (records_ok _ records_written) u1)
    as (own & others & E & _ & _ & Ho & Hs). fold portal in E.
  assert (Ev : exists acc, VendorAccountsForRouting portal u1 = Some [acc] /\ acc_ID acc = "acc1" /\ acc_OwnerUserID acc = "u2").
  { eexists. split; [vm_compute; reflexivity|]. split; reflexivity. }
  destruct Ev as (acc & Ev & Hid & Hown). exists acc. split; [exact Ev|]. split; [exact Hid|].
  rewrite Ev in E. injection E as E. destruct own as [|x own].
  - simpl in E. apply Hs. rewrite <- E. left.
  - injection E as -> _. destruct (proj1 (Ho x) ltac:(left)) as (_ & _ & E). rewrite Hown in E. discriminate E.
Defined.

(** The resolver's store with the portal's gate. *)
Definition gated : StoreView :=
  mkStoreView (sv_ActiveMappingsForModel store) (Some (fun ids => Some (AllowedServerIDs portal u1 ids)))
    (sv_MappingCapabilities store) (sv_MappingVoices store) (sv_realtimeMinFactor store).

Definition granted : facts :=
  mkFacts (fun id => bool_decide (id ∈ AllowedServerIDs portal u1 [id])) (f_caps open) (f_voices open).

Lemma gated_rowwise : rowwise gated granted.
Proof.
  split; [done| |apply (rw_caps _ _ store_open)|apply (rw_voices _ _ store_open)].
  intros gate ids answer [= <-] [= <-] id Hid. apply bool_decide_ext. unfold portal.
  rewrite !(allowed_granted _ _ _ _ (records_ok _ records_written)). set_solver.
Qed.

Definition gatedWorld : Env := {|
  e_legacyAffinity := e_legacyAffinity world; e_Group := e_Group world; e_DirectAllowed := e_DirectAllowed world;
  e_groupStore := gated; e_groupTurns := e_groupTurns world; e_sources := e_sources world; e_pin := e_pin world;
  e_pinTurns := e_pinTurns world; e_clockAfterPin := e_clockAfterPin world; e_store := gated;
  e_turns := e_turns world; e_UpsertAffinity := e_UpsertAffinity world; e_RuntimeSpecByMapping := e_RuntimeSpecByMapping world
|}.

Definition grantedAccounts : VendorView := {|
  vv_enabled := Some true; vv_routingMode := None; vv_subscriptionsAllowed := None;
  vv_enumerator := Some (VendorAccountsForRouting portal); vv_VendorAccountsByOwner := fun _ => None;
  vv_VendorAccountModels id := Some (VendorAccountModels id shared)
|}.

Lemma served_is_granted_witness :
  (Resolve hash decode true gatedWorld grantedAccounts u1 (asks "big" "") 1010).1 = OnMapping big bigTarget /\
  grantedServer teams shared u1 "s1".
Proof.
  assert (E : (Resolve hash decode true gatedWorld grantedAccounts u1 (asks "big" "") 1010).1 = OnMapping big bigTarget)
    by (vm_compute; reflexivity).
  split; [exact E|].
  pose proof (served_is_granted enforced (mkSharingFlags true false) teams shared (records_ok _ records_written)
    hash decode gatedWorld grantedAccounts u1 (asks "big" "") 1010 granted gated_rowwise
    (fun i t Ht => match not_elem_of_nil t Ht with end)
    (fun id rows E => eq_sym (f_equal (fun x => match x with Some l => l | None => [] end) E)) eq_refl eq_refl) as HG.
  rewrite E in HG. destruct HG as [HG _]. destruct (HG eq_refl) as [Hg|[He _]]; [exact Hg|].
  vm_compute in He. discriminate He.
Defined.

End Examples.
