(* ===== verification/Directory.v ===== *)
(** * The directory of groups and projects

    Models the group and project tables of
    [gateway/backend/internal/portal/memory_directory.go] (the [GroupStore] and
    [ProjectStore] of the memory driver): the tree of user groups with its members and
    co-managers, and the projects with theirs.  Deleting a group deletes its descendants,
    their rows and the projects' references to them, by a recursion over the very map it
    deletes from; its fuel is the number of groups.  Users, tokens and sessions of the same
    file are not modelled. *)

From Stdlib Require Import ZArith Lia.
From stdpp Require Import base tactics option list numbers strings gmap sorting.
From S2P Require Import Prelude RoutingTypes MemoryStore AccessStore Provisioning.
Local Open Scope Z_scope.
Local Open Scope go_scope.

(** ** Rows *)

Global Instance UserGroup_fields : Fields UserGroup := fun g =>
  mkUserGroup (ug_ID g) (ug_Tier g) (ug_Name g) (ug_ParentGroupID g) (ug_OwnerUserID g) (ug_CreatedAt g) (ug_UpdatedAt g).

Record UserGroupMembership := mkMembership {
  um_GroupID : string;
  um_UserID : string;
  um_State : string;
  um_InvitedBy : string;
  um_CreatedAt : time
}.

Record userGroupManagerEntry := mkManagerEntry {
  me_canManageUsers : bool;
  me_canManageGroup : bool;
  me_canManageServers : bool;
  me_canManageServices : bool;
  me_canManageResources : bool;
  me_canManageVendorAccounts : bool;
  me_createdAt : time
}.

Record UserGroupManagerPerm := mkManagerPerm {
  mp_UserID : string;
  mp_CanManageUsers : bool;
  mp_CanManageGroup : bool;
  mp_CanManageServers : bool;
  mp_CanManageServices : bool;
  mp_CanManageResources : bool;
  mp_CanManageVendorAccounts : bool
}.

Record Project := mkProject {
  pj_ID : string;
  pj_Name : string;
  pj_Description : string;
  pj_OwnerUserID : string;
  pj_CoupledGroupID : string;
  pj_CreatedAt : time;
  pj_UpdatedAt : time
}.

Global Instance Project_fields : Fields Project := fun p =>
  mkProject (pj_ID p) (pj_Name p) (pj_Description p) (pj_OwnerUserID p) (pj_CoupledGroupID p) (pj_CreatedAt p) (pj_UpdatedAt p).

Record MemoryDirectory := mkDirectory {
  d_groups : gmap string UserGroup;
  d_members : gmap string (gmap string UserGroupMembership);
  d_managers : gmap string (gmap string userGroupManagerEntry);
  d_projects : gmap string Project;
  d_projectMembers : links;
  d_projectGroups : links
}.

Global Instance MemoryDirectory_fields : Fields MemoryDirectory := fun d =>
  mkDirectory (d_groups d) (d_members d) (d_managers d) (d_projects d) (d_projectMembers d) (d_projectGroups d).

Definition NewMemoryDirectory : MemoryDirectory := mkDirectory ∅ ∅ ∅ ∅ ∅ ∅.

Definition filed : Type := option storeErr * MemoryDirectory.

(** ** Groups *)

Definition CreateUserGroup (g : UserGroup) (d : MemoryDirectory) : filed :=
  if has_key (d_groups d) (ug_ID g) then (Some ErrConflict, d)
  else (None, d <| d_groups ::= <[ug_ID g := g]> |>).

Definition UserGroupByID (id : string) (d : MemoryDirectory) : UserGroup + storeErr := byKey (d_groups d) id.

Definition UpdateUserGroup (g : UserGroup) (d : MemoryDirectory) : filed :=
  match d_groups d !! ug_ID g with
  | None => (Some ErrNotFound, d)
  | Some existing =>
      (None, d <| d_groups ::= <[ug_ID g := existing <| ug_Name := ug_Name g |> <| ug_OwnerUserID := ug_OwnerUserID g |>
                                                     <| ug_UpdatedAt := ug_UpdatedAt g |>]> |>)
  end.

Definition dropProjectGroupsForGroupLocked (groupID : string) (d : MemoryDirectory) : MemoryDirectory :=
  d <| d_projectGroups ::= fmap (delete groupID) |>.

Definition uncouple (id : string) (p : Project) : Project :=
  if String.eqb (pj_CoupledGroupID p) id then p <| pj_CoupledGroupID := "" |> else p.

(** What the cascade deletes for one group. *)
Definition dropGroup (id : string) (d : MemoryDirectory) : MemoryDirectory :=
  (dropProjectGroupsForGroupLocked id
    (d <| d_groups ::= delete id |> <| d_members ::= delete id |> <| d_managers ::= delete id |>))
    <| d_projects ::= fmap (uncouple id) |>.

(** The range over the groups: an entry deleted before it is reached is not visited. *)
Fixpoint deleteGroupCascadeLocked (fuel : nat) (id : string) (d : MemoryDirectory) : MemoryDirectory :=
  match fuel with
  | O => d
  | S fuel =>
      let d := dropGroup id d in
      foldl (fun d childID =>
        match d_groups d !! childID with
        | Some child => if String.eqb (ug_ParentGroupID child) id then deleteGroupCascadeLocked fuel childID d else d
        | None => d
        end) d (map_to_list (d_groups d)).*1
  end.

Definition DeleteUserGroup (id : string) (d : MemoryDirectory) : filed :=
  if negb (has_key (d_groups d) id) then (Some ErrNotFound, d)
  else (None, deleteGroupCascadeLocked (size (d_groups d)) id d).

Definition sortUserGroups (gs : list UserGroup) : list UserGroup :=
  sort_Slice (less_lex (less_string ug_Name) (less_string ug_ID)) gs.

Definition groupsWhere (keep : UserGroup -> bool) (d : MemoryDirectory) : list UserGroup :=
  sortUserGroups (List.filter keep (map_to_list (d_groups d)).*2).

Definition ListUserGroupsByTier (tier : string) : MemoryDirectory -> list UserGroup :=
  groupsWhere (fun g => String.eqb (ug_Tier g) tier).

Definition ChildUserGroups (parentID : string) : MemoryDirectory -> list UserGroup :=
  groupsWhere (fun g => String.eqb (ug_ParentGroupID g) parentID).

(** ** Members and co-managers *)

Definition SetUserGroupMember (groupID userID state invitedBy : string) (now : time) (d : MemoryDirectory) : filed :=
  let group := map_get ∅ (d_members d) groupID in
  let created := match group !! userID with Some existing => um_CreatedAt existing | None => now end in
  (None, d <| d_members ::= <[groupID := <[userID := mkMembership groupID userID state invitedBy created]> group]> |>).

Definition RemoveUserGroupMember (groupID userID : string) (d : MemoryDirectory) : filed :=
  match d_members d !! groupID with
  | Some group => (None, d <| d_members ::= <[groupID := delete userID group]> |>)
  | None => (None, d)
  end.

Definition UserGroupMembers (groupID : string) (d : MemoryDirectory) : list UserGroupMembership :=
  sort_Slice (less_lex (less_Z um_CreatedAt) (less_string um_UserID)) (map_to_list (map_get ∅ (d_members d) groupID)).*2.

(** Whether the membership row of a group makes it one of the answer. *)
Definition groupForUser (d : MemoryDirectory) (userID tier state groupID : string) (byUser : gmap string UserGroupMembership)
  : option UserGroup :=
  mem ← byUser !! userID;
  if negb (String.eqb state "") && negb (String.eqb (um_State mem) state) then None
  else
    g ← d_groups d !! groupID;
    if negb (String.eqb tier "") && negb (String.eqb (ug_Tier g) tier) then None else Some g.

Definition UserGroupsForUser (d : MemoryDirectory) (userID tier state : string) : list UserGroup :=
  sortUserGroups (omap (fun '(groupID, byUser) => groupForUser d userID tier state groupID byUser) (map_to_list (d_members d))).

Definition SetUserGroupManager (groupID userID : string) (now : time) (d : MemoryDirectory) : filed :=
  let group := map_get ∅ (d_managers d) groupID in
  let group := if has_key group userID then group
               else <[userID := mkManagerEntry true true true true true true now]> group in
  (None, d <| d_managers ::= <[groupID := group]> |>).

Definition RemoveUserGroupManager (groupID userID : string) (d : MemoryDirectory) : filed :=
  match d_managers d !! groupID with
  | Some group => (None, d <| d_managers ::= <[groupID := delete userID group]> |>)
  | None => (None, d)
  end.

Definition UserGroupManagers (groupID : string) (d : MemoryDirectory) : list string :=
  sortedKeys (map_get ∅ (d_managers d) groupID).

Definition permOf (userID : string) (e : userGroupManagerEntry) : UserGroupManagerPerm :=
  mkManagerPerm userID (me_canManageUsers e) (me_canManageGroup e) (me_canManageServers e) (me_canManageServices e)
    (me_canManageResources e) (me_canManageVendorAccounts e).

Definition UserGroupManagerPerms (groupID : string) (d : MemoryDirectory) : list UserGroupManagerPerm :=
  (fun '(userID, e) => permOf userID e) <$>
    sort_Slice (less_lex (less_Z (fun x => me_createdAt x.2)) (less_string fst)) (map_to_list (map_get ∅ (d_managers d) groupID)).

Definition SetUserGroupManagerPermissions (groupID : string) (perm : UserGroupManagerPerm) (d : MemoryDirectory) : filed :=
  match d_managers d !! groupID with
  | None => (Some ErrNotFound, d)
  | Some group =>
      match group !! mp_UserID perm with
      | None => (Some ErrNotFound, d)
      | Some e =>
          (None, d <| d_managers ::= <[groupID := <[mp_UserID perm :=
            mkManagerEntry (mp_CanManageUsers perm) (mp_CanManageGroup perm) (mp_CanManageServers perm)
              (mp_CanManageServices perm) (mp_CanManageResources perm) (mp_CanManageVendorAccounts perm) (me_createdAt e)]> group]> |>)
      end
  end.

(** ** Projects *)

Definition CreateProject (p : Project) (d : MemoryDirectory) : filed :=
  if has_key (d_projects d) (pj_ID p) then (Some ErrConflict, d)
  else (None, d <| d_projects ::= <[pj_ID p := p]> |>).

Definition ProjectByID (id : string) (d : MemoryDirectory) : Project + storeErr := byKey (d_projects d) id.

Definition UpdateProject (p : Project) (d : MemoryDirectory) : filed :=
  match d_projects d !! pj_ID p with
  | None => (Some ErrNotFound, d)
  | Some existing =>
      (None, d <| d_projects ::= <[pj_ID p := existing <| pj_Name := pj_Name p |> <| pj_Description := pj_Description p |>
                                                       <| pj_OwnerUserID := pj_OwnerUserID p |> <| pj_UpdatedAt := pj_UpdatedAt p |>]> |>)
  end.

Definition DeleteProject (id : string) (d : MemoryDirectory) : filed :=
  if negb (has_key (d_projects d) id) then (Some ErrNotFound, d)
  else (None, d <| d_projects ::= delete id |> <| d_projectMembers ::= delete id |> <| d_projectGroups ::= delete id |>).

Definition sortProjects (ps : list Project) : list Project :=
  sort_Slice (less_lex (less_string pj_Name) (less_string pj_ID)) ps.

Definition projectsWhere (keep : string -> Project -> bool) (d : MemoryDirectory) : list Project :=
  sortProjects (List.filter (fun '(id, p) => keep id p) (map_to_list (d_projects d))).*2.

Definition ListProjects : MemoryDirectory -> list Project := projectsWhere (fun _ _ => true).

Definition SetProjectMember (projectID userID : string) (now : time) (d : MemoryDirectory) : filed :=
  (None, d <| d_projectMembers ::= link projectID userID now |>).

Definition RemoveProjectMember (projectID userID : string) (d : MemoryDirectory) : filed :=
  (None, d <| d_projectMembers ::= unlink projectID userID |>).

Definition ProjectMembers (projectID : string) (d : MemoryDirectory) : list string :=
  sortedByFirstSeen (map_get ∅ (d_projectMembers d) projectID).

Definition SetProjectGroup (projectID groupID : string) (now : time) (d : MemoryDirectory) : filed :=
  (None, d <| d_projectGroups ::= link projectID groupID now |>).

Definition RemoveProjectGroup (projectID groupID : string) (d : MemoryDirectory) : filed :=
  (None, d <| d_projectGroups ::= unlink projectID groupID |>).

Definition ProjectGroups (projectID : string) (d : MemoryDirectory) : list string :=
  sortedByFirstSeen (map_get ∅ (d_projectGroups d) projectID).

Definition ProjectsByOwnerOrMember (userID : string) (d : MemoryDirectory) : list Project :=
  projectsWhere (fun id p => String.eqb (pj_OwnerUserID p) userID || has_key (map_get ∅ (d_projectMembers d) id) userID) d.

Definition ProjectsByGroup (groupID : string) (d : MemoryDirectory) : list Project :=
  projectsWhere (fun id _ => has_key (map_get ∅ (d_projectGroups d) id) groupID) d.

Definition CoupledProjectsByGroup (groupID : string) (d : MemoryDirectory) : list Project :=
  if String.eqb groupID "" then [] else projectsWhere (fun _ p => String.eqb (pj_CoupledGroupID p) groupID) d.
