(* ===== verification/DirectoryProps.v ===== *)
(** * Properties of the directory

    Deleting a group removes exactly its descendants, on any graph of parents; and a group
    grants through it exactly the memberships that were accepted. *)

From Stdlib Require Import ZArith Lia.
From stdpp Require Import base tactics option list numbers strings gmap sorting relations.
From S2P Require Import Prelude RoutingTypes FiltersProps Groups Vendors MemoryStore MemoryStoreIntegrity MemoryStoreProps AccessStore AccessStoreProps Provisioning ProvisioningProps Directory.
Local Open Scope Z_scope.
Local Open Scope go_scope.

(** ** Dropping a set of groups *)

Definition uncoupleAll (R : gset string) (p : Project) : Project :=
  if bool_decide (pj_CoupledGroupID p ∈ R) then p <| pj_CoupledGroupID := "" |> else p.

Definition without {V} (R : gset string) (t : gmap string V) : gmap string V := filter (fun e => e.1 ∉ R) t.

(** The directory without the groups [R], their rows and every reference to them. *)
Definition dropAll (R : gset string) (d : MemoryDirectory) : MemoryDirectory :=
  mkDirectory (without R (d_groups d)) (without R (d_members d)) (without R (d_managers d))
    (uncoupleAll R <$> d_projects d) (d_projectMembers d) (without R <$> d_projectGroups d).

Lemma without_one {V} id (t : gmap string V) : delete id t = without {[id]} t.
Proof.
  apply map_eq. intros k. unfold without. destruct (decide (k = id)) as [->|Hne].
  - rewrite lookup_delete_eq. symmetry. apply map_lookup_filter_None. right. intros v _ Hn. set_solver.
  - rewrite lookup_delete_ne by done. destruct (t !! k) as [v|] eqn:E; symmetry.
    + apply map_lookup_filter_Some. split; [done|]. set_solver.
    + apply map_lookup_filter_None. by left.
Qed.

Lemma without_without {V} R1 R2 (t : gmap string V) : without R2 (without R1 t) = without (R1 ∪ R2) t.
Proof. unfold without. rewrite map_filter_filter. apply map_filter_ext. intros k v _. simpl. set_solver. Qed.

Lemma without_lookup {V} R (t : gmap string V) k v : without R t !! k = Some v <-> t !! k = Some v /\ k ∉ R.
Proof. apply map_lookup_filter_Some. Qed.

Lemma dropGroup_one id d : dropGroup id d = dropAll {[id]} d.
Proof.
  change (dropGroup id d) with (mkDirectory (delete id (d_groups d)) (delete id (d_members d)) (delete id (d_managers d))
    (uncouple id <$> d_projects d) (d_projectMembers d) (delete id <$> d_projectGroups d)).
  unfold dropAll. f_equal; [apply without_one..| |].
  - apply map_fmap_ext. intros _ p _. unfold uncouple, uncoupleAll.
    destruct (String.eqb_spec (pj_CoupledGroupID p) id); [rewrite bool_decide_true by set_solver|rewrite bool_decide_false by set_solver]; done.
  - apply map_fmap_ext. intros. apply without_one.
Qed.

Lemma dropAll_dropAll R1 R2 d : dropAll R2 (dropAll R1 d) = dropAll (R1 ∪ R2) d.
Proof.
  unfold dropAll. destruct d; cbn. f_equal; [apply without_without..| |].
  - rewrite <- map_fmap_compose. apply map_fmap_ext. intros _ p _. unfold uncoupleAll. simpl.
    destruct (decide (pj_CoupledGroupID p ∈ R1)) as [H1|H1].
    + rewrite (bool_decide_true (_ ∈ R1)), (bool_decide_true (_ ∈ R1 ∪ R2)) by set_solver. simpl. by case_bool_decide.
    + rewrite (bool_decide_false (_ ∈ R1)) by done. repeat case_bool_decide; set_solver.
  - rewrite <- map_fmap_compose. apply map_fmap_ext. intros. apply without_without.
Qed.

(** ** The cascade *)

Definition childOf (d : MemoryDirectory) (parent child : string) : Prop :=
  exists g, d_groups d !! child = Some g /\ ug_ParentGroupID g = parent.

(** [id] itself and every group below it. *)
Definition descendant (d : MemoryDirectory) (id g : string) : Prop := rtc (childOf d) id g.

Lemma childOf_dropAll R d x y : childOf (dropAll R d) x y -> childOf d x y.
Proof. intros (g & Hg & Hp). apply without_lookup in Hg as [? _]. by exists g. Qed.

Lemma descendant_dropAll R d x y : descendant (dropAll R d) x y -> descendant d x y.
Proof. apply rtc_subrel, childOf_dropAll. Qed.

(** Nothing is left below [R], but for children of the groups in [except]. *)
Definition closed (d : MemoryDirectory) (R except : gset string) : Prop :=
  forall g row, d_groups (dropAll R d) !! g = Some row -> ug_ParentGroupID row ∈ R -> ug_ParentGroupID row ∈ except.

(** What one call of the cascade does. *)
Definition cascades (fuel : nat) : Prop :=
  forall id d, is_Some (d_groups d !! id) -> (size (d_groups d) <= fuel)%nat ->
  exists R, deleteGroupCascadeLocked fuel id d = dropAll R d /\ id ∈ R /\
    (forall g, g ∈ R -> descendant d id g) /\ closed d R ∅.

(** The loop over the children, once the groups [R] are dropped. *)
Lemma loop_cascades fuel id d ks R :
  cascades fuel -> id ∈ R -> (forall g, g ∈ R -> descendant d id g) -> closed d R {[id]} ->
  (size (d_groups (dropAll R d)) <= fuel)%nat ->
  exists R',
    foldl (fun d childID =>
      match d_groups d !! childID with
      | Some child => if String.eqb (ug_ParentGroupID child) id then deleteGroupCascadeLocked fuel childID d else d
      | None => d
      end) (dropAll R d) ks = dropAll R' d /\
    R ⊆ R' /\ (forall g, g ∈ R' -> descendant d id g) /\ closed d R' {[id]} /\
    forall k row, k ∈ ks -> d_groups (dropAll R' d) !! k = Some row -> ug_ParentGroupID row <> id.
Proof.
  intros IH. revert R. induction ks as [|k ks IHk]; intros R Hid Hdesc Hcl Hsz; cbn [foldl].
  { exists R. split_and!; try done. by intros ? ? ?%elem_of_nil. }
  assert (Hnext : forall R1, R ⊆ R1 -> (forall g, g ∈ R1 -> descendant d id g) -> closed d R1 {[id]} ->
    (forall row, d_groups (dropAll R1 d) !! k = Some row -> ug_ParentGroupID row <> id) ->
    exists R', foldl (fun d childID => match d_groups d !! childID with
        | Some child => if String.eqb (ug_ParentGroupID child) id then deleteGroupCascadeLocked fuel childID d else d
        | None => d end) (dropAll R1 d) ks = dropAll R' d /\
      R ⊆ R' /\ (forall g, g ∈ R' -> descendant d id g) /\ closed d R' {[id]} /\
      forall k' row, k' ∈ k :: ks -> d_groups (dropAll R' d) !! k' = Some row -> ug_ParentGroupID row <> id).
  { intros R1 Hsub H1 H2 H3. destruct (IHk R1) as (R' & E & Hs' & Hd' & Hc' & Hk'); [set_solver|done|done| |].
    { etransitivity; [|exact Hsz]. apply map_subseteq_size, map_subseteq_spec. intros i x Hx.
      apply without_lookup in Hx as [? ?]. apply without_lookup. set_solver. }
    exists R'. split_and!; [done|set_solver|done|done|]. intros k' row [->|Hin]%elem_of_cons Hr; [|by eapply Hk'].
    apply H3. apply without_lookup in Hr as [? ?]. apply without_lookup. set_solver. }
  destruct (d_groups (dropAll R d) !! k) as [child|] eqn:Ek; [|apply Hnext; [done..|by rewrite Ek]].
  destruct (String.eqb_spec (ug_ParentGroupID child) id) as [Ep|Hne]; [|apply Hnext; [done..|intros row; rewrite Ek; by intros [= <-]]].
  destruct (IH k (dropAll R d)) as (Rk & E & Hk & Hdk & Hck); [by rewrite Ek|done|]. rewrite E, dropAll_dropAll.
  apply Hnext; [set_solver| | |].
  - intros g [?|Hg]%elem_of_union; [by apply Hdesc|]. apply rtc_l with k.
    + apply without_lookup in Ek as [Ek _]. by exists child.
    + by eapply descendant_dropAll, Hdk.
  - intros g row Hr Hp. rewrite <- dropAll_dropAll in Hr. apply elem_of_union in Hp as [Hp|Hp].
    + apply (Hcl g row); [|done]. by apply without_lookup in Hr as [? _].
    + exfalso. specialize (Hck g row Hr Hp). set_solver.
  - intros row Hr. apply without_lookup in Hr as [_ Hn]. set_solver.
Qed.

Lemma cascade_all fuel : cascades fuel.
Proof.
  induction fuel as [|fuel IH]; intros id d [g Hg] Hsz.
  { assert (d_groups d = ∅) as E by (apply map_size_empty_inv; lia). by rewrite E in Hg. }
  cbn [deleteGroupCascadeLocked]. rewrite dropGroup_one.
  destruct (loop_cascades fuel id d (map_to_list (d_groups (dropAll {[id]} d))).*1 {[id]}) as (R & E & Hs & Hd & Hc & Hk); [done|set_solver|..].
  - intros x ->%elem_of_singleton. apply rtc_refl.
  - intros x row _ Hp. done.
  - cbn. rewrite <- without_one. rewrite map_size_delete_Some by eauto. lia.
  - exists R. split_and!; [done|set_solver|done|]. intros x row Hr Hp. specialize (Hc x row Hr Hp).
    apply elem_of_singleton in Hc. exfalso. eapply Hk; [|exact Hr|done].
    apply list_elem_of_fmap. apply without_lookup in Hr as [Hr Hn]. exists (x, row). split; [done|].
    apply elem_of_map_to_list, without_lookup. set_solver.
Qed.

Lemma DeleteUserGroup_drops id d d' :
  DeleteUserGroup id d = (None, d') -> exists R, d' = dropAll R d /\ forall g, g ∈ R <-> descendant d id g.
Proof.
  unfold DeleteUserGroup. destruct (has_key (d_groups d) id) eqn:Ek; [|done]. intros [= <-]. apply has_key_true in Ek.
  destruct (cascade_all (size (d_groups d)) id d Ek) as (R & -> & Hid & Hd & Hc); [done|]. exists R. split; [done|].
  intros g. split; [by apply Hd|]. unfold descendant. revert g. apply (rtc_ind_r (fun g => g ∈ R)); [done|].
  intros p c _ (row & Hr & Ep) IH.
  destruct (decide (c ∈ R)) as [|Hn]; [done|]. exfalso.
  assert (Hr' : d_groups (dropAll R d) !! c = Some row) by (by apply without_lookup).
  specialize (Hc c row Hr'). rewrite Ep in Hc. specialize (Hc IH). set_solver.
Qed.

(** C28.  Deleting a group deletes exactly that group and those below it in the tree, however
    deep, in whatever order the table is walked, and even if parents form a cycle.  With them
    go their members, their co-managers and every project's reference to them; a project
    coupled to one of them is uncoupled; nothing else changes. *)
Theorem group_cascade_exact id d d' :
  DeleteUserGroup id d = (None, d') -> exists R, d' = dropAll R d /\ forall g, g ∈ R <-> descendant d id g.
Proof. apply DeleteUserGroup_drops. Qed.

(** ** Memberships *)

(** Every group is filed under its own identifier, as every write leaves it. *)
Definition directory_ok (d : MemoryDirectory) : Prop := forall id g, d_groups d !! id = Some g -> ug_ID g = id.

Inductive group_write : (MemoryDirectory -> filed) -> Prop :=
| gw_CreateUserGroup g : group_write (CreateUserGroup g)
| gw_UpdateUserGroup g : group_write (UpdateUserGroup g)
| gw_DeleteUserGroup id : group_write (DeleteUserGroup id)
| gw_SetUserGroupMember g u s i now : group_write (SetUserGroupMember g u s i now)
| gw_RemoveUserGroupMember g u : group_write (RemoveUserGroupMember g u)
| gw_SetUserGroupManager g u now : group_write (SetUserGroupManager g u now)
| gw_RemoveUserGroupManager g u : group_write (RemoveUserGroupManager g u)
| gw_SetUserGroupManagerPermissions g perm : group_write (SetUserGroupManagerPermissions g perm)
| gw_CreateProject p : group_write (CreateProject p)
| gw_UpdateProject p : group_write (UpdateProject p)
| gw_DeleteProject id : group_write (DeleteProject id)
| gw_SetProjectMember p u now : group_write (SetProjectMember p u now)
| gw_RemoveProjectMember p u : group_write (RemoveProjectMember p u)
| gw_SetProjectGroup p g now : group_write (SetProjectGroup p g now)
| gw_RemoveProjectGroup p g : group_write (RemoveProjectGroup p g).

Lemma directory_write_ok w d : group_write w -> directory_ok d -> directory_ok (w d).2.
Proof.
  intros Hw Hok. destruct Hw; try done.
  - unfold CreateUserGroup. case_match; [done|]. intros k x Hx. cbn in Hx. look; [done|by apply Hok].
  - unfold UpdateUserGroup. destruct (d_groups d !! ug_ID g) as [e|] eqn:E; [|done]. intros k x Hx. cbn in Hx. look; [by apply (Hok _ e)|by apply Hok].
  - destruct (DeleteUserGroup id d) as [e d'] eqn:E. cbn. destruct e as [e|].
    + unfold DeleteUserGroup in E. case_match; [|done]. by injection E as _ <-.
    + destruct (DeleteUserGroup_drops _ _ _ E) as (R & -> & _). intros k x [Hx _]%without_lookup. by apply Hok.
  - unfold RemoveUserGroupMember. by case_match.
  - unfold RemoveUserGroupManager. by case_match.
  - unfold SetUserGroupManagerPermissions. by repeat case_match.
  - unfold CreateProject. by case_match.
  - unfold UpdateProject. by case_match.
  - unfold DeleteProject. by case_match.
Qed.

(** The groups of a user are those with a row of theirs in the state asked for. *)
Lemma groupsForUser_elem d user tier state g :
  g ∈ UserGroupsForUser d user tier state <->
  exists id byUser mem, d_members d !! id = Some byUser /\ byUser !! user = Some mem /\ d_groups d !! id = Some g /\
    (state <> "" -> um_State mem = state) /\ (tier <> "" -> ug_Tier g = tier).
Proof.
  unfold UserGroupsForUser, sortUserGroups. rewrite sort_Slice_elem, list_elem_of_omap. unfold groupForUser. split.
  - intros ([id byUser] & Hin%elem_of_map_to_list & Hg). destruct (byUser !! user) as [mem|] eqn:Em; [|done]. simpl in Hg.
    destruct (negb (String.eqb state "") && _) eqn:Es; [done|]. destruct (d_groups d !! id) as [x|] eqn:Ex; [|done]. simpl in Hg.
    destruct (negb (String.eqb tier "") && _) eqn:Et; [done|]. injection Hg as <-. exists id, byUser, mem. split_and!; try done.
    + intros Hne%String.eqb_neq. rewrite Hne in Es. simpl in Es. by apply negb_false_iff, String.eqb_eq in Es.
    + intros Hne%String.eqb_neq. rewrite Hne in Et. simpl in Et. by apply negb_false_iff, String.eqb_eq in Et.
  - intros (id & byUser & mem & Hm & Hu & Hg & Hs & Ht). exists (id, byUser). split; [by apply elem_of_map_to_list|].
    rewrite Hu. simpl. destruct (String.eqb_spec state "") as [E|Hne]; simpl.
    + rewrite Hg. simpl. destruct (String.eqb_spec tier "") as [Et|Hnt]; simpl; [done|]. by rewrite (Ht Hnt), String.eqb_refl.
    + rewrite (Hs Hne), String.eqb_refl. simpl. rewrite Hg. simpl.
      destruct (String.eqb_spec tier "") as [Et|Hnt]; simpl; [done|]. by rewrite (Ht Hnt), String.eqb_refl.
Qed.

(** The identifiers of the groups a user is in after some groups are dropped. *)
Lemma groupIDs_dropAll R d user tier state id :
  directory_ok d ->
  id ∈ groupIDs (UserGroupsForUser (dropAll R d) user tier state) <->
  id ∈ groupIDs (UserGroupsForUser d user tier state) /\ id ∉ R.
Proof.
  intros Hok. unfold groupIDs. rewrite !list_elem_of_fmap. setoid_rewrite groupsForUser_elem. cbn. split.
  - intros (g & -> & k & byUser & mem & [Hm Hk]%without_lookup & Hu & [Hg _]%without_lookup & Hs & Ht).
    rewrite (Hok k g Hg). split; [|done]. exists g. split; [by rewrite (Hok k g Hg)|]. eauto 10.
  - intros ((g & -> & k & byUser & mem & Hm & Hu & Hg & Hs & Ht) & Hn). rewrite (Hok k g Hg) in Hn. exists g. split; [done|].
    exists k, byUser, mem. split_and!; try done; by apply without_lookup.
Qed.

(** C29.  Deleting a group revokes exactly what it granted.  Afterwards a provision is for a
    principal just when it was before and does not name the deleted group or one below it --
    a user keeps what their own provision and their other groups give them, and a service is
    not affected at all. *)
Theorem group_delete_revokes id d d' principal p :
  directory_ok d -> DeleteUserGroup id d = (None, d') ->
  isFor (UserGroupsForUser d') principal p <->
  isFor (UserGroupsForUser d) principal p /\
  ~ (IsService principal = false /\ (rp_Kind p = ProvisionKindUserGroup \/ rp_Kind p = ProvisionKindAdminGroup) /\
     descendant d id (rp_TargetID p)).
Proof.
  intros Hok E. destruct (DeleteUserGroup_drops _ _ _ E) as (R & -> & HR). unfold isFor.
  destruct (IsService principal); [naive_solver|]. rewrite !(groupIDs_dropAll R d _ _ _ _ Hok), !HR.
  split.
  - intros (Hu & [[Hk Ht]|[(Hk & Ht & Hn)|(Hk & Ht & Hn)]]).
    + split; [auto|]. rewrite Hk. by intros (_ & [?|?] & _).
    + split; [auto 6|]. tauto.
    + split; [auto 6|]. tauto.
  - intros [(Hu & Hc) Hn]. split; [done|]. destruct Hc as [?|[[Hk Ht]|[Hk Ht]]]; [auto|right; left|right; right]; split_and!; try done; tauto.
Qed.

(** ** Examples *)

Module Examples.

(** A tree of three groups with a project coupled to the leaf; u1 is a member of the leaf,
    u2 is only invited to it. *)
Definition group (id tier parent : string) : UserGroup := mkUserGroup id tier id parent "" 0 0.

Definition tree : MemoryDirectory :=
  foldl (fun d w => (w d).2) NewMemoryDirectory
    [CreateUserGroup (group "sys" "system" ""); CreateUserGroup (group "adm" "admin" "sys");
     CreateUserGroup (group "team" "user" "adm"); CreateUserGroup (group "other" "user" "sys");
     SetUserGroupMember "team" "u1" GroupStateMember "" 1; SetUserGroupMember "other" "u1" GroupStateMember "" 2;
     SetUserGroupMember "team" "u2" "invited" "u1" 3; CreateProject (mkProject "p1" "P" "" "" "team" 0 0); SetProjectGroup "p1" "team" 4].

Lemma tree_ok : directory_ok tree.
Proof. do 9 (apply directory_write_ok; [constructor|]). intros id g Hg. discriminate Hg. Qed.

Lemma adm_below : descendant tree "adm" "team".
Proof. eapply rtc_once. exists (group "team" "user" "adm"). split; vm_compute; reflexivity. Qed.

Lemma group_cascade_exact_witness :
  sortedKeys (d_groups (DeleteUserGroup "adm" tree).2) = ["other"; "sys"] /\
  pj_CoupledGroupID <$> d_projects (DeleteUserGroup "adm" tree).2 !! "p1" = Some "" /\
  exists R, "team" ∈ R /\ (DeleteUserGroup "adm" tree).2 = dropAll R tree.
Proof.
  split; [vm_compute; reflexivity|]. split; [vm_compute; reflexivity|].
  destruct (group_cascade_exact "adm" tree (DeleteUserGroup "adm" tree).2 ltac:(vm_compute; reflexivity)) as (R & E & HR).
  exists R. split; [|exact E]. apply HR. exact adm_below.
Defined.

Lemma group_delete_revokes_witness :
  groupIDs (UserGroupsForUser tree "u2" GroupTierUser GroupStateMember) = [] /\
  isFor (UserGroupsForUser tree) (plainToken "t" "u1") (mkProvision ProvisionKindUserGroup "team") /\
  ~ isFor (UserGroupsForUser (DeleteUserGroup "adm" tree).2) (plainToken "t" "u1") (mkProvision ProvisionKindUserGroup "team").
Proof.
  split; [vm_compute; reflexivity|]. split.
  - split; [discriminate|]. right. left. split; [reflexivity|]. vm_compute. right. left.
  - intros Hf. apply (group_delete_revokes "adm" tree (DeleteUserGroup "adm" tree).2 _ _ tree_ok ltac:(vm_compute; reflexivity)) in Hf as [_ Hn].
    apply Hn. split; [reflexivity|]. split; [left; reflexivity|exact adm_below].
Defined.

End Examples.
